(* ===== verification/_CoqProject ===== *)
-Q . S2P
Prelude.v
GoBytes.v
JobBuffer.v
Limits.v
Diff.v
PatchParser.v
PatchLines.v
EditFile.v
Json.v
GoPath.v
GoRegexp.v
PathGlob.v
WireErrors.v
Wire.v
Rpc.v
Registration.v
Skills.v
Workspace.v
Observations.v
Files.v
LinkedFiles.v
ReadFile.v
WalkDir.v
Mutations.v
ApplyPatch.v
Executions.v
ExecutionControl.v
Activities.v
ExecutionSteps.v
Admission.v
ContentBlob.v
BlobLayers.v
BlobCompact.v
BlobTheorems.v
BlobValid.v
BlobCache.v
BlobStore.v
BlobTable.v
TxRules.v
Transcripts.v
TranscriptRules.v
Inbox.v
Deferral.v
InboxRules.v
InboxSteps.v
InboxTheorems.v
StoreSteps.v
TextSteps.v
DeliverySteps.v
InboxPromises.v
Feed.v
FeedRules.v
FeedPump.v
FeedGrowth.v
FeedPumpRules.v
Notices.v
ChildRuns.v
Jobs.v
TurnEnd.v
Turns.v
TurnSteps.v
FeedSteps.v
TurnRules.v
JobRules.v
RunRules.v
FeedDrain.v
WakeRules.v
EndRules.v
FeedPromises.v
TurnPromises.v
RecordPromises.v
Program.v
Gateway.v
WorkflowGate.v
Controller.v
