(* ===== verification/Prelude.v ===== *)
(** * Verification of peen: file tools and the durable session store

    peen (package names below are under src/internal/pkg/) lets a language
    model work on a repository.  A turn of the model calls file tools
    (package tools) that read and change a workspace, and everything the model,
    its tools and its child agents do is recorded as steps of durable executions
    (package session), so that work survives a crash of the server or of a
    worker.  What happens in a session is read back through its feed, which a pump
    (package control) carries to live clients; notices tell a session what its
    children and jobs did, and may wake it.  The long columns and payloads of that
    state are stored once, by content (package contentblob).  The turns of a session
    run in a worker, another process, which asks the server for all of this over one
    socket (package worker/protocol).  This development models these parts: the tools
    that read and change files, the tables of a session with the operations on them,
    the feed and its pump, the store of content blobs, the protocol of the workers, and
    two smaller ones, path globs (package pathglob) and the skills that a message names
    (package harness).

    ** Conventions

    A Go call returns an [outcome] (this file): [Ok], [Err] with the sentinel that
    [errors.Is] finds, [Panic], or, for a loop with fuel, [OutOfFuel].  The
    predicate [returns] says that a call does one of the first two; the hint
    database [go] proves it by composition.  Go's [int] and [int64] are [Z], with
    the wrap-around written out where the code can reach it ([wrap64]).  Strings
    and byte slices are [list ascii].  Error messages and log lines are left
    out.  GoBytes, GoPath, GoRegexp and Json hold what the program uses of Go's standard
    library (strings, bytes, unicode/utf8, path/filepath, io/fs, regexp, encoding/json).

    ** The file tools

    - JobBuffer (tools/jobbuffer.go): the ring of output lines of a background
      job.  It refines a full log: what is held is the longest suffix within the
      bounds, a read is the specification's read of the log, and a reader that
      follows the cursor sees every retained line once.
    - Limits (tools/limits.go): the bounds of the tools, their defaults and
      their validation.
    - Diff (tools/diff.go): the unified diff of the reports.  Hunks are
      disjoint, cover the replacements and state the lines they print; the diff
      of a created file does not (a finding).
    - PatchParser (tools/applypatch_parser.go): the patch document.  The parser
      returns on every input, only with [ErrInvalidPatch] or a well-formed patch,
      and reads back what a printer prints.
    - PatchLines (tools/applypatch_lines.go): update hunks on the lines of a
      file, refined against a specification on lists of lines with their endings.
    - EditFile (the pure part of tools/edit.go): several exact-text edits as one
      simultaneous substitution of texts that occur once; a text that overlaps itself
      may occur twice (a finding).
    - Workspace (tools/executor.go, filesystem.go, fsutil.go, workspacefs/fs.go):
      the state of a turn's executor, which is the filesystem and the ledger of
      what the turn has read.  The filesystem and the operating system are the
      classes [FS] and [HostOS]; a tool is a function of the state (the monad
      [exec]), with every mutation it makes in the order of the code.  The
      executor's mutation lock makes each tool one step.
    - Observations (tools/observations.go): the ledger's snapshots.
    - Files: the contract of a write ([WriteContract]) and its proof for the
      virtual filesystem and for the host's temporary-file protocol, from laws
      of the filesystem ([TreeLaws], [VirtualLaws], [HostLaws]).  They speak of plain
      paths, on which no symbolic link lies, in worlds that may hold links elsewhere.
      LinkedFiles: an in-memory world with links that satisfies them.
    - ReadFile (tools/read.go, readimage.go, readpdf.go), WalkDir
      (workspacefs/fs.go), Mutations (tools/write.go, edit.go, move.go, remove.go),
      ApplyPatch (tools/applypatch.go): the handlers.  Their theorems are proved
      against the classes of Files: no tool mutates a path that the turn has not
      read as it is now, failed writes and edits change nothing, a
      successful one changes exactly its file, and a patch is checked as a whole
      before its first mutation and reports exactly what it applied, at plain paths.

    ** The execution store

    - Executions (session/execution.go, executionstop.go, the rows of
      db/models): the tables, keyed by their primary keys; the transaction monad
      [tx], whose failure leaves the tables as they were; the event log; the
      creation of an execution with its lineage.
    - ExecutionControl (session/executioncontrol.go, executionrecovery.go,
      executionstop.go, executioncancel.go): pause, resume, crash
      recovery, stop, and the cancellation of a child's tree.
    - Activities (session/executionactivit*.go, executionfinish*.go,
      executionseal.go, executionchildclaim.go, executionagentcontrol.go,
      executionagentresolution.go): a worker claims a step with a lease,
      completes or interrupts it; an unknown effect goes to reconciliation and is
      inspected; a completion seals the inbox boundary and finishes.
    - ExecutionSteps: the operations as a step relation, an invariant of every
      reachable state, and its consequences: a finished execution never
      changes, an effect that needs reconciliation is executed again only after an
      inspection of the attempt before, a completion is fenced by owner and
      attempt and is idempotent, and the event log of each execution is dense.

    ** Transcripts and the inbox

    - TxRules: what a transaction guarantees of the state it commits
      ([ensures]), closed under the steps of [tx]; the operations on executions that
      leave the messages of the store alone ([calm]).
    - Transcripts (session/transcript.go, messageimages.go, turnlease.go,
      agentruntranscript.go, the sequences of feed.go): what a turn that
      holds its lease appends, and the transcript of a child.  TranscriptRules: numbers
      of messages, events and the feed; TextSteps: every operation keeps them.
    - Inbox (session/executioninbox*.go, executiondeferred.go,
      childexecutioninbox.go, childexecutiondelivery.go, executionchildreport.go,
      stoprevision.go) and Deferral (session/executionforwarding.go,
      executiondeferredresume.go, noticebroadcast.go): messages for running
      work are accepted once, wait in order, enter the transcript with the model
      request that carries them, or are kept for the next root.
    - InboxRules: the invariant of the inbox and the ways a row may change;
      InboxSteps: each operation keeps it, and what each does to the rows;
      InboxTheorems: the operations on executions and the inbox as one step
      relation; DeliverySteps: a delivery and its repetition.
    - InboxPromises: an accepted message is kept, numbered and delivered once;
      a root that completed leaves nothing waiting; a deferred message becomes the task
      of one root; the capacity holds; and a life of a root that shows it.

    - Admission (session/admission.go, admissionstop.go): the line of each
      session in which turns wait for one another.  Tickets are shared by
      number, a channel is its closed flag.  Admission is exclusive and in order, no
      ticket is lost, and a stop reaches the tickets in line and only those.

    ** Turns, notices, child runs and jobs

    - Notices (session/notices.go, noticebroadcast.go, turnnotices.go,
      wakeadmission.go, jobwake.go, events/prompt.go): creating and delivering the
      notices of a session, and the check that the source of a wake was not stopped.
    - ChildRuns (session/agentruns.go, executionchildterminal.go,
      executionchildprojection.go, executionfinishchild.go, executioncancel.go,
      agentrunrecovery.go): the launch of a child run, its events, its one outcome, its
      cancellation with everything below its execution, recovery at startup and of the
      runs of a lost worker, and the claim of a run by another worker.
    - Jobs (session/jobs.go, jobowner.go, workers.go): the rows of background jobs
      with their ordered output, and of workers.
    - TurnEnd (session/turnend.go, turnendmessage.go) and Turns (session/store.go,
      transcript.go, executionturn*.go, executionfinishturn.go, deferredturn.go,
      stoprevision.go, workerrecovery.go, workers.go): opening a session; beginning,
      finishing, ending, interrupting, resuming and cancelling its turns, ending those of
      a lost worker and naming the worker of one, with the leases in memory ([st_active]) and
      the rows in the tables.
    - StoreSteps and TurnSteps: the interface between the operations and what they
      keep.  [Kept], [KeptTurns] and [KeptRecords] state the few statements (an
      update of a row, an append to a transcript, a new notice) that every operation
      is made of; a relation that satisfies them is kept by every operation
      ([kept_store_step]), and [store_reachable] is what the operations reach from an
      empty store.  [RowsKept] (TurnRules) is the shorter list for relations
      on the rows of sessions, turns, notices, child runs and jobs.
    - TurnRules, WakeRules, EndRules, JobRules, RunRules: the relations themselves,
      and what single operations write.
    - TurnPromises and RecordPromises: the theorems.  A turn starts alone and is
      finished once; a completed one is final but for the name of its worker; its end is written with its frame,
      notice and message; a notice is delivered once; a wake is let in only while its
      source is live; a settled child run is final and its cancellation is asked once;
      the output of a job is one numbered log that is only appended to.

    ** The feed

    - Feed (session/feed.go): a page is merged from three queries, each of which
      reads the state of its own moment ([readFeedPage]); [ListFeed] is the page read
      from one state.  FeedRules: the merge of sorted prefixes.  FeedSteps: every
      operation of the store keeps the feed numbered without gap.
    - FeedPump (control/feedpump.go): the goroutine of a session, cut where it gives
      up its mutexes, interleaved with commits and with signals that arrive in any
      order ([step]).  FeedGrowth: what the pump needs of the store (the class
      [FeedCommits]).  FeedPumpRules: its invariant.  FeedDrain: left alone, it comes
      to rest.
    - FeedPromises: the numbers of a session, the pages, and the pump: it delivers in
      order, loses no signal and catches up; and two schedules in which it skips a
      row, against its comment (findings).

    ** Content blobs

    - ContentBlob (contentblob/contentblob.go): compacting a JSON document into
      references and blobs, and expanding it.  An index into the document is the
      suffix that starts there.
    - BlobLayers: the tree of parts that a compacted document stands for, and
      that splicing peels one layer of it.  BlobCompact: compacting builds such a tree
      of the document.  BlobTheorems: compacting ends and shortens, expanding
      restores, and the two exceptions (findings).
    - BlobValid: the descent of contentblob.go and the scanner of encoding/json
      (Json) read a document the same way, so that every blob is accepted.
    - BlobCache (contentblob/cache.go): the cache refines a list of the most
      recently used blobs.
    - BlobStore (contentblob/cache.go, converter.go, db/contentblobs.go,
      session/contentblobs.go): the fetch through the cache, the converter over
      any [Store], the table of blobs and the restored columns.  BlobTable: the
      table keeps the laws of a store ([StoreLaws]); payloads and columns read back
      what was written, exactly unless their blobs name each other 32 deep
      ([tooDeep]); the caches never change an answer.

    ** Workers

    - WireErrors (worker/protocol/errors.go, db/errormap.go): the errors that cross
      the socket, as a code, a detail and a text.  What a failure matches on arrival; a
      detail that comes alone gains its class (a finding).
    - Wire (worker/protocol/conn.go, frames.go): frames on a byte stream.  Of a
      stream that is cut anywhere exactly the frames that arrived whole are read; the largest frame that is sent is
      refused (a finding).
    - Rpc (worker/protocol/conn.go): the calls of both sides, their read loops and
      their handlers as one transition system.  A handler runs once for a call and its
      answer reaches that call only; every run of the read loops and handlers comes to
      rest, and what waits at a rest of an open connection has been answered.
    - Registration (worker/protocol/listener.go, dialer.go): at most one of the
      connections that race for a session is served; a lost acknowledgement keeps a dead
      worker registered (a finding).
    - Program: programs that ask for one action after another, run against any
      service, and policies on what they ask ([keeps], [kept]).  Gateway: the requests, the
      operations they lead to, and the guards.  WorkflowGate
      (worker/protocol/workflowcontroller.go, workflowtypes.go): the requests for the
      workflow backend, and the pages of a history.  Controller
      (worker/protocol/controller.go, methods.go, execution*.go, deferredturn.go): every
      method.  A worker reaches its own session and acts for its own generation only,
      whatever it sends and whatever it is answered.

    ** Path globs and skills

    - GoRegexp and PathGlob (pathglob/pathglob.go): a pattern is compiled to a
      regular expression, which matches what the documentation says of the pattern, on
      patterns of the documented syntax ([Reads], which lists what it leaves out); ten
      divergences outside it (findings).
    - Skills (harness/skillrefs.go, [ActivateSkill] of types.go): which texts name a
      skill, and which skills a message delivers: the closure of those it names,
      each once.

    ** Fuel

    The parser's loops have the number of lines as fuel, and
    [parseApplyPatch_sound] shows that they return; [splitPatchSourceLines] and the
    string functions have the length of the text, and their lemmas hold for it.
    [inTree] climbs parents for as many steps as the table has rows;
    [Subtree_spec] shows that this reaches every member.  The walk of a
    recursive removal takes a bound on the depth of the tree as an argument;
    [countTreeEntries_nodes] shows that a depth no smaller than that of the tree
    gives the count, and [mutation_guarded] holds for every bound.  The descent of
    [Compact] has [valueFuel], two steps for each byte and one more
    ([Compact_total]); finding and replacing references have the length of
    the text, the loop over chunks the number of hashes, the eviction of the
    cache the number of its elements.  The climb of a wake
    over the parents of runs and executions has [lineageFuel], two more than the table
    has rows; [wake_admission_terminates] shows that it always answers.  The expansion
    of skills has one step more than the snapshot has skills, and the scan for references
    one more than the text has bytes ([ExpandSkills_exact], [SkillReferences_exact]); the
    reader of a pattern has its length ([Compile_error]); the reader of a history has one
    page more than there are events ([history_read_whole]).

    ** Parameters

    SHA-256, the order in which Go ranges over a map, the PDF library, the media-type sniffer, the JSON encoding of
    inspections, of images, of inbox parts and event payloads ([ImageCodec],
    [InboxCodec] with the two laws [InboxCodecLaws]), of a prompt event and of the
    identities in the data of a notice ([NoticeCodec]), of the terminal event and the XML report of a child
    ([ChildCodec]), of the frame and notice of a turn's end ([TurnCodec]), name-based UUIDs
    and the hash of a finish decision are functions the definitions take.  Ids that
    the store draws, and the time, are arguments of the operations.  Context cancellation is an
    argument that each check of it reads.  Package regexp's limit on the size of an
    expression is an argument of [Compile].  Of the worker protocol: the JSON of frames,
    of the hello and of each request ([FrameCodec], [Wire]; the JSON of a frame is one
    line and not empty), the registrar, the order of
    the map of sentinels, UUID texts, the store behind the controller, and the workflow
    library's backend; [history_read_whole] relies on its documented answer to a read
    after a sequence number.

    ** Not modelled

    Network and process code (providers, the supervisor of workers, containers, HTTP,
    commands), generated code, and the resolver of the harness, which reads YAML
    through a third-party parser.  Of the session store: compactions, model runs, foreign
    keys, cancel functions, idle callbacks, observations and metrics, updated_at columns,
    the queries that only list rows, and moving a session to another agent space.  Of the tools: listing and searching, whose pure parts are the walk and the
    globs above, and the table of running jobs, whose promises are about processes.  Of
    the worker protocol: the stubs with which a worker sends its requests, and the
    commands that a worker serves.  A failing database
    connection is not modelled: a query answers from the tables. *)
From stdpp Require Import base gmap sets list strings sorting.
From Stdlib Require Import ZArith Lia.

(** * Go outcomes

    A Go call either returns a value, returns an error, or panics.  A loop that
    is modelled with fuel may also run out of it; every component proves that
    this last outcome and [Panic] do not happen. *)

(** The error sentinels of the repository, which callers tell apart with
    [errors.Is]; wrapping adds a message and never changes the sentinel. *)
Inductive sentinel :=
  | ErrInvalidOptions | ErrInvalidLimits | ErrNotDirectory | ErrNotRegularFile
  | ErrBinaryContent | ErrNotObserved | ErrStaleHash | ErrHashRequired
  | ErrMatchNotFound | ErrMatchNotUnique | ErrOverlappingEdits
  | ErrInvalidPatch | ErrPatchConflict | ErrPatchMatchNotFound
  | ErrPatchMatchNotUnique | ErrLimitExceeded
  | ErrNotFound | ErrAlreadyExists | ErrPermissionDenied | ErrValidationFailed
  | ErrConflict | ErrInvalidState | ErrFailed | ErrCanceled | ErrOther
  | ErrDirectoryNotEmpty | ErrImageContent | ErrParseFailed | ErrExecutionInboxPending
  | ErrTurnLeaseInactive | ErrAgentRunFinished | ErrSessionBusy | ErrRequiredFieldNotSet
  | ErrInvalidPage | ErrLockHeld | ErrCancelled | ErrNotImplemented | ErrExecFailed
  | ErrFetchFailed | ErrRunningTurnSettingsChange | ErrUserMessageQueueFull
  | ErrAgentRunNotFound | ErrPromptBudgetExceeded | ErrImagesNotAccepted
  | ErrHistoryImagesNotAccepted | ErrImagesNeedNewTurn | ErrTooManyImages
  | ErrImageTooLarge | ErrImageType | ErrSkillNotFound | ErrSkillContentTooLarge | ErrWorkerRejected
  | ErrFrameTooLarge | ErrRecordNotFound | ErrDuplicatedKey
  | ErrInstanceNotFound | ErrInstanceAlreadyExists
  | FsNotExist | FsExist | FsPermission | FsInvalid.

#[export] Instance sentinel_eq_dec : EqDecision sentinel.
Proof. solve_decision. Defined.

Inductive outcome (A : Type) :=
  | Ok (a : A)
  | Err (e : sentinel)
  | Panic
  | OutOfFuel.
Arguments Ok {A} _.
Arguments Err {A} _.
Arguments Panic {A}.
Arguments OutOfFuel {A}.

#[export] Instance outcome_ret : MRet outcome := λ A a, Ok a.
#[export] Instance outcome_bind : MBind outcome := λ A B f m,
  match m with
  | Ok a => f a
  | Err e => Err e
  | Panic => Panic
  | OutOfFuel => OutOfFuel
  end.
#[export] Instance outcome_fmap : FMap outcome := λ A B f m,
  match m with
  | Ok a => Ok (f a)
  | Err e => Err e
  | Panic => Panic
  | OutOfFuel => OutOfFuel
  end.

(** Indexing a slice panics out of range. *)
Definition index_or_panic {A} (o : option A) : outcome A :=
  match o with Some a => Ok a | None => Panic end.

(** [returns o]: the call came back, with a value or an error. *)
Definition returns {A} (o : outcome A) : Prop :=
  match o with Ok _ | Err _ => True | Panic | OutOfFuel => False end.

Definition is_ok {A} (o : outcome A) : bool :=
  match o with Ok _ => true | _ => false end.

Lemma returns_bind {A B} (m : outcome A) (f : A → outcome B) :
  returns m → (∀ a, m = Ok a → returns (f a)) → returns (m ≫= f).
Proof. destruct m; simpl; auto. Qed.

(** [post E P o]: the call came back, its value satisfies [P] and its error [E]. *)
Definition post {A} (E : sentinel → Prop) (P : A → Prop) (o : outcome A) : Prop :=
  match o with Ok a => P a | Err e => E e | Panic | OutOfFuel => False end.

Lemma post_bind {A B} E (P : A → Prop) (Q : B → Prop) m (f : A → outcome B) :
  post E P m → (∀ a, m = Ok a → P a → post E Q (f a)) → post E Q (m ≫= f).
Proof. destruct m; simpl; auto. Qed.

Lemma post_weaken {A} (E E' : sentinel → Prop) (P Q : A → Prop) m :
  post E P m → (∀ e, E e → E' e) → (∀ a, m = Ok a → P a → Q a) → post E' Q m.
Proof. destruct m; simpl; auto. Qed.

Lemma post_returns {A} E (P : A → Prop) m : post E P m → returns m.
Proof. by destruct m. Qed.

Lemma post_Ok {A} E (P : A → Prop) m a : post E P m → m = Ok a → P a.
Proof. intros H ->. exact H. Qed.

Lemma bind_Ok_inv {A B} (m : outcome A) (f : A → outcome B) b :
  m ≫= f = Ok b → ∃ a, m = Ok a ∧ f a = Ok b.
Proof. destruct m; simpl; try discriminate. eauto. Qed.

Lemma index_or_panic_Some {A} (o : option A) a :
  index_or_panic o = Ok a ↔ o = Some a.
Proof. destruct o; simpl; naive_solver. Qed.

Lemma index_or_panic_lt {A} (l : list A) i :
  i < length l → ∃ a, l !! i = Some a ∧ index_or_panic (l !! i) = Ok a.
Proof.
  intros [a Ha]%lookup_lt_is_Some_2. exists a. by rewrite Ha.
Qed.

(** * Automation *)

Create HintDb go.
Create Rewrite HintDb go.
#[export] Hint Rewrite @length_app @length_take @length_drop : go.

(** Peel an [Ok] result off a chain of binds. *)
Ltac invert_ok :=
  repeat match goal with
  | H : Ok _ = Ok _ |- _ => injection H as H; subst
  | H : Err _ = Err _ |- _ => injection H as H; subst
  | H : Ok _ = Err _ |- _ => discriminate H
  | H : Err _ = Ok _ |- _ => discriminate H
  | H : Panic = Ok _ |- _ => discriminate H
  | H : OutOfFuel = Ok _ |- _ => discriminate H
  | H : (_ ≫= _) = Ok _ |- _ =>
      let a := fresh "r" in let Ha := fresh "Hr" in
      apply bind_Ok_inv in H as (a & Ha & H)
  | H : index_or_panic _ = Ok _ |- _ => apply index_or_panic_Some in H
  end.

(** Case analysis on the guard of a Go [if] in a hypothesis or the goal. *)
Ltac case_if :=
  match goal with
  | H : context [ if ?c then _ else _ ] |- _ =>
      lazymatch type of c with bool => destruct c eqn:? | _ => destruct c end
  | |- context [ if ?c then _ else _ ] =>
      lazymatch type of c with bool => destruct c eqn:? | _ => destruct c end
  end.

(** Read the boolean guards among the hypotheses as propositions. *)
Ltac read_guards :=
  repeat match goal with
  | H : negb _ = false |- _ => apply negb_false_iff in H
  | H : negb _ = true |- _ => apply negb_true_iff in H
  | H : (_ || _) = false |- _ => apply orb_false_iff in H as [? ?]
  | H : (_ && _) = true |- _ => apply andb_true_iff in H as [? ?]
  | H : bool_decide _ = true |- _ => apply bool_decide_eq_true in H
  | H : bool_decide _ = false |- _ => apply bool_decide_eq_false in H
  | H : (_ <? _)%Z = false |- _ => apply Z.ltb_ge in H
  | H : (_ <? _)%Z = true |- _ => apply Z.ltb_lt in H
  end.

(** Show that a computation returns: through binds, branches and the lemmas of
    the hint database. *)
Ltac solve_returns :=
  repeat first
    [ done
    | progress (auto with go)
    | apply returns_bind; [|intros ? ?]
    | match goal with
      | |- returns (if ?c then _ else _) => destruct c
      | |- returns (match ?x with _ => _ end) => destruct x
      | |- returns (let '_ := ?x in _) => destruct x
      end ].

(** * 64-bit integers *)

Definition max_int64 : Z := (2 ^ 63 - 1)%Z.
Definition min_int64 : Z := (- 2 ^ 63)%Z.

(** Two's-complement wrap-around of Go's [int] and [int64]. *)
Definition wrap64 (z : Z) : Z := ((z + 2 ^ 63) mod 2 ^ 64 - 2 ^ 63)%Z.

Lemma wrap64_id z : (min_int64 ≤ z ≤ max_int64)%Z → wrap64 z = z.
Proof. unfold wrap64, min_int64, max_int64. intros. rewrite Z.mod_small; lia. Qed.

Lemma wrap64_range z : (min_int64 ≤ wrap64 z ≤ max_int64)%Z.
Proof.
  unfold wrap64, min_int64, max_int64.
  pose proof (Z.mod_pos_bound (z + 2 ^ 63) (2 ^ 64)). lia.
Qed.

#[export] Hint Rewrite wrap64_id using (unfold min_int64, max_int64 in *; lia) : go.

(** * Lists *)

Lemma drop_suffix_app {A} (l k : list A) n :
  n ≤ length l → drop n (l ++ k) = drop n l ++ k.
Proof. intros. rewrite drop_app. by replace (n - length l) with 0 by lia. Qed.

Lemma sum_list_with_app {A} (f : A → nat) (l k : list A) :
  sum_list_with f (l ++ k) = sum_list_with f l + sum_list_with f k.
Proof. induction l; simpl; lia. Qed.

Lemma suffix_sum_le {A} (f : A → nat) (l k : list A) :
  l `suffix_of` k → sum_list_with f l ≤ sum_list_with f k.
Proof. intros [p ->]. rewrite sum_list_with_app. lia. Qed.

(** A Go slice expression [l[lo:hi]]: it panics unless [0 <= lo <= hi <= len]. *)
Definition slice {A} (lo hi : Z) (l : list A) : outcome (list A) :=
  if bool_decide (0 ≤ lo ∧ lo ≤ hi ∧ hi ≤ Z.of_nat (length l))%Z
  then Ok (take (Z.to_nat (hi - lo)) (drop (Z.to_nat lo) l))
  else Panic.

Lemma slice_ok {A} lo hi (l : list A) :
  (0 ≤ lo ∧ lo ≤ hi ∧ hi ≤ Z.of_nat (length l))%Z →
  slice lo hi l = Ok (take (Z.to_nat (hi - lo)) (drop (Z.to_nat lo) l)).
Proof. intros. unfold slice. by rewrite bool_decide_eq_true_2. Qed.

Lemma slice_mid {A} (l1 l2 l3 : list A) lo hi :
  lo = Z.of_nat (length l1) → hi = (lo + Z.of_nat (length l2))%Z →
  slice lo hi (l1 ++ l2 ++ l3) = Ok l2.
Proof.
  intros -> ->. rewrite slice_ok by (rewrite !length_app; lia).
  rewrite Nat2Z.id, drop_app_length. f_equal.
  replace (Z.to_nat _) with (length l2) by lia. apply take_app_length.
Qed.

(** Run a body over a list, threading a state, as a [for range] loop does. *)
Fixpoint foldM {S A} (f : S → A → outcome S) (l : list A) (s : S) : outcome S :=
  match l with
  | [] => Ok s
  | a :: l' => s' ← f s a; foldM f l' s'
  end.

Lemma foldM_total {S A} (f : S → A → outcome S) (I : S → Prop) (l : list A) s :
  (∀ s a, a ∈ l → I s → ∃ s', f s a = Ok s' ∧ I s') → I s →
  ∃ s', foldM f l s = Ok s' ∧ I s'.
Proof.
  revert s. induction l as [|a l IH]; intros s Hf Hs; simpl; [eauto|].
  destruct (Hf s a) as (s' & -> & Hs'); [set_solver|done|]. simpl.
  apply IH; [|done]. intros. apply Hf; [set_solver|done].
Qed.

(** Filters that agree on a list. *)
Lemma filter_every {A} (P : A → Prop) `{!∀ x, Decision (P x)} l : Forall P l → filter P l = l.
Proof. induction 1 as [|x l Hx _ IH]; [done|]. by rewrite filter_cons_True, IH. Qed.

Lemma StronglySorted_filter {A} (R : A → A → Prop) (P : A → Prop) `{!∀ x, Decision (P x)} l :
  StronglySorted R l → StronglySorted R (filter P l).
Proof.
  induction 1 as [|x l _ IH Hx]; [constructor|]. rewrite filter_cons. case_decide; [|done].
  constructor; [done|]. apply Forall_forall. intros y [_ Hy]%list_elem_of_filter.
  by eapply (proj1 (Forall_forall _ _) Hx).
Qed.

Lemma filter_no {A} (P : A → Prop) `{!∀ x, Decision (P x)} l :
  Forall (λ x, ¬ P x) l → filter P l = [].
Proof. induction 1 as [|x l Hx _ IH]; [done|]. by rewrite filter_cons_False. Qed.

Lemma filter_ext_in {A} (P Q : A → Prop) `{∀ x, Decision (P x), ∀ x, Decision (Q x)} (l : list A) :
  (∀ x, x ∈ l → P x ↔ Q x) → filter P l = filter Q l.
Proof.
  induction l as [|x l IH]; intros Hl; [done|]. rewrite !filter_cons, IH by set_solver.
  pose proof (Hl x). repeat case_decide; set_solver.
Qed.
