(* ===== verification/GoBytes.v ===== *)
(** The byte-string functions of Go's standard library that the program uses:
    package [strings], package [bytes] and [unicode/utf8].  A Go string and a
    [[]byte] are both a sequence of bytes, [list ascii]. *)
From stdpp Require Import base gmap sets list strings.
From Stdlib Require Import ZArith Lia Ascii.
From S2P Require Import Prelude.

Abbreviation bytes := (list ascii).

(** The bytes of a literal. *)
Definition bs (s : string) : bytes := String.list_ascii_of_string s.
Arguments bs : simpl never.

Definition NL : ascii := "010"%char.
Definition CR : ascii := "013"%char.
Definition NUL : ascii := "000"%char.

(** ** Prefixes and suffixes *)

Fixpoint has_prefix (p s : bytes) : bool :=
  match p, s with
  | [], _ => true
  | _ :: _, [] => false
  | a :: p', c :: s' => bool_decide (a = c) && has_prefix p' s'
  end.

Definition trim_prefix (p s : bytes) : bytes :=
  if has_prefix p s then drop (length p) s else s.

Definition has_suffix (p s : bytes) : bool := has_prefix (rev p) (rev s).

Definition trim_suffix (p s : bytes) : bytes :=
  if has_suffix p s then take (length s - length p) s else s.

Lemma has_prefix_spec p s : has_prefix p s = true ↔ ∃ k, s = p ++ k.
Proof.
  revert s. induction p as [|a p IH]; intros [|c s]; simpl.
  - naive_solver.
  - naive_solver.
  - split; [done|]. intros [k ?]; done.
  - rewrite andb_true_iff, bool_decide_eq_true, IH. naive_solver.
Qed.

Lemma has_prefix_app p k : has_prefix p (p ++ k) = true.
Proof. apply has_prefix_spec; eauto. Qed.

Lemma trim_prefix_app p k : trim_prefix p (p ++ k) = k.
Proof. unfold trim_prefix. by rewrite has_prefix_app, drop_app_length. Qed.

Lemma has_prefix_length p s : has_prefix p s = true → length p ≤ length s.
Proof. intros [k ->]%has_prefix_spec. rewrite length_app. lia. Qed.

Lemma has_suffix_spec p s : has_suffix p s = true ↔ ∃ k, s = k ++ p.
Proof.
  unfold has_suffix. rewrite has_prefix_spec. split.
  - intros [k Hk]. exists (rev k). rewrite <- (rev_involutive s), Hk.
    by rewrite rev_app_distr, rev_involutive.
  - intros [k ->]. exists (rev k). by rewrite rev_app_distr.
Qed.

Lemma trim_suffix_app p k : trim_suffix p (k ++ p) = k.
Proof.
  unfold trim_suffix. replace (has_suffix p (k ++ p)) with true.
  - rewrite length_app. replace (_ - _) with (length k) by lia.
    apply take_app_length.
  - symmetry. apply has_suffix_spec. eauto.
Qed.

(** ** Split, join and replace *)

Fixpoint join (sep : bytes) (ls : list bytes) : bytes :=
  match ls with
  | [] => []
  | [x] => x
  | x :: rest => x ++ sep ++ join sep rest
  end.

(** [strings.Split(s, c)] for a one-byte separator. *)
Fixpoint split_byte (c : ascii) (s : bytes) : list bytes :=
  match s with
  | [] => [[]]
  | a :: s' =>
      if decide (a = c) then [] :: split_byte c s'
      else match split_byte c s' with
           | [] => [[a]]
           | l :: ls => (a :: l) :: ls
           end
  end.

Fixpoint replace_crlf (s : bytes) : bytes :=
  match s with
  | a :: s' =>
      match s' with
      | c :: s'' =>
          if decide (a = CR ∧ c = NL) then NL :: replace_crlf s''
          else a :: replace_crlf s'
      | [] => [a]
      end
  | [] => []
  end.

Lemma join_cons sep x ls : ls ≠ [] → join sep (x :: ls) = x ++ sep ++ join sep ls.
Proof. destruct ls; done. Qed.

Lemma split_byte_nonempty c s : split_byte c s ≠ [].
Proof. destruct s; simpl; [done|]. case_decide; [done|]. by destruct split_byte. Qed.

Lemma join_split_byte c s : join [c] (split_byte c s) = s.
Proof.
  induction s as [|a s IH]; simpl; [done|].
  pose proof (split_byte_nonempty c s) as Hne.
  case_decide; subst.
  - rewrite join_cons by done. simpl. by rewrite IH.
  - destruct (split_byte c s) as [|l ls] eqn:E; [done|].
    destruct ls as [|l' ls]; simpl in *; congruence.
Qed.

Lemma split_byte_free c l : c ∉ l → split_byte c l = [l].
Proof.
  induction l as [|a l IH]; simpl; intros Hc; [done|].
  rewrite decide_False by set_solver. by rewrite IH by set_solver.
Qed.

Lemma split_byte_app_sep c l s :
  c ∉ l → split_byte c (l ++ c :: s) = l :: split_byte c s.
Proof.
  induction l as [|a l IH]; simpl; intros Hc.
  - by rewrite decide_True.
  - rewrite decide_False by set_solver. by rewrite IH by set_solver.
Qed.

Lemma split_byte_join c ls :
  ls ≠ [] → Forall (λ l, c ∉ l) ls → split_byte c (join [c] ls) = ls.
Proof.
  intros Hne Hall. induction Hall as [|l ls Hl Hall IH]; [done|].
  destruct (decide (ls = [])) as [->|Hls].
  - by apply split_byte_free.
  - rewrite join_cons by done. simpl. rewrite split_byte_app_sep by done.
    by rewrite IH.
Qed.

Lemma split_byte_sep_free c s : Forall (λ l, c ∉ l) (split_byte c s).
Proof.
  induction s as [|a s IH]; simpl.
  - constructor; [set_solver|constructor].
  - case_decide.
    + constructor; [set_solver|done].
    + destruct (split_byte c s) as [|l ls]; [constructor; set_solver|].
      apply Forall_cons in IH as [? ?]. constructor; set_solver.
Qed.

Lemma replace_crlf_free s : CR ∉ s → replace_crlf s = s.
Proof.
  induction s as [|a s IH]; intros Hs; [done|].
  destruct s as [|c s]; [done|].
  change (replace_crlf (a :: c :: s)) with
    (if decide (a = CR ∧ c = NL) then NL :: replace_crlf s
     else a :: replace_crlf (c :: s)).
  rewrite decide_False by set_solver. by rewrite IH by set_solver.
Qed.

Lemma split_byte_snoc_sep c s : split_byte c (s ++ [c]) = split_byte c s ++ [[]].
Proof.
  induction s as [|a s IH]; simpl; [by rewrite decide_True|].
  case_decide; [by rewrite IH|]. rewrite IH.
  pose proof (split_byte_nonempty c s). by destruct (split_byte c s).
Qed.

Lemma elem_of_join a sep ls : a ∈ join sep ls → a ∈ sep ∨ ∃ l, l ∈ ls ∧ a ∈ l.
Proof.
  induction ls as [|l ls IH]; [simpl; set_solver|].
  destruct (decide (ls = [])) as [->|Hne]; [simpl; set_solver|].
  rewrite join_cons by done. rewrite !elem_of_app.
  intros [?|[?|?]]; [right; set_solver|by left|].
  destruct IH as [?|(k & ? & ?)]; [done|by left|]. right. exists k. set_solver.
Qed.

Lemma elem_of_join_2 a sep ls l : l ∈ ls → a ∈ l → a ∈ join sep ls.
Proof.
  intros Hl Ha. induction Hl as [l ls|l k ls Hl IH];
    (destruct (decide (ls = [])) as [->|Hne]; [simpl|rewrite join_cons by done]);
    set_solver.
Qed.

Lemma elem_of_take_sub {A} (a : A) n l : a ∈ take n l → a ∈ l.
Proof. intros Ha. rewrite <- (take_drop n l). apply elem_of_app. by left. Qed.

(** ** Searching *)

Fixpoint index_byte (c : ascii) (s : bytes) : option nat :=
  match s with
  | [] => None
  | a :: s' => if decide (a = c) then Some 0 else S <$> index_byte c s'
  end.

(** The position of the last [c]. *)
Fixpoint last_index_byte (c : ascii) (s : bytes) : option nat :=
  match s with
  | [] => None
  | a :: s' =>
      match last_index_byte c s' with
      | Some i => Some (S i)
      | None => if decide (a = c) then Some 0 else None
      end
  end.

Fixpoint count_byte (c : ascii) (s : bytes) : nat :=
  match s with
  | [] => 0
  | a :: s' => (if decide (a = c) then 1 else 0) + count_byte c s'
  end.

(** [bytes.Index(s, sub)]. *)
Fixpoint index_sub (sub s : bytes) : option nat :=
  if has_prefix sub s then Some 0
  else match s with
       | [] => None
       | _ :: s' => S <$> index_sub sub s'
       end.

(** [bytes.Count(s, sub)] for a non-empty [sub]: occurrences that do not
    overlap, found from the left. *)
Fixpoint count_sub_fuel (fuel : nat) (sub s : bytes) : nat :=
  match fuel with
  | 0 => 0
  | S fuel' =>
      match index_sub sub s with
      | None => 0
      | Some i => S (count_sub_fuel fuel' sub (drop (i + length sub) s))
      end
  end.
Definition count_sub (sub s : bytes) : nat := count_sub_fuel (S (length s)) sub s.

Lemma index_byte_Some c s i :
  index_byte c s = Some i → s !! i = Some c ∧ c ∉ take i s.
Proof.
  revert i. induction s as [|a s IH]; intros i; simpl; [done|].
  case_decide as Hac.
  - intros [= <-]. subst. split; [done|]. set_solver.
  - intros Hi. destruct (index_byte c s) as [j|] eqn:E; simpl in Hi; [|done].
    injection Hi as <-. destruct (IH j eq_refl) as [? ?]. simpl. set_solver.
Qed.

Lemma index_byte_None c s : index_byte c s = None ↔ c ∉ s.
Proof.
  induction s as [|a s IH]; simpl; [set_solver|].
  case_decide; [set_solver|].
  destruct (index_byte c s); simpl; set_solver.
Qed.

Lemma last_index_byte_lt c s i : last_index_byte c s = Some i → i < length s.
Proof.
  revert i. induction s as [|a s IH]; intros i; simpl; [done|].
  destruct (last_index_byte c s) as [j|].
  - intros [= <-]. specialize (IH j eq_refl). lia.
  - case_decide; [intros [= <-]|done]. lia.
Qed.

Lemma index_sub_Some sub s i :
  index_sub sub s = Some i →
  s = take i s ++ sub ++ drop (i + length sub) s ∧ i + length sub ≤ length s.
Proof.
  revert i. induction s as [|a s IH]; intros i; simpl.
  - destruct (has_prefix sub []) eqn:E; [|done]. intros [= <-].
    apply has_prefix_spec in E as [k Hk].
    symmetry in Hk. apply app_nil in Hk as [-> ->]. done.
  - destruct (has_prefix sub (a :: s)) eqn:E.
    + intros [= <-]. simpl. apply has_prefix_length in E as Hl.
      apply has_prefix_spec in E as [k Hk]. rewrite Hk.
      by rewrite drop_app_length.
    + destruct (index_sub sub s) as [j|] eqn:Ej; simpl; [|done].
      intros [= <-]. destruct (IH j eq_refl) as [Heq Hle]. simpl.
      split; [by f_equal|lia].
Qed.

Lemma count_byte_app c s k : count_byte c (s ++ k) = count_byte c s + count_byte c k.
Proof. induction s; simpl; lia. Qed.

Lemma length_split_byte c s : length (split_byte c s) = S (count_byte c s).
Proof.
  induction s as [|a s IH]; simpl; [done|]. case_decide; simpl; [lia|].
  pose proof (split_byte_nonempty c s).
  destruct (split_byte c s); simpl in *; [done|lia].
Qed.

(** ** [strings.TrimSpace] and [unicode/utf8]

    [TrimSpace] removes the encodings of [unicode.IsSpace] runes from both
    ends: the six ASCII ones, U+0085, U+00A0, U+1680, U+2000..U+200A, U+2028,
    U+2029, U+202F, U+205F and U+3000. *)

Definition byte_of (n : nat) : ascii := ascii_of_nat n.

Definition space_runes : list bytes :=
  ((λ n, [byte_of n]) <$> [9; 10; 11; 12; 13; 32])
  ++ ((λ n, byte_of <$> [194; n]) <$> [133; 160])
  ++ [byte_of <$> [225; 154; 128]]
  ++ ((λ n, byte_of <$> [226; 128; n]) <$>
        [128; 129; 130; 131; 132; 133; 134; 135; 136; 137; 138; 168; 169; 175])
  ++ [byte_of <$> [226; 129; 159]; byte_of <$> [227; 128; 128]].

(** Remove one of the runes [rs] from the front. *)
Fixpoint strip_rune (rs : list bytes) (s : bytes) : option bytes :=
  match rs with
  | [] => None
  | r :: rs' => if has_prefix r s then Some (drop (length r) s) else strip_rune rs' s
  end.

Fixpoint trim_runes (fuel : nat) (rs : list bytes) (s : bytes) : bytes :=
  match fuel with
  | 0 => s
  | S fuel' =>
      match strip_rune rs s with
      | Some s' => trim_runes fuel' rs s'
      | None => s
      end
  end.

Definition trim_left_space (s : bytes) : bytes := trim_runes (length s) space_runes s.
Definition trim_right_space (s : bytes) : bytes :=
  rev (trim_runes (length s) ((λ r, rev r) <$> space_runes) (rev s)).
Definition trim_space (s : bytes) : bytes := trim_right_space (trim_left_space s).

Lemma strip_rune_Some rs s s' :
  Forall (λ r, r ≠ []) rs → strip_rune rs s = Some s' →
  length s' < length s ∧ s' `suffix_of` s.
Proof.
  induction 1 as [|r rs Hr Hrs IH]; simpl; [done|].
  destruct (has_prefix r s) eqn:E; [|done]. intros [= <-].
  apply has_prefix_spec in E as [k ->]. rewrite drop_app_length, length_app.
  split; [destruct r; simpl; [done|lia]|]. by exists r.
Qed.

Lemma trim_runes_suffix rs fuel s :
  Forall (λ r, r ≠ []) rs → trim_runes fuel rs s `suffix_of` s.
Proof.
  intros Hrs. revert s. induction fuel as [|n IH]; intros s; simpl; [done|].
  destruct (strip_rune rs s) as [s'|] eqn:E; [|done].
  eapply strip_rune_Some in E as [_ ?]; [|done]. etrans; eauto.
Qed.

(** The fuel is enough: nothing of [rs] is left at the front. *)
Lemma trim_runes_done rs fuel s :
  Forall (λ r, r ≠ []) rs → length s ≤ fuel →
  strip_rune rs (trim_runes fuel rs s) = None.
Proof.
  intros Hrs. revert s. induction fuel as [|n IH]; intros s Hle; simpl.
  - destruct s; [|simpl in Hle; lia].
    clear Hle. induction Hrs as [|r rs Hr _ IH]; simpl; [done|]. by destruct r.
  - destruct (strip_rune rs s) as [s'|] eqn:E; [|done].
    eapply strip_rune_Some in E as [? _]; [|done]. apply IH. lia.
Qed.

Lemma trim_runes_id rs fuel s : strip_rune rs s = None → trim_runes fuel rs s = s.
Proof. intros E. destruct fuel; simpl; [done|]. by rewrite E. Qed.

Lemma space_runes_nonempty : Forall (λ r, r ≠ []) space_runes.
Proof. unfold space_runes. simpl. repeat (constructor; [discriminate|]). constructor. Qed.

Lemma strip_rune_None rs s :
  strip_rune rs s = None ↔ ∀ r, r ∈ rs → has_prefix r s = false.
Proof.
  induction rs as [|r rs IH]; simpl; [set_solver|].
  destruct (has_prefix r s) eqn:E.
  - split; [done|]. intros H. rewrite H in E by left. done.
  - rewrite IH. split; intros H r' Hr'; [|apply H; by right].
    apply elem_of_cons in Hr' as [->|Hr']; auto.
Qed.

Lemma has_prefix_extend r s k : has_prefix r s = true → has_prefix r (s ++ k) = true.
Proof. intros [m ->]%has_prefix_spec. apply has_prefix_spec. exists (m ++ k). by rewrite app_assoc. Qed.

Definition rev_space_runes : list bytes := (λ r, rev r) <$> space_runes.

Lemma rev_space_runes_nonempty : Forall (λ r, r ≠ []) rev_space_runes.
Proof. unfold rev_space_runes, space_runes. simpl. repeat (constructor; [discriminate|]). constructor. Qed.

Lemma trim_space_left_done s : strip_rune space_runes (trim_space s) = None.
Proof.
  unfold trim_space, trim_right_space. set (l := trim_left_space s).
  assert (strip_rune space_runes l = None) as Hl.
  { apply trim_runes_done; [apply space_runes_nonempty|done]. }
  destruct (trim_runes_suffix rev_space_runes (length l) (rev l) rev_space_runes_nonempty)
    as [k Hk]. fold rev_space_runes.
  set (t := trim_runes (length l) rev_space_runes (rev l)) in *.
  assert (l = rev t ++ rev k) as Hlk.
  { rewrite <- rev_app_distr, <- Hk. by rewrite rev_involutive. }
  rewrite strip_rune_None in *. intros r Hr. apply not_true_is_false. intros Hp.
  specialize (Hl r Hr). rewrite Hlk in Hl. by rewrite (has_prefix_extend _ _ _ Hp) in Hl.
Qed.

(** A trimmed string stays as it is. *)
Lemma trim_space_idem s : trim_space (trim_space s) = trim_space s.
Proof.
  unfold trim_space at 1. unfold trim_left_space.
  rewrite trim_runes_id by apply trim_space_left_done.
  unfold trim_space, trim_right_space. set (l := trim_left_space s).
  rewrite rev_involutive, (trim_runes_id _ (length _)); [done|].
  apply trim_runes_done; [apply rev_space_runes_nonempty|by rewrite length_rev].
Qed.

Lemma trim_space_incl s a : a ∈ trim_space s → a ∈ s.
Proof.
  unfold trim_space, trim_right_space. rewrite !list_elem_of_In, <- in_rev, <- !list_elem_of_In.
  intros Ha.
  destruct (trim_runes_suffix rev_space_runes (length (trim_left_space s))
    (rev (trim_left_space s)) rev_space_runes_nonempty) as [k Hk].
  assert (a ∈ rev (trim_left_space s)) as H1 by (rewrite Hk; set_solver).
  rewrite list_elem_of_In, <- in_rev, <- list_elem_of_In in H1.
  destruct (trim_runes_suffix space_runes (length s) s space_runes_nonempty) as [k' Hk'].
  rewrite Hk'. set_solver.
Qed.

Lemma trim_space_cons_space s : trim_space (" "%char :: s) = trim_space s.
Proof. reflexivity. Qed.

(** Go's table of valid UTF-8 sequences: no overlong form, no surrogate, nothing
    above U+10FFFF. *)
Definition in_range (lo hi : nat) (a : ascii) : bool :=
  (lo <=? nat_of_ascii a) && (nat_of_ascii a <=? hi).

Definition cont_byte : ascii → bool := in_range 128 191.

Definition valid3 (a c d : ascii) : bool :=
  cont_byte d &&
  ((in_range 224 224 a && in_range 160 191 c) ||
   (in_range 225 236 a && cont_byte c) ||
   (in_range 237 237 a && in_range 128 159 c) ||
   (in_range 238 239 a && cont_byte c)).

Definition valid4 (a c d e : ascii) : bool :=
  cont_byte d && cont_byte e &&
  ((in_range 240 240 a && in_range 144 191 c) ||
   (in_range 241 243 a && cont_byte c) ||
   (in_range 244 244 a && in_range 128 143 c)).

Fixpoint utf8_valid (s : bytes) : bool :=
  match s with
  | [] => true
  | a :: s1 =>
      if in_range 0 127 a then utf8_valid s1
      else match s1 with
           | [] => false
           | c :: s2 =>
               if in_range 194 223 a && cont_byte c then utf8_valid s2
               else match s2 with
                    | [] => false
                    | d :: s3 =>
                        if valid3 a c d then utf8_valid s3
                        else match s3 with
                             | [] => false
                             | e :: s4 => valid4 a c d e && utf8_valid s4
                             end
                    end
           end
  end.

(** ** Order *)

(** [strings.Compare a c <= 0]. *)
Fixpoint bytes_leb (a c : bytes) : bool :=
  match a, c with
  | [], _ => true
  | _ :: _, [] => false
  | x :: a', y :: c' =>
      (nat_of_ascii x <? nat_of_ascii y)%nat ||
      (bool_decide (x = y) && bytes_leb a' c')
  end.
