(* ===== verification/JobBuffer.v ===== *)
(** The bounded output ring of a background job
    (src/internal/pkg/tools/jobbuffer.go), with its abstract specification: the
    full log of every line ever appended. *)
From stdpp Require Import base gmap sets list strings.
From Stdlib Require Import ZArith Lia Ascii.
From S2P Require Import Prelude GoBytes.

Module JobBuffer.
Local Open Scope Z_scope.

Record jobBuffer := mkBuffer {
  maxLines : Z;
  maxBytes : Z;
  lines : list bytes;
  byteLen : Z;
  total : Z;
}.

Definition newJobBuffer (maxLines maxBytes : Z) : jobBuffer :=
  mkBuffer maxLines maxBytes [] 0 0.

Definition overBoundLocked (b : jobBuffer) : bool :=
  (maxLines b <? Z.of_nat (length (lines b))) || (maxBytes b <? byteLen b).

(** The eviction loop of [Append]: drop the oldest line while more than one is
    held and a bound is exceeded. *)
Fixpoint evict (mL mB : Z) (ls : list bytes) (size : Z) : list bytes * Z :=
  match ls with
  | l0 :: rest =>
      if bool_decide (rest ≠ []) &&
         overBoundLocked (mkBuffer mL mB ls size 0)
      then evict mL mB rest (wrap64 (size - Z.of_nat (length l0)))
      else (ls, size)
  | [] => ([], size)
  end.

Definition Append (line : bytes) (b : jobBuffer) : jobBuffer :=
  let ls := lines b ++ [line] in
  let size := wrap64 (byteLen b + Z.of_nat (length line)) in
  let '(kept, keptSize) := evict (maxLines b) (maxBytes b) ls size in
  mkBuffer (maxLines b) (maxBytes b) kept keptSize (wrap64 (total b + 1)).

Definition firstIndexLocked (b : jobBuffer) : Z :=
  wrap64 (total b - Z.of_nat (length (lines b))).

Definition Read (cursor limit : Z) (b : jobBuffer) : outcome (list bytes * Z * Z) :=
  let first := firstIndexLocked b in
  let '(dropped, cursor) :=
    if cursor <? first then (wrap64 (first - cursor), first) else (0, cursor) in
  let offset := Z.min (wrap64 (cursor - first)) (Z.of_nat (length (lines b))) in
  if offset <? 0 then Panic
  else
    let available := drop (Z.to_nat offset) (lines b) in
    let available :=
      if (0 <? limit) && (limit <? Z.of_nat (length available))
      then take (Z.to_nat limit) available else available in
    Ok (available, wrap64 (cursor + Z.of_nat (length available)), dropped).

Definition All (b : jobBuffer) : outcome (list bytes * Z) :=
  '(ls, _, dropped) ← Read 0 0 b; Ok (ls, dropped).

Definition Stats (b : jobBuffer) : Z * Z :=
  (Z.of_nat (length (lines b)), wrap64 (total b - Z.of_nat (length (lines b)))).

(** ** Specification *)

Definition log_bytes (log : list bytes) : Z := Z.of_nat (sum_list_with length log).

(** [fits]: both bounds hold. *)
Definition fits (mL mB : Z) (ls : list bytes) : bool :=
  (Z.of_nat (length ls) <=? mL) && (log_bytes ls <=? mB).

(** What is retained of a whole log: its longest suffix within both bounds, and
    at least the last line. *)
Fixpoint window (mL mB : Z) (log : list bytes) : list bytes :=
  match log with
  | [] => []
  | _ :: rest =>
      if fits mL mB log || bool_decide (rest = []) then log else window mL mB rest
  end.

(** The buffer after appending every line of [log] to a new one. *)
Definition run (mL mB : Z) (log : list bytes) : jobBuffer :=
  foldl (λ b l, Append l b) (newJobBuffer mL mB) log.

(** The log is small enough for a 64-bit counter. *)
Definition countable (log : list bytes) : Prop :=
  Z.of_nat (length log) ≤ max_int64 ∧ log_bytes log ≤ max_int64.

(** The representation relation between a buffer and its log. *)
Definition represents (log : list bytes) (b : jobBuffer) : Prop :=
  lines b = window (maxLines b) (maxBytes b) log ∧
  byteLen b = log_bytes (lines b) ∧
  total b = Z.of_nat (length log).

Lemma log_bytes_app l k : log_bytes (l ++ k) = log_bytes l + log_bytes k.
Proof. unfold log_bytes. rewrite sum_list_with_app. lia. Qed.

Lemma log_bytes_cons a l : log_bytes (a :: l) = Z.of_nat (length a) + log_bytes l.
Proof. unfold log_bytes. simpl. lia. Qed.

Lemma window_suffix mL mB log : window mL mB log `suffix_of` log.
Proof.
  induction log as [|a l IH]; simpl; [done|].
  case_match; [done|]. by apply suffix_cons_r.
Qed.

Lemma window_ne mL mB log : log ≠ [] → window mL mB log ≠ [].
Proof.
  induction log as [|a l IH]; simpl; [done|]. intros _.
  destruct (fits mL mB (a :: l)); simpl; [done|].
  case_bool_decide; [done|]. by apply IH.
Qed.

Lemma suffix_log_bytes k log : k `suffix_of` log → 0 ≤ log_bytes k ≤ log_bytes log.
Proof. intros [p ->]. rewrite log_bytes_app. unfold log_bytes. lia. Qed.

Lemma countable_suffix k log : k `suffix_of` log → countable log → countable k.
Proof.
  intros Hs [? ?]. pose proof (suffix_length _ _ Hs).
  pose proof (suffix_log_bytes _ _ Hs). split; lia.
Qed.

Lemma overBound_fits mL mB ls t :
  overBoundLocked (mkBuffer mL mB ls (log_bytes ls) t) = negb (fits mL mB ls).
Proof.
  unfold overBoundLocked, fits; simpl.
  rewrite negb_andb, !Z.leb_antisym, !negb_involutive. done.
Qed.

(** The eviction loop computes [window] when its byte count is right. *)
Lemma evict_window mL mB ls :
  countable ls →
  evict mL mB ls (log_bytes ls) = (window mL mB ls, log_bytes (window mL mB ls)).
Proof.
  induction ls as [|a l IH]; intros Hc; simpl; [done|].
  assert (countable l) as Hl.
  { apply (countable_suffix l (a :: l)); [by apply suffix_cons_r|done]. }
  replace (wrap64 (log_bytes (a :: l) - Z.of_nat (length a))) with (log_bytes l).
  2:{ rewrite log_bytes_cons, wrap64_id; [lia|].
      destruct Hl. unfold log_bytes, max_int64, min_int64 in *. lia. }
  rewrite (IH Hl), overBound_fits.
  destruct (fits mL mB (a :: l)); simpl; [by rewrite andb_false_r|].
  rewrite andb_true_r. by destruct l.
Qed.

(** Evicting as lines arrive and evicting once from the whole log agree. *)
Lemma window_snoc mL mB log line :
  window mL mB (window mL mB log ++ [line]) = window mL mB (log ++ [line]).
Proof.
  induction log as [|a l IH]; simpl; [done|].
  destruct (fits mL mB (a :: l)) eqn:Hfit; simpl; [done|].
  case_bool_decide as Hl; simpl; [done|].
  rewrite IH. symmetry.
  rewrite (bool_decide_eq_false_2 (l ++ [line] = [])) by (destruct l; done).
  replace (fits mL mB (a :: l ++ [line])) with false; [done|].
  symmetry. apply not_true_is_false. intros Hf. apply not_true_iff_false in Hfit.
  apply Hfit. unfold fits in *. rewrite andb_true_iff, !Z.leb_le in *.
  pose proof (log_bytes_app (a :: l) [line]) as Hb. simpl in *.
  rewrite length_app in Hf. unfold log_bytes in *. simpl in *. lia.
Qed.

Lemma Append_represents log line b :
  countable (log ++ [line]) → represents log b → represents (log ++ [line]) (Append line b).
Proof.
  intros Hc (Hl & Hb & Ht). unfold Append.
  assert (lines b ++ [line] `suffix_of` log ++ [line]) as Hs.
  { rewrite Hl. destruct (window_suffix (maxLines b) (maxBytes b) log) as [p Hp].
    exists p. by rewrite app_assoc, <- Hp. }
  pose proof (countable_suffix _ _ Hs Hc) as [Hc1 Hc2].
  replace (wrap64 (byteLen b + _)) with (log_bytes (lines b ++ [line])).
  2:{ rewrite log_bytes_app in *. unfold log_bytes in Hc2 |- *. rewrite wrap64_id; simpl in *;
      unfold min_int64, log_bytes in *; simpl; lia. }
  rewrite evict_window by done. rewrite Hl, window_snoc.
  split_and!; simpl; [done|done|].
  destruct Hc as [Hn _]. rewrite length_app in *. simpl in *.
  rewrite Ht, wrap64_id; unfold min_int64; lia.
Qed.

Lemma new_represents mL mB : represents [] (newJobBuffer mL mB).
Proof. done. Qed.

Lemma Append_bounds line b :
  maxLines (Append line b) = maxLines b ∧ maxBytes (Append line b) = maxBytes b.
Proof. unfold Append. by destruct (evict _ _ _ _). Qed.

Lemma run_snoc mL mB log line :
  run mL mB (log ++ [line]) = Append line (run mL mB log).
Proof. unfold run. by rewrite foldl_snoc. Qed.

Lemma run_bounds mL mB log :
  maxLines (run mL mB log) = mL ∧ maxBytes (run mL mB log) = mB.
Proof.
  induction log as [|l log [IH1 IH2]] using rev_ind; [done|].
  rewrite run_snoc. destruct (Append_bounds l (run mL mB log)) as [-> ->]. done.
Qed.

Lemma run_represents mL mB log : countable log → represents log (run mL mB log).
Proof.
  induction log as [|l log IH] using rev_ind; intros Hc; [apply new_represents|].
  rewrite run_snoc. apply Append_represents; [done|]. apply IH.
  destruct Hc as [H1 H2]. rewrite length_app, log_bytes_app in *.
  unfold countable, log_bytes in *. simpl in *. lia.
Qed.

Lemma drop_suffix (k log : list bytes) :
  k `suffix_of` log → k = drop (length log - length k) log.
Proof.
  intros [p ->]. rewrite length_app.
  replace (length p + length k - length k)%nat with (length p) by lia.
  by rewrite drop_app_length.
Qed.

(** The first sequence number still held, as the specification sees it. *)
Definition oldest (b : jobBuffer) (log : list bytes) : nat :=
  length log - length (lines b).

(** [Read] as a slice of the full log. *)
Definition read_spec (log : list bytes) (first : nat) (cursor limit : Z)
  : list bytes * Z * Z :=
  let start := Z.max cursor (Z.of_nat first) in
  let available := drop (Z.to_nat start) log in
  let got := if 0 <? limit then take (Z.to_nat limit) available else available in
  (got, start + Z.of_nat (length got), Z.max 0 (Z.of_nat first - cursor)).

Lemma represents_suffix log b : represents log b → lines b `suffix_of` log.
Proof. intros (-> & _ & _). apply window_suffix. Qed.

Lemma first_oldest log b :
  countable log → represents log b → firstIndexLocked b = Z.of_nat (oldest b log).
Proof.
  intros [Hc _] Hr. pose proof (suffix_length _ _ (represents_suffix _ _ Hr)).
  destruct Hr as (_ & _ & Ht). unfold firstIndexLocked, oldest.
  rewrite Ht, wrap64_id; unfold min_int64, max_int64 in *; lia.
Qed.

Lemma take_if_long {A} (l : list A) limit :
  (if (0 <? limit) && (limit <? Z.of_nat (length l)) then take (Z.to_nat limit) l else l)
  = if 0 <? limit then take (Z.to_nat limit) l else l.
Proof.
  destruct (0 <? limit) eqn:E; simpl; [|done].
  destruct (limit <? Z.of_nat (length l)) eqn:E2; [done|].
  rewrite take_ge; [done|]. lia.
Qed.

Lemma Read_represented log b cursor limit :
  countable log → represents log b → 0 ≤ cursor ≤ max_int64 →
  Read cursor limit b = Ok (read_spec log (oldest b log) cursor limit).
Proof.
  intros Hc Hr Hcur. pose proof (represents_suffix _ _ Hr) as Hs.
  unfold Read, read_spec. rewrite (first_oldest _ _ Hc Hr). destruct Hc as [Hc _].
  assert (lines b = drop (oldest b log) log) as Hd by (by apply drop_suffix).
  assert (oldest b log ≤ length log)%nat as Hol by (unfold oldest; lia).
  revert Hd Hol. generalize (oldest b log) as f. intros f -> Hol.
  set (start := Z.max cursor (Z.of_nat f)).
  assert ((if cursor <? Z.of_nat f
           then (wrap64 (Z.of_nat f - cursor), Z.of_nat f) else (0, cursor))
          = (Z.max 0 (Z.of_nat f - cursor), start)) as ->.
  { destruct (Z.ltb_spec cursor (Z.of_nat f)); unfold start.
    - rewrite wrap64_id by (unfold min_int64, max_int64 in *; lia). f_equal; lia.
    - f_equal; lia. }
  assert (Z.of_nat f ≤ start ≤ max_int64) as Hst by (unfold start, max_int64 in *; lia).
  rewrite (wrap64_id (start - _)) by (unfold min_int64, max_int64 in *; lia).
  rewrite (proj2 (Z.ltb_ge _ _)) by lia.
  rewrite !take_if_long, !drop_drop, !length_drop.
  assert (drop (f + Z.to_nat (Z.min (start - Z.of_nat f) (Z.of_nat (length log - f)))) log
          = drop (Z.to_nat start) log) as ->.
  { destruct (Z.le_ge_cases (start - Z.of_nat f) (Z.of_nat (length log - f))).
    - f_equal. lia.
    - rewrite !drop_ge by lia. done. }
  do 3 f_equal. apply wrap64_id. unfold min_int64.
  destruct (0 <? limit); rewrite ?length_take, length_drop; unfold max_int64 in *; lia.
Qed.

(** A reader that follows the returned cursor until nothing is left. *)
Fixpoint follow (fuel : nat) (cursor limit : Z) (b : jobBuffer)
  : outcome (list bytes * Z) :=
  match fuel with
  | O => OutOfFuel
  | S fuel' =>
      '(got, next, _) ← Read cursor limit b;
      if bool_decide (got = []) then Ok ([], next)
      else '(rest, final) ← follow fuel' next limit b; Ok (got ++ rest, final)
  end.

Lemma follow_from log b cursor limit fuel :
  countable log → represents log b → 0 < limit →
  Z.of_nat (oldest b log) ≤ cursor ≤ Z.of_nat (length log) →
  (length log - Z.to_nat cursor < fuel)%nat →
  follow fuel cursor limit b = Ok (drop (Z.to_nat cursor) log, Z.of_nat (length log)).
Proof.
  intros Hc Hr Hlim. revert cursor. induction fuel as [|fuel IH]; intros c Hcur Hf; [lia|].
  simpl. rewrite (Read_represented log) by (done || (destruct Hc; lia)).
  unfold read_spec. rewrite (proj2 (Z.ltb_lt 0 limit)) by done. simpl.
  replace (Z.max c _) with c by lia.
  set (got := take (Z.to_nat limit) (drop (Z.to_nat c) log)).
  assert (length got = Nat.min (Z.to_nat limit) (length log - Z.to_nat c)) as Hg
    by (unfold got; by rewrite length_take, length_drop).
  case_bool_decide as He.
  - rewrite He in Hg |- *. simpl in Hg. rewrite drop_ge by lia. simpl. do 2 f_equal. lia.
  - assert (length got ≠ 0%nat) by (by destruct got).
    rewrite IH by lia. simpl. do 2 f_equal; [].
    replace (Z.to_nat (c + Z.of_nat (length got))) with (Z.to_nat c + length got)%nat by lia.
    rewrite <- drop_drop. unfold got at 1.
    destruct (Nat.le_ge_cases (Z.to_nat limit) (length log - Z.to_nat c)).
    + replace (length got) with (Z.to_nat limit) by lia. apply take_drop.
    + rewrite (drop_ge _ (length got)) by (rewrite length_drop; lia).
      rewrite take_ge by (rewrite length_drop; lia). apply app_nil_r.
Qed.

(** A cursor behind the oldest line is moved to it by the first read. *)
Lemma follow_behind log b limit fuel :
  countable log → represents log b → 0 < limit →
  (S (length log) < fuel)%nat →
  follow fuel 0 limit b = Ok (drop (oldest b log) log, Z.of_nat (length log)).
Proof.
  intros Hc Hr Hlim Hf. destruct fuel as [|fuel]; [lia|].
  pose proof (suffix_length _ _ (represents_suffix _ _ Hr)) as Hlen.
  assert (oldest b log ≤ length log)%nat as Ho by (unfold oldest; lia).
  assert (follow (S fuel) 0 limit b = follow (S fuel) (Z.of_nat (oldest b log)) limit b) as ->.
  { simpl. rewrite !(Read_represented log) by (done || (destruct Hc; unfold max_int64 in *; lia)).
    unfold read_spec. by replace (Z.max 0 (Z.of_nat (oldest b log)))
      with (Z.max (Z.of_nat (oldest b log)) (Z.of_nat (oldest b log))) by lia. }
  rewrite (follow_from log) by (done || lia). by rewrite Nat2Z.id.
Qed.

Lemma run_refines mL mB log :
  countable log → lines (run mL mB log) = window mL mB log.
Proof.
  intros Hc. destruct (run_represents mL mB log Hc) as [-> _].
  by destruct (run_bounds mL mB log) as [-> ->].
Qed.

Lemma window_fits mL mB log :
  log ≠ [] →
  fits mL mB (window mL mB log) = true ∨ length (window mL mB log) = 1%nat.
Proof.
  induction log as [|a l IH]; [done|]. intros _. simpl.
  destruct (fits mL mB (a :: l)) eqn:E; simpl; [by left|].
  case_bool_decide as Hl; [subst; by right|]. by apply IH.
Qed.

Lemma window_greatest mL mB log k :
  k `suffix_of` log → fits mL mB k = true → k `suffix_of` window mL mB log.
Proof.
  induction log as [|a l IH]; intros Hk Hf; simpl; [done|].
  destruct (fits mL mB (a :: l)) eqn:E; simpl; [done|].
  case_bool_decide as Hl; [done|].
  destruct k as [|c k]; [apply suffix_nil|].
  apply suffix_cons_inv in Hk as [Heq|Hk]; [congruence|]. by apply IH.
Qed.

(** ** Theorems *)

(** C38: refinement.  After any sequence of appended lines the ring holds exactly
    the longest suffix of the full log within both bounds (at least the last
    line), its byte count is the length of what it holds, and its total counts
    every line ever appended. *)
Theorem run_refines_log mL mB log :
  countable log →
  run mL mB log =
    mkBuffer mL mB (window mL mB log) (log_bytes (window mL mB log))
      (Z.of_nat (length log)).
Proof.
  intros Hc. destruct (run_represents mL mB log Hc) as (Hl & Hb & Ht).
  destruct (run_bounds mL mB log) as [H1 H2].
  destruct (run mL mB log); simpl in *. by subst.
Qed.

Lemma run_refines_log_witness :
  countable [bs "one"; bs "two"; bs "three"] ∧
  run 2 100 [bs "one"; bs "two"; bs "three"] = mkBuffer 2 100 [bs "two"; bs "three"] 8 3.
Proof.
  assert (countable [bs "one"; bs "two"; bs "three"]) as Hc by (by vm_compute).
  split; [exact Hc|]. rewrite (run_refines_log 2 100 _ Hc). reflexivity.
Defined.

(** No line is evicted without need.  Of a non-empty log the window is a
    non-empty suffix, it is within both bounds or a single line, and every suffix
    of the log that is within both bounds is a suffix of the window. *)
Theorem window_longest mL mB log :
  log ≠ [] →
  window mL mB log ≠ [] ∧
  window mL mB log `suffix_of` log ∧
  (fits mL mB (window mL mB log) = true ∨ length (window mL mB log) = 1%nat) ∧
  (∀ k, k `suffix_of` log → fits mL mB k = true → k `suffix_of` window mL mB log).
Proof.
  intros Hne. split_and!; [by apply window_ne|apply window_suffix|..].
  - by apply window_fits.
  - intros k. apply window_greatest.
Qed.

Lemma window_longest_witness :
  bs "tail" :: [] ≠ [] ∧ window 1 100 [bs "tail"] ≠ [].
Proof.
  split; [discriminate|].
  apply (window_longest 1 100 [bs "tail"]). discriminate.
Defined.

(** Functional correctness of [Read].  On a ring that represents a log, a
    read at any cursor returns exactly the log's lines from the cursor, or from
    the oldest line still held when the cursor is behind it, capped by a positive
    limit; the next cursor is just after the last line returned; and the dropped
    count is how many lines the cursor had missed. *)
Theorem Read_refines_log mL mB log cursor limit :
  countable log → 0 ≤ cursor ≤ max_int64 →
  Read cursor limit (run mL mB log) =
    Ok (read_spec log (length log - length (window mL mB log)) cursor limit).
Proof.
  intros Hc Hcur. rewrite (Read_represented log) by eauto using run_represents.
  unfold oldest. rewrite run_refines; done.
Qed.

Lemma Read_refines_log_witness :
  Read 0 0 (run 2 100 [bs "one"; bs "two"; bs "three"]) =
    Ok ([bs "two"; bs "three"], 3, 1).
Proof.
  rewrite (Read_refines_log 2 100 _ 0 0); [reflexivity|by vm_compute|].
  unfold max_int64. lia.
Defined.

(** Liveness of incremental reading.  A reader that starts at cursor 0 and
    keeps following the cursor it is given, with any positive limit, gets every
    line still held, in order and without repetition, ends at the total, and
    never panics. *)
Theorem follow_reads_everything mL mB log limit :
  countable log → 0 < limit →
  follow (S (S (length log))) 0 limit (run mL mB log) =
    Ok (window mL mB log, Z.of_nat (length log)).
Proof.
  intros Hc Hlim. pose proof (run_represents mL mB log Hc) as Hr.
  pose proof (suffix_length _ _ (window_suffix mL mB log)) as Hw.
  pose proof (window_suffix mL mB log) as Hs%drop_suffix.
  assert (oldest (run mL mB log) log = (length log - length (window mL mB log))%nat) as Ho
    by (unfold oldest; by rewrite run_refines).
  rewrite (follow_behind log) by (done || lia). rewrite Ho.
  by rewrite <- Hs.
Qed.

Lemma follow_reads_everything_witness :
  follow 5 0 1 (run 2 100 [bs "one"; bs "two"; bs "three"]) =
    Ok ([bs "two"; bs "three"], 3).
Proof.
  refine (follow_reads_everything 2 100 [bs "one"; bs "two"; bs "three"] 1 _ _);
    [by vm_compute|lia].
Defined.

End JobBuffer.
