(* ===== verification/Limits.v ===== *)
(** The bounds of every host tool result
    (src/internal/pkg/tools/limits.go): the defaults, how a zero field takes its
    default, and the validation that every bound is positive.  Go's [int],
    [int64] and [time.Duration] are all 64-bit integers, written [Z]; nothing
    here computes with them, so none can overflow. *)
From stdpp Require Import base gmap sets list strings.
From Stdlib Require Import ZArith Lia Ascii.
From S2P Require Import Prelude GoBytes.

Module Limits.
Local Open Scope Z_scope.

Record Limits := mkLimits {
  MaxListEntries : Z;
  MaxListDepth : Z;
  MaxSearchMatches : Z;
  MaxSearchFileBytes : Z;
  MaxReadBytes : Z;
  MaxReadLines : Z;
  MaxWriteBytes : Z;
  MaxEdits : Z;
  MaxDiffBytes : Z;
  MaxPatchBytes : Z;
  MaxPatchFiles : Z;
  MaxPatchHunks : Z;
  MaxPatchChangedBytes : Z;
  MaxRemoveEntries : Z;
  MaxCommandOutputBytes : Z;
  CommandTimeout : Z;
  MaxJobOutputLines : Z;
  MaxReadJobOutputLines : Z;
  WaitJobTimeout : Z;
  JobStopGracePeriod : Z;
  MaxListJobs : Z;
  MaxImageBytes : Z;
  MaxFetchBytes : Z;
  MaxPDFBytes : Z;
}.

(** [time.Duration] counts nanoseconds. *)
Definition second : Z := 1000000000.
Definition minute : Z := 60 * second.

Definition DefaultLimits : Limits := {|
    MaxListEntries := 1000;
    MaxListDepth := 16;
    MaxSearchMatches := 200;
    MaxSearchFileBytes := (2 * 1024 * 1024);
    MaxReadBytes := (256 * 1024);
    MaxReadLines := 2000;
    MaxWriteBytes := (4 * 1024 * 1024);
    MaxEdits := 64;
    MaxDiffBytes := (64 * 1024);
    MaxPatchBytes := (1024 * 1024);
    MaxPatchFiles := 64;
    MaxPatchHunks := 256;
    MaxPatchChangedBytes := (4 * 1024 * 1024);
    MaxRemoveEntries := 20000;
    MaxCommandOutputBytes := (64 * 1024);
    CommandTimeout := (10 * minute);
    MaxJobOutputLines := 2000;
    MaxReadJobOutputLines := 500;
    WaitJobTimeout := (10 * minute);
    JobStopGracePeriod := (10 * second);
    MaxListJobs := 500;
    MaxImageBytes := (5 * 1024 * 1024);
    MaxFetchBytes := (2 * 1024 * 1024);
    MaxPDFBytes := (32 * 1024 * 1024);
|}.

Definition orDefault (value default : Z) : Z := if value =? 0 then default else value.

Definition withFileToolDefaults (defaults l : Limits) : Limits := {|
    MaxListEntries := orDefault (MaxListEntries l) (MaxListEntries defaults);
    MaxListDepth := orDefault (MaxListDepth l) (MaxListDepth defaults);
    MaxSearchMatches := orDefault (MaxSearchMatches l) (MaxSearchMatches defaults);
    MaxSearchFileBytes := orDefault (MaxSearchFileBytes l) (MaxSearchFileBytes defaults);
    MaxReadBytes := orDefault (MaxReadBytes l) (MaxReadBytes defaults);
    MaxReadLines := orDefault (MaxReadLines l) (MaxReadLines defaults);
    MaxWriteBytes := orDefault (MaxWriteBytes l) (MaxWriteBytes defaults);
    MaxEdits := orDefault (MaxEdits l) (MaxEdits defaults);
    MaxDiffBytes := orDefault (MaxDiffBytes l) (MaxDiffBytes defaults);
    MaxPatchBytes := MaxPatchBytes l;
    MaxPatchFiles := MaxPatchFiles l;
    MaxPatchHunks := MaxPatchHunks l;
    MaxPatchChangedBytes := MaxPatchChangedBytes l;
    MaxRemoveEntries := orDefault (MaxRemoveEntries l) (MaxRemoveEntries defaults);
    MaxCommandOutputBytes := orDefault (MaxCommandOutputBytes l) (MaxCommandOutputBytes defaults);
    CommandTimeout := orDefault (CommandTimeout l) (CommandTimeout defaults);
    MaxJobOutputLines := MaxJobOutputLines l;
    MaxReadJobOutputLines := MaxReadJobOutputLines l;
    WaitJobTimeout := WaitJobTimeout l;
    JobStopGracePeriod := JobStopGracePeriod l;
    MaxListJobs := MaxListJobs l;
    MaxImageBytes := MaxImageBytes l;
    MaxFetchBytes := MaxFetchBytes l;
    MaxPDFBytes := MaxPDFBytes l;
|}.

Definition withPatchToolDefaults (defaults l : Limits) : Limits := {|
    MaxListEntries := MaxListEntries l;
    MaxListDepth := MaxListDepth l;
    MaxSearchMatches := MaxSearchMatches l;
    MaxSearchFileBytes := MaxSearchFileBytes l;
    MaxReadBytes := MaxReadBytes l;
    MaxReadLines := MaxReadLines l;
    MaxWriteBytes := MaxWriteBytes l;
    MaxEdits := MaxEdits l;
    MaxDiffBytes := MaxDiffBytes l;
    MaxPatchBytes := orDefault (MaxPatchBytes l) (MaxPatchBytes defaults);
    MaxPatchFiles := orDefault (MaxPatchFiles l) (MaxPatchFiles defaults);
    MaxPatchHunks := orDefault (MaxPatchHunks l) (MaxPatchHunks defaults);
    MaxPatchChangedBytes := orDefault (MaxPatchChangedBytes l) (MaxPatchChangedBytes defaults);
    MaxRemoveEntries := MaxRemoveEntries l;
    MaxCommandOutputBytes := MaxCommandOutputBytes l;
    CommandTimeout := CommandTimeout l;
    MaxJobOutputLines := MaxJobOutputLines l;
    MaxReadJobOutputLines := MaxReadJobOutputLines l;
    WaitJobTimeout := WaitJobTimeout l;
    JobStopGracePeriod := JobStopGracePeriod l;
    MaxListJobs := MaxListJobs l;
    MaxImageBytes := MaxImageBytes l;
    MaxFetchBytes := MaxFetchBytes l;
    MaxPDFBytes := MaxPDFBytes l;
|}.

Definition withJobToolDefaults (defaults l : Limits) : Limits := {|
    MaxListEntries := MaxListEntries l;
    MaxListDepth := MaxListDepth l;
    MaxSearchMatches := MaxSearchMatches l;
    MaxSearchFileBytes := MaxSearchFileBytes l;
    MaxReadBytes := MaxReadBytes l;
    MaxReadLines := MaxReadLines l;
    MaxWriteBytes := MaxWriteBytes l;
    MaxEdits := MaxEdits l;
    MaxDiffBytes := MaxDiffBytes l;
    MaxPatchBytes := MaxPatchBytes l;
    MaxPatchFiles := MaxPatchFiles l;
    MaxPatchHunks := MaxPatchHunks l;
    MaxPatchChangedBytes := MaxPatchChangedBytes l;
    MaxRemoveEntries := MaxRemoveEntries l;
    MaxCommandOutputBytes := MaxCommandOutputBytes l;
    CommandTimeout := CommandTimeout l;
    MaxJobOutputLines := orDefault (MaxJobOutputLines l) (MaxJobOutputLines defaults);
    MaxReadJobOutputLines := orDefault (MaxReadJobOutputLines l) (MaxReadJobOutputLines defaults);
    WaitJobTimeout := orDefault (WaitJobTimeout l) (WaitJobTimeout defaults);
    JobStopGracePeriod := orDefault (JobStopGracePeriod l) (JobStopGracePeriod defaults);
    MaxListJobs := orDefault (MaxListJobs l) (MaxListJobs defaults);
    MaxImageBytes := MaxImageBytes l;
    MaxFetchBytes := MaxFetchBytes l;
    MaxPDFBytes := MaxPDFBytes l;
|}.

Definition withDefaults (l : Limits) : Limits :=
  let defaults := DefaultLimits in
  let l := withFileToolDefaults defaults l in
  let l := withPatchToolDefaults defaults l in
  let l := withJobToolDefaults defaults l in
  {|
    MaxListEntries := MaxListEntries l;
    MaxListDepth := MaxListDepth l;
    MaxSearchMatches := MaxSearchMatches l;
    MaxSearchFileBytes := MaxSearchFileBytes l;
    MaxReadBytes := MaxReadBytes l;
    MaxReadLines := MaxReadLines l;
    MaxWriteBytes := MaxWriteBytes l;
    MaxEdits := MaxEdits l;
    MaxDiffBytes := MaxDiffBytes l;
    MaxPatchBytes := MaxPatchBytes l;
    MaxPatchFiles := MaxPatchFiles l;
    MaxPatchHunks := MaxPatchHunks l;
    MaxPatchChangedBytes := MaxPatchChangedBytes l;
    MaxRemoveEntries := MaxRemoveEntries l;
    MaxCommandOutputBytes := MaxCommandOutputBytes l;
    CommandTimeout := CommandTimeout l;
    MaxJobOutputLines := MaxJobOutputLines l;
    MaxReadJobOutputLines := MaxReadJobOutputLines l;
    WaitJobTimeout := WaitJobTimeout l;
    JobStopGracePeriod := JobStopGracePeriod l;
    MaxListJobs := MaxListJobs l;
    MaxImageBytes := orDefault (MaxImageBytes l) (MaxImageBytes defaults);
    MaxFetchBytes := orDefault (MaxFetchBytes l) (MaxFetchBytes defaults);
    MaxPDFBytes := orDefault (MaxPDFBytes l) (MaxPDFBytes defaults);
  |}.

Definition positives (l : Limits) : list Z :=
  [ MaxListEntries l;
    MaxListDepth l;
    MaxSearchMatches l;
    MaxReadBytes l;
    MaxReadLines l;
    MaxWriteBytes l;
    MaxEdits l;
    MaxDiffBytes l;
    MaxPatchBytes l;
    MaxPatchFiles l;
    MaxPatchHunks l;
    MaxPatchChangedBytes l;
    MaxRemoveEntries l;
    MaxCommandOutputBytes l;
    MaxJobOutputLines l;
    MaxReadJobOutputLines l;
    MaxListJobs l;
    MaxImageBytes l;
    MaxFetchBytes l;
    MaxPDFBytes l ].

Definition validateJobLimits (l : Limits) : outcome unit :=
  if WaitJobTimeout l <=? 0 then Err ErrInvalidLimits
  else if JobStopGracePeriod l <=? 0 then Err ErrInvalidLimits
  else Ok tt.

Definition validate (l : Limits) : outcome unit :=
  if existsb (λ value, value <=? 0) (positives l) then Err ErrInvalidLimits
  else if MaxSearchFileBytes l <=? 0 then Err ErrInvalidLimits
  else if CommandTimeout l <=? 0 then Err ErrInvalidLimits
  else validateJobLimits l.

Definition ValidateLimits (l : Limits) : outcome unit := validate (withDefaults l).

(** ** Specification *)

(** Every bound, in the order of the struct. *)
Definition bounds (l : Limits) : list Z :=
  [ MaxListEntries l;
    MaxListDepth l;
    MaxSearchMatches l;
    MaxSearchFileBytes l;
    MaxReadBytes l;
    MaxReadLines l;
    MaxWriteBytes l;
    MaxEdits l;
    MaxDiffBytes l;
    MaxPatchBytes l;
    MaxPatchFiles l;
    MaxPatchHunks l;
    MaxPatchChangedBytes l;
    MaxRemoveEntries l;
    MaxCommandOutputBytes l;
    CommandTimeout l;
    MaxJobOutputLines l;
    MaxReadJobOutputLines l;
    WaitJobTimeout l;
    JobStopGracePeriod l;
    MaxListJobs l;
    MaxImageBytes l;
    MaxFetchBytes l;
    MaxPDFBytes l ].

Lemma orDefault_pos v d : 0 < d → (0 < orDefault v d ↔ 0 <= v).
Proof. unfold orDefault. destruct (Z.eqb_spec v 0); lia. Qed.

Lemma zip_orDefault_idem vs ds :
  zip_with orDefault (zip_with orDefault vs ds) ds = zip_with orDefault vs ds.
Proof.
  revert ds. induction vs as [|v vs IH]; intros [|d ds]; simpl; [done..|].
  rewrite IH. f_equal. unfold orDefault. destruct (Z.eqb_spec v 0); [|].
  - by destruct (d =? 0).
  - by rewrite (proj2 (Z.eqb_neq v 0)).
Qed.

Lemma zip_orDefault_set vs ds :
  length vs = length ds → Forall (λ v, v ≠ 0) vs → zip_with orDefault vs ds = vs.
Proof.
  intros Hlen Hall. revert ds Hlen. induction Hall as [|v vs Hv _ IH];
    intros [|d ds] Hlen; simplify_eq/=; [done|]. rewrite IH by done.
  unfold orDefault. by rewrite (proj2 (Z.eqb_neq v 0)).
Qed.

Lemma bounds_inj l l' : bounds l = bounds l' → l = l'.
Proof. destruct l, l'. unfold bounds. cbn. intros H. injection H. intros. by subst. Qed.

Lemma withDefaults_bounds l :
  bounds (withDefaults l) = zip_with orDefault (bounds l) (bounds DefaultLimits).
Proof. reflexivity. Qed.

Lemma existsb_nonpos vs : existsb (λ v, v <=? 0) vs = false ↔ Forall (λ v, 0 < v) vs.
Proof.
  induction vs as [|v vs IH]; simpl; [by split|].
  rewrite orb_false_iff, IH, Forall_cons, Z.leb_gt. done.
Qed.

Lemma Forall_zip_orDefault vs ds :
  length vs = length ds → Forall (λ d, 0 < d) ds →
  Forall (λ v, 0 < v) (zip_with orDefault vs ds) ↔ Forall (λ v, 0 <= v) vs.
Proof.
  intros Hlen Hds. revert vs Hlen. induction Hds as [|d ds Hd _ IH];
    intros [|v vs] Hlen; simplify_eq/=; [by split..|].
  by rewrite !Forall_cons, orDefault_pos, IH.
Qed.

Lemma validate_Ok l : validate l = Ok tt ↔ Forall (λ v, 0 < v) (bounds l).
Proof.
  unfold validate, validateJobLimits.
  assert (Forall (λ v, 0 < v) (bounds l) ↔
    Forall (λ v, 0 < v) (positives l) ∧ 0 < MaxSearchFileBytes l ∧
    0 < CommandTimeout l ∧ 0 < WaitJobTimeout l ∧ 0 < JobStopGracePeriod l) as ->.
  { unfold bounds, positives. rewrite !Forall_cons, !Forall_nil. tauto. }
  rewrite <- existsb_nonpos. destruct (existsb _ _); [naive_solver|].
  destruct (Z.leb_spec (MaxSearchFileBytes l) 0); [naive_solver lia|].
  destruct (Z.leb_spec (CommandTimeout l) 0); [naive_solver lia|].
  destruct (Z.leb_spec (WaitJobTimeout l) 0); [naive_solver lia|].
  destruct (Z.leb_spec (JobStopGracePeriod l) 0); naive_solver lia.
Qed.

Lemma validate_shape l : validate l = Ok tt ∨ validate l = Err ErrInvalidLimits.
Proof. unfold validate, validateJobLimits. repeat case_if; auto. Qed.

(** ** Theorems *)

(** Exactly the limit sets without a negative bound are accepted: a zero
    takes a positive default, a positive bound is kept, and any negative one is
    refused with [ErrInvalidLimits]. *)
Theorem ValidateLimits_iff l :
  (ValidateLimits l = Ok tt ↔ Forall (λ v, 0 <= v) (bounds l)) ∧
  (ValidateLimits l ≠ Ok tt → ValidateLimits l = Err ErrInvalidLimits).
Proof.
  unfold ValidateLimits. split.
  - rewrite validate_Ok, withDefaults_bounds. apply Forall_zip_orDefault; [done|].
    repeat (constructor; [by vm_compute|]). constructor.
  - destruct (validate_shape (withDefaults l)); naive_solver.
Qed.

Lemma ValidateLimits_iff_witness :
  ValidateLimits (mkLimits 0 0 0 0 0 0 0 0 0 0 0 0 0 0 0 0 0 0 0 0 0 0 0 (-1)) =
    Err ErrInvalidLimits.
Proof.
  apply (ValidateLimits_iff (mkLimits 0 0 0 0 0 0 0 0 0 0 0 0 0 0 0 0 0 0 0 0 0 0 0 (-1))).
  discriminate.
Defined.

(** Taking defaults is a closure: it is idempotent, it keeps every bound that
    was set, and the defaults themselves are a fixed point that validates. *)
Theorem withDefaults_closure l :
  withDefaults (withDefaults l) = withDefaults l ∧
  (Forall (λ v, v ≠ 0) (bounds l) → withDefaults l = l) ∧
  withDefaults DefaultLimits = DefaultLimits ∧ validate DefaultLimits = Ok tt.
Proof.
  split_and!; [..|reflexivity|reflexivity].
  - apply bounds_inj. rewrite !withDefaults_bounds. apply zip_orDefault_idem.
  - intros Hall. apply bounds_inj. rewrite withDefaults_bounds.
    by apply zip_orDefault_set.
Qed.

Lemma withDefaults_closure_witness :
  withDefaults DefaultLimits = DefaultLimits.
Proof.
  destruct (withDefaults_closure DefaultLimits) as (_ & H & _). apply H.
  repeat (constructor; [discriminate|]). constructor.
Defined.

End Limits.
