(* ===== verification/Diff.v ===== *)
(** The unified diff that [editFile] and [applyPatch] report
    (src/internal/pkg/tools/diff.go): byte ranges are turned into line windows,
    overlapping windows are merged, and the text is bounded. *)
From stdpp Require Import base gmap sets list strings pretty.
From Stdlib Require Import ZArith Lia Ascii Sorted.
From S2P Require Import Prelude GoBytes.

Module Diff.
Local Coercion Z.of_nat : nat >-> Z.
Local Open Scope Z_scope.

Definition diffContextLines : Z := 3.
Definition diffTruncatedTag : bytes := bs "... diff truncated ..." ++ [NL].

(** One applied edit: byte ranges of the original and of the rewritten content. *)
Record replacement := mkReplacement {
  r_oldStart : Z;
  r_oldEnd : Z;
  r_newStart : Z;
  r_newEnd : Z;
}.

(** A window of 1-based, inclusive line numbers on both sides. *)
Record diffHunk := mkHunk {
  oldStart : Z;
  oldEnd : Z;
  newStart : Z;
  newEnd : Z;
}.

(** [strconv.Itoa]. *)
Definition itoa (z : Z) : bytes := bs (pretty z).

Definition splitLines (content : bytes) : list bytes :=
  match content with
  | [] => []
  | _ => split_byte NL (trim_suffix [NL] content)
  end.

Definition lineOfOffset (content : bytes) (offset : Z) : Z :=
  if offset <=? 0 then 1
  else
    let offset := Z.min offset (Z.of_nat (length content)) in
    Z.of_nat (count_byte NL (take (Z.to_nat offset) content)) + 1.

Definition endOffset (start fin : Z) : Z := if fin <=? start then start else fin - 1.

Definition clampLine (line total : Z) : Z :=
  if line <? 1 then 1 else if (0 <? total) && (total <? line) then total else line.

Definition sliceLines (lines : list bytes) (first last : Z) : outcome (list bytes) :=
  if bool_decide (lines = []) || (last <? first) then Ok []
  else
    let total := Z.of_nat (length lines) in
    slice (clampLine first total - 1) (clampLine last total) lines.

Definition spanToHunk (oldContent newContent : bytes) (oldLines newLines : list bytes)
    (item : replacement) : diffHunk :=
  let oldTail := endOffset (r_oldStart item) (r_oldEnd item) in
  let newTail := endOffset (r_newStart item) (r_newEnd item) in
  let oldFirst := lineOfOffset oldContent (r_oldStart item) in
  let oldLast := lineOfOffset oldContent oldTail in
  let newFirst := lineOfOffset newContent (r_newStart item) in
  let newLast := lineOfOffset newContent newTail in
  let oldTotal := Z.of_nat (length oldLines) in
  let newTotal := Z.of_nat (length newLines) in
  mkHunk (clampLine (oldFirst - diffContextLines) oldTotal)
         (clampLine (oldLast + diffContextLines) oldTotal)
         (clampLine (newFirst - diffContextLines) newTotal)
         (clampLine (newLast + diffContextLines) newTotal).

Definition spansToHunks (replacements : list replacement)
    (oldContent newContent : bytes) (oldLines newLines : list bytes) : list diffHunk :=
  spanToHunk oldContent newContent oldLines newLines <$> replacements.

(** The loop of [mergeHunks]: [last] is the hunk being extended in place. *)
Fixpoint mergeFrom (last : diffHunk) (hunks : list diffHunk) : list diffHunk :=
  match hunks with
  | [] => [last]
  | hunk :: rest =>
      if (oldEnd last + 1 <? oldStart hunk) && (newEnd last + 1 <? newStart hunk)
      then last :: mergeFrom hunk rest
      else mergeFrom
             (mkHunk (oldStart last) (Z.max (oldEnd last) (oldEnd hunk))
                     (newStart last) (Z.max (newEnd last) (newEnd hunk))) rest
  end.

Definition clampEnds (oldTotal newTotal : Z) (h : diffHunk) : diffHunk :=
  mkHunk (oldStart h) (clampLine (oldEnd h) oldTotal)
         (newStart h) (clampLine (newEnd h) newTotal).

Definition mergeHunks (hunks : list diffHunk) (oldTotal newTotal : Z) : list diffHunk :=
  match hunks with
  | [] => []
  | h :: rest => clampEnds oldTotal newTotal <$> mergeFrom h rest
  end.

Definition hunkHeader (h : diffHunk) : bytes :=
  let oldCount := oldEnd h - oldStart h + 1 in
  let newCount := newEnd h - newStart h + 1 in
  bs "@@ -" ++ itoa (oldStart h) ++ bs "," ++ itoa oldCount ++ bs " +" ++
  itoa (newStart h) ++ bs "," ++ itoa newCount ++ bs " @@" ++ [NL].

Definition markLines (mark : string) (lines : list bytes) : bytes :=
  concat ((λ line, bs mark ++ line ++ [NL]) <$> lines).

Definition writeHunk (oldLines newLines : list bytes) (builder : bytes) (h : diffHunk)
    : outcome bytes :=
  removed ← sliceLines oldLines (oldStart h) (oldEnd h);
  added ← sliceLines newLines (newStart h) (newEnd h);
  Ok (builder ++ hunkHeader h ++ markLines "-" removed ++ markLines "+" added).

Definition boundDiff (diff : bytes) (maxBytes : Z) : bytes * bool :=
  if (maxBytes <=? 0) || (Z.of_nat (length diff) <=? maxBytes) then (diff, false)
  else
    let head := take (Z.to_nat maxBytes) diff in
    let cut := match last_index_byte NL head with
               | Some (S n) => S (S n)
               | _ => Z.to_nat maxBytes
               end in
    (take cut diff ++ diffTruncatedTag, true).

Definition unifiedDiff (path oldContent newContent : bytes)
    (replacements : list replacement) (maxBytes : Z) : outcome (bytes * bool) :=
  if bool_decide (replacements = []) then Ok ([], false)
  else
    let oldLines := splitLines oldContent in
    let newLines := splitLines newContent in
    let hunks :=
      mergeHunks (spansToHunks replacements oldContent newContent oldLines newLines)
        (Z.of_nat (length oldLines)) (Z.of_nat (length newLines)) in
    let builder := bs "--- " ++ path ++ [NL] ++ bs "+++ " ++ path ++ [NL] in
    text ← foldM (writeHunk oldLines newLines) hunks builder;
    Ok (boundDiff text maxBytes).

(** ** Lines and offsets *)

Lemma clampLine_range line total :
  1 ≤ clampLine line total ∧ (0 < total → clampLine line total ≤ total).
Proof.
  unfold clampLine. destruct (Z.ltb_spec line 1); [lia|].
  destruct (Z.ltb_spec 0 total), (Z.ltb_spec total line); simpl; lia.
Qed.

Lemma clampLine_id line total : 1 ≤ line ≤ total → clampLine line total = line.
Proof.
  intros. unfold clampLine. rewrite (proj2 (Z.ltb_ge _ _)) by lia.
  rewrite (proj2 (Z.ltb_ge total line)) by lia. by rewrite andb_false_r.
Qed.

Lemma clampLine_mono a c total : a ≤ c → clampLine a total ≤ clampLine c total.
Proof.
  intros. unfold clampLine.
  destruct (Z.ltb_spec a 1), (Z.ltb_spec c 1), (Z.ltb_spec 0 total),
    (Z.ltb_spec total a), (Z.ltb_spec total c); simpl; lia.
Qed.

Lemma clampLine_le line total : 1 ≤ line → clampLine line total ≤ line.
Proof.
  intros. unfold clampLine. destruct (Z.ltb_spec line 1), (Z.ltb_spec 0 total),
    (Z.ltb_spec total line); simpl; lia.
Qed.

Lemma count_byte_take_mono c (l : bytes) i j :
  (i ≤ j)%nat → (count_byte c (take i l) ≤ count_byte c (take j l))%nat.
Proof.
  intros. replace (take i l) with (take i (take j l))
    by (rewrite take_take; f_equal; lia).
  rewrite <- (take_drop i (take j l)) at 2. rewrite count_byte_app. lia.
Qed.

Lemma lineOfOffset_pos content offset : 1 ≤ lineOfOffset content offset.
Proof. unfold lineOfOffset. destruct (offset <=? 0); lia. Qed.

Lemma lineOfOffset_mono content a c :
  a ≤ c → lineOfOffset content a ≤ lineOfOffset content c.
Proof.
  intros. unfold lineOfOffset. destruct (Z.leb_spec a 0), (Z.leb_spec c 0); try lia.
  pose proof (count_byte_take_mono NL content
    (Z.to_nat (Z.min a (length content))) (Z.to_nat (Z.min c (length content)))). lia.
Qed.

Lemma length_splitLines content :
  content ≠ [] →
  length (splitLines content) = S (count_byte NL (trim_suffix [NL] content)).
Proof. intros. unfold splitLines. destruct content; [done|]. apply length_split_byte. Qed.

(** An offset inside the content names one of its lines. *)
Lemma lineOfOffset_le content offset :
  content ≠ [] → offset < Z.of_nat (length content) →
  lineOfOffset content offset ≤ Z.of_nat (length (splitLines content)).
Proof.
  intros Hne Hlt. rewrite length_splitLines by done. unfold lineOfOffset.
  destruct (Z.leb_spec offset 0); [lia|]. rewrite Z.min_l by lia.
  enough (count_byte NL (take (Z.to_nat offset) content)
          ≤ count_byte NL (trim_suffix [NL] content))%nat by lia.
  unfold trim_suffix. destruct (has_suffix [NL] content) eqn:E.
  - apply count_byte_take_mono. simpl. lia.
  - rewrite <- (take_ge content (length content)) at 2 by done.
    apply count_byte_take_mono. lia.
Qed.

Lemma endOffset_ge start fin : start ≤ endOffset start fin.
Proof. unfold endOffset. destruct (Z.leb_spec fin start); lia. Qed.

Lemma splitLines_ne content : content ≠ [] → 0 < Z.of_nat (length (splitLines content)).
Proof. intros. rewrite length_splitLines by done. lia. Qed.

(** ** Printing a window *)

Lemma sliceLines_ok lines first last :
  ∃ got, sliceLines lines first last = Ok got ∧
    (1 ≤ first → first ≤ last → last ≤ Z.of_nat (length lines) →
     got = take (Z.to_nat (last - first + 1)) (drop (Z.to_nat (first - 1)) lines) ∧
     Z.of_nat (length got) = last - first + 1).
Proof.
  unfold sliceLines. destruct (bool_decide_reflect (lines = [])) as [->|Hne]; simpl.
  { exists []. split; [done|]. simpl. lia. }
  destruct (Z.ltb_spec last first); [exists []; split; [done|lia]|].
  assert (0 < Z.of_nat (length lines)) by (destruct lines; simpl; [done|lia]).
  pose proof (clampLine_range first (length lines)).
  pose proof (clampLine_range last (length lines)).
  pose proof (clampLine_mono first last (length lines)).
  eexists. split; [apply slice_ok; lia|]. intros. rewrite !clampLine_id by lia.
  split; [do 2 f_equal; lia|]. rewrite length_take, length_drop. lia.
Qed.

Lemma writeHunk_ok oldLines newLines text h :
  ∃ text', writeHunk oldLines newLines text h = Ok text' ∧ text `prefix_of` text'.
Proof.
  unfold writeHunk.
  destruct (sliceLines_ok oldLines (oldStart h) (oldEnd h)) as (? & -> & _).
  destruct (sliceLines_ok newLines (newStart h) (newEnd h)) as (? & -> & _).
  simpl. eexists. split; [done|]. by apply prefix_app_r.
Qed.

(** ** Merging windows *)

(** [before h k]: [k] starts after [h], with at least one line between them on
    both sides, so the two print no common line. *)
Definition before (h k : diffHunk) : Prop :=
  oldEnd h + 1 < oldStart k ∧ newEnd h + 1 < newStart k.

(** [covers H h]: every line of [h] is a line of [H]. *)
Definition covers (H h : diffHunk) : Prop :=
  oldStart H ≤ oldStart h ∧ oldEnd h ≤ oldEnd H ∧
  newStart H ≤ newStart h ∧ newEnd h ≤ newEnd H.

(** A window of lines [1..oldTotal] and [1..newTotal]. *)
Definition within (oldTotal newTotal : Z) (h : diffHunk) : Prop :=
  1 ≤ oldStart h ≤ oldEnd h ∧ oldEnd h ≤ oldTotal ∧
  1 ≤ newStart h ≤ newEnd h ∧ newEnd h ≤ newTotal.

Definition starts_le (h k : diffHunk) : Prop :=
  oldStart h ≤ oldStart k ∧ newStart h ≤ newStart k.

Definition ordered (h : diffHunk) : Prop :=
  1 ≤ oldStart h ≤ oldEnd h ∧ 1 ≤ newStart h ≤ newEnd h.

Lemma before_trans h k m : ordered k → before h k → before k m → before h m.
Proof. unfold before, ordered. lia. Qed.

Lemma mergeFrom_spec (P : diffHunk → Prop) last hunks :
  (∀ h k, P h → P k → P (mkHunk (oldStart h) (Z.max (oldEnd h) (oldEnd k))
                                (newStart h) (Z.max (newEnd h) (newEnd k)))) →
  P last → Forall P hunks → Forall P (mergeFrom last hunks).
Proof.
  intros Hm Hl Hh. revert last Hl. induction Hh as [|h hunks Hh Hhs IH]; intros last Hl;
    simpl; [by constructor|].
  destruct (_ && _); [constructor; auto|]. auto.
Qed.

Lemma mergeFrom_head last hunks :
  ∃ H rest, mergeFrom last hunks = H :: rest ∧
    oldStart H = oldStart last ∧ newStart H = newStart last ∧
    oldEnd last ≤ oldEnd H ∧ newEnd last ≤ newEnd H.
Proof.
  revert last. induction hunks as [|h hunks IH]; intros last; simpl.
  - eexists _, _; split; [done|lia].
  - destruct (_ && _).
    + eexists _, _; split; [done|lia].
    + destruct (IH (mkHunk (oldStart last) (Z.max (oldEnd last) (oldEnd h))
                      (newStart last) (Z.max (newEnd last) (newEnd h))))
        as (H & rest & Heq & ? & ? & ? & ?). simpl in *.
      exists H, rest. split; [done|lia].
Qed.

Lemma mergeFrom_separated last hunks :
  ordered last → Forall ordered hunks → StronglySorted before (mergeFrom last hunks).
Proof.
  intros Hl Hh. revert last Hl. induction Hh as [|h hunks Hh Hhs IH]; intros last Hl; simpl.
  - repeat constructor.
  - destruct (_ && _) eqn:E.
    + specialize (IH h Hh). pose proof (mergeFrom_spec ordered h hunks) as Ho.
      apply andb_true_iff in E as [E1%Z.ltb_lt E2%Z.ltb_lt].
      destruct (mergeFrom_head h hunks) as (H & rest & Heq & ? & ? & _).
      rewrite Heq in *. constructor; [done|].
      assert (before last H) by (unfold before; lia).
      constructor; [done|]. apply StronglySorted_inv in IH as [_ Hall].
      eapply Forall_impl; [exact Hall|]. intros m. apply before_trans; [|done].
      apply Forall_inv with rest. apply Ho; [|done..]. unfold ordered; simpl; lia.
    + apply IH. unfold ordered in *; simpl; lia.
Qed.

Lemma mergeFrom_covers last hunks h :
  Forall (starts_le last) hunks → StronglySorted starts_le hunks →
  h ∈ last :: hunks → ∃ H, H ∈ mergeFrom last hunks ∧ covers H h.
Proof.
  intros Hle Hs. revert last Hle h.
  induction Hs as [|k hunks Hs IH Hk]; intros last Hle h Hin; simpl.
  - exists last. set_unfold. destruct Hin as [->|[]]. split; [by left|]. unfold covers; lia.
  - apply Forall_cons in Hle as [Hlk Hle]. destruct (_ && _) eqn:E.
    + apply elem_of_cons in Hin as [->|Hin].
      * exists last. split; [by left|]. unfold covers; lia.
      * destruct (IH k Hk h Hin) as (H & ? & ?). exists H. split; [by right|done].
    + set (m := mkHunk _ _ _ _).
      assert (Forall (starts_le m) hunks) as Hm.
      { eapply Forall_impl; [exact Hle|]. unfold starts_le, m. simpl. done. }
      assert (h ∈ hunks ∨ covers m h) as [Hh|Hc].
      { unfold covers, m, starts_le in *; simpl. set_unfold. destruct Hin as [->|[->|?]];
          [right; lia|right; lia|by left]. }
      * apply IH; [done|by right].
      * destruct (IH m Hm m ltac:(by left)) as (H & ? & Hcm). exists H. split; [done|].
        unfold covers in *. lia.
Qed.

Lemma spanToHunk_within old new item :
  old ≠ [] → new ≠ [] →
  within (Z.of_nat (length (splitLines old))) (Z.of_nat (length (splitLines new)))
    (spanToHunk old new (splitLines old) (splitLines new) item).
Proof.
  intros Ho%splitLines_ne Hn%splitLines_ne. unfold within, spanToHunk; simpl.
  unfold diffContextLines.
  pose proof (clampLine_range (lineOfOffset old (r_oldStart item) - 3) (length (splitLines old))).
  pose proof (clampLine_range (lineOfOffset new (r_newStart item) - 3) (length (splitLines new))).
  pose proof (clampLine_range (lineOfOffset old (endOffset (r_oldStart item) (r_oldEnd item)) + 3) (length (splitLines old))).
  pose proof (clampLine_range (lineOfOffset new (endOffset (r_newStart item) (r_newEnd item)) + 3) (length (splitLines new))).
  pose proof (lineOfOffset_mono old _ _ (endOffset_ge (r_oldStart item) (r_oldEnd item))).
  pose proof (lineOfOffset_mono new _ _ (endOffset_ge (r_newStart item) (r_newEnd item))).
  split_and!; try lia; apply clampLine_mono; lia.
Qed.

Lemma within_ordered ot nt h : within ot nt h → ordered h.
Proof. unfold within, ordered. lia. Qed.

Lemma clampEnds_id ot nt h : within ot nt h → clampEnds ot nt h = h.
Proof.
  unfold within, clampEnds. intros. destruct h; simpl in *. by rewrite !clampLine_id by lia.
Qed.

Lemma mergeHunks_within ot nt hunks :
  Forall (within ot nt) hunks →
  Forall (within ot nt) (mergeHunks hunks ot nt) ∧
  (∀ h rest, hunks = h :: rest → mergeHunks hunks ot nt = mergeFrom h rest).
Proof.
  intros Hall. assert (∀ h rest, hunks = h :: rest → Forall (within ot nt) (mergeFrom h rest)) as Hw.
  { intros h rest ->. apply Forall_cons in Hall as [??]. apply mergeFrom_spec; try done.
    unfold within; simpl; lia. }
  assert (∀ h rest, hunks = h :: rest → mergeHunks hunks ot nt = mergeFrom h rest) as Heq.
  { intros h rest ->. simpl. rewrite <- (list_fmap_id (mergeFrom h rest)) at 2.
    apply list_fmap_ext. intros i k Hk. apply clampEnds_id.
    eapply Forall_lookup_1; [by apply Hw|done]. }
  split; [|done]. destruct hunks as [|h rest]; [constructor|]. rewrite (Heq h rest) by done. eauto.
Qed.

(** ** Bounding the text *)

Lemma boundDiff_whole diff m : m ≤ 0 ∨ length diff ≤ m → boundDiff diff m = (diff, false).
Proof.
  intros H. unfold boundDiff. destruct (Z.leb_spec m 0), (Z.leb_spec (length diff) m);
    simpl; (done || lia).
Qed.

Lemma last_index_byte_Some c l n : last_index_byte c l = Some n → l !! n = Some c.
Proof.
  revert n. induction l as [|a l IH]; intros n; simpl; [done|].
  destruct (last_index_byte c l) as [j|].
  - intros [= <-]. by apply IH.
  - case_decide; [intros [= <-]; by subst|done].
Qed.

Lemma take_end (l : bytes) n a : l !! n = Some a → take (S n) l = take n l ++ [a].
Proof. intros. by apply take_S_r. Qed.

(** ** Theorems *)

(** Invariant.  Whatever windows go in, no two windows of the merged result
    share or touch a line, on either side: no line is printed twice. *)
Theorem mergeHunks_disjoint hunks oldTotal newTotal :
  Forall ordered hunks → StronglySorted before (mergeHunks hunks oldTotal newTotal).
Proof.
  intros Hall. destruct hunks as [|h rest]; simpl; [constructor|].
  apply Forall_cons in Hall as [Hh Hrest].
  pose proof (mergeFrom_separated h rest Hh Hrest) as Hs.
  assert (Forall ordered (mergeFrom h rest)) as Ho.
  { apply mergeFrom_spec; [|done..]. unfold ordered; simpl; lia. }
  induction Hs as [|k l Hl IH Hk]; simpl; [constructor|].
  apply Forall_cons in Ho as [Hok Hol]. constructor; [by apply IH|].
  apply Forall_fmap. eapply Forall_impl; [exact Hk|].
  unfold before, ordered in *. simpl. intros m.
  pose proof (clampLine_le (oldEnd k) oldTotal). pose proof (clampLine_le (newEnd k) newTotal).
  lia.
Qed.

Lemma mergeHunks_disjoint_witness :
  StronglySorted before
    (mergeHunks [mkHunk 1 4 1 4; mkHunk 3 9 3 9; mkHunk 20 22 21 23] 22 23) ∧
  mergeHunks [mkHunk 1 4 1 4; mkHunk 3 9 3 9; mkHunk 20 22 21 23] 22 23 =
    [mkHunk 1 9 1 9; mkHunk 20 22 21 23].
Proof.
  split; [|reflexivity]. apply mergeHunks_disjoint.
  repeat (constructor; [unfold ordered; simpl; lia|]). constructor.
Defined.

Definition span_le (a c : replacement) : Prop :=
  r_oldStart a ≤ r_oldStart c ∧ r_newStart a ≤ r_newStart c.

(** Every edit is shown.  For replacements in ascending order on two
    non-empty contents, the printed windows are all inside the two files, and
    every replacement has one window that contains each line it removed from the
    old content and each line it wrote to the new one. *)
Theorem hunks_cover_replacements old new reps item :
  old ≠ [] → new ≠ [] → StronglySorted span_le reps → item ∈ reps →
  endOffset (r_oldStart item) (r_oldEnd item) < length old →
  endOffset (r_newStart item) (r_newEnd item) < length new →
  ∃ H,
    H ∈ mergeHunks (spansToHunks reps old new (splitLines old) (splitLines new))
          (length (splitLines old)) (length (splitLines new)) ∧
    within (length (splitLines old)) (length (splitLines new)) H ∧
    oldStart H ≤ lineOfOffset old (r_oldStart item) ∧
    lineOfOffset old (endOffset (r_oldStart item) (r_oldEnd item)) ≤ oldEnd H ∧
    newStart H ≤ lineOfOffset new (r_newStart item) ∧
    lineOfOffset new (endOffset (r_newStart item) (r_newEnd item)) ≤ newEnd H.
Proof.
  intros Hold Hnew Hs Hin Hlo Hln.
  set (f := spanToHunk old new (splitLines old) (splitLines new)).
  assert (Forall (within (length (splitLines old)) (length (splitLines new))) (f <$> reps)) as Hw.
  { apply Forall_fmap, Forall_true. intros. by apply spanToHunk_within. }
  assert (StronglySorted starts_le (f <$> reps)) as Hss.
  { clear -Hs. induction Hs as [|a l Hl IH Ha]; simpl; constructor; [done|].
    apply Forall_fmap. eapply Forall_impl; [exact Ha|]. unfold span_le, starts_le, f; simpl.
    intros c [??]. split; apply clampLine_mono;
      pose proof (lineOfOffset_mono old (r_oldStart a) (r_oldStart c));
      pose proof (lineOfOffset_mono new (r_newStart a) (r_newStart c)); lia. }
  apply mergeHunks_within in Hw as [HwM Heq].
  destruct reps as [|r rest]; [set_solver|]. rewrite (Heq (f r) (f <$> rest)) in HwM by done.
  unfold spansToHunks. fold f. rewrite (Heq (f r) (f <$> rest)) by done.
  apply StronglySorted_inv in Hss as [Hs1 Hs2].
  destruct (mergeFrom_covers _ _ (f item) Hs2 Hs1) as (H & HH & Hc).
  { by apply (list_elem_of_fmap_2 f (r :: rest)). }
  exists H. split; [done|]. split; [by eapply Forall_forall|].
  unfold covers, f, spanToHunk, diffContextLines in Hc. simpl in Hc.
  pose proof (lineOfOffset_le old _ Hold Hlo). pose proof (lineOfOffset_le new _ Hnew Hln).
  pose proof (lineOfOffset_pos old (r_oldStart item)).
  pose proof (lineOfOffset_pos new (r_newStart item)).
  pose proof (lineOfOffset_mono old _ _ (endOffset_ge (r_oldStart item) (r_oldEnd item))).
  pose proof (lineOfOffset_mono new _ _ (endOffset_ge (r_newStart item) (r_newEnd item))).
  unfold clampLine in Hc. repeat case_match; lia.
Qed.

Lemma hunks_cover_replacements_witness :
  ∃ H, H ∈ mergeHunks
    (spansToHunks [mkReplacement 0 1 0 1] (bs "a") (bs "b") (splitLines (bs "a")) (splitLines (bs "b")))
    1 1 ∧ oldStart H ≤ 1.
Proof.
  destruct (hunks_cover_replacements (bs "a") (bs "b") [mkReplacement 0 1 0 1] (mkReplacement 0 1 0 1))
    as (H & Hin & _ & Hle & _); [discriminate|discriminate|repeat constructor|set_solver|
    by vm_compute|by vm_compute|].
  exists H. split; [exact Hin|exact Hle].
Defined.

(** A window inside both files is printed with a header whose counts are
    exactly the numbers of removed and added lines that follow it. *)
Theorem writeHunk_counts_match oldLines newLines text h :
  within (length oldLines) (length newLines) h →
  ∃ removed added,
    writeHunk oldLines newLines text h =
      Ok (text ++ hunkHeader h ++ markLines "-" removed ++ markLines "+" added) ∧
    removed = take (length removed) (drop (Z.to_nat (oldStart h - 1)) oldLines) ∧
    added = take (length added) (drop (Z.to_nat (newStart h - 1)) newLines) ∧
    oldEnd h - oldStart h + 1 = length removed ∧
    newEnd h - newStart h + 1 = length added.
Proof.
  intros (?&?&?&?). unfold writeHunk.
  destruct (sliceLines_ok oldLines (oldStart h) (oldEnd h)) as (removed & -> & Hr).
  destruct (sliceLines_ok newLines (newStart h) (newEnd h)) as (added & -> & Ha).
  destruct Hr as [Hr1 Hr2]; [lia..|]. destruct Ha as [Ha1 Ha2]; [lia..|].
  simpl. exists removed, added. split_and!; [done|..|lia|lia].
  - rewrite Hr1 at 1. f_equal. lia.
  - rewrite Ha1 at 1. f_equal. lia.
Qed.

Lemma writeHunk_counts_match_witness :
  writeHunk [bs "a"; bs "b"] [bs "c"] [] (mkHunk 1 2 1 1) =
    Ok (bs "@@ -1,2 +1,1 @@" ++ [NL] ++ bs "-a" ++ [NL] ++ bs "-b" ++ [NL] ++ bs "+c" ++ [NL]).
Proof.
  destruct (writeHunk_counts_match [bs "a"; bs "b"] [bs "c"] [] (mkHunk 1 2 1 1))
    as (removed & added & Heq & Hr & Ha & Hn & Hm); [by vm_compute|].
  rewrite Heq. simpl in Hn, Hm. rewrite Hr, Ha.
  replace (length removed) with 2%nat by lia. replace (length added) with 1%nat by lia.
  reflexivity.
Defined.

(** The diff of a created file is wrong about its empty side.  When the old
    content is empty, the header of the one window announces four removed lines
    although none is printed. *)
Theorem created_file_header_wrong path new :
  new ≠ [] →
  ∃ n added,
    unifiedDiff path [] new [mkReplacement 0 0 0 (length new)] 0 =
      Ok (bs "--- " ++ path ++ [NL] ++ bs "+++ " ++ path ++ [NL] ++
          hunkHeader (mkHunk 1 4 1 n) ++ markLines "+" added, false).
Proof.
  intros Hne. pose proof (splitLines_ne new Hne) as Hpos.
  unfold unifiedDiff. rewrite bool_decide_eq_false_2 by done.
  unfold spansToHunks, spanToHunk. cbn [fmap list_fmap mergeHunks mergeFrom r_oldStart r_oldEnd
    r_newStart r_newEnd splitLines length foldM].
  set (last := clampLine (lineOfOffset new _ + _) (length (splitLines new))).
  change (clampLine (lineOfOffset [] 0 - diffContextLines) 0%nat) with 1.
  change (clampLine (lineOfOffset [] (endOffset 0 0) + diffContextLines) 0%nat) with 4.
  change (lineOfOffset new 0) with 1.
  change (clampLine (1 - diffContextLines) (length (splitLines new))) with 1.
  unfold clampEnds. cbn [oldStart oldEnd newStart newEnd].
  change (clampLine 4 0%nat) with 4.
  unfold writeHunk. cbn [oldStart oldEnd newStart newEnd].
  destruct (sliceLines_ok (splitLines new) 1 (clampLine last (length (splitLines new))))
    as (added & -> & _).
  exists (clampLine last (length (splitLines new))), added.
  change (sliceLines [] 1 4) with (@Ok (list bytes) []). simpl.
  change (boundDiff ?d 0) with (d, false).
  rewrite <- !app_assoc. simpl. by rewrite <- !app_assoc.
Qed.

Lemma created_file_header_wrong_witness :
  unifiedDiff (bs "f") [] (bs "x") [mkReplacement 0 0 0 1] 0 =
    Ok (bs "--- f" ++ [NL] ++ bs "+++ f" ++ [NL] ++ bs "@@ -1,4 +1,1 @@" ++ [NL] ++ bs "+x" ++ [NL], false).
Proof.
  destruct (created_file_header_wrong (bs "f") (bs "x")) as (n & added & _); [discriminate|].
  reflexivity.
Defined.

(** Rendering never panics, and the bound is applied last. *)
Lemma unifiedDiff_ok path old new reps :
  ∃ whole, ∀ m, unifiedDiff path old new reps m = Ok (boundDiff whole m).
Proof.
  unfold unifiedDiff. case_bool_decide.
  - exists []. intros m. f_equal. symmetry. apply boundDiff_whole. simpl. lia.
  - destruct (foldM_total (writeHunk (splitLines old) (splitLines new)) (λ _, True)
      (mergeHunks (spansToHunks reps old new (splitLines old) (splitLines new))
         (length (splitLines old)) (length (splitLines new)))
      (bs "--- " ++ path ++ [NL] ++ bs "+++ " ++ path ++ [NL])) as (text & -> & _).
    + intros t h _ _. destruct (writeHunk_ok (splitLines old) (splitLines new) t h)
        as (t' & -> & _). eauto.
    + done.
    + exists text. done.
Qed.

Lemma unifiedDiff_returns path old new reps m : returns (unifiedDiff path old new reps m).
Proof. destruct (unifiedDiff_ok path old new reps) as [whole Hw]. by rewrite Hw. Qed.

#[export] Hint Resolve unifiedDiff_returns : go.

(** The diff is total and bounded.  [unifiedDiff] never panics, whatever
    the replacements; without a bound it is returned whole; with one it is at
    most that long plus the truncation tag, and a cut diff is a prefix of the
    whole diff, which ends a line when the bound leaves room for one, followed
    by the tag. *)
Theorem unifiedDiff_total_bounded path old new reps maxBytes :
  ∃ whole text cut,
    unifiedDiff path old new reps 0 = Ok (whole, false) ∧
    unifiedDiff path old new reps maxBytes = Ok (text, cut) ∧
    (cut = false → text = whole) ∧
    (cut = true → ∃ head, head `prefix_of` whole ∧ text = head ++ diffTruncatedTag ∧
       length head ≤ maxBytes ∧
       (∀ n, last_index_byte NL (take (Z.to_nat maxBytes) whole) = Some (S n) →
          last head = Some NL)) ∧
    (0 < maxBytes → length text ≤ maxBytes + length diffTruncatedTag).
Proof.
  destruct (unifiedDiff_ok path old new reps) as [whole Hw].
  exists whole. rewrite !Hw, (boundDiff_whole whole 0) by lia.
  destruct (decide (maxBytes ≤ 0 ∨ length whole ≤ maxBytes)) as [Hsmall|Hbig].
  { rewrite boundDiff_whole by done. exists whole, false. split_and!; try done; lia. }
  unfold boundDiff. rewrite (proj2 (Z.leb_gt _ _)), (proj2 (Z.leb_gt _ _)) by lia. simpl.
  set (cut := match last_index_byte NL (take (Z.to_nat maxBytes) whole) with
              | Some (S n) => S (S n) | _ => Z.to_nat maxBytes end).
  assert (cut ≤ Z.to_nat maxBytes)%nat as Hcut.
  { unfold cut. destruct (last_index_byte _ _) as [[|n]|] eqn:E; [lia| |lia].
    apply last_index_byte_lt in E. rewrite length_take in E. lia. }
  exists (take cut whole ++ diffTruncatedTag), true. split_and!; [done..| |].
  - intros _. exists (take cut whole). split_and!; [|done|rewrite length_take; lia|].
    + exists (drop cut whole). by rewrite take_drop.
    + intros n En. unfold cut. rewrite En. apply last_index_byte_Some in En.
      rewrite lookup_take_Some in En. destruct En as [En _].
      rewrite (take_end _ _ _ En). apply last_snoc.
  - intros _. rewrite length_app, length_take. change (length diffTruncatedTag) with 23%nat. lia.
Qed.

End Diff.
