(* ===== verification/PatchParser.v ===== *)
(** The parser of the apply-patch document
    (src/internal/pkg/tools/applypatch_parser.go).  Like the code it walks an
    index over the split lines; a read past the end would panic, and the loops
    carry fuel, so that termination and the absence of panics are theorems. *)
From stdpp Require Import base gmap sets list strings.
From Stdlib Require Import ZArith Lia Ascii.
From S2P Require Import Prelude GoBytes.

Module PatchParser.

Definition applyPatchBeginMarker : bytes := bs "*** Begin Patch".
Definition applyPatchEndMarker : bytes := bs "*** End Patch".
Definition patchAddPrefix : bytes := bs "*** Add File: ".
Definition patchDeletePrefix : bytes := bs "*** Delete File: ".
Definition patchUpdatePrefix : bytes := bs "*** Update File: ".
Definition patchMovePrefix : bytes := bs "*** Move to: ".
Definition patchHunkPrefix : bytes := bs "@@".
Definition patchEndOfFileMarker : bytes := bs "*** End of File".

Definition patchLineContext : ascii := " "%char.
Definition patchLineAdd : ascii := "+"%char.
Definition patchLineDelete : ascii := "-"%char.

Inductive PatchOperation :=
  | PatchOperationAdd | PatchOperationUpdate | PatchOperationDelete | PatchOperationMove.

#[export] Instance PatchOperation_eq_dec : EqDecision PatchOperation.
Proof. solve_decision. Defined.

Record patchLine := mkLine { kind : ascii; text : bytes }.

Record patchHunk := mkHunk {
  anchor : bytes;
  lines : list patchLine;
  endOfFile : bool;
}.

Record patchAction := mkAction {
  operation : PatchOperation;
  path : bytes;
  destination : bytes;
  addContent : bytes;
  hunks : list patchHunk;
}.

Record parsedPatch := mkParsed {
  actions : list patchAction;
  hunkCount : nat;
}.

Definition validatePatchDocument (document : bytes) : outcome unit :=
  if utf8_valid document && bool_decide (NUL ∉ document) then Ok tt
  else Err ErrInvalidPatch.

Definition requiredPatchPath (p : bytes) : outcome bytes :=
  let p := trim_space p in
  if bool_decide (p = []) then Err ErrInvalidPatch else Ok p.

Definition isPatchActionHeader (line : bytes) : bool :=
  has_prefix patchAddPrefix line || has_prefix patchDeletePrefix line ||
  has_prefix patchUpdatePrefix line.

(** [lines[index]]. *)
Definition at_line (ls : list bytes) (index : nat) : outcome bytes :=
  index_or_panic (ls !! index).

(** [index < len(lines)-1]: the last line is the end marker. *)
Definition in_body (ls : list bytes) (index : nat) : bool := index <? length ls - 1.

Fixpoint parseAddLines (fuel : nat) (ls : list bytes) (index : nat) (content : list bytes)
    : outcome (list bytes * nat) :=
  match fuel with
  | 0 => OutOfFuel
  | S fuel' =>
      if in_body ls index then
        line ← at_line ls index;
        if isPatchActionHeader line then Ok (content, index)
        else if negb (has_prefix [patchLineAdd] line) then Err ErrInvalidPatch
        else parseAddLines fuel' ls (S index) (content ++ [trim_prefix [patchLineAdd] line])
      else Ok (content, index)
  end.

Definition parseAddAction (ls : list bytes) (index : nat) : outcome (patchAction * nat) :=
  header ← at_line ls index;
  p ← requiredPatchPath (trim_prefix patchAddPrefix header);
  '(content, index) ← parseAddLines (S (length ls)) ls (S index) [];
  let added := if bool_decide (content = []) then [] else join [NL] content ++ [NL] in
  Ok (mkAction PatchOperationAdd p [] added [], index).

Definition parsePatchLine (value : bytes) : patchLine :=
  match value with
  | [] => mkLine patchLineContext []
  | c :: rest =>
      if bool_decide (c = patchLineContext ∨ c = patchLineAdd ∨ c = patchLineDelete)
      then mkLine c rest else mkLine patchLineContext value
  end.

Definition isChange (line : patchLine) : bool :=
  bool_decide (kind line = patchLineAdd ∨ kind line = patchLineDelete).

Definition validatePatchHunk (hunk : patchHunk) : outcome unit :=
  if bool_decide (lines hunk = []) then Err ErrInvalidPatch
  else if negb (existsb isChange (lines hunk)) then Err ErrInvalidPatch
  else Ok tt.

Definition isPatchHunkBoundary (ls : list bytes) (index : nat) : outcome bool :=
  if in_body ls index then
    line ← at_line ls index;
    Ok (isPatchActionHeader line || has_prefix patchHunkPrefix line)
  else Ok true.

(** The line loop of [parsePatchHunk]. *)
Fixpoint parseHunkLines (fuel : nat) (ls : list bytes) (index : nat) (acc : list patchLine)
    : outcome (list patchLine * bool * nat) :=
  match fuel with
  | 0 => OutOfFuel
  | S fuel' =>
      boundary ← isPatchHunkBoundary ls index;
      if (boundary : bool) then Ok (acc, false, index)
      else
        line ← at_line ls index;
        if bool_decide (line = patchEndOfFileMarker) then Ok (acc, true, S index)
        else parseHunkLines fuel' ls (S index) (acc ++ [parsePatchLine line])
  end.

Definition parsePatchHunk (ls : list bytes) (index : nat) : outcome (patchHunk * nat) :=
  header ← at_line ls index;
  let anchor := trim_space (trim_prefix patchHunkPrefix header) in
  '(body, eof, index) ← parseHunkLines (S (length ls)) ls (S index) [];
  let hunk := mkHunk anchor body eof in
  _ ← validatePatchHunk hunk;
  Ok (hunk, index).

Definition isClosingPatchHunkDelimiter (ls : list bytes) (index : nat) : outcome bool :=
  line ← at_line ls index;
  if negb (bool_decide (line = patchHunkPrefix)) then Ok false
  else if in_body ls (S index) then
    next ← at_line ls (S index); Ok (isPatchActionHeader next)
  else Ok true.

Fixpoint parseUpdateHunks (fuel : nat) (ls : list bytes) (index : nat) (acc : list patchHunk)
    : outcome (list patchHunk * nat) :=
  match fuel with
  | 0 => OutOfFuel
  | S fuel' =>
      if in_body ls index then
        line ← at_line ls index;
        if isPatchActionHeader line then Ok (acc, index)
        else
          closing ← isClosingPatchHunkDelimiter ls index;
          if (closing : bool) then parseUpdateHunks fuel' ls (S index) acc
          else if negb (has_prefix patchHunkPrefix line) then Err ErrInvalidPatch
          else
            '(hunk, next) ← parsePatchHunk ls index;
            parseUpdateHunks fuel' ls next (acc ++ [hunk])
      else Ok (acc, index)
  end.

(** The operation, the destination and the next index. *)
Definition parsePatchMoveHeader (ls : list bytes) (index : nat)
    : outcome (PatchOperation * bytes * nat) :=
  if in_body ls index then
    line ← at_line ls index;
    if has_prefix patchMovePrefix line then
      dest ← requiredPatchPath (trim_prefix patchMovePrefix line);
      Ok (PatchOperationMove, dest, S index)
    else Ok (PatchOperationUpdate, [], index)
  else Ok (PatchOperationUpdate, [], index).

Definition parseUpdateAction (ls : list bytes) (index : nat) : outcome (patchAction * nat) :=
  header ← at_line ls index;
  p ← requiredPatchPath (trim_prefix patchUpdatePrefix header);
  '(op, dest, index) ← parsePatchMoveHeader ls (S index);
  '(hs, index) ← parseUpdateHunks (S (length ls)) ls index [];
  if bool_decide (op = PatchOperationUpdate) && bool_decide (hs = []) then Err ErrInvalidPatch
  else Ok (mkAction op p dest [] hs, index).

Definition parsePatchAction (ls : list bytes) (index : nat) : outcome (patchAction * nat) :=
  header ← at_line ls index;
  if has_prefix patchAddPrefix header then parseAddAction ls index
  else if has_prefix patchDeletePrefix header then
    p ← requiredPatchPath (trim_prefix patchDeletePrefix header);
    Ok (mkAction PatchOperationDelete p [] [] [], S index)
  else if has_prefix patchUpdatePrefix header then parseUpdateAction ls index
  else Err ErrInvalidPatch.

Fixpoint parseActions (fuel : nat) (ls : list bytes) (index : nat) (parsed : parsedPatch)
    : outcome parsedPatch :=
  match fuel with
  | 0 => OutOfFuel
  | S fuel' =>
      if in_body ls index then
        '(action, next) ← parsePatchAction ls index;
        parseActions fuel' ls next
          (mkParsed (actions parsed ++ [action])
             (hunkCount parsed + length (hunks action)))
      else Ok parsed
  end.

(** The document's lines, without the empty one after a final newline. *)
Definition documentLines (document : bytes) : list bytes :=
  let ls := split_byte NL (replace_crlf document) in
  match last ls with
  | Some [] => take (length ls - 1) ls
  | _ => ls
  end.

Definition parseApplyPatch (document : bytes) : outcome parsedPatch :=
  _ ← validatePatchDocument document;
  let ls := documentLines document in
  if (length ls <? 2) ||
     negb (bool_decide (ls !! 0 = Some applyPatchBeginMarker)) ||
     negb (bool_decide (last ls = Some applyPatchEndMarker))
  then Err ErrInvalidPatch
  else
    parsed ← parseActions (length ls) ls 1 (mkParsed [] 0);
    if bool_decide (actions parsed = []) then Err ErrInvalidPatch else Ok parsed.

Definition actionPaths (a : patchAction) : list bytes :=
  path a :: (if bool_decide (destination a = []) then [] else [destination a]).

Definition ApplyPatchPaths (document : bytes) : outcome (list bytes) :=
  parsed ← parseApplyPatch document;
  Ok (concat (actionPaths <$> actions parsed)).


(** ** What a parsed patch satisfies *)

Definition wf_path (p : bytes) : Prop := p ≠ [] ∧ trim_space p = p.

Definition wf_line (l : patchLine) : Prop :=
  kind l = patchLineContext ∨ kind l = patchLineAdd ∨ kind l = patchLineDelete.

Definition wf_hunk (h : patchHunk) : Prop :=
  lines h ≠ [] ∧ existsb isChange (lines h) = true ∧
  trim_space (anchor h) = anchor h ∧ Forall wf_line (lines h).

Definition wf_action (a : patchAction) : Prop :=
  wf_path (path a) ∧
  match operation a with
  | PatchOperationAdd =>
      destination a = [] ∧ hunks a = [] ∧ (addContent a = [] ∨ last (addContent a) = Some NL)
  | PatchOperationDelete => destination a = [] ∧ hunks a = [] ∧ addContent a = []
  | PatchOperationUpdate =>
      destination a = [] ∧ addContent a = [] ∧ hunks a ≠ [] ∧ Forall wf_hunk (hunks a)
  | PatchOperationMove =>
      wf_path (destination a) ∧ addContent a = [] ∧ Forall wf_hunk (hunks a)
  end.

Definition total_hunks (acts : list patchAction) : nat :=
  sum_list_with (λ a, length (hunks a)) acts.

Definition wf_parsed (p : parsedPatch) : Prop :=
  actions p ≠ [] ∧ Forall wf_action (actions p) ∧ hunkCount p = total_hunks (actions p).

Definition invalid (e : sentinel) : Prop := e = ErrInvalidPatch.

(** The rest of a parse is at a later index of the document. *)
Definition advances {A} (P : A → Prop) (ls : list bytes) (index : nat) (r : A * nat) : Prop :=
  P r.1 ∧ index < r.2 ≤ length ls.

(** ** The loops return *)

Lemma in_body_true ls i : in_body ls i = true ↔ i < length ls - 1.
Proof. unfold in_body. apply Nat.ltb_lt. Qed.

Lemma at_line_lt ls i : i < length ls → ∃ l, ls !! i = Some l ∧ at_line ls i = Ok l.
Proof. unfold at_line. intros [l Hl]%lookup_lt_is_Some_2. exists l. by rewrite Hl. Qed.

(** Read the line an in-range guard allows. *)
Ltac read_line :=
  match goal with
  | H : in_body ?ls ?i = true |- context [at_line ?ls ?i] =>
      let l := fresh "line" in let Hl := fresh "Hline" in let E := fresh "E" in
      destruct (at_line_lt ls i) as (l & Hl & E);
      [apply in_body_true in H; lia|rewrite E; clear E; cbn [mbind outcome_bind]]
  | H : ?i < length ?ls |- context [at_line ?ls ?i] =>
      let l := fresh "line" in let Hl := fresh "Hline" in let E := fresh "E" in
      destruct (at_line_lt ls i H) as (l & Hl & E); rewrite E; clear E; cbn [mbind outcome_bind]
  end.

Lemma requiredPatchPath_post p : post invalid wf_path (requiredPatchPath p).
Proof.
  unfold requiredPatchPath. case_bool_decide; simpl; [done|].
  split; [done|]. apply trim_space_idem.
Qed.

Lemma parseAddLines_post fuel ls index content :
  index ≤ length ls → length ls - index < fuel →
  post invalid (λ r, index ≤ r.2 ≤ length ls) (parseAddLines fuel ls index content).
Proof.
  revert index content. induction fuel as [|fuel IH]; intros index content Hi Hf; [lia|].
  simpl. destruct (in_body ls index) eqn:E; [|simpl; lia]. read_line.
  case_if; [simpl; lia|]. case_if; [done|]. apply in_body_true in E.
  eapply post_weaken; [apply IH; lia|done|]. simpl; lia.
Qed.

Lemma parseAddAction_post ls index :
  index < length ls →
  post invalid (advances wf_action ls index) (parseAddAction ls index).
Proof.
  intros Hi. unfold parseAddAction. read_line.
  eapply post_bind; [apply requiredPatchPath_post|]. intros p _ Hp.
  eapply post_bind; [apply parseAddLines_post; lia|]. intros [c i] _ Hc. simpl in *.
  split; [|simpl; lia]. split; [done|]. simpl. split_and!; [done..|].
  case_bool_decide; [by left|right]. apply last_snoc.
Qed.

Lemma parsePatchLine_wf value : wf_line (parsePatchLine value).
Proof.
  destruct value as [|c v]; simpl; [by left|]. case_bool_decide; [done|]. by left.
Qed.

Lemma parseHunkLines_post fuel ls index acc :
  index ≤ length ls → length ls - index < fuel → Forall wf_line acc →
  post invalid (λ r, Forall wf_line r.1.1 ∧ index ≤ r.2 ≤ length ls)
    (parseHunkLines fuel ls index acc).
Proof.
  revert index acc. induction fuel as [|fuel IH]; intros index acc Hi Hf Ha; [lia|].
  simpl. unfold isPatchHunkBoundary. destruct (in_body ls index) eqn:E; simpl;
    [|split; [done|lia]]. read_line.
  case_if; simpl; [split; [done|lia]|]. apply in_body_true in E.
  case_if; simpl; [split; [done|lia]|].
  eapply post_weaken; [apply IH; [lia..|]|done|].
  - apply Forall_app. split; [done|]. apply Forall_singleton, parsePatchLine_wf.
  - simpl. intros [[??]?] _ [??]. split; [done|]. simpl in *; lia.
Qed.

Lemma parsePatchHunk_post ls index :
  index < length ls → post invalid (advances wf_hunk ls index) (parsePatchHunk ls index).
Proof.
  intros Hi. unfold parsePatchHunk. read_line.
  eapply post_bind; [by apply parseHunkLines_post; [lia|lia|]|].
  intros [[body eof] i] _ [Hw Hr]. simpl in *.
  unfold validatePatchHunk. simpl. case_bool_decide; [done|].
  destruct (existsb isChange body) eqn:E; simpl; [|done].
  split; [|simpl; lia]. split_and!; try done. apply trim_space_idem.
Qed.

Lemma isClosing_ok ls index :
  in_body ls index = true → ∃ b, isClosingPatchHunkDelimiter ls index = Ok b.
Proof.
  intros E. unfold isClosingPatchHunkDelimiter. read_line.
  case_if; [eauto|]. destruct (in_body ls (S index)) eqn:E2; [|eauto]. read_line. eauto.
Qed.

Lemma parseUpdateHunks_post fuel ls index acc :
  index ≤ length ls → length ls - index < fuel → Forall wf_hunk acc →
  post invalid (λ r, Forall wf_hunk r.1 ∧ index ≤ r.2 ≤ length ls)
    (parseUpdateHunks fuel ls index acc).
Proof.
  revert index acc. induction fuel as [|fuel IH]; intros index acc Hi Hf Ha; [lia|].
  simpl. destruct (in_body ls index) eqn:E; [|simpl; split; [done|lia]]. read_line.
  case_if; simpl; [split; [done|lia]|].
  destruct (isClosing_ok ls index E) as [closing ->]. simpl. apply in_body_true in E.
  destruct closing.
  - eapply post_weaken; [by apply IH; [lia|lia|]|done|]. simpl. intros r _ [??]. split; [done|lia].
  - case_if; [done|]. eapply post_bind; [apply parsePatchHunk_post; lia|].
    intros [h next] _ [Hh Hn]. simpl in *.
    eapply post_weaken; [apply IH; [lia..|]|done|].
    + apply Forall_app. by rewrite Forall_singleton.
    + simpl. intros r _ [??]. split; [done|lia].
Qed.

Lemma parseMoveHeader_post ls index :
  index ≤ length ls →
  post invalid (λ r, (r.1.1 = PatchOperationMove ∧ wf_path r.1.2 ∨
                      r.1.1 = PatchOperationUpdate ∧ r.1.2 = []) ∧ index ≤ r.2 ≤ length ls)
    (parsePatchMoveHeader ls index).
Proof.
  intros Hi. unfold parsePatchMoveHeader.
  destruct (in_body ls index) eqn:E; [|simpl; split; [by right|lia]]. read_line.
  case_if; simpl; [|split; [by right|lia]]. apply in_body_true in E.
  eapply post_bind; [apply requiredPatchPath_post|]. intros p _ Hp. simpl.
  split; [by left|lia].
Qed.

Lemma parseUpdateAction_post ls index :
  index < length ls → post invalid (advances wf_action ls index) (parseUpdateAction ls index).
Proof.
  intros Hi. unfold parseUpdateAction. read_line.
  eapply post_bind; [apply requiredPatchPath_post|]. intros p _ Hp.
  eapply post_bind; [apply parseMoveHeader_post; lia|]. intros [[op dest] i] _ [Hop Hi1].
  cbn [fst snd] in *. eapply post_bind; [by apply parseUpdateHunks_post; [lia|lia|]|].
  intros [hs i'] _ [Hhs Hi2]. simpl in *.
  destruct Hop as [[-> Hd]|[-> ->]]; simpl.
  - split; [|simpl; lia]. split; [done|]. simpl. split_and!; done || apply Hd.
  - case_bool_decide; simpl; [done|]. split; [|simpl; lia]. split; [done|]. by simpl.
Qed.

Lemma parsePatchAction_post ls index :
  index < length ls → post invalid (advances wf_action ls index) (parsePatchAction ls index).
Proof.
  intros Hi. unfold parsePatchAction. read_line.
  case_if; [by apply parseAddAction_post|]. case_if.
  - eapply post_bind; [apply requiredPatchPath_post|]. intros p _ Hp. simpl.
    split; [|simpl; lia]. split; [done|]. by simpl.
  - case_if; [by apply parseUpdateAction_post|done].
Qed.

Lemma total_hunks_snoc acts a :
  total_hunks (acts ++ [a]) = total_hunks acts + length (hunks a).
Proof. unfold total_hunks. rewrite sum_list_with_app. simpl. lia. Qed.

Lemma parseActions_post fuel ls index parsed :
  index ≤ length ls → length ls - index < fuel →
  Forall wf_action (actions parsed) → hunkCount parsed = total_hunks (actions parsed) →
  post invalid (λ p, Forall wf_action (actions p) ∧ hunkCount p = total_hunks (actions p))
    (parseActions fuel ls index parsed).
Proof.
  revert index parsed. induction fuel as [|fuel IH]; intros index parsed Hi Hf Hw Hc; [lia|].
  simpl. destruct (in_body ls index) eqn:E; [|done]. apply in_body_true in E.
  eapply post_bind; [apply parsePatchAction_post; lia|]. intros [a next] _ [Ha Hn]. simpl in *.
  apply IH; simpl; [lia|lia|..].
  - apply Forall_app. by rewrite Forall_singleton.
  - by rewrite total_hunks_snoc, Hc.
Qed.

(** ** Printing a patch *)

Definition render_line (l : patchLine) : bytes := kind l :: text l.

Definition render_hunk (h : patchHunk) : list bytes :=
  (patchHunkPrefix ++ (if bool_decide (anchor h = []) then [] else " "%char :: anchor h))
  :: ((render_line <$> lines h) ++ (if endOfFile h then [patchEndOfFileMarker] else [])).

Definition contentLines (content : bytes) : list bytes :=
  if bool_decide (content = []) then [] else split_byte NL (trim_suffix [NL] content).

Definition render_hunks (hs : list patchHunk) : list bytes := concat (render_hunk <$> hs).

Definition render_action (a : patchAction) : list bytes :=
  match operation a with
  | PatchOperationAdd =>
      (patchAddPrefix ++ path a) :: (cons patchLineAdd <$> contentLines (addContent a))
  | PatchOperationDelete => [patchDeletePrefix ++ path a]
  | PatchOperationUpdate => (patchUpdatePrefix ++ path a) :: render_hunks (hunks a)
  | PatchOperationMove =>
      (patchUpdatePrefix ++ path a) :: (patchMovePrefix ++ destination a)
      :: render_hunks (hunks a)
  end.

Definition render_body (acts : list patchAction) : list bytes :=
  concat (render_action <$> acts).

Definition render_lines (acts : list patchAction) : list bytes :=
  applyPatchBeginMarker :: (render_body acts ++ [applyPatchEndMarker]).

Definition render (acts : list patchAction) : bytes :=
  join [NL] (render_lines acts) ++ [NL].

(** What can be written in the line format: no line break inside a field. *)
Definition plain (s : bytes) : Prop := (NL ∉ s) ∧ (CR ∉ s).

Definition renderable_hunk (h : patchHunk) : Prop :=
  wf_hunk h ∧ plain (anchor h) ∧ Forall (λ l, plain (text l)) (lines h).

Definition renderable (a : patchAction) : Prop :=
  wf_action a ∧ plain (path a) ∧ plain (destination a) ∧ (CR ∉ addContent a) ∧
  Forall renderable_hunk (hunks a).

#[export] Instance wf_path_dec p : Decision (wf_path p).
Proof. unfold wf_path. apply _. Defined.
#[export] Instance wf_line_dec l : Decision (wf_line l).
Proof. unfold wf_line. apply _. Defined.
#[export] Instance plain_dec s : Decision (plain s).
Proof. unfold plain. apply _. Defined.
#[export] Instance wf_hunk_dec h : Decision (wf_hunk h).
Proof.
  assert (∀ l : list patchLine, Decision (l = [])) by (intros []; [by left|by right]).
  unfold wf_hunk. apply _.
Defined.
#[export] Instance wf_action_dec a : Decision (wf_action a).
Proof.
  assert (∀ l : list patchHunk, Decision (l = [])) by (intros []; [by left|by right]).
  unfold wf_action. destruct (operation a); apply _.
Defined.
#[export] Instance renderable_hunk_dec h : Decision (renderable_hunk h).
Proof. unfold renderable_hunk. apply _. Defined.
#[export] Instance renderable_dec a : Decision (renderable a).
Proof. unfold renderable. apply _. Defined.

(** The line after an action is the end marker or the next action's header; the
    line after a hunk may also open the next hunk. *)
Definition action_end (rest : list bytes) : Prop :=
  ∃ l r, rest = l :: r ∧ (r = [] ∨ isPatchActionHeader l = true).
Definition hunk_end (rest : list bytes) : Prop :=
  ∃ l r, rest = l :: r ∧
    (r = [] ∨ isPatchActionHeader l || has_prefix patchHunkPrefix l = true).

Lemma at_line_mid pre l r : at_line (pre ++ l :: r) (length pre) = Ok l.
Proof. unfold at_line. by rewrite list_lookup_middle. Qed.

Lemma in_body_mid pre l r : in_body (pre ++ l :: r) (length pre) = bool_decide (r ≠ []).
Proof.
  unfold in_body. rewrite length_app. simpl. destruct r as [|k r]; cbn [length].
  - rewrite bool_decide_eq_false_2 by naive_solver. apply Nat.ltb_ge. lia.
  - rewrite bool_decide_eq_true_2 by done. apply Nat.ltb_lt. lia.
Qed.

Lemma action_end_hunk rest : action_end rest → hunk_end rest.
Proof.
  intros (l & r & -> & [->|H]); eexists l, _; (split; [done|]); [by left|].
  right. by rewrite H.
Qed.

(** The head of every rendered line tells its sort. *)
Lemma header_add p : isPatchActionHeader (patchAddPrefix ++ p) = true.
Proof. unfold isPatchActionHeader. by rewrite has_prefix_app. Qed.
Lemma header_delete p : isPatchActionHeader (patchDeletePrefix ++ p) = true.
Proof. unfold isPatchActionHeader. by rewrite has_prefix_app, orb_true_r. Qed.
Lemma header_update p : isPatchActionHeader (patchUpdatePrefix ++ p) = true.
Proof. unfold isPatchActionHeader. by rewrite has_prefix_app, !orb_true_r. Qed.
Lemma header_hunk p : isPatchActionHeader (patchHunkPrefix ++ p) = false.
Proof. reflexivity. Qed.

Lemma render_line_sort l :
  wf_line l →
  isPatchActionHeader (render_line l) = false ∧
  has_prefix patchHunkPrefix (render_line l) = false ∧
  render_line l ≠ patchEndOfFileMarker ∧ parsePatchLine (render_line l) = l.
Proof.
  destruct l as [k t]. unfold wf_line, render_line; simpl.
  intros [-> | [-> | ->]]; split_and!; (reflexivity || discriminate).
Qed.

Lemma render_action_head a r :
  ∃ l k, render_action a ++ r = l :: k ∧ isPatchActionHeader l = true.
Proof.
  unfold render_action. destruct (operation a); simpl;
    eexists _, _; (split; [done|]);
    auto using header_add, header_delete, header_update.
Qed.

Lemma render_body_cons a acts : render_body (a :: acts) = render_action a ++ render_body acts.
Proof. done. Qed.

Lemma render_body_end acts : action_end (render_body acts ++ [applyPatchEndMarker]).
Proof.
  destruct acts as [|a acts]; [eexists _, _; split; [done|by left]|].
  rewrite render_body_cons, <- app_assoc.
  destruct (render_action_head a (render_body acts ++ [applyPatchEndMarker])) as (l & k & -> & ?).
  exists l, k. auto.
Qed.

Lemma render_hunks_end hs rest : action_end rest → hunk_end (render_hunks hs ++ rest).
Proof.
  destruct hs as [|h hs]; [apply action_end_hunk|]. intros _.
  eexists _, _. split; [done|]. right. apply orb_true_iff. right. apply has_prefix_app.
Qed.

(** ** Reading back what was printed *)

Lemma parseAddLines_render cs pre rest content fuel :
  action_end rest → length cs < fuel →
  parseAddLines fuel (pre ++ (cons patchLineAdd <$> cs) ++ rest) (length pre) content =
    Ok (content ++ cs, length pre + length cs).
Proof.
  intros Hend. revert pre content fuel.
  induction cs as [|c cs IH]; intros pre content fuel Hf; destruct fuel as [|fuel];
    simpl in Hf; try lia; simpl.
  - destruct Hend as (l & r & -> & Hr). rewrite in_body_mid, app_nil_r, Nat.add_0_r.
    case_bool_decide as Hne; [|done]. rewrite at_line_mid. simpl.
    by destruct Hr as [->| ->].
  - rewrite in_body_mid, bool_decide_eq_true_2, at_line_mid.
    2:{ destruct Hend as (l & r & -> & _). by destruct cs. }
    cbn [mbind outcome_bind]. change (isPatchActionHeader _) with false.
    change (has_prefix [patchLineAdd] _) with true. cbn [negb].
    change (trim_prefix [patchLineAdd] (patchLineAdd :: c)) with c.
    change (pre ++ (patchLineAdd :: c) :: ?r) with (pre ++ [patchLineAdd :: c] ++ r).
    rewrite app_assoc. replace (S (length pre)) with (length (pre ++ [patchLineAdd :: c]))
      by (rewrite length_app; simpl; lia).
    rewrite IH by lia. f_equal. f_equal; [by rewrite <- app_assoc|].
    rewrite length_app. simpl. lia.
Qed.

Lemma parseHunkLines_render ls pre rest acc fuel (eof : bool) :
  Forall wf_line ls → (if eof then rest ≠ [] else hunk_end rest) → S (length ls) < fuel →
  parseHunkLines fuel
    (pre ++ (render_line <$> ls) ++ (if eof then [patchEndOfFileMarker] else []) ++ rest)
    (length pre) acc =
  Ok (acc ++ ls, eof, length pre + length ls + (if eof then 1 else 0)).
Proof.
  intros Hwf Hend. revert pre acc fuel.
  induction Hwf as [|l ls Hl Hls IH]; intros pre acc fuel Hf; destruct fuel as [|fuel];
    simpl in Hf; try lia; cbn [parseHunkLines fmap list_fmap]; unfold isPatchHunkBoundary.
  - cbn [length]. rewrite app_nil_r, Nat.add_0_r. destruct eof; cbn [app].
    + rewrite in_body_mid, bool_decide_eq_true_2, at_line_mid by done. simpl.
      do 2 f_equal. lia.
    + destruct Hend as (l & r & -> & Hr). rewrite in_body_mid, Nat.add_0_r.
      case_bool_decide as Hne; [|done]. rewrite at_line_mid. cbn [mbind outcome_bind].
      by destruct Hr as [->| ->].
  - cbn [app]. rewrite in_body_mid, bool_decide_eq_true_2, at_line_mid.
    2:{ destruct ls; [|done]. destruct eof; [done|]. by destruct Hend as (? & ? & -> & _). }
    cbn [mbind outcome_bind].
    destruct (render_line_sort l Hl) as (-> & -> & Hne & ->). cbn [orb].
    rewrite bool_decide_eq_false_2 by done.
    change (pre ++ render_line l :: ?r) with (pre ++ [render_line l] ++ r).
    rewrite app_assoc. replace (S (length pre)) with (length (pre ++ [render_line l]))
      by (rewrite length_app; simpl; lia).
    rewrite IH by lia. do 2 f_equal; [by rewrite <- app_assoc|].
    rewrite length_app. simpl. lia.
Qed.

Lemma anchor_read h :
  trim_space (anchor h) = anchor h →
  trim_space (trim_prefix patchHunkPrefix
    (patchHunkPrefix ++ (if bool_decide (anchor h = []) then [] else " "%char :: anchor h)))
  = anchor h.
Proof.
  intros Ht. rewrite trim_prefix_app. case_bool_decide as E; [by rewrite E|].
  by rewrite trim_space_cons_space.
Qed.

Lemma parsePatchHunk_render h pre rest :
  renderable_hunk h → hunk_end rest →
  parsePatchHunk (pre ++ render_hunk h ++ rest) (length pre) =
    Ok (h, length pre + length (render_hunk h)).
Proof.
  intros ((Hne & Hch & Htr & Hwf) & _ & _) Hend. unfold parsePatchHunk, render_hunk.
  rewrite <- app_comm_cons, at_line_mid. cbn [mbind outcome_bind].
  rewrite anchor_read by done. set (hd := patchHunkPrefix ++ _).
  rewrite (cons_middle hd), (app_assoc pre).
  replace (S (length pre)) with (length (pre ++ [hd])) by (rewrite length_app; simpl; lia).
  rewrite <- (app_assoc (render_line <$> lines h)), parseHunkLines_render; [..|done| |].
  - cbn [mbind outcome_bind]. unfold validatePatchHunk. simpl.
    rewrite bool_decide_eq_false_2, Hch by done. simpl. destruct h as [an ls eof]; simpl.
    do 2 f_equal. rewrite !length_app, length_fmap. destruct eof; simpl; lia.
  - destruct (endOfFile h); [|done]. by destruct Hend as (? & ? & -> & _).
  - rewrite !length_app, length_fmap. simpl. destruct Hend as (? & ? & -> & _). simpl. lia.
Qed.

Lemma render_hunks_cons h hs : render_hunks (h :: hs) = render_hunk h ++ render_hunks hs.
Proof. done. Qed.

Lemma render_hunk_head h pre rest :
  rest ≠ [] →
  ∃ x, in_body (pre ++ render_hunk h ++ rest) (length pre) = true ∧
       at_line (pre ++ render_hunk h ++ rest) (length pre) = Ok (patchHunkPrefix ++ x).
Proof.
  intros Hne. eexists. unfold render_hunk. rewrite <- app_comm_cons, in_body_mid, at_line_mid.
  split; [|done]. apply bool_decide_eq_true_2. intros E. by apply app_nil in E as [_ ?].
Qed.

(** A printed hunk is not the bare delimiter that closes a list of hunks. *)
Lemma render_hunk_not_closing h pre rest :
  renderable_hunk h → rest ≠ [] →
  isClosingPatchHunkDelimiter (pre ++ render_hunk h ++ rest) (length pre) = Ok false.
Proof.
  intros ((Hne & _ & _ & Hwf) & _ & _) Hrest.
  unfold isClosingPatchHunkDelimiter, render_hunk.
  rewrite <- app_comm_cons, at_line_mid. cbn [mbind outcome_bind].
  set (hd := patchHunkPrefix ++ _). destruct (negb _); [done|].
  destruct (lines h) as [|l ls] eqn:El; [done|]. apply Forall_cons in Hwf as [Hl _].
  rewrite fmap_cons, <- !app_comm_cons, (cons_middle hd), (app_assoc pre).
  replace (S (length pre)) with (length (pre ++ [hd])) by (rewrite length_app; simpl; lia).
  rewrite in_body_mid, bool_decide_eq_true_2, at_line_mid; simpl.
  - by destruct (render_line_sort l Hl) as (-> & _).
  - intros E. apply app_nil in E as [_ ?]. done.
Qed.

Lemma parseUpdateHunks_render hs pre rest acc fuel :
  Forall renderable_hunk hs → action_end rest → length hs < fuel →
  parseUpdateHunks fuel (pre ++ render_hunks hs ++ rest) (length pre) acc =
    Ok (acc ++ hs, length pre + length (render_hunks hs)).
Proof.
  intros Hr Hend. revert pre acc fuel.
  induction Hr as [|h hs Hh Hhs IH]; intros pre acc fuel Hf; destruct fuel as [|fuel];
    simpl in Hf; try lia.
  - simpl. destruct Hend as (l & r & -> & Hr). rewrite in_body_mid, app_nil_r, Nat.add_0_r.
    case_bool_decide as Hne; [|done]. rewrite at_line_mid. cbn [mbind outcome_bind].
    by destruct Hr as [->| ->].
  - rewrite render_hunks_cons, <- app_assoc. cbn [parseUpdateHunks].
    assert (render_hunks hs ++ rest ≠ []) as Hne.
    { destruct Hend as (? & ? & -> & _). by destruct (render_hunks hs). }
    rewrite render_hunk_not_closing, parsePatchHunk_render by auto using render_hunks_end.
    destruct (render_hunk_head h pre _ Hne) as [x [-> ->]].
    cbn [mbind outcome_bind]. rewrite header_hunk, has_prefix_app. cbn [negb].
    rewrite (app_assoc pre), <- length_app, IH by lia.
    do 2 f_equal; [by rewrite <- app_assoc|]. rewrite !length_app. lia.
Qed.

Lemma render_hunks_length hs : length hs ≤ length (render_hunks hs).
Proof.
  induction hs as [|h hs IH]; [done|]. rewrite render_hunks_cons, length_app.
  unfold render_hunk. simpl. lia.
Qed.

Lemma requiredPatchPath_wf p : wf_path p → requiredPatchPath p = Ok p.
Proof.
  intros [Hne Ht]. unfold requiredPatchPath. rewrite Ht. by rewrite bool_decide_eq_false_2.
Qed.

Lemma parseAddAction_render a pre rest :
  operation a = PatchOperationAdd → wf_action a → action_end rest →
  parseAddAction (pre ++ render_action a ++ rest) (length pre) =
    Ok (a, length pre + length (render_action a)).
Proof.
  intros Hop [Hp Hw] Hend. rewrite Hop in Hw. destruct Hw as (Hd & Hh & Hc).
  unfold parseAddAction, render_action. rewrite Hop, <- app_comm_cons, at_line_mid.
  cbn [mbind outcome_bind]. rewrite trim_prefix_app, requiredPatchPath_wf by done.
  cbn [mbind outcome_bind]. set (hd := patchAddPrefix ++ path a).
  rewrite (cons_middle hd), (app_assoc pre).
  replace (S (length pre)) with (length (pre ++ [hd])) by (rewrite length_app; simpl; lia).
  rewrite parseAddLines_render by (done || (rewrite !length_app, length_fmap; lia)).
  cbn [mbind outcome_bind app]. do 2 f_equal.
  - destruct a as [op p d c hs]; simpl in *. subst. f_equal. unfold contentLines.
    destruct Hc as [->|Hc]; [done|].
    apply last_Some in Hc as [k ->]. rewrite trim_suffix_app.
    rewrite (bool_decide_eq_false_2 (k ++ [NL] = [])) by (by destruct k).
    rewrite bool_decide_eq_false_2 by apply split_byte_nonempty.
    by rewrite join_split_byte.
  - rewrite length_app. cbn [length]. rewrite length_fmap. lia.
Qed.

Lemma moveHeader_none pre hs rest :
  Forall renderable_hunk hs → hs ≠ [] →
  parsePatchMoveHeader (pre ++ render_hunks hs ++ rest) (length pre) =
    Ok (PatchOperationUpdate, [], length pre).
Proof.
  intros Hr Hne. destruct hs as [|h hs]; [done|]. unfold parsePatchMoveHeader.
  rewrite render_hunks_cons, <- app_assoc. unfold render_hunk.
  rewrite <- app_comm_cons, at_line_mid. case_if; [|done].
  cbn [mbind outcome_bind]. reflexivity.
Qed.

Lemma parseUpdateAction_render a pre rest :
  operation a = PatchOperationUpdate ∨ operation a = PatchOperationMove →
  renderable a → action_end rest →
  parseUpdateAction (pre ++ render_action a ++ rest) (length pre) =
    Ok (a, length pre + length (render_action a)).
Proof.
  intros Hop ([Hp Hw] & _ & _ & _ & Hr) Hend. unfold parseUpdateAction, render_action.
  assert (rest ≠ []) as Hne by (by destruct Hend as (? & ? & -> & _)).
  destruct Hop as [Hop|Hop]; rewrite Hop in *.
  - destruct Hw as (Hd & Hc & Hh & _).
    rewrite <- app_comm_cons, at_line_mid. cbn [mbind outcome_bind].
    rewrite trim_prefix_app, requiredPatchPath_wf by done.
    cbn [mbind outcome_bind]. set (hd := patchUpdatePrefix ++ path a).
    rewrite (cons_middle hd), (app_assoc pre).
    replace (S (length pre)) with (length (pre ++ [hd])) by (rewrite length_app; simpl; lia).
    rewrite moveHeader_none by done. cbn [mbind outcome_bind].
    rewrite parseUpdateHunks_render;
      [|done..|rewrite !length_app; pose proof (render_hunks_length (hunks a)); lia].
    cbn [mbind outcome_bind app]. rewrite (bool_decide_eq_false_2 (hunks a = [])) by done.
    rewrite andb_false_r. rewrite length_app. cbn [length]. do 2 f_equal; [|lia].
    destruct a; simpl in *; by subst.
  - destruct Hw as (Hd & Hc & _).
    rewrite <- !app_comm_cons, at_line_mid. cbn [mbind outcome_bind].
    rewrite trim_prefix_app, requiredPatchPath_wf by done.
    cbn [mbind outcome_bind]. set (hd := patchUpdatePrefix ++ path a).
    set (mv := patchMovePrefix ++ destination a).
    rewrite (cons_middle hd), (app_assoc pre).
    replace (S (length pre)) with (length (pre ++ [hd])) by (rewrite length_app; simpl; lia).
    unfold parsePatchMoveHeader. rewrite in_body_mid, bool_decide_eq_true_2, at_line_mid.
    2:{ intros E. by apply app_nil in E as [_ ?]. }
    cbn [mbind outcome_bind]. replace (has_prefix patchMovePrefix mv) with true by (symmetry; apply has_prefix_app).
    replace (trim_prefix patchMovePrefix mv) with (destination a)
      by (symmetry; apply trim_prefix_app).
    rewrite requiredPatchPath_wf by done. cbn [mbind outcome_bind].
    rewrite (cons_middle mv), (app_assoc (pre ++ [hd])).
    replace (S (length (pre ++ [hd]))) with (length ((pre ++ [hd]) ++ [mv]))
      by (rewrite !length_app; simpl; lia).
    rewrite parseUpdateHunks_render;
      [|done..|rewrite !length_app; pose proof (render_hunks_length (hunks a)); lia].
    cbn [mbind outcome_bind app]. rewrite bool_decide_eq_false_2 by done. cbn [andb].
    rewrite !length_app. cbn [length]. do 2 f_equal; [|lia].
    destruct a; simpl in *; by subst.
Qed.

Definition headerPrefix (op : PatchOperation) : bytes :=
  match op with
  | PatchOperationAdd => patchAddPrefix
  | PatchOperationDelete => patchDeletePrefix
  | _ => patchUpdatePrefix
  end.

Lemma at_line_header a pre rest :
  at_line (pre ++ render_action a ++ rest) (length pre) =
    Ok (headerPrefix (operation a) ++ path a).
Proof. unfold render_action. by destruct (operation a); rewrite <- app_comm_cons, at_line_mid. Qed.

Lemma headerPrefix_sorts op p :
  has_prefix patchAddPrefix (headerPrefix op ++ p) = bool_decide (op = PatchOperationAdd) ∧
  has_prefix patchDeletePrefix (headerPrefix op ++ p) = bool_decide (op = PatchOperationDelete) ∧
  (op ≠ PatchOperationAdd → op ≠ PatchOperationDelete →
   has_prefix patchUpdatePrefix (headerPrefix op ++ p) = true).
Proof. destruct op; split_and!; intros; done || reflexivity || apply has_prefix_app. Qed.

Lemma parsePatchAction_render a pre rest :
  renderable a → action_end rest →
  parsePatchAction (pre ++ render_action a ++ rest) (length pre) =
    Ok (a, length pre + length (render_action a)).
Proof.
  intros Hr Hend. unfold parsePatchAction. rewrite at_line_header. cbn [mbind outcome_bind].
  destruct (headerPrefix_sorts (operation a) (path a)) as (-> & -> & Hu).
  case_bool_decide; [by apply parseAddAction_render; [|apply Hr|]|].
  case_bool_decide as Hd.
  - destruct Hr as ([Hp Hw] & _). rewrite Hd in Hw. destruct Hw as (Hde & Hh & Hc).
    rewrite Hd. unfold headerPrefix. rewrite trim_prefix_app, requiredPatchPath_wf by done.
    unfold render_action. rewrite Hd. cbn [mbind outcome_bind length].
    do 2 f_equal; [|lia]. destruct a; simpl in *; by subst.
  - rewrite Hu by done. apply parseUpdateAction_render; [|done..].
    destruct (operation a); naive_solver.
Qed.

Lemma parseActions_render acts pre parsed fuel :
  Forall renderable acts → length acts < fuel →
  parseActions fuel (pre ++ render_body acts ++ [applyPatchEndMarker]) (length pre) parsed =
    Ok (mkParsed (actions parsed ++ acts) (hunkCount parsed + total_hunks acts)).
Proof.
  intros Hr. revert pre parsed fuel.
  induction Hr as [|a acts Ha Hacts IH]; intros pre parsed fuel Hf; destruct fuel as [|fuel];
    simpl in Hf; try lia; cbn [parseActions].
  - change (render_body []) with (@nil bytes). cbn [app].
    rewrite in_body_mid, bool_decide_eq_false_2 by naive_solver.
    rewrite app_nil_r, Nat.add_0_r. by destruct parsed.
  - rewrite render_body_cons, <- app_assoc, parsePatchAction_render
      by auto using render_body_end.
    assert (in_body (pre ++ render_action a ++ render_body acts ++ [applyPatchEndMarker])
              (length pre) = true) as ->.
    { apply in_body_true. rewrite !length_app. cbn [length].
      destruct (render_action_head a []) as (l & k & E & _). rewrite app_nil_r in E.
      rewrite E. simpl. lia. }
    cbn [mbind outcome_bind]. rewrite (app_assoc pre), <- length_app, IH by lia.
    cbn [actions hunkCount]. f_equal. f_equal; [by rewrite <- app_assoc|].
    unfold total_hunks. simpl. lia.
Qed.

Lemma plain_app p s : plain p → plain s → plain (p ++ s).
Proof. unfold plain. rewrite !not_elem_of_app. tauto. Qed.

Lemma plain_const s : forallb (λ a, bool_decide (a ≠ NL ∧ a ≠ CR)) s = true → plain s.
Proof.
  rewrite forallb_forall. intros H. split; intros Ha%list_elem_of_In;
    specialize (H _ Ha); apply bool_decide_eq_true in H; naive_solver.
Qed.

Lemma render_hunk_plain h : renderable_hunk h → Forall plain (render_hunk h).
Proof.
  intros ((_ & _ & _ & Hk) & Han & Hls). unfold render_hunk. constructor.
  - apply plain_app; [by apply plain_const|]. case_bool_decide; [by apply plain_const|].
    apply (plain_app [" "%char]); [by apply plain_const|done].
  - apply Forall_app. split.
    + apply Forall_fmap, Forall_forall. intros l Hl. rewrite Forall_forall in Hk, Hls.
      apply (plain_app [kind l]); [|by apply Hls].
      destruct (Hk l Hl) as [-> | [-> | ->]]; by apply plain_const.
    + destruct (endOfFile h); [|constructor]. apply Forall_singleton. by apply plain_const.
Qed.

Lemma render_hunks_plain hs : Forall renderable_hunk hs → Forall plain (render_hunks hs).
Proof.
  induction 1; [constructor|]. rewrite render_hunks_cons. apply Forall_app.
  split; [by apply render_hunk_plain|done].
Qed.

Lemma contentLines_plain c : CR ∉ c → Forall plain (contentLines c).
Proof.
  intros Hcr. unfold contentLines. case_bool_decide; [constructor|].
  pose proof (split_byte_sep_free NL (trim_suffix [NL] c)) as Hs.
  rewrite Forall_forall in Hs |- *. intros l Hl. split; [by apply Hs|].
  intros Ha. apply Hcr.
  assert (CR ∈ trim_suffix [NL] c) as Ht.
  { rewrite <- (join_split_byte NL). by apply (elem_of_join_2 _ _ _ l). }
  unfold trim_suffix in Ht. case_if; [|done]. by eapply elem_of_take_sub.
Qed.

Lemma render_action_plain a : renderable a → Forall plain (render_action a).
Proof.
  intros (_ & Hpp & Hpd & Hcr & Hh). unfold render_action.
  pose proof (render_hunks_plain _ Hh) as Hhs.
  assert (∀ p q, plain q → forallb (λ a, bool_decide (a ≠ NL ∧ a ≠ CR)) p = true →
    plain (p ++ q)) as Hpre by (intros; apply plain_app; [by apply plain_const|done]).
  destruct (operation a); constructor; try (by apply Hpre); try done.
  - apply Forall_fmap. eapply Forall_impl; [by apply contentLines_plain|].
    intros l Hl. by apply (Hpre [patchLineAdd]).
  - constructor; [by apply Hpre|done].
Qed.

Lemma render_lines_plain acts : Forall renderable acts → Forall plain (render_lines acts).
Proof.
  intros Hr. unfold render_lines. constructor; [by apply plain_const|].
  apply Forall_app. split; [|apply Forall_singleton; by apply plain_const].
  induction Hr; [constructor|]. rewrite render_body_cons. apply Forall_app.
  split; [by apply render_action_plain|done].
Qed.

Lemma documentLines_render acts :
  Forall renderable acts → documentLines (render acts) = render_lines acts.
Proof.
  intros Hr%render_lines_plain. unfold documentLines, render.
  rewrite replace_crlf_free.
  - rewrite split_byte_snoc_sep, split_byte_join.
    + rewrite last_snoc, length_app. cbn [length].
      replace (_ + 1 - 1) with (length (render_lines acts)) by lia. apply take_app_length.
    + done.
    + eapply Forall_impl; [exact Hr|]. by intros l [? _].
  - intros Hin. apply elem_of_app in Hin as [Hin|Hin].
    + apply elem_of_join in Hin as [Hin|(l & Hl & Hin)].
      * by apply list_elem_of_singleton in Hin.
      * rewrite Forall_forall in Hr. by apply (Hr l Hl).
    + by apply list_elem_of_singleton in Hin.
Qed.

Lemma parseApplyPatch_post document :
  post invalid wf_parsed (parseApplyPatch document).
Proof.
  unfold parseApplyPatch. eapply (post_bind _ (λ _, True)).
  { unfold validatePatchDocument. by case_if. }
  intros [] _ _. destruct (length (documentLines document) <? 2) eqn:E1; simpl; [done|].
  apply Nat.ltb_ge in E1. case_if; [done|].
  eapply post_bind; [apply parseActions_post; simpl; first [lia|constructor|done]|].
  intros p _ [Hw Hc]. destruct (bool_decide_reflect (actions p = [])); [done|]. cbn [post]. unfold wf_parsed. auto.
Qed.

(** ** Theorems *)

(** C25: the parser terminates on every document without an out-of-range read;
    its only error is [ErrInvalidPatch]; and what it accepts is well formed:
    every path is trimmed and non-empty, an update has hunks, a move has a
    destination, every hunk changes something, and the hunk count the limit
    check uses is the number of hunks. *)
Theorem parseApplyPatch_sound document :
  post invalid wf_parsed (parseApplyPatch document).
Proof. apply parseApplyPatch_post. Qed.


Lemma parseApplyPatch_sound_witness :
  post invalid wf_parsed (parseApplyPatch (bs "nonsense")) ∧
  parseApplyPatch (bs "nonsense") = Err ErrInvalidPatch.
Proof. split; [apply parseApplyPatch_sound|reflexivity]. Defined.

(** Round trip.  Printing any list of well-formed actions whose fields hold
    no line break, as a document that is valid text, and parsing it gives back
    exactly those actions and their number of hunks. *)
Theorem parse_render acts :
  acts ≠ [] → Forall renderable acts →
  validatePatchDocument (render acts) = Ok tt →
  parseApplyPatch (render acts) = Ok (mkParsed acts (total_hunks acts)).
Proof.
  intros Hne Hr Hv. unfold parseApplyPatch. rewrite Hv. cbn [mbind outcome_bind].
  rewrite documentLines_render by done.
  assert (length acts ≤ length (render_body acts)) as Hlen.
  { clear. induction acts as [|a acts IH]; [done|]. rewrite render_body_cons, length_app.
    destruct (render_action_head a []) as (l & k & E & _). rewrite app_nil_r in E.
    rewrite E. simpl. lia. }
  assert (length (render_lines acts) = length (render_body acts) + 2) as Hll.
  { unfold render_lines. cbn [length]. rewrite length_app. simpl. lia. }
  rewrite (proj2 (Nat.ltb_ge _ _)) by lia.
  rewrite (bool_decide_eq_true_2 (render_lines acts !! 0 = _)) by done.
  rewrite (bool_decide_eq_true_2 (last _ = _)).
  2:{ unfold render_lines. rewrite app_comm_cons. apply last_snoc. }
  cbn [negb orb]. rewrite Hll. unfold render_lines.
  change (applyPatchBeginMarker :: ?r) with ([applyPatchBeginMarker] ++ r).
  change 1 with (length [applyPatchBeginMarker]).
  rewrite parseActions_render by (done || lia).
  cbn [mbind outcome_bind actions hunkCount app Nat.add].
  by rewrite bool_decide_eq_false_2.
Qed.

Definition sample_actions : list patchAction :=
  [ mkAction PatchOperationAdd (bs "new.txt") [] (bs "hello" ++ [NL] ++ bs "world" ++ [NL]) [];
    mkAction PatchOperationUpdate (bs "a.go") [] []
      [mkHunk (bs "func main() {") [mkLine " " (bs "x"); mkLine "-" (bs "y"); mkLine "+" []] false;
       mkHunk [] [mkLine "+" (bs "end")] true];
    mkAction PatchOperationMove (bs "b.go") (bs "c.go") []
      [mkHunk [] [mkLine "-" (bs "*** Add File: z")] false];
    mkAction PatchOperationDelete (bs "d.go") [] [] [] ].

Lemma parse_render_witness :
  parseApplyPatch (render sample_actions) = Ok (mkParsed sample_actions 3).
Proof.
  apply (parse_render sample_actions); [discriminate| |by vm_compute].
  apply (bool_decide_unpack (Forall renderable sample_actions)). by vm_compute.
Defined.

Lemma actionPaths_length acts :
  length acts ≤ length (concat (actionPaths <$> acts)) ≤ 2 * length acts.
Proof.
  induction acts as [|a acts IH]; [simpl; lia|].
  change (concat (actionPaths <$> (a :: acts)))
    with (actionPaths a ++ concat (actionPaths <$> acts)).
  rewrite length_app. unfold actionPaths at 1 3. case_bool_decide; cbn [length]; lia.
Qed.

(** The path listing names, for every action in document order, its path
    and then its destination when it has one; it fails exactly when the parser
    does, and a listed path is never empty. *)
Theorem ApplyPatchPaths_spec document :
  match parseApplyPatch document with
  | Ok p => ∃ paths, ApplyPatchPaths document = Ok paths ∧
      paths = concat (actionPaths <$> actions p) ∧ Forall (λ q, q ≠ []) paths ∧
      (length (actions p) ≤ length paths ≤ 2 * length (actions p))
  | Err e => ApplyPatchPaths document = Err e
  | _ => False
  end.
Proof.
  pose proof (parseApplyPatch_post document) as Hpost. unfold ApplyPatchPaths.
  destruct (parseApplyPatch document) as [p|e| |]; simpl in *; try done.
  eexists. split_and!; [done|done|..]; destruct Hpost as (_ & Hw & _).
  - induction Hw as [|a acts Ha _ IH]; simpl; [constructor|].
    destruct Ha as [[Hp _] _]. constructor; [done|]. apply Forall_app. split; [|done].
    case_bool_decide; [constructor|]. by apply Forall_singleton.
  - apply actionPaths_length.
  - apply actionPaths_length.
Qed.

End PatchParser.
