(* ===== verification/PatchLines.v ===== *)
(** Applying update hunks to a file's lines
    (src/internal/pkg/tools/applypatch_lines.go): splitting a file into lines
    with their endings, locating an anchor and a hunk's old lines, and building
    the replacement. *)
From stdpp Require Import base gmap sets list strings.
From Stdlib Require Import ZArith Lia Ascii.
From S2P Require Import Prelude GoBytes PatchParser.

Module PatchLines.
Import PatchParser.

Record patchSourceLine := mkSource { s_text : bytes; s_ending : bytes }.

Definition LF : bytes := [NL].
Definition CRLF : bytes := [CR; NL].

(** One pass of the loop of [splitPatchSourceLines] up to the newline at [nl]. *)
Definition sourceLineAt (content : bytes) (nl : nat) : patchSourceLine :=
  if bool_decide (0 < nl) && bool_decide (content !! (nl - 1) = Some CR)
  then mkSource (take (nl - 1) content) CRLF
  else mkSource (take nl content) LF.

Fixpoint splitFuel (fuel : nat) (content : bytes) : list patchSourceLine :=
  match fuel, content with
  | 0, _ | _, [] => []
  | S fuel', _ =>
      match index_byte NL content with
      | None => [mkSource content []]
      | Some nl => sourceLineAt content nl :: splitFuel fuel' (drop (S nl) content)
      end
  end.

Definition splitPatchSourceLines (content : bytes) : list patchSourceLine :=
  splitFuel (length content) content.

(** The running state of [preferredLineEnding]: the count of each ending, the
    preferred ending and its count. *)
Definition countEnding (st : gmap bytes nat * bytes * nat) (line : patchSourceLine)
    : gmap bytes nat * bytes * nat :=
  let '(counts, preferred, preferredCount) := st in
  if bool_decide (s_ending line = []) then st
  else
    let n := S (default 0 (counts !! s_ending line)) in
    let counts := <[s_ending line := n]> counts in
    if preferredCount <? n then (counts, s_ending line, n)
    else (counts, preferred, preferredCount).

Definition preferredLineEnding (ls : list patchSourceLine) : bytes :=
  (foldl countEnding (∅, LF, 0) ls).1.2.

(** The search loops: try [count] indices from [index]; a second hit is an
    error.  [hit] may index a slice. *)
Fixpoint scanUnique (hit : nat → outcome bool) (index count : nat) (found : option nat)
    : outcome (option nat) :=
  match count with
  | 0 => Ok found
  | S count' =>
      h ← hit index;
      if negb (h : bool) then scanUnique hit (S index) count' found
      else match found with
           | Some _ => Err ErrPatchMatchNotUnique
           | None => scanUnique hit (S index) count' (Some index)
           end
  end.

Definition anchorHit (ls : list patchSourceLine) (anchor : bytes) (index : nat) : outcome bool :=
  line ← index_or_panic (ls !! index);
  Ok (bool_decide (s_text line = anchor)).

Definition locatePatchAnchor (ls : list patchSourceLine) (cursor : nat) (anchor : bytes)
    : outcome nat :=
  if bool_decide (anchor = []) then Ok cursor
  else
    found ← scanUnique (anchorHit ls anchor) cursor (length ls - cursor) None;
    match found with
    | Some i => Ok (S i)
    | None => Err ErrPatchMatchNotFound
    end.

Definition patchOldLines (ls : list patchLine) : list bytes :=
  text <$> filter (λ l, kind l ≠ patchLineAdd) ls.

Fixpoint patchLinesEqual (source : list patchSourceLine) (expected : list bytes) : outcome bool :=
  match expected, source with
  | [], _ => Ok true
  | e :: es, s :: ss => if bool_decide (s_text s = e) then patchLinesEqual ss es else Ok false
  | _ :: _, [] => Panic
  end.

Definition hunkHit (ls : list patchSourceLine) (old : list bytes) (eof : bool) (index : nat)
    : outcome bool :=
  window ← slice (Z.of_nat index) (Z.of_nat (index + length old)) ls;
  equal ← patchLinesEqual window old;
  if negb (equal : bool) then Ok false
  else Ok (negb (eof && negb (index + length old =? length ls))).

Definition locatePatchHunk (ls : list patchSourceLine) (cursor : nat) (h : patchHunk)
    : outcome (nat * nat) :=
  let old := patchOldLines (lines h) in
  if bool_decide (old = []) then
    if endOfFile h then Ok (length ls, 0) else Ok (cursor, 0)
  else
    found ← scanUnique (hunkHit ls old (endOfFile h)) cursor
              (S (length ls) - length old - cursor) None;
    match found with
    | Some i => Ok (i, length old)
    | None => Err ErrPatchMatchNotFound
    end.

Fixpoint buildPatchReplacement (source : list patchSourceLine) (ls : list patchLine)
    (lineEnding : bytes) : outcome (list patchSourceLine) :=
  match ls with
  | [] => Ok []
  | l :: ls' =>
      if bool_decide (kind l = patchLineContext) then
        match source with
        | [] => Panic
        | s :: ss => rest ← buildPatchReplacement ss ls' lineEnding; Ok (s :: rest)
        end
      else if bool_decide (kind l = patchLineDelete) then
        buildPatchReplacement (tail source) ls' lineEnding
      else if bool_decide (kind l = patchLineAdd) then
        rest ← buildPatchReplacement source ls' lineEnding;
        Ok (mkSource (text l) lineEnding :: rest)
      else buildPatchReplacement source ls' lineEnding
  end.

(** A replacement of the last line of a file without a final newline: every line
    but its last gets an ending, the last one none. *)
Fixpoint moveMissingEnding (lineEnding : bytes) (ls : list patchSourceLine)
    : list patchSourceLine :=
  match ls with
  | [] => []
  | [l] => [mkSource (s_text l) []]
  | l :: rest =>
      (if bool_decide (s_ending l = []) then mkSource (s_text l) lineEnding else l)
      :: moveMissingEnding lineEnding rest
  end.

Definition fixLastLine (ls : list patchSourceLine) (matchEnd : nat) (lineEnding : bytes)
    (replacement : list patchSourceLine) : list patchSourceLine :=
  if bool_decide (matchEnd = length ls) &&
     bool_decide (s_ending <$> last ls = Some []) && bool_decide (replacement ≠ [])
  then moveMissingEnding lineEnding replacement else replacement.

Definition replacePatchLines (ls : list patchSourceLine) (index oldCount : nat)
    (replacement : list patchSourceLine) : list patchSourceLine :=
  take index ls ++ replacement ++ drop (index + oldCount) ls.

(** One iteration of the loop of [applyPatchHunks]. *)
Definition applyPatchHunk (lineEnding : bytes) (st : list patchSourceLine * nat)
    (h : patchHunk) : outcome (list patchSourceLine * nat) :=
  let '(ls, cursor) := st in
  anchorCursor ← locatePatchAnchor ls cursor (anchor h);
  '(matchIndex, oldCount) ← locatePatchHunk ls anchorCursor h;
  source ← slice (Z.of_nat matchIndex) (Z.of_nat (matchIndex + oldCount)) ls;
  replacement ← buildPatchReplacement source (lines h) lineEnding;
  let replacement := fixLastLine ls (matchIndex + oldCount) lineEnding replacement in
  Ok (replacePatchLines ls matchIndex oldCount replacement,
      matchIndex + length replacement).

Definition joinPatchSourceLines (ls : list patchSourceLine) : bytes :=
  concat ((λ l, s_text l ++ s_ending l) <$> ls).

Definition applyPatchHunks (content : bytes) (hs : list patchHunk) : outcome bytes :=
  let ls := splitPatchSourceLines content in
  '(ls, _) ← foldM (applyPatchHunk (preferredLineEnding ls)) hs (ls, 0);
  Ok (joinPatchSourceLines ls).


(** ** Abstract specification: hunks on a list of line texts *)

Definition patchNewLines (ls : list patchLine) : list bytes :=
  text <$> filter (λ l, kind l ≠ patchLineDelete) ls.

(** The anchor's only line at or after the cursor; the search goes on after it. *)
Inductive anchored (T : list bytes) (cursor : nat) (a : bytes) : nat → Prop :=
  | anchored_none : a = [] → anchored T cursor a cursor
  | anchored_line i :
      a ≠ [] → cursor ≤ i → T !! i = Some a →
      (∀ j, cursor ≤ j → T !! j = Some a → j = i) → anchored T cursor a (S i).

(** The hunk's old lines are at [m], at or after [start], and at the end of the
    file when the hunk says so. *)
Definition site (T : list bytes) (start : nat) (h : patchHunk) (m : nat) : Prop :=
  let old := patchOldLines (lines h) in
  start ≤ m ∧ m + length old ≤ length T ∧ take (length old) (drop m T) = old ∧
  (endOfFile h = true → m + length old = length T).

Inductive placed (T : list bytes) (start : nat) (h : patchHunk) : nat → Prop :=
  | placed_insert :
      patchOldLines (lines h) = [] →
      placed T start h (if endOfFile h then length T else start)
  | placed_replace m :
      patchOldLines (lines h) ≠ [] → site T start h m →
      (∀ j, site T start h j → j = m) → placed T start h m.

Definition text_step (st : list bytes * nat) (h : patchHunk) (st' : list bytes * nat) : Prop :=
  ∃ start m,
    anchored st.1 st.2 (anchor h) start ∧ placed st.1 start h m ∧
    st'.1 = take m st.1 ++ patchNewLines (lines h)
              ++ drop (m + length (patchOldLines (lines h))) st.1 ∧
    st'.2 = m + length (patchNewLines (lines h)).

Inductive text_steps : list bytes * nat → list patchHunk → list bytes * nat → Prop :=
  | text_steps_nil st : text_steps st [] st
  | text_steps_cons st h st1 hs st2 :
      text_step st h st1 → text_steps st1 hs st2 → text_steps st (h :: hs) st2.

Definition texts (ls : list patchSourceLine) : list bytes := s_text <$> ls.

(** ** Abstract specification: hunks on lines with their endings *)

(** The hunk's lines against the old lines they stand for: a context line stays
    as the file has it, its ending included, a deleted line goes, and an added
    line comes in with the ending [le]. *)
Inductive rewritten (le : bytes) :
    list patchLine → list patchSourceLine → list patchSourceLine → Prop :=
  | rewritten_nil : rewritten le [] [] []
  | rewritten_context l s ls old new :
      kind l = patchLineContext → s_text s = text l → rewritten le ls old new →
      rewritten le (l :: ls) (s :: old) (s :: new)
  | rewritten_delete l s ls old new :
      kind l = patchLineDelete → s_text s = text l → rewritten le ls old new →
      rewritten le (l :: ls) (s :: old) new
  | rewritten_add l ls old new :
      kind l = patchLineAdd → rewritten le ls old new →
      rewritten le (l :: ls) old (mkSource (text l) le :: new).

(** The file has no newline at its end. *)
Definition unterminated (ls : list patchSourceLine) : Prop := s_ending <$> last ls = Some [].

Definition terminate (le : bytes) (l : patchSourceLine) : patchSourceLine :=
  if bool_decide (s_ending l = []) then mkSource (s_text l) le else l.

(** New lines that become the end of a file without a final newline: the last
    of them has no ending, and the others have one.  Elsewhere they stay. *)
Inductive at_end (le : bytes) (ls post : list patchSourceLine) :
    list patchSourceLine → list patchSourceLine → Prop :=
  | at_end_kept new :
      post ≠ [] ∨ ¬ unterminated ls ∨ new = [] → at_end le ls post new new
  | at_end_last init l :
      post = [] → unterminated ls →
      at_end le ls post (init ++ [l]) ((terminate le <$> init) ++ [mkSource (s_text l) []]).

(** One hunk: the file is [pre ++ old ++ post], its anchor and its old lines are
    where [anchored] and [placed] say, and [old] alone is rewritten. *)
Definition line_step (le : bytes) (st : list patchSourceLine * nat) (h : patchHunk)
    (st' : list patchSourceLine * nat) : Prop :=
  ∃ start pre old post new new',
    anchored (texts st.1) st.2 (anchor h) start ∧ placed (texts st.1) start h (length pre) ∧
    st.1 = pre ++ old ++ post ∧ rewritten le (lines h) old new ∧
    at_end le st.1 post new new' ∧
    st'.1 = pre ++ new' ++ post ∧ st'.2 = length pre + length new'.

Inductive line_steps (le : bytes) :
    list patchSourceLine * nat → list patchHunk → list patchSourceLine * nat → Prop :=
  | line_steps_nil st : line_steps le st [] st
  | line_steps_cons st h st1 hs st2 :
      line_step le st h st1 → line_steps le st1 hs st2 → line_steps le st (h :: hs) st2.

(** Lines that do not run together: only the last can lack an ending. *)
Definition separated (ls : list patchSourceLine) : Prop :=
  ∀ i l, ls !! i = Some l → s_ending l = [] → S i = length ls.

(** Every line has an ending: the file is empty or its last byte is a newline. *)
Definition terminated (ls : list patchSourceLine) : Prop := Forall (λ l, s_ending l ≠ []) ls.

(** [le] is an ending no other ending of the file is more frequent than, and a
    plain newline when the file has none. *)
Definition prevailing (le : bytes) (ls : list patchSourceLine) : Prop :=
  (le = LF ∨ le = CRLF) ∧
  ∀ e, e ≠ [] →
    length (filter (λ l, s_ending l = e) ls) ≤ length (filter (λ l, s_ending l = le) ls).

(** ** Splitting and joining *)

Lemma joinPatchSourceLines_app l k :
  joinPatchSourceLines (l ++ k) = joinPatchSourceLines l ++ joinPatchSourceLines k.
Proof. unfold joinPatchSourceLines. by rewrite fmap_app, concat_app. Qed.

Lemma splitFuel_cons fuel content :
  content ≠ [] →
  splitFuel (S fuel) content =
    match index_byte NL content with
    | None => [mkSource content []]
    | Some nl => sourceLineAt content nl :: splitFuel fuel (drop (S nl) content)
    end.
Proof. by destruct content. Qed.

Lemma sourceLineAt_bytes content nl :
  content !! nl = Some NL →
  s_text (sourceLineAt content nl) ++ s_ending (sourceLineAt content nl) ++ drop (S nl) content
    = content.
Proof.
  intros Hnl. unfold sourceLineAt.
  assert (take (S nl) content ++ drop (S nl) content = content) as Hall by apply take_drop.
  rewrite (take_S_r _ _ _ Hnl), <- app_assoc in Hall.
  destruct (bool_decide_reflect (0 < nl)); simpl; [|exact Hall].
  case_bool_decide as Hcr; simpl; [|exact Hall].
  assert (take nl content = take (nl - 1) content ++ [CR]) as Ht.
  { rewrite <- (take_S_r _ _ _ Hcr). f_equal. lia. }
  by rewrite Ht, <- app_assoc in Hall.
Qed.

Lemma join_splitFuel fuel content :
  length content ≤ fuel → joinPatchSourceLines (splitFuel fuel content) = content.
Proof.
  revert content. induction fuel as [|fuel IH]; intros content Hf.
  - by destruct content; [|simpl in Hf; lia].
  - destruct content as [|a c]; [done|]. rewrite splitFuel_cons by done.
    destruct (index_byte NL (a :: c)) as [nl|] eqn:E.
    + apply index_byte_Some in E as [E _].
      unfold joinPatchSourceLines. cbn [fmap list_fmap concat].
      fold (joinPatchSourceLines (splitFuel fuel (drop (S nl) (a :: c)))).
      rewrite IH by (rewrite length_drop; simpl in *; lia).
      rewrite <- app_assoc. by apply sourceLineAt_bytes.
    + unfold joinPatchSourceLines. simpl. by rewrite !app_nil_r.
Qed.

(** Lines as the splitter makes them: no newline inside a text, one of the two
    endings on every line but the last, and any of the three on the last. *)
Inductive wf_source : list patchSourceLine → Prop :=
  | wf_source_nil : wf_source []
  | wf_source_last t : t ≠ [] → NL ∉ t → wf_source [mkSource t []]
  | wf_source_cons t e ls :
      NL ∉ t → (e = LF ∨ e = CRLF) → wf_source ls → wf_source (mkSource t e :: ls).

Lemma splitFuel_wf fuel content : wf_source (splitFuel fuel content).
Proof.
  revert content. induction fuel as [|fuel IH]; intros content; [constructor|].
  destruct content as [|a c]; [constructor|]. rewrite splitFuel_cons by done.
  destruct (index_byte NL (a :: c)) as [nl|] eqn:E.
  - apply index_byte_Some in E as [_ E]. unfold sourceLineAt.
    destruct (_ && _); constructor; auto.
    intros H. apply E. replace (nl - 1) with (Nat.min (nl - 1) nl) in H by lia.
    rewrite <- take_take in H. by eapply elem_of_take_sub.
  - apply index_byte_None in E. by constructor.
Qed.

(** ** Searching *)

Definition in_range (index count i : nat) : Prop := index ≤ i ∧ i < index + count.

Lemma scanUnique_spec hit P index count found :
  (∀ i, in_range index count i → ∃ b, hit i = Ok b ∧ (b = true ↔ P i)) →
  match scanUnique hit index count found with
  | Ok (Some m) =>
      (found = Some m ∧ (∀ j, in_range index count j → ¬ P j)) ∨
      (found = None ∧ in_range index count m ∧ P m ∧
       ∀ j, in_range index count j → P j → j = m)
  | Ok None => found = None ∧ ∀ j, in_range index count j → ¬ P j
  | Err e => e = ErrPatchMatchNotUnique ∧
      ∃ j, in_range index count j ∧ P j ∧
        (is_Some found ∨ ∃ i, in_range index count i ∧ P i ∧ i ≠ j)
  | _ => False
  end.
Proof.
  unfold in_range. revert index found.
  induction count as [|count IH]; intros index found Hhit; simpl.
  { destruct found as [m|]; [left|]; split; try done; intros; lia. }
  destruct (Hhit index) as (b & -> & Hb); [lia|]. cbn [mbind outcome_bind].
  assert (∀ i, S index ≤ i ∧ i < S index + count → ∃ b, hit i = Ok b ∧ (b = true ↔ P i)) as Hn
    by (intros; apply Hhit; lia).
  assert (∀ j, index ≤ j ∧ j < index + S count → j = index ∨ (S index ≤ j ∧ j < S index + count))
    as Hcase by lia.
  destruct b; simpl.
  - assert (P index) as HP by (by apply Hb).
    destruct found as [f|]; [split; [done|]; exists index; split_and!; eauto; lia|].
    specialize (IH (S index) (Some index) Hn).
    destruct (scanUnique _ _ _ _) as [[m|]|e| |]; try done; [|naive_solver|].
    + destruct IH as [[[= <-] Hno]|[? _]]; [|done]. right. split_and!; try done; try lia.
      intros j [->|Hj]%Hcase HPj; [done|]. by destruct (Hno j).
    + destruct IH as (-> & j & Hj & HPj & _). split; [done|]. exists j.
      split_and!; [lia|lia|done|]. right. exists index. split_and!; try done; lia.
  - assert (¬ P index) as HP by naive_solver.
    specialize (IH (S index) found Hn).
    destruct (scanUnique _ _ _ _) as [[m|]|e| |]; try done.
    + destruct IH as [[-> Hno]|(-> & Hm & HPm & Hu)].
      * left. split; [done|]. intros j [->|Hj]%Hcase; [done|auto].
      * right. split_and!; try done; try lia. intros j [->|Hj]%Hcase HPj; [done|auto].
    + destruct IH as [-> Hno]. split; [done|]. intros j [->|Hj]%Hcase; [done|auto].
    + destruct IH as (-> & j & Hj & HPj & Ho). split; [done|]. exists j.
      split_and!; [lia|lia|done|]. destruct Ho as [?|(i & Hi & ?)]; [by left|].
      right. exists i. split; [lia|done].
Qed.

Lemma anchorHit_ok ls a i :
  i < length ls → ∃ b, anchorHit ls a i = Ok b ∧ (b = true ↔ texts ls !! i = Some a).
Proof.
  intros [l Hl]%lookup_lt_is_Some_2. unfold anchorHit, texts.
  rewrite list_lookup_fmap, Hl. simpl. eexists. split; [done|].
  rewrite bool_decide_eq_true. naive_solver.
Qed.

Lemma patchLinesEqual_ok source expected :
  length source = length expected →
  ∃ b, patchLinesEqual source expected = Ok b ∧ (b = true ↔ texts source = expected).
Proof.
  revert source. induction expected as [|e es IH]; intros [|s ss] Hlen; simplify_eq/=.
  - by exists true.
  - case_bool_decide as He.
    + destruct (IH ss) as (b & -> & Hb); [done|]. exists b. split; [done|].
      rewrite Hb. split; [intros <-; by subst|naive_solver].
    + exists false. split; [done|]. naive_solver.
Qed.

Lemma texts_window ls i n :
  texts (take n (drop i ls)) = take n (drop i (texts ls)).
Proof. unfold texts. by rewrite fmap_take, fmap_drop. Qed.

Lemma slice_window (ls : list patchSourceLine) i n :
  i + n ≤ length ls →
  slice (Z.of_nat i) (Z.of_nat (i + n)) ls = Ok (take n (drop i ls)).
Proof. intros. rewrite slice_ok by lia. do 2 f_equal; [lia|]. f_equal. lia. Qed.

Lemma length_texts ls : length (texts ls) = length ls.
Proof. apply length_fmap. Qed.

Lemma hunkHit_ok ls h start i :
  start ≤ i → i + length (patchOldLines (lines h)) ≤ length ls →
  ∃ b, hunkHit ls (patchOldLines (lines h)) (endOfFile h) i = Ok b ∧
    (b = true ↔ site (texts ls) start h i).
Proof.
  intros Hs Hi. unfold hunkHit, site. rewrite slice_window, length_texts by done.
  cbn [mbind outcome_bind]. set (old := patchOldLines (lines h)) in *.
  destruct (patchLinesEqual_ok (take (length old) (drop i ls)) old) as (b & -> & Hb).
  { rewrite length_take, length_drop. lia. }
  rewrite texts_window in Hb. cbn [mbind outcome_bind].
  destruct b; simpl.
  - eexists. split; [done|]. rewrite negb_true_iff, andb_false_iff, negb_false_iff.
    rewrite Nat.eqb_eq. destruct (endOfFile h); naive_solver.
  - exists false. split; [done|]. naive_solver.
Qed.

Definition search_error (e : sentinel) : Prop :=
  e = ErrPatchMatchNotFound ∨ e = ErrPatchMatchNotUnique.

Lemma anchored_det T c a s1 s2 : anchored T c a s1 → anchored T c a s2 → s1 = s2.
Proof.
  intros H1 H2. destruct H1 as [?|i ? Hi Hl Hu]; destruct H2 as [?|j ? Hj Hl2 Hu2]; try done.
  f_equal. by apply Hu2.
Qed.

Lemma placed_det T c h m1 m2 : placed T c h m1 → placed T c h m2 → m1 = m2.
Proof.
  intros H1 H2. destruct H1 as [?|i ? Hi Hu]; destruct H2 as [?|j ? Hj Hu2]; try done.
  by apply Hu2.
Qed.

Lemma text_step_det st h st1 st2 : text_step st h st1 → text_step st h st2 → st1 = st2.
Proof.
  intros (a1 & m1 & Ha1 & Hp1 & E1 & F1) (a2 & m2 & Ha2 & Hp2 & E2 & F2).
  assert (a1 = a2) as <- by (by eapply anchored_det).
  assert (m1 = m2) as <- by (by eapply placed_det).
  destruct st1, st2; simpl in *; congruence.
Qed.

Lemma locatePatchAnchor_spec ls c a :
  match locatePatchAnchor ls c a with
  | Ok start => anchored (texts ls) c a start
  | Err e => search_error e ∧ ∀ start, ¬ anchored (texts ls) c a start
  | _ => False
  end.
Proof.
  unfold locatePatchAnchor. case_bool_decide as Ha; [by constructor|].
  assert (∀ i, texts ls !! i = Some a → i < length ls) as Hlt.
  { intros i Hi%lookup_lt_Some. by rewrite length_texts in Hi. }
  pose proof (scanUnique_spec (anchorHit ls a) (λ i, texts ls !! i = Some a)
    c (length ls - c) None) as Hs'.
  unfold in_range in Hs'. specialize (Hs' ltac:(intros; apply anchorHit_ok; lia)).
  destruct (scanUnique _ _ _ _) as [[m|]|e| |]; cbn [mbind outcome_bind]; try done.
  - destruct Hs' as [[? _]|(_ & Hm & HP & Hu)]; [done|]. constructor; [done|lia|done|].
    intros j Hj HPj. apply Hu; [|done]. specialize (Hlt _ HPj). lia.
  - split; [by left|]. intros start Hst. destruct Hst as [|i ? Hi Hl Hu]; [done|].
    specialize (Hlt _ Hl). apply (proj2 Hs' i); [lia|done].
  - destruct Hs' as (-> & j & Hj & HPj & [[? ?]|(i & Hi & HPi & Hne)]); [done|].
    split; [by right|]. intros start Hst. destruct Hst as [|k ? Hk Hl Hu]; [done|].
    apply Hne. rewrite (Hu i), (Hu j); (done || lia).
Qed.

Lemma locatePatchHunk_spec ls c h :
  match locatePatchHunk ls c h with
  | Ok (m, n) => placed (texts ls) c h m ∧ n = length (patchOldLines (lines h))
  | Err e => search_error e ∧ ∀ m, ¬ placed (texts ls) c h m
  | _ => False
  end.
Proof.
  unfold locatePatchHunk. case_bool_decide as Ho.
  { assert (length (texts ls) = length ls) as E by apply length_texts.
    pose proof (placed_insert (texts ls) c h Ho) as Hp. rewrite E in Hp.
    destruct (endOfFile h); by rewrite Ho. }
  set (old := patchOldLines (lines h)) in *.
  assert (0 < length old) by (destruct old; [done|simpl; lia]).
  assert (∀ i, site (texts ls) c h i → c ≤ i ∧ i + length old ≤ length ls) as Hlt.
  { intros i (? & Hi & _). rewrite length_texts in Hi. done. }
  pose proof (scanUnique_spec (hunkHit ls old (endOfFile h)) (site (texts ls) c h)
    c (S (length ls) - length old - c) None) as Hs'.
  unfold in_range in Hs'. specialize (Hs' ltac:(intros; apply hunkHit_ok; fold old; lia)).
  destruct (scanUnique _ _ _ _) as [[m|]|e| |]; cbn [mbind outcome_bind]; try done.
  - destruct Hs' as [[? _]|(_ & Hm & HP & Hu)]; [done|]. split; [|done].
    constructor 2; [done..|]. intros j Hj. apply Hu; [|done]. specialize (Hlt _ Hj). lia.
  - split; [by left|]. intros m Hm. destruct Hm as [|m ? Hm Hu]; [done|].
    specialize (Hlt _ Hm). apply (proj2 Hs' m); [lia|done].
  - destruct Hs' as (-> & j & Hj & HPj & [[? ?]|(i & Hi & HPi & Hne)]); [done|].
    split; [by right|]. intros m Hm. destruct Hm as [|m ? Hm Hu]; [done|].
    apply Hne. by rewrite (Hu i), (Hu j).
Qed.

(** ** Replacing *)

Lemma buildPatchReplacement_ok source ls le :
  Forall wf_line ls → texts source = patchOldLines ls →
  ∃ repl, buildPatchReplacement source ls le = Ok repl ∧ texts repl = patchNewLines ls ∧
    Forall (λ l, l ∈ source ∨ s_ending l = le) repl.
Proof.
  intros Hwf. revert source. induction Hwf as [|l ls Hl Hls IH]; intros source Ht; simpl.
  { by exists []. }
  unfold patchOldLines, patchNewLines in *. rewrite !filter_cons in *.
  destruct Hl as [Hk|[Hk|Hk]]; rewrite Hk in *; simpl in *.
  - destruct source as [|s ss]; [done|]. injection Ht as Hts Hss.
    destruct (IH ss Hss) as (repl & -> & Hr & Hf). simpl. eexists. split; [done|].
    split; [simpl; by rewrite Hts, Hr|]. constructor; [left; by left|].
    eapply Forall_impl; [exact Hf|]. intros x [?|?]; [left; by right|by right].
  - destruct (IH source Ht) as (repl & -> & Hr & Hf). simpl. eexists. split; [done|].
    split; [simpl; by rewrite Hr|]. constructor; [by right|done].
  - destruct source as [|s ss]; [done|]. injection Ht as Hts Hss. simpl.
    destruct (IH ss Hss) as (repl & -> & Hr & Hf). exists repl. split_and!; try done.
    eapply Forall_impl; [exact Hf|]. intros x [?|?]; [left; by right|by right].
Qed.

Lemma texts_moveMissingEnding le ls : texts (moveMissingEnding le ls) = texts ls.
Proof.
  induction ls as [|l [|k ls] IH]; [done..|].
  change (moveMissingEnding le (l :: k :: ls)) with
    ((if bool_decide (s_ending l = []) then mkSource (s_text l) le else l)
     :: moveMissingEnding le (k :: ls)).
  unfold texts in *. rewrite fmap_cons, IH, !fmap_cons. f_equal. by case_bool_decide.
Qed.

Lemma texts_fixLastLine ls e le repl : texts (fixLastLine ls e le repl) = texts repl.
Proof. unfold fixLastLine. case_if; [apply texts_moveMissingEnding|done]. Qed.

Lemma texts_app l k : texts (l ++ k) = texts l ++ texts k.
Proof. apply fmap_app. Qed.

Lemma anchored_le T c a s : anchored T c a s → c ≤ length T → s ≤ length T.
Proof. destruct 1 as [|i ? ? Hl%lookup_lt_Some]; lia. Qed.

Lemma placed_le T c h m :
  placed T c h m → c ≤ length T →
  m + length (patchOldLines (lines h)) ≤ length T ∧
  take (length (patchOldLines (lines h))) (drop m T) = patchOldLines (lines h).
Proof.
  intros Hp Hc. destruct Hp as [Ho|m Ho (? & ? & ? & _) _]; [|done].
  rewrite Ho. simpl. split; [destruct (endOfFile h); lia|done].
Qed.

Lemma applyPatchHunk_spec le ls c h :
  Forall wf_line (lines h) → c ≤ length ls →
  match applyPatchHunk le (ls, c) h with
  | Ok (ls', c') => text_step (texts ls, c) h (texts ls', c') ∧ c' ≤ length ls'
  | Err e => search_error e ∧ ∀ st', ¬ text_step (texts ls, c) h st'
  | _ => False
  end.
Proof.
  intros Hwf Hc. unfold applyPatchHunk.
  pose proof (locatePatchAnchor_spec ls c (anchor h)) as Ha.
  destruct (locatePatchAnchor ls c (anchor h)) as [start|e| |]; cbn [mbind outcome_bind];
    try done.
  2:{ destruct Ha as [? Ha]. split; [done|]. intros st' (s & m & Hs & _). by apply (Ha s). }
  pose proof (locatePatchHunk_spec ls start h) as Hh.
  destruct (locatePatchHunk ls start h) as [[m n]|e| |]; cbn [mbind outcome_bind]; try done.
  2:{ destruct Hh as [? Hh]. split; [done|]. intros st' (s & m & Hs & Hp & _). simpl in *.
      assert (s = start) as -> by (by eapply anchored_det). by apply (Hh m). }
  destruct Hh as [Hp ->].
  assert (start ≤ length (texts ls)) as Hst
    by (eapply anchored_le; [done|by rewrite length_texts]).
  destruct (placed_le _ _ _ _ Hp Hst) as [Hm Ht]. rewrite length_texts in Hm.
  rewrite slice_window by done. cbn [mbind outcome_bind].
  rewrite <- texts_window in Ht.
  destruct (buildPatchReplacement_ok _ _ le Hwf Ht) as (repl & -> & Hr & _).
  cbn [mbind outcome_bind]. set (repl' := fixLastLine _ _ _ _).
  assert (texts repl' = patchNewLines (lines h)) as Hr'.
  { unfold repl'. by rewrite texts_fixLastLine. }
  assert (length repl' = length (patchNewLines (lines h))) as Hlr
    by (by rewrite <- Hr', length_texts).
  split.
  - exists start, m. simpl. split_and!; [done..| |by rewrite Hlr].
    unfold replacePatchLines. rewrite !texts_app, Hr'. unfold texts.
    by rewrite fmap_take, fmap_drop.
  - unfold replacePatchLines. rewrite !length_app, length_take. lia.
Qed.

Lemma foldM_spec le hs ls c :
  Forall (λ h, Forall wf_line (lines h)) hs → c ≤ length ls →
  match foldM (applyPatchHunk le) hs (ls, c) with
  | Ok (ls', c') => text_steps (texts ls, c) hs (texts ls', c')
  | Err e => search_error e ∧ ∀ st', ¬ text_steps (texts ls, c) hs st'
  | _ => False
  end.
Proof.
  intros Hwf. revert ls c. induction Hwf as [|h hs Hh Hhs IH]; intros ls c Hc;
    cbn [foldM]; [constructor|].
  pose proof (applyPatchHunk_spec le ls c h Hh Hc) as Hs.
  destruct (applyPatchHunk le (ls, c) h) as [[ls1 c1]|e| |]; cbn [mbind outcome_bind];
    try done.
  - destruct Hs as [Hs Hc1]. specialize (IH ls1 c1 Hc1).
    destruct (foldM _ hs (ls1, c1)) as [[ls2 c2]|e| |]; try done.
    + by econstructor.
    + destruct IH as [? IH]. split; [done|]. intros st' Hst. inversion Hst; subst.
      eapply IH. replace (texts ls1, c1) with st1 by (by eapply text_step_det). done.
  - destruct Hs as [? Hs]. split; [done|]. intros st' Hst. inversion Hst; subst. by eapply Hs.
Qed.

(** Parsed hunks never make the application panic. *)
Lemma applyPatchHunks_returns content hs :
  Forall wf_hunk hs → returns (applyPatchHunks content hs).
Proof.
  intros Hwf. unfold applyPatchHunks.
  assert (Forall (λ h, Forall wf_line (lines h)) hs) as Hl.
  { eapply Forall_impl; [exact Hwf|]. by intros h (_ & _ & _ & ?). }
  pose proof (foldM_spec (preferredLineEnding (splitPatchSourceLines content)) hs
    (splitPatchSourceLines content) 0 Hl ltac:(lia)) as Hs.
  by destruct (foldM _ hs _) as [[ls c]|e| |].
Qed.

(** ** Line endings *)

Definition countOf (e : bytes) (ls : list patchSourceLine) : nat :=
  length (filter (λ l, s_ending l = e) ls).

Lemma countOf_snoc e ls l :
  countOf e (ls ++ [l]) = countOf e ls + (if decide (s_ending l = e) then 1 else 0).
Proof.
  unfold countOf. rewrite filter_app, length_app. f_equal.
  rewrite filter_cons. by case_decide.
Qed.

Definition ending_inv (ls : list patchSourceLine) (st : gmap bytes nat * bytes * nat) : Prop :=
  let '(counts, p, n) := st in
  (∀ e, e ≠ [] → default 0 (counts !! e) = countOf e ls ∧ countOf e ls ≤ n) ∧
  ((n = 0 ∧ p = LF) ∨ (0 < n ∧ p ≠ [] ∧ countOf p ls = n)).

Lemma countEnding_inv ls st l : ending_inv ls st → ending_inv (ls ++ [l]) (countEnding st l).
Proof.
  destruct st as [[counts p] n]. unfold ending_inv, countEnding. intros [Hc Hp].
  case_bool_decide as He; simpl.
  { split.
    - intros e Hne. rewrite countOf_snoc, decide_False by congruence.
      rewrite Nat.add_0_r. auto.
    - destruct Hp as [?|(? & ? & ?)]; [by left|right]. split_and!; try done.
      rewrite countOf_snoc, decide_False by congruence. lia. }
  destruct (Hc _ He) as [Hd Hle]. rewrite Hd.
  assert (∀ e, e ≠ [] →
    default 0 (<[s_ending l := S (countOf (s_ending l) ls)]> counts !! e)
      = countOf e (ls ++ [l])) as Hins.
  { intros e Hne. rewrite countOf_snoc. case_decide as Hee.
    - subst. rewrite lookup_insert_eq. simpl. lia.
    - rewrite lookup_insert_ne by done. destruct (Hc e Hne). lia. }
  destruct (Nat.ltb_spec n (S (countOf (s_ending l) ls))).
  - split.
    + intros e Hne. split; [by apply Hins|]. rewrite countOf_snoc.
      destruct (Hc e Hne). case_decide; subst; lia.
    + right. split_and!; [lia|done|]. rewrite countOf_snoc, decide_True by done. lia.
  - split.
    + intros e Hne. split; [by apply Hins|]. rewrite countOf_snoc.
      destruct (Hc e Hne). case_decide; subst; lia.
    + destruct Hp as [[-> ->]|(? & ? & Hn)]; [lia|]. right. split_and!; [lia|done|].
      rewrite countOf_snoc. case_decide; subst; lia.
Qed.

Lemma foldl_ending_inv ls : ending_inv ls (foldl countEnding (∅, LF, 0) ls).
Proof.
  induction ls as [|l ls IH] using rev_ind.
  - simpl. split; [|by left]. intros e _. rewrite lookup_empty. simpl. done.
  - rewrite foldl_snoc. by apply countEnding_inv.
Qed.

(** ** The lines with their endings *)

Lemma buildPatchReplacement_rewritten source ls le :
  Forall wf_line ls → texts source = patchOldLines ls →
  ∃ repl, buildPatchReplacement source ls le = Ok repl ∧ rewritten le ls source repl.
Proof.
  intros Hwf. revert source. induction Hwf as [|l ls Hl Hls IH]; intros source Ht; simpl.
  { destruct source; [|done]. eexists. split; [done|constructor]. }
  unfold patchOldLines in *. rewrite filter_cons in Ht.
  destruct Hl as [Hk|[Hk|Hk]]; rewrite Hk in *; simpl in *.
  - destruct source as [|s ss]; [done|]. injection Ht as Hts Hss.
    destruct (IH ss Hss) as (repl & -> & Hr). eexists. split; [done|]. by constructor.
  - destruct (IH source Ht) as (repl & -> & Hr). eexists. split; [done|]. by constructor.
  - destruct source as [|s ss]; [done|]. injection Ht as Hts Hss. simpl.
    destruct (IH ss Hss) as (repl & -> & Hr). eexists. split; [done|]. by constructor.
Qed.

Lemma moveMissingEnding_snoc le init l :
  moveMissingEnding le (init ++ [l]) = (terminate le <$> init) ++ [mkSource (s_text l) []].
Proof.
  induction init as [|x init IH]; [done|]. rewrite fmap_cons. cbn [app].
  rewrite <- IH. by destruct init.
Qed.

Lemma fixLastLine_at_end le ls m new :
  m ≤ length ls → at_end le ls (drop m ls) new (fixLastLine ls m le new).
Proof.
  intros Hm. unfold fixLastLine.
  destruct (bool_decide_reflect (m = length ls)) as [->|Hne]; simpl.
  2:{ constructor. left. intros H%(f_equal length). rewrite length_drop in H. simpl in H. lia. }
  destruct (bool_decide_reflect (s_ending <$> last ls = Some [])); simpl;
    [|constructor; by right; left].
  case_bool_decide as Hn; [|constructor; right; right; by destruct (decide (new = []))].
  destruct new as [|l init _] using rev_ind; [done|]. rewrite moveMissingEnding_snoc.
  constructor 2; [|done]. by rewrite drop_all.
Qed.

Lemma applyPatchHunk_line le ls c h st' :
  Forall wf_line (lines h) → c ≤ length ls →
  applyPatchHunk le (ls, c) h = Ok st' → line_step le (ls, c) h st'.
Proof.
  intros Hwf Hc. unfold applyPatchHunk.
  pose proof (locatePatchAnchor_spec ls c (anchor h)) as Ha.
  destruct (locatePatchAnchor ls c (anchor h)) as [start|e| |]; cbn [mbind outcome_bind];
    try done.
  pose proof (locatePatchHunk_spec ls start h) as Hh.
  destruct (locatePatchHunk ls start h) as [[m n]|e| |]; cbn [mbind outcome_bind]; try done.
  destruct Hh as [Hp ->].
  assert (start ≤ length (texts ls)) as Hst
    by (eapply anchored_le; [done|by rewrite length_texts]).
  destruct (placed_le _ _ _ _ Hp Hst) as [Hm Ht]. rewrite length_texts in Hm.
  rewrite slice_window by done. cbn [mbind outcome_bind]. rewrite <- texts_window in Ht.
  destruct (buildPatchReplacement_rewritten _ _ le Hwf Ht) as (repl & -> & Hr).
  cbn [mbind outcome_bind]. intros [= <-].
  exists start, (take m ls), (take (length (patchOldLines (lines h))) (drop m ls)),
    (drop (m + length (patchOldLines (lines h))) ls), repl. eexists.
  assert (length (take m ls) = m) as El by (rewrite length_take; lia).
  rewrite El. split_and!; [done..| |exact Hr|by apply fixLastLine_at_end|done|done].
  simpl. by rewrite <- drop_drop, !take_drop.
Qed.

Lemma foldM_lines le hs ls c st' :
  Forall (λ h, Forall wf_line (lines h)) hs → c ≤ length ls →
  foldM (applyPatchHunk le) hs (ls, c) = Ok st' → line_steps le (ls, c) hs st'.
Proof.
  intros Hwf. revert ls c. induction Hwf as [|h hs Hh Hhs IH]; intros ls c Hc;
    cbn [foldM]; [intros [= <-]; constructor|].
  pose proof (applyPatchHunk_spec le ls c h Hh Hc) as Hs.
  pose proof (applyPatchHunk_line le ls c h) as Hl.
  destruct (applyPatchHunk le (ls, c) h) as [[ls1 c1]|e| |]; cbn [mbind outcome_bind];
    try done.
  intros Hf. econstructor; [by apply Hl|]. apply IH; [apply Hs|done].
Qed.

Lemma rewritten_endings (le : bytes) ls old new :
  rewritten le ls old new → ∀ l, l ∈ new → l ∈ old ∨ s_ending l = le.
Proof.
  induction 1 as [| | |l ls old new ? ? IH]; intros x; rewrite ?elem_of_cons; [set_solver..|].
  intros [->|Hx]; [by right|auto].
Qed.

Lemma rewritten_old (le : bytes) ls old new :
  rewritten le ls old new → texts old = patchOldLines ls.
Proof.
  unfold patchOldLines, texts.
  induction 1 as [|l ? ? ? ? Hk ? ? IH|l ? ? ? ? Hk ? ? IH|l ? ? ? Hk ? IH];
    [done|rewrite filter_cons, Hk; simpl..]; [by f_equal|by f_equal|done].
Qed.

Lemma separated_app pre suf :
  suf ≠ [] → separated (pre ++ suf) ↔ terminated pre ∧ separated suf.
Proof.
  intros Hne. assert (0 < length suf) by (destruct suf; [done|simpl; lia]).
  unfold separated, terminated. split.
  - intros H'. split.
    + apply Forall_lookup. intros i l Hl He.
      specialize (H' i l ltac:(by apply lookup_app_l_Some) He). rewrite length_app in H'.
      apply lookup_lt_Some in Hl. lia.
    + intros i l Hl He. specialize (H' (length pre + i) l).
      rewrite lookup_app_r, Nat.add_sub', length_app in H' by lia. specialize (H' Hl He). lia.
  - intros [Hp Hs] i l [Hl|[Hi Hl]]%lookup_app_Some He.
    + rewrite Forall_lookup in Hp. by destruct (Hp i l Hl).
    + specialize (Hs _ _ Hl He). rewrite length_app. lia.
Qed.

Lemma terminated_separated ls : terminated ls → separated ls.
Proof. unfold terminated. rewrite Forall_lookup. intros H i l Hl He. by destruct (H i l). Qed.

Lemma terminated_unterminated ls : terminated ls → ¬ unterminated ls.
Proof.
  unfold terminated, unterminated. rewrite Forall_forall, fmap_Some.
  intros H (l & Hl%last_Some_elem_of & He). by apply (H l).
Qed.

Lemma separated_terminated ls : separated ls → ¬ unterminated ls → terminated ls.
Proof.
  intros Hs Hu. destruct ls as [|l ls _] using rev_ind; [constructor|].
  apply separated_app in Hs as [Hs _]; [|done].
  apply Forall_app. split; [done|]. constructor; [|done]. intros He. apply Hu.
  unfold unterminated. by rewrite last_snoc; simpl; rewrite He.
Qed.

Lemma rewritten_terminated le ls old new :
  le ≠ [] → rewritten le ls old new → terminated old → terminated new.
Proof.
  intros Hle Hr. unfold terminated. rewrite !Forall_forall. intros Ho l Hl.
  destruct (rewritten_endings _ _ _ _ Hr l Hl) as [?| ->]; auto.
Qed.

Lemma terminate_all le ls : le ≠ [] → terminated (terminate le <$> ls).
Proof.
  intros Hle. apply Forall_fmap, Forall_true. intros l. unfold terminate. simpl.
  by case_bool_decide.
Qed.

Lemma line_step_terminated le st h st' :
  le ≠ [] → line_step le st h st' → terminated st.1 → terminated st'.1.
Proof.
  intros Hle (start & pre & old & post & new & new' & _ & _ & E & Hr & He & E' & _) Ht.
  pose proof (terminated_unterminated _ Ht) as Hu. unfold terminated in *.
  rewrite E, !Forall_app in Ht. destruct Ht as (Hp & Ho & Hs).
  rewrite E', !Forall_app. split_and!; [done| |done].
  destruct He; [by eapply rewritten_terminated|done].
Qed.

Lemma line_step_separated le st h st' :
  le ≠ [] → patchOldLines (lines h) ≠ [] → line_step le st h st' →
  separated st.1 → separated st'.1.
Proof.
  intros Hle Hn (start & pre & old & post & new & new' & _ & _ & E & Hr & He & E' & _) Hs.
  assert (old ≠ []) as Hold.
  { intros ->. apply Hn. by rewrite <- (rewritten_old _ _ _ _ Hr). }
  rewrite E' in *. destruct (decide (post = [])) as [->|Hpost].
  - rewrite app_nil_r in *. rewrite E in Hs.
    apply separated_app in Hs as [Hp Ho]; [|done].
    assert (terminated pre → terminated new → separated (pre ++ new)) as Hall.
    { intros. apply terminated_separated. by apply Forall_app. }
    destruct He as [new Hcase|init l _ Hu].
    + destruct Hcase as [?|[Hu| ->]]; [done| |apply Hall; [done|constructor]].
      apply Hall; [done|]. eapply rewritten_terminated; [done..|].
      apply separated_terminated; [done|]. intros Hu'. apply Hu. rewrite E.
      unfold unterminated in *. destruct old as [|x old _] using rev_ind; [done|].
      by rewrite app_assoc, last_snoc in *.
    + rewrite app_assoc. apply separated_app; [done|]. split.
      * apply Forall_app. split; [done|by apply terminate_all].
      * intros [|i] x Hx; [done|]. by rewrite lookup_cons_ne_0 in Hx.
  - rewrite E, app_assoc in Hs. apply separated_app in Hs as [Hpo Hs]; [|done].
    apply Forall_app in Hpo as [Hp Ho].
    assert (new' = new) as -> by (inversion He; congruence).
    rewrite app_assoc. apply separated_app; [done|]. split; [|done].
    apply Forall_app. split; [done|by eapply rewritten_terminated].
Qed.

Lemma line_steps_separated le st hs st' :
  le ≠ [] → line_steps le st hs st' → separated st.1 →
  (terminated st.1 ∨ Forall (λ h, patchOldLines (lines h) ≠ []) hs) → separated st'.1.
Proof.
  intros Hle. induction 1 as [|st h st1 hs st2 Hs _ IH]; intros Hsep Hor; [done|].
  destruct Hor as [Ht|[Hh Hhs]%Forall_cons].
  - pose proof (line_step_terminated _ _ _ _ Hle Hs Ht). apply IH; [|by left].
    by apply terminated_separated.
  - apply IH; [|by right]. by eapply line_step_separated.
Qed.

Lemma wf_source_separated ls : wf_source ls → separated ls.
Proof.
  induction 1 as [|t Ht Hn|t e ls Hn He Hw IH].
  - by intros ? ?; rewrite lookup_nil.
  - intros [|i] l Hl; [done|]. by rewrite lookup_cons_ne_0 in Hl.
  - intros [|i] l Hl He'; simpl in *; [injection Hl as <-; by destruct He as [-> | ->]|].
    f_equal. by apply (IH i l).
Qed.

Lemma wf_source_ending ls l :
  wf_source ls → l ∈ ls → s_ending l = [] ∨ s_ending l = LF ∨ s_ending l = CRLF.
Proof.
  induction 1 as [|t Ht Hn|t e ls Hn He Hw IH]; [by intros ?%elem_of_nil|..].
  - intros ->%list_elem_of_singleton. by left.
  - intros [->|Hl]%elem_of_cons; [by right|auto].
Qed.

Lemma preferredLineEnding_prevailing content :
  prevailing (preferredLineEnding (splitPatchSourceLines content))
    (splitPatchSourceLines content).
Proof.
  pose proof (splitFuel_wf (length content) content) as Hw.
  fold (splitPatchSourceLines content) in Hw. set (ls := splitPatchSourceLines content) in *.
  pose proof (foldl_ending_inv ls) as H. unfold preferredLineEnding.
  destruct (foldl _ _ _) as [[counts p] n]. simpl. destruct H as [Hc Hp].
  unfold countOf in *. destruct Hp as [[-> ->]|(Hpos & Hne & Hn)].
  - split; [by left|]. intros e Hne. destruct (Hc e Hne). lia.
  - split; [|intros e Hne'; destruct (Hc e Hne'); lia].
    destruct (filter (λ l, s_ending l = p) ls) as [|l k] eqn:E; [simpl in *; lia|].
    assert (l ∈ filter (λ l, s_ending l = p) ls) as Hl by (rewrite E; left).
    apply list_elem_of_filter in Hl as [<- Hl].
    destruct (wf_source_ending _ _ Hw Hl) as [?|?]; [done|done].
Qed.

Lemma prevailing_nonempty le ls : prevailing le ls → le ≠ [].
Proof. by intros [[-> | ->] _]. Qed.

(** ** Theorems *)

(** C24: refinement.  For the hunks the parser produces, [applyPatchHunks] never
    panics.  When it succeeds, its bytes are those of the lines, with their
    endings, that the abstract specification [line_steps] gives: every hunk's
    anchor and old lines occur exactly once at or after the cursor; context lines
    keep their own endings, added lines get the prevailing ending of the file
    ([prevailing]), lines outside the hunk are not touched, and a file without a
    final newline stays without one.  When the file is empty or ends in a newline,
    or every hunk names an old line, no two lines of the result run together; the
    case left out, an insertion at the end of a file without a final newline, is
    [eof_insertion_glues_lines].  When it fails, it is with one of the two search
    errors, and no result is allowed. *)
Theorem applyPatchHunks_refines content hs :
  let ls := splitPatchSourceLines content in
  let le := preferredLineEnding ls in
  Forall wf_hunk hs →
  prevailing le ls ∧
  match applyPatchHunks content hs with
  | Ok out => ∃ ls' c,
      out = joinPatchSourceLines ls' ∧ line_steps le (ls, 0) hs (ls', c) ∧
      (terminated ls ∨ Forall (λ h, patchOldLines (lines h) ≠ []) hs → separated ls')
  | Err e => search_error e ∧ ∀ st', ¬ text_steps (texts ls, 0) hs st'
  | _ => False
  end.
Proof.
  intros ls le Hwf. pose proof (preferredLineEnding_prevailing content) as Hprev.
  split; [exact Hprev|]. unfold applyPatchHunks. fold ls le.
  assert (Forall (λ h, Forall wf_line (lines h)) hs) as Hl.
  { eapply Forall_impl; [exact Hwf|]. by intros h (_ & _ & _ & ?). }
  pose proof (foldM_spec le hs ls 0 Hl ltac:(lia)) as Hs.
  pose proof (foldM_lines le hs ls 0) as Hln.
  destruct (foldM _ hs _) as [[ls' c]|e| |]; cbn [mbind outcome_bind]; try done.
  exists ls', c. specialize (Hln _ Hl ltac:(lia) eq_refl). split_and!; [done..|].
  apply (line_steps_separated _ _ _ _ (prevailing_nonempty _ _ Hprev) Hln).
  apply wf_source_separated, splitFuel_wf.
Qed.

Definition sample_hunk : patchHunk :=
  PatchParser.mkHunk [] [mkLine "-" (bs "b"); mkLine "+" (bs "B"); mkLine "+" (bs "C")] false.

Lemma applyPatchHunks_refines_witness :
  applyPatchHunks (bs "a" ++ CRLF ++ bs "b") [sample_hunk]
    = Ok (bs "a" ++ CRLF ++ bs "B" ++ CRLF ++ bs "C") ∧
  ∃ ls' c, bs "a" ++ CRLF ++ bs "B" ++ CRLF ++ bs "C" = joinPatchSourceLines ls' ∧
    line_steps CRLF ([mkSource (bs "a") CRLF; mkSource (bs "b") []], 0) [sample_hunk] (ls', c) ∧
    separated ls'.
Proof.
  split; [reflexivity|].
  assert (Forall wf_hunk [sample_hunk]) as Hw.
  { apply (bool_decide_unpack (Forall wf_hunk [sample_hunk])). by vm_compute. }
  destruct (applyPatchHunks_refines (bs "a" ++ CRLF ++ bs "b") [sample_hunk] Hw)
    as (_ & ls' & c & H1 & H2 & H3).
  exists ls', c. split; [exact H1|]. split; [exact H2|]. apply H3. right.
  by repeat constructor.
Defined.

(** Round trip.  Joining the split lines of any file gives back its bytes,
    no split text holds a newline, and only the last line can lack an ending. *)
Theorem join_split content :
  joinPatchSourceLines (splitPatchSourceLines content) = content ∧
  wf_source (splitPatchSourceLines content).
Proof.
  split; [apply join_splitFuel; unfold splitPatchSourceLines; lia|apply splitFuel_wf].
Qed.

(** The ending given to added lines is a most frequent one of the file, and
    a plain newline when no line has an ending. *)
Theorem preferredLineEnding_most_frequent ls :
  (∀ e, e ≠ [] → countOf e ls ≤ countOf (preferredLineEnding ls) ls) ∨
  (preferredLineEnding ls = LF ∧ ∀ e, e ≠ [] → countOf e ls = 0).
Proof.
  pose proof (foldl_ending_inv ls) as H. unfold preferredLineEnding.
  destruct (foldl _ _ _) as [[counts p] n]. simpl. destruct H as [Hc Hp].
  destruct Hp as [[-> ->]|(? & ? & Hn)].
  - right. split; [done|]. intros e Hne. destruct (Hc e Hne). lia.
  - left. intros e Hne. destruct (Hc e Hne). lia.
Qed.

(** Frame.  When one hunk is applied, the file falls into the lines before
    it, its old lines and the lines after it; the bytes before and after are kept
    exactly, and every written line is a line of the old ones, has the file's
    preferred ending, or is the last line of a file that had no final newline. *)
Theorem applyPatchHunks_frame content h out :
  wf_hunk h → applyPatchHunks content [h] = Ok out →
  ∃ pre old post repl,
    content = joinPatchSourceLines pre ++ joinPatchSourceLines old ++ joinPatchSourceLines post ∧
    out = joinPatchSourceLines pre ++ joinPatchSourceLines repl ++ joinPatchSourceLines post ∧
    texts old = patchOldLines (lines h) ∧ texts repl = patchNewLines (lines h) ∧
    (post ≠ [] →
     Forall (λ l, l ∈ old ∨
       s_ending l = preferredLineEnding (splitPatchSourceLines content)) repl).
Proof.
  intros (_ & _ & _ & Hwf). unfold applyPatchHunks.
  pose proof (join_splitFuel (length content) content ltac:(lia)) as Hjoin.
  fold (splitPatchSourceLines content) in Hjoin.
  set (ls := splitPatchSourceLines content) in *. set (le := preferredLineEnding ls).
  cbn [foldM]. unfold applyPatchHunk.
  pose proof (locatePatchAnchor_spec ls 0 (anchor h)) as Ha.
  destruct (locatePatchAnchor ls 0 (anchor h)) as [start|e| |]; cbn [mbind outcome_bind];
    try done.
  pose proof (locatePatchHunk_spec ls start h) as Hh.
  destruct (locatePatchHunk ls start h) as [[m n]|e| |]; cbn [mbind outcome_bind]; try done.
  destruct Hh as [Hp ->].
  assert (start ≤ length (texts ls)) as Hst by (eapply anchored_le; [done|lia]).
  destruct (placed_le _ _ _ _ Hp Hst) as [Hm Ht]. rewrite length_texts in Hm.
  rewrite slice_window by done. cbn [mbind outcome_bind]. rewrite <- texts_window in Ht.
  destruct (buildPatchReplacement_ok _ _ le Hwf Ht) as (repl & -> & Hr & Hf).
  cbn [mbind outcome_bind]. set (k := length (patchOldLines (lines h))) in *.
  set (repl' := fixLastLine _ _ _ _). intros [= <-].
  exists (take m ls), (take k (drop m ls)), (drop (m + k) ls), repl'. split_and!.
  - rewrite <- Hjoin, <- !joinPatchSourceLines_app. f_equal.
    rewrite <- drop_drop, !take_drop. done.
  - unfold replacePatchLines. by rewrite !joinPatchSourceLines_app.
  - done.
  - unfold repl'. by rewrite texts_fixLastLine.
  - intros Hpost. unfold repl', fixLastLine.
    rewrite bool_decide_eq_false_2; [done|]. intros E. apply Hpost, drop_ge. lia.
Qed.

Lemma applyPatchHunks_frame_witness :
  ∃ pre old post repl,
    bs "a" ++ [NL] ++ bs "b" =
      joinPatchSourceLines pre ++ joinPatchSourceLines old ++ joinPatchSourceLines post ∧
    bs "a" ++ [NL] ++ bs "B" ++ [NL] ++ bs "C" =
      joinPatchSourceLines pre ++ joinPatchSourceLines repl ++ joinPatchSourceLines post ∧
    texts old = [bs "b"] ∧ texts repl = [bs "B"; bs "C"].
Proof.
  assert (wf_hunk sample_hunk) as Hw.
  { apply (bool_decide_unpack (wf_hunk sample_hunk)). by vm_compute. }
  destruct (applyPatchHunks_frame (bs "a" ++ [NL] ++ bs "b") sample_hunk
    (bs "a" ++ [NL] ++ bs "B" ++ [NL] ++ bs "C") Hw eq_refl) as (pre & old & post & repl & H1 & H2 & H3 & H4 & _).
  exists pre, old, post, repl. split_and!; [exact H1|exact H2|exact H3|exact H4].
Defined.

(** An insertion at the end of a file without a final newline is glued to
    the last line: the file [t] and the added line [x] become the one line
    [t ++ x]. *)
Theorem eof_insertion_glues_lines t x :
  t ≠ [] → NL ∉ t →
  applyPatchHunks t [PatchParser.mkHunk [] [mkLine patchLineAdd x] true] = Ok (t ++ x).
Proof.
  intros Hne Hnl. unfold applyPatchHunks.
  assert (splitPatchSourceLines t = [mkSource t []]) as ->.
  { unfold splitPatchSourceLines. destruct t as [|a t]; [done|].
    cbn [length]. rewrite splitFuel_cons by done.
    by rewrite (proj2 (index_byte_None NL (a :: t)) Hnl). }
  cbn. unfold joinPatchSourceLines. simpl. by rewrite !app_nil_r.
Qed.

Lemma eof_insertion_glues_lines_witness :
  applyPatchHunks (bs "last") [PatchParser.mkHunk [] [mkLine patchLineAdd (bs "new")] true] =
    Ok (bs "lastnew").
Proof.
  apply (eof_insertion_glues_lines (bs "last") (bs "new")); [discriminate|].
  apply (bool_decide_unpack (NL ∉ bs "last")). by vm_compute.
Defined.

End PatchLines.
