(* ===== verification/EditFile.v ===== *)
(** Exact-text edits of one file (src/internal/pkg/tools/edit.go): how the old
    texts are located, checked and replaced.  The handler that reads and writes
    the file around them is in Mutations.v. *)
From stdpp Require Import base gmap sets list strings sorting.
From Stdlib Require Import ZArith Lia Ascii.
From S2P Require Import Prelude GoBytes Diff.
Import Diff.

Module EditFile.
Local Open Scope Z_scope.

(** [TextEdit] of types.go. *)
Record TextEdit := mkEdit { Old : bytes; New : bytes }.

Record editMatch := mkMatch { m_start : Z; m_end : Z; newText : bytes }.

Definition validateEdits (edits : list TextEdit) (maxEdits : Z) : outcome unit :=
  if bool_decide (edits = []) then Err ErrValidationFailed
  else if maxEdits <? Z.of_nat (length edits) then Err ErrLimitExceeded
  else if bool_decide (Exists (λ e, Old e = []) edits) then Err ErrValidationFailed
  else Ok tt.

(** [bytes.Index], -1 when there is no occurrence. *)
Definition indexZ (sub s : bytes) : Z :=
  match index_sub sub s with Some i => Z.of_nat i | None => -1 end.

Definition matchEdit (content : bytes) (edit : TextEdit) : outcome editMatch :=
  let count := count_sub (Old edit) content in
  if bool_decide (count = 0%nat) then Err ErrMatchNotFound
  else if bool_decide (1 < count)%nat then Err ErrMatchNotUnique
  else
    let start := indexZ (Old edit) content in
    Ok (mkMatch start (start + Z.of_nat (length (Old edit))) (New edit)).

Fixpoint matchEdits (content : bytes) (edits : list TextEdit) : outcome (list editMatch) :=
  match edits with
  | [] => Ok []
  | edit :: rest =>
      m ← matchEdit content edit;
      ms ← matchEdits content rest;
      Ok (m :: ms)
  end.

Definition starts_le (a c : editMatch) : Prop := m_start a ≤ m_start c.
#[export] Instance starts_le_dec a c : Decision (starts_le a c).
Proof. unfold starts_le. apply _. Defined.

(** [sort.Slice] by start.  It is not stable; equal starts belong to equal or
    overlapping ranges, which [checkOverlaps] refuses in every order. *)
Definition sortedByStart (ms : list editMatch) : list editMatch :=
  merge_sort starts_le ms.

(** The loop of [checkOverlaps] over neighbours. *)
Fixpoint neighboursApart (ms : list editMatch) : bool :=
  match ms with
  | a :: ((c :: _) as rest) => negb (m_start c <? m_end a) && neighboursApart rest
  | _ => true
  end.

Definition checkOverlaps (ms : list editMatch) : outcome unit :=
  if neighboursApart (sortedByStart ms) then Ok tt else Err ErrOverlappingEdits.

(** One iteration of the loop of [applyMatches]; the state is the rewritten text,
    the replacements and the cursor. *)
Definition applyMatch (content : bytes) (st : bytes * list replacement * Z) (m : editMatch)
    : outcome (bytes * list replacement * Z) :=
  let '(rewritten, replacements, cursor) := st in
  gap ← slice cursor (m_start m) content;
  let rewritten := rewritten ++ gap in
  let newStart := Z.of_nat (length rewritten) in
  let rewritten := rewritten ++ newText m in
  let newEnd := Z.of_nat (length rewritten) in
  Ok (rewritten,
      replacements ++ [mkReplacement (m_start m) (m_end m) newStart newEnd],
      m_end m).

Definition applyMatches (content : bytes) (ms : list editMatch)
    : outcome (bytes * list replacement) :=
  '(rewritten, replacements, cursor) ←
    foldM (applyMatch content) (sortedByStart ms) ([], [], 0);
  rest ← slice cursor (Z.of_nat (length content)) content;
  Ok (rewritten ++ rest, replacements).

(** The part of [applyEditsLocked] between reading the file and writing it. *)
Definition rewriteContent (content : bytes) (edits : list TextEdit)
    : outcome (bytes * list replacement) :=
  ms ← matchEdits content edits;
  _ ← checkOverlaps ms;
  applyMatches content ms.

(** ** Specification: simultaneous substitution *)

(** [old] stands at the index [i] of the content; its first occurrence. *)
Definition occurs_at (content old : bytes) (i : nat) : Prop :=
  ∃ pre post, content = pre ++ old ++ post ∧ length pre = i.
Definition first_at (content old : bytes) (i : nat) : Prop :=
  occurs_at content old i ∧ ∀ j, occurs_at content old j → (i ≤ j)%nat.

(** The old text occurs, and at one index only. *)
Definition occurs_once (content : bytes) (e : TextEdit) : Prop :=
  ∃ i, occurs_at content (Old e) i ∧ ∀ j, occurs_at content (Old e) j → j = i.

(** The old text occurs, and every occurrence overlaps the first one. *)
Definition one_place (content : bytes) (e : TextEdit) : Prop :=
  ∃ i, first_at content (Old e) i ∧
    ∀ j, occurs_at content (Old e) j → (j < i + length (Old e))%nat.

(** Two occurrences that do not overlap. *)
Definition occurs_apart (content : bytes) (e : TextEdit) : Prop :=
  ∃ i j, occurs_at content (Old e) i ∧ occurs_at content (Old e) j ∧ (i + length (Old e) ≤ j)%nat.

(** No end of the text is also its beginning, so that it cannot overlap itself. *)
Definition borderless (old : bytes) : Prop :=
  ∀ k, (0 < k < length old)%nat → take (length old - k) old ≠ drop k old.

(** The text that comes of the content from [pos] on, when the first occurrences
    of the old texts, in the order of the content, become the new texts. *)
Inductive substituted (content : bytes) : nat → list TextEdit → bytes → Prop :=
  | substituted_nil pos : substituted content pos [] (drop pos content)
  | substituted_cons pos i e es r :
      (pos ≤ i)%nat → first_at content (Old e) i →
      substituted content (i + length (Old e)) es r →
      substituted content pos (e :: es) (take (i - pos) (drop pos content) ++ New e ++ r).

(** The replacement records the place of [e] in the content, and its new text in
    the result. *)
Definition records (content out : bytes) (e : TextEdit) (r : replacement) : Prop :=
  (∃ i, first_at content (Old e) i ∧ r_oldStart r = Z.of_nat i ∧
        r_oldEnd r = Z.of_nat (i + length (Old e))) ∧
  slice (r_newStart r) (r_newEnd r) out = Ok (New e).

(** The range where an edit is applied. *)
Definition site (content : bytes) (e : TextEdit) (lo hi : Z) : Prop :=
  ∃ i, first_at content (Old e) i ∧ lo = Z.of_nat i ∧ hi = Z.of_nat (i + length (Old e)).

Definition sites_overlap (content : bytes) (e f : TextEdit) : Prop :=
  ∃ lo hi lo' hi', site content e lo hi ∧ site content f lo' hi' ∧ lo < hi' ∧ lo' < hi.

(** ** Occurrences *)

Lemma occurs_at_0 s sub : occurs_at s sub 0 ↔ has_prefix sub s = true.
Proof.
  rewrite has_prefix_spec. split.
  - intros (pre & post & -> & Hp). apply length_zero_iff_nil in Hp as ->. by exists post.
  - intros [k ->]. by exists [], k.
Qed.

Lemma occurs_at_S a s sub i : occurs_at (a :: s) sub (S i) ↔ occurs_at s sub i.
Proof.
  split.
  - intros ([|x pre] & post & E & Hp); [done|]. injection E as -> ->. exists pre, post. auto.
  - intros (pre & post & -> & <-). by exists (a :: pre), post.
Qed.

Lemma occurs_at_fits s sub i : occurs_at s sub i → (i + length sub ≤ length s)%nat.
Proof. intros (pre & post & -> & <-). rewrite !length_app. lia. Qed.

Lemma occurs_at_text s sub i : occurs_at s sub i → take (length sub) (drop i s) = sub.
Proof. intros (pre & post & -> & <-). by rewrite drop_app_length, take_app_length. Qed.

Lemma occurs_at_drop s sub n j : (n ≤ length s)%nat → occurs_at (drop n s) sub j ↔ occurs_at s sub (n + j).
Proof.
  revert s. induction n as [|n IH]; intros [|a s] Hn; simpl in *; try done; try lia.
  rewrite occurs_at_S. apply IH. lia.
Qed.

Lemma index_sub_first sub s :
  match index_sub sub s with
  | Some i => first_at s sub i
  | None => ∀ i, ¬ occurs_at s sub i
  end.
Proof.
  induction s as [|a s IH]; cbn [index_sub].
  - destruct (has_prefix sub []) eqn:E.
    + split; [by apply occurs_at_0|lia].
    + intros i Hi. assert (i = 0)%nat as -> by (apply occurs_at_fits in Hi; simpl in Hi; lia).
      apply occurs_at_0 in Hi. congruence.
  - destruct (has_prefix sub (a :: s)) eqn:E; [split; [by apply occurs_at_0|lia]|].
    assert (¬ occurs_at (a :: s) sub 0) as H0 by (rewrite occurs_at_0; congruence).
    destruct (index_sub sub s) as [i|]; simpl.
    + destruct IH as [Hi Hmin]. split; [by apply occurs_at_S|]. intros [|j] Hj; [done|].
      apply occurs_at_S, Hmin in Hj. lia.
    + intros [|j] Hj; [done|]. apply occurs_at_S in Hj. by apply (IH j).
Qed.

Lemma first_at_det s sub i j : first_at s sub i → first_at s sub j → i = j.
Proof. intros [Hi Hi'] [Hj Hj']. apply Hi' in Hj. apply Hj' in Hi. lia. Qed.

(** What [bytes.Count] says of a text that is not empty. *)
Lemma count_sub_cases sub s :
  sub ≠ [] →
  match count_sub sub s with
  | O => ∀ i, ¬ occurs_at s sub i
  | S O => ∃ i, index_sub sub s = Some i ∧ first_at s sub i ∧
             ∀ j, occurs_at s sub j → (j < i + length sub)%nat
  | _ => ∃ i j, occurs_at s sub i ∧ occurs_at s sub j ∧ (i + length sub ≤ j)%nat
  end.
Proof.
  intros Hne. unfold count_sub. cbn [count_sub_fuel]. pose proof (index_sub_first sub s) as Hf.
  destruct (index_sub sub s) as [i|]; [|done]. pose proof Hf as [Hi _].
  pose proof (occurs_at_fits _ _ _ Hi) as Hfit. assert (0 < length sub)%nat by (destruct sub; [done|simpl; lia]).
  destruct (length s) as [|n] eqn:El; [lia|]. cbn [count_sub_fuel].
  pose proof (index_sub_first sub (drop (i + length sub) s)) as Hg.
  destruct (index_sub sub (drop (i + length sub) s)) as [j|].
  - destruct Hg as [Hj _]. apply occurs_at_drop in Hj; [|lia].
    exists i, (i + length sub + j)%nat. split_and!; [done..|lia].
  - exists i. split_and!; [done..|]. intros j Hj.
    destruct (decide (j < i + length sub)%nat) as [?|Hge]; [done|].
    destruct (Hg (j - (i + length sub))%nat). apply occurs_at_drop; [lia|].
    by replace (i + length sub + (j - (i + length sub)))%nat with j by lia.
Qed.

Lemma borderless_check old :
  Forall (λ k, take (length old - k) old ≠ drop k old) (seq 1 (length old - 1)) → borderless old.
Proof. rewrite Forall_forall. intros H k Hk. apply H, elem_of_seq. lia. Qed.

(** A text that cannot overlap itself occurs once where its occurrences overlap. *)
Lemma one_place_once content e : borderless (Old e) → one_place content e → occurs_once content e.
Proof.
  intros Hb (i & [Hi Hmin] & Hall). exists i. split; [done|]. intros j Hj.
  pose proof (Hmin j Hj). pose proof (Hall j Hj).
  destruct (decide (j = i)) as [?|Hne]; [done|]. exfalso. apply (Hb (j - i)%nat); [lia|].
  rewrite <-(occurs_at_text _ _ _ Hj) at 2. rewrite <-(occurs_at_text _ _ _ Hi) at 3.
  rewrite take_take, skipn_firstn_comm, drop_drop.
  replace (i + (j - i))%nat with j by lia. f_equal. lia.
Qed.

(** ** Matching *)

(** [m] is the match of [e]. *)
Definition matched (content : bytes) (e : TextEdit) (m : editMatch) : Prop :=
  site content e (m_start m) (m_end m) ∧ newText m = New e ∧ one_place content e.

Lemma matchEdit_spec content e :
  Old e ≠ [] →
  match matchEdit content e with
  | Ok m => matched content e m
  | Err x =>
      (x = ErrMatchNotFound ∧ ∀ i, ¬ occurs_at content (Old e) i) ∨
      (x = ErrMatchNotUnique ∧ occurs_apart content e)
  | _ => False
  end.
Proof.
  intros Hne. unfold matchEdit. pose proof (count_sub_cases (Old e) content Hne) as Hc.
  destruct (bool_decide_reflect (count_sub (Old e) content = 0%nat)) as [H0|H0].
  { rewrite H0 in Hc. by left. }
  destruct (bool_decide_reflect (1 < count_sub (Old e) content)%nat) as [H1|H1].
  { right. split; [done|]. destruct (count_sub _ _) as [|[|n]]; [lia..|done]. }
  assert (count_sub (Old e) content = 1%nat) as E by lia. rewrite E in Hc.
  destruct Hc as (i & Hi & Hf & Hall). unfold indexZ. rewrite Hi. split; [|split; [done|by exists i]].
  exists i. simpl. split_and!; [done..|lia].
Qed.

Lemma matchEdits_spec content es :
  Forall (λ e, Old e ≠ []) es →
  match matchEdits content es with
  | Ok ms => Forall2 (matched content) es ms
  | Err x =>
      (x = ErrMatchNotFound ∧ Exists (λ e, ∀ i, ¬ occurs_at content (Old e) i) es) ∨
      (x = ErrMatchNotUnique ∧ Exists (occurs_apart content) es)
  | _ => False
  end.
Proof.
  induction 1 as [|e es Hne Hes IH]; cbn [matchEdits]; [constructor|].
  pose proof (matchEdit_spec content e Hne) as He.
  destruct (matchEdit content e) as [m|x| |]; cbn [mbind outcome_bind]; try done.
  - destruct (matchEdits content es) as [ms|x| |]; cbn [mbind outcome_bind]; try done.
    + by constructor.
    + destruct IH as [[-> ?]|[-> ?]]; [left|right]; (split; [done|by right]).
  - destruct He as [[-> ?]|[-> ?]]; [left|right]; (split; [done|by left]).
Qed.

(** ** Sorting *)

#[export] Instance starts_le_total : Total starts_le.
Proof. intros a c. unfold starts_le. lia. Qed.
#[export] Instance starts_le_trans : Transitive starts_le.
Proof. intros a c d. unfold starts_le. lia. Qed.

Lemma sortedByStart_perm ms : sortedByStart ms ≡ₚ ms.
Proof. apply merge_sort_Permutation. Qed.

Lemma sortedByStart_sorted ms : StronglySorted starts_le (sortedByStart ms).
Proof. apply StronglySorted_merge_sort; apply _. Qed.

(** A match with a range inside the content. *)
Definition proper (content : bytes) (m : editMatch) : Prop :=
  0 ≤ m_start m ∧ m_start m < m_end m ∧ m_end m ≤ Z.of_nat (length content).

(** [apart ms]: every range ends before the next ones start. *)
Definition apart : list editMatch → Prop := StronglySorted (λ a c, m_end a ≤ m_start c).

Lemma neighboursApart_apart content ms :
  Forall (proper content) ms → neighboursApart ms = true ↔ apart ms.
Proof.
  induction ms as [|a [|c ms] IH]; intros Hp.
  - split; [constructor|done].
  - split; [repeat constructor|done].
  - apply Forall_cons in Hp as [Ha Hp]. specialize (IH Hp).
    change (neighboursApart (a :: c :: ms)) with
      (negb (m_start c <? m_end a) && neighboursApart (c :: ms)).
    rewrite andb_true_iff, IH, negb_true_iff, Z.ltb_ge. split.
    + intros [Hle Hs]. constructor; [done|]. constructor; [done|].
      apply StronglySorted_inv in Hs as [_ Hs]. apply Forall_cons in Hp as [Hc _].
      eapply Forall_impl; [exact Hs|]. intros d Hd. cbv beta in *. destruct Hc. lia.
    + intros Hs. apply StronglySorted_inv in Hs as [Hs Hf]. split; [|done].
      by apply Forall_cons in Hf as [? _].
Qed.

(** ** Applying *)

Lemma matched_proper content e m : Old e ≠ [] → matched content e m → proper content m.
Proof.
  intros Hne ((i & [Hi _] & E1 & E2) & _). apply occurs_at_fits in Hi.
  assert (0 < length (Old e))%nat by (destruct (Old e); [done|simpl; lia]).
  unfold proper. lia.
Qed.

(** What the loop of [applyMatches] adds to its state from [cursor] on. *)
Lemma applyMatch_loop content es ms rw reps cur :
  Forall2 (matched content) es ms → apart ms → Forall (proper content) ms →
  0 ≤ cur ≤ Z.of_nat (length content) → Forall (λ m, cur ≤ m_start m) ms →
  ∃ mid reps' cur',
    foldM (applyMatch content) ms (rw, reps, cur) = Ok (rw ++ mid, reps ++ reps', cur') ∧
    cur ≤ cur' ≤ Z.of_nat (length content) ∧
    substituted content (Z.to_nat cur) es (mid ++ drop (Z.to_nat cur') content) ∧
    ∀ tl, Forall2 (records content (rw ++ mid ++ tl)) es reps'.
Proof.
  intros Hm. revert rw reps cur. induction Hm as [|e m es ms Hem Hm IH];
    intros rw reps cur Ha Hp Hc Hs; cbn [foldM].
  { exists [], [], cur. rewrite !app_nil_r. split; [done|]. split; [lia|]. split.
    - apply substituted_nil.
    - intros. constructor. }
  apply StronglySorted_inv in Ha as [Ha Hafter].
  apply Forall_cons in Hp as [Hpm Hp]. apply Forall_cons in Hs as [Hsm Hs].
  destruct Hem as ((i & Hfirst & Hst & Hen) & Hnew & _).
  unfold applyMatch at 2. rewrite slice_ok by (destruct Hpm; lia).
  cbn [mbind outcome_bind]. rewrite Hnew.
  set (gap := take _ (drop (Z.to_nat cur) content)).
  destruct (IH ((rw ++ gap) ++ New e)
    (reps ++ [mkReplacement (m_start m) (m_end m) (Z.of_nat (length (rw ++ gap)))
       (Z.of_nat (length ((rw ++ gap) ++ New e)))]) (m_end m) Ha Hp)
    as (mid & reps' & cur' & Hf & Hc' & Hsub & Hrec).
  { destruct Hpm. lia. }
  { exact Hafter. }
  eexists (gap ++ New e ++ mid), (_ :: reps'), cur'. rewrite Hf.
  split_and!; [by rewrite <- !app_assoc|destruct Hpm; lia|lia| |].
  - rewrite <- !app_assoc. unfold gap.
    replace (Z.to_nat (m_start m - cur)) with (i - Z.to_nat cur)%nat by lia.
    constructor; [lia|done|].
    replace (i + length (Old e))%nat with (Z.to_nat (m_end m)) by lia. exact Hsub.
  - intros tl. constructor.
    + split; simpl; [by exists i|].
      replace (rw ++ (gap ++ New e ++ mid) ++ tl)
        with ((rw ++ gap) ++ New e ++ (mid ++ tl)) by (by rewrite <- !app_assoc).
      apply slice_mid; rewrite !length_app; lia.
    + specialize (Hrec tl). rewrite <- !app_assoc in Hrec. by rewrite <- !app_assoc.
Qed.

(** Sorting the matches sorts the edits with them. *)
Lemma Forall2_sorted content es ms :
  Forall2 (matched content) es ms →
  ∃ es', es' ≡ₚ es ∧ Forall2 (matched content) es' (sortedByStart ms).
Proof.
  intros Hm%Forall2_flip. pose proof (symmetry (sortedByStart_perm ms)) as Hp.
  destruct (Permutation_Forall2 Hp Hm) as (es' & ? & ?%Forall2_flip). by exists es'.
Qed.

(** ** Overlaps *)

Definition disjoint_ranges (a c : editMatch) : Prop :=
  m_end a ≤ m_start c ∨ m_end c ≤ m_start a.

Lemma apart_pair ms a c rest : apart ms → ms ≡ₚ a :: c :: rest → disjoint_ranges a c.
Proof.
  intros Hs Hp. symmetry in Hp. apply Permutation_cons_inv_l in Hp as (l1 & l2 & -> & Hp).
  apply StronglySorted_app in Hs as (H12 & _ & Htail).
  assert (c ∈ l1 ∨ c ∈ l2) as [Hc|Hc] by (apply elem_of_app; rewrite <- Hp; set_solver).
  - right. apply H12; set_solver.
  - left. apply StronglySorted_inv, proj2 in Htail. rewrite Forall_forall in Htail. by apply Htail.
Qed.

Lemma apart_same_start content ms a c :
  apart ms → Forall (proper content) ms → a ∈ ms → c ∈ ms → m_start a = m_start c → a = c.
Proof.
  rewrite Forall_forall. intros Hs Hp Ha Hc He. apply list_elem_of_split in Ha as (l1 & l2 & ->).
  assert (proper content a ∧ proper content c) as [[??] [??]] by (split; apply Hp; set_solver).
  apply StronglySorted_app in Hs as (H12 & _ & Htail).
  apply StronglySorted_inv, proj2 in Htail. rewrite Forall_forall in Htail.
  rewrite elem_of_app, elem_of_cons in Hc. destruct Hc as [Hc|[->|Hc]]; [|done|].
  - specialize (H12 c a Hc ltac:(set_solver)). simpl in H12. lia.
  - specialize (Htail c Hc). simpl in Htail. lia.
Qed.

(** Neighbours in start order that are not apart overlap. *)
Lemma not_apart_pair content ms :
  Forall (proper content) ms → StronglySorted starts_le ms → neighboursApart ms = false →
  ∃ a c rest, ms ≡ₚ a :: c :: rest ∧ m_start a < m_end c ∧ m_start c < m_end a.
Proof.
  induction ms as [|a [|c ms] IH]; intros Hp Hs Hn; [done..|].
  change (negb (m_start c <? m_end a) && neighboursApart (c :: ms) = false) in Hn.
  apply Forall_cons in Hp as [Ha Hp]. apply StronglySorted_inv in Hs as [Hs Hf].
  destruct (m_start c <? m_end a) eqn:E; simpl in Hn.
  - exists a, c, ms. split; [done|]. apply Forall_cons in Hp as [[? ?] _].
    apply Forall_cons in Hf as [Hac _]. unfold starts_le in Hac. lia.
  - destruct (IH Hp Hs Hn) as (x & y & rest & Hperm & ?). exists x, y, (a :: rest).
    split; [|done]. rewrite Hperm.
    etrans; [apply Permutation_swap|]. constructor. apply Permutation_swap.
Qed.

Lemma matched_sites content e f a c :
  matched content e a → matched content f c →
  sites_overlap content e f ↔ m_start a < m_end c ∧ m_start c < m_end a.
Proof.
  intros (Ha & _) (Hc & _). unfold sites_overlap. split.
  - intros (lo & hi & lo' & hi' & (i & Hi & -> & ->) & (j & Hj & -> & ->) & ? & ?).
    destruct Ha as (i' & Hi' & -> & ->), Hc as (j' & Hj' & -> & ->).
    rewrite (first_at_det _ _ _ _ Hi' Hi), (first_at_det _ _ _ _ Hj' Hj). lia.
  - intros [? ?]. exists (m_start a), (m_end a), (m_start c), (m_end c). split_and!; [done..|lia|lia].
Qed.

Definition overlapping_pair (content : bytes) (edits : list TextEdit) : Prop :=
  ∃ e f rest, edits ≡ₚ e :: f :: rest ∧ sites_overlap content e f.

Lemma overlapping_pair_matches content es ms :
  Forall2 (matched content) es ms →
  overlapping_pair content es ↔
  ∃ a c rest, ms ≡ₚ a :: c :: rest ∧ m_start a < m_end c ∧ m_start c < m_end a.
Proof.
  intros Hm. split.
  - intros (e & f & rest & Hp & Ho). destruct (Permutation_Forall2 Hp Hm) as (ms' & Hp' & Hm').
    inversion Hm' as [|? a ? ? He Hm2]; subst. inversion Hm2 as [|? c ? k Hf]; subst.
    exists a, c, k. split; [done|]. by eapply matched_sites.
  - intros (a & c & rest & Hp & Ho). apply Forall2_flip in Hm.
    destruct (Permutation_Forall2 Hp Hm) as (es' & Hp' & Hm').
    inversion Hm' as [|? e ? ? He Hm2]; subst. inversion Hm2 as [|? f ? k Hf]; subst.
    exists e, f, k. split; [done|]. by eapply matched_sites.
Qed.

Lemma checkOverlaps_spec content es ms :
  Forall2 (matched content) es ms → Forall (proper content) ms →
  match checkOverlaps ms with
  | Ok _ => apart (sortedByStart ms) ∧ ¬ overlapping_pair content es
  | Err x => x = ErrOverlappingEdits ∧ overlapping_pair content es
  | _ => False
  end.
Proof.
  intros Hm Hp. unfold checkOverlaps. pose proof (overlapping_pair_matches _ _ _ Hm) as Ho.
  assert (Forall (proper content) (sortedByStart ms)) as Hp' by (by rewrite sortedByStart_perm).
  destruct (neighboursApart (sortedByStart ms)) eqn:E.
  - apply (neighboursApart_apart content) in E; [|done]. split; [done|].
    rewrite Ho. intros (a & c & rest & Hperm & ? & ?).
    assert (disjoint_ranges a c) as [?|?]; [|lia..].
    eapply apart_pair; [done|]. by rewrite sortedByStart_perm.
  - split; [done|]. rewrite Ho. apply (not_apart_pair content) in E as (a & c & rest & Hperm & ?);
      [|done|apply sortedByStart_sorted].
    exists a, c, rest. split; [|done]. by rewrite <- Hperm, sortedByStart_perm.
Qed.

Lemma matchEdits_perm content es es' ms :
  es ≡ₚ es' → matchEdits content es = Ok ms →
  ∃ ms', matchEdits content es' = Ok ms' ∧ ms ≡ₚ ms'.
Proof.
  intros Hp. revert ms. induction Hp as [|e es es' Hp IH|e f es|es1 es2 es3 _ IH1 _ IH2];
    intros ms Hms.
  - by exists ms.
  - cbn [matchEdits] in *. invert_ok. destruct (IH _ Hr0) as (k & -> & Hk).
    rewrite Hr. cbn [mbind outcome_bind]. eexists. split; [done|]. by constructor.
  - cbn [matchEdits] in *. invert_ok. rewrite Hr1, Hr, Hr2. cbn [mbind outcome_bind].
    eexists. split; [done|]. constructor.
  - destruct (IH1 _ Hms) as (k & Hk & ?). destruct (IH2 _ Hk) as (k' & Hk' & ?).
    exists k'. split; [done|]. by etrans.
Qed.

Lemma Forall2_proper content es ms :
  Forall (λ e, Old e ≠ []) es → Forall2 (matched content) es ms → Forall (proper content) ms.
Proof.
  intros Hne Hm. induction Hm; [done|]. apply Forall_cons in Hne as [? ?].
  constructor; [by eapply matched_proper|auto].
Qed.

Lemma matchEdits_returns content es : returns (matchEdits content es).
Proof.
  induction es as [|e es IH]; [done|]. cbn [matchEdits].
  assert (returns (matchEdit content e)) as He.
  { unfold matchEdit. by repeat case_bool_decide. }
  destruct (matchEdit content e); try done. by destruct (matchEdits content es).
Qed.

Lemma validateEdits_Ok edits maxEdits u :
  validateEdits edits maxEdits = Ok u → Forall (λ e, Old e ≠ []) edits.
Proof.
  unfold validateEdits. repeat (case_if; [done|]). intros _. read_guards.
  apply Forall_forall. intros e He E. match goal with Hn : ¬ Exists _ _ |- _ => apply Hn end.
  apply Exists_exists. eauto.
Qed.

Lemma rewriteContent_outcome content edits :
  Forall (λ e, Old e ≠ []) edits →
  match rewriteContent content edits with
  | Ok (out, reps) =>
      Forall (one_place content) edits ∧ ¬ overlapping_pair content edits ∧
      ∃ es, es ≡ₚ edits ∧ substituted content 0 es out ∧ Forall2 (records content out) es reps
  | Err x =>
      (x = ErrMatchNotFound ∧ Exists (λ e, ∀ i, ¬ occurs_at content (Old e) i) edits) ∨
      (x = ErrMatchNotUnique ∧ Exists (occurs_apart content) edits) ∨
      (x = ErrOverlappingEdits ∧ Forall (one_place content) edits ∧
       overlapping_pair content edits)
  | _ => False
  end.
Proof.
  intros Hne. unfold rewriteContent. pose proof (matchEdits_spec content edits Hne) as Hms.
  destruct (matchEdits content edits) as [ms|x| |]; cbn [mbind outcome_bind]; [|tauto|done..].
  assert (Forall (proper content) ms) as Hp by by eapply Forall2_proper.
  assert (Forall (one_place content) edits) as Honce.
  { clear -Hms. induction Hms as [|???? (_ & _ & ?)]; by constructor. }
  pose proof (checkOverlaps_spec _ _ _ Hms Hp) as Ho.
  destruct (checkOverlaps ms) as [[]|x| |]; cbn [mbind outcome_bind]; [|tauto|done..].
  destruct Ho as [Ha Hno]. destruct (Forall2_sorted _ _ _ Hms) as (es & Hperm & Hes).
  assert (Forall (proper content) (sortedByStart ms)) as Hp' by (by rewrite sortedByStart_perm).
  unfold applyMatches.
  destruct (applyMatch_loop content es (sortedByStart ms) [] [] 0 Hes Ha Hp')
    as (out & reps & cur & -> & Hc & Hs & Hrec); [lia| |].
  { eapply Forall_impl; [exact Hp'|]. by intros m (? & _). }
  cbn [mbind outcome_bind]. rewrite slice_ok by lia. cbn [mbind outcome_bind].
  split_and!; [done|done|]. exists es. split; [done|].
  rewrite take_ge by (rewrite length_drop; lia). split; [exact Hs|]. apply Hrec.
Qed.

Lemma rewriteContent_returns content edits :
  Forall (λ e, Old e ≠ []) edits → returns (rewriteContent content edits).
Proof.
  intros Hne%(rewriteContent_outcome content). by destruct (rewriteContent content edits).
Qed.

(** ** Theorems *)

(** C23: the rewriting never panics.  It succeeds exactly when every old text has all
    its occurrences in one place, where they overlap the first, and no two ranges
    overlap; the result is then the content with the first occurrences of the old
    texts replaced by the new ones, and every replacement records both places.  An
    old text that cannot overlap itself then occurs exactly once; one that can is
    accepted when its occurrences overlap ([self_overlapping_match_accepted]).
    Each failure has its own error: an old text that does not occur, one with two
    occurrences apart, or two edits whose ranges overlap. *)
Theorem rewriteContent_spec content edits :
  Forall (λ e, Old e ≠ []) edits →
  match rewriteContent content edits with
  | Ok (out, reps) =>
      Forall (one_place content) edits ∧ ¬ overlapping_pair content edits ∧
      ∃ es, es ≡ₚ edits ∧ substituted content 0 es out ∧ Forall2 (records content out) es reps
  | Err x =>
      (x = ErrMatchNotFound ∧ Exists (λ e, ∀ i, ¬ occurs_at content (Old e) i) edits) ∨
      (x = ErrMatchNotUnique ∧ Exists (occurs_apart content) edits) ∨
      (x = ErrOverlappingEdits ∧ Forall (one_place content) edits ∧
       overlapping_pair content edits)
  | _ => False
  end ∧
  (Forall (λ e, borderless (Old e)) edits →
   (∃ r, rewriteContent content edits = Ok r) ↔
     Forall (occurs_once content) edits ∧ ¬ overlapping_pair content edits).
Proof.
  intros Hne. pose proof (rewriteContent_outcome content edits Hne) as Ho. split; [exact Ho|].
  intros Hb. split.
  - intros [[out reps] E]. rewrite E in Ho. destruct Ho as (Hone & Hno & _). split; [|done].
    rewrite Forall_forall in *. intros e He. apply one_place_once; auto.
  - intros [Honce Hno]. destruct (rewriteContent content edits) as [r|x| |]; [by eexists|exfalso|done..].
    rewrite Forall_forall in Honce. rewrite !Exists_exists in Ho.
    destruct Ho as [(_ & e & He & Hnone)|[(_ & e & He & (i & j & Hi & Hj & Hij))|(_ & _ & ?)]]; [..|done].
    + destruct (Honce e He) as (i & Hi & _). by apply (Hnone i).
    + destruct (Honce e He) as (k & _ & Hk). apply Hk in Hi as ->. apply Hk in Hj as ->.
      rewrite Forall_forall in Hne. apply (Hne e He), length_zero_iff_nil. lia.
Qed.

Definition sample_content : bytes := bs "one two three".
Definition sample_edits : list TextEdit :=
  [mkEdit (bs "three") (bs "3"); mkEdit (bs "one") (bs "1")].

Lemma rewriteContent_spec_witness :
  rewriteContent sample_content sample_edits =
    Ok (bs "1 two 3", [mkReplacement 0 3 0 1; mkReplacement 8 13 6 7]) ∧
  (∃ es, es ≡ₚ sample_edits ∧ substituted sample_content 0 es (bs "1 two 3")) ∧
  Forall (occurs_once sample_content) sample_edits.
Proof.
  split; [reflexivity|].
  assert (Forall (λ e, Old e ≠ []) sample_edits) as Hne by (repeat constructor; discriminate).
  destruct (rewriteContent_spec sample_content sample_edits Hne)
    as [(_ & _ & es & Hp & Hs & _) Hb]. split; [exists es; split; [exact Hp|exact Hs]|].
  apply Hb; [|eexists; reflexivity].
  constructor; [|constructor; [|constructor]]; apply borderless_check;
    by apply (bool_decide_unpack _); vm_compute.
Defined.

(** The order of the edits does not matter: every order gives the same text
    and the same replacements. *)
Theorem rewriteContent_order content edits edits' r :
  Forall (λ e, Old e ≠ []) edits → edits ≡ₚ edits' →
  rewriteContent content edits = Ok r → rewriteContent content edits' = Ok r.
Proof.
  intros Hne Hp. unfold rewriteContent. intros H. apply bind_Ok_inv in H as (ms & Hms & H).
  apply bind_Ok_inv in H as ([] & Hov & H).
  destruct (matchEdits_perm _ _ _ _ Hp Hms) as (ms' & -> & Hpm). cbn [mbind outcome_bind].
  pose proof (matchEdits_spec content edits Hne) as Hs. rewrite Hms in Hs.
  assert (Forall (proper content) ms) as Hpr by by eapply Forall2_proper.
  pose proof (checkOverlaps_spec _ _ _ Hs Hpr) as Ho. rewrite Hov in Ho. destruct Ho as [Ha _].
  assert (sortedByStart ms' = sortedByStart ms) as E.
  { apply (StronglySorted_unique_strong starts_le); [|apply sortedByStart_sorted..|].
    - intros a c Hac Hcc H1 H2. unfold starts_le in *.
      rewrite sortedByStart_perm, <- Hpm, <- sortedByStart_perm in Hac.
      eapply apart_same_start; [done| |done..|lia]. by rewrite sortedByStart_perm.
    - by rewrite !sortedByStart_perm. }
  unfold checkOverlaps, applyMatches in *. rewrite E, Hov. exact H.
Qed.

Lemma rewriteContent_order_witness :
  rewriteContent sample_content (rev sample_edits) =
    Ok (bs "1 two 3", [mkReplacement 0 3 0 1; mkReplacement 8 13 6 7]).
Proof.
  apply (rewriteContent_order sample_content sample_edits).
  - repeat constructor; discriminate.
  - symmetry. apply Permutation_rev.
  - reflexivity.
Defined.

(** An old text that occurs twice is accepted when its occurrences overlap:
    [aa] occurs at the offsets 0 and 1 of [aaa]. *)
Theorem self_overlapping_match_accepted (a : ascii) new :
  has_prefix [a; a] (drop 0 [a; a; a]) = true ∧
  has_prefix [a; a] (drop 1 [a; a; a]) = true ∧
  rewriteContent [a; a; a] [mkEdit [a; a] new] = Ok (new ++ [a], [mkReplacement 0 2 0 (Z.of_nat (length new))]).
Proof.
  assert (index_sub [a; a] [a; a; a] = Some 0%nat) as Hi.
  { pose proof (has_prefix_app [a; a] [a]) as Hp. simpl app in Hp. cbn [index_sub]. by rewrite Hp. }
  assert (count_sub [a; a] [a; a; a] = 1%nat) as Hc.
  { unfold count_sub. cbn [count_sub_fuel length]. rewrite Hi. simpl.
    by rewrite andb_false_r. }
  unfold rewriteContent. cbn [matchEdits]. unfold matchEdit, indexZ. cbn [Old New].
  rewrite Hc, Hi. split_and!; [apply (has_prefix_app [a; a] [a])..|].
  unfold applyMatches. simpl. done.
Qed.

End EditFile.
