(* ===== verification/Json.v ===== *)
(** [json.Valid] of Go's standard library, which the execution store applies
    to every context and result it saves: the byte-at-a-time scanner of
    encoding/json with its stack of open objects and arrays. *)
From stdpp Require Import base gmap sets list strings.
From Stdlib Require Import ZArith Lia Ascii.
From S2P Require Import Prelude GoBytes.

Module Json.

(** The step functions of the scanner. *)
Inductive step :=
  | BeginValue | BeginValueOrEmpty | BeginStringOrEmpty | BeginString
  | EndValue | EndTop
  | InString | InStringEsc | InStringU (missing : nat)
  | Neg | Digits | Zero | Dot | DotDigits | Exp | ExpSign | ExpDigits
  | Literal (rest : bytes).

(** What the innermost open object or array waits for. *)
Inductive frame := ObjectKey | ObjectValue | ArrayValue.

Definition QUOTE : ascii := "034"%char.

Definition maxNestingDepth : Z := 10000.

Definition is_space (c : ascii) : bool :=
  bool_decide (c ∈ [" "; "009"; "010"; "013"]%char).

Definition code (c : ascii) : N := N_of_ascii c.

Definition is_digit (c : ascii) : bool := (48 <=? code c)%N && (code c <=? 57)%N.

Definition is_hex (c : ascii) : bool :=
  is_digit c || ((97 <=? code c)%N && (code c <=? 102)%N) ||
  ((65 <=? code c)%N && (code c <=? 70)%N).

Definition push (f : frame) (stack : list frame) (next : step)
    : option (step * list frame) :=
  if (Z.of_nat (S (length stack)) <=? maxNestingDepth)%Z
  then Some (next, f :: stack) else None.

Definition pop (stack : list frame) : option (step * list frame) :=
  match stack with
  | [] => None
  | [_] => Some (EndTop, [])
  | _ :: outer => Some (EndValue, outer)
  end.

(** A value has ended: a scalar at the top level ends the document. *)
Definition endValue (c : ascii) (stack : list frame) : option (step * list frame) :=
  match stack with
  | [] => if is_space c then Some (EndTop, []) else None
  | f :: outer =>
      if is_space c then Some (EndValue, stack)
      else match f with
      | ObjectKey => if bool_decide (c = ":"%char) then Some (BeginValue, ObjectValue :: outer) else None
      | ObjectValue =>
          if bool_decide (c = ","%char) then Some (BeginString, ObjectKey :: outer)
          else if bool_decide (c = "}"%char) then pop stack else None
      | ArrayValue =>
          if bool_decide (c = ","%char) then Some (BeginValue, stack)
          else if bool_decide (c = "]"%char) then pop stack else None
      end
  end.

Definition beginValue (c : ascii) (stack : list frame) : option (step * list frame) :=
  if is_space c then Some (BeginValue, stack)
  else if bool_decide (c = "{"%char) then push ObjectKey stack BeginStringOrEmpty
  else if bool_decide (c = "["%char) then push ArrayValue stack BeginValueOrEmpty
  else if bool_decide (c = QUOTE) then Some (InString, stack)
  else if bool_decide (c = "-"%char) then Some (Neg, stack)
  else if bool_decide (c = "0"%char) then Some (Zero, stack)
  else if is_digit c then Some (Digits, stack)
  else if bool_decide (c = "t"%char) then Some (Literal (bs "rue"), stack)
  else if bool_decide (c = "f"%char) then Some (Literal (bs "alse"), stack)
  else if bool_decide (c = "n"%char) then Some (Literal (bs "ull"), stack)
  else None.

Definition beginString (c : ascii) (stack : list frame) : option (step * list frame) :=
  if is_space c then Some (BeginString, stack)
  else if bool_decide (c = QUOTE) then Some (InString, stack) else None.

Definition is_exp (c : ascii) : bool := bool_decide (c ∈ ["e"; "E"]%char).

Definition zeroNext (c : ascii) (stack : list frame) : option (step * list frame) :=
  if bool_decide (c = "."%char) then Some (Dot, stack)
  else if is_exp c then Some (Exp, stack) else endValue c stack.

(** One byte. *)
Definition scanStep (s : step) (c : ascii) (stack : list frame) : option (step * list frame) :=
  match s with
  | BeginValue => beginValue c stack
  | BeginValueOrEmpty =>
      if is_space c then Some (BeginValueOrEmpty, stack)
      else if bool_decide (c = "]"%char) then endValue c stack else beginValue c stack
  | BeginStringOrEmpty =>
      if is_space c then Some (BeginStringOrEmpty, stack)
      else if bool_decide (c = "}"%char)
      then match stack with _ :: outer => endValue c (ObjectValue :: outer) | [] => None end
      else beginString c stack
  | BeginString => beginString c stack
  | EndValue => endValue c stack
  | EndTop => if is_space c then Some (EndTop, stack) else None
  | InString =>
      if bool_decide (c = QUOTE) then Some (EndValue, stack)
      else if bool_decide (c = "\"%char) then Some (InStringEsc, stack)
      else if (code c <? 32)%N then None else Some (InString, stack)
  | InStringEsc =>
      if bool_decide (c ∈ ["b"; "f"; "n"; "r"; "t"; "\"; "/"; QUOTE]%char)
      then Some (InString, stack)
      else if bool_decide (c = "u"%char) then Some (InStringU 4, stack) else None
  | InStringU n =>
      if is_hex c then Some (match n with S (S m) => InStringU (S m) | _ => InString end, stack)
      else None
  | Neg =>
      if bool_decide (c = "0"%char) then Some (Zero, stack)
      else if is_digit c then Some (Digits, stack) else None
  | Digits => if is_digit c then Some (Digits, stack) else zeroNext c stack
  | Zero => zeroNext c stack
  | Dot => if is_digit c then Some (DotDigits, stack) else None
  | DotDigits =>
      if is_digit c then Some (DotDigits, stack)
      else if is_exp c then Some (Exp, stack) else endValue c stack
  | Exp =>
      if bool_decide (c ∈ ["+"; "-"]%char) then Some (ExpSign, stack)
      else if is_digit c then Some (ExpDigits, stack) else None
  | ExpSign => if is_digit c then Some (ExpDigits, stack) else None
  | ExpDigits => if is_digit c then Some (ExpDigits, stack) else endValue c stack
  | Literal [] => None
  | Literal [x] => if bool_decide (c = x) then Some (EndValue, stack) else None
  | Literal (x :: rest) => if bool_decide (c = x) then Some (Literal rest, stack) else None
  end.

Fixpoint scan (s : step) (stack : list frame) (data : bytes) : option (step * list frame) :=
  match data with
  | [] => Some (s, stack)
  | c :: data' => '(s', stack') ← scanStep s c stack; scan s' stack' data'
  end.

(** The end of the data acts as one more space. *)
Definition Valid (data : bytes) : bool :=
  match scan BeginValue [] (data ++ [" "%char]) with
  | Some (EndTop, _) => true
  | _ => false
  end.

(** The test documents write ['] for the double quote. *)
Definition unquote (s : string) : bytes :=
  (λ c, if bool_decide (c = "'"%char) then QUOTE else c) <$> bs s.

Example valid_object :
  Valid (unquote "{'a': [1, -2.5e+3, true, null, {}], 'b' : '\u00e9\n'} ") = true.
Proof. vm_compute. reflexivity. Qed.
Example valid_numbers : Valid (bs " [0, 10, -0.5, 1E9, [], {}] ") = true.
Proof. vm_compute. reflexivity. Qed.
Example invalid_numbers :
  (λ s, Valid (bs s)) <$> ["01"; "1."; "[1,]"; "{,}"; "tru"; "{}}"; EmptyString; "1 2"]%string
  = replicate 8 false.
Proof. vm_compute. reflexivity. Qed.
Example valid_empty_object : Valid (bs "{}") = true.
Proof. vm_compute. reflexivity. Qed.

End Json.
