(* ===== verification/GoPath.v ===== *)
(** The functions of Go's [path/filepath] and [io/fs] on Unix paths that the tools
    call: [Clean], [Join], [Dir], [IsAbs] and [fs.ValidPath]. *)
From stdpp Require Import base gmap sets list strings.
From Stdlib Require Import ZArith Lia Ascii.
From S2P Require Import Prelude GoBytes.

Definition path : Type := bytes.

Definition SLASH : ascii := "/"%char.
Definition DOT : bytes := bs ".".
Definition DOTDOT : bytes := bs "..".

Definition is_abs (p : path) : bool := has_prefix [SLASH] p.

(** One component of [Clean]'s scan; the stack has the innermost name first. *)
Definition clean_step (rooted : bool) (stack : list bytes) (c : bytes) : list bytes :=
  if decide (c = [] ∨ c = DOT) then stack
  else if decide (c = DOTDOT) then
    match stack with
    | top :: rest => if decide (top = DOTDOT) then DOTDOT :: stack else rest
    | [] => if rooted then [] else [DOTDOT]
    end
  else c :: stack.

Definition clean_stack (rooted : bool) (cs : list bytes) : list bytes :=
  foldl (clean_step rooted) [] cs.

Definition clean (p : path) : path :=
  let rooted := is_abs p in
  let names := rev (clean_stack rooted (split_byte SLASH p)) in
  let body := join [SLASH] names in
  if rooted then SLASH :: body
  else if decide (body = []) then DOT else body.

(** [filepath.Join]: empty elements are ignored. *)
Definition join_path (a c : path) : path :=
  match a, c with
  | [], [] => []
  | [], _ => clean c
  | _, [] => clean a
  | _, _ => clean (a ++ SLASH :: c)
  end.

(** [filepath.Dir]: the path up to its last slash, cleaned. *)
Definition dir (p : path) : path :=
  match last_index_byte SLASH p with
  | Some i => clean (take (S i) p)
  | None => DOT
  end.

(** [fs.ValidPath]. *)
Definition fs_valid_path (p : path) : bool :=
  utf8_valid p &&
  (bool_decide (p = DOT) ||
   bool_decide (Forall (λ c, c ≠ [] ∧ c ≠ DOT ∧ c ≠ DOTDOT) (split_byte SLASH p))).

(** A name that [Clean] keeps as it is. *)
Definition plain_name (c : bytes) : Prop := c ≠ [] ∧ c ≠ DOT ∧ c ≠ DOTDOT ∧ SLASH ∉ c.

(** The stacks the scan reaches: plain names above, when the path is relative,
    some [..]. *)
Inductive clean_form (rooted : bool) : list bytes → Prop :=
  | clean_form_up n : (rooted = true → n = 0) → clean_form rooted (replicate n DOTDOT)
  | clean_form_push c st : plain_name c → clean_form rooted st → clean_form rooted (c :: st).

Lemma clean_step_form rooted st c :
  clean_form rooted st → SLASH ∉ c → clean_form rooted (clean_step rooted st c).
Proof.
  intros Hst Hc. unfold clean_step. destruct (decide (c = [] ∨ c = DOT)) as [|Hn]; [done|].
  destruct (decide (c = DOTDOT)) as [->|Hd].
  - destruct Hst as [n Hr|x st Hx Hst].
    + destruct n as [|n]; simpl.
      * destruct rooted; [by apply (clean_form_up _ 0)|].
        by apply (clean_form_up _ 1).
      * apply (clean_form_up rooted (S (S n))).
        intros Ht. specialize (Hr Ht). done.
    + destruct (decide (x = DOTDOT)) as [->|]; [|done]. by destruct Hx as (_ & _ & ? & _).
  - constructor; [|done]. unfold plain_name. tauto.
Qed.

Lemma foldl_clean_form rooted cs st :
  clean_form rooted st → Forall (λ c, SLASH ∉ c) cs →
  clean_form rooted (foldl (clean_step rooted) st cs).
Proof.
  revert st. induction cs as [|c cs IH]; intros st Hst Hcs; [done|].
  apply Forall_cons in Hcs as [? ?]. simpl. apply IH; [|done]. by apply clean_step_form.
Qed.

Lemma clean_stack_form rooted p : clean_form rooted (clean_stack rooted (split_byte SLASH p)).
Proof.
  apply foldl_clean_form; [by apply (clean_form_up _ 0)|apply split_byte_sep_free].
Qed.

Lemma clean_form_sep_free rooted st : clean_form rooted st → Forall (λ c, SLASH ∉ c) st.
Proof.
  induction 1 as [n|c st Hc]; [|constructor; [by destruct Hc as (_ & _ & _ & ?)|done]].
  apply Forall_replicate. unfold DOTDOT, bs, SLASH. simpl. set_solver.
Qed.

Lemma clean_form_nonempty rooted st : clean_form rooted st → Forall (λ c, c ≠ []) st.
Proof.
  induction 1 as [n|c st Hc]; [|constructor; [by destruct Hc|done]].
  by apply Forall_replicate.
Qed.

Lemma foldl_up k n :
  foldl (clean_step false) (replicate k DOTDOT) (replicate n DOTDOT) = replicate (n + k) DOTDOT.
Proof.
  revert k. induction n as [|n IH]; intros k; [done|].
  change (foldl (clean_step false) (clean_step false (replicate k DOTDOT) DOTDOT)
    (replicate n DOTDOT) = replicate (S n + k) DOTDOT).
  replace (clean_step false (replicate k DOTDOT) DOTDOT) with (replicate (S k) DOTDOT)
    by (by destruct k).
  rewrite IH. f_equal. lia.
Qed.

(** Scanning the names of a clean stack builds it again. *)
Lemma clean_stack_rev rooted st : clean_form rooted st → clean_stack rooted (rev st) = st.
Proof.
  unfold clean_stack. induction 1 as [n Hr|c st Hc Hst IH].
  - rewrite rev_alt. change (rev_append ?l []) with (reverse l). rewrite reverse_replicate.
    destruct rooted; [by rewrite (Hr eq_refl)|].
    rewrite <- (Nat.add_0_r n) at 2. apply (foldl_up 0 n).
  - simpl. rewrite foldl_app, IH. simpl. unfold clean_step.
    destruct Hc as (? & ? & ? & _). rewrite !decide_False by naive_solver. done.
Qed.

Lemma clean_stack_skip rooted cs : clean_stack rooted ([] :: cs) = clean_stack rooted cs.
Proof. done. Qed.

Lemma is_abs_clean p : is_abs (clean p) = is_abs p.
Proof.
  unfold clean. destruct (is_abs p) eqn:E; [done|].
  destruct (decide _) as [|Hb]; [done|].
  pose proof (clean_stack_form false p) as Hf. set (st := clean_stack false _) in *.
  destruct (rev st) as [|c cs] eqn:Er; [done|].
  assert (c ∈ st) as Hc by (rewrite list_elem_of_In, in_rev, Er, <- list_elem_of_In; set_solver).
  pose proof (clean_form_sep_free _ _ Hf) as Hs. pose proof (clean_form_nonempty _ _ Hf) as Hn.
  rewrite Forall_forall in Hs, Hn. specialize (Hs _ Hc). specialize (Hn _ Hc).
  destruct c as [|a c]; [done|]. unfold is_abs.
  destruct cs; simpl; rewrite andb_true_r; apply bool_decide_eq_false_2; set_solver.
Qed.

(** [Clean] is idempotent. *)
Lemma clean_idempotent p : clean (clean p) = clean p.
Proof.
  pose proof (is_abs_clean p) as Habs.
  pose proof (clean_stack_form (is_abs p) p) as Hf.
  set (st := clean_stack _ _) in Hf.
  assert (∀ body, body = join [SLASH] (rev st) → st ≠ [] →
    clean_stack (is_abs p) (split_byte SLASH body) = st) as Hst.
  { intros body -> Hne. rewrite split_byte_join; [by apply clean_stack_rev| |].
    - intros E. apply Hne. by apply (f_equal (@rev _)) in E; rewrite rev_involutive in E.
    - apply Forall_rev. by eapply clean_form_sep_free. }
  unfold clean at 1. rewrite Habs. unfold clean. fold st.
  destruct (decide (st = [])) as [E|Hne].
  { rewrite E. simpl. by destruct (is_abs p). }
  destruct (is_abs p) eqn:Ea.
  - replace (split_byte SLASH (SLASH :: join [SLASH] (rev st)))
      with ([] :: split_byte SLASH (join [SLASH] (rev st))) by done.
    rewrite clean_stack_skip. by rewrite Hst.
  - destruct (decide (join [SLASH] (rev st) = [])) as [Hj|Hj].
    + exfalso. pose proof (clean_form_nonempty _ _ Hf) as Hn.
      destruct (rev st) as [|c cs] eqn:Er.
      { apply Hne. by apply (f_equal (@rev _)) in Er; rewrite rev_involutive in Er. }
      assert (c ≠ []) as Hc.
      { rewrite Forall_forall in Hn. apply Hn. rewrite list_elem_of_In, in_rev, Er, <- list_elem_of_In. set_solver. }
      destruct c; [done|]. destruct cs; done.
    + rewrite Hst by done. by rewrite decide_False.
Qed.

Lemma clean_join_path a c : a ≠ [] ∨ c ≠ [] → clean (join_path a c) = join_path a c.
Proof.
  unfold join_path. destruct a, c; intros [?|?]; try done; apply clean_idempotent.
Qed.

Lemma is_abs_join_path a c : is_abs a = true → is_abs (join_path a c) = true.
Proof.
  intros Ha. destruct a as [|x a]; [done|]. unfold is_abs in *. simpl in Ha.
  unfold join_path. destruct c; rewrite is_abs_clean; exact Ha.
Qed.

Lemma clean_ne p : clean p ≠ [].
Proof. unfold clean. destruct (is_abs p); [done|]. by case_decide. Qed.

Lemma join_path_ne a c : a ≠ [] ∨ c ≠ [] → join_path a c ≠ [].
Proof. unfold join_path. destruct a, c; intros [?|?]; try done; apply clean_ne. Qed.

Example clean_examples :
  clean (bs "/a/../../b//./c/") = bs "/b/c" ∧ clean (bs "a/../../b") = bs "../b" ∧
  clean [] = DOT ∧ dir (bs "/a/b") = bs "/a" ∧ dir (bs "b") = DOT.
Proof. by vm_compute. Qed.
