(* ===== verification/GoRegexp.v ===== *)
(** What the program uses of Go's package [regexp]: the syntax of the expressions
    that it builds, and whether a text matches one.  Texts are sequences of runes;
    [runes] decodes a byte string as the package does, an invalid byte being
    the replacement rune. *)
From stdpp Require Import base gmap sets list strings.
From Stdlib Require Import ZArith Lia Ascii.
From S2P Require Import Prelude GoBytes.

Module GoRegexp.

Abbreviation text := (list N).

(** ** Decoding a string *)

Definition RuneError : N := 65533.
Definition low (n : N) (a : ascii) : N := N.land (N_of_ascii a) (N.ones n).

(** [utf8.DecodeRune], and the bytes it leaves. *)
Definition decodeRune (a : ascii) (s : bytes) : N * bytes :=
  if in_range 0 127 a then (N_of_ascii a, s)
  else match s with
  | b1 :: s1 =>
      if in_range 194 223 a && cont_byte b1 then (N.shiftl (low 5 a) 6 + low 6 b1, s1)%N
      else match s1 with
      | b2 :: s2 =>
          if valid3 a b1 b2
          then (N.shiftl (low 4 a) 12 + N.shiftl (low 6 b1) 6 + low 6 b2, s2)%N
          else match s2 with
          | b3 :: s3 =>
              if valid4 a b1 b2 b3
              then (N.shiftl (low 3 a) 18 + N.shiftl (low 6 b1) 12 + N.shiftl (low 6 b2) 6 + low 6 b3, s3)%N
              else (RuneError, s)
          | [] => (RuneError, s)
          end
      | [] => (RuneError, s)
      end
  | [] => (RuneError, s)
  end.

Fixpoint runes_fuel (fuel : nat) (s : bytes) : text :=
  match fuel, s with
  | S fuel, a :: s => let '(r, s) := decodeRune a s in r :: runes_fuel fuel s
  | _, _ => []
  end.
Definition runes (s : bytes) : text := runes_fuel (length s) s.

(** The runes of a string constant in ASCII. *)
Definition rs (s : string) : text := N_of_ascii <$> bs s.

(** ** Quoting *)

Definition special (r : N) : bool := bool_decide (r ∈ rs "\.+*?()|[]{}^$").

Definition QuoteMeta (t : text) : text :=
  t ≫= λ r, if special r then [92%N; r] else [r].

(** ** Expressions *)

Inductive regex :=
  | Empty
  | OneOf (accepts : N → bool)
  | Cat (r s : regex)
  | Alt (r s : regex)
  | Star (r : regex).

Definition Opt (r : regex) : regex := Alt r Empty.
Definition Literal (c : N) : regex := OneOf (N.eqb c).
Definition AnyNotNL : regex := OneOf (λ r, negb (r =? 10)%N).

(** *** Classes *)

Definition isalnum (r : N) : bool :=
  ((48 <=? r) && (r <=? 57) || (65 <=? r) && (r <=? 90) || (97 <=? r) && (r <=? 122))%N.

Definition starts (c : N) (t : text) : bool := bool_decide (head t = Some c).

(** An escape of punctuation. *)
Definition escaped (t : text) : outcome (N * text) :=
  match t with
  | [] => Err ErrValidationFailed
  | c :: t => if (c <? 128)%N && negb (isalnum c) then Ok (c, t) else Panic
  end.

(** [parseClassChar] *)
Definition classChar (t : text) : outcome (N * text) :=
  match t with
  | [] => Err ErrValidationFailed
  | c :: t => if (c =? 92)%N then escaped t else Ok (c, t)
  end.

Definition inRange (lo hi : N) (r : N) : bool := ((lo <=? r) && (r <=? hi))%N.

(** The members of a class up to its closing bracket. *)
Fixpoint classItems (fuel : nat) (first : bool) (t : text) : outcome (list (N * N) * text) :=
  match fuel with
  | O => OutOfFuel
  | S fuel =>
      if negb first && starts 93 t then Ok ([], tail t)
      else if bool_decide (take 2 t = rs "[:") then Panic
      else
        '(lo, t) ← classChar t;
        if starts 45 t && negb (starts 93 (tail t)) && (2 <=? length t)
        then
          '(hi, t) ← classChar (tail t);
          if (hi <? lo)%N then Err ErrValidationFailed
          else '(items, t) ← classItems fuel false t; Ok ((lo, hi) :: items, t)
        else '(items, t) ← classItems fuel false t; Ok ((lo, lo) :: items, t)
  end.

Definition inItems (items : list (N * N)) (r : N) : bool :=
  existsb (λ '(lo, hi), inRange lo hi r) items.

(** *** Parsing *)

(** [Panic] stands for syntax that the program never builds. *)
Definition regexpClass (t : text) : outcome (regex * text) :=
  if starts 94 t
  then '(items, t) ← classItems (length t) true (tail t);
       Ok (OneOf (λ r, negb (inItems items r)), t)
  else '(items, t) ← classItems (S (length t)) true t; Ok (OneOf (inItems items), t).

Definition regexpGroup (alternatives : text → outcome (regex * text)) (t : text)
    : outcome (regex * text) :=
  if bool_decide (take 2 t = rs "?:") then
    '(r, t) ← alternatives (drop 2 t);
    if starts 41 t then Ok (r, tail t) else Err ErrValidationFailed
  else Panic.

Definition regexpAtom (alternatives : text → outcome (regex * text)) (t : text)
    : outcome (regex * text) :=
  match t with
  | [] => Panic
  | c :: t =>
      if (c =? 46)%N then Ok (AnyNotNL, t)
      else if (c =? 92)%N then '(c, t) ← escaped t; Ok (Literal c, t)
      else if (c =? 91)%N then regexpClass t
      else if (c =? 40)%N then regexpGroup alternatives t
      else if special c then Panic else Ok (Literal c, t)
  end.

Definition repeated (r : regex) (t : text) : regex * text :=
  if starts 42 t then (Star r, tail t)
  else if starts 63 t then (Opt r, tail t) else (r, t).

Fixpoint regexpAlternatives (fuel : nat) (concat : text → outcome (regex * text)) (t : text)
    : outcome (regex * text) :=
  match fuel with
  | O => OutOfFuel
  | S fuel =>
      '(r, t) ← concat t;
      if starts 124 t
      then '(s, t) ← regexpAlternatives fuel concat (tail t); Ok (Alt r s, t)
      else Ok (r, t)
  end.

(** Where a concatenation ends: at a bar, a closing parenthesis, the end. *)
Definition atEnd (t : text) : bool :=
  match t with
  | [] => true
  | c :: _ => (c =? 124)%N || (c =? 41)%N || (c =? 36)%N
  end.

Fixpoint regexpConcat (fuel : nat) (t : text) : outcome (regex * text) :=
  match fuel with
  | O => OutOfFuel
  | S fuel =>
      if atEnd t then Ok (Empty, t)
      else
        '(r, t) ← regexpAtom (regexpAlternatives fuel (regexpConcat fuel)) t;
        let '(r, t) := repeated r t in
        '(s, t) ← regexpConcat fuel t;
        Ok (Cat r s, t)
  end.

(** An expression anchored at both ends. *)
Definition regexpParse (t : text) : outcome regex :=
  if starts 94 t then
    '(r, t) ← regexpAlternatives (length t) (regexpConcat (length t)) (tail t);
    if bool_decide (t = [36%N]) then Ok r else Panic
  else Panic.

(** ** Matching *)

Fixpoint accepting (r : regex) : bool :=
  match r with
  | Empty | Star _ => true
  | OneOf _ => false
  | Cat r s => accepting r && accepting s
  | Alt r s => accepting r || accepting s
  end.

(** [None] matches no text. *)
Definition cat' (r : option regex) (s : regex) : option regex := (λ r, Cat r s) <$> r.
Definition alt' (r s : option regex) : option regex :=
  match r, s with
  | Some r, Some s => Some (Alt r s)
  | Some r, None => Some r
  | None, s => s
  end.

Fixpoint derivative (c : N) (r : regex) : option regex :=
  match r with
  | Empty => None
  | OneOf accepts => if accepts c then Some Empty else None
  | Cat r s =>
      if accepting r then alt' (cat' (derivative c r) s) (derivative c s)
      else cat' (derivative c r) s
  | Alt r s => alt' (derivative c r) (derivative c s)
  | Star r => cat' (derivative c r) (Star r)
  end.

Fixpoint matches (r : regex) (t : text) : bool :=
  match t with
  | [] => accepting r
  | c :: t => match derivative c r with Some r => matches r t | None => false end
  end.

(** The language of an expression. *)
Inductive In : regex → text → Prop :=
  | In_Empty : In Empty []
  | In_OneOf accepts c : accepts c = true → In (OneOf accepts) [c]
  | In_Cat r s t u : In r t → In s u → In (Cat r s) (t ++ u)
  | In_AltL r s t : In r t → In (Alt r s) t
  | In_AltR r s t : In s t → In (Alt r s) t
  | In_StarNil r : In (Star r) []
  | In_StarCons r t u : In r t → In (Star r) u → In (Star r) (t ++ u).
Create HintDb regexp.
#[export] Hint Constructors In : regexp.

Definition optIn (r : option regex) (t : text) : Prop :=
  match r with Some r => In r t | None => False end.

Lemma accepting_In r : accepting r = true ↔ In r [].
Proof.
  induction r as [|f|r IHr s IHs|r IHr s IHs|r IHr]; simpl.
  - split; auto with regexp.
  - split; [done|]. by inversion 1.
  - rewrite andb_true_iff, IHr, IHs. split.
    + intros []. by apply (In_Cat r s [] []).
    + inversion 1 as [| |r' s' t u Ht Hu E1 E| | | |]; subst.
      by apply app_nil in E as [-> ->].
  - rewrite orb_true_iff, IHr, IHs. split; [intros []; auto with regexp|]. inversion 1; auto.
  - split; auto with regexp.
Qed.

Lemma cat'_In r s t : optIn (cat' r s) t ↔ ∃ u v, t = u ++ v ∧ optIn r u ∧ In s v.
Proof.
  destruct r as [r|]; simpl; [|naive_solver]. split.
  - inversion 1; subst. eauto.
  - intros (u & v & -> & ? & ?). auto with regexp.
Qed.

Lemma alt'_In r s t : optIn (alt' r s) t ↔ optIn r t ∨ optIn s t.
Proof.
  destruct r as [r|], s as [s|]; simpl; try naive_solver. split.
  - inversion 1; auto.
  - intros []; auto with regexp.
Qed.

Lemma star_cons r c t : In (Star r) (c :: t) ↔ ∃ u v, t = u ++ v ∧ In r (c :: u) ∧ In (Star r) v.
Proof.
  split.
  - remember (Star r) as e. remember (c :: t) as w. intros H. revert c t Heqw.
    induction H as [| | | | | |r' u v Hu _ Hv IH]; intros x w E; try discriminate.
    injection Heqe as ->. destruct u as [|y u]; simpl in E; [by apply IH|].
    injection E as -> <-. eauto.
  - intros (u & v & -> & ? & ?). by apply (In_StarCons r (c :: u) v).
Qed.

Lemma derivative_In c r t : optIn (derivative c r) t ↔ In r (c :: t).
Proof.
  revert t. induction r as [|f|r IHr s IHs|r IHr s IHs|r IHr]; intros t; cbn [derivative].
  - split; [done|]. by inversion 1.
  - destruct (f c) eqn:E; simpl; split.
    + inversion 1; subst. by constructor.
    + inversion 1; subst. constructor.
    + done.
    + inversion 1; congruence.
  - assert (In (Cat r s) (c :: t) ↔
      (∃ u v, t = u ++ v ∧ In r (c :: u) ∧ In s v) ∨ (In r [] ∧ In s (c :: t))) as ->.
    { split.
      - inversion 1 as [| |r' s' u v Hu Hv E1 E| | | |]; subst.
        destruct u as [|c' u]; simpl in E; [subst; auto|]. injection E as -> <-. eauto 10.
      - intros [(u & v & -> & ? & ?)|[? ?]].
        + by apply (In_Cat r s (c :: u) v).
        + by apply (In_Cat r s [] (c :: t)). }
    destruct (accepting r) eqn:Ha.
    + apply accepting_In in Ha. rewrite alt'_In, cat'_In, IHs. setoid_rewrite IHr. naive_solver.
    + rewrite cat'_In. setoid_rewrite IHr. split; [naive_solver|].
      intros [?|[Hn _]]; [done|]. apply accepting_In in Hn. congruence.
  - rewrite alt'_In, IHr, IHs. split; [intros []; auto with regexp|]. inversion 1; auto.
  - rewrite cat'_In, star_cons. by setoid_rewrite IHr.
Qed.

(** Matching decides the language. *)
Lemma matches_In r t : matches r t = true ↔ In r t.
Proof.
  revert r. induction t as [|c t IH]; intros r; simpl; [apply accepting_In|].
  rewrite <-derivative_In. destruct (derivative c r); simpl; [apply IH|naive_solver].
Qed.

Lemma In_Cat_iff r s t : In (Cat r s) t ↔ ∃ u v, t = u ++ v ∧ In r u ∧ In s v.
Proof. split; [inversion 1; eauto|]. intros (u & v & -> & ? & ?). auto with regexp. Qed.
Lemma In_Alt_iff r s t : In (Alt r s) t ↔ In r t ∨ In s t.
Proof. split; [inversion 1; auto|]. intros []; auto with regexp. Qed.
Lemma In_Empty_iff t : In Empty t ↔ t = [].
Proof. split; [by inversion 1|]. intros ->. constructor. Qed.
Lemma In_OneOf_iff f t : In (OneOf f) t ↔ ∃ c, t = [c] ∧ f c = true.
Proof. split; [inversion 1; eauto|]. intros (c & -> & ?). by constructor. Qed.
Lemma In_Literal c t : In (Literal c) t ↔ t = [c].
Proof.
  unfold Literal. rewrite In_OneOf_iff. setoid_rewrite N.eqb_eq. naive_solver.
Qed.
Lemma In_Star_OneOf f t : In (Star (OneOf f)) t ↔ Forall (λ c, f c = true) t.
Proof.
  induction t as [|c t IH]; [split; auto with regexp|]. rewrite star_cons, Forall_cons, <-IH.
  setoid_rewrite In_OneOf_iff. split.
  - intros (u & v & -> & (c' & E & ?) & ?). injection E as -> ->. done.
  - intros [? ?]. exists [], t. eauto.
Qed.

(** ** Fuel *)

(** A reader that leaves at least [n] runes less than it was given. *)
Definition shrinks {A} (n : nat) (o : outcome (A * text)) (t : text) : Prop :=
  ∀ a t', o = Ok (a, t') → length t' + n ≤ length t.

Lemma shrinks_bind {A B} n k (o : outcome (A * text)) (f : A → text → outcome (B * text)) t u :
  shrinks n o t → (∀ a t', length t' + n ≤ length t → shrinks k (f a t') u) →
  shrinks k ('(a, t) ← o; f a t) u.
Proof. intros Ho Hf b t' ([a t1] & E & E')%bind_Ok_inv. apply Ho in E. by eapply Hf. Qed.

Lemma shrinks_Ok {A} n (a : A) t u : length t + n ≤ length u → shrinks n (Ok (a, t)) u.
Proof. intros H ?? [= _ <-]. done. Qed.

Lemma length_tail_le (t : text) : length (tail t) ≤ length t.
Proof. destruct t; simpl; lia. Qed.

Lemma length_starts c t : starts c t = true → length t = S (length (tail t)).
Proof. unfold starts. rewrite bool_decide_eq_true. by destruct t. Qed.

Lemma escaped_shrinks t : shrinks 1 (escaped t) t.
Proof. destruct t as [|c t]; [done|]. simpl. case_match; [|done]. apply shrinks_Ok. simpl. lia. Qed.

Lemma classChar_shrinks t : shrinks 1 (classChar t) t.
Proof.
  destruct t as [|c t]; [done|]. simpl. case_match; [|apply shrinks_Ok; simpl; lia].
  intros a t' Hl%escaped_shrinks. simpl. lia.
Qed.

Lemma classItems_shrinks fuel first t : shrinks 1 (classItems fuel first t) t.
Proof.
  revert first t. induction fuel as [|fuel IH]; intros first t; [done|]. cbn [classItems].
  destruct (negb first && starts 93 t) eqn:Hd.
  { apply andb_true_iff in Hd as [_ Hd%length_starts]. apply shrinks_Ok. lia. }
  destruct (bool_decide (take 2 t = rs "[:")); [done|].
  eapply shrinks_bind; [apply classChar_shrinks|]. intros lo t1 H1.
  pose proof (length_tail_le t1). destruct (_ && _ && _).
  - eapply shrinks_bind; [apply classChar_shrinks|]. intros hi t2 H2. destruct (hi <? lo)%N; [done|].
    eapply shrinks_bind; [apply IH|]. intros l t3 H3. apply shrinks_Ok. lia.
  - eapply shrinks_bind; [apply IH|]. intros l t3 H3. apply shrinks_Ok. lia.
Qed.

Lemma regexpClass_shrinks t : shrinks 1 (regexpClass t) t.
Proof.
  unfold regexpClass. pose proof (length_tail_le t).
  destruct (starts 94 t); eapply shrinks_bind; try apply classItems_shrinks;
    intros l t' Hl; apply shrinks_Ok; lia.
Qed.

Lemma repeated_length r t : length (repeated r t).2 ≤ length t.
Proof. unfold repeated. pose proof (length_tail_le t). repeat case_match; done. Qed.

(** Two readers that agree on shorter texts. *)
Definition agree (n : nat) (f g : text → outcome (regex * text)) : Prop :=
  ∀ t, length t < n → f t = g t ∧ shrinks 0 (f t) t.

Lemma atom_agree n f g : agree n f g → ∀ t, length t ≤ n →
  regexpAtom f t = regexpAtom g t ∧ shrinks 1 (regexpAtom f t) t.
Proof.
  intros Hfg t Hn. destruct t as [|c t]; [done|]. simpl in *.
  destruct (c =? 46)%N; [split; [done|apply shrinks_Ok; simpl; lia]|].
  destruct (c =? 92)%N.
  { split; [done|]. eapply shrinks_bind; [apply escaped_shrinks|]. intros.
    apply shrinks_Ok. simpl. lia. }
  destruct (c =? 91)%N.
  { split; [done|]. intros r t' Hl%regexpClass_shrinks. simpl. lia. }
  destruct (c =? 40)%N.
  - unfold regexpGroup. case_bool_decide; [|done].
    destruct (Hfg (drop 2 t)) as [-> Hs]; [rewrite length_drop; lia|]. split; [done|].
    eapply shrinks_bind; [apply Hs|]. intros r t' Hl.
    rewrite length_drop in Hl. pose proof (length_tail_le t').
    destruct (starts 41 t'); [|done]. apply shrinks_Ok. simpl. lia.
  - destruct (special c); [done|]. split; [done|]. apply shrinks_Ok. simpl. lia.
Qed.

Lemma alternatives_agree n f g : agree n f g → ∀ fuel fuel' t,
  length t < n → length t < fuel → length t < fuel' →
  regexpAlternatives fuel f t = regexpAlternatives fuel' g t ∧
  shrinks 0 (regexpAlternatives fuel f t) t.
Proof.
  intros Hfg fuel. induction fuel as [|fuel IH]; intros fuel' t Hn Hf Hf'; [lia|].
  destruct fuel' as [|fuel']; [lia|]. cbn [regexpAlternatives].
  destruct (Hfg t Hn) as [Eq Hs]. rewrite <-Eq. destruct (f t) as [[r t1]| | |] eqn:E; simpl; try done.
  pose proof (Hs _ _ eq_refl). destruct (starts 124 t1) eqn:Hb; [|split; [done|apply shrinks_Ok; lia]].
  apply length_starts in Hb. destruct (IH fuel' (tail t1)) as [<- Hs']; [lia..|].
  split; [done|]. eapply shrinks_bind; [apply Hs'|]. intros s t' Hl. apply shrinks_Ok. lia.
Qed.

Lemma concat_agree n : ∀ fuel fuel', n ≤ fuel → n ≤ fuel' →
  agree n (regexpConcat fuel) (regexpConcat fuel').
Proof.
  induction n as [|n IH]; intros fuel fuel' Hf Hf' t Ht; [lia|].
  destruct fuel as [|fuel]; [lia|]. destruct fuel' as [|fuel']; [lia|]. cbn [regexpConcat].
  destruct (atEnd t) eqn:He; [split; [done|apply shrinks_Ok; lia]|].
  assert (agree n (regexpAlternatives fuel (regexpConcat fuel))
                  (regexpAlternatives fuel' (regexpConcat fuel'))) as Halt.
  { intros u Hu. eapply alternatives_agree; [by apply IH; lia|lia..]. }
  destruct (atom_agree _ _ _ Halt t) as [<- Hs]; [lia|].
  destruct (regexpAtom _ t) as [[r t1]| | |] eqn:E; simpl; try done.
  pose proof (Hs _ _ eq_refl). pose proof (repeated_length r t1).
  destruct (repeated r t1) as [r' t2]. simpl in *.
  destruct (IH fuel fuel' ltac:(lia) ltac:(lia) t2) as [<- Hs2]; [lia|]. split; [done|].
  eapply shrinks_bind; [apply Hs2|]. intros s t3 Hl. apply shrinks_Ok. lia.
Qed.

(** The readers with enough fuel, and their equations. *)
Definition concat_ (t : text) : outcome (regex * text) := regexpConcat (S (length t)) t.
Definition alternatives_ (t : text) : outcome (regex * text) :=
  regexpAlternatives (S (length t)) (regexpConcat (S (length t))) t.

Lemma concat_enough fuel t : length t < fuel → regexpConcat fuel t = concat_ t.
Proof. intros. by apply (concat_agree (S (length t))); lia. Qed.

Lemma alternatives_enough fuel fuel' t :
  length t < fuel → length t < fuel' → regexpAlternatives fuel (regexpConcat fuel') t = alternatives_ t.
Proof.
  intros. apply (alternatives_agree (S (length t))); try lia. apply concat_agree; lia.
Qed.

Lemma concat_shrinks t : shrinks 0 (concat_ t) t.
Proof. apply (concat_agree (S (length t)) (S (length t)) (S (length t))); lia. Qed.

Lemma concat_eq t :
  concat_ t = if atEnd t then Ok (Empty, t)
              else '(r, t) ← regexpAtom alternatives_ t;
                   let '(r, t) := repeated r t in
                   '(s, t) ← concat_ t; Ok (Cat r s, t).
Proof.
  unfold concat_ at 1. cbn [regexpConcat]. destruct (atEnd t); [done|].
  assert (agree (length t) (regexpAlternatives (length t) (regexpConcat (length t))) alternatives_) as Halt.
  { intros u Hu. unfold alternatives_. apply (alternatives_agree (S (length u))); try lia.
    apply concat_agree; lia. }
  destruct (atom_agree _ _ _ Halt t) as [<- Hs]; [lia|].
  destruct (regexpAtom _ t) as [[r t1]| | |] eqn:E; simpl; try done.
  pose proof (Hs _ _ eq_refl). pose proof (repeated_length r t1).
  destruct (repeated r t1) as [r' t2]. simpl in *. by rewrite concat_enough by lia.
Qed.

Lemma alternatives_eq t :
  alternatives_ t = '(r, t) ← concat_ t;
    if starts 124 t then '(s, t) ← alternatives_ (tail t); Ok (Alt r s, t) else Ok (r, t).
Proof.
  unfold alternatives_ at 1. set (f := regexpConcat _). cbn [regexpAlternatives].
  change (f t) with (concat_ t). destruct (concat_ t) as [[r t1]| | |] eqn:E; simpl; try done.
  apply concat_shrinks in E. destruct (starts 124 t1) eqn:Hb; [|done]. apply length_starts in Hb.
  subst f. by rewrite alternatives_enough by lia.
Qed.

End GoRegexp.
