(* ===== verification/PathGlob.v ===== *)
(** The glob patterns of hook matchers and scoped rules
    (src/internal/pkg/pathglob/pathglob.go): a pattern is translated into an anchored
    regular expression.  Against it, the syntax and the meaning of patterns as the
    package documents them. *)
From stdpp Require Import base gmap sets list strings.
From Stdlib Require Import ZArith Lia Ascii.
From S2P Require Import Prelude GoBytes GoRegexp.

Module PathGlob.
Import GoRegexp.
Local Open Scope char_scope.

Definition separator : ascii := "/".
Definition anySegments : text := rs "(?:.*/)?".
Definition anyText : text := rs ".*".
Definition anyInSegment : text := rs "[^/]*".
Definition oneInSegment : text := rs "[^/]".
Definition expressionStart : text := rs "^".
Definition expressionEnd : text := rs "$".
Definition groupStart : text := rs "(?:".
Definition groupEnd : text := rs ")".
Definition alternative : text := rs "|".
Definition classStart : text := rs "[".
Definition classNegatedStart : text := rs "[^/".
Definition classEnd : text := rs "]".

(** [string(character)] of a byte: the rune with its number. *)
Definition runeOf (character : ascii) : text := [N_of_ascii character].

Definition isSegmentStart (previous : ascii) : bool :=
  bool_decide (previous = separator) || bool_decide (previous = "{") ||
  bool_decide (previous = ",").

Definition star (pattern : bytes) (index : nat) : text * nat :=
  if negb (bool_decide (pattern !! (index + 1) = Some "*")) then (anyInSegment, index + 1)
  else
    let startsSegment :=
      (index =? 0)%nat || from_option isSegmentStart false (pattern !! (index - 1)) in
    let endsSegment := bool_decide (pattern !! (index + 2) = Some separator) in
    if startsSegment && endsSegment then (anySegments, index + 3) else (anyText, index + 2).

(** A hyphen stays a range operator. *)
Definition classMember (character : ascii) : text :=
  if bool_decide (character ∈ ["\"; "]"; "["; "^"]) then 92%N :: runeOf character
  else runeOf character.

Fixpoint classMembers (fuel : nat) (pattern : bytes) (index : nat) (first : bool)
    : outcome (text * nat) :=
  match fuel with
  | O => OutOfFuel
  | S fuel =>
      match pattern !! index with
      | None => Err ErrValidationFailed
      | Some character =>
          if bool_decide (character = "]") && negb first then Ok ([], index + 1)
          else
            let '(character, index) :=
              match pattern !! (index + 1) with
              | Some next => if bool_decide (character = "\") then (next, index + 1)
                             else (character, index)
              | None => (character, index)
              end in
            '(members, index) ← classMembers fuel pattern (index + 1) false;
            Ok (classMember character ++ members, index)
      end
  end.

Definition class (pattern : bytes) (index : nat) : outcome (text * nat) :=
  let index := index + 1 in
  let '(opening, index) :=
    match pattern !! index with
    | Some character =>
        if bool_decide (character = "!") || bool_decide (character = "^")
        then (classNegatedStart, index + 1) else (classStart, index)
    | None => (classStart, index)
    end in
  '(members, index) ← classMembers (S (length pattern)) pattern index true;
  Ok (opening ++ members ++ classEnd, index).

(** [strings.Join] *)
Fixpoint joined (between : text) (parts : list text) : text :=
  match parts with
  | [] => []
  | [part] => part
  | part :: parts => part ++ between ++ joined between parts
  end.

Fixpoint alternatives (fuel : nat) (sequence : bool → nat → outcome (text * nat))
    (pattern : bytes) (index : nat) : outcome (list text * nat) :=
  match fuel with
  | O => OutOfFuel
  | S fuel =>
      '(expression, index) ← sequence true index;
      match pattern !! index with
      | None => Panic
      | Some closing =>
          if bool_decide (closing = "}") then Ok ([expression], index + 1)
          else '(rest, index) ← alternatives fuel sequence pattern (index + 1);
               Ok (expression :: rest, index)
      end
  end.

Definition group (sequence : bool → nat → outcome (text * nat)) (pattern : bytes) (index : nat)
    : outcome (text * nat) :=
  '(parts, index) ← alternatives (S (length pattern)) sequence pattern (index + 1);
  match parts with
  | [part] => Ok (QuoteMeta (rs "{") ++ part ++ QuoteMeta (rs "}"), index)
  | _ => Ok (groupStart ++ joined alternative parts ++ groupEnd, index)
  end.

Definition element (sequence : bool → nat → outcome (text * nat)) (pattern : bytes) (index : nat)
    : outcome (text * nat) :=
  match pattern !! index with
  | None => Panic
  | Some character =>
      if bool_decide (character = "*") then Ok (star pattern index)
      else if bool_decide (character = "?") then Ok (oneInSegment, index + 1)
      else if bool_decide (character = "[") then class pattern index
      else if bool_decide (character = "{") then group sequence pattern index
      else if bool_decide (character = "\")
      then match pattern !! (index + 1) with
           | None => Err ErrValidationFailed
           | Some next => Ok (QuoteMeta (runeOf next), index + 2)
           end
      else Ok (QuoteMeta (runeOf character), index + 1)
  end.

Definition endsAlternative (character : ascii) : bool :=
  bool_decide (character = ",") || bool_decide (character = "}").

Fixpoint sequence (fuel : nat) (pattern : bytes) (inGroup : bool) (index : nat)
    : outcome (text * nat) :=
  match fuel with
  | O => OutOfFuel
  | S fuel =>
      match pattern !! index with
      | None => if inGroup then Err ErrValidationFailed else Ok ([], index)
      | Some character =>
          if inGroup && endsAlternative character then Ok ([], index)
          else
            '(part, index) ← element (sequence fuel pattern) pattern index;
            '(expression, index) ← sequence fuel pattern inGroup index;
            Ok (part ++ expression, index)
      end
  end.

(** [tooLarge] is the size and depth limit of package [regexp]. *)
Definition Compile (tooLarge : text → bool) (pattern : bytes) : outcome regex :=
  '(body, _) ← sequence (S (length pattern)) pattern false 0;
  let expression := expressionStart ++ body ++ expressionEnd in
  if tooLarge expression then Err ErrValidationFailed else regexpParse expression.

Definition Validate (tooLarge : text → bool) (pattern : bytes) : outcome unit :=
  _ ← Compile tooLarge pattern; Ok tt.

(** [path] is slash-separated; the package matches its runes. *)
Definition Match (tooLarge : text → bool) (pattern path : bytes) : bool :=
  match Compile tooLarge pattern with
  | Ok expression => matches expression (runes path)
  | _ => false
  end.

(** ** The documented syntax *)

Inductive glob :=
  | Char (c : N)
  | AnyInSegment
  | OneInSegment
  | AnyDirectories
  | AnyText
  | Class (negated : bool) (items : list (N * N))
  | Either (parts : list (list glob)).

Definition isASCII (c : ascii) : Prop := (N_of_ascii c < 128)%N.

Section syntax.
Variable p : bytes.

(** A member of a bracket expression, from one position to another. *)
Inductive ClassChar : bool → nat → N → nat → Prop :=
  | ClassPlain first i c :
      p !! i = Some c → c ≠ "\" → (first = false → c ≠ "]") → isASCII c →
      ClassChar first i (N_of_ascii c) (i + 1)
  | ClassEscaped first i c :
      p !! i = Some "\" → p !! (i + 1) = Some c → c ≠ "-" → isASCII c →
      ClassChar first i (N_of_ascii c) (i + 2).

Inductive ClassItems : bool → nat → list (N * N) → nat → Prop :=
  | ClassDone i : p !! i = Some "]" → ClassItems false i [] (i + 1)
  | ClassRange first i lo j hi k items m :
      ClassChar first i lo j → p !! j = Some "-" → p !! (j + 1) ≠ Some "]" →
      ClassChar false (j + 1) hi k → (lo ≤ hi)%N →
      ClassItems false k items m → ClassItems first i ((lo, hi) :: items) m
  | ClassSingle first i c j items m :
      ClassChar first i c j → (p !! j = Some "-" → p !! (j + 1) = Some "]") →
      ClassItems false j items m → ClassItems first i ((c, c) :: items) m.

(** Where a pattern stands: at the start of a segment of the paths, inside of one, or
    at a place that is one or the other by the alternative that is taken. *)
Inductive context := AtStart | Inside | Unclear.
Definition after (c : ascii) : context := if bool_decide (c = "/") then AtStart else Inside.
(** The start of an alternative. *)
Definition within (ctx : context) : context :=
  match ctx with AtStart => AtStart | _ => Unclear end.

(** Where a [**] that is not a whole segment before a separator is read as any text. Left
    out of the documented syntax are a [**] before a separator where a segment may
    or may not begin, or, inside of a segment, right after a brace or a comma; and
    one where a segment may begin that ends an alternative. *)
Definition anyTextAt (inGroup : bool) (ctx : context) (i : nat) : Prop :=
  match ctx with
  | Inside => p !! (i + 2) = Some "/" → 0 < i ∧ ∀ c, p !! (i - 1) = Some c → c ∉ ["/"; "{"; ","]
  | _ => p !! (i + 2) ≠ Some "/" ∧
         (inGroup = true → ∀ c, p !! (i + 2) = Some c → c ∉ [","; "}"])
  end.

(** [Reads inGroup ctx i l j]: the pattern reads as [l] from position [i], which stands
    as [ctx] says, to [j], the end of the pattern or of an alternative.  Left out of
    the documented syntax are bytes beyond ASCII, an escaped hyphen in brackets, a
    hyphen right after the negation, brackets that list the separator, and a brace
    group with no comma that holds anything but characters. *)
Inductive Reads : bool → context → nat → list glob → nat → Prop :=
  | ReadEnd ctx i : p !! i = None → Reads false ctx i [] i
  | ReadStop ctx i c : p !! i = Some c → c ∈ [","; "}"] → Reads true ctx i [] i
  | ReadMore inGroup ctx i l ctx' j l' k :
      Element inGroup ctx i l ctx' j → Reads inGroup ctx' j l' k →
      Reads inGroup ctx i (l ++ l') k
with Element : bool → context → nat → list glob → context → nat → Prop :=
  | ReadChar inGroup ctx i c :
      p !! i = Some c → c ∉ ["*"; "?"; "["; "{"; "\"] → (inGroup = true → c ∉ [","; "}"]) →
      isASCII c → Element inGroup ctx i [Char (N_of_ascii c)] (after c) (i + 1)
  | ReadEscape inGroup ctx i c :
      p !! i = Some "\" → p !! (i + 1) = Some c → isASCII c →
      Element inGroup ctx i [Char (N_of_ascii c)] (after c) (i + 2)
  | ReadOne inGroup ctx i : p !! i = Some "?" → Element inGroup ctx i [OneInSegment] Inside (i + 1)
  | ReadStar inGroup ctx i :
      p !! i = Some "*" → p !! (i + 1) ≠ Some "*" →
      Element inGroup ctx i [AnyInSegment] Inside (i + 1)
  | ReadDirectories inGroup i :
      p !! i = Some "*" → p !! (i + 1) = Some "*" → p !! (i + 2) = Some "/" →
      Element inGroup AtStart i [AnyDirectories] AtStart (i + 3)
  | ReadText inGroup ctx i :
      p !! i = Some "*" → p !! (i + 1) = Some "*" → anyTextAt inGroup ctx i →
      Element inGroup ctx i [AnyText] Inside (i + 2)
  | ReadClass inGroup ctx i items j :
      p !! i = Some "[" → (∀ c, p !! (i + 1) = Some c → c ∉ ["!"; "^"]) →
      ClassItems true (i + 1) items j → inItems items 47 = false →
      Element inGroup ctx i [Class false items] Inside j
  | ReadNegated inGroup ctx i c items j :
      p !! i = Some "[" → p !! (i + 1) = Some c → c ∈ ["!"; "^"] → p !! (i + 2) ≠ Some "-" →
      ClassItems true (i + 2) items j → Element inGroup ctx i [Class true items] Inside j
  | ReadLiteral inGroup ctx i l j :
      p !! i = Some "{" → Reads true Inside (i + 1) l j → p !! j = Some "}" →
      Forall (λ g, ∃ c, g = Char c) l →
      Element inGroup ctx i (Char 123 :: l ++ [Char 125]) Inside (j + 1)
  | ReadEither inGroup ctx i parts j :
      p !! i = Some "{" → Alternatives (within ctx) (i + 1) parts j → 2 ≤ length parts →
      Element inGroup ctx i [Either parts] Unclear j
with Alternatives : context → nat → list (list glob) → nat → Prop :=
  | ReadLast ctx i l j :
      Reads true ctx i l j → p !! j = Some "}" → Alternatives ctx i [l] (j + 1)
  | ReadNext ctx i l j parts k :
      Reads true ctx i l j → p !! j = Some "," → Alternatives ctx (j + 1) parts k →
      Alternatives ctx i (l :: parts) k.
End syntax.

(** ** The documented meaning *)

Inductive Globs : list glob → text → Prop :=
  | GlobsNil : Globs [] []
  | GlobsCons g l t u : Glob g t → Globs l u → Globs (g :: l) (t ++ u)
with Glob : glob → text → Prop :=
  | GlobChar c : Glob (Char c) [c]
  | GlobStar t : 47%N ∉ t → Glob AnyInSegment t
  | GlobOne c : c ≠ 47%N → Glob OneInSegment [c]
  | GlobDirectories segments :
      Forall (λ s, 47%N ∉ s) segments → Glob AnyDirectories (segments ≫= λ s, s ++ [47%N])
  | GlobText t : Glob AnyText t
  | GlobClass negated items c :
      c ≠ 47%N → inItems items c = negb negated → Glob (Class negated items) [c]
  | GlobEither parts l t : l ∈ parts → Globs l t → Glob (Either parts) t.

(** ** Classes *)

Definition members (l : bytes) : text := l ≫= classMember.

(** What the regular expression makes of the members. *)
Fixpoint itemsOf (l : bytes) : outcome (list (N * N)) :=
  match l with
  | [] => Ok []
  | lo :: l1 =>
      match l1 with
      | dash :: hi :: l2 =>
          if bool_decide (dash = "-") then
            if (N_of_ascii hi <? N_of_ascii lo)%N then Err ErrValidationFailed
            else items ← itemsOf l2; Ok ((N_of_ascii lo, N_of_ascii hi) :: items)
          else items ← itemsOf l1; Ok ((N_of_ascii lo, N_of_ascii lo) :: items)
      | _ => items ← itemsOf l1; Ok ((N_of_ascii lo, N_of_ascii lo) :: items)
      end
  end.

Lemma itemsOf_single c dash l : dash ≠ "-" →
  itemsOf (c :: dash :: l) =
    (items ← itemsOf (dash :: l); Ok ((N_of_ascii c, N_of_ascii c) :: items)).
Proof. intros Hd. destruct l; [done|]. simpl. by rewrite bool_decide_eq_false_2. Qed.

Lemma itemsOf_range lo hi l :
  itemsOf (lo :: "-" :: hi :: l) =
    if (N_of_ascii hi <? N_of_ascii lo)%N then Err ErrValidationFailed
    else (items ← itemsOf l; Ok ((N_of_ascii lo, N_of_ascii hi) :: items)).
Proof. done. Qed.

Lemma member_cases c :
  (c ∈ ["\"; "]"; "["; "^"] ∧ classMember c = [92%N; N_of_ascii c]) ∨
  (c ≠ "\" ∧ c ≠ "]" ∧ c ≠ "[" ∧ classMember c = [N_of_ascii c]).
Proof.
  unfold classMember. case_bool_decide as H; [by left|right]. rewrite !not_elem_of_cons in H. naive_solver.
Qed.

Lemma N_of_ascii_inj c d : N_of_ascii c = N_of_ascii d → c = d.
Proof. intros H. by rewrite <-(ascii_N_embedding c), H, ascii_N_embedding. Qed.

Lemma N_of_ascii_eqb c d : (N_of_ascii c =? N_of_ascii d)%N = bool_decide (c = d).
Proof.
  destruct (N.eqb_spec (N_of_ascii c) (N_of_ascii d)) as [E|E]; case_bool_decide; subst; try done.
  by apply N_of_ascii_inj in E.
Qed.

Lemma classChar_member c t : classChar (classMember c ++ t) = Ok (N_of_ascii c, t).
Proof.
  destruct (member_cases c) as [[Hc ->]|(Hc & _ & _ & ->)]; simpl.
  - rewrite !elem_of_cons, elem_of_nil in Hc. by destruct Hc as [->|[->|[->|[->|[]]]]].
  - change 92%N with (N_of_ascii "\"). by rewrite N_of_ascii_eqb, bool_decide_eq_false_2.
Qed.

Lemma starts_member (x : ascii) c t :
  x ∉ ["\"; "]"; "["; "^"] → starts (N_of_ascii x) (classMember c ++ t) = bool_decide (c = x).
Proof.
  intros Hx. unfold starts.
  destruct (member_cases c) as [[Hc ->]|(_ & _ & _ & ->)]; simpl; repeat case_bool_decide; try done;
    simplify_eq; try congruence.
  - rewrite !not_elem_of_cons in Hx. change 92%N with (N_of_ascii "\") in *.
    match goal with H : N_of_ascii _ = _ |- _ => apply N_of_ascii_inj in H end. naive_solver.
  - match goal with H : N_of_ascii _ = _ |- _ => apply N_of_ascii_inj in H end. done.
Qed.

Lemma starts_close_member c t : starts 93 (classMember c ++ t) = false.
Proof.
  unfold starts. apply bool_decide_eq_false.
  destruct (member_cases c) as [[Hc ->]|(_ & Hc & _ & ->)]; [done|].
  intros [= E]. by apply Hc, (N_of_ascii_inj c "]").
Qed.

Lemma starts_open_member c t : bool_decide (take 2 (classMember c ++ t) = rs "[:") = false.
Proof.
  apply bool_decide_eq_false.
  destruct (member_cases c) as [[Hc ->]|(_ & _ & Hc & ->)]; [by destruct t|].
  intros E. apply Hc, (N_of_ascii_inj c "["). by destruct t; injection E.
Qed.

Lemma length_member c : 1 ≤ length (classMember c).
Proof. destruct (member_cases c) as [[_ ->]|(_ & _ & _ & ->)]; simpl; lia. Qed.

Lemma classItems_members fuel first l t :
  (first = true → l ≠ []) → length (members l ++ 93%N :: t) < fuel →
  classItems fuel first (members l ++ 93%N :: t) = (items ← itemsOf l; Ok (items, t)).
Proof.
  revert first l. induction fuel as [|fuel IH]; intros first l Hl Hf; [lia|]. cbn [classItems].
  destruct l as [|c l1].
  { destruct first; [by destruct Hl|done]. }
  assert (∀ first l2, (first = true → l2 ≠ []) → length (members l2) < length (members (c :: l1)) →
    classItems fuel first (members l2 ++ 93%N :: t) = (items ← itemsOf l2; Ok (items, t))) as Hrest.
  { intros f l2 Hl2 Hlen. apply IH; [done|]. rewrite !length_app in *. simpl in *. lia. }
  change (members (c :: l1)) with (classMember c ++ members l1) in *. pose proof (length_member c).
  rewrite <-app_assoc, starts_close_member, andb_false_r, starts_open_member, classChar_member.
  cbn [mbind outcome_bind].
  destruct l1 as [|dash l2].
  { rewrite Hrest; [done|done|]. rewrite length_app. simpl. lia. }
  change (members (dash :: l2)) with (classMember dash ++ members l2) in *.
  rewrite <-app_assoc. change 45%N with (N_of_ascii "-"). rewrite starts_member by (vm_compute; set_solver).
  pose proof (length_member dash). case_bool_decide as Hd; cbn [andb].
  - subst dash. destruct l2 as [|hi l3].
    + change (classMember "-" ++ members [] ++ 93%N :: t) with (members ["-"] ++ 93%N :: t).
      change (starts 93 (tail (members ["-"] ++ 93%N :: t))) with true. cbn [negb andb].
      rewrite (Hrest false ["-"]); [done|done|]. rewrite !length_app. simpl. lia.
    + change (members (hi :: l3)) with (classMember hi ++ members l3) in *.
      pose proof (length_member hi). rewrite <-app_assoc.
      change (tail (classMember "-" ++ classMember hi ++ members l3 ++ 93%N :: t))
        with (classMember hi ++ members l3 ++ 93%N :: t).
      assert ((2 <=? length (classMember "-" ++ classMember hi ++ members l3 ++ 93%N :: t))%nat = true)
        as -> by (apply Nat.leb_le; rewrite !length_app; lia).
      rewrite starts_close_member. cbn [negb andb]. rewrite classChar_member. simpl. destruct (_ <? _)%N; [done|].
      rewrite Hrest; [|done|]. { by destruct (itemsOf l3). }
      rewrite !length_app. simpl. lia.
  - rewrite (app_assoc (classMember dash)).
    change (classMember dash ++ members l2) with (members (dash :: l2)).
    rewrite (Hrest false (dash :: l2)); [|done|].
    + rewrite itemsOf_single by done. by destruct (itemsOf (dash :: l2)).
    + change (members (dash :: l2)) with (classMember dash ++ members l2). rewrite !length_app. lia.
Qed.

(** ** What a part of an expression is read as *)

Definition plainStart (t : text) : Prop := starts 42 t = false ∧ starts 63 t = false.

(** Followed by anything but a repetition operator, the part is read as the
    outcome, a concatenation. *)
Definition evaluates (part : text) (o : outcome (list regex)) : Prop :=
  ∀ tail, plainStart tail →
    concat_ (part ++ tail) = (l ← o; '(r, rest) ← concat_ tail; Ok (foldr Cat r l, rest)).

(** It does not begin with a repetition operator either. *)
Definition leads (part : text) : Prop := ∀ tail, plainStart tail → plainStart (part ++ tail).

Definition partOf (part : text) (o : outcome (list regex)) : Prop :=
  leads part ∧ evaluates part o.

Lemma repeated_plain r t : plainStart t → repeated r t = (r, t).
Proof. intros [H1 H2]. unfold repeated. by rewrite H1, H2. Qed.

Lemma partOf_nil : partOf [] (Ok []).
Proof.
  split; [by intros t|]. intros t _. simpl. by destruct (concat_ t) as [[]| | |].
Qed.

Lemma partOf_app a b oa ob :
  partOf a oa → partOf b ob → partOf (a ++ b) (la ← oa; lb ← ob; Ok (la ++ lb)).
Proof.
  intros [La Ea] [Lb Eb]. split; intros t Ht; rewrite <-app_assoc; [auto|].
  rewrite Ea by auto. destruct oa as [la| | |]; simpl; try done.
  rewrite Eb by done. destruct ob as [lb| | |]; simpl; try done.
  destruct (concat_ t) as [[r rest]| | |]; simpl; try done. by rewrite foldr_app.
Qed.

(** An atom, and an atom that is repeated. *)
Definition atomOf (part : text) (o : outcome regex) : Prop :=
  (∀ tail, atEnd (part ++ tail) = false ∧ plainStart (part ++ tail)) ∧
  ∀ tail, regexpAtom alternatives_ (part ++ tail) = (r ← o; Ok (r, tail)).

Lemma partOf_atom part o : atomOf part o → partOf part (r ← o; Ok [r]).
Proof.
  intros [Hp Ha]. split; intros t Ht; [by destruct (Hp t)|].
  rewrite concat_eq. destruct (Hp t) as [-> _]. rewrite Ha.
  destruct o as [r| | |]; simpl; try done. rewrite repeated_plain by done.
  by destruct (concat_ t) as [[]| | |].
Qed.

Lemma partOf_repeated part o (c : N) (f : regex → regex) :
  atomOf part o → (∀ r t, repeated r (c :: t) = (f r, t)) →
  partOf (part ++ [c]) (r ← o; Ok [f r]).
Proof.
  intros [Hp Ha] Hc. split; intros t Ht; rewrite <-app_assoc; [by destruct (Hp ([c] ++ t))|].
  rewrite concat_eq. destruct (Hp ([c] ++ t)) as [-> _]. rewrite Ha.
  destruct o as [r| | |]; simpl; try done. rewrite Hc.
  by destruct (concat_ t) as [[]| | |].
Qed.

Lemma special_not_alnum c : special c = true → (c <? 128)%N && negb (isalnum c) = true.
Proof.
  unfold special. rewrite bool_decide_eq_true. revert c. apply Forall_forall.
  repeat (apply Forall_cons; split; [reflexivity|]). constructor.
Qed.

Lemma not_special c d : special c = false → special d = true → (c =? d)%N = false.
Proof. intros Hc Hd. apply N.eqb_neq. intros ->. congruence. Qed.

Lemma atomOf_literal c : atomOf (QuoteMeta [c]) (Ok (Literal c)).
Proof.
  unfold QuoteMeta. simpl. rewrite app_nil_r. destruct (special c) eqn:Hc.
  - split; [done|]. intros t. simpl. unfold escaped. by rewrite special_not_alnum.
  - split; intros t; simpl.
    + unfold plainStart, starts. simpl. rewrite !not_special by done.
      split; [done|]. split; apply bool_decide_eq_false; intros [= ->]; done.
    + by rewrite !not_special, Hc by done.
Qed.

Lemma starts_caret_member c t : starts 94 (classMember c ++ t) = false.
Proof.
  unfold starts, classMember. apply bool_decide_eq_false. case_bool_decide as Hc; [done|].
  intros [= E]. apply Hc. rewrite (N_of_ascii_inj c "^") by done. set_solver.
Qed.

(** A bracket expression of the members [l]. *)
Lemma atomOf_class l :
  l ≠ [] →
  atomOf (classStart ++ members l ++ classEnd) (items ← itemsOf l; Ok (OneOf (inItems items))).
Proof.
  intros Hl. split; [done|]. intros t.
  change ((classStart ++ members l ++ classEnd) ++ t) with (91%N :: (members l ++ classEnd) ++ t).
  cbn [regexpAtom]. simpl (_ =? _)%N. cbn iota. rewrite <-app_assoc. change (classEnd ++ t) with (93%N :: t).
  unfold regexpClass.
  assert (starts 94 (members l ++ 93%N :: t) = false) as ->.
  { destruct l as [|c l]; [done|]. change (members (c :: l)) with (classMember c ++ members l).
    rewrite <-app_assoc. apply starts_caret_member. }
  rewrite classItems_members by (done || lia). by destruct (itemsOf l).
Qed.

Lemma atomOf_negated l :
  atomOf (classNegatedStart ++ members l ++ classEnd)
    (items ← itemsOf ("/" :: l); Ok (OneOf (λ r, negb (inItems items r)))).
Proof.
  split; [done|]. intros t.
  change ((classNegatedStart ++ members l ++ classEnd) ++ t)
    with (91%N :: 94%N :: (members ("/" :: l) ++ classEnd) ++ t).
  cbn [regexpAtom]. simpl (_ =? _)%N. cbn iota. rewrite <-app_assoc. change (classEnd ++ t) with (93%N :: t).
  unfold regexpClass. change (starts 94 (94%N :: ?u)) with true. cbn iota.
  cbn [tail length]. rewrite classItems_members by (done || lia). by destruct (itemsOf ("/" :: l)).
Qed.

(** *** Groups *)

Fixpoint alts (l : list regex) : regex :=
  match l with
  | [] => Empty
  | [r] => r
  | r :: l => Alt r (alts l)
  end.

Fixpoint collect {A} (l : list (outcome A)) : outcome (list A) :=
  match l with [] => Ok [] | o :: l => a ← o; rest ← collect l; Ok (a :: rest) end.

Lemma concat_end c t : c ∈ [124; 41; 36]%N → concat_ (c :: t) = Ok (Empty, c :: t).
Proof.
  intros Hc. rewrite concat_eq.
  assert (atEnd (c :: t) = true) as ->; [|done]. rewrite !elem_of_cons, elem_of_nil in Hc.
  by destruct Hc as [->|[->|[->|[]]]].
Qed.

Lemma alternatives_joined parts os t c :
  c ∈ [41; 36]%N → Forall2 partOf parts os → parts ≠ [] →
  alternatives_ (joined alternative parts ++ c :: t) =
    (l ← collect os; Ok (alts (foldr Cat Empty <$> l), c :: t)).
Proof.
  intros Hc H Hne. assert (plainStart (c :: t) ∧ starts 124 (c :: t) = false ∧ c ∈ [124; 41; 36]%N) as (Hp & Hb & Hc').
  { rewrite !elem_of_cons, elem_of_nil in Hc. unfold plainStart.
    destruct Hc as [->|[->|[]]]; split_and!; done || set_solver. }
  induction H as [|part o parts os [_ Ho] Hrest IH]; [done|]. clear Hne.
  rewrite alternatives_eq. destruct parts as [|part2 parts].
  - inversion Hrest; subst. simpl. rewrite Ho, concat_end by done.
    destruct o as [l| | |]; simpl; try done. by rewrite Hb.
  - change (joined alternative (part :: part2 :: parts))
      with (part ++ alternative ++ joined alternative (part2 :: parts)).
    rewrite <-!app_assoc. change (alternative ++ ?u) with (124%N :: u).
    rewrite Ho, concat_end by (done || set_solver).
    destruct o as [l| | |]; cbn [mbind outcome_bind collect]; try done.
    change (starts 124 (124%N :: ?u)) with true. cbn iota. cbn [tail].
    rewrite IH by done. destruct os as [|o2 os]; [by inversion Hrest|].
    destruct (collect (o2 :: os)) as [ls| | |] eqn:Ec; try done.
    destruct ls as [|l2 ls]; [|done]. by apply bind_Ok_inv in Ec as (? & _ & (? & _ & [=])%bind_Ok_inv).
Qed.

Lemma atomOf_group parts os :
  Forall2 partOf parts os → parts ≠ [] →
  atomOf (groupStart ++ joined alternative parts ++ groupEnd)
    (l ← collect os; Ok (alts (foldr Cat Empty <$> l))).
Proof.
  intros H Hne. split; [done|]. intros t.
  change ((groupStart ++ joined alternative parts ++ groupEnd) ++ t)
    with (40%N :: 63%N :: 58%N :: (joined alternative parts ++ groupEnd) ++ t).
  rewrite <-app_assoc. cbn [regexpAtom]. simpl (_ =? _)%N. cbn iota. unfold regexpGroup.
  rewrite bool_decide_eq_true_2 by done. cbn [drop]. rewrite drop_0. change (groupEnd ++ t) with (41%N :: t).
  rewrite (alternatives_joined _ os) by (done || set_solver).
  by destruct (collect os).
Qed.

(** ** Errors *)

(** Done, or refused as invalid. *)
Definition invalid (e : sentinel) : Prop := e = ErrValidationFailed.
Definition fine {A} (o : outcome A) : Prop := post invalid (λ _, True) o.

Lemma fine_bind {A B} (o : outcome A) (f : A → outcome B) :
  fine o → (∀ a, o = Ok a → fine (f a)) → fine (a ← o; f a).
Proof. intros Ho Hf. eapply post_bind; [exact Ho|]. intros a E _. by apply Hf. Qed.

Lemma itemsOf_fine l : fine (itemsOf l).
Proof.
  remember (length l) as n eqn:Hn. revert l Hn.
  induction (lt_wf n) as [n _ IH]. intros [|lo [|dash [|hi l]]] ->; try done.
  destruct (decide (dash = "-")) as [->|Hd].
  - rewrite itemsOf_range. destruct (_ <? _)%N; [done|].
    apply fine_bind; [|done]. apply (IH (length l)); [simpl; lia|done].
  - rewrite itemsOf_single by done.
    apply fine_bind; [|done]. by apply (IH (length (dash :: hi :: l))); [simpl; lia|].
Qed.

Lemma collect_fine {A} (os : list (outcome A)) : Forall fine os → fine (collect os).
Proof.
  induction 1 as [|o os Ho _ IH]; [done|]. simpl. apply fine_bind; [done|]. intros a _.
  by apply fine_bind.
Qed.

Section errors.
Variable p : bytes.

Lemma lookup_within i c : p !! i = Some c → i < length p.
Proof. apply lookup_lt_Some. Qed.

Definition classPost (first : bool) (i : nat) (o : outcome (text * nat)) : Prop :=
  post invalid (λ '(e, j), i < j ∧ ∃ l, e = members l ∧ (first = true → l ≠ [])) o.

Lemma classMembers_post fuel i first :
  i ≤ length p → length p < i + fuel → classPost first i (classMembers fuel p i first).
Proof.
  revert i first. induction fuel as [|fuel IH]; intros i first Hi Hf; [lia|]. cbn [classMembers].
  destruct (p !! i) as [c|] eqn:E; [|done].
  destruct (_ && negb first) eqn:Hd.
  { apply andb_true_iff in Hd as [_ Hd]. destruct first; [done|].
    split; [lia|]. by exists []. }
  set (r := match lookup (A:=ascii) (i + 1)%nat p with Some _ => _ | None => _ end).
  apply lookup_within in E.
  assert (∃ d k, r = (d, k) ∧ i ≤ k < length p) as (d & k & -> & Hk).
  { subst r. destruct (p !! (i + 1)) as [d|] eqn:E'; [apply lookup_within in E'|];
      repeat case_bool_decide; eexists _, _; split; try done; lia. }
  specialize (IH (k + 1) false ltac:(lia) ltac:(lia)).
  destruct (classMembers fuel p (k + 1) false) as [[e j]| | |]; simpl in *; try done.
  destruct IH as (Hj & l & -> & _). split; [lia|]. by exists (d :: l).
Qed.

(** What reading a part leaves: the part is read by package [regexp] without a
    panic. *)
Definition reading (stop : nat → Prop) (o : outcome (text * nat)) : Prop :=
  post invalid (λ '(e, j), stop j ∧ ∃ r, partOf e r ∧ fine r) o.

Lemma class_post i : i < length p → reading (λ j, i < j) (class p i).
Proof.
  intros Hi. unfold class. set (r := match lookup (A:=ascii) (i + 1)%nat p with Some _ => _ | None => _ end).
  assert (∃ o k, r = (o, k) ∧ i ≤ k ≤ length p ∧ (o = classStart ∨ o = classNegatedStart))
    as (o & k & -> & Hk & Ho).
  { subst r. destruct (p !! (i + 1)) as [d|] eqn:E'; [apply lookup_within in E'|];
      try destruct (_ || _); eexists _, _; split; try done; split; auto; lia. }
  pose proof (classMembers_post (S (length p)) k true ltac:(lia) ltac:(lia)) as Hp.
  destruct (classMembers _ p k true) as [[e j]| | |]; simpl in *; try done.
  destruct Hp as (Hj & l & -> & Hl). split; [lia|].
  destruct Ho as [-> | ->]; eexists; (split; [apply partOf_atom|]).
  - by apply atomOf_class, Hl.
  - apply fine_bind; [|done]. apply fine_bind; [apply itemsOf_fine|done].
  - apply atomOf_negated.
  - apply fine_bind; [|done]. apply fine_bind; [apply itemsOf_fine|done].
Qed.

Definition notSeparator (r : N) : bool := negb (inItems [(47, 47)%N] r).

Lemma AnyInSegment_part : partOf anyInSegment (Ok [Star (OneOf notSeparator)]).
Proof.
  apply (partOf_repeated (rs "[^/]") (Ok (OneOf notSeparator)) 42 Star); [|done].
  apply (atomOf_negated []).
Qed.

Lemma OneInSegment_part : partOf oneInSegment (Ok [OneOf notSeparator]).
Proof. apply (partOf_atom _ (Ok _)), (atomOf_negated []). Qed.

Lemma dot_atom : atomOf (rs ".") (Ok AnyNotNL).
Proof. done. Qed.

Lemma AnyText_part : partOf anyText (Ok [Star AnyNotNL]).
Proof. by apply (partOf_repeated (rs ".") (Ok AnyNotNL) 42 Star). Qed.

Definition directories : regex := Opt (Cat (Star AnyNotNL) (Cat (Literal 47) Empty)).

Lemma AnyDirectories_part : partOf anySegments (Ok [directories]).
Proof.
  apply (partOf_repeated (rs "(?:.*/)") (Ok _) 63 Opt); [|done].
  apply (atomOf_group [rs ".*/"] [Ok [Star AnyNotNL; Literal 47]]); [|done].
  constructor; [|constructor].
  apply (partOf_app (rs ".*") (rs "/") (Ok [_]) (Ok [_])); [apply AnyText_part|].
  apply (partOf_atom _ (Ok _)), (atomOf_literal 47).
Qed.

Lemma literal_part c : partOf (QuoteMeta [c]) (Ok [Literal c]).
Proof. apply (partOf_atom _ (Ok _)), atomOf_literal. Qed.

Lemma star_post i : reading (λ j, i < j) (Ok (star p i)).
Proof.
  unfold star, reading. repeat case_match; simplify_eq; (split; [lia|]); eexists;
    (split; [apply AnyInSegment_part || apply AnyDirectories_part || apply AnyText_part|done]).
Qed.

(** Where a reader of a sequence stops. *)
Definition stops (inGroup : bool) (i j : nat) : Prop :=
  i ≤ j ∧ (inGroup = true → ∃ c, p !! j = Some c ∧ endsAlternative c = true).

Lemma alternatives_post f fuel i :
  length p - i < fuel → (∀ i', i ≤ i' → reading (stops true i') (f true i')) →
  post invalid (λ '(parts, j),
    i < j ∧ parts ≠ [] ∧ ∃ os, Forall2 partOf parts os ∧ Forall fine os) (alternatives fuel f p i).
Proof.
  revert i. induction fuel as [|fuel IH]; intros i Hf Hs; [lia|]. cbn [alternatives].
  pose proof (Hs i ltac:(lia)) as Hi. destruct (f true i) as [[e j]| | |]; simpl in *; try done.
  destruct Hi as [[Hj Hc] (o & Ho & Hfo)]. destruct (Hc eq_refl) as (c & Hc' & _).
  rewrite Hc'. apply lookup_within in Hc'. destruct (bool_decide (c = "}")).
  - split; [lia|]. split; [done|]. exists [o]. split; constructor; done || constructor.
  - specialize (IH (j + 1) ltac:(lia) ltac:(intros; apply Hs; lia)).
    destruct (alternatives fuel f p (j + 1)) as [[parts k]| | |]; simpl in *; try done.
    destruct IH as (Hk & _ & os & Hos & Hfos). split; [lia|]. split; [done|].
    exists (o :: os). split; by constructor.
Qed.

Lemma literalGroup_part e o :
  partOf e o →
  partOf (QuoteMeta (rs "{") ++ e ++ QuoteMeta (rs "}"))
    (l ← o; Ok (Literal 123 :: l ++ [Literal 125])).
Proof.
  intros He. pose proof (partOf_app _ _ _ _ He (literal_part 125)) as H.
  pose proof (partOf_app _ _ _ _ (literal_part 123) H) as H'. by destruct o.
Qed.

Lemma group_post f i :
  (∀ i', i < i' → reading (stops true i') (f true i')) → reading (λ j, i < j) (group f p i).
Proof.
  intros Hs. unfold group.
  pose proof (alternatives_post f (S (length p)) (i + 1) ltac:(lia)
    ltac:(intros; apply Hs; lia)) as Ha.
  destruct (alternatives _ f p (i + 1)) as [[parts j]| | |]; simpl in *; try done.
  destruct Ha as (Hj & Hne & os & Hos & Hf).
  destruct parts as [|e [|e2 parts]]; [done| |].
  - split; [lia|]. apply Forall2_cons_inv_l in Hos as (o & os' & Ho & _ & ->).
    inversion Hf; subst. eexists. split; [by apply literalGroup_part|]. by apply fine_bind.
  - split; [lia|]. eexists. split; [by apply partOf_atom, (atomOf_group _ os)|].
    apply fine_bind; [|done]. apply fine_bind; [by apply collect_fine|done].
Qed.

Lemma element_post f i c :
  p !! i = Some c → (∀ i', i < i' → reading (stops true i') (f true i')) →
  reading (λ j, i < j) (element f p i).
Proof.
  intros Hc Hs. unfold element. rewrite Hc.
  case_bool_decide; [apply star_post|].
  case_bool_decide; [split; [lia|]; eexists; split; [apply OneInSegment_part|done]|].
  case_bool_decide; [by eapply class_post, lookup_within|].
  case_bool_decide; [by apply group_post|].
  case_bool_decide; [destruct (p !! (i + 1)) as [d|]; [|done]|];
    (split; [lia|]; eexists; split; [apply literal_part|done]).
Qed.

Lemma sequence_post fuel inGroup i :
  length p - i < fuel → reading (stops inGroup i) (sequence fuel p inGroup i).
Proof.
  revert inGroup i. induction fuel as [|fuel IH]; intros g i Hf; [lia|]. cbn [sequence].
  destruct (p !! i) as [c|] eqn:Hc.
  2: { destruct g; [done|]. split; [by split|]. eexists; split; [apply partOf_nil|done]. }
  pose proof (lookup_within _ _ Hc).
  destruct (g && endsAlternative c) eqn:He.
  { apply andb_true_iff in He as [_ He]. split; [split; [lia|eauto]|].
    eexists; split; [apply partOf_nil|done]. }
  pose proof (element_post (sequence fuel p) i c Hc ltac:(intros; apply IH; lia)) as Hp.
  destruct (element _ p i) as [[e j]| | |]; simpl in *; try done.
  destruct Hp as (Hj & o & Ho & Hfo). specialize (IH g j ltac:(lia)).
  destruct (sequence fuel p g j) as [[e' k]| | |]; simpl in *; try done.
  destruct IH as ([Hk Hk'] & o' & Ho' & Hfo'). split; [split; [lia|done]|].
  eexists; split; [by eapply partOf_app|]. apply fine_bind; [done|]. intros l _. by apply fine_bind.
Qed.

End errors.

(** The whole expression. *)
Lemma regexpParse_part e o :
  partOf e o → regexpParse (expressionStart ++ e ++ expressionEnd) = (l ← o; Ok (foldr Cat Empty l)).
Proof.
  intros He. unfold regexpParse. change (expressionStart ++ ?u) with (94%N :: u).
  change (starts 94 (94%N :: ?u)) with true. cbn iota. cbn [tail length].
  change expressionEnd with [36%N]. rewrite alternatives_enough by lia.
  assert (Forall2 partOf [e] [o]) as H by (constructor; [done|constructor]).
  eapply (alternatives_joined _ _ [] 36) in H; [|set_solver|done].
  change (joined alternative [e]) with e in H. rewrite H.
  by destruct o.
Qed.

(** ** The documented syntax is read *)

Fixpoint regexOf (g : glob) : regex :=
  match g with
  | Char c => Literal c
  | AnyInSegment => Star (OneOf notSeparator)
  | OneInSegment => OneOf notSeparator
  | AnyDirectories => directories
  | AnyText => Star AnyNotNL
  | Class true items => OneOf (λ r, negb (inItems ((47, 47)%N :: items) r))
  | Class false items => OneOf (inItems items)
  | Either parts => alts (map (λ l, foldr Cat Empty (map regexOf l)) parts)
  end.
Definition regexOfAll (l : list glob) : regex := foldr Cat Empty (map regexOf l).

Scheme Reads_mut := Minimality for Reads Sort Prop
  with Element_mut := Minimality for Element Sort Prop
  with Alternatives_mut := Minimality for Alternatives Sort Prop.
Combined Scheme Reads_Element_ind from Reads_mut, Element_mut, Alternatives_mut.

Section documented_reading.
Variable p : bytes.

Definition readsFrom (fuel : nat) (inGroup : bool) (i : nat) (l : list glob) (j : nat) : Prop :=
  i ≤ j ∧ ∃ e, sequence fuel p inGroup i = Ok (e, j) ∧ partOf e (Ok (map regexOf l)).

Definition elementFrom (fuel : nat) (inGroup : bool) (i : nat) (l : list glob) (j : nat) : Prop :=
  i < j ∧ (∃ c, p !! i = Some c ∧ inGroup && endsAlternative c = false) ∧
  ∃ e, element (sequence fuel p) p i = Ok (e, j) ∧ partOf e (Ok (map regexOf l)).

Definition alternativesFrom (fuel fuel' i : nat) (parts : list (list glob)) (j : nat) : Prop :=
  i < j ∧ ∃ es, alternatives fuel (sequence fuel' p) p i = Ok (es, j) ∧
    Forall2 (λ e l, partOf e (Ok (map regexOf l))) es parts.

(** What a bracket expression of the documented syntax is read as. *)
Lemma ClassChar_reads first i x j : ClassChar p first i x j →
  ∃ c, x = N_of_ascii c ∧ i < j ≤ length p ∧ (c = "-" → p !! i = Some "-" ∧ j = i + 1) ∧
    (p !! i = Some "-" → c = "-" ∧ j = i + 1) ∧
    ∀ fuel, classMembers (S fuel) p i first =
      ('(ms, m) ← classMembers fuel p j false; Ok (classMember c ++ ms, m)).
Proof.
  intros [f k c Hc Hs Hf _|f k c Hs Hc Hd _]; exists c; (split; [done|]);
    pose proof (lookup_within _ _ _ Hc); (split; [lia|]).
  - split; [by intros ->|]. rewrite Hc. split; [by intros [= ->]|]. intros fuel. cbn [classMembers].
    rewrite Hc.
    assert (bool_decide (c = "]") && negb f = false) as ->.
    { destruct f; [apply andb_false_r|]. by rewrite bool_decide_eq_false_2 by auto. }
    by rewrite (bool_decide_eq_false_2 (c = "\")) by done; destruct (p !! (k + 1)).
  - split; [by intros ->|]. rewrite Hs. split; [done|]. intros fuel. cbn [classMembers].
    rewrite Hs, Hc. simpl. by replace (k + 1 + 1) with (k + 2) by lia.
Qed.

Lemma ClassItems_reads first i items m : ClassItems p first i items m →
  i < m ∧ ∀ fuel, length p - i < fuel → ∃ l,
    classMembers fuel p i first = Ok (members l, m) ∧ itemsOf l = Ok items ∧
    (first = true → l ≠ []) ∧ (head l = Some "-" → p !! i = Some "-") ∧
    (p !! i = Some "-" → p !! (i + 1) = Some "]" → l = ["-"]).
Proof.
  induction 1 as [i Hi|first i lo j hi k items m Hlo Hj Hj' Hhi Hle _ [Hm IH]
                 |first i x j items m Hx Hj _ [Hm IH]].
  - split; [lia|]. intros [|fuel] Hf; [lia|]. exists []. cbn [classMembers]. by rewrite Hi.
  - apply ClassChar_reads in Hlo as (c & -> & Hc & Hc' & Hc2 & Ec).
    apply ClassChar_reads in Hhi as (d & -> & Hd & _ & _ & Ed).
    destruct (ClassChar_reads false j (N_of_ascii "-") (j + 1)) as (h & Eh & _ & _ & _ & Ej).
    { by apply ClassPlain. }
    apply N_of_ascii_inj in Eh as <-.
    split; [lia|]. intros fuel Hf. destruct fuel as [|[|[|fuel]]]; [lia..|].
    destruct (IH fuel ltac:(lia)) as (l & E & Ei & _). exists (c :: "-" :: d :: l).
    rewrite itemsOf_range, Ei, (proj2 (N.ltb_ge _ _)) by done. split_and!; try done.
    + by rewrite Ec, Ej, Ed, E.
    + intros [= ->]. by apply Hc'.
    + intros Hi Hi'. destruct (Hc2 Hi) as [_ ->]. congruence.
  - apply ClassChar_reads in Hx as (c & -> & Hc & Hc' & Hc2 & Ec).
    split; [lia|]. intros [|fuel] Hf; [lia|].
    destruct (IH fuel ltac:(lia)) as (l & E & Ei & _ & Hd & Hl). exists (c :: l).
    split_and!; try done.
    + by rewrite Ec, E.
    + destruct l as [|x [|y l]]; [by injection Ei as <-|by injection Ei as <-|].
      destruct (decide (x = "-")) as [->|Hx]; [by specialize (Hl (Hd eq_refl) (Hj (Hd eq_refl)))|].
      by rewrite itemsOf_single, Ei.
    + intros [= ->]. by apply Hc'.
    + intros Hi Hi'. destruct (Hc2 Hi) as [-> ->]. f_equal.
      destruct fuel as [|fuel]; [lia|]. revert E. cbn [classMembers]. rewrite Hi'. simpl.
      intros [= E _]. destruct l as [|x l]; [done|]. pose proof (length_member x) as Hlen.
      apply (f_equal length) in E. unfold members in E. simpl in E. rewrite length_app in E. lia.
Qed.

Lemma class_reads i items j :
  p !! i = Some "[" → (∀ c, p !! (i + 1) = Some c → c ∉ ["!"; "^"]) →
  ClassItems p true (i + 1) items j →
  i < j ∧ ∃ e, class p i = Ok (e, j) ∧ partOf e (Ok [OneOf (inItems items)]).
Proof.
  intros Hi Hc (Hm & Hr)%ClassItems_reads. split; [lia|].
  destruct (Hr (S (length p)) ltac:(lia)) as (l & E & Ei & Hl & _).
  exists (classStart ++ members l ++ classEnd). split.
  - unfold class. destruct (p !! (i + 1)) as [c|] eqn:Ec.
    + specialize (Hc c eq_refl). rewrite !not_elem_of_cons in Hc. destruct Hc as (? & ? & _).
      rewrite !bool_decide_eq_false_2 by done. simpl orb. cbn iota zeta. by rewrite E.
    + by rewrite E.
  - pose proof (partOf_atom _ _ (atomOf_class l (Hl eq_refl))) as H. by rewrite Ei in H.
Qed.

Lemma class_negated_reads i c items j :
  p !! i = Some "[" → p !! (i + 1) = Some c → c ∈ ["!"; "^"] → p !! (i + 2) ≠ Some "-" →
  ClassItems p true (i + 2) items j →
  i < j ∧ ∃ e, class p i = Ok (e, j) ∧
    partOf e (Ok [OneOf (λ r, negb (inItems ((47, 47)%N :: items) r))]).
Proof.
  intros Hi Hc Hin Hd (Hm & Hr)%ClassItems_reads. split; [lia|].
  destruct (Hr (S (length p)) ltac:(lia)) as (l & E & Ei & Hl & Hl' & _).
  exists (classNegatedStart ++ members l ++ classEnd). split.
  - unfold class. rewrite Hc.
    assert (bool_decide (c = "!") || bool_decide (c = "^") = true) as ->.
    { rewrite !elem_of_cons, elem_of_nil in Hin. by destruct Hin as [->|[->|[]]]. }
    replace (i + 1 + 1) with (i + 2) by lia. by rewrite E.
  - pose proof (partOf_atom _ _ (atomOf_negated l)) as H.
    destruct l as [|x l]; [by destruct Hl|].
    rewrite itemsOf_single, Ei in H; [done|]. intros ->. by apply Hd, Hl'.
Qed.

(** The code takes every start of a segment for one. *)
Lemma segmentStart_here i c :
  p !! i = Some c → c ∈ ["/"; "{"; ","] →
  (i + 1 =? 0)%nat || from_option isSegmentStart false (p !! (i + 1 - 1)) = true.
Proof.
  intros Hc Hin. rewrite Nat.add_sub, Hc. simpl. unfold isSegmentStart, separator.
  apply orb_true_iff. right. rewrite !orb_true_iff, !bool_decide_eq_true.
  rewrite !elem_of_cons, elem_of_nil in Hin. naive_solver.
Qed.

Definition standsAt (ctx : context) (i : nat) : Prop :=
  ctx = AtStart → (i =? 0)%nat || from_option isSegmentStart false (p !! (i - 1)) = true.

Lemma standsAt_after i c : p !! i = Some c → standsAt (after c) (i + 1).
Proof.
  intros Hc. unfold after, standsAt. case_bool_decide as E; [|done]. intros _.
  apply (segmentStart_here i c Hc). subst. set_solver.
Qed.

Lemma element_stands g ctx i l ctx' j : Element p g ctx i l ctx' j → standsAt ctx' j.
Proof.
  intros He. destruct He as [? ? i c Hc|? ? i c _ Hc| | |? i _ _ Hc| | | | |]; try done.
  - by apply standsAt_after.
  - replace (i + 2) with (i + 1 + 1) by lia. by apply standsAt_after.
  - replace (i + 3) with (i + 2 + 1) by lia. by apply (standsAt_after _ "/").
Qed.

Lemma collect_Ok {A} (l : list A) : collect (map Ok l) = Ok l.
Proof. induction l as [|a l IH]; [done|]. simpl. by rewrite IH. Qed.

Lemma either_part es parts :
  Forall2 (λ e l, partOf e (Ok (map regexOf l))) es parts → parts ≠ [] →
  partOf (groupStart ++ joined alternative es ++ groupEnd) (Ok [regexOf (Either parts)]).
Proof.
  intros H Hne.
  pose proof (atomOf_group es (map Ok (map (map regexOf) parts))) as Ha.
  rewrite collect_Ok in Ha. apply partOf_atom in Ha; [|clear Ha Hne|].
  - simpl in Ha. rewrite map_map in Ha. exact Ha.
  - induction H; simpl; constructor; done.
  - by destruct H.
Qed.

(** At an element that begins with a known character. *)
Ltac element_at Hc :=
  split; [lia|]; split; [eexists; split; [exact Hc|apply andb_false_r]|];
  unfold element; rewrite Hc;
  repeat (rewrite bool_decide_eq_false_2 by done); rewrite bool_decide_eq_true_2 by done; cbn iota.

Definition Reading (g : bool) (ctx : context) (i : nat) (l : list glob) (j : nat) : Prop :=
  standsAt ctx i → ∀ fuel, length p - i < fuel → readsFrom fuel g i l j.
Definition ReadingElement (g : bool) (ctx : context) (i : nat) (l : list glob) (j : nat) : Prop :=
  standsAt ctx i → ∀ fuel, length p - i ≤ fuel → elementFrom fuel g i l j.
Definition ReadingAlternatives (ctx : context) (i : nat) (parts : list (list glob)) (j : nat) : Prop :=
  standsAt ctx i →
  ∀ fuel fuel', length p - i < fuel → length p - i < fuel' → alternativesFrom fuel fuel' i parts j.

Lemma more_reads g ctx i l ctx' j l' k :
  ReadingElement g ctx i l j → standsAt ctx' j → Reading g ctx' j l' k →
  Reading g ctx i (l ++ l') k.
Proof.
  intros IHe Hst IHr Hi [|fuel] Hf; [lia|].
  destruct (IHe Hi fuel ltac:(lia)) as (Hj & (c & Hc & Hend) & e & E & He).
  pose proof (lookup_within _ _ _ Hc). destruct (IHr Hst fuel ltac:(lia)) as (Hk & e' & E' & He').
  split; [lia|]. exists (e ++ e'). cbn [sequence]. rewrite Hc, Hend, E. simpl. rewrite E'.
  split; [done|]. rewrite map_app. apply (partOf_app _ _ _ _ He He').
Qed.

Lemma literal_reads g ctx i l j :
  p !! i = Some "{" → Reading true Inside (i + 1) l j → p !! j = Some "}" →
  ReadingElement g ctx i (Char 123 :: l ++ [Char 125]) (j + 1).
Proof.
  intros Hc IH Hj _ fuel Hf. pose proof (lookup_within _ _ _ Hc).
  destruct (IH ltac:(done) fuel ltac:(lia)) as (Hij & e & E & He). element_at Hc.
  eexists. split; [|rewrite map_cons, map_app; apply (literalGroup_part _ (Ok _) He)].
  unfold group. cbn [PathGlob.alternatives]. rewrite E. simpl. by rewrite Hj.
Qed.

Lemma either_reads g ctx ctx' i parts j :
  p !! i = Some "{" → ReadingAlternatives ctx' (i + 1) parts j → 2 ≤ length parts →
  ReadingElement g ctx i [Either parts] j.
Proof.
  intros Hc IH Hn _ fuel Hf. pose proof (lookup_within _ _ _ Hc).
  assert (standsAt ctx' (i + 1)) as Hs by (intros _; apply (segmentStart_here _ _ Hc); set_solver).
  destruct (IH Hs (S (length p)) fuel ltac:(lia) ltac:(lia)) as (Hij & es & E & Hes). element_at Hc.
  eexists. split; [|apply (either_part es); [done|by destruct parts; simpl in Hn; [lia|]]].
  unfold group. rewrite E. pose proof (Forall2_length _ _ _ Hes).
  destruct es as [|e1 [|e2 es]]; [simpl in *; lia..|]. done.
Qed.

Lemma last_reads ctx i l j :
  Reading true ctx i l j → p !! j = Some "}" → ReadingAlternatives ctx i [l] (j + 1).
Proof.
  intros IH Hj Hs [|fuel] fuel' Hf Hf'; [lia|].
  destruct (IH Hs fuel' ltac:(lia)) as (Hij & e & E & He).
  split; [lia|]. exists [e]. cbn [PathGlob.alternatives]. rewrite E. simpl. rewrite Hj.
  split; [done|]. constructor; [done|constructor].
Qed.

Lemma next_reads ctx i l j parts k :
  Reading true ctx i l j → p !! j = Some "," → ReadingAlternatives ctx (j + 1) parts k →
  ReadingAlternatives ctx i (l :: parts) k.
Proof.
  intros IH Hj IHp Hs [|fuel] fuel' Hf Hf'; [lia|].
  assert (standsAt ctx (j + 1)) as Hs' by (intros _; apply (segmentStart_here _ _ Hj); set_solver).
  pose proof (lookup_within _ _ _ Hj). destruct (IH Hs fuel' ltac:(lia)) as (Hij & e & E & He).
  destruct (IHp Hs' fuel fuel' ltac:(lia) ltac:(lia)) as (Hjk & es & E' & Hes).
  split; [lia|]. exists (e :: es). cbn [PathGlob.alternatives]. rewrite E. simpl. rewrite Hj. simpl.
  rewrite E'. split; [done|]. by constructor.
Qed.

(** A [**] that the documented syntax reads as any text. *)
Lemma star_text g ctx i :
  p !! (i + 1) = Some "*" → anyTextAt p g ctx i → star p i = (anyText, i + 2).
Proof.
  intros Hn Ht. unfold star. rewrite Hn.
  destruct (bool_decide (p !! (i + 2) = Some separator)) eqn:Hd; [|by rewrite andb_false_r].
  apply bool_decide_eq_true in Hd. unfold anyTextAt in Ht.
  destruct ctx; [by destruct Ht| |by destruct Ht]. destruct (Ht Hd) as [Hi Hc].
  replace (i =? 0)%nat with false by (symmetry; apply Nat.eqb_neq; lia).
  destruct (p !! (i - 1)) as [c|]; [|done]. simpl. specialize (Hc c eq_refl).
  rewrite !not_elem_of_cons in Hc. unfold isSegmentStart, separator.
  by rewrite !bool_decide_eq_false_2 by naive_solver.
Qed.

Lemma reads_all :
  (∀ g ctx i l j, Reads p g ctx i l j → Reading g ctx i l j) ∧
  (∀ g ctx i l ctx' j, Element p g ctx i l ctx' j → ReadingElement g ctx i l j) ∧
  (∀ ctx i parts j, Alternatives p ctx i parts j → ReadingAlternatives ctx i parts j).
Proof.
  apply (Reads_Element_ind p Reading (λ g ctx i l _ j, ReadingElement g ctx i l j)
           ReadingAlternatives).
  - (* the end of the pattern *)
    intros ctx i Hi _ [|fuel] Hf; [lia|]. split; [lia|]. exists []. cbn [sequence]. rewrite Hi.
    split; [done|apply partOf_nil].
  - (* the end of an alternative *)
    intros ctx i c Hc Hin _ [|fuel] Hf; [lia|]. split; [lia|]. exists []. cbn [sequence]. rewrite Hc.
    split; [|apply partOf_nil]. rewrite !elem_of_cons, elem_of_nil in Hin.
    by destruct Hin as [->|[->|[]]].
  - intros g ctx i l ctx' j l' k He IHe _ IHr. eapply more_reads; [done|by eapply element_stands|done].
  - (* a character *)
    intros g ctx i c Hc Hp Hg _ _ fuel Hf. rewrite !not_elem_of_cons in Hp.
    split; [lia|]. split.
    + exists c. split; [done|]. destruct g; [|done]. specialize (Hg eq_refl).
      rewrite !not_elem_of_cons in Hg. unfold endsAlternative.
      by rewrite !bool_decide_eq_false_2 by naive_solver.
    + eexists. split; [|apply literal_part]. unfold element. rewrite Hc.
      by rewrite !bool_decide_eq_false_2 by naive_solver.
  - (* an escaped character *)
    intros g ctx i c Hs Hc _ _ fuel Hf. element_at Hs. eexists. split; [|apply literal_part].
    by rewrite Hc.
  - intros g ctx i Hc _ fuel Hf. element_at Hc. eexists. split; [done|apply OneInSegment_part].
  - intros g ctx i Hc Hn _ fuel Hf. element_at Hc. eexists. split; [|apply AnyInSegment_part].
    unfold star. by rewrite bool_decide_eq_false_2 by done.
  - intros g i Hc Hn Hd Hs fuel Hf. element_at Hc. eexists. split; [|apply AnyDirectories_part].
    unfold star. by rewrite Hn, Hd, (Hs eq_refl).
  - intros g ctx i Hc Hn Ht _ fuel Hf. element_at Hc. eexists. split; [|apply AnyText_part].
    by rewrite (star_text g ctx).
  - intros g ctx i items j Hc Hn Hr Hi _ fuel Hf.
    destruct (class_reads _ _ _ Hc Hn Hr) as (Hj & e & E & He). element_at Hc. by exists e.
  - intros g ctx i c items j Hi Hc Hin Hd Hr _ fuel Hf.
    destruct (class_negated_reads _ _ _ _ Hi Hc Hin Hd Hr) as (Hj & e & E & He).
    element_at Hi. by exists e.
  - intros g ctx i l j Hc _ IH Hj _. by apply literal_reads.
  - intros g ctx i parts j Hc _ IH Hn. by eapply either_reads.
  - intros ctx i l j _ IH Hj. by apply last_reads.
  - intros ctx i l j parts k _ IH Hj _ IHp. by eapply next_reads.
Qed.

End documented_reading.

(** ** What the expressions match *)

Definition means (g : glob) : Prop :=
  ∀ t, 10%N ∉ t → In (regexOf g) t ↔ Glob g t.
Definition meansAll (l : list glob) : Prop :=
  ∀ t, 10%N ∉ t → In (regexOfAll l) t ↔ Globs l t.

Lemma Globs_cons g l t : Globs (g :: l) t ↔ ∃ u v, t = u ++ v ∧ Glob g u ∧ Globs l v.
Proof. split; [inversion 1; eauto 10|]. intros (u & v & -> & ? & ?). by constructor. Qed.

Lemma meansAll_Forall l : Forall means l → meansAll l.
Proof.
  induction 1 as [|g l Hg _ IH]; intros t Ht.
  - cbn. rewrite In_Empty_iff. split; [intros ->; constructor|by inversion 1].
  - change (regexOfAll (g :: l)) with (Cat (regexOf g) (regexOfAll l)).
    rewrite In_Cat_iff, Globs_cons. split; intros (u & v & -> & Hu & Hv);
      rewrite elem_of_app in Ht; exists u, v; (split; [done|]).
    + split; [apply Hg|apply IH]; auto.
    + split; [apply Hg|apply IH]; auto.
Qed.

Lemma alts_In rs t : rs ≠ [] → In (alts rs) t ↔ ∃ r, r ∈ rs ∧ In r t.
Proof.
  intros Hne. induction rs as [|r [|r2 rs] IH]; [done| |].
  - simpl. split; [exists r; set_solver|]. intros (r' & ->%list_elem_of_singleton & ?). done.
  - change (alts (r :: r2 :: rs)) with (Alt r (alts (r2 :: rs))).
    rewrite In_Alt_iff, IH by done. setoid_rewrite (elem_of_cons (r2 :: rs)). naive_solver.
Qed.

Lemma means_Either parts :
  parts ≠ [] → Forall meansAll parts → means (Either parts).
Proof.
  intros Hne Hp t Ht. cbn [regexOf]. rewrite alts_In by by destruct parts.
  rewrite Forall_forall in Hp. split.
  - intros (r & Hr & Hin). apply list_elem_of_In, in_map_iff in Hr as (l & <- & Hl%list_elem_of_In).
    econstructor; [done|]. by apply Hp.
  - inversion 1 as [| | | | | |? l ? Hl Hg]; subst. eexists. split; [|by apply Hp, Hg].
    by apply list_elem_of_In, in_map, list_elem_of_In.
Qed.

Lemma notSeparator_iff c : notSeparator c = true ↔ c ≠ 47%N.
Proof.
  unfold notSeparator, inItems, inRange. simpl.
  rewrite orb_false_r, negb_true_iff, andb_false_iff, !N.leb_gt. lia.
Qed.

Lemma notNL_iff c : negb (c =? 10)%N = true ↔ c ≠ 10%N.
Proof. by rewrite negb_true_iff, N.eqb_neq. Qed.

Lemma Forall_notin (f : N → bool) (x : N) t :
  (∀ c, f c = true ↔ c ≠ x) → Forall (λ c, f c = true) t ↔ x ∉ t.
Proof.
  intros Hf. induction t as [|c t IH]; [split; [set_solver|constructor]|].
  rewrite Forall_cons, IH, Hf, not_elem_of_cons. naive_solver.
Qed.

Lemma means_AnyInSegment : means AnyInSegment.
Proof.
  intros t Ht. cbn [regexOf]. rewrite In_Star_OneOf, (Forall_notin _ 47) by apply notSeparator_iff.
  split; [by constructor|]. by inversion 1.
Qed.

Lemma In_AnyText t : 10%N ∉ t → In (Star AnyNotNL) t.
Proof. unfold AnyNotNL. by rewrite In_Star_OneOf, (Forall_notin _ 10) by apply notNL_iff. Qed.

(** A text that ends in a separator is a row of segments. *)
Lemma segments_of t : ∃ segments : list text,
  Forall (λ s, 47%N ∉ s) segments ∧ t ++ [47%N] = segments ≫= λ s, s ++ [47%N].
Proof.
  induction t as [|c t (ss & Hs & E)]; [by exists [[]]; repeat constructor; set_solver|].
  destruct (decide (c = 47%N)) as [->|Hc].
  - exists ([] :: ss). simpl. rewrite E. split; [constructor; [set_solver|done]|done].
  - destruct ss as [|s ss]; [by destruct t|]. exists ((c :: s) :: ss). simpl in *. rewrite E.
    split; [|done]. apply Forall_cons in Hs as [Hs Hss]. constructor; [set_solver|done].
Qed.

Lemma means_AnyDirectories : means AnyDirectories.
Proof.
  intros t Ht. cbn [regexOf]. unfold directories, Opt. rewrite In_Alt_iff, In_Empty_iff. split.
  - intros [(u & v & -> & _ & (v1 & v2 & -> & Hv1 & Hv2)%In_Cat_iff)%In_Cat_iff | ->].
    + apply In_Literal in Hv1 as ->. apply In_Empty_iff in Hv2 as ->.
      destruct (segments_of u) as (ss & Hs & E). change ([47%N] ++ []) with [47%N]. rewrite E.
      by constructor.
    + apply (GlobDirectories []). constructor.
  - inversion 1 as [| | |ss Hs| | |]; subst. destruct ss as [|s ss _] using rev_ind; [by right|left].
    rewrite bind_app in *. simpl in *. rewrite app_nil_r, app_assoc in *.
    apply In_Cat_iff. eexists _, _. split; [done|]. split.
    + apply In_AnyText. set_solver.
    + apply In_Cat_iff. exists [47%N], []. by rewrite In_Literal, In_Empty_iff.
Qed.

Lemma inItems_separator items c :
  negb (inItems ((47, 47)%N :: items) c) = true ↔ c ≠ 47%N ∧ inItems items c = false.
Proof.
  rewrite <-notSeparator_iff. unfold notSeparator. simpl.
  rewrite orb_false_r, negb_orb, andb_true_iff, !negb_true_iff. done.
Qed.

Lemma means_Class negated items :
  (negated = false → inItems items 47 = false) → means (Class negated items).
Proof.
  intros H47 t _. destruct negated; cbn [regexOf]; rewrite In_OneOf_iff; split.
  - intros (c & -> & [? ?]%inItems_separator). by constructor.
  - inversion 1; subst. eexists. by rewrite inItems_separator.
  - intros (c & -> & Hc). constructor; [|done]. intros ->. by rewrite H47 in Hc.
  - inversion 1; subst; eauto.
Qed.

Lemma means_Char c : means (Char c).
Proof. intros t _. cbn [regexOf]. rewrite In_Literal. split; [intros ->; constructor|by inversion 1]. Qed.

Lemma means_AnyText : means AnyText.
Proof. intros t Ht. split; [constructor|]. intros _. by apply In_AnyText. Qed.

Lemma means_OneInSegment : means OneInSegment.
Proof.
  intros t _. cbn [regexOf]. rewrite In_OneOf_iff. setoid_rewrite notSeparator_iff.
  split; [intros (c & -> & ?); by constructor|]. inversion 1; subst; eauto.
Qed.

Lemma reads_mean p :
  (∀ g ctx i l j, Reads p g ctx i l j → Forall means l) ∧
  (∀ g ctx i l ctx' j, Element p g ctx i l ctx' j → Forall means l) ∧
  (∀ ctx i parts j, Alternatives p ctx i parts j → parts ≠ [] ∧ Forall meansAll parts).
Proof.
  apply (Reads_Element_ind p (λ _ _ _ l _, Forall means l) (λ _ _ _ l _ _, Forall means l)
           (λ _ _ parts _, parts ≠ [] ∧ Forall meansAll parts)); intros; rewrite ?Forall_cons;
    eauto using Forall_nil_2, means_Char, means_AnyText, means_OneInSegment, means_AnyInSegment,
      means_AnyDirectories, means_Class, meansAll_Forall, Forall_app_2.
  - split; [by apply means_Class|constructor].
  - split; [apply means_Either; naive_solver|constructor].
  - naive_solver eauto using meansAll_Forall.
Qed.

(** ** The promises of the package *)

(** C37: Every pattern compiles or is refused as invalid: no expression that the
    package builds is outside of what package [regexp] reads. *)
Theorem Compile_error tooLarge pattern :
  match Compile tooLarge pattern with
  | Ok _ => True
  | Err e => e = ErrValidationFailed
  | _ => False
  end.
Proof.
  unfold Compile. pose proof (sequence_post pattern (S (length pattern)) false 0 ltac:(lia)) as Hp.
  destruct (sequence _ pattern false 0) as [[e j]| | |]; simpl in Hp; try done.
  destruct Hp as (_ & o & Ho & Hf). cbn [mbind outcome_bind]. destruct (tooLarge _); [done|].
  rewrite (regexpParse_part e o Ho). by apply fine_bind.
Qed.

Lemma Compile_reads tooLarge pattern l j : Reads pattern false AtStart 0 l j →
  ∃ e, Compile tooLarge pattern =
    if tooLarge e then Err ErrValidationFailed else Ok (regexOfAll l).
Proof.
  intros Hr. destruct (proj1 (reads_all pattern) _ _ _ _ _ Hr ltac:(done) (S (length pattern)) ltac:(lia))
    as (_ & e & E & He).
  exists (expressionStart ++ e ++ expressionEnd). unfold Compile. rewrite E.
  cbn [mbind outcome_bind]. destruct (tooLarge _); [done|]. apply (regexpParse_part e _ He).
Qed.

(** C36: A pattern of the documented syntax, which [Reads] gives with what it leaves out,
    matches exactly the paths that the documentation says it does, among the paths
    with no line break.  It is refused only when package [regexp] finds an
    expression too large. *)
Theorem Match_documented tooLarge pattern path l j :
  Reads pattern false AtStart 0 l j → 10%N ∉ runes path →
  match Compile tooLarge pattern with
  | Ok _ => Match tooLarge pattern path = true ↔ Globs l (runes path)
  | r => r = Err ErrValidationFailed ∧ ∃ t, tooLarge t = true
  end.
Proof.
  intros Hr Hp. destruct (Compile_reads tooLarge _ _ _ Hr) as (e & E). unfold Match. rewrite E.
  destruct (tooLarge e) eqn:Et; [eauto|].
  rewrite matches_In. apply meansAll_Forall; [|done]. apply (proj1 (reads_mean pattern) _ _ _ _ _ Hr).
Qed.

(** A hook matcher: the Go and module files below any directory. *)
Definition sample_pattern : bytes := bs "**/*.{go,m[oa-b]d}".
Definition sample_path : bytes := bs "cmd/app/main.go".
Definition unlimited (_ : text) : bool := false.

Definition chars (s : string) : list glob := Char <$> rs s.
Definition sample_glob : list glob :=
  [AnyDirectories; AnyInSegment; Char 46;
   Either [chars "go"; [Char 109; Class false [(111, 111); (97, 98)]%N; Char 100]]].

Ltac read_by rule := eapply (ReadMore _ _ _ _ [_] _ _ _ _); [eapply rule|]; try done.

Lemma read_char p g ctx i c n l j :
  p !! i = Some c → n = N_of_ascii c →
  bool_decide (c ∈ ["*"; "?"; "["; "{"; "\"; ","; "}"]) = false → (n <? 128)%N = true →
  Reads p g (after c) (i + 1) l j → Reads p g ctx i (Char n :: l) j.
Proof.
  rewrite bool_decide_eq_false, N.ltb_lt. intros Hc -> Hn ? ?. rewrite !not_elem_of_cons in Hn.
  read_by ReadChar.
  - rewrite !not_elem_of_cons. naive_solver.
  - intros _. rewrite !not_elem_of_cons. naive_solver.
Qed.

Lemma class_char p first i c n :
  p !! i = Some c → n = N_of_ascii c → bool_decide (c ∈ ["\"; "]"]) = false → (n <? 128)%N = true →
  ClassChar p first i n (i + 1).
Proof.
  rewrite bool_decide_eq_false, N.ltb_lt. intros Hc -> Hn ?. rewrite !not_elem_of_cons in Hn.
  apply ClassPlain; naive_solver.
Qed.

Lemma sample_reads : Reads sample_pattern false AtStart 0 sample_glob 18.
Proof.
  read_by ReadDirectories. read_by ReadStar. eapply read_char; try done.
  read_by ReadEither; [|by apply ReadEnd].
  eapply ReadNext.
  { do 2 (eapply read_char; try done). eapply ReadStop; [done|set_solver]. }
  { done. }
  apply (ReadLast _ _ _ _ 17).
  { eapply read_char; try done. read_by ReadClass.
    - intros c [= <-]. set_solver.
    - eapply ClassSingle; [by eapply class_char|done|].
      eapply ClassRange;
        [by eapply class_char|done|done|by eapply class_char|done|by apply ClassDone].
    - eapply read_char; try done. eapply ReadStop; [done|set_solver]. }
  done.
Qed.

Lemma Match_documented_witness :
  Reads sample_pattern false AtStart 0 sample_glob 18 ∧
  match Compile unlimited sample_pattern with
  | Ok _ => Match unlimited sample_pattern sample_path = true ↔ Globs sample_glob (runes sample_path)
  | r => r = Err ErrValidationFailed ∧ ∃ t, unlimited t = true
  end.
Proof.
  split; [apply sample_reads|].
  apply (Match_documented unlimited sample_pattern sample_path sample_glob 18 sample_reads).
  by apply (bool_decide_unpack (10%N ∉ runes sample_path)); vm_compute.
Defined.

Example sample_matches : Match unlimited sample_pattern sample_path = true.
Proof. by vm_compute. Qed.
Example sample_other_file : Match unlimited sample_pattern (bs "cmd/main.md") = false.
Proof. by vm_compute. Qed.

(** ** Divergences of the code from its documentation *)

(** A [**] after a comma is taken for a whole segment outside of braces too, and after
    an escaped brace. *)
Example comma_starts_segment : Match unlimited (bs "a,**/b") (bs "a,b") = true.
Proof. by vm_compute. Qed.
Example escaped_brace_starts_segment : Match unlimited (bs "\{**/b") (bs "{b") = true.
Proof. by vm_compute. Qed.

(** A [**] that begins a segment after a group is not taken for a whole segment, nor one
    that ends an alternative before a separator. *)
Example group_starts_no_segment : Match unlimited (bs "{a/,b/}**/c") (bs "a/c") = false.
Proof. by vm_compute. Qed.
Example alternative_is_no_segment : Match unlimited (bs "{a,**}/b") (bs "b") = false.
Proof. by vm_compute. Qed.

(** The text of a group with no comma is not literal. *)
Example literal_group_matches : Match unlimited (bs "{*}") (bs "{a}") = true.
Proof. by vm_compute. Qed.

(** A range in brackets can take in the separator, which brackets never match. *)
Example class_range_separator : Match unlimited (bs "a[+-0]b") (bs "a/b") = true.
Proof. by vm_compute. Qed.
(** An escape does not keep a hyphen in brackets literal. *)
Example class_escaped_hyphen :
  Match unlimited (bs "[a\-c]") (bs "b") = true ∧ Match unlimited (bs "[a\-c]") (bs "-") = false.
Proof. by vm_compute. Qed.
(** A hyphen after the negation begins a range from the separator. *)
Example class_negated_hyphen : Match unlimited (bs "[!-z]") (bs "a") = false.
Proof. by vm_compute. Qed.
(** A pattern is read by bytes and a path by runes: U+00E9 does not match itself. *)
Example beyond_ascii :
  Match unlimited ["195"; "169"]%char ["195"; "169"]%char = false.
Proof. by vm_compute. Qed.
(** [**] matches no newline. *)
Example text_newline : Match unlimited (bs "**") ["010"] = false.
Proof. by vm_compute. Qed.

End PathGlob.
