(* ===== verification/WireErrors.v ===== *)
(** Errors as they cross the socket between a worker and its controller
    (src/internal/pkg/worker/protocol/errors.go): a Go error is reduced to a code
    and a text, and rebuilt from them on the other side. *)
From stdpp Require Import base gmap sets list strings.
From Stdlib Require Import ZArith Lia Ascii.
From S2P Require Import Prelude GoBytes.

Module WireErrors.

(** ** Go errors *)

(** An error as [errors.Is] and [errors.As] walk it: a sentinel value, a plain
    text, an unknown skill ([harness.UnknownSkillError]), an error wrapped by
    ctxerrors with the error it was mapped to, and [errors.Join]. *)
Inductive goerror :=
  | Sentinel (x : sentinel)
  | Plain (message : bytes)
  | UnknownSkillError (Message : bytes)
  | Wrapped (e : goerror) (mapped : option sentinel) (message : bytes)
  | Join (e1 e2 : goerror).

(** [errors.Is] *)
Fixpoint Is (x : sentinel) (e : goerror) : bool :=
  match e with
  | Sentinel y => bool_decide (x = y)
  | Plain _ => false
  | UnknownSkillError _ => bool_decide (x = ErrSkillNotFound)
  | Wrapped e mapped _ => Is x e || bool_decide (mapped = Some x)
  | Join e1 e2 => Is x e1 || Is x e2
  end.

(** [errors.As] with a [*harness.UnknownSkillError]: its message. *)
Fixpoint AsUnknownSkill (e : goerror) : option bytes :=
  match e with
  | UnknownSkillError message => Some message
  | Sentinel _ | Plain _ => None
  | Wrapped e _ _ => AsUnknownSkill e
  | Join e1 e2 => match AsUnknownSkill e1 with Some m => Some m | None => AsUnknownSkill e2 end
  end.

(** The error map of ctxerrors, which Go walks in any order. *)
Definition errorMap : list (sentinel * sentinel) :=
  [(ErrRecordNotFound, ErrNotFound); (ErrDuplicatedKey, ErrAlreadyExists)].
Definition translate (e : goerror) : option sentinel :=
  snd <$> find (λ '(from, _), Is from e) errorMap.
Definition Wrap (e : goerror) (message : bytes) : goerror := Wrapped e (translate e) message.

(** ** Codes *)

Abbreviation Code := bytes.

Definition CodeUnknown : Code := bs "unknown".
Definition CodeNotFound : Code := bs "notFound".
Definition CodeAlreadyExists : Code := bs "alreadyExists".
Definition CodeConflict : Code := bs "conflict".
Definition CodeInvalidState : Code := bs "invalidState".
Definition CodeValidation : Code := bs "validationFailed".
Definition CodePermissionDenied : Code := bs "permissionDenied".
Definition CodeLockHeld : Code := bs "lockHeld".
Definition CodeCancelled : Code := bs "cancelled".
Definition CodeNotImplemented : Code := bs "notImplemented".
Definition CodeRunningTurnSettingsChange : Code := bs "runningTurnSettingsChange".
Definition CodeUserMessageQueueFull : Code := bs "userMessageQueueFull".
Definition CodeUnknownSkill : Code := bs "unknownSkill".
Definition CodeAgentRunFinished : Code := bs "agentRunFinished".
Definition CodeAgentRunNotFound : Code := bs "agentRunNotFound".
Definition CodeExecutionInboxPending : Code := bs "executionInboxPending".
Definition CodePromptBudgetExceeded : Code := bs "promptBudgetExceeded".
Definition CodeImagesNotAccepted : Code := bs "imagesNotAccepted".
Definition CodeHistoryImagesNotAccepted : Code := bs "historyImagesNotAccepted".
Definition CodeImagesNeedNewTurn : Code := bs "imagesNeedNewTurn".
Definition CodeTooManyImages : Code := bs "tooManyImages".
Definition CodeImageTooLarge : Code := bs "imageTooLarge".
Definition CodeImageType : Code := bs "imageType".
Definition CodeTurnLeaseInactive : Code := bs "turnLeaseInactive".

(** [Error]: a failure on the wire. *)
Record WireError := mkWireError { we_Code : Code; we_Message : bytes }.

Definition sentinels : list (Code * sentinel) :=
  [(CodeNotFound, ErrNotFound); (CodeAlreadyExists, ErrAlreadyExists);
   (CodeConflict, ErrConflict); (CodeInvalidState, ErrInvalidState);
   (CodeValidation, ErrValidationFailed); (CodePermissionDenied, ErrPermissionDenied);
   (CodeLockHeld, ErrLockHeld); (CodeCancelled, ErrCancelled);
   (CodeNotImplemented, ErrNotImplemented)].

Record detailedFailure := mkDetailed { df_code : Code; df_detail : sentinel; df_class : sentinel }.

Definition detailedFailures : list detailedFailure :=
  [mkDetailed CodeExecutionInboxPending ErrExecutionInboxPending ErrConflict;
   mkDetailed CodeRunningTurnSettingsChange ErrRunningTurnSettingsChange ErrValidationFailed;
   mkDetailed CodeUserMessageQueueFull ErrUserMessageQueueFull ErrConflict;
   mkDetailed CodeAgentRunFinished ErrAgentRunFinished ErrConflict;
   mkDetailed CodeAgentRunNotFound ErrAgentRunNotFound ErrNotFound;
   mkDetailed CodePromptBudgetExceeded ErrPromptBudgetExceeded ErrValidationFailed;
   mkDetailed CodeImagesNotAccepted ErrImagesNotAccepted ErrValidationFailed;
   mkDetailed CodeHistoryImagesNotAccepted ErrHistoryImagesNotAccepted ErrValidationFailed;
   mkDetailed CodeImagesNeedNewTurn ErrImagesNeedNewTurn ErrValidationFailed;
   mkDetailed CodeTooManyImages ErrTooManyImages ErrValidationFailed;
   mkDetailed CodeImageTooLarge ErrImageTooLarge ErrValidationFailed;
   mkDetailed CodeTurnLeaseInactive ErrTurnLeaseInactive ErrInvalidState;
   mkDetailed CodeImageType ErrImageType ErrValidationFailed].

Section conversion.
(** [err.Error()], and the order in which Go walks the map of sentinels. *)
Variables (text : goerror → bytes) (order : list (Code * sentinel)).

Definition detailFor (e : goerror) : option detailedFailure :=
  find (λ failure, Is (df_detail failure) e) detailedFailures.
Definition sentinelFor (e : goerror) : option (Code * sentinel) :=
  find (λ '(_, x), Is x e) order.

Definition codeFor (e : goerror) : Code :=
  match AsUnknownSkill e with
  | Some _ => CodeUnknownSkill
  | None =>
      match detailFor e with
      | Some failure => df_code failure
      | None => match sentinelFor e with Some (code, _) => code | None => CodeUnknown end
      end
  end.

Definition NewError (e : goerror) : WireError :=
  match AsUnknownSkill e with
  | Some message => mkWireError CodeUnknownSkill message
  | None => mkWireError (codeFor e) (text e)
  end.
End conversion.

Definition unknownSkillReference : bytes := bs "unknown skill reference".

Definition Unwrap (e : WireError) : goerror :=
  if bool_decide (we_Code e = CodeUnknownSkill)
  then Wrap (Join (Sentinel ErrValidationFailed) (UnknownSkillError (we_Message e)))
            unknownSkillReference
  else
    match find (λ failure, bool_decide (df_code failure = we_Code e)) detailedFailures with
    | Some failure =>
        Wrap (Join (Sentinel (df_class failure)) (Sentinel (df_detail failure))) (we_Message e)
    | None =>
        match find (λ '(code, _), bool_decide (code = we_Code e)) sentinels with
        | Some (_, x) => Wrap (Sentinel x) (we_Message e)
        | None => Plain (we_Message e)
        end
    end.

(** What the wire publishes of an error: the details and the classes. *)
Definition published (x : sentinel) : bool :=
  existsb (λ f, bool_decide (df_detail f = x)) detailedFailures ||
  existsb (λ '(_, y), bool_decide (y = x)) sentinels.

(** ** The two directions *)

Lemma Unwrap_detail f m : f ∈ detailedFailures →
  Unwrap (mkWireError (df_code f) m) =
    Wrapped (Join (Sentinel (df_class f)) (Sentinel (df_detail f))) None m.
Proof. revert f. apply Forall_forall. repeat constructor. Qed.

Lemma Unwrap_sentinel p m : p ∈ sentinels →
  Unwrap (mkWireError p.1 m) = Wrapped (Sentinel p.2) None m.
Proof. revert p. apply Forall_forall. repeat constructor. Qed.

Lemma find_spec {A} (f : A → bool) l a : find f l = Some a → a ∈ l ∧ f a = true.
Proof. intros [? ?]%find_some. by rewrite list_elem_of_In. Qed.

Lemma find_none_spec {A} (f : A → bool) l a : find f l = None → a ∈ l → f a = false.
Proof. intros Hn Hin. eapply find_none; [done|]. by apply list_elem_of_In. Qed.

Section crossing.
Variables (text : goerror → bytes) (order : list (Code * sentinel)).
Hypothesis order_walks : order ≡ₚ sentinels.

(** How an error crosses: as an unknown skill, a detail with its class, a class,
    or as a text only. *)
Inductive crossing (e : goerror) : WireError → goerror → Prop :=
  | CrossSkill m :
      AsUnknownSkill e = Some m →
      crossing e (mkWireError CodeUnknownSkill m)
        (Wrapped (Join (Sentinel ErrValidationFailed) (UnknownSkillError m)) None unknownSkillReference)
  | CrossDetail f :
      AsUnknownSkill e = None → f ∈ detailedFailures → Is (df_detail f) e = true →
      crossing e (mkWireError (df_code f) (text e))
        (Wrapped (Join (Sentinel (df_class f)) (Sentinel (df_detail f))) None (text e))
  | CrossClass p :
      AsUnknownSkill e = None → (∀ f, f ∈ detailedFailures → Is (df_detail f) e = false) →
      p ∈ sentinels → Is p.2 e = true →
      crossing e (mkWireError p.1 (text e)) (Wrapped (Sentinel p.2) None (text e))
  | CrossText :
      AsUnknownSkill e = None → (∀ f, f ∈ detailedFailures → Is (df_detail f) e = false) →
      (∀ p, p ∈ sentinels → Is p.2 e = false) →
      crossing e (mkWireError CodeUnknown (text e)) (Plain (text e)).

Lemma crosses e : crossing e (NewError text order e) (Unwrap (NewError text order e)).
Proof.
  unfold NewError, codeFor. destruct (AsUnknownSkill e) as [m|] eqn:Hs; [by constructor|].
  unfold detailFor. destruct (find _ detailedFailures) as [f|] eqn:Hd.
  { apply find_spec in Hd as [Hf Hd]. rewrite Unwrap_detail by done. by constructor. }
  assert (∀ f, f ∈ detailedFailures → Is (df_detail f) e = false) as Hno.
  { intros f Hf. eapply (find_none_spec _ _ _ Hd Hf). }
  unfold sentinelFor. destruct (find _ order) as [[code x]|] eqn:Hx.
  - apply find_spec in Hx as [Hin Hx]. rewrite order_walks in Hin.
    rewrite (Unwrap_sentinel (code, x)) by done. by apply (CrossClass e (code, x)).
  - apply CrossText; [done..|]. intros [code x] Hin. rewrite <-order_walks in Hin.
    apply (find_none_spec _ _ _ Hx Hin).
Qed.
End crossing.

Lemma published_detail f : f ∈ detailedFailures → published (df_detail f) = true.
Proof. revert f. apply Forall_forall. repeat constructor. Qed.
Lemma published_class p : p ∈ sentinels → published p.2 = true.
Proof. revert p. apply Forall_forall. repeat constructor. Qed.

Lemma published_cases x : published x = true →
  (∃ f, f ∈ detailedFailures ∧ df_detail f = x) ∨ (∃ p, p ∈ sentinels ∧ p.2 = x).
Proof.
  unfold published. rewrite orb_true_iff, !existsb_exists.
  intros [(f & Hf & E%bool_decide_eq_true)|([c y] & Hp & E%bool_decide_eq_true)];
    [left; exists f|right; exists (c, y)]; by rewrite list_elem_of_In.
Qed.

(** A second hop. *)
Lemma codeFor_detail order f m : order ≡ₚ sentinels → f ∈ detailedFailures →
  codeFor order (Wrapped (Join (Sentinel (df_class f)) (Sentinel (df_detail f))) None m) = df_code f.
Proof. intros _. revert f. apply Forall_forall. repeat constructor. Qed.

Lemma sentinels_inj p q : p ∈ sentinels → q ∈ sentinels → p.2 = q.2 → p = q.
Proof.
  assert (Forall (λ p, Forall (λ q, p.2 = q.2 → p = q) sentinels) sentinels) as H
    by by apply (bool_decide_unpack _); vm_compute.
  rewrite Forall_forall in H. intros Hp. specialize (H p Hp). rewrite Forall_forall in H. apply H.
Qed.

Lemma codeFor_class order p m : order ≡ₚ sentinels → p ∈ sentinels →
  codeFor order (Wrapped (Sentinel p.2) None m) = p.1.
Proof.
  intros Ho Hp. unfold codeFor. cbn [AsUnknownSkill].
  assert (detailFor (Wrapped (Sentinel p.2) None m) = None) as ->.
  { revert p Hp. apply Forall_forall. repeat constructor. }
  unfold sentinelFor. destruct (find _ order) as [[c x]|] eqn:Hx.
  - apply find_spec in Hx as [Hin Hx]. simpl in Hx. rewrite orb_false_r in Hx.
    apply bool_decide_eq_true in Hx as ->. rewrite Ho in Hin.
    by rewrite <-(sentinels_inj _ _ Hin Hp eq_refl).
  - rewrite <-Ho in Hp. destruct p as [c x]. pose proof (find_none_spec _ _ _ Hx Hp) as Hn.
    simpl in Hn. by rewrite bool_decide_eq_true_2 in Hn.
Qed.

(** An error whose details come with their classes, and whose unknown skill comes
    with the class the wire gives it. *)
Definition classed (e : goerror) : Prop :=
  (∀ f, f ∈ detailedFailures → Is (df_detail f) e = true → Is (df_class f) e = true) ∧
  (AsUnknownSkill e ≠ None → Is ErrValidationFailed e = true).

Lemma unknown_skill_not_found e m : AsUnknownSkill e = Some m → Is ErrSkillNotFound e = true.
Proof.
  induction e as [x|n|n|e IH mapped n|e1 IH1 e2 IH2]; simpl; try done.
  - intros Hm. by rewrite IH.
  - destruct (AsUnknownSkill e1); intros Hm; [by rewrite IH1|]. by rewrite IH2, orb_true_r.
Qed.

(** What an error that arrived matches. *)
Lemma Is_pair x y z m :
  Is x (Wrapped (Join (Sentinel y) (Sentinel z)) None m) = true ↔ x = z ∨ x = y.
Proof. simpl. rewrite orb_false_r, orb_true_iff, !bool_decide_eq_true. tauto. Qed.
Lemma Is_one x y m : Is x (Wrapped (Sentinel y) None m) = true ↔ x = y.
Proof. simpl. by rewrite orb_false_r, bool_decide_eq_true. Qed.

(** C31: What a failure matches after it crossed the socket, in whatever order Go walks
    the map: an unknown skill arrives with its message and matches its sentinel and
    the class of validation failures; an error with a detail matches one of its
    details and the class listed for it; another error matches one of its published
    classes; and one that has none matches nothing. So nothing is matched that was
    not before if details come with their classes ([classed]); one that comes alone
    gains its class ([budget_gains_class]). A second hop sends the same code. *)
Theorem failure_crosses text order e :
  order ≡ₚ sentinels →
  let received := Unwrap (NewError text order e) in
  AsUnknownSkill received = AsUnknownSkill e ∧
  (∀ m, AsUnknownSkill e = Some m →
     ∀ x, Is x received = true ↔ x = ErrSkillNotFound ∨ x = ErrValidationFailed) ∧
  (AsUnknownSkill e = None →
     (∃ f, f ∈ detailedFailures ∧ Is (df_detail f) e = true ∧
        ∀ x, Is x received = true ↔ x = df_detail f ∨ x = df_class f) ∨
     ((∀ f, f ∈ detailedFailures → Is (df_detail f) e = false) ∧
      ∃ p, p ∈ sentinels ∧ Is p.2 e = true ∧ ∀ x, Is x received = true ↔ x = p.2) ∨
     ((∀ x, published x = true → Is x e = false) ∧ ∀ x, Is x received = false)) ∧
  (classed e → ∀ x, Is x received = true → Is x e = true) ∧
  we_Code (NewError text order received) = we_Code (NewError text order e).
Proof.
  intros Ho.
  destruct (crosses text order Ho e) as [m Hs|f Hs Hf Hd|p Hs Hd Hp Hc|Hs Hd Hc];
    cbn zeta; rewrite Hs; (split; [done|]).
  - assert (∀ x, Is x (Wrapped (Join (Sentinel ErrValidationFailed) (UnknownSkillError m)) None
      unknownSkillReference) = true ↔ x = ErrSkillNotFound ∨ x = ErrValidationFailed) as Hx.
    { intros x. simpl. rewrite orb_false_r, orb_true_iff, !bool_decide_eq_true. tauto. }
    split_and!; [by intros m' _|done| |done]. intros [_ Hcl] x E. apply Hx in E as [-> | ->];
      [by eapply unknown_skill_not_found|by apply Hcl; rewrite Hs].
  - split_and!; [done| | |by apply codeFor_detail].
    + intros _. left. exists f. split_and!; [done..|]. intros x. apply Is_pair.
    + intros [Hcl _] x [-> | ->]%Is_pair; [done|auto].
  - split_and!; [done| | |by apply codeFor_class].
    + intros _. right. left. split; [done|]. exists p. split_and!; [done..|]. intros x. apply Is_one.
    + intros _ x ->%Is_one. done.
  - split_and!; [done| |done|].
    + intros _. do 2 right. split; [|done].
      intros x [(f & Hf & <-)|(p & Hp & <-)]%published_cases; auto.
    + unfold NewError. simpl. unfold codeFor, detailFor, sentinelFor. simpl.
      replace (find _ order) with (@None (Code * sentinel)); [done|].
      clear. by induction order as [|[c x] o IH].
Qed.

(** A detail that comes without its class gains it: [checkSystemPromptBudget] wraps
    [ErrPromptBudgetExceeded] alone. *)
Theorem budget_gains_class text order message :
  order ≡ₚ sentinels →
  let e := Wrap (Sentinel ErrPromptBudgetExceeded) message in
  Is ErrValidationFailed e = false ∧
  Is ErrValidationFailed (Unwrap (NewError text order e)) = true.
Proof. intros _. split; by vm_compute. Qed.

Definition sample_text (e : goerror) : bytes := bs "stop: agent has finished".
Definition sample_failure : goerror :=
  Wrap (Join (Sentinel ErrConflict) (Sentinel ErrAgentRunFinished)) (bs "stop").

Lemma failure_crosses_witness :
  let received := Unwrap (NewError sample_text (rev sentinels) sample_failure) in
  Is ErrAgentRunFinished received = true ∧
  AsUnknownSkill received = AsUnknownSkill sample_failure.
Proof.
  split; [by vm_compute|].
  apply (failure_crosses sample_text (rev sentinels) sample_failure).
  symmetry. apply Permutation_rev.
Defined.

End WireErrors.
