(* ===== verification/Wire.v ===== *)
(** The frames of the worker protocol on their socket
    (src/internal/pkg/worker/protocol/frames.go, [Send] and [Receive] of conn.go):
    one frame is one line of JSON.  The JSON of a frame is an interface,
    [FrameCodec], with what the code relies on in [FrameCodecLaws]. *)
From stdpp Require Import base gmap sets list strings.
From Stdlib Require Import ZArith Lia Ascii.
From S2P Require Import Prelude GoBytes WireErrors.

Module Wire.
Import WireErrors.

Abbreviation Kind := bytes.
Definition KindHello : Kind := bs "hello".
Definition KindHelloAck : Kind := bs "helloAck".
Definition KindCall : Kind := bs "call".
Definition KindResult : Kind := bs "result".
Definition KindCommand : Kind := bs "command".
Definition KindCommandResult : Kind := bs "commandResult".

Record Frame := mkFrame {
  fr_Kind : Kind;
  fr_ID : bytes;
  fr_Method : bytes;
  fr_Payload : bytes;
  fr_Error : option WireError
}.

#[export] Instance WireError_eq_dec : EqDecision WireError.
Proof. solve_decision. Defined.
#[export] Instance Frame_eq_dec : EqDecision Frame.
Proof. solve_decision. Defined.

(** [json.Marshal] and [json.Unmarshal] of a frame.  [plain]: its texts are UTF-8
    and its payload is JSON as the package writes it. *)
Class FrameCodec := {
  Marshal : Frame → outcome bytes;
  Unmarshal : bytes → outcome Frame;
  plain : Frame → Prop
}.
Class FrameCodecLaws `{FrameCodec} : Prop := {
  marshal_one_line f b : Marshal f = Ok b → NL ∉ b;
  marshal_nonempty f b : Marshal f = Ok b → b ≠ [];
  marshal_plain f : plain f → ∃ b, Marshal f = Ok b;
  unmarshal_line f b : plain f → Marshal f = Ok b → Unmarshal (b ++ [NL]) = Ok f;
  unmarshal_all f b : plain f → Marshal f = Ok b → Unmarshal b = Ok f;
  unmarshal_torn f b n :
    plain f → Marshal f = Ok b → n < length b → ∃ e, Unmarshal (take n b) = Err e
}.

Definition maxFrameBytes : Z := 2 ^ 25.

(** A reader of a socket: what it holds, and the chunks that the socket will
    still hand out before its end. *)
Record Reader := mkReader { rd_Buffered : bytes; rd_Socket : list bytes }.

(** The text up to the first newline, the newline included. *)
Fixpoint cutLine (b : bytes) : option (bytes * bytes) :=
  match b with
  | [] => None
  | c :: b =>
      if bool_decide (c = NL) then Some ([c], b)
      else '(line, rest) ← cutLine b; Some (c :: line, rest)
  end.

(** [bufio.Reader.ReadBytes]: the line, or what was left at the end ([false]). *)
Fixpoint ReadBytes (buffered : bytes) (socket : list bytes) : bytes * bool * Reader :=
  match cutLine buffered with
  | Some (line, rest) => (line, true, mkReader rest socket)
  | None =>
      match socket with
      | [] => (buffered, false, mkReader [] [])
      | chunk :: socket => ReadBytes (buffered ++ chunk) socket
      end
  end.

Section frames.
Context `{codec : FrameCodec}.

(** [Send]: the bytes that are written. *)
Definition Send (frame : Frame) : outcome bytes :=
  encoded ← Marshal frame;
  if (maxFrameBytes <? Z.of_nat (length encoded))%Z then Err ErrFrameTooLarge
  else Ok (encoded ++ [NL]).

(** [Receive]; [None] is the end of the stream. *)
Definition Receive (r : Reader) : outcome (option Frame) * Reader :=
  let '(line, complete, r) := ReadBytes (rd_Buffered r) (rd_Socket r) in
  if negb complete && bool_decide (line = []) then (Ok None, r)
  else if (maxFrameBytes <? Z.of_nat (length line))%Z then (Err ErrValidationFailed, r)
  else (Some <$> Unmarshal line, r).

(** The loop of [Serve]: the frames it dispatches, and how it ended. *)
Fixpoint receiveAll (fuel : nat) (r : Reader) : list Frame * outcome unit :=
  match fuel with
  | O => ([], OutOfFuel)
  | S fuel =>
      match Receive r with
      | (Ok (Some frame), r) => let '(frames, o) := receiveAll fuel r in (frame :: frames, o)
      | (Ok None, _) => ([], Ok tt)
      | (Err e, _) => ([], Err e)
      | (Panic, _) => ([], Panic)
      | (OutOfFuel, _) => ([], OutOfFuel)
      end
  end.

(** The stream that a list of frames is sent as. *)
Fixpoint sendAll (frames : list Frame) : outcome bytes :=
  match frames with
  | [] => Ok []
  | f :: frames => b ← Send f; rest ← sendAll frames; Ok (b ++ rest)
  end.

(** ** Lines *)

Lemma cutLine_app b rest : NL ∉ b → cutLine (b ++ NL :: rest) = Some (b ++ [NL], rest).
Proof.
  induction b as [|c b IH]; intros Hb; [done|]. rewrite not_elem_of_cons in Hb. simpl.
  rewrite bool_decide_eq_false_2 by naive_solver. rewrite IH by naive_solver. done.
Qed.

Lemma cutLine_None b : cutLine b = None ↔ NL ∉ b.
Proof.
  induction b as [|c b IH]; simpl; [set_solver|]. rewrite not_elem_of_cons.
  case_bool_decide; [naive_solver|]. destruct (cutLine b) as [[]|]; simpl; naive_solver.
Qed.

Lemma cutLine_Some b line rest : cutLine b = Some (line, rest) →
  ∃ l, line = l ++ [NL] ∧ b = line ++ rest ∧ NL ∉ l.
Proof.
  revert line. induction b as [|c b IH]; intros line; simpl; [done|].
  case_bool_decide as Hc; [intros [= <- <-]; subst; exists []; set_solver|].
  destruct (cutLine b) as [[l' r']|]; [|done]. intros [= <- <-].
  destruct (IH l' eq_refl) as (l & -> & -> & Hl). exists (c :: l). set_solver.
Qed.

Lemma line_unique l l' r r' :
  NL ∉ l → NL ∉ l' → l ++ NL :: r = l' ++ NL :: r' → l = l' ∧ r = r'.
Proof.
  intros Hl Hl' E. pose proof (cutLine_app l r Hl) as C. rewrite E, (cutLine_app l' r' Hl') in C.
  injection C as C <-. by apply app_inj_2 in C as [-> _].
Qed.

(** A line is read whatever chunks it arrives in. *)
Lemma ReadBytes_line line rest : NL ∉ line → ∀ socket buffered,
  buffered ++ concat socket = line ++ NL :: rest →
  ∃ r, ReadBytes buffered socket = (line ++ [NL], true, r) ∧
    rd_Buffered r ++ concat (rd_Socket r) = rest.
Proof.
  intros Hl socket. induction socket as [|chunk socket IH]; intros buffered E; simpl in *.
  - rewrite app_nil_r in E. subst. rewrite cutLine_app by done. eexists. split; [done|].
    simpl. by rewrite app_nil_r.
  - destruct (cutLine buffered) as [[l r]|] eqn:Hc; [|apply IH; by rewrite <-app_assoc].
    apply cutLine_Some in Hc as (l' & -> & -> & Hl').
    rewrite <-!app_assoc in E. destruct (line_unique l' line (r ++ chunk ++ concat socket) rest)
      as [-> <-]; [done..|]. eexists. by split.
Qed.

Lemma ReadBytes_end b : NL ∉ b → ∀ socket buffered,
  buffered ++ concat socket = b → ReadBytes buffered socket = (b, false, mkReader [] []).
Proof.
  intros Hb socket. induction socket as [|chunk socket IH]; intros buffered E; simpl in *.
  - rewrite app_nil_r in E. subst. by rewrite (proj2 (cutLine_None b)).
  - rewrite (proj2 (cutLine_None buffered)); [|set_solver]. apply IH. by rewrite <-app_assoc.
Qed.

(** ** A stream of frames *)

Context `{laws : !FrameCodecLaws}.

(** A frame that is sent and can be received again: see [limit_refused]. *)
Definition fits (f : Frame) : Prop :=
  ∃ b, Marshal f = Ok b ∧ (Z.of_nat (length b) < maxFrameBytes)%Z.

Lemma fits_Send f b : fits f → Marshal f = Ok b → Send f = Ok (b ++ [NL]).
Proof.
  intros (b' & E & Hb) Hm. assert (b' = b) as -> by congruence. unfold Send. rewrite Hm. simpl.
  by rewrite (proj2 (Z.ltb_ge _ _)) by lia.
Qed.

Lemma sendAll_fits frames stream : Forall fits frames → sendAll frames = Ok stream →
  match frames with
  | [] => stream = []
  | f :: frames => ∃ b rest, Marshal f = Ok b ∧ sendAll frames = Ok rest ∧ stream = b ++ NL :: rest
  end.
Proof.
  destruct frames as [|f frames]; intros Hf; simpl; [by intros [= <-]|].
  apply Forall_cons in Hf as [(b & Hb & Hlen) _]. rewrite (fits_Send f b) by (done || by exists b).
  simpl. intros (rest & Hr & [= <-])%bind_Ok_inv. exists b, rest. by rewrite <-app_assoc.
Qed.

Lemma Receive_line f b r rest :
  plain f → fits f → Marshal f = Ok b → rd_Buffered r ++ concat (rd_Socket r) = b ++ NL :: rest →
  ∃ r', Receive r = (Ok (Some f), r') ∧ rd_Buffered r' ++ concat (rd_Socket r') = rest.
Proof.
  intros Hp (b' & E & Hlen) Hm Hr. assert (b' = b) as -> by congruence.
  destruct (ReadBytes_line b rest (marshal_one_line _ _ Hm) _ _ Hr) as (r' & Hr' & Hrest).
  exists r'. split; [|done]. unfold Receive. rewrite Hr'. simpl. rewrite length_app. simpl.
  by rewrite (proj2 (Z.ltb_ge _ _)), (unmarshal_line f b) by (done || lia).
Qed.

Lemma Receive_torn f b r n :
  plain f → fits f → Marshal f = Ok b → n ≤ length b →
  rd_Buffered r ++ concat (rd_Socket r) = take n b →
  ∃ o, Receive r = (o, mkReader [] []) ∧
    (n = 0 ∧ o = Ok None ∨ n = length b ∧ o = Ok (Some f) ∨ 0 < n < length b ∧ ∃ e, o = Err e).
Proof.
  intros Hp (b' & E & Hlen) Hm Hn Hr. assert (b' = b) as -> by congruence.
  assert (NL ∉ take n b) as Hno.
  { intros Hin. apply (marshal_one_line _ _ Hm). rewrite <-(take_drop n b). set_solver. }
  unfold Receive. rewrite (ReadBytes_end _ Hno _ _ Hr). simpl.
  pose proof (marshal_nonempty _ _ Hm) as Hne. case_bool_decide as H1.
  { eexists. split; [done|left]. split; [|done]. apply (f_equal length) in H1.
    rewrite length_take in H1. simpl in H1. destruct b; [done|]. simpl in H1. lia. }
  assert (n ≠ 0) by (intros ->; by apply H1).
  rewrite length_take, (proj2 (Z.ltb_ge _ _)) by lia. eexists. split; [done|right].
  destruct (decide (n = length b)) as [->|Hlt].
  - left. by rewrite take_ge, (unmarshal_all f b) by done.
  - right. split; [lia|]. destruct (unmarshal_torn f b n) as [e ->]; [done..|lia|]. by exists e.
Qed.

Lemma Receive_end r : rd_Buffered r ++ concat (rd_Socket r) = [] → Receive r = (Ok None, mkReader [] []).
Proof. intros E. unfold Receive. by rewrite (ReadBytes_end [] ltac:(set_solver) _ _ E). Qed.

(** The frames whose JSON is whole among the first [n] bytes of the stream; a last
    frame need not have its newline. *)
Fixpoint arrived (n : nat) (frames : list Frame) : list Frame :=
  match frames with
  | [] => []
  | f :: frames =>
      match Marshal f with
      | Ok b => if decide (length b ≤ n) then f :: arrived (n - S (length b)) frames else []
      | _ => []
      end
  end.

(** How many of the [n] bytes are of a frame that did not arrive whole. *)
Fixpoint torn (n : nat) (frames : list Frame) : nat :=
  match frames with
  | [] => 0
  | f :: frames =>
      match Marshal f with
      | Ok b => if decide (length b ≤ n) then torn (n - S (length b)) frames else n
      | _ => 0
      end
  end.

(** How the loop ends: cleanly between two frames, with an error inside of one. *)
Definition ending (n : nat) (frames : list Frame) (o : outcome unit) : Prop :=
  if decide (torn n frames = 0) then o = Ok tt else ∃ e, o = Err e.

Lemma arrived_all frames stream n :
  Forall fits frames → sendAll frames = Ok stream → length stream ≤ n →
  arrived n frames = frames ∧ torn n frames = 0.
Proof.
  revert stream n. induction frames as [|f frames IH]; intros stream n Hf Hs Hn; [done|].
  pose proof Hf as Hf'. apply sendAll_fits in Hs as (b & rest & Hb & Hr & ->); [|done].
  apply Forall_cons in Hf' as [_ Hf']. rewrite length_app in Hn. simpl in *. rewrite Hb.
  rewrite !decide_True by lia.
  destruct (IH rest (n - S (length b)) Hf' Hr) as [-> ->]; [lia|done].
Qed.

Lemma arrived_none frames : arrived 0 frames = [] ∧ torn 0 frames = 0.
Proof.
  destruct frames as [|f frames]; [done|]. simpl. destruct (Marshal f) as [b|e| |] eqn:Hb; [|done..].
  apply marshal_nonempty in Hb. destruct b; [done|]. by rewrite !decide_False by (simpl; lia).
Qed.

Lemma stream_from r frames stream n fuel :
  Forall plain frames → Forall fits frames → sendAll frames = Ok stream →
  rd_Buffered r ++ concat (rd_Socket r) = take n stream → length frames < fuel →
  ∃ o, receiveAll fuel r = (arrived n frames, o) ∧ ending n frames o.
Proof.
  unfold ending. revert r stream n fuel. induction frames as [|f frames IH];
    intros r stream n [|fuel] Hp Hf Hs Hc Hfuel; [lia| |lia|]; cbn [receiveAll].
  - apply (sendAll_fits []) in Hs as ->; [|done]. rewrite take_nil in Hc.
    rewrite Receive_end by done. by exists (Ok tt).
  - pose proof Hf as Hf'. apply sendAll_fits in Hs as (b & rest & Hb & Hr & ->); [|done].
    apply Forall_cons in Hp as [Hpf Hp]. apply Forall_cons in Hf as [Hff Hf]. simpl in Hfuel.
    pose proof (marshal_nonempty _ _ Hb) as Hne.
    assert (0 < length b) by (destruct b; [done|simpl; lia]).
    cbn [arrived torn]. rewrite Hb. destruct (decide (length b < n)) as [Hn|Hn].
    + rewrite take_app, (take_ge b n) in Hc by lia.
      replace (n - length b) with (S (n - S (length b))) in Hc by lia. simpl in Hc.
      destruct (Receive_line f b r _ Hpf Hff Hb Hc) as (r' & -> & Hr').
      destruct (IH r' rest _ fuel Hp Hf Hr Hr' ltac:(lia)) as (o & -> & Ho).
      rewrite !(decide_True (P := length b ≤ n)) by lia. by exists o.
    + rewrite take_app_le in Hc by lia.
      destruct (Receive_torn f b r n Hpf Hff Hb ltac:(lia) Hc) as (o & -> & Hcase).
      destruct (decide (length b ≤ n)) as [Hall|Hpart].
      * assert (o = Ok (Some f)) as -> by (destruct Hcase as [[? _]|[[_ ?]|[? _]]]; [lia|done|lia]).
        replace (n - S (length b)) with 0 by lia. destruct (arrived_none frames) as [-> ->].
        destruct (IH (mkReader [] []) rest 0 fuel Hp Hf Hr eq_refl ltac:(lia)) as (o & -> & Ho).
        destruct (arrived_none frames) as [Ha Ht]. rewrite Ht in Ho. rewrite Ha. by exists o.
      * destruct Hcase as [[-> ->]|[[? _]|[? [e ->]]]]; [by exists (Ok tt)|lia|].
        exists (Err e). split; [done|]. rewrite decide_False by lia. by exists e.
Qed.


(** A frame of exactly the limit is sent, and refused by its reader, which counts
    the newline: the connection ends. *)
Lemma limit_refused f b :
  Marshal f = Ok b → Z.of_nat (length b) = maxFrameBytes →
  Send f = Ok (b ++ [NL]) ∧ (Receive (mkReader [] [b ++ [NL]])).1 = Err ErrValidationFailed.
Proof.
  intros Hm Hb. split.
  - unfold Send. rewrite Hm. simpl. by rewrite Hb, Z.ltb_irrefl.
  - destruct (ReadBytes_line b [] (marshal_one_line _ _ Hm) [b ++ [NL]] []) as (r & Hr & _).
    { simpl. by rewrite app_nil_r. }
    unfold Receive. simpl rd_Buffered. simpl rd_Socket. rewrite Hr. simpl.
    rewrite length_app. simpl. by rewrite (proj2 (Z.ltb_lt _ _)) by lia.
Qed.

End frames.

(** ** A codec *)

Section codec.
Local Open Scope char_scope.

#[export] Instance WireError_countable : Countable WireError.
Proof.
  refine (inj_countable' (λ e, (we_Code e, we_Message e)) (λ '(c, m), mkWireError c m) _).
  by intros [].
Defined.
#[export] Instance Frame_countable : Countable Frame.
Proof.
  refine (inj_countable'
    (λ f, (fr_Kind f, fr_ID f, fr_Method f, fr_Payload f, fr_Error f))
    (λ '(k, i, m, p, e), mkFrame k i m p e) _).
  by intros [].
Defined.

Fixpoint digits (p : positive) : bytes :=
  match p with xH => ["."] | xO p => "0" :: digits p | xI p => "1" :: digits p end.
Fixpoint number (b : bytes) : option positive :=
  match b with
  | c :: b => if bool_decide (c = "0") then xO <$> number b
              else if bool_decide (c = "1") then xI <$> number b
              else if bool_decide (c = ".") then Some xH else None
  | [] => None
  end.

Definition sample_codec : FrameCodec := {|
  Marshal f := Ok (digits (encode f));
  Unmarshal b :=
    match number b ≫= decode with Some f => Ok f | None => Err ErrParseFailed end;
  plain _ := True
|}.

Lemma number_digits p b : number (digits p ++ b) = Some p.
Proof. induction p as [p IH|p IH|]; simpl; [by rewrite IH..|done]. Qed.

Lemma number_torn p n : n < length (digits p) → number (take n (digits p)) = None.
Proof.
  revert n. induction p as [p IH|p IH|]; intros [|n] Hn; simpl in *; try done; [|..].
  - by rewrite IH by lia.
  - by rewrite IH by lia.
  - lia.
Qed.

Lemma sample_codec_laws : FrameCodecLaws (H := sample_codec).
Proof.
  split; simpl.
  - intros f b [= <-]. induction (encode f) as [p IH|p IH|]; simpl; set_solver.
  - intros f b [= <-]. by destruct (encode f).
  - eauto.
  - intros f b _ [= <-]. rewrite number_digits. simpl. by rewrite decode_encode.
  - intros f b _ [= <-]. rewrite <-(app_nil_r (digits _)), number_digits. simpl. by rewrite decode_encode.
  - intros f b n _ [= <-] Hn. rewrite number_torn by done. eauto.
Qed.

Definition sample_frames : list Frame :=
  [mkFrame KindCall (bs "1") (bs "job.get") (bs "{}") None;
   mkFrame KindResult (bs "1") [] [] (Some (mkWireError CodeNotFound (bs "no job")))].
Definition sample_stream : bytes :=
  match sendAll (codec := sample_codec) sample_frames with Ok b => b | _ => [] end.

(** Twenty-five bytes before the end, inside of the second frame. *)
Definition sample_cut : nat := length sample_stream - 25.


End codec.
End Wire.
