(* ===== verification/Rpc.v ===== *)
(** The calls over one worker connection (src/internal/pkg/worker/protocol/conn.go):
    both sides call each other over one socket, each with one read loop that
    completes its own calls and starts a goroutine for each request.  The
    connection is a transition system of two endpoints; a frame is in the list of
    the endpoint that will read it (Wire shows that the stream keeps them). *)
From stdpp Require Import functions base gmap sets list strings.
From Stdlib Require Import ZArith Lia Ascii.
From S2P Require Import Prelude GoBytes WireErrors Wire.

Module Rpc.
Import WireErrors Wire.

(** ** One connection *)

(** [pending]: the channel of each call, of one frame. *)
Record Conn := mkConn { cn_Pending : gmap bytes (option Frame); cn_Closed : bool }.
Definition NewConn : Conn := mkConn ∅ false.
Definition Close (c : Conn) : Conn := mkConn (cn_Pending c) true.
Definition setPending (pending : gmap bytes (option Frame)) (c : Conn) : Conn :=
  mkConn pending (cn_Closed c).

Definition answerKind (request : Kind) : Kind :=
  if bool_decide (request = KindCommand) then KindCommandResult else KindResult.

Section conn.
Context `{codec : FrameCodec} {V : Type}.
(** [json.Marshal] of a result, [err.Error()] and the order of the sentinels. *)
Variables (marshal : V → option bytes) (text : goerror → bytes) (order : list (Code * sentinel)).

Definition encodePayload (value : option V) : option bytes :=
  match value with None => Some [] | Some v => marshal v end.

(** [Send] on a connection; [written] is whether the socket took the bytes. *)
Definition trySend (c : Conn) (frame : Frame) (written : bool) : outcome unit :=
  _ ← Send frame;
  if cn_Closed c || negb written then Err ErrFailed else Ok tt.

Definition errorReply (frame : Frame) (e : goerror) : Frame :=
  mkFrame (answerKind (fr_Kind frame)) (fr_ID frame) [] [] (Some (NewError text order e)).
Definition resultReply (frame : Frame) (payload : bytes) : Frame :=
  mkFrame (answerKind (fr_Kind frame)) (fr_ID frame) [] payload None.

(** The connection after a reply, and the frames that were sent. *)
Definition replyError (c : Conn) (frame : Frame) (e : goerror) (written : bool)
    : Conn * list Frame :=
  match trySend c (errorReply frame e) written with
  | Ok _ => (c, [errorReply frame e])
  | _ => (Close c, [])
  end.

Definition complete (frame : Frame) (c : Conn) : Conn :=
  match cn_Pending c !! fr_ID frame with
  | Some None => setPending (<[fr_ID frame := Some frame]> (cn_Pending c)) c
  | _ => c
  end.

Definition alreadyRegistered : goerror :=
  Wrap (Sentinel ErrConflict) (bs "worker is already registered").

(** What a received frame starts: the frames sent, and the request to answer. *)
Definition dispatch (c : Conn) (frame : Frame) (written : bool)
    : Conn * list Frame * list Frame :=
  if bool_decide (fr_Kind frame ∈ [KindResult; KindCommandResult; KindHelloAck])
  then (complete frame c, [], [])
  else if bool_decide (fr_Kind frame ∈ [KindCall; KindCommand]) then (c, [], [frame])
  else if bool_decide (fr_Kind frame = KindHello) then
    (replyError c frame alreadyRegistered written, [])
  else (c, [], []).

(** How a handler ended. *)
Inductive handled :=
  | HandlerResult (value : option V)
  | HandlerError (e : goerror)
  | HandlerPanic.

Definition handlerPanicked : goerror :=
  Wrap (Sentinel ErrExecFailed) (bs "worker protocol handler panicked").
Definition encodeFailed : goerror := Wrap (Plain (bs "json")) (bs "encode protocol payload").
(** [errFrameTooLarge] is a wrapped [ErrValidationFailed] with an identity. *)
Definition frameTooLarge : goerror :=
  Wrap (Join (Sentinel ErrFrameTooLarge) (Sentinel ErrValidationFailed))
       (bs "protocol frame exceeds the limit").

Definition invoke (h : handled) : goerror + option V :=
  match h with
  | HandlerResult v => inr v
  | HandlerError e => inl (Wrap e (bs "serve"))
  | HandlerPanic => inl handlerPanicked
  end.

Definition answer (c : Conn) (frame : Frame) (h : handled) (written written' : bool)
    : Conn * list Frame :=
  match invoke h with
  | inl e => replyError c frame e written
  | inr v =>
      match encodePayload v with
      | None => replyError c frame encodeFailed written
      | Some payload =>
          match trySend c (resultReply frame payload) written with
          | Ok _ => (c, [resultReply frame payload])
          | Err e => if bool_decide (e = ErrFrameTooLarge)
                     then replyError c frame frameTooLarge written' else (Close c, [])
          | _ => (Close c, [])
          end
      end
  end.

(** ** Calls *)

Inductive callResult :=
  | Answered (payload : bytes)
  | Failed (e : goerror)
  | ConnectionClosed
  | ContextDone
  | NotSent (e : sentinel).

Inductive stage := Registered | Awaiting | Returned (r : callResult).

Record Call := mkCall { ca_Kind : Kind; ca_Method : bytes; ca_Payload : bytes; ca_Stage : stage }.
Definition atStage (st : stage) (call : Call) : Call :=
  mkCall (ca_Kind call) (ca_Method call) (ca_Payload call) st.

Definition requestFrame (id : bytes) (call : Call) : Frame :=
  mkFrame (ca_Kind call) id (ca_Method call) (ca_Payload call) None.

(** What an awaited frame gives its caller. *)
Definition awaited (frame : Frame) : callResult :=
  match fr_Error frame with Some e => Failed (Unwrap e) | None => Answered (fr_Payload frame) end.

(** ** Two endpoints *)

Inductive side := WorkerSide | ControllerSide.
#[export] Instance side_eq_dec : EqDecision side.
Proof. solve_decision. Defined.
Definition peer (s : side) : side :=
  match s with WorkerSide => ControllerSide | ControllerSide => WorkerSide end.

(** The frames to read, the goroutines that answer, the calls made so far and, as
    history, the requests that the handler answered. *)
Record Endpoint := mkEndpoint {
  ep_Conn : Conn;
  ep_Incoming : list Frame;
  ep_Serving : list Frame;
  ep_Calls : gmap bytes Call;
  ep_Served : list (Frame * handled)
}.
Definition emptyEndpoint : Endpoint := mkEndpoint NewConn [] [] ∅ [].

Definition setConn (c : Conn) (e : Endpoint) : Endpoint :=
  mkEndpoint c (ep_Incoming e) (ep_Serving e) (ep_Calls e) (ep_Served e).
Definition arrive (frames : list Frame) (e : Endpoint) : Endpoint :=
  mkEndpoint (ep_Conn e) (ep_Incoming e ++ frames) (ep_Serving e) (ep_Calls e) (ep_Served e).

(** [Call]: the channel is registered before the frame is sent. *)
Definition startCall (id : bytes) (kind : Kind) (method payload : bytes) (e : Endpoint) : Endpoint :=
  mkEndpoint (setPending (<[id := None]> (cn_Pending (ep_Conn e))) (ep_Conn e))
    (ep_Incoming e) (ep_Serving e)
    (<[id := mkCall kind method payload Registered]> (ep_Calls e)) (ep_Served e).

Definition setStage (id : bytes) (st : stage) (e : Endpoint) : Endpoint :=
  mkEndpoint (ep_Conn e) (ep_Incoming e) (ep_Serving e)
    (alter (atStage st) id (ep_Calls e)) (ep_Served e).

(** The deferred removal of the channel, when the call returns. *)
Definition returnCall (id : bytes) (r : callResult) (e : Endpoint) : Endpoint :=
  setStage id (Returned r)
    (setConn (setPending (delete id (cn_Pending (ep_Conn e))) (ep_Conn e)) e).

(** The endpoint after it sends its request, and the frames sent. *)
Definition sendCall (id : bytes) (call : Call) (written : bool) (e : Endpoint)
    : Endpoint * list Frame :=
  match trySend (ep_Conn e) (requestFrame id call) written with
  | Ok _ => (setStage id Awaiting e, [requestFrame id call])
  | Err err => (returnCall id (NotSent err) e, [])
  | _ => (e, [])
  end.

(** A frame that [Send] lets through and [Receive] refuses (Wire.[limit_refused]). *)
Definition unreadable (frame : Frame) : bool :=
  match Send frame with
  | Ok line => (maxFrameBytes <? Z.of_nat (length line))%Z
  | _ => false
  end.

(** One turn of the read loop, which ends and closes at a frame it cannot read. *)
Definition receiveFrame (frame : Frame) (rest : list Frame) (written : bool) (e : Endpoint)
    : Endpoint * list Frame :=
  if unreadable frame
  then (mkEndpoint (Close (ep_Conn e)) rest (ep_Serving e) (ep_Calls e) (ep_Served e), [])
  else
  let '(c, sent, started) := dispatch (ep_Conn e) frame written in
  (mkEndpoint c rest (ep_Serving e ++ started) (ep_Calls e) (ep_Served e), sent).

Definition answerRequest (frame : Frame) (others : list Frame) (h : handled)
    (written written' : bool) (e : Endpoint) : Endpoint * list Frame :=
  let '(c, sent) := answer (ep_Conn e) frame h written written' in
  (mkEndpoint c (ep_Incoming e) others (ep_Calls e) (ep_Served e ++ [(frame, h)]), sent).

Abbreviation system := (side → Endpoint).
Definition initial : system := λ _, emptyEndpoint.

(** One side acts, and what it sends arrives at the other. *)
Definition acts (s : side) (r : Endpoint * list Frame) (sys : system) : system :=
  <[s := r.1]> (<[peer s := arrive r.2 (sys (peer s))]> sys).

Inductive step (sys : system) : system → Prop :=
  | CallStarts s id kind method payload :
      ep_Calls (sys s) !! id = None → kind ∈ [KindCall; KindCommand] →
      step sys (acts s (startCall id kind method payload (sys s), []) sys)
  | CallSends s id call written :
      ep_Calls (sys s) !! id = Some call → ca_Stage call = Registered →
      step sys (acts s (sendCall id call written (sys s)) sys)
  | CallReturns s id call frame :
      ep_Calls (sys s) !! id = Some call → ca_Stage call = Awaiting →
      cn_Pending (ep_Conn (sys s)) !! id = Some (Some frame) →
      step sys (acts s (returnCall id (awaited frame) (sys s), []) sys)
  | CallSeesClose s id call :
      ep_Calls (sys s) !! id = Some call → ca_Stage call = Awaiting →
      cn_Closed (ep_Conn (sys s)) = true →
      step sys (acts s (returnCall id ConnectionClosed (sys s), []) sys)
  | CallCancelled s id call :
      ep_Calls (sys s) !! id = Some call → ca_Stage call = Awaiting →
      step sys (acts s (returnCall id ContextDone (sys s), []) sys)
  | Receives s frame rest written :
      ep_Incoming (sys s) = frame :: rest →
      step sys (acts s (receiveFrame frame rest written (sys s)) sys)
  | Answers s frame before after h written written' :
      ep_Serving (sys s) = before ++ frame :: after →
      step sys (acts s (answerRequest frame (before ++ after) h written written' (sys s)) sys)
  | Closes s :
      step sys (acts s (setConn (Close (ep_Conn (sys s))) (sys s), []) sys).

Definition reachable (sys : system) : Prop := rtc step initial sys.

(** ** The invariant *)

Definition isRequest (f : Frame) : bool := bool_decide (fr_Kind f ∈ [KindCall; KindCommand]).
Definition isAnswer (f : Frame) : bool := bool_decide (fr_Kind f ∈ [KindResult; KindCommandResult]).

(** A frame that the answer of a request may be. *)
Definition repliesTo (f : Frame) (h : handled) (g : Frame) : Prop :=
  match invoke h with
  | inl e => g = errorReply f e
  | inr v =>
      match encodePayload v with
      | None => g = errorReply f encodeFailed
      | Some payload => g = resultReply f payload ∨ g = errorReply f frameTooLarge
      end
  end.

Definition requestsAt (callee : Endpoint) : list Frame :=
  filter isRequest (ep_Incoming callee) ++ ep_Serving callee ++ (ep_Served callee).*1.

(** The request is that of a call that was sent. *)
Definition issued (calls : gmap bytes Call) (f : Frame) : Prop :=
  ∃ call, calls !! fr_ID f = Some call ∧ f = requestFrame (fr_ID f) call ∧ ca_Stage call ≠ Registered.

(** The answer is one that the handler of the other side gave. *)
Definition backed (callee : Endpoint) (g : Frame) : Prop :=
  ∃ f h, (f, h) ∈ ep_Served callee ∧ fr_ID f = fr_ID g ∧ repliesTo f h g.

Definition settledBy (callee : Endpoint) (id : bytes) (r : callResult) : Prop :=
  match r with
  | Answered _ | Failed _ =>
      ∃ f h g, (f, h) ∈ ep_Served callee ∧ fr_ID f = id ∧ repliesTo f h g ∧ r = awaited g
  | _ => True
  end.

(** Where the answer of a call that waits is. *)
Definition underway (caller callee : Endpoint) (id : bytes) : Prop :=
  cn_Closed (ep_Conn caller) = true ∨ cn_Closed (ep_Conn callee) = true ∨
  id ∈ fr_ID <$> filter isRequest (ep_Incoming callee) ∨ id ∈ fr_ID <$> ep_Serving callee ∨
  id ∈ fr_ID <$> filter isAnswer (ep_Incoming caller) ∨
  ∃ g, cn_Pending (ep_Conn caller) !! id = Some (Some g).

(** The calls of one side, and what has become of them on the other. *)
Record directed (caller callee : Endpoint) : Prop := {
  d_issued : Forall (issued (ep_Calls caller)) (requestsAt callee);
  d_once : NoDup (fr_ID <$> requestsAt callee);
  d_incoming : Forall (λ f, isRequest f = true ∨ isAnswer f = true ∧ backed callee f) (ep_Incoming caller);
  d_pending id g :
    cn_Pending (ep_Conn caller) !! id = Some (Some g) → fr_ID g = id ∧ backed callee g;
  d_kind id call :
    ep_Calls caller !! id = Some call → ca_Kind call ∈ [KindCall; KindCommand];
  d_returned id call r :
    ep_Calls caller !! id = Some call → ca_Stage call = Returned r → settledBy callee id r;
  d_channel id call :
    ep_Calls caller !! id = Some call → (∀ r, ca_Stage call ≠ Returned r) →
    is_Some (cn_Pending (ep_Conn caller) !! id);
  d_underway id call :
    ep_Calls caller !! id = Some call → ca_Stage call = Awaiting → underway caller callee id
}.

Lemma isRequest_not_answer f : isRequest f = true → isAnswer f = false.
Proof.
  unfold isRequest, isAnswer. rewrite bool_decide_eq_true, !elem_of_cons, elem_of_nil.
  by intros [-> | [-> | []]].
Qed.

Lemma isRequest_not_result f : isRequest f = true →
  bool_decide (fr_Kind f ∈ [KindResult; KindCommandResult; KindHelloAck]) = false.
Proof.
  unfold isRequest. rewrite bool_decide_eq_true, !elem_of_cons, elem_of_nil.
  by intros [-> | [-> | []]].
Qed.

Lemma answer_isAnswer f g h : repliesTo f h g → isAnswer g = true ∧ fr_ID g = fr_ID f.
Proof.
  assert (∀ p e, isAnswer (mkFrame (answerKind (fr_Kind f)) (fr_ID f) [] p e) = true) as Ha.
  { intros p e. unfold answerKind. by destruct (bool_decide (fr_Kind f = KindCommand)). }
  unfold repliesTo, errorReply, resultReply.
  destruct (invoke h); [intros ->; by rewrite Ha|].
  destruct (encodePayload _); [intros [-> | ->]|intros ->]; by rewrite Ha.
Qed.

Lemma answer_isRequest f g h : repliesTo f h g → isRequest g = false.
Proof.
  intros [Ha _]%answer_isAnswer. destruct (isRequest g) eqn:Hr; [|done].
  apply isRequest_not_answer in Hr. congruence.
Qed.

Lemma requestFrame_isRequest id call :
  ca_Kind call ∈ [KindCall; KindCommand] → isRequest (requestFrame id call) = true.
Proof. intros H. by apply bool_decide_eq_true. Qed.

Lemma replyError_cases c f e written :
  replyError c f e written = (c, [errorReply f e]) ∨ replyError c f e written = (Close c, []).
Proof. unfold replyError. destruct (trySend _ _ _); auto. Qed.

Lemma answer_cases c f h written written' :
  (∃ g, answer c f h written written' = (c, [g]) ∧ repliesTo f h g) ∨
  answer c f h written written' = (Close c, []).
Proof.
  unfold answer, repliesTo. destruct (invoke h) as [e|v].
  { destruct (replyError_cases c f e written) as [-> | ->]; eauto. }
  destruct (encodePayload v) as [payload|].
  2: { destruct (replyError_cases c f encodeFailed written) as [-> | ->]; eauto. }
  destruct (trySend _ _ _) as [[]|e| |]; [eauto| |auto..].
  case_bool_decide; [|auto].
  destruct (replyError_cases c f frameTooLarge written') as [-> | ->]; eauto.
Qed.

Lemma backed_mono callee callee' g :
  ep_Served callee ⊆ ep_Served callee' → backed callee g → backed callee' g.
Proof. intros Hs (f & h & Hin & ?). exists f, h. auto. Qed.

Lemma settledBy_mono callee callee' id r :
  ep_Served callee ⊆ ep_Served callee' → settledBy callee id r → settledBy callee' id r.
Proof. destruct r; simpl; try done; intros Hs (f & h & g & Hin & ?); exists f, h, g; auto. Qed.

(** A step of one side keeps both directions. *)
Definition keeps (e p : Endpoint) (r : Endpoint * list Frame) : Prop :=
  directed e p → directed p e →
  directed r.1 (arrive r.2 p) ∧ directed (arrive r.2 p) r.1.

Lemma arrive_nil e : arrive [] e = e.
Proof. destruct e. unfold arrive. simpl. by rewrite app_nil_r. Qed.

(** A call that begins, or its return. *)
Lemma startCall_keeps e p id kind method payload :
  ep_Calls e !! id = None → kind ∈ [KindCall; KindCommand] →
  keeps e p (startCall id kind method payload e, []).
Proof.
  intros Hid Hk D D'. simpl. rewrite arrive_nil. split; [|by destruct D'; constructor].
  destruct D as [Di Do Da Dp Dk Dr Dc Du]. constructor; simpl; try done.
  - eapply Forall_impl; [exact Di|]. simpl. intros f (call & Hc & Hf). exists call.
    rewrite lookup_insert_ne by congruence. done.
  - intros i g. rewrite lookup_insert_Some. intros [[_ ?]|[_ ?]]; [done|auto].
  - intros i call. rewrite lookup_insert_Some. intros [[_ <-]|[_ ?]]; [done|eauto].
  - intros i call r. rewrite lookup_insert_Some. intros [[_ <-]|[_ ?]]; [done|eauto].
  - intros i call. rewrite !lookup_insert_Some, lookup_insert_is_Some.
    intros [[-> _]|[? ?]]; [auto|right; eauto].
  - intros i call. rewrite lookup_insert_Some. intros [[_ <-]|[Hi Hc]] Ha; [done|].
    unfold underway. simpl. rewrite lookup_insert_ne by done. by eapply Du.
Qed.

(** The stage of one call changes. *)
Lemma issued_alter calls id st f : st ≠ Registered →
  issued calls f → issued (alter (atStage st) id calls) f.
Proof.
  intros Hst (call & Hc & Hf & Hs). destruct (decide (id = fr_ID f)) as [->|Hne].
  - exists (atStage st call). rewrite lookup_alter_eq, Hc. done.
  - exists call. by rewrite lookup_alter_ne.
Qed.

Lemma alter_stage_Some (calls : gmap bytes Call) id st i call :
  alter (atStage st) id calls !! i = Some call →
  (i = id ∧ ∃ call', calls !! id = Some call' ∧ call = atStage st call') ∨
  (i ≠ id ∧ calls !! i = Some call).
Proof.
  destruct (decide (i = id)) as [->|Hne].
  - rewrite lookup_alter_eq. intros (call' & Hc & ->)%fmap_Some. eauto.
  - rewrite lookup_alter_ne by done. auto.
Qed.

Lemma returnCall_keeps e p id r :
  (directed e p → settledBy p id r) → keeps e p (returnCall id r e, []).
Proof.
  intros Hr D D'. simpl. rewrite arrive_nil. split; [|by destruct D'; constructor].
  specialize (Hr D). destruct D as [Di Do Da Dp Dk Dr Dc Du]. constructor; simpl; try done.
  - eapply Forall_impl; [exact Di|]. intros f. by apply issued_alter.
  - intros i g [_ Hg]%lookup_delete_Some. auto.
  - intros i call [[-> (call' & Hc & ->)]|[_ Hc]]%alter_stage_Some; [exact (Dk id call' Hc)|eauto].
  - intros i call r' [[-> (call' & Hc & ->)]|[_ Hc]]%alter_stage_Some; simpl.
    { intros [= <-]. exact Hr. } eauto.
  - intros i call [[-> (call' & Hc & ->)]|[Hi Hc]]%alter_stage_Some Hs; [by destruct (Hs r)|].
    rewrite lookup_delete_ne by done. eauto.
  - intros i call [[-> (call' & Hc & ->)]|[Hi Hc]]%alter_stage_Some Hs; [done|].
    unfold underway. simpl. rewrite lookup_delete_ne by done. by eapply Du.
Qed.

Lemma sendCall_keeps e p id call written :
  ep_Calls e !! id = Some call → ca_Stage call = Registered →
  keeps e p (sendCall id call written e).
Proof.
  intros Hc Hs. unfold sendCall. destruct (trySend _ _ _) as [[]|err| |];
    [|by apply returnCall_keeps|by intros D D'; simpl; rewrite arrive_nil..].
  intros D D'. simpl. pose proof (requestFrame_isRequest id call (d_kind _ _ D _ _ Hc)) as Hreq.
  assert (requestsAt (arrive [requestFrame id call] p) ≡ₚ requestFrame id call :: requestsAt p) as Hperm.
  { unfold requestsAt. simpl. rewrite filter_app, filter_cons_True by by rewrite Hreq.
    rewrite filter_nil, <-app_assoc. by rewrite Permutation_middle. }
  split.
  - destruct D as [Di Do Da Dp Dk Dr Dc Du]. constructor; simpl.
    + rewrite Hperm. constructor.
      * exists (atStage Awaiting call). simpl. by rewrite lookup_alter_eq, Hc.
      * eapply Forall_impl; [exact Di|]. intros f. by apply issued_alter.
    + rewrite Hperm. simpl. constructor; [|done]. intros (f & Hf & Hin)%list_elem_of_fmap.
      rewrite Forall_forall in Di. destruct (Di _ Hin) as (call' & Hc' & _ & Hs'). congruence.
    + done.
    + done.
    + intros i c [[-> (c' & Hc' & ->)]|[_ Hc']]%alter_stage_Some; [exact (Dk id c' Hc')|eauto].
    + intros i c r [[-> (c' & Hc' & ->)]|[_ Hc']]%alter_stage_Some; [done|eauto].
    + intros i c [[-> (c' & Hc' & ->)]|[_ Hc']]%alter_stage_Some Hr; [|eauto].
      apply (Dc id call Hc). by rewrite Hs.
    + unfold underway. simpl. intros i c [[-> (c' & Hc' & ->)]|[_ Hc']]%alter_stage_Some Ha.
      * right; right; left. rewrite filter_app, filter_cons_True by by rewrite Hreq.
        rewrite fmap_app. simpl. set_solver.
      * destruct (Du _ _ Hc' Ha) as [?|[?|[Hin|?]]]; auto. right; right; left.
        rewrite filter_app, fmap_app. set_solver.
  - destruct D' as [Di Do Da Dp Dk Dr Dc Du]. constructor; simpl; try done.
    + apply Forall_app_2; [done|]. constructor; [auto|constructor].
    + intros i c Hc' Ha. destruct (Du _ _ Hc' Ha) as [?|[?|[?|[?|[Hin|?]]]]]; unfold underway; simpl; auto 10.
      do 4 right. left. rewrite filter_app, fmap_app. set_solver.
Qed.

(** A side that closes; what it had not read may be lost. *)
Lemma closing_keeps e p before rest :
  directed e p → directed p e → ep_Incoming e = before ++ rest →
  let e' := mkEndpoint (Close (ep_Conn e)) rest (ep_Serving e) (ep_Calls e) (ep_Served e) in
  directed e' p ∧ directed p e'.
Proof.
  intros D D' Hin e'.
  assert (requestsAt e = filter isRequest before ++ requestsAt e') as Hreq.
  { unfold requestsAt. rewrite Hin, filter_app, <-app_assoc. done. }
  split.
  - destruct D as [Di Do Da Dp Dk Dr Dc Du]. constructor; simpl; try done.
    + rewrite Hin in Da. by apply Forall_app in Da as [_ Da].
    + intros i c Hc Ha. by left.
  - destruct D' as [Di Do Da Dp Dk Dr Dc Du]. constructor; simpl; try done.
    + rewrite Hreq in Di. by apply Forall_app in Di as [_ Di].
    + rewrite Hreq, fmap_app in Do. by apply NoDup_app in Do as (_ & _ & Do).
    + intros i c Hc Ha. right. by left.
Qed.

Lemma closed_keeps e p : keeps e p (setConn (Close (ep_Conn e)) e, []).
Proof. intros D D'. simpl. rewrite arrive_nil. by apply (closing_keeps e p []). Qed.

(** An answer reaches the call that waits for it. *)
Lemma complete_keeps e p frame rest :
  ep_Incoming e = frame :: rest → isAnswer frame = true →
  directed e p → directed p e →
  let e' := mkEndpoint (complete frame (ep_Conn e)) rest (ep_Serving e ++ []) (ep_Calls e) (ep_Served e) in
  directed e' p ∧ directed p e'.
Proof.
  intros Hin Ha D D' e'.
  assert (isRequest frame = false) as Hreq.
  { destruct (isRequest frame) eqn:Hr; [|done]. apply isRequest_not_answer in Hr. congruence. }
  assert (requestsAt e' = requestsAt e) as Er.
  { unfold requestsAt. simpl. rewrite Hin, app_nil_r, filter_cons_False; [done|]. rewrite Hreq. by intros []. }
  pose proof (d_incoming _ _ D) as Hinc. rewrite Hin, Forall_cons in Hinc.
  destruct Hinc as [[?|[_ Hback]] Hinc]; [congruence|].
  assert (∀ i, is_Some (cn_Pending (ep_Conn e) !! i) → is_Some (cn_Pending (complete frame (ep_Conn e)) !! i))
    as Hsome.
  { intros i Hi. unfold complete. destruct (_ !! fr_ID frame) as [[g|]|]; [done| |done].
    simpl. apply lookup_insert_is_Some. destruct (decide (fr_ID frame = i)); auto. }
  split.
  - destruct D as [Di Do Da Dp Dk Dr Dc Du]. constructor; simpl; try done.
    + intros i g. unfold complete. destruct (_ !! fr_ID frame) as [[g'|]|]; [apply Dp| |apply Dp].
      simpl. rewrite lookup_insert_Some. intros [[<- [= <-]]|[_ ?]]; [done|auto].
    + intros i c Hc Hs. apply Hsome. eauto.
    + intros i c Hc Hs. specialize (Du i c Hc Hs). unfold underway in *. simpl.
      rewrite Hin, (filter_cons_True _ frame) in Du by by rewrite Ha.
      assert (cn_Closed (complete frame (ep_Conn e)) = cn_Closed (ep_Conn e)) as ->.
      { unfold complete. by repeat case_match. }
      destruct Du as [?|[?|[?|[?|[[->|Hi]%elem_of_cons|[g Hg]]]]]]; auto 10; do 5 right.
      * destruct (Dc _ _ Hc) as [[g|] Hg]; [by intros r; rewrite Hs|..]; unfold complete;
          rewrite Hg; [by exists g|]. simpl. exists frame. by rewrite lookup_insert_eq.
      * exists g. unfold complete. destruct (cn_Pending _ !! fr_ID frame) as [[g'|]|] eqn:E; [done| |done].
        simpl. rewrite lookup_insert_ne by congruence. done.
  - destruct D' as [Di Do Da Dp Dk Dr Dc Du]. constructor; rewrite ?Er; simpl; try done.
    intros i c Hc Hs. specialize (Du i c Hc Hs). unfold underway in *. simpl.
    rewrite Hin, (filter_cons_False _ frame), app_nil_r in * by (rewrite Hreq; by intros []).
    destruct Du as [?|[Hcl|?]]; auto. right. left. unfold complete. by repeat case_match.
Qed.

(** A request gets its goroutine. *)
Lemma started_keeps e p frame rest :
  ep_Incoming e = frame :: rest → isRequest frame = true →
  directed e p → directed p e →
  let e' := mkEndpoint (ep_Conn e) rest (ep_Serving e ++ [frame]) (ep_Calls e) (ep_Served e) in
  directed e' p ∧ directed p e'.
Proof.
  intros Hin Hr D D' e'. pose proof (isRequest_not_answer _ Hr) as Ha.
  assert (requestsAt e' ≡ₚ requestsAt e) as Er.
  { unfold requestsAt. simpl. rewrite Hin, filter_cons_True, <-app_assoc by by rewrite Hr.
    simpl. by rewrite !Permutation_middle. }
  split.
  - destruct D as [Di Do Da Dp Dk Dr Dc Du]. rewrite Hin in Da. constructor; simpl; try done.
    + by apply Forall_cons in Da as [_ Da].
    + intros i c Hc Hs. specialize (Du i c Hc Hs). unfold underway in *. simpl.
      rewrite Hin, (filter_cons_False _ frame) in Du by (rewrite Ha; by intros []). done.
  - destruct D' as [Di Do Da Dp Dk Dr Dc Du]. constructor; rewrite ?Er; simpl; try done.
    intros i c Hc Hs. specialize (Du i c Hc Hs). unfold underway in *. simpl.
    rewrite Hin, (filter_cons_True _ frame) in Du by by rewrite Hr.
    rewrite fmap_app. destruct Du as [?|[?|[[->|?]%elem_of_cons|[?|?]]]]; auto 10;
      do 3 right; left; simpl; set_solver.
Qed.

Lemma receiveFrame_keeps e p frame rest written :
  ep_Incoming e = frame :: rest → keeps e p (receiveFrame frame rest written e).
Proof.
  intros Hin D D'. unfold receiveFrame. destruct (unreadable frame).
  { simpl. rewrite arrive_nil. by apply (closing_keeps e p [frame]). }
  pose proof (d_incoming _ _ D) as Hinc. rewrite Hin, Forall_cons in Hinc.
  destruct Hinc as [[Hr|[Ha _]] _]; unfold dispatch.
  - rewrite isRequest_not_result by done. unfold isRequest in Hr. rewrite Hr.
    simpl. rewrite arrive_nil. by apply started_keeps.
  - rewrite bool_decide_eq_true_2.
    + simpl. rewrite arrive_nil. by apply complete_keeps.
    + apply bool_decide_eq_true in Ha. set_solver.
Qed.

Lemma answerRequest_keeps e p frame before after h written written' :
  ep_Serving e = before ++ frame :: after →
  keeps e p (answerRequest frame (before ++ after) h written written' e).
Proof.
  intros Hin D D'. unfold answerRequest.
  assert (∃ c sent, answer (ep_Conn e) frame h written written' = (c, sent) ∧
    cn_Pending c = cn_Pending (ep_Conn e) ∧
    ((cn_Closed c = cn_Closed (ep_Conn e) ∧ ∃ g, sent = [g] ∧ repliesTo frame h g) ∨
     (cn_Closed c = true ∧ sent = []))) as (c & sent & -> & Hpend & Hsent).
  { destruct (answer_cases (ep_Conn e) frame h written written') as [(g & -> & Hg)| ->];
      eexists _, _; split; eauto 10. }
  simpl. set (e' := mkEndpoint c _ _ _ _).
  assert (requestsAt e' ≡ₚ requestsAt e) as Er.
  { unfold requestsAt. simpl. rewrite Hin, fmap_app, <-!app_assoc. simpl.
    f_equiv. rewrite <-!Permutation_middle. by rewrite app_nil_r. }
  assert (filter isRequest sent = []) as Hnoreq.
  { destruct Hsent as [(_ & g & -> & Hg)|[_ ->]]; [|done].
    rewrite filter_cons_False; [done|]. rewrite (answer_isRequest _ _ _ Hg). by intros []. }
  assert (Forall (λ g, isRequest g = true ∨ isAnswer g = true ∧ backed e' g) sent) as Hback.
  { destruct Hsent as [(_ & g & -> & Hg)|[_ ->]]; [|constructor]. constructor; [|constructor].
    right. destruct (answer_isAnswer _ _ _ Hg) as [Ha Hid]. split; [done|].
    exists frame, h. split; [|done]. simpl. set_solver. }
  split.
  - destruct D as [Di Do Da Dp Dk Dr Dc Du]. constructor; simpl; try done.
    + unfold requestsAt. simpl. by rewrite filter_app, Hnoreq, app_nil_r.
    + unfold requestsAt. simpl. by rewrite filter_app, Hnoreq, app_nil_r.
    + intros i g. rewrite Hpend. apply Dp.
    + intros i cl. rewrite Hpend. apply Dc.
    + intros i cl Hc Hs. specialize (Du i cl Hc Hs). unfold underway in *. simpl.
      rewrite Hpend, filter_app, Hnoreq, app_nil_r.
      destruct Du as [Hcl|?]; [left|by auto]. by destruct Hsent as [[-> _]|[-> _]].
  - destruct D' as [Di Do Da Dp Dk Dr Dc Du].
    assert (ep_Served e ⊆ ep_Served e') as Hmono by (simpl; set_solver).
    constructor; rewrite ?Er; simpl; try done.
    + apply Forall_app. split; [|done]. eapply Forall_impl; [exact Da|].
      intros g [?|[? ?]]; [auto|]. right. split; [done|]. by eapply backed_mono.
    + intros i g Hg. destruct (Dp i g Hg). split; [done|]. by eapply backed_mono.
    + intros i cl r Hc Hs. eapply settledBy_mono; [done|eauto].
    + intros i cl Hc Hs. specialize (Du i cl Hc Hs). unfold underway in *. simpl.
      rewrite Hin, fmap_app, fmap_cons in Du. rewrite filter_app, !fmap_app.
      rewrite elem_of_app, elem_of_cons in Du. rewrite !elem_of_app.
      destruct Du as [?|[Hcl|[?|[[?|[->|?]]|[?|?]]]]]; auto 10.
      * right. left. by destruct Hsent as [[-> _]|[-> _]].
      * destruct Hsent as [(_ & g & -> & [Ha Hid]%answer_isAnswer)|[-> _]]; [|auto].
        do 4 right. left. right. rewrite filter_cons_True by by rewrite Ha. simpl. set_solver.
Qed.

Definition invariant (sys : system) : Prop := ∀ s, directed (sys s) (sys (peer s)).

Lemma peer_peer s : peer (peer s) = s.
Proof. by destruct s. Qed.
Lemma peer_ne s : peer s ≠ s.
Proof. by destruct s. Qed.

Lemma acts_self s r sys : acts s r sys s = r.1.
Proof. apply fn_lookup_insert. Qed.
Lemma acts_peer s r sys : acts s r sys (peer s) = arrive r.2 (sys (peer s)).
Proof.
  unfold acts. rewrite fn_lookup_insert_ne by (symmetry; apply peer_ne). apply fn_lookup_insert.
Qed.

Lemma acts_invariant s r sys :
  invariant sys → keeps (sys s) (sys (peer s)) r → invariant (acts s r sys).
Proof.
  intros I K. pose proof (I s) as D. pose proof (I (peer s)) as D'. rewrite peer_peer in D'.
  destruct (K D D') as [E E']. intros s'. destruct (decide (s' = s)) as [->|Hne].
  - by rewrite acts_self, acts_peer.
  - assert (s' = peer s) as -> by (by destruct s, s'). by rewrite peer_peer, acts_peer, acts_self.
Qed.

Lemma step_invariant sys sys' : step sys sys' → invariant sys → invariant sys'.
Proof.
  intros [s id kind method payload Hid Hk|s id call written Hc Hs|s id call frame Hc Hs Hp
    |s id call Hc Hs Hcl|s id call Hc Hs|s frame rest written Hin
    |s frame before after h written written' Hin|s] I; apply acts_invariant; try done.
  - by apply startCall_keeps.
  - by apply sendCall_keeps.
  - apply returnCall_keeps. intros D. destruct (d_pending _ _ D _ _ Hp) as [<- (f & h & ? & ? & ?)].
    unfold settledBy. destruct (awaited frame) eqn:E; try done; exists f, h, frame; auto.
  - by apply returnCall_keeps.
  - by apply returnCall_keeps.
  - by apply receiveFrame_keeps.
  - by apply answerRequest_keeps.
  - apply closed_keeps.
Qed.

Lemma empty_directed : directed emptyEndpoint emptyEndpoint.
Proof. by constructor; try constructor. Qed.

Lemma reachable_invariant sys : reachable sys → invariant sys.
Proof.
  apply (rtc_ind_r invariant); [intros s; apply empty_directed|].
  intros x y _ Hstep. by apply step_invariant.
Qed.

(** ** What the calls of a connection promise *)

(** How the end of a handler explains the return of the call. *)
Definition explains (h : handled) (r : callResult) : Prop :=
  match invoke h with
  | inl e => r = Failed (Unwrap (NewError text order e))
  | inr v =>
      match encodePayload v with
      | None => r = Failed (Unwrap (NewError text order encodeFailed))
      | Some payload =>
          r = Answered payload ∨ r = Failed (Unwrap (NewError text order frameTooLarge))
      end
  end.

Lemma repliesTo_explains f h g : repliesTo f h g → explains h (awaited g).
Proof.
  unfold repliesTo, explains. destruct (invoke h); [by intros ->|].
  destruct (encodePayload _); [|by intros ->]. intros [-> | ->]; auto.
Qed.

Lemma filter_unique {A} (f : A → bytes) (l : list A) x :
  NoDup (f <$> l) → x ∈ l → filter (λ y, f y = f x) l = [x].
Proof.
  intros Hnd Hx. induction l as [|y l IH]; [by apply not_elem_of_nil in Hx|].
  simpl in Hnd. apply NoDup_cons in Hnd as [Hy Hnd]. apply elem_of_cons in Hx as [->|Hx].
  - rewrite filter_cons_True by done. f_equal. apply filter_no, Forall_forall. intros z Hz E. apply Hy.
    rewrite <-E. by apply list_elem_of_fmap_2.
  - rewrite filter_cons_False; [by apply IH|]. intros E. apply Hy. rewrite E.
    by apply list_elem_of_fmap_2.
Qed.

(** C28: The handler of each side runs at most once for a call of the other side, on the
    request of that call.  A call that returns an answer returns what that run gave,
    and not the answer of another call. *)
Theorem calls_answered sys s :
  reachable sys →
  NoDup ((λ x, fr_ID x.1) <$> ep_Served (sys (peer s))) ∧
  (∀ f h, (f, h) ∈ ep_Served (sys (peer s)) →
     ∃ call, ep_Calls (sys s) !! fr_ID f = Some call ∧ f = requestFrame (fr_ID f) call) ∧
  (∀ id call r, ep_Calls (sys s) !! id = Some call → ca_Stage call = Returned r →
     match r with
     | Answered _ | Failed _ =>
         ∃ h, filter (λ x, fr_ID x.1 = id) (ep_Served (sys (peer s))) = [(requestFrame id call, h)] ∧
           explains h r
     | _ => True
     end).
Proof.
  intros I%reachable_invariant. destruct (I s) as [Di Do _ _ _ Dr _ _].
  unfold requestsAt in Di, Do. rewrite !Forall_app in Di. rewrite !fmap_app in Do.
  destruct Di as (_ & _ & Di). apply NoDup_app in Do as (_ & _ & Do).
  apply NoDup_app in Do as (_ & _ & Do). rewrite <-list_fmap_compose in Do.
  assert (∀ f h, (f, h) ∈ ep_Served (sys (peer s)) →
    ∃ call, ep_Calls (sys s) !! fr_ID f = Some call ∧ f = requestFrame (fr_ID f) call) as Hserved.
  { intros f h Hin. rewrite Forall_forall in Di. destruct (Di f) as (call & Hc & Hf & _).
    - apply (list_elem_of_fmap_2 fst _ _ Hin).
    - eauto. }
  split; [done|]. split; [done|]. intros id call r Hc Hs. specialize (Dr id call r Hc Hs).
  destruct r; try done; destruct Dr as (f & h & g & Hin & <- & Hg & ->); exists h;
    destruct (Hserved f h Hin) as (call' & Hc' & Hf); assert (call' = call) as -> by congruence;
    rewrite <-Hf; (split; [apply (filter_unique (λ x, fr_ID x.1) _ (f, h) Do Hin)|]);
    by eapply repliesTo_explains.
Qed.

(** ** No call waits for nothing *)

Definition weight (e : Endpoint) : nat :=
  sum_list_with (λ f, if isRequest f then 3 else 1) (ep_Incoming e) + 2 * length (ep_Serving e).
Definition load (sys : system) : nat := weight (sys WorkerSide) + weight (sys ControllerSide).

(** A step of a read loop or of a handler.  What the program does not choose is an
    argument: how the handler ends and whether the socket takes the bytes. *)
Inductive workingAs (h : handled) (written written' : bool) (sys : system) : system → Prop :=
  | Reading s frame rest :
      ep_Incoming (sys s) = frame :: rest →
      workingAs h written written' sys (acts s (receiveFrame frame rest written (sys s)) sys)
  | Answering s frame before after :
      ep_Serving (sys s) = before ++ frame :: after →
      workingAs h written written' sys
        (acts s (answerRequest frame (before ++ after) h written written' (sys s)) sys).

Definition working (sys sys' : system) : Prop :=
  ∃ h written written', workingAs h written written' sys sys'.

(** The reply that [answer] sends first, and that one which it can send is there. *)
Definition firstReply (f : Frame) (h : handled) : Frame :=
  match invoke h with
  | inl e => errorReply f e
  | inr v =>
      match encodePayload v with
      | None => errorReply f encodeFailed
      | Some payload => resultReply f payload
      end
  end.
Definition sendable (f : Frame) : Prop := ∃ b, Send f = Ok b.
Definition replySendable (f : Frame) (h : handled) : Prop :=
  sendable (firstReply f h) ∨
  (∃ v payload, invoke h = inr v ∧ encodePayload v = Some payload) ∧
    Send (firstReply f h) = Err ErrFrameTooLarge ∧ sendable (errorReply f frameTooLarge).

(** A step whose writes succeed, on a frame that can be read or a reply that can be
    sent; how the handler ends is open. *)
Inductive undisturbed (sys : system) : system → Prop :=
  | ReadingUndisturbed s frame rest :
      ep_Incoming (sys s) = frame :: rest → unreadable frame = false →
      undisturbed sys (acts s (receiveFrame frame rest true (sys s)) sys)
  | AnsweringUndisturbed s frame before after h :
      ep_Serving (sys s) = before ++ frame :: after → replySendable frame h →
      undisturbed sys (acts s (answerRequest frame (before ++ after) h true true (sys s)) sys).

Definition connected (sys : system) : Prop := ∀ s, cn_Closed (ep_Conn (sys s)) = false.

Definition quiescent (sys : system) : Prop :=
  ∀ s, ep_Incoming (sys s) = [] ∧ ep_Serving (sys s) = [].

Lemma working_step sys sys' : working sys sys' → step sys sys'.
Proof. intros (h & w & w' & []); by econstructor. Qed.

Lemma undisturbed_working sys sys' : undisturbed sys sys' → working sys sys'.
Proof.
  intros [s f rest Hin _|s f before after h Hin _].
  - exists HandlerPanic, true, true. by constructor.
  - exists h, true, true. by constructor.
Qed.

(** It leaves the calls as they are, and less to do. *)
Definition works (s : side) (r : Endpoint * list Frame) (sys : system) : Prop :=
  ep_Calls r.1 = ep_Calls (sys s) ∧
  weight r.1 + weight (arrive r.2 (sys (peer s))) < weight (sys s) + weight (sys (peer s)).

Lemma weight_arrive e frames :
  weight (arrive frames e) = weight e + sum_list_with (λ f, if isRequest f then 3 else 1) frames.
Proof. unfold weight. simpl. rewrite sum_list_with_app. lia. Qed.

(** What a read frame does to an endpoint under the invariant. *)
Lemma receiveFrame_result e p frame rest written :
  directed e p → ep_Incoming e = frame :: rest →
  receiveFrame frame rest written e =
    (if unreadable frame
     then mkEndpoint (Close (ep_Conn e)) rest (ep_Serving e) (ep_Calls e) (ep_Served e)
     else if isRequest frame
     then mkEndpoint (ep_Conn e) rest (ep_Serving e ++ [frame]) (ep_Calls e) (ep_Served e)
     else mkEndpoint (complete frame (ep_Conn e)) rest (ep_Serving e ++ []) (ep_Calls e)
            (ep_Served e), []).
Proof.
  intros D Hin. pose proof (d_incoming _ _ D) as Hinc. rewrite Hin, Forall_cons in Hinc.
  unfold receiveFrame. destruct (unreadable frame); [done|].
  destruct Hinc as [[Hr|[Ha _]] _]; unfold dispatch.
  - rewrite isRequest_not_result, Hr by done. unfold isRequest in Hr. by rewrite Hr.
  - rewrite bool_decide_eq_true_2 by (apply bool_decide_eq_true in Ha; set_solver).
    destruct (isRequest frame) eqn:Hr; [|done]. apply isRequest_not_answer in Hr. congruence.
Qed.

Lemma receive_works s frame rest written sys :
  invariant sys → ep_Incoming (sys s) = frame :: rest →
  works s (receiveFrame frame rest written (sys s)) sys.
Proof.
  intros I Hin. rewrite (receiveFrame_result _ _ _ _ _ (I s) Hin). unfold works. simpl.
  rewrite arrive_nil. unfold weight. rewrite Hin. simpl.
  destruct (unreadable frame), (isRequest frame); simpl; rewrite ?length_app; simpl;
    (split; [done|lia]).
Qed.

Lemma answer_works s frame before after h written written' sys :
  ep_Serving (sys s) = before ++ frame :: after →
  works s (answerRequest frame (before ++ after) h written written' (sys s)) sys.
Proof.
  intros Hin. unfold answerRequest, works.
  destruct (answer_cases (ep_Conn (sys s)) frame h written written') as [(g & -> & Hg)| ->];
    (split; [done|]); simpl; rewrite weight_arrive; unfold weight; simpl; rewrite Hin, !length_app;
    simpl; [rewrite (answer_isRequest _ _ _ Hg)|]; lia.
Qed.

Lemma load_sides sys s : load sys = weight (sys s) + weight (sys (peer s)).
Proof. destruct s; unfold load; simpl; lia. Qed.

Lemma works_load s r sys : works s r sys → load (acts s r sys) < load sys.
Proof.
  intros (_ & Hw). rewrite (load_sides (acts s r sys) s), (load_sides sys s).
  by rewrite acts_self, acts_peer.
Qed.

Lemma works_calls s r sys s' : works s r sys → ep_Calls (acts s r sys s') = ep_Calls (sys s').
Proof.
  intros (Hc & _). destruct (decide (s' = s)) as [->|Hne]; [by rewrite acts_self|].
  assert (s' = peer s) as -> by (by destruct s, s'). by rewrite acts_peer.
Qed.

Lemma working_works sys sys' :
  invariant sys → working sys sys' →
  load sys' < load sys ∧ ∀ s, ep_Calls (sys' s) = ep_Calls (sys s).
Proof.
  intros I (h & w & w' & [s f rest Hin|s f before after Hin]).
  - pose proof (receive_works _ _ _ w _ I Hin) as W. split; [by apply works_load|].
    intros s'. by apply works_calls.
  - pose proof (answer_works _ _ _ _ h w w' _ Hin) as W. split; [by apply works_load|].
    intros s'. by apply works_calls.
Qed.

Lemma working_run sys sys' :
  rtc working sys sys' → invariant sys →
  invariant sys' ∧ ∀ s, ep_Calls (sys' s) = ep_Calls (sys s).
Proof.
  induction 1 as [|sys sys1 sys2 Hw _ IH]; intros I; [done|].
  destruct (working_works _ _ I Hw) as [_ Hc].
  destruct IH as [I' Hc']; [by eapply step_invariant; [apply working_step|]|].
  split; [done|]. intros s. by rewrite Hc', Hc.
Qed.

Lemma working_bound n sys sys' : nsteps working n sys sys' → invariant sys → n + load sys' ≤ load sys.
Proof.
  induction 1 as [|n sys sys1 sys2 Hw _ IH]; intros I; [done|].
  destruct (working_works _ _ I Hw) as [Hl _].
  specialize (IH ltac:(eapply step_invariant; [by apply working_step|done])). lia.
Qed.

Lemma working_progress sys : quiescent sys ∨ ∀ h w w', ∃ sys', workingAs h w w' sys sys'.
Proof.
  assert (∀ s, (ep_Incoming (sys s) = [] ∧ ep_Serving (sys s) = []) ∨
    ∀ h w w', ∃ sys', workingAs h w w' sys sys') as Hs.
  { intros s. destruct (ep_Incoming (sys s)) as [|f l] eqn:E.
    2: { right. intros. eexists. by apply (Reading _ _ _ _ s f l). }
    destruct (ep_Serving (sys s)) as [|f l] eqn:E'; [by left|].
    right. intros. eexists. by apply (Answering _ _ _ _ s f [] l). }
  destruct (Hs WorkerSide) as [H1|?]; [|by right].
  destruct (Hs ControllerSide) as [H2|?]; [|by right]. left. by intros [].
Qed.

(** A connection does not close by itself. *)
Lemma answer_open c f h : cn_Closed c = false → replySendable f h →
  ∃ g, answer c f h true true = (c, [g]).
Proof.
  unfold replySendable, firstReply, answer, replyError, trySend, sendable. intros Hc.
  destruct (invoke h) as [e|v].
  { intros [[b ->]|((v & p & [=] & _) & _)]. simpl. rewrite Hc. eauto. }
  destruct (encodePayload v) as [payload|] eqn:Ev.
  2: { intros [[b ->]|((v' & p & [= <-] & E) & _)]; [|congruence]. simpl. rewrite Hc. eauto. }
  intros [[b ->]|(_ & -> & [b Hb])]; simpl; [rewrite Hc; eauto|].
  rewrite Hb. simpl. rewrite Hc. eauto.
Qed.

Lemma undisturbed_connected sys sys' :
  invariant sys → undisturbed sys sys' → connected sys → connected sys'.
Proof.
  intros I Hu Ho.
  assert (∀ s r, cn_Closed (ep_Conn r.1) = false → connected (acts s r sys)) as Hacts.
  { intros s r Hr s'. destruct (decide (s' = s)) as [->|Hne]; [by rewrite acts_self|].
    assert (s' = peer s) as -> by (by destruct s, s'). rewrite acts_peer. apply Ho. }
  destruct Hu as [s f rest Hin Hr|s f before after h Hin Hr]; apply Hacts.
  - rewrite (receiveFrame_result _ _ _ _ _ (I s) Hin), Hr. simpl.
    destruct (isRequest f); simpl; [apply Ho|]. unfold complete. specialize (Ho s). by repeat case_match.
  - unfold answerRequest. destruct (answer_open _ _ _ (Ho s) Hr) as [g ->]. apply Ho.
Qed.

Lemma undisturbed_run sys sys' :
  rtc undisturbed sys sys' → invariant sys → connected sys → connected sys'.
Proof.
  induction 1 as [|sys sys1 sys2 Hw _ IH]; intros I Ho; [done|]. apply IH.
  - by eapply step_invariant; [apply working_step, undisturbed_working|].
  - by eapply undisturbed_connected.
Qed.

(** C29: From every moment of a connection, and however the handlers end and the
    writes go, the read loops and the handlers come to rest: no run of their steps is
    longer than [load] says, and one that is not at rest goes on whatever the handlers
    and the socket do next.  At every rest the connection is closed or each waiting
    call has in its channel the reply to what the peer's handler gave for that very
    request, and returns it.  The connection does not close by itself: a run of
    undisturbed steps (the writes succeed, frames and replies are within the limit)
    from an open connection leaves it open, whether handlers return, fail or panic. *)
Theorem waiting_call_returns sys s id call :
  reachable sys → ep_Calls (sys s) !! id = Some call → ca_Stage call = Awaiting →
  (∀ n sys', nsteps working n sys sys' → n ≤ load sys) ∧
  ∀ sys', rtc working sys sys' →
    (quiescent sys' ∨ ∀ h written written', ∃ sys'', workingAs h written written' sys' sys'') ∧
    (rtc undisturbed sys sys' → connected sys → connected sys') ∧
    (quiescent sys' → connected sys' →
     ∃ g h, cn_Pending (ep_Conn (sys' s)) !! id = Some (Some g) ∧
       (requestFrame id call, h) ∈ ep_Served (sys' (peer s)) ∧ explains h (awaited g) ∧
       step sys' (acts s (returnCall id (awaited g) (sys' s), []) sys')).
Proof.
  intros I%reachable_invariant Hc Hs. split.
  { intros n sys' Hn. pose proof (working_bound _ _ _ Hn I). lia. }
  intros sys' Hr. destruct (working_run _ _ Hr I) as [I' Hcalls].
  split; [apply working_progress|]. split; [by intros Hu; apply (undisturbed_run _ _ Hu)|].
  intros Q Ho. rewrite <-Hcalls in Hc. pose proof (I' s) as D.
  pose proof (Q s) as [Hi Hv]. pose proof (Q (peer s)) as [Hi' Hv'].
  pose proof (d_underway _ _ D _ _ Hc Hs) as Hu. unfold underway in Hu.
  rewrite Hi, Hi', Hv', !Ho in Hu.
  destruct Hu as [?|[?|[Hin|[Hin|[Hin|[g Hg]]]]]]; try done; try by apply not_elem_of_nil in Hin.
  destruct (d_pending _ _ D _ _ Hg) as [Hid (f & h & Hin & Hf & Hrep)].
  exists g, h. split; [done|]. split_and!; [|by eapply repliesTo_explains|by eapply CallReturns].
  pose proof (d_issued _ _ D) as Di. rewrite Forall_forall in Di.
  destruct (Di f) as (call' & Hc' & Ef & _).
  { unfold requestsAt. rewrite !elem_of_app. do 2 right. by apply (list_elem_of_fmap_2 fst _ _ Hin). }
  rewrite Hf, Hid in Hc', Ef. assert (call' = call) as -> by congruence. by rewrite <-Ef.
Qed.

End conn.

(** ** One call *)

#[local] Existing Instance sample_codec.
Abbreviation sample_system := (side → Endpoint (V := bytes)).
Definition sample_id : bytes := bs "1".
Definition sample_call : Call := mkCall KindCall (bs "job.get") (bs "{}") Registered.
Definition sample_request : Frame := requestFrame sample_id sample_call.
Definition sample_handled : handled (V := bytes) := HandlerResult (Some (bs "{1}")).
Definition sample_reply : Frame := resultReply sample_request (bs "{1}").

Definition sample_step := step (V := bytes) Some sample_text (rev sentinels).
Definition started : sample_system :=
  acts WorkerSide (startCall sample_id KindCall (bs "job.get") (bs "{}") (initial WorkerSide), []) initial.
Definition sent : sample_system :=
  acts WorkerSide (sendCall sample_id sample_call true (started WorkerSide)) started.
Definition received : sample_system :=
  acts ControllerSide
    (receiveFrame sample_text (rev sentinels) sample_request [] true (sent ControllerSide)) sent.
Definition answered : sample_system :=
  acts ControllerSide
    (answerRequest Some sample_text (rev sentinels) sample_request [] sample_handled true true
       (received ControllerSide)) received.
Definition delivered : sample_system :=
  acts WorkerSide
    (receiveFrame sample_text (rev sentinels) sample_reply [] true (answered WorkerSide)) answered.
Definition returned : sample_system :=
  acts WorkerSide (returnCall sample_id (awaited sample_reply) (delivered WorkerSide), []) delivered.

Lemma sent_reachable : rtc sample_step initial sent.
Proof.
  eapply rtc_l; [by apply CallStarts; [|apply list_elem_of_here]|].
  eapply rtc_once, CallSends; by vm_compute.
Qed.

Lemma returned_reachable : rtc sample_step initial returned.
Proof.
  etransitivity; [apply sent_reachable|].
  eapply rtc_l; [apply (Receives _ _ _ _ ControllerSide sample_request [] true); by vm_compute|].
  eapply rtc_l; [apply (Answers _ _ _ _ ControllerSide sample_request [] [] sample_handled true true); by vm_compute|].
  eapply rtc_l; [apply (Receives _ _ _ _ WorkerSide sample_reply [] true); by vm_compute|].
  eapply rtc_once, CallReturns; by vm_compute.
Qed.

Lemma calls_answered_witness :
  ep_Calls (returned WorkerSide) !! sample_id =
    Some (atStage (Returned (Answered (bs "{1}"))) sample_call) ∧
  ∃ h, filter (λ x, fr_ID x.1 = sample_id) (ep_Served (returned ControllerSide)) =
         [(sample_request, h)] ∧
    explains Some sample_text (rev sentinels) h (Answered (bs "{1}")).
Proof.
  split; [by vm_compute|].
  apply (calls_answered Some sample_text (rev sentinels) returned WorkerSide returned_reachable)
    with (id := sample_id) (r := Answered (bs "{1}"))
         (call := atStage (Returned (Answered (bs "{1}"))) sample_call); by vm_compute.
Defined.

Lemma waiting_call_returns_witness :
  ep_Calls (sent WorkerSide) !! sample_id = Some (atStage Awaiting sample_call) ∧
  ∃ g h, cn_Pending (ep_Conn (delivered WorkerSide)) !! sample_id = Some (Some g) ∧
    (sample_request, h) ∈ ep_Served (delivered ControllerSide) ∧
    explains Some sample_text (rev sentinels) h (awaited g).
Proof.
  split; [by vm_compute|].
  destruct (waiting_call_returns Some sample_text (rev sentinels) sent WorkerSide sample_id
              (atStage Awaiting sample_call) sent_reachable) as [_ Hrun]; [by vm_compute..|].
  assert (rtc (working Some sample_text (rev sentinels)) sent delivered) as Hr.
  { eapply rtc_l; [exists sample_handled, true, true;
      apply (Reading _ _ _ _ _ _ _ ControllerSide sample_request []); by vm_compute|].
    eapply rtc_l; [exists sample_handled, true, true;
      apply (Answering _ _ _ _ _ _ _ ControllerSide sample_request [] []); by vm_compute|].
    eapply rtc_once. exists sample_handled, true, true.
    apply (Reading _ _ _ _ _ _ _ WorkerSide sample_reply []); by vm_compute. }
  destruct (Hrun _ Hr) as (_ & _ & Hrest).
  destruct Hrest as (g & h & Hg & Hin & He & _); [by intros []; vm_compute..|].
  exists g, h. split; [exact Hg|]. split; [exact Hin|exact He].
Defined.

End Rpc.
