(* ===== verification/Registration.v ===== *)
(** The registration of a worker on its session's socket
    (src/internal/pkg/worker/protocol/listener.go, [register] of dialer.go): the
    listener verifies each connection's hello in a goroutine of its own, installs at
    most one worker, and answers; the worker reads the answer. *)
From stdpp Require Import base gmap sets list strings.
From Stdlib Require Import ZArith Lia Ascii.
From S2P Require Import Prelude GoBytes WireErrors Wire.

Module Registration.
Import WireErrors Wire.

Record Hello := mkHello {
  he_SessionID : bytes; he_GenerationID : bytes; he_Credential : bytes; he_AgentSpace : bytes
}.
Record HelloAck := mkHelloAck { ha_SessionID : bytes; ha_Workspace : bytes; ha_AgentSpace : bytes }.

Section registration.
(** The JSON of the two payloads, [err.Error()], the order of the sentinels, the
    listener's session and its registrar. *)
Variables (unmarshalHello : bytes → option Hello) (marshalAck : HelloAck → bytes)
  (unmarshalAck : bytes → option HelloAck)
  (text : goerror → bytes) (order : list (Code * sentinel))
  (sessionID : bytes) (AcceptWorker : Hello → goerror + HelloAck).

(** ** The listener *)

Definition zeroHello : Hello := mkHello [] [] [] [].

(** [decode] *)
Definition decodeHello (payload : bytes) : option Hello :=
  match payload with [] => Some zeroHello | _ => unmarshalHello payload end.

(** The part of [register] before the worker is installed. *)
Definition verify (frame : Frame) : goerror + (Hello * HelloAck) :=
  if negb (bool_decide (fr_Kind frame = KindHello)) then
    inl (Wrap (Sentinel ErrValidationFailed) (bs "a worker must register before sending"))
  else
    match decodeHello (fr_Payload frame) with
    | None => inl (Wrap (Sentinel ErrParseFailed) (bs "decode worker protocol request"))
    | Some hello =>
        if negb (bool_decide (he_SessionID hello = sessionID)) then
          inl (Wrap (Sentinel ErrPermissionDenied)
                 (bs "a worker may only register for the session it was launched for"))
        else
          match AcceptWorker hello with
          | inl e => inl (Wrap e (bs "accept the worker registration"))
          | inr ack => inr (hello, ack)
          end
    end.

Definition alreadyLive : goerror :=
  Wrap (Sentinel ErrConflict) (bs "this session already has a live worker").

Definition refusal (e : goerror) : Frame :=
  mkFrame KindHelloAck [] [] [] (Some (NewError text order e)).
Definition ackFrame (ack : HelloAck) : Frame := mkFrame KindHelloAck [] [] (marshalAck ack) None.

(** The goroutine of a connection. *)
Inductive connection :=
  | Waiting
  | Verified (hello : Hello) (ack : HelloAck)
  | Installed (hello : Hello) (ack : HelloAck)
  | Serving (hello : Hello)
  | Over.

(** [Listener.connected], the connections, and the answers that were written. *)
Record Listener := mkListener {
  li_Connected : option N;
  li_Connections : gmap N connection;
  li_Answers : gmap N Frame
}.
Definition newListener : Listener := mkListener None ∅ ∅.

Definition moveTo (n : N) (c : connection) (l : Listener) : Listener :=
  mkListener (li_Connected l) (<[n := c]> (li_Connections l)) (li_Answers l).
Definition setConnected (connected : option N) (l : Listener) : Listener :=
  mkListener connected (li_Connections l) (li_Answers l).
Definition write (n : N) (frame : Frame) (written : bool) (l : Listener) : Listener :=
  mkListener (li_Connected l) (li_Connections l)
    (if written then <[n := frame]> (li_Answers l) else li_Answers l).

(** [register] up to [accept]. *)
Definition verifyConnection (n : N) (frame : Frame) (written : bool) (l : Listener) : Listener :=
  match verify frame with
  | inl e => moveTo n Over (write n (refusal e) written l)
  | inr (hello, ack) => moveTo n (Verified hello ack) l
  end.

(** [accept] up to the acknowledgement; [bound] is whether workflow storage could
    be bound. *)
Definition install (n : N) (hello : Hello) (ack : HelloAck) (bound written : bool) (l : Listener)
    : Listener :=
  if negb bound then moveTo n Over l
  else if bool_decide (is_Some (li_Connected l))
  then moveTo n Over (write n (refusal alreadyLive) written l)
  else setConnected (Some n) (moveTo n (Installed hello ack) l).

(** The acknowledgement.  When it cannot be sent, [connected] stays. *)
Definition acknowledge (n : N) (hello : Hello) (ack : HelloAck) (written : bool) (l : Listener)
    : Listener :=
  write n (ackFrame ack) written (moveTo n (if written then Serving hello else Over) l).

Definition disconnect (n : N) (l : Listener) : Listener :=
  moveTo n Over (if bool_decide (li_Connected l = Some n) then setConnected None l else l).

Inductive step (l : Listener) : Listener → Prop :=
  | Arrives n : li_Connections l !! n = None → step l (moveTo n Waiting l)
  | Leaves n : li_Connections l !! n = Some Waiting → step l (moveTo n Over l)
  | Verifies n frame written :
      li_Connections l !! n = Some Waiting → step l (verifyConnection n frame written l)
  | Installs n hello ack bound written :
      li_Connections l !! n = Some (Verified hello ack) → step l (install n hello ack bound written l)
  | Acknowledges n hello ack written :
      li_Connections l !! n = Some (Installed hello ack) → step l (acknowledge n hello ack written l)
  | Disconnects n hello :
      li_Connections l !! n = Some (Serving hello) → step l (disconnect n l).

(** ** The worker *)

(** [register] of the dialer, on the answer it reads. *)
Definition readAnswer (frame : Frame) : outcome HelloAck :=
  if negb (bool_decide (fr_Kind frame = KindHelloAck)) then Err ErrWorkerRejected
  else match fr_Error frame with
  | Some _ => Err ErrWorkerRejected
  | None => match unmarshalAck (fr_Payload frame) with
            | Some ack => Ok ack
            | None => Err ErrOther
            end
  end.

(** ** The promises of a registration *)

Definition accepted (hello : Hello) (ack : HelloAck) : Prop :=
  he_SessionID hello = sessionID ∧ AcceptWorker hello = inr ack.

Lemma verify_accepted frame hello ack : verify frame = inr (hello, ack) → accepted hello ack.
Proof.
  unfold verify. destruct (bool_decide (fr_Kind frame = _)); simpl; [|done].
  destruct (decodeHello _) as [h|]; [|done].
  destruct (bool_decide (he_SessionID h = sessionID)) eqn:Hs; simpl; [|done].
  destruct (AcceptWorker h) as [e|a] eqn:Ha; [done|]. intros [= <- <-].
  by apply bool_decide_eq_true in Hs.
Qed.

(** What holds of each connection. *)
Definition consistent (l : Listener) (n : N) (c : connection) : Prop :=
  match c with
  | Waiting => li_Answers l !! n = None
  | Verified hello ack => accepted hello ack ∧ li_Answers l !! n = None
  | Installed hello ack => accepted hello ack ∧ li_Connected l = Some n ∧ li_Answers l !! n = None
  | Serving hello =>
      li_Connected l = Some n ∧
      ∃ ack, accepted hello ack ∧ li_Answers l !! n = Some (ackFrame ack)
  | Over => True
  end.

(** What the worker makes of an answer: it serves, or it was rejected. *)
Definition understood (l : Listener) (n : N) (frame : Frame) : Prop :=
  (∃ hello ack, accepted hello ack ∧ frame = ackFrame ack) ∨
  (∃ e, frame = refusal e) ∧ li_Connections l !! n = Some Over.

Definition invariant (l : Listener) : Prop :=
  map_Forall (consistent l) (li_Connections l) ∧
  map_Forall (understood l) (li_Answers l) ∧
  (∀ n, li_Connected l = Some n → is_Some (li_Connections l !! n)) ∧
  (∀ n, is_Some (li_Answers l !! n) → is_Some (li_Connections l !! n)).

(** A change at one connection. *)
Lemma change_keeps l l' n c :
  invariant l →
  li_Connections l' = <[n := c]> (li_Connections l) →
  (∀ m, m ≠ n → li_Answers l' !! m = li_Answers l !! m) →
  (∀ m, m ≠ n → li_Connected l = Some m → li_Connected l' = Some m) →
  (∀ m, li_Connected l' = Some m → m = n ∨ li_Connected l = Some m) →
  consistent l' n c → (∀ frame, li_Answers l' !! n = Some frame → understood l' n frame) →
  invariant l'.
Proof.
  intros (Ic & Ia & Id & Iw) Ec Ea Hk Hk' Hc Hu. split_and!.
  - intros m c'. rewrite Ec, lookup_insert_Some. intros [[<- <-]|[Hne Hm]]; [done|].
    pose proof (Ic m c' Hm) as H. destruct c'; simpl in *; rewrite ?Ea by done; naive_solver.
  - intros m frame Hm. destruct (decide (m = n)) as [->|Hne]; [auto|].
    rewrite Ea in Hm by done. destruct (Ia m frame Hm) as [?|[? Ho]]; [by left|].
    right. split; [done|]. rewrite Ec. by rewrite lookup_insert_ne.
  - intros m Hm. rewrite Ec. apply lookup_insert_is_Some.
    destruct (decide (n = m)); [auto|]. right. split; [done|]. destruct (Hk' m Hm); [congruence|auto].
  - intros m Hm. rewrite Ec. apply lookup_insert_is_Some.
    destruct (decide (n = m)) as [|Hne]; [auto|]. right. split; [done|].
    rewrite Ea in Hm by done. auto.
Qed.

(** Writing an answer at a connection, or not. *)
Lemma write_other n frame written l m : m ≠ n →
  li_Answers (write n frame written l) !! m = li_Answers l !! m.
Proof. intros Hne. destruct written; simpl; [by rewrite lookup_insert_ne|done]. Qed.

Lemma write_Some n frame written l frame' :
  li_Answers l !! n = None → li_Answers (write n frame written l) !! n = Some frame' → frame' = frame.
Proof. destruct written; simpl; [|congruence]. rewrite lookup_insert_eq. congruence. Qed.

Lemma refused_keeps l n e written c :
  invariant l → li_Connections l !! n = Some c → li_Answers l !! n = None →
  invariant (moveTo n Over (write n (refusal e) written l)).
Proof.
  intros I Hn Ha. apply (change_keeps l _ n Over); try done; simpl; auto.
  - intros m Hne. by apply write_other.
  - intros frame Hf. right. simpl. rewrite lookup_insert_eq. split; [|done].
    exists e. exact (write_Some n _ written l _ Ha Hf).
Qed.

Lemma step_registering l l' : step l l' → invariant l → invariant l'.
Proof.
  intros [n Hn|n Hn|n frame written Hn|n hello ack bound written Hn|n hello ack written Hn|n hello Hn] I;
    pose proof I as (Ic & Ia & Id & Iw).
  - assert (li_Answers l !! n = None) as Ha.
    { apply eq_None_not_Some. intros Hs%Iw. by rewrite Hn in Hs; destruct Hs. }
    apply (change_keeps l _ n Waiting); simpl; auto. intros frame. by rewrite Ha.
  - pose proof (Ic n _ Hn) as Ha. simpl in Ha.
    apply (change_keeps l _ n Over); simpl; auto. intros frame. by rewrite Ha.
  - pose proof (Ic n _ Hn) as Ha. simpl in Ha. unfold verifyConnection.
    destruct (verify frame) as [e|[hello ack]] eqn:Hv; [by eapply refused_keeps|].
    apply verify_accepted in Hv.
    apply (change_keeps l _ n (Verified hello ack)); simpl; auto. intros f. by rewrite Ha.
  - destruct (Ic n _ Hn) as [Hacc Ha]. unfold install. destruct bound; simpl.
    2: { apply (change_keeps l _ n Over); simpl; auto. intros frame. by rewrite Ha. }
    case_bool_decide as Hc; [by eapply refused_keeps|].
    apply (change_keeps l _ n (Installed hello ack)); simpl; auto.
    + intros m _ E. by destruct Hc; rewrite E.
    + intros m [= ->]. auto.
    + intros f. by rewrite Ha.
  - destruct (Ic n _ Hn) as (Hacc & Hc & Ha). unfold acknowledge.
    apply (change_keeps l _ n (if written then Serving hello else Over)); try done; simpl; auto.
    + intros m Hne. by apply write_other.
    + destruct written; simpl; [|done]. split; [done|]. exists ack. by rewrite lookup_insert_eq.
    + intros f Hf. left. exists hello, ack. split; [done|].
      exact (write_Some n _ written l _ Ha Hf).
  - destruct (Ic n _ Hn) as (Hc & ack & Hacc & Ha). unfold disconnect.
    rewrite bool_decide_eq_true_2 by done.
    apply (change_keeps l _ n Over); simpl; auto.
    + intros m Hne E. congruence.
    + done.
    + intros f. rewrite Ha. intros [= <-]. left. eauto.
Qed.

Definition reachable (l : Listener) : Prop := rtc step newListener l.

Lemma reachable_registering l : reachable l → invariant l.
Proof.
  apply (rtc_ind_r invariant); [|intros x y _ Hstep; by apply step_registering].
  split_and!; simpl; [apply map_Forall_empty..|done|]. intros n [? Hs]. by rewrite lookup_empty in Hs.
Qed.

(** C30: A listener serves at most one worker, for its own session and accepted by the
    registrar.  What a worker reads tells it the same: the acknowledgement of the
    registrar, or a rejection on a connection that is over; and the worker that is
    served never reads a rejection. *)
Theorem registered_worker l :
  reachable l → (∀ ack, unmarshalAck (marshalAck ack) = Some ack) →
  (∀ n m hello hello', li_Connections l !! n = Some (Serving hello) →
     li_Connections l !! m = Some (Serving hello') → n = m) ∧
  (∀ n hello, li_Connections l !! n = Some (Serving hello) →
     ∃ ack frame, accepted hello ack ∧ li_Answers l !! n = Some frame ∧ readAnswer frame = Ok ack) ∧
  (∀ n frame, li_Answers l !! n = Some frame →
     (∃ hello ack, accepted hello ack ∧ readAnswer frame = Ok ack) ∨
     readAnswer frame = Err ErrWorkerRejected ∧ li_Connections l !! n = Some Over).
Proof.
  intros (Ic & Ia & _)%reachable_registering Hack.
  assert (∀ ack, readAnswer (ackFrame ack) = Ok ack) as Hread.
  { intros ack. unfold readAnswer. simpl. by rewrite Hack. }
  split_and!.
  - intros n m hello hello' Hn Hm. destruct (Ic n _ Hn) as [E _]. destruct (Ic m _ Hm) as [E' _].
    congruence.
  - intros n hello Hn. destruct (Ic n _ Hn) as (_ & ack & Hacc & Ha). exists ack, (ackFrame ack).
    by rewrite Hread.
  - intros n frame Hf. destruct (Ia n frame Hf) as [(hello & ack & Hacc & ->)|[[e ->] Ho]].
    + left. exists hello, ack. by rewrite Hread.
    + right. done.
Qed.

(** Once an acknowledgement could not be sent, the listener counts its worker as live
    for ever and serves no other. *)
Lemma lost_acknowledgement l l' n :
  invariant l → rtc step l l' →
  li_Connected l = Some n → li_Connections l !! n = Some Over →
  li_Connected l' = Some n ∧ ∀ m hello, li_Connections l' !! m ≠ Some (Serving hello).
Proof.
  intros I Hr Hc Ho.
  assert (invariant l' ∧ li_Connected l' = Some n ∧ li_Connections l' !! n = Some Over)
    as (I' & Hc' & Ho').
  { revert Hr. apply (rtc_ind_r (λ l', invariant l' ∧ li_Connected l' = Some n ∧
      li_Connections l' !! n = Some Over)); [done|]. intros x y _ Hs (Ix & Cx & Ox).
    split; [by eapply step_registering|]. clear I Hc Ho l l'.
    destruct Hs as [m Hm|m Hm|m frame written Hm|m hello ack bound written Hm|m hello ack written Hm|m hello Hm];
      (assert (m ≠ n) as Hne by congruence); simpl; rewrite ?lookup_insert_ne by done; try done.
    - unfold verifyConnection. destruct (verify frame) as [e|[]]; simpl;
        by rewrite lookup_insert_ne.
    - unfold install. destruct bound; simpl; [|by rewrite lookup_insert_ne].
      rewrite bool_decide_eq_true_2 by (by rewrite Cx; eexists). simpl. by rewrite lookup_insert_ne.
    - unfold disconnect. destruct (proj1 Ix m _ Hm) as [E _]. congruence. }
  split; [done|]. intros m hello Hm. destruct (proj1 I' m _ Hm) as [E _]. congruence.
Qed.

End registration.

(** ** A worker registers; another is refused *)

Definition sample_hello : Hello := mkHello (bs "s") (bs "g") (bs "secret") (bs "default").
Definition sample_ack : HelloAck := mkHelloAck (bs "s") (bs "/w") (bs "default").
Definition sample_unmarshalHello (payload : bytes) : option Hello := Some sample_hello.
Definition sample_marshalAck (ack : HelloAck) : bytes :=
  Wire.digits (encode (ha_SessionID ack, ha_Workspace ack, ha_AgentSpace ack)).
Definition sample_unmarshalAck (payload : bytes) : option HelloAck :=
  '(s, w, a) ← Wire.number payload ≫= decode; Some (mkHelloAck s w a).
Definition sample_AcceptWorker (hello : Hello) : goerror + HelloAck :=
  if bool_decide (he_Credential hello = bs "secret") then inr sample_ack
  else inl (Sentinel ErrPermissionDenied).
Definition sample_helloFrame : Frame := mkFrame KindHello [] [] (bs "{}") None.

Definition sample_verify :=
  verifyConnection sample_unmarshalHello sample_text (rev sentinels) (bs "s") sample_AcceptWorker.
Definition sample_install := install sample_text (rev sentinels).
Definition sample_acknowledge := acknowledge sample_marshalAck.

Definition sample_listener : Listener :=
  sample_install 2 sample_hello sample_ack true true
    (sample_verify 2 sample_helloFrame true (moveTo 2 Waiting
      (sample_acknowledge 1 sample_hello sample_ack true
        (sample_install 1 sample_hello sample_ack true true
          (sample_verify 1 sample_helloFrame true (moveTo 1 Waiting newListener)))))).

Abbreviation sample_step :=
  (step sample_unmarshalHello sample_marshalAck sample_text (rev sentinels) (bs "s") sample_AcceptWorker).

Lemma sample_listener_reachable : rtc sample_step newListener sample_listener.
Proof.
  eapply rtc_l; [by apply (Arrives _ _ _ _ _ _ _ 1)|].
  eapply rtc_l; [by apply (Verifies _ _ _ _ _ _ _ 1 sample_helloFrame true)|].
  eapply rtc_l; [by apply (Installs _ _ _ _ _ _ _ 1 sample_hello sample_ack true true)|].
  eapply rtc_l; [by apply (Acknowledges _ _ _ _ _ _ _ 1 sample_hello sample_ack true)|].
  eapply rtc_l; [by apply (Arrives _ _ _ _ _ _ _ 2)|].
  eapply rtc_l; [by apply (Verifies _ _ _ _ _ _ _ 2 sample_helloFrame true)|].
  eapply rtc_once. by apply (Installs _ _ _ _ _ _ _ 2 sample_hello sample_ack true true).
Qed.

Lemma registered_worker_witness :
  li_Connections sample_listener !! 1%N = Some (Serving sample_hello) ∧
  li_Connections sample_listener !! 2%N = Some Over ∧
  ∃ ack frame, accepted (bs "s") sample_AcceptWorker sample_hello ack ∧
    li_Answers sample_listener !! 1%N = Some frame ∧ readAnswer sample_unmarshalAck frame = Ok ack.
Proof.
  split; [by vm_compute|]. split; [by vm_compute|].
  eapply (registered_worker sample_unmarshalHello sample_marshalAck sample_unmarshalAck
            sample_text (rev sentinels) (bs "s") sample_AcceptWorker sample_listener sample_listener_reachable).
  - intros [s w a]. unfold sample_marshalAck, sample_unmarshalAck.
    rewrite <-(app_nil_r (Wire.digits _)), number_digits. simpl. by rewrite decode_encode.
  - by vm_compute.
Defined.

End Registration.
