(* ===== verification/Skills.v ===== *)
(** Skill references and their expansion
    (src/internal/pkg/harness/skillrefs.go, [ActivateSkill] of types.go,
    [lookupAddresses] of core.go, [splitFrontMatter] of metadata.go): which [:name]
    texts name a skill, and which skills a message delivers. *)
From stdpp Require Import base gmap sets list strings.
From Stdlib Require Import ZArith Lia Ascii Sorted.
From S2P Require Import Prelude GoBytes.

Module Skills.

(** ** References *)

Definition skillReferenceMarker : ascii := ":"%char.
Definition skillReferenceBoundaryRunes : bytes := bs ",.;!?)]}".
Definition CorePrefix : bytes := bs "core:".

Definition isSkillNameByte (value : ascii) : bool :=
  in_range 97 122 value || in_range 48 57 value || bool_decide (value = "-"%char).

(** The number of name bytes that a text begins with. *)
Fixpoint nameLength (text : bytes) : nat :=
  match text with
  | value :: text => if isSkillNameByte value then S (nameLength text) else 0
  | [] => 0
  end.

Definition skillNameEnd (text : bytes) (start : nat) : nat := start + nameLength (drop start text).

Definition skillReferenceNameEnd (text : bytes) (start : nat) : nat :=
  let last := skillNameEnd text start in
  if negb (has_prefix CorePrefix (drop start text)) then last
  else
    let nameStart := start + length CorePrefix in
    let coreEnd := skillNameEnd text nameStart in
    if (coreEnd =? nameStart)%nat then last else coreEnd.

(** A space is found by its encoding: no encoding ends another rune's. *)
Definition isSkillReferenceStart (text : bytes) (index : nat) : bool :=
  (index =? 0)%nat || existsb (λ r, has_suffix r (take index text)) space_runes.

Definition isSkillReferenceBoundary (text : bytes) (index : nat) : bool :=
  match drop index text with
  | [] => true
  | next :: rest =>
      existsb (λ r, has_prefix r (next :: rest)) space_runes ||
      bool_decide (next ∈ skillReferenceBoundaryRunes)
  end.

Fixpoint references (fuel : nat) (text : bytes) (index : nat) : list bytes :=
  match fuel with
  | O => []
  | S fuel =>
      match text !! index with
      | None => []
      | Some c =>
          if negb (bool_decide (c = skillReferenceMarker)) || negb (isSkillReferenceStart text index)
          then references fuel text (index + 1)
          else
            let last := skillReferenceNameEnd text (index + 1) in
            if (last =? index + 1)%nat || negb (isSkillReferenceBoundary text last)
            then references fuel text (index + 1)
            else take (last - (index + 1)) (drop (index + 1) text) :: references fuel text last
      end
  end.

Fixpoint uniqueNames (seen : gset bytes) (names : list bytes) : list bytes :=
  match names with
  | [] => []
  | name :: names =>
      if bool_decide (name ∈ seen) then uniqueNames seen names
      else name :: uniqueNames ({[name]} ∪ seen) names
  end.
Definition uniqueSkillNames : list bytes → list bytes := uniqueNames ∅.

Definition SkillReferences (text : bytes) : list bytes :=
  uniqueSkillNames (references (S (length text)) text 0).

(** ** Documents *)

Definition frontMatterDelimiter : bytes := bs "---".

(** The index of the first delimiter after the first line. *)
Fixpoint closingAfter (index : nat) (lines : list bytes) : option nat :=
  match lines with
  | [] => None
  | line :: lines =>
      if bool_decide (line = frontMatterDelimiter) then Some index else closingAfter (S index) lines
  end.
Definition frontMatterClosingIndex (lines : list bytes) : option nat :=
  closingAfter 1 (drop 1 lines).

Definition splitFrontMatter (content : bytes) : option (bytes * bytes) :=
  let lines := split_byte NL (replace_crlf content) in
  if (length lines <? 3)%nat || negb (bool_decide (lines !! 0 = Some frontMatterDelimiter)) then None
  else
    closingIndex ← frontMatterClosingIndex lines;
    let body := join [NL] (drop (closingIndex + 1) lines) in
    if bool_decide (trim_space body = []) then None
    else Some (join [NL] (take (closingIndex - 1) (drop 1 lines)), body).

Definition skillBody (content : bytes) : bytes :=
  match splitFrontMatter content with Some (_, body) => body | None => content end.

(** ** Activation *)

(** A catalogue entry, with the fields that an expansion reads or a caller tells it by;
    the others are copied unread. *)
Record Skill := mkSkill { sk_Name : bytes; sk_Description : bytes; sk_Source : bytes }.
Record ActivatedSkill := mkActivated { as_Skill : Skill; as_Content : bytes }.
Definition nameOf (skill : ActivatedSkill) : bytes := sk_Name (as_Skill skill).

Record Snapshot := mkSnapshot {
  sn_skills : list Skill;
  sn_skillContents : gmap bytes bytes;
  sn_skillBudget : Z
}.

Definition lookupAddresses (name : bytes) : list bytes :=
  if has_prefix CorePrefix name then [name] else [name; CorePrefix ++ name].

Definition skillAt (s : Snapshot) (address : bytes) : option ActivatedSkill :=
  skill ← find (λ skill, bool_decide (sk_Name skill = address)) (sn_skills s);
  Some (mkActivated skill (default [] (sn_skillContents s !! address))).

Fixpoint firstOf (s : Snapshot) (addresses : list bytes) : option ActivatedSkill :=
  match addresses with
  | [] => None
  | address :: addresses =>
      match skillAt s address with Some skill => Some skill | None => firstOf s addresses end
  end.
Definition ActivateSkill (s : Snapshot) (name : bytes) : option ActivatedSkill :=
  firstOf s (lookupAddresses name).

(** ** Expansion *)

Record SkillDelivery := mkDelivery {
  de_Skill : ActivatedSkill; de_Referenced : bool; de_AlreadyDelivered : bool
}.

Record skillExpansion := mkExpansion {
  ex_seen : gset bytes; ex_deliveries : list SkillDelivery
}.
Definition deliver (delivery : SkillDelivery) (e : skillExpansion) : skillExpansion :=
  mkExpansion (ex_seen e) (ex_deliveries e ++ [delivery]).
Definition see (name : bytes) (e : skillExpansion) : skillExpansion :=
  mkExpansion ({[name]} ∪ ex_seen e) (ex_deliveries e).

Section expansion.
Variable s : Snapshot.

Fixpoint addReferences (add : ActivatedSkill → bool → skillExpansion → outcome skillExpansion)
    (names : list bytes) (e : skillExpansion) : outcome skillExpansion :=
  match names with
  | [] => Ok e
  | reference :: names =>
      match ActivateSkill s reference with
      | None => addReferences add names e
      | Some target => e ← add target true e; addReferences add names e
      end
  end.

Fixpoint add (fuel : nat) (skill : ActivatedSkill) (referenced : bool) (e : skillExpansion)
    : outcome skillExpansion :=
  match fuel with
  | O => OutOfFuel
  | S fuel =>
      if bool_decide (nameOf skill ∈ ex_seen e) then Ok e
      else
        addReferences (add fuel) (SkillReferences (skillBody (as_Content skill)))
          (deliver (mkDelivery skill referenced false) (see (nameOf skill) e))
  end.

Definition noteRepeat (skill : ActivatedSkill) (e : skillExpansion) : skillExpansion :=
  if existsb (λ d, bool_decide (nameOf (de_Skill d) = nameOf skill)) (ex_deliveries e) then e
  else deliver (mkDelivery skill false true) e.

(** Each skill that is added is one of the snapshot not seen before. *)
Definition expansionFuel : nat := S (length (sn_skills s)).

Definition addNamed (prior : gset bytes) (skill : ActivatedSkill) (e : skillExpansion)
    : outcome skillExpansion :=
  if bool_decide (nameOf skill ∈ prior) then Ok (noteRepeat skill e)
  else add expansionFuel skill false e.

Fixpoint addAllNamed (prior : gset bytes) (named : list ActivatedSkill) (e : skillExpansion)
    : outcome skillExpansion :=
  match named with
  | [] => Ok e
  | skill :: named => e ← addNamed prior skill e; addAllNamed prior named e
  end.

Definition defaultMaxFileBytes : Z := 128 * 1024.

Definition deliveredSize (deliveries : list SkillDelivery) : nat :=
  sum_list_with (λ d, if de_AlreadyDelivered d then 0 else length (as_Content (de_Skill d)))
    deliveries.
Definition checkDeliveredSize (deliveries : list SkillDelivery) : outcome unit :=
  let budget := if (sn_skillBudget s <=? 0)%Z then defaultMaxFileBytes else sn_skillBudget s in
  if (Z.of_nat (deliveredSize deliveries) <=? budget)%Z then Ok tt else Err ErrSkillContentTooLarge.

Definition resolveNamed (names : list bytes) : outcome (list ActivatedSkill) :=
  match mapM (ActivateSkill s) names with Some named => Ok named | None => Err ErrSkillNotFound end.

Definition ExpandSkills (names : list bytes) (delivered : gset bytes) : outcome (list SkillDelivery) :=
  named ← resolveNamed names;
  e ← addAllNamed delivered named (mkExpansion delivered []);
  _ ← checkDeliveredSize (ex_deliveries e);
  Ok (ex_deliveries e).
End expansion.

Definition unknown (s : Snapshot) (reference : bytes) : bool :=
  match ActivateSkill s reference with Some _ => false | None => true end.
Definition unknownSkillReferences (s : Snapshot) (content : bytes) : list bytes :=
  filter (unknown s) (SkillReferences (skillBody content)).

#[export] Instance Skill_eq_dec : EqDecision Skill.
Proof. solve_decision. Defined.
#[export] Instance ActivatedSkill_eq_dec : EqDecision ActivatedSkill.
Proof. solve_decision. Defined.
#[export] Instance SkillDelivery_eq_dec : EqDecision SkillDelivery.
Proof. solve_decision. Defined.

(** The samples of skillrefs_test.go. *)
Example references_punctuation :
  SkillReferences (bs "use :planning, then :freshness. Repeat :planning.") =
    [bs "planning"; bs "freshness"].
Proof. by vm_compute. Qed.
Example references_core :
  SkillReferences (bs ":core:planning/notes and (:core:freshness) and :core:review!") =
    [bs "core:review"].
Proof. by vm_compute. Qed.
Example references_prefix :
  SkillReferences (bs ":Core:planning and :other:planning and :core:core:planning") = [].
Proof. by vm_compute. Qed.

(** ** What a reference is *)

Definition plain_name (name : bytes) : Prop := name ≠ [] ∧ Forall isSkillNameByte name.
Definition skill_name (name : bytes) : Prop :=
  plain_name name ∨ ∃ own, name = CorePrefix ++ own ∧ plain_name own.

(** The text [pre] before a reference, and the text [post] after it. *)
Definition opens (pre : bytes) : Prop := pre = [] ∨ ∃ k r, r ∈ space_runes ∧ pre = k ++ r.
Definition closes (post : bytes) : Prop :=
  post = [] ∨ (∃ r k, r ∈ space_runes ∧ post = r ++ k) ∨
  ∃ c k, c ∈ skillReferenceBoundaryRunes ∧ post = c :: k.

Definition reference_at (text : bytes) (index : nat) (name : bytes) : Prop :=
  ∃ pre post, text = pre ++ skillReferenceMarker :: name ++ post ∧ length pre = index ∧
    opens pre ∧ skill_name name ∧ closes post.

(** What the scan tests at an index. *)
Definition scannedAt (text : bytes) (index : nat) : option bytes :=
  let last := skillReferenceNameEnd text (index + 1) in
  if bool_decide (text !! index = Some skillReferenceMarker) && isSkillReferenceStart text index &&
     negb (last =? index + 1)%nat && isSkillReferenceBoundary text last
  then Some (take (last - (index + 1)) (drop (index + 1) text)) else None.

Definition notName (text : bytes) : Prop :=
  match text with [] => True | c :: _ => isSkillNameByte c = false end.

Lemma nameLength_app name post :
  Forall isSkillNameByte name → notName post → nameLength (name ++ post) = length name.
Proof.
  intros Hname Hpost. induction Hname as [|c name Hc _ IH]; simpl.
  - destruct post as [|c post]; [done|]. simpl in *. by rewrite Hpost.
  - destruct (isSkillNameByte c); [by rewrite IH|done].
Qed.

Lemma nameLength_split text :
  ∃ name post, text = name ++ post ∧ length name = nameLength text ∧
    Forall isSkillNameByte name ∧ notName post.
Proof.
  induction text as [|c text (name & post & -> & Hlen & Hname & Hpost)]; simpl.
  { by exists [], []. }
  destruct (isSkillNameByte c) eqn:E.
  - exists (c :: name), post. simpl. rewrite Hlen. split_and!; try done. constructor; [by rewrite E|done].
  - by exists [], (c :: name ++ post).
Qed.

(** What may follow a name: no name byte and no marker. *)
Definition breaks (text : bytes) : bool :=
  match text with
  | [] => true
  | c :: _ => negb (isSkillNameByte c) && bool_decide (c ≠ skillReferenceMarker)
  end.

Lemma space_runes_break : Forall (λ r, r ≠ [] ∧ breaks r) space_runes.
Proof. by apply (bool_decide_unpack _); vm_compute. Qed.

(** No space ends as a core prefix does before its colon. *)
Lemma space_runes_last : Forall (λ r, last r ≠ Some "e"%char) space_runes.
Proof. by apply (bool_decide_unpack _); vm_compute. Qed.

Lemma boundary_runes_break : Forall (λ c, breaks [c]) skillReferenceBoundaryRunes.
Proof. by apply (bool_decide_unpack _); vm_compute. Qed.

Lemma closes_breaks post : closes post → breaks post.
Proof.
  intros [-> | [(r & k & Hr & ->) | (c & k & Hc & ->)]]; [done| |].
  - pose proof (proj1 (Forall_forall _ _) space_runes_break r Hr) as [Hne Hb]. by destruct r.
  - exact (proj1 (Forall_forall _ _) boundary_runes_break c Hc).
Qed.

Lemma breaks_notName post : breaks post → notName post.
Proof. destruct post as [|c post]; simpl; [done|]. by destruct (isSkillNameByte c). Qed.

Definition referenceLength (rest : bytes) : nat :=
  if has_prefix CorePrefix rest then
    let own := nameLength (drop 5 rest) in
    if (own =? 0)%nat then nameLength rest else 5 + own
  else nameLength rest.

Lemma skillReferenceNameEnd_rest text start :
  skillReferenceNameEnd text start = start + referenceLength (drop start text).
Proof.
  unfold skillReferenceNameEnd, skillNameEnd, referenceLength.
  destruct has_prefix; simpl; [|done]. change (length CorePrefix) with 5. rewrite drop_drop.
  repeat case_match; rewrite ?Nat.eqb_eq, ?Nat.eqb_neq in *; lia.
Qed.

Lemma core_prefix_name rest : has_prefix CorePrefix rest = true → nameLength rest = 4.
Proof. by intros [k ->]%has_prefix_spec. Qed.

Lemma referenceLength_app name post :
  skill_name name → breaks post → referenceLength (name ++ post) = length name.
Proof.
  intros [[_ Hname] | (own & -> & [Hne Hown])] Hpost; unfold referenceLength.
  - pose proof (nameLength_app name post Hname (breaks_notName post Hpost)) as Hlen.
    destruct (has_prefix CorePrefix (name ++ post)) eqn:Hcore; [|done].
    pose proof (core_prefix_name _ Hcore) as H4. rewrite Hlen in H4.
    destruct name as [|? [|? [|? [|? [|]]]]]; try done. simpl in Hcore, Hpost.
    destruct post as [|c post]; [by rewrite !andb_false_r in Hcore|].
    simpl in Hpost. rewrite !andb_true_iff, !bool_decide_eq_true in Hcore.
    destruct Hcore as (_ & _ & _ & _ & <- & _). by vm_compute in Hpost.
  - rewrite <- app_assoc, has_prefix_app. change 5 with (length CorePrefix).
    rewrite drop_app_length, (nameLength_app own post Hown (breaks_notName post Hpost)).
    rewrite length_app. by destruct own.
Qed.

Lemma referenceLength_split rest :
  ∃ name post, rest = name ++ post ∧ length name = referenceLength rest ∧
    (name ≠ [] → skill_name name).
Proof.
  unfold referenceLength.
  destruct (nameLength_split rest) as (name & post & Hrest & Hlen & Hname & _).
  assert (∃ name post, rest = name ++ post ∧ length name = nameLength rest ∧
    (name ≠ [] → skill_name name)) as Hplain by (exists name, post; by repeat split; [..|by left]).
  destruct (has_prefix CorePrefix rest) eqn:Hcore; [|done].
  destruct (Nat.eqb_spec (nameLength (drop 5 rest)) 0) as [|Hown]; [done|].
  apply has_prefix_spec in Hcore as [k ->].
  change 5 with (length CorePrefix) in *. rewrite drop_app_length in *.
  destruct (nameLength_split k) as (own & tail & -> & Hlen' & Hname' & _).
  exists (CorePrefix ++ own), tail. rewrite length_app, <- app_assoc, Hlen'. split_and!; [done..|].
  intros _. right. exists own. split; [done|]. split; [|done]. by intros ->.
Qed.

Lemma existsb_true {A} (f : A → bool) l : existsb f l = true ↔ ∃ x, x ∈ l ∧ f x = true.
Proof. rewrite existsb_exists. by setoid_rewrite list_elem_of_In. Qed.

Lemma isSkillReferenceStart_spec text index :
  index ≤ length text → isSkillReferenceStart text index = true ↔ opens (take index text).
Proof.
  intros Hindex. unfold isSkillReferenceStart, opens.
  rewrite orb_true_iff, Nat.eqb_eq, existsb_true. f_equiv.
  - split; [by intros ->|]. intros H%(f_equal length). rewrite length_take in H. simpl in H. lia.
  - setoid_rewrite has_suffix_spec. naive_solver.
Qed.

Lemma isSkillReferenceBoundary_spec text index :
  isSkillReferenceBoundary text index = true ↔ closes (drop index text).
Proof.
  unfold isSkillReferenceBoundary, closes. destruct (drop index text) as [|c rest]; [by split; [left|]|].
  rewrite orb_true_iff, existsb_true, bool_decide_eq_true. setoid_rewrite has_prefix_spec.
  split; [|naive_solver]. intros [|]; [naive_solver|]. right. right. eauto.
Qed.

Lemma referenceAt_spec text index name :
  scannedAt text index = Some name ↔ reference_at text index name.
Proof.
  unfold scannedAt, reference_at. rewrite skillReferenceNameEnd_rest. cbn zeta. split.
  - destruct (_ && _) eqn:H; [|done]. rewrite !andb_true_iff, bool_decide_eq_true in H.
    destruct H as [[[Hc Hs] Hne] Hb]. intros [= <-].
    pose proof (lookup_lt_Some _ _ _ Hc) as Hlt.
    rewrite isSkillReferenceStart_spec in Hs by lia. rewrite isSkillReferenceBoundary_spec in Hb.
    apply negb_true_iff, Nat.eqb_neq in Hne.
    destruct (referenceLength_split (drop (index + 1) text)) as (own & post & Hrest & Hlen & Hname).
    rewrite <- drop_drop, <- Hlen, Hrest, drop_app_length in Hb.
    assert (text = take index text ++ skillReferenceMarker :: own ++ post) as Htext.
    { by rewrite <- Hrest, Nat.add_1_r, take_drop_middle. }
    exists (take index text), post. rewrite <- Hlen, Hrest.
    replace (index + 1 + length own - (index + 1)) with (length own) by lia.
    rewrite take_app_length, length_take. split_and!; [done|lia|done| |done].
    apply Hname. intros ->. simpl in Hlen. lia.
  - intros (pre & post & -> & <- & Hs & Hname & Hb).
    assert (drop (length pre + 1) (pre ++ skillReferenceMarker :: name ++ post) = name ++ post) as Hrest.
    { by rewrite <- drop_drop, drop_app_length. }
    rewrite Hrest, (referenceLength_app name post Hname (closes_breaks post Hb)).
    replace (length pre + 1 + length name - (length pre + 1)) with (length name) by lia.
    rewrite take_app_length, list_lookup_middle, bool_decide_eq_true_2 by done.
    assert (isSkillReferenceStart (pre ++ skillReferenceMarker :: name ++ post) (length pre) = true) as ->.
    { apply isSkillReferenceStart_spec; [rewrite length_app; lia|]. by rewrite take_app_length. }
    assert (isSkillReferenceBoundary (pre ++ skillReferenceMarker :: name ++ post)
              (length pre + 1 + length name) = true) as ->.
    { apply isSkillReferenceBoundary_spec. by rewrite <- drop_drop, Hrest, drop_app_length. }
    assert (length name ≠ 0).
    { destruct Hname as [[Hne _] | (own & -> & _)]; [by destruct name|done]. }
    destruct (Nat.eqb_spec (length pre + 1 + length name) (length pre + 1)); [lia|done].
Qed.

(** Inside a reference there is no other. *)
Lemma reference_inside text index name j :
  scannedAt text index = Some name → index < j → j < index + 1 + length name →
  scannedAt text j = None.
Proof.
  intros H Hlt Hj. apply eq_None_not_Some. intros [name' H'].
  apply referenceAt_spec in H as (pre & post & -> & <- & _ & Hname & _).
  apply referenceAt_spec in H' as (pre' & post' & Htext & <- & Hopen & _ & _).
  assert (∃ front back, name = front ++ skillReferenceMarker :: back ∧
    pre' = pre ++ skillReferenceMarker :: front) as (front & back & -> & ->).
  { destruct (app_eq_inv _ _ _ _ Htext) as [(k & -> & Hk) | (k & -> & Hk)].
    - rewrite length_app in Hlt. lia.
    - destruct k as [|c k]; [rewrite app_nil_r in Hlt; lia|]. simpl in Hk. injection Hk as <- Hk.
      destruct (app_eq_inv _ _ _ _ Hk) as [(m & -> & Hm) | (m & -> & Hm)].
      + destruct m as [|d m]; [rewrite !length_app in Hj; simpl in Hj; lia|].
        injection Hm as <- Hm. by exists k, m.
      + rewrite !length_app in Hj. simpl in Hj. rewrite length_app in Hj. lia. }
  destruct Hname as [[_ Hname] | (own & Hown & _ & Hname)].
  { apply Forall_app in Hname as [_ Hname%Forall_inv]. by vm_compute in Hname. }
  assert (front = bs "core") as ->.
  { change (CorePrefix ++ own) with (bs "core" ++ skillReferenceMarker :: own) in Hown.
    destruct (app_eq_inv _ _ _ _ Hown) as [([|c k] & -> & Hk) | ([|c k] & Hfront & Hk)].
    - apply app_nil_r.
    - injection Hk as <- ->. apply Forall_app in Hname as [_ Hname%Forall_inv]. by vm_compute in Hname.
    - by rewrite app_nil_r in Hfront.
    - injection Hk as <- _. exfalso. assert (skillReferenceMarker ∈ bs "core") as Hin.
      { rewrite Hfront. set_solver. } revert Hin. by apply (bool_decide_unpack _); vm_compute. }
  destruct Hopen as [Hnil | (k & r & Hr & Hk)]; [by destruct pre|].
  pose proof (proj1 (Forall_forall _ _) space_runes_last r Hr) as Hlast.
  pose proof (proj1 (Forall_forall _ _) space_runes_nonempty r Hr) as Hne.
  apply Hlast. apply (f_equal last) in Hk. rewrite !last_app in Hk.
  destruct (last r) eqn:E; [|by apply last_None in E]. by vm_compute in Hk.
Qed.

Lemma omap_none {A B} (f : A → option B) l : (∀ x, x ∈ l → f x = None) → omap f l = [].
Proof.
  induction l as [|x l IH]; intros H; [done|]. cbn. rewrite H by left. apply IH. intros y Hy. apply H. by right.
Qed.

Lemma references_step fuel text index c :
  text !! index = Some c →
  references (S fuel) text index =
    match scannedAt text index with
    | Some name => name :: references fuel text (index + 1 + length name)
    | None => references fuel text (index + 1)
    end.
Proof.
  intros Hc. unfold scannedAt. cbn [references]. rewrite Hc, skillReferenceNameEnd_rest. cbn zeta.
  rewrite (bool_decide_ext (Some c = Some skillReferenceMarker) (c = skillReferenceMarker))
    by (split; congruence).
  destruct (bool_decide (c = skillReferenceMarker)); [|done].
  destruct isSkillReferenceStart; [|done]. cbn.
  destruct (_ =? _)%nat; [done|]. cbn. destruct isSkillReferenceBoundary; [|done]. cbn.
  f_equal. f_equal.
  destruct (referenceLength_split (drop (index + 1) text)) as (own & post & Hrest & Hlen & _).
  rewrite <- Hlen, Hrest.
  replace (index + 1 + length own - (index + 1)) with (length own) by lia. by rewrite take_app_length.
Qed.

Lemma reference_fits text index name :
  scannedAt text index = Some name → index + 1 + length name ≤ length text.
Proof.
  intros (pre & post & -> & <- & _)%referenceAt_spec. rewrite length_app. simpl. rewrite length_app. lia.
Qed.

Lemma references_all fuel text index :
  length text - index < fuel →
  references fuel text index = omap (scannedAt text) (seq index (length text - index)).
Proof.
  revert index. induction fuel as [|fuel IH]; intros index Hfuel; [lia|].
  destruct (text !! index) as [c|] eqn:Hc.
  2:{ cbn [references]. rewrite Hc. apply lookup_ge_None in Hc. by replace (length text - index) with 0 by lia. }
  rewrite (references_step fuel text index c Hc). apply lookup_lt_Some in Hc.
  destruct (length text - index) as [|n] eqn:En; [lia|]. cbn [seq omap list_omap].
  destruct (scannedAt text index) as [name|] eqn:E.
  - pose proof (reference_fits text index name E) as Hfit. rewrite IH by lia.
    replace n with (length name + (length text - (index + 1 + length name))) by lia.
    rewrite seq_app, omap_app, (omap_none _ (seq (S index) _)).
    { cbn [app]. do 3 f_equal; lia. }
    intros j Hj%elem_of_seq. apply (reference_inside text index name); [done|lia..].
  - rewrite IH by lia. do 2 f_equal; lia.
Qed.

Lemma uniqueNames_spec seen names :
  NoDup (uniqueNames seen names) ∧
  ∀ name, name ∈ uniqueNames seen names ↔ name ∈ names ∧ name ∉ seen.
Proof.
  revert seen. induction names as [|x names IH]; intros seen; cbn [uniqueNames].
  { split; [constructor|]. set_solver. }
  case_bool_decide as Hx.
  - destruct (IH seen) as [Hnd Hin]. split; [done|]. intros name. rewrite Hin. set_solver.
  - destruct (IH ({[x]} ∪ seen)) as [Hnd Hin]. split.
    + constructor; [|done]. rewrite Hin. set_solver.
    + intros name. rewrite elem_of_cons, Hin. destruct (decide (name = x)); set_solver.
Qed.

(** A skill body names the skills of its references, once each. *)
Lemma SkillReferences_elem text name :
  name ∈ SkillReferences text ↔ ∃ index, reference_at text index name.
Proof.
  unfold SkillReferences, uniqueSkillNames. rewrite (proj2 (uniqueNames_spec _ _)).
  rewrite references_all by lia. rewrite Nat.sub_0_r, list_elem_of_omap.
  setoid_rewrite <- referenceAt_spec. split; [naive_solver|]. intros (index & H).
  split; [|set_solver]. exists index. split; [|done]. apply elem_of_seq.
  pose proof (reference_fits text index name H). lia.
Qed.

(** The references of a text with their indices. *)
Definition found (text : bytes) : list (nat * bytes) :=
  omap (λ index, pair index <$> scannedAt text index) (seq 0 (length text)).

Lemma found_spec text index name : (index, name) ∈ found text ↔ reference_at text index name.
Proof.
  unfold found. rewrite list_elem_of_omap, <- referenceAt_spec. split.
  - intros (i & _ & H). destruct (scannedAt text i) eqn:E; naive_solver.
  - intros H. exists index. rewrite H. split; [|done]. apply elem_of_seq.
    pose proof (reference_fits text index name H). lia.
Qed.

Lemma omap_pairs_fst {A B} (f : A → option B) l :
  (omap (λ x, pair x <$> f x) l).*1 = filter (λ x, is_Some (f x)) l.
Proof.
  induction l as [|x l IH]; [done|]. rewrite filter_cons. cbn [omap list_omap].
  destruct (f x) eqn:E; case_decide as Hx; simpl.
  - f_equal. exact IH.
  - by destruct Hx.
  - by destruct Hx.
  - exact IH.
Qed.

Lemma omap_pairs_snd {A B} (f : A → option B) l : (omap (λ x, pair x <$> f x) l).*2 = omap f l.
Proof. induction l as [|x l IH]; [done|]. cbn. destruct (f x); cbn; by rewrite ?IH. Qed.

Lemma found_sorted text : StronglySorted lt (found text).*1.
Proof.
  unfold found. rewrite omap_pairs_fst. apply StronglySorted_filter.
  generalize 0. induction (length text) as [|n IH]; intros start; constructor; [done|].
  apply Forall_forall. intros y Hy%elem_of_seq. lia.
Qed.

Lemma SkillReferences_found text : SkillReferences text = uniqueSkillNames (found text).*2.
Proof.
  unfold SkillReferences, found. rewrite references_all, omap_pairs_snd by lia. by rewrite Nat.sub_0_r.
Qed.

(** Deduplication keeps the first pair of each name. *)
Lemma uniqueNames_first seen (l : list (nat * bytes)) :
  StronglySorted lt l.*1 →
  ∃ firsts, StronglySorted lt firsts ∧ Forall (λ i, i ∈ l.*1) firsts ∧
    Forall2 (λ i x, (i, x) ∈ l ∧ x ∉ seen ∧ ∀ j, (j, x) ∈ l → i ≤ j) firsts (uniqueNames seen (l.*2)).
Proof.
  revert seen. induction l as [|[i x] l IH]; intros seen Hs; [exists []; repeat constructor|].
  simpl in Hs. apply StronglySorted_inv in Hs as [Hs Hlt]. rewrite Forall_forall in Hlt. simpl.
  case_bool_decide as Hx.
  - destruct (IH seen Hs) as (firsts & H1 & H2 & H3). exists firsts. split_and!; [done|..].
    + eapply Forall_impl; [exact H2|]. set_solver.
    + eapply Forall2_impl; [exact H3|]. intros j y (Hy & Hn & Hj). split_and!; [set_solver|done|].
      intros k [[= -> ->]|Hk]%elem_of_cons; [done|auto].
  - destruct (IH ({[x]} ∪ seen) Hs) as (firsts & H1 & H2 & H3). exists (i :: firsts). split_and!.
    + constructor; [done|]. eapply Forall_impl; [exact H2|]. auto.
    + constructor; [set_solver|]. eapply Forall_impl; [exact H2|]. set_solver.
    + constructor.
      * split_and!; [set_solver|done|]. intros j [[= ->]|Hj]%elem_of_cons; [done|].
        apply Nat.lt_le_incl, Hlt, list_elem_of_fmap. by exists (j, x).
      * eapply Forall2_impl; [exact H3|]. intros j y (Hy & Hn & Hj). split_and!; [set_solver..|].
        intros k [[= -> ->]|Hk]%elem_of_cons; [set_solver|auto].
Qed.

(** The first reference of a name. *)
Definition first_reference (text : bytes) (index : nat) (name : bytes) : Prop :=
  reference_at text index name ∧ ∀ i, reference_at text i name → index ≤ i.

(** C35: [SkillReferences] finds exactly the references of a text: the names that stand
    at the start of the text or after a space, behind a colon, as a plain name or
    one with the core prefix, and before a space, a boundary character or the end.
    It gives each name once, and in the order of their first references: the
    indices of those only grow. *)
Theorem SkillReferences_exact (text : bytes) :
  NoDup (SkillReferences text) ∧
  (∀ name, name ∈ SkillReferences text ↔ ∃ index, reference_at text index name) ∧
  ∃ indices, StronglySorted lt indices ∧ Forall2 (first_reference text) indices (SkillReferences text).
Proof.
  split_and!.
  - apply uniqueNames_spec.
  - apply SkillReferences_elem.
  - rewrite SkillReferences_found.
    destruct (uniqueNames_first ∅ (found text) (found_sorted text)) as (indices & Hs & _ & Hf).
    exists indices. split; [done|]. eapply Forall2_impl; [exact Hf|]. intros i x (Hx & _ & Hi).
    split; [by apply found_spec|]. intros j Hj. by apply Hi, found_spec.
Qed.

(** ** What an expansion delivers *)

Section expanding.
Variables (s : Snapshot) (named : list ActivatedSkill) (prior : gset bytes).

(** The body of [a] names [b]. *)
Definition mentions (a b : ActivatedSkill) : Prop :=
  ∃ name, name ∈ SkillReferences (skillBody (as_Content a)) ∧ ActivateSkill s name = Some b.

(** The skills that the caller names or that a skill to deliver names, less those
    the conversation holds. *)
Inductive due : ActivatedSkill → Prop :=
  | due_named a : a ∈ named → nameOf a ∉ prior → due a
  | due_mentioned a b : due a → mentions a b → nameOf b ∉ prior → due b.

Definition names (deliveries : list SkillDelivery) : list bytes :=
  (λ d, nameOf (de_Skill d)) <$> deliveries.

(** The lists that an expansion builds, delivery by delivery. *)
Inductive expanding : list SkillDelivery → Prop :=
  | expanding_nil : expanding []
  | expanding_note l a :
      expanding l → a ∈ named → nameOf a ∈ prior → nameOf a ∉ names l →
      expanding (l ++ [mkDelivery a false true])
  | expanding_named l a :
      expanding l → a ∈ named → nameOf a ∉ prior → nameOf a ∉ names l →
      expanding (l ++ [mkDelivery a false false])
  | expanding_mentioned l d a :
      expanding l → d ∈ l → de_AlreadyDelivered d = false → mentions (de_Skill d) a →
      nameOf a ∉ prior → nameOf a ∉ names l → expanding (l ++ [mkDelivery a true false]).

Lemma names_app l k : names (l ++ k) = names l ++ names k.
Proof. apply fmap_app. Qed.

Lemma names_elem name l : name ∈ names l ↔ ∃ d, d ∈ l ∧ nameOf (de_Skill d) = name.
Proof. unfold names. rewrite list_elem_of_fmap. naive_solver. Qed.

Lemma expanding_NoDup l : expanding l → NoDup (names l).
Proof.
  induction 1; rewrite ?names_app; [constructor|..];
    (apply NoDup_app; split_and!; [done| |apply NoDup_singleton]); set_solver.
Qed.

Lemma expanding_due l : expanding l → ∀ d, d ∈ l →
  if de_AlreadyDelivered d then de_Skill d ∈ named ∧ nameOf (de_Skill d) ∈ prior
  else due (de_Skill d) ∧ nameOf (de_Skill d) ∉ prior.
Proof.
  induction 1 as [|l a _ IH|l a _ IH|l d' a _ IH Hd' Hfresh]; intros d;
    rewrite ?elem_of_app, ?list_elem_of_singleton; [by intros ?%elem_of_nil|..];
    (intros [Hd | ->]; [by apply IH|]; simpl; split; try done).
  - by apply due_named.
  - apply (due_mentioned (de_Skill d')); [|done..]. specialize (IH d' Hd'). rewrite Hfresh in IH. apply IH.
Qed.

(** *** The state of an expansion *)

Definition expansion_state (e : skillExpansion) : Prop :=
  expanding (ex_deliveries e) ∧ ex_seen e = prior ∪ list_to_set (names (ex_deliveries e)).

(** What a call to [add] leaves: more deliveries, each with its mentions seen. *)
Definition grown (e e' : skillExpansion) : Prop :=
  expansion_state e' ∧ (∃ news, ex_deliveries e' = ex_deliveries e ++ news) ∧
  ∀ d b, d ∈ ex_deliveries e' → d ∉ ex_deliveries e → de_AlreadyDelivered d = false →
    mentions (de_Skill d) b → nameOf b ∈ ex_seen e'.

Lemma grown_elem e e' d : grown e e' → d ∈ ex_deliveries e → d ∈ ex_deliveries e'.
Proof. intros (_ & [news ->] & _) Hd. by apply elem_of_app; left. Qed.

Lemma grown_seen e e' : expansion_state e → grown e e' → ex_seen e ⊆ ex_seen e'.
Proof.
  intros [_ ->] ([_ ->] & [news ->] & _). rewrite names_app, list_to_set_app_L. set_solver.
Qed.

Lemma grown_refl e : expansion_state e → grown e e.
Proof. intros He. split; [done|]. split; [exists []; by rewrite app_nil_r|done]. Qed.

Lemma grown_trans e1 e2 e3 : expansion_state e2 → grown e1 e2 → grown e2 e3 → grown e1 e3.
Proof.
  intros He2 (_ & [n1 H1] & Hc1) H23. pose proof (grown_seen e2 e3 He2 H23) as Hseen.
  destruct H23 as (He3 & [n2 H2] & Hc2). split; [done|]. split.
  { exists (n1 ++ n2). by rewrite H2, H1, app_assoc. }
  intros d b Hd Hnew Hf Hb. destruct (decide (nameOf b ∈ ex_seen e2)) as [|Hno]; [by apply Hseen|].
  apply (Hc2 d b Hd); [|done..]. intros Hd2. by apply Hno, (Hc1 d b Hd2).
Qed.

(** The skills of the snapshot that the expansion has not seen. *)
Definition unseen (e : skillExpansion) : nat :=
  length (filter (λ skill, sk_Name skill ∉ ex_seen e) (sn_skills s)).

Lemma filter_length_mono {A} (P Q : A → Prop) `{!∀ x, Decision (P x), !∀ x, Decision (Q x)} l :
  (∀ x, P x → Q x) → length (filter P l) ≤ length (filter Q l).
Proof.
  intros HPQ. induction l as [|x l IH]; [done|]. rewrite !filter_cons.
  repeat case_decide; simpl; try lia. naive_solver.
Qed.

Lemma filter_length_strict {A} (P Q : A → Prop) `{!∀ x, Decision (P x), !∀ x, Decision (Q x)} l y :
  (∀ x, P x → Q x) → y ∈ l → Q y → ¬ P y → length (filter P l) < length (filter Q l).
Proof.
  intros HPQ Hy HQ HP. induction l as [|x l IH]; [by apply elem_of_nil in Hy|]. rewrite !filter_cons.
  apply elem_of_cons in Hy as [<- | Hy].
  - rewrite decide_False, decide_True by done. simpl. pose proof (filter_length_mono P Q l HPQ). lia.
  - specialize (IH Hy). repeat case_decide; simpl; try lia. naive_solver.
Qed.

Lemma unseen_mono e e' : ex_seen e ⊆ ex_seen e' → unseen e' ≤ unseen e.
Proof. intros H. apply filter_length_mono. set_solver. Qed.

Lemma unseen_see e a :
  as_Skill a ∈ sn_skills s → nameOf a ∉ ex_seen e → unseen (see (nameOf a) e) < unseen e.
Proof. intros Hin Hno. apply (filter_length_strict _ _ _ (as_Skill a)); set_solver. Qed.

Lemma skillAt_Some address a :
  skillAt s address = Some a → as_Skill a ∈ sn_skills s ∧ nameOf a = address.
Proof.
  unfold skillAt. destruct (find _ _) as [skill|] eqn:E; [|done]. intros [= <-]. cbn.
  apply find_some in E as [Hin Hname%bool_decide_eq_true]. by rewrite list_elem_of_In.
Qed.

Lemma ActivateSkill_Some name a :
  ActivateSkill s name = Some a → as_Skill a ∈ sn_skills s ∧ skillAt s (nameOf a) = Some a.
Proof.
  unfold ActivateSkill. induction (lookupAddresses name) as [|address rest IH]; [done|]. cbn.
  destruct (skillAt s address) as [b|] eqn:E; [|done]. intros [= ->].
  destruct (skillAt_Some address a E) as [? ->]. done.
Qed.

(** A name stands for one skill. *)
Lemma ActivateSkill_inj n1 n2 a b :
  ActivateSkill s n1 = Some a → ActivateSkill s n2 = Some b → nameOf a = nameOf b → a = b.
Proof.
  intros [_ Ha]%ActivateSkill_Some [_ Hb]%ActivateSkill_Some Hn.
  rewrite Hn, Hb in Ha. by injection Ha.
Qed.

(** Delivering an unseen skill keeps the state. *)
Lemma deliver_state e a (referenced : bool) :
  expansion_state e → nameOf a ∉ ex_seen e →
  (if referenced then ∃ d, d ∈ ex_deliveries e ∧ de_AlreadyDelivered d = false ∧ mentions (de_Skill d) a
   else a ∈ named) →
  expansion_state (deliver (mkDelivery a referenced false) (see (nameOf a) e)).
Proof.
  intros [He Hs] Hno Hwhy. rewrite Hs in Hno. apply not_elem_of_union in Hno as [Hprior Hnames].
  rewrite elem_of_list_to_set in Hnames. split; cbn.
  - destruct referenced; [|by apply expanding_named].
    destruct Hwhy as (d & Hd & Hfresh & Hm). by eapply expanding_mentioned.
  - rewrite Hs, names_app, list_to_set_app_L. cbn. set_solver.
Qed.

Lemma addReferences_spec (add' : ActivatedSkill → bool → skillExpansion → outcome skillExpansion)
    fuel parent refs e :
  (∀ a e, as_Skill a ∈ sn_skills s → expansion_state e → unseen e < fuel →
     (∃ d, d ∈ ex_deliveries e ∧ de_AlreadyDelivered d = false ∧ mentions (de_Skill d) a) →
     ∃ e', add' a true e = Ok e' ∧ grown e e' ∧ nameOf a ∈ ex_seen e') →
  expansion_state e → unseen e < fuel →
  parent ∈ ex_deliveries e → de_AlreadyDelivered parent = false →
  refs ⊆ SkillReferences (skillBody (as_Content (de_Skill parent))) →
  ∃ e', addReferences s add' refs e = Ok e' ∧ grown e e' ∧
    ∀ name a, name ∈ refs → ActivateSkill s name = Some a → nameOf a ∈ ex_seen e'.
Proof.
  intros Hadd. revert e. induction refs as [|name refs IH]; intros e He Hfuel Hp Hfresh Hrefs; cbn.
  { exists e. split; [done|]. split; [by apply grown_refl|set_solver]. }
  destruct (ActivateSkill s name) as [a|] eqn:Ea.
  2:{ destruct (IH e) as (e' & -> & Hg & Hall); [set_solver..|]. exists e'. split; [done|]. split; [done|].
      intros n b [-> | Hn]%elem_of_cons Hb; [congruence|by eapply Hall]. }
  destruct (Hadd a e) as (e1 & -> & Hg1 & Ha).
  { by apply (ActivateSkill_Some name). } { done. } { done. }
  { exists parent. split_and!; [done..|]. exists name. split; [|done]. apply Hrefs. by left. }
  pose proof (grown_seen e e1 He Hg1) as Hseen1. pose proof (unseen_mono e e1 Hseen1).
  destruct (IH e1) as (e2 & Heq & Hg2 & Hall);
    [by apply Hg1|lia|by apply (grown_elem e)|done|set_solver|].
  exists e2. cbn [mbind outcome_bind]. rewrite Heq. split; [done|].
  split; [by eapply grown_trans; [apply Hg1|..]|].
  intros n b [-> | Hn]%elem_of_cons Hb; [|by eapply Hall].
  rewrite Ea in Hb. injection Hb as <-. apply (grown_seen e1 e2); [apply Hg1|done|done].
Qed.

Lemma add_spec fuel a referenced e :
  as_Skill a ∈ sn_skills s → expansion_state e → unseen e < fuel →
  (if referenced : bool then
     ∃ d, d ∈ ex_deliveries e ∧ de_AlreadyDelivered d = false ∧ mentions (de_Skill d) a
   else a ∈ named) →
  ∃ e', add s fuel a referenced e = Ok e' ∧ grown e e' ∧ nameOf a ∈ ex_seen e'.
Proof.
  revert a referenced e. induction fuel as [|fuel IH]; intros a referenced e Ha He Hfuel Hwhy; [lia|].
  cbn [add]. case_bool_decide as Hseen.
  { exists e. split; [done|]. by split; [apply grown_refl|]. }
  pose proof (deliver_state e a referenced He Hseen Hwhy) as He1.
  pose proof (unseen_see e a Ha Hseen) as Hless.
  set (e1 := deliver _ _) in *.
  assert (mkDelivery a referenced false ∈ ex_deliveries e1) as Hp by (apply elem_of_app; right; by left).
  destruct (addReferences_spec (add s fuel) fuel (mkDelivery a referenced false)
    (SkillReferences (skillBody (as_Content a))) e1) as (e2 & Heq & Hg & Hall);
    [|done| |done|done|done|].
  { intros b e3 Hb He3 Hf Hd. by apply (IH b true e3). }
  { change (unseen e1) with (unseen (see (nameOf a) e)). lia. }
  pose proof (grown_seen e1 e2 He1 Hg) as Hgs. exists e2. split; [done|].
  split; [|apply Hgs; unfold e1; cbn; set_solver].
  destruct Hg as (He2 & [news Hnews] & Hc). split; [done|]. split.
  { exists (mkDelivery a referenced false :: news). rewrite Hnews. unfold e1. cbn. by rewrite <- app_assoc. }
  intros d b Hd Hold Hf Hm. destruct (decide (d ∈ ex_deliveries e1)) as [Hd1|]; [|by eapply Hc].
  unfold e1 in Hd1. cbn in Hd1. apply elem_of_app in Hd1 as [|Hd1]; [done|].
  apply list_elem_of_singleton in Hd1 as ->. destruct Hm as (name & Hname & Hb). by eapply Hall.
Qed.

Lemma unseen_fuel e : unseen e < expansionFuel s.
Proof. unfold unseen, expansionFuel. apply Nat.lt_succ_r, length_filter. Qed.

Lemma addNamed_spec a e :
  as_Skill a ∈ sn_skills s → expansion_state e → a ∈ named →
  ∃ e', addNamed s prior a e = Ok e' ∧ grown e e' ∧ nameOf a ∈ names (ex_deliveries e').
Proof.
  intros Ha He Hnamed. unfold addNamed. case_bool_decide as Hprior.
  - exists (noteRepeat a e). split; [done|]. unfold noteRepeat.
    destruct (existsb _ _) eqn:E.
    + split; [by apply grown_refl|]. apply names_elem. apply existsb_true in E as (d & Hd & Hn).
      apply bool_decide_eq_true in Hn. eauto.
    + assert (nameOf a ∉ names (ex_deliveries e)) as Hno.
      { intros (d & Hd & Hn)%names_elem. apply not_true_iff_false in E. apply E, existsb_true.
        exists d. by rewrite bool_decide_eq_true. }
      destruct He as [He Hs]. split; cbn; [|rewrite names_app; set_solver].
      split; [split; cbn|split; cbn; [by eexists|]].
      * by apply expanding_note.
      * rewrite Hs, names_app, list_to_set_app_L. cbn. set_solver.
      * intros d b [|Hd]%elem_of_app Hold Hf; [done|]. apply list_elem_of_singleton in Hd as ->. done.
  - destruct (add_spec (expansionFuel s) a false e) as (e' & Heq & Hg & Hin);
      [done..|apply unseen_fuel|done|]. exists e'. split; [done|]. split; [done|].
    destruct Hg as ([_ Hs] & _). rewrite Hs in Hin. set_solver.
Qed.

Lemma addAllNamed_spec given e :
  given ⊆ named → Forall (λ a, as_Skill a ∈ sn_skills s) given → expansion_state e →
  ∃ e', addAllNamed s prior given e = Ok e' ∧ grown e e' ∧
    ∀ a, a ∈ given → nameOf a ∈ names (ex_deliveries e').
Proof.
  revert e. induction given as [|a given IH]; intros e Hgiven Hall He; cbn.
  { exists e. split; [done|]. split; [by apply grown_refl|set_solver]. }
  apply Forall_cons in Hall as [Ha Hall].
  destruct (addNamed_spec a e Ha He) as (e1 & -> & Hg1 & Hin); [set_solver|].
  destruct (IH e1) as (e2 & Heq & Hg2 & Hin2); [set_solver|done|apply Hg1|].
  exists e2. cbn [mbind outcome_bind]. rewrite Heq. split; [done|].
  split; [by eapply grown_trans; [apply Hg1|..]|].
  intros b [-> | Hb]%elem_of_cons; [|by apply Hin2].
  destruct Hg2 as (_ & [news ->] & _). rewrite names_app. set_solver.
Qed.

(** *** The result *)

(** The list holds the skills due, once each, and a note for each skill that the
    caller names and the conversation holds. *)
Definition delivers (ds : list SkillDelivery) : Prop :=
  expanding ds ∧ NoDup (names ds) ∧
  (∀ a, due a ↔ ∃ d, d ∈ ds ∧ de_Skill d = a ∧ de_AlreadyDelivered d = false) ∧
  (∀ a, a ∈ named ∧ nameOf a ∈ prior ↔ ∃ d, d ∈ ds ∧ de_Skill d = a ∧ de_AlreadyDelivered d = true).

Definition activated (a : ActivatedSkill) : Prop := ∃ name, ActivateSkill s name = Some a.

Lemma activated_inj a b : activated a → activated b → nameOf a = nameOf b → a = b.
Proof. intros [n1 H1] [n2 H2]. by apply (ActivateSkill_inj n1 n2). Qed.

Lemma due_activated a : Forall activated named → due a → activated a.
Proof.
  intros Hnamed. destruct 1 as [a Ha _|a b _ (name & _ & Hb) _]; [|by exists name].
  by eapply (proj1 (Forall_forall _ _) Hnamed).
Qed.

Lemma delivers_complete e :
  Forall activated named → grown (mkExpansion prior []) e →
  (∀ a, a ∈ named → nameOf a ∈ names (ex_deliveries e)) → delivers (ex_deliveries e).
Proof.
  intros Hact ([He Hs] & _ & Hclosed) Hnamed.
  pose proof (expanding_due _ He) as Hdue.
  assert (∀ d, d ∈ ex_deliveries e → activated (de_Skill d)) as Hacts.
  { intros d Hd. specialize (Hdue d Hd). destruct (de_AlreadyDelivered d).
    - by eapply (proj1 (Forall_forall _ _) Hact), Hdue.
    - apply due_activated; [done|apply Hdue]. }
  split_and!; [done|by apply expanding_NoDup| |]; intros a; split.
  - assert (∀ a, activated a → nameOf a ∉ prior → nameOf a ∈ names (ex_deliveries e) →
      ∃ d, d ∈ ex_deliveries e ∧ de_Skill d = a ∧ de_AlreadyDelivered d = false) as Hfind.
    { intros b Hb Hno (d & Hd & Hn)%names_elem. exists d. split; [done|].
      split; [by apply activated_inj; [apply Hacts|..]|].
      specialize (Hdue d Hd). destruct (de_AlreadyDelivered d); [|done]. rewrite Hn in Hdue. naive_solver. }
    intros Ha. pose proof (due_activated a Hact Ha) as Haa.
    induction Ha as [a Ha Hno|a b Ha IH Hm Hno]; [by apply Hfind; [..|apply Hnamed]|].
    destruct (IH (due_activated a Hact Ha)) as (d & Hd & <- & Hf).
    apply Hfind; [done..|]. specialize (Hclosed d b Hd ltac:(set_solver) Hf Hm). rewrite Hs in Hclosed.
    set_solver.
  - intros (d & Hd & <- & Hf). specialize (Hdue d Hd). rewrite Hf in Hdue. apply Hdue.
  - intros [Ha Hp]. destruct (proj1 (names_elem _ _) (Hnamed a Ha)) as (d & Hd & Hn). exists d.
    split; [done|]. specialize (Hdue d Hd). split.
    + apply activated_inj; [by apply Hacts|by eapply (proj1 (Forall_forall _ _) Hact)|done].
    + destruct (de_AlreadyDelivered d); [done|]. rewrite Hn in Hdue. naive_solver.
  - intros (d & Hd & <- & Hf). specialize (Hdue d Hd). by rewrite Hf in Hdue.
Qed.
End expanding.

Definition skillLimit (s : Snapshot) : Z :=
  if (sn_skillBudget s <=? 0)%Z then defaultMaxFileBytes else sn_skillBudget s.

(** C34: [ExpandSkills] always returns.  It delivers exactly the skills due, each once: the
    skills that the caller names and, through the bodies of the skills delivered,
    every skill they mention, less those the conversation holds; a held skill
    that the caller names gets one note.  It fails when a name stands for no
    skill, or when the contents to deliver exceed the limit. *)
Theorem ExpandSkills_exact (s : Snapshot) (given : list bytes) (prior : gset bytes) :
  match ExpandSkills s given prior with
  | Ok ds =>
      ∃ named, mapM (ActivateSkill s) given = Some named ∧ delivers s named prior ds ∧
        (Z.of_nat (deliveredSize ds) ≤ skillLimit s)%Z
  | Err e =>
      (e = ErrSkillNotFound ∧ ∃ name, name ∈ given ∧ ActivateSkill s name = None) ∨
      (e = ErrSkillContentTooLarge ∧ ∃ named ds, mapM (ActivateSkill s) given = Some named ∧
         delivers s named prior ds ∧ (skillLimit s < Z.of_nat (deliveredSize ds))%Z)
  | Panic | OutOfFuel => False
  end.
Proof.
  unfold ExpandSkills, resolveNamed. destruct (mapM (ActivateSkill s) given) as [named|] eqn:E; cbn.
  2:{ left. split; [done|]. by apply mapM_None_1, Exists_exists in E. }
  assert (Forall (activated s) named) as Hact.
  { apply mapM_Some_1 in E. clear -E. induction E; constructor; [by eexists|done]. }
  destruct (addAllNamed_spec s named prior named (mkExpansion prior [])) as (e & -> & Hg & Hnamed).
  { done. }
  { eapply Forall_impl; [exact Hact|]. intros a [name Ha]. by eapply ActivateSkill_Some. }
  { split; cbn; [constructor|set_solver]. }
  pose proof (delivers_complete s named prior e Hact Hg Hnamed) as Hd. cbn.
  unfold checkDeliveredSize. fold (skillLimit s).
  destruct (Z.leb_spec (Z.of_nat (deliveredSize (ex_deliveries e))) (skillLimit s)); cbn; [by exists named|].
  right. split; [done|]. by exists named, (ex_deliveries e).
Qed.

(** A snapshot of two skills, of which the first mentions the second. *)
Definition planning : Skill := mkSkill (bs "planning") (bs "Plan the work.") [].
Definition review : Skill := mkSkill (bs "core:review") (bs "Review the work.") [].
Definition sample : Snapshot :=
  mkSnapshot [planning; review]
    (<[bs "planning" := bs "Plan, then :review and :planning."]> {[bs "core:review" := bs "Review."]}) 0.

(** A skill that the caller names after one that mentions it comes back as one
    that only a skill named. *)
Example named_and_mentioned :
  ExpandSkills sample [bs "planning"; bs "review"] ∅ =
    Ok [mkDelivery (mkActivated planning (bs "Plan, then :review and :planning.")) false false;
        mkDelivery (mkActivated review (bs "Review.")) true false].
Proof. by vm_compute. Qed.

Example held_is_noted :
  ExpandSkills sample [bs "core:review"; bs "review"] {[bs "core:review"]} =
    Ok [mkDelivery (mkActivated review (bs "Review.")) false true].
Proof. by vm_compute. Qed.

End Skills.
