(* ===== verification/Workspace.v ===== *)
(** The tool executor of one turn: the filesystem and host interfaces it runs on,
    path resolution, the ledger of what the turn has read, bounded reads and atomic
    writes (src/internal/pkg/tools/executor.go, observations.go, filesystem.go,
    fsutil.go and src/internal/pkg/workspacefs/fs.go). *)
From stdpp Require Import base gmap sets list strings sorting.
From Stdlib Require Import ZArith Lia Ascii.
From S2P Require Import Prelude GoBytes GoPath Limits.

Module Workspace.
Local Open Scope Z_scope.

#[export] Instance path_eq_dec : EqDecision path.
Proof. unfold path. apply _. Defined.
#[export] Instance path_countable : Countable path.
Proof. unfold path. apply _. Defined.

(** ** The boundary

    [workspacefs.FS] is an interface, and the host writes call the operating
    system.  Both are classes over the type [W] of worlds: reads depend on the
    world, mutations return the next one and perhaps an error. *)

(** The type bits of [fs.FileMode]. *)
Inductive fileKind := Regular | Directory | Symlink | OtherNode.
#[export] Instance fileKind_eq_dec : EqDecision fileKind.
Proof. solve_decision. Defined.

Record fileInfo := mkInfo { info_kind : fileKind; info_size : Z; info_perm : Z }.

(** An open file: its [Stat], the bytes a reader gets before the end or an error,
    and the result of [Close]. *)
Record openFile := mkFile {
  file_stat : sentinel + fileInfo;
  file_data : bytes;
  file_error : option sentinel;
  file_close : option sentinel;
}.

Record dirEntry := mkEntry { entry_name : bytes; entry_kind : fileKind }.

Class FS (W : Type) := {
  fs_Stat : W → path → sentinel + fileInfo;
  fs_Lstat : W → path → sentinel + fileInfo;
  fs_ReadDir : W → path → sentinel + list dirEntry;
  fs_Open : W → path → sentinel + openFile;
  fs_RealPath : W → path → sentinel + path;
  fs_CreateExclusive : path → bytes → Z → W → W * option sentinel;
  fs_WriteFileAtomic : path → bytes → Z → W → W * option sentinel;
  fs_MkdirAll : path → Z → W → W * option sentinel;
  fs_Remove : path → W → W * option sentinel;
  fs_RemoveAll : path → W → W * option sentinel;
  fs_RenameNoReplace : path → path → W → W * option sentinel;
}.

(** The calls of [os] and [filepath] in the host write path; a temporary file is
    known by its name until it is renamed. *)
Class HostOS (W : Type) := {
  os_EvalSymlinks : W → path → sentinel + path;
  os_CreateTemp : path → bytes → W → W * (sentinel + path);
  os_Write : path → bytes → W → W * option sentinel;
  os_Sync : path → W → W * option sentinel;
  os_Chmod : path → Z → W → W * option sentinel;
  os_Rename : path → path → W → W * option sentinel;
  os_RenameNoReplace : path → path → W → W * option sentinel;
  os_Remove : path → W → W * option sentinel;
}.

(** The executor's fields that never change. *)
Record config := mkConfig {
  virtual : bool;
  workspace : path;
  protectedDirectory : path;
  home : path;
  limits : Limits.Limits;
}.

Record observation := mkObservation { o_hash : bytes; o_hasHash : bool; o_revision : Z }.

(** The ledger of observations. *)
Record ledger := mkLedger {
  observed : gmap path observation;
  observationRevision : Z;
}.

Record state (W : Type) := mkState { world : W; seen : ledger }.
Arguments mkState {W} _ _.
Arguments world {W} _.
Arguments seen {W} _.

(** A tool call threads the state and keeps it when it fails. *)
Definition exec (W A : Type) : Type := state W → state W * outcome A.

#[export] Instance exec_ret W : MRet (exec W) := λ A a s, (s, Ok a).
#[export] Instance exec_bind W : MBind (exec W) := λ A B f m s,
  match m s with
  | (s', Ok a) => f a s'
  | (s', Err e) => (s', Err e)
  | (s', Panic) => (s', Panic)
  | (s', OutOfFuel) => (s', OutOfFuel)
  end.

(** A computation that only looks at the state. *)
Definition inspect {W A} (f : state W → outcome A) : exec W A := λ s, (s, f s).

Definition fail {W A} (e : sentinel) : exec W A := inspect (λ _, Err e).

(** A guard: an early return with an error when [c] holds. *)
Definition refuse {W} (c : bool) (e : sentinel) : exec W unit :=
  inspect (λ _, if c then Err e else Ok tt).

(** A mutation whose error goes through [wrap]. *)
Definition mutate {W} (wrap : sentinel → sentinel) (f : W → W * option sentinel)
    : exec W unit := λ s,
  let '(w, r) := f (world s) in
  (mkState w (seen s), match r with Some e => Err (wrap e) | None => Ok tt end).

Definition lookup_result {A} (wrap : sentinel → sentinel) (r : sentinel + A) : outcome A :=
  match r with inl e => Err (wrap e) | inr a => Ok a end.

(** [wrapPathError] of fsutil.go. *)
Definition wrapPathError (e : sentinel) : sentinel :=
  match e with
  | FsNotExist => ErrNotFound
  | FsExist => ErrAlreadyExists
  | FsPermission => ErrPermissionDenied
  | e => e
  end.

(** [workspacefs.ValidPath]. *)
Definition ValidPath (name : path) : outcome path :=
  if bool_decide (name = []) then Ok DOT
  else if negb (fs_valid_path name) then Err FsInvalid
  else Ok name.

(** ** Paths *)

Definition homePrefix : bytes := bs "~".
Definition homePathStart : bytes := bs "~/".

Definition resolveVirtualPath (cfg : config) (trimmed : bytes) : outcome path :=
  if bool_decide (trimmed = []) then Ok (workspace cfg)
  else if is_abs trimmed then Err ErrInvalidOptions
  else ValidPath (join_path (workspace cfg) trimmed).

Definition resolveHostPath (cfg : config) (trimmed : bytes) : path :=
  if is_abs trimmed then clean trimmed else join_path (workspace cfg) trimmed.

Definition resolvePath (cfg : config) (raw : bytes) : outcome path :=
  let trimmed := trim_space raw in
  if virtual cfg then resolveVirtualPath cfg trimmed
  else if bool_decide (trimmed = []) then Ok (workspace cfg)
  else if bool_decide (trimmed = homePrefix) || has_prefix homePathStart trimmed then
    if bool_decide (home cfg = []) then Err ErrValidationFailed
    else Ok (resolveHostPath cfg (join_path (home cfg) (trim_prefix homePrefix trimmed)))
  else Ok (resolveHostPath cfg trimmed).

(** ** Hashes *)

Definition hexDigit (n : nat) : ascii :=
  ascii_of_nat (if n <? 10 then 48 + n else 87 + n)%nat.

Definition hexEncode (data : bytes) : bytes :=
  concat ((λ a, [hexDigit (nat_of_ascii a / 16); hexDigit (nat_of_ascii a mod 16)]%nat) <$> data).

Definition hexValue (c : ascii) : option nat :=
  let n := nat_of_ascii c in
  (if (48 <=? n) && (n <=? 57) then Some (n - 48)
   else if (97 <=? n) && (n <=? 102) then Some (n - 87)
   else if (65 <=? n) && (n <=? 70) then Some (n - 55)
   else None)%nat.

Fixpoint hexDecode (s : bytes) : option bytes :=
  match s with
  | [] => Some []
  | hi :: lo :: rest =>
      h ← hexValue hi; l ← hexValue lo; data ← hexDecode rest;
      Some (ascii_of_nat (16 * h + l) :: data)
  | [_] => None
  end.

(** ** Binary content (fsutil.go) *)

Definition binarySniffBytes : Z := 8000.

(** The loop of [trimPartialRune]: at most [utf8.UTFMax] prefixes are tried. *)
Fixpoint trimLoop (tries fin : nat) (window : bytes) : bytes :=
  match tries, fin with
  | S tries', S fin' =>
      if utf8_valid (take fin window) then take fin window else trimLoop tries' fin' window
  | _, _ => window
  end.

Definition trimPartialRune (window : bytes) (total : nat) : bytes :=
  if (length window =? total)%nat then window else trimLoop 4 (length window) window.

Definition isBinary (content : bytes) : bool :=
  let window := if binarySniffBytes <? Z.of_nat (length content)
                then take (Z.to_nat binarySniffBytes) content else content in
  if bool_decide (is_Some (index_byte NUL window)) then true
  else negb (utf8_valid (trimPartialRune window (length content))).

Section executor.
Context {W : Type} `{FS W, HostOS W}.
(** [sha256.Sum256]. *)
Variable Sum256 : bytes → bytes.
Variable cfg : config.
Implicit Types (w : W) (s : state W).

Definition hashBytes (content : bytes) : bytes := hexEncode (Sum256 content).

(** ** The ledger of observations (executor.go) *)

Definition observationKey (p : path) w : path :=
  match fs_RealPath w p with inl _ => p | inr r => r end.

Definition max_uint64 : Z := 2 ^ 64 - 1.

(** [record] once its key is known. *)
Definition recordKey (key : path) (hash : option bytes) (l : ledger) : ledger :=
  let keep := match observed l !! key, hash with
              | Some existing, None => o_hasHash existing
              | _, _ => false
              end in
  if keep : bool then l
  else
    let revision := if observationRevision l <? max_uint64
                    then observationRevision l + 1 else observationRevision l in
    mkLedger (<[key := mkObservation (default [] hash) (bool_decide (is_Some hash)) revision]>
                (observed l)) revision.

Definition record (p : path) (hash : option bytes) : exec W unit := λ s,
  (mkState (world s) (recordKey (observationKey p (world s)) hash (seen s)), Ok tt).

Definition observe (p : path) : exec W unit := record p None.
Definition observeContent (p : path) (hash : bytes) : exec W unit := record p (Some hash).

Definition Observed (p : path) s : bool :=
  bool_decide (is_Some (observed (seen s) !! observationKey p (world s))).

Definition requireObserved (p : path) s : outcome unit :=
  if Observed p s then Ok tt else Err ErrNotObserved.

Definition requireObservedContent (p : path) (content : bytes) s : outcome unit :=
  match observed (seen s) !! observationKey p (world s) with
  | None => Err ErrNotObserved
  | Some o =>
      if negb (o_hasHash o) then Err ErrHashRequired
      else if bool_decide (o_hash o = hashBytes content) then Ok tt
      else Err ErrStaleHash
  end.

(** ** Bounded reads (filesystem.go) *)

(** [io.ReadAll(io.LimitReader(file, n))]. *)
Definition readAllLimited (f : openFile) (n : Z) : sentinel + bytes :=
  if n <=? Z.of_nat (length (file_data f)) then inr (take (Z.to_nat n) (file_data f))
  else match file_error f with Some e => inl e | None => inr (file_data f) end.

Definition readRegularFile (name : path) (maximum : Z) w : outcome (bytes * Z) :=
  f ← lookup_result wrapPathError (fs_Open w name);
  info ← lookup_result id (file_stat f);
  if negb (bool_decide (info_kind info = Regular)) || (maximum <? info_size info) then
    Err (if maximum <? info_size info then ErrLimitExceeded else ErrNotRegularFile)
  else
    content ← lookup_result id (readAllLimited f (wrap64 (maximum + 1)));
    match file_close f with
    | Some e => Err e
    | None =>
        if maximum <? Z.of_nat (length content) then Err ErrLimitExceeded
        else Ok (content, info_perm info)
    end.

(** ** Atomic writes (fsutil.go, filesystem.go) *)

Definition temporaryFilePrefix : bytes := bs ".peen-tool-".

Definition resolveWriteTarget (p : path) w : path :=
  match os_EvalSymlinks w p with inl _ => p | inr r => r end.

(** [removeQuietly]: the error is dropped. *)
Definition removeQuietly (p : path) : exec W unit := λ s,
  (mkState (os_Remove p (world s)).1 (seen s), Ok tt).

Definition finishTemporaryFile (file : path) (content : bytes) (mode : Z) : exec W unit :=
  _ ← mutate wrapPathError (os_Write file content);
  _ ← mutate wrapPathError (os_Sync file);
  mutate wrapPathError (os_Chmod file mode).

(** Run [m]; when it fails, run [cleanup] and keep the failure. *)
Definition onError {A} (m : exec W A) (cleanup : exec W unit) : exec W A := λ s,
  match m s with
  | (s', Err e) => ((cleanup s').1, Err e)
  | r => r
  end.

Definition createTemp (directory : path) : exec W path := λ s,
  let '(w, r) := os_CreateTemp directory temporaryFilePrefix (world s) in
  (mkState w (seen s), lookup_result wrapPathError r).

(** Both host writes: write a temporary file next to the target and publish it. *)
Definition hostWrite (publish : path → path → W → W * option sentinel)
    (target : path) (content : bytes) (mode : Z) : exec W unit :=
  temporary ← createTemp (dir target);
  onError
    (_ ← finishTemporaryFile temporary content mode;
     mutate wrapPathError (publish temporary target))
    (removeQuietly temporary).

Definition hostWriteFileAtomic (p : path) (content : bytes) (mode : Z) : exec W unit :=
  target ← inspect (λ s, Ok (resolveWriteTarget p (world s)));
  hostWrite os_Rename target content mode.

Definition hostWriteNewFileAtomic (p : path) (content : bytes) (mode : Z) : exec W unit :=
  hostWrite os_RenameNoReplace p content mode.

Definition writeFileAtomic (name : path) (content : bytes) (mode : Z) : exec W unit :=
  if negb (virtual cfg) then hostWriteFileAtomic name content mode
  else mutate id (fs_WriteFileAtomic name content mode).

Definition writeNewFileAtomic (name : path) (content : bytes) (mode : Z) : exec W unit :=
  if negb (virtual cfg) then hostWriteNewFileAtomic name content mode
  else mutate id (fs_CreateExclusive name content mode).


End executor.

(** ** Facts about paths *)

Lemma ValidPath_ne name p : ValidPath name = Ok p → p ≠ [].
Proof.
  unfold ValidPath. destruct (bool_decide_reflect (name = [])); [intros [= <-]; done|].
  destruct (negb _); [done|]. by intros [= <-].
Qed.

Lemma resolvePath_ne cfg raw p : workspace cfg ≠ [] → resolvePath cfg raw = Ok p → p ≠ [].
Proof.
  intros Hw. unfold resolvePath, resolveVirtualPath.
  assert (∀ t, resolveHostPath cfg t ≠ []) as Hh.
  { intros t. unfold resolveHostPath. destruct (is_abs t); [apply clean_ne|].
    apply join_path_ne. by left. }
  repeat case_if; intros Hp; simplify_eq; try done; by eapply ValidPath_ne.
Qed.

Lemma resolvePath_returns cfg raw : returns (resolvePath cfg raw).
Proof. unfold resolvePath, resolveVirtualPath, ValidPath. solve_returns. Qed.

Lemma lookup_result_returns {A} wrap (r : sentinel + A) : returns (lookup_result wrap r).
Proof. by destruct r. Qed.

#[export] Hint Resolve resolvePath_returns lookup_result_returns : go.

Lemma readRegularFile_returns {W} `{FS W} p maximum (w : W) :
  returns (readRegularFile p maximum w).
Proof. unfold readRegularFile. solve_returns. Qed.

Lemma requireObservedContent_returns {W} `{FS W} Sum256 p content (s : state W) :
  returns (requireObservedContent Sum256 p content s).
Proof. unfold requireObservedContent. solve_returns. Qed.

#[export] Hint Resolve readRegularFile_returns requireObservedContent_returns : go.

(** ** Facts about the executor monad *)

Section facts.
Context {W : Type}.
Implicit Types (s : state W).

Lemma inspect_bind {A B} (f : state W → outcome A) (k : A → exec W B) s :
  (inspect f ≫= k) s =
  match f s with
  | Ok a => k a s | Err e => (s, Err e) | Panic => (s, Panic) | OutOfFuel => (s, OutOfFuel)
  end.
Proof. by unfold mbind, exec_bind, inspect; destruct (f s). Qed.

Lemma refuse_bind {B} c e (k : unit → exec W B) s :
  (refuse c e ≫= k) s = if c then (s, Err e) else k tt s.
Proof. unfold refuse. rewrite inspect_bind. by destruct c. Qed.

(** A sequence that changes the world passed its guards. *)
Definition changes {A} (m : exec W A) s : Prop := world (m s).1 ≠ world s.

Lemma inspect_bind_changes {A B} (f : state W → outcome A) (k : A → exec W B) s (P : Prop) :
  changes (inspect f ≫= k) s → (∀ a, f s = Ok a → changes (k a) s → P) → P.
Proof. unfold changes. rewrite inspect_bind. destruct (f s); simpl; naive_solver. Qed.

Lemma refuse_bind_changes {B} c e (k : unit → exec W B) s (P : Prop) :
  changes (refuse c e ≫= k) s → (c = false → changes (k tt) s → P) → P.
Proof. unfold changes. rewrite refuse_bind. destruct c; naive_solver. Qed.

Lemma inspect_changes {A} (f : state W → outcome A) s : ¬ changes (inspect f) s.
Proof. unfold changes, inspect. naive_solver. Qed.

Lemma bind_assoc {A B C} (m : exec W A) (f : A → exec W B) (g : B → exec W C) s :
  ((m ≫= f) ≫= g) s = (m ≫= λ a, f a ≫= g) s.
Proof. unfold mbind, exec_bind. by destruct (m s) as [s' [a|e| |]]. Qed.

Lemma bind_assoc_changes {A B C} (m : exec W A) (f : A → exec W B) (g : B → exec W C) s :
  changes ((m ≫= f) ≫= g) s → changes (m ≫= λ a, f a ≫= g) s.
Proof. unfold changes. by rewrite bind_assoc. Qed.

Lemma inspect_bind_Ok {A B} (f : state W → outcome A) (k : A → exec W B) s s' b (P : Prop) :
  (inspect f ≫= k) s = (s', Ok b) → (∀ a, f s = Ok a → k a s = (s', Ok b) → P) → P.
Proof. rewrite inspect_bind. destruct (f s); naive_solver. Qed.

Lemma refuse_bind_Ok {B} c e (k : unit → exec W B) s s' b (P : Prop) :
  (refuse c e ≫= k) s = (s', Ok b) → (c = false → k tt s = (s', Ok b) → P) → P.
Proof. rewrite refuse_bind. destruct c; naive_solver. Qed.

Lemma bind_assoc_Ok {A B C} (m : exec W A) (f : A → exec W B) (g : B → exec W C) s r :
  ((m ≫= f) ≫= g) s = r → (m ≫= λ a, f a ≫= g) s = r.
Proof. by rewrite bind_assoc. Qed.

(** Success of a sequence, and its state after each part. *)
Lemma bind_Ok {A B} (m : exec W A) (k : A → exec W B) s s' b :
  (m ≫= k) s = (s', Ok b) ↔ ∃ s1 a, m s = (s1, Ok a) ∧ k a s1 = (s', Ok b).
Proof.
  unfold mbind, exec_bind. destruct (m s) as [s1 [a|e| |]]; naive_solver.
Qed.

End facts.

(** Content observed is content required later. *)
Section observed.
Context {W : Type} `{FS W}.
Variable Sum256 : bytes → bytes.
Implicit Types (s : state W).

Lemma observeContent_required p content s s' u :
  observeContent p (hashBytes Sum256 content) s = (s', Ok u) →
  world s' = world s ∧ requireObservedContent Sum256 p content s' = Ok tt.
Proof.
  unfold observeContent, record. intros [= <-]. split; [done|].
  unfold requireObservedContent, recordKey. simpl.
  assert (∀ (o : option observation) (l l' : ledger),
    (if (match o with Some _ => false | None => false end : bool) then l else l') = l') as Hk
    by (by intros []).
  rewrite Hk. simpl. rewrite lookup_insert_eq. simpl. by rewrite bool_decide_eq_true_2.
Qed.

End observed.

(** Pass the first guard of a sequence known to change the world. *)
Ltac pass H :=
  lazymatch type of H with
  | changes (refuse _ _ ≫= _) _ =>
      refine (refuse_bind_changes _ _ _ _ _ H _); clear H; intros ? H
  | changes (mret ?a ≫= ?k) ?s => change (changes (k a) s) in H; cbv beta in H
  | changes ((_ ≫= _) ≫= _) _ => apply bind_assoc_changes in H; pass H
  | changes (inspect _ ≫= _) _ =>
      refine (inspect_bind_changes _ _ _ _ H _); clear H; intros ? ? H; cbv beta in *
  end.

(** Pass the first guard of a sequence known to succeed. *)
Ltac pass_ok H :=
  lazymatch type of H with
  | (refuse _ _ ≫= _) _ = _ =>
      refine (refuse_bind_Ok _ _ _ _ _ _ _ H _); clear H; intros ? H
  | (mret ?a ≫= ?k) ?s = ?r => change (k a s = r) in H; cbv beta in H
  | ((_ ≫= _) ≫= _) _ = _ => apply bind_assoc_Ok in H; pass_ok H
  | (inspect _ ≫= _) _ = _ =>
      refine (inspect_bind_Ok _ _ _ _ _ _ H _); clear H; intros ? ? H; cbv beta in *
  end.

(** ** Binary content *)

Lemma utf8_cut n s :
  utf8_valid s = true → (n ≤ length s)%nat →
  ∃ k, (k < 4)%nat ∧ (k ≤ n)%nat ∧ utf8_valid (take (n - k) s) = true.
Proof.
  revert n s. induction n as [n IH] using lt_wf_ind. intros s Hv Hn.
  destruct n as [|n]; [exists 0%nat; split_and!; [lia..|done]|].
  destruct s as [|a s1]; [simpl in Hn; lia|]. simpl in Hv, Hn.
  destruct (in_range 0 127 a) eqn:Ea.
  { destruct (IH n ltac:(lia) s1 Hv ltac:(lia)) as (k & ? & ? & Hk). exists k.
    split_and!; [lia..|]. replace (S n - k)%nat with (S (n - k)) by lia. simpl. by rewrite Ea. }
  destruct s1 as [|c s2]; [done|]. destruct n as [|n]; [exists 1%nat; split_and!; [lia..|done]|].
  simpl in Hn. destruct (in_range 194 223 a && cont_byte c) eqn:Ec.
  { destruct (IH n ltac:(lia) s2 Hv ltac:(lia)) as (k & ? & ? & Hk). exists k.
    split_and!; [lia..|]. replace (S (S n) - k)%nat with (S (S (n - k))) by lia. simpl.
    by rewrite Ea, Ec. }
  destruct s2 as [|d s3]; [done|]. destruct n as [|n]; [exists 2%nat; split_and!; [lia..|done]|].
  simpl in Hn. destruct (valid3 a c d) eqn:Ed.
  { destruct (IH n ltac:(lia) s3 Hv ltac:(lia)) as (k & ? & ? & Hk). exists k.
    split_and!; [lia..|]. replace (S (S (S n)) - k)%nat with (S (S (S (n - k)))) by lia. simpl.
    by rewrite Ea, Ec, Ed. }
  destruct s3 as [|e s4]; [done|]. destruct n as [|n]; [exists 3%nat; split_and!; [lia..|done]|].
  simpl in Hn. apply andb_true_iff in Hv as [He Hv].
  destruct (IH n ltac:(lia) s4 Hv ltac:(lia)) as (k & ? & ? & Hk). exists k.
  split_and!; [lia..|]. replace (S (S (S (S n))) - k)%nat with (S (S (S (S (n - k))))) by lia. simpl.
  by rewrite Ea, Ec, Ed, He.
Qed.

Lemma trimLoop_valid tries fin k window :
  (k < tries)%nat → (k < fin)%nat → utf8_valid (take (fin - k) window) = true →
  utf8_valid (trimLoop tries fin window) = true.
Proof.
  revert fin k. induction tries as [|tries IH]; intros fin k Ht Hf Hv; [lia|].
  destruct fin as [|fin]; [lia|]. cbn [trimLoop].
  destruct (utf8_valid (take (S fin) window)) eqn:E; [done|].
  destruct k as [|k]; [by rewrite Nat.sub_0_r, E in Hv|].
  apply (IH fin k); [lia..|]. exact Hv.
Qed.

(** Text is not taken for binary.  A file of valid UTF-8 with no NUL byte in
    the sniffed part is accepted, also when the sniff window cuts a rune; a short
    file is accepted exactly when it is such a text. *)
Theorem isBinary_accepts_text content :
  (utf8_valid content = true → NUL ∉ take (Z.to_nat binarySniffBytes) content →
   isBinary content = false) ∧
  (Z.of_nat (length content) ≤ binarySniffBytes →
   isBinary content = false ↔ utf8_valid content = true ∧ NUL ∉ content).
Proof.
  unfold isBinary. destruct (Z.ltb_spec binarySniffBytes (Z.of_nat (length content))) as [Hl|Hl].
  - split; [|lia]. intros Hv Hn. apply index_byte_None in Hn. rewrite Hn.
    rewrite bool_decide_eq_false_2 by (by intros [? ?]). apply negb_false_iff.
    set (n := Z.to_nat binarySniffBytes) in *.
    assert (4 ≤ n ∧ n < length content)%nat as [H4 Hn'] by (unfold n, binarySniffBytes in *; lia).
    unfold trimPartialRune. rewrite length_take, Nat.min_l by lia.
    rewrite (proj2 (Nat.eqb_neq _ _)) by lia.
    destruct (utf8_cut n content Hv) as (k & ? & ? & Hk); [lia|].
    apply (trimLoop_valid 4 n k); [lia..|]. rewrite take_take. by replace (_ `min` _)%nat with (n - k)%nat by lia.
  - rewrite take_ge by lia. unfold trimPartialRune. rewrite Nat.eqb_refl.
    rewrite <- index_byte_None.
    destruct (index_byte NUL content); [rewrite bool_decide_eq_true_2 by eauto|
      rewrite bool_decide_eq_false_2 by (by intros [? ?])];
    destruct (utf8_valid content); simpl; naive_solver.
Qed.
End Workspace.
