(* ===== verification/Observations.v ===== *)
(** Snapshots of the observation ledger and the ledger's invariants
    (src/internal/pkg/tools/observations.go and the ledger methods of
    src/internal/pkg/tools/executor.go). *)
From stdpp Require Import base gmap sets list strings sorting.
From Stdlib Require Import ZArith Lia Ascii.
From S2P Require Import Prelude GoBytes GoPath Workspace.
Import Workspace.

Module Observations.
Local Open Scope Z_scope.

Record ObservedPath := mkObserved {
  Path : path; Hash : bytes; HasHash : bool; Revision : Z
}.

Definition path_le (a c : ObservedPath) : Prop := bytes_leb (Path a) (Path c) = true.
#[export] Instance path_le_dec a c : Decision (path_le a c).
Proof. unfold path_le. apply _. Defined.

Definition toObservedPath (e : path * observation) : ObservedPath :=
  mkObserved e.1 (o_hash e.2) (o_hasHash e.2) (o_revision e.2).

Definition SnapshotObservations (l : ledger) : list ObservedPath :=
  merge_sort path_le (toObservedPath <$> map_to_list (observed l)).

Definition sha256Size : nat := 32.

Definition validateObservationHash (entry : ObservedPath) : outcome unit :=
  if negb (HasHash entry) then
    if bool_decide (Hash entry ≠ []) then Err ErrValidationFailed else Ok tt
  else match hexDecode (Hash entry) with
       | None => Err ErrValidationFailed
       | Some decoded =>
           if negb (length decoded =? sha256Size)%nat ||
              negb (bool_decide (hexEncode decoded = Hash entry))
           then Err ErrValidationFailed else Ok tt
       end.

Definition validateObservedPath (cfg : config) (entry : ObservedPath) : outcome unit :=
  if bool_decide (Path entry = []) || negb (bool_decide (clean (Path entry) = Path entry))
  then Err ErrValidationFailed
  else
    _ ← (if virtual cfg then
           match ValidPath (Path entry) with
           | Ok _ => Ok tt
           | _ => Err ErrValidationFailed
           end
         else if negb (is_abs (Path entry)) then Err ErrValidationFailed else Ok tt);
    validateObservationHash entry.

Definition restoreEntry (cfg : config) (st : gmap path observation * Z) (entry : ObservedPath)
    : outcome (gmap path observation * Z) :=
  let '(result, revision) := st in
  _ ← validateObservedPath cfg entry;
  if bool_decide (is_Some (result !! Path entry)) then Err ErrValidationFailed
  else Ok (<[Path entry := mkObservation (Hash entry) (HasHash entry) (Revision entry)]> result,
           Z.max revision (Revision entry)).

Definition RestoreObservations (cfg : config) (snapshot : list ObservedPath) (l : ledger)
    : ledger * outcome unit :=
  match foldM (restoreEntry cfg) snapshot (∅, 0) with
  | Ok (result, revision) => (mkLedger result revision, Ok tt)
  | Err e => (l, Err e)
  | Panic => (l, Panic)
  | OutOfFuel => (l, OutOfFuel)
  end.

(** ** Hexadecimal *)

Lemma hexValue_hexDigit n : (n < 16)%nat → hexValue (hexDigit n) = Some n.
Proof.
  intros Hn. do 16 (destruct n as [|n]; [reflexivity|]). lia.
Qed.

Lemma nat_of_ascii_bound a : (nat_of_ascii a < 256)%nat.
Proof. apply nat_ascii_bounded. Qed.

Lemma hexDecode_hexEncode data : hexDecode (hexEncode data) = Some data.
Proof.
  induction data as [|a data IH]; [done|].
  change (hexEncode (a :: data)) with
    (hexDigit (nat_of_ascii a / 16)%nat :: hexDigit (nat_of_ascii a mod 16)%nat :: hexEncode data).
  cbn [hexDecode].
  pose proof (nat_of_ascii_bound a).
  rewrite !hexValue_hexDigit; [|apply Nat.Div0.div_lt_upper_bound; lia|apply Nat.mod_upper_bound; lia].
  cbn [mbind option_bind]. rewrite IH. cbn [mbind option_bind]. do 2 f_equal.
  rewrite <- (ascii_nat_embedding a) at 3. f_equal.
  pose proof (Nat.div_mod_eq (nat_of_ascii a) 16). lia.
Qed.

(** ** The ledger invariant *)

Section ledger.
Variable cfg : config.

(** A key the snapshot can restore: clean, and relative or absolute as the
    executor's paths are. *)
Definition valid_key (p : path) : Prop :=
  p ≠ [] ∧ clean p = p ∧
  (if virtual cfg then fs_valid_path p = true else is_abs p = true).

Definition valid_hash (o : observation) : Prop :=
  if o_hasHash o then ∃ data, length data = sha256Size ∧ o_hash o = hexEncode data
  else o_hash o = [].

Definition max_revision (m : gmap path observation) : Z :=
  foldr Z.max 0 ((λ e, o_revision e.2) <$> map_to_list m).

Definition ledger_ok (l : ledger) : Prop :=
  map_Forall (λ p o, valid_key p ∧ valid_hash o ∧ 0 ≤ o_revision o ≤ observationRevision l)
    (observed l) ∧
  0 ≤ observationRevision l ≤ max_uint64 ∧
  max_revision (observed l) = observationRevision l.

Definition emptyLedger : ledger := mkLedger ∅ 0.

(** What the executor does to its ledger. *)
Inductive ledger_step : ledger → ledger → Prop :=
  | step_observe key l : valid_key key → ledger_step l (recordKey key None l)
  | step_content key data l :
      valid_key key → length data = sha256Size →
      ledger_step l (recordKey key (Some (hexEncode data)) l)
  | step_restore snapshot l l' :
      Forall (λ e, 0 ≤ Revision e ≤ max_uint64) snapshot →
      RestoreObservations cfg snapshot l = (l', Ok tt) → ledger_step l l'.

(** ** Restoring *)

Definition toEntry (e : ObservedPath) : path * observation :=
  (Path e, mkObservation (Hash e) (HasHash e) (Revision e)).

Lemma toEntry_toObservedPath e : toEntry (toObservedPath e) = e.
Proof. by destruct e as [p [h b r]]. Qed.

Definition valid_entry (e : ObservedPath) : Prop :=
  valid_key (Path e) ∧ valid_hash (toEntry e).2.

Lemma validateObservationHash_spec e :
  validateObservationHash e = Ok tt ↔ valid_hash (toEntry e).2.
Proof.
  unfold validateObservationHash, valid_hash. simpl. destruct (HasHash e); simpl.
  - split.
    + destruct (hexDecode (Hash e)) as [d|]; [|done].
      destruct (length d =? sha256Size)%nat eqn:El; simpl; [|done].
      apply Nat.eqb_eq in El. case_bool_decide as Eh; simpl; [|done]. intros _. by exists d.
    + intros (d & Hl & ->). rewrite hexDecode_hexEncode. rewrite Hl, bool_decide_eq_true_2 by done.
      done.
  - case_bool_decide; naive_solver.
Qed.

Lemma validateObservedPath_spec e : validateObservedPath cfg e = Ok tt ↔ valid_entry e.
Proof.
  unfold validateObservedPath, valid_entry, valid_key.
  destruct (bool_decide_reflect (Path e = [])) as [|Hne]; [naive_solver|].
  destruct (bool_decide_reflect (clean (Path e) = Path e)); [|simpl; naive_solver].
  simpl. destruct (virtual cfg).
  - unfold ValidPath. rewrite bool_decide_eq_false_2 by done.
    destruct (fs_valid_path (Path e)); simpl; [|naive_solver].
    rewrite validateObservationHash_spec. naive_solver.
  - destruct (is_abs (Path e)); simpl; [|naive_solver].
    rewrite validateObservationHash_spec. naive_solver.
Qed.

Lemma foldr_max_perm (k l : list Z) : k ≡ₚ l → foldr Z.max 0 k = foldr Z.max 0 l.
Proof. induction 1; simpl; lia. Qed.

Lemma foldr_max_bound (l : list Z) b : 0 ≤ b → Forall (λ z, z ≤ b) l → 0 ≤ foldr Z.max 0 l ≤ b.
Proof. intros Hb. induction 1; simpl; lia. Qed.

(** The loop of [RestoreObservations] over valid entries of distinct paths. *)
Lemma restore_loop es m z :
  Forall valid_entry es → NoDup (Path <$> es) → (∀ e, e ∈ es → m !! Path e = None) → 0 ≤ z →
  foldM (restoreEntry cfg) es (m, z) =
  Ok (list_to_map (toEntry <$> es) ∪ m, Z.max z (foldr Z.max 0 (Revision <$> es))).
Proof.
  revert m z. induction es as [|e es IH]; intros m z Hv Hd Hm Hz.
  { simpl. f_equal. f_equal; [by rewrite (left_id_L ∅ (∪))|lia]. }
  apply Forall_cons in Hv as [He Hv]. rewrite fmap_cons in Hd.
  apply NoDup_cons in Hd as [Hnin Hd]. simpl.
  rewrite (proj2 (validateObservedPath_spec e) He). simpl.
  rewrite bool_decide_eq_false_2 by (rewrite (Hm e); [by intros [? ?]|set_solver]).
  simpl. rewrite IH; [|done|done| |lia].
  - f_equal. f_equal; [|unfold fmap; lia].
    assert ((list_to_map (toEntry <$> es) : gmap path observation) !! Path e = None) as Hnone.
    { apply not_elem_of_list_to_map_1. rewrite <- list_fmap_compose. exact Hnin. }
    by rewrite <- insert_union_r, <- insert_union_l.
  - intros f Hf. rewrite lookup_insert_ne; [apply Hm; set_solver|].
    intros E. apply Hnin. rewrite E. by apply list_elem_of_fmap_2.
Qed.

Lemma restore_loop_inv es m z m' z' :
  foldM (restoreEntry cfg) es (m, z) = Ok (m', z') →
  Forall valid_entry es ∧ NoDup (Path <$> es) ∧ (∀ e, e ∈ es → m !! Path e = None).
Proof.
  revert m z. induction es as [|e es IH]; intros m z; cbn [foldM].
  { intros _. split_and!; [done|constructor|set_solver]. }
  intros H. apply bind_Ok_inv in H as ([m1 z1] & Hr & H). unfold restoreEntry in Hr. invert_ok.
  destruct r. destruct (bool_decide_reflect (is_Some (m !! Path e))) as [|Hno]; [done|].
  injection Hr as <- <-. apply IH in H as (Hv & Hd & Hm).
  apply validateObservedPath_spec in Hr0. split_and!; [by constructor| |].
  - simpl. constructor; [|done]. intros (f & E & Hf)%list_elem_of_fmap.
    specialize (Hm f Hf). rewrite E, lookup_insert_eq in Hm. done.
  - intros f [->|Hf]%elem_of_cons; [by apply eq_None_not_Some|].
    specialize (Hm f Hf). by apply lookup_insert_None in Hm as [? _].
Qed.

(** ** The invariant is kept *)

Lemma max_revision_list (l : list (path * observation)) m :
  map_to_list m ≡ₚ l → max_revision m = foldr Z.max 0 ((λ e, o_revision e.2) <$> l).
Proof. intros Hp. apply foldr_max_perm. by rewrite Hp. Qed.

Lemma max_revision_insert m key o z :
  max_revision m ≤ z → 0 ≤ z → o_revision o = z → max_revision (<[key := o]> m) = z.
Proof.
  intros Hm Hz Ho. rewrite <- insert_delete_eq.
  rewrite (max_revision_list ((key, o) :: map_to_list (delete key m)))
    by (apply map_to_list_insert, lookup_delete_eq).
  assert (max_revision (delete key m) ≤ max_revision m) as Hd.
  2:{ change (Z.max (o_revision o) (max_revision (delete key m)) = z). lia. }
  destruct (m !! key) as [o'|] eqn:E; [|by rewrite delete_id].
  rewrite (max_revision_list ((key, o') :: map_to_list (delete key m)) m).
  - change (max_revision (delete key m) ≤ Z.max (o_revision o') (max_revision (delete key m))). lia.
  - by rewrite map_to_list_delete.
Qed.

Lemma recordKey_ok key hash l :
  valid_key key →
  match hash with Some h => ∃ data, length data = sha256Size ∧ h = hexEncode data | None => True end →
  ledger_ok l → ledger_ok (recordKey key hash l).
Proof.
  intros Hk Hh (Hall & Hrev & Hmax). unfold recordKey.
  match goal with |- context [if ?c then l else _] => destruct c end; [done|].
  set (revision := if observationRevision l <? max_uint64 then _ else _).
  assert (observationRevision l ≤ revision ≤ max_uint64) as Hr.
  { unfold revision. destruct (Z.ltb_spec (observationRevision l) max_uint64); lia. }
  split_and!; simpl; [|lia|lia|apply max_revision_insert; simpl; lia].
  apply map_Forall_insert_2.
  - split; [done|]. split; [|simpl; lia]. unfold valid_hash. simpl.
    destruct hash; simpl; [|done]. done.
  - eapply map_Forall_impl; [exact Hall|]. intros p o (? & ? & ?). split_and!; try done; lia.
Qed.

Lemma restored_ok snapshot l l' :
  Forall (λ e, 0 ≤ Revision e ≤ max_uint64) snapshot →
  RestoreObservations cfg snapshot l = (l', Ok tt) → ledger_ok l'.
Proof.
  intros Hrange. unfold RestoreObservations.
  destruct (foldM _ _ _) as [[m z]|e| |] eqn:E; try (intros [= <- ?]; done). intros [= <-].
  pose proof (restore_loop_inv _ _ _ _ _ E) as (Hv & Hd & _).
  rewrite restore_loop in E; [|done|done|by intros; apply lookup_empty|lia].
  injection E as <- <-. rewrite (right_id_L ∅ (∪)).
  assert (NoDup ((toEntry <$> snapshot).*1)) as Hd' by (rewrite <- list_fmap_compose; exact Hd).
  assert (foldr Z.max 0 (Revision <$> snapshot) =
    max_revision (list_to_map (toEntry <$> snapshot))) as Hmax.
  { rewrite (max_revision_list (toEntry <$> snapshot)) by by apply map_to_list_to_map.
    by rewrite <- list_fmap_compose. }
  assert (0 ≤ foldr Z.max 0 (Revision <$> snapshot) ≤ max_uint64) as Hb.
  { apply foldr_max_bound; [done|]. apply Forall_fmap. eapply Forall_impl; [exact Hrange|].
    simpl. lia. }
  split_and!; simpl; [|lia|lia|by rewrite <- Hmax; lia].
  intros p o Hp. apply elem_of_list_to_map_2, list_elem_of_fmap in Hp as (e & [= -> ->] & He).
  rewrite Forall_forall in Hv, Hrange. destruct (Hv _ He). destruct (Hrange _ He).
  split_and!; [done|done|done|]. simpl.
  assert (∀ l, e ∈ l → Revision e ≤ foldr Z.max 0 (Revision <$> l)) as Hle.
  { clear. induction l as [|f l IH]; [set_solver|]. intros [->|Hf]%elem_of_cons; simpl; [lia|].
    specialize (IH Hf). unfold fmap in IH. lia. }
  specialize (Hle _ He). lia.
Qed.

Lemma ledger_step_ok l l' : ledger_step l l' → ledger_ok l → ledger_ok l'.
Proof.
  intros [] ?; [by apply recordKey_ok|apply recordKey_ok; eauto|by eapply restored_ok].
Qed.

Lemma reachable_ok l : rtc ledger_step emptyLedger l → ledger_ok l.
Proof.
  intros Hr. assert (ledger_ok emptyLedger) as H0.
  { split_and!; [apply map_Forall_empty|done..]. }
  induction Hr as [|? ? ? Hs _ IH] in H0 |- *; [done|]. apply IH. by eapply ledger_step_ok.
Qed.

Lemma restore_snapshot l l0 :
  ledger_ok l → RestoreObservations cfg (SnapshotObservations l) l0 = (l, Ok tt).
Proof.
  intros (Hall & Hrev & Hmax). unfold RestoreObservations.
  assert (toEntry <$> SnapshotObservations l ≡ₚ map_to_list (observed l)) as Hp.
  { unfold SnapshotObservations. rewrite merge_sort_Permutation, <- list_fmap_compose.
    rewrite (list_fmap_ext _ id); [by rewrite list_fmap_id|].
    intros. apply toEntry_toObservedPath. }
  rewrite restore_loop.
  - f_equal. rewrite (right_id_L ∅ (∪)).
    assert (list_to_map (toEntry <$> SnapshotObservations l) = observed l) as ->.
    { rewrite <- (list_to_map_to_list (observed l)). apply list_to_map_proper; [|done].
      rewrite Hp. apply NoDup_fst_map_to_list. }
    rewrite (max_revision_list _ _ (symmetry Hp)), <- list_fmap_compose in Hmax.
    change ((λ e, o_revision e.2) ∘ toEntry) with Revision in Hmax.
    rewrite Hmax. destruct l as [m z]; simpl in *. f_equal. lia.
  - apply Forall_forall. intros e He.
    assert (toEntry e ∈ map_to_list (observed l)) as Hin.
    { rewrite <- Hp. by apply list_elem_of_fmap_2. }
    apply elem_of_map_to_list' in Hin. destruct (Hall _ _ Hin) as (? & ? & _). done.
  - assert (Path <$> SnapshotObservations l = (toEntry <$> SnapshotObservations l).*1) as ->
      by (by rewrite <- list_fmap_compose).
    rewrite Hp. apply NoDup_fst_map_to_list.
  - intros. apply lookup_empty.
  - lia.
Qed.

(** [validating o]: a value or a validation error. *)
Definition validating {A} (o : outcome A) : Prop :=
  match o with Ok _ => True | Err x => x = ErrValidationFailed | _ => False end.

Lemma validating_bind {A B} (m : outcome A) (f : A → outcome B) :
  validating m → (∀ a, validating (f a)) → validating (m ≫= f).
Proof. destruct m; simpl; auto. Qed.

Lemma validating_if (c : bool) {A} (m n : outcome A) :
  validating m → validating n → validating (if c then m else n).
Proof. by destruct c. Qed.

Lemma restoreEntry_validating st e : validating (restoreEntry cfg st e).
Proof.
  unfold restoreEntry. destruct st as [m z]. apply validating_bind; [|by intros; apply validating_if].
  unfold validateObservedPath. apply validating_if; [done|]. apply validating_bind.
  - apply validating_if; [by destruct (ValidPath _)|by apply validating_if].
  - intros _. unfold validateObservationHash. apply validating_if; [by apply validating_if|].
    destruct (hexDecode _); [by apply validating_if|done].
Qed.

Lemma restore_loop_total es m z : validating (foldM (restoreEntry cfg) es (m, z)).
Proof.
  revert m z. induction es as [|e es IH]; intros m z; cbn [foldM]; [done|].
  apply validating_bind; [apply restoreEntry_validating|]. intros [? ?]. apply IH.
Qed.

(** ** Theorems *)

(** Snapshots round-trip.  Every ledger the executor can reach, by observing
    paths, reading contents and restoring snapshots, is restored exactly from its
    own snapshot, whatever the ledger was before. *)
Theorem snapshot_restore_identity l l0 :
  rtc ledger_step emptyLedger l →
  RestoreObservations cfg (SnapshotObservations l) l0 = (l, Ok tt).
Proof. intros Hr. by apply restore_snapshot, reachable_ok. Qed.

(** Restoring is all or nothing.  It succeeds exactly when every entry is
    valid and no path comes twice, and the ledger is then that of the entries and
    their greatest revision; otherwise it is a validation error and the ledger is
    untouched. *)
Theorem RestoreObservations_atomic snapshot l :
  match RestoreObservations cfg snapshot l with
  | (l', Ok _) =>
      Forall valid_entry snapshot ∧ NoDup (Path <$> snapshot) ∧
      observed l' = list_to_map (toEntry <$> snapshot) ∧
      observationRevision l' = foldr Z.max 0 (Revision <$> snapshot)
  | (l', Err e) =>
      l' = l ∧ e = ErrValidationFailed ∧
      ¬ (Forall valid_entry snapshot ∧ NoDup (Path <$> snapshot))
  | _ => False
  end.
Proof.
  unfold RestoreObservations. pose proof (restore_loop_total snapshot ∅ 0) as Ht.
  destruct (foldM _ _ _) as [[m z]|e| |] eqn:E; try done.
  - destruct (restore_loop_inv _ _ _ _ _ E) as (Hv & Hd & _).
    rewrite restore_loop in E; [|done|done|by intros; apply lookup_empty|lia].
    injection E as <- <-. simpl. split_and!; [done|done| |].
    + by rewrite (right_id_L ∅ (∪)).
    + assert (∀ k, 0 ≤ foldr Z.max 0 k) as Hpos by (induction k; simpl; lia).
      specialize (Hpos (Revision <$> snapshot)). lia.
  - split_and!; [done|done|]. intros [Hv Hd].
    by rewrite restore_loop in E; [|done|done|intros; apply lookup_empty|].
Qed.

End ledger.

Lemma is_abs_ne p : is_abs p = true → p ≠ [].
Proof. by destruct p. Qed.

(** Every path a tool works on is canonical: clean, absolute on the host, and
    in a virtual workspace a valid relative path, which cannot leave the root.  It is
    therefore a key a snapshot of the ledger can restore. *)
Theorem resolvePath_canonical cfg raw p :
  valid_key cfg (workspace cfg) → resolvePath cfg raw = Ok p → valid_key cfg p.
Proof.
  intros Hw. assert (workspace cfg ≠ []) as Hne by apply Hw.
  intros Hr. pose proof (resolvePath_ne _ _ _ Hne Hr) as Hp. revert Hr.
  unfold resolvePath, resolveVirtualPath. destruct (virtual cfg) eqn:Hv.
  - case_bool_decide; [by intros [= <-]|]. destruct (is_abs _); [done|].
    unfold ValidPath. rewrite bool_decide_eq_false_2 by (apply join_path_ne; by left).
    destruct (fs_valid_path _) eqn:Hf; simpl; [|done]. intros [= <-]. unfold valid_key.
    rewrite Hv. split_and!; [done|apply clean_join_path; by left|done].
  - assert (∀ t, valid_key cfg (resolveHostPath cfg t)) as Hh.
    { intros t. unfold valid_key in *. rewrite Hv in *. destruct Hw as (_ & Hc & Habs).
      unfold resolveHostPath. destruct (is_abs t) eqn:Et.
      - split_and!; [apply clean_ne|apply clean_idempotent|by rewrite is_abs_clean].
      - split_and!; [apply join_path_ne; by left|apply clean_join_path; by left|].
        by apply is_abs_join_path. }
    case_bool_decide; [by intros [= <-]|]. destruct (_ || _).
    + case_bool_decide; [done|]. intros [= <-]. apply Hh.
    + intros [= <-]. apply Hh.
Qed.

Definition sample_config : config :=
  mkConfig false (bs "/w") (bs "/w") (bs "/h") Limits.Limits.DefaultLimits.
Definition sample_hash : bytes := replicate 32 "a"%char.
Definition sample_ledger : ledger :=
  recordKey (bs "/w/b") (Some (hexEncode sample_hash)) (recordKey (bs "/w") None emptyLedger).

Lemma snapshot_restore_identity_witness :
  length (SnapshotObservations sample_ledger) = 2%nat ∧
  RestoreObservations sample_config (SnapshotObservations sample_ledger) emptyLedger =
    (sample_ledger, Ok tt).
Proof.
  split; [reflexivity|]. apply (snapshot_restore_identity sample_config).
  eapply rtc_l; [apply step_observe|eapply rtc_l; [apply step_content|apply rtc_refl]].
  - repeat split; try discriminate.
  - repeat split; try discriminate.
  - reflexivity.
Defined.

Lemma resolvePath_canonical_witness :
  resolvePath sample_config (bs " ~/x/../y ") = Ok (bs "/h/y") ∧
  valid_key sample_config (bs "/h/y").
Proof.
  split; [reflexivity|].
  apply (resolvePath_canonical sample_config (bs " ~/x/../y ")); [|reflexivity].
  repeat split; try discriminate.
Defined.

End Observations.
