(* ===== verification/Files.v ===== *)
(** What the tools rely on: the laws of a filesystem on the paths that pass no
    symbolic link, the contract of the executor's two writes, and its proofs for the
    virtual filesystem and for the host (the temporary-file protocol of
    src/internal/pkg/tools/fsutil.go). An in-memory world without links satisfies all
    of it; LinkedFiles has a world with links that does. *)
From stdpp Require Import base gmap sets list strings.
From Stdlib Require Import ZArith Lia Ascii.
From S2P Require Import Prelude GoBytes GoPath Limits Workspace.
Import Workspace.

Module Files.
Local Open Scope Z_scope.

(** The regular files of a world: content and permission bits. *)
Abbreviation fileMap := (gmap path (bytes * Z)).

(** [filepath.Base] up to trailing slashes. *)
Definition baseName (p : path) : bytes :=
  match last_index_byte SLASH p with Some i => drop (S i) p | None => p end.

Definition is_temp (p : path) : bool := has_prefix temporaryFilePrefix (baseName p).

(** ** Laws of the code outside the repository *)

(** A world is given by its regular files, each under the one path that names it
    without a link, and by which paths are [plain]: clean, and neither the path nor a
    directory on it is a symbolic link. A world may hold links; the laws say what
    calls do at plain paths, and that no call makes a link.

    [keeps plain w w']: a plain path of [w] is plain in [w'] too. *)
Definition keeps {W} (plain : W → path → Prop) (w w' : W) : Prop := ∀ p, plain w p → plain w' p.

(** Reads, directories and removals. *)
Class TreeLaws (W : Type) `{FS W} (files : W → fileMap) (plain : W → path → Prop) : Prop := {
  open_file : ∀ w p f info, plain w p →
    fs_Open w p = inr f → file_stat f = inr info → info_kind info = Regular →
    file_error f = None → files w !! p = Some (file_data f, info_perm info);
  lstat_absent : ∀ w p, plain w p → fs_Lstat w p = inl FsNotExist → files w !! p = None;
  mkdir_files : ∀ p m w, files (fs_MkdirAll p m w).1 = files w;
  mkdir_plain : ∀ p m w, keeps plain w (fs_MkdirAll p m w).1;
  remove_files : ∀ p w, plain w p →
    files (fs_Remove p w).1 =
      match (fs_Remove p w).2 with None => delete p (files w) | Some _ => files w end;
  remove_plain : ∀ p w, keeps plain w (fs_Remove p w).1;
}.

(** The atomic writes of a virtual filesystem. *)
Class VirtualLaws (W : Type) `{FS W} (files : W → fileMap) (plain : W → path → Prop) : Prop := {
  virtual_write : ∀ p d m w, plain w p →
    files (fs_WriteFileAtomic p d m w).1 =
      match (fs_WriteFileAtomic p d m w).2 with
      | None => <[p := (d, m)]> (files w) | Some _ => files w
      end;
  virtual_create : ∀ p d m w, plain w p →
    files (fs_CreateExclusive p d m w).1 =
      match (fs_CreateExclusive p d m w).2 with
      | None => <[p := (d, m)]> (files w) | Some _ => files w
      end;
  virtual_absent : ∀ p d m w, plain w p → (fs_CreateExclusive p d m w).2 = None → files w !! p = None;
  virtual_write_plain : ∀ p d m w, keeps plain w (fs_WriteFileAtomic p d m w).1;
  virtual_create_plain : ∀ p d m w, keeps plain w (fs_CreateExclusive p d m w).1;
}.

(** The host calls of the temporary-file protocol; those that name a temporary file
    name a regular one. *)
Inductive hostCall {W} `{HostOS W} (raw : W → fileMap) (w : W) : W → Prop :=
  | call_temp d prefix : hostCall raw w (os_CreateTemp d prefix w).1
  | call_write t d : is_Some (raw w !! t) → hostCall raw w (os_Write t d w).1
  | call_sync t : is_Some (raw w !! t) → hostCall raw w (os_Sync t w).1
  | call_chmod t mode : is_Some (raw w !! t) → hostCall raw w (os_Chmod t mode w).1
  | call_rename t p : is_Some (raw w !! t) → hostCall raw w (os_Rename t p w).1
  | call_publish t p : is_Some (raw w !! t) → hostCall raw w (os_RenameNoReplace t p w).1
  | call_remove t : hostCall raw w (os_Remove t w).1.

(** What they do to all files, temporary ones included; a failed write may leave any
    content in its file. *)
Class HostLaws (W : Type) `{HostOS W} (raw : W → fileMap) (plain : W → path → Prop) : Prop := {
  host_links : ∀ w p r, plain w p → os_EvalSymlinks w p = inr r → r = p;
  host_temp : ∀ p w, plain w p →
    match (os_CreateTemp (dir p) temporaryFilePrefix w).2 with
    | inl _ => raw (os_CreateTemp (dir p) temporaryFilePrefix w).1 = raw w
    | inr t => is_temp t = true ∧ raw w !! t = None ∧
        ∃ m, raw (os_CreateTemp (dir p) temporaryFilePrefix w).1 = <[t := ([], m)]> (raw w)
    end;
  host_write : ∀ t d w old m, raw w !! t = Some (old, m) →
    ∃ now, raw (os_Write t d w).1 = <[t := (now, m)]> (raw w) ∧
      ((os_Write t d w).2 = None → now = old ++ d);
  host_sync : ∀ t w, raw (os_Sync t w).1 = raw w;
  host_chmod : ∀ t mode w d m, raw w !! t = Some (d, m) →
    raw (os_Chmod t mode w).1 =
      match (os_Chmod t mode w).2 with None => <[t := (d, mode)]> (raw w) | Some _ => raw w end;
  host_rename : ∀ t p w x, plain w p → raw w !! t = Some x →
    raw (os_Rename t p w).1 =
      match (os_Rename t p w).2 with
      | None => <[p := x]> (delete t (raw w)) | Some _ => raw w
      end;
  host_publish : ∀ t p w x, plain w p → raw w !! t = Some x →
    raw (os_RenameNoReplace t p w).1 =
      match (os_RenameNoReplace t p w).2 with
      | None => <[p := x]> (delete t (raw w)) | Some _ => raw w
      end;
  host_absent : ∀ t p w, plain w p → (os_RenameNoReplace t p w).2 = None → raw w !! p = None;
  host_remove : ∀ t w, is_Some (raw w !! t) →
    raw (os_Remove t w).1 = raw w ∨ raw (os_Remove t w).1 = delete t (raw w);
  host_plain : ∀ w w', hostCall raw w w' → keeps plain w w';
}.

(** A bounded read returns the file's content and mode. *)
Lemma readRegularFile_files {W} `{FS W} (files : W → fileMap) plain `{!TreeLaws W files plain}
    p maximum w content mode :
  0 < maximum < max_int64 → plain w p → readRegularFile p maximum w = Ok (content, mode) →
  files w !! p = Some (content, mode).
Proof.
  intros Hm Hplain. unfold readRegularFile. intros Hr.
  apply bind_Ok_inv in Hr as (f & Hf & Hr). apply bind_Ok_inv in Hr as (info & Hi & Hr).
  case_if; [done|]. read_guards. apply bind_Ok_inv in Hr as (data & Hd & Hr).
  destruct (file_close f); [done|].
  destruct (Z.ltb_spec maximum (Z.of_nat (length data))); [done|]. injection Hr as <- <-.
  unfold max_int64 in *. rewrite wrap64_id in Hd by (unfold min_int64, max_int64; lia).
  unfold readAllLimited in Hd.
  destruct (Z.leb_spec (maximum + 1) (Z.of_nat (length (file_data f)))).
  { injection Hd as <-. rewrite length_take in *. lia. }
  destruct (file_error f) eqn:Ee; [done|]. injection Hd as <-.
  destruct (fs_Open w p) eqn:Eo; [done|]. destruct (file_stat f) eqn:Es; [done|].
  simplify_eq/=. by eapply open_file.
Qed.

(** The files that are not temporary ones of the tools. *)
Definition visible (m : fileMap) : fileMap := filter (λ e, is_temp e.1 = false) m.

Lemma visible_temp t x m : is_temp t = true → visible (<[t := x]> m) = visible m.
Proof.
  intros Ht. unfold visible. apply map_filter_insert_not. simpl. intros ?. congruence.
Qed.

Lemma visible_delete_temp t m : is_temp t = true → visible (delete t m) = visible m.
Proof.
  intros Ht. unfold visible. apply map_filter_delete_not. simpl. intros ??. congruence.
Qed.

Lemma visible_insert p x m : is_temp p = false → visible (<[p := x]> m) = <[p := x]> (visible m).
Proof. intros Hp. unfold visible. by apply map_filter_insert_True. Qed.

(** ** The contract of the executor's writes *)

(** On [good] paths a write either puts the whole new file in place or changes no
    file, it never touches the ledger, and it always comes back; good paths stay
    good. *)
Class WriteContract {W : Type} `{FS W, HostOS W} (cfg : config)
    (files : W → fileMap) (good : W → path → Prop) : Prop := {
  contract_write : ∀ p d m s, good (world s) p →
    keeps good (world s) (world (writeFileAtomic cfg p d m s).1) ∧
    match writeFileAtomic cfg p d m s with
    | (s', Ok _) => seen s' = seen s ∧ files (world s') = <[p := (d, m)]> (files (world s))
    | (s', Err _) => seen s' = seen s ∧ files (world s') = files (world s)
    | _ => False
    end;
  contract_new : ∀ p d m s, good (world s) p →
    keeps good (world s) (world (writeNewFileAtomic cfg p d m s).1) ∧
    match writeNewFileAtomic cfg p d m s with
    | (s', Ok _) => seen s' = seen s ∧ files (world s) !! p = None ∧
        files (world s') = <[p := (d, m)]> (files (world s))
    | (s', Err _) => seen s' = seen s ∧ files (world s') = files (world s)
    | _ => False
    end;
}.

Section virtual.
Context {W : Type} `{FS W, HostOS W} (files : W → fileMap) (plain : W → path → Prop).
Context `{!VirtualLaws W files plain}.

Lemma virtual_contract cfg : virtual cfg = true → WriteContract cfg files plain.
Proof.
  intros Hv. split; intros p d m s Hp.
  - unfold writeFileAtomic, mutate. rewrite Hv. simpl.
    pose proof (virtual_write p d m (world s) Hp) as Hw.
    pose proof (virtual_write_plain (plain := plain) p d m (world s)) as Hk.
    destruct (fs_WriteFileAtomic p d m (world s)) as [w [e|]]; simpl in *; done.
  - unfold writeNewFileAtomic, mutate. rewrite Hv. simpl.
    pose proof (virtual_create p d m (world s) Hp) as Hw.
    pose proof (virtual_absent p d m (world s) Hp) as Ha.
    pose proof (virtual_create_plain (plain := plain) p d m (world s)) as Hk.
    destruct (fs_CreateExclusive p d m (world s)) as [w [e|]]; simpl in *; auto.
Qed.
End virtual.

Section host.
Context {W : Type} `{FS W, HostOS W} (raw : W → fileMap) (plain : W → path → Prop).
Context `{!HostLaws W raw plain}.
Implicit Types (s : state W).

Lemma keeps_plain_trans w1 w2 w3 : keeps plain w1 w2 → keeps plain w2 w3 → keeps plain w1 w3.
Proof. unfold keeps. auto. Qed.

(** A publishing call: rename, with or without replacement. *)
Definition publishes (publish : path → path → W → W * option sentinel)
    (allowed : fileMap → path → Prop) : Prop :=
  ∀ t p w x, plain w p → raw w !! t = Some x →
    ((publish t p w).2 = None → allowed (raw w) p) ∧
    keeps plain w (publish t p w).1 ∧
    raw (publish t p w).1 =
      match (publish t p w).2 with
      | None => <[p := x]> (delete t (raw w)) | Some _ => raw w
      end.

(** Only the temporary file differs from [m], and on success it is complete. *)
Lemma finishTemporaryFile_spec t d mode s m0 :
  raw (world s) !! t = Some ([], m0) →
  keeps plain (world s) (world (finishTemporaryFile t d mode s).1) ∧
  match finishTemporaryFile t d mode s with
  | (s', Ok _) => seen s' = seen s ∧ raw (world s') = <[t := (d, mode)]> (raw (world s))
  | (s', Err _) => seen s' = seen s ∧ ∃ x, raw (world s') = <[t := x]> (raw (world s))
  | _ => False
  end.
Proof.
  intros Ht. unfold finishTemporaryFile, mutate, mbind, exec_bind.
  destruct (host_write t d (world s) [] m0 Ht) as (now & Hw & Hnow).
  pose proof (host_plain _ _ (call_write raw (world s) t d ltac:(eauto))) as K1.
  destruct (os_Write t d (world s)) as [w1 [e|]]; simpl in *; [by eauto|].
  specialize (Hnow eq_refl). simpl in Hnow. subst now.
  pose proof (host_plain _ _ (call_sync raw w1 t ltac:(rewrite Hw, lookup_insert_eq; eauto))) as K2.
  pose proof (host_sync t w1) as Hs. destruct (os_Sync t w1) as [w2 [e|]]; simpl in *.
  { split; [by eapply keeps_plain_trans|]. split; [done|]. exists (d, m0). by rewrite Hs. }
  rewrite Hw in Hs. pose proof (host_chmod t mode w2 d m0) as Hc.
  pose proof (host_plain _ _ (call_chmod raw w2 t mode ltac:(rewrite Hs, lookup_insert_eq; eauto))) as K3.
  rewrite Hs, lookup_insert_eq in Hc. specialize (Hc eq_refl).
  assert (keeps plain (world s) (os_Chmod t mode w2).1) as K by (unfold keeps in *; auto).
  destruct (os_Chmod t mode w2) as [w3 [e|]]; simpl in *; (split; [done|]).
  { split; [done|]. exists (d, m0). done. }
  split; [done|]. by rewrite Hc, insert_insert_eq.
Qed.

Lemma hostWrite_spec publish allowed target d mode s :
  publishes publish allowed → plain (world s) target → is_temp target = false →
  (∀ m m', visible m = visible m' → allowed m target → allowed m' target) →
  keeps plain (world s) (world (hostWrite publish target d mode s).1) ∧
  match hostWrite publish target d mode s with
  | (s', Ok _) => seen s' = seen s ∧ allowed (raw (world s)) target ∧
      visible (raw (world s')) = <[target := (d, mode)]> (visible (raw (world s)))
  | (s', Err _) => seen s' = seen s ∧ visible (raw (world s')) = visible (raw (world s))
  | _ => False
  end.
Proof.
  intros Hpub Hplain Htarget Hallowed. unfold hostWrite. unfold mbind at 1, exec_bind at 1, createTemp.
  unfold mbind at 2, exec_bind at 2, createTemp.
  pose proof (host_temp target (world s) Hplain) as Hct.
  pose proof (host_plain _ _ (call_temp raw (world s) (dir target) temporaryFilePrefix)) as K1.
  destruct (os_CreateTemp _ _ (world s)) as [w1 [e|t]]; simpl in Hct, K1 |- *.
  { split; [done|]. split; [done|]. by rewrite Hct. }
  destruct Hct as (Htemp & Hnone & m0 & Hraw1).
  set (s1 := mkState w1 (seen s)).
  assert (raw (world s1) !! t = Some ([], m0)) as Ht by (simpl; by rewrite Hraw1, lookup_insert_eq).
  pose proof (finishTemporaryFile_spec t d mode s1 m0 Ht) as [K2 Hfin].
  assert (∀ w2 x, raw w2 = <[t := x]> (raw w1) →
    visible (raw (os_Remove t w2).1) = visible (raw (world s))) as Hclean.
  { intros w2 x Hx. destruct (host_remove t w2) as [-> | ->]; [rewrite Hx, lookup_insert_eq; eauto|..];
      rewrite Hx, ?visible_delete_temp by done; rewrite !visible_temp by done;
      by rewrite Hraw1, visible_temp. }
  assert (∀ w2, keeps plain w2 (os_Remove t w2).1) as Kr by (intros w2; apply host_plain, call_remove).
  unfold onError. unfold mbind, exec_bind.
  destruct (finishTemporaryFile t d mode s1) as [s2 [u|e| |]]; cbn [fst] in K2; simpl; [|..|done|done].
  2:{ destruct Hfin as (? & x & ?). split; [unfold keeps in *; eauto|]. simpl in *. eauto. }
  destruct Hfin as [Hseen Hraw2]. unfold mutate.
  pose proof (Hpub t target (world s2) (d, mode) (K2 _ (K1 _ Hplain))) as Hp.
  rewrite Hraw2, lookup_insert_eq in Hp. destruct (Hp eq_refl) as (Hok & K3 & Heff). clear Hp.
  assert (visible (raw (world s2)) = visible (raw (world s))) as Hsame.
  { rewrite Hraw2, visible_temp by done. simpl. by rewrite Hraw1, visible_temp. }
  rewrite <- Hraw2 in Hok.
  destruct (publish t target (world s2)) as [w3 [e|]]; simpl in *.
  - split; [unfold keeps in *; auto|]. split; [done|]. by eapply Hclean.
  - split; [unfold keeps in *; auto|]. split; [done|].
    split; [by eapply Hallowed, Hok|]. rewrite Heff, visible_insert by done. f_equal.
    rewrite visible_delete_temp, visible_temp by done. by rewrite Hraw1, visible_temp.
Qed.

Lemma lookup_visible m p : is_temp p = false → visible m !! p = m !! p.
Proof.
  intros Hp. unfold visible. rewrite map_lookup_filter.
  destruct (m !! p) as [x|]; simpl; [|done]. by rewrite option_guard_True.
Qed.

Lemma rename_publishes : publishes os_Rename (λ _ _, True).
Proof.
  intros t p w x Hp Hx. split; [done|]. split; [|by apply host_rename].
  apply (host_plain (raw := raw)), call_rename. eauto.
Qed.

Lemma renameNoReplace_publishes : publishes os_RenameNoReplace (λ m p, m !! p = None).
Proof.
  intros t p w x Hp Hx. split; [by apply host_absent|]. split; [|by apply host_publish].
  apply (host_plain (raw := raw)), call_publish. eauto.
Qed.

(** The host writes on plain paths that are not temporary files. *)
Definition hostGood (w : W) (p : path) : Prop := plain w p ∧ is_temp p = false.

Lemma hostGood_keeps w w' : keeps plain w w' → keeps hostGood w w'.
Proof. intros Hk p [Hp Ht]. split; [by apply Hk|done]. Qed.

Lemma host_contract cfg :
  virtual cfg = false → WriteContract cfg (λ w, visible (raw w)) hostGood.
Proof.
  intros Hv. split; intros p d m s [Hp Ht].
  - assert (resolveWriteTarget p (world s) = p) as E.
    { unfold resolveWriteTarget. destruct (os_EvalSymlinks (world s) p) as [e|r] eqn:E; [done|].
      by apply host_links in E. }
    unfold writeFileAtomic, hostWriteFileAtomic. rewrite Hv. simpl. rewrite inspect_bind, E.
    pose proof (hostWrite_spec _ _ p d m s rename_publishes Hp Ht (λ _ _ _ _, I)) as [K Hs].
    split; [by apply hostGood_keeps|]. destruct (hostWrite os_Rename p d m s) as [s' [u|e| |]]; tauto.
  - unfold writeNewFileAtomic, hostWriteNewFileAtomic. rewrite Hv. simpl.
    destruct (hostWrite_spec _ _ p d m s renameNoReplace_publishes Hp Ht) as [K Hs].
    { intros m1 m2 E Hm. by rewrite <- (lookup_visible m2), <- E, lookup_visible. }
    split; [by apply hostGood_keeps|]. by rewrite lookup_visible by done.
Qed.

(** What is seen without the temporary files obeys the laws of the whole. *)
Lemma visible_tree `{!TreeLaws W raw plain} : TreeLaws W (λ w, visible (raw w)) hostGood.
Proof.
  split.
  - intros w p f info [Hp Ht] Ho Hs Hr He. rewrite lookup_visible by done. by eapply open_file.
  - intros w p [Hp Ht] Hl. rewrite lookup_visible by done. by eapply lstat_absent.
  - intros p m w. f_equal. apply mkdir_files.
  - intros p m w. apply hostGood_keeps, (mkdir_plain (files := raw)).
  - intros p w [Hp Ht]. cbn beta. rewrite (remove_files (files := raw)) by done.
    destruct (fs_Remove p w).2; [done|]. unfold visible. apply map_filter_delete.
  - intros p w. apply hostGood_keeps, (remove_plain (files := raw)).
Qed.

End host.

Section atomic.
Context {W : Type} `{FS W, HostOS W} (raw : W → fileMap) (plain : W → path → Prop).
Context `{!HostLaws W raw plain}.

(** The host's two writes are atomic at a plain path.  Whichever step fails,
    creating, writing, syncing, chmod or renaming, no file but a temporary one has
    changed; on success exactly the target has the new content and mode; a new file
    is never written over an existing one; the ledger is untouched. *)
Theorem host_writes_atomic cfg p d m s :
  virtual cfg = false → plain (world s) p → is_temp p = false →
  match writeFileAtomic cfg p d m s with
  | (s', Ok _) => seen s' = seen s ∧
      visible (raw (world s')) = <[p := (d, m)]> (visible (raw (world s)))
  | (s', Err _) => seen s' = seen s ∧ visible (raw (world s')) = visible (raw (world s))
  | _ => False
  end ∧
  match writeNewFileAtomic cfg p d m s with
  | (s', Ok _) => seen s' = seen s ∧ raw (world s) !! p = None ∧
      visible (raw (world s')) = <[p := (d, m)]> (visible (raw (world s)))
  | (s', Err _) => seen s' = seen s ∧ visible (raw (world s')) = visible (raw (world s))
  | _ => False
  end.
Proof.
  intros Hv Hp Ht. pose proof (host_contract raw plain cfg Hv) as Hc. split.
  - exact (proj2 (contract_write (files := λ w, visible (raw w)) p d m s (conj Hp Ht))).
  - pose proof (proj2 (contract_new (files := λ w, visible (raw w)) p d m s (conj Hp Ht))) as Hn.
    cbv beta in Hn. by rewrite lookup_visible in Hn.
Qed.

End atomic.

(** ** The in-memory world *)

Section memory.
Implicit Types (w : fileMap) (p : path).

Definition found {A} (o : option A) : sentinel + A :=
  match o with Some a => inr a | None => inl FsNotExist end.

Definition mem_info (x : bytes * Z) : fileInfo :=
  mkInfo Regular (Z.of_nat (length x.1)) x.2.

Definition mem_move (src dst : path) w : fileMap * option sentinel :=
  match w !! src with
  | None => (w, Some FsNotExist)
  | Some x => (<[dst := x]> (delete src w), None)
  end.

Definition mem_move_new (src dst : path) w : fileMap * option sentinel :=
  if bool_decide (is_Some (w !! dst)) then (w, Some FsExist) else mem_move src dst w.

Definition mem_remove p w : fileMap * option sentinel :=
  if bool_decide (is_Some (w !! p)) then (delete p w, None) else (w, Some FsNotExist).

#[export] Instance mem_FS : FS fileMap := {|
  fs_Stat w p := found (mem_info <$> w !! p);
  fs_Lstat w p := found (mem_info <$> w !! p);
  fs_ReadDir w p := inl FsNotExist;
  fs_Open w p := found ((λ x, mkFile (inr (mem_info x)) x.1 None None) <$> w !! p);
  fs_RealPath w p := inr p;
  fs_CreateExclusive p d m w :=
    if bool_decide (is_Some (w !! p)) then (w, Some FsExist) else (<[p := (d, m)]> w, None);
  fs_WriteFileAtomic p d m w := (<[p := (d, m)]> w, None);
  fs_MkdirAll p m w := (w, None);
  fs_Remove := mem_remove;
  fs_RemoveAll := mem_remove;
  fs_RenameNoReplace := mem_move_new;
|}.

(** Longer than every name in use. *)
Definition freshName {V} (prefix : bytes) (w : gmap path V) : bytes :=
  prefix ++ replicate (S (sum_list_with length (map_to_list w).*1)) "0"%char.

Definition mem_temp {V} (d : path) (prefix : bytes) (w : gmap path V) : path :=
  d ++ SLASH :: freshName prefix w.

#[export] Instance mem_OS : HostOS fileMap := {|
  os_EvalSymlinks w p := found (const p <$> w !! p);
  os_CreateTemp d prefix w := (<[mem_temp d prefix w := ([], 384)]> w, inr (mem_temp d prefix w));
  os_Write t d w :=
    match w !! t with Some (old, m) => (<[t := (old ++ d, m)]> w, None) | None => (w, Some FsNotExist) end;
  os_Sync t w := (w, None);
  os_Chmod t mode w :=
    match w !! t with Some (d, _) => (<[t := (d, mode)]> w, None) | None => (w, Some FsNotExist) end;
  os_Rename := mem_move;
  os_RenameNoReplace := mem_move_new;
  os_Remove := mem_remove;
|}.

Lemma mem_temp_fresh {V} d prefix (w : gmap path V) : w !! mem_temp d prefix w = None.
Proof.
  destruct (w !! mem_temp d prefix w) as [x|] eqn:E; [|done]. exfalso.
  assert (mem_temp d prefix w ∈ (map_to_list w).*1) as Hin.
  { apply elem_of_map_to_list in E. by apply (list_elem_of_fmap_2' fst _ _ _ E). }
  assert (∀ (ks : list path) k, k ∈ ks → (length k ≤ sum_list_with length ks)%nat) as Hle.
  { induction ks as [|k' ks IH]; intros k; [set_solver|]. intros [->|Hk]%elem_of_cons; simpl; [lia|].
    specialize (IH _ Hk). lia. }
  apply Hle in Hin. unfold mem_temp, freshName in Hin.
  rewrite length_app, length_cons, length_app, length_replicate in Hin. unfold path in *. lia.
Qed.

Lemma last_index_byte_app_sep c d x :
  c ∉ x → last_index_byte c (d ++ c :: x) = Some (length d).
Proof.
  intros Hx. assert (last_index_byte c x = None) as Hn.
  { induction x as [|a x IH]; [done|]. simpl. rewrite IH by set_solver.
    by rewrite decide_False by set_solver. }
  induction d as [|a d IH]; simpl.
  - rewrite Hn. by rewrite decide_True.
  - by rewrite IH.
Qed.

Lemma freshName_flat {V} (w : gmap path V) : SLASH ∉ freshName temporaryFilePrefix w.
Proof.
  unfold freshName. rewrite elem_of_app. intros [Hin|Hin].
  - revert Hin. unfold temporaryFilePrefix, bs, SLASH. simpl. set_solver.
  - apply elem_of_replicate in Hin as [? _]. done.
Qed.

Lemma mem_temp_is_temp {V} d (w : gmap path V) : is_temp (mem_temp d temporaryFilePrefix w) = true.
Proof.
  unfold is_temp, baseName, mem_temp. rewrite last_index_byte_app_sep by apply freshName_flat.
  change (S (length d)) with (1 + length d)%nat. rewrite Nat.add_comm, <- drop_drop, drop_app_length.
  change (drop 1 (SLASH :: ?x)) with x. apply has_prefix_app.
Qed.

Lemma mem_move_spec t p w x :
  w !! t = Some x → mem_move t p w = (<[p := x]> (delete t w), None).
Proof. unfold mem_move. by intros ->. Qed.

(** Without links every path is plain. *)
Definition everyPath : fileMap → path → Prop := λ _ _, True.

#[export] Instance mem_tree : TreeLaws fileMap id everyPath.
Proof.
  split; try done; unfold id.
  - intros w p f info _. simpl. destruct (w !! p) as [[d m]|]; simpl; [|done].
    intros [= <-]. simpl. intros [= <-]. done.
  - intros w p _. simpl. by destruct (w !! p).
  - intros p w _. simpl. unfold mem_remove. by destruct (bool_decide _).
Qed.

#[export] Instance mem_virtual : VirtualLaws fileMap id everyPath.
Proof.
  split; try done; unfold id.
  - intros p d m w _. simpl. by destruct (bool_decide _).
  - intros p d m w _. simpl. destruct (bool_decide_reflect (is_Some (w !! p))); [done|].
    intros _. by apply eq_None_not_Some.
Qed.

#[export] Instance mem_host : HostLaws fileMap id everyPath.
Proof.
  split; try done; unfold id.
  - intros w p r _. simpl. destruct (w !! p); simpl; congruence.
  - intros d w _. split; [apply mem_temp_is_temp|]. split; [apply mem_temp_fresh|]. by eexists.
  - intros t d w old m. simpl. intros ->. by eexists.
  - intros t mode w d m. simpl. by intros ->.
  - intros t p w x _ Hx. simpl. by rewrite (mem_move_spec _ _ _ _ Hx).
  - intros t p w x _ Hx. simpl. unfold mem_move_new. destruct (bool_decide _); [done|].
    by rewrite (mem_move_spec _ _ _ _ Hx).
  - intros t p w _. simpl. unfold mem_move_new.
    destruct (bool_decide_reflect (is_Some (w !! p))); [done|]. intros _. by apply eq_None_not_Some.
  - intros t w _. simpl. unfold mem_remove. destruct (bool_decide _); simpl; [by right|by left].
Qed.

End memory.

Definition sample_host : config :=
  mkConfig false (bs "/w") (bs "/w") [] Limits.DefaultLimits.

Lemma host_writes_atomic_witness :
  let s : state fileMap := mkState {[bs "/w/a" := (bs "old", 420)]} (mkLedger ∅ 0) in
  visible (world (writeFileAtomic sample_host (bs "/w/a") (bs "new") 420 s).1) !! bs "/w/a" =
    Some (bs "new", 420) ∧
  (writeNewFileAtomic sample_host (bs "/w/a") (bs "new") 420 s).2 = Err ErrAlreadyExists ∧
  visible (world (writeNewFileAtomic sample_host (bs "/w/a") (bs "new") 420 s).1) =
    visible (world s).
Proof.
  intros s. split; [vm_compute; reflexivity|].
  assert ((writeNewFileAtomic sample_host (bs "/w/a") (bs "new") 420 s).2 = Err ErrAlreadyExists)
    as He by (vm_compute; reflexivity).
  split; [exact He|].
  pose proof (host_writes_atomic id everyPath sample_host (bs "/w/a") (bs "new") 420 s eq_refl I eq_refl)
    as [_ Hn].
  destruct (writeNewFileAtomic sample_host (bs "/w/a") (bs "new") 420 s) as [s' [u|e| |]];
    try discriminate He.
  destruct Hn as [_ Hn]. exact Hn.
Defined.

End Files.
