(* ===== verification/LinkedFiles.v ===== *)
(** A world with symbolic links that obeys the laws of Files: regular files and links
    by path, directories implied. Every call follows the links on the directories of
    its path; opens, atomic writes and the calls on a temporary file follow a link at
    the path itself too, while removals and renames act on the link. The laws hold at
    the paths no link lies on, whatever links the world has elsewhere. *)
From stdpp Require Import base gmap sets list strings.
From Stdlib Require Import ZArith Lia Ascii.
From S2P Require Import Prelude GoBytes GoPath Limits Workspace Files.
Import Workspace.

Module LinkedFiles.
Local Open Scope Z_scope.

Inductive node := File (content : bytes) (perm : Z) | Link (target : path).

Abbreviation linkWorld := (gmap path node).

Implicit Types (w : linkWorld) (p q h r : path).

(** The ways to cut a path before a separator or at its end. *)
Definition splits p : list (path * path) :=
  omap (λ i, match drop i p with
             | [] => Some (take i p, [])
             | c :: rest => if bool_decide (c = SLASH) then Some (take i p, c :: rest) else None
             end) (seq 0 (S (length p))).

Definition linkAt w h : option path :=
  match w !! h with Some (Link t) => Some t | _ => None end.

(** No link at the path or at a directory on it. *)
Definition plain w p : Prop := Forall (λ hr, linkAt w hr.1 = None) (splits p).

(** The links on a path that a call follows, each replaced by its target: at the path
    itself only if it is [whole]. *)
Definition detours w (whole : bool) p : list path :=
  omap (λ hr, match linkAt w hr.1 with
              | Some t => if whole || negb (bool_decide (hr.2 = [])) then Some (t ++ hr.2) else None
              | None => None
              end) (splits p).

Fixpoint follow (fuel : nat) w (whole : bool) p : sentinel + path :=
  match detours w whole p with
  | [] => inr p
  | q :: _ => match fuel with O => inl ErrOther | S fuel => follow fuel w whole q end
  end.

Definition maxLinks : nat := 40.
Definition real w p : sentinel + path := follow maxLinks w true p.
Definition entry w p : sentinel + path := follow maxLinks w false p.

Definition nodeInfo (n : node) : fileInfo :=
  match n with
  | File content perm => mkInfo Regular (Z.of_nat (length content)) perm
  | Link t => mkInfo Symlink (Z.of_nat (length t)) 511
  end.

Definition at_ {A} (w : linkWorld) (r : sentinel + path) (k : node → sentinel + A) : sentinel + A :=
  match r with
  | inl e => inl e
  | inr q => match w !! q with Some n => k n | None => inl FsNotExist end
  end.

Definition openNode (n : node) : sentinel + openFile :=
  match n with
  | File content perm => inr (mkFile (inr (nodeInfo (File content perm))) content None None)
  | Link _ => inl FsNotExist
  end.

Definition removeNode p w : linkWorld * option sentinel :=
  match entry w p with
  | inl e => (w, Some e)
  | inr q => match w !! q with Some _ => (delete q w, None) | None => (w, Some FsNotExist) end
  end.

Definition createNode p content perm w : linkWorld * option sentinel :=
  match entry w p with
  | inl e => (w, Some e)
  | inr q => match w !! q with
             | Some _ => (w, Some FsExist)
             | None => (<[q := File content perm]> w, None)
             end
  end.

Definition overwrite p content perm w : linkWorld * option sentinel :=
  match real w p with
  | inl e => (w, Some e)
  | inr q => (<[q := File content perm]> w, None)
  end.

Definition moveNode (replace : bool) (source destination : path) w : linkWorld * option sentinel :=
  match entry w source, entry w destination with
  | inr a, inr b =>
      match w !! a, w !! b with
      | None, _ => (w, Some FsNotExist)
      | Some _, Some _ => if replace then
          (match w !! a with Some n => <[b := n]> (delete a w) | None => w end, None) else (w, Some FsExist)
      | Some n, None => (<[b := n]> (delete a w), None)
      end
  | inl e, _ | _, inl e => (w, Some e)
  end.

(** Change the file at a path. *)
Definition change (f : bytes → Z → node) p w : linkWorld * option sentinel :=
  match real w p with
  | inl e => (w, Some e)
  | inr q => match w !! q with
             | Some (File content perm) => (<[q := f content perm]> w, None)
             | _ => (w, Some FsNotExist)
             end
  end.

#[export] Instance link_FS : FS linkWorld := {|
  fs_Stat w p := at_ w (real w p) (λ n, inr (nodeInfo n));
  fs_Lstat w p := at_ w (entry w p) (λ n, inr (nodeInfo n));
  fs_ReadDir w p := inl FsNotExist;
  fs_Open w p := at_ w (real w p) openNode;
  fs_RealPath w p := real w p;
  fs_CreateExclusive := createNode;
  fs_WriteFileAtomic := overwrite;
  fs_MkdirAll p m w := (w, None);
  fs_Remove := removeNode;
  fs_RemoveAll := removeNode;
  fs_RenameNoReplace := moveNode false;
|}.

#[export] Instance link_OS : HostOS linkWorld := {|
  os_EvalSymlinks w p :=
    match real w p with
    | inl e => inl e
    | inr q => if bool_decide (is_Some (w !! q)) then inr q else inl FsNotExist
    end;
  os_CreateTemp d prefix w :=
    match real w d with
    | inl e => (w, inl e)
    | inr q => (<[Files.mem_temp q prefix w := File [] 384]> w, inr (Files.mem_temp q prefix w))
    end;
  os_Write t d := change (λ content perm, File (content ++ d) perm) t;
  os_Sync t w := (w, None);
  os_Chmod t mode := change (λ content _, File content mode) t;
  os_Rename := moveNode true;
  os_RenameNoReplace := moveNode false;
  os_Remove := removeNode;
|}.

#[export] Instance plain_dec w p : Decision (plain w p).
Proof. unfold plain. apply _. Defined.

(** The files under the paths that name them without a link. *)
Definition raw w : Files.fileMap :=
  map_imap (λ p n, match n with
                   | File content perm => if bool_decide (plain w p) then Some (content, perm) else None
                   | Link _ => None
                   end) w.

(** ** Paths without links *)

Lemma splits_spec p h r : (h, r) ∈ splits p ↔ p = h ++ r ∧ (r = [] ∨ head r = Some SLASH).
Proof.
  unfold splits. rewrite list_elem_of_omap. split.
  - intros (i & _ & Hi). pose proof (take_drop i p) as Hp.
    destruct (drop i p) as [|c rest] eqn:Ed; [injection Hi as <- <-; split; [done|by left]|].
    case_bool_decide; [|done]. injection Hi as <- <-. subst c. split; [done|by right].
  - intros [-> Hr]. exists (length h). split; [apply elem_of_seq; rewrite length_app; lia|].
    rewrite drop_app_length, take_app_length. destruct r as [|c r]; [done|].
    destruct Hr as [?|[= ->]]; [done|]. by rewrite bool_decide_eq_true_2.
Qed.

Lemma plain_spec w p : plain w p ↔ ∀ h r, (h, r) ∈ splits p → linkAt w h = None.
Proof. unfold plain. rewrite Forall_forall. split; [intros H h r; apply (H (h, r))|intros H [h r]; apply H]. Qed.

Lemma plain_whole w p : plain w p → linkAt w p = None.
Proof. rewrite plain_spec. intros H. apply (H p []), splits_spec. rewrite app_nil_r. split; [done|by left]. Qed.

Lemma detours_plain w whole p : plain w p → detours w whole p = [].
Proof.
  rewrite plain_spec. intros Hp. apply elem_of_nil_inv. intros q. unfold detours. rewrite list_elem_of_omap.
  intros ([h r] & Hin & Hq). cbn [fst snd] in Hq. by rewrite (Hp h r Hin) in Hq.
Qed.

Lemma plain_detours w p : detours w true p = [] → plain w p.
Proof.
  intros Hd. apply plain_spec. intros h r Hin. destruct (linkAt w h) as [t|] eqn:Et; [exfalso|done].
  assert (t ++ r ∈ detours w true p) as Hx.
  { unfold detours. apply list_elem_of_omap. exists (h, r). split; [done|]. cbn [fst snd]. by rewrite Et. }
  rewrite Hd in Hx. by apply elem_of_nil in Hx.
Qed.

Lemma follow_plain fuel w whole p : plain w p → follow fuel w whole p = inr p.
Proof. intros Hp. destruct fuel; cbn [follow]; by rewrite detours_plain. Qed.

Lemma real_plain w p : plain w p → real w p = inr p.
Proof. apply follow_plain. Qed.
Lemma entry_plain w p : plain w p → entry w p = inr p.
Proof. apply follow_plain. Qed.

Lemma real_is_plain w p q : real w p = inr q → plain w q.
Proof.
  unfold real. generalize maxLinks as n. intros n. revert p. induction n as [|n IH]; intros p; cbn [follow];
    destruct (detours w true p) as [|d ds] eqn:Ed; try done; [intros [= <-]..|apply IH]; by apply plain_detours.
Qed.

(** ** What calls keep *)

(** No link of [w'] is new. *)
Definition noNewLink w w' : Prop := ∀ h, linkAt w h = None → linkAt w' h = None.

Lemma noNewLink_keeps w w' : noNewLink w w' → Files.keeps plain w w'.
Proof. unfold Files.keeps. intros Hl p. rewrite !plain_spec. eauto. Qed.

Lemma noNewLink_refl w : noNewLink w w.
Proof. by intros h. Qed.

Lemma noNewLink_insert w p c m : noNewLink w (<[p := File c m]> w).
Proof. intros h. unfold linkAt. destruct (decide (h = p)) as [-> |]; simplify_map_eq; done. Qed.

Lemma noNewLink_delete w p : noNewLink w (delete p w).
Proof. intros h. unfold linkAt. destruct (decide (h = p)) as [-> |]; simplify_map_eq; done. Qed.

Lemma noNewLink_trans w1 w2 w3 : noNewLink w1 w2 → noNewLink w2 w3 → noNewLink w1 w3.
Proof. unfold noNewLink. auto. Qed.

Lemma raw_spec w p c m : raw w !! p = Some (c, m) ↔ w !! p = Some (File c m) ∧ plain w p.
Proof.
  unfold raw. rewrite map_lookup_imap. destruct (w !! p) as [[c' m'|t]|]; cbn; [|naive_solver..].
  case_bool_decide; naive_solver.
Qed.

Lemma raw_regular w p x : raw w !! p = Some x → w !! p = Some (File x.1 x.2) ∧ plain w p.
Proof. destruct x. apply raw_spec. Qed.

Lemma raw_agree w w' p : (∀ h, linkAt w' h = linkAt w h) → w' !! p = w !! p → raw w' !! p = raw w !! p.
Proof.
  intros Hl Hp. apply option_eq. intros [c m]. rewrite !raw_spec, Hp, !plain_spec. by setoid_rewrite Hl.
Qed.

Lemma raw_insert w p c m : linkAt w p = None → plain w p → raw (<[p := File c m]> w) = <[p := (c, m)]> (raw w).
Proof.
  intros Hn Hp. assert (∀ h, linkAt (<[p := File c m]> w) h = linkAt w h) as Hl.
  { intros h. unfold linkAt in *. destruct (decide (h = p)) as [-> |]; simplify_map_eq; done. }
  apply map_eq. intros q. destruct (decide (q = p)) as [-> |Hq].
  - rewrite lookup_insert_eq. apply raw_spec. rewrite lookup_insert_eq. split; [done|].
    rewrite plain_spec in *. by setoid_rewrite Hl.
  - rewrite lookup_insert_ne by done. apply raw_agree; [done|]. by rewrite lookup_insert_ne.
Qed.

Lemma raw_delete w p : linkAt w p = None → raw (delete p w) = delete p (raw w).
Proof.
  intros Hn. assert (∀ h, linkAt (delete p w) h = linkAt w h) as Hl.
  { intros h. unfold linkAt in *. destruct (decide (h = p)) as [-> |]; simplify_map_eq; done. }
  apply map_eq. intros q. destruct (decide (q = p)) as [-> |Hq].
  - rewrite lookup_delete_eq. apply eq_None_not_Some. intros [[c m] Hx%raw_spec].
    rewrite lookup_delete_eq in Hx. by destruct Hx.
  - rewrite lookup_delete_ne by done. apply raw_agree; [done|]. by rewrite lookup_delete_ne.
Qed.

Lemma absent_raw w p : w !! p = None → raw w !! p = None.
Proof. intros Hw. apply eq_None_not_Some. intros [[c m] Hx%raw_spec]. rewrite Hw in Hx. by destruct Hx. Qed.

(** A fresh temporary file below a directory without links is one itself. *)
Lemma plain_temp w q : plain w q → plain w (Files.mem_temp q temporaryFilePrefix w).
Proof.
  intros Hq. apply plain_spec. intros h r [E Hr]%splits_spec. unfold Files.mem_temp in E.
  apply app_eq_inv in E as [(k & -> & E)|(k & -> & E)].
  - rewrite plain_spec in Hq. apply (Hq h k), splits_spec. split; [done|].
    destruct k as [|c k]; [by left|right]. subst r. by destruct Hr.
  - destruct k as [|c k]; [rewrite app_nil_r; by apply plain_whole|]. injection E as <- E.
    destruct Hr as [->|Hr].
    + rewrite app_nil_r in E. subst k. unfold linkAt. fold (Files.mem_temp q temporaryFilePrefix w).
      by rewrite Files.mem_temp_fresh.
    + exfalso. apply (Files.freshName_flat w). rewrite E. apply elem_of_app. right.
      destruct r as [|c r]; [done|]. injection Hr as ->. by left.
Qed.

(** ** The laws *)

Lemma removeNode_noNewLink p w : noNewLink w (removeNode p w).1.
Proof.
  unfold removeNode. destruct (entry w p) as [e|q]; [apply noNewLink_refl|].
  destruct (w !! q); [apply noNewLink_delete|apply noNewLink_refl].
Qed.

Lemma change_noNewLink f p w : (∀ c m, ∃ c' m', f c m = File c' m') → noNewLink w (change f p w).1.
Proof.
  intros Hf. unfold change. destruct (real w p) as [e|q]; [apply noNewLink_refl|].
  destruct (w !! q) as [[c m|t]|]; try apply noNewLink_refl.
  destruct (Hf c m) as (c' & m' & ->). apply noNewLink_insert.
Qed.

Lemma moveNode_noNewLink replace t p w : is_Some (raw w !! t) → noNewLink w (moveNode replace t p w).1.
Proof.
  intros [[c m] [Ht Hp]%raw_spec]. unfold moveNode. rewrite entry_plain by done.
  destruct (entry w p) as [e|q]; [apply noNewLink_refl|]. rewrite Ht.
  assert (noNewLink w (<[q := File c m]> (delete t w))) as Hn
    by (eapply noNewLink_trans; [apply noNewLink_delete|apply noNewLink_insert]).
  destruct (w !! q); [destruct replace|]; cbn [fst]; [exact Hn|apply noNewLink_refl|exact Hn].
Qed.

Lemma raw_move w t p c m : raw w !! t = Some (c, m) → plain w p →
  raw (<[p := File c m]> (delete t w)) = <[p := (c, m)]> (delete t (raw w)).
Proof.
  intros [Ht Hpt]%raw_spec Hp. pose proof (noNewLink_delete w t) as Hd. rewrite raw_insert.
  - by rewrite raw_delete by (by apply plain_whole).
  - by apply Hd, plain_whole.
  - by apply (noNewLink_keeps _ _ Hd).
Qed.

Lemma moveNode_raw replace t p w x : plain w p → raw w !! t = Some x →
  raw (moveNode replace t p w).1 =
    match (moveNode replace t p w).2 with None => <[p := x]> (delete t (raw w)) | Some _ => raw w end.
Proof.
  destruct x as [c m]. intros Hp Hx. pose proof (raw_move w t p c m Hx Hp) as Hm.
  apply raw_spec in Hx as [Ht Hpt]. unfold moveNode. rewrite !entry_plain, Ht by done.
  destruct (w !! p); [destruct replace|]; done.
Qed.

Lemma change_raw f t w c m c' m' : raw w !! t = Some (c, m) → f c m = File c' m' →
  change f t w = (<[t := File c' m']> w, None) ∧ raw (<[t := File c' m']> w) = <[t := (c', m')]> (raw w).
Proof.
  intros [Ht Hp]%raw_spec Hf. unfold change. rewrite real_plain, Ht, Hf by done. split; [done|].
  apply raw_insert; [by apply plain_whole|done].
Qed.

Lemma removeNode_raw p w : plain w p →
  raw (removeNode p w).1 = match (removeNode p w).2 with None => delete p (raw w) | Some _ => raw w end.
Proof.
  intros Hp. unfold removeNode. rewrite entry_plain by done.
  destruct (w !! p); [|done]. by apply raw_delete, plain_whole.
Qed.

(** Unfold the calls of the two instances. *)
Ltac calls := cbn [fs_Open fs_Lstat fs_CreateExclusive fs_WriteFileAtomic fs_Remove os_EvalSymlinks os_CreateTemp os_Write os_Chmod os_Rename os_RenameNoReplace os_Remove os_Sync link_FS link_OS fst snd].

#[export] Instance link_tree : Files.TreeLaws linkWorld raw plain.
Proof.
  split; try done.
  - intros w p f info Hp. calls. unfold at_. rewrite real_plain by done.
    destruct (w !! p) as [[c m|t]|] eqn:E; cbn; [|done..]. intros [= <-] [= <-] _ _. by apply raw_spec.
  - intros w p Hp. calls. unfold at_. rewrite entry_plain by done.
    destruct (w !! p) eqn:E; [done|]. intros _. by apply absent_raw.
  - by intros p m w q.
  - intros p w Hp. by apply removeNode_raw.
  - intros p w. apply noNewLink_keeps, removeNode_noNewLink.
Qed.

#[export] Instance link_virtual : Files.VirtualLaws linkWorld raw plain.
Proof.
  split.
  - intros p d m w Hp. calls. unfold overwrite. rewrite real_plain by done. cbn.
    apply raw_insert; [by apply plain_whole|done].
  - intros p d m w Hp. calls. unfold createNode. rewrite entry_plain by done.
    destruct (w !! p); [done|]. apply raw_insert; [by apply plain_whole|done].
  - intros p d m w Hp. calls. unfold createNode. rewrite entry_plain by done.
    destruct (w !! p) eqn:E; [done|]. intros _. by apply absent_raw.
  - intros p d m w. apply noNewLink_keeps. calls. unfold overwrite.
    destruct (real w p); [apply noNewLink_refl|apply noNewLink_insert].
  - intros p d m w. apply noNewLink_keeps. calls. unfold createNode.
    destruct (entry w p) as [e|q]; [apply noNewLink_refl|].
    destruct (w !! q); [apply noNewLink_refl|apply noNewLink_insert].
Qed.

Lemma createTemp_raw d w :
  match (os_CreateTemp d temporaryFilePrefix w).2 with
  | inl _ => raw (os_CreateTemp d temporaryFilePrefix w).1 = raw w
  | inr t => Files.is_temp t = true ∧ raw w !! t = None ∧
      ∃ m, raw (os_CreateTemp d temporaryFilePrefix w).1 = <[t := ([], m)]> (raw w)
  end.
Proof.
  calls. destruct (real w d) as [e|q] eqn:E; [done|]. apply real_is_plain in E. cbn.
  pose proof (plain_temp w q E) as Hp. split; [apply Files.mem_temp_is_temp|].
  split; [apply absent_raw, Files.mem_temp_fresh|]. exists 384. apply raw_insert; [by apply plain_whole|done].
Qed.

Lemma hostCall_noNewLink w w' : Files.hostCall raw w w' → noNewLink w w'.
Proof.
  intros [d prefix|t d _|t _|t mode _|t p Ht|t p Ht|t]; calls.
  - destruct (real w d); [apply noNewLink_refl|apply noNewLink_insert].
  - apply change_noNewLink. eauto.
  - apply noNewLink_refl.
  - apply change_noNewLink. eauto.
  - by apply moveNode_noNewLink.
  - by apply moveNode_noNewLink.
  - apply removeNode_noNewLink.
Qed.

#[export] Instance link_host : Files.HostLaws linkWorld raw plain.
Proof.
  split.
  - intros w p r Hp. calls. rewrite real_plain by done. case_bool_decide; congruence.
  - intros p w _. apply createTemp_raw.
  - intros t d w old m Ht. calls.
    destruct (change_raw (λ content perm, File (content ++ d) perm) t w old m _ _ Ht eq_refl) as [-> Hr].
    by exists (old ++ d).
  - done.
  - intros t mode w d m Ht. calls.
    by destruct (change_raw (λ content _, File content mode) t w d m _ _ Ht eq_refl) as [-> Hr].
  - intros t p w x Hp Hx. by apply moveNode_raw.
  - intros t p w x Hp Hx. by apply moveNode_raw.
  - intros t p w Hp. calls. unfold moveNode. destruct (entry w t) as [e|q]; [done|]. rewrite entry_plain by done.
    destruct (w !! q); [|done]. destruct (w !! p) eqn:E; [done|]. intros _. by apply absent_raw.
  - intros t w [x [_ Ht]%raw_regular]. calls. rewrite removeNode_raw by done.
    destruct (removeNode t w).2; [by left|by right].
  - intros w w' Hc. by apply noNewLink_keeps, hostCall_noNewLink.
Qed.

End LinkedFiles.
