(* ===== verification/ReadFile.v ===== *)
(** Reading a file in bounded line windows (src/internal/pkg/tools/read.go), with
    the images and PDFs of readimage.go and readpdf.go.  The binary sniff and the
    bounded read it uses are in Workspace. *)
From stdpp Require Import base gmap sets list strings.
From Stdlib Require Import ZArith Lia Ascii.
From S2P Require Import Prelude GoBytes GoPath Limits Diff Workspace Files.
Import Diff Workspace.
Import (hints) Files.

Module ReadFile.
Local Open Scope Z_scope.

Definition firstLine : Z := 1.

Record ReadFileInput := mkInput { in_Path : bytes; in_Offset : Z; in_Limit : Z }.

Record ReadFileOutput := mkReadOutput {
  Path : path; Content : bytes; FirstLine : Z; LastLine : Z; TotalLines : Z;
  NextOffset : Z; Truncated : bool; SHA256 : bytes;
  MediaType : bytes; SizeBytes : Z; Image : bytes; Pages : Z; Note : bytes
}.

(** The output of a text window: the fields of images and PDFs are zero. *)
Definition mkOutput (p : path) (content : bytes) (first last total next : Z)
    (truncated : bool) (sha : bytes) : ReadFileOutput :=
  mkReadOutput p content first last total next truncated sha [] 0 [] 0 [].

Definition normalizeOffset (offset : Z) : Z := if offset <=? 0 then firstLine else offset.

Definition resolveReadLimit (bound limit : Z) : Z :=
  if (limit <=? 0) || (bound <? limit) then bound else limit.

Definition buildReadWindow (bound : Z) (resolved : path) (content sha : bytes)
    (offset limit : Z) : outcome ReadFileOutput :=
  let lines := splitLines content in
  let totalLines := Z.of_nat (length lines) in
  let offset := normalizeOffset offset in
  if totalLines <? offset then
    Ok (mkOutput resolved [] offset (offset - 1) totalLines 0 false sha)
  else
    let limit := resolveReadLimit bound limit in
    let lastLine := Z.min (wrap64 (wrap64 (offset + limit) - 1)) totalLines in
    let truncated := lastLine <? totalLines in
    window ← slice (offset - 1) lastLine lines;
    let window := join [NL] window in
    let window := if negb truncated && has_suffix [NL] content
                  then window ++ [NL] else window in
    let nextOffset := if truncated then lastLine + 1 else 0 in
    Ok (mkOutput resolved window offset lastLine totalLines nextOffset truncated sha).

(** ** Images and PDFs (readimage.go, readpdf.go) *)

(** [strings.ToLower] as far as an ASCII result goes: two letters outside ASCII,
    U+0130 and U+212A, also map into it. *)
Definition lowerByte (a : ascii) : ascii :=
  let n := nat_of_ascii a in
  if (65 <=? n)%nat && (n <=? 90)%nat then ascii_of_nat (n + 32) else a.

Fixpoint lower (s : bytes) : bytes :=
  match s with
  | [] => []
  | a :: rest =>
      match rest with
      | [] => [lowerByte a]
      | c :: rest1 =>
          if has_prefix [byte_of 196; byte_of 176] s then "i"%char :: lower rest1
          else match rest1 with
               | d :: rest2 =>
                   if has_prefix [byte_of 226; byte_of 132; byte_of 170] s
                   then "k"%char :: lower rest2
                   else lowerByte a :: lower rest
               | [] => lowerByte a :: lower rest
               end
      end
  end.

(** [filepath.Ext]: from the last dot of the last element. *)
Definition ext (p : path) : bytes :=
  let base := match last_index_byte SLASH p with Some i => drop (S i) p | None => p end in
  match last_index_byte "."%char base with Some i => drop i base | None => [] end.

Definition imageExtensions : list (bytes * bytes) :=
  [(bs ".png", bs "image/png"); (bs ".jpg", bs "image/jpeg"); (bs ".jpeg", bs "image/jpeg");
   (bs ".gif", bs "image/gif"); (bs ".webp", bs "image/webp")].

Definition imageMediaTypeForPath (p : path) : bytes :=
  match list_find (λ e, e.1 = lower (ext p)) imageExtensions with
  | Some (_, (_, mediaType)) => mediaType
  | None => []
  end.

Definition isPDFPath (p : path) : bool := bool_decide (lowerByte <$> ext p = bs ".pdf").

Definition pdfSignature : bytes := bs "%PDF-".
Definition pdfPageUnreadable : bytes := bs "[this page's text could not be read]".
Definition pdfMediaType : bytes := bs "application/pdf".
Definition pdfNoTextNote : bytes :=
  bs "The PDF has no text layer, so it is probably scanned images. Its text cannot be read.".

Definition pdfPageMarker (number pages : Z) : bytes :=
  bs "--- page " ++ itoa number ++ bs " of " ++ itoa pages ++ bs " ---".

(** [strings.Replace(s, old, "", 1)] for a non-empty [old]. *)
Definition removeFirst (old s : bytes) : bytes :=
  match index_sub old s with
  | Some i => take i s ++ drop (i + length old) s
  | None => s
  end.

Section read.
Context {W : Type} `{FS W, HostOS W}.
Variable Sum256 : bytes → bytes.
(** [http.DetectContentType]. *)
Variable DetectContentType : bytes → bytes.
(** The PDF library: it panics, refuses the file, or gives each page's text or
    its error. *)
Variable pdfReader : bytes → option (sentinel + list (sentinel + bytes)).
Variable cfg : config.

Definition pdfParts (texts : list (sentinel + bytes)) : list bytes :=
  concat (imap (λ i t,
    [pdfPageMarker (Z.of_nat (S i)) (Z.of_nat (length texts));
     match t with inl _ => pdfPageUnreadable | inr text => trim_space text end]) texts).

Definition pdfText (content : bytes) : outcome (bytes * Z) :=
  match pdfReader content with
  | None => Err ErrParseFailed
  | Some (inl _) => Err ErrParseFailed
  | Some (inr texts) => Ok (join [NL] (pdfParts texts), Z.of_nat (length texts))
  end.

Definition pdfWithoutMarkers (text : bytes) (pages : Z) : bytes :=
  foldl (λ t number, removeFirst (pdfPageMarker number pages) t) text (seqZ 1 pages).

Definition readImageFile (resolved : path) (mediaType : bytes) : exec W ReadFileOutput :=
  '(content, _) ← inspect (λ s,
    readRegularFile resolved (Limits.MaxImageBytes (limits cfg)) (world s));
  _ ← refuse (negb (bool_decide (DetectContentType content = mediaType))) ErrImageContent;
  let sha := hashBytes Sum256 content in
  _ ← observeContent resolved sha;
  mret (mkReadOutput resolved [] 0 0 0 0 false sha mediaType
          (Z.of_nat (length content)) content 0 []).

Definition readPDFFile (resolved : path) (input : ReadFileInput) : exec W ReadFileOutput :=
  '(content, _) ← inspect (λ s,
    readRegularFile resolved (Limits.MaxPDFBytes (limits cfg)) (world s));
  _ ← refuse (negb (has_prefix pdfSignature content)) ErrBinaryContent;
  '(text, pages) ← inspect (λ _, pdfText content);
  let sha := hashBytes Sum256 content in
  output ← inspect (λ _,
    buildReadWindow (Limits.MaxReadLines (limits cfg)) resolved text sha
      (in_Offset input) (in_Limit input));
  let note := if bool_decide (trim_space (pdfWithoutMarkers text pages) = [])
              then pdfNoTextNote else [] in
  _ ← observeContent resolved sha;
  mret (mkReadOutput (Path output) (Content output) (FirstLine output) (LastLine output)
          (TotalLines output) (NextOffset output) (Truncated output) (SHA256 output)
          pdfMediaType (Z.of_nat (length content)) [] pages note).

(** [ReadFile]; [ctxErr] is the result of the context check. *)
Definition ReadFile (ctxErr : option sentinel) (input : ReadFileInput)
    : exec W ReadFileOutput :=
  _ ← inspect (λ _, match ctxErr with Some e => Err e | None => Ok tt end);
  resolved ← inspect (λ _, resolvePath cfg (in_Path input));
  if negb (bool_decide (imageMediaTypeForPath resolved = [])) then
    readImageFile resolved (imageMediaTypeForPath resolved)
  else if isPDFPath resolved then readPDFFile resolved input
  else
    '(content, _) ← inspect (λ s,
      readRegularFile resolved (Limits.MaxReadBytes (limits cfg)) (world s));
    _ ← refuse (isBinary content) ErrBinaryContent;
    let sha := hashBytes Sum256 content in
    output ← inspect (λ _,
      buildReadWindow (Limits.MaxReadLines (limits cfg)) resolved content sha
        (in_Offset input) (in_Limit input));
    _ ← observeContent resolved sha;
    mret output.

End read.

(** ** Windows *)

(** Reading on from [NextOffset] until the file ends. *)
Fixpoint readPages (fuel : nat) (bound : Z) (resolved : path) (content sha : bytes)
    (offset limit : Z) : outcome (list bytes) :=
  match fuel with
  | O => OutOfFuel
  | S fuel' =>
      out ← buildReadWindow bound resolved content sha offset limit;
      if NextOffset out =? 0 then Ok [Content out]
      else
        rest ← readPages fuel' bound resolved content sha (NextOffset out) limit;
        Ok (Content out :: rest)
  end.

Lemma resolveReadLimit_range bound limit :
  0 < bound → 0 < resolveReadLimit bound limit ≤ bound.
Proof.
  unfold resolveReadLimit. intros.
  destruct (Z.leb_spec limit 0); simpl; [lia|]. destruct (Z.ltb_spec bound limit); lia.
Qed.

Lemma join_app_sep sep l k : l ≠ [] → k ≠ [] → join sep (l ++ k) = join sep l ++ sep ++ join sep k.
Proof.
  intros Hl Hk. induction l as [|x l IH]; [done|]. destruct (decide (l = [])) as [->|Hne].
  - simpl. destruct k; [done|]. done.
  - rewrite <- app_comm_cons, !join_cons by (by destruct l). rewrite IH by done.
    by rewrite <- !app_assoc.
Qed.

(** The bytes after the last line. *)
Definition finalNewline (content : bytes) : bytes :=
  if has_suffix [NL] content then [NL] else [].

Lemma join_splitLines content : join [NL] (splitLines content) ++ finalNewline content = content.
Proof.
  destruct content as [|a content]; [done|]. unfold splitLines.
  rewrite join_split_byte. unfold finalNewline, trim_suffix.
  destruct (has_suffix [NL] (a :: content)) eqn:E; [|by rewrite app_nil_r].
  apply has_suffix_spec in E as [k ->]. rewrite length_app. simpl.
  replace (length k + 1 - 1)%nat with (length k) by lia. by rewrite take_app_length.
Qed.

Lemma count_byte_free c l : c ∉ l → count_byte c l = 0%nat.
Proof.
  induction l as [|a l IH]; intros Hl; simpl; [done|].
  rewrite decide_False by set_solver. rewrite IH; set_solver.
Qed.

Lemma count_byte_join c ls :
  Forall (λ l, c ∉ l) ls → count_byte c (join [c] ls) = pred (length ls).
Proof.
  induction 1 as [|l ls Hl Hls IH]; [done|]. destruct (decide (ls = [])) as [->|Hne].
  - simpl. by apply count_byte_free.
  - rewrite join_cons, !count_byte_app, IH by done. simpl.
    rewrite decide_True, count_byte_free by done. destruct ls; [done|]. simpl. lia.
Qed.

Lemma splitLines_free content : Forall (λ l, NL ∉ l) (splitLines content).
Proof. unfold splitLines. destruct content; [constructor|apply split_byte_sep_free]. Qed.

Lemma count_finalNewline content : (count_byte NL (finalNewline content) ≤ 1)%nat.
Proof. unfold finalNewline. destruct (has_suffix _ _); vm_compute; lia. Qed.

(** What one window holds, for an offset inside the file. *)
Lemma buildReadWindow_inside bound resolved content sha offset limit :
  let n := Z.of_nat (length (splitLines content)) in
  0 < bound → n + bound ≤ max_int64 → 1 ≤ offset ≤ n →
  ∃ k : nat,
    let rest := drop (Z.to_nat (offset - 1)) (splitLines content) in
    (0 < k)%nat ∧ Z.of_nat k ≤ resolveReadLimit bound limit ∧
    ((offset - 1 + Z.of_nat k < n ∧
      buildReadWindow bound resolved content sha offset limit =
        Ok (mkOutput resolved (join [NL] (take k rest)) offset (offset - 1 + Z.of_nat k) n
             (offset + Z.of_nat k) true sha)) ∨
     (offset - 1 + Z.of_nat k = n ∧
      buildReadWindow bound resolved content sha offset limit =
        Ok (mkOutput resolved (join [NL] rest ++ finalNewline content) offset n n 0 false sha))).
Proof.
  intros n Hb Hn Ho. pose proof (resolveReadLimit_range bound limit Hb) as Hl.
  unfold buildReadWindow. fold n. unfold normalizeOffset.
  rewrite (proj2 (Z.leb_gt offset 0)) by lia. rewrite (proj2 (Z.ltb_ge n offset)) by lia.
  set (lim := resolveReadLimit bound limit) in *.
  rewrite !wrap64_id by (unfold max_int64, min_int64 in *; rewrite ?wrap64_id; unfold max_int64, min_int64; lia).
  set (lastLine := Z.min (offset + lim - 1) n).
  exists (Z.to_nat (lastLine - offset + 1)). split; [lia|]. split; [lia|].
  rewrite slice_ok by lia. cbn [mbind outcome_bind].
  destruct (Z.ltb_spec lastLine n) as [Hlt|Hge]; [left|right]; (split; [lia|]); simpl.
  - do 2 f_equal; [|lia..]. do 2 f_equal. lia.
  - assert (lastLine = n) as E by lia. rewrite E. f_equal.
    rewrite take_ge by (rewrite length_drop; lia). unfold finalNewline.
    destruct (has_suffix _ _); [done|by rewrite app_nil_r].
Qed.

(** Reading from an offset inside the file gives its remaining lines. *)
Lemma readPages_from fuel bound resolved content sha offset limit :
  let n := Z.of_nat (length (splitLines content)) in
  0 < bound → n + bound ≤ max_int64 → 1 ≤ offset ≤ n → n - offset < Z.of_nat fuel →
  ∃ pages, readPages fuel bound resolved content sha offset limit = Ok pages ∧ pages ≠ [] ∧
    Forall (λ p, Z.of_nat (count_byte NL p) ≤ resolveReadLimit bound limit) pages ∧
    join [NL] pages =
      join [NL] (drop (Z.to_nat (offset - 1)) (splitLines content)) ++ finalNewline content.
Proof.
  intros n Hb Hn. revert offset. induction fuel as [|fuel IH]; intros offset Ho Hf; [lia|].
  cbn [readPages].
  destruct (buildReadWindow_inside bound resolved content sha offset limit Hb Hn Ho)
    as (k & Hk & Hkl & [[Hlt ->]|[Heq ->]]); cbn [mbind outcome_bind mkOutput NextOffset Content].
  - rewrite (proj2 (Z.eqb_neq _ 0)) by lia.
    destruct (IH (offset + Z.of_nat k)) as (pages & -> & Hne & Hall & Hj); [lia..|].
    cbn [mbind outcome_bind]. eexists. split; [done|]. split; [done|].
    set (rest := drop (Z.to_nat (offset - 1)) (splitLines content)).
    assert (k < length rest)%nat by (unfold rest; rewrite length_drop; lia).
    split.
    { constructor; [|done]. rewrite count_byte_join by apply Forall_take, Forall_drop, splitLines_free.
      rewrite length_take. lia. }
    rewrite join_cons, Hj by done.
    replace (Z.to_nat (offset + Z.of_nat k - 1)) with (Z.to_nat (offset - 1) + k)%nat by lia.
    rewrite <- drop_drop. fold rest.
    rewrite <- (take_drop k rest) at 3. rewrite join_app_sep.
    + by rewrite <- !app_assoc.
    + intros E. apply (f_equal length) in E. rewrite length_take in E. simpl in E. lia.
    + intros E. apply (f_equal length) in E. rewrite length_drop in E. simpl in E. lia.
  - rewrite Z.eqb_refl. eexists. split; [done|]. split; [done|]. split; [|done].
    constructor; [|done]. pose proof (count_finalNewline content).
    rewrite count_byte_app, count_byte_join by apply Forall_drop, splitLines_free.
    rewrite length_drop. lia.
Qed.

(** ** Theorems *)

(** Paging.  Following [NextOffset] from the start of a file ends after at
    most one window per line, every window is within the line limit, and the
    windows joined by newlines are the file. *)
Theorem readPages_reconstruct bound resolved content sha limit :
  let n := length (splitLines content) in
  0 < bound → Z.of_nat n + bound ≤ max_int64 →
  ∃ pages, readPages (S n) bound resolved content sha 0 limit = Ok pages ∧
    Forall (λ p, Z.of_nat (count_byte NL p) ≤ resolveReadLimit bound limit) pages ∧
    join [NL] pages = content.
Proof.
  intros n Hb Hn. destruct content as [|a content].
  { eexists. split; [reflexivity|]. split; [|done]. repeat constructor.
    pose proof (resolveReadLimit_range bound limit Hb). simpl. lia. }
  assert (0 < n)%nat as Hpos by (pose proof (splitLines_ne (a :: content)); naive_solver lia).
  replace (readPages (S n) bound resolved (a :: content) sha 0 limit)
    with (readPages (S n) bound resolved (a :: content) sha 1 limit) by done.
  destruct (readPages_from (S n) bound resolved (a :: content) sha 1 limit)
    as (pages & Hp & _ & Hall & Hj); [lia..|].
  exists pages. split_and!; [done|done|]. rewrite Hj. apply join_splitLines.
Qed.

Lemma readPages_reconstruct_witness :
  readPages 4 2 [] (bs "a" ++ [NL] ++ bs "b" ++ [NL] ++ bs "c" ++ [NL]) [] 0 0 =
    Ok [bs "a" ++ [NL] ++ bs "b"; bs "c" ++ [NL]] ∧
  ∃ pages, join [NL] pages = bs "a" ++ [NL] ++ bs "b" ++ [NL] ++ bs "c" ++ [NL].
Proof.
  split; [reflexivity|].
  destruct (readPages_reconstruct 2 [] (bs "a" ++ [NL] ++ bs "b" ++ [NL] ++ bs "c" ++ [NL]) [] 0)
    as (pages & _ & _ & H); [reflexivity|discriminate|]. by exists pages.
Defined.

(** Two limits that [ValidateLimits] accepts break reading.  With the line limit
    at the largest [int], a window that starts after the first line panics; with a
    byte limit there, every file reads as empty, because the limit plus one wraps
    around. *)
Theorem limits_at_int_max_break_reads :
  (∃ l, Limits.ValidateLimits l = Ok tt ∧ Limits.MaxReadLines l = max_int64 ∧
     Limits.MaxWriteBytes l = max_int64) ∧
  (∀ resolved content sha, (2 ≤ length (splitLines content))%nat →
     buildReadWindow max_int64 resolved content sha 2 0 = Panic) ∧
  (∀ W (fs : FS W) (w : W) p f info,
     fs_Open w p = inr f → file_stat f = inr info → info_kind info = Regular →
     info_size info ≤ max_int64 → file_close f = None →
     readRegularFile p max_int64 w = Ok ([], info_perm info)).
Proof.
  split_and!.
  - exists (Limits.mkLimits 0 0 0 0 0 max_int64 max_int64 0 0 0 0 0 0 0 0 0 0 0 0 0 0 0 0 0).
    vm_compute. done.
  - intros resolved content sha Hl. unfold buildReadWindow. change (normalizeOffset 2) with 2.
    rewrite (proj2 (Z.ltb_ge _ _)) by lia. change (resolveReadLimit max_int64 0) with max_int64.
    change (wrap64 (wrap64 (2 + max_int64) - 1)) with min_int64.
    rewrite Z.min_l by (unfold min_int64; lia). unfold slice.
    rewrite bool_decide_eq_false_2 by (unfold min_int64; lia). done.
  - intros W fs w p f info Ho Hs Hk Hz Hc. unfold readRegularFile. rewrite Ho. simpl.
    rewrite Hs. simpl. rewrite bool_decide_eq_true_2 by done.
    rewrite (proj2 (Z.ltb_ge _ _)) by lia. simpl.
    change (wrap64 (max_int64 + 1)) with min_int64. unfold readAllLimited.
    rewrite (proj2 (Z.leb_le _ _)) by (unfold min_int64; lia). simpl. by rewrite Hc.
Qed.

(** ** Reading records what was read *)

Lemma buildReadWindow_sha bound resolved content sha offset limit out :
  buildReadWindow bound resolved content sha offset limit = Ok out → SHA256 out = sha.
Proof.
  unfold buildReadWindow. destruct (_ <? normalizeOffset offset); [by intros [= <-]|].
  intros Hw. apply bind_Ok_inv in Hw as (w & _ & Hw). by injection Hw as <-.
Qed.

Section observes.
Context {W : Type} `{FS W, HostOS W}.
Variable Sum256 : bytes → bytes.
Variable DetectContentType : bytes → bytes.
Variable pdfReader : bytes → option (sentinel + list (sentinel + bytes)).
Variable cfg : config.
Implicit Types (s : state W).

(** What a successful read established. *)
Definition has_read (raw : bytes) (sha : bytes) s s' : Prop :=
  world s' = world s ∧
  ∃ p maximum content mode, resolvePath cfg raw = Ok p ∧
    readRegularFile p maximum (world s) = Ok (content, mode) ∧
    sha = hashBytes Sum256 content ∧
    requireObservedContent Sum256 p content s' = Ok tt.

(** A successful read of a text, an image or a PDF changes no file and leaves
    the whole file's content hash in the ledger, so that the tools that require the
    content to have been read accept the file until it changes. *)
Theorem ReadFile_observes ctxErr input s s' out :
  ReadFile Sum256 DetectContentType pdfReader cfg ctxErr input s = (s', Ok out) →
  has_read (in_Path input) (SHA256 out) s s'.
Proof.
  unfold ReadFile. intros Hr. do 2 pass_ok Hr. unfold has_read.
  destruct (negb (bool_decide (imageMediaTypeForPath a0 = []))); [|destruct (isPDFPath a0)].
  - unfold readImageFile in Hr. pass_ok Hr. destruct a1 as [content mode]. pass_ok Hr.
    apply bind_Ok in Hr as (s1 & u & Ho & Hr). injection Hr as <- <-.
    apply observeContent_required in Ho as [? ?]. split; [done|].
    by exists a0, (Limits.MaxImageBytes (limits cfg)), content, mode.
  - unfold readPDFFile in Hr. pass_ok Hr. destruct a1 as [content mode]. do 2 pass_ok Hr.
    destruct a1 as [text pages]. pass_ok Hr.
    apply bind_Ok in Hr as (s1 & u & Ho & Hr). injection Hr as <- <-.
    apply observeContent_required in Ho as [? ?]. split; [done|].
    exists a0, (Limits.MaxPDFBytes (limits cfg)), content, mode. split_and!; try done.
    cbn [SHA256]. by eapply buildReadWindow_sha.
  - pass_ok Hr. destruct a1 as [content mode]. do 2 pass_ok Hr.
    apply bind_Ok in Hr as (s1 & u & Ho & Hr). injection Hr as <- <-.
    apply observeContent_required in Ho as [? ?]. split; [done|].
    exists a0, (Limits.MaxReadBytes (limits cfg)), content, mode. split_and!; try done.
    by eapply buildReadWindow_sha.
Qed.

End observes.

Lemma ReadFile_observes_witness :
  let sum := λ content : bytes, replicate 32 (byte_of (length content)) in
  let s := mkState (W := gmap path (bytes * Z)) {[bs "/w/a" := (bs "text", 420)]} (mkLedger ∅ 0) in
  let r := ReadFile sum (λ _, []) (λ _, None) Files.sample_host None (mkInput (bs "a") 0 0) s in
  has_read sum Files.sample_host (bs "a") (hashBytes sum (bs "text")) s r.1.
Proof.
  intros sum s r. assert (is_ok r.2 = true) as Hok by (vm_compute; reflexivity).
  assert (match r.2 with Ok out => SHA256 out | _ => [] end = hashBytes sum (bs "text")) as Hsha
    by (vm_compute; reflexivity).
  destruct r as [s' [out|e| |]] eqn:E; try discriminate Hok. simpl in Hsha. rewrite <- Hsha.
  exact (ReadFile_observes sum (λ _, []) (λ _, None) Files.sample_host None
    (mkInput (bs "a") 0 0) s s' out E).
Defined.

End ReadFile.
