(* ===== verification/WalkDir.v ===== *)
(** Walking a directory tree in lexical order without following links
    ([WalkDir] of src/internal/pkg/workspacefs/fs.go) and the entry count that
    bounds a recursive removal (src/internal/pkg/tools/remove.go). *)
From stdpp Require Import base gmap sets list strings sorting.
From Stdlib Require Import ZArith Lia Ascii.
From S2P Require Import Prelude GoBytes GoPath Workspace.
Import Workspace.

Module WalkDir.

(** What a visit returns besides nil. *)
Inductive signal := SkipDir | SkipAll | Failed (e : sentinel).

(** [fs.WalkDirFunc], threading the state of its closure. *)
Definition visitor (S : Type) : Type :=
  path → option fileKind → option sentinel → S → S * option signal.

Definition name_le (a c : dirEntry) : Prop := bytes_leb (entry_name a) (entry_name c) = true.
#[export] Instance name_le_dec a c : Decision (name_le a c).
Proof. unfold name_le. apply _. Defined.

Section walk.
Context {W : Type} `{FS W} {S : Type}.
Variable visit : visitor S.
Implicit Types (w : W) (st : S).

(** The loop over the children: a child that returns [SkipDir] ends its parent. *)
Fixpoint walkChildren (walkChild : dirEntry → S → outcome (S * option signal))
    (entries : list dirEntry) (st : S) : outcome (S * option signal) :=
  match entries with
  | [] => Ok (st, None)
  | child :: rest =>
      '(st, r) ← walkChild child st;
      match r with
      | None => walkChildren walkChild rest st
      | Some SkipDir => Ok (st, None)
      | Some e => Ok (st, Some e)
      end
  end.

Fixpoint walk (fuel : nat) w (name : path) (kind : fileKind) (st : S)
    : outcome (S * option signal) :=
  match fuel with
  | O => OutOfFuel
  | Datatypes.S fuel' =>
      let '(st, r) := visit name (Some kind) None st in
      match r with
      | Some SkipDir =>
          Ok (st, if bool_decide (kind = Directory) then None else Some SkipDir)
      | Some e => Ok (st, Some e)
      | None =>
          if negb (bool_decide (kind = Directory)) then Ok (st, None)
          else match fs_ReadDir w name with
               | inl e => Ok (visit name (Some kind) (Some e) st)
               | inr entries =>
                   walkChildren
                     (λ child, walk fuel' w (join_path name (entry_name child)) (entry_kind child))
                     (merge_sort name_le entries) st
               end
      end
  end.

Definition WalkDir (fuel : nat) w (root : path) (st : S) : outcome (S * option signal) :=
  match fs_Lstat w root with
  | inl e => Ok (visit root None (Some e) st)
  | inr info =>
      '(st, r) ← walk fuel w root (info_kind info) st;
      Ok (st, match r with Some SkipDir | Some SkipAll => None | r => r end)
  end.

End walk.

(** The closure of [countTreeEntries]. *)
Definition countVisit : visitor nat := λ _ _ err n,
  match err with Some e => (n, Some (Failed e)) | None => (S n, None) end.

Definition countTreeEntries {W} `{FS W} (fuel : nat) (root : path) (w : W) : outcome nat :=
  '(n, r) ← WalkDir countVisit fuel w root 0;
  match r with
  | None => Ok n
  | Some (Failed e) => Err (wrapPathError e)
  | Some _ => Err ErrOther
  end.

(** ** The count *)

Section count.
Context {W : Type} `{FS W}.
Variable w : W.

(** [nodes d p k ps]: [ps] lists [p] and all that is below it, and no node is more
    than [d] levels down. *)
Inductive nodes : nat → path → fileKind → list path → Prop :=
  | nodes_leaf d p k : k ≠ Directory → nodes (S d) p k [p]
  | nodes_dir d p entries below :
      fs_ReadDir w p = inr entries →
      Forall2 (λ child ps, nodes d (join_path p (entry_name child)) (entry_kind child) ps)
        entries below →
      nodes (S d) p Directory (p :: concat below).

Lemma walkChildren_count f entries sizes n :
  Forall2 (λ child size, ∀ m, f child m = Ok (m + size, None)) entries sizes →
  walkChildren f entries n = Ok (n + sum_list sizes, None).
Proof.
  intros Hf. revert n. induction Hf as [|child size entries sizes Hc _ IH]; intros n; simpl.
  - do 2 f_equal. lia.
  - rewrite Hc. simpl. rewrite IH. do 2 f_equal. lia.
Qed.

Lemma walk_count d p k ps n :
  nodes d p k ps → walk countVisit d w p k n = Ok (n + length ps, None).
Proof.
  revert p k ps n. induction d as [|d IH]; intros p k ps n Hn; inversion Hn; subst.
  - simpl. rewrite bool_decide_eq_false_2 by done. simpl. do 2 f_equal. lia.
  - simpl. match goal with E : fs_ReadDir w p = _ |- _ => rewrite E end.
    match goal with Hb : Forall2 _ _ _ |- _ => rename Hb into Hbelow end.
    assert (Forall2 (λ child size, ∀ m, walk countVisit d w (join_path p (entry_name child))
      (entry_kind child) m = Ok (m + size, None)) entries (length <$> below)) as Hs.
    { apply Forall2_fmap_r. eapply Forall2_impl; [exact Hbelow|]. intros x y Hxy m. by apply IH. }
    destruct (Permutation_Forall2 (symmetry (merge_sort_Permutation name_le entries)) Hs)
      as (sizes & Hp & Hs').
    rewrite (walkChildren_count _ _ _ _ Hs'). do 2 f_equal.
    assert (length (concat below) = sum_list (length <$> below)) as ->.
    { clear. induction below; simpl; rewrite ?length_app; unfold fmap in *; lia. }
    rewrite Hp. lia.
Qed.

(** The count is that of every node, the root included, once the tree is no
    deeper than the fuel. *)
Lemma countTreeEntries_nodes d p info ps :
  fs_Lstat w p = inr info → nodes d p (info_kind info) ps →
  countTreeEntries d p w = Ok (length ps).
Proof.
  intros Hl Hn. unfold countTreeEntries, WalkDir. rewrite Hl, (walk_count _ _ _ _ 0 Hn). done.
Qed.

End count.
End WalkDir.
