(* ===== verification/Mutations.v ===== *)
(** The tools that change one path: write, edit, move and remove
    (src/internal/pkg/tools/write.go, edit.go, move.go and remove.go). *)
From stdpp Require Import base gmap sets list strings.
From Stdlib Require Import ZArith Lia Ascii.
From S2P Require Import Prelude GoBytes GoPath Limits Diff EditFile Workspace Files WalkDir.
Import Workspace EditFile WalkDir.
Import (hints) Diff Files.

Module Mutations.
Local Open Scope Z_scope.

Definition newFileMode : Z := 420.       (* 0o644 *)
Definition newDirectoryMode : Z := 493.  (* 0o755 *)

Record WriteFileInput := mkWriteIn { w_Path : bytes; w_Content : bytes; w_Expected : bytes }.
Record WriteFileOutput := mkWriteOut {
  wo_Path : path; wo_Created : bool; wo_Bytes : Z; wo_SHA256 : bytes
}.
Record EditFileInput := mkEditIn { e_Path : bytes; e_Edits : list TextEdit }.
Record EditFileOutput := mkEditOut {
  eo_Path : path; eo_Diff : bytes; eo_Truncated : bool; eo_Applied : Z; eo_SHA256 : bytes
}.
Record MovePathInput := mkMoveIn { mv_Source : bytes; mv_Destination : bytes }.
Record MovePathOutput := mkMoveOut { mo_Source : path; mo_Destination : path }.
Record RemovePathInput := mkRemoveIn {
  rm_Path : bytes; rm_Recursive : bool; rm_Expected : bytes
}.
Record RemovePathOutput := mkRemoveOut { ro_Path : path; ro_Removed : Z }.

Definition blank (s : bytes) : bool := bool_decide (trim_space s = []).

Section tools.
Context {W : Type} `{FS W, HostOS W}.
Variable Sum256 : bytes → bytes.
Variable cfg : config.
(** A bound on the depth of the tree a recursive removal walks. *)
Variable treeDepth : nat.

Local Abbreviation hash := (hashBytes Sum256).
Local Abbreviation MaxWriteBytes := (Limits.MaxWriteBytes (limits cfg)).

(** The context check at the start of every tool. *)
Definition checkContext (ctxErr : option sentinel) : exec W unit :=
  inspect (λ _, match ctxErr with Some e => Err e | None => Ok tt end).

Definition resolve (raw : bytes) : exec W path := inspect (λ _, resolvePath cfg raw).

Definition readFile (p : path) (maximum : Z) : exec W (bytes * Z) :=
  inspect (λ s, readRegularFile p maximum (world s)).

Definition requireContent (p : path) (content : bytes) : exec W unit :=
  inspect (requireObservedContent Sum256 p content).

(** ** write.go *)

Definition finishWrite (p : path) (content : bytes) (created : bool) : exec W WriteFileOutput :=
  let newHash := hash content in
  _ ← observeContent p newHash;
  mret (mkWriteOut p created (Z.of_nat (length content)) newHash).

Definition createFile (p : path) (input : WriteFileInput) (content : bytes)
    : exec W WriteFileOutput :=
  _ ← refuse (negb (bool_decide (w_Expected input = []))) ErrValidationFailed;
  _ ← mutate wrapPathError (fs_MkdirAll (dir p) newDirectoryMode);
  _ ← writeNewFileAtomic cfg p content newFileMode;
  finishWrite p content true.

Definition replaceFile (p : path) (input : WriteFileInput) (content : bytes)
    : exec W WriteFileOutput :=
  _ ← refuse (bool_decide (w_Expected input = [])) ErrHashRequired;
  '(current, mode) ← readFile p MaxWriteBytes;
  _ ← requireContent p current;
  _ ← refuse (negb (bool_decide (hash current = w_Expected input))) ErrStaleHash;
  _ ← writeFileAtomic cfg p content mode;
  finishWrite p content false.

Definition writeFileLocked (p : path) (input : WriteFileInput) (content : bytes)
    : exec W WriteFileOutput :=
  info ← inspect (λ s, Ok (fs_Stat (world s) p));
  match info with
  | inl e =>
      if bool_decide (e = FsNotExist) then createFile p input content
      else fail (wrapPathError e)
  | inr info =>
      _ ← refuse (negb (bool_decide (info_kind info = Regular))) ErrNotRegularFile;
      replaceFile p input content
  end.

Definition WriteFile (ctxErr : option sentinel) (input : WriteFileInput)
    : exec W WriteFileOutput :=
  _ ← checkContext ctxErr;
  _ ← refuse (blank (w_Path input)) ErrValidationFailed;
  let content := w_Content input in
  _ ← refuse (MaxWriteBytes <? Z.of_nat (length content)) ErrLimitExceeded;
  p ← resolve (w_Path input);
  writeFileLocked p input content.

(** ** edit.go *)

Definition resolveEditPath (raw : bytes) : exec W path :=
  _ ← refuse (blank raw) ErrValidationFailed;
  resolve raw.

Definition applyEditsLocked (p : path) (edits : list TextEdit) : exec W EditFileOutput :=
  '(content, mode) ← readFile p MaxWriteBytes;
  _ ← refuse (isBinary content) ErrBinaryContent;
  _ ← requireContent p content;
  '(rewritten, replacements) ← inspect (λ _, rewriteContent content edits);
  '(diff, truncated) ← inspect (λ _,
    Diff.unifiedDiff p content rewritten replacements (Limits.MaxDiffBytes (limits cfg)));
  _ ← writeFileAtomic cfg p rewritten mode;
  let newHash := hash rewritten in
  _ ← observeContent p newHash;
  mret (mkEditOut p diff truncated (Z.of_nat (length edits)) newHash).

Definition EditFile (ctxErr : option sentinel) (input : EditFileInput) : exec W EditFileOutput :=
  _ ← checkContext ctxErr;
  p ← resolveEditPath (e_Path input);
  _ ← inspect (λ _, validateEdits (e_Edits input) (Limits.MaxEdits (limits cfg)));
  applyEditsLocked p (e_Edits input).

(** ** move.go *)

(** The content hash of a regular source, empty for any other. *)
Definition requireMoveObservation (source : path) (info : fileInfo) : exec W bytes :=
  if negb (bool_decide (info_kind info = Regular)) then
    _ ← inspect (requireObserved source);
    mret []
  else
    '(content, _) ← readFile source MaxWriteBytes;
    _ ← requireContent source content;
    mret (hash content).

Definition checkDestinationFree (destination : path) : exec W unit :=
  inspect (λ s,
    match fs_Lstat (world s) destination with
    | inr _ => Err ErrAlreadyExists
    | inl e => if bool_decide (e = FsNotExist) then Ok tt else Err (wrapPathError e)
    end).

Definition movePathLocked (source destination : path) : exec W MovePathOutput :=
  info ← inspect (λ s, lookup_result wrapPathError (fs_Lstat (world s) source));
  contentHash ← requireMoveObservation source info;
  _ ← checkDestinationFree destination;
  _ ← mutate wrapPathError (fs_MkdirAll (dir destination) newDirectoryMode);
  _ ← mutate wrapPathError (fs_RenameNoReplace source destination);
  _ ← (if negb (bool_decide (contentHash = [])) then observeContent destination contentHash
       else observe destination);
  mret (mkMoveOut source destination).

Definition MovePath (ctxErr : option sentinel) (input : MovePathInput) : exec W MovePathOutput :=
  _ ← checkContext ctxErr;
  _ ← refuse (blank (mv_Source input) || blank (mv_Destination input)) ErrValidationFailed;
  source ← resolve (mv_Source input);
  destination ← resolve (mv_Destination input);
  movePathLocked source destination.

(** ** remove.go *)

Definition removedOne : Z := 1.
Definition rootPath : path := bs "/".

Definition removeFile (p : path) (input : RemovePathInput) : exec W RemovePathOutput :=
  _ ← refuse (bool_decide (rm_Expected input = [])) ErrHashRequired;
  '(content, _) ← readFile p MaxWriteBytes;
  _ ← requireContent p content;
  _ ← refuse (negb (bool_decide (hash content = rm_Expected input))) ErrStaleHash;
  _ ← mutate wrapPathError (fs_Remove p);
  mret (mkRemoveOut p removedOne).

Definition removeLink (p : path) : exec W RemovePathOutput :=
  _ ← mutate wrapPathError (fs_Remove p);
  mret (mkRemoveOut p removedOne).

Definition removeEmptyDirectory (p : path) : exec W RemovePathOutput :=
  entries ← inspect (λ s, lookup_result wrapPathError (fs_ReadDir (world s) p));
  _ ← refuse (bool_decide (entries ≠ [])) ErrDirectoryNotEmpty;
  _ ← mutate wrapPathError (fs_Remove p);
  mret (mkRemoveOut p removedOne).

Definition removeDirectoryTree (p : path) : exec W RemovePathOutput :=
  total ← inspect (λ s, countTreeEntries treeDepth p (world s));
  _ ← refuse (Limits.MaxRemoveEntries (limits cfg) <? Z.of_nat total) ErrLimitExceeded;
  _ ← mutate wrapPathError (fs_RemoveAll p);
  mret (mkRemoveOut p (Z.of_nat total)).

Definition removeDirectory (p : path) (input : RemovePathInput) : exec W RemovePathOutput :=
  _ ← refuse (negb (bool_decide (rm_Expected input = []))) ErrValidationFailed;
  if negb (rm_Recursive input) then removeEmptyDirectory p else removeDirectoryTree p.

Definition removePathLocked (p : path) (input : RemovePathInput) : exec W RemovePathOutput :=
  info ← inspect (λ s, lookup_result wrapPathError (fs_Lstat (world s) p));
  _ ← inspect (requireObserved p);
  match info_kind info with
  | Directory => removeDirectory p input
  | Regular => removeFile p input
  | Symlink | OtherNode => removeLink p
  end.

Definition RemovePath (ctxErr : option sentinel) (input : RemovePathInput)
    : exec W RemovePathOutput :=
  _ ← checkContext ctxErr;
  _ ← refuse (blank (rm_Path input)) ErrValidationFailed;
  p ← resolve (rm_Path input);
  _ ← refuse (bool_decide (p = workspace cfg) || bool_decide (p = protectedDirectory cfg) ||
              bool_decide (p = rootPath)) ErrValidationFailed;
  removePathLocked p input.

End tools.

(** ** Guards *)

Section guarded.
Context {W : Type} `{FS W, HostOS W}.
Variable Sum256 : bytes → bytes.
Variable cfg : config.
Variable treeDepth : nat.
Implicit Types (s : state W).

Local Abbreviation hash := (hashBytes Sum256).
Local Abbreviation MaxWriteBytes := (Limits.MaxWriteBytes (limits cfg)).

Inductive tool :=
  | Write (input : WriteFileInput)
  | Edit (input : EditFileInput)
  | Move (input : MovePathInput)
  | Remove (input : RemovePathInput).

(** One tool call, its output dropped. *)
Definition runTool (ctxErr : option sentinel) (t : tool) : exec W unit :=
  match t with
  | Write input => _ ← WriteFile Sum256 cfg ctxErr input; mret tt
  | Edit input => _ ← EditFile Sum256 cfg ctxErr input; mret tt
  | Move input => _ ← MovePath Sum256 cfg ctxErr input; mret tt
  | Remove input => _ ← RemovePath Sum256 cfg treeDepth ctxErr input; mret tt
  end.

(** The turn has read what the file holds now. *)
Definition read_now s (p : path) (content : bytes) (mode : Z) : Prop :=
  readRegularFile p MaxWriteBytes (world s) = Ok (content, mode) ∧
  requireObservedContent Sum256 p content s = Ok tt.

(** When a tool may change the filesystem. *)
Definition justified (t : tool) s : Prop :=
  match t with
  | Write input =>
      ∃ p, resolvePath cfg (w_Path input) = Ok p ∧
        Z.of_nat (length (w_Content input)) ≤ MaxWriteBytes ∧
        ((fs_Stat (world s) p = inl FsNotExist ∧ w_Expected input = []) ∨
         (∃ content mode, read_now s p content mode ∧ hash content = w_Expected input))
  | Edit input =>
      ∃ p content mode r, resolvePath cfg (e_Path input) = Ok p ∧ read_now s p content mode ∧
        isBinary content = false ∧ rewriteContent content (e_Edits input) = Ok r
  | Move input =>
      ∃ source destination info,
        resolvePath cfg (mv_Source input) = Ok source ∧
        resolvePath cfg (mv_Destination input) = Ok destination ∧
        fs_Lstat (world s) source = inr info ∧
        fs_Lstat (world s) destination = inl FsNotExist ∧
        if bool_decide (info_kind info = Regular)
        then ∃ content mode, read_now s source content mode
        else Observed source s = true
  | Remove input =>
      ∃ p info, resolvePath cfg (rm_Path input) = Ok p ∧
        p ≠ workspace cfg ∧ p ≠ protectedDirectory cfg ∧ p ≠ rootPath ∧
        fs_Lstat (world s) p = inr info ∧ Observed p s = true ∧
        match info_kind info with
        | Regular =>
            ∃ content mode, read_now s p content mode ∧ hash content = rm_Expected input
        | Directory =>
            rm_Expected input = [] ∧
            if rm_Recursive input
            then ∃ n, countTreeEntries treeDepth p (world s) = Ok n ∧
                   Z.of_nat n ≤ Limits.MaxRemoveEntries (limits cfg)
            else fs_ReadDir (world s) p = inr []
        | Symlink | OtherNode => True
        end
  end.

Lemma lookup_result_Ok {A} wrap (r : sentinel + A) a : lookup_result wrap r = Ok a → r = inr a.
Proof. destruct r; simpl; congruence. Qed.

Lemma requireObserved_Ok p s u : requireObserved p s = Ok u → Observed p s = true.
Proof. unfold requireObserved. by destruct (Observed p s). Qed.

Lemma destination_absent {A} (r : sentinel + A) u :
  match r with
  | inr _ => Err ErrAlreadyExists
  | inl e => if bool_decide (e = FsNotExist) then Ok tt else Err (wrapPathError e)
  end = Ok u → r = inl FsNotExist.
Proof. destruct r; [|done]. by case_bool_decide; subst. Qed.

(** The justification of a write: nothing is created or replaced blindly. *)
Lemma write_guarded ctxErr input s : changes (runTool ctxErr (Write input)) s → justified (Write input) s.
Proof.
  intros Hc. unfold runTool, WriteFile, checkContext, resolve in Hc. do 4 pass Hc.
  exists a0. split; [done|]. read_guards. split; [lia|].
  unfold writeFileLocked in Hc. pass Hc. simplify_eq.
  destruct (fs_Stat (world s) a0) as [e|info] eqn:Es.
  - case_bool_decide; [|unfold fail in Hc; by pass Hc].
    subst e. left. split; [done|]. unfold createFile in Hc. pass Hc. by read_guards.
  - right. pass Hc. unfold replaceFile, readFile, requireContent in Hc. do 2 pass Hc.
    destruct a1 as [content mode]. do 2 pass Hc. read_guards. exists content, mode.
    split; [split; [done|by destruct a1]|done].
Qed.

Lemma edit_guarded ctxErr input s : changes (runTool ctxErr (Edit input)) s → justified (Edit input) s.
Proof.
  intros Hc. unfold runTool, EditFile, checkContext, resolveEditPath, resolve in Hc. do 4 pass Hc.
  unfold applyEditsLocked, readFile, requireContent in Hc. pass Hc. destruct a2 as [content mode].
  do 2 pass Hc. pass Hc. read_guards. exists a0, content, mode, a3.
  split; [done|]. split; [split; [done|by destruct a2]|]. done.
Qed.

Lemma move_guarded ctxErr input s : changes (runTool ctxErr (Move input)) s → justified (Move input) s.
Proof.
  intros Hc. unfold runTool, MovePath, checkContext, resolve in Hc. do 4 pass Hc.
  unfold movePathLocked in Hc. pass Hc. exists a0, a1, a2. do 2 (split; [done|]).
  split; [by eapply lookup_result_Ok|].
  unfold requireMoveObservation, checkDestinationFree in Hc. case_bool_decide as Hr; simpl in Hc.
  - unfold readFile, requireContent in Hc. pass Hc. destruct a3 as [content mode].
    do 2 pass Hc. pass Hc. split; [by eapply destination_absent|].
    exists content, mode. split; [done|by destruct a3].
  - do 2 pass Hc. pass Hc. split; [by eapply destination_absent|]. by eapply requireObserved_Ok.
Qed.

Lemma remove_guarded ctxErr input s :
  changes (runTool ctxErr (Remove input)) s → justified (Remove input) s.
Proof.
  intros Hc. unfold runTool, RemovePath, checkContext, resolve in Hc. do 4 pass Hc.
  unfold removePathLocked in Hc. do 2 pass Hc. read_guards. exists a0, a1.
  do 4 (split; [done|]). split; [by eapply lookup_result_Ok|].
  split; [by eapply requireObserved_Ok|]. destruct (info_kind a1); try done.
  - unfold removeFile, readFile, requireContent in Hc. do 2 pass Hc.
    destruct a3 as [content mode]. do 2 pass Hc. read_guards.
    exists content, mode. split; [split; [done|by destruct a3]|done].
  - unfold removeDirectory in Hc. pass Hc. read_guards. split; [done|].
    destruct (rm_Recursive input); simpl in Hc.
    + unfold removeDirectoryTree in Hc. do 2 pass Hc. read_guards. eauto.
    + unfold removeEmptyDirectory in Hc. do 2 pass Hc. read_guards.
      assert (a3 = []) as -> by (by apply dec_stable). by eapply lookup_result_Ok.
Qed.

(** C3: no blind mutation.  A write, edit, move or removal that changes the
    filesystem was justified in the state it started from: a file that is replaced,
    edited, moved or removed was read by this turn and still has the content read,
    and its expected hash is right where one is asked for; a file is created and a
    path is moved only to where nothing is; a directory is removed only when it was
    listed, and is empty or small enough; the workspace and the root are never
    removed. *)
Theorem mutation_guarded ctxErr t s : changes (runTool ctxErr t) s → justified t s.
Proof.
  destruct t; [apply write_guarded|apply edit_guarded|apply move_guarded|apply remove_guarded].
Qed.

End guarded.

(** ** Writes and edits are all or nothing *)

Section atomic.
Context {W : Type} `{FS W, HostOS W}.
Variable Sum256 : bytes → bytes.
Variable cfg : config.
Variable files : W → gmap path (bytes * Z).
Variable good : W → path → Prop.
Context `{!Files.TreeLaws W files good, !Files.WriteContract cfg files good}.
Implicit Types (s : state W).

Local Abbreviation MaxWriteBytes := (Limits.MaxWriteBytes (limits cfg)).

(** [m] comes back: it fails without changing a file of [s0], or ends in [P]. *)
Definition ends {A} s0 (P : state W → Prop) (m : exec W A) s : Prop :=
  match m s with
  | (s', Ok _) => P s'
  | (s', Err _) => files (world s') = files (world s0)
  | _ => False
  end.

Lemma ends_inspect {A B} s0 P (f : state W → outcome A) (k : A → exec W B) s :
  files (world s) = files (world s0) → returns (f s) →
  (∀ a, f s = Ok a → ends s0 P (k a) s) → ends s0 P (inspect f ≫= k) s.
Proof. unfold ends. rewrite inspect_bind. destruct (f s); naive_solver. Qed.

Lemma ends_refuse {B} s0 P c e (k : unit → exec W B) s :
  files (world s) = files (world s0) →
  (c = false → ends s0 P (k tt) s) → ends s0 P (refuse c e ≫= k) s.
Proof. unfold ends. rewrite refuse_bind. destruct c; naive_solver. Qed.

Lemma ends_bind {A B} s0 P (m : exec W A) (k : A → exec W B) s :
  (match m s with
   | (s1, Ok a) => ends s0 P (k a) s1
   | (s1, Err _) => files (world s1) = files (world s0)
   | _ => False
   end) → ends s0 P (m ≫= k) s.
Proof. unfold ends, mbind, exec_bind. by destruct (m s) as [s1 [a|e| |]]. Qed.

Lemma ends_weaken {A} s0 (P Q : state W → Prop) (m : exec W A) s :
  ends s0 P m s → (∀ s', P s' → Q s') → ends s0 Q m s.
Proof. unfold ends. destruct (m s) as [s1 [a|e| |]]; naive_solver. Qed.

Lemma ends_fail {A} s0 P e s :
  files (world s) = files (world s0) → ends s0 P (fail (A := A) e) s.
Proof. done. Qed.

(** [p] has the content and mode, all other files are those of [s0], and the ledger
    holds the content. *)
Definition written s0 (p : path) (content : bytes) (mode : Z) s' : Prop :=
  files (world s') = <[p := (content, mode)]> (files (world s0)) ∧
  requireObservedContent Sum256 p content s' = Ok tt.

Lemma ends_observe {B} s0 p content mode (out : B) s :
  files (world s) = <[p := (content, mode)]> (files (world s0)) →
  ends s0 (written s0 p content mode)
    (_ ← observeContent p (hashBytes Sum256 content); mret out) s.
Proof.
  intros Hf. apply ends_bind.
  destruct (observeContent p (hashBytes Sum256 content) s) as [s1 r] eqn:E.
  assert (r = Ok tt) as -> by by injection E.
  apply observeContent_required in E as [Hw Hr]. unfold ends. simpl. split; [by rewrite Hw|done].
Qed.

Lemma ends_write {B} s0 p content mode (out : B) s :
  good (world s) p → files (world s) = files (world s0) →
  ends s0 (written s0 p content mode)
    (_ ← writeFileAtomic cfg p content mode;
     _ ← observeContent p (hashBytes Sum256 content); mret out) s.
Proof.
  intros Hg Hf. apply ends_bind.
  pose proof (proj2 (Files.contract_write (files := files) p content mode s Hg)) as Hw.
  destruct (writeFileAtomic cfg p content mode s) as [s1 [u|e| |]]; try done.
  - apply ends_observe. by rewrite (proj2 Hw), Hf.
  - by rewrite (proj2 Hw).
Qed.

Lemma ends_create {B} s0 p content (out : B) s :
  good (world s) p → files (world s) = files (world s0) →
  ends s0 (written s0 p content newFileMode)
    (_ ← mutate wrapPathError (fs_MkdirAll (dir p) newDirectoryMode);
     _ ← writeNewFileAtomic cfg p content newFileMode;
     _ ← observeContent p (hashBytes Sum256 content); mret out) s.
Proof.
  intros Hg Hf. apply ends_bind. unfold mutate.
  pose proof (Files.mkdir_files (files := files) (dir p) newDirectoryMode (world s)) as Hm.
  pose proof (Files.mkdir_plain (files := files) (dir p) newDirectoryMode (world s) p Hg) as Hg'.
  destruct (fs_MkdirAll _ _ (world s)) as [w [e|]]; simpl in *; [by rewrite Hm|].
  apply ends_bind. set (s1 := mkState w (seen s)).
  pose proof (proj2 (Files.contract_new (files := files) p content newFileMode s1 Hg')) as Hw.
  destruct (writeNewFileAtomic cfg p content newFileMode s1) as [s2 [u|e| |]]; try done.
  - apply ends_observe. destruct Hw as (_ & _ & ->). simpl. by rewrite Hm, Hf.
  - destruct Hw as (_ & ->). simpl. by rewrite Hm.
Qed.

Definition resolves_good s (raw : bytes) : Prop := ∀ p, resolvePath cfg raw = Ok p → good (world s) p.

(** A write is all or nothing.  It comes back; when it fails no file has
    changed; when it succeeds exactly the named file has exactly the given content,
    with its old mode or the default one, and the ledger holds that content, so
    that a follow-up edit is accepted. *)
Theorem WriteFile_atomic ctxErr input s :
  resolves_good s (w_Path input) →
  match WriteFile Sum256 cfg ctxErr input s with
  | (s', Ok _) => ∃ p mode, resolvePath cfg (w_Path input) = Ok p ∧
      written s p (w_Content input) mode s'
  | (s', Err _) => files (world s') = files (world s)
  | _ => False
  end.
Proof.
  intros Hgood.
  change (ends s (λ s', ∃ p mode, resolvePath cfg (w_Path input) = Ok p ∧
    written s p (w_Content input) mode s') (WriteFile Sum256 cfg ctxErr input) s).
  unfold WriteFile, checkContext, resolve.
  apply ends_inspect; [done|by destruct ctxErr|intros _ _].
  do 2 (apply ends_refuse; [done|intros _]).
  apply ends_inspect; [done|auto with go|intros p Hp]. specialize (Hgood p Hp).
  unfold writeFileLocked. apply ends_inspect; [done..|intros info [= <-]].
  destruct (fs_Stat (world s) p) as [e|info].
  - case_bool_decide; [|by apply ends_fail]. unfold createFile.
    apply ends_refuse; [done|intros _].
    eapply ends_weaken; [by apply ends_create|]. eauto.
  - apply ends_refuse; [done|intros _]. unfold replaceFile, readFile, requireContent.
    apply ends_refuse; [done|intros _].
    apply ends_inspect; [done|auto with go|intros [current mode] Hr].
    apply ends_inspect; [done|auto with go|intros _ _].
    apply ends_refuse; [done|intros _].
    eapply ends_weaken; [by apply ends_write|]. eauto.
Qed.

(** An edit is all or nothing.  It comes back; when it fails no file has
    changed; when it succeeds exactly the named file has changed, from the content
    the turn had read to its rewriting by the edits, with the mode it had. *)
Theorem EditFile_atomic ctxErr input s :
  resolves_good s (e_Path input) →
  match EditFile Sum256 cfg ctxErr input s with
  | (s', Ok _) => ∃ p content mode out reps, resolvePath cfg (e_Path input) = Ok p ∧
      read_now Sum256 cfg s p content mode ∧
      rewriteContent content (e_Edits input) = Ok (out, reps) ∧ written s p out mode s'
  | (s', Err _) => files (world s') = files (world s)
  | _ => False
  end.
Proof.
  intros Hgood.
  change (ends s (λ s', ∃ p content mode out reps, resolvePath cfg (e_Path input) = Ok p ∧
      read_now Sum256 cfg s p content mode ∧
      rewriteContent content (e_Edits input) = Ok (out, reps) ∧ written s p out mode s')
    (EditFile Sum256 cfg ctxErr input) s).
  unfold EditFile, checkContext, resolveEditPath, resolve.
  apply ends_inspect; [done|by destruct ctxErr|intros _ _].
  unfold ends. rewrite bind_assoc. apply ends_refuse; [done|intros _].
  apply ends_inspect; [done|auto with go|intros p Hp]. specialize (Hgood p Hp).
  apply ends_inspect; [done|unfold validateEdits; solve_returns|intros u Hv].
  apply validateEdits_Ok in Hv. unfold applyEditsLocked, readFile, requireContent.
  apply ends_inspect; [done|auto with go|intros [content mode] Hr].
  apply ends_refuse; [done|intros _].
  apply ends_inspect; [done|auto with go|intros [] Ho].
  apply ends_inspect; [done|by apply rewriteContent_returns|intros [out reps] Hw].
  apply ends_inspect; [done|auto with go|intros [diff truncated] _].
  eapply ends_weaken; [by apply ends_write|]. intros s' Hs'.
  exists p, content, mode, out, reps. done.
Qed.

End atomic.

(** ** Concrete calls *)

Definition sample_sum (content : bytes) : bytes := replicate 32 (byte_of (length content)).

Definition sample_config : config :=
  mkConfig true (bs ".") (bs ".") [] Limits.DefaultLimits.

Definition sample_state : state (gmap path (bytes * Z)) :=
  mkState {[bs "a" := (bs "one two", 420)]}
    (recordKey (bs "a") (Some (hashBytes sample_sum (bs "one two"))) (mkLedger ∅ 0)).

Definition sample_edit : EditFileInput := mkEditIn (bs "a") [mkEdit (bs "two") (bs "2")].

Lemma sample_contract : Files.WriteContract sample_config id Files.everyPath.
Proof. by apply (Files.virtual_contract id Files.everyPath). Qed.

Lemma mutation_guarded_witness :
  changes (runTool sample_sum sample_config 9 None (Edit sample_edit)) sample_state ∧
  justified sample_sum sample_config 9 (Edit sample_edit) sample_state.
Proof.
  assert (changes (runTool sample_sum sample_config 9 None (Edit sample_edit)) sample_state) as Hc.
  { intros E. apply (f_equal (lookup (bs "a"))) in E. vm_compute in E. discriminate E. }
  split; [exact Hc|].
  exact (mutation_guarded sample_sum sample_config 9 None (Edit sample_edit) sample_state Hc).
Defined.

Lemma WriteFile_atomic_witness :
  ∃ s' out,
    WriteFile sample_sum sample_config None (mkWriteIn (bs "d/b") (bs "new") []) sample_state =
      (s', Ok out) ∧
    ∃ p mode, resolvePath sample_config (bs "d/b") = Ok p ∧
      written sample_sum id sample_state p (bs "new") mode s'.
Proof.
  pose proof sample_contract as Hcontract.
  pose proof (WriteFile_atomic sample_sum sample_config id Files.everyPath None
    (mkWriteIn (bs "d/b") (bs "new") []) sample_state (λ _ _, I)) as Hx.
  assert (is_ok (WriteFile sample_sum sample_config None (mkWriteIn (bs "d/b") (bs "new") [])
    sample_state).2 = true) as Hok by (vm_compute; reflexivity).
  destruct (WriteFile _ _ _ _ _) as [s' [out|e| |]]; try discriminate Hok.
  exists s', out. split; [reflexivity|exact Hx].
Defined.

Lemma EditFile_atomic_witness :
  ∃ s' out,
    EditFile sample_sum sample_config None sample_edit sample_state = (s', Ok out) ∧
    ∃ p content mode out reps, resolvePath sample_config (bs "a") = Ok p ∧
      read_now sample_sum sample_config sample_state p content mode ∧
      rewriteContent content (e_Edits sample_edit) = Ok (out, reps) ∧
      written sample_sum id sample_state p out mode s'.
Proof.
  pose proof sample_contract as Hcontract.
  pose proof (EditFile_atomic sample_sum sample_config id Files.everyPath None sample_edit
    sample_state (λ _ _, I)) as Hx.
  assert (is_ok (EditFile sample_sum sample_config None sample_edit sample_state).2 = true)
    as Hok by (vm_compute; reflexivity).
  destruct (EditFile _ _ _ _ _) as [s' [out|e| |]]; try discriminate Hok.
  exists s', out. split; [reflexivity|exact Hx].
Defined.

End Mutations.
