(* ===== verification/ApplyPatch.v ===== *)
(** The multi-file patch tool (src/internal/pkg/tools/applypatch.go): every action is
    prepared and checked before the first mutation, then the actions are applied in
    order. *)
From stdpp Require Import base gmap sets list strings.
From Stdlib Require Import ZArith Lia Ascii.
From S2P Require Import Prelude GoBytes GoPath Limits Diff PatchParser PatchLines Workspace Files LinkedFiles Mutations.
Import Workspace Mutations.
Import (hints) PatchParser Diff Files LinkedFiles.

Module ApplyPatch.
Local Open Scope Z_scope.

Abbreviation PatchOperation := PatchParser.PatchOperation.
Abbreviation patchAction := PatchParser.patchAction.
Abbreviation patchHunk := PatchParser.patchHunk.

Record preparedPatchAction := mkPrepared {
  operation : PatchOperation;
  p_path : path;
  p_destination : path;
  oldContent : bytes;
  newContent : bytes;
  mode : Z;
  diff : bytes;
}.

Inductive PatchOutcome := PatchOutcomeApplied | PatchOutcomePartial.

Record ApplyPatchFileResult := mkFileResult {
  r_Operation : option PatchOperation;
  r_Outcome : option PatchOutcome;
  r_Path : path;
  r_Destination : path;
  r_Bytes : Z;
  r_SHA256 : bytes;
}.

(** The zero value a failed action returns. *)
Definition noResult : ApplyPatchFileResult := mkFileResult None None [] [] 0 [].

Record ApplyPatchOutput := mkPatchOut {
  Files : list ApplyPatchFileResult;
  Diff : bytes;
  DiffTruncated : bool;
}.

Definition noOutput : ApplyPatchOutput := mkPatchOut [] [] false.

(** [strings.Replace(s, old, new, 1)] for a non-empty [old]. *)
Definition replaceFirst (old new s : bytes) : bytes :=
  match index_sub old s with
  | Some i => take i s ++ new ++ drop (i + length old) s
  | None => s
  end.

Definition completeFileDiff (oldPath newPath : path) (old new : bytes) : outcome bytes :=
  '(diff, _) ← Diff.unifiedDiff oldPath old new
    [Diff.mkReplacement 0 (Z.of_nat (length old)) 0 (Z.of_nat (length new))] 0;
  if bool_decide (newPath = oldPath) then Ok diff
  else Ok (replaceFirst (bs "+++ " ++ oldPath ++ [NL]) (bs "+++ " ++ newPath ++ [NL]) diff).

(** [isProtectedPatchRoot]: [filepath.VolumeName] is empty on Unix. *)
Definition isProtectedPatchRoot (p workspace : path) : bool :=
  bool_decide (p = workspace) || bool_decide (p = clean [SLASH]).

Definition claimPatchPath (claimed : gset path) (p : path) : outcome (gset path) :=
  let p := clean p in
  if bool_decide (p ∈ claimed) then Err ErrPatchConflict else Ok ({[p]} ∪ claimed).

Section patch.
Context {W : Type} `{FS W, HostOS W}.
Variable Sum256 : bytes → bytes.
Variable cfg : config.
Implicit Types (s : state W) (item : preparedPatchAction).

Local Abbreviation hash := (hashBytes Sum256).
Local Abbreviation MaxWriteBytes := (Limits.MaxWriteBytes (limits cfg)).
Local Abbreviation MaxChanged := (Limits.MaxPatchChangedBytes (limits cfg)).

(** ** Preparing *)

Definition preparePatchAdd s (item : preparedPatchAction) (content : bytes)
    : outcome preparedPatchAction :=
  if MaxWriteBytes <? Z.of_nat (length content) then Err ErrLimitExceeded
  else match fs_Lstat (world s) (p_path item) with
       | inr _ => Err ErrAlreadyExists
       | inl e =>
           if negb (bool_decide (e = FsNotExist)) then Err (wrapPathError e)
           else
             d ← completeFileDiff (p_path item) (p_path item) [] content;
             Ok (mkPrepared (operation item) (p_path item) (p_destination item)
                   [] content newFileMode d)
       end.

Definition validatePatchUpdatePaths s (item : preparedPatchAction) : outcome unit :=
  if negb (bool_decide (operation item = PatchParser.PatchOperationMove)) then Ok tt
  else if isProtectedPatchRoot (p_path item) (workspace cfg) then Err ErrValidationFailed
  else (checkDestinationFree (p_destination item) s).2.

Definition preparePatchUpdate s (item : preparedPatchAction) (hunks : list patchHunk)
    : outcome preparedPatchAction :=
  _ ← validatePatchUpdatePaths s item;
  '(content, mode) ← readRegularFile (p_path item) MaxChanged (world s);
  if isBinary content then Err ErrBinaryContent
  else
    _ ← requireObservedContent Sum256 (p_path item) content s;
    rewritten ← PatchLines.applyPatchHunks content hunks;
    if MaxWriteBytes <? Z.of_nat (length rewritten) then Err ErrLimitExceeded
    else
      let newPath := if negb (bool_decide (p_destination item = []))
                     then p_destination item else p_path item in
      d ← completeFileDiff (p_path item) newPath content rewritten;
      Ok (mkPrepared (operation item) (p_path item) (p_destination item)
            content rewritten mode d).

Definition preparePatchDelete s (item : preparedPatchAction) : outcome preparedPatchAction :=
  if isProtectedPatchRoot (p_path item) (workspace cfg) then Err ErrValidationFailed
  else
    '(content, mode) ← readRegularFile (p_path item) MaxChanged (world s);
    _ ← requireObservedContent Sum256 (p_path item) content s;
    d ← completeFileDiff (p_path item) (p_path item) content [];
    Ok (mkPrepared (operation item) (p_path item) (p_destination item) content [] mode d).

(** Resolve and claim the paths of an action. *)
Definition claimPaths (action : patchAction) (claimed : gset path)
    : outcome (preparedPatchAction * gset path) :=
  p ← resolvePath cfg (PatchParser.path action);
  claimed ← claimPatchPath claimed p;
  if negb (bool_decide (PatchParser.destination action = [])) then
    d ← resolvePath cfg (PatchParser.destination action);
    claimed ← claimPatchPath claimed d;
    Ok (mkPrepared (PatchParser.operation action) p d [] [] 0 [], claimed)
  else Ok (mkPrepared (PatchParser.operation action) p [] [] [] 0 [], claimed).

Definition preparePatchAction s (action : patchAction) (claimed : gset path)
    : outcome (preparedPatchAction * gset path) :=
  '(item, claimed) ← claimPaths action claimed;
  item ←
    match PatchParser.operation action with
    | PatchParser.PatchOperationAdd => preparePatchAdd s item (PatchParser.addContent action)
    | PatchParser.PatchOperationUpdate | PatchParser.PatchOperationMove =>
        preparePatchUpdate s item (PatchParser.hunks action)
    | PatchParser.PatchOperationDelete => preparePatchDelete s item
    end;
  Ok (item, claimed).

(** The loop of [preparePatch]. *)
Fixpoint prepareActions s (actions : list patchAction) (claimed : gset path) (changedBytes : Z)
    : outcome (list preparedPatchAction) :=
  match actions with
  | [] => Ok []
  | action :: rest =>
      '(item, claimed) ← preparePatchAction s action claimed;
      let changedBytes :=
        wrap64 (changedBytes + Z.of_nat (length (oldContent item) + length (newContent item))) in
      if MaxChanged <? changedBytes then Err ErrLimitExceeded
      else
        items ← prepareActions s rest claimed changedBytes;
        Ok (item :: items)
  end.

Definition preparePatch s (actions : list patchAction) : outcome (list preparedPatchAction) :=
  prepareActions s actions ∅ 0.

(** ** Applying *)

(** An action's result and its error, both returned. *)
Definition acts : Type := state W → state W * (ApplyPatchFileResult * outcome unit).

Definition orNoResult (m : exec W ApplyPatchFileResult) : acts := λ s,
  match m s with
  | (s', Ok r) => (s', (r, Ok tt))
  | (s', Err e) => (s', (noResult, Err e))
  | (s', Panic) => (s', (noResult, Panic))
  | (s', OutOfFuel) => (s', (noResult, OutOfFuel))
  end.

Definition applied item (p destination : path) : ApplyPatchFileResult :=
  mkFileResult (Some (operation item)) (Some PatchOutcomeApplied) p destination
    (Z.of_nat (length (newContent item))) (hash (newContent item)).

Definition applyPatchWrite item (createParents : bool) : exec W ApplyPatchFileResult :=
  _ ← (if createParents then mutate wrapPathError (fs_MkdirAll (dir (p_path item)) newDirectoryMode)
       else mret tt);
  _ ← (if createParents then writeNewFileAtomic cfg (p_path item) (newContent item) (mode item)
       else writeFileAtomic cfg (p_path item) (newContent item) (mode item));
  _ ← observeContent (p_path item) (hash (newContent item));
  mret (applied item (p_path item) []).

Definition applyPatchDelete item : exec W ApplyPatchFileResult :=
  _ ← mutate wrapPathError (fs_Remove (p_path item));
  mret (mkFileResult (Some PatchParser.PatchOperationDelete) (Some PatchOutcomeApplied)
          (p_path item) [] 0 []).

Definition finishPatchMove item : exec W ApplyPatchFileResult :=
  _ ← observeContent (p_destination item) (hash (newContent item));
  mret (mkFileResult (Some PatchParser.PatchOperationMove) (Some PatchOutcomeApplied)
          (p_path item) (p_destination item)
          (Z.of_nat (length (newContent item))) (hash (newContent item))).

(** What [applyPatchMove] reports when only the source's removal failed. *)
Definition partialMove item : ApplyPatchFileResult :=
  mkFileResult (Some PatchParser.PatchOperationMove) (Some PatchOutcomePartial)
    (p_path item) (p_destination item)
    (Z.of_nat (length (newContent item))) (hash (newContent item)).

Definition writeMoveDestination item : exec W unit :=
  _ ← mutate wrapPathError (fs_MkdirAll (dir (p_destination item)) newDirectoryMode);
  _ ← writeNewFileAtomic cfg (p_destination item) (newContent item) (mode item);
  observeContent (p_destination item) (hash (newContent item)).

Definition applyPatchMove item : acts := λ s,
  match writeMoveDestination item s with
  | (s1, Ok _) =>
      match mutate wrapPathError (fs_Remove (p_path item)) s1 with
      | (s2, Ok _) => orNoResult (finishPatchMove item) s2
      | (s2, r) => (s2, (partialMove item, r))
      end
  | (s1, r) => (s1, (noResult, r))
  end.

Definition applyPreparedAction item : acts :=
  match operation item with
  | PatchParser.PatchOperationAdd => orNoResult (applyPatchWrite item true)
  | PatchParser.PatchOperationUpdate => orNoResult (applyPatchWrite item false)
  | PatchParser.PatchOperationDelete => orNoResult (applyPatchDelete item)
  | PatchParser.PatchOperationMove => applyPatchMove item
  end.

(** The loop of [applyPreparedPatch]; [ctxErrs] answers the context checks. *)
Fixpoint applyItems (ctxErrs : nat → option sentinel) (index : nat)
    (prepared : list preparedPatchAction) (files : list ApplyPatchFileResult)
    (diffs : list bytes) s
    : state W * (list ApplyPatchFileResult * list bytes * outcome unit) :=
  match prepared with
  | [] => (s, (files, diffs, Ok tt))
  | item :: rest =>
      match ctxErrs index with
      | Some e => (s, (files, diffs, Err e))
      | None =>
          let '(s', (result, r)) := applyPreparedAction item s in
          let reported := negb (bool_decide (r_Path result = [])) in
          let files := if reported then files ++ [result] else files in
          let diffs := if reported then diffs ++ [diff item] else diffs in
          match r with
          | Ok _ => applyItems ctxErrs (S index) rest files diffs s'
          | r => (s', (files, diffs, r))
          end
      end
  end.

Definition applyPreparedPatch (ctxErrs : nat → option sentinel)
    (prepared : list preparedPatchAction) s : state W * (ApplyPatchOutput * outcome unit) :=
  let '(s', (files, diffs, r)) := applyItems ctxErrs 0 prepared [] [] s in
  let '(d, truncated) := Diff.boundDiff (concat diffs) (Limits.MaxDiffBytes (limits cfg)) in
  (s', (mkPatchOut files d truncated, r)).

(** The checks before the mutation lock is taken. *)
Definition admitPatch (ctxErr : option sentinel) (patch : bytes)
    : outcome (list patchAction) :=
  _ ← match ctxErr with Some e => Err e | None => Ok tt end;
  if Limits.MaxPatchBytes (limits cfg) <? Z.of_nat (length patch) then Err ErrLimitExceeded
  else
    parsed ← PatchParser.parseApplyPatch patch;
    if Limits.MaxPatchFiles (limits cfg) <? Z.of_nat (length (PatchParser.actions parsed))
    then Err ErrLimitExceeded
    else if Limits.MaxPatchHunks (limits cfg) <? Z.of_nat (PatchParser.hunkCount parsed)
    then Err ErrLimitExceeded
    else Ok (PatchParser.actions parsed).

Definition ApplyPatch (ctxErr : option sentinel) (ctxErrs : nat → option sentinel)
    (patch : bytes) s : state W * (ApplyPatchOutput * outcome unit) :=
  match actions ← admitPatch ctxErr patch; preparePatch s actions with
  | Ok prepared => applyPreparedPatch ctxErrs prepared s
  | Err e => (s, (noOutput, Err e))
  | Panic => (s, (noOutput, Panic))
  | OutOfFuel => (s, (noOutput, OutOfFuel))
  end.

End patch.

(** ** What preparing establishes *)

Section prepared.
Context {W : Type} `{FS W, HostOS W}.
Variable Sum256 : bytes → bytes.
Variable cfg : config.
Implicit Types (s : state W) (item : preparedPatchAction).

Local Abbreviation hash := (hashBytes Sum256).
Local Abbreviation MaxWriteBytes := (Limits.MaxWriteBytes (limits cfg)).
Local Abbreviation MaxChanged := (Limits.MaxPatchChangedBytes (limits cfg)).

(** The paths an item changes. *)
Definition touched item : list path :=
  p_path item ::
  (if bool_decide (operation item = PatchParser.PatchOperationMove)
   then [p_destination item] else []).

(** The file holds the item's old content, and the ledger of the turn its hash. *)
Definition source_read s item : Prop :=
  readRegularFile (p_path item) MaxChanged (world s) = Ok (oldContent item, mode item) ∧
  ∃ o, observed (seen s) !! observationKey (p_path item) (world s) = Some o ∧
    o_hasHash o = true ∧ o_hash o = hash (oldContent item).

(** Neither the workspace nor the root of the filesystem. *)
Definition unprotected (p : path) : Prop := p ≠ workspace cfg ∧ p ≠ [SLASH].

(** What an item's preparation checked in state [s]. *)
Definition prepared_ok s (a : patchAction) item : Prop :=
  operation item = PatchParser.operation a ∧
  resolvePath cfg (PatchParser.path a) = Ok (p_path item) ∧
  match PatchParser.operation a with
  | PatchParser.PatchOperationAdd =>
      fs_Lstat (world s) (p_path item) = inl FsNotExist ∧
      oldContent item = [] ∧ newContent item = PatchParser.addContent a ∧ mode item = newFileMode ∧
      Z.of_nat (length (newContent item)) ≤ MaxWriteBytes
  | PatchParser.PatchOperationUpdate =>
      source_read s item ∧ isBinary (oldContent item) = false ∧
      PatchLines.applyPatchHunks (oldContent item) (PatchParser.hunks a) = Ok (newContent item) ∧
      Z.of_nat (length (newContent item)) ≤ MaxWriteBytes
  | PatchParser.PatchOperationMove =>
      source_read s item ∧ isBinary (oldContent item) = false ∧
      PatchLines.applyPatchHunks (oldContent item) (PatchParser.hunks a) = Ok (newContent item) ∧
      Z.of_nat (length (newContent item)) ≤ MaxWriteBytes ∧
      resolvePath cfg (PatchParser.destination a) = Ok (p_destination item) ∧
      fs_Lstat (world s) (p_destination item) = inl FsNotExist ∧ unprotected (p_path item)
  | PatchParser.PatchOperationDelete =>
      source_read s item ∧ newContent item = [] ∧ unprotected (p_path item)
  end.

(** What [MaxPatchChangedBytes] bounds: the contents read and written. *)
Definition changedBytes (items : list preparedPatchAction) : Z :=
  foldr (λ item total, Z.of_nat (length (oldContent item)) + Z.of_nat (length (newContent item)) + total)
    0 items.

(** Only moves name a destination, and hunks are well formed, as the parser
    ensures. *)
Definition destined (a : patchAction) : Prop :=
  (PatchParser.destination a ≠ []) ↔ PatchParser.operation a = PatchParser.PatchOperationMove.

Lemma wf_destined a : PatchParser.wf_action a → destined a.
Proof.
  unfold destined, PatchParser.wf_action, PatchParser.wf_path. intros [_ Hw].
  destruct (PatchParser.operation a); naive_solver.
Qed.

Lemma claimPatchPath_Ok claimed p claimed' :
  claimPatchPath claimed p = Ok claimed' → (clean p ∉ claimed) ∧ claimed' = {[clean p]} ∪ claimed.
Proof.
  unfold claimPatchPath. destruct (bool_decide_reflect (clean p ∈ claimed)); [done|].
  intros [= <-]. done.
Qed.

(** Claiming adds the cleaned paths, which are new and distinct. *)
Lemma claimPaths_Ok a claimed item claimed' :
  destined a → claimPaths cfg a claimed = Ok (item, claimed') →
  operation item = PatchParser.operation a ∧
  resolvePath cfg (PatchParser.path a) = Ok (p_path item) ∧
  (PatchParser.operation a = PatchParser.PatchOperationMove →
   resolvePath cfg (PatchParser.destination a) = Ok (p_destination item)) ∧
  NoDup (clean <$> touched item) ∧
  (∀ p, p ∈ (clean <$> touched item) → p ∉ claimed) ∧
  claimed' = list_to_set (clean <$> touched item) ∪ claimed.
Proof.
  unfold claimPaths, destined, touched. intros Hd Hc. invert_ok.
  apply claimPatchPath_Ok in Hr0 as [Hn ->].
  destruct (bool_decide_reflect (PatchParser.destination a = [])) as [He|Hne]; simpl in Hc; invert_ok.
  - simpl. rewrite bool_decide_eq_false_2 by (intros E; by apply Hd in E). simpl.
    split_and!; try done; [by intros E; apply Hd in E|apply NoDup_singleton|set_solver|].
    by rewrite union_empty_r_L.
  - match goal with Hx : claimPatchPath _ _ = Ok _ |- _ => apply claimPatchPath_Ok in Hx as [Hn2 ->] end.
    simpl.
    rewrite bool_decide_eq_true_2 by (by apply Hd). simpl.
    split_and!; try done.
    + apply NoDup_cons. split; [set_solver|apply NoDup_singleton].
    + set_solver.
    + rewrite union_empty_r_L. set_solver.
Qed.

(** The operations keep the item's operation and paths. *)
Definition same_target item item' : Prop :=
  operation item' = operation item ∧ p_path item' = p_path item ∧
  p_destination item' = p_destination item.

Lemma preparePatchAdd_Ok s item content item' :
  preparePatchAdd cfg s item content = Ok item' →
  same_target item item' ∧ fs_Lstat (world s) (p_path item) = inl FsNotExist ∧
  oldContent item' = [] ∧ newContent item' = content ∧ mode item' = newFileMode ∧
  Z.of_nat (length (newContent item')) ≤ MaxWriteBytes.
Proof.
  unfold preparePatchAdd. intros Hp. case_if; [done|].
  destruct (fs_Lstat (world s) (p_path item)) as [e|]; [|done].
  destruct (bool_decide_reflect (e = FsNotExist)) as [He|]; [|done]. subst e. simpl in Hp. invert_ok.
  read_guards. done.
Qed.

Lemma unprotected_Ok p : isProtectedPatchRoot p (workspace cfg) = false → unprotected p.
Proof.
  unfold isProtectedPatchRoot. intros [Hw%bool_decide_eq_false Hr%bool_decide_eq_false]%orb_false_iff. done.
Qed.

Lemma observedContent_Ok s p content : requireObservedContent Sum256 p content s = Ok tt →
  ∃ o, observed (seen s) !! observationKey p (world s) = Some o ∧ o_hasHash o = true ∧ o_hash o = hash content.
Proof.
  unfold requireObservedContent. destruct (observed (seen s) !! _) as [o|]; [|done].
  destruct (o_hasHash o) eqn:Eh; [|done]. cbn [negb]. case_bool_decide; [|done]. eauto.
Qed.

Lemma validatePatchUpdatePaths_Ok s item u :
  validatePatchUpdatePaths cfg s item = Ok u →
  operation item = PatchParser.PatchOperationMove →
  fs_Lstat (world s) (p_destination item) = inl FsNotExist ∧ unprotected (p_path item).
Proof.
  unfold validatePatchUpdatePaths. intros Hv Ho. rewrite bool_decide_eq_true_2 in Hv by done.
  cbn [negb] in Hv. destruct (isProtectedPatchRoot _ _) eqn:Er; [done|].
  split; [by eapply destination_absent|by apply unprotected_Ok].
Qed.

Lemma preparePatchUpdate_Ok s item hunks item' :
  preparePatchUpdate Sum256 cfg s item hunks = Ok item' →
  same_target item item' ∧ source_read s item' ∧ isBinary (oldContent item') = false ∧
  PatchLines.applyPatchHunks (oldContent item') hunks = Ok (newContent item') ∧
  Z.of_nat (length (newContent item')) ≤ MaxWriteBytes ∧
  (operation item = PatchParser.PatchOperationMove →
   fs_Lstat (world s) (p_destination item) = inl FsNotExist ∧ unprotected (p_path item)).
Proof.
  unfold preparePatchUpdate, source_read. intros Hp.
  apply bind_Ok_inv in Hp as (u & Hv & Hp). apply bind_Ok_inv in Hp as ([content m] & Hr & Hp).
  destruct (isBinary content) eqn:Hb; [done|].
  apply bind_Ok_inv in Hp as ([] & Ho & Hp). apply bind_Ok_inv in Hp as (new & Hh & Hp).
  destruct (Z.ltb_spec MaxWriteBytes (Z.of_nat (length new))); [done|].
  apply bind_Ok_inv in Hp as (d & _ & Hp). injection Hp as <-. simpl.
  split_and!; try done; [by apply observedContent_Ok|by eapply validatePatchUpdatePaths_Ok].
Qed.

Lemma preparePatchDelete_Ok s item item' :
  preparePatchDelete Sum256 cfg s item = Ok item' →
  same_target item item' ∧ source_read s item' ∧ newContent item' = [] ∧
  unprotected (p_path item).
Proof.
  unfold preparePatchDelete, source_read. intros Hp. destruct (isProtectedPatchRoot _ _) eqn:Er; [done|].
  apply bind_Ok_inv in Hp as ([content m] & Hr & Hp). apply bind_Ok_inv in Hp as ([] & Ho & Hp).
  apply bind_Ok_inv in Hp as (d & _ & Hp). injection Hp as <-. cbn.
  split_and!; try done; [by apply observedContent_Ok|apply unprotected_Ok..]; done.
Qed.

Lemma touched_same item item' : same_target item item' → touched item' = touched item.
Proof. unfold touched. by intros (-> & -> & ->). Qed.

Lemma preparePatchAction_Ok s a claimed item claimed' :
  destined a → preparePatchAction Sum256 cfg s a claimed = Ok (item, claimed') →
  prepared_ok s a item ∧ NoDup (clean <$> touched item) ∧
  (∀ p, p ∈ (clean <$> touched item) → p ∉ claimed) ∧
  claimed' = list_to_set (clean <$> touched item) ∪ claimed.
Proof.
  intros Hd Hp. unfold preparePatchAction in Hp. apply bind_Ok_inv in Hp as ([item0 c0] & Hc & Hp).
  apply bind_Ok_inv in Hp as (item1 & Hi & Hp). injection Hp as -> ->.
  destruct (claimPaths_Ok _ _ _ _ Hd Hc) as (Hop & Hpath & Hdest & Hnd & Hfresh & ->).
  assert (same_target item0 item ∧ (same_target item0 item → prepared_ok s a item)) as [Hs Hk].
  { unfold prepared_ok. destruct (PatchParser.operation a) eqn:Ea.
    - apply preparePatchAdd_Ok in Hi as (Hs & ? & ? & ? & ? & ?). split; [done|].
      intros (-> & E & _). rewrite E. done.
    - apply preparePatchUpdate_Ok in Hi as (Hs & ? & ? & ? & ? & _). split; [done|].
      intros (-> & E & _). rewrite E. done.
    - apply preparePatchDelete_Ok in Hi as (Hs & ? & ? & ?). split; [done|].
      intros (-> & E & _). rewrite E. done.
    - apply preparePatchUpdate_Ok in Hi as (Hs & ? & ? & ? & ? & Hm). split; [done|].
      destruct (Hm Hop). intros (-> & E & ->). rewrite E. split_and!; auto. }
  rewrite (touched_same _ _ Hs). auto.
Qed.

(** Preparing returns. *)
Lemma completeFileDiff_returns p q old new : returns (completeFileDiff p q old new).
Proof. unfold completeFileDiff. solve_returns. Qed.

Lemma claimPatchPath_returns claimed p : returns (claimPatchPath claimed p).
Proof. unfold claimPatchPath. solve_returns. Qed.

Local Hint Resolve completeFileDiff_returns claimPatchPath_returns : go.

Lemma wf_action_hunks a : PatchParser.wf_action a → Forall PatchParser.wf_hunk (PatchParser.hunks a).
Proof.
  unfold PatchParser.wf_action. intros [_ Hw].
  destruct (PatchParser.operation a); destruct_and?; simplify_eq; try done.
  - replace (PatchParser.hunks a) with (@nil patchHunk) by done. constructor.
  - replace (PatchParser.hunks a) with (@nil patchHunk) by done. constructor.
Qed.

Lemma preparePatchAction_returns s a claimed :
  PatchParser.wf_action a → returns (preparePatchAction Sum256 cfg s a claimed).
Proof.
  intros Hwf%wf_action_hunks. pose proof (λ content, PatchLines.applyPatchHunks_returns content _ Hwf).
  unfold preparePatchAction, claimPaths, preparePatchAdd, preparePatchUpdate, preparePatchDelete,
    validatePatchUpdatePaths, checkDestinationFree, inspect. solve_returns; cbn [snd]; solve_returns.
Qed.

Lemma prepareActions_returns s actions claimed changed :
  Forall PatchParser.wf_action actions →
  returns (prepareActions Sum256 cfg s actions claimed changed).
Proof.
  intros Hwf. revert claimed changed. induction Hwf as [|a actions Ha _ IH];
    intros claimed changed; cbn [prepareActions]; [done|].
  apply returns_bind; [by apply preparePatchAction_returns|]. intros [item c] _.
  destruct (_ <? _); [done|]. apply returns_bind; [apply IH|done].
Qed.

(** The sizes of a prepared item. *)
Lemma readRegularFile_length p maximum w content m :
  readRegularFile p maximum w = Ok (content, m) → Z.of_nat (length content) ≤ maximum.
Proof.
  unfold readRegularFile. intros Hr. apply bind_Ok_inv in Hr as (f & _ & Hr).
  apply bind_Ok_inv in Hr as (info & _ & Hr). case_if; [done|]. apply bind_Ok_inv in Hr as (data & _ & Hr).
  destruct (file_close f); [done|]. destruct (Z.ltb_spec maximum (Z.of_nat (length data))); [done|].
  by injection Hr as <- _.
Qed.

Lemma prepared_sizes s a item : 0 ≤ MaxChanged → 0 ≤ MaxWriteBytes → prepared_ok s a item →
  Z.of_nat (length (oldContent item)) ≤ MaxChanged ∧ Z.of_nat (length (newContent item)) ≤ MaxWriteBytes.
Proof.
  intros H1 H2 (_ & _ & Hok). destruct (PatchParser.operation a).
  - destruct Hok as (_ & -> & _ & _ & ?). done.
  - destruct Hok as ([Hr _] & _ & _ & ?). split; [by eapply readRegularFile_length|done].
  - destruct Hok as ([Hr _] & -> & _). split; [by eapply readRegularFile_length|done].
  - destruct Hok as ([Hr _] & _ & _ & ? & _). split; [by eapply readRegularFile_length|done].
Qed.

(** The limits are positive, and so small that the sums fit an [int]. *)
Definition smallLimits : Prop :=
  0 ≤ MaxChanged ∧ 0 ≤ MaxWriteBytes ∧ 2 * MaxChanged + MaxWriteBytes ≤ max_int64.

Lemma prepareActions_Ok s actions claimed changed items :
  Forall destined actions → prepareActions Sum256 cfg s actions claimed changed = Ok items →
  Forall2 (prepared_ok s) actions items ∧
  NoDup (clean <$> concat (touched <$> items)) ∧
  (∀ p, p ∈ (clean <$> concat (touched <$> items)) → p ∉ claimed) ∧
  (smallLimits → 0 ≤ changed ≤ MaxChanged → changed + changedBytes items ≤ MaxChanged).
Proof.
  intros Hd. revert claimed changed items.
  induction Hd as [|a actions Ha _ IH]; intros claimed changed items; cbn [prepareActions].
  { intros [= <-]. split_and!; [constructor|constructor|simpl; set_solver|]. cbn [changedBytes foldr]. lia. }
  intros Hp. apply bind_Ok_inv in Hp as ([item c] & Hi & Hp).
  destruct (preparePatchAction_Ok _ _ _ _ _ Ha Hi) as (Hok & Hnd & Hfresh & ->).
  destruct (Z.ltb_spec MaxChanged (wrap64 (changed + Z.of_nat (length (oldContent item) +
    length (newContent item))))) as [|Hle]; [done|]. apply bind_Ok_inv in Hp as (rest & Hr & Hp). injection Hp as <-.
  destruct (IH _ _ _ Hr) as (Hall & Hnd' & Hfresh' & Htotal).
  rewrite fmap_cons, concat_cons, fmap_app. split_and!.
  - by constructor.
  - apply NoDup_app. split_and!; [done| |done]. intros p Hp Hp'. apply (Hfresh' _ Hp').
    apply elem_of_union_l. by apply elem_of_list_to_set.
  - intros p [Hp|Hp]%elem_of_app; [by apply Hfresh|]. specialize (Hfresh' _ Hp). set_solver.
  - intros Hs Hc. pose proof Hs as (H1 & H2 & H3). destruct (prepared_sizes s a item H1 H2 Hok) as [Ho Hn].
    unfold max_int64 in H3.
    rewrite wrap64_id in Hle, Htotal by (unfold min_int64, max_int64; lia).
    specialize (Htotal Hs). cbn [changedBytes foldr]. fold (changedBytes rest). lia.
Qed.

End prepared.



(** ** What applying does to the files *)

Section effect.
Context {W : Type} `{FS W, HostOS W}.
Variable Sum256 : bytes → bytes.
Variable cfg : config.
Variable files : W → gmap path (bytes * Z).
Variable good : W → path → Prop.
Context `{!Files.TreeLaws W files good, !Files.WriteContract cfg files good}.
Implicit Types (s : state W) (item : preparedPatchAction).

Definition item_effect (m : gmap path (bytes * Z)) item : gmap path (bytes * Z) :=
  match operation item with
  | PatchParser.PatchOperationAdd | PatchParser.PatchOperationUpdate =>
      <[p_path item := (newContent item, mode item)]> m
  | PatchParser.PatchOperationDelete => delete (p_path item) m
  | PatchParser.PatchOperationMove =>
      delete (p_path item) (<[p_destination item := (newContent item, mode item)]> m)
  end.

(** What a completed item reports. *)
Definition reported item : ApplyPatchFileResult :=
  match operation item with
  | PatchParser.PatchOperationAdd | PatchParser.PatchOperationUpdate =>
      applied Sum256 item (p_path item) []
  | PatchParser.PatchOperationDelete =>
      mkFileResult (Some PatchParser.PatchOperationDelete) (Some PatchOutcomeApplied)
        (p_path item) [] 0 []
  | PatchParser.PatchOperationMove => applied Sum256 item (p_path item) (p_destination item)
  end.

(** A move whose source could not be removed. *)
Definition half_moved item (m : gmap path (bytes * Z)) : gmap path (bytes * Z) :=
  <[p_destination item := (newContent item, mode item)]> m.

Lemma keeps_good_trans w1 w2 w3 : Files.keeps good w1 w2 → Files.keeps good w2 w3 → Files.keeps good w1 w3.
Proof. unfold Files.keeps. auto. Qed.

Lemma mkdir_spec p m s :
  Files.keeps good (world s) (world (mutate wrapPathError (fs_MkdirAll p m) s).1) ∧
  match mutate wrapPathError (fs_MkdirAll p m) s with
  | (s', Ok _) | (s', Err _) => files (world s') = files (world s)
  | _ => False
  end.
Proof.
  unfold mutate. pose proof (Files.mkdir_files (files := files) p m (world s)) as Hm.
  pose proof (Files.mkdir_plain (files := files) p m (world s)) as Hk.
  by destruct (fs_MkdirAll p m (world s)) as [w [e|]].
Qed.

Lemma remove_spec p s : good (world s) p →
  Files.keeps good (world s) (world (mutate wrapPathError (fs_Remove p) s).1) ∧
  match mutate wrapPathError (fs_Remove p) s with
  | (s', Ok _) => files (world s') = delete p (files (world s))
  | (s', Err _) => files (world s') = files (world s)
  | _ => False
  end.
Proof.
  intros Hp. unfold mutate. pose proof (Files.remove_files (files := files) p (world s) Hp) as Hm.
  pose proof (Files.remove_plain (files := files) p (world s)) as Hk.
  by destruct (fs_Remove p (world s)) as [w [e|]].
Qed.

(** Write a new file below directories that may have to be made. *)
Lemma mkdir_write_spec p item s :
  good (world s) p →
  Files.keeps good (world s) (world ((mutate wrapPathError (fs_MkdirAll (dir p) newDirectoryMode) ≫= λ _,
    writeNewFileAtomic cfg p (newContent item) (mode item)) s).1) ∧
  match (mutate wrapPathError (fs_MkdirAll (dir p) newDirectoryMode) ≫= λ _,
         writeNewFileAtomic cfg p (newContent item) (mode item)) s with
  | (s', Ok _) => files (world s') = <[p := (newContent item, mode item)]> (files (world s))
  | (s', Err _) => files (world s') = files (world s)
  | _ => False
  end.
Proof.
  intros Hg. unfold mbind, exec_bind. pose proof (mkdir_spec (dir p) newDirectoryMode s) as [Hk Hm].
  destruct (mutate _ _ s) as [s1 [u|e| |]]; [|done..]. cbn [fst] in Hk.
  pose proof (Files.contract_new (files := files) p (newContent item) (mode item) s1 (Hk _ Hg)) as [Hk' Hw].
  destruct (writeNewFileAtomic _ _ _ _ s1) as [s2 [u'|e| |]]; try done; cbn [fst] in *;
    (split; [by eapply keeps_good_trans|]).
  - destruct Hw as (_ & _ & ->). by rewrite Hm.
  - destruct Hw as (_ & ->). done.
Qed.

(** One item: done and reported, or failed with no effect, or a move left half
    done, which is reported as partial. *)
Lemma applyPreparedAction_spec item s :
  Forall (good (world s)) (touched item) →
  Files.keeps good (world s) (world (applyPreparedAction Sum256 cfg item s).1) ∧
  match applyPreparedAction Sum256 cfg item s with
  | (s', (r, Ok _)) => r = reported item ∧ files (world s') = item_effect (files (world s)) item
  | (s', (r, Err _)) =>
      (r = noResult ∧ files (world s') = files (world s)) ∨
      (operation item = PatchParser.PatchOperationMove ∧ r = partialMove Sum256 item ∧
       files (world s') = half_moved item (files (world s)))
  | _ => False
  end.
Proof.
  intros Hg. unfold touched in Hg. apply Forall_cons in Hg as [Hp Hd].
  unfold applyPreparedAction, item_effect, reported.
  destruct (operation item) eqn:Eop.
  - unfold orNoResult, applyPatchWrite.
    pose proof (mkdir_write_spec (p_path item) item s Hp) as [Hk Hw]. unfold mbind, exec_bind in *.
    destruct (mutate _ _ s) as [s1 [u|e| |]]; try (by tauto).
    destruct (writeNewFileAtomic _ _ _ _ s1) as [s2 [u'|e| |]]; try (by tauto). done.
  - unfold orNoResult, applyPatchWrite, mbind, exec_bind. simpl.
    pose proof (Files.contract_write (files := files) (p_path item) (newContent item) (mode item) s Hp) as [Hk Hw].
    destruct (writeFileAtomic _ _ _ _ s) as [s2 [u'|e| |]]; try (by tauto).
    destruct Hw as [_ Hw]. done.
  - unfold orNoResult, applyPatchDelete, mbind, exec_bind.
    pose proof (remove_spec (p_path item) s Hp) as [Hk Hr].
    destruct (mutate _ _ s) as [s2 [u'|e| |]]; try (by tauto). done.
  - unfold applyPatchMove, writeMoveDestination. rewrite bool_decide_eq_true_2 in Hd by done.
    apply Forall_cons in Hd as [Hd _].
    pose proof (mkdir_write_spec (p_destination item) item s Hd) as [Hk Hw]. unfold mbind, exec_bind in *.
    destruct (mutate _ _ s) as [s1 [u|e| |]]; try (by tauto).
    destruct (writeNewFileAtomic _ _ _ _ s1) as [s2 [u'|e| |]]; try (by tauto). simpl.
    match goal with |- context [mutate wrapPathError (fs_Remove (p_path item)) ?s3] =>
      pose proof (remove_spec (p_path item) s3 (Hk _ Hp)) as [Hk' Hr];
      destruct (mutate wrapPathError (fs_Remove (p_path item)) s3) as [s4 [u3|e| |]]
    end; simpl in *; [| |done..]; (split; [by eapply keeps_good_trans|]); [|right].
    + split; [|by rewrite Hr, Hw]. unfold applied. by rewrite Eop.
    + split_and!; [done..|]. by rewrite Hr, Hw.
Qed.

Lemma reported_path item : r_Path (reported item) = p_path item.
Proof. unfold reported. by destruct (operation item). Qed.

(** The whole loop. *)
Lemma applyItems_spec ctxErrs index items fs ds s :
  Forall (λ item, Forall (good (world s)) (touched item) ∧ p_path item ≠ []) items →
  match applyItems Sum256 cfg ctxErrs index items fs ds s with
  | (s', (fs', _, Ok _)) =>
      fs' = fs ++ (reported <$> items) ∧
      files (world s') = foldl item_effect (files (world s)) items
  | (s', (fs', _, Err _)) =>
      ∃ before item after, items = before ++ item :: after ∧
        let m := foldl item_effect (files (world s)) before in
        (fs' = fs ++ (reported <$> before) ∧ files (world s') = m) ∨
        (operation item = PatchParser.PatchOperationMove ∧
         fs' = fs ++ (reported <$> before) ++ [partialMove Sum256 item] ∧
         files (world s') = half_moved item m)
  | _ => False
  end.
Proof.
  revert index fs ds s. induction items as [|item items IH]; intros index fs ds s Hall; cbn [applyItems].
  { by rewrite app_nil_r. }
  apply Forall_cons in Hall as [[Hg Hne] Hall].
  destruct (ctxErrs index) as [e|].
  { exists [], item, items. split; [done|]. left. by rewrite app_nil_r. }
  pose proof (applyPreparedAction_spec item s Hg) as [Hk Ha].
  destruct (applyPreparedAction Sum256 cfg item s) as [s1 [r [u|e| |]]]; [|..|done|done].
  - destruct Ha as [-> Hf]. rewrite reported_path.
    rewrite bool_decide_eq_false_2 by done. simpl.
    assert (Forall (λ item, Forall (good (world s1)) (touched item) ∧ p_path item ≠ []) items) as Hall'.
    { eapply Forall_impl; [exact Hall|]. intros i [Hi ?]. split; [|done]. eapply Forall_impl; [exact Hi|apply Hk]. }
    specialize (IH (S index) (fs ++ [reported item]) (ds ++ [diff item]) s1 Hall').
    destruct (applyItems _ _ _ _ items _ _ s1) as [s2 [[fs2 ds2] [u2|e| |]]]; try done.
    + destruct IH as [-> ->]. rewrite Hf. by rewrite <- app_assoc.
    + destruct IH as (before & item' & after & -> & Hres).
      exists (item :: before), item', after. split; [done|]. simpl. rewrite <- Hf.
      destruct Hres as [[-> ?]|(? & -> & ?)]; [left|right]; by rewrite <- ?app_assoc.
  - exists [], item, items. split; [done|]. simpl.
    destruct Ha as [[-> Hf]|(? & -> & Hf)]; [left|right]; simpl.
    + by rewrite app_nil_r.
    + rewrite bool_decide_eq_false_2 by done. done.
Qed.

End effect.

(** ** The files after a patch *)

Section outcome.
Implicit Types (m : gmap path (bytes * Z)) (item : preparedPatchAction).

(** The files an item leaves behind. *)
Definition landed m item : Prop :=
  match operation item with
  | PatchParser.PatchOperationAdd | PatchParser.PatchOperationUpdate =>
      m !! p_path item = Some (newContent item, mode item)
  | PatchParser.PatchOperationDelete => m !! p_path item = None
  | PatchParser.PatchOperationMove =>
      m !! p_path item = None ∧ m !! p_destination item = Some (newContent item, mode item)
  end.

Lemma item_effect_frame m item q : (q ∉ touched item) → item_effect m item !! q = m !! q.
Proof.
  unfold touched, item_effect. intros Hq.
  destruct (operation item); simpl in *; rewrite ?lookup_delete_ne, ?lookup_insert_ne by set_solver;
    done.
Qed.

Lemma item_effect_landed m item : NoDup (touched item) → landed (item_effect m item) item.
Proof.
  unfold touched, item_effect, landed. intros Hn.
  destruct (operation item); simpl in *; rewrite ?lookup_insert_eq, ?lookup_delete_eq; try done.
  split; [done|]. apply NoDup_cons in Hn as [Hn _].
  rewrite lookup_delete_ne by set_solver. apply lookup_insert_eq.
Qed.

Lemma landed_frame m m' item :
  (∀ q, q ∈ touched item → m' !! q = m !! q) → landed m item → landed m' item.
Proof.
  unfold touched, landed. intros Hq. destruct (operation item); simpl in *;
    rewrite ?Hq by set_solver; done.
Qed.

Lemma effects_frame items m q :
  (q ∉ concat (touched <$> items)) → foldl item_effect m items !! q = m !! q.
Proof.
  revert m. induction items as [|item items IH]; intros m Hq; [done|].
  rewrite fmap_cons, concat_cons in Hq. cbn [foldl].
  rewrite IH by set_solver. apply item_effect_frame. set_solver.
Qed.

Lemma effects_landed items m :
  NoDup (concat (touched <$> items)) → Forall (landed (foldl item_effect m items)) items.
Proof.
  revert m. induction items as [|item items IH]; intros m Hn; [constructor|].
  rewrite fmap_cons, concat_cons in Hn. apply NoDup_app in Hn as (Hi & Hd & Hn). cbn [foldl].
  constructor; [|by apply IH]. eapply landed_frame; [|by apply (item_effect_landed m)].
  intros q Hq. apply effects_frame. by apply Hd.
Qed.

End outcome.

Section patched.
Context {W : Type} `{FS W, HostOS W}.
Variable Sum256 : bytes → bytes.
Variable cfg : config.
Implicit Types (s : state W) (a : patchAction) (F : gmap path (bytes * Z)).

(** The report of a file that has [content] now. *)
Definition reportOf (op : PatchOperation) (outcome : PatchOutcome) (p destination : path) (content : bytes)
    : ApplyPatchFileResult :=
  mkFileResult (Some op) (Some outcome) p destination
    (Z.of_nat (length content)) (hashBytes Sum256 content).

(** From [F] to [F'], action [a] of a document took place and was reported as [r]. *)
Definition action_done F F' a (r : ApplyPatchFileResult) : Prop :=
  ∃ p, resolvePath cfg (PatchParser.path a) = Ok p ∧
    match PatchParser.operation a with
    | PatchParser.PatchOperationAdd =>
        F !! p = None ∧ F' !! p = Some (PatchParser.addContent a, newFileMode) ∧
        r = reportOf PatchParser.PatchOperationAdd PatchOutcomeApplied p [] (PatchParser.addContent a)
    | PatchParser.PatchOperationUpdate =>
        ∃ old new mode, F !! p = Some (old, mode) ∧
          PatchLines.applyPatchHunks old (PatchParser.hunks a) = Ok new ∧
          F' !! p = Some (new, mode) ∧
          r = reportOf PatchParser.PatchOperationUpdate PatchOutcomeApplied p [] new
    | PatchParser.PatchOperationDelete => is_Some (F !! p) ∧ F' !! p = None ∧
        r = mkFileResult (Some PatchParser.PatchOperationDelete) (Some PatchOutcomeApplied) p [] 0 []
    | PatchParser.PatchOperationMove =>
        ∃ d old new mode, resolvePath cfg (PatchParser.destination a) = Ok d ∧
          F !! p = Some (old, mode) ∧ F !! d = None ∧
          PatchLines.applyPatchHunks old (PatchParser.hunks a) = Ok new ∧
          F' !! p = None ∧ F' !! d = Some (new, mode) ∧
          r = reportOf PatchParser.PatchOperationMove PatchOutcomeApplied p d new
    end.

(** A move of which only the destination was written, reported as partial. *)
Definition action_half_done F F' a (r : ApplyPatchFileResult) : Prop :=
  PatchParser.operation a = PatchParser.PatchOperationMove ∧
  ∃ p d old new mode, resolvePath cfg (PatchParser.path a) = Ok p ∧
    resolvePath cfg (PatchParser.destination a) = Ok d ∧
    F !! p = Some (old, mode) ∧ F !! d = None ∧
    PatchLines.applyPatchHunks old (PatchParser.hunks a) = Ok new ∧
    F' !! p = F !! p ∧ F' !! d = Some (new, mode) ∧
    r = reportOf PatchParser.PatchOperationMove PatchOutcomePartial p d new.

(** The paths an action names. *)
Definition names a (q : path) : Prop :=
  resolvePath cfg (PatchParser.path a) = Ok q ∨
  (PatchParser.operation a = PatchParser.PatchOperationMove ∧
   resolvePath cfg (PatchParser.destination a) = Ok q).

Definition unnamed (actions : list patchAction) (q : path) : Prop :=
  ∀ a, a ∈ actions → ¬ names a q.

Lemma touched_names s a item q :
  prepared_ok Sum256 cfg s a item → q ∈ touched item ↔ names a q.
Proof.
  intros (Hop & Hp & Hrest). unfold touched, names. rewrite Hop.
  destruct (PatchParser.operation a) eqn:Ea; simpl in *.
  1-3: split; [intros ->%list_elem_of_singleton; by left|];
       (intros [E|[? _]]; [|done]); rewrite Hp in E; injection E as ->; set_solver.
  destruct Hrest as (_ & _ & _ & _ & Hd & _). split.
  - intros [-> | ->%list_elem_of_singleton]%elem_of_cons; [by left|by right].
  - intros [E|[_ E]]; [rewrite Hp in E|rewrite Hd in E]; injection E as ->; set_solver.
Qed.

Lemma unnamed_touched s actions items q :
  Forall2 (prepared_ok Sum256 cfg s) actions items →
  unnamed actions q → q ∉ concat (touched <$> items).
Proof.
  intros Hall Hu. induction Hall as [|a item actions items Ha Hall IH]; [simpl; set_solver|].
  rewrite fmap_cons, concat_cons. intros [Hq|Hq]%elem_of_app.
  - apply (Hu a); [set_solver|]. by eapply touched_names.
  - apply IH; [|done]. intros b Hb. apply Hu. set_solver.
Qed.

Lemma admitPatch_wf ctxErr patch actions :
  admitPatch cfg ctxErr patch = Ok actions → Forall PatchParser.wf_action actions.
Proof.
  unfold admitPatch. intros Ha. apply bind_Ok_inv in Ha as (u & _ & Ha).
  destruct (_ <? _); [done|]. apply bind_Ok_inv in Ha as (parsed & Hp & Ha).
  destruct (_ <? _); [done|]. destruct (_ <? _); [done|]. injection Ha as <-.
  pose proof (PatchParser.parseApplyPatch_post patch) as Hpost.
  apply (post_Ok _ _ _ _ Hpost) in Hp as (_ & Hwf & _). exact Hwf.
Qed.

Lemma admitPatch_limits ctxErr patch actions : admitPatch cfg ctxErr patch = Ok actions →
  ∃ parsed, ctxErr = None ∧ Z.of_nat (length patch) ≤ Limits.MaxPatchBytes (limits cfg) ∧
    PatchParser.parseApplyPatch patch = Ok parsed ∧ actions = PatchParser.actions parsed ∧
    Z.of_nat (length (PatchParser.actions parsed)) ≤ Limits.MaxPatchFiles (limits cfg) ∧
    Z.of_nat (PatchParser.hunkCount parsed) ≤ Limits.MaxPatchHunks (limits cfg).
Proof.
  unfold admitPatch. intros Ha. apply bind_Ok_inv in Ha as (u & Hc & Ha). destruct ctxErr; [done|].
  destruct (Z.ltb_spec (Limits.MaxPatchBytes (limits cfg)) (Z.of_nat (length patch))); [done|].
  apply bind_Ok_inv in Ha as (parsed & Hp & Ha). exists parsed.
  destruct (Z.ltb_spec (Limits.MaxPatchFiles (limits cfg)) (Z.of_nat (length (PatchParser.actions parsed)))); [done|].
  destruct (Z.ltb_spec (Limits.MaxPatchHunks (limits cfg)) (Z.of_nat (PatchParser.hunkCount parsed))); [done|].
  by injection Ha as <-.
Qed.

Lemma admitPatch_destined ctxErr patch actions :
  admitPatch cfg ctxErr patch = Ok actions → Forall destined actions.
Proof.
  intros Ha%admitPatch_wf. eapply Forall_impl; [exact Ha|]. apply wf_destined.
Qed.

Lemma admitPatch_returns ctxErr patch : returns (admitPatch cfg ctxErr patch).
Proof.
  unfold admitPatch. pose proof (post_returns _ _ _ (PatchParser.parseApplyPatch_post patch)).
  solve_returns.
Qed.

End patched.

Section done.
Context {W : Type} `{FS W, HostOS W}.
Variable Sum256 : bytes → bytes.
Variable cfg : config.
Variable files : W → gmap path (bytes * Z).
Variable good : W → path → Prop.
Context `{!Files.TreeLaws W files good}.
Implicit Types (s : state W) (a : patchAction).

(** The paths the action names are good. *)
Definition namesGood s a : Prop := ∀ q, names cfg a q → good (world s) q.

Lemma prepared_source s item : 0 < Limits.MaxPatchChangedBytes (limits cfg) < max_int64 →
  good (world s) (p_path item) → source_read Sum256 cfg s item →
  files (world s) !! p_path item = Some (oldContent item, mode item).
Proof. intros Hm Hg [Hr _]. by eapply Files.readRegularFile_files. Qed.

Lemma landed_done s F' a item :
  0 < Limits.MaxPatchChangedBytes (limits cfg) < max_int64 → namesGood s a →
  prepared_ok Sum256 cfg s a item → landed F' item →
  action_done Sum256 cfg (files (world s)) F' a (reported Sum256 item).
Proof.
  intros Hm Hg (Hop & Hp & Hrest) Hl. assert (good (world s) (p_path item)) as Hgp by (apply Hg; by left).
  unfold landed in Hl. unfold reported, applied. rewrite Hop in *.
  exists (p_path item). split; [done|]. destruct (PatchParser.operation a) eqn:Ea; simpl in *.
  - destruct Hrest as (Habs & _ & Hnew & Hmode & _). rewrite Hl, Hnew, Hmode. split_and!; [|done..].
    by eapply Files.lstat_absent.
  - destruct Hrest as (Hr & _ & Hh & _). exists (oldContent item), (newContent item), (mode item).
    split_and!; [by apply prepared_source|done..].
  - destruct Hrest as (Hr & _). split_and!; [|done..].
    exists (oldContent item, mode item). by apply prepared_source.
  - destruct Hrest as (Hr & _ & Hh & _ & Hd & Habs & _). destruct Hl as [? ?].
    exists (p_destination item), (oldContent item), (newContent item), (mode item).
    split_and!; [done|by apply prepared_source| |done..].
    eapply Files.lstat_absent; [|exact Habs]. apply Hg. by right.
Qed.

End done.

(** ** Theorems *)

Section theorems.
Context {W : Type} `{FS W, HostOS W}.
Variable Sum256 : bytes → bytes.
Variable cfg : config.
Implicit Types (s : state W).

(** C2: checked before the first mutation.  A patch that changes anything, in the
    filesystem or in the ledger, parses within the limits on its bytes, files and
    hunks, and had every action prepared in the state the call started from: every
    updated, moved or deleted file was read by this turn and still had the content
    read, every added or moved destination was absent, every hunk applied, every new
    content is within [MaxWriteBytes], neither the workspace nor the root of the
    filesystem was deleted or moved, and no two paths of the patch are the same.  The
    contents read and written together are within [MaxPatchChangedBytes], for limits
    whose sums fit an [int]. *)
Theorem ApplyPatch_guarded ctxErr ctxErrs patch s :
  (ApplyPatch Sum256 cfg ctxErr ctxErrs patch s).1 ≠ s →
  ∃ parsed items,
    ctxErr = None ∧ Z.of_nat (length patch) ≤ Limits.MaxPatchBytes (limits cfg) ∧
    PatchParser.parseApplyPatch patch = Ok parsed ∧
    Z.of_nat (length (PatchParser.actions parsed)) ≤ Limits.MaxPatchFiles (limits cfg) ∧
    Z.of_nat (PatchParser.hunkCount parsed) ≤ Limits.MaxPatchHunks (limits cfg) ∧
    Forall2 (prepared_ok Sum256 cfg s) (PatchParser.actions parsed) items ∧
    NoDup (clean <$> concat (touched <$> items)) ∧
    (smallLimits cfg → changedBytes items ≤ Limits.MaxPatchChangedBytes (limits cfg)).
Proof.
  unfold ApplyPatch.
  destruct (admitPatch cfg ctxErr patch) as [actions|e| |] eqn:Ea; cbn [mbind outcome_bind]; try done.
  destruct (preparePatch Sum256 cfg s actions) as [items|e| |] eqn:Ep; try done. intros _.
  destruct (prepareActions_Ok Sum256 cfg s actions ∅ 0 items) as (? & ? & _ & Htotal);
    [by eapply admitPatch_destined|done|].
  apply admitPatch_limits in Ea as (parsed & ? & ? & ? & -> & ? & ?). exists parsed, items. split_and!; try done.
  intros Hs. apply Htotal; [done|]. destruct Hs. lia.
Qed.

Lemma prepared_good (good : W → path → Prop) s actions items :
  Forall2 (prepared_ok Sum256 cfg s) actions items → workspace cfg ≠ [] →
  (∀ a, a ∈ actions → namesGood cfg good s a) →
  Forall (λ item, Forall (good (world s)) (touched item) ∧ p_path item ≠ []) items.
Proof.
  intros Hall Hw Hg. induction Hall as [|a item actions items Ha Hall IH]; [constructor|].
  constructor; [|apply IH; intros b Hb; apply Hg; set_solver]. split.
  - apply Forall_forall. intros q Hq. apply (Hg a); [set_solver|].
    eapply touched_names in Hq; [exact Hq|exact Ha].
  - destruct Ha as (_ & Hp & _). by eapply resolvePath_ne.
Qed.

Section effects.
Variable files : W → gmap path (bytes * Z).
Variable good : W → path → Prop.
Context `{!Files.TreeLaws W files good}.
Hypothesis MaxChanged_range : 0 < Limits.MaxPatchChangedBytes (limits cfg) < max_int64.

Lemma landed_all s F' actions items :
  (∀ a, a ∈ actions → namesGood cfg good s a) → Forall2 (prepared_ok Sum256 cfg s) actions items →
  Forall (landed F') items →
  Forall2 (action_done Sum256 cfg (files (world s)) F') actions (reported Sum256 <$> items).
Proof.
  intros Hg Hall. induction Hall as [|a item actions items Ha Hall IH]; intros Hl; [constructor|].
  apply Forall_cons in Hl as [Hi Hl]. constructor.
  - eapply landed_done; [done|done|apply Hg; set_solver|exact Ha|exact Hi].
  - apply IH; [|done]. intros b Hb. apply Hg. set_solver.
Qed.

Lemma effects_done s F' actions items :
  (∀ a, a ∈ actions → namesGood cfg good s a) →
  Forall2 (prepared_ok Sum256 cfg s) actions items → NoDup (concat (touched <$> items)) →
  F' = foldl item_effect (files (world s)) items →
  Forall2 (action_done Sum256 cfg (files (world s)) F') actions (reported Sum256 <$> items) ∧
  (∀ q, unnamed cfg actions q → F' !! q = files (world s) !! q).
Proof.
  intros Hg Hall Hnd ->. split; [by apply landed_all, effects_landed|].
  intros q Hq. apply effects_frame. by eapply unnamed_touched.
Qed.

(** The same when the destination of one more move was written. *)
Lemma effects_half_done s F' actions items a item :
  (∀ a', a' ∈ actions ++ [a] → namesGood cfg good s a') →
  Forall2 (prepared_ok Sum256 cfg s) actions items → prepared_ok Sum256 cfg s a item →
  NoDup (concat (touched <$> items ++ [item])) →
  operation item = PatchParser.PatchOperationMove →
  F' = half_moved item (foldl item_effect (files (world s)) items) →
  Forall2 (action_done Sum256 cfg (files (world s)) F') actions (reported Sum256 <$> items) ∧
  action_half_done Sum256 cfg (files (world s)) F' a (partialMove Sum256 item) ∧
  (∀ q, unnamed cfg (actions ++ [a]) q → F' !! q = files (world s) !! q).
Proof.
  intros Hg Hall Ha Hnd Hop HF. rewrite fmap_app, concat_app in Hnd.
  change (concat (touched <$> [item])) with (touched item ++ []) in Hnd.
  rewrite app_nil_r in Hnd. apply NoDup_app in Hnd as (Hnd & Hdis & Hitem).
  assert (touched item = [p_path item; p_destination item]) as Ht
    by (unfold touched; by rewrite bool_decide_eq_true_2).
  assert (∀ q, q ≠ p_destination item →
    F' !! q = foldl item_effect (files (world s)) items !! q) as Hframe.
  { intros q Hq. rewrite HF. unfold half_moved. by rewrite lookup_insert_ne. }
  rewrite Ht in Hdis, Hitem. apply NoDup_cons in Hitem as [Hpd _].
  split_and!.
  - apply landed_all; [intros b Hb; apply Hg; set_solver|done|].
    pose proof (effects_landed items (files (world s)) Hnd) as Hl.
    apply Forall_forall. rewrite Forall_forall in Hl. intros item' Hin.
    eapply landed_frame; [|by apply Hl]. intros q Hq. apply Hframe. intros ->.
    eapply (Hdis (p_destination item)); [|set_solver].
    apply list_elem_of_In, in_concat. exists (touched item').
    split; apply list_elem_of_In; [by apply list_elem_of_fmap_2|done].
  - assert (namesGood cfg good s a) as Hga by (apply Hg; set_solver).
    destruct Ha as (Hopa & Hp & Hrest). rewrite Hop in Hopa. rewrite <- Hopa in Hrest.
    destruct Hrest as (Hr & _ & Hh & _ & Hd & Habs & _). split; [done|].
    exists (p_path item), (p_destination item), (oldContent item), (newContent item), (mode item).
    split_and!; [done|done| | |done| | |done].
    + apply (prepared_source Sum256 cfg files good); [done|apply Hga; by left|done].
    + eapply Files.lstat_absent; [|exact Habs]. apply Hga. by right.
    + rewrite Hframe by set_solver. apply effects_frame. intros Hq. apply (Hdis _ Hq). set_solver.
    + rewrite HF. unfold half_moved. apply lookup_insert_eq.
  - intros q Hq. assert (¬ names cfg a q) as Hn by (apply Hq; set_solver).
    assert (q ∉ touched item) as Hqt by (by rewrite (touched_names _ _ _ _ _ _ Ha)).
    rewrite Ht in Hqt. rewrite Hframe by set_solver. apply effects_frame.
    eapply unnamed_touched; [done|]. intros b Hb. apply Hq. set_solver.
Qed.

End effects.

(** C1: the effect of a patch.  When the tool succeeds, every action of the
    document took place, on the contents the files had at the start, and is reported
    with its operation, paths, size and hash; every path the document does not name
    is as it was.  When it fails, exactly the reported actions took place: those
    before the failing one, and perhaps the half of it that wrote the destination of
    a move, which is reported as partial.  This is for patches whose paths pass no
    symbolic link and name no temporary file of the tools, on any filesystem that
    obeys the laws there; it may hold links elsewhere. *)
Theorem ApplyPatch_effect (files : W → gmap path (bytes * Z)) (good : W → path → Prop)
    `{!Files.TreeLaws W files good, !Files.WriteContract cfg files good}
    ctxErr ctxErrs patch s actions :
  workspace cfg ≠ [] →
  0 < Limits.MaxPatchChangedBytes (limits cfg) < max_int64 →
  admitPatch cfg ctxErr patch = Ok actions →
  (∀ a, a ∈ actions → namesGood cfg good s a) →
  match ApplyPatch Sum256 cfg ctxErr ctxErrs patch s with
  | (s', (out, r)) =>
      let F := files (world s) in
      let F' := files (world s') in
      match r with
      | Ok _ =>
          Forall2 (action_done Sum256 cfg F F') actions (Files out) ∧
          (∀ q, unnamed cfg actions q → F' !! q = F !! q)
      | Err _ =>
          ∃ before rest reports, actions = before ++ rest ∧
            Forall2 (action_done Sum256 cfg F F') before reports ∧
            ((Files out = reports ∧ ∀ q, unnamed cfg before q → F' !! q = F !! q) ∨
             (∃ a rest' report, rest = a :: rest' ∧ Files out = reports ++ [report] ∧
              action_half_done Sum256 cfg F F' a report ∧
              ∀ q, unnamed cfg (before ++ [a]) q → F' !! q = F !! q))
      | _ => False
      end
  end.
Proof.
  intros Hw Hm Ha Hg. unfold ApplyPatch. rewrite Ha. cbn [mbind outcome_bind].
  pose proof (admitPatch_wf cfg _ _ _ Ha) as Hwf.
  pose proof (prepareActions_returns Sum256 cfg s actions ∅ 0 Hwf) as Hret.
  unfold preparePatch. destruct (prepareActions Sum256 cfg s actions ∅ 0) as [items|e| |] eqn:Ep;
    [|by exists [], actions, []; split; [done|]; split; [constructor|left]|done..].
  destruct (prepareActions_Ok Sum256 cfg s actions ∅ 0 items) as (Hok & Hnd%NoDup_fmap_1 & _);
    [by eapply admitPatch_destined|done|].
  unfold applyPreparedPatch.
  pose proof (applyItems_spec Sum256 cfg files good ctxErrs 0 items [] [] s
    (prepared_good good s actions items Hok Hw Hg)) as Hs.
  destruct (applyItems _ _ _ _ _ _ _ s) as [s' [[fs' ds'] [u|e| |]]]; try done;
    destruct (Diff.boundDiff _ _) as [d t]; cbn [ApplyPatch.Files].
  - destruct Hs as [-> HF]. exact (effects_done files good Hm s _ actions items Hg Hok Hnd HF).
  - destruct Hs as (before & item & after & -> & Hs).
    apply Forall2_app_inv_r in Hok as (before_a & rest_a & Hb & Hrest & ->).
    inversion Hrest as [|a ? rest_a' ? Ha' Hafter]; subst.
    rewrite fmap_app, concat_app in Hnd. pose proof (proj1 (proj1 (NoDup_app _ _) Hnd)) as Hndb.
    exists before_a, (a :: rest_a'), (reported Sum256 <$> before). split; [done|].
    destruct Hs as [[-> HF]|(Hop & -> & HF)].
    + destruct (effects_done files good Hm s _ before_a before ltac:(set_solver) Hb Hndb HF) as [Hdone Hframe].
      split; [done|]. by left.
    + rewrite fmap_cons, concat_cons, app_assoc in Hnd. apply NoDup_app, proj1 in Hnd.
      assert (NoDup (concat (touched <$> before ++ [item]))) as Hnd'.
      { rewrite fmap_app, concat_app. change (concat (touched <$> [item])) with (touched item ++ []).
        by rewrite app_nil_r. }
      destruct (effects_half_done files good Hm s _ before_a before a item ltac:(set_solver) Hb Ha' Hnd' Hop HF)
        as (Hdone & Hhalf & Hframe).
      split; [done|]. right. by exists a, rest_a', (partialMove Sum256 item).
Qed.

End theorems.

(** ** A concrete patch *)

Definition sample_file : bytes := bs "one" ++ [NL] ++ bs "two" ++ [NL].

Definition sample_state : state (gmap path (bytes * Z)) :=
  mkState {[bs "a.txt" := (sample_file, 420)]}
    (recordKey (bs "a.txt") (Some (hashBytes sample_sum sample_file)) (mkLedger ∅ 0)).

Definition sample_patch : bytes :=
  join [NL] [bs "*** Begin Patch"; bs "*** Update File: a.txt"; bs "@@"; bs "-two"; bs "+TWO";
             bs "*** Add File: b.txt"; bs "+new"; bs "*** End Patch"].

Definition sample_run :=
  ApplyPatch sample_sum sample_config None (λ _, None) sample_patch sample_state.

Lemma ApplyPatch_guarded_witness :
  (world sample_run.1 !! bs "b.txt" = Some (bs "new" ++ [NL], 420)) ∧ smallLimits sample_config ∧
  ∃ parsed items,
    None = @None sentinel ∧ Z.of_nat (length sample_patch) ≤ Limits.MaxPatchBytes (limits sample_config) ∧
    PatchParser.parseApplyPatch sample_patch = Ok parsed ∧
    Z.of_nat (length (PatchParser.actions parsed)) ≤ Limits.MaxPatchFiles (limits sample_config) ∧
    Z.of_nat (PatchParser.hunkCount parsed) ≤ Limits.MaxPatchHunks (limits sample_config) ∧
    Forall2 (prepared_ok sample_sum sample_config sample_state) (PatchParser.actions parsed) items ∧
    NoDup (clean <$> concat (touched <$> items)) ∧
    (smallLimits sample_config → changedBytes items ≤ Limits.MaxPatchChangedBytes (limits sample_config)).
Proof.
  assert (world sample_run.1 !! bs "b.txt" = Some (bs "new" ++ [NL], 420)) as Hb
    by (vm_compute; reflexivity).
  split; [exact Hb|]. split; [split; [|split]; vm_compute; discriminate|].
  apply (ApplyPatch_guarded sample_sum sample_config None (λ _, None) sample_patch sample_state).
  intros E. change (sample_run.1 = sample_state) in E. rewrite E in Hb.
  vm_compute in Hb. discriminate Hb.
Defined.

(** *** On the host, in a workspace with a link *)

Definition host_config : config := mkConfig false (bs "/w") (bs "/w") [] Limits.DefaultLimits.

Definition linked_world : LinkedFiles.linkWorld :=
  {[bs "/w/a.txt" := LinkedFiles.File sample_file 420; bs "/w/notes" := LinkedFiles.Link (bs "/notes");
    bs "/notes/n.txt" := LinkedFiles.File (bs "n") 420]}.

Definition linked_state : state LinkedFiles.linkWorld :=
  mkState linked_world (recordKey (bs "/w/a.txt") (Some (hashBytes sample_sum sample_file)) (mkLedger ∅ 0)).

Definition linked_run := ApplyPatch sample_sum host_config None (λ _, None) sample_patch linked_state.

Definition sample_actions : list patchAction :=
  match admitPatch host_config None sample_patch with Ok actions => actions | _ => [] end.

(** The files of the host that are no temporary ones of the tools. *)
Definition hostFiles (w : LinkedFiles.linkWorld) : gmap path (bytes * Z) := Files.visible (LinkedFiles.raw w).

(** The link is followed: the same file is read through it and at its own path. *)
Example link_followed : readRegularFile (bs "/w/notes/n.txt") 100 linked_world = Ok (bs "n", 420) ∧
  hostFiles linked_world !! bs "/w/notes/n.txt" = None ∧
  hostFiles linked_world !! bs "/notes/n.txt" = Some (bs "n", 420).
Proof. vm_compute. done. Qed.

Lemma sample_good a : a ∈ sample_actions →
  namesGood host_config (Files.hostGood LinkedFiles.plain) linked_state a.
Proof.
  intros Ha q Hq. assert (q = bs "/w/a.txt" ∨ q = bs "/w/b.txt") as Hp.
  { revert Ha Hq. vm_compute sample_actions. unfold names.
    intros [-> |[-> |?%elem_of_nil]%elem_of_cons]%elem_of_cons; [| |done];
      (intros [E|[E _]]; [vm_compute in E; injection E as <-; auto|done]). }
  destruct Hp as [-> | ->]; (split; [|reflexivity]); by apply (bool_decide_unpack _); vm_compute.
Qed.

Lemma ApplyPatch_effect_witness :
  ∃ s' out, linked_run = (s', (out, Ok tt)) ∧ length sample_actions = 2%nat ∧
    Forall2 (action_done sample_sum host_config (hostFiles linked_world) (hostFiles (world s')))
      sample_actions (Files out) ∧
    (∀ q, unnamed host_config sample_actions q → hostFiles (world s') !! q = hostFiles linked_world !! q).
Proof.
  pose proof (Files.host_contract LinkedFiles.raw LinkedFiles.plain host_config eq_refl) as Hcontract.
  pose proof (Files.visible_tree LinkedFiles.raw LinkedFiles.plain) as Htree.
  assert (admitPatch host_config None sample_patch = Ok sample_actions) as Ha
    by (vm_compute; reflexivity).
  assert (is_ok linked_run.2.2 = true) as Hok by (vm_compute; reflexivity).
  pose proof (ApplyPatch_effect sample_sum host_config (λ w, Files.visible (LinkedFiles.raw w))
    (Files.hostGood LinkedFiles.plain) None (λ _, None) sample_patch linked_state sample_actions
    ltac:(discriminate) ltac:(split; reflexivity) Ha sample_good) as Hx.
  change (ApplyPatch sample_sum host_config None (λ _, None) sample_patch linked_state)
    with linked_run in Hx.
  destruct linked_run as [s' [out [[]|e| |]]]; try discriminate Hok.
  exists s', out. split; [reflexivity|]. split; [vm_compute; reflexivity|]. exact Hx.
Defined.

End ApplyPatch.
