(* ===== verification/Executions.v ===== *)
(** The execution records of a session (execution.go, executiontypes.go,
    executionstop.go, executionchildclaim.go and the models under db/models):
    the tables, transactions over them, the event log and the creation of an
    execution.  A transaction that fails leaves the tables as they were. *)
From stdpp Require Import base gmap sets list strings sorting.
From Stdlib Require Import ZArith Lia Ascii.
From S2P Require Import Prelude GoBytes Json.

Module Executions.

(** A UUID; [uuid.Nil] is 0. *)
Abbreviation uuid := N.
Definition Nil : uuid := 0%N.

(** A text column that holds the string of a UUID, or the empty string. *)
Abbreviation uuidText := (option uuid).

(** ** Enumerations of db/models/types.go

    A kind, a policy and a resolution are read from JSON, so they may be any
    other text; the checks refuse it. *)

Inductive ExecutionKind := ExecutionKindRoot | ExecutionKindChild.

Inductive ExecutionState :=
  | ExecutionStateQueued | ExecutionStateRunning | ExecutionStatePaused
  | ExecutionStateReconciling | ExecutionStateCompleted | ExecutionStateFailed
  | ExecutionStateCancelled.

Inductive ActivityKind :=
  | ActivityKindModel | ActivityKindTool | ActivityKindCompaction
  | ActivityKindPreparation | ActivityKindOther (text : bytes).

Inductive ActivityState :=
  | ActivityStateScheduled | ActivityStateRunning | ActivityStateCompleted
  | ActivityStateFailed | ActivityStatePaused | ActivityStateUncertain
  | ActivityStateCancelled.

Inductive ActivityReplayPolicy :=
  | ActivityReplayPolicyRetry | ActivityReplayPolicyReconcile
  | ActivityReplayPolicyOther (text : bytes).

Inductive AgentRunState :=
  | AgentRunStateRunning | AgentRunStateCompleted | AgentRunStateFailed
  | AgentRunStateCancelled | AgentRunStateInterrupted.

Inductive TurnState :=
  | TurnStateRunning | TurnStateCompleted | TurnStateFailed
  | TurnStateCancelled | TurnStateInterrupted.

Inductive ExecutionEventType :=
  | ExecutionEventTypeCreated | ExecutionEventTypePaused | ExecutionEventTypeResumed
  | ExecutionEventTypeStarted | ExecutionEventTypeCheckpoint
  | ExecutionEventTypeCompleted | ExecutionEventTypeFailed
  | ExecutionEventTypeCancelled | ExecutionEventTypeStepCancelled
  | ExecutionEventTypeStepScheduled | ExecutionEventTypeStepStarted
  | ExecutionEventTypeStepCompleted | ExecutionEventTypeStepFailed
  | ExecutionEventTypeStepPaused | ExecutionEventTypeStepUncertain
  | ExecutionEventTypeStepResolved | ExecutionEventTypeInboxQueued
  | ExecutionEventTypeInboxDelivered | ExecutionEventTypeInboxForwarded
  | ExecutionEventTypeTurnRestored | ExecutionEventTypeCompletionSealed
  | ExecutionEventTypeInboxResumed.

#[export] Instance ExecutionKind_eq_dec : EqDecision ExecutionKind.
Proof. solve_decision. Defined.
#[export] Instance ExecutionState_eq_dec : EqDecision ExecutionState.
Proof. solve_decision. Defined.
#[export] Instance ActivityKind_eq_dec : EqDecision ActivityKind.
Proof. solve_decision. Defined.
#[export] Instance ActivityState_eq_dec : EqDecision ActivityState.
Proof. solve_decision. Defined.
#[export] Instance ActivityReplayPolicy_eq_dec : EqDecision ActivityReplayPolicy.
Proof. solve_decision. Defined.
#[export] Instance AgentRunState_eq_dec : EqDecision AgentRunState.
Proof. solve_decision. Defined.
#[export] Instance TurnState_eq_dec : EqDecision TurnState.
Proof. solve_decision. Defined.
#[export] Instance ExecutionEventType_eq_dec : EqDecision ExecutionEventType.
Proof. solve_decision. Defined.

(** ** Rows

    [UpdatedAt] and the ids of event rows are left out: nothing reads them
    back.  A time is its nanoseconds. *)

Record Execution := mkExecution {
  ex_ID : uuid;
  ex_SessionID : uuid;
  ex_RootTurnID : uuid;
  ex_RootExecutionID : uuid;
  ex_ParentExecutionID : option uuid;
  ex_AgentRunID : option uuid;
  ex_Kind : ExecutionKind;
  ex_State : ExecutionState;
  ex_WorkflowVersion : bytes;
  ex_WorkflowExecutionID : bytes;
  ex_Task : bytes;
  ex_WorkingDirectory : bytes;
  ex_ContextJSON : bytes;
  ex_EventCount : Z;
  ex_ControlRevision : Z;
  ex_PauseReason : bytes;
  ex_FailureDetail : bytes;
  ex_CreatedAt : Z;
  ex_PausedAt : option Z;
  ex_CompletedAt : option Z }.

#[export] Instance Execution_eq_dec : EqDecision Execution.
Proof. solve_decision. Defined.

(** What an activity's [ResolutionJSON] column says: nothing (the text [{}]),
    the JSON of an inspection, or the identity of a finish request. *)
Inductive resolution :=
  | NoResolution
  | Inspected (payload : bytes)
  | FinishDecision (inputHash : bytes) (continued : bool).
#[export] Instance resolution_eq_dec : EqDecision resolution.
Proof. solve_decision. Defined.

Record ExecutionActivity := mkActivity {
  ac_ID : uuid;
  ac_SessionID : uuid;
  ac_ExecutionID : uuid;
  ac_StepID : bytes;
  ac_Kind : ActivityKind;
  ac_State : ActivityState;
  ac_ReplayPolicy : ActivityReplayPolicy;
  ac_Name : bytes;
  ac_InputJSON : bytes;
  ac_OutputJSON : option bytes;
  ac_ContextJSON : bytes;
  ac_Attempt : Z;
  ac_OwnerGenerationID : uuidText;
  ac_FailureDetail : bytes;
  ac_ResolutionJSON : resolution;
  ac_CreatedAt : Z;
  ac_StartedAt : option Z;
  ac_CompletedAt : option Z }.

(** The payload of an event, before its JSON encoding. *)
Inductive eventPayload :=
  | EmptyPayload
  | ReasonPayload (reason : bytes)
  | ActivityPayload (activity : uuid) (step : bytes) (kind : ActivityKind) (attempt : Z)
  | RawPayload (json : bytes)
  | ResolvedPayload (activity : uuid) (inspection : bytes)
                    (origin : option (uuid * (uuid * uuid * Z) * Z))
  | SealedPayload (activity : uuid) (inputHash : bytes) (inboxSequence revision : Z)
  | ResumedPayload (source : uuid) (lease : uuid * uuid * Z) (revision : Z)
  | MessageResumePayload (request : uuid)
  | TurnRestoredPayload (lease owner : uuid) (worker : option uuid)
  | InboxQueuedPayload (inbox request run : uuid)
  | InboxDeliveredPayload (inbox request activity run : uuid)
  | ChildReportPayload (inbox request child run : uuid)
  | InboxForwardedPayload (inbox target : uuid)
  | InboxResumedPayload (source inbox : uuid) (stopRevision : Z) (lease : uuid * uuid * Z)
                        (revision : Z) (request : uuid) (inspectedRevision : Z).

Record ExecutionEvent := mkEvent {
  ev_SessionID : uuid;
  ev_ExecutionID : uuid;
  ev_Sequence : Z;
  ev_EventType : ExecutionEventType;
  ev_PayloadJSON : eventPayload;
  ev_CreatedAt : Z }.

(** What a child answered. *)
Record AgentRunResponse := mkResponse {
  rp_Text : bytes;
  rp_Thinking : bytes;
  rp_MessagesJSON : bytes;
  rp_FinishReason : bytes;
  rp_PromptTokenCount : Z;
  rp_CompletionTokenCount : Z }.
Definition noResponse : AgentRunResponse := mkResponse [] [] (bs "[]") [] 0 0.

(** The columns of the rows of other components that executions read. *)
Record AgentRun := mkAgentRun {
  ar_SessionID : uuid;
  ar_ParentTurnID : uuid;
  ar_ParentAgentRunID : option uuid;
  ar_State : AgentRunState;
  ar_CancelRequested : bool;
  ar_WorkerGenerationID : uuidText;
  ar_FailureClassification : bytes;
  ar_FailureDetail : bytes;
  ar_EndedAt : option Z;
  ar_Workspace : bytes;
  ar_SystemPrompt : bytes;
  ar_EventCount : Z;
  ar_Response : AgentRunResponse;
  ar_Name : bytes }.

Record Turn := mkTurn {
  tu_SessionID : uuid;
  tu_State : TurnState;
  tu_CancelRequested : bool;
  tu_StopRevision : Z;
  tu_RequestID : uuid;
  tu_Workspace : bytes;
  tu_WorkerGenerationID : uuidText;
  tu_FailureClassification : bytes;
  tu_CompletedAt : option Z;
  tu_StartedAt : Z;
  tu_ContextSnapshotHash : option bytes;
  tu_PromptSnapshotHash : option bytes }.

Record Session := mkSession {
  se_StopRevision : Z;
  se_MessageCount : Z;
  se_FeedSequence : Z;
  se_CompletedTurnCount : Z;
  se_LastCompletedSequence : Z;
  se_LastMessageAt : option Z }.

Inductive InboxMessageState :=
  | InboxMessageStateQueued | InboxMessageStateDelivered
  | InboxMessageStateDeferred | InboxMessageStateForwarded.
#[export] Instance InboxMessageState_eq_dec : EqDecision InboxMessageState.
Proof. solve_decision. Defined.

Record ExecutionInboxMessage := mkInboxMessage {
  in_ID : uuid;
  in_SessionID : uuid;
  in_ExecutionID : uuid;
  in_TurnID : uuid;
  in_RequestID : uuid;
  in_SourceEventID : option uuid;
  in_Sequence : Z;
  in_WorkingDirectory : bytes;
  in_Message : bytes;
  in_PartsJSON : bytes;
  in_ImagesJSON : bytes;
  in_State : InboxMessageState;
  in_DeliveredActivityID : option uuid;
  in_CreatedAt : Z;
  in_DeliveredAt : option Z;
  in_ForwardedExecutionID : option uuid;
  in_StopRevision : Z }.

Inductive MessageRole :=
  | MessageRoleSystem | MessageRoleUser | MessageRoleAssistant | MessageRoleTool
  | MessageRoleOther (text : bytes).
#[export] Instance MessageRole_eq_dec : EqDecision MessageRole.
Proof. solve_decision. Defined.

(** The id of a transcript or event row is kept where the caller chose it; an
    id drawn by the store is fresh, and is [None]. *)
Record Message := mkMessage {
  ms_ID : option uuid;
  ms_SessionID : uuid;
  ms_TurnID : uuid;
  ms_Sequence : Z;
  ms_Workspace : bytes;
  ms_Role : MessageRole;
  ms_Content : bytes;
  ms_ModelID : bytes;
  ms_Thinking : bytes;
  ms_ToolCallsJSON : bytes;
  ms_ToolCallID : bytes;
  ms_IsError : bool;
  ms_Incomplete : bool;
  ms_Injected : bool;
  ms_InjectedKind : bytes;
  ms_ImagesJSON : bytes;
  ms_ProviderReasoningJSON : bytes;
  ms_CreatedAt : Z }.

Record Event := mkFeedEvent {
  fe_ID : option uuid;
  fe_SessionID : uuid;
  fe_TurnID : uuid;
  fe_WorkerGenerationID : uuidText;
  fe_Sequence : Z;
  fe_FeedSequence : Z;
  fe_RequestID : uuid;
  fe_EventType : bytes;
  fe_PayloadJSON : bytes;
  fe_ParentToolCallID : bytes;
  fe_CreatedAt : Z }.

Record AgentRunMessage := mkRunMessage {
  rm_ID : option uuid;
  rm_SessionID : uuid;
  rm_AgentRunID : uuid;
  rm_Sequence : Z;
  rm_Role : MessageRole;
  rm_Content : bytes;
  rm_ModelID : bytes;
  rm_Thinking : bytes;
  rm_ToolCallsJSON : bytes;
  rm_ToolCallID : bytes;
  rm_IsError : bool;
  rm_Incomplete : bool;
  rm_ImagesJSON : bytes;
  rm_CreatedAt : Z }.

(** The event of a child and the notice of a session are stored under their
    ids. *)
Record AgentRunEvent := mkRunEvent {
  re_SessionID : uuid;
  re_AgentRunID : uuid;
  re_Sequence : Z;
  re_FeedSequence : Z;
  re_EventType : bytes;
  re_PayloadJSON : bytes;
  re_CreatedAt : Z }.

Inductive NoticeDelivery :=
  | NoticeDeliveryQueue | NoticeDeliveryWake | NoticeDeliveryOther (text : bytes).
#[export] Instance NoticeDelivery_eq_dec : EqDecision NoticeDelivery.
Proof. solve_decision. Defined.

Inductive NoticeState := NoticeStatePending | NoticeStateDelivered.
#[export] Instance NoticeState_eq_dec : EqDecision NoticeState.
Proof. solve_decision. Defined.

Record SessionNotice := mkNotice {
  sn_ID : uuid;
  sn_SessionID : uuid;
  sn_Sequence : Z;
  sn_FeedSequence : Z;
  sn_Type : bytes;
  sn_Source : bytes;
  sn_Summary : bytes;
  sn_DataJSON : bytes;
  sn_Delivery : NoticeDelivery;
  sn_State : NoticeState;
  sn_CreatedAt : Z;
  sn_DeliveredAt : option Z }.

(** A lease row is stored under its execution's id. *)
Record ExecutionTurnLease := mkTurnLease {
  tl_SessionID : uuid;
  tl_LeaseID : uuid;
  tl_OwnerGenerationID : uuid;
  tl_ControlRevision : Z;
  tl_TurnID : uuid;
  tl_WorkerGenerationID : option uuid }.

(** A job, its output lines and the requests to signal it; the workers of a
    session; the notices that a turn opened with. *)
Inductive JobState :=
  | JobStateRunning | JobStateExited | JobStateSignalled | JobStateFailed | JobStateInterrupted.
#[export] Instance JobState_eq_dec : EqDecision JobState.
Proof. solve_decision. Defined.

Record Job := mkJob {
  jb_SessionID : uuid;
  jb_TurnID : uuid;
  jb_AgentRunID : option uuid;
  jb_WorkerGenerationID : uuidText;
  jb_ToolCallID : bytes;
  jb_PID : Z;
  jb_Purpose : bytes;
  jb_Command : bytes;
  jb_Directory : bytes;
  jb_State : JobState;
  jb_ExitCode : Z;
  jb_FailureDetail : bytes;
  jb_StartedAt : Z;
  jb_EndedAt : option Z }.

Inductive JobOutputStream :=
  | JobOutputStreamStdout | JobOutputStreamStderr | JobOutputStreamOther (text : bytes).
#[export] Instance JobOutputStream_eq_dec : EqDecision JobOutputStream.
Proof. solve_decision. Defined.

Record JobOutputLine := mkOutputLine {
  jo_ID : uuid;
  jo_SessionID : uuid;
  jo_JobID : uuid;
  jo_Sequence : Z;
  jo_Stream : JobOutputStream;
  jo_Content : bytes;
  jo_CreatedAt : Z }.

Inductive JobSignal := JobSignalStop | JobSignalKill | JobSignalOther (text : bytes).
#[export] Instance JobSignal_eq_dec : EqDecision JobSignal.
Proof. solve_decision. Defined.

Record JobSignalRequest := mkSignalRequest {
  js_ID : uuid;
  js_SessionID : uuid;
  js_JobID : uuid;
  js_Signal : JobSignal;
  js_Accepted : bool;
  js_StateAtRequest : JobState;
  js_RequestedAt : Z }.

Inductive WorkerState :=
  | WorkerRequested | WorkerStarting | WorkerReady | WorkerStopping | WorkerStopped
  | WorkerFailed.
#[export] Instance WorkerState_eq_dec : EqDecision WorkerState.
Proof. solve_decision. Defined.

Record WorkerGeneration := mkWorker {
  wg_SessionID : uuid;
  wg_State : WorkerState;
  wg_CredentialHash : bytes;
  wg_ProcessID : Z;
  wg_ContainerID : bytes;
  wg_ImageDigest : bytes;
  wg_FailureDetail : bytes;
  wg_ExitCode : Z;
  wg_CreatedAt : Z;
  wg_StartedAt : option Z;
  wg_EndedAt : option Z }.

Record TurnOpeningNotice := mkOpening {
  on_SessionID : uuid;
  on_TurnID : uuid;
  on_NoticeID : uuid;
  on_SourceSequence : Z }.

Record otherTables := mkOthers {
  agentRuns : gmap uuid AgentRun;
  turns : gmap uuid Turn;
  sessions : gmap uuid Session;
  inbox : gmap uuid ExecutionInboxMessage;
  agentRunEvents : gmap uuid AgentRunEvent;
  sessionNotices : gmap uuid SessionNotice;
  turnLeases : gmap uuid ExecutionTurnLease;
  messages : list Message;
  feedEvents : list Event;
  runMessages : list AgentRunMessage;
  contentBlobs : gmap bytes bytes;
  jobs : gmap uuid Job;
  workerGenerations : gmap uuid WorkerGeneration;
  openingNotices : list TurnOpeningNotice;
  jobOutput : list JobOutputLine;
  jobSignals : list JobSignalRequest }.

Definition noOthers : otherTables := mkOthers ∅ ∅ ∅ ∅ ∅ ∅ ∅ [] [] [] ∅ ∅ ∅ [] [] [].

Record db := mkDb {
  executions : gmap uuid Execution;
  activities : gmap uuid ExecutionActivity;
  events : list ExecutionEvent;
  others : otherTables }.

(** ** Transactions *)

Definition tx (A : Type) : Type := db → outcome (A * db).

#[export] Instance tx_ret : MRet tx := λ A a d, Ok (a, d).
#[export] Instance tx_bind : MBind tx := λ A B f m d,
  match m d with
  | Ok (a, d') => f a d'
  | Err e => Err e
  | Panic => Panic
  | OutOfFuel => OutOfFuel
  end.

(** Reading, and a check that reads nothing. *)
Definition reads {A} (f : db → outcome A) : tx A := λ d, a ← f d; Ok (a, d).
Definition check (o : outcome unit) : tx unit := reads (λ _, o).
Definition refuseIf (c : bool) (e : sentinel) : tx unit :=
  check (if c then Err e else Ok tt).

(** The committed state and the answer. *)
Definition transaction {A} (m : tx A) (d : db) : db * outcome A :=
  match m d with
  | Ok (a, d') => (d', Ok a)
  | Err e => (d, Err e)
  | Panic => (d, Panic)
  | OutOfFuel => (d, OutOfFuel)
  end.

Definition setExecutions f d :=
  mkDb (f (executions d)) (activities d) (events d) (others d).
Definition setActivities f d :=
  mkDb (executions d) (f (activities d)) (events d) (others d).
Definition setEvents f d :=
  mkDb (executions d) (activities d) (f (events d)) (others d).
Definition setAgentRuns f d :=
  let o := others d in
  mkDb (executions d) (activities d) (events d)
    (mkOthers (f (agentRuns o)) (turns o) (sessions o) (inbox o) (agentRunEvents o)
      (sessionNotices o) (turnLeases o)
       (messages o) (feedEvents o) (runMessages o) (contentBlobs o) (jobs o)
      (workerGenerations o) (openingNotices o) (jobOutput o) (jobSignals o)).

(** [Where(session_id = sid, id = key).First()] *)
Definition firstRow {R} (session : R → uuid) (table : gmap uuid R) (sid key : uuid)
    : outcome R :=
  match table !! key with
  | Some row => if bool_decide (session row = sid) then Ok row else Err ErrNotFound
  | None => Err ErrNotFound
  end.

(** [Where(session_id = sid, id = key).UpdateSimple(...)] *)
Definition updateRow {R} (session : R → uuid) (sid key : uuid) (f : R → R)
    (table : gmap uuid R) : gmap uuid R :=
  match table !! key with
  | Some row => if bool_decide (session row = sid) then <[key := f row]> table else table
  | None => table
  end.

Definition findExecution (sid id : uuid) : tx Execution :=
  reads (λ d, firstRow ex_SessionID (executions d) sid id).

Definition updateExecution (e : Execution) (f : Execution → Execution) : tx unit :=
  λ d, Ok (tt, setExecutions (updateRow ex_SessionID (ex_SessionID e) (ex_ID e) f) d).

Definition updateActivity (a : ExecutionActivity) (f : ExecutionActivity → ExecutionActivity)
    : tx unit :=
  λ d, Ok (tt, setActivities (updateRow ac_SessionID (ac_SessionID a) (ac_ID a) f) d).

(** ** Column updates *)

Definition withEventCount (n : Z) (e : Execution) : Execution :=
  let 'mkExecution id sid turn root parent run kind st ver wf task dir ctx _ rev pr fd ca pa co := e in
  mkExecution id sid turn root parent run kind st ver wf task dir ctx n rev pr fd ca pa co.

Definition withState (s : ExecutionState) (e : Execution) : Execution :=
  let 'mkExecution id sid turn root parent run kind _ ver wf task dir ctx n rev pr fd ca pa co := e in
  mkExecution id sid turn root parent run kind s ver wf task dir ctx n rev pr fd ca pa co.

(** ** The event log *)

Definition maxEventCount : Z := max_int64.

(** The unique index on the execution and the sequence. *)
Definition createEvent (ev : ExecutionEvent) : tx unit := λ d,
  if bool_decide (Exists (λ old, ev_ExecutionID old = ev_ExecutionID ev ∧
                                 ev_Sequence old = ev_Sequence ev) (events d))
  then Err ErrAlreadyExists
  else Ok (tt, setEvents (λ l, l ++ [ev]) d).

(** The time and the fresh id of a call, and the worker generation its context
    is scoped to.  The clock is read once per transaction. *)
Record call := mkCall { now : Z; newID : uuid; agentRunOwner : option uuid }.

Definition appendExecutionEvent (c : call) (execution : Execution)
    (kind : ExecutionEventType) (payload : eventPayload) : tx Execution :=
  _ ← refuseIf (ex_EventCount execution =? maxEventCount)%Z ErrInvalidState;
  let sequence := (ex_EventCount execution + 1)%Z in
  _ ← createEvent (mkEvent (ex_SessionID execution) (ex_ID execution) sequence
                     kind payload (now c));
  _ ← updateExecution execution (withEventCount sequence);
  mret (withEventCount sequence execution).

Definition isExecutionTerminal (s : ExecutionState) : bool :=
  match s with
  | ExecutionStateCompleted | ExecutionStateFailed | ExecutionStateCancelled => true
  | ExecutionStateQueued | ExecutionStateRunning | ExecutionStatePaused
  | ExecutionStateReconciling => false
  end.

(** ** Creation *)

Definition ExecutionUserStopReason : bytes := bs "user requested stop".

(** The input of a creation that forwards no deferred message. *)
Record CreateExecutionInput := mkCreate {
  ci_ID : uuid;
  ci_RootTurnID : uuid;
  ci_ParentExecutionID : option uuid;
  ci_AgentRunID : option uuid;
  ci_WorkflowVersion : bytes;
  ci_WorkflowExecutionID : bytes;
  ci_Task : bytes;
  ci_WorkingDirectory : bytes;
  ci_Context : bytes }.

Definition zlen (s : bytes) : Z := Z.of_nat (length s).

Definition isExecutionContext (value : bytes) : bool :=
  let trimmed := trim_space value in
  match trimmed with
  | c :: _ => bool_decide (c = "{"%char) && Json.Valid trimmed
  | [] => false
  end.

Definition validateExecutionLineageInput (input : CreateExecutionInput) : outcome unit :=
  match ci_ParentExecutionID input with
  | None => match ci_AgentRunID input with Some _ => Err ErrValidationFailed | None => Ok tt end
  | Some parent =>
      match ci_AgentRunID input with
      | None => Err ErrValidationFailed
      | Some run =>
          if bool_decide (run = Nil) || bool_decide (parent = Nil) ||
             bool_decide (parent = ci_ID input)
          then Err ErrValidationFailed else Ok tt
      end
  end.

Section store.
Variables maxExecutionStateBytes maxStoredMessageBytes : Z.

Definition validateExecutionInput (input : CreateExecutionInput) : outcome unit :=
  if bool_decide (ci_ID input = Nil) || bool_decide (ci_RootTurnID input = Nil) ||
     bool_decide (ci_WorkflowVersion input = []) ||
     bool_decide (ci_WorkingDirectory input = []) ||
     negb (isExecutionContext (ci_Context input))
  then Err ErrValidationFailed
  else if (maxExecutionStateBytes <? zlen (ci_Context input))%Z ||
          (maxStoredMessageBytes <? zlen (ci_Task input))%Z
  then Err ErrValidationFailed
  else validateExecutionLineageInput input.

Definition sameExecutionIdentity (existing : Execution) (input : CreateExecutionInput) : bool :=
  bool_decide (ex_RootTurnID existing = ci_RootTurnID input) &&
  bool_decide (ex_WorkflowVersion existing = ci_WorkflowVersion input) &&
  bool_decide (ex_WorkflowExecutionID existing = ci_WorkflowExecutionID input) &&
  bool_decide (ex_Task existing = ci_Task input) &&
  bool_decide (ex_ParentExecutionID existing = ci_ParentExecutionID input) &&
  bool_decide (ex_AgentRunID existing = ci_AgentRunID input).

Definition requireAgentRunOwner (c : call) (run : AgentRun) : outcome unit :=
  match agentRunOwner c with
  | Some generation =>
      if bool_decide (ar_WorkerGenerationID run = Some generation)
      then Ok tt else Err ErrPermissionDenied
  | None => Ok tt
  end.

Definition findAgentRun (c : call) (sid id : uuid) : tx AgentRun :=
  run ← reads (λ d, firstRow ar_SessionID (agentRuns (others d)) sid id);
  _ ← check (requireAgentRunOwner c run);
  mret run.

(** A nil pointer that the code dereferences. *)
Definition deref {A} (p : option A) : tx A := reads (λ _, index_or_panic p).

Definition withLineage (root : uuid) (e : Execution) : Execution :=
  let 'mkExecution id sid turn _ parent run _ st ver wf task dir ctx n rev pr fd ca pa co := e in
  mkExecution id sid turn root parent run ExecutionKindChild st ver wf task dir ctx n rev pr fd ca pa co.

Definition bornPaused (reason : bytes) (e : Execution) : Execution :=
  let 'mkExecution id sid turn root parent run kind _ ver wf task dir ctx n rev _ fd ca _ co := e in
  mkExecution id sid turn root parent run kind ExecutionStatePaused ver wf task dir ctx n rev
    reason fd ca (Some ca) co.

Definition inheritExecutionParent (c : call) (created : Execution) : tx Execution :=
  parentID ← deref (ex_ParentExecutionID created);
  parent ← findExecution (ex_SessionID created) parentID;
  _ ← refuseIf (negb (bool_decide (ex_RootTurnID parent = ex_RootTurnID created)) ||
                isExecutionTerminal (ex_State parent)) ErrConflict;
  runID ← deref (ex_AgentRunID created);
  child ← findAgentRun c (ex_SessionID created) runID;
  _ ← refuseIf (ar_CancelRequested child ||
                negb (bool_decide (ar_ParentTurnID child = ex_RootTurnID created)) ||
                negb (bool_decide (ar_ParentAgentRunID child = ex_AgentRunID parent)))
       ErrConflict;
  let created := withLineage (ex_RootExecutionID parent) created in
  mret (if bool_decide (ex_State parent = ExecutionStatePaused)
        then bornPaused (ex_PauseReason parent) created else created).

Definition inheritSessionStop (created : Execution) (turn : Turn) : tx Execution :=
  stored ← reads (λ d, match sessions (others d) !! ex_SessionID created with
                       | Some s => Ok s | None => Err ErrNotFound end);
  mret (if negb (bool_decide (tu_StopRevision turn = se_StopRevision stored)) ||
           tu_CancelRequested turn || bool_decide (tu_State turn = TurnStateCancelled)
        then bornPaused ExecutionUserStopReason created else created).

Definition executionRecord (c : call) (sid : uuid) (input : CreateExecutionInput)
    : tx Execution :=
  rootTurn ← reads (λ d, firstRow tu_SessionID (turns (others d)) sid (ci_RootTurnID input));
  let created :=
    mkExecution (ci_ID input) sid (ci_RootTurnID input) (ci_ID input)
      (ci_ParentExecutionID input) (ci_AgentRunID input) ExecutionKindRoot
      ExecutionStateQueued (ci_WorkflowVersion input) (ci_WorkflowExecutionID input)
      (ci_Task input) (ci_WorkingDirectory input) (ci_Context input) 0 0 [] [] (now c)
      None None in
  match ci_ParentExecutionID input with
  | None => inheritSessionStop created rootTurn
  | Some _ => inheritExecutionParent c created
  end.

(** The primary key and the unique indexes of the table. *)
Definition clashes (e old : Execution) : Prop :=
  ex_ID old = ex_ID e ∨
  (ex_AgentRunID e ≠ None ∧ ex_AgentRunID old = ex_AgentRunID e) ∨
  (ex_Kind e = ExecutionKindRoot ∧ ex_Kind old = ExecutionKindRoot ∧
   ex_RootTurnID old = ex_RootTurnID e).
#[export] Instance clashes_dec e old : Decision (clashes e old).
Proof. unfold clashes. apply _. Defined.

Definition insertExecution (created : Execution) : tx unit := λ d,
  if bool_decide (executions d !! ex_ID created ≠ None) ||
     bool_decide (Exists (clashes created) (map_to_list (executions d)).*2)
  then Err ErrAlreadyExists
  else Ok (tt, setExecutions <[ex_ID created := created]> d).

Definition appendExecutionPause (c : call) (execution : Execution) : tx Execution :=
  appendExecutionEvent c execution ExecutionEventTypePaused
    (ReasonPayload (ex_PauseReason execution)).

Definition recordInitialExecutionPause (c : call) (execution : Execution) : tx Execution :=
  if bool_decide (ex_State execution = ExecutionStatePaused)
  then appendExecutionPause c execution else mret execution.

Definition recordExecutionCreation (c : call) (execution : Execution) : tx Execution :=
  execution ← appendExecutionEvent c execution ExecutionEventTypeCreated EmptyPayload;
  recordInitialExecutionPause c execution.

Definition createExecution (c : call) (sid : uuid) (input : CreateExecutionInput)
    : tx Execution := λ d,
  match findExecution sid (ci_ID input) d with
  | Ok (existing, d) =>
      if sameExecutionIdentity existing input then Ok (existing, d) else Err ErrConflict
  | Err ErrNotFound =>
      (created ← executionRecord c sid input;
       _ ← insertExecution created;
       recordExecutionCreation c created) d
  | Err e => Err e
  | Panic => Panic
  | OutOfFuel => OutOfFuel
  end.

Definition CreateExecution (c : call) (sid : uuid) (input : CreateExecutionInput) (d : db)
    : db * outcome Execution :=
  match validateExecutionInput input with
  | Ok _ => transaction (createExecution c sid input) d
  | Err e => (d, Err e)
  | Panic => (d, Panic)
  | OutOfFuel => (d, OutOfFuel)
  end.

Definition GetExecution (sid id : uuid) (d : db) : outcome Execution :=
  firstRow ex_SessionID (executions d) sid id.

End store.

End Executions.
