(* ===== verification/ExecutionControl.v ===== *)
(** Pausing, resuming and cancelling executions (executioncontrol.go,
    executionrecovery.go, executionstop.go, executioncancel.go and the subtree
    query of db/repositories). *)
From stdpp Require Import base gmap sets list strings sorting.
From Stdlib Require Import ZArith Lia Ascii.
From S2P Require Import Prelude GoBytes Executions.

Module ExecutionControl.
Import Executions.

(** ** The subtree query

    [WITH RECURSIVE tree]: the target, and every execution of the session whose
    parent is in the tree.  [inTree] climbs from a row to the target; a table
    of [n] rows needs at most [n] steps (see [Subtree_spec]). *)

Fixpoint inTree (fuel : nat) (table : gmap uuid Execution) (sid target id : uuid) : bool :=
  match fuel with
  | O => false
  | S fuel =>
      match table !! id with
      | Some row =>
          bool_decide (ex_SessionID row = sid) &&
          (bool_decide (id = target) ||
           match ex_ParentExecutionID row with
           | Some parent => inTree fuel table sid target parent
           | None => false
           end)
      | None => false
      end
  end.

(** [ORDER BY created_at, id] *)
Definition created_le (a b : Execution) : Prop :=
  (ex_CreatedAt a < ex_CreatedAt b)%Z ∨
  (ex_CreatedAt a = ex_CreatedAt b ∧ (ex_ID a ≤ ex_ID b)%N).
#[export] Instance created_le_dec a b : Decision (created_le a b).
Proof. unfold created_le. apply _. Defined.

Definition Subtree (sid target : uuid) (table : gmap uuid Execution) : list Execution :=
  merge_sort created_le
    (filter (λ row, inTree (size table) table sid target (ex_ID row) = true)
            (map_to_list table).*2).

(** ** State changes *)

Definition paused (reason : bytes) (at_ : Z) (e : Execution) : Execution :=
  let 'mkExecution id sid turn root parent run kind _ ver wf task dir ctx n rev _ fd ca _ co := e in
  mkExecution id sid turn root parent run kind ExecutionStatePaused ver wf task dir ctx n
    (rev + 1)%Z reason fd ca (Some at_) co.

Definition resumed (s : ExecutionState) (e : Execution) : Execution :=
  let 'mkExecution id sid turn root parent run kind _ ver wf task dir ctx n rev pr fd ca _ co := e in
  mkExecution id sid turn root parent run kind s ver wf task dir ctx n (rev + 1)%Z pr fd ca None co.

Definition cancelled (at_ : Z) (e : Execution) : Execution :=
  let 'mkExecution id sid turn root parent run kind _ ver wf task dir ctx n rev pr fd ca pa _ := e in
  mkExecution id sid turn root parent run kind ExecutionStateCancelled ver wf task dir ctx n
    (rev + 1)%Z pr fd ca pa (Some at_).

(** A control decision: pause, or resume. *)
Inductive control := Pause (reason : bytes) | Resume.

Definition controlEvent (k : control) : ExecutionEventType :=
  match k with Pause _ => ExecutionEventTypePaused | Resume => ExecutionEventTypeResumed end.

Definition shouldChangeExecutionState (s : ExecutionState) (k : control) : bool :=
  match k with
  | Pause _ => negb (bool_decide (s = ExecutionStatePaused)) && negb (isExecutionTerminal s)
  | Resume => bool_decide (s = ExecutionStatePaused)
  end.

Definition resumedState (e : Execution) : ExecutionState :=
  if bool_decide (ex_WorkflowExecutionID e = [])
  then ExecutionStateQueued else ExecutionStateRunning.

Definition changeExecutionState (c : call) (execution : Execution) (k : control) : tx unit :=
  _ ← refuseIf (ex_ControlRevision execution =? max_int64)%Z ErrInvalidState;
  match k with
  | Pause reason => updateExecution execution (paused reason (now c))
  | Resume => updateExecution execution (resumed (resumedState execution))
  end.

Fixpoint changeMembers (c : call) (k : control) (payload : eventPayload)
    (members : list Execution) : tx (list uuid) :=
  match members with
  | [] => mret []
  | execution :: rest =>
      if negb (shouldChangeExecutionState (ex_State execution) k)
      then changeMembers c k payload rest
      else
        _ ← changeExecutionState c execution k;
        _ ← appendExecutionEvent c execution (controlEvent k) payload;
        changed ← changeMembers c k payload rest;
        mret (ex_ID execution :: changed)
  end.

Definition changeExecutionSubtree (c : call) (sid id : uuid) (k : control)
    (payload : eventPayload) : tx (list uuid) :=
  members ← reads (λ d, Ok (Subtree sid id (executions d)));
  changeMembers c k payload members.

Definition changeExecutionTree (c : call) (sid id : uuid) (k : control)
    (payload : eventPayload) (d : db) : db * outcome (list uuid) :=
  transaction (_ ← findExecution sid id; changeExecutionSubtree c sid id k payload) d.

Section control.
Variable maxStoredMessageBytes : Z.

Definition PauseExecution (c : call) (sid id : uuid) (reason : bytes) (d : db)
    : db * outcome (list uuid) :=
  if (maxStoredMessageBytes <? zlen reason)%Z then (d, Err ErrValidationFailed)
  else changeExecutionTree c sid id (Pause reason) (ReasonPayload reason) d.

End control.

Definition ResumeExecution (c : call) (sid id : uuid) (d : db) : db * outcome (list uuid) :=
  changeExecutionTree c sid id Resume EmptyPayload d.

(** ** Recovery and stop

    The query names no order; the model uses the order of the table. *)

Definition ExecutionCrashPauseReason : bytes := bs "paused after a crash".

Definition unfinished (sid : uuid) (e : Execution) : Prop :=
  (ex_State e = ExecutionStateRunning ∨ ex_State e = ExecutionStateReconciling) ∧
  (sid = Nil ∨ ex_SessionID e = sid).
#[export] Instance unfinished_dec sid e : Decision (unfinished sid e).
Proof. unfold unfinished. apply _. Defined.

Fixpoint pauseEach (c : call) (targets : list Execution) : tx Z :=
  match targets with
  | [] => mret 0%Z
  | execution :: rest =>
      changed ← changeExecutionSubtree c (ex_SessionID execution) (ex_ID execution)
                  (Pause ExecutionCrashPauseReason)
                  (ReasonPayload ExecutionCrashPauseReason);
      more ← pauseEach c rest;
      mret (Z.of_nat (length changed) + more)%Z
  end.

Definition PauseUnfinishedExecutions (c : call) (sid : uuid) (d : db) : db * outcome Z :=
  transaction
    (targets ← reads (λ d, Ok (filter (unfinished sid) (map_to_list (executions d)).*2));
     pauseEach c targets) d.

Definition withPauseReason (reason : bytes) (e : Execution) : Execution :=
  let 'mkExecution id sid turn root parent run kind st ver wf task dir ctx n rev _ fd ca pa co := e in
  mkExecution id sid turn root parent run kind st ver wf task dir ctx n rev reason fd ca pa co.

Fixpoint stopEach (c : call) (targets : list Execution) : tx bool :=
  match targets with
  | [] => mret false
  | execution :: rest =>
      if negb (shouldChangeExecutionState (ex_State execution) (Pause ExecutionUserStopReason))
      then stopEach c rest
      else
        _ ← changeExecutionState c execution (Pause ExecutionUserStopReason);
        _ ← appendExecutionPause c (withPauseReason ExecutionUserStopReason execution);
        _ ← stopEach c rest;
        mret true
  end.

Definition pauseSessionExecutions (c : call) (sid : uuid) : tx bool :=
  targets ← reads (λ d, Ok (filter (λ e, ex_SessionID e = sid) (map_to_list (executions d)).*2));
  stopEach c targets.

(** ** Cancelling a child *)

Definition ExecutionUserCancelReason : bytes := bs "user cancelled child agent".

Definition activityEvent (a : ExecutionActivity) : eventPayload :=
  ActivityPayload (ac_ID a) (ac_StepID a) (ac_Kind a) (ac_Attempt a).

Definition appendActivityEvent (c : call) (execution : Execution) (a : ExecutionActivity)
    (kind : ExecutionEventType) : tx Execution :=
  appendExecutionEvent c execution kind (activityEvent a).

Definition activityCancelled (at_ : Z) (a : ExecutionActivity) : ExecutionActivity :=
  let 'mkActivity id sid ex step kind _ pol name inp out ctx att own fd res ca sa _ := a in
  mkActivity id sid ex step kind ActivityStateCancelled pol name inp out ctx att own fd res ca sa
    (Some at_).

Definition ac_created_le (a b : ExecutionActivity) : Prop :=
  (ac_CreatedAt a < ac_CreatedAt b)%Z ∨
  (ac_CreatedAt a = ac_CreatedAt b ∧ (ac_ID a ≤ ac_ID b)%N).
#[export] Instance ac_created_le_dec a b : Decision (ac_created_le a b).
Proof. unfold ac_created_le. apply _. Defined.

(** The activities of an execution in one of some states. *)
Definition activitiesOf (execution : Execution) (d : db) : list ExecutionActivity :=
  filter (λ a, ac_SessionID a = ex_SessionID execution ∧ ac_ExecutionID a = ex_ID execution)
         (map_to_list (activities d)).*2.

Fixpoint cancelEach (c : call) (execution : Execution) (l : list ExecutionActivity)
    : tx Execution :=
  match l with
  | [] => mret execution
  | a :: rest =>
      _ ← updateActivity a (activityCancelled (now c));
      execution ← appendActivityEvent c execution a ExecutionEventTypeStepCancelled;
      cancelEach c execution rest
  end.

Definition cancelExecutionActivities (c : call) (execution : Execution) : tx Execution :=
  l ← reads (λ d, Ok (merge_sort ac_created_le
        (filter (λ a, ac_State a ≠ ActivityStateCompleted ∧ ac_State a ≠ ActivityStateCancelled)
                (activitiesOf execution d))));
  cancelEach c execution l.

(** [settleRun] is what [cancelExecutionAgentRun] answers: the agent run, its
    terminal event and its report are written in ChildRuns, which passes [Ok tt]
    here and composes the two. *)
Definition cancelNativeChild (c : call) (settleRun : outcome unit) (execution : Execution)
    : tx unit :=
  _ ← refuseIf (bool_decide (ex_AgentRunID execution = None) ||
                (ex_ControlRevision execution =? max_int64)%Z) ErrInvalidState;
  _ ← updateExecution execution (cancelled (now c));
  execution ← cancelExecutionActivities c execution;
  _ ← appendExecutionEvent c execution ExecutionEventTypeCancelled
        (ReasonPayload ExecutionUserCancelReason);
  check settleRun.

Fixpoint cancelMembers (c : call) (settleRun : uuid → outcome unit) (members : list Execution)
    : tx unit :=
  match members with
  | [] => mret tt
  | member :: rest =>
      execution ← findExecution (ex_SessionID member) (ex_ID member);
      _ ← (if isExecutionTerminal (ex_State execution) then mret tt
           else cancelNativeChild c (settleRun (ex_ID execution)) execution);
      cancelMembers c settleRun rest
  end.

(** The row of an agent run's execution: the run's id is unique in the table. *)
Definition executionOfRun (sid run : uuid) (d : db) : option Execution :=
  head (filter (λ e, ex_SessionID e = sid ∧ ex_AgentRunID e = Some run)
               (map_to_list (executions d)).*2).

Definition cancelNativeChildTree (c : call) (settleRun : uuid → outcome unit) (sid run : uuid)
    : tx unit :=
  target ← reads (λ d, Ok (executionOfRun sid run d));
  match target with
  | None => mret tt
  | Some target =>
      members ← reads (λ d, Ok (Subtree sid (ex_ID target) (executions d)));
      cancelMembers c settleRun members
  end.


(** ** Reading a transaction that succeeded *)

Lemma tx_bind_Ok {A B} (m : tx A) (f : A → tx B) d b d' :
  (m ≫= f) d = Ok (b, d') → ∃ a d1, m d = Ok (a, d1) ∧ f a d1 = Ok (b, d').
Proof. unfold mbind, tx_bind. destruct (m d) as [[a d1]| | |]; naive_solver. Qed.

Lemma reads_Ok {A} (f : db → outcome A) d a d' :
  reads f d = Ok (a, d') → f d = Ok a ∧ d' = d.
Proof. unfold reads. destruct (f d); naive_solver. Qed.

Lemma check_Ok o d (u : unit) d' : check o d = Ok (u, d') → o = Ok tt ∧ d' = d.
Proof. unfold check. intros [H ->]%reads_Ok. by destruct u. Qed.

Lemma refuseIf_Ok b e d (u : unit) d' : refuseIf b e d = Ok (u, d') → b = false ∧ d' = d.
Proof. unfold refuseIf, check. intros [H ->]%reads_Ok. by destruct b. Qed.

Lemma transaction_Ok {A} (m : tx A) d d' a :
  transaction m d = (d', Ok a) → m d = Ok (a, d').
Proof. unfold transaction. destruct (m d) as [[]| | |]; naive_solver. Qed.

Lemma transaction_failed {A} (m : tx A) d : 
  (transaction m d).1 = d ∨ ∃ a d', m d = Ok (a, d') ∧ transaction m d = (d', Ok a).
Proof. unfold transaction. destruct (m d) as [[]| | |]; naive_solver. Qed.

Lemma transaction_other {A} (m : tx A) d d' r :
  transaction m d = (d', r) → (∀ a, r ≠ Ok a) → d' = d.
Proof. unfold transaction. destruct (m d) as [[]| | |]; naive_solver. Qed.

Lemma firstRow_Ok {R} (session : R → uuid) table sid key row :
  firstRow session table sid key = Ok row ↔ table !! key = Some row ∧ session row = sid.
Proof.
  unfold firstRow. destruct (table !! key) as [r|]; [|naive_solver].
  case_bool_decide; naive_solver.
Qed.

Lemma findExecution_Ok sid id d e d' :
  findExecution sid id d = Ok (e, d') →
  executions d !! id = Some e ∧ ex_SessionID e = sid ∧ d' = d.
Proof. unfold findExecution. intros [[? ?]%firstRow_Ok ->]%reads_Ok. done. Qed.

(** Peel the steps of a transaction that succeeded. *)
Ltac run_tx :=
  repeat match goal with
  | H : (_ ≫= _) _ = Ok (_, _) |- _ =>
      let a := fresh "a" in let d := fresh "d" in let H1 := fresh "Hm" in
      apply tx_bind_Ok in H as (a & d & H1 & H)
  | H : reads _ _ = Ok (_, _) |- _ => apply reads_Ok in H as [H ?]; subst
  | H : check _ _ = Ok (_, _) |- _ => apply check_Ok in H as [H ?]; subst
  | H : refuseIf _ _ _ = Ok (_, _) |- _ => apply refuseIf_Ok in H as [H ?]; subst
  | H : findExecution _ _ _ = Ok (_, _) |- _ =>
      apply findExecution_Ok in H as (? & ? & ?); subst
  | H : mret _ _ = Ok (_, _) |- _ => injection H as ? ?; subst
  | H : updateExecution _ _ _ = Ok (_, _) |- _ => injection H as ? ?; subst
  | H : updateActivity _ _ _ = Ok (_, _) |- _ => injection H as ? ?; subst
  | H : Ok _ = Ok _ |- _ => injection H as H; subst
  | H : Err _ = Ok _ |- _ => discriminate H
  | H : Panic = Ok _ |- _ => discriminate H
  | H : OutOfFuel = Ok _ |- _ => discriminate H
  end.

Lemma updateRow_found {R} (session : R → uuid) sid key f table row :
  table !! key = Some row → session row = sid →
  updateRow session sid key f table = <[key := f row]> table.
Proof. intros H1 H2. unfold updateRow. by rewrite H1, bool_decide_eq_true_2. Qed.

(** ** What appending an event does *)

Definition eventOf (c : call) (e : Execution) (kind : ExecutionEventType) (p : eventPayload)
    : ExecutionEvent :=
  mkEvent (ex_SessionID e) (ex_ID e) (ex_EventCount e + 1)%Z kind p (now c).

(** The row of an execution that a caller holds, up to the columns it does not
    write back. *)
Definition holds (e : Execution) (row : Execution) (d : db) : Prop :=
  executions d !! ex_ID e = Some row ∧ ex_SessionID row = ex_SessionID e ∧
  ex_EventCount row = ex_EventCount e.

Lemma appendExecutionEvent_Ok c e kind p d e' d' row :
  holds e row d → appendExecutionEvent c e kind p d = Ok (e', d') →
  (ex_EventCount e ≠ maxEventCount)%Z ∧
  e' = withEventCount (ex_EventCount e + 1) e ∧
  d' = mkDb (<[ex_ID e := withEventCount (ex_EventCount e + 1) row]> (executions d))
            (activities d) (events d ++ [eventOf c e kind p]) (others d).
Proof.
  intros (Hrow & Hs & Hn) H. unfold appendExecutionEvent in H.
  apply tx_bind_Ok in H as (? & d1 & H1 & H). apply refuseIf_Ok in H1 as [Hmax ->].
  apply Z.eqb_neq in Hmax. split; [done|].
  apply tx_bind_Ok in H as (? & d2 & H1 & H). unfold createEvent in H1.
  case_bool_decide; [done|]. injection H1 as <- <-.
  run_tx. split; [done|]. unfold setExecutions, setEvents. simpl. f_equal.
  by apply updateRow_found.
Qed.

Lemma updateExecution_Ok e f row d :
  holds e row d →
  updateExecution e f d = Ok (tt, setExecutions <[ex_ID e := f row]> d).
Proof.
  intros (Hrow & Hs & _). unfold updateExecution, setExecutions. do 3 f_equal.
  by apply updateRow_found.
Qed.

(** ** What a control decision does *)

Definition controlled (c : call) (k : control) (e : Execution) : Execution :=
  withEventCount (ex_EventCount e + 1)
    (match k with
     | Pause reason => paused reason (now c) e
     | Resume => resumed (resumedState e) e
     end).

Definition changes (k : control) (e : Execution) : bool :=
  shouldChangeExecutionState (ex_State e) k.

(** A list of rows of a table, each once. *)
Definition rowsOf (table : gmap uuid Execution) (l : list Execution) : Prop :=
  NoDup (ex_ID <$> l) ∧ ∀ e, e ∈ l → table !! ex_ID e = Some e.

Definition changedEvents (c : call) (k : control) (p : eventPayload) (l : list Execution)
    : list ExecutionEvent :=
  (λ e, eventOf c e (controlEvent k) p) <$> filter (λ e, changes k e = true) l.

Definition changedTable (c : call) (k : control) (l : list Execution)
    (table : gmap uuid Execution) : gmap uuid Execution :=
  foldl (λ t e, <[ex_ID e := controlled c k e]> t) table (filter (λ e, changes k e = true) l).

Lemma ex_ID_controlled c k e : ex_ID (controlled c k e) = ex_ID e.
Proof. by destruct k, e. Qed.

Lemma rowsOf_cons table e l :
  rowsOf table (e :: l) → table !! ex_ID e = Some e ∧ (ex_ID e ∉ (ex_ID <$> l)) ∧ rowsOf table l.
Proof.
  intros [Hnd Hrow]. rewrite fmap_cons in Hnd. apply NoDup_cons in Hnd as [Hni Hnd].
  split; [apply Hrow; left|]. split; [done|]. split; [done|]. intros e' ?. apply Hrow. by right.
Qed.

Lemma rowsOf_insert table l id e :
  rowsOf table l → id ∉ (ex_ID <$> l) → rowsOf (<[id := e]> table) l.
Proof.
  intros [Hnd Hrow] Hni. split; [done|]. intros e' He'. rewrite lookup_insert_ne; [by apply Hrow|].
  intros ->. apply Hni. by apply list_elem_of_fmap_2.
Qed.

(** One member. *)
Lemma changeMember_Ok c k p e d d1 d2 u (e' : Execution) :
  executions d !! ex_ID e = Some e →
  changeExecutionState c e k d = Ok (u, d1) →
  appendExecutionEvent c e (controlEvent k) p d1 = Ok (e', d2) →
  d2 = mkDb (<[ex_ID e := controlled c k e]> (executions d)) (activities d)
         (events d ++ [eventOf c e (controlEvent k) p]) (others d).
Proof.
  intros Hrow H1 H2.
  set (e1 := match k with Pause reason => paused reason (now c) e
                        | Resume => resumed (resumedState e) e end).
  assert (Hd1 : d1 = setExecutions <[ex_ID e := e1]> d).
  { unfold changeExecutionState in H1.
    apply tx_bind_Ok in H1 as (? & ? & Hm & H1). apply refuseIf_Ok in Hm as [_ ->].
    destruct k; rewrite (updateExecution_Ok e _ e) in H1 by done; by injection H1 as <- <-. }
  subst d1. apply (appendExecutionEvent_Ok _ _ _ _ _ _ _ e1) in H2 as (_ & _ & ->).
  - unfold setExecutions. simpl. by rewrite insert_insert_eq.
  - unfold holds, setExecutions, e1. simpl. rewrite lookup_insert_eq. by destruct k, e.
Qed.

Lemma changeMembers_Ok c k p l d ids d' :
  rowsOf (executions d) l → changeMembers c k p l d = Ok (ids, d') →
  ids = ex_ID <$> filter (λ e, changes k e = true) l ∧
  executions d' = changedTable c k l (executions d) ∧
  events d' = events d ++ changedEvents c k p l ∧
  activities d' = activities d ∧ others d' = others d.
Proof.
  revert d ids d'. induction l as [|e l IH]; intros d ids d' Hrows H; simpl in H.
  - injection H as <- <-. unfold changedEvents. simpl. by rewrite app_nil_r.
  - apply rowsOf_cons in Hrows as (Hrow & Hni & Hrows).
    unfold changedTable, changedEvents. rewrite filter_cons.
    fold (changes k e) in H. destruct (changes k e) eqn:Hch; simpl in H; cycle 1.
    { rewrite decide_False by done. by apply IH. }
    rewrite decide_True by done.
    apply tx_bind_Ok in H as (? & d1 & Hm & H). apply tx_bind_Ok in H as (e' & d2 & Hm1 & H).
    pose proof (changeMember_Ok _ _ _ _ _ _ _ _ _ Hrow Hm Hm1) as ->.
    apply tx_bind_Ok in H as (ids1 & d3 & Hm2 & H). injection H as <- <-.
    apply IH in Hm2 as (-> & He & Hev & Ha & Hr); [|by apply rowsOf_insert].
    simpl in *. split; [done|]. split; [|split; [|done]].
    + by rewrite He.
    + by rewrite Hev, <- app_assoc.
Qed.

Lemma changedRows_out c k l (table : gmap uuid Execution) id :
  id ∉ (ex_ID <$> l) →
  (foldl (λ t e, <[ex_ID e := controlled c k e]> t) table l) !! id = table !! id.
Proof.
  revert table. induction l as [|e l IH]; intros table Hni; simpl; [done|].
  rewrite fmap_cons, not_elem_of_cons in Hni. destruct Hni as [Hne Hni].
  rewrite IH by done. by apply lookup_insert_ne.
Qed.

Lemma changedRows_in c k l (table : gmap uuid Execution) e :
  NoDup (ex_ID <$> l) → e ∈ l →
  (foldl (λ t e, <[ex_ID e := controlled c k e]> t) table l) !! ex_ID e = Some (controlled c k e).
Proof.
  revert table. induction l as [|x l IH]; intros table Hnd He; simpl; [by apply elem_of_nil in He|].
  rewrite fmap_cons in Hnd. apply NoDup_cons in Hnd as [Hni Hnd].
  apply elem_of_cons in He as [->|He]; [|by apply IH].
  rewrite changedRows_out by done. apply lookup_insert_eq.
Qed.

(** The rows of a table are stored under their ids. *)
Definition keyed (table : gmap uuid Execution) : Prop :=
  ∀ id e, table !! id = Some e → ex_ID e = id.

Lemma NoDup_ids_filter (P : Execution → Prop) `{!∀ e, Decision (P e)} l :
  NoDup (ex_ID <$> l) → NoDup (ex_ID <$> filter P l).
Proof. intros. eapply sublist_NoDup; [done|]. apply fmap_sublist, sublist_filter. Qed.

Lemma changedTable_lookup c k l table id :
  keyed table → rowsOf table l →
  changedTable c k l table !! id =
  (λ e, if bool_decide (e ∈ l ∧ changes k e = true) then controlled c k e else e) <$> (table !! id).
Proof.
  intros Hk [Hnd Hrows]. unfold changedTable.
  assert (Hnd' := NoDup_ids_filter (λ e, changes k e = true) l Hnd).
  destruct (table !! id) as [e|] eqn:He; simpl.
  - case_bool_decide as Hc.
    + rewrite <- (Hk _ _ He). apply changedRows_in; [done|]. apply list_elem_of_filter. naive_solver.
    + rewrite changedRows_out; [done|]. intros (x & Hid & Hx)%list_elem_of_fmap.
      apply list_elem_of_filter in Hx as [Hx Hin]. apply Hc.
      specialize (Hrows _ Hin). rewrite <- Hid, He in Hrows. naive_solver.
  - rewrite changedRows_out; [done|]. intros (x & Hid & Hx)%list_elem_of_fmap.
    apply list_elem_of_filter in Hx as [Hx Hin]. apply Hrows in Hin. congruence.
Qed.

(** ** The subtree *)

(** The recursive query: the target, and the children of what it selects. *)
Inductive below (table : gmap uuid Execution) (sid target : uuid) : uuid → Prop :=
  | below_target row :
      table !! target = Some row → ex_SessionID row = sid → below table sid target target
  | below_child id row parent :
      table !! id = Some row → ex_SessionID row = sid → ex_ParentExecutionID row = Some parent →
      below table sid target parent → below table sid target id.

Lemma inTree_S table sid target n id :
  inTree n table sid target id = true → inTree (S n) table sid target id = true.
Proof.
  revert id. induction n as [|n IH]; intros id H; [done|].
  cbn [inTree] in H. destruct (table !! id) as [row|] eqn:Hrow; [|done].
  apply andb_true_iff in H as [Hs H]. cbn [inTree]. rewrite Hrow, Hs. simpl.
  apply orb_true_iff in H as [H|H]; [by rewrite H|].
  destruct (ex_ParentExecutionID row) as [parent|]; [|done].
  apply orb_true_iff. right. by apply IH.
Qed.

Lemma inTree_mono table sid target n m id :
  n ≤ m → inTree n table sid target id = true → inTree m table sid target id = true.
Proof. induction 1; [done|]. intros. apply inTree_S. auto. Qed.

Lemma inTree_below table sid target n id :
  inTree n table sid target id = true → below table sid target id.
Proof.
  revert id. induction n as [|n IH]; intros id H; [done|].
  cbn [inTree] in H. destruct (table !! id) as [row|] eqn:Hrow; [|done].
  apply andb_true_iff in H as [Hs%bool_decide_eq_true H].
  apply orb_true_iff in H as [->%bool_decide_eq_true|H]; [by eapply below_target|].
  destruct (ex_ParentExecutionID row) as [parent|] eqn:Hp; [|done]. eapply below_child; eauto.
Qed.

Lemma below_inTree table sid target id :
  below table sid target id → ∃ n, inTree n table sid target id = true.
Proof.
  induction 1 as [row Hrow Hs|id row parent Hrow Hs Hp _ [n IH]].
  - exists 1. cbn [inTree]. rewrite Hrow. by rewrite !bool_decide_eq_true_2.
  - exists (S n). cbn [inTree]. rewrite Hrow, Hp, IH, orb_true_r, andb_true_r.
    by apply bool_decide_eq_true.
Qed.

(** A row that needs [n] steps has [n] distinct rows above and including it. *)
Lemma inTree_path table sid target n id :
  inTree n table sid target id = true →
  (∀ m, m < n → inTree m table sid target id = false) →
  ∃ l, NoDup l ∧ length l = n ∧
       ∀ x, x ∈ l → is_Some (table !! x) ∧ inTree n table sid target x = true.
Proof.
  revert id. induction n as [|n IH]; intros id H Hmin; [done|].
  pose proof H as Hid. cbn [inTree] in H. destruct (table !! id) as [row|] eqn:Hrow; [|done].
  assert (Hself : is_Some (table !! id) ∧ inTree (S n) table sid target id = true)
    by (rewrite Hrow; eauto).
  destruct n as [|n].
  { exists [id]. split; [apply NoDup_singleton|]. split; [done|].
    by intros x ->%list_elem_of_singleton. }
  apply andb_true_iff in H as [Hs H].
  apply orb_true_iff in H as [H|H].
  { specialize (Hmin 1). cbn [inTree] in Hmin. rewrite Hrow, Hs, H in Hmin.
    discriminate Hmin. lia. }
  destruct (ex_ParentExecutionID row) as [parent|] eqn:Hp; [|done].
  destruct (IH _ H) as (l & Hnd & Hlen & Hl).
  { intros m Hm. specialize (Hmin (S m)). cbn [inTree] in Hmin. rewrite Hrow, Hs, Hp in Hmin.
    destruct (inTree m table sid target parent); [|done].
    rewrite orb_true_r in Hmin. discriminate Hmin. lia. }
  exists (id :: l). split; [|split].
  - apply NoDup_cons. split; [|done]. intros [_ Hin]%Hl. by rewrite Hmin in Hin by lia.
  - simpl. lia.
  - intros x [->|Hx]%elem_of_cons; [done|]. destruct (Hl _ Hx). split; [done|]. by apply inTree_S.
Qed.

Lemma inTree_size table sid target id :
  inTree (size table) table sid target id = true ↔ below table sid target id.
Proof.
  split; [apply inTree_below|]. intros [n Hn]%below_inTree.
  induction n as [n IH] using lt_wf_ind.
  destruct (decide (Exists (λ m, inTree m table sid target id = true) (seq 0 n))) as [Hex|Hmin].
  { apply Exists_exists in Hex as (m & Hm%elem_of_seq & H). apply (IH m); [lia|done]. }
  destruct (inTree_path _ _ _ _ _ Hn) as (l & Hnd & Hlen & Hl).
  { intros m Hm. apply not_true_is_false. intros ?. apply Hmin, Exists_exists.
    exists m. split; [apply elem_of_seq; lia|done]. }
  eapply inTree_mono; [|done]. rewrite <- Hlen, <- (size_dom table).
  rewrite <- (size_list_to_set (C:=gset uuid) l Hnd). apply subseteq_size.
  intros x Hx%elem_of_list_to_set. apply elem_of_dom. by apply Hl.
Qed.

Lemma elem_of_rows (table : gmap uuid Execution) e :
  keyed table → e ∈ (map_to_list table).*2 ↔ table !! ex_ID e = Some e.
Proof.
  intros Hk. rewrite list_elem_of_fmap. split.
  - intros ([id row] & -> & Hin%elem_of_map_to_list). simpl. by rewrite (Hk _ _ Hin).
  - intros H. exists (ex_ID e, e). split; [done|]. by apply elem_of_map_to_list.
Qed.

Lemma rows_ids (table : gmap uuid Execution) :
  keyed table → ex_ID <$> (map_to_list table).*2 = (map_to_list table).*1.
Proof.
  intros Hk. rewrite <- list_fmap_compose. apply list_fmap_ext. intros i [id row] Hi. simpl.
  apply list_elem_of_lookup_2, elem_of_map_to_list in Hi. by apply Hk.
Qed.

Lemma rowsOf_filter (table : gmap uuid Execution) (P : Execution → Prop) `{!∀ e, Decision (P e)} :
  keyed table → rowsOf table (filter P (map_to_list table).*2).
Proof.
  intros Hk. split.
  - apply NoDup_ids_filter. rewrite rows_ids by done. apply NoDup_fst_map_to_list.
  - intros e [_ He]%list_elem_of_filter. by apply elem_of_rows.
Qed.

Lemma rowsOf_perm table l k : l ≡ₚ k → rowsOf table l → rowsOf table k.
Proof.
  intros Hp [Hnd Hrow]. split; [by rewrite <- Hp|]. intros e. rewrite <- Hp. apply Hrow.
Qed.

Lemma Subtree_rows sid target table : keyed table → rowsOf table (Subtree sid target table).
Proof.
  intros Hk. eapply rowsOf_perm; [symmetry; apply merge_sort_Permutation|]. by apply rowsOf_filter.
Qed.

Lemma elem_of_Subtree sid target table e :
  keyed table →
  e ∈ Subtree sid target table ↔
  table !! ex_ID e = Some e ∧ below table sid target (ex_ID e).
Proof.
  intros Hk. unfold Subtree. rewrite merge_sort_Permutation, list_elem_of_filter.
  rewrite elem_of_rows by done. rewrite inTree_size. naive_solver.
Qed.

Lemma changeExecutionTree_Ok c sid id k p d ids d' :
  keyed (executions d) → changeExecutionTree c sid id k p d = (d', Ok ids) →
  ∃ l, l = Subtree sid id (executions d) ∧
       ids = ex_ID <$> filter (λ e, changes k e = true) l ∧
       executions d' = changedTable c k l (executions d) ∧
       events d' = events d ++ changedEvents c k p l ∧
       activities d' = activities d.
Proof.
  intros Hk H. apply transaction_Ok in H. unfold changeExecutionSubtree in H. run_tx.
  apply changeMembers_Ok in H; [|by apply Subtree_rows]. naive_solver.
Qed.

(** ** Transactions return *)

Definition total {A} (m : tx A) : Prop := ∀ d, returns (m d).

Lemma total_bind {A B} (m : tx A) (f : A → tx B) :
  total m → (∀ a, total (f a)) → total (m ≫= f).
Proof.
  intros Hm Hf d. unfold mbind, tx_bind. specialize (Hm d).
  destruct (m d) as [[a d']| | |]; simpl in *; try done. apply Hf.
Qed.

Lemma total_ret {A} (a : A) : total (mret a).
Proof. done. Qed.

Lemma total_reads {A} (f : db → outcome A) : (∀ d, returns (f d)) → total (reads f).
Proof. intros Hf d. unfold reads. specialize (Hf d). by destruct (f d). Qed.

Lemma total_refuseIf b e : total (refuseIf b e).
Proof. by apply total_reads; destruct b. Qed.

Lemma total_update e f : total (updateExecution e f).
Proof. done. Qed.

Lemma total_updateActivity a f : total (updateActivity a f).
Proof. done. Qed.

Lemma total_createEvent ev : total (createEvent ev).
Proof. intros d. unfold createEvent. by case_bool_decide. Qed.

#[export] Hint Resolve total_ret total_refuseIf total_update total_updateActivity
  total_createEvent : go.

Lemma total_append c e kind p : total (appendExecutionEvent c e kind p).
Proof. unfold appendExecutionEvent. repeat (apply total_bind; [auto with go|intros]). done. Qed.

Lemma total_findExecution sid id : total (findExecution sid id).
Proof.
  apply total_reads. intros d. unfold firstRow. destruct (executions d !! id); [|done].
  by case_bool_decide.
Qed.
#[export] Hint Resolve total_append total_findExecution : go.

Lemma total_changeMembers c k p l : total (changeMembers c k p l).
Proof.
  induction l as [|e l IH]; simpl; [done|]. destruct (shouldChangeExecutionState _ _); simpl; [|done].
  apply total_bind; [|intros].
  { unfold changeExecutionState. apply total_bind; [auto with go|]. intros _. by destruct k. }
  apply total_bind; [auto with go|intros]. apply total_bind; [done|]. by intros.
Qed.

Lemma changeExecutionTree_returns c sid id k p d :
  returns (changeExecutionTree c sid id k p d).2.
Proof.
  unfold changeExecutionTree, transaction.
  assert (Ht : total (_ ← findExecution sid id; changeExecutionSubtree c sid id k p)).
  { apply total_bind; [auto with go|intros _]. apply total_bind; [by apply total_reads|].
    intros l. apply total_changeMembers. }
  specialize (Ht d). repeat case_match; simplify_eq; simpl in *; done.
Qed.

Lemma changeExecutionTree_error c sid id k p d d' e :
  changeExecutionTree c sid id k p d = (d', Err e) → d' = d.
Proof. unfold changeExecutionTree, transaction. repeat case_match; naive_solver. Qed.

(** Pausing an execution pauses the whole subtree of the target and nothing
    else: every queued, running or reconciling execution that hangs below the
    target, however deep, is paused with the reason, a new control revision
    and one event, its work identity untouched; terminal and already paused
    members and every execution outside the subtree keep their row; no step
    changes; the answer lists the executions that were paused; and a failed
    pause changes nothing. *)
Theorem PauseExecution_subtree maxStoredMessageBytes c sid id reason d d' r :
  keyed (executions d) →
  PauseExecution maxStoredMessageBytes c sid id reason d = (d', r) →
  match r with
  | Ok ids =>
      activities d' = activities d ∧
      (∀ x, x ∈ ids ↔ ∃ e, executions d !! x = Some e ∧ below (executions d) sid id x ∧
                            ex_State e ≠ ExecutionStatePaused ∧
                            isExecutionTerminal (ex_State e) = false) ∧
      ∀ x, executions d' !! x =
        (λ e, if bool_decide (x ∈ ids)
              then withEventCount (ex_EventCount e + 1) (paused reason (now c) e) else e)
          <$> (executions d !! x)
  | Err _ => d' = d
  | Panic | OutOfFuel => False
  end.
Proof.
  intros Hk H. unfold PauseExecution in H. case_if; [by injection H as <- <-|].
  destruct r as [ids|e| |].
  - apply changeExecutionTree_Ok in H as (l & -> & -> & He & _ & Ha); [|done].
    assert (Hin : ∀ x, x ∈ ex_ID <$> filter (λ e, changes (Pause reason) e = true)
                            (Subtree sid id (executions d)) ↔
              ∃ e, executions d !! x = Some e ∧ e ∈ Subtree sid id (executions d) ∧
                   changes (Pause reason) e = true).
    { intros x. rewrite list_elem_of_fmap. split.
      - intros (e & -> & [Hc Hin]%list_elem_of_filter). exists e. split; [|done].
        by apply elem_of_Subtree in Hin as [? _].
      - intros (e & Hx & Hin & Hc). exists e. rewrite (Hk _ _ Hx).
        split; [done|]. by apply list_elem_of_filter. }
    split; [done|]. split.
    + intros x. rewrite Hin. unfold changes, shouldChangeExecutionState.
      setoid_rewrite andb_true_iff. setoid_rewrite negb_true_iff.
      setoid_rewrite bool_decide_eq_false.
      split; intros (e & Hx & Hs & Hc); exists e; pose proof (Hk _ _ Hx) as <-.
      * apply elem_of_Subtree in Hs as [_ Hs]; naive_solver.
      * split; [done|]. split; [|done]. by apply elem_of_Subtree.
    + intros x. rewrite He, changedTable_lookup by (done || by apply Subtree_rows).
      destruct (executions d !! x) as [e|] eqn:Hx; simpl; [|done]. f_equal.
      erewrite (bool_decide_ext (x ∈ _)); [done|]. rewrite Hin, Hx. naive_solver.
  - by apply changeExecutionTree_error in H.
  - pose proof (changeExecutionTree_returns c sid id (Pause reason) (ReasonPayload reason) d) as Hr.
    by rewrite H in Hr.
  - pose proof (changeExecutionTree_returns c sid id (Pause reason) (ReasonPayload reason) d) as Hr.
    by rewrite H in Hr.
Qed.

(** A running root, its completed child and the child's running child, and
    another root of the session. *)
Definition sample_execution (id root : uuid) (parent : option uuid) (s : ExecutionState)
    : Execution :=
  mkExecution id 1%N 2%N root parent None
    (if bool_decide (parent ≠ None) then ExecutionKindChild else ExecutionKindRoot) s (bs "v1") (bs "wf") [] (bs "/w")
    (bs "{}") 0 0 [] [] 5%Z None None.

Definition sample_db : db :=
  mkDb (list_to_map ((λ e, (ex_ID e, e)) <$>
          [sample_execution 10%N 10%N None ExecutionStateRunning;
           sample_execution 11%N 10%N (Some 10%N) ExecutionStateCompleted;
           sample_execution 12%N 10%N (Some 11%N) ExecutionStateRunning;
           sample_execution 20%N 20%N None ExecutionStateRunning]))
       ∅ [] noOthers.

Lemma PauseExecution_subtree_witness :
  let run := PauseExecution 100 (mkCall 7 99%N None) 1%N 10%N (bs "stop") sample_db in
  run = (run.1, Ok [10; 12]%N) ∧
  executions run.1 !! 20%N = executions sample_db !! 20%N ∧
  executions run.1 !! 11%N = executions sample_db !! 11%N ∧
  (ex_State <$> executions run.1 !! 12%N) = Some ExecutionStatePaused.
Proof.
  intros run. assert (Hrun : run = (run.1, Ok [10; 12]%N)) by (vm_compute; reflexivity).
  split; [exact Hrun|].
  destruct (PauseExecution_subtree 100 (mkCall 7 99%N None) 1%N 10%N (bs "stop") sample_db
    run.1 (Ok [10; 12]%N)) as (_ & _ & Hx).
  - assert (Hk : map_Forall (λ id e, ex_ID e = id) (executions sample_db))
      by (apply (bool_decide_unpack _); vm_compute; exact I).
    intros id e He. exact (Hk id e He).
  - exact Hrun.
  - split; [|split]; [rewrite (Hx 20%N)|rewrite (Hx 11%N)|rewrite (Hx 12%N)];
      vm_compute; reflexivity.
Defined.

End ExecutionControl.
