(* ===== verification/Activities.v ===== *)
(** The steps of an execution (executionactivities.go, executionactivityresults.go,
    executionactivityrecovery.go, executionfinish.go, executionfinishdecision.go,
    executionfinishidentity.go, executionfinishinbox.go, executionfinishholder.go,
    executionseal.go, executionagentcontrol.go and
    executionagentresolution.go): a worker claims a step, completes or
    interrupts its attempt, and an unknown effect is inspected before it may
    run again. *)
From stdpp Require Import base gmap sets list strings sorting.
From Stdlib Require Import ZArith Lia Ascii.
From S2P Require Import Prelude GoBytes Json Workspace Executions ExecutionControl.

Module Activities.
Import Executions ExecutionControl.

Definition maximumActivityIdentityBytes : Z := 512.
Definition interruptedActivityReason : bytes := bs "previous activity outcome is unknown".
Definition emptyActivityJSON : bytes := bs "{}".
Definition ExecutionFinishActivityName : bytes := bs "finishExecutionV1".
Definition ExecutionFinishStepID : bytes := bs "finish".
Definition executionFinishStepPrefix : bytes := bs "finish:".

(** ** Inputs and answers *)

Inductive ActivityDecision :=
  | ActivityDecisionExecute | ActivityDecisionReuse
  | ActivityDecisionPaused | ActivityDecisionReconcile.

Record ScheduleActivityInput := mkSchedule {
  sc_StepID : bytes;
  sc_Kind : ActivityKind;
  sc_ReplayPolicy : ActivityReplayPolicy;
  sc_Name : bytes;
  sc_Input : bytes }.

Record ActivityLease := mkLease {
  le_ID : uuid;
  le_GenerationID : uuid;
  le_Attempt : Z }.

Record ActivityClaim := mkClaim {
  cl_Activity : ExecutionActivity;
  cl_Lease : ActivityLease;
  cl_Decision : ActivityDecision }.

Definition noLease : ActivityLease := mkLease Nil Nil 0.

Record ExecutionFinishHolder := mkHolder {
  ho_LeaseID : uuid;
  ho_ControlRevision : Z }.

(** A finish without a root turn or a child outcome. *)
Record FinishExecutionInput := mkFinish {
  fi_State : ExecutionState;
  fi_WorkingDirectory : bytes;
  fi_FailureDetail : bytes;
  fi_PendingOutput : bytes;
  fi_RootHolder : option ExecutionFinishHolder;
  fi_ChildReport : bytes }.

(** A completion without a compaction or a transcript projection. *)
Record CompleteActivityInput := mkComplete {
  co_Output : bytes;
  co_Context : bytes;
  co_Finish : option FinishExecutionInput }.

Inductive ActivityResolution :=
  | ActivityResolutionRetry | ActivityResolutionAccept | ActivityResolutionOther (text : bytes).
#[export] Instance ActivityResolution_eq_dec : EqDecision ActivityResolution.
Proof. solve_decision. Defined.

Record ResolveActivityInput := mkResolve {
  re_Attempt : Z;
  re_Resolution : ActivityResolution;
  re_Evidence : bytes;
  re_Output : bytes;
  re_Context : bytes }.

(** ** Column updates of an activity *)

Definition activityStarted (generation : uuid) (attempt at_ : Z) (a : ExecutionActivity)
    : ExecutionActivity :=
  let 'mkActivity id sid ex step kind _ pol name inp out ctx _ _ _ _ ca _ _ := a in
  mkActivity id sid ex step kind ActivityStateRunning pol name inp out ctx attempt
    (Some generation) [] NoResolution ca (Some at_) None.

Definition activityResult (output context : bytes) (at_ : Z) (a : ExecutionActivity)
    : ExecutionActivity :=
  let 'mkActivity id sid ex step kind _ pol name inp _ _ att own _ res ca sa _ := a in
  mkActivity id sid ex step kind ActivityStateCompleted pol name inp (Some output) context att own
    [] res ca sa (Some at_).

Definition activityStopped (s : ActivityState) (a : ExecutionActivity) : ExecutionActivity :=
  let 'mkActivity id sid ex step kind _ pol name inp out ctx att own _ res ca sa co := a in
  mkActivity id sid ex step kind s pol name inp out ctx att own interruptedActivityReason res ca sa
    co.

Definition activityInspected (r : resolution) (a : ExecutionActivity) : ExecutionActivity :=
  let 'mkActivity id sid ex step kind st pol name inp out ctx att own fd _ ca sa co := a in
  mkActivity id sid ex step kind st pol name inp out ctx att own fd r ca sa co.

Definition activityReleased (a : ExecutionActivity) : ExecutionActivity :=
  let 'mkActivity id sid ex step kind _ pol name inp out ctx att _ _ res ca sa co := a in
  mkActivity id sid ex step kind ActivityStateScheduled pol name inp out ctx att None [] res ca sa
    co.

Definition executionFinished (s : ExecutionState) (context directory detail : bytes) (at_ : Z)
    (e : Execution) : Execution :=
  let 'mkExecution id sid turn root parent run kind _ ver wf task _ _ n rev pr _ ca _ _ := e in
  mkExecution id sid turn root parent run kind s ver wf task directory context n rev pr detail ca
    None (Some at_).

(** ** Scheduling *)

Definition validateActivityPolicy (input : ScheduleActivityInput) : outcome unit :=
  if negb (bool_decide (sc_ReplayPolicy input = ActivityReplayPolicyRetry)) &&
     negb (bool_decide (sc_ReplayPolicy input = ActivityReplayPolicyReconcile))
  then Err ErrValidationFailed
  else match sc_Kind input with
  | ActivityKindModel | ActivityKindCompaction | ActivityKindPreparation =>
      if negb (bool_decide (sc_ReplayPolicy input = ActivityReplayPolicyRetry))
      then Err ErrValidationFailed else Ok tt
  | ActivityKindTool => Ok tt
  | ActivityKindOther _ => Err ErrValidationFailed
  end.

Definition sameActivityInput (a : ExecutionActivity) (input : ScheduleActivityInput) : bool :=
  bool_decide (ac_Kind a = sc_Kind input) && bool_decide (ac_Name a = sc_Name input) &&
  bool_decide (ac_ReplayPolicy a = sc_ReplayPolicy input) &&
  bool_decide (ac_InputJSON a = sc_Input input).

(** The step of an execution: its step id is unique in the table. *)
Definition findStep (execution : Execution) (step : bytes) (d : db) : option ExecutionActivity :=
  head (filter (λ a, ac_StepID a = step) (activitiesOf execution d)).

Definition createActivity (a : ExecutionActivity) : tx unit := λ d,
  if bool_decide (activities d !! ac_ID a ≠ None) ||
     bool_decide (Exists (λ old, ac_ExecutionID old = ac_ExecutionID a ∧
                                 ac_StepID old = ac_StepID a) (map_to_list (activities d)).*2)
  then Err ErrAlreadyExists
  else Ok (tt, setActivities <[ac_ID a := a]> d).

Definition ensureExecutionActivity (c : call) (execution : Execution)
    (input : ScheduleActivityInput) : tx (Execution * ExecutionActivity) :=
  found ← reads (λ d, Ok (findStep execution (sc_StepID input) d));
  match found with
  | Some a =>
      _ ← refuseIf (negb (sameActivityInput a input)) ErrConflict;
      mret (execution, a)
  | None =>
      let a := mkActivity (newID c) (ex_SessionID execution) (ex_ID execution) (sc_StepID input)
                 (sc_Kind input) ActivityStateScheduled (sc_ReplayPolicy input) (sc_Name input)
                 (sc_Input input) None emptyActivityJSON 0 None [] NoResolution (now c) None None in
      _ ← createActivity a;
      execution ← appendActivityEvent c execution a ExecutionEventTypeStepScheduled;
      mret (execution, a)
  end.

Definition recoverableAgentRun (run : AgentRun) (generation : uuid) : bool :=
  bool_decide (ar_State run = AgentRunStateInterrupted) ||
  (bool_decide (ar_State run = AgentRunStateRunning) && negb (bool_decide (generation = Nil)) &&
   negb (bool_decide (ar_WorkerGenerationID run = Some generation))).

Definition claimAgentRun (sid id : uuid) (run : AgentRun) (generation : uuid) : tx unit := λ d,
  match firstRow ar_SessionID (agentRuns (others d)) sid id with
  | Ok row =>
      if bool_decide (ar_State row = ar_State run) &&
         bool_decide (ar_WorkerGenerationID row = ar_WorkerGenerationID run) &&
         negb (ar_CancelRequested row)
      then Ok (tt, setAgentRuns
                     <[id := mkAgentRun (ar_SessionID row) (ar_ParentTurnID row)
                               (ar_ParentAgentRunID row) AgentRunStateRunning false
                               (Some generation) [] [] None (ar_Workspace row)
                               (ar_SystemPrompt row) (ar_EventCount row)
                               (ar_Response row) (ar_Name row)]> d)
      else Err ErrConflict
  | _ => Err ErrConflict
  end.

Definition claimExecutionChild (c : call) (execution : Execution) (generation : uuid) : tx unit :=
  match ex_Kind execution with
  | ExecutionKindRoot => mret tt
  | ExecutionKindChild =>
      match ex_AgentRunID execution with
      | None => check (Err ErrConflict)
      | Some id =>
          run ← findAgentRun c (ex_SessionID execution) id;
          _ ← refuseIf (ar_CancelRequested run ||
                negb (bool_decide (ar_ParentTurnID run = ex_RootTurnID execution))) ErrConflict;
          if bool_decide (ar_State run = AgentRunStateRunning) &&
             bool_decide (ar_WorkerGenerationID run = Some generation)
          then mret tt
          else
            _ ← refuseIf (negb (recoverableAgentRun run generation)) ErrConflict;
            claimAgentRun (ex_SessionID execution) id run generation
      end
  end.

Definition startActivityAttempt (c : call) (execution : Execution) (a : ExecutionActivity)
    (generation : uuid) : tx ExecutionActivity :=
  _ ← claimExecutionChild c execution generation;
  _ ← refuseIf (ac_Attempt a =? max_int64)%Z ErrInvalidState;
  let start := activityStarted generation (ac_Attempt a + 1)%Z (now c) in
  _ ← updateActivity a start;
  execution ←
    (if bool_decide (ex_State execution = ExecutionStateQueued)
     then _ ← updateExecution execution (withState ExecutionStateRunning);
          mret (withState ExecutionStateRunning execution)
     else mret execution);
  _ ← appendActivityEvent c execution (start a) ExecutionEventTypeStepStarted;
  mret (start a).

Definition markActivityUncertain (c : call) (execution : Execution) (a : ExecutionActivity)
    : tx ExecutionActivity :=
  _ ← updateActivity a (activityStopped ActivityStateUncertain);
  let a := activityStopped ActivityStateUncertain a in
  _ ← (if negb (bool_decide (ex_State execution = ExecutionStatePaused)) &&
          negb (isExecutionTerminal (ex_State execution))
       then updateExecution execution (withState ExecutionStateReconciling)
       else mret tt);
  _ ← appendActivityEvent c execution a ExecutionEventTypeStepUncertain;
  mret a.

Definition claimExecutionActivity (c : call) (execution : Execution) (a : ExecutionActivity)
    (generation : uuid) : tx ActivityClaim :=
  if bool_decide (ex_State execution = ExecutionStatePaused)
  then mret (mkClaim a noLease ActivityDecisionPaused)
  else if bool_decide (ac_State a = ActivityStateCompleted)
  then mret (mkClaim a noLease ActivityDecisionReuse)
  else
    _ ← refuseIf (isExecutionTerminal (ex_State execution)) ErrInvalidState;
    if bool_decide (ac_State a = ActivityStateUncertain)
    then mret (mkClaim a noLease ActivityDecisionReconcile)
    else
      _ ← refuseIf (bool_decide (ac_State a = ActivityStateRunning) &&
                    bool_decide (ac_OwnerGenerationID a = Some generation)) ErrConflict;
      if bool_decide (ac_State a = ActivityStateRunning) &&
         bool_decide (ac_ReplayPolicy a = ActivityReplayPolicyReconcile)
      then
        a ← markActivityUncertain c execution a;
        mret (mkClaim a noLease ActivityDecisionReconcile)
      else
        a ← startActivityAttempt c execution a generation;
        mret (mkClaim a (mkLease (ac_ID a) generation (ac_Attempt a)) ActivityDecisionExecute).

(** ** Leases *)

Definition findExecutionActivity (sid id : uuid) : tx ExecutionActivity :=
  reads (λ d, firstRow ac_SessionID (activities d) sid id).

Definition activityForLease (sid : uuid) (lease : ActivityLease)
    : tx (ExecutionActivity * Execution) :=
  _ ← refuseIf (bool_decide (le_ID lease = Nil) || bool_decide (le_GenerationID lease = Nil) ||
                (le_Attempt lease <? 1)%Z) ErrValidationFailed;
  a ← findExecutionActivity sid (le_ID lease);
  _ ← refuseIf (negb (bool_decide (ac_OwnerGenerationID a = Some (le_GenerationID lease))))
       ErrPermissionDenied;
  _ ← refuseIf (negb (ac_Attempt a =? le_Attempt lease)%Z) ErrConflict;
  execution ← findExecution sid (ac_ExecutionID a);
  mret (a, execution).

Definition ExecutionTerminalHooksActivityName : bytes := bs "terminalHooksV1".
Definition EventTypeAgentRunCompleted : bytes := bs "agent.run.completed".
Definition EventTypeAgentRunFailed : bytes := bs "agent.run.failed".

Record ExecutionCompletionSeal := mkSeal {
  cs_ActivityID : uuid;
  cs_InputHash : bytes;
  cs_InboxSequence : Z;
  cs_ControlRevision : Z }.

(** [ORDER BY sequence DESC] *)
Definition later_first (x y : ExecutionEvent) : Prop := (ev_Sequence y ≤ ev_Sequence x)%Z.
#[export] Instance later_first_dec x y : Decision (later_first x y).
Proof. unfold later_first. apply _. Defined.

(** ** Finishing

    [strconv.Atoi] and [strconv.Itoa] on the round of a finish step: the text
    is the decimal of a positive [int]. *)

Fixpoint decimalValue (acc : Z) (digits : bytes) : option Z :=
  match digits with
  | [] => Some acc
  | d :: rest =>
      if Json.is_digit d then decimalValue (acc * 10 + (Z.of_N (Json.code d) - 48))%Z rest
      else None
  end.

Definition validExecutionFinishStepID (step : bytes) : bool :=
  if bool_decide (step = ExecutionFinishStepID) then true
  else if negb (has_prefix executionFinishStepPrefix step) then false
  else
    let value := trim_prefix executionFinishStepPrefix step in
    match value with
    | [] => false
    | first :: _ =>
        match decimalValue 0 value with
        | Some round => (0 <? round)%Z && (round <=? max_int64)%Z &&
                        negb (bool_decide (first = "0"%char))
        | None => false
        end
    end.

Definition validExecutionFinishState (s : ExecutionState) : bool :=
  bool_decide (s = ExecutionStateCompleted) || bool_decide (s = ExecutionStateFailed).

Definition validateFinishIdentity (a : ExecutionActivity) (input : CompleteActivityInput)
    : outcome unit :=
  match co_Finish input with
  | None =>
      if bool_decide (ac_Name a = ExecutionFinishActivityName)
      then Err ErrValidationFailed else Ok tt
  | Some _ =>
      if negb (bool_decide (ac_Name a = ExecutionFinishActivityName)) ||
         negb (validExecutionFinishStepID (ac_StepID a)) ||
         negb (bool_decide (ac_Kind a = ActivityKindPreparation))
      then Err ErrValidationFailed else Ok tt
  end.

Definition validateFinishClaim (a : ExecutionActivity) (execution : Execution)
    (input : CompleteActivityInput) : outcome unit :=
  _ ← validateFinishIdentity a input;
  match co_Finish input with
  | None => Ok tt
  | Some _ =>
      if bool_decide (ex_State execution = ExecutionStatePaused) ||
         bool_decide (ex_State execution = ExecutionStateReconciling) ||
         isExecutionTerminal (ex_State execution)
      then Err ErrConflict else Ok tt
  end.

Definition validateFinishedRepeat (execution : Execution) (input : CompleteActivityInput)
    : outcome unit :=
  match co_Finish input with
  | None => Ok tt
  | Some finish =>
      if negb (bool_decide (ex_State execution = fi_State finish)) ||
         negb (bool_decide (ex_FailureDetail execution = fi_FailureDetail finish)) ||
         negb (bool_decide (ex_ContextJSON execution = co_Context input)) ||
         (negb (bool_decide (fi_WorkingDirectory finish = [])) &&
          negb (bool_decide (ex_WorkingDirectory execution = fi_WorkingDirectory finish)))
      then Err ErrConflict else Ok tt
  end.

Definition settledStates (terminal : ExecutionState) : list ActivityState :=
  if bool_decide (terminal = ExecutionStateFailed)
  then [ActivityStateCompleted; ActivityStateFailed] else [ActivityStateCompleted].

Definition requireSettledExecutionActivities (execution : Execution) (terminal : ExecutionState)
    : tx unit :=
  reads (λ d,
    if bool_decide (Forall (λ a, ac_State a ∈ settledStates terminal) (activitiesOf execution d))
    then Ok tt else Err ErrConflict).

Section store.
Variables maxExecutionStateBytes maxStoredMessageBytes : Z.

(** [sha256.Sum256]. *)
Variable Sum256 : bytes → bytes.

(** [json.Marshal] of a resolution, and the hash of the JSON of a finish
    request: the store only compares them. *)
Variable marshalResolution : ResolveActivityInput → bytes.
Variable finishDecisionHash : CompleteActivityInput → bytes.

(** ** The completion seal

    The terminal hooks of a root reserve its completion: the seal is the last
    event of its kind.  An event of that kind with another payload decodes to
    a seal without an activity. *)

Definition completionSealInputHash (a : ExecutionActivity) : bytes :=
  Workspace.hashBytes Sum256 (ac_InputJSON a).

Definition isCompletionSealActivity (execution : Execution) (a : ExecutionActivity) : bool :=
  bool_decide (ex_Kind execution = ExecutionKindRoot) &&
  bool_decide (ac_Name a = ExecutionTerminalHooksActivityName) &&
  bool_decide (ac_Kind a = ActivityKindTool) &&
  bool_decide (ac_ReplayPolicy a = ActivityReplayPolicyReconcile).

Definition sealEvents (execution : Execution) (d : db) : list ExecutionEvent :=
  merge_sort later_first
    (filter (λ ev, ev_SessionID ev = ex_SessionID execution ∧ ev_ExecutionID ev = ex_ID execution ∧
                   ev_EventType ev = ExecutionEventTypeCompletionSealed) (events d)).

Definition readExecutionCompletionSeal (execution : Execution)
    : tx (option ExecutionCompletionSeal) :=
  reads (λ d,
    match sealEvents execution d with
    | [] => Ok None
    | ev :: _ =>
        match ev_PayloadJSON ev with
        | SealedPayload activity hash sequence revision =>
            if bool_decide (activity = Nil) || (sequence <? 0)%Z || (revision <? 0)%Z
            then Err ErrInvalidState
            else Ok (Some (mkSeal activity hash sequence revision))
        | _ => Err ErrInvalidState
        end
    end).

Definition validateRepeatedCompletionSeal (seal : ExecutionCompletionSeal) (a : ExecutionActivity)
    : outcome ExecutionCompletionSeal :=
  if negb (bool_decide (cs_ActivityID seal = ac_ID a)) ||
     negb (bool_decide (cs_InputHash seal = completionSealInputHash a))
  then Err ErrConflict else Ok seal.

(** Only reports after a committed hook boundary belong to a later decision. *)
Definition completedHookInboxWatermark (execution : Execution) : tx Z :=
  seal ← readExecutionCompletionSeal execution;
  match seal with
  | None => mret max_int64
  | Some seal =>
      hook ← reads (λ d, firstRow ac_SessionID (activities d) (ex_SessionID execution)
                                  (cs_ActivityID seal));
      _ ← refuseIf (negb (bool_decide (ac_ExecutionID hook = ex_ID execution))) ErrNotFound;
      _ ← refuseIf (negb (isCompletionSealActivity execution hook) ||
                    negb (bool_decide (ac_State hook = ActivityStateCompleted))) ErrConflict;
      _ ← reads (λ _, validateRepeatedCompletionSeal seal hook);
      mret (cs_InboxSequence seal)
  end.

(** ** The inbox of a finish *)

(** A report of a child of the execution that ended. *)
Definition isChildReport (d : db) (sid source parent : uuid) : bool :=
  match agentRunEvents (others d) !! source with
  | Some event =>
      bool_decide (re_SessionID event = sid) &&
      (bool_decide (re_EventType event = EventTypeAgentRunCompleted) ||
       bool_decide (re_EventType event = EventTypeAgentRunFailed)) &&
      bool_decide (Exists (λ child, ex_AgentRunID child = Some (re_AgentRunID event) ∧
                                    ex_SessionID child = re_SessionID event ∧
                                    ex_ParentExecutionID child = Some parent)
                          (map_to_list (executions d)).*2)
  | None => false
  end.

Definition blocksCompletion (d : db) (sid execution : uuid) (state : InboxMessageState)
    (cutoff : Z) (m : ExecutionInboxMessage) : bool :=
  bool_decide (in_SessionID m = sid) && bool_decide (in_ExecutionID m = execution) &&
  bool_decide (in_State m = state) &&
  negb ((cutoff <? in_Sequence m)%Z &&
        match in_SourceEventID m with
        | Some source => bool_decide (in_RequestID m = source) &&
                         isChildReport d (in_SessionID m) source (in_ExecutionID m)
        | None => false
        end).

Definition CompletionBlockers (sid execution : uuid) (state : InboxMessageState) (cutoff : Z)
    (d : db) : Z :=
  Z.of_nat (length (filter (λ m, blocksCompletion d sid execution state cutoff m = true)
                           (map_to_list (inbox (others d))).*2)).

(** [ErrExecutionInboxPending] is always joined with [ErrConflict]. *)
Definition requireSettledExecutionInbox (execution : Execution) (terminal : ExecutionState)
    : tx unit :=
  if negb (bool_decide (terminal = ExecutionStateCompleted)) then mret tt
  else
    cutoff ← completedHookInboxWatermark execution;
    count ← reads (λ d, Ok (CompletionBlockers (ex_SessionID execution) (ex_ID execution)
                              InboxMessageStateQueued cutoff d));
    refuseIf (negb (count =? 0)%Z) ErrExecutionInboxPending.

Definition finishExecution (c : call) (execution : Execution)
    (input : CompleteActivityInput) : tx unit :=
  match co_Finish input with
  | None => mret tt
  | Some finish =>
      _ ← requireSettledExecutionActivities execution (fi_State finish);
      _ ← requireSettledExecutionInbox execution (fi_State finish);
      let directory := if bool_decide (fi_WorkingDirectory finish = [])
                       then ex_WorkingDirectory execution else fi_WorkingDirectory finish in
      _ ← updateExecution execution
            (executionFinished (fi_State finish) (co_Context input) directory
               (fi_FailureDetail finish) (now c));
      _ ← appendExecutionEvent c execution
            (if bool_decide (fi_State finish = ExecutionStateFailed)
             then ExecutionEventTypeFailed else ExecutionEventTypeCompleted)
            (RawPayload (co_Output input));
      mret tt
  end.

(** ** Beginning *)

Definition validateActivityInput (input : ScheduleActivityInput) : outcome unit :=
  if bool_decide (sc_StepID input = []) || bool_decide (sc_Name input = []) ||
     (maximumActivityIdentityBytes <? zlen (sc_StepID input))%Z ||
     (maximumActivityIdentityBytes <? zlen (sc_Name input))%Z ||
     negb (isExecutionContext (sc_Input input)) ||
     (maxExecutionStateBytes <? zlen (sc_Input input))%Z
  then Err ErrValidationFailed
  else validateActivityPolicy input.

Definition beginActivity (c : call) (sid executionID generation : uuid)
    (input : ScheduleActivityInput) : tx ActivityClaim :=
  execution ← findExecution sid executionID;
  '(execution, a) ← ensureExecutionActivity c execution input;
  claimExecutionActivity c execution a generation.

Definition BeginExecutionActivity (c : call) (sid executionID generation : uuid)
    (input : ScheduleActivityInput) (d : db) : db * outcome ActivityClaim :=
  if bool_decide (generation = Nil) then (d, Err ErrValidationFailed)
  else match validateActivityInput input with
  | Ok _ => transaction (beginActivity c sid executionID generation input) d
  | Err e => (d, Err e)
  | Panic => (d, Panic)
  | OutOfFuel => (d, OutOfFuel)
  end.

(** ** Completion *)

Definition saveActivityResult (c : call) (a : ExecutionActivity) (output context : bytes)
    : tx ExecutionActivity :=
  _ ← updateActivity a (λ row,
        if bool_decide (ac_Attempt row = ac_Attempt a ∧
                        ac_OwnerGenerationID row = ac_OwnerGenerationID a)
        then activityResult output context (now c) row else row);
  mret (activityResult output context (now c) a).

Definition saveFinishDecision (a : ExecutionActivity) (input : CompleteActivityInput)
    (continued : bool) : tx ExecutionActivity :=
  let decision := FinishDecision (finishDecisionHash input) continued in
  _ ← updateActivity a (activityInspected decision);
  mret (activityInspected decision a).

Definition savePendingFinishDecision (c : call) (a : ExecutionActivity)
    (input : CompleteActivityInput) (pending : bytes) : tx ExecutionActivity :=
  a ← saveActivityResult c a pending (co_Context input);
  saveFinishDecision a input true.

Definition pendingOutput (input : CompleteActivityInput) : bytes :=
  match co_Finish input with Some finish => fi_PendingOutput finish | None => [] end.

(** The refusal of a full inbox comes before any write of [finishExecution]. *)
Definition finishActivityCompletion (c : call)
    (a : ExecutionActivity) (execution : Execution) (input : CompleteActivityInput)
    : tx ExecutionActivity := λ d,
  match finishExecution c execution input d with
  | Ok (_, d') =>
      if bool_decide (pendingOutput input = []) then Ok (a, d')
      else saveFinishDecision a input false d'
  | Err ErrExecutionInboxPending =>
      if bool_decide (pendingOutput input = []) then Err ErrExecutionInboxPending
      else savePendingFinishDecision c a input (pendingOutput input) d
  | Err e => Err e
  | Panic => Panic
  | OutOfFuel => OutOfFuel
  end.

Definition sameActivityResult (a : ExecutionActivity) (output context : bytes) : bool :=
  bool_decide (ac_OutputJSON a = Some output) && bool_decide (ac_ContextJSON a = context).

(** The saved decision of a finish request: whether it let the execution
    continue, or nothing when the column holds no such decision. *)
Definition repeatFinishDecision (a : ExecutionActivity) (finish : FinishExecutionInput)
    (input : CompleteActivityInput) : outcome bool :=
  match ac_ResolutionJSON a with
  | FinishDecision hash continued =>
      let expected := if continued then fi_PendingOutput finish else co_Output input in
      if negb (sameActivityResult a expected (co_Context input)) then Err ErrConflict
      else if negb (bool_decide (finishDecisionHash input = hash)) then Err ErrConflict
      else Ok continued
  | NoResolution | Inspected _ => Ok false
  end.

Definition completedExecutionActivity (a : ExecutionActivity) (execution : Execution)
    (input : CompleteActivityInput) : outcome ExecutionActivity :=
  _ ← validateFinishIdentity a input;
  matched ←
    (match co_Finish input with
     | Some finish =>
         if bool_decide (ac_ResolutionJSON a = NoResolution) then Ok false
         else repeatFinishDecision a finish input
     | None => Ok false
     end);
  if (matched : bool) then Ok a
  else if negb (sameActivityResult a (co_Output input) (co_Context input)) then Err ErrConflict
  else _ ← validateFinishedRepeat execution input; Ok a.

Definition findExecutionTurnLease (execution : Execution) : tx ExecutionTurnLease :=
  reads (λ d, firstRow tl_SessionID (turnLeases (others d)) (ex_SessionID execution)
                       (ex_ID execution)).

Definition checkExecutionFinishHolder (a : ExecutionActivity) (execution : Execution)
    (input : CompleteActivityInput) : tx unit :=
  match co_Finish input with
  | None => mret tt
  | Some finish =>
      match fi_RootHolder finish with
      | None => mret tt
      | Some proof =>
          _ ← refuseIf (negb (bool_decide (ex_Kind execution = ExecutionKindRoot))) ErrConflict;
          holder ← findExecutionTurnLease execution;
          refuseIf (negb (bool_decide (tl_LeaseID holder = ho_LeaseID proof)) ||
                    negb (bool_decide (ac_OwnerGenerationID a = Some (tl_OwnerGenerationID holder))) ||
                    negb (tl_ControlRevision holder =? ho_ControlRevision proof)%Z ||
                    negb (ex_ControlRevision execution =? ho_ControlRevision proof)%Z) ErrConflict
      end
  end.

Definition completeActivity (c : call) (sid : uuid)
    (lease : ActivityLease) (input : CompleteActivityInput) : tx ExecutionActivity :=
  '(a, execution) ← activityForLease sid lease;
  if bool_decide (ac_State a = ActivityStateCompleted)
  then reads (λ _, completedExecutionActivity a execution input)
  else
    _ ← refuseIf (negb (bool_decide (ac_State a = ActivityStateRunning))) ErrConflict;
    _ ← check (validateFinishClaim a execution input);
    _ ← checkExecutionFinishHolder a execution input;
    a ← saveActivityResult c a (co_Output input) (co_Context input);
    execution ← appendActivityEvent c execution a ExecutionEventTypeStepCompleted;
    finishActivityCompletion c a execution input.

Definition validatePendingFinishOutput (finish : FinishExecutionInput) : outcome unit :=
  if negb (bool_decide (fi_PendingOutput finish = [])) &&
     (negb (bool_decide (fi_State finish = ExecutionStateCompleted)) ||
      negb (isExecutionContext (fi_PendingOutput finish)) ||
      (maxExecutionStateBytes <? zlen (fi_PendingOutput finish))%Z)
  then Err ErrValidationFailed else Ok tt.

Definition validateExecutionFinishHolder (holder : option ExecutionFinishHolder) : outcome unit :=
  match holder with
  | None => Ok tt
  | Some h =>
      if bool_decide (ho_LeaseID h = Nil) || (ho_ControlRevision h <? 0)%Z
      then Err ErrValidationFailed else Ok tt
  end.

Definition validateFinishInput (input : option FinishExecutionInput) : outcome unit :=
  match input with
  | None => Ok tt
  | Some finish =>
      if negb (validExecutionFinishState (fi_State finish)) ||
         (bool_decide (fi_State finish = ExecutionStateCompleted) &&
          negb (bool_decide (fi_FailureDetail finish = []))) ||
         (bool_decide (fi_State finish = ExecutionStateFailed) &&
          bool_decide (fi_FailureDetail finish = [])) ||
         (maxStoredMessageBytes <? zlen (fi_FailureDetail finish))%Z ||
         (maxStoredMessageBytes <? zlen (fi_WorkingDirectory finish))%Z
      then Err ErrValidationFailed
      else
        _ ← validatePendingFinishOutput finish;
        _ ← validateExecutionFinishHolder (fi_RootHolder finish);
        if negb (bool_decide (fi_ChildReport finish = [])) then Err ErrValidationFailed else Ok tt
  end.

Definition validateActivityResult (input : CompleteActivityInput) : outcome unit :=
  if negb (isExecutionContext (co_Output input)) || negb (isExecutionContext (co_Context input)) ||
     (maxExecutionStateBytes <? zlen (co_Output input))%Z ||
     (maxExecutionStateBytes <? zlen (co_Context input))%Z
  then Err ErrValidationFailed
  else validateFinishInput (co_Finish input).

Definition CompleteExecutionActivity (c : call) (sid : uuid)
    (lease : ActivityLease) (input : CompleteActivityInput) (d : db)
    : db * outcome ExecutionActivity :=
  match validateActivityResult input with
  | Ok _ => transaction (completeActivity c sid lease input) d
  | Err e => (d, Err e)
  | Panic => (d, Panic)
  | OutOfFuel => (d, OutOfFuel)
  end.

(** ** Interruption *)

Definition interruptActivity (c : call) (sid : uuid) (lease : ActivityLease) : tx unit :=
  '(a, execution) ← activityForLease sid lease;
  if negb (bool_decide (ac_State a = ActivityStateRunning)) then mret tt
  else if bool_decide (ac_ReplayPolicy a = ActivityReplayPolicyReconcile)
  then _ ← markActivityUncertain c execution a; mret tt
  else
    let isPaused := bool_decide (ex_State execution = ExecutionStatePaused) in
    let state := if isPaused then ActivityStatePaused else ActivityStateFailed in
    let kind := if isPaused then ExecutionEventTypeStepPaused else ExecutionEventTypeStepFailed in
    _ ← updateActivity a (activityStopped state);
    _ ← appendActivityEvent c execution a kind;
    mret tt.

Definition InterruptExecutionActivity (c : call) (sid : uuid) (lease : ActivityLease) (d : db)
    : db * outcome unit := transaction (interruptActivity c sid lease) d.

(** ** Inspection *)

Definition validateActivityResolution (input : ResolveActivityInput) : outcome unit :=
  if (re_Attempt input <? 1)%Z || bool_decide (re_Evidence input = []) ||
     (maxStoredMessageBytes <? zlen (re_Evidence input))%Z
  then Err ErrValidationFailed
  else match re_Resolution input with
  | ActivityResolutionRetry =>
      if negb (bool_decide (re_Output input = [])) || negb (bool_decide (re_Context input = []))
      then Err ErrValidationFailed else Ok tt
  | ActivityResolutionAccept =>
      validateActivityResult (mkComplete (re_Output input) (re_Context input) None)
  | ActivityResolutionOther _ => Err ErrValidationFailed
  end.

Definition activityResolutionStatus (a : ExecutionActivity) (input : ResolveActivityInput)
    : outcome bool :=
  if negb (ac_Attempt a =? re_Attempt input)%Z then Err ErrConflict
  else if bool_decide (ac_ResolutionJSON a = Inspected (marshalResolution input)) then Ok true
  else if negb (bool_decide (ac_State a = ActivityStateUncertain)) then Err ErrConflict
  else Ok false.

Definition applyActivityResolution (c : call) (a : ExecutionActivity)
    (input : ResolveActivityInput) : tx ExecutionActivity :=
  let inspected := activityInspected (Inspected (marshalResolution input)) in
  _ ← updateActivity a inspected;
  let a := inspected a in
  if bool_decide (re_Resolution input = ActivityResolutionAccept)
  then saveActivityResult c a (re_Output input) (re_Context input)
  else
    _ ← updateActivity a activityReleased;
    mret (activityReleased a).

Definition leaseFields (lease : ActivityLease) : uuid * uuid * Z :=
  (le_ID lease, le_GenerationID lease, le_Attempt lease).

(** Who asked for an inspection: the source execution, its lease and the
    control revision of the target. *)
Record executionControlOrigin := mkOrigin {
  or_SourceExecutionID : uuid;
  or_SourceLease : ActivityLease;
  or_ControlRevision : Z }.

Definition appendActivityResolution (c : call) (execution : Execution) (a : ExecutionActivity)
    (input : ResolveActivityInput) (origin : option executionControlOrigin) : tx Execution :=
  appendExecutionEvent c execution ExecutionEventTypeStepResolved
    (ResolvedPayload (ac_ID a) (marshalResolution input)
       ((λ o, (or_SourceExecutionID o, leaseFields (or_SourceLease o), or_ControlRevision o))
          <$> origin)).

Definition restoreReconciledExecution (execution : Execution) : tx unit :=
  if negb (bool_decide (ex_State execution = ExecutionStateReconciling)) then mret tt
  else
    remaining ← reads (λ d, Ok (filter (λ a, ac_State a = ActivityStateUncertain)
                                       (activitiesOf execution d)));
    if negb (bool_decide (remaining = [])) then mret tt
    else updateExecution execution (withState ExecutionStateRunning).

Definition resolveActivity (c : call) (sid id : uuid) (input : ResolveActivityInput)
    (origin : option executionControlOrigin) : tx ExecutionActivity :=
  a ← findExecutionActivity sid id;
  isDuplicate ← reads (λ _, activityResolutionStatus a input);
  if (isDuplicate : bool) then mret a
  else
    execution ← findExecution sid (ac_ExecutionID a);
    a ← applyActivityResolution c a input;
    execution ← appendActivityResolution c execution a input origin;
    _ ← restoreReconciledExecution execution;
    mret a.

Definition ResolveExecutionActivity (c : call) (sid id : uuid) (input : ResolveActivityInput)
    (d : db) : db * outcome ExecutionActivity :=
  match validateActivityResolution input with
  | Ok _ => transaction (resolveActivity c sid id input None) d
  | Err e => (d, Err e)
  | Panic => (d, Panic)
  | OutOfFuel => (d, OutOfFuel)
  end.

(** ** Reserving a completion *)

Definition requireOtherCompletionActivities (execution : Execution) (a : ExecutionActivity)
    : tx unit :=
  reads (λ d,
    if bool_decide (Forall (λ b, ac_ID b ≠ ac_ID a → ac_State b = ActivityStateCompleted)
                           (activitiesOf execution d))
    then Ok tt else Err ErrConflict).

Definition validateCompletionReservation (execution : Execution) (a : ExecutionActivity)
    (lease : ActivityLease) : tx unit :=
  _ ← refuseIf (negb (bool_decide (ex_State execution = ExecutionStateRunning)) ||
                negb (bool_decide (ac_State a = ActivityStateRunning))) ErrConflict;
  holder ← findExecutionTurnLease execution;
  refuseIf (negb (bool_decide (tl_OwnerGenerationID holder = le_GenerationID lease)) ||
            negb (tl_ControlRevision holder =? ex_ControlRevision execution)%Z) ErrConflict.

(** The highest sequence of the inbox, or 0 for an empty one. *)
Definition completionInboxWatermark (execution : Execution) : tx Z :=
  reads (λ d, Ok (foldr Z.max 0%Z (in_Sequence <$>
    filter (λ m, in_SessionID m = ex_SessionID execution ∧ in_ExecutionID m = ex_ID execution)
           (map_to_list (inbox (others d))).*2))).

Definition createExecutionCompletionSeal (c : call) (execution : Execution)
    (a : ExecutionActivity) : tx ExecutionCompletionSeal :=
  _ ← refuseIf (ex_EventCount execution =? max_int64)%Z ErrInvalidState;
  sequence ← completionInboxWatermark execution;
  let hash := completionSealInputHash a in
  let revision := ex_ControlRevision execution in
  _ ← appendExecutionEvent c execution ExecutionEventTypeCompletionSealed
        (SealedPayload (ac_ID a) hash sequence revision);
  mret (mkSeal (ac_ID a) hash sequence revision).

(** A full inbox answers no seal. *)
Definition unlessInboxPending {A} (check : tx unit) (m : tx A) : tx (option A) := λ d,
  match check d with
  | Ok (_, d') => (a ← m; mret (Some a)) d'
  | Err ErrExecutionInboxPending => Ok (None, d)
  | Err e => Err e
  | Panic => Panic
  | OutOfFuel => OutOfFuel
  end.

Definition reserveCompletion (c : call) (sid : uuid) (lease : ActivityLease)
    : tx (option ExecutionCompletionSeal) :=
  '(a, execution) ← activityForLease sid lease;
  _ ← refuseIf (negb (isCompletionSealActivity execution a)) ErrConflict;
  seal ← readExecutionCompletionSeal execution;
  match seal with
  | Some seal => seal ← reads (λ _, validateRepeatedCompletionSeal seal a); mret (Some seal)
  | None =>
      _ ← validateCompletionReservation execution a lease;
      unlessInboxPending (requireSettledExecutionInbox execution ExecutionStateCompleted)
        (_ ← requireOtherCompletionActivities execution a;
         createExecutionCompletionSeal c execution a)
  end.

Definition ReserveExecutionCompletion (c : call) (sid : uuid) (lease : ActivityLease) (d : db)
    : db * outcome (option ExecutionCompletionSeal) :=
  transaction (reserveCompletion c sid lease) d.

(** ** Control from a running tool *)

(** A resume that forwards no deferred message. *)
Record ResumeExecutionInput := mkResumeInput {
  ri_SourceLease : ActivityLease;
  ri_ControlRevision : Z }.

Definition authorizeExecutionControl (sid executionID : uuid) (input : ResumeExecutionInput)
    : tx Execution :=
  _ ← refuseIf (bool_decide (executionID = Nil) || (ri_ControlRevision input <? 0)%Z)
       ErrValidationFailed;
  '(a, source) ← activityForLease sid (ri_SourceLease input);
  _ ← refuseIf (negb (bool_decide (ac_State a = ActivityStateRunning)) ||
                negb (bool_decide (ac_Kind a = ActivityKindTool)) ||
                negb (bool_decide (ex_State source = ExecutionStateRunning))) ErrConflict;
  target ← findExecution sid executionID;
  _ ← refuseIf (negb (ex_ControlRevision target =? ri_ControlRevision input)%Z) ErrConflict;
  mret source.

Definition ResumeExecutionFromActivity (c : call) (sid executionID : uuid)
    (input : ResumeExecutionInput) (d : db) : db * outcome (list uuid) :=
  transaction
    (source ← authorizeExecutionControl sid executionID input;
     changeExecutionSubtree c sid executionID Resume
       (ResumedPayload (ex_ID source) (leaseFields (ri_SourceLease input))
          (ri_ControlRevision input))) d.

Definition resolveFromActivity (c : call) (sid id : uuid) (source : ResumeExecutionInput)
    (input : ResolveActivityInput) : tx ExecutionActivity :=
  a ← findExecutionActivity sid id;
  execution ← authorizeExecutionControl sid (ac_ExecutionID a) source;
  resolveActivity c sid id input
    (Some (mkOrigin (ex_ID execution) (ri_SourceLease source) (ri_ControlRevision source))).

Definition ResolveExecutionActivityFromActivity (c : call) (sid id : uuid)
    (source : ResumeExecutionInput) (input : ResolveActivityInput) (d : db)
    : db * outcome ExecutionActivity :=
  match validateActivityResolution input with
  | Ok _ => transaction (resolveFromActivity c sid id source input) d
  | Err e => (d, Err e)
  | Panic => (d, Panic)
  | OutOfFuel => (d, OutOfFuel)
  end.

End store.

End Activities.
