(* ===== verification/ExecutionSteps.v ===== *)
(** The life of the execution tables: the operations of Executions,
    ExecutionControl and Activities as steps between committed states, what
    holds in every state they reach, and what a finished execution, an effect
    and a worker's lease are promised. *)
From stdpp Require Import base gmap sets list strings sorting.
From Stdlib Require Import ZArith Lia Ascii.
From S2P Require Import Prelude GoBytes Executions ExecutionControl Activities.

Module ExecutionSteps.
Import Executions ExecutionControl Activities.

(** ** Steps *)

Inductive op :=
  | OpCreate (sid : uuid) (input : CreateExecutionInput)
  | OpBegin (sid id generation : uuid) (input : ScheduleActivityInput)
  | OpComplete (sid : uuid) (lease : ActivityLease) (input : CompleteActivityInput)
  | OpReserve (sid : uuid) (lease : ActivityLease)
  | OpInterrupt (sid : uuid) (lease : ActivityLease)
  | OpResolve (sid id : uuid) (input : ResolveActivityInput)
  | OpResolveFrom (sid id : uuid) (source : ResumeExecutionInput) (input : ResolveActivityInput)
  | OpPause (sid id : uuid) (reason : bytes)
  | OpResume (sid id : uuid)
  | OpResumeFrom (sid id : uuid) (source : ResumeExecutionInput)
  | OpPauseUnfinished (sid : uuid)
  | OpStopSession (sid : uuid)
  | OpCancelChild (settleRun : uuid → outcome unit) (sid run : uuid).

Section steps.
Variables maxExecutionStateBytes maxStoredMessageBytes : Z.
Variable Sum256 : bytes → bytes.
Variable marshalResolution : ResolveActivityInput → bytes.
Variable finishDecisionHash : CompleteActivityInput → bytes.

Definition apply (c : call) (o : op) (d : db) : db :=
  match o with
  | OpCreate sid input =>
      (CreateExecution maxExecutionStateBytes maxStoredMessageBytes c sid input d).1
  | OpBegin sid id generation input =>
      (BeginExecutionActivity maxExecutionStateBytes c sid id generation input d).1
  | OpComplete sid lease input =>
      (CompleteExecutionActivity maxExecutionStateBytes maxStoredMessageBytes Sum256
         finishDecisionHash c sid lease input d).1
  | OpReserve sid lease => (ReserveExecutionCompletion Sum256 c sid lease d).1
  | OpInterrupt sid lease => (InterruptExecutionActivity c sid lease d).1
  | OpResolve sid id input =>
      (ResolveExecutionActivity maxExecutionStateBytes maxStoredMessageBytes marshalResolution
         c sid id input d).1
  | OpResolveFrom sid id source input =>
      (ResolveExecutionActivityFromActivity maxExecutionStateBytes maxStoredMessageBytes
         marshalResolution c sid id source input d).1
  | OpPause sid id reason => (PauseExecution maxStoredMessageBytes c sid id reason d).1
  | OpResume sid id => (ResumeExecution c sid id d).1
  | OpResumeFrom sid id source => (ResumeExecutionFromActivity c sid id source d).1
  | OpPauseUnfinished sid => (PauseUnfinishedExecutions c sid d).1
  | OpStopSession sid => (transaction (pauseSessionExecutions c sid) d).1
  | OpCancelChild settleRun sid run =>
      (transaction (cancelNativeChildTree c settleRun sid run) d).1
  end.

(** The other components of the store append events to executions, and change
    the other tables. *)
Inductive step : db → db → Prop :=
  | step_op c o d : step d (apply c o d)
  | step_event c sid id kind p d :
      step d (transaction (e ← findExecution sid id; appendExecutionEvent c e kind p) d).1
  | step_others o d : step d (mkDb (executions d) (activities d) (events d) o).

Inductive reachable : db → Prop :=
  | reachable_empty o : reachable (mkDb ∅ ∅ [] o)
  | reachable_step d d' : reachable d → step d d' → reachable d'.

(** ** The invariant *)

Definition logOf (id : uuid) (d : db) : list ExecutionEvent :=
  filter (λ ev, ev_ExecutionID ev = id) (events d).

(** A retry that an inspection of exactly this attempt allowed. *)
Definition inspectedForRetry (a : ExecutionActivity) : Prop :=
  ∃ input, ac_ResolutionJSON a = Inspected (marshalResolution input) ∧
    re_Resolution input = ActivityResolutionRetry ∧
    re_Attempt input = ac_Attempt a ∧ re_Evidence input ≠ [].

Record activity_ok (a : ExecutionActivity) : Prop := {
  ok_attempt : (0 ≤ ac_Attempt a ≤ max_int64)%Z;
  ok_running : ac_State a = ActivityStateRunning →
    ac_ResolutionJSON a = NoResolution ∧ (1 ≤ ac_Attempt a)%Z;
  ok_policy : ac_ReplayPolicy a = ActivityReplayPolicyReconcile →
    ac_State a ≠ ActivityStateFailed ∧ ac_State a ≠ ActivityStatePaused;
  ok_retry : ac_ReplayPolicy a = ActivityReplayPolicyReconcile →
    ac_State a = ActivityStateScheduled → (1 ≤ ac_Attempt a)%Z → inspectedForRetry a }.

Definition settled (s : ActivityState) : Prop :=
  s = ActivityStateCompleted ∨ s = ActivityStateFailed ∨ s = ActivityStateCancelled.

(** What holds of the tables; the last property may be suspended for one
    execution while a transaction settles its activities. *)
Record invX (X : option uuid) (d : db) : Prop := {
  inv_keyed : keyed (executions d);
  inv_log : ∀ id e, executions d !! id = Some e →
    (0 ≤ ex_EventCount e ≤ max_int64)%Z ∧ ev_Sequence <$> logOf id d = seqZ 1 (ex_EventCount e);
  inv_known : ∀ ev, ev ∈ events d → is_Some (executions d !! ev_ExecutionID ev);
  inv_activity : ∀ i a, activities d !! i = Some a →
    ac_ID a = i ∧ activity_ok a ∧
    ∃ e, executions d !! ac_ExecutionID a = Some e ∧ ex_SessionID e = ac_SessionID a;
  inv_settledX : ∀ e i a, activities d !! i = Some a → X ≠ Some (ac_ExecutionID a) →
    executions d !! ac_ExecutionID a = Some e →
    isExecutionTerminal (ex_State e) = true → settled (ac_State a);
  inv_cancelled : ∀ e i a, activities d !! i = Some a →
    executions d !! ac_ExecutionID a = Some e →
    ac_State a = ActivityStateCancelled → isExecutionTerminal (ex_State e) = true }.
Definition inv : db → Prop := invX None.

Lemma inv_settled d e i a :
  inv d → activities d !! i = Some a → executions d !! ac_ExecutionID a = Some e →
  isExecutionTerminal (ex_State e) = true → settled (ac_State a).
Proof. intros Hi Ha. by apply (inv_settledX _ _ Hi e i a). Qed.

Lemma invX_settle E d :
  invX (Some E) d →
  (∀ i a, activities d !! i = Some a → ac_ExecutionID a = E → settled (ac_State a)) → inv d.
Proof.
  intros [Hk Hl Hn Ha Hs Hx] HE. split; try done. intros e i a Hi _ He Ht.
  destruct (decide (ac_ExecutionID a = E)) as [Heq|Hne]; [by eapply HE|].
  eapply (Hs e i a); [done|congruence|done|done].
Qed.

Lemma invX_suspend E d : inv d → invX (Some E) d.
Proof.
  intros [Hk Hl Hn Ha Hs Hx]. split; try done. intros e i a Hi _. by apply (Hs e i a).
Qed.

(** ** The primitive writes keep it *)

Lemma inv_empty o : inv (mkDb ∅ ∅ [] o).
Proof.
  split; simpl.
  - intros id e H. by rewrite lookup_empty in H.
  - intros id e H. by rewrite lookup_empty in H.
  - intros ev H. by apply elem_of_nil in H.
  - intros i a H. by rewrite lookup_empty in H.
  - intros e i a H. by rewrite lookup_empty in H.
  - intros e i a H. by rewrite lookup_empty in H.
Qed.

Lemma inv_others o d : inv d → inv (mkDb (executions d) (activities d) (events d) o).
Proof. by intros []; split. Qed.

(** A row replaced by one of the same identity. *)
Definition same_identity (row row' : Execution) : Prop :=
  ex_ID row' = ex_ID row ∧ ex_SessionID row' = ex_SessionID row ∧
  ex_EventCount row' = ex_EventCount row.

Lemma inv_set_execution X d id row row' :
  invX X d → executions d !! id = Some row → same_identity row row' →
  (isExecutionTerminal (ex_State row') = true →
   isExecutionTerminal (ex_State row) = true ∨ X = Some id ∨
   ∀ i a, activities d !! i = Some a → ac_ExecutionID a = id → settled (ac_State a)) →
  (isExecutionTerminal (ex_State row) = true → isExecutionTerminal (ex_State row') = true) →
  invX X (setExecutions <[id := row']> d).
Proof.
  intros [Hk Hl Hn Ha Hs Hx] Hrow (Hid & Hsid & Hc) Ht Ht'. split; simpl.
  - intros x e. rewrite lookup_insert_Some. intros [[<- <-]|[_ He]]; [|by apply Hk].
    rewrite Hid. by apply Hk.
  - intros x e. rewrite lookup_insert_Some. intros [[<- <-]|[_ He]]; [|by apply Hl].
    rewrite Hc. by apply Hl.
  - intros ev Hev. apply lookup_insert_is_Some. destruct (decide (id = ev_ExecutionID ev)); auto.
  - intros i a Hi. destruct (Ha i a Hi) as (? & ? & e & He & ?). split; [done|]. split; [done|].
    destruct (decide (id = ac_ExecutionID a)) as [Heq|Hne].
    + exists row'. rewrite Heq, lookup_insert_eq. split; [done|]. rewrite Hsid. naive_solver congruence.
    + exists e. by rewrite lookup_insert_ne.
  - intros e i a Hi HX. rewrite lookup_insert_Some.
    intros [[Heq <-]|[_ He]] Hterm; [|by eapply Hs].
    destruct (Ht Hterm) as [Hold|[->|Hall]]; [|congruence|by eapply Hall].
    eapply (Hs row); [done|done| |done]. by rewrite <- Heq.
  - intros e i a Hi. rewrite lookup_insert_Some. intros [[Heq <-]|[_ He]] Hst; [|by eapply Hx].
    apply Ht'. eapply (Hx row); [done| |done]. by rewrite <- Heq.
Qed.

Lemma inv_event X c e row kind p d :
  invX X d → holds e row d → ex_EventCount e ≠ maxEventCount →
  invX X (mkDb (<[ex_ID e := withEventCount (ex_EventCount e + 1) row]> (executions d))
            (activities d) (events d ++ [eventOf c e kind p]) (others d)).
Proof.
  intros [Hk Hl Hn Ha Hs Hx] (Hrow & Hsid & Hc) Hmax.
  assert (Hst : ex_State (withEventCount (ex_EventCount e + 1) row) = ex_State row) by by destruct row.
  assert (Hid : ex_ID (withEventCount (ex_EventCount e + 1) row) = ex_ID row) by by destruct row.
  assert (Hss : ex_SessionID (withEventCount (ex_EventCount e + 1) row) = ex_SessionID row)
    by by destruct row.
  assert (Hcc : ex_EventCount (withEventCount (ex_EventCount e + 1) row) = (ex_EventCount e + 1)%Z)
    by by destruct row.
  split; simpl.
  - intros x y. rewrite lookup_insert_Some. intros [[<- <-]|[_ He]]; [|by apply Hk].
    rewrite Hid. by apply Hk.
  - intros x y. unfold logOf. simpl. rewrite filter_app, fmap_app, filter_cons, filter_nil. simpl.
    rewrite lookup_insert_Some. intros [[<- <-]|[Hne Hy]].
    + rewrite decide_True by done. rewrite Hcc. destruct (Hl _ _ Hrow) as [Hr Hseq].
      fold (logOf (ex_ID e) d). rewrite Hseq, Hc. unfold maxEventCount in Hmax.
      rewrite Hc in Hr. split; [lia|]. rewrite seqZ_app by lia. f_equal.
      unfold seqZ. simpl. f_equal. lia.
    + rewrite decide_False by done. simpl. rewrite app_nil_r. by apply Hl.
  - intros ev [Hev| ->%list_elem_of_singleton]%elem_of_app; apply lookup_insert_is_Some.
    + destruct (decide (ex_ID e = ev_ExecutionID ev)); auto.
    + by left.
  - intros i a Hi. destruct (Ha i a Hi) as (? & ? & y & Hy & ?). split; [done|]. split; [done|].
    destruct (decide (ex_ID e = ac_ExecutionID a)) as [Heq|Hne].
    + eexists. rewrite Heq, lookup_insert_eq. split; [done|]. rewrite Hss. naive_solver congruence.
    + exists y. by rewrite lookup_insert_ne.
  - intros y i a Hi HX. rewrite lookup_insert_Some.
    intros [[Heq <-]|[_ Hy]] Hterm; [|by eapply Hs].
    rewrite Hst in Hterm. eapply (Hs row); [done|done| |done]. by rewrite <- Heq.
  - intros y i a Hi. rewrite lookup_insert_Some. intros [[Heq <-]|[_ Hy]] Hcan; [|by eapply Hx].
    rewrite Hst. eapply (Hx row); [done| |done]. by rewrite <- Heq.
Qed.

Lemma inv_set_activity X d i a a' :
  invX X d → activities d !! i = Some a →
  ac_ID a' = ac_ID a → ac_SessionID a' = ac_SessionID a → ac_ExecutionID a' = ac_ExecutionID a →
  activity_ok a' →
  (settled (ac_State a') ∨
   ∀ e, executions d !! ac_ExecutionID a = Some e → isExecutionTerminal (ex_State e) = false) →
  (ac_State a' = ActivityStateCancelled →
   ∀ e, executions d !! ac_ExecutionID a = Some e → isExecutionTerminal (ex_State e) = true) →
  invX X (setActivities <[i := a']> d).
Proof.
  intros [Hk Hl Hn Ha Hs Hx] Hi Hid Hsid Hex Hok Ht Hc. split; simpl; try done.
  - intros j b. rewrite lookup_insert_Some. intros [[<- <-]|[_ Hj]]; [|by apply Ha].
    destruct (Ha _ _ Hi) as (? & _ & ?). rewrite Hid, Hex, Hsid. done.
  - intros e j b. rewrite lookup_insert_Some. intros [[<- <-]|[_ Hj]] HX He Hterm; [|by eapply Hs].
    destruct Ht as [Ht|Ht]; [done|]. rewrite Hex in He. apply Ht in He. congruence.
  - intros e j b. rewrite lookup_insert_Some. intros [[<- <-]|[_ Hj]] He Hst; [|by eapply Hx].
    rewrite Hex in He. by apply Hc.
Qed.

Lemma inv_new_activity d a e :
  inv d → activities d !! ac_ID a = None → activity_ok a →
  executions d !! ac_ExecutionID a = Some e → ex_SessionID e = ac_SessionID a →
  isExecutionTerminal (ex_State e) = false → ac_State a ≠ ActivityStateCancelled →
  inv (setActivities <[ac_ID a := a]> d).
Proof.
  intros [Hk Hl Hn Ha Hs Hx] Hi Hok He Hsid Ht Hc. split; simpl; try done.
  - intros j b. rewrite lookup_insert_Some. intros [[<- <-]|[_ Hj]]; [|by apply Ha]. eauto.
  - intros y j b. rewrite lookup_insert_Some. intros [[<- <-]|[_ Hj]] HX Hy Hterm; [|by eapply Hs].
    congruence.
  - intros y j b. rewrite lookup_insert_Some. intros [[<- <-]|[_ Hj]] Hy Hst; [done|by eapply Hx].
Qed.

Lemma inv_new_execution d e :
  inv d → executions d !! ex_ID e = None → ex_EventCount e = 0%Z →
  isExecutionTerminal (ex_State e) = false → inv (setExecutions <[ex_ID e := e]> d).
Proof.
  intros [Hk Hl Hn Ha Hs Hx] He Hc Ht. split; simpl.
  - intros x y. rewrite lookup_insert_Some. intros [[<- <-]|[_ Hy]]; [done|by apply Hk].
  - intros x y. rewrite lookup_insert_Some. intros [[<- <-]|[_ Hy]]; [|by apply Hl].
    rewrite Hc. split; [unfold max_int64; lia|]. unfold logOf. simpl.
    enough (filter (λ ev, ev_ExecutionID ev = ex_ID e) (events d) = []) as ->; [done|].
    apply elem_of_nil_inv. intros ev [Heq Hev]%list_elem_of_filter.
    apply Hn in Hev as [? Hev]. rewrite Heq in Hev. congruence.
  - intros ev Hev. apply lookup_insert_is_Some. destruct (decide (ex_ID e = ev_ExecutionID ev)); auto.
  - intros i a Hi. destruct (Ha i a Hi) as (? & ? & y & Hy & ?). split; [done|]. split; [done|].
    exists y. rewrite lookup_insert_ne by congruence. done.
  - intros y i a Hi HX. rewrite lookup_insert_Some.
    intros [[Heq <-]|[_ Hy]] Hterm; [|by eapply Hs]. congruence.
  - intros y i a Hi. rewrite lookup_insert_Some. intros [[Heq <-]|[_ Hy]] Hst; [|by eapply Hx].
    destruct (Ha i a Hi) as (_ & _ & z & Hz & _). congruence.
Qed.

(** ** What a step leaves alone *)

(** An execution keeps its row, up to its event counter, and its activities. *)
Definition frozen (x : uuid) (d d' : db) : Prop :=
  (∀ e, executions d !! x = Some e → ∃ n, executions d' !! x = Some (withEventCount n e)) ∧
  ∀ i a, ac_ExecutionID a = x → activities d !! i = Some a ↔ activities d' !! i = Some a.

(** Only one execution and its activities change. *)
Definition only (E : uuid) (d d' : db) : Prop :=
  (∀ y, y ≠ E → executions d' !! y = executions d !! y) ∧
  ∀ i a, ac_ExecutionID a ≠ E → activities d !! i = Some a ↔ activities d' !! i = Some a.

(** A step from [d] is good. *)
Definition good (d d' : db) : Prop :=
  inv d' ∧ ∀ x e, executions d !! x = Some e → isExecutionTerminal (ex_State e) = true →
                  frozen x d d'.

Lemma withEventCount_id e : withEventCount (ex_EventCount e) e = e.
Proof. by destruct e. Qed.

Lemma withEventCount_twice n m e : withEventCount n (withEventCount m e) = withEventCount n e.
Proof. by destruct e. Qed.

Lemma withEventCount_fields n e :
  ex_ID (withEventCount n e) = ex_ID e ∧ ex_SessionID (withEventCount n e) = ex_SessionID e ∧
  ex_State (withEventCount n e) = ex_State e ∧ ex_EventCount (withEventCount n e) = n ∧
  ex_WorkingDirectory (withEventCount n e) = ex_WorkingDirectory e ∧
  ex_FailureDetail (withEventCount n e) = ex_FailureDetail e ∧
  ex_ContextJSON (withEventCount n e) = ex_ContextJSON e.
Proof. by destruct e. Qed.

Lemma frozen_refl x d : frozen x d d.
Proof. split; [|done]. intros e He. exists (ex_EventCount e). by rewrite withEventCount_id. Qed.

Lemma frozen_trans x d1 d2 d3 : frozen x d1 d2 → frozen x d2 d3 → frozen x d1 d3.
Proof.
  intros [H1 A1] [H2 A2]. split.
  - intros e [n [m He]%H2]%H1. exists m. by rewrite withEventCount_twice in He.
  - intros i a Hx. by rewrite A1, A2.
Qed.

Lemma only_refl E d : only E d d.
Proof. done. Qed.

Lemma only_trans E d1 d2 d3 : only E d1 d2 → only E d2 d3 → only E d1 d3.
Proof.
  intros [H1 A1] [H2 A2]. split.
  - intros y Hy. by rewrite H2, H1.
  - intros i a Hi. by rewrite A1, A2.
Qed.

Lemma only_frozen E d d' x : only E d d' → x ≠ E → frozen x d d'.
Proof.
  intros [H A] Hx. split.
  - intros e He. exists (ex_EventCount e). by rewrite withEventCount_id, H.
  - intros i a Ha. apply A. congruence.
Qed.

Lemma good_refl d : inv d → good d d.
Proof. intros. split; [done|]. intros. apply frozen_refl. Qed.

Lemma good_trans d1 d2 d3 : good d1 d2 → good d2 d3 → good d1 d3.
Proof.
  intros [_ F1] [I F2]. split; [done|]. intros x e He Ht.
  pose proof (F1 x e He Ht) as [Hf HA]. destruct (Hf e He) as [n Hn].
  eapply frozen_trans; [by split|]. eapply F2; [exact Hn|].
  by destruct (withEventCount_fields n e) as (_ & _ & -> & _).
Qed.

Lemma only_good E d d' e :
  inv d' → only E d d' → executions d !! E = Some e →
  isExecutionTerminal (ex_State e) = false → good d d'.
Proof.
  intros Hi Ho He Ht. split; [done|]. intros x y Hy Hterm. eapply only_frozen; [done|].
  intros ->. congruence.
Qed.

(** ** Writing to the execution in hand

    [at_ d0 e row d]: the transaction started at [d0], holds [e] in memory,
    and [row] is the row of [e] now. *)
Record at_ (d0 : db) (e row : Execution) (d : db) : Prop := {
  at_inv : inv d;
  at_only : only (ex_ID e) d0 d;
  at_holds : holds e row d }.

Lemma at_start d e sid :
  inv d → executions d !! ex_ID e = Some e → ex_SessionID e = sid → at_ d e e d.
Proof. intros. split; [done|apply only_refl|]. done. Qed.

Lemma only_execution E d d' f :
  only E d d' → only E d (setExecutions <[E := f]> d').
Proof.
  intros [H A]. split; [|done]. intros y Hy. simpl. rewrite lookup_insert_ne by done. by apply H.
Qed.

Lemma at_append d0 c e row kind p d e' d' :
  at_ d0 e row d → appendExecutionEvent c e kind p d = Ok (e', d') →
  e' = withEventCount (ex_EventCount e + 1) e ∧
  at_ d0 e' (withEventCount (ex_EventCount e + 1) row) d' ∧
  activities d' = activities d ∧ others d' = others d ∧
  executions d' = <[ex_ID e := withEventCount (ex_EventCount e + 1) row]> (executions d).
Proof.
  intros [Hi Ho Hh] H. pose proof (appendExecutionEvent_Ok _ _ _ _ _ _ _ _ Hh H) as (Hm & -> & ->).
  destruct (withEventCount_fields (ex_EventCount e + 1) e) as (Hid & Hs & _ & Hc & _).
  destruct (withEventCount_fields (ex_EventCount e + 1) row) as (_ & Hs' & _ & Hc' & _).
  split; [done|]. split; [|done]. split.
  - by apply inv_event.
  - rewrite Hid. by apply (only_execution (ex_ID e) d0 d).
  - unfold holds. simpl. rewrite Hid, lookup_insert_eq, Hs, Hs', Hc, Hc'. by destruct Hh as (_ & ? & _).
Qed.

Lemma at_set d0 e row d f :
  at_ d0 e row d → same_identity row (f row) →
  (isExecutionTerminal (ex_State (f row)) = true →
   isExecutionTerminal (ex_State row) = true ∨
   ∀ i a, activities d !! i = Some a → ac_ExecutionID a = ex_ID e → settled (ac_State a)) →
  isExecutionTerminal (ex_State row) = false →
  updateExecution e f d = Ok (tt, setExecutions <[ex_ID e := f row]> d) ∧
  at_ d0 e (f row) (setExecutions <[ex_ID e := f row]> d).
Proof.
  intros [Hi Ho Hh] Hsame Ht Hlive. split; [by apply updateExecution_Ok|].
  destruct Hh as (Hrow & Hs & Hc), Hsame as (Hid' & Hs' & Hc'). split.
  - eapply inv_set_execution; [done..| |congruence]. intros Hterm. destruct (Ht Hterm); auto.
  - by apply only_execution.
  - unfold holds. simpl. rewrite lookup_insert_eq. split; [done|]. split; congruence.
Qed.

(** The activity in hand is its row. *)
Definition has (a : ExecutionActivity) (d : db) : Prop := activities d !! ac_ID a = Some a.

Definition same_activity (a a' : ExecutionActivity) : Prop :=
  ac_ID a' = ac_ID a ∧ ac_SessionID a' = ac_SessionID a ∧ ac_ExecutionID a' = ac_ExecutionID a.

Lemma updateActivity_Ok a f d :
  has a d → updateActivity a f d = Ok (tt, setActivities <[ac_ID a := f a]> d).
Proof.
  intros Ha. unfold updateActivity, setActivities. do 3 f_equal. by apply updateRow_found.
Qed.

Lemma at_set_activity d0 e row d a a' :
  at_ d0 e row d → has a d → ac_ExecutionID a = ex_ID e → same_activity a a' → activity_ok a' →
  (settled (ac_State a') ∨ isExecutionTerminal (ex_State row) = false) →
  ac_State a' ≠ ActivityStateCancelled →
  at_ d0 e row (setActivities <[ac_ID a := a']> d) ∧ has a' (setActivities <[ac_ID a := a']> d).
Proof.
  intros [Hi Ho Hh] Ha Hex (Hid & Hs & Hx) Hok Ht Hcan. split.
  - split; [| |done].
    + eapply inv_set_activity; try done. destruct Ht as [Ht|Ht]; [by left|right].
      intros y Hy. destruct Hh as (Hrow & _). rewrite Hex, Hrow in Hy. naive_solver.
    + destruct Ho as [H A]. split; [done|]. intros i b Hb. rewrite A by done. simpl.
      destruct (decide (i = ac_ID a)) as [->|Hne]; [|by rewrite lookup_insert_ne].
      rewrite lookup_insert_eq. unfold has in Ha. rewrite Ha. naive_solver congruence.
  - unfold has. simpl. rewrite Hid. apply lookup_insert_eq.
Qed.

(** ** Claiming a step *)

Lemma findStep_Some e step d a :
  inv d → findStep e step d = Some a →
  has a d ∧ ac_ExecutionID a = ex_ID e ∧ ac_StepID a = step.
Proof.
  intros Hi Hf. unfold findStep, activitiesOf in Hf. apply head_Some_elem_of in Hf.
  apply list_elem_of_filter in Hf as [Hstep Hf]. apply list_elem_of_filter in Hf as [[_ Hex] Hf].
  apply list_elem_of_fmap in Hf as ([i b] & -> & Hin%elem_of_map_to_list). simpl in *.
  split; [|done]. unfold has. by destruct (inv_activity _ _ Hi _ _ Hin) as [-> _].
Qed.

Lemma activity_ok_new id sid ex step kind policy name inp now :
  activity_ok (mkActivity id sid ex step kind ActivityStateScheduled policy name inp None
                 emptyActivityJSON 0 None [] NoResolution now None None).
Proof. split; simpl; try done; unfold max_int64; lia. Qed.

Lemma createActivity_Ok a d u d' :
  createActivity a d = Ok (u, d') →
  activities d !! ac_ID a = None ∧ d' = setActivities <[ac_ID a := a]> d.
Proof.
  unfold createActivity. case_if; [done|]. intros [= <- <-].
  apply orb_false_iff in Heqb as [Hnew%bool_decide_eq_false _]. by apply dec_stable in Hnew.
Qed.

Lemma ensure_at c e input d e' a d' :
  at_ d e e d → isExecutionTerminal (ex_State e) = false →
  ensureExecutionActivity c e input d = Ok ((e', a), d') →
  at_ d e' e' d' ∧ ex_ID e' = ex_ID e ∧ ex_State e' = ex_State e ∧
  has a d' ∧ ac_ExecutionID a = ex_ID e ∧ ac_ReplayPolicy a = sc_ReplayPolicy input ∧
  (has a d ∨ ac_Attempt a = 0%Z).
Proof.
  intros Hat Ht H. unfold ensureExecutionActivity in H.
  apply tx_bind_Ok in H as (o & d1 & Hr & H). apply reads_Ok in Hr as [[= Hfind] ->].
  destruct o as [b|]; cbv zeta in H.
  - run_tx. simplify_eq. apply findStep_Some in Hfind as (Hhas & Hex & _); [|by eapply at_inv].
    unfold sameActivityInput in *. read_guards. naive_solver.
  - apply tx_bind_Ok in H as (u & d2 & Hnew & H). apply tx_bind_Ok in H as (e2 & d3 & Hev & H).
    injection H as <- <- <-.
    set (b := mkActivity _ _ _ _ _ _ _ _ _ _ _ _ _ _ _ _ _ _) in *.
    apply createActivity_Ok in Hnew as [Hnew ->].
    destruct Hat as [Hi Ho Hh]. pose proof Hh as (Hrow & _).
    assert (Hat : at_ d e e (setActivities <[ac_ID b := b]> d)).
    { split; [|split; [done|]|done].
      - eapply inv_new_activity; try done.
      - intros i x Hx. simpl. split.
        + intros Hold. rewrite lookup_insert_ne; [done|]. intros Heq. subst i. simpl in *. congruence.
        + rewrite lookup_insert_Some. intros [[_ <-]|[_ ?]]; [done|done]. }
    apply (at_append _ _ _ _ _ _ _ _ _ Hat) in Hev as (-> & Hat' & Ha & _).
    destruct (withEventCount_fields (ex_EventCount e + 1) e) as (Hid & _ & Hst & _).
    split; [done|]. split; [done|]. split; [done|].
    split; [unfold has; rewrite Ha; apply lookup_insert_eq|]. auto.
Qed.

Lemma at_runs d0 e row d f : at_ d0 e row d → at_ d0 e row (setAgentRuns f d).
Proof. intros [Hi Ho Hh]. split; [|done|done]. by apply (inv_others _ d). Qed.

Lemma claimAgentRun_Ok sid id run g d u d' :
  claimAgentRun sid id run g d = Ok (u, d') → ∃ f, d' = setAgentRuns f d.
Proof.
  unfold claimAgentRun. destruct (firstRow _ _ _ _); try done. case_if; [|done]. intros [= _ <-]. eauto.
Qed.

Lemma claimExecutionChild_Ok c e g d u d' :
  claimExecutionChild c e g d = Ok (u, d') → d' = d ∨ ∃ f, d' = setAgentRuns f d.
Proof.
  unfold claimExecutionChild, findAgentRun. intros H.
  destruct (ex_Kind e); [run_tx; auto|]. destruct (ex_AgentRunID e) as [id|]; [|by run_tx].
  run_tx. case_if; run_tx; eauto using claimAgentRun_Ok.
Qed.

Lemma child_at d0 e row c x g d u d' :
  at_ d0 e row d → claimExecutionChild c x g d = Ok (u, d') →
  at_ d0 e row d' ∧ activities d' = activities d.
Proof.
  intros Hat [->|[f ->]]%claimExecutionChild_Ok; [done|]. split; [by apply at_runs|done].
Qed.

Lemma activityStarted_fields g n t a :
  same_activity a (activityStarted g n t a) ∧
  ac_State (activityStarted g n t a) = ActivityStateRunning ∧
  ac_Attempt (activityStarted g n t a) = n ∧
  ac_ReplayPolicy (activityStarted g n t a) = ac_ReplayPolicy a ∧
  ac_ResolutionJSON (activityStarted g n t a) = NoResolution ∧
  ac_OwnerGenerationID (activityStarted g n t a) = Some g.
Proof. by destruct a. Qed.

Lemma activity_ok_started g t a :
  activity_ok a → ac_Attempt a ≠ max_int64 →
  activity_ok (activityStarted g (ac_Attempt a + 1) t a).
Proof.
  intros [H1 H2 H3 H4] Hmax.
  destruct (activityStarted_fields g (ac_Attempt a + 1) t a) as (_ & Hst & Hat & _ & Hres & _).
  split; rewrite ?Hst, ?Hat, ?Hres; try done; intros; [lia|]. split; [done|lia].
Qed.

Lemma at_queue d0 e d e' d' :
  at_ d0 e e d →
  (if bool_decide (ex_State e = ExecutionStateQueued)
   then _ ← updateExecution e (withState ExecutionStateRunning);
        mret (withState ExecutionStateRunning e)
   else mret e) d = Ok (e', d') →
  at_ d0 e' e' d' ∧ ex_ID e' = ex_ID e ∧ activities d' = activities d ∧
  (isExecutionTerminal (ex_State e) = false → isExecutionTerminal (ex_State e') = false).
Proof.
  intros Hat H. case_bool_decide as Hq; [|by injection H as <- <-].
  destruct (at_set d0 e e d (withState ExecutionStateRunning) Hat) as [Hu Hat'];
    [by destruct e| by destruct e|by rewrite Hq|].
  apply tx_bind_Ok in H as (u & d1 & H1 & H). rewrite Hu in H1. injection H1 as <- <-.
  injection H as <- <-. split; [|by destruct e].
  destruct Hat' as [Hi Ho Hh]. split; [done|by destruct e|by destruct e].
Qed.

Lemma start_at d0 c e a g d a' d' :
  at_ d0 e e d → isExecutionTerminal (ex_State e) = false → has a d →
  ac_ExecutionID a = ex_ID e →
  startActivityAttempt c e a g d = Ok (a', d') →
  (∃ e', at_ d0 e' e' d' ∧ ex_ID e' = ex_ID e) ∧
  a' = activityStarted g (ac_Attempt a + 1) (now c) a ∧ has a' d'.
Proof.
  intros Hat Ht Ha Hex H. unfold startActivityAttempt in H.
  apply tx_bind_Ok in H as (u & d1 & H1 & H).
  destruct (child_at _ _ _ _ _ _ _ _ _ Hat H1) as [Hat1 Hacts].
  assert (Ha1 : has a d1) by (unfold has; by rewrite Hacts).
  apply tx_bind_Ok in H as (u2 & d2 & H2 & H). apply refuseIf_Ok in H2 as [Hmax ->].
  apply Z.eqb_neq in Hmax.
  set (start := activityStarted g (ac_Attempt a + 1) (now c)) in *.
  destruct (activityStarted_fields g (ac_Attempt a + 1) (now c) a) as (Hsame & Hst & _).
  assert (Hok : activity_ok a) by (by destruct (inv_activity _ _ (at_inv _ _ _ _ Hat1) _ _ Ha1) as (_ & ? & _)).
  destruct (at_set_activity d0 e e d1 a (start a) Hat1 Ha1 Hex Hsame) as [Hat2 Ha2];
    [by apply activity_ok_started|by right|unfold start; congruence|].
  apply tx_bind_Ok in H as (u3 & d3 & H3 & H). rewrite updateActivity_Ok in H3 by done.
  injection H3 as <- <-.
  apply tx_bind_Ok in H as (e1 & d4 & H4 & H).
  apply (at_queue _ _ _ _ _ Hat2) in H4 as (Hat3 & Hid & Hacts3 & _).
  apply tx_bind_Ok in H as (e2 & d5 & H5 & H). injection H as <- <-.
  unfold appendActivityEvent in H5.
  destruct (at_append _ _ _ _ _ _ _ _ _ Hat3 H5) as (-> & Hat4 & Hacts4 & _).
  split; [|split; [done|unfold has in *; by rewrite Hacts4, Hacts3]].
  eexists. split; [done|].
  by destruct (withEventCount_fields (ex_EventCount e1 + 1) e1) as (-> & _).
Qed.

Lemma activityStopped_fields s a :
  same_activity a (activityStopped s a) ∧ ac_State (activityStopped s a) = s ∧
  ac_Attempt (activityStopped s a) = ac_Attempt a ∧
  ac_ReplayPolicy (activityStopped s a) = ac_ReplayPolicy a.
Proof. by destruct a. Qed.

Lemma activity_ok_stopped s a :
  activity_ok a → s ≠ ActivityStateRunning → s ≠ ActivityStateScheduled →
  (s = ActivityStateFailed ∨ s = ActivityStatePaused →
   ac_ReplayPolicy a ≠ ActivityReplayPolicyReconcile) →
  activity_ok (activityStopped s a).
Proof.
  intros [H1 H2 H3 H4] Hr Hs Hp.
  destruct (activityStopped_fields s a) as (_ & Hst & Hat & Hpol).
  split; rewrite ?Hst, ?Hat, ?Hpol; try done. intros Hrec. split; intros ->; naive_solver.
Qed.

Lemma mark_at d0 c e a d a' d' :
  at_ d0 e e d → isExecutionTerminal (ex_State e) = false → has a d →
  ac_ExecutionID a = ex_ID e →
  markActivityUncertain c e a d = Ok (a', d') →
  (∃ e' row', at_ d0 e' row' d' ∧ ex_ID e' = ex_ID e) ∧
  a' = activityStopped ActivityStateUncertain a ∧ has a' d'.
Proof.
  intros Hat Ht Ha Hex H. unfold markActivityUncertain in H.
  destruct (activityStopped_fields ActivityStateUncertain a) as (Hsame & Hst & _).
  assert (Hok : activity_ok a) by (by destruct (inv_activity _ _ (at_inv _ _ _ _ Hat) _ _ Ha) as (_ & ? & _)).
  set (a1 := activityStopped ActivityStateUncertain a) in *.
  destruct (at_set_activity d0 e e d a a1 Hat Ha Hex Hsame) as [Hat2 Ha2];
    [by apply activity_ok_stopped; naive_solver|by right|congruence|].
  apply tx_bind_Ok in H as (u3 & d3 & H3 & H). rewrite updateActivity_Ok in H3 by done.
  injection H3 as <- <-. cbv zeta in H.
  apply tx_bind_Ok in H as (u4 & d4 & H4 & H).
  assert (∃ row, at_ d0 e row d4 ∧ activities d4 = activities (setActivities <[ac_ID a := a1]> d))
    as (row & Hat4 & Hacts4).
  { case_if; [|by injection H4 as <- <-; eauto].
    destruct (at_set d0 e e _ (withState ExecutionStateReconciling) Hat2) as [Hu Hat'];
      [by destruct e|by destruct e|done|]. unfold a1 in Hu, Hat'. rewrite Hu in H4. injection H4 as <- <-. eauto. }
  apply tx_bind_Ok in H as (e5 & d5 & H5 & H). injection H as <- <-.
  destruct (at_append _ _ _ _ _ _ _ _ _ Hat4 H5) as (-> & Hat5 & Hacts5 & _).
  split; [|split; [done|unfold has in *; by rewrite Hacts5, Hacts4]].
  do 2 eexists. split; [done|].
  by destruct (withEventCount_fields (ex_EventCount e + 1) e) as (-> & _).
Qed.

(** What a claim answers, by the state it finds. *)
Lemma claim_at d0 c e a g d cl d' :
  at_ d0 e e d → isExecutionTerminal (ex_State e) = false → has a d →
  ac_ExecutionID a = ex_ID e →
  claimExecutionActivity c e a g d = Ok (cl, d') →
  (∃ e' row', at_ d0 e' row' d' ∧ ex_ID e' = ex_ID e) ∧
  (cl_Decision cl = ActivityDecisionExecute →
   cl_Activity cl = activityStarted g (ac_Attempt a + 1) (now c) a ∧
   has (cl_Activity cl) d' ∧
   cl_Lease cl = mkLease (ac_ID a) g (ac_Attempt a + 1) ∧
   (ac_State a = ActivityStateRunning → ac_ReplayPolicy a ≠ ActivityReplayPolicyReconcile) ∧
   ac_State a ≠ ActivityStateUncertain ∧ ac_State a ≠ ActivityStateCompleted).
Proof.
  intros Hat Ht Ha Hex H. unfold claimExecutionActivity in H.
  case_bool_decide; [injection H as <- <-; split; [eauto|done]|].
  case_bool_decide; [injection H as <- <-; split; [eauto|done]|].
  apply tx_bind_Ok in H as (u & d1 & Hr1 & H). apply refuseIf_Ok in Hr1 as [_ ->].
  case_bool_decide; [injection H as <- <-; split; [eauto|done]|].
  apply tx_bind_Ok in H as (u2 & d2 & Hr2 & H). apply refuseIf_Ok in Hr2 as [_ ->].
  case_if; apply tx_bind_Ok in H as (b & d3 & Hr3 & H); injection H as <- <-.
  - apply (mark_at _ _ _ _ _ _ _ Hat Ht Ha Hex) in Hr3 as (? & _). by split.
  - apply (start_at _ _ _ _ _ _ _ _ Hat Ht Ha Hex) in Hr3 as ((e' & ? & ?) & -> & Hhas).
    split; [by exists e', e'|]. intros _. simpl.
    destruct (activityStarted_fields g (ac_Attempt a + 1) (now c) a)
      as ((Hid & _) & _ & Hatt & _). rewrite Hid, Hatt.
    split; [done|]. split; [done|]. split; [done|]. split; [|done].
    intros Hr Hp. rewrite !bool_decide_eq_true_2 in Heqb by done. done.
Qed.

Lemma claim_terminal c e a g d cl d' :
  isExecutionTerminal (ex_State e) = true →
  claimExecutionActivity c e a g d = Ok (cl, d') →
  d' = d ∧ cl_Decision cl ≠ ActivityDecisionExecute ∧ ac_State a = ActivityStateCompleted.
Proof.
  intros Ht H. unfold claimExecutionActivity in H.
  case_bool_decide as Hp; [by rewrite Hp in Ht|].
  case_bool_decide; [by injection H as <- <-|].
  apply tx_bind_Ok in H as (u & d1 & Hr1 & H). apply refuseIf_Ok in Hr1 as [Hr1 _]. congruence.
Qed.

(** Claiming: the good step, and what the claim to execute was based on. *)
Lemma begin_good c sid id g input d cl d' :
  inv d → beginActivity c sid id g input d = Ok (cl, d') →
  good d d' ∧
  (cl_Decision cl = ActivityDecisionExecute →
   ∃ a, cl_Activity cl = activityStarted g (ac_Attempt a + 1) (now c) a ∧
        has (cl_Activity cl) d' ∧
        cl_Lease cl = mkLease (ac_ID a) g (ac_Attempt a + 1) ∧
        ac_ReplayPolicy a = sc_ReplayPolicy input ∧
        (has a d ∨ ac_Attempt a = 0%Z) ∧ activity_ok a ∧
        (ac_State a = ActivityStateRunning → ac_ReplayPolicy a ≠ ActivityReplayPolicyReconcile) ∧
        ac_State a ≠ ActivityStateUncertain ∧ ac_State a ≠ ActivityStateCompleted ∧
        ac_State a ≠ ActivityStateCancelled).
Proof.
  intros Hi H. unfold beginActivity in H.
  apply tx_bind_Ok in H as (e & d1 & H1 & H). apply findExecution_Ok in H1 as (He & Hs & ->).
  pose proof (inv_keyed _ _ Hi _ _ He) as Hid. subst id.
  apply tx_bind_Ok in H as ([e' a] & d2 & H2 & H).
  pose proof (at_start d e sid Hi He Hs) as Hat.
  destruct (isExecutionTerminal (ex_State e)) eqn:Ht.
  - assert (Hfound : d' = d ∧ cl_Decision cl ≠ ActivityDecisionExecute).
    { unfold ensureExecutionActivity in H2.
      apply tx_bind_Ok in H2 as (o & d3 & Hr & H2). apply reads_Ok in Hr as [_ ->].
      destruct o as [b|]; cbv zeta in H2.
      - run_tx. simplify_eq. apply claim_terminal in H; naive_solver.
      - apply tx_bind_Ok in H2 as (u & d4 & Hnew & H2).
        apply tx_bind_Ok in H2 as (e2 & d5 & Hev & H2). injection H2 as <- <- <-.
        apply createActivity_Ok in Hnew as [_ ->].
        assert (Ht' : isExecutionTerminal (ex_State e2) = true).
        { unfold appendActivityEvent, appendExecutionEvent in Hev. run_tx. by destruct e. }
        apply claim_terminal in H as (_ & _ & H); done. }
    destruct Hfound as [-> Hcl]. split; [by apply good_refl|done].
  - apply (ensure_at _ _ _ _ _ _ _ Hat Ht) in H2 as (Hat2 & Hid & Hst & Ha & Hex & Hpol & Hold).
    rewrite <- Hst in Ht.
    pose proof Hat2 as [Hi2 _ _].
    destruct (inv_activity _ _ Hi2 _ _ Ha) as (_ & Hok & _).
    assert (Hcan : ac_State a ≠ ActivityStateCancelled).
    { intros Hc. pose proof (inv_cancelled _ _ Hi2 e' _ a Ha) as Hterm.
      rewrite Hex, <- Hid in Hterm. destruct Hat2 as [_ _ (Hrow & _)].
      rewrite Hterm in Ht by done. done. }
    apply (claim_at _ _ _ _ _ _ _ _ Hat2 Ht Ha) in H as ((e3 & row & Hat3 & Hid3) & Hcl); [|congruence].
    split; [|intros Hx; exists a; naive_solver].
    eapply (only_good (ex_ID e)); [by eapply at_inv| |done|congruence].
    rewrite <- Hid, <- Hid3. by eapply at_only.
Qed.

(** ** Completing a step *)

Lemma activityForLease_Ok sid lease d a e d' :
  inv d → activityForLease sid lease d = Ok ((a, e), d') →
  d' = d ∧ activities d !! le_ID lease = Some a ∧ has a d ∧ ac_SessionID a = sid ∧
  ac_OwnerGenerationID a = Some (le_GenerationID lease) ∧ ac_Attempt a = le_Attempt lease ∧
  executions d !! ex_ID e = Some e ∧ ac_ExecutionID a = ex_ID e ∧ ex_SessionID e = sid ∧
  activity_ok a.
Proof.
  intros Hi H. unfold activityForLease in H.
  apply tx_bind_Ok in H as (u & d1 & Hr & H). apply refuseIf_Ok in Hr as [_ ->].
  apply tx_bind_Ok in H as (b & d2 & Hr & H). unfold findExecutionActivity in Hr.
  apply reads_Ok in Hr as [[Ha Hs]%firstRow_Ok ->].
  apply tx_bind_Ok in H as (u2 & d3 & Hr & H). apply refuseIf_Ok in Hr as [Ho ->].
  apply tx_bind_Ok in H as (u3 & d4 & Hr & H). apply refuseIf_Ok in Hr as [Ht ->].
  apply tx_bind_Ok in H as (e1 & d5 & Hr & H). apply findExecution_Ok in Hr as (He & Hse & ->).
  injection H as <- <- <-. read_guards. apply Z.eqb_eq in Ht.
  destruct (inv_activity _ _ Hi _ _ Ha) as (Hid & Hok & _).
  pose proof (inv_keyed _ _ Hi _ _ He) as Hkey. unfold has. rewrite Hid, Hkey. auto 15.
Qed.

Lemma activityForLease_again sid lease d a e d' a2 e2 d2 :
  inv d → activityForLease sid lease d = Ok ((a, e), d') →
  activities d2 !! le_ID lease = Some a2 → ac_SessionID a2 = ac_SessionID a →
  ac_OwnerGenerationID a2 = ac_OwnerGenerationID a → ac_Attempt a2 = ac_Attempt a →
  ac_ExecutionID a2 = ac_ExecutionID a →
  executions d2 !! ac_ExecutionID a = Some e2 → ex_SessionID e2 = sid →
  activityForLease sid lease d2 = Ok ((a2, e2), d2).
Proof.
  intros Hi H Ha2 Hs2 Ho2 Ht2 Hx2 He2 Hse2.
  pose proof (activityForLease_Ok _ _ _ _ _ _ Hi H) as (-> & _ & _ & Hs & Ho & Ht & _).
  unfold activityForLease in *.
  apply tx_bind_Ok in H as (u & d1 & Hr & _). apply refuseIf_Ok in Hr as [Hr _].
  unfold findExecutionActivity, findExecution, refuseIf, check, reads, firstRow, mbind, tx_bind.
  simpl. rewrite Hr. simpl. rewrite Ha2, bool_decide_eq_true_2 by congruence. simpl.
  rewrite Ho2, Ho, bool_decide_eq_true_2 by done. simpl.
  rewrite Ht2, Ht, Z.eqb_refl. simpl. by rewrite Hx2, He2, bool_decide_eq_true_2.
Qed.

Lemma activityResult_fields o x t a :
  same_activity a (activityResult o x t a) ∧
  ac_State (activityResult o x t a) = ActivityStateCompleted ∧
  ac_Attempt (activityResult o x t a) = ac_Attempt a ∧
  ac_OwnerGenerationID (activityResult o x t a) = ac_OwnerGenerationID a ∧
  ac_OutputJSON (activityResult o x t a) = Some o ∧
  ac_ContextJSON (activityResult o x t a) = x ∧
  ac_ResolutionJSON (activityResult o x t a) = ac_ResolutionJSON a ∧
  ac_Name (activityResult o x t a) = ac_Name a ∧ ac_StepID (activityResult o x t a) = ac_StepID a ∧
  ac_Kind (activityResult o x t a) = ac_Kind a.
Proof. by destruct a. Qed.

Lemma activityInspected_fields r a :
  same_activity a (activityInspected r a) ∧
  ac_State (activityInspected r a) = ac_State a ∧
  ac_Attempt (activityInspected r a) = ac_Attempt a ∧
  ac_OwnerGenerationID (activityInspected r a) = ac_OwnerGenerationID a ∧
  ac_OutputJSON (activityInspected r a) = ac_OutputJSON a ∧
  ac_ContextJSON (activityInspected r a) = ac_ContextJSON a ∧
  ac_ResolutionJSON (activityInspected r a) = r ∧
  ac_Name (activityInspected r a) = ac_Name a ∧ ac_StepID (activityInspected r a) = ac_StepID a ∧
  ac_Kind (activityInspected r a) = ac_Kind a.
Proof. by destruct a. Qed.

Lemma activity_ok_completed a :
  ac_State a = ActivityStateCompleted → (0 ≤ ac_Attempt a ≤ max_int64)%Z → activity_ok a.
Proof. intros Hs Ha. split; [done|..]; intros; by rewrite Hs in *. Qed.

Lemma save_at d0 c e row a o x d a' d' :
  at_ d0 e row d → has a d → ac_ExecutionID a = ex_ID e →
  saveActivityResult c a o x d = Ok (a', d') →
  a' = activityResult o x (now c) a ∧ at_ d0 e row d' ∧ has a' d' ∧
  executions d' = executions d.
Proof.
  intros Hat Ha Hex H. unfold saveActivityResult in H.
  apply tx_bind_Ok in H as (u & d1 & Hu & H). injection H as <- <-.
  rewrite updateActivity_Ok in Hu by done. injection Hu as <- <-.
  rewrite bool_decide_eq_true_2 by done.
  destruct (activityResult_fields o x (now c) a) as (Hsame & Hst & Hatt & _).
  destruct (inv_activity _ _ (at_inv _ _ _ _ Hat) _ _ Ha) as (_ & [Hrange _ _ _] & _).
  destruct (at_set_activity d0 e row d a (activityResult o x (now c) a) Hat Ha Hex Hsame)
    as [Hat2 Ha2]; [apply activity_ok_completed; [done|by rewrite Hatt]|by left; left|by rewrite Hst|].
  done.
Qed.

Lemma decision_at d0 e row a input b d a' d' :
  at_ d0 e row d → has a d → ac_ExecutionID a = ex_ID e → ac_State a = ActivityStateCompleted →
  saveFinishDecision finishDecisionHash a input b d = Ok (a', d') →
  a' = activityInspected (FinishDecision (finishDecisionHash input) b) a ∧
  at_ d0 e row d' ∧ has a' d' ∧ executions d' = executions d.
Proof.
  intros Hat Ha Hex Hst H. unfold saveFinishDecision in H. cbv zeta in H.
  apply tx_bind_Ok in H as (u & d1 & Hu & H). injection H as <- <-.
  rewrite updateActivity_Ok in Hu by done. injection Hu as <- <-.
  set (r := FinishDecision _ _).
  destruct (activityInspected_fields r a) as (Hsame & Hst' & Hatt & _).
  destruct (inv_activity _ _ (at_inv _ _ _ _ Hat) _ _ Ha) as (_ & [Hrange _ _ _] & _).
  destruct (at_set_activity d0 e row d a (activityInspected r a) Hat Ha Hex Hsame)
    as [Hat2 Ha2]; [apply activity_ok_completed; congruence|left; left; congruence|congruence|].
  done.
Qed.

(** What a finish leaves in the execution's row. *)
Definition finished (fin : FinishExecutionInput) (input : CompleteActivityInput)
    (row : Execution) : Prop :=
  ex_State row = fi_State fin ∧ ex_FailureDetail row = fi_FailureDetail fin ∧
  ex_ContextJSON row = co_Context input ∧
  (fi_WorkingDirectory fin = [] ∨ ex_WorkingDirectory row = fi_WorkingDirectory fin).

Lemma settledStates_settled s terminal : s ∈ settledStates terminal → settled s.
Proof.
  unfold settledStates, settled. case_bool_decide; rewrite ?elem_of_cons, elem_of_nil; naive_solver.
Qed.

Lemma executionFinished_fields s x w t n e :
  same_identity e (executionFinished s x w t n e) ∧
  ex_State (executionFinished s x w t n e) = s ∧
  ex_FailureDetail (executionFinished s x w t n e) = t ∧
  ex_ContextJSON (executionFinished s x w t n e) = x ∧
  ex_WorkingDirectory (executionFinished s x w t n e) = w.
Proof. by destruct e. Qed.

Lemma activitiesOf_all e d i a :
  inv d → executions d !! ex_ID e = Some e → activities d !! i = Some a →
  ac_ExecutionID a = ex_ID e → a ∈ activitiesOf e d.
Proof.
  intros Hi He Ha Hex. apply list_elem_of_filter. split.
  - destruct (inv_activity _ _ Hi _ _ Ha) as (_ & _ & y & Hy & Hs). split; [|done].
    rewrite Hex, He in Hy. naive_solver.
  - apply list_elem_of_fmap. exists (i, a). split; [done|]. by apply elem_of_map_to_list.
Qed.

(** Checks that only read. *)
Lemma readSeal_Ok e d o d' : readExecutionCompletionSeal e d = Ok (o, d') → d' = d.
Proof. unfold readExecutionCompletionSeal. by intros [_ ->]%reads_Ok. Qed.

Lemma settledInbox_Ok e s d u d' :
  requireSettledExecutionInbox Sum256 e s d = Ok (u, d') → d' = d.
Proof.
  unfold requireSettledExecutionInbox, completedHookInboxWatermark. intros H. case_if.
  { by injection H as _ <-. }
  apply tx_bind_Ok in H as (cutoff & d1 & Hc & H).
  apply tx_bind_Ok in Hc as (o & d2 & Hr & Hc). apply readSeal_Ok in Hr as ->.
  assert (d1 = d) as -> by (destruct o; run_tx; done). by run_tx.
Qed.

Lemma holder_Ok a e input d u d' : checkExecutionFinishHolder a e input d = Ok (u, d') → d' = d.
Proof.
  unfold checkExecutionFinishHolder, findExecutionTurnLease. intros H.
  destruct (co_Finish input) as [fin|]; [|by run_tx].
  destruct (fi_RootHolder fin); by run_tx.
Qed.

Lemma finish_at d0 c e input d u d' :
  at_ d0 e e d → isExecutionTerminal (ex_State e) = false →
  finishExecution Sum256 c e input d = Ok (u, d') →
  activities d' = activities d ∧
  ∃ e' row, at_ d0 e' row d' ∧ ex_ID e' = ex_ID e ∧ ex_SessionID e' = ex_SessionID e ∧
    match co_Finish input with Some fin => finished fin input row | None => True end.
Proof.
  intros Hat Hlive H. unfold finishExecution in H.
  destruct (co_Finish input) as [fin|]; [|injection H as <- <-; split; [done|by exists e, e]].
  apply tx_bind_Ok in H as (u1 & d1 & Hr & H). unfold requireSettledExecutionActivities in Hr.
  apply reads_Ok in Hr as [Hset ->].
  match type of Hset with (if ?b then _ else _) = _ => destruct b eqn:Hall; [|done] end.
  apply bool_decide_eq_true in Hall.
  apply tx_bind_Ok in H as (u2 & d2 & Hr & H).
  apply settledInbox_Ok in Hr as ->.
  cbv zeta in H. set (dir := if bool_decide (fi_WorkingDirectory fin = []) then _ else _) in *.
  set (f := executionFinished (fi_State fin) (co_Context input) dir (fi_FailureDetail fin) (now c)) in *.
  destruct (executionFinished_fields (fi_State fin) (co_Context input) dir (fi_FailureDetail fin)
              (now c) e) as (Hsame & Hst & Hfd & Hctx & Hdir).
  fold f in Hsame, Hst, Hfd, Hctx, Hdir.
  destruct (at_set d0 e e d f Hat Hsame) as [Hu Hat2].
  { intros _. right. intros i a Ha Hex. eapply settledStates_settled.
    rewrite Forall_forall in Hall. apply Hall. eapply activitiesOf_all; [by eapply at_inv| |done..].
    by destruct Hat as [_ _ (? & _)]. }
  { done. }
  apply tx_bind_Ok in H as (u3 & d3 & Hr3 & H). rewrite Hu in Hr3. injection Hr3 as <- <-.
  apply tx_bind_Ok in H as (e4 & d4 & Hr4 & H). injection H as <- <-.
  destruct (at_append _ _ _ _ _ _ _ _ _ Hat2 Hr4) as (-> & Hat4 & Hacts & _).
  split; [done|]. eexists _, _. split; [exact Hat4|].
  destruct (withEventCount_fields (ex_EventCount e + 1) e) as (Hid & Hss & _).
  destruct (withEventCount_fields (ex_EventCount e + 1) (f e)) as (_ & _ & Hs1 & _ & Hd1 & Hf1 & Hx1).
  split; [done|]. split; [done|]. unfold finished. rewrite Hs1, Hd1, Hf1, Hx1, Hst, Hfd, Hctx, Hdir.
  split; [done|]. split; [done|]. split; [done|].
  unfold dir. destruct (decide (fi_WorkingDirectory fin = [])); [by left|right].
  by rewrite bool_decide_eq_false_2.
Qed.

(** The four ways a running step completes. *)
Inductive completion (c : call) (input : CompleteActivityInput) (a : ExecutionActivity)
    : ExecutionActivity → Execution → Prop :=
  | completion_step row :
      co_Finish input = None →
      completion c input a (activityResult (co_Output input) (co_Context input) (now c) a) row
  | completion_final fin row :
      co_Finish input = Some fin → fi_PendingOutput fin = [] → finished fin input row →
      completion c input a (activityResult (co_Output input) (co_Context input) (now c) a) row
  | completion_decided fin row :
      co_Finish input = Some fin → fi_PendingOutput fin ≠ [] → finished fin input row →
      completion c input a
        (activityInspected (FinishDecision (finishDecisionHash input) false)
           (activityResult (co_Output input) (co_Context input) (now c) a)) row
  | completion_continued fin row :
      co_Finish input = Some fin → fi_PendingOutput fin ≠ [] →
      completion c input a
        (activityInspected (FinishDecision (finishDecisionHash input) true)
           (activityResult (fi_PendingOutput fin) (co_Context input) (now c)
              (activityResult (co_Output input) (co_Context input) (now c) a))) row.

Lemma finishActivity_at d0 c e input b a d a' d' :
  at_ d0 e e d → isExecutionTerminal (ex_State e) = false → has a d →
  ac_ExecutionID a = ex_ID e →
  a = activityResult (co_Output input) (co_Context input) (now c) b →
  finishActivityCompletion Sum256 finishDecisionHash c a e input d = Ok (a', d') →
  ∃ e' row, at_ d0 e' row d' ∧ ex_ID e' = ex_ID e ∧ ex_SessionID e' = ex_SessionID e ∧ has a' d' ∧ completion c input b a' row.
Proof.
  intros Hat Hlive Ha Hex Hab H. unfold finishActivityCompletion in H.
  assert (Hcomp : ac_State a = ActivityStateCompleted) by (subst a; by destruct b).
  destruct (finishExecution Sum256 c e input d) as [[u1 d1]|[]| |] eqn:Hf; try done.
  - apply (finish_at _ _ _ _ _ _ _ Hat Hlive) in Hf as (Hacts & e1 & row & Hat1 & Hid & Hses & Hfin).
    assert (Ha1 : has a d1) by (unfold has; by rewrite Hacts).
    assert (Hex1 : ac_ExecutionID a = ex_ID e1) by congruence.
    unfold pendingOutput in H. destruct (co_Finish input) as [fin|] eqn:Hfi.
    + case_bool_decide as Hp.
      * injection H as <- <-. exists e1, row. repeat (split; [done|]). subst a. by eapply completion_final.
      * apply (decision_at _ _ _ _ _ _ _ _ _ Hat1 Ha1 Hex1 Hcomp) in H as (-> & Hat2 & Ha2 & _).
        exists e1, row. repeat (split; [done|]). subst a. by eapply completion_decided.
    + rewrite bool_decide_eq_true_2 in H by done. injection H as <- <-.
      exists e1, row. repeat (split; [done|]). subst a. by eapply completion_step.
  - unfold pendingOutput in H.
    destruct (co_Finish input) as [fin|] eqn:Hfi; case_bool_decide as Hp; try done.
    unfold savePendingFinishDecision in H. apply tx_bind_Ok in H as (a1 & d1 & Hs & H).
    apply (save_at _ _ _ _ _ _ _ _ _ _ Hat Ha Hex) in Hs as (-> & Hat1 & Ha1 & _).
    destruct (activityResult_fields (fi_PendingOutput fin) (co_Context input) (now c) a)
      as ((_ & _ & Hx) & Hst & _).
    apply (decision_at _ _ _ _ _ _ _ _ _ Hat1 Ha1) in H as (-> & Hat2 & Ha2 & _); [|congruence|done].
    exists e, e. repeat (split; [done|]). subst a. by eapply completion_continued.
Qed.

(** The step of a completion. *)
Lemma complete_good c sid lease input d a' d' :
  inv d → completeActivity Sum256 finishDecisionHash c sid lease input d = Ok (a', d') →
  good d d' ∧
  ∃ a e, activityForLease sid lease d = Ok ((a, e), d) ∧
    ((ac_State a = ActivityStateCompleted ∧ d' = d ∧
      completedExecutionActivity finishDecisionHash a e input = Ok a') ∨
     (ac_State a = ActivityStateRunning ∧ validateFinishIdentity a input = Ok tt ∧
      has a' d' ∧ ∃ e', executions d' !! ex_ID e = Some e' ∧ ex_SessionID e' = sid ∧
                        completion c input a a' e')).
Proof.
  intros Hi H. unfold completeActivity in H.
  apply tx_bind_Ok in H as ([a e] & d1 & Hl & H).
  pose proof (activityForLease_Ok _ _ _ _ _ _ Hi Hl)
    as (-> & _ & Ha & Hsa & _ & _ & He & Hex & Hse & Hok).
  case_bool_decide as Hcomp.
  { apply reads_Ok in H as [H ->]. split; [by apply good_refl|]. exists a, e. auto. }
  apply tx_bind_Ok in H as (u & d1 & Hr & H). apply refuseIf_Ok in Hr as [Hr ->]. read_guards.
  apply tx_bind_Ok in H as (u2 & d2 & Hr2 & H). apply check_Ok in Hr2 as [Hclaim ->].
  apply tx_bind_Ok in H as (u5 & d5 & Hr5 & H). apply holder_Ok in Hr5 as ->.
  rename Hr into Hrun.
  assert (Hterm : isExecutionTerminal (ex_State e) = false).
  { apply not_true_is_false. intros Ht.
    pose proof (inv_settled d e _ a Hi Ha) as Hst. rewrite Hex in Hst. specialize (Hst He Ht).
    rewrite Hrun in Hst. by destruct Hst as [?|[?|?]]. }
  pose proof (at_start d e sid Hi He Hse) as Hat.
  apply tx_bind_Ok in H as (a1 & d1 & Hs & H).
  apply (save_at _ _ _ _ _ _ _ _ _ _ Hat Ha Hex) in Hs as (-> & Hat1 & Ha1 & _).
  destruct (activityResult_fields (co_Output input) (co_Context input) (now c) a)
    as ((_ & _ & Hx) & _).
  set (a1 := activityResult _ _ _ a) in *.
  apply tx_bind_Ok in H as (e2 & d2 & Hev & H).
  destruct (at_append _ _ _ _ _ _ _ _ _ Hat1 Hev) as (-> & Hat2 & Hacts & _).
  destruct (withEventCount_fields (ex_EventCount e + 1) e) as (Hid & Hss & Hst2 & _).
  apply (finishActivity_at _ _ _ _ a _ _ _ _ Hat2) in H
    as (e3 & row & Hat3 & Hid3 & Hs3 & Ha3 & Hc);
    [|congruence|unfold has; by rewrite Hacts|congruence|done].
  assert (He3 : ex_ID e3 = ex_ID e) by congruence.
  split.
  - eapply (only_good (ex_ID e)); [by eapply at_inv| |done|done]. rewrite <- He3. by eapply at_only.
  - exists a, e. split; [done|]. right. split; [done|]. split.
    { unfold validateFinishClaim in Hclaim. invert_ok. by destruct r. }
    split; [done|].
    destruct Hat3 as [Hi3 Ho3 (Hrow & Hs4 & _)]. exists row. rewrite <- He3. split; [done|].
    split; [congruence|done].
Qed.

(** ** Interrupting a step *)

Lemma live_of d a e :
  inv d → has a d → ac_ExecutionID a = ex_ID e → executions d !! ex_ID e = Some e →
  ¬ settled (ac_State a) → isExecutionTerminal (ex_State e) = false.
Proof.
  intros Hi Ha Hex He Hs. apply not_true_is_false. intros Ht. apply Hs.
  eapply (inv_settled d e _ a Hi Ha); [by rewrite Hex|done].
Qed.

Lemma interrupt_good c sid lease d u d' :
  inv d → interruptActivity c sid lease d = Ok (u, d') → good d d'.
Proof.
  intros Hi H. unfold interruptActivity in H. apply tx_bind_Ok in H as ([a e] & d1 & Hl & H).
  pose proof (activityForLease_Ok _ _ _ _ _ _ Hi Hl)
    as (-> & _ & Ha & Hsa & _ & _ & He & Hex & Hse & Hok).
  destruct (decide (ac_State a = ActivityStateRunning)) as [Hrun|Hrun]; cycle 1.
  { rewrite bool_decide_eq_false_2 in H by done. injection H as <- <-. by apply good_refl. }
  rewrite bool_decide_eq_true_2 in H by done. simpl in H.
  assert (Hterm : isExecutionTerminal (ex_State e) = false).
  { eapply live_of; try done. unfold settled. rewrite Hrun. naive_solver. }
  pose proof (at_start d e sid Hi He Hse) as Hat.
  destruct (decide (ac_ReplayPolicy a = ActivityReplayPolicyReconcile)) as [Hp|Hp].
  - rewrite bool_decide_eq_true_2 in H by done. apply tx_bind_Ok in H as (b & d1 & Hm & H).
    injection H as <- <-.
    apply (mark_at _ _ _ _ _ _ _ Hat Hterm Ha Hex) in Hm as ((e1 & row & Hat1 & Hid) & _).
    eapply (only_good (ex_ID e)); [by eapply at_inv| |done|done]. rewrite <- Hid. by eapply at_only.
  - rewrite bool_decide_eq_false_2 in H by done. cbv zeta in H.
    set (s := if bool_decide (ex_State e = ExecutionStatePaused)
              then ActivityStatePaused else ActivityStateFailed) in *.
    destruct (activityStopped_fields s a) as (Hsame & Hst & _).
    destruct (at_set_activity d e e d a (activityStopped s a) Hat Ha Hex Hsame) as [Hat1 Ha1];
      [|by right|rewrite Hst; unfold s; by case_bool_decide|].
    { apply activity_ok_stopped; try done; unfold s; by case_bool_decide. }
    apply tx_bind_Ok in H as (u1 & d1 & Hu & H). rewrite updateActivity_Ok in Hu by done.
    injection Hu as <- <-. apply tx_bind_Ok in H as (e2 & d2 & Hev & H). injection H as <- <-.
    destruct (at_append _ _ _ _ _ _ _ _ _ Hat1 Hev) as (-> & Hat2 & _).
    eapply (only_good (ex_ID e)); [by eapply at_inv| |done|done].
    destruct (withEventCount_fields (ex_EventCount e + 1) e) as (<- & _). by eapply at_only.
Qed.

(** ** Resolving an unknown effect *)

Lemma activityReleased_fields a :
  same_activity a (activityReleased a) ∧ ac_State (activityReleased a) = ActivityStateScheduled ∧
  ac_Attempt (activityReleased a) = ac_Attempt a ∧
  ac_ResolutionJSON (activityReleased a) = ac_ResolutionJSON a.
Proof. by destruct a. Qed.

Lemma validateActivityResolution_Ok input :
  validateActivityResolution maxExecutionStateBytes maxStoredMessageBytes input = Ok tt →
  re_Evidence input ≠ [] ∧
  (re_Resolution input = ActivityResolutionRetry ∨ re_Resolution input = ActivityResolutionAccept).
Proof.
  unfold validateActivityResolution. intros H. case_if; [done|]. read_guards.
  split; [done|]. destruct (re_Resolution input); auto. done.
Qed.

Lemma apply_at d0 c e a input d a' d' :
  at_ d0 e e d → isExecutionTerminal (ex_State e) = false → has a d →
  ac_ExecutionID a = ex_ID e → ac_State a = ActivityStateUncertain →
  ac_Attempt a = re_Attempt input →
  validateActivityResolution maxExecutionStateBytes maxStoredMessageBytes input = Ok tt →
  applyActivityResolution marshalResolution c a input d = Ok (a', d') →
  at_ d0 e e d'.
Proof.
  intros Hat Ht Ha Hex Hst Hatt [Hev Hres]%validateActivityResolution_Ok H.
  unfold applyActivityResolution in H. cbv zeta in H.
  set (r := Inspected (marshalResolution input)) in *.
  destruct (inv_activity _ _ (at_inv _ _ _ _ Hat) _ _ Ha) as (_ & [Hrange _ _ _] & _).
  destruct (activityInspected_fields r a) as (Hsame & Hst1 & Hatt1 & _ & _ & _ & Hr1 & _).
  destruct (at_set_activity d0 e e d a (activityInspected r a) Hat Ha Hex Hsame) as [Hat1 Ha1];
    [|by right|congruence|].
  { split; [by rewrite Hatt1|..]; rewrite Hst1, Hst; done. }
  apply tx_bind_Ok in H as (u & d1 & Hu & H). rewrite updateActivity_Ok in Hu by done.
  injection Hu as <- <-. destruct Hsame as (Hi1 & _ & Hx1).
  case_bool_decide as Hacc.
  - apply (save_at _ _ _ _ _ _ _ _ _ _ Hat1 Ha1) in H as (_ & Hat2 & _); [done|congruence].
  - assert (Hretry : re_Resolution input = ActivityResolutionRetry) by naive_solver.
    set (b := activityInspected r a) in *.
    destruct (activityReleased_fields b) as (Hsame2 & Hst2 & Hatt2 & Hr2).
    destruct (at_set_activity d0 e e _ b (activityReleased b) Hat1 Ha1) as [Hat2 Ha2];
      [congruence|done| |by right|congruence|].
    { split; rewrite ?Hst2, ?Hatt2, ?Hatt1; try done. intros _ _ _. exists input.
      rewrite Hr2, Hr1, Hatt2, Hatt1. auto. }
    apply tx_bind_Ok in H as (u2 & d2 & Hu & H). rewrite updateActivity_Ok in Hu by done.
    injection Hu as <- <-. by injection H as <- <-.
Qed.

Lemma resolve_good c sid id input origin d a' d' :
  inv d → validateActivityResolution maxExecutionStateBytes maxStoredMessageBytes input = Ok tt →
  resolveActivity marshalResolution c sid id input origin d = Ok (a', d') → good d d'.
Proof.
  intros Hi Hv H. unfold resolveActivity, findExecutionActivity in H.
  apply tx_bind_Ok in H as (a & d1 & Hr & H). apply reads_Ok in Hr as [[Hrow Hs]%firstRow_Ok ->].
  destruct (inv_activity _ _ Hi _ _ Hrow) as (Hida & Hok & _).
  assert (Ha : has a d) by (unfold has; by rewrite Hida).
  apply tx_bind_Ok in H as (dup & d1 & Hr & H). apply reads_Ok in Hr as [Hstat ->].
  destruct dup; [injection H as <- <-; by apply good_refl|].
  unfold activityResolutionStatus in Hstat.
  destruct (ac_Attempt a =? re_Attempt input)%Z eqn:Hatt; simpl in Hstat; [|done].
  apply Z.eqb_eq in Hatt. case_bool_decide; [done|]. case_bool_decide as Hst; [|done]. simpl in Hstat.
  apply tx_bind_Ok in H as (e & d1 & Hr & H). apply findExecution_Ok in Hr as (He & Hse & ->).
  pose proof (inv_keyed _ _ Hi _ _ He) as Hex. symmetry in Hex. rewrite Hex in He.
  pose proof (at_start d e sid Hi He Hse) as Hat.
  assert (Hterm : isExecutionTerminal (ex_State e) = false).
  { eapply live_of; try done. unfold settled. rewrite Hst. naive_solver. }
  apply tx_bind_Ok in H as (b & d1 & Happ & H).
  apply (apply_at _ _ _ _ _ _ _ _ Hat Hterm Ha Hex Hst Hatt Hv) in Happ as Hat1.
  apply tx_bind_Ok in H as (e2 & d2 & Hev & H). unfold appendActivityResolution in Hev.
  destruct (at_append _ _ _ _ _ _ _ _ _ Hat1 Hev) as (-> & Hat2 & _).
  apply tx_bind_Ok in H as (u & d3 & Hres & H). injection H as <- <-.
  destruct (withEventCount_fields (ex_EventCount e + 1) e) as (Hid & _).
  set (e2 := withEventCount _ e) in *.
  assert (∃ row, at_ d e2 row d3) as [row Hat3].
  { clear -Hat2 Hres. unfold restoreReconciledExecution in Hres. case_if; [injection Hres as <- <-; eauto|].
    apply tx_bind_Ok in Hres as (l & d4 & Hr & Hres). apply reads_Ok in Hr as [_ ->].
    read_guards. case_if; [injection Hres as <- <-; eauto|].
    destruct (at_set d e2 e2 d2 (withState ExecutionStateRunning) Hat2) as [Hu Hat'];
      [by destruct e2|by destruct e2|by rewrite Heqb|]. rewrite Hu in Hres. injection Hres as <- <-. eauto. }
  eapply (only_good (ex_ID e)); [by eapply at_inv| |done|done]. rewrite <- Hid. by eapply at_only.
Qed.

(** ** Creating an execution *)

Lemma executionRecord_Ok c sid input d e d' :
  executionRecord c sid input d = Ok (e, d') →
  d' = d ∧ ex_ID e = ci_ID input ∧ ex_SessionID e = sid ∧ ex_EventCount e = 0%Z ∧
  isExecutionTerminal (ex_State e) = false.
Proof.
  unfold executionRecord. intros H.
  apply tx_bind_Ok in H as (turn & d1 & Hr & H). apply reads_Ok in Hr as [_ ->]. cbv zeta in H.
  destruct (ci_ParentExecutionID input) as [parent|].
  - unfold inheritExecutionParent, deref, findAgentRun in H. simpl in H. run_tx.
    match goal with |- context [if ?b then _ else _] => destruct b end; simpl; auto.
  - unfold inheritSessionStop in H. run_tx. case_if; simpl; auto.
Qed.

Lemma at_rename d0 e e' row d :
  at_ d0 e row d → ex_ID e' = ex_ID e → ex_SessionID e' = ex_SessionID e →
  ex_EventCount e' = ex_EventCount e → at_ d0 e' row d.
Proof.
  intros [Hi Ho Hh] Hid Hs Hc. split; [done|by rewrite Hid|].
  unfold holds in *. by rewrite Hid, Hs, Hc.
Qed.

Lemma create_good c sid input d e d' :
  inv d → createExecution c sid input d = Ok (e, d') → good d d'.
Proof.
  intros Hi H. unfold createExecution in H.
  destruct (findExecution sid (ci_ID input) d) as [[old d1]|[]| |] eqn:Hf; try done.
  { apply findExecution_Ok in Hf as (_ & _ & ->). case_if; [|done]. injection H as <- <-.
    by apply good_refl. }
  apply tx_bind_Ok in H as (e1 & d1 & Hr & H).
  apply executionRecord_Ok in Hr as (-> & Hid & Hs & Hc & Ht).
  apply tx_bind_Ok in H as (u & d1 & Hins & H). unfold insertExecution in Hins.
  case_if; [done|]. injection Hins as <- <-.
  apply orb_false_iff in Heqb as [Hnew%bool_decide_eq_false _]. apply dec_stable in Hnew.
  assert (Hat : at_ d e1 e1 (setExecutions <[ex_ID e1 := e1]> d)).
  { split.
    - by apply inv_new_execution.
    - by apply only_execution.
    - unfold holds. simpl. by rewrite lookup_insert_eq. }
  unfold recordExecutionCreation in H.
  apply tx_bind_Ok in H as (e2 & d2 & Hev & H).
  destruct (at_append _ _ _ _ _ _ _ _ _ Hat Hev) as (He2 & Hat2 & _).
  destruct (withEventCount_fields (ex_EventCount e1 + 1) e1) as (Hid2 & _).
  assert (∃ e3 row, at_ d e3 row d' ∧ ex_ID e3 = ex_ID e1) as (e3 & row & Hat3 & Hid3).
  { unfold recordInitialExecutionPause, appendExecutionPause in H. case_bool_decide.
    - destruct (at_append _ _ _ _ _ _ _ _ _ Hat2 H) as (-> & Hat3 & _).
      eexists _, _. split; [done|].
      destruct (withEventCount_fields (ex_EventCount e2 + 1) e2) as (-> & _). congruence.
    - injection H as <- <-. exists e2, (withEventCount (ex_EventCount e1 + 1) e1).
      split; [done|congruence]. }
  destruct Hat3 as [Hi3 Ho3 _]. split; [done|]. intros x y Hx Hy. eapply only_frozen; [done|].
  rewrite Hid3. intros ->. congruence.
Qed.

(** ** Control *)

Lemma controlState_Ok c e k d u d' :
  inv d → executions d !! ex_ID e = Some e → shouldChangeExecutionState (ex_State e) k = true →
  changeExecutionState c e k d = Ok (u, d') →
  isExecutionTerminal (ex_State e) = false ∧ ∃ row, at_ d e row d' ∧
  d' = setExecutions <[ex_ID e := row]> d ∧ ex_ID row = ex_ID e.
Proof.
  intros Hi He Hch H. pose proof (at_start d e (ex_SessionID e) Hi He eq_refl) as Hat.
  assert (Hlive : isExecutionTerminal (ex_State e) = false).
  { destruct k; simpl in Hch; [by apply andb_true_iff in Hch as [_ ?%negb_true_iff]|].
    apply bool_decide_eq_true in Hch. by rewrite Hch. }
  split; [done|]. unfold changeExecutionState in H.
  apply tx_bind_Ok in H as (u1 & d1 & Hr & H). apply refuseIf_Ok in Hr as [_ ->].
  destruct k as [reason|].
  - destruct (at_set d e e d (paused reason (now c)) Hat) as [Hu Hat']; [by destruct e|by destruct e|done|].
    rewrite Hu in H. injection H as <- <-. eexists. split; [done|]. split; [done|by destruct e].
  - destruct (at_set d e e d (resumed (resumedState e)) Hat) as [Hu Hat'].
    + by destruct e.
    + destruct e; simpl. unfold resumedState. by case_bool_decide.
    + done.
    + rewrite Hu in H. injection H as <- <-. eexists. split; [done|]. split; [done|by destruct e].
Qed.

Lemma member_good c k kind p e e' d d1 d2 u x :
  inv d → executions d !! ex_ID e = Some e → shouldChangeExecutionState (ex_State e) k = true →
  changeExecutionState c e k d = Ok (u, d1) →
  ex_ID e' = ex_ID e → ex_SessionID e' = ex_SessionID e → ex_EventCount e' = ex_EventCount e →
  appendExecutionEvent c e' kind p d1 = Ok (x, d2) →
  good d d2 ∧ ∃ row, executions d2 = <[ex_ID e := row]> (executions d).
Proof.
  intros Hi He Hch Hc Hid Hs Hn Hev.
  destruct (controlState_Ok _ _ _ _ _ _ Hi He Hch Hc) as (Hlive & row & Hat & Hd1 & Hrow).
  apply (at_rename _ _ e') in Hat; [|done..].
  destruct (at_append _ _ _ _ _ _ _ _ _ Hat Hev) as (-> & Hat2 & _ & _ & Hex).
  destruct (withEventCount_fields (ex_EventCount e' + 1) e') as (Hid2 & _).
  split.
  - eapply (only_good (ex_ID e)); [by eapply at_inv| |done|done].
    rewrite <- Hid, <- Hid2. by eapply at_only.
  - eexists. rewrite Hex, Hd1, Hid. simpl. by rewrite insert_insert_eq.
Qed.

Lemma changeMembers_good c k p l d ids d' :
  inv d → rowsOf (executions d) l → changeMembers c k p l d = Ok (ids, d') → good d d'.
Proof.
  revert d ids d'. induction l as [|e l IH]; intros d ids d' Hi Hrows H; simpl in H.
  { injection H as <- <-. by apply good_refl. }
  apply rowsOf_cons in Hrows as (He & Hni & Hrows).
  destruct (shouldChangeExecutionState (ex_State e) k) eqn:Hch; simpl in H; [|by eapply IH].
  apply tx_bind_Ok in H as (u & d1 & Hc & H). apply tx_bind_Ok in H as (x & d2 & Hev & H).
  destruct (member_good c k _ _ e e _ _ _ _ _ Hi He Hch Hc eq_refl eq_refl eq_refl Hev)
    as [Hg [row Hex]].
  apply tx_bind_Ok in H as (ids' & d3 & Hm & H). injection H as <- <-.
  eapply good_trans; [done|]. eapply IH; [by destruct Hg| |done].
  rewrite Hex. by apply rowsOf_insert.
Qed.

Lemma subtree_good c sid id k p d ids d' :
  inv d → changeExecutionSubtree c sid id k p d = Ok (ids, d') → good d d'.
Proof.
  intros Hi H. unfold changeExecutionSubtree in H. apply tx_bind_Ok in H as (l & d1 & Hr & H).
  apply reads_Ok in Hr as [[= <-] ->]. eapply changeMembers_good; [done| |done].
  by apply Subtree_rows, inv_keyed with (X := None).
Qed.

Lemma tree_good c sid id k p d ids d' :
  inv d → (_ ← findExecution sid id; changeExecutionSubtree c sid id k p) d = Ok (ids, d') →
  good d d'.
Proof.
  intros Hi H. apply tx_bind_Ok in H as (e & d1 & Hr & H). apply findExecution_Ok in Hr as (_ & _ & ->).
  by eapply subtree_good.
Qed.

Lemma pauseEach_good c l d n d' : inv d → pauseEach c l d = Ok (n, d') → good d d'.
Proof.
  revert d n d'. induction l as [|e l IH]; intros d n d' Hi H; simpl in H.
  { injection H as <- <-. by apply good_refl. }
  apply tx_bind_Ok in H as (ids & d1 & Hs & H). apply tx_bind_Ok in H as (m & d2 & Hm & H).
  injection H as <- <-. apply subtree_good in Hs as Hg; [|done].
  eapply good_trans; [done|]. eapply IH; [by destruct Hg|done].
Qed.

Lemma stopEach_good c l d b d' :
  inv d → rowsOf (executions d) l → stopEach c l d = Ok (b, d') → good d d'.
Proof.
  revert d b d'. induction l as [|e l IH]; intros d b d' Hi Hrows H; simpl in H.
  { injection H as <- <-. by apply good_refl. }
  apply rowsOf_cons in Hrows as (He & Hni & Hrows).
  destruct (negb _ && negb _) eqn:Hch; simpl in H; [|by eapply IH].
  apply tx_bind_Ok in H as (u & d1 & Hc & H). apply tx_bind_Ok in H as (x & d2 & Hev & H).
  unfold appendExecutionPause in Hev.
  set (e' := withPauseReason ExecutionUserStopReason e) in *.
  assert (Hsame : ex_ID e' = ex_ID e ∧ ex_SessionID e' = ex_SessionID e ∧
                  ex_EventCount e' = ex_EventCount e) by (by destruct e).
  destruct Hsame as (Hid & Hses & Hcount).
  destruct (member_good c (Pause ExecutionUserStopReason) _ _ e e' _ _ _ _ _ Hi He Hch Hc
              Hid Hses Hcount Hev) as [Hg [row Hex]].
  apply tx_bind_Ok in H as (b' & d3 & Hm & H). injection H as <- <-.
  eapply good_trans; [done|]. eapply IH; [by destruct Hg| |done].
  rewrite Hex. by apply rowsOf_insert.
Qed.

(** ** Cancelling a child

    The execution is cancelled first, so the settling of its activities runs
    with [inv_settled] suspended for it. *)

Lemma activityCancelled_fields t a :
  same_activity a (activityCancelled t a) ∧
  ac_State (activityCancelled t a) = ActivityStateCancelled ∧
  ac_Attempt (activityCancelled t a) = ac_Attempt a.
Proof. by destruct a. Qed.

Lemma activity_ok_cancelled t a : activity_ok a → activity_ok (activityCancelled t a).
Proof.
  intros [Hr _ _ _]. destruct (activityCancelled_fields t a) as (_ & Hst & Hatt).
  split; [by rewrite Hatt|..]; intros; by rewrite Hst in *.
Qed.

Lemma append_X X c e row kind p d e' d' :
  invX X d → holds e row d → appendExecutionEvent c e kind p d = Ok (e', d') →
  invX X d' ∧ holds e' (withEventCount (ex_EventCount e + 1) row) d' ∧ ex_ID e' = ex_ID e ∧
  activities d' = activities d ∧ only (ex_ID e) d d'.
Proof.
  intros Hi Hh H. pose proof (appendExecutionEvent_Ok _ _ _ _ _ _ _ _ Hh H) as (Hm & -> & ->).
  destruct (withEventCount_fields (ex_EventCount e + 1) e) as (Hid & Hs & _ & Hc & _).
  destruct (withEventCount_fields (ex_EventCount e + 1) row) as (_ & Hs' & _ & Hc' & _).
  split; [by apply inv_event|]. split.
  { unfold holds. simpl. rewrite Hid, lookup_insert_eq, Hs, Hs', Hc, Hc'. by destruct Hh as (_ & ? & _). }
  split; [done|]. split; [done|]. by apply (only_execution (ex_ID e) d d).
Qed.

Lemma cancelActivity_X c e row a d :
  invX (Some (ex_ID e)) d → holds e row d → isExecutionTerminal (ex_State row) = true →
  has a d → ac_ExecutionID a = ex_ID e →
  let d1 := setActivities <[ac_ID a := activityCancelled (now c) a]> d in
  invX (Some (ex_ID e)) d1 ∧ only (ex_ID e) d d1.
Proof.
  intros Hi Hh Ht Ha Hex d1.
  destruct (activityCancelled_fields (now c) a) as ((Hid & Hs & Hx) & Hst & _).
  destruct (inv_activity _ _ Hi _ _ Ha) as (_ & Hok & _). split.
  - eapply inv_set_activity; try done;
      [by apply activity_ok_cancelled|left; by right; right|].
    intros _ y Hy. destruct Hh as (Hrow & _). rewrite Hex, Hrow in Hy. naive_solver.
  - split; [done|]. intros i b Hb. unfold d1. simpl.
    destruct (decide (i = ac_ID a)) as [->|Hne]; [|by rewrite lookup_insert_ne].
    rewrite lookup_insert_eq. unfold has in Ha. rewrite Ha. naive_solver congruence.
Qed.

Lemma cancelEach_X c l e row d e' d' :
  invX (Some (ex_ID e)) d → holds e row d → isExecutionTerminal (ex_State row) = true → NoDup (ac_ID <$> l) →
  (∀ a, a ∈ l → has a d ∧ ac_ExecutionID a = ex_ID e) →
  cancelEach c e l d = Ok (e', d') →
  invX (Some (ex_ID e)) d' ∧ only (ex_ID e) d d' ∧ (∃ row', holds e' row' d') ∧
  ex_ID e' = ex_ID e ∧
  ∀ i b, activities d' !! i = Some b →
    ac_State b = ActivityStateCancelled ∨ (activities d !! i = Some b ∧ i ∉ (ac_ID <$> l)).
Proof.
  revert e row d. induction l as [|a l IH]; intros e row d Hi Hh Ht Hnd Hl H; simpl in H.
  { injection H as <- <-. repeat (split; [done || eauto|]). intros i b Hb. right.
    split; [done|]. apply not_elem_of_nil. }
  rewrite fmap_cons in Hnd. apply NoDup_cons in Hnd as [Hni Hnd].
  destruct (Hl a) as [Ha Hex]; [left|].
  apply tx_bind_Ok in H as (u & d1 & Hu & H). rewrite updateActivity_Ok in Hu by done.
  injection Hu as <- <-.
  destruct (cancelActivity_X c e row a d Hi Hh Ht Ha Hex) as [Hi1 Ho1].
  apply tx_bind_Ok in H as (e1 & d2 & Hev & H). unfold appendActivityEvent in Hev.
  destruct (append_X _ _ _ row _ _ _ _ _ Hi1 Hh Hev) as (Hi2 & Hh2 & Hid & Hacts & Ho2).
  destruct (withEventCount_fields (ex_EventCount e + 1) row) as (_ & _ & Hst2 & _).
  rewrite <- Hst2 in Ht.
  rewrite <- Hid in Hi2. destruct (IH _ _ _ Hi2 Hh2 Ht Hnd) with (2 := H)
    as (Hi3 & Ho3 & Hh3 & Hid3 & Hres).
  { intros b Hb. destruct (Hl b) as [Hb1 Hb2]; [by right|]. split; [|congruence].
    unfold has. rewrite Hacts. simpl. rewrite lookup_insert_ne; [done|].
    intros Heq. apply Hni. rewrite Heq. by apply list_elem_of_fmap_2. }
  rewrite Hid in Hi3, Ho3. split; [done|].
  split; [by eapply only_trans; [eapply only_trans|]|]. split; [done|]. split; [congruence|].
  intros i b Hb. destruct (Hres i b Hb) as [|[Hold Hout]]; [by left|].
  rewrite Hacts in Hold. simpl in Hold. rewrite lookup_insert_Some in Hold.
  destruct Hold as [[<- <-]|[Hne Hold]].
  - left. by destruct (activityCancelled_fields (now c) a) as (_ & ? & _).
  - right. split; [done|]. rewrite fmap_cons, not_elem_of_cons. split; [congruence|done].
Qed.

Lemma cancelled_fields t e :
  ex_ID (cancelled t e) = ex_ID e ∧ ex_SessionID (cancelled t e) = ex_SessionID e ∧
  ex_EventCount (cancelled t e) = ex_EventCount e.
Proof. by destruct e. Qed.

Lemma activitiesOf_has e d a : inv d → a ∈ activitiesOf e d → has a d ∧ ac_ExecutionID a = ex_ID e.
Proof.
  intros Hi [[_ Hex] Hin]%list_elem_of_filter.
  apply list_elem_of_fmap in Hin as ([i b] & -> & Hin%elem_of_map_to_list). simpl in *.
  destruct (inv_activity _ _ Hi _ _ Hin) as (Hid & _). unfold has. by rewrite Hid.
Qed.

Lemma activitiesOf_NoDup e d : inv d → NoDup (ac_ID <$> activitiesOf e d).
Proof.
  intros Hi. unfold activitiesOf. eapply sublist_NoDup; [|apply fmap_sublist, sublist_filter].
  rewrite <- list_fmap_compose.
  erewrite list_fmap_ext; [apply (NoDup_fst_map_to_list (activities d))|].
  intros i [j a] Hj%list_elem_of_lookup_2%elem_of_map_to_list. simpl.
  by destruct (inv_activity _ _ Hi _ _ Hj).
Qed.

Lemma cancelNativeChild_good c settle e d u d' :
  inv d → executions d !! ex_ID e = Some e → isExecutionTerminal (ex_State e) = false →
  cancelNativeChild c settle e d = Ok (u, d') → good d d'.
Proof.
  intros Hi He Hlive H. unfold cancelNativeChild in H.
  apply tx_bind_Ok in H as (u1 & d1 & Hr & H). apply refuseIf_Ok in Hr as [_ ->].
  apply tx_bind_Ok in H as (u2 & d2 & Hu & H).
  rewrite (updateExecution_Ok e _ e) in Hu by done. injection Hu as <- <-.
  destruct (cancelled_fields (now c) e) as (Hcid & Hcs & Hcc).
  set (d1 := setExecutions _ d) in *.
  assert (Hi1 : invX (Some (ex_ID e)) d1).
  { eapply inv_set_execution; [by apply invX_suspend|done|done|auto|by destruct e]. }
  assert (Ho1 : only (ex_ID e) d d1) by by apply only_execution.
  assert (Hh1 : holds e (cancelled (now c) e) d1).
  { unfold holds, d1. simpl. by rewrite lookup_insert_eq, Hcs, Hcc. }
  apply tx_bind_Ok in H as (e2 & d2 & Hc & H). unfold cancelExecutionActivities in Hc.
  apply tx_bind_Ok in Hc as (l & d3 & Hr & Hc). apply reads_Ok in Hr as [[= Hl] ->].
  set (P := λ a, ac_State a ≠ ActivityStateCompleted ∧ ac_State a ≠ ActivityStateCancelled) in *.
  assert (Hperm : l ≡ₚ filter P (activitiesOf e d)) by (subst l; apply merge_sort_Permutation).
  destruct (cancelEach_X c l e _ d1 e2 d2 Hi1 Hh1) with (4 := Hc)
    as (Hi2 & Ho2 & [row2 Hh2] & Hid2 & Hres).
  { by destruct e. }
  { rewrite Hperm. eapply sublist_NoDup; [by apply (activitiesOf_NoDup e d)|].
    apply fmap_sublist, sublist_filter. }
  { intros a. rewrite Hperm, list_elem_of_filter. intros [_ Ha].
    by apply (activitiesOf_has e d a Hi). }
  apply tx_bind_Ok in H as (e3 & d3 & Hev & H). apply check_Ok in H as [_ ->].
  rewrite <- Hid2 in Hi2.
  destruct (append_X _ _ _ row2 _ _ _ _ _ Hi2 Hh2 Hev) as (Hi3 & _ & _ & Hacts & Ho3).
  rewrite Hid2 in Hi3, Ho3.
  eapply (only_good (ex_ID e)); [|by eapply only_trans; [eapply only_trans|]|done|done].
  eapply invX_settle; [done|]. intros i b Hb Hex. rewrite Hacts in Hb.
  destruct (Hres i b Hb) as [->|[Hold Hout]]; [by right; right|].
  change (activities d !! i = Some b) in Hold.
  destruct (inv_activity _ _ Hi _ _ Hold) as (Hib & _).
  assert (Hin : b ∈ activitiesOf e d) by by eapply activitiesOf_all.
  destruct (decide (P b)) as [HP|HP].
  - destruct Hout. rewrite Hperm, <- Hib. apply list_elem_of_fmap_2, list_elem_of_filter. done.
  - unfold P in HP. unfold settled. destruct (ac_State b); naive_solver.
Qed.

Lemma cancelMembers_good c settle l d u d' :
  inv d → cancelMembers c settle l d = Ok (u, d') → good d d'.
Proof.
  revert d u d'. induction l as [|m l IH]; intros d u d' Hi H; simpl in H.
  { injection H as <- <-. by apply good_refl. }
  apply tx_bind_Ok in H as (e & d1 & Hr & H). apply findExecution_Ok in Hr as (He & _ & ->).
  pose proof (inv_keyed _ _ Hi _ _ He) as Hid. rewrite <- Hid in He.
  apply tx_bind_Ok in H as (u1 & d1 & Hc & H).
  assert (Hg : good d d1).
  { destruct (isExecutionTerminal (ex_State e)) eqn:Ht.
    - injection Hc as <- <-. by apply good_refl.
    - by eapply cancelNativeChild_good. }
  eapply good_trans; [done|]. eapply IH; [by destruct Hg|done].
Qed.

Lemma cancelTree_good c settle sid run d u d' :
  inv d → cancelNativeChildTree c settle sid run d = Ok (u, d') → good d d'.
Proof.
  intros Hi H. unfold cancelNativeChildTree in H.
  apply tx_bind_Ok in H as (o & d1 & Hr & H). apply reads_Ok in Hr as [_ ->].
  destruct o as [e|]; [|injection H as <- <-; by apply good_refl].
  apply tx_bind_Ok in H as (l & d1 & Hr & H). apply reads_Ok in Hr as [_ ->].
  by eapply cancelMembers_good.
Qed.

(** ** Every step is good *)

Lemma authorize_Ok sid id input d e d' :
  inv d → authorizeExecutionControl sid id input d = Ok (e, d') → d' = d.
Proof.
  intros Hi H. unfold authorizeExecutionControl in H.
  apply tx_bind_Ok in H as (u & d1 & Hr & H). apply refuseIf_Ok in Hr as [_ ->].
  apply tx_bind_Ok in H as ([a s] & d1 & Hr & H).
  pose proof (activityForLease_Ok _ _ _ _ _ _ Hi Hr) as (-> & _). run_tx. done.
Qed.

(** Appending an event to an execution of the table. *)
Lemma append_good c e kind p d x d' :
  inv d → executions d !! ex_ID e = Some e →
  appendExecutionEvent c e kind p d = Ok (x, d') → good d d'.
Proof.
  intros Hi He H. pose proof (at_start d e (ex_SessionID e) Hi He eq_refl) as Hat.
  destruct (at_append _ _ _ _ _ _ _ _ _ Hat H) as (-> & Hat2 & Hacts & _ & Hex).
  split; [by eapply at_inv|]. intros x y Hx Ht. split; [|by rewrite Hacts].
  intros y' Hy'. rewrite Hex. destruct (decide (x = ex_ID e)) as [->|Hne].
  - rewrite lookup_insert_eq. rewrite He in Hy'. injection Hy' as <-. eauto.
  - rewrite lookup_insert_ne by done. exists (ex_EventCount y'). by rewrite withEventCount_id.
Qed.

Lemma reserve_good c sid lease d o d' :
  inv d → reserveCompletion Sum256 c sid lease d = Ok (o, d') →
  d' = d ∨ ∃ a e x payload, activityForLease sid lease d = Ok ((a, e), d) ∧
    appendExecutionEvent c e ExecutionEventTypeCompletionSealed payload d = Ok (x, d').
Proof.
  intros Hi H. unfold reserveCompletion in H. apply tx_bind_Ok in H as ([a e] & d1 & Hl & H).
  pose proof (activityForLease_Ok _ _ _ _ _ _ Hi Hl) as (-> & _).
  apply tx_bind_Ok in H as (u & d1 & Hr & H). apply refuseIf_Ok in Hr as [_ ->].
  apply tx_bind_Ok in H as (seal & d1 & Hr & H). apply readSeal_Ok in Hr as ->.
  destruct seal as [seal|]; [left; by run_tx|].
  apply tx_bind_Ok in H as (u2 & d1 & Hr & H).
  assert (d1 = d) as -> by (unfold validateCompletionReservation, findExecutionTurnLease in Hr; by run_tx).
  unfold unlessInboxPending in H.
  destruct (requireSettledExecutionInbox _ _ _ _) as [[u3 d1]|[]| |] eqn:Hbox; try done;
    [|left; by injection H as _ <-].
  apply settledInbox_Ok in Hbox as ->. right.
  unfold requireOtherCompletionActivities, createExecutionCompletionSeal, completionInboxWatermark in H.
  run_tx. eauto 10.
Qed.

Lemma transaction_good {A} (m : tx A) d :
  inv d → (∀ a d', m d = Ok (a, d') → good d d') → good d (transaction m d).1.
Proof.
  intros Hi Hm. destruct (transaction_failed m d) as [->|(a & d' & H & ->)]; [by apply good_refl|].
  by eapply Hm.
Qed.

Lemma guarded_good {A} (o : outcome unit) (m : db → db * outcome A) d :
  inv d → (o = Ok tt → good d (m d).1) →
  good d (match o with
          | Ok _ => m d | Err e => (d, Err e) | Panic => (d, Panic) | OutOfFuel => (d, OutOfFuel)
          end).1.
Proof. intros Hi Hm. destruct o as [[]| | |]; simpl; auto using good_refl. Qed.

Lemma apply_good c o d : inv d → good d (apply c o d).
Proof.
  intros Hi. destruct o; simpl.
  - unfold CreateExecution. apply guarded_good; [done|intros _].
    apply transaction_good; [done|]. intros a d' H. by eapply create_good.
  - unfold BeginExecutionActivity. case_if; [by apply good_refl|].
    apply guarded_good; [done|intros _]. apply transaction_good; [done|].
    intros a d' H. by eapply begin_good.
  - unfold CompleteExecutionActivity. apply guarded_good; [done|intros _].
    apply transaction_good; [done|]. intros a d' H. by eapply complete_good.
  - apply transaction_good; [done|]. intros o d' H.
    apply reserve_good in H as [->|(a & e & x & p & Hl & Hev)]; [by apply good_refl| |done].
    pose proof (activityForLease_Ok _ _ _ _ _ _ Hi Hl) as (_ & _ & _ & _ & _ & _ & He & _).
    by eapply append_good.
  - apply transaction_good; [done|]. intros a d' H. by eapply interrupt_good.
  - unfold ResolveExecutionActivity. apply guarded_good; [done|intros Hv].
    apply transaction_good; [done|]. intros a d' H. by eapply resolve_good.
  - unfold ResolveExecutionActivityFromActivity. apply guarded_good; [done|intros Hv].
    apply transaction_good; [done|]. intros a d' H. unfold resolveFromActivity, findExecutionActivity in H.
    apply tx_bind_Ok in H as (b & d1 & Hr & H). apply reads_Ok in Hr as [_ ->].
    apply tx_bind_Ok in H as (e & d1 & Hr & H). apply authorize_Ok in Hr as ->; [|done].
    by eapply resolve_good.
  - unfold PauseExecution. case_if; [by apply good_refl|].
    apply transaction_good; [done|]. intros a d' H. by eapply tree_good.
  - apply transaction_good; [done|]. intros a d' H. by eapply tree_good.
  - apply transaction_good; [done|]. intros a d' H.
    apply tx_bind_Ok in H as (e & d1 & Hr & H). apply authorize_Ok in Hr as ->; [|done].
    by eapply subtree_good.
  - apply transaction_good; [done|]. intros a d' H.
    apply tx_bind_Ok in H as (l & d1 & Hr & H). apply reads_Ok in Hr as [_ ->].
    by eapply pauseEach_good.
  - apply transaction_good; [done|]. intros a d' H. unfold pauseSessionExecutions in H.
    apply tx_bind_Ok in H as (l & d1 & Hr & H). apply reads_Ok in Hr as [[= <-] ->].
    eapply stopEach_good; [done| |done]. apply rowsOf_filter. by eapply inv_keyed.
  - apply transaction_good; [done|]. intros a d' H. by eapply cancelTree_good.
Qed.

Lemma event_good c sid id kind p d :
  inv d → good d (transaction (e ← findExecution sid id; appendExecutionEvent c e kind p) d).1.
Proof.
  intros Hi. apply transaction_good; [done|]. intros a d' H.
  apply tx_bind_Ok in H as (e & d1 & Hr & H). apply findExecution_Ok in Hr as (He & Hs & ->).
  pose proof (inv_keyed _ _ Hi _ _ He) as Hid. rewrite <- Hid in He. by eapply append_good.
Qed.
Lemma step_good d d' : inv d → step d d' → good d d'.
Proof.
  intros Hi Hs. destruct Hs as [c o d|c sid id kind p d|o d].
  - by apply apply_good.
  - by apply event_good.
  - split; [by apply (inv_others _ d)|]. intros x e _ _. split; [|done].
    intros y Hy. exists (ex_EventCount y). by rewrite withEventCount_id.
Qed.

Lemma reachable_inv d : reachable d → inv d.
Proof.
  induction 1 as [|d d' _ IH Hs]; [apply inv_empty|]. by destruct (step_good d d' IH Hs).
Qed.

(** ** What the tables promise *)

(** In every state the store reaches, the event log of an execution is
    gapless: its events carry the sequence numbers 1, 2, ... up to the
    execution's event counter, in the order they were appended, whichever
    operations of the store and of the other components appended them; the
    counter never leaves the range of an int64, and no event belongs to an
    execution that does not exist. *)
Theorem event_log_dense d id :
  reachable d →
  match executions d !! id with
  | Some e => ev_Sequence <$> logOf id d = seqZ 1 (ex_EventCount e) ∧
              (0 ≤ ex_EventCount e ≤ max_int64)%Z
  | None => logOf id d = []
  end.
Proof.
  intros Hi%reachable_inv. destruct (executions d !! id) as [e|] eqn:He.
  - by destruct (inv_log _ _ Hi _ _ He).
  - apply elem_of_nil_inv. intros ev [<- Hev]%list_elem_of_filter.
    destruct (inv_known _ _ Hi _ Hev) as [e' He']. congruence.
Qed.

(** C6: a finished execution is final.  Once an execution is completed, failed
    or cancelled, nothing the store does later, in any number of operations,
    changes its row, apart from its event counter, or adds, removes or changes
    one of its steps; and none of those steps is still open. *)
Theorem terminal_execution_final d d' id e :
  reachable d → executions d !! id = Some e → isExecutionTerminal (ex_State e) = true →
  rtc step d d' →
  (∃ n, executions d' !! id = Some (withEventCount n e)) ∧
  ∀ i a, ac_ExecutionID a = id →
    (activities d !! i = Some a ↔ activities d' !! i = Some a) ∧
    (activities d' !! i = Some a → settled (ac_State a)).
Proof.
  intros Hr He Ht Hsteps. pose proof (reachable_inv _ Hr) as Hi.
  assert (Hg : good d d').
  { clear -Hi Hsteps. induction Hsteps as [d|d d1 d2 Hs _ IH]; [by apply good_refl|].
    pose proof (step_good _ _ Hi Hs) as Hg. eapply good_trans; [done|]. apply IH. by destruct Hg. }
  destruct Hg as [Hi' Hf]. destruct (Hf _ _ He Ht) as [Hrow Hacts].
  split; [by apply Hrow|]. intros i a Ha. split; [by apply Hacts|]. intros Hin.
  apply Hacts in Hin; [|done]. eapply (inv_settled d e); [done|done|by rewrite Ha|done].
Qed.

(** C5: an effect that must not be repeated blindly is not.  When a worker is
    told to execute a step whose policy asks for reconciliation, either this
    is the first attempt of the step, or the step was released by an
    inspection, on record with its evidence, that asked for a retry of exactly
    the previous attempt. *)
Theorem reconciled_effects_inspected c sid id generation input d d' cl :
  reachable d →
  BeginExecutionActivity maxExecutionStateBytes c sid id generation input d = (d', Ok cl) →
  cl_Decision cl = ActivityDecisionExecute →
  sc_ReplayPolicy input = ActivityReplayPolicyReconcile →
  let a := cl_Activity cl in
  activities d' !! ac_ID a = Some a ∧ ac_State a = ActivityStateRunning ∧
  cl_Lease cl = mkLease (ac_ID a) generation (ac_Attempt a) ∧
  (ac_Attempt a = 1%Z ∨
   ∃ old, activities d !! ac_ID a = Some old ∧ ac_State old = ActivityStateScheduled ∧
          ac_Attempt a = (ac_Attempt old + 1)%Z ∧ inspectedForRetry old).
Proof.
  intros Hi%reachable_inv H Hdec Hpol. cbv zeta. unfold BeginExecutionActivity in H.
  case_if; [done|]. destruct (validateActivityInput _ _); try done.
  apply transaction_Ok in H.
  destruct (begin_good _ _ _ _ _ _ _ _ Hi H) as [_ Hcl].
  destruct (Hcl Hdec) as (old & Hact & Hhas & Hlease & Hp & Hold & Hok & Hrun & Hunc & Hcomp & Hcan).
  destruct (activityStarted_fields generation (ac_Attempt old + 1) (now c) old)
    as ((Hid & _) & Hst & Hatt & _). rewrite Hact in *. rewrite Hid, Hst, Hatt.
  split; [by rewrite <- Hid|]. split; [done|]. split; [done|].
  destruct (decide (ac_Attempt old = 0%Z)) as [->|Hne]; [by left|right].
  destruct Hold as [Hold|]; [|done]. exists old.
  rewrite Hp in Hrun. destruct Hok as [Hrange _ Hpolicy Hretry].
  destruct (Hpolicy ltac:(congruence)) as [Hfail Hpaused].
  assert (Hsch : ac_State old = ActivityStateScheduled).
  { destruct (ac_State old) eqn:?; try done. by destruct Hrun. }
  split; [done|]. split; [done|]. split; [done|]. apply Hretry; [congruence|done|lia].
Qed.

Lemma validateFinishedRepeat_finished fin input row :
  co_Finish input = Some fin → finished fin input row →
  validateFinishedRepeat row input = Ok tt.
Proof.
  intros Hf (Hst & Hfd & Hctx & Hdir). unfold validateFinishedRepeat.
  rewrite Hf, Hst, Hfd, Hctx, !(bool_decide_eq_true_2 (_ = _)) by done. simpl.
  destruct Hdir as [-> | ->]; [done|].
  rewrite (bool_decide_eq_true_2 (fi_WorkingDirectory fin = fi_WorkingDirectory fin)) by done.
  by rewrite andb_false_r.
Qed.

Lemma completed_again input a e :
  validateFinishIdentity a input = Ok tt →
  ∀ a' c, completion c input a a' e → ac_ResolutionJSON a = NoResolution →
  completedExecutionActivity finishDecisionHash a' e input = Ok a'.
Proof.
  intros Hid a' c Hc Hres. unfold completedExecutionActivity.
  assert (Hid' : validateFinishIdentity a' input = Ok tt).
  { unfold validateFinishIdentity in *. destruct Hc, a; simpl in *; done. }
  rewrite Hid'. simpl. unfold repeatFinishDecision, sameActivityResult.
  destruct Hc as [row Hf|fin row Hf Hp Hfin|fin row Hf Hp Hfin|fin row Hf Hp];
    destruct a; simpl in *; subst; pose proof (validateFinishedRepeat_finished) as Hrep.
  - unfold validateFinishedRepeat. rewrite Hf. simpl. by rewrite !bool_decide_eq_true_2.
  - rewrite (Hrep _ _ _ Hf Hfin), Hf. simpl. by rewrite !bool_decide_eq_true_2.
  - rewrite (Hrep _ _ _ Hf Hfin), Hf. simpl. by rewrite !bool_decide_eq_true_2.
  - rewrite Hf. simpl.
    rewrite (bool_decide_eq_true_2 (Some (fi_PendingOutput fin) = Some (fi_PendingOutput fin))) by done.
    rewrite (bool_decide_eq_true_2 (co_Context input = co_Context input)) by done.
    by rewrite (bool_decide_eq_true_2 (finishDecisionHash input = finishDecisionHash input)).
Qed.

(** C7: a result is committed only by the worker that holds the step, and only
    once.  A completion that is accepted names the current owner and the
    current attempt of the step; the step was running, or was already completed
    with this very result, which changes nothing; afterwards the step is
    completed, and the same request, sent again by the same worker at any time
    while the tables keep that state, is accepted, answers the same and changes
    nothing, final or not. *)
Theorem completion_fenced_once c sid lease input d d' a' :
  reachable d →
  CompleteExecutionActivity maxExecutionStateBytes maxStoredMessageBytes Sum256
    finishDecisionHash c sid lease input d = (d', Ok a') →
  activities d' !! le_ID lease = Some a' ∧ ac_State a' = ActivityStateCompleted ∧
  (∃ a, activities d !! le_ID lease = Some a ∧
        ac_OwnerGenerationID a = Some (le_GenerationID lease) ∧ ac_Attempt a = le_Attempt lease ∧
        (ac_State a = ActivityStateRunning ∨
         (ac_State a = ActivityStateCompleted ∧ a' = a ∧ d' = d))) ∧
  ∀ c', CompleteExecutionActivity maxExecutionStateBytes maxStoredMessageBytes Sum256
    finishDecisionHash c' sid lease input d' = (d', Ok a').
Proof.
  intros Hi%reachable_inv H. unfold CompleteExecutionActivity in *.
  destruct (validateActivityResult _ _ _) as [u| | |]; try done. apply transaction_Ok in H.
  destruct (complete_good _ _ _ _ _ _ _ Hi H) as [_ (a & e & Hl & Hcases)].
  pose proof (activityForLease_Ok _ _ _ _ _ _ Hi Hl)
    as (_ & Ha & Hhas & Hsa & Ho & Hat & He & Hex & Hse & Hok).
  destruct Hcases as [(Hst & -> & Hc)|(Hst & Hvid & Hhas' & e' & He' & Hse' & Hcompl)].
  - assert (a' = a) as ->.
    { unfold completedExecutionActivity in Hc. invert_ok. case_if; [by invert_ok|].
      case_if; [done|]. by invert_ok. }
    split; [done|]. split; [done|]. split; [exists a; auto 10|].
    intros c'. unfold transaction, completeActivity, mbind, tx_bind. rewrite Hl.
    rewrite bool_decide_eq_true_2 by done. unfold reads. by rewrite Hc.
  - destruct (ok_running _ Hok Hst) as [Hres _].
    assert (Hfields : same_activity a a' ∧ ac_State a' = ActivityStateCompleted ∧
      ac_OwnerGenerationID a' = ac_OwnerGenerationID a ∧ ac_Attempt a' = ac_Attempt a).
    { by destruct Hcompl, a. }
    destruct Hfields as ((Hid & Hs & Hx) & Hst' & Ho' & Hat').
    assert (Hkey : ac_ID a = le_ID lease) by by destruct (inv_activity _ _ Hi _ _ Ha).
    assert (Ha' : activities d' !! le_ID lease = Some a') by by rewrite <- Hkey, <- Hid.
    split; [done|]. split; [done|]. split; [exists a; auto 10|].
    intros c'. rewrite <- Hex in He'.
    pose proof (activityForLease_again _ _ _ _ _ _ _ _ _ Hi Hl Ha' Hs Ho' Hat' Hx He' Hse') as Hl'.
    unfold transaction, completeActivity, mbind, tx_bind. rewrite Hl'.
    rewrite bool_decide_eq_true_2 by done. unfold reads.
    by rewrite (completed_again _ _ _ Hvid _ _ Hcompl Hres).
Qed.

End steps.

(** ** A life of an execution

    A root execution claims a tool step that may not be repeated blindly, its
    worker is lost, an inspection releases the step, another worker runs it,
    and a final step completes the execution. *)

Definition sample_marshal (input : ResolveActivityInput) : bytes := re_Evidence input.
Definition sample_hash (input : CompleteActivityInput) : bytes := co_Output input.

Definition run (ops : list (call * op)) (d : db) : db :=
  foldl (λ d co, apply 1000 1000 id sample_marshal sample_hash co.1 co.2 d) d ops.

Definition sample_reachable : db → Prop :=
  reachable 1000 1000 id sample_marshal sample_hash.

Lemma reachable_run ops d : sample_reachable d → sample_reachable (run ops d).
Proof.
  revert d. induction ops as [|[c o] ops IH]; intros d Hd; simpl; [done|].
  apply IH. eapply reachable_step; [done|apply step_op].
Qed.

Definition sample_turns : gmap uuid Turn := {[ 2%N := 
  mkTurn 1%N TurnStateRunning false 0 9%N (bs "/w") None [] None 0 None None ]}.
Definition sample_sessions : gmap uuid Session := {[ 1%N := mkSession 0 0 0 0 0 None ]}.
Definition sample_start : db := mkDb ∅ ∅ []
  (mkOthers ∅ sample_turns sample_sessions ∅ ∅ ∅ ∅ [] [] [] ∅ ∅ ∅ [] [] []).

Lemma sample_start_reachable : sample_reachable sample_start.
Proof. apply reachable_empty. Qed.

Definition sample_call (id : uuid) : call := mkCall 5 id None.
Definition sample_create : op :=
  OpCreate 1%N (mkCreate 10%N 2%N None None (bs "v1") [] (bs "task") (bs "/w") (bs "{}")).
Definition sample_tool : ScheduleActivityInput :=
  mkSchedule (bs "tool:1") ActivityKindTool ActivityReplayPolicyReconcile (bs "runCommand") (bs "{}").
Definition sample_inspection : ResolveActivityInput :=
  mkResolve 1 ActivityResolutionRetry (bs "nothing ran") [] [].
Definition sample_result : CompleteActivityInput := mkComplete (bs "{}") (bs "{}") None.
Definition sample_final : CompleteActivityInput :=
  mkComplete (bs "{}") (bs "{}") (Some (mkFinish ExecutionStateCompleted [] [] [] None [])).

Definition sample_released : db :=
  run [(sample_call 0%N, sample_create);
       (sample_call 30%N, OpBegin 1%N 10%N 7%N sample_tool);
       (sample_call 0%N, OpInterrupt 1%N (mkLease 30%N 7%N 1));
       (sample_call 0%N, OpResolve 1%N 30%N sample_inspection)] sample_start.

Definition sample_again : db * outcome ActivityClaim :=
  BeginExecutionActivity 1000 (sample_call 0%N) 1%N 10%N 8%N sample_tool sample_released.

Definition sample_completed : db * outcome ExecutionActivity :=
  CompleteExecutionActivity 1000 1000 id sample_hash (sample_call 0%N) 1%N (mkLease 30%N 8%N 2)
    sample_result sample_again.1.

Definition sample_finished : db :=
  run [(sample_call 0%N, OpBegin 1%N 10%N 8%N sample_tool);
       (sample_call 0%N, OpComplete 1%N (mkLease 30%N 8%N 2) sample_result);
       (sample_call 31%N, OpBegin 1%N 10%N 8%N
          (mkSchedule ExecutionFinishStepID ActivityKindPreparation ActivityReplayPolicyRetry
             ExecutionFinishActivityName (bs "{}")));
       (sample_call 0%N, OpComplete 1%N (mkLease 31%N 8%N 1) sample_final)] sample_released.

Lemma sample_released_reachable : sample_reachable sample_released.
Proof. apply reachable_run, sample_start_reachable. Qed.

Lemma event_log_dense_witness :
  (ex_EventCount <$> executions sample_finished !! 10%N) = Some 11%Z ∧
  ev_Sequence <$> logOf 10%N sample_finished = seqZ 1 11.
Proof.
  assert (Hr : sample_reachable sample_finished)
    by (apply reachable_run, sample_released_reachable).
  pose proof (event_log_dense _ _ _ _ _ sample_finished 10%N Hr) as H.
  assert (Hc : (ex_EventCount <$> executions sample_finished !! 10%N) = Some 11%Z)
    by (vm_compute; reflexivity).
  split; [exact Hc|].
  destruct (executions sample_finished !! 10%N) as [e|]; [|discriminate Hc].
  injection Hc as Hc. destruct H as [H _]. rewrite H, Hc. reflexivity.
Defined.

Lemma terminal_execution_final_witness :
  (ex_State <$> executions sample_finished !! 10%N) = Some ExecutionStateCompleted ∧
  (ex_State <$> executions (run [(sample_call 0%N, OpPause 1%N 10%N (bs "stop"))] sample_finished)
     !! 10%N) = Some ExecutionStateCompleted.
Proof.
  assert (Hr : sample_reachable sample_finished)
    by (apply reachable_run, sample_released_reachable).
  assert (Hs : (ex_State <$> executions sample_finished !! 10%N) = Some ExecutionStateCompleted)
    by (vm_compute; reflexivity).
  split; [exact Hs|].
  destruct (executions sample_finished !! 10%N) as [e|] eqn:He; [|discriminate Hs].
  injection Hs as Hs.
  destruct (terminal_execution_final _ _ _ _ _ sample_finished
              (run [(sample_call 0%N, OpPause 1%N 10%N (bs "stop"))] sample_finished) 10%N e Hr He)
    as [[n Hn] _].
  - by rewrite Hs.
  - eapply rtc_l; [apply (step_op 1000 1000 id sample_marshal sample_hash)|apply rtc_refl].
  - rewrite Hn. simpl. by destruct (withEventCount_fields n e) as (_ & _ & -> & _); rewrite Hs.
Defined.

Lemma reconciled_effects_inspected_witness :
  ∃ cl, sample_again = (sample_again.1, Ok cl) ∧ ac_Attempt (cl_Activity cl) = 2%Z ∧
        ∃ old, inspectedForRetry sample_marshal old ∧ ac_Attempt old = 1%Z.
Proof.
  destruct sample_again.2 as [cl| | |] eqn:Hcl; [|exfalso; vm_compute in Hcl; discriminate Hcl..].
  assert (Hrun : sample_again = (sample_again.1, Ok cl)) by (rewrite <- Hcl; apply surjective_pairing).
  exists cl. split; [exact Hrun|].
  assert (Hfields : cl_Decision cl = ActivityDecisionExecute ∧ ac_Attempt (cl_Activity cl) = 2%Z)
    by (vm_compute in Hcl; injection Hcl as <-; split; reflexivity).
  destruct Hfields as [Hdec Hatt]. split; [exact Hatt|].
  destruct (reconciled_effects_inspected _ 1000 id _ _ _ _ _ _ _ _ _ _
              sample_released_reachable Hrun Hdec eq_refl)
    as (_ & _ & _ & [H|(old & _ & _ & H & Hold)]); [congruence|].
  exists old. split; [exact Hold|]. rewrite Hatt in H. lia.
Defined.

Lemma completion_fenced_once_witness :
  ∃ a, sample_completed = (sample_completed.1, Ok a) ∧ ac_State a = ActivityStateCompleted ∧
       CompleteExecutionActivity 1000 1000 id sample_hash (sample_call 0%N) 1%N
         (mkLease 30%N 8%N 2) sample_result sample_completed.1 = (sample_completed.1, Ok a).
Proof.
  destruct sample_completed.2 as [a| | |] eqn:Ha; [|exfalso; vm_compute in Ha; discriminate Ha..].
  assert (Hrun : sample_completed = (sample_completed.1, Ok a))
    by (rewrite <- Ha; apply surjective_pairing).
  exists a. split; [exact Hrun|].
  assert (Hr : sample_reachable sample_again.1).
  { exact (reachable_run [(sample_call 0%N, OpBegin 1%N 10%N 8%N sample_tool)] sample_released
             sample_released_reachable). }
  destruct (completion_fenced_once 1000 1000 id sample_marshal _ _ _ _ _ _ _ _ Hr Hrun)
    as (_ & Hst & _ & Hagain).
  split; [exact Hst|apply Hagain].
Defined.

End ExecutionSteps.
