(* ===== verification/Admission.v ===== *)
(** The admission gate of a session (src/internal/pkg/session/admission.go and
    admissionstop.go): a line of tickets per session, served in the order they were
    reserved, and a stop that invalidates the tickets of a session.  Each method
    holds the gate's mutex, so it is one step; a ticket and a bound context are
    the number of their allocation. *)
From stdpp Require Import base gmap sets list.
From Stdlib Require Import ZArith Lia Sorted.
From S2P Require Import Prelude.

Module Admission.

(** [admitted] and [stopped] say whether the channel is closed; [cancellations] are
    the bound contexts whose cancel function the ticket holds; [released] is the
    [sync.Once] of [Release]. *)
Record AdmissionTicket := mkTicket {
  sessionID : N;
  admitted : bool;
  stopped : bool;
  cancellations : list N;
  preparing : bool;
  released : bool }.

(** The allocator gives the next ticket its address; [cancelled] is the history of
    the cancel functions called. *)
Record AdmissionGate := mkGate {
  next : N;
  tickets : gmap N AdmissionTicket;
  lines : gmap N (list N);
  cancelled : list N }.

Definition NewAdmissionGate : AdmissionGate := mkGate 0 ∅ ∅ [].

Definition lineOf (g : AdmissionGate) (sid : N) : list N := default [] (lines g !! sid).

Definition deref (g : AdmissionGate) (id : N) : outcome AdmissionTicket :=
  index_or_panic (tickets g !! id).

Definition setTicket (id : N) (t : AdmissionTicket) (g : AdmissionGate) : AdmissionGate :=
  mkGate (next g) (<[id := t]> (tickets g)) (lines g) (cancelled g).

Definition setLine (sid : N) (line : list N) (g : AdmissionGate) : AdmissionGate :=
  mkGate (next g) (tickets g)
    (if bool_decide (line = []) then delete sid (lines g) else <[sid := line]> (lines g))
    (cancelled g).

(** [close(ticket.admitted)]: closing a closed channel panics. *)
Definition closeAdmitted (id : N) (g : AdmissionGate) : outcome AdmissionGate :=
  t ← deref g id;
  if admitted t then Panic
  else Ok (setTicket id (mkTicket (sessionID t) true (stopped t) (cancellations t)
                           (preparing t) (released t)) g).

(** The line gets the ticket before its length is looked at. *)
Definition Reserve (sid : N) (g : AdmissionGate) : outcome (N * AdmissionGate) :=
  let id := next g in
  let g := mkGate (N.succ id) (<[id := mkTicket sid false false [] false false]> (tickets g))
             (<[sid := lineOf g sid ++ [id]]> (lines g)) (cancelled g) in
  g ← (if bool_decide (length (lineOf g sid) = 1) then closeAdmitted id g else Ok g);
  Ok (id, g).

(** [slices.Index]. *)
Fixpoint indexOf (id : N) (line : list N) : option nat :=
  match line with
  | [] => None
  | x :: rest => if bool_decide (x = id) then Some 0 else S <$> indexOf id rest
  end.

Definition leave (id : N) (g : AdmissionGate) : outcome AdmissionGate :=
  t ← deref g id;
  let line := lineOf g (sessionID t) in
  let g := setTicket id (mkTicket (sessionID t) (admitted t) (stopped t) [] false (released t)) g in
  match indexOf id line with
  | None => Ok g
  | Some position =>
      let line := delete position line in
      let g := setLine (sessionID t) line g in
      match line with
      | [] => Ok g
      | front :: _ => if bool_decide (position = 0) then closeAdmitted front g else Ok g
      end
  end.

Definition Release (id : N) (g : AdmissionGate) : outcome AdmissionGate :=
  t ← deref g id;
  if released t then Ok g
  else leave id (setTicket id (mkTicket (sessionID t) (admitted t) (stopped t)
                                 (cancellations t) (preparing t) true) g).

(** The select of [checkCancellation]; [ctxErr] is what [ctx.Err()] answers. *)
Definition checkCancellation (ctxErr : option sentinel) (t : AdmissionTicket) : outcome unit :=
  match ctxErr with
  | Some e => Err e
  | None => if stopped t then Err ErrCanceled else Ok tt
  end.

(** What [Wait] may answer in a state: select takes any ready case, and blocks when
    none is ready.  [before] is the context's error when the call starts. *)
Definition Wait (before ctxErr : option sentinel) (t : AdmissionTicket) : list (outcome unit) :=
  match checkCancellation before t with
  | Ok _ =>
      (if admitted t then [checkCancellation ctxErr t] else []) ++
      (if stopped t then [Err ErrCanceled] else []) ++
      match ctxErr with Some e => [Err e] | None => [] end
  | r => [r]
  end.

(** The body of the loop of [CancelPending], on one ticket of the line. *)
Definition cancelTicket (g : AdmissionGate) (id : N) (acc : list N * nat * list N)
    : outcome (AdmissionGate * (list N * nat * list N)) :=
  let '(retained, count, cancels) := acc in
  t ← deref g id;
  let t' := mkTicket (sessionID t) (admitted t) true [] (preparing t) (released t) in
  Ok (setTicket id t' g,
      (if preparing t then retained ++ [id] else retained,
       if stopped t then count else S count,
       cancels ++ cancellations t)).

Fixpoint cancelTickets (line : list N) (g : AdmissionGate) (acc : list N * nat * list N)
    : outcome (AdmissionGate * (list N * nat * list N)) :=
  match line with
  | [] => Ok (g, acc)
  | id :: rest =>
      '(g, acc) ← cancelTicket g id acc;
      cancelTickets rest g acc
  end.

Definition CancelPending (sid : N) (g : AdmissionGate) : outcome (nat * AdmissionGate) :=
  '(g, (retained, count, cancels)) ← cancelTickets (lineOf g sid) g ([], 0, []);
  let g := setLine sid retained g in
  Ok (count, mkGate (next g) (tickets g) (lines g) (cancelled g ++ cancels)).

(** [ctx] is the context [context.WithCancel] made. *)
Definition BindContext (id ctx : N) (g : AdmissionGate) : outcome AdmissionGate :=
  t ← deref g id;
  if stopped t then Ok (mkGate (next g) (tickets g) (lines g) (cancelled g ++ [ctx]))
  else Ok (setTicket id (mkTicket (sessionID t) (admitted t) (stopped t)
                           (cancellations t ++ [ctx]) true (released t)) g).

(** ** Steps *)

Inductive gateOp :=
  | OpReserve (sid : N)
  | OpRelease (id : N)
  | OpBind (id ctx : N)
  | OpCancelPending (sid : N).

Definition apply (o : gateOp) (g : AdmissionGate) : outcome AdmissionGate :=
  match o with
  | OpReserve sid => snd <$> Reserve sid g
  | OpRelease id => Release id g
  | OpBind id ctx => BindContext id ctx g
  | OpCancelPending sid => snd <$> CancelPending sid g
  end.

(** A caller holds only tickets the gate gave it. *)
Definition callable (o : gateOp) (g : AdmissionGate) : Prop :=
  match o with
  | OpRelease id | OpBind id _ => (id < next g)%N
  | _ => True
  end.

Inductive reachable : AdmissionGate → Prop :=
  | reachable_new : reachable NewAdmissionGate
  | reachable_op o g g' : reachable g → callable o g → apply o g = Ok g' → reachable g'.

(** A ticket that is still waited for or held: neither released nor stopped. *)
Definition live (t : AdmissionTicket) : Prop := released t = false ∧ stopped t = false.

(** ** The invariant *)

(** The line of a session: its tickets in the order of their reservation.  Only the
    front may have been admitted, and it has been unless a stop came first. *)
Record line_ok (g : AdmissionGate) (sid : N) (line : list N) : Prop := {
  line_ordered : StronglySorted N.lt line;
  line_tickets : ∀ id, id ∈ line →
    ∃ t, tickets g !! id = Some t ∧ sessionID t = sid ∧ released t = false;
  line_front : ∀ front rest, line = front :: rest →
    (∃ t, tickets g !! front = Some t ∧ (admitted t = true ∨ stopped t = true)) ∧
    ∀ id t, id ∈ rest → tickets g !! id = Some t → admitted t = false }.

Record inv (g : AdmissionGate) : Prop := {
  inv_alloc : ∀ id, is_Some (tickets g !! id) ↔ (id < next g)%N;
  inv_lines : ∀ sid, line_ok g sid (lineOf g sid);
  inv_live : ∀ id t, tickets g !! id = Some t → live t → id ∈ lineOf g (sessionID t) }.

(** ** Helpers *)

Lemma lineOf_setLine g sid line sid' :
  lineOf (setLine sid line g) sid' = if decide (sid = sid') then line else lineOf g sid'.
Proof.
  unfold lineOf, setLine. simpl. case_bool_decide; subst; case_decide; subst.
  - by rewrite lookup_delete_eq.
  - by rewrite lookup_delete_ne.
  - by rewrite lookup_insert_eq.
  - by rewrite lookup_insert_ne.
Qed.

Lemma indexOf_spec id line :
  match indexOf id line with
  | Some p => line !! p = Some id ∧ ∀ q, q < p → line !! q ≠ Some id
  | None => id ∉ line
  end.
Proof.
  induction line as [|x line IH]; simpl; [set_solver|].
  case_bool_decide as Hx; [split; [by subst|lia]|].
  destruct (indexOf id line) as [p|]; simpl; [|set_solver].
  destruct IH as [Hp Hq]. split; [done|]. intros [|q] ?; simpl; [congruence|]. apply Hq. lia.
Qed.

Lemma ordered_NoDup line : StronglySorted N.lt line → NoDup line.
Proof.
  induction 1 as [|x line _ IH Hall]; [constructor|]. constructor; [|done].
  intros Hin. rewrite Forall_forall in Hall. specialize (Hall _ Hin). lia.
Qed.

Lemma filter_all_in {A} (P : A → Prop) `{∀ x, Decision (P x)} (l : list A) :
  Forall P l → filter P l = l.
Proof. induction 1; [done|]. by rewrite filter_cons_True, IHForall. Qed.

(** Deleting where a line has a ticket is filtering it out. *)
Lemma delete_filter (line : list N) p id :
  NoDup line → line !! p = Some id → delete p line = filter (λ x, x ≠ id) line.
Proof.
  revert p. induction line as [|x line IH]; intros p Hnd Hp; [done|].
  apply NoDup_cons in Hnd as [Hx Hnd]. destruct p as [|p]; simpl in *.
  - simplify_eq. rewrite filter_cons_False by naive_solver.
    rewrite filter_all_in; [done|]. apply Forall_forall. intros y Hy ->. done.
  - rewrite filter_cons_True; [f_equal; by apply IH|].
    intros ->. apply Hx. by eapply list_elem_of_lookup_2.
Qed.

Lemma ordered_filter (P : N → Prop) `{∀ x, Decision (P x)} line :
  StronglySorted N.lt line → StronglySorted N.lt (filter P line).
Proof.
  induction 1 as [|x line Hs IH Hall]; [constructor|]. destruct (decide (P x)).
  - rewrite filter_cons_True by done. constructor; [done|].
    rewrite Forall_forall in *. intros y Hy%list_elem_of_filter. naive_solver.
  - by rewrite filter_cons_False.
Qed.

Lemma StronglySorted_snoc line n :
  StronglySorted N.lt line → Forall (λ x, (x < n)%N) line → StronglySorted N.lt (line ++ [n]).
Proof.
  induction 1 as [|x line Hs IH Hall]; intros Hn; simpl.
  - repeat constructor.
  - inversion Hn; subst. constructor; [by apply IH|]. apply Forall_app. split; [done|].
    by repeat constructor.
Qed.

(** The state of a ticket that the line depends on does not change. *)
Definition same_place (t t' : AdmissionTicket) : Prop :=
  sessionID t' = sessionID t ∧ admitted t' = admitted t ∧ released t' = released t ∧
  (stopped t = true → stopped t' = true).

Definition same_places (g g' : AdmissionGate) : Prop :=
  next g' = next g ∧ lines g' = lines g ∧
  ∀ id, match tickets g !! id, tickets g' !! id with
        | Some t, Some t' => same_place t t'
        | None, None => True
        | _, _ => False
        end.

Lemma same_place_refl t : same_place t t.
Proof. done. Qed.

Lemma same_places_refl g : same_places g g.
Proof. split_and!; [done..|]. intros id. by destruct (tickets g !! id). Qed.

Lemma same_places_trans g1 g2 g3 : same_places g1 g2 → same_places g2 g3 → same_places g1 g3.
Proof.
  intros (Hn & Hl & Ht) (Hn' & Hl' & Ht'). split_and!; [congruence..|]. intros id.
  specialize (Ht id). specialize (Ht' id).
  destruct (tickets g1 !! id), (tickets g2 !! id), (tickets g3 !! id); try done.
  destruct Ht as (? & ? & ? & ?), Ht' as (? & ? & ? & ?). split_and!; [congruence..|auto].
Qed.

Lemma same_places_set g id t t' :
  tickets g !! id = Some t → same_place t t' → same_places g (setTicket id t' g).
Proof.
  intros Ht Hs. split_and!; [done..|]. intros j. simpl. destruct (decide (id = j)) as [<-|].
  - by rewrite lookup_insert_eq, Ht.
  - rewrite lookup_insert_ne by done. by destruct (tickets g !! j).
Qed.

Lemma inv_same_places g g' : same_places g g' → inv g → inv g'.
Proof.
  intros (Hn & Hl & Ht) [Ha Hline Hlive].
  assert (Hlo : ∀ sid, lineOf g' sid = lineOf g sid) by (intros; unfold lineOf; by rewrite Hl).
  split.
  - intros id. rewrite Hn, <- Ha. specialize (Ht id). unfold is_Some.
    destruct (tickets g !! id), (tickets g' !! id); naive_solver.
  - intros sid. rewrite Hlo. destruct (Hline sid) as [Ho Hi Hf]. split; [done| |].
    + intros id (t & E & ? & ?)%Hi. specialize (Ht id). rewrite E in Ht.
      destruct (tickets g' !! id) as [t'|]; [|done]. destruct Ht as (? & ? & ? & ?).
      exists t'. split_and!; congruence.
    + intros front rest E. destruct (Hf front rest E) as [(t & Hft & Hs) Hr]. split.
      * specialize (Ht front). rewrite Hft in Ht. destruct (tickets g' !! front) as [t'|]; [|done].
        destruct Ht as (? & ? & ? & ?). exists t'. split; [done|]. destruct Hs; [left|right]; [congruence|auto].
      * intros id t' Hid Ht'. specialize (Ht id). rewrite Ht' in Ht.
        destruct (tickets g !! id) as [t0|] eqn:E0; [|done]. destruct Ht as (? & -> & ?). by apply (Hr id).
  - intros id t' Ht' [Hr Hs]. specialize (Ht id). rewrite Ht' in Ht.
    destruct (tickets g !! id) as [t|] eqn:E; [|done]. destruct Ht as (-> & ? & ? & Hst). rewrite Hlo.
    apply Hlive; [done|]. split; [congruence|]. destruct (stopped t); [|done]. by rewrite Hst in Hs.
Qed.

(** ** The operations *)

Lemma Reserve_spec g sid :
  inv g →
  ∃ g', Reserve sid g = Ok (next g, g') ∧ next g' = N.succ (next g) ∧ cancelled g' = cancelled g ∧
    tickets g' = <[next g := mkTicket sid (bool_decide (lineOf g sid = [])) false [] false false]>
                   (tickets g) ∧
    ∀ s, lineOf g' s = if decide (sid = s) then lineOf g sid ++ [next g] else lineOf g s.
Proof.
  intros _. unfold Reserve. set (g1 := mkGate _ _ _ _).
  assert (Hl : ∀ s, lineOf g1 s = if decide (sid = s) then lineOf g sid ++ [next g] else lineOf g s).
  { intros s. unfold g1, lineOf at 1. simpl. case_decide; subst.
    - by rewrite lookup_insert_eq.
    - by rewrite lookup_insert_ne. }
  rewrite (Hl sid), decide_True, length_app by done. simpl.
  destruct (lineOf g sid) as [|x line] eqn:E; simpl.
  - unfold closeAdmitted, deref. simpl. rewrite lookup_insert_eq. simpl.
    eexists. split_and!; [done..| |].
    + simpl. by rewrite insert_insert_eq.
    + intros s. etrans; [|apply Hl]. done.
  - rewrite bool_decide_eq_false_2 by lia. exists g1. split_and!; [done..| |done]. done.
Qed.

Lemma Reserve_inv g sid g' : inv g → snd <$> Reserve sid g = Ok g' → inv g'.
Proof.
  intros Hi H. destruct (Reserve_spec g sid Hi) as (g1 & HR & Hn & _ & Ht & Hl).
  rewrite HR in H. simpl in H. injection H as <-. destruct Hi as [Ha Hline Hlive].
  assert (Hfresh : tickets g !! next g = None).
  { apply eq_None_not_Some. rewrite Ha. lia. }
  assert (Hbound : ∀ s id, id ∈ lineOf g s → (id < next g)%N).
  { intros s id Hid. apply Ha. destruct (Hline s) as [_ Htk _]. destruct (Htk id Hid) as (t & -> & _). eauto. }
  split.
  - intros id. rewrite Ht, Hn. destruct (decide (next g = id)) as [<-|Hne].
    + rewrite lookup_insert_eq. split; [lia|eauto].
    + rewrite lookup_insert_ne by done. rewrite Ha. lia.
  - intros s. rewrite Hl. case_decide as Hs; [subst s|].
    + destruct (Hline sid) as [Ho Htk Hf]. split.
      * apply StronglySorted_snoc; [done|]. apply Forall_forall. intros x. apply Hbound.
      * intros id [Hid| ->%list_elem_of_singleton]%elem_of_app; rewrite Ht.
        -- assert (id ≠ next g) by (specialize (Hbound _ _ Hid); lia).
           rewrite lookup_insert_ne by done. by apply Htk.
        -- rewrite lookup_insert_eq. by eexists.
      * intros front rest E. destruct (lineOf g sid) as [|x line] eqn:El; simpl in E; simplify_eq.
        -- rewrite Ht. split; [|set_solver]. rewrite lookup_insert_eq. eexists. split; [done|]. by left.
        -- destruct (Hf front line eq_refl) as [(t & Hft & Hx) Hr].
           assert (Hb : ∀ id, id ∈ front :: line → id ≠ next g).
           { intros id Hid ->. specialize (Hbound sid (next g)). rewrite El in Hbound.
             specialize (Hbound Hid). lia. }
           split.
           ++ exists t. rewrite Ht, lookup_insert_ne by (apply not_eq_sym, Hb; left). done.
           ++ intros id t' [Hid| ->%list_elem_of_singleton]%elem_of_app; rewrite Ht.
              ** rewrite lookup_insert_ne by (apply not_eq_sym, Hb; by right). by apply Hr.
              ** rewrite lookup_insert_eq. by intros [= <-].
    + destruct (Hline s) as [Ho Htk Hf].
      assert (Hb : ∀ id, id ∈ lineOf g s → next g ≠ id) by (intros id Hid; specialize (Hbound _ _ Hid); lia).
      split; [done| |].
      * intros id Hid. rewrite Ht, lookup_insert_ne by auto. by apply Htk.
      * intros front rest E. rewrite E in Hb. destruct (Hf front rest E) as [(t & Hft & Hx) Hr]. split.
        -- exists t. rewrite Ht, lookup_insert_ne by (apply Hb; left). done.
        -- intros id t' Hid. rewrite Ht, lookup_insert_ne by (apply Hb; by right). by apply Hr.
  - intros id t. rewrite Ht. destruct (decide (next g = id)) as [<-|Hne].
    + rewrite lookup_insert_eq. intros [= <-] _. simpl. rewrite Hl, decide_True by done. set_solver.
    + rewrite lookup_insert_ne by done. intros Hid Hlv. specialize (Hlive _ _ Hid Hlv).
      rewrite Hl. case_decide; [subst|done]. set_solver.
Qed.

(** *** Release *)

Definition closed (t : AdmissionTicket) : AdmissionTicket :=
  mkTicket (sessionID t) (admitted t) (stopped t) [] false true.
Definition admitted_ (t : AdmissionTicket) : AdmissionTicket :=
  mkTicket (sessionID t) true (stopped t) (cancellations t) (preparing t) (released t).

(** The ticket that moves to the front when [id] leaves. *)
Definition promoted (id : N) (line : list N) : option N :=
  if bool_decide (head line = Some id) then head (filter (λ x, x ≠ id) line) else None.

Definition afterRelease (id : N) (t : AdmissionTicket) (line : list N)
    (m : gmap N AdmissionTicket) : gmap N AdmissionTicket :=
  match promoted id line with
  | Some front => alter admitted_ front (<[id := closed t]> m)
  | None => <[id := closed t]> m
  end.

Lemma indexOf_head id line :
  NoDup line → indexOf id line = Some 0 ↔ head line = Some id.
Proof.
  intros _. destruct line as [|x line]; simpl; [done|]. case_bool_decide as Hx.
  - naive_solver.
  - destruct (indexOf id line); simpl; naive_solver.
Qed.

Lemma Release_spec g id t :
  inv g → tickets g !! id = Some t → released t = false →
  ∃ g', Release id g = Ok g' ∧ next g' = next g ∧ cancelled g' = cancelled g ∧
    tickets g' = afterRelease id t (lineOf g (sessionID t)) (tickets g) ∧
    ∀ s, lineOf g' s = filter (λ x, x ≠ id) (lineOf g s).
Proof.
  intros [Ha Hline Hlive] Ht Hr. unfold Release, deref. rewrite Ht. simpl. rewrite Hr.
  unfold leave, deref. simpl. rewrite lookup_insert_eq. simpl.
  set (line := lineOf g (sessionID t)).
  change (lineOf (setTicket _ _ g) (sessionID t)) with line.
  set (g1 := setTicket id _ (setTicket id _ g)).
  assert (Ht1 : tickets g1 = <[id := closed t]> (tickets g)).
  { unfold g1. simpl. by rewrite insert_insert_eq. }
  destruct (Hline (sessionID t)) as [Ho Htk Hf]. fold line in Ho, Htk, Hf.
  pose proof (ordered_NoDup _ Ho) as Hnd.
  assert (Hother : ∀ s, sessionID t ≠ s → filter (λ x, x ≠ id) (lineOf g s) = lineOf g s).
  { intros s Hs. apply filter_all_in, Forall_forall. intros x Hx ->.
    destruct (Hline s) as [_ Htk' _]. destruct (Htk' _ Hx) as (t' & E & ? & _). congruence. }
  pose proof (indexOf_spec id line) as Hix. destruct (indexOf id line) as [pos|] eqn:Ei.
  - destruct Hix as [Hpos _]. rewrite (delete_filter line pos id Hnd Hpos).
    set (line' := filter (λ x, x ≠ id) line).
    assert (Hl : ∀ s, lineOf (setLine (sessionID t) line' g1) s = filter (λ x, x ≠ id) (lineOf g s)).
    { intros s. rewrite lineOf_setLine. case_decide; [by subst|]. by rewrite Hother. }
    unfold afterRelease, promoted. fold line. pose proof (indexOf_head id line Hnd) as Hhd. rewrite Ei in Hhd.
    fold line'. destruct line' as [|front rest] eqn:El'.
    + eexists. split_and!; [done..| |exact Hl]. etrans; [exact Ht1|]. by case_bool_decide.
    + destruct (decide (pos = 0)) as [->|Hp].
      * rewrite bool_decide_eq_true_2 by done. rewrite (bool_decide_eq_true_2 (head line = _)) by naive_solver.
        simpl. destruct line as [|x line2] eqn:Eline; [done|]. simpl in Hpos. injection Hpos as ->.
        assert (El2 : line' = line2).
        { unfold line'. rewrite filter_cons_False by naive_solver. apply filter_all_in, Forall_forall.
          intros y Hy ->. apply NoDup_cons in Hnd. naive_solver. }
        rewrite El' in El2. destruct (Hf id line2 eq_refl) as [_ Hrest].
        destruct (Htk front) as (tf & Htf & _). { rewrite <- El2. set_solver. }
        assert (Hne : id ≠ front). { intros ->. apply NoDup_cons in Hnd. rewrite <- El2 in Hnd. set_solver. }
        assert (admitted tf = false) as Hadm. { apply (Hrest front); [rewrite <- El2; set_solver|done]. }
        unfold closeAdmitted, deref.
        change (tickets (setLine _ _ g1)) with (tickets g1).
        rewrite Ht1, lookup_insert_ne, Htf by done. simpl. rewrite Hadm.
        eexists. split_and!; [done..| |].
        -- simpl. rewrite insert_insert_eq. apply map_eq. intros j. destruct (decide (front = j)) as [<-|].
           ++ by rewrite lookup_insert_eq, lookup_alter_eq, lookup_insert_ne, Htf.
           ++ by rewrite lookup_insert_ne, lookup_alter_ne.
        -- intros s. etrans; [|apply Hl]. done.
      * rewrite bool_decide_eq_false_2 by done. rewrite (bool_decide_eq_false_2 (head line = _)) by naive_solver.
        eexists. split_and!; [done..|exact Ht1|exact Hl].
  - eexists. split_and!; [done..| |].
    + etrans; [exact Ht1|]. unfold afterRelease, promoted. fold line. rewrite bool_decide_eq_false_2; [done|].
      intros Hh. apply Hix. destruct line; simplify_eq/=. set_solver.
    + intros s. change (lineOf g1 s) with (lineOf g s). destruct (decide (sessionID t = s)) as [<-|].
      * symmetry. apply filter_all_in, Forall_forall. intros x Hx ->. done.
      * by rewrite Hother.
Qed.

Lemma promoted_line (id : N) line front :
  NoDup line → promoted id line = Some front → ∃ rest, line = id :: front :: rest.
Proof.
  unfold promoted. case_bool_decide as Hh; [|done]. destruct line as [|x rest]; [done|].
  simpl in Hh. injection Hh as ->. intros [Hx Hnd]%NoDup_cons. rewrite filter_cons_False by naive_solver.
  rewrite filter_all_in.
  - destruct rest as [|y rest]; [done|]. intros [= ->]. by exists rest.
  - apply Forall_forall. intros y Hy ->. done.
Qed.

Lemma filter_front (id front : N) rest line :
  NoDup line → filter (λ x, x ≠ id) line = front :: rest →
  (∃ rest', line = front :: rest' ∧ rest = filter (λ x, x ≠ id) rest') ∨
  line = id :: front :: rest.
Proof.
  intros Hnd E. destruct line as [|x line]; [done|]. destruct (decide (x = id)) as [->|Hx].
  - right. rewrite filter_cons_False in E by naive_solver. rewrite filter_all_in in E; [by f_equal|].
    apply NoDup_cons in Hnd as [Hx _]. apply Forall_forall. by intros y Hy ->.
  - left. rewrite filter_cons_True in E by done. injection E as -> <-. by exists line.
Qed.

Lemma afterRelease_lookup id t line m j :
  NoDup line →
  afterRelease id t line m !! j =
    if decide (id = j) then Some (closed t)
    else if decide (promoted id line = Some j) then admitted_ <$> m !! j else m !! j.
Proof.
  intros Hnd. unfold afterRelease. destruct (promoted id line) as [f|] eqn:Ep.
  - assert (f ≠ id).
    { intros ->. apply promoted_line in Ep as (r & ->); [|done].
      apply NoDup_cons in Hnd as [Hn _]. apply Hn. left. }
    destruct (decide (f = j)) as [->|Hf].
    + rewrite lookup_alter_eq, lookup_insert_ne by done.
      by rewrite decide_False, decide_True.
    + rewrite lookup_alter_ne by done. destruct (decide (id = j)) as [->|].
      * by rewrite lookup_insert_eq.
      * rewrite lookup_insert_ne by done. by rewrite decide_False by naive_solver.
  - destruct (decide (id = j)) as [->|]; [by rewrite lookup_insert_eq|]. by rewrite lookup_insert_ne.
Qed.

(** The state of a released ticket's session: only the line, the released ticket
    and the one promoted differ. *)
Definition after (g g' : AdmissionGate) (id : N) (t : AdmissionTicket) : Prop :=
  next g' = next g ∧
  (∀ s, lineOf g' s = filter (λ x, x ≠ id) (lineOf g s)) ∧
  ∀ j, tickets g' !! j =
    if decide (id = j) then Some (closed t)
    else if decide (promoted id (lineOf g (sessionID t)) = Some j)
    then admitted_ <$> tickets g !! j else tickets g !! j.

Lemma after_line g g' id t s :
  inv g → tickets g !! id = Some t → after g g' id t → line_ok g' s (lineOf g' s).
Proof.
  intros [Ha Hline Hlive] Ht (_ & Hl & Hk'). rewrite Hl.
  destruct (Hline s) as [Ho Hk Hf]. pose proof (ordered_NoDup _ Ho) as Hnd.
  remember (lineOf g s) as L eqn:EL.
  assert (Hin : ∀ j, j ∈ L → j ≠ id → ∃ t', tickets g !! j = Some t' ∧ sessionID t' = s ∧
    released t' = false ∧ tickets g' !! j =
      Some (if decide (promoted id (lineOf g (sessionID t)) = Some j) then admitted_ t' else t')).
  { intros j Hj Hne. destruct (Hk j Hj) as (t' & Ej & ? & ?). exists t'. split_and!; [done..|].
    rewrite Hk', decide_False, Ej by done. by case_decide. }
  split.
  - by apply ordered_filter.
  - intros j [Hne Hj]%list_elem_of_filter. destruct (Hin j Hj Hne) as (t' & _ & ? & ? & ->).
    eexists. split; [done|]. by case_decide.
  - intros front rest E. destruct (filter_front _ _ _ _ Hnd E) as [(rest' & El & ->)|El].
    + destruct (Hf front rest' El) as [(tf & Htf & Hst) Hrest].
      assert (Hfne : front ≠ id).
      { intros ->. assert (id ∈ filter (λ x, x ≠ id) L) as Hc by (rewrite E; left).
        by apply list_elem_of_filter in Hc as [? _]. }
      destruct (Hin front) as (t' & Et' & _ & _ & E1); [rewrite El; left|done|]. simplify_eq. split.
      { eexists. split; [exact E1|]. case_decide; [by left|done]. }
      intros j tj' [Hne Hj]%list_elem_of_filter.
      destruct (Hin j) as (tj & Etj & Hsj & _ & ->); [rewrite El; by right|done|].
      intros [= <-]. rewrite decide_False; [by apply (Hrest j)|]. intros Hp.
      apply promoted_line in Hp as (r & Er); [|by apply ordered_NoDup, Hline].
      destruct (Hline (sessionID t)) as [_ Hk2 _].
      destruct (Hk2 j) as (tj2 & E2 & Hs2 & _); [rewrite Er; right; left|].
      assert (sessionID t = s) as Hs by congruence. congruence.
    + destruct (Hf id (front :: rest) El) as [_ Hrest].
      assert (Hs : sessionID t = s).
      { destruct (Hk id) as (t1 & E1 & ? & _); [rewrite El; left|]. congruence. }
      assert (Hp : promoted id (lineOf g (sessionID t)) = Some front).
      { unfold promoted. rewrite Hs, <- EL, E, El. by rewrite bool_decide_eq_true_2. }
      rewrite El in Hnd. apply NoDup_cons in Hnd as [Hni Hnd].
      destruct (Hin front) as (tf & Etf & _ & _ & E1); [rewrite El; right; left|set_solver|]. split.
      { eexists. split; [exact E1|]. left. by rewrite decide_True. }
      intros j tj Hj. destruct (Hin j) as (tj' & Etj & _ & _ & ->); [rewrite El; by right; right|set_solver|].
      intros [= <-]. rewrite decide_False; [apply (Hrest j); [by right|done]|].
      rewrite Hp. intros [= ->]. by apply NoDup_cons in Hnd as [? _].
Qed.

Lemma Release_after g id t :
  inv g → tickets g !! id = Some t → released t = false →
  ∃ g', Release id g = Ok g' ∧ after g g' id t ∧ cancelled g' = cancelled g.
Proof.
  intros Hi Ht Hr. destruct (Release_spec g id t Hi Ht Hr) as (g' & HR & Hn & Hc & Hk & Hl).
  exists g'. split; [done|]. split; [|done]. split; [done|split; [done|]]. intros j. rewrite Hk.
  apply afterRelease_lookup, ordered_NoDup. apply Hi.
Qed.

Lemma after_inv g g' id t :
  inv g → tickets g !! id = Some t → after g g' id t → inv g'.
Proof.
  intros Hi Ht Haf. pose proof Hi as [Ha Hline Hlive]. pose proof Haf as (Hn & Hl & Hk). split.
  - intros j. rewrite Hn, Hk, <- Ha. case_decide as Hj.
    + subst. rewrite Ht. naive_solver.
    + case_decide; [|done]. by rewrite fmap_is_Some.
  - intros s. by apply (after_line g g' id t).
  - intros j tj Hj [Hrj Hsj]. rewrite Hl, Hk in *. case_decide as Hid; [by simplify_eq/=|].
    apply list_elem_of_filter. split; [congruence|].
    case_decide; [|by apply (Hlive j tj)].
    apply fmap_Some in Hj as (t' & Hj & ->). by apply (Hlive j t').
Qed.

Lemma Release_inv g id g' : inv g → (id < next g)%N → Release id g = Ok g' → inv g'.
Proof.
  intros Hi Hid H. apply Hi in Hid as [t Ht]. destruct (released t) eqn:Hr.
  - unfold Release, deref in H. rewrite Ht in H. simpl in H. rewrite Hr in H. by injection H as <-.
  - destruct (Release_after g id t Hi Ht Hr) as (g1 & HR & Haf & _). rewrite HR in H.
    injection H as <-. by apply (after_inv g g1 id t).
Qed.

(** *** CancelPending *)

Definition stopTicket (t : AdmissionTicket) : AdmissionTicket :=
  mkTicket (sessionID t) (admitted t) true [] (preparing t) (released t).

Definition isPreparing (g : AdmissionGate) (id : N) : Prop :=
  preparing <$> tickets g !! id = Some true.
Definition notStopped (g : AdmissionGate) (id : N) : Prop :=
  stopped <$> tickets g !! id = Some false.
#[local] Instance isPreparing_dec g id : Decision (isPreparing g id).
Proof. unfold isPreparing. apply _. Defined.
#[local] Instance notStopped_dec g id : Decision (notStopped g id).
Proof. unfold notStopped. apply _. Defined.

Definition boundTo (g : AdmissionGate) (id : N) : list N :=
  match tickets g !! id with Some t => cancellations t | None => [] end.

Lemma cancelTickets_spec line g r n cs :
  NoDup line → (∀ id, id ∈ line → is_Some (tickets g !! id)) →
  ∃ g', cancelTickets line g (r, n, cs) =
      Ok (g', (r ++ filter (isPreparing g) line, n + length (filter (notStopped g) line),
               cs ++ concat (boundTo g <$> line))) ∧
    next g' = next g ∧ lines g' = lines g ∧ cancelled g' = cancelled g ∧
    ∀ j, tickets g' !! j = if decide (j ∈ line) then stopTicket <$> tickets g !! j else tickets g !! j.
Proof.
  revert g r n cs. induction line as [|id line IH]; intros g r n cs Hnd Hs.
  { exists g. cbn [filter list_filter length concat fmap list_fmap]. rewrite !app_nil_r, Nat.add_0_r. split_and!; [done..|]. intros j.
    destruct (decide (j ∈ [])) as [Hj|]; [by apply elem_of_nil in Hj|done]. }
  apply NoDup_cons in Hnd as [Hid Hnd]. destruct (Hs id) as [t Ht]; [left|].
  cbn [cancelTickets]. unfold cancelTicket at 1, deref. rewrite Ht. cbn [mbind outcome_bind index_or_panic].
  change (mkTicket _ _ true [] _ _) with (stopTicket t).
  destruct (IH (setTicket id (stopTicket t) g)
              (if preparing t then r ++ [id] else r) (if stopped t then n else S n)
              (cs ++ cancellations t) Hnd) as (g' & HR & Hn & Hl & Hc & Hk).
  { intros j Hj. simpl. rewrite lookup_insert_ne by set_solver. apply Hs. by right. }
  assert (Hsame : ∀ j, j ∈ line → tickets (setTicket id (stopTicket t) g) !! j = tickets g !! j).
  { intros j Hj. simpl. by rewrite lookup_insert_ne by set_solver. }
  exists g'. split; [|split_and!; [done..|]].
  - rewrite HR, !filter_cons, fmap_cons. cbn [concat]. do 2 f_equal.
    rewrite (filter_ext_in (isPreparing (setTicket id (stopTicket t) g)) (isPreparing g)).
    2:{ intros j Hj. unfold isPreparing. by rewrite Hsame. }
    rewrite (filter_ext_in (notStopped (setTicket id (stopTicket t) g)) (notStopped g)).
    2:{ intros j Hj. unfold notStopped. by rewrite Hsame. }
    assert (boundTo (setTicket id (stopTicket t) g) <$> line = boundTo g <$> line) as ->.
    { apply list_fmap_ext. intros k j Hj%list_elem_of_lookup_2. unfold boundTo. by rewrite Hsame. }
    assert (boundTo g id = cancellations t) as -> by (unfold boundTo; by rewrite Ht).
    assert (isPreparing g id ↔ preparing t = true) as Hp by (unfold isPreparing; rewrite Ht; simpl; split; [by intros [= ->]|by intros ->]).
    assert (notStopped g id ↔ stopped t = false) as Hst by (unfold notStopped; rewrite Ht; simpl; split; [by intros [= ->]|by intros ->]).
    rewrite (app_assoc cs). do 2 f_equal.
    + destruct (preparing t), (decide (isPreparing g id)) as [Hx|Hx]; try (by rewrite <- app_assoc);
        try done; [by destruct Hx; apply Hp|by apply Hp in Hx].
    + destruct (stopped t), (decide (notStopped g id)) as [Hx|Hx]; simpl; try lia;
        [by apply Hst in Hx|by destruct Hx; apply Hst].
  - intros j. rewrite Hk. simpl. destruct (decide (j = id)) as [->|Hne].
    + rewrite lookup_insert_eq, decide_False, decide_True, Ht by set_solver. done.
    + rewrite lookup_insert_ne by done. repeat case_decide; set_solver.
Qed.

Lemma CancelPending_spec g sid :
  inv g →
  ∃ g', CancelPending sid g = Ok (length (filter (notStopped g) (lineOf g sid)), g') ∧
    next g' = next g ∧
    cancelled g' = cancelled g ++ concat (boundTo g <$> lineOf g sid) ∧
    (∀ s, lineOf g' s = if decide (sid = s) then filter (isPreparing g) (lineOf g sid)
                        else lineOf g s) ∧
    ∀ j, tickets g' !! j =
      if decide (j ∈ lineOf g sid) then stopTicket <$> tickets g !! j else tickets g !! j.
Proof.
  intros [Ha Hline Hlive]. destruct (Hline sid) as [Ho Hk Hf].
  destruct (cancelTickets_spec (lineOf g sid) g [] 0 []) as (g1 & HR & Hn & Hl & Hc & Htk).
  { by apply ordered_NoDup. }
  { intros id (t & -> & _)%Hk. eauto. }
  unfold CancelPending. rewrite HR. simpl. eexists. split; [done|]. simpl.
  split_and!; [done|by rewrite Hc| |].
  - intros s. unfold lineOf at 1. simpl. pose proof (lineOf_setLine g1 sid (filter (isPreparing g) (lineOf g sid)) s) as E.
    unfold lineOf at 1 in E. simpl in E. rewrite E. unfold lineOf at 2. by rewrite Hl.
  - intros j. rewrite Htk. done.
Qed.

Lemma CancelPending_inv g sid g' : inv g → snd <$> CancelPending sid g = Ok g' → inv g'.
Proof.
  intros Hi H. destruct (CancelPending_spec g sid Hi) as (g1 & HR & Hn & _ & Hl & Hk).
  rewrite HR in H. injection H as <-. destruct Hi as [Ha Hline Hlive]. split.
  - intros id. rewrite Hn, <- Ha, Hk. case_decide; [|done]. by rewrite fmap_is_Some.
  - intros s. rewrite Hl. case_decide as Hs; [subst s|].
    + destruct (Hline sid) as [Ho Htk Hf]. split.
      * by apply ordered_filter.
      * intros id [_ Hid]%list_elem_of_filter. destruct (Htk id Hid) as (t & E & ? & ?).
        rewrite Hk, decide_True, E by done. by eexists.
      * intros front rest E.
        assert (front ∈ lineOf g sid) as Hfr.
        { assert (front ∈ filter (isPreparing g) (lineOf g sid)) as [_ ?]%list_elem_of_filter; [|done].
          rewrite E. left. }
        split.
        -- destruct (Htk front Hfr) as (t & Et & _). rewrite Hk, decide_True, Et by done.
           eexists. split; [done|by right].
        -- intros id t Hid. rewrite Hk. rewrite decide_True.
           2:{ assert (id ∈ filter (isPreparing g) (lineOf g sid)) as [_ ?]%list_elem_of_filter; [|done].
               rewrite E. by right. }
           intros (t0 & Et & ->)%fmap_Some. simpl.
           destruct (lineOf g sid) as [|x line] eqn:El; [by apply elem_of_nil in Hfr|].
           destruct (Hf x line eq_refl) as [_ Hr]. apply (Hr id); [|done].
           rewrite filter_cons in E. case_decide.
           ++ injection E as -> <-. by apply list_elem_of_filter in Hid as [_ ?].
           ++ assert (id ∈ filter (isPreparing g) line) as [_ ?]%list_elem_of_filter; [|done].
              rewrite E. by right.
    + destruct (Hline s) as [Ho Htk Hf].
      assert (Hout : ∀ id, id ∈ lineOf g s → id ∉ lineOf g sid).
      { intros id (t & E & Hss & _)%Htk Hin. destruct (Hline sid) as [_ Htk' _].
        destruct (Htk' id Hin) as (t' & E' & ? & _). congruence. }
      split; [done| |].
      * intros id Hid. rewrite Hk, decide_False by auto. by apply Htk.
      * intros front rest E. rewrite E in Hout. destruct (Hf front rest E) as [(t & Et & Hx) Hr]. split.
        -- exists t. rewrite Hk, decide_False by (apply Hout; left). done.
        -- intros id t' Hid. rewrite Hk, decide_False by (apply Hout; by right). by apply Hr.
  - intros j t Hj [Hr Hs]. rewrite Hk in Hj. case_decide as Hin.
    + apply fmap_Some in Hj as (t0 & _ & ->). done.
    + specialize (Hlive j t Hj (conj Hr Hs)). rewrite Hl. case_decide; [congruence|done].
Qed.

(** *** BindContext *)

Lemma BindContext_spec g id ctx :
  inv g → (id < next g)%N → ∃ g', BindContext id ctx g = Ok g' ∧ inv g'.
Proof.
  intros Hi Hid. pose proof Hi as [Ha _ _]. apply Ha in Hid as [t Ht].
  unfold BindContext, deref. rewrite Ht. simpl. destruct (stopped t) eqn:Es.
  - eexists. split; [done|]. apply (inv_same_places g); [|done]. split_and!; [done..|].
    intros j. simpl. by destruct (tickets g !! j).
  - eexists. split; [done|]. apply (inv_same_places g); [|done]. apply (same_places_set _ _ t); [done|].
    unfold same_place. simpl. split_and!; congruence.
Qed.

(** ** Reachable states *)

Lemma inv_new : inv NewAdmissionGate.
Proof.
  split.
  - intros id. simpl. rewrite lookup_empty. split; [by intros [? ?]|lia].
  - intros sid. unfold lineOf. simpl. rewrite lookup_empty. simpl. split; [constructor|set_solver|done].
  - intros id t. simpl. by rewrite lookup_empty.
Qed.

Lemma apply_ok o g : inv g → callable o g → ∃ g', apply o g = Ok g' ∧ inv g'.
Proof.
  intros Hi Hc. destruct o as [sid|id|id ctx|sid]; simpl in *.
  - destruct (Reserve_spec g sid Hi) as (g' & HR & _). exists g'. rewrite HR. split; [done|].
    apply (Reserve_inv g sid); [done|]. by rewrite HR.
  - pose proof Hi as [Ha _ _]. apply Ha in Hc as [t Ht]. destruct (released t) eqn:Hr.
    + exists g. unfold Release, deref. rewrite Ht. simpl. by rewrite Hr.
    + destruct (Release_after g id t Hi Ht Hr) as (g' & HR & Haf & _). exists g'. split; [done|].
      by apply (after_inv g g' id t).
  - by apply BindContext_spec.
  - destruct (CancelPending_spec g sid Hi) as (g' & HR & _). exists g'. rewrite HR. split; [done|].
    apply (CancelPending_inv g sid); [done|]. by rewrite HR.
Qed.

Lemma gate_reachable_inv g : reachable g → inv g.
Proof.
  induction 1 as [|o g g' _ Hi Hc Ho]; [apply inv_new|].
  destruct (apply_ok o g Hi Hc) as (g1 & E & ?). congruence.
Qed.

(** ** Theorems *)

Lemma line_before g s i j :
  inv g → lineOf g s = i :: j → ∀ x, x ∈ j → (i < x)%N.
Proof.
  intros [_ Hline _] E x Hx. destruct (Hline s) as [Ho _ _]. rewrite E in Ho.
  apply StronglySorted_inv in Ho as [_ Ho]. rewrite Forall_forall in Ho. by apply Ho.
Qed.

(** C22: admissions are exclusive and in the order of reservation.  In every state the
    gate can reach, a live ticket (neither released nor stopped) that was admitted
    is the oldest live ticket of its session; and no method panics, whatever ticket
    its caller holds. *)
Theorem admission_in_order g :
  reachable g →
  (∀ i j ti tj, tickets g !! i = Some ti → tickets g !! j = Some tj →
     sessionID ti = sessionID tj → live ti → live tj → admitted ti = true → (i ≤ j)%N) ∧
  ∀ o, callable o g → ∃ g', apply o g = Ok g'.
Proof.
  intros Hi%gate_reachable_inv. split.
  - intros i j ti tj Hti Htj Hs Hli Hlj Ha. pose proof Hi as [_ Hline Hlive].
    pose proof (Hlive _ _ Hti Hli) as Hin. pose proof (Hlive _ _ Htj Hlj) as Hjn.
    rewrite <- Hs in Hjn. destruct (lineOf g (sessionID ti)) as [|x rest] eqn:E; [by apply elem_of_nil in Hin|].
    destruct (Hline (sessionID ti)) as [_ _ Hf]. destruct (Hf x rest E) as [_ Hr].
    apply elem_of_cons in Hin as [->|Hin].
    + apply elem_of_cons in Hjn as [->|Hjn]; [lia|]. pose proof (line_before g _ _ _ Hi E j Hjn). lia.
    + rewrite (Hr i ti Hin Hti) in Ha. done.
  - intros o Hc. destruct (apply_ok o g Hi Hc) as (g' & ? & _). eauto.
Qed.

(** The tickets in line before [id]. *)
Fixpoint ahead (id : N) (line : list N) : list N :=
  match line with
  | [] => []
  | x :: rest => if bool_decide (x = id) then [] else x :: ahead id rest
  end.

Lemma drain g id t :
  inv g → tickets g !! id = Some t → live t →
  ∀ line, lineOf g (sessionID t) = line →
  ∃ g' t', foldM (λ g x, Release x g) (ahead id line) g = Ok g' ∧ inv g' ∧
    tickets g' !! id = Some t' ∧ live t' ∧ admitted t' = true.
Proof.
  intros Hi Ht Hl line. revert g t Hi Ht Hl. induction line as [|x line IH]; intros g t Hi Ht Hl E.
  - pose proof (inv_live _ Hi _ _ Ht Hl) as Hin. rewrite E in Hin. by apply elem_of_nil in Hin.
  - destruct (inv_lines _ Hi (sessionID t)) as [_ Hk Hf]. rewrite E in Hk, Hf.
    pose proof (ordered_NoDup _ (line_ordered _ _ _ (inv_lines _ Hi (sessionID t)))) as Hnd.
    rewrite E in Hnd. simpl. case_bool_decide as Hx; [subst x|].
    + destruct (Hf id line eq_refl) as [(t' & Et & Ha) _]. simplify_eq. exists g, t. split_and!; [done..|].
      destruct Ha as [?|Ha]; [done|]. destruct Hl as [_ Hl]. congruence.
    + destruct (Hk x) as (tx & Etx & Hsx & Hrx); [left|].
      destruct (Release_after g x tx Hi Etx Hrx) as (g1 & HR & Haf & _).
      pose proof (after_inv _ _ _ _ Hi Etx Haf) as Hi1. destruct Haf as (_ & Hl1 & Hk1).
      simpl. rewrite HR. simpl.
      assert (∃ t1, tickets g1 !! id = Some t1 ∧ live t1 ∧ sessionID t1 = sessionID t) as (t1 & E1 & Hlv1 & Hs1).
      { rewrite Hk1, decide_False by done. case_decide; [rewrite Ht|by exists t].
        eexists. split; [done|]. done. }
      apply (IH g1 t1 Hi1 E1 Hlv1). rewrite Hs1, Hl1, E, filter_cons_False by naive_solver.
      apply filter_all_in, Forall_forall. intros y Hy ->. by apply NoDup_cons in Hnd as [? _].
Qed.

(** No ticket is lost.  A live ticket is in the line of its session; once the
    tickets before it are released, in order, it is admitted, and its [Wait]
    returns without an error and does not block. *)
Theorem admission_drains g id t :
  reachable g → tickets g !! id = Some t → live t →
  ∃ g' t', foldM (λ g x, Release x g) (ahead id (lineOf g (sessionID t))) g = Ok g' ∧
    tickets g' !! id = Some t' ∧ admitted t' = true ∧ Wait None None t' = [Ok tt].
Proof.
  intros Hi%gate_reachable_inv Ht Hl. destruct (drain g id t Hi Ht Hl _ eq_refl) as (g' & t' & ? & _ & ? & [Hr Hs] & Ha).
  exists g', t'. split_and!; [done..|]. unfold Wait, checkCancellation. by rewrite Hs, Ha.
Qed.

(** A stop.  It invalidates every ticket in the session's line, which from then
    on is only ever refused; it counts the live ones and cancels every context they
    had bound; the tickets of other sessions keep their state; and a ticket
    reserved after it is live, and is admitted at once unless a stopped ticket
    is still preparing. *)
Theorem CancelPending_effect g sid :
  reachable g →
  ∃ g', CancelPending sid g = Ok (length (filter (notStopped g) (lineOf g sid)), g') ∧
    cancelled g' = cancelled g ++ concat (boundTo g <$> lineOf g sid) ∧
    (∀ id t, tickets g' !! id = Some t → sessionID t = sid → ¬ live t) ∧
    (∀ id t before ctxErr, id ∈ lineOf g sid → tickets g' !! id = Some t →
       Forall (λ r, ∃ e, r = Err e) (Wait before ctxErr t)) ∧
    (∀ id t, tickets g !! id = Some t → sessionID t ≠ sid → tickets g' !! id = Some t) ∧
    ∃ id g'' t, Reserve sid g' = Ok (id, g'') ∧ tickets g'' !! id = Some t ∧ live t ∧
      (admitted t = true ↔ filter (isPreparing g) (lineOf g sid) = []).
Proof.
  intros Hi%gate_reachable_inv. destruct (CancelPending_spec g sid Hi) as (g' & HR & _ & Hc & Hl & Hk).
  assert (Hi' : inv g'). { apply (CancelPending_inv g sid); [done|]. by rewrite HR. }
  exists g'. split_and!; [done|done| | | |].
  - intros id t Ht Hs Hlv. pose proof (inv_live _ Hi' _ _ Ht Hlv) as Hin.
    rewrite Hs, Hl, decide_True in Hin by done. apply list_elem_of_filter in Hin as [_ Hin].
    rewrite Hk, decide_True in Ht by done. apply fmap_Some in Ht as (t0 & _ & ->). by destruct Hlv.
  - intros id t before ctxErr Hin Ht. rewrite Hk, decide_True in Ht by done.
    apply fmap_Some in Ht as (t0 & _ & ->). unfold Wait, checkCancellation.
    destruct before, ctxErr; simpl; destruct (admitted t0); repeat constructor; eauto.
  - intros id t Ht Hs. rewrite Hk, decide_False; [done|]. intros Hin.
    destruct (inv_lines _ Hi sid) as [_ Htk _]. destruct (Htk id Hin) as (t' & E & ? & _). congruence.
  - destruct (Reserve_spec g' sid Hi') as (g'' & HR' & _ & _ & Ht & _).
    exists (next g'), g''. eexists. split; [done|]. rewrite Ht, lookup_insert_eq. split; [done|].
    split; [done|]. simpl. rewrite bool_decide_eq_true, Hl, decide_True by done. done.
Qed.

(** Two tickets of one session and one of another, the first preparing. *)
Definition sample_ops : list gateOp := [OpReserve 7; OpBind 0 100; OpReserve 7; OpReserve 8].
Definition sample_gate : AdmissionGate :=
  match foldM (λ g o, apply o g) sample_ops NewAdmissionGate with Ok g => g | _ => NewAdmissionGate end.

Lemma sample_reachable : reachable sample_gate.
Proof.
  apply (reachable_op (OpReserve 8) (match foldM (λ g o, apply o g) [OpReserve 7; OpBind 0 100; OpReserve 7]
    NewAdmissionGate with Ok g => g | _ => NewAdmissionGate end)); [|done|by vm_compute].
  apply (reachable_op (OpReserve 7) (match foldM (λ g o, apply o g) [OpReserve 7; OpBind 0 100]
    NewAdmissionGate with Ok g => g | _ => NewAdmissionGate end)); [|done|by vm_compute].
  apply (reachable_op (OpBind 0 100) (match foldM (λ g o, apply o g) [OpReserve 7]
    NewAdmissionGate with Ok g => g | _ => NewAdmissionGate end)); [|by vm_compute|by vm_compute].
  apply (reachable_op (OpReserve 7) NewAdmissionGate); [apply reachable_new|done|by vm_compute].
Qed.

Lemma admission_in_order_witness :
  (∃ t, tickets sample_gate !! 0%N = Some t ∧ admitted t = true) ∧
  ∃ g', apply (OpCancelPending 7) sample_gate = Ok g'.
Proof.
  split; [eexists; split; [vm_compute; reflexivity|reflexivity]|].
  destruct (admission_in_order sample_gate sample_reachable) as [_ H]. by apply H.
Defined.

Lemma admission_drains_witness :
  ∃ g' t', foldM (λ g x, Release x g) [0%N] sample_gate = Ok g' ∧
    tickets g' !! 1%N = Some t' ∧ admitted t' = true ∧ Wait None None t' = [Ok tt].
Proof.
  apply (admission_drains sample_gate 1 (mkTicket 7 false false [] false false) sample_reachable);
    [vm_compute; reflexivity|split; reflexivity].
Defined.

Lemma CancelPending_effect_witness :
  ∃ g', CancelPending 7 sample_gate = Ok (2, g') ∧ cancelled g' = [100%N].
Proof.
  destruct (CancelPending_effect sample_gate 7 sample_reachable) as (g' & H & Hc & _).
  exists g'. split; [exact H|exact Hc].
Defined.

End Admission.
