(* ===== verification/ContentBlob.v ===== *)
(** Storing the repeated parts of a JSON document once
    (src/internal/pkg/contentblob/contentblob.go): [Compact] moves long strings and
    long runs of array elements into blobs named by their hash, [Expand] puts them
    back.  An index into the document is the suffix that starts there. *)
From stdpp Require Import base gmap sets list strings.
From Stdlib Require Import ZArith Lia Ascii.
From S2P Require Import Prelude GoBytes Json Workspace.

Module ContentBlob.

Definition MinBlobBytes : nat := 512.
Definition runBoundaryModulus : N := 8.
Definition maxRunLevels : nat := 16.
Definition maxRunElements : nat := 64.
Definition maxExpandDepth : nat := 32.
Definition hashLength : nat := 64.

Definition QUOTE : ascii := Json.QUOTE.
Definition escapedOpen : bytes := bs "\u003C".
Definition escapedClose : bytes := bs "\u003E".
Definition markerText : bytes := escapedOpen ++ bs "peen-blob".
Definition envelopePrefix : bytes :=
  ["{"%char; QUOTE] ++ escapedOpen ++ bs "peen-blobs" ++ escapedClose ++ [QUOTE; ":"%char].
Definition envelopeSuffix : bytes := bs "}".
Definition referenceStart : bytes :=
  ["{"%char; QUOTE] ++ escapedOpen ++ bs "peen-blob" ++ escapedClose ++ [QUOTE; ":"%char; QUOTE].
Definition referenceEnd : bytes := [QUOTE; "}"%char].

Record Blob := mkBlob { Hash : bytes; Data : bytes }.

(** [raw[from:to]], for two suffixes of one document. *)
Definition between (from to : bytes) : bytes := take (length from - length to) from.

Definition errNotJSON : sentinel := ErrValidationFailed.

(** ** Scanning *)

Fixpoint skipSpace (raw : bytes) : bytes :=
  match raw with
  | c :: rest => if Json.is_space c then skipSpace rest else raw
  | [] => []
  end.

(** From just past the opening quote to the closing quote. *)
Fixpoint stringLiteralEnd (raw : bytes) : option bytes :=
  match raw with
  | [] => None
  | c :: rest =>
      if bool_decide (c = "\"%char)
      then match rest with [] => None | _ :: rest => stringLiteralEnd rest end
      else if bool_decide (c = QUOTE) then Some raw
      else stringLiteralEnd rest
  end.

Definition endsPrimitive (c : ascii) : bool :=
  bool_decide (c = ","%char) || bool_decide (c = "}"%char) || bool_decide (c = "]"%char) ||
  Json.is_space c.

Fixpoint primitiveEnd (raw : bytes) : bytes :=
  match raw with
  | c :: rest => if endsPrimitive c then raw else primitiveEnd rest
  | [] => []
  end.

Definition startsWith (c : ascii) (raw : bytes) : bool := bool_decide (head raw = Some c).

Definition memberValue (raw : bytes) : outcome bytes :=
  if negb (startsWith QUOTE raw) then Err errNotJSON
  else match stringLiteralEnd (drop 1 raw) with
  | None => Err errNotJSON
  | Some keyEnd =>
      let rest := skipSpace (drop 1 keyEnd) in
      if negb (startsWith ":" rest) then Err errNotJSON else Ok (skipSpace (drop 1 rest))
  end.

Definition separator (raw : bytes) (closing : ascii) : outcome (bytes * bool) :=
  let rest := skipSpace raw in
  match rest with
  | [] => Err errNotJSON
  | c :: tail =>
      if bool_decide (c = ","%char) then Ok (skipSpace tail, false)
      else if bool_decide (c = closing) then Ok (rest, true)
      else Err errNotJSON
  end.

(** ** References *)

(** The first reference: what comes before it, its hash, and what follows. *)
Definition referenceAt (body : bytes) : option (bytes * bytes) :=
  if negb (has_prefix referenceStart body) then None
  else
    let afterStart := drop (length referenceStart) body in
    let afterHash := drop hashLength afterStart in
    if has_prefix referenceEnd afterHash
    then Some (take hashLength afterStart, drop (length referenceEnd) afterHash) else None.

Fixpoint nextReference (body : bytes) : option (bytes * bytes * bytes) :=
  match referenceAt body with
  | Some (hash, next) => Some ([], hash, next)
  | None =>
      match body with
      | [] => None
      | c :: rest =>
          match nextReference rest with
          | Some (before, hash, next) => Some (c :: before, hash, next)
          | None => None
          end
      end
  end.

Fixpoint referencesFrom (fuel : nat) (body : bytes) (hashes : list bytes) : list bytes :=
  match fuel with
  | O => hashes
  | S fuel =>
      match nextReference body with
      | None => hashes
      | Some (_, hash, next) =>
          referencesFrom fuel next (if bool_decide (hash ∈ hashes) then hashes else hashes ++ [hash])
      end
  end.

Definition referencesIn (body : bytes) : list bytes := referencesFrom (S (length body)) body [].

Fixpoint spliceFrom (fuel : nat) (body : bytes) (blobs : gmap bytes bytes) : bytes :=
  match fuel with
  | O => body
  | S fuel =>
      match nextReference body with
      | None => body
      | Some (before, hash, next) =>
          before ++ default [] (blobs !! hash) ++ spliceFrom fuel next blobs
      end
  end.

Definition splice (body : bytes) (blobs : gmap bytes bytes) : bytes :=
  spliceFrom (S (length body)) body blobs.

Definition IsCompacted (raw : bytes) : bool :=
  has_prefix envelopePrefix raw && has_suffix envelopeSuffix raw.

Definition envelopeBody (raw : bytes) : outcome bytes :=
  slice (Z.of_nat (length envelopePrefix))
        (Z.of_nat (length raw) - Z.of_nat (length envelopeSuffix))%Z raw.

Definition References (raw : bytes) : outcome (list bytes) :=
  if negb (IsCompacted raw) then Ok [] else body ← envelopeBody raw; Ok (referencesIn body).

(** A fetch answers the blobs it finds; the second component is what it leaves
    behind (the state of a cache). *)
Definition FetchFunc (S : Type) : Type := list bytes → S → outcome (gmap bytes bytes) * S.

Fixpoint expandLayers {S} (layers : nat) (fetch : FetchFunc S) (body : bytes) (s : S)
    : outcome bytes * S :=
  match layers with
  | O => (Err ErrValidationFailed, s)
  | Datatypes.S layers =>
      let hashes := referencesIn body in
      if bool_decide (hashes = []) then (Ok body, s)
      else match fetch hashes s with
      | (Ok blobs, s) =>
          if bool_decide (Forall (λ h, is_Some (blobs !! h)) hashes)
          then expandLayers layers fetch (splice body blobs) s
          else (Err ErrNotFound, s)
      | (Err e, s) => (Err e, s)
      | (Panic, s) => (Panic, s)
      | (OutOfFuel, s) => (OutOfFuel, s)
      end
  end.

Definition Expand {S} (raw : bytes) (fetch : FetchFunc S) (s : S) : outcome bytes * S :=
  if negb (IsCompacted raw) then (Ok raw, s)
  else match envelopeBody raw with
  | Ok body =>
      if bool_decide (referencesIn body = []) then (Err ErrValidationFailed, s)
      else expandLayers maxExpandDepth fetch body s
  | Err e => (Err e, s)
  | Panic => (Panic, s)
  | OutOfFuel => (OutOfFuel, s)
  end.

(** ** Compacting *)

Section hash.
(** [sha256.Sum256]. *)
Variable Sum256 : bytes → bytes.

Definition hashOf (data : bytes) : bytes := Workspace.hashBytes Sum256 data.

Definition ValidBlob (hash data : bytes) : bool :=
  if bool_decide (data = []) || negb (bool_decide (hashOf data = hash)) then false
  else Json.Valid ("["%char :: data ++ ["]"%char]).

Record compactor := mkCompactor { blobs : list Blob; seen : gset bytes }.

Definition reference (data : bytes) (c : compactor) : bytes * compactor :=
  let hash := hashOf data in
  (referenceStart ++ hash ++ referenceEnd,
   if bool_decide (hash ∈ seen c) then c
   else mkCompactor (blobs c ++ [mkBlob hash data]) ({[hash]} ∪ seen c)).

Record arrayElement := mkElement { gap : bytes; compacted : bytes }.

Fixpoint runRest (run : list arrayElement) : bytes :=
  match run with
  | [] => []
  | e :: run => gap e ++ compacted e ++ runRest run
  end.

(** The first gap stays outside the run. *)
Definition runSpan (run : list arrayElement) : bytes :=
  match run with [] => [] | e :: run => compacted e ++ runRest run end.

Definition runBoundary (element : bytes) (len : nat) : bool :=
  if bool_decide (maxRunElements ≤ len) then true
  else match Sum256 element with
  | b :: _ => bool_decide (N_of_ascii b mod runBoundaryModulus = 0)%N
  | [] => false
  end.

(** The loop of [foldRuns]: [run] is [elements[runStart:index]]. *)
Fixpoint foldFrom (run elements folded : list arrayElement) (changed : bool) (c : compactor)
    : list arrayElement * bool * compactor :=
  match elements with
  | [] => (folded ++ run, changed, c)
  | e :: elements =>
      let run := run ++ [e] in
      if negb (runBoundary (compacted e) (length run)) then foldFrom run elements folded changed c
      else
        let span := runSpan run in
        if bool_decide (length span < MinBlobBytes)
        then foldFrom [] elements (folded ++ run) changed c
        else
          let '(ref, c) := reference span c in
          foldFrom [] elements (folded ++ [mkElement (default [] (gap <$> head run)) ref]) true c
  end.

Definition foldRuns (elements : list arrayElement) (c : compactor)
    : list arrayElement * bool * compactor := foldFrom [] elements [] false c.

Fixpoint foldLevels (levels : nat) (elements : list arrayElement) (c : compactor)
    : list arrayElement * compactor :=
  match levels with
  | O => (elements, c)
  | S levels =>
      let '(folded, changed, c) := foldRuns elements c in
      if (changed : bool) then foldLevels levels folded c else (elements, c)
  end.

(** A value, the members of an object from one on, and the elements of an array
    from one on, with where they end. *)
Fixpoint value (fuel : nat) (start : bytes) (c : compactor) : outcome (bytes * bytes * compactor) :=
  match fuel with
  | O => OutOfFuel
  | S fuel =>
      match start with
      | [] => Err errNotJSON
      | ch :: rest =>
          if bool_decide (ch = QUOTE) then
            match stringLiteralEnd rest with
            | None => Err errNotJSON
            | Some close =>
                let end_ := drop 1 close in
                let literal := between start end_ in
                if bool_decide (MinBlobBytes ≤ length literal)
                then let '(ref, c) := reference literal c in Ok (ref, end_, c)
                else Ok (literal, end_, c)
            end
          else if bool_decide (ch = "{"%char) then
            let index := skipSpace rest in
            if startsWith "}" index
            then Ok ("{"%char :: between rest (drop 1 index), drop 1 index, c)
            else members fuel rest index ["{"%char] c
          else if bool_decide (ch = "["%char) then
            let index := skipSpace rest in
            '(elements, closing, end_, c) ←
              (if startsWith "]" index
               then Ok ([], between rest (drop 1 index), drop 1 index, c)
               else arrayElements fuel rest index [] c);
            let '(elements, c) := foldLevels maxRunLevels elements c in
            Ok ("["%char :: runRest elements ++ closing, end_, c)
          else
            let end_ := primitiveEnd start in
            if bool_decide (length end_ = length start) then Err errNotJSON
            else Ok (between start end_, end_, c)
      end
  end
with members (fuel : nat) (last index out : bytes) (c : compactor)
    : outcome (bytes * bytes * compactor) :=
  match fuel with
  | O => OutOfFuel
  | S fuel =>
      valueStart ← memberValue index;
      let out := out ++ between last valueStart in
      '(compacted, end_, c) ← value fuel valueStart c;
      let out := out ++ compacted in
      '(next, closed) ← separator end_ "}";
      if (closed : bool)
      then Ok (out ++ between end_ (drop 1 next), drop 1 next, c)
      else members fuel end_ next out c
  end
with arrayElements (fuel : nat) (last index : bytes) (elements : list arrayElement) (c : compactor)
    : outcome (list arrayElement * bytes * bytes * compactor) :=
  match fuel with
  | O => OutOfFuel
  | S fuel =>
      '(compacted, end_, c) ← value fuel index c;
      let elements := elements ++ [mkElement (between last index) compacted] in
      '(next, closed) ← separator end_ "]";
      if (closed : bool)
      then Ok (elements, between end_ (drop 1 next), drop 1 next, c)
      else arrayElements fuel end_ next elements c
  end.

(** Two calls per byte are enough (see [value_returns]). *)
Definition valueFuel (raw : bytes) : nat := 2 * length raw + 1.

Definition Compact (raw : bytes) : outcome (bytes * list Blob) :=
  if bool_decide (length raw < MinBlobBytes) || bool_decide (index_sub markerText raw ≠ None) ||
     negb (Json.Valid raw)
  then Ok (raw, [])
  else
    let start := skipSpace raw in
    match value (valueFuel raw) start (mkCompactor [] ∅) with
    | Ok (body, end_, c) =>
        if negb (bool_decide (skipSpace end_ = [])) then Ok (raw, [])
        else if bool_decide (blobs c = []) then Ok (raw, [])
        else Ok (envelopePrefix ++ between raw start ++ body ++ end_ ++ envelopeSuffix, blobs c)
    | Err _ => Ok (raw, [])
    | Panic => Panic
    | OutOfFuel => OutOfFuel
    end.

End hash.

End ContentBlob.
