(* ===== verification/BlobLayers.v ===== *)
(** What a compacted document stands for: a tree whose leaves are the bytes kept in
    line and whose nodes are the parts that were moved out, layer by layer.
    Compacting builds such a tree of the document and expanding peels it; from this
    follow the round trip of contentblob.go, its limits and its exceptions. *)
From stdpp Require Import base gmap sets list strings.
From Stdlib Require Import ZArith Lia Ascii.
From S2P Require Import Prelude GoBytes Json Workspace ContentBlob.

Module BlobLayers.
Import ContentBlob.

(** A byte of the document, or a part that was moved into a blob. *)
Inductive part := Lit (c : ascii) | Ref (ps : list part).

Definition lits (b : bytes) : list part := Lit <$> b.

(** An induction principle that reaches into the lists. *)
Lemma part_ind' (P : part → Prop) :
  (∀ c, P (Lit c)) → (∀ ps, Forall P ps → P (Ref ps)) → ∀ p, P p.
Proof.
  intros Hl Hr. fix IH 1. intros [c|ps]; [apply Hl|]. apply Hr.
  induction ps as [|p ps IHps]; constructor; [apply IH|apply IHps].
Qed.

(** The text a part stands for. *)
Fixpoint fullP (p : part) : bytes :=
  match p with Lit c => [c] | Ref ps => flat_map fullP ps end.
Definition full (ps : list part) : bytes := flat_map fullP ps.

(** How many layers of references it has. *)
Fixpoint depthP (p : part) : nat :=
  match p with Lit _ => 0 | Ref ps => S (foldr Nat.max 0 (map depthP ps)) end.
Definition depth (ps : list part) : nat := foldr Nat.max 0 (map depthP ps).

(** One layer of references replaced. *)
Definition peelP (p : part) : list part := match p with Lit c => [Lit c] | Ref ps => ps end.
Definition peel (ps : list part) : list part := flat_map peelP ps.

(** A predicate of every part moved out, at every layer. *)
Fixpoint allRefs (P : list part → Prop) (p : part) : Prop :=
  match p with
  | Lit _ => True
  | Ref ps => P ps ∧ (fix go l := match l with [] => True | q :: l => allRefs P q ∧ go l end) ps
  end.
Definition moved (P : list part → Prop) (ps : list part) : Prop := Forall (allRefs P) ps.

Lemma allRefs_Ref P ps : allRefs P (Ref ps) ↔ P ps ∧ moved P ps.
Proof.
  unfold moved. simpl. apply and_iff_compat_l. induction ps as [|p ps IH]; [by split; constructor|].
  rewrite Forall_cons, IH. done.
Qed.

Lemma full_app ps qs : full (ps ++ qs) = full ps ++ full qs.
Proof. apply flat_map_app. Qed.
Lemma full_lits b : full (lits b) = b.
Proof. induction b; simpl; [done|]. by f_equal. Qed.
Lemma depth_app ps qs : depth (ps ++ qs) = Nat.max (depth ps) (depth qs).
Proof. unfold depth. induction ps; simpl; lia. Qed.
Lemma depth_lits b : depth (lits b) = 0.
Proof. induction b; simpl; [done|]. exact IHb. Qed.
Lemma moved_app P ps qs : moved P (ps ++ qs) ↔ moved P ps ∧ moved P qs.
Proof. apply Forall_app. Qed.
Lemma moved_lits P b : moved P (lits b).
Proof. induction b; constructor; done. Qed.

Lemma moved_impl (P Q : list part → Prop) ps : (∀ qs, P qs → Q qs) → moved P ps → moved Q ps.
Proof.
  intros H Hm. unfold moved in *. eapply Forall_impl; [exact Hm|]. clear Hm. intros p. induction p as [c|qs IH] using part_ind'; [done|].
  rewrite !allRefs_Ref. intros [HP Hm]. split; [by apply H|].
  unfold moved in *. rewrite Forall_forall in *. auto.
Qed.

Lemma moved_and (P Q : list part → Prop) ps :
  moved P ps → moved Q ps → moved (λ qs, P qs ∧ Q qs) ps.
Proof.
  assert (∀ p, allRefs P p → allRefs Q p → allRefs (λ qs, P qs ∧ Q qs) p) as Hp.
  { intros p. induction p as [c|qs IH] using part_ind'; [done|]. rewrite !allRefs_Ref.
    intros [? H1] [? H2]. split; [done|]. unfold moved in *. rewrite Forall_forall in *. auto. }
  unfold moved. rewrite !Forall_forall. auto.
Qed.

Lemma peel_app ps qs : peel (ps ++ qs) = peel ps ++ peel qs.
Proof. apply flat_map_app. Qed.

Lemma full_peel ps : full (peel ps) = full ps.
Proof.
  induction ps as [|[c|qs] ps IH]; [done|..]; unfold peel in *; simpl; rewrite ?full_app, <- IH; done.
Qed.

Lemma depth_peel ps : depth (peel ps) = Nat.pred (depth ps).
Proof.
  induction ps as [|[c|qs] ps IH]; [done|..]; unfold peel in *; simpl.
  - unfold depth in *. simpl. exact IH.
  - rewrite depth_app, IH. unfold depth in *. simpl. destruct (foldr Nat.max 0 (map depthP ps)); simpl; lia.
Qed.

Lemma moved_peel P ps : moved P ps → moved P (peel ps).
Proof.
  induction 1 as [|[c|qs] ps Hp _ IH]; [by constructor|by constructor|].
  apply allRefs_Ref in Hp as [_ Hp]. unfold peel. simpl. apply moved_app. by split.
Qed.

Lemma depth_0 ps : depth ps = 0 ↔ ∃ b, ps = lits b.
Proof.
  split.
  - induction ps as [|[c|qs] ps IH]; unfold depth in *; simpl; intros H.
    + by exists [].
    + destruct (IH H) as [b ->]. by exists (c :: b).
    + lia.
  - intros [b ->]. apply depth_lits.
Qed.

(** The text of a nested part occurs in the text of the document. *)
Definition occurs_in (p t : bytes) : Prop := ∃ pre post, t = pre ++ p ++ post.

Lemma occurs_app_l p t u : occurs_in p t → occurs_in p (t ++ u).
Proof. intros (x & y & ->). exists x, (y ++ u). by rewrite <- !app_assoc. Qed.
Lemma occurs_app_r p t u : occurs_in p t → occurs_in p (u ++ t).
Proof. intros (x & y & ->). exists (u ++ x), y. by rewrite <- !app_assoc. Qed.

Section hash.
Variable Sum256 : bytes → bytes.
Hypothesis Sum256_size : ∀ x, length (Sum256 x) = 32.

Local Abbreviation hashOf := (hashOf Sum256).

(** The document's bytes: a reference for every part moved out. *)
Fixpoint renderP (p : part) : bytes :=
  match p with
  | Lit c => [c]
  | Ref ps => referenceStart ++ hashOf (flat_map renderP ps) ++ referenceEnd
  end.
Definition render (ps : list part) : bytes := flat_map renderP ps.

Lemma render_app ps qs : render (ps ++ qs) = render ps ++ render qs.
Proof. apply flat_map_app. Qed.
Lemma render_lits b : render (lits b) = b.
Proof. induction b; simpl; [done|]. by f_equal. Qed.
Lemma render_Ref ps : renderP (Ref ps) = referenceStart ++ hashOf (render ps) ++ referenceEnd.
Proof. done. Qed.

Lemma length_hexEncode x : length (Workspace.hexEncode x) = 2 * length x.
Proof. unfold Workspace.hexEncode. induction x as [|a x IH]; [done|]. rewrite fmap_cons. cbn [concat app length]. rewrite IH. lia. Qed.

Lemma length_hashOf x : length (hashOf x) = hashLength.
Proof. unfold ContentBlob.hashOf, Workspace.hashBytes. by rewrite length_hexEncode, Sum256_size. Qed.

(** *** Finding references *)

Lemma referenceAt_Ref q ps : referenceAt (render (Ref q :: ps)) = Some (hashOf (render q), render ps).
Proof.
  unfold render. cbn [flat_map]. fold (render ps). rewrite render_Ref. unfold referenceAt.
  rewrite <- !app_assoc, has_prefix_app. simpl negb. cbv iota.
  rewrite drop_app_length. rewrite (drop_app_length' (hashOf _)) by (by rewrite length_hashOf).
  rewrite has_prefix_app, drop_app_length, take_app_length' by (by rewrite length_hashOf). done.
Qed.

(** A text without an opening brace can only come from bytes kept in line. *)
Lemma prefix_lits p ps :
  "{"%char ∉ p → has_prefix p (render ps) = true → ∃ ps', ps = lits p ++ ps'.
Proof.
  revert ps. induction p as [|a p IH]; intros ps Hb Hp; [by exists ps|].
  destruct ps as [|[c|q] ps]; [done|..].
  - simpl in Hp. apply andb_true_iff in Hp as [Ha Hp]. apply bool_decide_eq_true in Ha as ->.
    destruct (IH ps) as [ps' ->]; [set_solver|done|]. by exists ps'.
  - exfalso. unfold render in Hp. simpl in Hp. apply andb_true_iff in Hp as [Ha _].
    apply bool_decide_eq_true in Ha as ->. set_solver.
Qed.

Lemma referenceAt_Lit c ps :
  ¬ occurs_in markerText (full (Lit c :: ps)) → referenceAt (render (Lit c :: ps)) = None.
Proof.
  intros Hm. unfold referenceAt. destruct (has_prefix referenceStart (render (Lit c :: ps))) eqn:E; [|done].
  exfalso. apply Hm. unfold render in E. cbn [flat_map renderP app] in E.
  unfold referenceStart in E. cbn [app has_prefix] in E. apply andb_true_iff in E as [_ E].
  change (flat_map renderP ps) with (render ps) in E.
  apply (prefix_lits (QUOTE :: escapedOpen ++ bs "peen-blob" ++ escapedClose ++ [QUOTE; ":"%char; QUOTE])) in E
    as [ps' ->].
  - unfold full. cbn [flat_map fullP]. change (flat_map fullP ?x) with (full x).
    rewrite full_app, full_lits. exists [c; QUOTE], (escapedClose ++ [QUOTE; ":"%char; QUOTE] ++ full ps').
    unfold markerText. by rewrite <- !app_assoc.
  - apply (bool_decide_unpack _). vm_compute. exact I.
Qed.

Lemma nextReference_render ps :
  ¬ occurs_in markerText (full ps) →
  match nextReference (render ps) with
  | None => ∃ b, ps = lits b
  | Some (before, hash, next) =>
      ∃ q rest, ps = lits before ++ Ref q :: rest ∧ hash = hashOf (render q) ∧ next = render rest
  end.
Proof.
  induction ps as [|[c|q] ps IH]; intros Hm.
  - by exists [].
  - assert (Hr : referenceAt (render (Lit c :: ps)) = None) by (by apply referenceAt_Lit).
    assert (Hs : ¬ occurs_in markerText (full ps)).
    { intros H. apply Hm. change (full (Lit c :: ps)) with ([c] ++ full ps). by apply occurs_app_r. }
    specialize (IH Hs). change (render (Lit c :: ps)) with (c :: render ps) in *.
    cbn [nextReference]. rewrite Hr. destruct (nextReference (render ps)) as [[[before hash] next]|].
    + destruct IH as (q & rest & -> & ? & ?). by exists q, rest.
    + destruct IH as [b ->]. by exists (c :: b).
  - pose proof (referenceAt_Ref q ps) as E. destruct (render (Ref q :: ps)) eqn:Er; [done|].
    cbn [nextReference]. rewrite E. by exists q, ps.
Qed.

Lemma render_length_pos p : 0 < length (renderP p).
Proof. destruct p; simpl; lia. Qed.

Lemma lits_length b q rest :
  length (render rest) < length (render (lits b ++ Ref q :: rest)).
Proof.
  rewrite render_app, length_app. unfold render. cbn [flat_map]. rewrite length_app.
  pose proof (render_length_pos (Ref q)). lia.
Qed.

(** *** Splicing one layer *)

Definition top_served (m : gmap bytes bytes) (ps : list part) : Prop :=
  ∀ q, Ref q ∈ ps → m !! hashOf (render q) = Some (render q).

Lemma spliceFrom_render m fuel ps :
  length (render ps) < fuel → ¬ occurs_in markerText (full ps) → top_served m ps →
  spliceFrom fuel (render ps) m = render (peel ps).
Proof.
  revert ps. induction fuel as [|fuel IH]; intros ps Hf Hm Hs; [lia|]. cbn [spliceFrom].
  pose proof (nextReference_render ps Hm) as Hn.
  destruct (nextReference (render ps)) as [[[before hash] next]|].
  - destruct Hn as (q & rest & -> & -> & ->). rewrite Hs by set_solver. simpl.
    rewrite peel_app. unfold peel at 2. cbn [flat_map peelP]. fold (peel rest).
    rewrite !render_app. f_equal.
    + clear. induction before; [done|]. unfold peel in *. simpl. by f_equal.
    + f_equal. apply IH.
      * pose proof (lits_length before q rest). lia.
      * intros H. apply Hm. rewrite full_app. apply occurs_app_r.
        change (full (Ref q :: rest)) with (fullP (Ref q) ++ full rest). by apply occurs_app_r.
      * intros q' Hq. apply Hs. set_solver.
  - destruct Hn as [b ->]. f_equal. clear. induction b; [done|]. unfold peel in *. simpl. by f_equal.
Qed.

Lemma splice_render m ps :
  ¬ occurs_in markerText (full ps) → top_served m ps → splice (render ps) m = render (peel ps).
Proof. intros. apply spliceFrom_render; [lia|done..]. Qed.

Lemma referencesFrom_render fuel ps hs h :
  length (render ps) < fuel → ¬ occurs_in markerText (full ps) →
  h ∈ referencesFrom fuel (render ps) hs ↔ h ∈ hs ∨ ∃ q, Ref q ∈ ps ∧ h = hashOf (render q).
Proof.
  revert ps hs. induction fuel as [|fuel IH]; intros ps hs Hf Hm; [lia|]. cbn [referencesFrom].
  pose proof (nextReference_render ps Hm) as Hn.
  destruct (nextReference (render ps)) as [[[before hash] next]|].
  - destruct Hn as (q & rest & -> & -> & ->). rewrite IH.
    + assert (∀ q', Ref q' ∉ lits before) as Hl.
      { intros q' (x & ? & _)%list_elem_of_fmap. done. }
      case_bool_decide as Hin; split.
      * intros [?|(q' & ? & ->)]; [by left|]. right. exists q'. split; [set_solver|done].
      * intros [?|(q' & Hq & ->)]; [by left|]. apply elem_of_app in Hq as [Hq|Hq]; [by apply Hl in Hq|].
        apply elem_of_cons in Hq as [Hq|Hq]; [injection Hq as ->; by left|right; eauto].
      * intros [Hx|(q' & ? & ->)].
        -- apply elem_of_app in Hx as [?| ->%list_elem_of_singleton]; [by left|].
           right. exists q. split; [set_solver|done].
        -- right. exists q'. split; [set_solver|done].
      * intros [?|(q' & Hq & ->)]; [left; set_solver|]. apply elem_of_app in Hq as [Hq|Hq]; [by apply Hl in Hq|].
        apply elem_of_cons in Hq as [Hq|Hq]; [injection Hq as ->; left; set_solver|right; eauto].
    + pose proof (lits_length before q rest). lia.
    + intros H. apply Hm. rewrite full_app. apply occurs_app_r.
      change (full (Ref q :: rest)) with (fullP (Ref q) ++ full rest). by apply occurs_app_r.
  - destruct Hn as [b ->]. split; [by left|]. intros [?|(q & Hq & _)]; [done|].
    by apply list_elem_of_fmap in Hq as (x & ? & _).
Qed.

Lemma referencesFrom_NoDup fuel body hs : NoDup hs → NoDup (referencesFrom fuel body hs).
Proof.
  revert body hs. induction fuel as [|fuel IH]; intros body hs Hn; [done|]. cbn [referencesFrom].
  destruct (nextReference body) as [[[before hash] next]|]; [|done]. apply IH.
  case_bool_decide; [done|]. apply NoDup_app. split_and!; [done| |apply NoDup_singleton].
  intros h Hh ->%list_elem_of_singleton. done.
Qed.

Lemma referencesIn_render ps h :
  ¬ occurs_in markerText (full ps) →
  h ∈ referencesIn (render ps) ↔ ∃ q, Ref q ∈ ps ∧ h = hashOf (render q).
Proof.
  intros. unfold referencesIn. rewrite referencesFrom_render by (done || lia).
  split; [intros [?%elem_of_nil|?]; done|by right].
Qed.

Lemma referencesIn_nil ps :
  ¬ occurs_in markerText (full ps) → referencesIn (render ps) = [] ↔ depth ps = 0.
Proof.
  intros Hm. rewrite depth_0. split.
  - intros E. assert (∀ q, Ref q ∉ ps) as Hq.
    { intros q Hq. assert (hashOf (render q) ∈ referencesIn (render ps)) as H; [|rewrite E in H; set_solver].
      apply referencesIn_render; eauto. }
    clear E Hm. induction ps as [|[c|q] ps IH].
    + by exists [].
    + destruct IH as [b ->]; [set_solver|]. by exists (c :: b).
    + exfalso. apply (Hq q). left.
  - intros [b ->]. apply elem_of_nil_inv. intros h. rewrite referencesIn_render by done.
    intros (q & Hq & _). by apply list_elem_of_fmap in Hq as (x & ? & _).
Qed.

(** *** Expanding layer by layer *)

(** A fetch that, as long as [I] holds of its state, answers the blobs of [D]. *)
Definition serves {S} (I : S → Prop) (fetch : FetchFunc S) (D : bytes → bytes → Prop) : Prop :=
  ∀ hs s, I s → NoDup hs → (∀ h, h ∈ hs → ∃ d, D h d) →
  ∃ m s', fetch hs s = (Ok m, s') ∧ I s' ∧ ∀ h d, h ∈ hs → D h d → m !! h = Some d.

Lemma expandLayers_render {S} (I : S → Prop) fetch D n ps s :
  serves I fetch D → I s → ¬ occurs_in markerText (full ps) →
  moved (λ q, D (hashOf (render q)) (render q)) ps →
  ∃ s', I s' ∧ expandLayers n fetch (render ps) s =
    (if bool_decide (depth ps < n) then Ok (full ps) else Err ErrValidationFailed, s').
Proof.
  intros Hf. revert ps s. induction n as [|n IH]; intros ps s Hs Hm Hd.
  - exists s. split; [done|]. cbn [expandLayers]. by rewrite bool_decide_eq_false_2 by lia.
  - cbn [expandLayers]. destruct (decide (depth ps = 0)) as [H0|H0].
    + rewrite (bool_decide_eq_true_2 (referencesIn _ = [])) by (by apply referencesIn_nil).
      exists s. split; [done|].
      rewrite (bool_decide_eq_true_2 (depth ps < _)) by lia. apply depth_0 in H0 as [b ->].
      by rewrite render_lits, full_lits.
    + rewrite (bool_decide_eq_false_2 (referencesIn _ = [])) by (by rewrite referencesIn_nil).
      assert (Htop : ∀ q, Ref q ∈ ps → D (hashOf (render q)) (render q)).
      { intros q Hq. unfold moved in Hd. rewrite Forall_forall in Hd. by apply Hd, allRefs_Ref in Hq as [? _]. }
      destruct (Hf (referencesIn (render ps)) s Hs) as (m & s1 & -> & Hs1 & Hmap).
      { apply referencesFrom_NoDup, NoDup_nil_2. }
      { intros h (q & Hq & ->)%referencesIn_render; eauto. }
      assert (Hserved : top_served m ps).
      { intros q Hq. apply Hmap; [apply referencesIn_render; eauto|by apply Htop]. }
      rewrite (bool_decide_eq_true_2 (Forall _ _)).
      2:{ apply Forall_forall. intros h (q & Hq & ->)%referencesIn_render; [|done]. rewrite Hserved; eauto. }
      rewrite splice_render by done.
      destruct (IH (peel ps) s1 Hs1) as (s2 & Hs2 & E).
      { by rewrite full_peel. } { by apply moved_peel. }
      exists s2. split; [done|]. rewrite E, full_peel, depth_peel. f_equal.
      destruct (depth ps); [done|]. simpl. repeat case_bool_decide; done || lia.
Qed.

(** *** Sizes *)

Definition big (q : list part) : Prop := MinBlobBytes ≤ length (render q).

Lemma full_cons p ps : full (p :: ps) = fullP p ++ full ps.
Proof. done. Qed.
Lemma render_cons p ps : render (p :: ps) = renderP p ++ render ps.
Proof. done. Qed.
Lemma depth_cons p ps : depth (p :: ps) = Nat.max (depthP p) (depth ps).
Proof. done. Qed.

Definition referenceLength : nat := 92.
Lemma length_renderRef q : length (renderP (Ref q)) = referenceLength.
Proof. rewrite render_Ref, !length_app, length_hashOf. done. Qed.

(** Every layer stands for at least this much text of its own. *)
Definition layerBytes : nat := MinBlobBytes - referenceLength.

Lemma length_Ref q : moved big [Ref q] →
  length (render q) + layerBytes * depth q ≤ length (full q) →
  length (renderP (Ref q)) + layerBytes * depthP (Ref q) ≤ length (fullP (Ref q)).
Proof.
  intros Hq H. inversion Hq as [|? ? Hb _]. apply allRefs_Ref in Hb as [Hb _]. rewrite length_renderRef.
  change (depthP (Ref q)) with (S (depth q)). change (fullP (Ref q)) with (full q).
  unfold big, layerBytes, MinBlobBytes, referenceLength in *. lia.
Qed.

Lemma length_parts ps :
  Forall (λ p, length (renderP p) + layerBytes * depthP p ≤ length (fullP p)) ps →
  length (render ps) + layerBytes * depth ps ≤ length (full ps).
Proof.
  induction 1 as [|p ps Hp _ IH]; [unfold depth; simpl; lia|].
  rewrite render_cons, full_cons, depth_cons, !length_app. nia.
Qed.

(** A document stands for at least its own length and [layerBytes] for each layer. *)
Lemma layers_length ps :
  moved big ps → length (render ps) + layerBytes * depth ps ≤ length (full ps).
Proof.
  intros Hm. apply length_parts. unfold moved in Hm. induction Hm as [|p ps Hp _ IH]; constructor; [|done].
  clear IH. induction p as [c|q IH] using part_ind'; [simpl; lia|].
  apply length_Ref; [by constructor|]. apply allRefs_Ref in Hp as [_ Hp].
  apply length_parts. unfold moved in Hp. rewrite Forall_forall in *. auto.
Qed.

End hash.
End BlobLayers.
