(* ===== verification/BlobCompact.v ===== *)
(** What [Compact] of contentblob.go does to a document: the tree of the parts it
    moves out, the blobs it stores and the fuel it needs; and what [Expand] makes of
    the result. *)
From stdpp Require Import base gmap sets list strings.
From Stdlib Require Import ZArith Lia Ascii.
From S2P Require Import Prelude GoBytes Json Workspace ContentBlob BlobLayers.

Module BlobCompact.
Import ContentBlob BlobLayers.

(** ** Where the scanner's indices point *)

Lemma between_app (w to : bytes) : between (w ++ to) to = w.
Proof. unfold between. rewrite length_app. apply take_app_length'. lia. Qed.

Lemma between_suffix (from to : bytes) : to `suffix_of` from → from = between from to ++ to.
Proof. intros [w ->]. by rewrite between_app. Qed.

Lemma skipSpace_suffix raw : skipSpace raw `suffix_of` raw.
Proof.
  induction raw as [|c raw IH]; [done|]. simpl. destruct (Json.is_space c); [|done].
  by apply suffix_cons_r.
Qed.

Lemma drop_suffix_of {A} n (l : list A) : drop n l `suffix_of` l.
Proof. exists (take n l). by rewrite take_drop. Qed.

Lemma stringLiteralEnd_suffix raw close :
  stringLiteralEnd raw = Some close → close `suffix_of` raw ∧ close ≠ [].
Proof.
  remember (length raw) as n eqn:Hn. revert raw Hn. induction n as [n IH] using lt_wf_ind.
  intros [|c rest] Hn; [done|]. simpl. case_bool_decide.
  - destruct rest as [|d rest]; [done|]. intros H'.
    destruct (IH (length rest)) with (raw := rest) as [Hs ?]; [simpl in Hn; lia|done|done|].
    split; [|done]. by do 2 apply suffix_cons_r.
  - case_bool_decide; [intros [= <-]; by split|]. intros H'.
    destruct (IH (length rest)) with (raw := rest) as [Hs ?]; [simpl in Hn; lia|done|done|].
    split; [|done]. by apply suffix_cons_r.
Qed.

Lemma primitiveEnd_suffix raw : primitiveEnd raw `suffix_of` raw.
Proof.
  induction raw as [|c raw IH]; [done|]. simpl. destruct (endsPrimitive c); [done|].
  by apply suffix_cons_r.
Qed.

Lemma startsWith_cons c raw : startsWith c raw = true → raw = c :: drop 1 raw.
Proof. unfold startsWith. intros H%bool_decide_eq_true. destruct raw; naive_solver. Qed.

Lemma memberValue_suffix index v :
  memberValue index = Ok v → v `suffix_of` index ∧ length v < length index.
Proof.
  unfold memberValue. destruct (startsWith QUOTE index) eqn:E; [|done]. apply startsWith_cons in E.
  cbn [negb]. destruct (stringLiteralEnd (drop 1 index)) as [close|] eqn:Hc; [|done].
  apply stringLiteralEnd_suffix in Hc as [Hc _].
  destruct (startsWith ":" _); [|done]. cbn [negb]. intros [= <-].
  assert (skipSpace (drop 1 (skipSpace (drop 1 close))) `suffix_of` drop 1 index) as Hs.
  { etrans; [apply skipSpace_suffix|]. etrans; [apply drop_suffix_of|].
    etrans; [apply skipSpace_suffix|]. by etrans; [apply drop_suffix_of|]. }
  split; [etrans; [exact Hs|apply drop_suffix_of]|].
  apply suffix_length in Hs. rewrite E. simpl in *. lia.
Qed.

Lemma separator_suffix raw closing next closed :
  separator raw closing = Ok (next, closed) →
  next `suffix_of` raw ∧ (if closed : bool then next = closing :: drop 1 next else length next < length raw).
Proof.
  unfold separator. pose proof (skipSpace_suffix raw) as Hs.
  destruct (skipSpace raw) as [|c tail] eqn:E; [done|].
  case_bool_decide; [|case_bool_decide; [|done]]; intros [= <- <-].
  - assert (skipSpace tail `suffix_of` c :: tail) as Ht.
    { etrans; [apply skipSpace_suffix|]. by apply suffix_cons_r. }
    split; [by etrans|]. apply suffix_length in Hs. pose proof (suffix_length _ _ (skipSpace_suffix tail)).
    simpl in *. lia.
  - subst. by split.
Qed.

Lemma memberValue_returns index : returns (memberValue index).
Proof. unfold memberValue. repeat case_match; done. Qed.
Lemma separator_returns raw closing : returns (separator raw closing).
Proof. unfold separator. repeat case_match; done. Qed.

Lemma index_sub_None sub s : sub ≠ [] → index_sub sub s = None → ¬ occurs_in sub s.
Proof.
  intros Hne. induction s as [|c s IH]; intros H (pre & post & E).
  - destruct sub; [done|]. by destruct pre.
  - cbn [index_sub] in H. destruct (has_prefix sub (c :: s)) eqn:Hp; [done|].
    destruct pre as [|c' pre].
    + rewrite E in Hp. simpl in Hp. by rewrite has_prefix_app in Hp.
    + injection E as -> ->. apply IH; [by destruct (index_sub sub (pre ++ sub ++ post))|by exists pre, post].
Qed.

Section hash.
Variable Sum256 : bytes → bytes.

Local Abbreviation hashOf := (hashOf Sum256).
Local Abbreviation render := (render Sum256).

(** ** The blobs stored so far *)

Definition stored (c : compactor) (h : bytes) : Prop := h ∈ Hash <$> blobs c.

Record cinv (c : compactor) : Prop := {
  cinv_seen : ∀ h, h ∈ seen c ↔ stored c h;
  cinv_hashes : NoDup (Hash <$> blobs c);
  cinv_blobs : Forall (λ b, Hash b = hashOf (Data b) ∧ MinBlobBytes ≤ length (Data b)) (blobs c) }.

Definition grows (c c' : compactor) : Prop := blobs c `prefix_of` blobs c'.

#[export] Instance grows_preorder : PreOrder grows.
Proof. unfold grows. split; [by intros c|]. intros c c' c'' H1 H2. by etrans. Qed.

Lemma grows_stored c c' h : grows c c' → stored c h → stored c' h.
Proof. unfold grows, stored. intros [l ->]. rewrite fmap_app. set_solver. Qed.

(** Every part moved out is long and has a blob stored under its hash. *)
Definition kept (c : compactor) (ps : list part) : Prop :=
  moved (λ q, stored c (hashOf (render q)) ∧ big Sum256 q) ps.

Lemma kept_grows c c' ps : grows c c' → kept c ps → kept c' ps.
Proof. intros Hg. apply moved_impl. intros q [??]. split; [by eapply grows_stored|done]. Qed.

Lemma kept_app c ps qs : kept c (ps ++ qs) ↔ kept c ps ∧ kept c qs.
Proof. apply moved_app. Qed.
Lemma kept_lits c b : kept c (lits b).
Proof. apply moved_lits. Qed.

(** A step either stores nothing, or leaves a reference in what it returns. *)
Definition step_ok (c c' : compactor) (ps : list part) : Prop :=
  cinv c' ∧ grows c c' ∧ kept c' ps ∧ (blobs c' = blobs c ∨ 0 < depth ps).

Lemma reference_ok q c ref c' :
  cinv c → MinBlobBytes ≤ length (render q) → kept c q → reference Sum256 (render q) c = (ref, c') →
  ref = render [Ref q] ∧ step_ok c c' [Ref q].
Proof.
  intros Hc Hl Hk. unfold reference. intros [= <- <-].
  split; [unfold BlobLayers.render; cbn [flat_map]; by rewrite app_nil_r|].
  assert (Hd : 0 < depth [Ref q]) by (unfold depth; simpl; lia).
  assert (Hn : ∀ c', grows c c' → stored c' (hashOf (render q)) → kept c' [Ref q]).
  { intros c' Hg Hs. unfold kept, moved. apply Forall_singleton. rewrite allRefs_Ref.
    split; [done|]. by apply (kept_grows c c'). }
  case_bool_decide as Hin.
  - split_and!; [done|done| |by right]. apply Hn; [done|]. by apply (cinv_seen c).
  - set (c' := mkCompactor _ _).
    assert (Hg : grows c c') by (by exists [mkBlob (hashOf (render q)) (render q)]).
    assert (Hs : stored c' (hashOf (render q))) by (unfold stored, c'; simpl; rewrite fmap_app; set_solver).
    split_and!; [|done|by apply Hn|by right].
    destruct Hc as [Hseen Hnd Hb]. split.
    + intros h. unfold c', stored. simpl. rewrite fmap_app, elem_of_union, elem_of_app, Hseen. unfold stored. set_solver.
    + unfold c'. simpl. rewrite fmap_app. apply NoDup_app. split_and!; [done| |apply NoDup_singleton].
      intros h Hh ->%list_elem_of_singleton. apply Hin. by apply Hseen.
    + unfold c'. simpl. apply Forall_app. split; [done|]. by apply Forall_singleton.
Qed.

(** ** Runs of array elements *)

(** An element, with the tree its bytes stand for. *)
Definition elem : Type := bytes * list part.
Definition toElement (e : elem) : arrayElement := mkElement e.1 (render e.2).
Definition treeOf (es : list elem) : list part := flat_map (λ e, lits e.1 ++ e.2) es.
Definition spanTree (es : list elem) : list part :=
  match es with [] => [] | e :: es => e.2 ++ treeOf es end.

Lemma treeOf_app es fs : treeOf (es ++ fs) = treeOf es ++ treeOf fs.
Proof. apply flat_map_app. Qed.

Lemma runRest_tree es : runRest (toElement <$> es) = render (treeOf es).
Proof.
  induction es as [|[g t] es IH]; [done|]. rewrite fmap_cons. cbn [runRest toElement gap compacted fst snd].
  rewrite IH. unfold treeOf. cbn [flat_map fst snd]. rewrite !render_app, render_lits.
  by rewrite <- app_assoc.
Qed.

Lemma runSpan_tree es : runSpan (toElement <$> es) = render (spanTree es).
Proof.
  destruct es as [|[g t] es]; [done|]. rewrite fmap_cons. cbn [runSpan toElement compacted spanTree snd].
  by rewrite runRest_tree, render_app.
Qed.

(** The element that stands for a run: its first gap and one reference. *)
Definition runElem (run : list elem) : elem := (default [] (fst <$> head run), [Ref (spanTree run)]).

Lemma runElem_gap run : default [] (gap <$> head (toElement <$> run)) = (runElem run).1.
Proof. by destruct run. Qed.

Lemma runElem_full run : run ≠ [] → full (treeOf [runElem run]) = full (treeOf run).
Proof.
  destruct run as [|[g t] run]; [done|]. intros _. unfold treeOf. cbn [flat_map runElem fst snd head fmap option_fmap option_map default].
  rewrite app_nil_r, <- !app_assoc, !full_app. f_equal. unfold full at 1. cbn [flat_map]. rewrite app_nil_r.
  change (fullP (Ref ?q)) with (full q). cbn [spanTree snd]. by rewrite full_app.
Qed.

Lemma depth_Ref q : depth [Ref q] = S (depth q).
Proof. unfold depth. simpl. done. Qed.

Lemma runElem_depth run : depth (treeOf run) ≤ depth (treeOf [runElem run]).
Proof.
  destruct run as [|[g t] run]; [unfold depth; simpl; lia|].
  change (treeOf ((g, t) :: run)) with ((lits g ++ t) ++ treeOf run).
  unfold treeOf at 2. cbn [flat_map runElem fst snd]. rewrite app_nil_r, !depth_app, !depth_lits.
  rewrite depth_Ref.
  cbn [spanTree snd]. rewrite depth_app. lia.
Qed.

Lemma kept_spanTree c run : kept c (treeOf run) → kept c (spanTree run).
Proof.
  destruct run as [|[g t] run]; [done|]. change (treeOf ((g, t) :: run)) with ((lits g ++ t) ++ treeOf run).
  rewrite !kept_app. intros [[_ ?] ?]. cbn [spanTree snd]. by rewrite kept_app.
Qed.

(** Elements folded from [es]: the same text, no fewer layers. *)
Definition foldedOf (es fs : list elem) : Prop :=
  full (treeOf fs) = full (treeOf es) ∧ depth (treeOf es) ≤ depth (treeOf fs).

#[export] Instance foldedOf_preorder : PreOrder foldedOf.
Proof.
  split; [by intros es|]. intros es fs gs [??] [??]. split; [congruence|lia].
Qed.

Lemma foldedOf_run folded run elements : run ≠ [] →
  foldedOf (folded ++ run ++ elements) ((folded ++ [runElem run]) ++ elements).
Proof.
  intros Hr. unfold foldedOf. rewrite !treeOf_app, !full_app, !depth_app, runElem_full by done.
  pose proof (runElem_depth run). rewrite <- !app_assoc. split; [done|lia].
Qed.

Lemma foldFrom_ok run elements folded changed c out changed' c' :
  cinv c → kept c (treeOf (folded ++ run ++ elements)) →
  foldFrom Sum256 (toElement <$> run) (toElement <$> elements) (toElement <$> folded) changed c =
    (out, changed', c') →
  (changed' = false → changed = false ∧ c' = c) ∧
  ∃ es, out = toElement <$> es ∧ foldedOf (folded ++ run ++ elements) es ∧ step_ok c c' (treeOf es).
Proof.
  revert run folded changed c. induction elements as [|e elements IH]; intros run folded changed c Hc Hk.
  - cbn [fmap list_fmap foldFrom]. intros [= <- <- <-]. split; [done|]. exists (folded ++ run).
    rewrite app_nil_r in *. split; [by rewrite fmap_app|]. split; [done|]. by split_and!; [|done| |left].
  - rewrite fmap_cons. cbn [foldFrom].
    change ((toElement <$> run) ++ [toElement e]) with ((toElement <$> run) ++ (toElement <$> [e])).
    rewrite <- fmap_app. replace (run ++ e :: elements) with ((run ++ [e]) ++ elements) in *
      by (by rewrite <- app_assoc). rename Hk into Hk'.
    destruct (negb _); [by apply IH|]. rewrite runSpan_tree. case_bool_decide as Hl.
    + rewrite <- fmap_app. change (foldFrom Sum256 []) with (foldFrom Sum256 (toElement <$> [])).
      intros H. apply IH in H; [|done|by rewrite <- app_assoc]. by rewrite <- app_assoc in H.
    + destruct (reference Sum256 (render (spanTree (run ++ [e]))) c) as [ref c1] eqn:Hr.
      assert (Hrun : run ++ [e] ≠ []) by (by destruct run).
      pose proof (foldedOf_run folded (run ++ [e]) elements Hrun) as Hf. revert Hf Hk' Hr Hrun Hl.
      generalize (run ++ [e]). intros run' Hf Hk' Hr Hrun Hl.
      rewrite !treeOf_app, !kept_app in Hk'. destruct Hk' as (Hk1 & Hk2 & Hk3).
      apply reference_ok in Hr as (-> & Hc1 & Hg & Hkr & _); [|done|lia|by apply kept_spanTree].
      rewrite runElem_gap. change (mkElement (runElem run').1 _) with (toElement (runElem run')).
      change [toElement (runElem run')] with (toElement <$> [runElem run']). rewrite <- fmap_app.
      change (foldFrom Sum256 []) with (foldFrom Sum256 (toElement <$> [])).
      assert (Hkn : kept c1 (treeOf [runElem run'])).
      { unfold treeOf. cbn [flat_map runElem fst snd]. rewrite app_nil_r, kept_app. split; [apply kept_lits|done]. }
      intros H. apply IH in H as (Hch & es & -> & Hfs & Hc' & Hg' & Hk' & Hd); [|done|].
      * split; [by intros [? _]%Hch|]. exists es. split; [done|]. cbn [app] in Hfs.
        split; [by etrans|]. split_and!; [done|by etrans|done|]. right. destruct Hfs as [_ Hdep].
        eapply Nat.lt_le_trans; [|exact Hdep]. rewrite !treeOf_app, !depth_app.
        unfold treeOf at 2. cbn [flat_map runElem snd]. rewrite !depth_app. rewrite depth_Ref. lia.
      * cbn [app]. rewrite !treeOf_app, !kept_app. split_and!; [by eapply kept_grows|done|by eapply kept_grows].
Qed.

Lemma foldLevels_ok levels es c out c' :
  cinv c → kept c (treeOf es) → foldLevels Sum256 levels (toElement <$> es) c = (out, c') →
  ∃ fs, out = toElement <$> fs ∧ foldedOf es fs ∧ step_ok c c' (treeOf fs).
Proof.
  revert es c. induction levels as [|levels IH]; intros es c Hc Hk; cbn [foldLevels].
  - intros [= <- <-]. exists es. split; [done|]. split; [done|]. by split_and!; [| | |left].
  - destruct (foldRuns Sum256 (toElement <$> es) c) as [[folded changed] c1] eqn:Hf.
    apply (foldFrom_ok [] es []) in Hf as (Hch & fs & -> & Hfs & Hc1 & Hg & Hk1 & Hd); [|done..].
    cbn [app] in Hfs. destruct changed.
    + intros H. apply IH in H as (gs & -> & Hgs & Hc2 & Hg2 & Hk2 & Hd2); [|done..].
      exists gs. split; [done|]. split; [by etrans|]. split_and!; [done|by etrans|done|].
      destruct Hd2 as [Hb|?]; [|by right]. destruct Hd as [Hb'|?]; [left; congruence|right]. destruct Hgs. lia.
    + destruct Hch as [_ ->]; [done|]. intros [= <- <-]. exists es. split; [done|]. split; [done|].
      by split_and!; [| | |left].
Qed.

(** ** The recursive descent *)

Lemma step_ok_trans c c1 c2 ps qs :
  step_ok c c1 ps → step_ok c1 c2 qs → step_ok c c2 (ps ++ qs).
Proof.
  intros (?&?&?&Hd1) (?&?&?&Hd2). split_and!; [done|by etrans|rewrite kept_app; split; [by eapply kept_grows|done]|].
  rewrite depth_app. destruct Hd1, Hd2; [left; congruence|right; lia..].
Qed.

Lemma step_ok_lits c b : cinv c → step_ok c c (lits b).
Proof. intros. unfold step_ok. split_and!; [done|done|apply kept_lits|by left]. Qed.

(** A result of each of the three functions, for the text it consumed. *)
Definition value_post (start : bytes) (c : compactor) (r : bytes * bytes * compactor) : Prop :=
  let '(out, end_, c') := r in
  ∃ ps, start = full ps ++ end_ ∧ out = render ps ∧ step_ok c c' ps.

Definition members_post (last out : bytes) (c : compactor) (r : bytes * bytes * compactor) : Prop :=
  let '(out', end_, c') := r in
  ∃ ps, last = full ps ++ end_ ∧ out' = out ++ render ps ∧ step_ok c c' ps.

Definition elements_post (last : bytes) (elements : list arrayElement) (c : compactor)
    (r : list arrayElement * bytes * bytes * compactor) : Prop :=
  let '(elements', closing, end_, c') := r in
  ∃ es, elements' = elements ++ (toElement <$> es) ∧
    last = full (treeOf es) ++ closing ++ end_ ∧ step_ok c c' (treeOf es).

Definition value_spec (fuel : nat) : Prop := ∀ start c, cinv c → 2 * length start + 1 ≤ fuel →
  post (λ _, True) (value_post start c) (value Sum256 fuel start c).
Definition members_spec (fuel : nat) : Prop := ∀ last index out c,
  cinv c → index `suffix_of` last → 2 * length index + 2 ≤ fuel →
  post (λ _, True) (members_post last out c) (members Sum256 fuel last index out c).
Definition elements_spec (fuel : nat) : Prop := ∀ last index elements c,
  cinv c → index `suffix_of` last → 2 * length index + 2 ≤ fuel →
  post (λ _, True) (elements_post last elements c) (arrayElements Sum256 fuel last index elements c).

Lemma returns_post {A} (o : outcome A) : returns o → post (λ _, True) (λ a, o = Ok a) o.
Proof. by destruct o. Qed.

Lemma value_step fuel :
  members_spec fuel → elements_spec fuel → value_spec (S fuel).
Proof.
  intros Hmem Helem start c Hc Hf. cbn [value]. destruct start as [|ch rest]; [done|].
  assert (Hkeep : ∀ end_, end_ `suffix_of` ch :: rest →
    value_post (ch :: rest) c (between (ch :: rest) end_, end_, c)).
  { intros end_ Hs. exists (lits (between (ch :: rest) end_)). rewrite full_lits, render_lits.
    split_and!; [by apply between_suffix|done|by apply step_ok_lits..]. }
  case_bool_decide; [|case_bool_decide; [|case_bool_decide]].
  - destruct (stringLiteralEnd rest) as [close|] eqn:Hs; [|done].
    apply stringLiteralEnd_suffix in Hs as [Hs Hne].
    assert (Hend : drop 1 close `suffix_of` ch :: rest).
    { etrans; [apply drop_suffix_of|]. by apply suffix_cons_r. }
    case_bool_decide as Hl; [|by apply Hkeep].
    destruct (reference Sum256 _ c) as [ref c'] eqn:Hr.
    set (text := between (ch :: rest) (drop 1 close)) in *.
    rewrite <- (render_lits Sum256 text) in Hr.
    apply reference_ok in Hr as [-> Hok]; [|done|by rewrite render_lits|apply kept_lits].
    exists [Ref (lits text)]. split_and!; [|done|exact Hok].
    rewrite full_cons. change (fullP (Ref ?q)) with (full q). rewrite full_lits. simpl. rewrite app_nil_r.
    by apply between_suffix.
  - subst ch. assert (Hs : skipSpace rest `suffix_of` rest) by apply skipSpace_suffix.
    destruct (startsWith "}" _).
    + assert (drop 1 (skipSpace rest) `suffix_of` rest) as He by (etrans; [apply drop_suffix_of|done]).
      specialize (Hkeep (drop 1 (skipSpace rest)) (suffix_cons_r _ _ _ He)).
      replace (between ("{"%char :: rest) _) with ("{"%char :: between rest (drop 1 (skipSpace rest))) in Hkeep; [done|].
      destruct He as [w E]. rewrite E at 1 3. rewrite app_comm_cons. by rewrite !between_app.
    + pose proof (suffix_length _ _ Hs). simpl in Hf.
      eapply post_weaken; [apply Hmem; [done|done|lia]|done|].
      intros [[out end_] c'] _ (ps & Hl & -> & Hok). exists (lits ["{"%char] ++ ps).
      rewrite full_app, full_lits, render_app, render_lits. split_and!; [by rewrite Hl|done|..].
      all: by apply (step_ok_trans c c c'); [apply step_ok_lits|].
  - subst ch. assert (Hs : skipSpace rest `suffix_of` rest) by apply skipSpace_suffix.
    pose proof (suffix_length _ _ Hs). simpl in Hf.
    apply (post_bind _ (elements_post rest [] c)).
    + destruct (startsWith "]" _); [|apply Helem; [done|done|lia]].
      exists []. split_and!; [by rewrite app_nil_r| |by apply (step_ok_lits c [])].
      apply between_suffix. by etrans; [apply drop_suffix_of|].
    + intros [[[elements closing] end_] c1] _ (es & -> & Hl & Hok1). cbn [app].
      destruct (foldLevels Sum256 maxRunLevels (toElement <$> es) c1) as [elements c2] eqn:Hfold.
      apply foldLevels_ok in Hfold as (fs & -> & [Hfull Hdep] & Hok2); [|apply Hok1..].
      exists (lits ["["%char] ++ treeOf fs ++ lits closing).
      rewrite !full_app, !full_lits, !render_app, !render_lits, runRest_tree, Hfull.
      split_and!; [by rewrite Hl, <- !app_assoc|done|].
      destruct Hok1 as (? & ? & ? & Hd1), Hok2 as (? & ? & ? & Hd2).
      unfold step_ok. split_and!; [done|by etrans|..].
      * rewrite !kept_app. split_and!; [apply kept_lits|done|apply kept_lits].
      * rewrite !depth_app, !depth_lits. destruct Hd1, Hd2; [left; congruence|right; lia..].
  - case_bool_decide; [done|]. apply Hkeep, primitiveEnd_suffix.
Qed.

Lemma members_step fuel : value_spec fuel → members_spec fuel → members_spec (S fuel).
Proof.
  intros Hval Hmem last index out c Hc Hs Hf. cbn [members].
  eapply post_bind; [apply returns_post, memberValue_returns|]. intros v _ Hv.
  apply memberValue_suffix in Hv as [Hvs Hvl].
  eapply post_bind; [apply Hval; [done|lia]|]. intros [[compacted end_] c1] _ (ps & -> & -> & Hok1).
  eapply post_bind; [apply returns_post, separator_returns|]. intros [next closed] _ Hsep.
  apply separator_suffix in Hsep as [Hns Hn].
  assert (Hlast : last = between last (full ps ++ end_) ++ full ps ++ end_) by (apply between_suffix; by etrans).
  set (w := between last _) in *.
  assert (Hok : step_ok c c1 (lits w ++ ps)) by (by apply (step_ok_trans c c c1); [apply step_ok_lits|]).
  rewrite length_app in Hvl. destruct closed.
  - exists ((lits w ++ ps) ++ lits (between end_ (drop 1 next))).
    rewrite !full_app, !full_lits, !render_app, !render_lits. split_and!.
    + rewrite Hlast, <- !app_assoc. do 2 f_equal. apply between_suffix. by etrans; [apply drop_suffix_of|].
    + by rewrite <- !app_assoc.
    + apply (step_ok_trans c c1 c1); [done|apply step_ok_lits, Hok].
  - eapply post_weaken; [apply Hmem; [apply Hok1|done|lia]|done|].
    intros [[out' end2] c2] _ (qs & -> & -> & Hok2). exists ((lits w ++ ps) ++ qs).
    rewrite !full_app, !full_lits, !render_app, !render_lits.
    split_and!; [by rewrite Hlast, <- !app_assoc|by rewrite <- !app_assoc|..].
    all: by apply (step_ok_trans c c1 c2).
Qed.

Lemma elements_step fuel : value_spec fuel → elements_spec fuel → elements_spec (S fuel).
Proof.
  intros Hval Helem last index elements c Hc Hs Hf. cbn [arrayElements].
  eapply post_bind; [apply Hval; [done|lia]|]. intros [[compacted end_] c1] _ (ps & -> & -> & Hok1).
  eapply post_bind; [apply returns_post, separator_returns|]. intros [next closed] _ Hsep.
  apply separator_suffix in Hsep as [Hns Hn].
  assert (Hlast : last = between last (full ps ++ end_) ++ full ps ++ end_) by (by apply between_suffix).
  set (w := between last _) in *. rewrite length_app in Hf.
  assert (Hok : step_ok c c1 (treeOf [(w, ps)])).
  { unfold treeOf. cbn [flat_map fst snd]. rewrite app_nil_r.
    by apply (step_ok_trans c c c1); [apply step_ok_lits|]. }
  assert (Hfull : full (treeOf [(w, ps)]) = w ++ full ps).
  { unfold treeOf. cbn [flat_map fst snd]. by rewrite app_nil_r, full_app, full_lits. }
  destruct closed.
  - exists [(w, ps)]. split_and!; [done| |exact Hok].
    rewrite Hfull, Hlast, <- !app_assoc. do 2 f_equal.
    apply between_suffix. by etrans; [apply drop_suffix_of|].
  - eapply post_weaken; [apply Helem; [apply Hok1|done|lia]|done|].
    intros [[[elements' closing] end2] c2] _ (es & -> & -> & Hok2). exists ((w, ps) :: es).
    change ((w, ps) :: es) with ([(w, ps)] ++ es). rewrite treeOf_app.
    split_and!; [by rewrite fmap_app, <- app_assoc|by rewrite full_app, Hfull, Hlast, <- !app_assoc|..].
    all: by apply (step_ok_trans c c1 c2).
Qed.

Lemma descent_ok fuel : value_spec fuel ∧ members_spec fuel ∧ elements_spec fuel.
Proof.
  induction fuel as [|fuel (Hv & Hm & He)].
  - split_and!; red; intros; lia.
  - split_and!; [by apply value_step|by apply members_step|by apply elements_step].
Qed.

Lemma cinv_empty : cinv (mkCompactor [] ∅).
Proof. split; [intros h; unfold stored; set_solver|constructor|constructor]. Qed.

(** ** [Compact] as a whole *)

(** The compacted form of a document: the tree it was taken apart into, and blobs
    that hold its parts. *)
Record compactedAs (raw out : bytes) (bs : list Blob) (ps : list part) : Prop := {
  ca_full : full ps = raw;
  ca_out : out = envelopePrefix ++ render ps ++ envelopeSuffix;
  ca_marker : ¬ occurs_in markerText raw;
  ca_depth : 0 < depth ps;
  ca_hashes : NoDup (Hash <$> bs);
  ca_blobs : Forall (λ b, Hash b = hashOf (Data b) ∧ MinBlobBytes ≤ length (Data b)) bs;
  ca_kept : moved (λ q, hashOf (render q) ∈ Hash <$> bs ∧ big Sum256 q) ps }.

Lemma Compact_cases raw : ∃ out bs, Compact Sum256 raw = Ok (out, bs) ∧
  ((out = raw ∧ bs = []) ∨ (bs ≠ [] ∧ Json.Valid raw = true ∧ ∃ ps, compactedAs raw out bs ps)).
Proof.
  assert (Hwhole : ∃ out bs, Ok (raw, []) = Ok (out, bs) ∧ ((out = raw ∧ bs = []) ∨ (bs ≠ [] ∧
    Json.Valid raw = true ∧ ∃ ps, compactedAs raw out bs ps))) by (exists raw, []; split; [done|by left]).
  unfold Compact. destruct (_ || _ || _) eqn:Hg; [exact Hwhole|]. read_guards.
  destruct (descent_ok (valueFuel raw)) as [Hv _].
  assert (Hs : skipSpace raw `suffix_of` raw) by apply skipSpace_suffix.
  pose proof (suffix_length _ _ Hs). specialize (Hv (skipSpace raw) (mkCompactor [] ∅) cinv_empty).
  destruct (value Sum256 _ _ _) as [[[body end_] c]|e| |] eqn:E; [|exact Hwhole|by destruct Hv; unfold valueFuel; lia..].
  destruct Hv as (ps & Hfull & -> & Hc & Hg' & Hk & Hd); [unfold valueFuel; lia|].
  case_bool_decide as Hend; cbn [negb]; [|exact Hwhole].
  case_bool_decide as Hb; [exact Hwhole|].
  do 2 eexists. split; [done|]. right. split; [done|]. split; [done|].
  exists (lits (between raw (skipSpace raw)) ++ ps ++ lits end_). split.
  - rewrite !full_app, !full_lits, <- Hfull. symmetry. by apply between_suffix.
  - rewrite !render_app, !render_lits, <- !app_assoc. done.
  - apply index_sub_None; [done|]. destruct (index_sub markerText raw) eqn:Hi; [exfalso|done].
    match goal with H : ¬ (_ ≠ None) |- _ => by apply H end.
  - rewrite !depth_app, !depth_lits. destruct Hd; [done|lia].
  - apply Hc.
  - apply Hc.
  - rewrite !moved_app. split_and!; [apply moved_lits|exact Hk|apply moved_lits].
Qed.

Lemma IsCompacted_envelope body : IsCompacted (envelopePrefix ++ body ++ envelopeSuffix) = true.
Proof.
  unfold IsCompacted. rewrite has_prefix_app. apply has_suffix_spec. exists (envelopePrefix ++ body).
  by rewrite <- app_assoc.
Qed.

Lemma envelopeBody_envelope body : envelopeBody (envelopePrefix ++ body ++ envelopeSuffix) = Ok body.
Proof.
  unfold envelopeBody. apply slice_mid; [done|]. rewrite !length_app. lia.
Qed.

(** No part of the document shares its hash with the data of another blob. *)
Definition noCollision (raw : bytes) (bs : list Blob) : Prop := ∀ ps, full ps = raw →
  moved (λ q, ∀ b, b ∈ bs → Hash b = hashOf (render q) → Data b = render q) ps.

End hash.

(** What a fetch from a store that holds [bs] answers. *)
Definition holds {S} (I : S → Prop) (fetch : FetchFunc S) (bs : list Blob) : Prop :=
  serves I fetch (λ h d, mkBlob h d ∈ bs).

Section theorems.
Variable Sum256 : bytes → bytes.
Hypothesis Sum256_size : ∀ x, length (Sum256 x) = 32.

Lemma Expand_compactedAs {S} (I : S → Prop) fetch s raw out bs ps :
  compactedAs Sum256 raw out bs ps → noCollision Sum256 raw bs → holds I fetch bs → I s →
  ∃ s', I s' ∧ Expand out fetch s =
    (if bool_decide (depth ps < maxExpandDepth) then Ok raw else Err ErrValidationFailed, s').
Proof.
  intros [Hfull -> Hm Hd Hn Hb Hk] Hcol Hf Hs. unfold Expand.
  rewrite IsCompacted_envelope, envelopeBody_envelope. cbn [negb]. rewrite <- Hfull in Hm |- *.
  rewrite bool_decide_eq_false_2 by (rewrite referencesIn_nil by done; lia).
  apply (expandLayers_render Sum256 Sum256_size I fetch (λ h d, mkBlob h d ∈ bs)); [done..|].
  pose proof (moved_and _ _ _ Hk (Hcol ps Hfull)) as Hboth.
  eapply moved_impl; [|exact Hboth]. clear -Hb. intros q [[Hin _] Hc]. simpl.
  apply list_elem_of_fmap in Hin as (b & Hh & Hin). specialize (Hc b Hin (eq_sym Hh)).
  rewrite Forall_forall in Hb. destruct (Hb b Hin) as [Hbh _]. rewrite Hh, <- Hc. by destruct b.
Qed.

Lemma compactedAs_length raw out bs ps : compactedAs Sum256 raw out bs ps →
  length out + layerBytes * depth ps ≤ length raw + length envelopePrefix + length envelopeSuffix.
Proof.
  intros [<- -> _ _ _ _ Hk]. rewrite !length_app.
  pose proof (layers_length Sum256 Sum256_size ps (moved_impl _ _ _ (λ q Hq, proj2 Hq) Hk)). lia.
Qed.

Lemma compactedAs_deep raw out bs ps : compactedAs Sum256 raw out bs ps → maxExpandDepth ≤ depth ps →
  maxExpandDepth * layerBytes ≤ length raw.
Proof.
  intros [<- _ _ _ _ _ Hk] Hd.
  pose proof (layers_length Sum256 Sum256_size ps (moved_impl _ _ _ (λ q Hq, proj2 Hq) Hk)). nia.
Qed.

End theorems.
End BlobCompact.
