(* ===== verification/BlobTheorems.v ===== *)
(** The contract of contentblob.go: [Compact] always answers, stores each part once
    and shortens what it rewrites; [Expand] of the result is the document again,
    byte for byte, with the two exceptions proved at the end. *)
From stdpp Require Import base gmap sets list strings.
From Stdlib Require Import ZArith Lia Ascii.
From S2P Require Import Prelude GoBytes Json Workspace ContentBlob BlobLayers BlobCompact.

Module BlobTheorems.
Import ContentBlob BlobLayers BlobCompact.

(** ** A store that answers what was put into it *)

Definition blobMap (bs : list Blob) : gmap bytes bytes := list_to_map ((λ b, (Hash b, Data b)) <$> bs).
Definition storeFetch (bs : list Blob) : FetchFunc unit := λ _ s, (Ok (blobMap bs), s).

Lemma storeFetch_holds bs : NoDup (Hash <$> bs) → holds (λ _, True) (storeFetch bs) bs.
Proof.
  intros Hnd hs s _ _ _. do 2 eexists. split; [done|]. split; [done|]. intros h d _ Hin.
  apply elem_of_list_to_map.
  - by rewrite <- list_fmap_compose.
  - apply list_elem_of_fmap. by exists (mkBlob h d).
Qed.

(** ** The theorems *)

(** Compacting ends for every document, with the document itself and no blobs,
    or with blobs of distinct hashes, each under the hash of its data and at least
    [MinBlobBytes] long, and a document at least 393 bytes shorter that carries the
    envelope. *)
Theorem Compact_total Sum256 raw : (∀ x, length (Sum256 x) = 32) →
  ∃ out bs, Compact Sum256 raw = Ok (out, bs) ∧
    ((out = raw ∧ bs = []) ∨
     (bs ≠ [] ∧ IsCompacted out = true ∧ length out + 393 ≤ length raw ∧ NoDup (Hash <$> bs) ∧
      Forall (λ b, Hash b = hashOf Sum256 (Data b) ∧ MinBlobBytes ≤ length (Data b)) bs)).
Proof.
  intros Hsize. destruct (Compact_cases Sum256 raw) as (out & bs & E & [Hw|(Hb & _ & ps & Hps)]); exists out, bs.
  - by split; [|left].
  - split; [done|]. right. split; [done|]. pose proof (compactedAs_length Sum256 Hsize _ _ _ _ Hps).
    destruct Hps as [Hfull -> _ Hd Hn Hbs _]. split; [apply IsCompacted_envelope|].
    split; [|done]. assert (length envelopePrefix + length envelopeSuffix = 27) by done.
    assert (layerBytes = 420) by done. nia.
Qed.

(** Expanding what [Compact] returned restores the document byte for byte, from
    any store that holds the blobs, when the document does not itself carry the
    envelope and its parts do not collide; only a document of at least
    32 * 420 bytes can be refused instead, as nested too deep. *)
Theorem Expand_Compact {S} (I : S → Prop) fetch s Sum256 raw out bs :
  (∀ x, length (Sum256 x) = 32) → IsCompacted raw = false →
  Compact Sum256 raw = Ok (out, bs) → noCollision Sum256 raw bs → holds I fetch bs → I s →
  ∃ r s', Expand out fetch s = (r, s') ∧ I s' ∧
    (r = Ok raw ∨ (r = Err ErrValidationFailed ∧ maxExpandDepth * layerBytes ≤ length raw)).
Proof.
  intros Hsize Hraw Hc Hcol Hf Hs.
  destruct (Compact_cases Sum256 raw) as (out' & bs' & E & Hcases). rewrite E in Hc. injection Hc as -> ->.
  destruct Hcases as [[-> ->]|(_ & _ & ps & Hps)].
  - unfold Expand. rewrite Hraw. cbn [negb]. eauto 10.
  - destruct (Expand_compactedAs Sum256 Hsize I fetch s _ _ _ _ Hps Hcol Hf Hs) as (s' & Hs' & ->).
    do 2 eexists. split; [done|]. split; [done|]. case_bool_decide; [by left|right]. split; [done|].
    exact (compactedAs_deep Sum256 Hsize _ _ _ _ Hps ltac:(lia)).
Qed.

(** *** A document with one long string *)

Definition longText : bytes := QUOTE :: replicate 600 "x"%char ++ [QUOTE].
Definition sampleDocument : bytes := bs "[1, " ++ longText ++ bs " ]".
Definition sampleHash (x : bytes) : bytes :=
  if bool_decide (x = longText) then replicate 32 "a"%char else replicate 32 "b"%char.
Definition sampleBlobs : list Blob := [mkBlob (hashOf sampleHash longText) longText].

Lemma sampleHash_size x : length (sampleHash x) = 32.
Proof. unfold sampleHash. by case_bool_decide. Qed.

Lemma sample_noCollision raw : noCollision sampleHash raw sampleBlobs.
Proof.
  intros ps _. apply (moved_impl (λ _, True)).
  - intros q _ b ->%list_elem_of_singleton Hh. cbn [Hash Data] in *.
    unfold hashOf, Workspace.hashBytes, sampleHash in Hh.
    rewrite (bool_decide_eq_true_2 (longText = longText)) in Hh by done.
    case_bool_decide; [done|]. exfalso. revert Hh. vm_compute. done.
  - clear. induction ps as [|p ps IH]; constructor; [|exact IH]. clear. induction p using part_ind'; [done|].
    apply allRefs_Ref. done.
Qed.

Lemma Compact_total_witness : ∃ out bs, Compact sampleHash sampleDocument = Ok (out, bs) ∧
    ((out = sampleDocument ∧ bs = []) ∨
     (bs ≠ [] ∧ IsCompacted out = true ∧ length out + 393 ≤ length sampleDocument ∧ NoDup (Hash <$> bs) ∧
      Forall (λ b, Hash b = hashOf sampleHash (Data b) ∧ MinBlobBytes ≤ length (Data b)) bs)).
Proof. exact (Compact_total sampleHash sampleDocument sampleHash_size). Defined.

Definition sampleOut : bytes :=
  match Compact sampleHash sampleDocument with Ok (out, _) => out | _ => [] end.

Lemma sample_compacted : Compact sampleHash sampleDocument = Ok (sampleOut, sampleBlobs).
Proof. vm_compute. reflexivity. Qed.

Lemma Expand_Compact_witness :
  sampleOut ≠ sampleDocument ∧
  ∃ r s', Expand sampleOut (storeFetch sampleBlobs) tt = (r, s') ∧ True ∧
    (r = Ok sampleDocument ∨
     (r = Err ErrValidationFailed ∧ maxExpandDepth * layerBytes ≤ length sampleDocument)).
Proof.
  split; [vm_compute; discriminate|].
  apply (Expand_Compact (λ _, True) (storeFetch sampleBlobs) tt sampleHash sampleDocument sampleOut sampleBlobs
    sampleHash_size).
  - vm_compute. reflexivity.
  - exact sample_compacted.
  - apply sample_noCollision.
  - apply storeFetch_holds. apply NoDup_singleton.
  - exact I.
Defined.

(** *** The two exceptions *)

(** A toy hash that tells texts apart: the text as a number in base 257, modulo
    [2 ^ 40]. *)
Fixpoint bytesOf (n : nat) (z : N) : bytes :=
  match n with O => [] | S n => ascii_of_N (N.land z 255) :: bytesOf n (N.shiftr z 8)%N end.
Definition polyStep (acc : N) (c : ascii) : N := N.land (257 * acc + N_of_ascii c + 1) 1099511627775.
Definition polyHash (x : bytes) : bytes := "001"%char :: bytesOf 31 (foldl polyStep 0%N x).

Lemma polyHash_size x : length (polyHash x) = 32.
Proof. unfold polyHash. generalize (foldl polyStep 0%N x). done. Qed.

(** An array of 64 elements whose first is the same one layer down. *)
Fixpoint deepDocument (layers : nat) : bytes :=
  match layers with
  | O => bs "0"
  | S layers =>
      bs "[" ++ deepDocument layers ++ bs "," ++ [QUOTE] ++ replicate 420 "x"%char ++ [QUOTE] ++
      concat (replicate 62 (bs ",0")) ++ bs "]"
  end.

(** Expanding what [Compact] made of [raw] fails as invalid. *)
Definition refused Sum256 (raw : bytes) : bool :=
  match Compact Sum256 raw with
  | Ok (out, bs) => bool_decide (NoDup (Hash <$> bs)) &&
      match Expand out (storeFetch bs) tt with (Err ErrValidationFailed, _) => true | _ => false end
  | _ => false
  end.

Lemma refused_inv Sum256 raw : refused Sum256 raw = true →
  ∃ out bs, Compact Sum256 raw = Ok (out, bs) ∧ holds (λ _, True) (storeFetch bs) bs ∧
    Expand out (storeFetch bs) tt = (Err ErrValidationFailed, tt).
Proof.
  unfold refused. destruct (Compact Sum256 raw) as [[out bs]|e| |]; [|done..].
  intros [Hn Hx]%andb_true_iff. exists out, bs. split; [done|]. split.
  - apply storeFetch_holds. by apply bool_decide_eq_true in Hn.
  - destruct (Expand out (storeFetch bs) tt) as [[|[]| |] []]; done.
Qed.

Lemma deepDocument_refused : refused polyHash (deepDocument 32) = true.
Proof. vm_compute. reflexivity. Qed.

(** "Expand(Compact(x)) returns x byte for byte" fails for a document that nests
    32 arrays of 64 elements: it is JSON, [Compact] rewrites it, and [Expand] refuses
    the result although the store holds every blob. *)
Theorem deep_document_refused :
  ∃ Sum256 raw out bs, (∀ x, length (Sum256 x) = 32) ∧ Json.Valid raw = true ∧ IsCompacted raw = false ∧
    Compact Sum256 raw = Ok (out, bs) ∧ holds (λ _, True) (storeFetch bs) bs ∧
    Expand out (storeFetch bs) tt = (Err ErrValidationFailed, tt).
Proof.
  destruct (refused_inv _ _ deepDocument_refused) as (out & bs & Hc & Hn & Hx).
  exists polyHash, (deepDocument 32), out, bs.
  split_and!; [apply polyHash_size|vm_compute; reflexivity|vm_compute; reflexivity|exact Hc|exact Hn|exact Hx].
Qed.

(** A document that itself carries the envelope is stored as it is, and then
    cannot be read back: [Expand] takes it for a compacted one without references. *)
Theorem envelope_lookalike_refused {S} (fetch : FetchFunc S) s Sum256 raw :
  IsCompacted raw = true → References raw = Ok [] →
  Compact Sum256 raw = Ok (raw, []) ∧ Expand raw fetch s = (Err ErrValidationFailed, s).
Proof.
  intros Hc Hr. split.
  - unfold Compact. rewrite (bool_decide_eq_true_2 (index_sub markerText raw ≠ None)).
    + by rewrite orb_true_r.
    + intros Hn. apply (index_sub_None markerText raw); [done|done|].
      unfold IsCompacted in Hc. apply andb_true_iff in Hc as [Hc _]. apply has_prefix_spec in Hc as [k ->].
      exists ["{"%char; QUOTE], (bs "s" ++ escapedClose ++ [QUOTE; ":"%char] ++ k). done.
  - unfold Expand, References in *. rewrite Hc in *. cbn [negb] in *.
    destruct (envelopeBody raw) as [body|e| |]; try done. injection Hr as ->. done.
Qed.

Lemma envelope_lookalike_refused_witness :
  let raw := envelopePrefix ++ bs "null" ++ envelopeSuffix in
  Json.Valid raw = true ∧ Compact sampleHash raw = Ok (raw, []) ∧
  Expand raw (storeFetch []) tt = (Err ErrValidationFailed, tt).
Proof.
  split; [vm_compute; reflexivity|].
  apply (envelope_lookalike_refused (storeFetch []) tt sampleHash); vm_compute; reflexivity.
Defined.

End BlobTheorems.
