(* ===== verification/BlobValid.v ===== *)
(** The parts [Compact] moves out are JSON: the scanner of encoding/json and the
    recursive descent of contentblob.go read a document the same way, so every blob
    passes [ValidBlob]. *)
From stdpp Require Import base gmap sets list strings.
From Stdlib Require Import ZArith Lia Ascii.
From S2P Require Import Prelude GoBytes Json Workspace ContentBlob BlobLayers BlobCompact BlobTheorems.

Module BlobValid.
Import Json ContentBlob BlobCompact.

(** ** The scanner, piece by piece *)

Lemma scan_app s st a b : scan s st (a ++ b) = '(s', st') ← scan s st a; scan s' st' b.
Proof.
  revert s st. induction a as [|c a IH]; intros s st; [done|]. cbn [app scan].
  destruct (scanStep s c st) as [[s' st']|]; [apply IH|done].
Qed.

Lemma scan_snoc s st a c s' st' : scan s st a = Some (s', st') → scan s st (a ++ [c]) = scanStep s' c st'.
Proof. intros H. rewrite scan_app, H. cbn. destruct (scanStep s' c st') as [[]|]; done. Qed.

Lemma scan_split s st a b : is_Some (scan s st (a ++ b)) →
  ∃ s' st', scan s st a = Some (s', st') ∧ is_Some (scan s' st' b).
Proof. rewrite scan_app. destruct (scan s st a) as [[s' st']|]; [by eauto|]. intros [? [=]]. Qed.

Lemma scan_cons_inv s st c b : is_Some (scan s st (c :: b)) →
  ∃ s' st', scanStep s c st = Some (s', st') ∧ is_Some (scan s' st' b).
Proof. cbn [scan]. destruct (scanStep s c st) as [[s' st']|]; [by eauto|]. intros [? [=]]. Qed.

(** What may be open around a value. *)
Definition valuePos (st : list frame) : Prop :=
  match st with ArrayValue :: _ | ObjectValue :: _ => True | _ => False end.

(** The states in which a value may be complete. *)
Definition finish (s : step) : Prop :=
  match s with EndValue | Digits | Zero | DotDigits | ExpDigits => True | _ => False end.

Lemma finish_ends s c st : finish s → endsPrimitive c = true → scanStep s c st = endValue c st.
Proof.
  intros Hs Hc. assert (Hd : is_digit c = false ∧ c ≠ "."%char ∧ is_exp c = false).
  { unfold endsPrimitive, is_space in Hc. unfold is_exp.
    rewrite !orb_true_iff, !bool_decide_eq_true in Hc.
    assert (c ∈ [","; "}"; "]"; " "; "009"; "010"; "013"]%char) as Hin by set_solver. clear Hc Hs.
    repeat (apply elem_of_cons in Hin as [->|Hin]; [vm_compute; split_and!; congruence|]). by apply elem_of_nil in Hin. }
  destruct Hd as (Hd & Hdot & He).
  destruct s; try done; cbn [scanStep]; unfold zeroNext; rewrite ?Hd, ?He, ?bool_decide_eq_false_2 by done; done.
Qed.

Lemma space_ends c : is_space c = true → endsPrimitive c = true.
Proof. unfold endsPrimitive. intros ->. by rewrite orb_true_r. Qed.

(** *** White space *)

Definition spaces (w : bytes) : Prop := Forall (λ c, is_space c = true) w.

Lemma skipSpace_spaces raw : ∃ w, raw = w ++ skipSpace raw ∧ spaces w.
Proof.
  induction raw as [|c raw (w & E & Hw)]; [by exists []; split; [|constructor]|]. cbn [skipSpace].
  destruct (is_space c) eqn:Hc; [|by exists []; split; [|constructor]].
  exists (c :: w). split; [by rewrite E at 1|by constructor].
Qed.

Lemma skipSpace_head raw c rest : skipSpace raw = c :: rest → is_space c = false.
Proof.
  induction raw as [|d raw IH]; [done|]. cbn [skipSpace]. destruct (is_space d) eqn:Hd; [done|].
  by intros [= <- _].
Qed.

(** A state that white space leaves as it is. *)
Definition idles (s : step) : Prop :=
  match s with BeginValue | BeginValueOrEmpty | BeginString | BeginStringOrEmpty => True | _ => False end.

Lemma scan_idle s st w : idles s → spaces w → scan s st w = Some (s, st).
Proof.
  intros Hs. induction 1 as [|c w Hc _ IH]; [done|]. cbn [scan].
  destruct s; try done; cbn [scanStep]; unfold beginValue, beginString; rewrite Hc; exact IH.
Qed.

Lemma scan_finish s st w : finish s → st ≠ [] → spaces w → ∃ s', finish s' ∧ scan s st w = Some (s', st).
Proof.
  intros Hs Hst Hw. destruct Hw as [|c w Hc Hw]; [by exists s|]. exists EndValue. split; [done|]. cbn [scan].
  rewrite finish_ends by (done || by apply space_ends). unfold endValue. destruct st as [|f st]; [done|]. rewrite Hc.
  cbn [mbind option_bind]. clear Hc. induction Hw as [|d w Hd _ IH]; [done|]. cbn [scan scanStep]. unfold endValue at 1. rewrite Hd.
  exact IH.
Qed.

(** An array or an element may begin where a value may. *)
Lemma scan_orEmpty st v s st' : finish s → scan BeginValue st v = Some (s, st') →
  scan BeginValueOrEmpty st v = Some (s, st').
Proof.
  intros Hs. induction v as [|c v IH]; [intros [= <- _]; done|]. cbn [scan scanStep].
  destruct (is_space c) eqn:Hc.
  - unfold beginValue. rewrite Hc. exact IH.
  - case_bool_decide; [|done]. subst c. done.
Qed.

(** *** Strings *)

Lemma hex_plain c : is_hex c = true → c ≠ QUOTE ∧ c ≠ "\"%char.
Proof. intros H. split; intros ->; vm_compute in H; done. Qed.

(** The scanner's states inside a string, between two of its bytes that stand alone. *)
Definition inside (s : step) : Prop := match s with InString | InStringU _ => True | _ => False end.

Lemma scan_string rest close s st tail :
  inside s → stringLiteralEnd rest = Some close → is_Some (scan s st (rest ++ tail)) →
  ∃ body, rest = body ++ QUOTE :: drop 1 close ∧
          ∀ st', scan s st' (body ++ [QUOTE]) = Some (EndValue, st').
Proof.
  remember (length rest) as n eqn:Hn. revert rest s st Hn. induction n as [n IH] using lt_wf_ind.
  intros [|c rest] s st Hn Hs He Hscan; [done|]. cbn [stringLiteralEnd] in He. cbn [app] in Hscan.
  apply scan_cons_inv in Hscan as (s1 & st1 & Hstep & Hscan).
  assert (Hone : inside s1 ∧ (∀ st', scanStep s c st' = Some (s1, st')) →
     stringLiteralEnd rest = Some close →
     ∃ body, c :: rest = body ++ QUOTE :: drop 1 close ∧ ∀ st', scan s st' (body ++ [QUOTE]) = Some (EndValue, st')).
  { intros [Hs1 Hall] He1. destruct (IH (length rest)) with (rest := rest) (s := s1) (st := st1)
      as (body & -> & Hb); [simpl in Hn; lia|done..|].
    exists (c :: body). split; [done|]. intros st'. cbn [app scan]. rewrite Hall. apply Hb. }
  destruct s; try done.
  - destruct (decide (c = "\"%char)) as [->|Hb].
    + rewrite bool_decide_eq_true_2 in He by done. destruct rest as [|d rest]; [done|].
      change (scanStep InString "\"%char st) with (Some (InStringEsc, st)) in Hstep. injection Hstep as <- <-.
      cbn [app] in Hscan. apply scan_cons_inv in Hscan as (s2 & st2 & Hstep2 & Hscan).
      assert (Hs2 : inside s2 ∧ (∀ st', scanStep InStringEsc d st' = Some (s2, st'))).
      { cbn [scanStep] in *. case_bool_decide; [by injection Hstep2 as <- _|].
        case_bool_decide; [by injection Hstep2 as <- _|done]. }
      destruct (IH (length rest)) with (rest := rest) (s := s2) (st := st2)
        as (body & -> & Hbody); [simpl in Hn; lia|done|apply Hs2|done..|].
      exists ("\"%char :: d :: body). split; [done|]. intros st'. cbn [app]. cbn [scan].
      change (scanStep InString "\"%char st') with (Some (InStringEsc, st')). cbn [mbind option_bind].
      rewrite (proj2 Hs2). apply Hbody.
    + rewrite (bool_decide_eq_false_2 (c = "\"%char)) in He by done.
      destruct (decide (c = QUOTE)) as [->|Hq].
      * rewrite bool_decide_eq_true_2 in He by done. injection He as <-. by exists [].
      * rewrite (bool_decide_eq_false_2 (c = QUOTE)) in He by done.
        assert (Hplain : ∀ st', scanStep InString c st' = if (code c <? 32)%N then None else Some (InString, st')).
        { intros st'. cbn [scanStep]. rewrite (bool_decide_eq_false_2 (c = Json.QUOTE)) by done.
          by rewrite (bool_decide_eq_false_2 (c = "\"%char)). }
        rewrite Hplain in Hstep. destruct (code c <? 32)%N eqn:Hcc; [done|]. injection Hstep as <- <-.
        apply Hone; [|done]. split; [done|]. intros st'. by rewrite Hplain.
  - cbn [scanStep] in Hstep. destruct (is_hex c) eqn:Hh; [|done]. injection Hstep as <- <-.
    destruct (hex_plain c Hh) as [Hq Hb].
    rewrite (bool_decide_eq_false_2 (c = "\"%char)), (bool_decide_eq_false_2 (c = QUOTE)) in He by done.
    apply Hone; [|done]. split; [by destruct missing as [|[]]|]. intros st'. cbn [scanStep]. by rewrite Hh.
Qed.

(** *** Numbers and literals *)

Definition primitive (s : step) : Prop :=
  match s with
  | EndValue | Neg | Digits | Zero | Dot | DotDigits | Exp | ExpSign | ExpDigits => True
  | Literal rest => Forall (λ c, endsPrimitive c = false) rest
  | _ => False
  end.

Lemma endValue_plain c st : endsPrimitive c = false → valuePos st → endValue c st = None.
Proof.
  unfold endsPrimitive, valuePos, endValue. rewrite !orb_false_iff, !bool_decide_eq_false.
  intros [[[Hcomma Hbrace] Hbracket] Hsp] Hst. destruct st as [|[] st]; try done; rewrite Hsp, !bool_decide_eq_false_2 by done; done.
Qed.

Lemma primitive_step s c st s' st' :
  primitive s → endsPrimitive c = false → valuePos st → scanStep s c st = Some (s', st') →
  primitive s' ∧ ∀ st2, scanStep s c st2 = Some (s', st2).
Proof.
  intros Hs Hc Hst. pose proof (endValue_plain c st Hc Hst) as He.
  destruct s; try done; cbn [scanStep]; unfold zeroNext; rewrite ?He.
  all: try (repeat (case_bool_decide || case_if); intros [= <- _]; done).
  destruct rest as [|x [|y rest]]; [done|..]; case_bool_decide; try done; intros [= <- _]; split; try done.
  by inversion Hs.
Qed.

Lemma primitive_end s c st : primitive s → endsPrimitive c = true → is_Some (scanStep s c st) → finish s.
Proof.
  intros Hs Hc. assert (Hin : c ∈ [","; "}"; "]"; " "; "009"; "010"; "013"]%char).
  { unfold endsPrimitive, is_space in Hc. rewrite !orb_true_iff, !bool_decide_eq_true in Hc. set_solver. }
  destruct s; try done; intros [r Hr]; exfalso.
  5:{ cbn [scanStep] in Hr. destruct rest as [|x [|y rest]]; [done|..]; case_bool_decide; try done; subst x;
      inversion Hs; congruence. }
  all: clear Hs Hc; repeat (apply elem_of_cons in Hin as [->|Hin]; [vm_compute in Hr; done|]); by apply elem_of_nil in Hin.
Qed.

(** Where a value ends for the descent, the scanner must find it complete. *)
Definition closes (tail : bytes) : Prop := ∃ tail', tail = "]"%char :: tail'.

Lemma scan_primitive text s st tail :
  primitive s → valuePos st → closes tail → is_Some (scan s st (text ++ tail)) →
  ∃ p s1, text = p ++ primitiveEnd text ∧ finish s1 ∧ ∀ st2, scan s st2 p = Some (s1, st2).
Proof.
  intros Hs Hst [tail' ->]. revert s Hs. induction text as [|c text IH]; intros s Hs Hscan.
  - cbn [app] in Hscan. apply scan_cons_inv in Hscan as (s' & st' & Hstep & _).
    exists [], s. split; [done|]. split; [|done]. apply (primitive_end s "]" st Hs); [done|by eexists].
  - cbn [app] in Hscan. apply scan_cons_inv in Hscan as (s' & st' & Hstep & Hscan). cbn [primitiveEnd].
    destruct (endsPrimitive c) eqn:Hc.
    + exists [], s. split; [done|]. split; [|done]. apply (primitive_end s c st Hs); [done|by eexists].
    + destruct (primitive_step s c st s' st' Hs Hc Hst Hstep) as [Hs' Hall].
      assert (st' = st) as -> by (specialize (Hall st); congruence).
      destruct (IH s' Hs' Hscan) as (p & s1 & E & Hf & Hp). exists (c :: p), s1.
      split; [by rewrite E at 1|]. split; [done|]. intros st2. cbn [scan]. rewrite Hall. apply Hp.
Qed.

(** The first byte of a number or a literal. *)
Lemma beginValue_primitive c st s st' :
  c ≠ QUOTE → c ≠ "{"%char → c ≠ "["%char → endsPrimitive c = false →
  scanStep BeginValue c st = Some (s, st') →
  primitive s ∧ ∀ st2, scanStep BeginValue c st2 = Some (s, st2).
Proof.
  intros H1 H2 H3 Hc. cbn [scanStep]. unfold beginValue.
  assert (is_space c = false) as -> by (destruct (is_space c) eqn:E; [|done]; apply space_ends in E; congruence).
  rewrite (bool_decide_eq_false_2 (c = "{"%char)), (bool_decide_eq_false_2 (c = "["%char)),
    (bool_decide_eq_false_2 (c = Json.QUOTE)) by done.
  repeat (case_bool_decide || case_if); intros [= <- _]; try done; split; try done;
    repeat constructor; vm_compute; done.
Qed.

(** ** Values that fit where they are put *)

(** [v] is a value wherever fewer than [n] objects and arrays are open. *)
Definition okValue (n : nat) (v : bytes) : Prop :=
  ∀ st, valuePos st → length st < n → ∃ s, finish s ∧ scan BeginValue st v = Some (s, st).

Lemma okValue_weaken n m v : m ≤ n → okValue n v → okValue m v.
Proof. intros Hmn Hv st Hst Hl. apply Hv; [done|lia]. Qed.

Definition maxDepth : nat := Z.to_nat maxNestingDepth.

Lemma push_ok f st s : length st < maxDepth → push f st s = Some (s, f :: st).
Proof.
  intros Hl. unfold push. destruct (Z.leb_spec (Z.of_nat (S (length st))) maxNestingDepth) as [|H]; [done|].
  exfalso. unfold maxDepth, maxNestingDepth in *. lia.
Qed.

Lemma valuePos_ne st : valuePos st → st ≠ [].
Proof. by destruct st. Qed.

Lemma pop_ok f st : st ≠ [] → pop (f :: st) = Some (EndValue, st).
Proof. by destruct st. Qed.

Section hash.
Variable Sum256 : bytes → bytes.

Definition validC (c : compactor) : Prop :=
  Forall (λ b, ValidBlob Sum256 (Hash b) (Data b) = true) (blobs c).

Definition plain (c : ascii) : Prop := c ≠ QUOTE ∧ c ≠ "\"%char ∧ (code c <? 32)%N = false.

Lemma scan_plain st b : Forall plain b → scan InString st b = Some (InString, st).
Proof.
  induction 1 as [|c b (Hq & Hb & Hc) _ IH]; [done|]. cbn [scan scanStep].
  rewrite (bool_decide_eq_false_2 (c = Json.QUOTE)), (bool_decide_eq_false_2 (c = "\"%char)), Hc by done. exact IH.
Qed.

Lemma hexDigit_plain n : n < 16 → plain (Workspace.hexDigit n).
Proof.
  intros Hn. do 16 (destruct n as [|n]; [split_and!; vm_compute; congruence|]). lia.
Qed.

Lemma hashOf_plain data : Forall plain (hashOf Sum256 data).
Proof.
  unfold hashOf, Workspace.hashBytes, Workspace.hexEncode. induction (Sum256 data) as [|a x IH]; [constructor|].
  rewrite fmap_cons. cbn [concat app]. pose proof (nat_ascii_bounded a).
  constructor; [apply hexDigit_plain, Nat.Div0.div_lt_upper_bound; lia|].
  constructor; [apply hexDigit_plain, Nat.mod_upper_bound; lia|exact IH].
Qed.

(** A reference is a value, one object deep. *)
Lemma okValue_reference data : okValue maxDepth (referenceStart ++ hashOf Sum256 data ++ referenceEnd).
Proof.
  intros st Hst Hl. exists EndValue. split; [done|]. rewrite scan_app.
  replace (scan BeginValue st referenceStart) with (Some (InString, ObjectValue :: st)).
  - cbn [mbind option_bind]. rewrite scan_app, scan_plain by apply hashOf_plain. cbn [mbind option_bind].
    unfold referenceEnd. cbn [scan scanStep]. rewrite bool_decide_eq_true_2 by done. cbn [mbind option_bind scanStep].
    change (endValue "}" (ObjectValue :: st)) with (pop (ObjectValue :: st)).
    by rewrite pop_ok by by apply valuePos_ne.
  - unfold referenceStart. cbn [app scan]. change (scanStep BeginValue "{" st) with (push ObjectKey st BeginStringOrEmpty).
    rewrite push_ok by done. cbn [mbind option_bind]. reflexivity.
Qed.

Definition okElement (n : nat) (e : arrayElement) : Prop := okValue n (compacted e).

(** The text between two elements. *)
Definition sepGap (g : bytes) : Prop :=
  ∀ s st, finish s → scan s (ArrayValue :: st) g = Some (BeginValue, ArrayValue :: st).

(** Elements from one on, and the elements of an array. *)
Definition okRest (n : nat) (es : list arrayElement) : Prop := Forall (λ e, sepGap (gap e) ∧ okElement n e) es.
Definition okElements (n : nat) (es : list arrayElement) : Prop :=
  match es with [] => True | e :: es => spaces (gap e) ∧ okElement n e ∧ okRest n es end.

Lemma okRest_app n es fs : okRest n (es ++ fs) ↔ okRest n es ∧ okRest n fs.
Proof. apply Forall_app. Qed.

Lemma scan_runRest n es s st : okRest n es → length (ArrayValue :: st) < n → finish s →
  ∃ s', finish s' ∧ scan s (ArrayValue :: st) (runRest es) = Some (s', ArrayValue :: st).
Proof.
  intros Hes Hl. revert s. induction Hes as [|e es [Hg He] _ IH]; intros s Hs; [by exists s|].
  cbn [runRest]. rewrite scan_app, (Hg s st Hs). cbn [mbind option_bind]. rewrite scan_app.
  destruct (He (ArrayValue :: st)) as (s1 & Hs1 & ->); [done|done|]. cbn [mbind option_bind]. by apply IH.
Qed.

(** A run of elements, without its first gap. *)
Definition okRun (n : nat) (run : list arrayElement) : Prop :=
  match run with [] => True | e :: run => okElement n e ∧ okRest n run end.

Lemma okElements_run n folded run elements : okElements n (folded ++ run ++ elements) → okRun n run.
Proof.
  destruct folded as [|f folded]; cbn [app okElements].
  - destruct run as [|e run]; [done|]. intros (_ & He & Hr). apply okRest_app in Hr as [Hr _]. done.
  - intros (_ & _ & Hr). apply okRest_app in Hr as [_ Hr]. apply okRest_app in Hr as [Hr _].
    destruct run as [|e run]; [done|]. by inversion Hr as [|? ? [? ?] ?].
Qed.

Lemma okElements_replace n folded run elements ref : run ≠ [] → okValue n ref →
  okElements n (folded ++ run ++ elements) →
  okElements n (folded ++ [mkElement (default [] (gap <$> head run)) ref] ++ elements).
Proof.
  destruct run as [|e run]; [done|]. intros _ Href. cbn [head fmap option_fmap option_map default].
  destruct folded as [|f folded]; cbn [app okElements].
  - intros (Hg & _ & Hr). apply okRest_app in Hr as [_ Hr]. done.
  - intros (Hg & He & Hr). split; [done|]. split; [done|]. apply okRest_app in Hr as [Hr1 Hr2].
    inversion Hr2 as [|? ? [Hge _] Hr3]. subst. apply okRest_app in Hr3 as [_ Hr4].
    apply okRest_app. split; [done|]. by constructor.
Qed.

Lemma scan_runSpan n run : okRun n run → run ≠ [] → 1 < n →
  ∃ s, finish s ∧ scan BeginValue [ArrayValue] (runSpan run) = Some (s, [ArrayValue]).
Proof.
  destruct run as [|e run]; [done|]. intros [He Hr] _ Hn. cbn [runSpan]. rewrite scan_app.
  destruct (He [ArrayValue]) as (s1 & Hs1 & ->); [done|done|]. cbn [mbind option_bind].
  by apply (scan_runRest n run s1 []).
Qed.

(** *** What is moved out *)

Lemma ValidBlob_scanned data s : data ≠ [] → finish s →
  scan BeginValue [ArrayValue] data = Some (s, [ArrayValue]) → ValidBlob Sum256 (hashOf Sum256 data) data = true.
Proof.
  intros Hne Hs Hscan. unfold ValidBlob. rewrite bool_decide_eq_false_2 by done.
  rewrite (bool_decide_eq_true_2 (hashOf _ _ = _)) by done. cbn [negb orb]. unfold Json.Valid.
  apply (scan_orEmpty _ _ _ _ Hs) in Hscan.
  change (("["%char :: data ++ ["]"%char]) ++ [" "%char]) with ("["%char :: (data ++ ["]"%char]) ++ [" "%char]).
  cbn [scan]. change (scanStep BeginValue "[" []) with (Some (BeginValueOrEmpty, [ArrayValue])).
  cbn [mbind option_bind]. rewrite <- app_assoc, scan_app, Hscan. cbn [mbind option_bind app scan].
  rewrite finish_ends by done. done.
Qed.

Lemma reference_valid data c ref c' s : validC c → data ≠ [] → finish s →
  scan BeginValue [ArrayValue] data = Some (s, [ArrayValue]) → reference Sum256 data c = (ref, c') →
  validC c' ∧ okValue maxDepth ref.
Proof.
  intros Hc Hne Hs Hscan [= <- <-]. split; [|apply okValue_reference].
  case_bool_decide; [done|]. unfold validC. cbn [blobs]. apply Forall_app. split; [done|].
  apply Forall_singleton. cbn [Hash Data]. by eapply ValidBlob_scanned.
Qed.

Lemma foldFrom_valid n elements run folded changed c out changed' c' :
  1 < n ≤ maxDepth → validC c → okElements n (folded ++ run ++ elements) →
  foldFrom Sum256 run elements folded changed c = (out, changed', c') →
  validC c' ∧ okElements n out ∧ (folded ++ run ++ elements ≠ [] → out ≠ []).
Proof.
  intros Hn. revert run folded changed c. induction elements as [|e elements IH]; intros run folded changed c Hc Hok.
  - cbn [foldFrom]. intros [= <- _ <-]. by rewrite app_nil_r in *.
  - cbn [foldFrom]. replace (run ++ e :: elements) with ((run ++ [e]) ++ elements) in Hok by (by rewrite <- app_assoc).
    replace (run ++ e :: elements) with ((run ++ [e]) ++ elements) by (by rewrite <- app_assoc).
    destruct (negb _); [by apply IH|]. case_bool_decide as Hl.
    + intros H. rewrite app_assoc in Hok |- *. by apply IH in H.
    + destruct (reference Sum256 (runSpan (run ++ [e])) c) as [ref c1] eqn:Hr.
      assert (Hne : run ++ [e] ≠ []) by (by destruct run). revert Hr Hl Hok Hne. generalize (run ++ [e]).
      intros run' Hr Hl Hok Hne.
      destruct (scan_runSpan n run') as (s & Hs & Hscan); [by eapply okElements_run|done|lia|].
      eapply reference_valid in Hr as [Hc1 Href]; [|done| |exact Hs|exact Hscan].
      2:{ intros E. rewrite E in Hl. apply Hl. unfold MinBlobBytes. simpl. lia. }
      intros H. apply IH in H as (Hc' & Hout & Hne'); [|done|].
      * split_and!; [done|done|]. intros _. apply Hne'. by destruct folded.
      * cbn [app]. rewrite <- app_assoc.
        apply okElements_replace; [done| |done]. eapply okValue_weaken; [|exact Href]. lia.
Qed.

Lemma foldLevels_valid n levels es c out c' :
  1 < n ≤ maxDepth → validC c → okElements n es → foldLevels Sum256 levels es c = (out, c') →
  validC c' ∧ okElements n out ∧ (es ≠ [] → out ≠ []).
Proof.
  intros Hn. revert es c. induction levels as [|levels IH]; intros es c Hc Hes; cbn [foldLevels].
  - by intros [= <- <-].
  - destruct (foldRuns Sum256 es c) as [[folded changed] c1] eqn:Hf.
    destruct (foldFrom_valid n es [] [] false c folded changed c1 Hn Hc Hes Hf) as (Hc1 & Hok & Hne).
    destruct changed.
    { intros H. apply IH in H as (? & ? & ?); [|done..]. split_and!; auto. }
    assert (c1 = c) as ->; [|by intros [= <- <-]].
    revert Hf. unfold foldRuns. clear. generalize (@nil arrayElement) at 2 as fd. generalize (@nil arrayElement) as run.
    assert (H : ∀ run fd ch out c0 c2, foldFrom Sum256 run es fd ch c0 = (out, false, c2) → c2 = c0 ∧ ch = false).
    { induction es as [|e es IH]; intros run fd ch out c0 c2; cbn [foldFrom]; [by intros [= _ -> ->]|].
      destruct (negb _); [apply IH|]. case_bool_decide; [apply IH|]. intros H'. by apply IH in H' as [_ ?]. }
    intros run fd E. by apply H in E as [-> _].
Qed.

(** ** The descent and the scanner side by side *)

(** A value, the members of an object and the elements of an array, read at [start]
    by the descent and with [st] open by the scanner. *)
Definition value_valid (fuel : nat) : Prop := ∀ start c st tail out end_ c',
  validC c → valuePos st → length st ≤ maxDepth → closes tail →
  is_Some (scan BeginValue st (start ++ tail)) → value Sum256 fuel start c = Ok (out, end_, c') →
  validC c' ∧ okValue (length st) out ∧
  ∃ text s, start = text ++ end_ ∧ finish s ∧ scan BeginValue st text = Some (s, st).

Definition keyState (s : step) : Prop := match s with BeginString | BeginStringOrEmpty => True | _ => False end.

Definition members_valid (fuel : nat) : Prop := ∀ w index out c sk st tail out' end_ c',
  validC c → valuePos st → S (length st) ≤ maxDepth → closes tail → keyState sk →
  is_Some (scan sk (ObjectKey :: st) (index ++ tail)) →
  members Sum256 fuel (w ++ index) index out c = Ok (out', end_, c') →
  validC c' ∧ ∃ add text, out' = out ++ w ++ add ∧ index = text ++ end_ ∧
    scan sk (ObjectKey :: st) text = Some (EndValue, st) ∧
    ∀ st', valuePos st' → length st' < length st → scan sk (ObjectKey :: st') add = Some (EndValue, st').

Definition elements_valid (fuel : nat) : Prop := ∀ w index es c st tail es' closing end_ c',
  validC c → valuePos st → S (length st) ≤ maxDepth → closes tail →
  is_Some (scan BeginValue (ArrayValue :: st) (index ++ tail)) →
  arrayElements Sum256 fuel (w ++ index) index es c = Ok (es', closing, end_, c') →
  validC c' ∧ ∃ v rest text, es' = es ++ mkElement w v :: rest ∧
    okValue (S (length st)) v ∧ okRest (S (length st)) rest ∧
    (∀ s st', finish s → valuePos st' → scan s (ArrayValue :: st') closing = Some (EndValue, st')) ∧
    index = text ++ end_ ∧ scan BeginValue (ArrayValue :: st) text = Some (EndValue, st).

(** What follows a value. *)
Lemma separator_scan end_ closing next closed : separator end_ closing = Ok (next, closed) →
  ∃ ws, spaces ws ∧
    if (closed : bool) then end_ = ws ++ closing :: drop 1 next
    else ∃ ws2, spaces ws2 ∧ end_ = (ws ++ ","%char :: ws2) ++ next.
Proof.
  unfold separator. destruct (skipSpace_spaces end_) as (ws & E & Hws).
  destruct (skipSpace end_) as [|c tail]; [done|]. case_bool_decide.
  - intros [= <- <-]. exists ws. split; [done|]. destruct (skipSpace_spaces tail) as (ws2 & E2 & Hws2).
    exists ws2. split; [done|]. subst c. by rewrite E, <- app_assoc, <- app_comm_cons, <- E2.
  - case_bool_decide; [|done]. intros [= <- <-]. exists ws. split; [done|]. subst c. by rewrite E at 1.
Qed.

Lemma scan_closing s st ws f c : finish s → spaces ws → valuePos st →
  (f = ArrayValue ∧ c = "]"%char) ∨ (f = ObjectValue ∧ c = "}"%char) →
  scan s (f :: st) (ws ++ [c]) = Some (EndValue, st).
Proof.
  intros Hs Hws Hst Hf. destruct (scan_finish s (f :: st) ws Hs) as (s' & Hs' & E); [done|done|].
  rewrite (scan_snoc _ _ _ _ _ _ E). destruct Hf as [[-> ->]|[-> ->]]; rewrite finish_ends by done.
  - change (pop (ArrayValue :: st) = Some (EndValue, st)). by apply pop_ok, valuePos_ne.
  - change (pop (ObjectValue :: st) = Some (EndValue, st)). by apply pop_ok, valuePos_ne.
Qed.

Lemma scan_comma s st ws ws2 f s2 f2 : finish s → spaces ws → spaces ws2 →
  (f = ArrayValue ∧ s2 = BeginValue ∧ f2 = ArrayValue) ∨ (f = ObjectValue ∧ s2 = BeginString ∧ f2 = ObjectKey) →
  scan s (f :: st) (ws ++ ","%char :: ws2) = Some (s2, f2 :: st).
Proof.
  intros Hs Hws Hws2 Hf. destruct (scan_finish s (f :: st) ws Hs) as (s' & Hs' & E); [done|done|].
  rewrite scan_app, E. cbn [mbind option_bind scan].
  destruct Hf as [(-> & -> & ->)|(-> & -> & ->)]; rewrite finish_ends by done; by apply scan_idle.
Qed.

(** The key of a member, up to its value. *)
Lemma memberValue_scan index v sk st tail : memberValue index = Ok v → keyState sk →
  is_Some (scan sk (ObjectKey :: st) (index ++ tail)) →
  ∃ key, index = key ++ v ∧ ∀ st', scan sk (ObjectKey :: st') key = Some (BeginValue, ObjectValue :: st').
Proof.
  unfold memberValue. destruct (startsWith QUOTE index) eqn:E; [|done]. apply startsWith_cons in E. cbn [negb].
  destruct (stringLiteralEnd (drop 1 index)) as [close|] eqn:Hc; [|done].
  destruct (startsWith ":" _) eqn:Ecolon; [|done]. apply startsWith_cons in Ecolon. cbn [negb]. intros [= <-] Hsk Hscan.
  assert (Hquote : ∀ st', scanStep sk QUOTE st' = Some (InString, st')) by (destruct sk; done).
  rewrite E in Hscan. cbn [app] in Hscan. apply scan_cons_inv in Hscan as (s1 & st1 & Hstep & Hscan).
  rewrite Hquote in Hstep. injection Hstep as <- <-.
  destruct (scan_string (drop 1 index) close InString (ObjectKey :: st) tail) as (body & Eb & Hbody); [done..|].
  destruct (skipSpace_spaces (drop 1 close)) as (ws & Ews & Hws).
  destruct (skipSpace_spaces (drop 1 (skipSpace (drop 1 close)))) as (ws2 & Ews2 & Hws2).
  exists (QUOTE :: (body ++ [QUOTE]) ++ ws ++ ":"%char :: ws2). split.
  - rewrite E, Eb, Ews, Ecolon, Ews2 at 1. cbn [app]. f_equal. by rewrite <- !app_assoc.
  - intros st'. cbn [scan]. rewrite Hquote. cbn [mbind option_bind]. rewrite scan_app, Hbody. cbn [mbind option_bind].
    destruct (scan_finish EndValue (ObjectKey :: st') ws) as (s' & Hs' & E'); [done|done|done|].
    rewrite scan_app, E'. cbn [mbind option_bind scan].
    assert (scanStep s' ":" (ObjectKey :: st') = Some (BeginValue, ObjectValue :: st')) as ->.
    { clear -Hs'. destruct s'; try done. }
    cbn [mbind option_bind]. by apply scan_idle.
Qed.

Lemma scan_rest s st a b s' st' : is_Some (scan s st (a ++ b)) → scan s st a = Some (s', st') →
  is_Some (scan s' st' b).
Proof. rewrite scan_app. intros H E. by rewrite E in H. Qed.

Lemma between_closing (ws : bytes) c next : between (ws ++ c :: next) next = ws ++ [c].
Proof. change (c :: next) with ([c] ++ next). rewrite app_assoc. apply between_app. Qed.

Lemma members_valid_step fuel : value_valid fuel → members_valid fuel → members_valid (S fuel).
Proof.
  intros Hval Hmem w index out c sk st tail out' end_ c' Hc Hst Hl Ht Hsk Hscan. cbn [members]. intros H.
  invert_ok. rename r into v, Hr into Hv. destruct r0 as [[compacted e1] c1]. cbn beta iota in H.
  invert_ok. destruct r as [next closed]. rename Hr into Hsep, Hr0 into Hvalue.
  destruct (memberValue_scan index v sk st tail Hv Hsk Hscan) as (key & -> & Hkey).
  rewrite <- app_assoc in Hscan. apply (scan_rest _ _ _ _ _ _ Hscan) in Hkey as Hscan1; [|done..].
  destruct (Hval v c (ObjectValue :: st) tail compacted e1 c1) as (Hc1 & Hok & text & s & -> & Hs & Htext); [done..|].
  rewrite <- app_assoc in Hscan1. apply (scan_rest _ _ _ _ _ _ Hscan1) in Htext as Hscan2.
  assert (Hbetween : between (w ++ key ++ text ++ e1) (text ++ e1) = w ++ key).
  { rewrite (app_assoc w). apply between_app. }
  rewrite Hbetween in *.
  assert (Hadd : ∀ st', valuePos st' → length st' < length st →
    ∃ s', finish s' ∧ scan sk (ObjectKey :: st') (key ++ compacted) = Some (s', ObjectValue :: st')).
  { intros st' Hst' Hl'. destruct (Hok (ObjectValue :: st')) as (s' & Hs' & E); [done|simpl; lia|].
    exists s'. split; [done|]. by rewrite scan_app, Hkey. }
  apply separator_scan in Hsep as (ws & Hws & Hsep). destruct closed.
  - injection H as <- <- <-. split; [done|]. rewrite Hsep.
    rewrite between_closing.
    exists ((key ++ compacted) ++ ws ++ ["}"%char]), ((key ++ text) ++ ws ++ ["}"%char]).
    split_and!; [by rewrite <- !app_assoc|by rewrite <- !app_assoc|..].
    + rewrite scan_app, scan_app, Hkey. cbn [mbind option_bind]. rewrite Htext. cbn [mbind option_bind].
      apply scan_closing; [done|done|done|by right].
    + intros st' Hst' Hl'. destruct (Hadd st' Hst' Hl') as (s' & Hs' & E). rewrite scan_app, E. cbn [mbind option_bind].
      apply scan_closing; [done|done|done|by right].
  - destruct Hsep as (ws2 & Hws2 & ->).
    assert (Hcomma : ∀ s' st', finish s' → scan s' (ObjectValue :: st') (ws ++ ","%char :: ws2) = Some (BeginString, ObjectKey :: st')).
    { intros s' st' Hs'. apply scan_comma; [done|done|done|by right]. }
    rewrite <- app_assoc in Hscan2. apply (scan_rest _ _ _ _ _ _ Hscan2) in Hcomma as Hscan3; [|done].
    apply (Hmem _ _ _ _ BeginString st tail) in H as (Hc' & add & text2 & -> & -> & Htext2 & Hadd2); [|done..].
    split; [done|].
    exists ((key ++ compacted) ++ (ws ++ ","%char :: ws2) ++ add), ((key ++ text) ++ (ws ++ ","%char :: ws2) ++ text2).
    split_and!; [by rewrite <- !app_assoc|by rewrite <- !app_assoc|..].
    + rewrite scan_app, scan_app, Hkey. cbn [mbind option_bind]. rewrite Htext. cbn [mbind option_bind].
      rewrite scan_app, Hcomma by done. done.
    + intros st' Hst' Hl'. destruct (Hadd st' Hst' Hl') as (s' & Hs' & E). rewrite scan_app, E. cbn [mbind option_bind].
      rewrite scan_app, Hcomma by done. by apply Hadd2.
Qed.

Lemma elements_valid_step fuel : value_valid fuel → elements_valid fuel → elements_valid (S fuel).
Proof.
  intros Hval Helem w index es c st tail es' closing end_ c' Hc Hst Hl Ht Hscan. cbn [arrayElements]. intros H.
  invert_ok. destruct r as [[compacted e1] c1]. cbn beta iota in H.
  invert_ok. destruct r as [next closed]. rename Hr into Hvalue, Hr0 into Hsep.
  destruct (Hval index c (ArrayValue :: st) tail compacted e1 c1) as (Hc1 & Hok & text & s & -> & Hs & Htext); [done..|].
  rewrite <- app_assoc in Hscan. apply (scan_rest _ _ _ _ _ _ Hscan) in Htext as Hscan2.
  rewrite between_app in H.
  apply separator_scan in Hsep as (ws & Hws & Hsep). destruct closed.
  - injection H as <- <- <- <-. split; [done|]. rewrite Hsep.
    rewrite between_closing.
    exists compacted, [], (text ++ ws ++ ["]"%char]). split_and!; [done|done|constructor| |by rewrite <- !app_assoc|].
    + intros s' st' Hs' Hst'. apply scan_closing; [done|done|done|by left].
    + rewrite scan_app, Htext. cbn [mbind option_bind]. apply scan_closing; [done|done|done|by left].
  - destruct Hsep as (ws2 & Hws2 & ->).
    assert (Hcomma : sepGap (ws ++ ","%char :: ws2)).
    { intros s' st' Hs'. apply scan_comma; [done|done|done|by left]. }
    rewrite <- app_assoc in Hscan2. apply (scan_rest _ _ _ _ _ _ Hscan2) in Hcomma as Hscan3; [|done].
    apply (Helem _ _ _ _ st tail) in H as (Hc' & v & rest & text2 & -> & Hv & Hrest & Hclose & -> & Htext2); [|done..].
    split; [done|].
    exists compacted, (mkElement (ws ++ ","%char :: ws2) v :: rest), (text ++ (ws ++ ","%char :: ws2) ++ text2).
    split_and!; [by rewrite <- app_assoc|done|by constructor|done|by rewrite <- !app_assoc|].
    rewrite scan_app, Htext. cbn [mbind option_bind]. by rewrite scan_app, Hcomma.
Qed.

Lemma value_string fuel rest c st tail out end_ c' :
  validC c → length st ≤ maxDepth → is_Some (scan InString st (rest ++ tail)) →
  value Sum256 (S fuel) (QUOTE :: rest) c = Ok (out, end_, c') →
  validC c' ∧ okValue (length st) out ∧
  ∃ text s, QUOTE :: rest = text ++ end_ ∧ finish s ∧ scan BeginValue st text = Some (s, st).
Proof.
  intros Hc Hl Hscan. cbn [value]. rewrite (bool_decide_eq_true_2 (QUOTE = QUOTE)) by done.
  destruct (stringLiteralEnd rest) as [close|] eqn:He; [|done].
  destruct (scan_string rest close InString st tail) as (body & E & Hbody); [done..|].
  assert (Hlit : ∀ st', scan BeginValue st' (QUOTE :: body ++ [QUOTE]) = Some (EndValue, st')).
  { intros st'. change (scan BeginValue st' (QUOTE :: body ++ [QUOTE])) with (scan InString st' (body ++ [QUOTE])). apply Hbody. }
  assert (Ewhole : QUOTE :: rest = (QUOTE :: body ++ [QUOTE]) ++ drop 1 close).
  { rewrite E. cbn [app]. by rewrite <- app_assoc. }
  rewrite Ewhole, between_app. case_bool_decide as Hlen.
  - destruct (reference Sum256 _ c) as [ref c1] eqn:Hr. intros [= <- <- <-].
    eapply (reference_valid _ _ _ _ EndValue) in Hr as [Hc1 Href]; [|done|done|done|apply Hlit].
    split; [done|]. split; [by eapply okValue_weaken|]. by exists (QUOTE :: body ++ [QUOTE]), EndValue.
  - intros [= <- <- <-]. split; [done|]. split; [|by exists (QUOTE :: body ++ [QUOTE]), EndValue].
    intros st' _ _. by exists EndValue.
Qed.

Lemma value_primitive fuel ch rest c st tail out end_ c' :
  ch ≠ QUOTE → ch ≠ "{"%char → ch ≠ "["%char →
  validC c → valuePos st → closes tail → is_Some (scan BeginValue st ((ch :: rest) ++ tail)) →
  value Sum256 (S fuel) (ch :: rest) c = Ok (out, end_, c') →
  validC c' ∧ okValue (length st) out ∧
  ∃ text s, ch :: rest = text ++ end_ ∧ finish s ∧ scan BeginValue st text = Some (s, st).
Proof.
  intros Hq Hb Hk Hc Hst Ht Hscan. cbn [value].
  rewrite (bool_decide_eq_false_2 (ch = QUOTE)), (bool_decide_eq_false_2 (ch = "{"%char)),
    (bool_decide_eq_false_2 (ch = "["%char)) by done.
  case_bool_decide as Hlen; [done|]. intros [= <- <- <-]. split; [done|].
  change (if endsPrimitive ch then ch :: rest else primitiveEnd rest) with (primitiveEnd (ch :: rest)).
  assert (Hch : endsPrimitive ch = false) by (cbn [primitiveEnd] in Hlen; destruct (endsPrimitive ch); [done|done]).
  cbn [app] in Hscan. apply scan_cons_inv in Hscan as (s1 & st1 & Hstep & Hscan).
  destruct (beginValue_primitive ch st s1 st1 Hq Hb Hk Hch Hstep) as [Hs1 Hall].
  assert (st1 = st) as -> by (specialize (Hall st); congruence).
  destruct (scan_primitive rest s1 st tail Hs1 Hst Ht Hscan) as (p & s & E & Hs & Hp).
  assert (Epe : primitiveEnd (ch :: rest) = primitiveEnd rest) by (cbn [primitiveEnd]; by rewrite Hch).
  assert (Ewhole : ch :: rest = (ch :: p) ++ primitiveEnd (ch :: rest)) by (rewrite Epe; cbn [app]; by rewrite <- E).
  assert (Hscan' : ∀ st', scan BeginValue st' (ch :: p) = Some (s, st')).
  { intros st'. cbn [scan]. rewrite Hall. apply Hp. }
  assert (Ebetween : between (ch :: rest) (primitiveEnd (ch :: rest)) = ch :: p).
  { rewrite Ewhole at 1. apply between_app. }
  rewrite Ebetween. split; [intros st' _ _; by exists s|]. by exists (ch :: p), s.
Qed.

Lemma value_object fuel rest c st tail out end_ c' : members_valid fuel →
  validC c → valuePos st → length st ≤ maxDepth → closes tail →
  is_Some (scan BeginValue st (("{"%char :: rest) ++ tail)) →
  value Sum256 (S fuel) ("{"%char :: rest) c = Ok (out, end_, c') →
  validC c' ∧ okValue (length st) out ∧
  ∃ text s, "{"%char :: rest = text ++ end_ ∧ finish s ∧ scan BeginValue st text = Some (s, st).
Proof.
  intros Hmem Hc Hst Hl Ht Hscan. cbn [value]. rewrite (bool_decide_eq_false_2 ("{"%char = QUOTE)) by done.
  rewrite (bool_decide_eq_true_2 ("{"%char = "{"%char)) by done.
  cbn [app] in Hscan. apply scan_cons_inv in Hscan as (s1 & st1 & Hstep & Hscan).
  change (scanStep BeginValue "{" st) with (push ObjectKey st BeginStringOrEmpty) in Hstep.
  assert (Hpush : length st < maxDepth).
  { unfold push in Hstep. destruct (Z.leb_spec (Z.of_nat (S (length st))) maxNestingDepth); [|done].
    unfold maxDepth, maxNestingDepth in *. lia. }
  rewrite push_ok in Hstep by done. injection Hstep as <- <-.
  destruct (skipSpace_spaces rest) as (w & E & Hw). set (index := skipSpace rest) in *. clearbody index. subst rest.
  assert (Hopen : ∀ st' body, length st' < maxDepth →
    scan BeginValue st' ("{"%char :: w ++ body) = scan BeginStringOrEmpty (ObjectKey :: st') body).
  { intros st' body Hst'. cbn [scan]. change (scanStep BeginValue "{" st') with (push ObjectKey st' BeginStringOrEmpty).
    rewrite push_ok by done. cbn [mbind option_bind]. by rewrite scan_app, scan_idle. }
  rewrite <- app_assoc, scan_app, scan_idle in Hscan by done. cbn [mbind option_bind] in Hscan.
  destruct (startsWith "}" index) eqn:Hclose.
  - apply startsWith_cons in Hclose. rewrite Hclose. cbn [drop]. rewrite between_closing.
    assert (Hobj : ∀ st', valuePos st' → length st' < maxDepth →
       scan BeginValue st' ("{"%char :: w ++ ["}"%char]) = Some (EndValue, st')).
    { intros st' Hst' Hl'. rewrite Hopen by done.
      cbn [scan]. change (scanStep BeginStringOrEmpty "}" (ObjectKey :: st')) with (pop (ObjectValue :: st')).
      by rewrite pop_ok by by apply valuePos_ne. }
    intros [= <- <- <-]. split; [done|]. split.
    + intros st' Hst' Hl'. exists EndValue. split; [done|]. apply Hobj; [done|lia].
    + exists ("{"%char :: w ++ ["}"%char]), EndValue. split_and!; [cbn [app]; by rewrite <- app_assoc|done|by apply Hobj].
  - intros H. apply (Hmem _ _ _ _ BeginStringOrEmpty st tail) in H as (Hc' & add & text & -> & -> & Htext & Hadd); [|done..].
    split; [done|]. split.
    + intros st' Hst' Hl'. exists EndValue. split; [done|]. cbn [app]. rewrite Hopen by lia. by apply Hadd.
    + exists ("{"%char :: w ++ text), EndValue. split_and!; [cbn [app]; by rewrite <- app_assoc|done|]. by rewrite Hopen.
Qed.

Lemma value_array fuel rest c st tail out end_ c' : elements_valid fuel →
  validC c → valuePos st → length st ≤ maxDepth → closes tail →
  is_Some (scan BeginValue st (("["%char :: rest) ++ tail)) →
  value Sum256 (S fuel) ("["%char :: rest) c = Ok (out, end_, c') →
  validC c' ∧ okValue (length st) out ∧
  ∃ text s, "["%char :: rest = text ++ end_ ∧ finish s ∧ scan BeginValue st text = Some (s, st).
Proof.
  intros Helem Hc Hst Hl Ht Hscan. cbn [value]. rewrite (bool_decide_eq_false_2 ("["%char = QUOTE)) by done.
  rewrite (bool_decide_eq_false_2 ("["%char = "{"%char)) by done.
  rewrite (bool_decide_eq_true_2 ("["%char = "["%char)) by done.
  cbn [app] in Hscan. apply scan_cons_inv in Hscan as (s1 & st1 & Hstep & Hscan).
  change (scanStep BeginValue "[" st) with (push ArrayValue st BeginValueOrEmpty) in Hstep.
  assert (Hpush : length st < maxDepth).
  { unfold push in Hstep. destruct (Z.leb_spec (Z.of_nat (S (length st))) maxNestingDepth); [|done].
    unfold maxDepth, maxNestingDepth in *. lia. }
  rewrite push_ok in Hstep by done. injection Hstep as <- <-.
  destruct (skipSpace_spaces rest) as (w & E & Hw).
  assert (Hhead : ∀ d x, skipSpace rest = d :: x → is_space d = false) by (intros d x; apply skipSpace_head).
  set (index := skipSpace rest) in *. clearbody index. subst rest.
  assert (Hopen : ∀ st' body, length st' < maxDepth →
    scan BeginValue st' ("["%char :: w ++ body) = scan BeginValueOrEmpty (ArrayValue :: st') body).
  { intros st' body Hst'. cbn [scan]. change (scanStep BeginValue "[" st') with (push ArrayValue st' BeginValueOrEmpty).
    rewrite push_ok by done. cbn [mbind option_bind]. by rewrite scan_app, scan_idle. }
  rewrite <- app_assoc, scan_app, scan_idle in Hscan by done. cbn [mbind option_bind] in Hscan.
  destruct (startsWith "]" index) eqn:Hclose.
  - apply startsWith_cons in Hclose. rewrite Hclose. cbn [drop]. rewrite between_closing. cbn [mbind outcome_bind].
    assert (Harr : ∀ st', valuePos st' → length st' < maxDepth →
       scan BeginValue st' ("["%char :: w ++ ["]"%char]) = Some (EndValue, st')).
    { intros st' Hst' Hl'. rewrite Hopen by done.
      cbn [scan]. change (scanStep BeginValueOrEmpty "]" (ArrayValue :: st')) with (pop (ArrayValue :: st')).
      by rewrite pop_ok by by apply valuePos_ne. }
    assert (foldLevels Sum256 maxRunLevels [] c = ([], c)) as -> by done.
    intros [= <- <- <-]. split; [done|]. split.
    + intros st' Hst' Hl'. exists EndValue. split; [done|]. apply Harr; [done|lia].
    + exists ("["%char :: w ++ ["]"%char]), EndValue. split_and!; [cbn [app]; by rewrite <- app_assoc|done|by apply Harr].
  - intros H. invert_ok. destruct r as [[[es closing] e1] c1]. cbn beta iota in H.
    assert (Hscan1 : is_Some (scan BeginValue (ArrayValue :: st) (index ++ tail)) ∧
            ∀ stk body, scan BeginValueOrEmpty stk (index ++ body) = scan BeginValue stk (index ++ body)).
    { destruct index as [|d x]; [by destruct fuel as [|[]]|]. specialize (Hhead d x eq_refl).
      assert (Hd : d ≠ "]"%char).
      { intros ->. unfold startsWith in Hclose. cbn in Hclose. done. }
      assert (Hsame : ∀ stk body, scan BeginValueOrEmpty stk ((d :: x) ++ body) = scan BeginValue stk ((d :: x) ++ body)).
      { intros stk body. cbn [app scan scanStep]. rewrite Hhead. by rewrite bool_decide_eq_false_2. }
      split; [|done]. by rewrite <- Hsame. }
    destruct Hscan1 as [Hscan1 Hsame].
    apply (Helem _ _ _ _ st tail) in Hr as (Hc1 & v & rest & text & -> & Hv & Hrest & Hclosing & -> & Htext); [|done..].
    cbn [app] in H. destruct (foldLevels Sum256 maxRunLevels _ c1) as [folded c2] eqn:Hfold.
    apply (foldLevels_valid (S (length st))) in Hfold as (Hc2 & Hok & Hne); [| |done|by split_and!].
    2:{ split; [|lia]. destruct st; [done|simpl; lia]. }
    injection H as <- <- <-. split; [done|]. split.
    + intros st' Hst' Hl'. exists EndValue. split; [done|].
      cbn [scan]. change (scanStep BeginValue "[" st') with (push ArrayValue st' BeginValueOrEmpty).
      rewrite push_ok by lia. cbn [mbind option_bind]. destruct folded as [|e folded].
      * by destruct Hne.
      * destruct Hok as (Hg & He & Hr). cbn [runRest]. rewrite <- !app_assoc, scan_app, scan_idle by done. cbn [mbind option_bind].
        destruct (He (ArrayValue :: st')) as (s1 & Hs1 & E1); [done|simpl; lia|].
        rewrite scan_app, (scan_orEmpty _ _ _ _ Hs1 E1). cbn [mbind option_bind].
        destruct (scan_runRest _ _ s1 st' Hr) as (s2 & Hs2 & E2); [simpl; lia|done|].
        rewrite scan_app, E2. cbn [mbind option_bind]. by apply Hclosing.
    + exists ("["%char :: w ++ text), EndValue. split_and!; [cbn [app]; by rewrite <- app_assoc|done|].
      rewrite Hopen by done. by apply scan_orEmpty.
Qed.

Lemma descent_valid fuel : value_valid fuel ∧ members_valid fuel ∧ elements_valid fuel.
Proof.
  induction fuel as [|fuel (Hv & Hm & He)]; [split_and!; red; intros; done|].
  split_and!; [|by apply members_valid_step|by apply elements_valid_step].
  intros start c st tail out end_ c' Hc Hst Hl Ht Hscan Hval. destruct start as [|ch rest]; [done|].
  destruct (decide (ch = QUOTE)) as [->|Hq].
  - cbn [app] in Hscan. change (is_Some (scan InString st (rest ++ tail))) in Hscan. by eapply value_string.
  - destruct (decide (ch = "{"%char)) as [->|Hb]; [by eapply value_object|].
    destruct (decide (ch = "["%char)) as [->|Hk]; [by eapply value_array|]. by eapply value_primitive.
Qed.

Lemma value_bracket fuel rest c : returns (value Sum256 fuel ("]"%char :: rest) c) →
  value Sum256 fuel ("]"%char :: rest) c = Err errNotJSON.
Proof. destruct fuel as [|fuel]; [done|]. intros _. cbn [value].
  repeat (rewrite (bool_decide_eq_false_2 (_ = _ :> ascii)) by done). by rewrite bool_decide_eq_true_2. Qed.

End hash.

Lemma stored_valid Sum256 raw out bs :
  Json.Valid (GoBytes.bs "[[" ++ raw ++ GoBytes.bs "]]") = true → Compact Sum256 raw = Ok (out, bs) →
  Forall (λ b, ValidBlob Sum256 (Hash b) (Data b) = true) bs.
Proof.
  intros Hvalid. unfold Compact. destruct (_ || _ || _); [by intros [= _ <-]|].
  destruct (value Sum256 _ _ _) as [[[body end_] c]|e| |] eqn:E; [|by intros [= _ <-]|done..].
  case_bool_decide as Hend; cbn [negb]; [|by intros [= _ <-]].
  case_bool_decide; [by intros [= _ <-]|]. intros [= _ <-].
  destruct (skipSpace_spaces raw) as (w & Eraw & Hw).
  pose proof (skipSpace_head raw) as Hhead. set (start := skipSpace raw) in *. clearbody start. subst raw.
  assert (Hscan : is_Some (scan BeginValueOrEmpty [ArrayValue; ArrayValue] (start ++ GoBytes.bs "]] "))).
  { unfold Json.Valid in Hvalid. rewrite <- !app_assoc in Hvalid.
    change (scan BeginValue [] (GoBytes.bs "[[" ++ ?x)) with (scan BeginValueOrEmpty [ArrayValue; ArrayValue] x) in Hvalid.
    rewrite scan_app, scan_idle in Hvalid by done. cbn [mbind option_bind] in Hvalid.
    change (GoBytes.bs "]]" ++ [" "%char]) with (GoBytes.bs "]] ") in Hvalid.
    destruct (scan _ _ (start ++ _)) as [r|]; [by eexists|done]. }
  destruct start as [|ch rest]; [by destruct (valueFuel (w ++ []))|]. specialize (Hhead ch rest eq_refl).
  assert (Hch : ch ≠ "]"%char).
  { intros ->. rewrite value_bracket in E by (by rewrite E). done. }
  destruct (proj1 (descent_valid Sum256 (valueFuel (w ++ ch :: rest))) (ch :: rest) (mkCompactor [] ∅)
    [ArrayValue; ArrayValue] (GoBytes.bs "]] ") body end_ c) as [Hc _]; [constructor|done| | | |done|done].
  - unfold maxDepth, maxNestingDepth. simpl. lia.
  - by eexists.
  - cbn [app scan scanStep] in Hscan |- *. rewrite Hhead, bool_decide_eq_false_2 in Hscan by done. exact Hscan.
Qed.

(** C40: every blob [Compact] stores passes [ValidBlob], so no store refuses it and no
    fetch drops it, when the document still fits the nesting limit of the JSON decoder
    with two more brackets around it, that is, nests at most 9,998 deep. *)
Theorem Compact_blobs_valid Sum256 raw out bs :
  Json.Valid (GoBytes.bs "[[" ++ raw ++ GoBytes.bs "]]") = true → Compact Sum256 raw = Ok (out, bs) →
  Forall (λ b, ValidBlob Sum256 (Hash b) (Data b) = true) bs.
Proof. apply stored_valid. Qed.

Lemma Compact_blobs_valid_witness :
  Forall (λ b, ValidBlob BlobTheorems.sampleHash (Hash b) (Data b) = true) BlobTheorems.sampleBlobs.
Proof.
  apply (Compact_blobs_valid BlobTheorems.sampleHash BlobTheorems.sampleDocument BlobTheorems.sampleOut).
  - vm_compute. reflexivity.
  - exact BlobTheorems.sample_compacted.
Defined.

End BlobValid.
