(* ===== verification/BlobCache.v ===== *)
(** The least-recently-used cache of blobs (src/internal/pkg/contentblob/cache.go):
    a linked list of entries and a map from a hash to its element of the list, kept
    in step within a byte budget; and the fetch that reads through it. *)
From stdpp Require Import base gmap sets list strings.
From Stdlib Require Import ZArith Lia Ascii.
From S2P Require Import Prelude GoBytes Json Workspace ContentBlob BlobLayers BlobCompact.

Module BlobCache.
Import ContentBlob.

Record cacheEntry := mkCacheEntry { hash : bytes; data : bytes }.

(** [container/list]: the elements from front to back; an element is known by a
    number, as a Go program knows it by its address. *)
Local Abbreviation linked := (list (N * cacheEntry)).

Definition MoveToFront (element : N) (order : linked) : linked :=
  match list_find (λ e, e.1 = element) order with
  | Some (_, e) => e :: filter (λ e, e.1 ≠ element) order
  | None => order
  end.
Definition listRemove (element : N) (order : linked) : linked := filter (λ e, e.1 ≠ element) order.
Definition valueOf (element : N) (order : linked) : option cacheEntry :=
  snd <$> (snd <$> list_find (λ e, e.1 = element) order).

Record Cache := mkCache {
  budget : Z;
  used : Z;
  order : linked;
  entries : gmap bytes N;
  nextElement : N }.

Definition NewCache (budget : Z) : Cache := mkCache budget 0 [] ∅ 0.

Definition Get (h : bytes) (c : Cache) : option bytes * Cache :=
  match entries c !! h with
  | None => (None, c)
  | Some element =>
      let order := MoveToFront element (order c) in
      (Some (default [] (data <$> valueOf element order)),
       mkCache (budget c) (used c) order (entries c) (nextElement c))
  end.

Definition Contains (h : bytes) (c : Cache) : bool * Cache :=
  let '(d, c) := Get h c in (bool_decide (is_Some d), c).

(** The eviction loop of [Add]; [Back] of an empty list is nil, whose value the code
    would dereference. *)
Fixpoint evict (fuel : nat) (c : Cache) : outcome Cache :=
  if bool_decide (used c ≤ budget c)%Z then Ok c
  else match fuel with
  | O => OutOfFuel
  | S fuel =>
      match last (order c) with
      | None => Panic
      | Some (oldest, entry) =>
          evict fuel (mkCache (budget c) (wrap64 (used c - Z.of_nat (length (data entry))))
                        (listRemove oldest (order c)) (delete (hash entry) (entries c)) (nextElement c))
      end
  end.

Definition Add (h d : bytes) (c : Cache) : outcome Cache :=
  if bool_decide (budget c < Z.of_nat (length d))%Z then Ok c
  else match entries c !! h with
  | Some element =>
      Ok (mkCache (budget c) (used c) (MoveToFront element (order c)) (entries c) (nextElement c))
  | None =>
      let element := nextElement c in
      evict (S (length (order c)))
        (mkCache (budget c) (wrap64 (used c + Z.of_nat (length d)))
           ((element, mkCacheEntry h d) :: order c) (<[h := element]> (entries c)) (element + 1)%N)
  end.

(** ** The contract: a list of distinct hashes, most recently used first *)

Definition contents (c : Cache) : list (bytes * bytes) := (λ e, (hash e.2, data e.2)) <$> order c.
Definition sizes (l : list (bytes * bytes)) : Z := foldr (λ e acc, Z.of_nat (length e.2) + acc)%Z 0%Z l.

(** The longest part of the front of a list that fits into [room] bytes. *)
Fixpoint fitting (room : Z) (l : list (bytes * bytes)) : list (bytes * bytes) :=
  match l with
  | [] => []
  | e :: l =>
      let room := (room - Z.of_nat (length e.2))%Z in
      if bool_decide (0 ≤ room)%Z then e :: fitting room l else []
  end.

Definition others (h : bytes) (l : list (bytes * bytes)) : list (bytes * bytes) := filter (λ e, e.1 ≠ h) l.
Definition lookup (h : bytes) (l : list (bytes * bytes)) : option bytes :=
  snd <$> (snd <$> list_find (λ e, e.1 = h) l).

Definition lruGet (h : bytes) (l : list (bytes * bytes)) : option bytes * list (bytes * bytes) :=
  match lookup h l with
  | Some d => (Some d, (h, d) :: others h l)
  | None => (None, l)
  end.
Definition lruAdd (room : Z) (h d : bytes) (l : list (bytes * bytes)) : list (bytes * bytes) :=
  if bool_decide (room < Z.of_nat (length d))%Z then l
  else match lookup h l with
  | Some d' => (h, d') :: others h l
  | None => fitting room ((h, d) :: l)
  end.

(** The list and the map in step, before and after the eviction. *)
Record linkedInv (c : Cache) : Prop := {
  inv_budget : (0 ≤ budget c ≤ 2 ^ 61)%Z;
  inv_used : used c = sizes (contents c);
  inv_ids : NoDup (order c).*1;
  inv_hashes : NoDup (contents c).*1;
  inv_next : Forall (λ e, e.1 < nextElement c)%N (order c);
  inv_entries : ∀ h element, entries c !! h = Some element ↔
    ∃ d, (element, mkCacheEntry h d) ∈ order c }.

Definition inv (c : Cache) : Prop := linkedInv c ∧ (used c ≤ budget c)%Z.

Lemma sizes_nonneg l : (0 ≤ sizes l)%Z.
Proof. induction l; simpl; lia. Qed.
Lemma sizes_app l k : sizes (l ++ k) = (sizes l + sizes k)%Z.
Proof. induction l; simpl; lia. Qed.

Lemma sizes_perm l k : l ≡ₚ k → sizes l = sizes k.
Proof. induction 1; simpl in *; lia. Qed.

Lemma find_unique {A K} `{EqDecision K} (f : A → K) (l : list A) (a : A) (k : K) `{∀ x, Decision (f x = k)} :
  NoDup (f <$> l) → a ∈ l → f a = k →
  ∃ i, list_find (λ x, f x = k) l = Some (i, a).
Proof.
  intros Hnd Hin Hk. apply list_elem_of_lookup in Hin as [i Hi]. exists i. apply list_find_Some.
  split_and!; [done|done|]. intros j y Hj Hji Hy.
  assert (j = i); [|lia].
  apply (NoDup_lookup (f <$> l) j i k Hnd); rewrite list_lookup_fmap, ?Hj, ?Hi; simpl; congruence.
Qed.

Lemma find_absent {A K} (f : A → K) (l : list A) (k : K) `{∀ x, Decision (f x = k)} :
  k ∉ f <$> l → list_find (λ x, f x = k) l = None.
Proof.
  intros Hn. apply list_find_None. apply Forall_forall. intros x Hx <-. apply Hn. by apply list_elem_of_fmap_2.
Qed.

Lemma contents_fst c : (contents c).*1 = (λ e, hash e.2) <$> order c.
Proof. unfold contents. by rewrite <- list_fmap_compose. Qed.

Lemma lookup_Some h d l : NoDup l.*1 → (h, d) ∈ l → lookup h l = Some d.
Proof. intros Hnd Hin. unfold lookup. by destruct (find_unique fst l (h, d) h Hnd Hin) as [i ->]. Qed.
Lemma lookup_None h l : h ∉ l.*1 → lookup h l = None.
Proof. intros Hn. unfold lookup. by rewrite find_absent. Qed.

Lemma entries_contents c h element : linkedInv c → entries c !! h = Some element →
  ∃ d, (element, mkCacheEntry h d) ∈ order c ∧ (h, d) ∈ contents c.
Proof.
  intros Hc [d Hd]%(inv_entries c Hc). exists d. split; [done|].
  apply list_elem_of_fmap. by exists (element, mkCacheEntry h d).
Qed.

Lemma absent_contents c h : linkedInv c → entries c !! h = None → h ∉ (contents c).*1.
Proof.
  intros Hc Hn. rewrite contents_fst. intros ([e [h' d]] & -> & Hin)%list_elem_of_fmap. simpl in Hn.
  assert (entries c !! h' = Some e) by (apply (inv_entries c Hc); eauto). congruence.
Qed.

(** Elements and hashes single out the same entries. *)
Lemma listRemove_contents c h element d :
  linkedInv c → (element, mkCacheEntry h d) ∈ order c →
  (λ e : N * cacheEntry, (hash e.2, data e.2)) <$> listRemove element (order c) = others h (contents c).
Proof.
  intros Hc Hin. unfold listRemove, others, contents.
  assert (Hiff : ∀ e, e ∈ order c → e.1 = element ↔ hash e.2 = h).
  { intros [e [h' d']] He. simpl. split; intros ->.
    - destruct (find_unique fst _ _ element (inv_ids c Hc) He) as [i E1]; [done|].
      destruct (find_unique fst _ _ element (inv_ids c Hc) Hin) as [j E2]; [done|]. congruence.
    - assert (entries c !! h = Some e) by (apply (inv_entries c Hc); eauto).
      assert (entries c !! h = Some element) by (apply (inv_entries c Hc); eauto). congruence. }
  clear Hin. induction (order c) as [|e l IH]; [done|]. rewrite fmap_cons, (filter_cons (λ e : N * cacheEntry, e.1 ≠ element)),
    (filter_cons (λ e : bytes * bytes, e.1 ≠ h)). cbn [fst].
  specialize (IH (λ e' He, Hiff e' (list_elem_of_further _ _ _ He))).
  pose proof (Hiff e (list_elem_of_here _ _)) as He.
  destruct (decide (e.1 ≠ element)), (decide (hash e.2 ≠ h)); [|tauto..|done].
  rewrite fmap_cons. f_equal. exact IH.
Qed.

Lemma MoveToFront_perm element order : NoDup order.*1 → MoveToFront element order ≡ₚ order.
Proof.
  intros Hnd. unfold MoveToFront. destruct (list_find _ order) as [[i e]|] eqn:E; [|done].
  apply list_find_Some in E as (Hi & <- & _). apply list_elem_of_lookup_2 in Hi.
  induction order as [|x l IH]; [by apply elem_of_nil in Hi|]. rewrite fmap_cons, NoDup_cons in Hnd.
  destruct Hnd as [Hx Hnd].
  rewrite (filter_cons (λ e0 : N * cacheEntry, e0.1 ≠ e.1)). apply elem_of_cons in Hi as [->|Hi].
  - rewrite decide_False by tauto. f_equiv. clear -Hx. induction l as [|y l IH]; [done|].
    rewrite filter_cons, decide_True by set_solver. f_equiv. apply IH. set_solver.
  - rewrite decide_True by (intros E; apply Hx; rewrite E; by apply list_elem_of_fmap_2).
    etrans; [apply perm_swap|]. f_equiv. by apply IH.
Qed.

Lemma MoveToFront_contents c h element d :
  linkedInv c → (element, mkCacheEntry h d) ∈ order c →
  (λ e : N * cacheEntry, (hash e.2, data e.2)) <$> MoveToFront element (order c) =
    (h, d) :: others h (contents c).
Proof.
  intros Hc Hin. unfold MoveToFront.
  destruct (find_unique fst _ _ element (inv_ids c Hc) Hin) as [i ->]; [done|].
  rewrite fmap_cons. f_equal. by apply (listRemove_contents c h element d).
Qed.

Lemma linkedInv_perm c l : linkedInv c → l ≡ₚ order c →
  linkedInv (mkCache (budget c) (used c) l (entries c) (nextElement c)).
Proof.
  intros [Hb Hu Hi Hh Hn He] Hp.
  assert (Hc : contents (mkCache (budget c) (used c) l (entries c) (nextElement c)) ≡ₚ contents c)
    by (unfold contents; simpl; by rewrite Hp).
  split; simpl; try rewrite Hc; try rewrite Hp; try done.
  - rewrite Hu. by apply sizes_perm.
  - intros h element. rewrite He. by setoid_rewrite Hp.
Qed.

Lemma Get_ok h c : inv c →
  let '(o, c') := Get h c in inv c' ∧ budget c' = budget c ∧ (o, contents c') = lruGet h (contents c).
Proof.
  intros [Hc Hf]. unfold Get, lruGet. destruct (entries c !! h) as [element|] eqn:E.
  - destruct (entries_contents c h element Hc E) as (d & Hin & Hd).
    rewrite (lookup_Some h d) by (done || apply Hc).
    assert (Hp : MoveToFront element (order c) ≡ₚ order c) by apply MoveToFront_perm, Hc.
    split; [by split; [apply linkedInv_perm|]|]. split; [done|].
    unfold contents at 1. cbn [order]. rewrite (MoveToFront_contents c h element d) by done. f_equal.
    unfold valueOf. destruct (find_unique fst (MoveToFront element (order c)) (element, mkCacheEntry h d) element)
      as [i Hi]; [rewrite Hp; apply Hc|by rewrite Hp|done|].
    by rewrite Hi.
  - rewrite lookup_None by by apply absent_contents. done.
Qed.

Lemma fitting_all room l : (sizes l ≤ room)%Z → fitting room l = l.
Proof.
  revert room. induction l as [|e l IH]; intros room; [done|]. cbn [fitting sizes foldr]. intros H.
  pose proof (sizes_nonneg l). unfold sizes in *. rewrite bool_decide_eq_true_2 by lia. by rewrite IH by lia.
Qed.

Lemma fitting_snoc room l e : (room < sizes (l ++ [e]))%Z → fitting room (l ++ [e]) = fitting room l.
Proof.
  revert room. induction l as [|x l IH]; intros room; cbn [app fitting].
  - intros H. simpl in H. by rewrite bool_decide_eq_false_2 by lia.
  - cbn [sizes foldr]. intros H. case_bool_decide; [|done]. f_equal. apply IH. unfold sizes. lia.
Qed.

Lemma listRemove_last element e l : NoDup (l ++ [(element, e)]).*1 → listRemove element (l ++ [(element, e)]) = l.
Proof.
  rewrite fmap_app. intros (_ & Hn & _)%NoDup_app. unfold listRemove.
  set (P := λ e0 : N * cacheEntry, e0.1 ≠ element).
  rewrite (filter_app P), (filter_cons_False P (element, e)) by (unfold P; naive_solver).
  rewrite (filter_nil P), app_nil_r.
  induction l as [|x l IH]; [done|]. rewrite (filter_cons_True P x).
  - f_equal. apply IH. set_solver.
  - intros E. apply (Hn x.1); set_solver.
Qed.

Lemma evict_ok fuel c : linkedInv c → (used c ≤ 2 ^ 62)%Z → length (order c) ≤ fuel →
  ∃ c', evict fuel c = Ok c' ∧ inv c' ∧ budget c' = budget c ∧
        contents c' = fitting (budget c) (contents c).
Proof.
  revert c. induction fuel as [|fuel IH]; intros c Hc Hu Hf; cbn [evict].
  all: case_bool_decide as Hfit;
    [exists c; split; [done|]; split; [done|]; split; [done|];
     symmetry; apply fitting_all; rewrite <- (inv_used c Hc); done|].
  - exfalso. apply Hfit. rewrite (inv_used c Hc). unfold contents.
    destruct (order c); [|simpl in Hf; lia]. pose proof (inv_budget c Hc). simpl. lia.
  - destruct (last (order c)) as [[oldest [h d]]|] eqn:Hl.
    2:{ exfalso. apply Hfit. rewrite (inv_used c Hc). unfold contents. apply last_None in Hl as ->.
        pose proof (inv_budget c Hc). simpl. lia. }
    apply last_Some in Hl as [l Hl]. destruct c as [bg us ord ent nx]. cbn [order entries budget used nextElement data hash] in *. subst ord.
    destruct Hc as [Hb Hu' Hi Hh Hn He]. cbn [order entries budget used nextElement] in Hb, Hi, Hn, He.
    rewrite listRemove_last by done. unfold contents in Hu', Hh. cbn [order] in Hu', Hh.
    cbn [used] in Hu'. rewrite fmap_app in Hu', Hh. cbn in Hu', Hh. rewrite sizes_app in Hu'. cbn in Hu'.
    rewrite fmap_app in Hh. rewrite fmap_app in Hi. cbn in Hh, Hi. apply NoDup_app in Hh as (Hh & Hh' & _), Hi as (Hi & Hi' & _).
    pose proof (sizes_nonneg ((λ e : N * cacheEntry, (hash e.2, data e.2)) <$> l)).
    rewrite wrap64_id by (unfold min_int64, max_int64; lia).
    edestruct (IH (mkCache bg (us - Z.of_nat (length d)) l (delete h ent) nx)) as (c' & -> & Hinv & Hbg & Hcont).
    + split; cbn [budget used order entries nextElement]; try done.
      * unfold contents. cbn [order]. lia.
      * by apply Forall_app in Hn as [? _].
      * intros h' element. rewrite lookup_delete_Some, He. split.
        -- intros (Hne & d' & Hin). exists d'. apply elem_of_app in Hin as [?|Hin]; [done|].
           apply list_elem_of_singleton in Hin. congruence.
        -- intros [d' Hin]. split; [|exists d'; set_solver]. intros <-. apply (Hh' h); [|set_solver].
           rewrite <- list_fmap_compose. apply list_elem_of_fmap. by exists (element, mkCacheEntry h d').
    + cbn. lia.
    + cbn. rewrite length_app in Hf. simpl in Hf. lia.
    + exists c'. split; [done|]. split; [done|]. split; [done|]. rewrite Hcont. unfold contents. cbn [order budget].
      rewrite fmap_app. cbn. symmetry. apply fitting_snoc. rewrite sizes_app. cbn. lia.
Qed.

Lemma Add_ok h d c : inv c →
  ∃ c', Add h d c = Ok c' ∧ inv c' ∧ budget c' = budget c ∧
        contents c' = lruAdd (budget c) h d (contents c).
Proof.
  intros [Hc Hf]. unfold Add, lruAdd. case_bool_decide as Hl; [by exists c|].
  destruct (entries c !! h) as [element|] eqn:E.
  - destruct (entries_contents c h element Hc E) as (d' & Hin & Hd).
    rewrite (lookup_Some h d') by (done || apply Hc). eexists. split; [done|].
    split; [split; [apply linkedInv_perm; [done|apply MoveToFront_perm, Hc]|done]|]. split; [done|].
    unfold contents at 1. cbn [order]. by apply MoveToFront_contents.
  - pose proof (absent_contents c h Hc E) as Habs. rewrite lookup_None by done.
    pose proof (inv_budget c Hc). pose proof (sizes_nonneg (contents c)). pose proof (inv_used c Hc).
    rewrite wrap64_id by (unfold min_int64, max_int64; lia).
    match goal with |- context [evict _ ?c0] => apply (evict_ok (S (length (order c))) c0) end; [|cbn; lia|done].
    destruct Hc as [Hb Hu Hi Hh Hn He]. split; cbn [budget used order entries nextElement]; try done.
    + unfold contents in *. cbn [order]. rewrite fmap_cons.
      change (sizes (?e :: ?l)) with (Z.of_nat (length e.2) + sizes l)%Z. cbn [snd data]. lia.
    + rewrite fmap_cons. apply NoDup_cons. split; [|done]. intros Hin. apply list_elem_of_fmap in Hin as (x & Hx & Hin).
      rewrite Forall_forall in Hn. specialize (Hn x Hin). simpl in Hx. rewrite <- Hx in Hn. lia.
    + unfold contents in *. cbn [order]. rewrite !fmap_cons. apply NoDup_cons. by split.
    + constructor; [simpl; lia|]. eapply Forall_impl; [exact Hn|]. simpl. lia.
    + intros h' element. rewrite lookup_insert_Some, He. split.
      * intros [[<- <-]|[Hne [d' Hin]]]; [exists d; left|exists d'; by right].
      * intros [d' [Heq|Hin]%elem_of_cons]; [left; by injection Heq as -> -> ->|right]. split; [|eauto].
        intros <-. assert (entries c !! h = Some element) by (apply He; eauto). congruence.
Qed.

Lemma inv_NewCache n : (0 ≤ n ≤ 2 ^ 61)%Z → inv (NewCache n).
Proof.
  intros Hn. split; [|cbn; lia]. split; cbn; [done|done|constructor|constructor|constructor|].
  intros h element. rewrite lookup_empty. split; [done|]. intros [d Hd]. by apply elem_of_nil in Hd.
Qed.

(** ** Any history of the cache *)

Inductive cacheOp := OpGet (h : bytes) | OpAdd (h d : bytes).

Definition cacheStep (st : list (option bytes) * Cache) (op : cacheOp) : outcome (list (option bytes) * Cache) :=
  match op with
  | OpGet h => let '(d, c) := Get h st.2 in Ok (st.1 ++ [d], c)
  | OpAdd h d => c ← Add h d st.2; Ok (st.1, c)
  end.

Definition lruStep (room : Z) (st : list (option bytes) * list (bytes * bytes)) (op : cacheOp)
    : list (option bytes) * list (bytes * bytes) :=
  match op with
  | OpGet h => let '(d, l) := lruGet h st.2 in (st.1 ++ [d], l)
  | OpAdd h d => (st.1, lruAdd room h d st.2)
  end.

Lemma cacheStep_ok n st l op : inv st.2 → budget st.2 = n → contents st.2 = l →
  ∃ st', cacheStep st op = Ok st' ∧ inv st'.2 ∧ budget st'.2 = n ∧
         (st'.1, contents st'.2) = lruStep n (st.1, l) op.
Proof.
  destruct st as [res c]. cbn [fst snd]. intros Hi Hb <-. destruct op as [h|h d]; cbn [cacheStep lruStep fst snd].
  - pose proof (Get_ok h c Hi) as H. destruct (Get h c) as [o c']. destruct H as (Hi' & Hb' & <-).
    eexists. split; [done|]. split_and!; [done|cbn; congruence|done].
  - destruct (Add_ok h d c Hi) as (c' & -> & Hi' & Hb' & Hcont). eexists. split; [done|]. cbn.
    split_and!; [done|congruence|by rewrite Hcont, Hb].
Qed.

(** Every history of [Get] and [Add] answers as the list of the most recently
    used blobs does, never dereferences the end of an empty list, and never keeps
    more than the budget: an added blob goes to the front and the longest front of
    the list that fits stays. *)
Theorem cache_refines_lru n ops : (0 ≤ n ≤ 2 ^ 61)%Z →
  ∃ res c, foldM cacheStep ops ([], NewCache n) = Ok (res, c) ∧
    (res, contents c) = foldl (lruStep n) ([], []) ops ∧
    NoDup (contents c).*1 ∧ used c = sizes (contents c) ∧ (sizes (contents c) ≤ n)%Z.
Proof.
  intros Hn. assert (H : ∀ st, inv st.2 → budget st.2 = n → ∃ st', foldM cacheStep ops st = Ok st' ∧
    inv st'.2 ∧ budget st'.2 = n ∧ (st'.1, contents st'.2) = foldl (lruStep n) (st.1, contents st.2) ops).
  { induction ops as [|op ops IH]; intros st Hi Hb; cbn [foldM foldl]; [eauto|].
    destruct (cacheStep_ok n st _ op Hi Hb eq_refl) as (st1 & -> & Hi1 & Hb1 & <-). by apply IH. }
  destruct (H ([], NewCache n)) as ([res c] & E & Hi & Hb & Hr); [by apply inv_NewCache|done|].
  exists res, c. split; [done|]. split; [exact Hr|]. destruct Hi as [Hl Hf]. cbn in Hl, Hf, Hb.
  split_and!; [apply Hl|apply Hl|]. rewrite <- (inv_used c Hl). lia.
Qed.

Definition sampleOps : list cacheOp :=
  [OpAdd (bs "a") (bs "xxx"); OpAdd (bs "b") (bs "yyy"); OpGet (bs "a"); OpAdd (bs "c") (bs "zz"); OpGet (bs "b")].

Lemma cache_refines_lru_witness :
  foldl (lruStep 6) ([], []) sampleOps =
    ([Some (bs "xxx"); None], [(bs "c", bs "zz"); (bs "a", bs "xxx")]) ∧
  ∃ res c, foldM cacheStep sampleOps ([], NewCache 6) = Ok (res, c) ∧
    (res, contents c) = foldl (lruStep 6) ([], []) sampleOps ∧
    NoDup (contents c).*1 ∧ used c = sizes (contents c) ∧ (sizes (contents c) ≤ 6)%Z.
Proof. split; [vm_compute; reflexivity|]. apply (cache_refines_lru 6 sampleOps). lia. Defined.

End BlobCache.
