(* ===== verification/BlobStore.v ===== *)
(** Reading and writing blobs: the fetch that goes through the cache
    (contentblob/cache.go), the workflow payload converter (contentblob/converter.go),
    the table of blobs and the columns that are restored after a query
    (db/contentblobs.go). *)
From stdpp Require Import base gmap sets list strings.
From Stdlib Require Import ZArith Lia Ascii.
From S2P Require Import Prelude GoBytes Json Workspace ContentBlob BlobLayers BlobCompact BlobCache.

Module BlobStore.
Import ContentBlob BlobLayers BlobCompact.

Section fetch.
Variable Sum256 : bytes → bytes.
(** The order in which Go ranges over a map. *)
Variable rangeOrder : gmap bytes bytes → list (bytes * bytes).

Fixpoint cachedBlobs (hashes : list bytes) (found : gmap bytes bytes) (missing : list bytes)
    (c : BlobCache.Cache) : gmap bytes bytes * list bytes * BlobCache.Cache :=
  match hashes with
  | [] => (found, missing, c)
  | h :: hashes =>
      match BlobCache.Get h c with
      | (Some d, c) => cachedBlobs hashes (<[h := d]> found) missing c
      | (None, c) => cachedBlobs hashes found (missing ++ [h]) c
      end
  end.

Fixpoint keepLoaded (loaded : list (bytes * bytes)) (found : gmap bytes bytes) (c : BlobCache.Cache)
    : outcome (gmap bytes bytes * BlobCache.Cache) :=
  match loaded with
  | [] => Ok (found, c)
  | (h, d) :: loaded =>
      if negb (ValidBlob Sum256 h d) then keepLoaded loaded found c
      else c ← BlobCache.Add h d c; keepLoaded loaded (<[h := d]> found) c
  end.

Definition CachedFetch {St} (load : FetchFunc St) : FetchFunc (BlobCache.Cache * St) :=
  λ hashes cs,
    let '(found, missing, c) := cachedBlobs hashes ∅ [] cs.1 in
    if bool_decide (missing = []) then (Ok found, (c, cs.2))
    else
      let '(r, s) := load missing cs.2 in
      match r with
      | Ok loaded =>
          match keepLoaded (rangeOrder loaded) found c with
          | Ok (found, c) => (Ok found, (c, s))
          | Err e => (Err e, (c, s))
          | Panic => (Panic, (c, s))
          | OutOfFuel => (OutOfFuel, (c, s))
          end
      | Err e => (Err e, (c, s))
      | Panic => (Panic, (c, s))
      | OutOfFuel => (OutOfFuel, (c, s))
      end.

(** ** What a store of blobs promises *)

(** The operations of contentblob.Store over states [St], the rows a state holds and
    how many blobs one request may name. *)
Class Store (St : Type) := {
  PutContentBlobs : list Blob → St → outcome unit * St;
  GetContentBlobs : FetchFunc St;
  rows : St → gmap bytes bytes;
  requestLimit : nat }.

Class StoreLaws (St : Type) `{Store St} : Prop := {
  put_returns : ∀ bs s, returns (PutContentBlobs bs s).1;
  put_keeps : ∀ bs s, rows s ⊆ rows (PutContentBlobs bs s).2;
  put_stores : ∀ bs s, (PutContentBlobs bs s).1 = Ok () →
    Forall (λ b, ValidBlob Sum256 (Hash b) (Data b) = true ∧
                 is_Some (rows (PutContentBlobs bs s).2 !! Hash b)) bs;
  put_accepts : ∀ bs s, length bs ≤ requestLimit →
    Forall (λ b, ValidBlob Sum256 (Hash b) (Data b) = true) bs → (PutContentBlobs bs s).1 = Ok ();
  put_adds : ∀ bs s h d, rows (PutContentBlobs bs s).2 !! h = Some d →
    rows s !! h = Some d ∨ mkBlob h d ∈ bs;
  get_rows : ∀ hs s, length hs ≤ requestLimit → ∃ m,
    GetContentBlobs hs s = (Ok m, s) ∧ ∀ h d, m !! h = Some d ↔ h ∈ hs ∧ rows s !! h = Some d }.

(** ** The converter *)

Definition DefaultCacheBytes : Z := 64 * 2 ^ 20.

Context {St : Type} `{Store St}.

Definition NewConverter : BlobCache.Cache := BlobCache.NewCache DefaultCacheBytes.

Fixpoint missingBlobs (blobs missing : list Blob) (c : BlobCache.Cache) : list Blob * BlobCache.Cache :=
  match blobs with
  | [] => (missing, c)
  | b :: blobs =>
      let '(cached, c) := BlobCache.Contains (Hash b) c in
      missingBlobs blobs (if (cached : bool) then missing else missing ++ [b]) c
  end.

Definition addAll (missing : list Blob) (c : BlobCache.Cache) : outcome BlobCache.Cache :=
  foldM (λ c b, BlobCache.Add (Hash b) (Data b) c) missing c.

(** [To], from what [json.Marshal] made of the value. *)
Definition To (marshalled : outcome bytes) (cs : BlobCache.Cache * St) : outcome bytes * (BlobCache.Cache * St) :=
  match marshalled with
  | Ok encoded =>
      match Compact Sum256 encoded with
      | Ok (compacted, blobs) =>
          let '(missing, c) := missingBlobs blobs [] cs.1 in
          if bool_decide (length missing ≠ 0) then
            let '(r, s) := PutContentBlobs missing cs.2 in
            match r with
            | Ok _ =>
                match addAll missing c with
                | Ok c => (Ok compacted, (c, s))
                | Err e => (Err e, (c, s))
                | Panic => (Panic, (c, s))
                | OutOfFuel => (OutOfFuel, (c, s))
                end
            | Err e => (Err e, (c, s))
            | Panic => (Panic, (c, s))
            | OutOfFuel => (OutOfFuel, (c, s))
            end
          else (Ok compacted, (c, cs.2))
      | Err e => (Err e, cs)
      | Panic => (Panic, cs)
      | OutOfFuel => (OutOfFuel, cs)
      end
  | Err e => (Err e, cs)
  | Panic => (Panic, cs)
  | OutOfFuel => (OutOfFuel, cs)
  end.

(** [From], with [json.Unmarshal] into the value the caller points to. *)
Definition From {V} (Unmarshal : bytes → outcome V) (payload : bytes) (cs : BlobCache.Cache * St)
    : outcome V * (BlobCache.Cache * St) :=
  let '(r, cs) := Expand payload (CachedFetch GetContentBlobs) cs in
  (expanded ← r; Unmarshal expanded, cs).

End fetch.

(** ** The table of blobs *)

(** The content_blobs table, keyed by hash. *)
Abbreviation Table := (gmap bytes bytes).

Section table.
Variable Sum256 : bytes → bytes.

Definition maximumContentBlobRequest : nat := 4096.
Definition contentBlobLookupChunk : nat := 1000.

(** [Create] with [OnConflict{DoNothing: true}]. *)
Definition createRows (bs : list Blob) (t : Table) : Table :=
  foldl (λ t b, match t !! Hash b with None => <[Hash b := Data b]> t | Some _ => t end) t bs.

Definition putContentBlobs (blobs : list Blob) (t : Table) : outcome unit * Table :=
  if bool_decide (maximumContentBlobRequest < length blobs) then (Err ErrValidationFailed, t)
  else if bool_decide (length blobs = 0) then (Ok (), t)
  else if forallb (λ b, ValidBlob Sum256 (Hash b) (Data b)) blobs then (Ok (), createRows blobs t)
  else (Err ErrValidationFailed, t).

(** The rows whose hash is one of [chunk]. *)
Definition findRows (chunk : list bytes) (t : Table) : gmap bytes bytes := filter (λ r, r.1 ∈ chunk) t.

(** The loop of [findContentBlobs], over the hashes from [start] on. *)
Fixpoint findChunks (fuel : nat) (hashes : list bytes) (found : gmap bytes bytes) (t : Table)
    : outcome (gmap bytes bytes) :=
  if bool_decide (hashes = []) then Ok found
  else match fuel with
  | O => OutOfFuel
  | S fuel =>
      let chunk := take contentBlobLookupChunk hashes in
      findChunks fuel (drop contentBlobLookupChunk hashes) (findRows chunk t ∪ found) t
  end.

Definition findContentBlobs : FetchFunc Table :=
  λ hashes t, (findChunks (length hashes) hashes ∅ t, t).

Definition getContentBlobs : FetchFunc Table :=
  λ hashes t,
    if bool_decide (maximumContentBlobRequest < length hashes) then (Err ErrValidationFailed, t)
    else findContentBlobs hashes t.

#[export] Instance Table_Store : Store Table := {|
  PutContentBlobs := putContentBlobs;
  GetContentBlobs := getContentBlobs;
  rows t := t;
  requestLimit := maximumContentBlobRequest |}.

End table.

(** [compactColumn] of session/contentblobs.go, inside the caller's transaction. *)
Definition compactColumn (Sum256 : bytes → bytes) (raw : bytes) (t : Table) : outcome bytes * Table :=
  match Compact Sum256 raw with
  | Ok (compacted, blobs) =>
      if bool_decide (length blobs = 0) then (Ok raw, t) else (Ok compacted, createRows blobs t)
  | Err e => (Err e, t)
  | Panic => (Panic, t)
  | OutOfFuel => (OutOfFuel, t)
  end.

(** ** Restoring the columns a query loaded *)

Section expander.
Variable Sum256 : bytes → bytes.
Variable rangeOrder : gmap bytes bytes → list (bytes * bytes).

(** A record of a query's destination, with the columns that may be compacted; a nil
    record of a list is [None]. *)
Inductive Loaded :=
  | LoadedModelCall (RequestMessagesJSON : bytes)
  | LoadedActivity (InputJSON : bytes) (OutputJSON : option bytes) (ContextJSON : bytes)
  | LoadedExecution (ContextJSON : bytes).

Definition loadedColumns (r : option Loaded) : list bytes :=
  match r with
  | None => []
  | Some (LoadedModelCall request) => [request]
  | Some (LoadedActivity input output context) => input :: option_list output ++ [context]
  | Some (LoadedExecution context) => [context]
  end.

(** The positions of the compacted columns among [columns], which start at [i]: the
    code collects pointers to them. *)
Fixpoint compactedColumns (i : nat) (columns : list bytes) : list nat :=
  match columns with
  | [] => []
  | column :: columns =>
      (if IsCompacted column then [i] else []) ++ compactedColumns (S i) columns
  end.

Record contentExpander := mkExpander { cache : BlobCache.Cache; documents : BlobCache.Cache }.

Definition newExpander : contentExpander :=
  mkExpander (BlobCache.NewCache DefaultCacheBytes) (BlobCache.NewCache DefaultCacheBytes).

(** The loop of [expand]: the columns, and the error added to the query. *)
Fixpoint expandColumns (positions : list nat) (columns : list bytes) (e : contentExpander) (t : Table)
    : outcome (list bytes * option sentinel * contentExpander) :=
  match positions with
  | [] => Ok (columns, None, e)
  | i :: positions =>
      column ← index_or_panic (columns !! i);
      match BlobCache.Get column (documents e) with
      | (Some expanded, docs) =>
          expandColumns positions (<[i := expanded]> columns) (mkExpander (cache e) docs) t
      | (None, docs) =>
          let '(r, (c, _)) := Expand column (CachedFetch Sum256 rangeOrder findContentBlobs) (cache e, t) in
          match r with
          | Ok expanded =>
              docs ← BlobCache.Add column expanded docs;
              expandColumns positions (<[i := expanded]> columns) (mkExpander c docs) t
          | Err err => Ok (columns, Some err, mkExpander c docs)
          | Panic => Panic
          | OutOfFuel => OutOfFuel
          end
      end
  end.

(** [expand], after a query that loaded [dest] or failed. *)
Definition expand (failed : bool) (dest : list (option Loaded)) (e : contentExpander) (t : Table)
    : outcome (list bytes * option sentinel * contentExpander) :=
  let columns := dest ≫= loadedColumns in
  if (failed : bool) then Ok (columns, None, e)
  else expandColumns (compactedColumns 0 columns) columns e t.

End expander.

(** ** The cache agrees with the rows *)

Definition cacheOf (P : bytes → bytes → Prop) (c : BlobCache.Cache) : Prop :=
  BlobCache.inv c ∧ ∀ h d, (h, d) ∈ BlobCache.contents c → P h d.

Definition coherent (c : BlobCache.Cache) (t : gmap bytes bytes) : Prop :=
  cacheOf (λ h d, t !! h = Some d) c.

Lemma coherent_mono c t t' : t ⊆ t' → coherent c t → coherent c t'.
Proof. intros Hs [Hc Hd]. split; [done|]. intros h d Hin. eapply lookup_weaken; [by apply Hd|done]. Qed.

Lemma cacheOf_new P n : (0 ≤ n ≤ 2 ^ 61)%Z → cacheOf P (BlobCache.NewCache n).
Proof. intros Hn. split; [by apply BlobCache.inv_NewCache|]. intros h d Hin. by apply elem_of_nil in Hin. Qed.

Lemma lookup_in h d l : BlobCache.lookup h l = Some d → (h, d) ∈ l.
Proof.
  unfold BlobCache.lookup. destruct (list_find _ l) as [[i [h' d']]|] eqn:E; [|done].
  apply list_find_Some in E as (Hi & <- & _). intros [= <-]. by eapply list_elem_of_lookup_2.
Qed.

Lemma others_incl h l e : e ∈ BlobCache.others h l → e ∈ l.
Proof. unfold BlobCache.others. rewrite (list_elem_of_filter (λ e : bytes * bytes, e.1 ≠ h)). tauto. Qed.

Lemma fitting_incl room l e : e ∈ BlobCache.fitting room l → e ∈ l.
Proof.
  revert room. induction l as [|x l IH]; intros room; [done|]. cbn [BlobCache.fitting].
  case_bool_decide; [|by intros ?%elem_of_nil]. rewrite !elem_of_cons. naive_solver.
Qed.

Lemma Get_cacheOf P h c o c' : cacheOf P c → BlobCache.Get h c = (o, c') →
  cacheOf P c' ∧ ∀ d, o = Some d → P h d.
Proof.
  intros [Hc Hd] E. pose proof (BlobCache.Get_ok h c Hc) as H. rewrite E in H.
  destruct H as (Hc' & _ & Hl). unfold BlobCache.lruGet in Hl.
  destruct (BlobCache.lookup h _) as [d|] eqn:Hlk; injection Hl as -> Hcont.
  - apply lookup_in in Hlk. split; [|intros ? [= <-]; by apply Hd]. split; [done|]. rewrite Hcont.
    intros h' d' [[= -> ->]|Hin%others_incl]%elem_of_cons; by apply Hd.
  - split; [|done]. split; [done|]. by rewrite Hcont.
Qed.

Lemma Add_cacheOf (P : bytes → bytes → Prop) h d c : cacheOf P c → P h d →
  ∃ c', BlobCache.Add h d c = Ok c' ∧ cacheOf P c'.
Proof.
  intros [Hc Hd] Ht. destruct (BlobCache.Add_ok h d c Hc) as (c' & E & Hc' & _ & Hcont).
  exists c'. split; [done|]. split; [done|]. rewrite Hcont. intros h' d'. unfold BlobCache.lruAdd.
  case_bool_decide; [by apply Hd|]. destruct (BlobCache.lookup h _) as [d0|] eqn:Hlk.
  - apply lookup_in in Hlk. intros [[= -> ->]|Hin%others_incl]%elem_of_cons; by apply Hd.
  - intros [[= -> ->]|Hin]%fitting_incl%elem_of_cons; [done|by apply Hd].
Qed.

(** A map of what was found: right about every hash it answers. *)
Definition answers (t found : gmap bytes bytes) : Prop := ∀ h d, found !! h = Some d → t !! h = Some d.

Lemma answers_insert t found h d : answers t found → t !! h = Some d → found ⊆ <[h := d]> found.
Proof.
  intros Hf Ht. apply map_subseteq_spec. intros x v Hx.
  destruct (decide (x = h)) as [->|]; [|by rewrite lookup_insert_ne].
  rewrite lookup_insert_eq. apply Hf in Hx. congruence.
Qed.

Lemma cachedBlobs_ok hashes found missing c t found' missing' c' :
  coherent c t → answers t found → cachedBlobs hashes found missing c = (found', missing', c') →
  coherent c' t ∧ answers t found' ∧ found ⊆ found' ∧
  ∃ rest, missing' = missing ++ rest ∧ rest `sublist_of` hashes ∧
          ∀ h, h ∈ hashes → h ∈ rest ∨ is_Some (found' !! h).
Proof.
  revert found missing c. induction hashes as [|h hashes IH]; intros found missing c Hc Hf; cbn [cachedBlobs].
  - intros [= <- <- <-]. split_and!; [done..|]. exists []. rewrite app_nil_r. split_and!; [done|done|].
    by intros h ?%elem_of_nil.
  - destruct (BlobCache.Get h c) as [[d|] c1] eqn:E; apply (Get_cacheOf (λ h d, t !! h = Some d)) in E as [Hc1 Hd]; try done.
    + specialize (Hd d eq_refl). intros H. apply IH in H as (Hc' & Hf' & Hsub & rest & -> & Hr & Hall); [|done|].
      2:{ intros h' d'. rewrite lookup_insert_Some. intros [[<- <-]|[_ ?]]; [done|by apply Hf]. }
      split_and!; [done|done| |].
      * etrans; [|exact Hsub]. by apply (answers_insert t).
      * exists rest. split_and!; [done|by apply sublist_cons|]. intros x [->|Hx]%elem_of_cons; [right|by apply Hall].
        exists d. eapply lookup_weaken; [|exact Hsub]. by rewrite lookup_insert_eq.
    + intros H. apply IH in H as (Hc' & Hf' & Hsub & rest & -> & Hr & Hall); [|done..].
      split_and!; [done..|]. exists (h :: rest). rewrite <- app_assoc. split_and!; [done|by apply sublist_skip|].
      intros x [->|Hx]%elem_of_cons; [left; left|]. destruct (Hall x Hx); [left; by right|by right].
Qed.

Section coherence.
Variable Sum256 : bytes → bytes.
Variable rangeOrder : gmap bytes bytes → list (bytes * bytes).
Hypothesis rangeOrder_perm : ∀ m, rangeOrder m ≡ₚ map_to_list m.

(** Every row was stored under the hash of its data. *)
Definition validRows (t : gmap bytes bytes) : Prop := ∀ h d, t !! h = Some d → ValidBlob Sum256 h d = true.

Lemma keepLoaded_ok loaded found c t :
  coherent c t → answers t found → (∀ h d, (h, d) ∈ loaded → t !! h = Some d) → validRows t →
  ∃ found' c', keepLoaded Sum256 loaded found c = Ok (found', c') ∧ coherent c' t ∧ answers t found' ∧
    found ⊆ found' ∧ ∀ h d, (h, d) ∈ loaded → found' !! h = Some d.
Proof.
  intros Hc Hf Hl Hv. revert found c Hc Hf. induction loaded as [|[h d] loaded IH]; intros found c Hc Hf; cbn [keepLoaded].
  - exists found, c. split_and!; [done..|]. by intros h d ?%elem_of_nil.
  - assert (Ht : t !! h = Some d) by (apply Hl; left). rewrite (Hv h d Ht). cbn [negb].
    destruct (Add_cacheOf _ h d c Hc Ht) as (c1 & -> & Hc1). simpl.
    destruct (IH (λ h' d' Hin, Hl h' d' (list_elem_of_further _ _ _ Hin)) (<[h := d]> found) c1)
      as (found' & c' & -> & Hc' & Hf' & Hsub & Hall); [done| |].
    { intros h' d'. rewrite lookup_insert_Some. intros [[<- <-]|[_ ?]]; [done|by apply Hf]. }
    exists found', c'. split_and!; [done..| |].
    + etrans; [|exact Hsub]. by apply (answers_insert t).
    + intros h' d' [[= -> ->]|Hin]%elem_of_cons; [|by apply Hall].
      eapply lookup_weaken; [|exact Hsub]. by rewrite lookup_insert_eq.
Qed.

Context {St : Type} `{Store St} `{!StoreLaws Sum256 St}.

(** A cache and a store state, in step, that hold the blobs [bs]. *)
Definition holding (bs : list Blob) (cs : BlobCache.Cache * St) : Prop :=
  coherent cs.1 (rows cs.2) ∧ validRows (rows cs.2) ∧
  Forall (λ b, rows cs.2 !! Hash b = Some (Data b)) bs.

Lemma CachedFetch_holds bs : length bs ≤ requestLimit →
  holds (holding bs) (CachedFetch Sum256 rangeOrder GetContentBlobs) bs.
Proof.
  intros Hlen hs [c s] (Hc & Hv & Hrows) Hnd Hin. cbn [fst snd] in *. rewrite Forall_forall in Hrows.
  unfold CachedFetch. cbn [fst snd].
  destruct (cachedBlobs hs ∅ [] c) as [[found missing] c1] eqn:E.
  apply (cachedBlobs_ok _ _ _ _ (rows s)) in E as (Hc1 & Hf & _ & rest & -> & Hsub & Hall);
    [|done|intros ?? Hx; by rewrite lookup_empty in Hx].
  cbn [app]. case_bool_decide as Hm.
  - subst rest. exists found, (c1, s). split; [done|]. split; [by split_and!; [| |apply Forall_forall]|].
    intros h d Hh Hd. destruct (Hall h Hh) as [?%elem_of_nil|[d' Hd']]; [done|].
    pose proof (Hf _ _ Hd') as Ht. specialize (Hrows _ Hd). cbn in Hrows. congruence.
  - destruct (get_rows Sum256 rest s) as (m & -> & Hmrows).
    { etrans; [by apply sublist_length|]. etrans; [|exact Hlen]. rewrite <- (length_fmap Hash bs).
      apply submseteq_length, NoDup_submseteq; [done|]. intros h Hh. destruct (Hin h Hh) as [d Hd].
      apply list_elem_of_fmap. by exists (mkBlob h d). }
    destruct (keepLoaded_ok (rangeOrder m) found c1 (rows s)) as (found' & c' & -> & Hc' & Hf' & Hsub' & Hall'); [done|done| |done|].
    { intros h d Hd. rewrite rangeOrder_perm in Hd. apply elem_of_map_to_list, Hmrows in Hd. tauto. }
    exists found', (c', s). split; [done|]. split; [by split_and!; [| |apply Forall_forall]|].
    intros h d Hh Hd. specialize (Hrows _ Hd). cbn in Hrows. destruct (Hall h Hh) as [Hr|[d' Hd']].
    + apply Hall'. rewrite rangeOrder_perm. by apply elem_of_map_to_list, Hmrows.
    + assert (found' !! h = Some d') as Hx by (by eapply lookup_weaken). rewrite Hx. apply Hf in Hd'. congruence.
Qed.

(** No row holds other data under the hash of a blob. *)
Definition agrees (bs : list Blob) (t : gmap bytes bytes) : Prop :=
  ∀ b d, b ∈ bs → t !! Hash b = Some d → d = Data b.

Lemma missingBlobs_ok blobs missing c t missing' c' :
  coherent c t → missingBlobs blobs missing c = (missing', c') →
  coherent c' t ∧ ∃ rest, missing' = missing ++ rest ∧ rest `sublist_of` blobs ∧
    ∀ b, b ∈ blobs → b ∈ rest ∨ is_Some (t !! Hash b).
Proof.
  revert missing c. induction blobs as [|b blobs IH]; intros missing c Hc; cbn [missingBlobs].
  - intros [= <- <-]. split; [done|]. exists []. rewrite app_nil_r. split_and!; [done|done|]. by intros b ?%elem_of_nil.
  - unfold BlobCache.Contains. destruct (BlobCache.Get (Hash b) c) as [o c1] eqn:E.
    apply (Get_cacheOf (λ h d, t !! h = Some d)) in E as [Hc1 Hd]; [|done]. intros Hm.
    apply IH in Hm as (Hc' & rest & -> & Hr & Hall); [|done]. split; [done|]. case_bool_decide as Ho.
    + exists rest. split_and!; [done|by apply sublist_cons|]. intros b' [->|Hb]%elem_of_cons; [|by apply Hall].
      right. destruct Ho as [d ->]. rewrite (Hd d eq_refl). by eexists.
    + exists (b :: rest). rewrite <- app_assoc. split_and!; [done|by apply sublist_skip|].
      intros b' [->|Hb]%elem_of_cons; [left; left|]. destruct (Hall b' Hb); [left; by right|by right].
Qed.

Lemma addAll_ok missing c t :
  coherent c t → Forall (λ b, t !! Hash b = Some (Data b)) missing →
  ∃ c', addAll missing c = Ok c' ∧ coherent c' t.
Proof.
  intros Hc Hm. apply (foldM_total _ (λ c, coherent c t)); [|done].
  intros c0 b Hb Hc0. rewrite Forall_forall in Hm. by apply (Add_cacheOf (λ h d, t !! h = Some d)), Hm.
Qed.

Lemma list_map_unique (bs : list Blob) b b' :
  NoDup (Hash <$> bs) → b ∈ bs → b' ∈ bs → Hash b = Hash b' → b = b'.
Proof.
  intros Hnd Hb Hb' E. destruct (BlobCache.find_unique Hash bs b (Hash b') Hnd Hb E) as [i Hi].
  destruct (BlobCache.find_unique Hash bs b' (Hash b') Hnd Hb' eq_refl) as [j Hj]. congruence.
Qed.

(** What [To] leaves behind: a store that holds every blob. *)
Lemma To_ok encoded payload blobs c s :
  coherent c (rows s) → validRows (rows s) → agrees blobs (rows s) →
  Compact Sum256 encoded = Ok (payload, blobs) → length blobs ≤ requestLimit →
  Forall (λ b, ValidBlob Sum256 (Hash b) (Data b) = true) blobs →
  ∃ c' s', To Sum256 (Ok encoded) (c, s) = (Ok payload, (c', s')) ∧ rows s ⊆ rows s' ∧
    coherent c' (rows s') ∧ validRows (rows s') ∧ Forall (λ b, rows s' !! Hash b = Some (Data b)) blobs.
Proof.
  intros Hc Hv Hag Hcomp Hlen Hvalid. unfold To. cbn [fst snd].
  destruct (Compact_cases Sum256 encoded) as (out & bs & E & Hcases). rewrite Hcomp in E. injection E as <- <-. rewrite Hcomp.
  assert (Hnd : NoDup (Hash <$> blobs)).
  { destruct Hcases as [[_ ->]|(_ & _ & ps & Hps)]; [constructor|apply Hps]. } clear Hcases.
  destruct (missingBlobs blobs [] c) as [missing c1] eqn:E.
  apply (missingBlobs_ok _ _ _ (rows s)) in E as (Hc1 & rest & -> & Hsub & Hall); [|done]. cbn [app].
  assert (Hin : ∀ b, b ∈ rest → b ∈ blobs) by (intros b Hb; by eapply elem_of_submseteq, sublist_submseteq).
  rewrite Forall_forall in Hvalid. case_bool_decide as Hm.
  - assert (Hput : (PutContentBlobs rest s).1 = Ok ()).
    { apply (put_accepts Sum256); [etrans; [by apply sublist_length|done]|]. apply Forall_forall. auto. }
    pose proof (put_keeps Sum256 rest s) as Hkeep. pose proof (put_stores Sum256 rest s Hput) as Hst.
    pose proof (put_adds Sum256 rest s) as Hadd.
    destruct (PutContentBlobs rest s) as [r s1]. cbn [fst snd] in *. subst r. rewrite Forall_forall in Hst.
    assert (Hrow : ∀ b, b ∈ blobs → is_Some (rows s1 !! Hash b) → rows s1 !! Hash b = Some (Data b)).
    { intros b Hb [d Hd]. rewrite Hd. f_equal. destruct (Hadd _ _ Hd) as [Hr|Hr]; [by apply (Hag b)|].
      pose proof (list_map_unique _ _ _ Hnd (Hin _ Hr) Hb eq_refl) as <-. done. }
    destruct (addAll_ok rest c1 (rows s1)) as (c2 & -> & Hc2).
    { by eapply coherent_mono. }
    { apply Forall_forall. intros b Hb. apply Hrow; [by apply Hin|]. by apply Hst. }
    exists c2, s1. split_and!; [done|done|done| |].
    + intros h d Hd. destruct (Hadd _ _ Hd) as [Hr|Hr]; [by apply Hv|]. by apply (Hst (mkBlob h d)).
    + apply Forall_forall. intros b Hb. apply Hrow; [done|]. destruct (Hall b Hb) as [Hr|[d Hr]]; [by apply Hst|].
      exists d. by eapply lookup_weaken.
  - exists c1, s. split_and!; [done..|].
    apply Forall_forall. intros b Hb. destruct rest; [|done]. destruct (Hall b Hb) as [?%elem_of_nil|[d Hd]]; [done|].
    rewrite Hd. f_equal. by apply (Hag b).
Qed.

End coherence.

End BlobStore.
