(* ===== verification/BlobTable.v ===== *)
(** The table of blobs keeps the promises of a store; payloads written through the
    converter are read back; and the columns restored after a query are what the
    table alone would give (db/contentblobs.go, contentblob/converter.go). *)
From stdpp Require Import base gmap sets list strings.
From Stdlib Require Import ZArith Lia Ascii.
From S2P Require Import Prelude GoBytes Json Workspace ContentBlob BlobLayers BlobCompact BlobTheorems BlobValid BlobCache BlobStore.

Module BlobTable.
Import ContentBlob BlobLayers BlobCompact BlobStore.

(** ** The table is a store *)

Lemma createRows_lookup bs t h d : createRows bs t !! h = Some d → t !! h = Some d ∨ mkBlob h d ∈ bs.
Proof.
  revert t. induction bs as [|b bs IH]; intros t; [by left|]. cbn [createRows foldl]. intros Hd.
  apply IH in Hd as [Hd|Hd]; [|right; by right].
  destruct (t !! Hash b) eqn:E; [by left|]. apply lookup_insert_Some in Hd as [[<- <-]|[_ Hd]]; [|by left].
  right. destruct b. left.
Qed.

Lemma createRows_keeps bs t : t ⊆ createRows bs t.
Proof.
  revert t. induction bs as [|b bs IH]; intros t; [done|]. cbn [createRows foldl]. etrans; [|apply IH].
  destruct (t !! Hash b) eqn:E; [done|]. by apply insert_subseteq.
Qed.

Lemma createRows_stores bs t b : b ∈ bs → is_Some (createRows bs t !! Hash b).
Proof.
  revert t. induction bs as [|b' bs IH]; intros t; [by intros ?%elem_of_nil|]. cbn [createRows foldl].
  intros [->|Hb]%elem_of_cons; [|by apply IH].
  assert (∃ d, match t !! Hash b' with None => <[Hash b' := Data b']> t | Some _ => t end !! Hash b' = Some d)
    as [d Hd] by (destruct (t !! Hash b') eqn:E; [eauto|rewrite lookup_insert_eq; eauto]).
  exists d. eapply lookup_weaken; [exact Hd|apply createRows_keeps].
Qed.

Lemma findChunks_ok fuel hashes found t : length hashes ≤ fuel →
  findChunks fuel hashes found t = Ok (filter (λ r, r.1 ∈ hashes) t ∪ found ).
Proof.
  intros Hf. assert (∃ m, findChunks fuel hashes found t = Ok m ∧
    ∀ h, m !! h = if bool_decide (h ∈ hashes) then match t !! h with Some d => Some d | None => found !! h end
                  else found !! h) as (m & -> & Hm).
  - revert hashes found Hf. induction fuel as [|fuel IH]; intros hashes found Hf; cbn [findChunks].
    + destruct hashes; [|simpl in Hf; lia]. exists found. split; [done|].
      intros h. rewrite bool_decide_eq_false_2; [done|apply not_elem_of_nil].
    + case_bool_decide as He; [exists found; split; [done|]; intros h; subst; done|].
      destruct (IH (drop contentBlobLookupChunk hashes)
        (findRows (take contentBlobLookupChunk hashes) t ∪ found)) as (m & -> & Hm).
      { rewrite length_drop. destruct hashes; [done|]. unfold contentBlobLookupChunk. simpl length in *. lia. }
      exists m. split; [done|]. intros h. rewrite Hm, lookup_union. unfold findRows.
      rewrite map_lookup_filter.
      assert (Hsplit : h ∈ hashes ↔ h ∈ take contentBlobLookupChunk hashes ∨ h ∈ drop contentBlobLookupChunk hashes)
        by (by rewrite <- elem_of_app, take_drop).
      destruct (t !! h) as [d|] eqn:E; simpl.
      * destruct (decide (h ∈ take contentBlobLookupChunk hashes)) as [Hi|Hi].
        -- rewrite option_guard_True by done. rewrite (bool_decide_eq_true_2 (h ∈ hashes)) by tauto.
           destruct (found !! h); case_bool_decide; done.
        -- rewrite option_guard_False by done. repeat case_bool_decide; try tauto; by destruct (found !! h).
      * repeat case_bool_decide; try tauto; by destruct (found !! h).
  - f_equal. apply map_eq. intros h. rewrite Hm, lookup_union, map_lookup_filter.
    destruct (t !! h) as [d|] eqn:E; simpl.
    + case_bool_decide; [rewrite option_guard_True by done|rewrite option_guard_False by done]; by destruct (found !! h).
    + case_bool_decide; by destruct (found !! h).
Qed.

Lemma findContentBlobs_ok hashes t :
  findContentBlobs hashes t = (Ok (filter (λ r, r.1 ∈ hashes) t), t).
Proof. unfold findContentBlobs. rewrite findChunks_ok by lia. by rewrite map_union_empty. Qed.

Section table.
Variable Sum256 : bytes → bytes.

#[export] Instance Table_StoreLaws : @StoreLaws Sum256 Table (Table_Store Sum256).
Proof.
  split; cbn [PutContentBlobs GetContentBlobs rows requestLimit Table_Store].
  - intros bs t. unfold putContentBlobs. by repeat case_match.
  - intros bs t. unfold putContentBlobs. repeat case_match; simpl; try done. apply createRows_keeps.
  - intros bs t. unfold putContentBlobs. case_bool_decide; [done|].
    case_bool_decide; [by destruct bs|]. destruct (forallb _ bs) eqn:Hv; [|done]. intros _. cbn [snd].
    apply Forall_forall. intros b Hb. split; [|by apply createRows_stores].
    rewrite forallb_forall in Hv. apply Hv. by apply list_elem_of_In.
  - intros bs t Hlen Hv. unfold putContentBlobs. rewrite bool_decide_eq_false_2 by lia.
    case_bool_decide; [done|].
    assert (forallb (λ b, ValidBlob Sum256 (Hash b) (Data b)) bs = true) as ->; [|done].
    apply forallb_forall. intros b Hb. rewrite Forall_forall in Hv. by apply Hv, list_elem_of_In.
  - intros bs t h d. unfold putContentBlobs. repeat case_match; simpl; try (by left). apply createRows_lookup.
  - intros hs t Hlen. unfold getContentBlobs. rewrite bool_decide_eq_false_2 by lia.
    rewrite findContentBlobs_ok. eexists. split; [done|]. intros h d. rewrite map_lookup_filter_Some. naive_solver.
Qed.

End table.

(** ** Expanding depends only on what the fetch answers *)

Lemma referencesFrom_mono fuel body (hs : list bytes) h : h ∈ hs → h ∈ referencesFrom fuel body hs.
Proof.
  revert body hs. induction fuel as [|fuel IH]; intros body hs Hh; [done|]. cbn [referencesFrom].
  destruct (nextReference body) as [[[before hash] next]|]; [|done]. apply IH. case_bool_decide; set_solver.
Qed.

Lemma spliceFrom_agree (fuel : nat) (body : bytes) (hs : list bytes) (m m' : gmap bytes bytes) :
  (∀ h : bytes, h ∈ referencesFrom fuel body hs → m !! h = m' !! h) →
  spliceFrom fuel body m = spliceFrom fuel body m'.
Proof.
  revert body hs. induction fuel as [|fuel IH]; intros body hs Hm; [done|]. cbn [spliceFrom referencesFrom] in *.
  destruct (nextReference body) as [[[before hash] next]|]; [|done].
  rewrite (Hm hash) by (apply referencesFrom_mono; case_bool_decide; set_solver).
  do 2 f_equal. by eapply IH.
Qed.

(** A fetch that answers exactly the rows of [t] for what it is asked. *)
Definition exact {S} (I : S → Prop) (fetch : FetchFunc S) (t : gmap bytes bytes) : Prop :=
  ∀ hs s, I s → NoDup hs → ∃ m s', fetch hs s = (Ok m, s') ∧ I s' ∧ ∀ h, h ∈ hs → m !! h = t !! h.

Lemma expandLayers_agree {S S'} (I : S → Prop) (I' : S' → Prop) fetch fetch' t n body s s' :
  exact I fetch t → exact I' fetch' t → I s → I' s' →
  (expandLayers n fetch body s).1 = (expandLayers n fetch' body s').1 ∧
  I (expandLayers n fetch body s).2 ∧ returns (expandLayers n fetch body s).1.
Proof.
  intros Hf Hf'. revert body s s'. induction n as [|n IH]; intros body s s' Hs Hs'; cbn [expandLayers]; [done|].
  case_bool_decide; [done|]. assert (Hnd : NoDup (referencesIn body)) by apply referencesFrom_NoDup, NoDup_nil_2.
  destruct (Hf _ s Hs Hnd) as (m & s1 & -> & Hs1 & Hm), (Hf' _ s' Hs' Hnd) as (m' & s1' & -> & Hs1' & Hm').
  assert (Hmm : ∀ h, h ∈ referencesIn body → m !! h = m' !! h) by (intros h Hh; by rewrite Hm, Hm').
  rewrite (bool_decide_ext (Forall (λ h, is_Some (m !! h)) (referencesIn body))
                           (Forall (λ h, is_Some (m' !! h)) (referencesIn body))).
  2:{ rewrite !Forall_forall. split; intros H' h Hh; specialize (H' h Hh); [by rewrite <- Hmm|by rewrite Hmm]. }
  case_bool_decide; [|done]. unfold splice. rewrite (spliceFrom_agree _ body [] m m') by exact Hmm. by apply IH.
Qed.

Lemma envelopeBody_Ok raw : IsCompacted raw = true → ∃ body, envelopeBody raw = Ok body.
Proof.
  intros [Hp Hs]%andb_true_iff. apply has_prefix_spec in Hp as [k ->]. apply has_suffix_spec in Hs as [k' E].
  unfold envelopeBody. eexists. apply slice_ok. rewrite !length_app.
  assert (0 < length k); [|change (length envelopeSuffix) with 1; lia].
  destruct k as [|]; [|simpl; lia]. rewrite app_nil_r in E. apply (f_equal last) in E.
  unfold envelopeSuffix in E. change (bs "}") with ["}"%char] in E. rewrite last_snoc in E. vm_compute in E. done.
Qed.

Lemma Expand_agree {S S'} (I : S → Prop) (I' : S' → Prop) fetch fetch' t raw s s' :
  exact I fetch t → exact I' fetch' t → I s → I' s' →
  (Expand raw fetch s).1 = (Expand raw fetch' s').1 ∧ I (Expand raw fetch s).2 ∧ returns (Expand raw fetch s).1.
Proof.
  intros Hf Hf' Hs Hs'. unfold Expand. destruct (IsCompacted raw) eqn:E; cbn [negb]; [|done].
  destruct (envelopeBody_Ok raw E) as [body ->]. case_bool_decide; [done|]. by eapply expandLayers_agree.
Qed.

Section expander.
Variable Sum256 : bytes → bytes.
Variable rangeOrder : gmap bytes bytes → list (bytes * bytes).
Hypothesis rangeOrder_perm : ∀ m, rangeOrder m ≡ₚ map_to_list m.

Lemma findContentBlobs_exact t : exact (λ t', t' = t) findContentBlobs t.
Proof.
  intros hs ? -> _. rewrite findContentBlobs_ok. do 2 eexists. split; [done|]. split; [done|].
  intros h Hh. rewrite map_lookup_filter. destruct (t !! h); simpl; [|done]. by rewrite option_guard_True.
Qed.

Lemma CachedFetch_exact t : validRows Sum256 t →
  exact (λ ct, coherent ct.1 t ∧ ct.2 = t) (CachedFetch Sum256 rangeOrder findContentBlobs) t.
Proof.
  intros Hv hs [c t'] [Hc Ht] Hnd. cbn [fst snd] in *. subst t'. unfold CachedFetch. cbn [fst snd].
  destruct (cachedBlobs hs ∅ [] c) as [[found missing] c1] eqn:E.
  apply (cachedBlobs_ok _ _ _ _ t) in E as (Hc1 & Hf & _ & rest & -> & Hsub & Hall);
    [|done|intros ?? Hx; by rewrite lookup_empty in Hx].
  cbn [app]. case_bool_decide as Hm.
  - subst rest. do 2 eexists. split; [done|]. split; [done|]. intros h Hh.
    destruct (Hall h Hh) as [?%elem_of_nil|[d Hd]]; [done|]. by rewrite Hd, (Hf _ _ Hd).
  - rewrite findContentBlobs_ok.
    destruct (keepLoaded_ok Sum256 (rangeOrder (filter (λ r, r.1 ∈ rest) t)) found c1 t)
      as (found' & c' & -> & Hc' & Hf' & Hsub' & Hall'); [done|done| |done|].
    { intros h d Hd. rewrite rangeOrder_perm in Hd. apply elem_of_map_to_list, map_lookup_filter_Some in Hd. tauto. }
    do 2 eexists. split; [done|]. split; [done|]. intros h Hh.
    destruct (found' !! h) as [d|] eqn:Ef; [by rewrite (Hf' _ _ Ef)|]. symmetry.
    destruct (t !! h) as [d|] eqn:Et; [|done]. exfalso. destruct (Hall h Hh) as [Hr|[d' Hd']].
    + rewrite (Hall' h d) in Ef; [done|]. rewrite rangeOrder_perm.
      by apply elem_of_map_to_list, map_lookup_filter_Some.
    + by rewrite (lookup_weaken _ _ _ _ Hd' Hsub') in Ef.
Qed.

(** What the table alone makes of a column. *)
Definition restored (t : Table) (column : bytes) : outcome bytes := (Expand column findContentBlobs t).1.

Fixpoint restoreColumns (t : Table) (columns : list bytes) : list bytes * option sentinel :=
  match columns with
  | [] => ([], None)
  | column :: columns =>
      match restored t column with
      | Ok expanded => let '(r, err) := restoreColumns t columns in (expanded :: r, err)
      | Err e => (column :: columns, Some e)
      | _ => (column :: columns, None)
      end
  end.

(** The expander's caches hold what the table would give. *)
Definition expanderOf (t : Table) (e : contentExpander) : Prop :=
  coherent (cache e) t ∧ cacheOf (λ column d, restored t column = Ok d) (documents e).

Lemma restored_plain t column : IsCompacted column = false → restored t column = Ok column.
Proof. intros E. unfold restored, Expand. by rewrite E. Qed.

Lemma expandColumns_ok t e pre columns : validRows Sum256 t → expanderOf t e →
  ∃ e', expandColumns Sum256 rangeOrder (compactedColumns (length pre) columns) (pre ++ columns) e t =
    Ok (pre ++ (restoreColumns t columns).1, (restoreColumns t columns).2, e') ∧ expanderOf t e'.
Proof.
  intros Hv. revert pre e. induction columns as [|column columns IH]; intros pre e [Hc Hd]; cbn [compactedColumns restoreColumns].
  - exists e. done.
  - destruct (IsCompacted column) eqn:Ecol.
    2:{ cbn [app]. rewrite restored_plain by done.
        destruct (IH (pre ++ [column]) e (conj Hc Hd)) as (e' & E & He').
        rewrite length_app, Nat.add_comm, <- app_assoc in E. cbn in E. exists e'.
        destruct (restoreColumns t columns). cbn [fst snd] in *. by rewrite E, <- app_assoc. }
    cbn [app expandColumns]. rewrite list_lookup_middle by done. cbn [index_or_panic mbind outcome_bind].
    assert (Hnext : ∀ expanded e1, restored t column = Ok expanded → expanderOf t e1 → ∃ e',
      expandColumns Sum256 rangeOrder (compactedColumns (S (length pre)) columns)
        (<[length pre := expanded]> (pre ++ column :: columns)) e1 t =
      Ok (pre ++ (match restored t column with
        | Ok expanded => let '(r, err) := restoreColumns t columns in (expanded :: r, err)
        | Err e => (column :: columns, Some e) | _ => (column :: columns, None) end).1,
        (match restored t column with
        | Ok expanded => let '(r, err) := restoreColumns t columns in (expanded :: r, err)
        | Err e => (column :: columns, Some e) | _ => (column :: columns, None) end).2, e') ∧ expanderOf t e').
    { intros expanded e1 -> He1. rewrite insert_app_r_alt, Nat.sub_diag by lia. cbn [insert list_insert].
      destruct (IH (pre ++ [expanded]) e1 He1) as (e' & E & He').
      rewrite length_app, Nat.add_comm, <- app_assoc in E. cbn in E. exists e'.
      destruct (restoreColumns t columns). cbn [fst snd] in *. by rewrite E, <- app_assoc. }
    destruct (BlobCache.Get column (documents e)) as [o docs] eqn:Eg.
    apply (Get_cacheOf _ _ _ _ _ Hd) in Eg as [Hdocs Ho]. destruct o as [expanded|].
    + apply Hnext; [by apply Ho|done].
    + destruct (Expand_agree _ _ _ _ t column (cache e, t) t (CachedFetch_exact t Hv) (findContentBlobs_exact t))
        as (Er & Hi & Hret); [done|done|]. fold (restored t column) in Er.
      destruct (Expand column _ (cache e, t)) as [r [c t']]. cbn [fst snd] in Er, Hi, Hret. subst r.
      destruct (restored t column) as [expanded|err| |] eqn:Ers; [|eexists; split; [done|]; split; [apply Hi|done]|done..].
      destruct (Add_cacheOf _ column expanded docs Hdocs Ers) as (docs' & -> & Hdocs').
      apply Hnext; [done|]. split; [apply Hi|done].
Qed.

End expander.

Lemma expandLayers_mono (t t' : Table) n body d : t ⊆ t' →
  (expandLayers n findContentBlobs body t).1 = Ok d → (expandLayers n findContentBlobs body t').1 = Ok d.
Proof.
  intros Hsub. revert body. induction n as [|n IH]; intros body; cbn [expandLayers]; [done|].
  case_bool_decide; [done|]. rewrite !findContentBlobs_ok. case_bool_decide as Hall; [|done].
  assert (Hm : ∀ h, h ∈ referencesIn body → filter (λ r, r.1 ∈ referencesIn body) t !! h =
                                          filter (λ r, r.1 ∈ referencesIn body) t' !! h).
  { intros h Hh. rewrite Forall_forall in Hall. destruct (Hall h Hh) as [v Hv]. rewrite Hv. symmetry.
    apply map_lookup_filter_Some in Hv as [Hv Hr]. apply map_lookup_filter_Some. split; [|done].
    by eapply lookup_weaken. }
  rewrite bool_decide_eq_true_2.
  - unfold splice. rewrite <- (spliceFrom_agree _ body [] _ _ Hm). apply IH.
  - apply Forall_forall. intros h Hh. rewrite <- Hm by done. rewrite Forall_forall in Hall. by apply Hall.
Qed.

Lemma restored_mono t t' column d : t ⊆ t' → restored t column = Ok d → restored t' column = Ok d.
Proof.
  intros Hsub. unfold restored, Expand. destruct (negb (IsCompacted column)); [done|].
  destruct (envelopeBody column); try done. case_bool_decide; [done|]. by apply expandLayers_mono.
Qed.

Lemma expanderOf_mono t t' e : t ⊆ t' → expanderOf t e → expanderOf t' e.
Proof.
  intros Hsub [Hc [Hi Hd]]. split; [by eapply coherent_mono|]. split; [done|].
  intros column d Hin. eapply restored_mono; [done|]. by apply Hd.
Qed.

(** ** Chains of references *)

(** Following the references of a text through the blobs, [n] blobs can be entered
    one inside the other. *)
Fixpoint chained (blobs : list Blob) (n : nat) (text : bytes) : Prop :=
  match n with
  | O => True
  | S n => ∃ b, b ∈ blobs ∧ Hash b ∈ referencesIn text ∧ chained blobs n (Data b)
  end.

(** A document is stored too deep when more layers lie between its payload and its
    innermost blob than [Expand] replaces. *)
Definition tooDeep (payload : bytes) (blobs : list Blob) : Prop :=
  ∃ body, payload = envelopePrefix ++ body ++ envelopeSuffix ∧ chained blobs maxExpandDepth body.

Lemma occurs_in_trans p q t : occurs_in p q → occurs_in q t → occurs_in p t.
Proof. intros (x & y & ->) H. destruct H as (u & v & ->). exists (u ++ x), (y ++ v). by rewrite <- !app_assoc. Qed.

Lemma full_Ref_occurs q ps : Ref q ∈ ps → occurs_in (full q) (full ps).
Proof.
  intros (l1 & l2 & ->)%list_elem_of_split. exists (full l1), (full l2). by rewrite full_app, full_cons.
Qed.

Lemma moved_Ref P q ps : moved P ps → Ref q ∈ ps → P q ∧ moved P q.
Proof. intros Hm Hq. unfold moved in Hm. rewrite Forall_forall in Hm. by apply allRefs_Ref, Hm. Qed.

Lemma depth_S n ps : S n ≤ depth ps ↔ ∃ q, Ref q ∈ ps ∧ n ≤ depth q.
Proof.
  induction ps as [|p ps IH]; [split; [cbn; lia|intros (q & ?%elem_of_nil & _); done]|].
  rewrite depth_cons, Nat.max_le_iff, IH. setoid_rewrite elem_of_cons. destruct p as [c|q']; cbn [depthP].
  - split; [intros [?|(q & ? & ?)]; [lia|eauto]|intros (q & [?|?] & ?); [done|right; eauto]].
  - fold (depth q'). split.
    + intros [?|(q & ? & ?)]; [exists q'; split; [by left|lia]|eauto].
    + intros (q & [[= ->]|?] & ?); [left; lia|right; eauto].
Qed.

(** The chains of the stored form are as long as the tree of the document is deep. *)
Lemma chained_depth Sum256 blobs n ps : ¬ occurs_in markerText (full ps) →
  moved (λ q, mkBlob (hashOf Sum256 (render Sum256 q)) (render Sum256 q) ∈ blobs ∧
              ∀ b, b ∈ blobs → Hash b = hashOf Sum256 (render Sum256 q) → Data b = render Sum256 q) ps →
  (∀ x, length (Sum256 x) = 32) →
  chained blobs n (render Sum256 ps) ↔ n ≤ depth ps.
Proof.
  intros Hmark Hk Hsize. revert ps Hmark Hk. induction n as [|n IH]; intros ps Hmark Hk; [split; [lia|done]|].
  assert (Hin : ∀ q, Ref q ∈ ps → chained blobs n (render Sum256 q) ↔ n ≤ depth q).
  { intros q Hq. apply IH; [|by eapply moved_Ref]. intros H. apply Hmark. eapply occurs_in_trans; [exact H|].
    by apply full_Ref_occurs. }
  rewrite depth_S. cbn [chained]. setoid_rewrite referencesIn_render; [|done..]. split.
  - intros (b & Hb & (q & Hq & Hh) & Hc). exists q. split; [done|]. apply Hin; [done|].
    destruct (moved_Ref _ _ _ Hk Hq) as [[_ Hd] _]. by rewrite <- (Hd b Hb Hh).
  - intros (q & Hq & Hn). destruct (moved_Ref _ _ _ Hk Hq) as [[Hb _] _].
    eexists. split; [exact Hb|]. split; [by exists q|]. by apply Hin.
Qed.

Lemma envelope_inj x y : envelopePrefix ++ x ++ envelopeSuffix = envelopePrefix ++ y ++ envelopeSuffix → x = y.
Proof. intros ?%(inj (app _))%(inj (λ l, l ++ _)). done. Qed.

Lemma compactedAs_tooDeep Sum256 raw payload blobs ps : (∀ x, length (Sum256 x) = 32) →
  compactedAs Sum256 raw payload blobs ps → noCollision Sum256 raw blobs →
  tooDeep payload blobs ↔ maxExpandDepth ≤ depth ps.
Proof.
  intros Hsize [Hfull -> Hm _ _ Hb Hk] Hcol.
  assert (E : chained blobs maxExpandDepth (render Sum256 ps) ↔ maxExpandDepth ≤ depth ps).
  { apply chained_depth; [by rewrite Hfull| |done]. pose proof (moved_and _ _ _ Hk (Hcol ps Hfull)) as Hboth.
    eapply moved_impl; [|exact Hboth]. clear -Hb. intros q [[Hin _] Hc]. split; [|done].
    apply list_elem_of_fmap in Hin as (b & Hh & Hin). specialize (Hc b Hin (eq_sym Hh)).
    rewrite Hh, <- Hc. by destruct b. }
  rewrite <- E. split; [intros (body & Heq%envelope_inj & Hc); by subst|by exists (render Sum256 ps)].
Qed.

Lemma tooDeep_whole raw : ¬ tooDeep raw [].
Proof. intros (body & _ & b & Hb & _). by apply elem_of_nil in Hb. Qed.

(** ** The theorems *)

(** C21: a payload one converter wrote is read back by any converter of the same
    store, now or after more writes, whatever the two caches hold: [To] succeeds, and
    [From] decodes exactly the bytes [json.Marshal] made, unless the blobs of the
    payload name each other 32 deep; then, and only then, it fails, with
    [ErrValidationFailed], and the document has at least 32 * 420 bytes. This is for
    documents that are not themselves in the envelope, are nested within the limit of
    the JSON reader, make at most [requestLimit] blobs, and whose parts share no hash
    with another blob of the document or with a stored row of other data. *)
Theorem From_To {V} (Unmarshal : bytes → outcome V) Sum256 rangeOrder {St} `{StoreLaws Sum256 St}
    encoded payload blobs c s :
  (∀ x, length (Sum256 x) = 32) → (∀ m, rangeOrder m ≡ₚ map_to_list m) →
  Json.Valid (GoBytes.bs "[[" ++ encoded ++ GoBytes.bs "]]") = true → IsCompacted encoded = false →
  coherent c (rows s) → validRows Sum256 (rows s) →
  Compact Sum256 encoded = Ok (payload, blobs) → length blobs ≤ requestLimit →
  noCollision Sum256 encoded blobs → agrees blobs (rows s) →
  ∃ c' s', To Sum256 (Ok encoded) (c, s) = (Ok payload, (c', s')) ∧
    coherent c' (rows s') ∧ validRows Sum256 (rows s') ∧ rows s ⊆ rows s' ∧
    (∀ c2 s2, rows s' ⊆ rows s2 → coherent c2 (rows s2) → validRows Sum256 (rows s2) →
      let r := (From Sum256 rangeOrder Unmarshal payload (c2, s2)).1 in
      (¬ tooDeep payload blobs → r = Unmarshal encoded) ∧
      (tooDeep payload blobs → r = Err ErrValidationFailed)) ∧
    (tooDeep payload blobs → maxExpandDepth * layerBytes ≤ length encoded).
Proof.
  intros Hsize Hperm Hjson Hraw Hc Hv Hcomp Hlen Hcol Hag.
  pose proof (BlobValid.stored_valid Sum256 _ _ _ Hjson Hcomp) as Hvalid.
  destruct (To_ok Sum256 _ _ _ _ _ Hc Hv Hag Hcomp Hlen Hvalid) as (c' & s' & Hto & Hkeep & Hc' & Hv' & Hrows).
  exists c', s'. destruct (Compact_cases Sum256 encoded) as (out & bs & E & Hcases).
  rewrite Hcomp in E. injection E as -> ->. destruct Hcases as [[-> ->]|(_ & _ & ps & Hps)].
  - pose proof (tooDeep_whole encoded). split_and!; [done..| |done]. intros c2 s2 _ _ _. split; [|done].
    unfold From, Expand. by rewrite Hraw.
  - pose proof (compactedAs_tooDeep _ _ _ _ _ Hsize Hps Hcol) as Hdeep. split_and!; [done..| |].
    + intros c2 s2 Hsub Hc2 Hv2. unfold From.
      destruct (Expand_compactedAs Sum256 Hsize (holding Sum256 bs) (CachedFetch Sum256 rangeOrder GetContentBlobs)
        (c2, s2) _ _ _ _ Hps Hcol) as (s3 & _ & ->); [by apply CachedFetch_holds| |].
      * split_and!; [done|done|]. eapply Forall_impl; [exact Hrows|]. intros b Hb. cbn in Hb |- *.
        exact (lookup_weaken _ _ _ _ Hb Hsub).
      * case_bool_decide; split; rewrite Hdeep; intros; [done|lia|lia|done].
    + rewrite Hdeep. exact (compactedAs_deep Sum256 Hsize _ _ _ _ Hps).
Qed.

(** C39: after a query, the columns are what expanding each compacted one straight
    from the table gives, up to the first that fails, whatever the two caches hold;
    the caches stay right, also after more rows were written. *)
Theorem expand_restores Sum256 rangeOrder failed dest e t :
  (∀ m, rangeOrder m ≡ₚ map_to_list m) → validRows Sum256 t → expanderOf t e →
  ∃ e', expand Sum256 rangeOrder failed dest e t =
          Ok ((if failed then (dest ≫= loadedColumns, None) else restoreColumns t (dest ≫= loadedColumns)), e') ∧
        ∀ t', t ⊆ t' → expanderOf t' e'.
Proof.
  intros Hperm Hv He. unfold expand. destruct failed.
  - exists e. split; [done|]. intros t' Ht. by eapply expanderOf_mono.
  - destruct (expandColumns_ok Sum256 rangeOrder Hperm t e [] (dest ≫= loadedColumns) Hv He) as (e' & E & He').
    exists e'. cbn [length app] in E. rewrite E. split; [by destruct (restoreColumns _ _)|].
    intros t' Ht. by eapply expanderOf_mono.
Qed.

(** A column saved compacted in a transaction reads back as the document that was
    saved, from the table as it was then or after more writes; a document of at least
    32 * 420 bytes may be refused as nested too deep. *)
Theorem compactColumn_restored Sum256 raw blobs column t t' t'' :
  (∀ x, length (Sum256 x) = 32) → IsCompacted raw = false →
  Compact Sum256 raw = Ok (column, blobs) → noCollision Sum256 raw blobs → agrees blobs t →
  (compactColumn Sum256 raw t).2 ⊆ t'' → t' = (compactColumn Sum256 raw t).2 →
  (compactColumn Sum256 raw t).1 = Ok column ∧ t ⊆ t' ∧
  (restored t'' column = Ok raw ∨
   (restored t'' column = Err ErrValidationFailed ∧ maxExpandDepth * layerBytes ≤ length raw)).
Proof.
  intros Hsize Hraw Hcomp Hcol Hag Hsub ->. revert Hsub. unfold compactColumn. rewrite Hcomp.
  destruct (Compact_cases Sum256 raw) as (out & bs & E & Hcases). rewrite Hcomp in E. injection E as -> ->.
  destruct Hcases as [[-> ->]|(Hne & _ & ps & Hps)].
  - cbn. intros _. split; [done|]. split; [done|]. left. by apply restored_plain.
  - rewrite bool_decide_eq_false_2 by (by destruct bs). cbn [fst snd]. intros Hsub.
    split; [done|]. split; [apply createRows_keeps|].
    destruct (Expand_compactedAs Sum256 Hsize (λ t, t = t'') findContentBlobs t'' _ _ _ _ Hps Hcol) as (s3 & _ & E).
    + intros hs ? -> _ Hin. rewrite findContentBlobs_ok. do 2 eexists. split; [done|]. split; [done|].
      intros h d Hh Hd. apply map_lookup_filter_Some. split; [|done].
      destruct (createRows_stores bs t _ Hd) as [d' Hd']. cbn in Hd'.
      eapply lookup_weaken; [|exact Hsub]. rewrite Hd'. f_equal.
      destruct (createRows_lookup _ _ _ _ Hd') as [Ht|Hb]; [by apply (Hag (mkBlob h d))|].
      assert (mkBlob h d' = mkBlob h d) as [=]; [|done]. by apply (list_map_unique bs); [apply Hps|..].
    + done.
    + unfold restored. rewrite E. cbn [fst]. case_bool_decide; [by left|right]. split; [done|].
      exact (compactedAs_deep Sum256 Hsize _ _ _ _ Hps ltac:(lia)).
Qed.

(** The rows stay valid, so reads through the cache keep finding them. *)
Lemma compactColumn_validRows Sum256 raw t :
  Json.Valid (GoBytes.bs "[[" ++ raw ++ GoBytes.bs "]]") = true → validRows Sum256 t →
  validRows Sum256 (compactColumn Sum256 raw t).2.
Proof.
  intros Hjson Hv h d. unfold compactColumn. destruct (Compact_cases Sum256 raw) as (out & bs & E & _). rewrite E.
  pose proof (BlobValid.stored_valid Sum256 _ _ _ Hjson E) as Hb. rewrite Forall_forall in Hb.
  case_bool_decide; [apply Hv|]. cbn [snd]. intros [Hr|Hr]%createRows_lookup; [by apply Hv|by apply (Hb (mkBlob h d))].
Qed.

(** *** At a document with one long string *)

Definition sampleTable : Table := {[ hashOf BlobTheorems.sampleHash BlobTheorems.longText := BlobTheorems.longText ]}.

Lemma validRows_sample : validRows BlobTheorems.sampleHash sampleTable.
Proof. unfold sampleTable. intros h d [<- <-]%lookup_singleton_Some. vm_compute. reflexivity. Qed.
Lemma validRows_empty Sum256 : validRows Sum256 ∅.
Proof. intros h d Hd. by rewrite lookup_empty in Hd. Qed.
Lemma DefaultCacheBytes_range : (0 ≤ DefaultCacheBytes ≤ 2 ^ 61)%Z.
Proof. unfold DefaultCacheBytes. lia. Qed.

Lemma From_To_witness :
  ∃ c' s', @To BlobTheorems.sampleHash Table (Table_Store BlobTheorems.sampleHash) (Ok BlobTheorems.sampleDocument)
      (NewConverter, ∅) = (Ok BlobTheorems.sampleOut, (c', s')) ∧
    coherent c' s' ∧ validRows BlobTheorems.sampleHash s' ∧ ∅ ⊆ s' ∧
    (∀ (c2 : BlobCache.Cache) s2, s' ⊆ s2 → coherent c2 s2 → validRows BlobTheorems.sampleHash s2 →
      let r := (@From BlobTheorems.sampleHash map_to_list Table (Table_Store BlobTheorems.sampleHash) bytes
                  Ok BlobTheorems.sampleOut (c2, s2)).1 in
      (¬ tooDeep BlobTheorems.sampleOut BlobTheorems.sampleBlobs → r = Ok BlobTheorems.sampleDocument) ∧
      (tooDeep BlobTheorems.sampleOut BlobTheorems.sampleBlobs → r = Err ErrValidationFailed)) ∧
    (tooDeep BlobTheorems.sampleOut BlobTheorems.sampleBlobs →
      maxExpandDepth * layerBytes ≤ length BlobTheorems.sampleDocument).
Proof.
  apply (@From_To bytes Ok BlobTheorems.sampleHash map_to_list Table (Table_Store BlobTheorems.sampleHash)
    (Table_StoreLaws BlobTheorems.sampleHash) BlobTheorems.sampleDocument BlobTheorems.sampleOut
    BlobTheorems.sampleBlobs NewConverter ∅).
  - exact BlobTheorems.sampleHash_size.
  - done.
  - vm_compute. reflexivity.
  - vm_compute. reflexivity.
  - apply cacheOf_new, DefaultCacheBytes_range.
  - apply validRows_empty.
  - exact BlobTheorems.sample_compacted.
  - apply Nat.leb_le. vm_compute. reflexivity.
  - apply BlobTheorems.sample_noCollision.
  - intros b d _ Hd. cbn in Hd. by rewrite lookup_empty in Hd.
Defined.

Lemma expand_restores_witness :
  ∃ e', expand BlobTheorems.sampleHash map_to_list false
          [Some (LoadedActivity (bs "{}") None BlobTheorems.sampleOut); None] newExpander sampleTable =
        Ok (restoreColumns sampleTable [bs "{}"; BlobTheorems.sampleOut], e') ∧
        ∀ t', sampleTable ⊆ t' → expanderOf t' e'.
Proof.
  apply (expand_restores BlobTheorems.sampleHash map_to_list false
    [Some (LoadedActivity (bs "{}") None BlobTheorems.sampleOut); None] newExpander sampleTable).
  - done.
  - apply validRows_sample.
  - split; apply cacheOf_new, DefaultCacheBytes_range.
Defined.

Example expand_restores_sample :
  restoreColumns sampleTable [bs "{}"; BlobTheorems.sampleOut] = ([bs "{}"; BlobTheorems.sampleDocument], None).
Proof. vm_compute. reflexivity. Qed.

Lemma compactColumn_restored_witness :
  (compactColumn BlobTheorems.sampleHash BlobTheorems.sampleDocument ∅).1 = Ok BlobTheorems.sampleOut ∧
  ∅ ⊆ sampleTable ∧
  (restored sampleTable BlobTheorems.sampleOut = Ok BlobTheorems.sampleDocument ∨
   (restored sampleTable BlobTheorems.sampleOut = Err ErrValidationFailed ∧
    maxExpandDepth * layerBytes ≤ length BlobTheorems.sampleDocument)).
Proof.
  assert (E : (compactColumn BlobTheorems.sampleHash BlobTheorems.sampleDocument ∅).2 = sampleTable)
    by (vm_compute; reflexivity).
  apply (compactColumn_restored BlobTheorems.sampleHash BlobTheorems.sampleDocument BlobTheorems.sampleBlobs
    BlobTheorems.sampleOut ∅ sampleTable sampleTable BlobTheorems.sampleHash_size).
  - vm_compute. reflexivity.
  - exact BlobTheorems.sample_compacted.
  - apply BlobTheorems.sample_noCollision.
  - intros b d _ Hd. by rewrite lookup_empty in Hd.
  - by rewrite E.
  - by rewrite E.
Defined.

End BlobTable.
