(* ===== verification/TxRules.v ===== *)
(** Rules for what a transaction guarantees of the state it commits: [ensures]
    relates the state before a transaction that succeeded to the state after
    it, for any reflexive and transitive relation, and is closed under the
    steps the store is written with.  Its first use: which operations on
    executions leave the messages of the store alone and complete nothing. *)
From stdpp Require Import base gmap sets list strings sorting.
From Stdlib Require Import ZArith Lia Ascii.
From S2P Require Import Prelude GoBytes Executions ExecutionControl Activities ExecutionSteps.

Module TxRules.
Import Executions ExecutionControl Activities ExecutionSteps.

Definition ensures {A} (R : relation db) (m : tx A) : Prop :=
  ∀ d a d', m d = Ok (a, d') → R d d'.

Section rules.
Context (R : relation db) `{!Reflexive R, !Transitive R}.

Lemma ensures_bind {A B} (m : tx A) (f : A → tx B) :
  ensures R m → (∀ a, ensures R (f a)) → ensures R (m ≫= f).
Proof.
  intros Hm Hf d b d' (a & d1 & H1 & H2)%tx_bind_Ok. etrans; [by eapply Hm|by eapply Hf].
Qed.

Lemma ensures_ret {A} (a : A) : ensures R (mret a).
Proof. intros d b d' [= <- <-]. reflexivity. Qed.

Lemma ensures_reads {A} (f : db → outcome A) : ensures R (reads f).
Proof. intros d a d' [_ ->]%reads_Ok. reflexivity. Qed.

Lemma ensures_check o : ensures R (check o).
Proof. apply ensures_reads. Qed.

Lemma ensures_refuseIf b e : ensures R (refuseIf b e).
Proof. apply ensures_reads. Qed.

Lemma ensures_deref {A} (o : option A) : ensures R (deref o).
Proof. apply ensures_reads. Qed.

Lemma ensures_transaction {A} (m : tx A) d : ensures R m → R d (transaction m d).1.
Proof.
  intros Hm. destruct (transaction_failed m d) as [->|(a & d' & H & ->)]; [reflexivity|].
  by eapply Hm.
Qed.

Lemma ensures_guarded {A} (o : outcome unit) (m : db → db * outcome A) d :
  R d (m d).1 →
  R d (match o with
       | Ok _ => m d | Err e => (d, Err e) | Panic => (d, Panic) | OutOfFuel => (d, OutOfFuel)
       end).1.
Proof. by destruct o. Qed.

End rules.

Lemma ensures_weaken {A} (R S : relation db) (m : tx A) :
  (∀ d d', R d d' → S d d') → ensures R m → ensures S m.
Proof. intros H Hm d a d' E. eauto. Qed.

(** Running a transaction forward. *)
Lemma tx_then {A B} (m : tx A) (f : A → tx B) d a d1 r :
  m d = Ok (a, d1) → f a d1 = r → (m ≫= f) d = r.
Proof. intros E <-. unfold mbind, tx_bind. by rewrite E. Qed.

Lemma findAgentRun_Ok c sid id d row d' :
  findAgentRun c sid id d = Ok (row, d') →
  d' = d ∧ agentRuns (others d) !! id = Some row ∧ ar_SessionID row = sid.
Proof.
  unfold findAgentRun. intros E. apply tx_bind_Ok in E as (r & d1 & Hr & E).
  apply reads_Ok in Hr as [Hr ->]. apply firstRow_Ok in Hr as [Hr Hs].
  apply tx_bind_Ok in E as (u & d1 & Hc & E). unfold check in Hc. apply reads_Ok in Hc as [_ ->].
  by injection E as <- <-.
Qed.

(** ** Operations that leave the messages alone and complete nothing *)

Definition same_work (e e' : Execution) : Prop :=
  ex_ID e' = ex_ID e ∧ ex_SessionID e' = ex_SessionID e ∧ ex_Kind e' = ex_Kind e ∧
  ex_RootTurnID e' = ex_RootTurnID e ∧ ex_AgentRunID e' = ex_AgentRunID e.

(** Executions are kept with their identity, and none is completed. *)
Record quiet (d d' : db) : Prop := mkQuiet {
  quiet_keyed : keyed (executions d) → keyed (executions d');
  quiet_kept id e : executions d !! id = Some e →
    ∃ e', executions d' !! id = Some e' ∧ same_work e e';
  quiet_completed id e' : executions d' !! id = Some e' → ex_State e' = ExecutionStateCompleted →
    ∃ e, executions d !! id = Some e ∧ ex_State e = ExecutionStateCompleted }.

(** The tables of messages and of the feed, and their counters. *)
Definition messageTables (d : db) :=
  (inbox (others d), messages (others d), feedEvents (others d), sessions (others d),
   turns (others d), runMessages (others d), agentRunEvents (others d),
   sessionNotices (others d), jobs (others d), jobOutput (others d)).

(** The columns of a turn but the name of its worker. *)
Definition columnsOf (t : Turn) :=
  (tu_SessionID t, tu_State t, tu_CancelRequested t, tu_StopRevision t, tu_RequestID t, tu_Workspace t,
   tu_FailureClassification t, tu_CompletedAt t, tu_StartedAt t, tu_ContextSnapshotHash t,
   tu_PromptSnapshotHash t).

(** A run that completed, failed or was cancelled keeps its outcome. *)
Definition runSettled (s : AgentRunState) : bool :=
  match s with
  | AgentRunStateCompleted | AgentRunStateFailed | AgentRunStateCancelled => true
  | AgentRunStateRunning | AgentRunStateInterrupted => false
  end.
Definition outcomeOf (r : AgentRun) :=
  (ar_SessionID r, ar_State r, ar_FailureClassification r, ar_FailureDetail r, ar_EndedAt r,
   ar_Response r).
Definition runKept (r r' : AgentRun) : Prop :=
  runSettled (ar_State r) = true → outcomeOf r' = outcomeOf r.
Definition runsKept (d d' : db) : Prop :=
  ∀ id r, agentRuns (others d) !! id = Some r →
    ∃ r', agentRuns (others d') !! id = Some r' ∧ runKept r r'.

Lemma runsKept_update sid id f d :
  (∀ r, agentRuns (others d) !! id = Some r → ar_SessionID r = sid → runKept r (f r)) →
  runsKept d (setAgentRuns (updateRow ar_SessionID sid id f) d).
Proof.
  intros Hf i r Hr. simpl. unfold updateRow.
  destruct (agentRuns (others d) !! id) as [row|] eqn:Hrow; [|by exists r].
  case_bool_decide; [|by exists r]. destruct (decide (i = id)) as [->|Hne].
  - exists (f row). rewrite lookup_insert_eq. split; [done|]. simplify_eq. auto.
  - exists r. by rewrite lookup_insert_ne.
Qed.

Record calm (d d' : db) : Prop := mkCalm {
  calm_quiet : quiet d d';
  calm_tables : messageTables d' = messageTables d;
  calm_runs : runsKept d d' }.

#[export] Instance runKept_refl : Reflexive runKept.
Proof. done. Qed.
#[export] Instance runKept_trans : Transitive runKept.
Proof.
  intros a b c Hab Hbc Ha. rewrite <-(Hab Ha). apply Hbc. by injection (Hab Ha) as _ -> _ _ _ _.
Qed.

#[export] Instance runsKept_refl : Reflexive runsKept.
Proof. intros d id r Hr. by exists r. Qed.
#[export] Instance runsKept_trans : Transitive runsKept.
Proof.
  intros a b c Hab Hbc id r Hr. destruct (Hab id r Hr) as (r1 & H1 & K1).
  destruct (Hbc id r1 H1) as (r2 & H2 & K2). exists r2. split; [done|by etrans].
Qed.

Lemma runsKept_same d d' : agentRuns (others d') = agentRuns (others d) → runsKept d d'.
Proof. intros E id r Hr. exists r. by rewrite E. Qed.

Lemma runsKept_insert d id row row' :
  agentRuns (others d) !! id = Some row → runKept row row' →
  runsKept d (setAgentRuns <[id := row']> d).
Proof.
  intros Hrow Hk i r Hr. simpl. destruct (decide (i = id)) as [->|Hne].
  - exists row'. rewrite lookup_insert_eq. split; [done|]. by simplify_eq.
  - exists r. by rewrite lookup_insert_ne.
Qed.

#[export] Instance same_work_refl : Reflexive same_work.
Proof. intros e. by split_and!. Qed.
#[export] Instance same_work_trans : Transitive same_work.
Proof. intros a b c (? & ? & ? & ? & ?) (? & ? & ? & ? & ?). split_and!; congruence. Qed.

#[export] Instance quiet_refl : Reflexive quiet.
Proof. intros d. split; [done| |by eauto]. intros id e He. by exists e. Qed.
#[export] Instance quiet_trans : Transitive quiet.
Proof.
  intros a b c [K1 P1 C1] [K2 P2 C2]. split; [auto| |].
  - intros id e He. destruct (P1 _ _ He) as (e1 & He1 & H1). destruct (P2 _ _ He1) as (e2 & He2 & H2).
    exists e2. split; [done|by etrans].
  - intros id e He Hc. destruct (C2 _ _ He Hc) as (e1 & He1 & Hc1). eauto.
Qed.

#[export] Instance calm_refl : Reflexive calm.
Proof. by split. Qed.
#[export] Instance calm_trans : Transitive calm.
Proof. intros a b c [? ? ?] [? ? ?]. split; [by etrans|congruence|by etrans]. Qed.

Create HintDb calm.
#[export] Hint Resolve ensures_ret ensures_reads ensures_check ensures_refuseIf ensures_deref : calm.

(** Every branch of a statement. *)
Ltac by_cases := intros; repeat case_match; simplify_eq; done.

(** Follow the binds and the case analyses of a transaction. *)
Ltac calm_steps :=
  repeat first
    [ progress intros
    | solve [auto with calm typeclass_instances]
    | apply ensures_bind; [apply _| |]
    | match goal with
      | |- ensures _ (if ?b then _ else _) => destruct b
      | |- ensures _ (match ?x with _ => _ end) => destruct x
      | |- ensures _ (let _ := _ in _) => cbv zeta
      end ].

(** A column update that neither completes an execution nor changes whose work
    it is. *)
Definition tame (f : Execution → Execution) : Prop :=
  ∀ e, same_work e (f e) ∧
       (ex_State (f e) = ExecutionStateCompleted → ex_State e = ExecutionStateCompleted).

Lemma quiet_insert d d' id row row' :
  executions d !! id = Some row → executions d' = <[id := row']> (executions d) →
  same_work row row' →
  (ex_State row' = ExecutionStateCompleted → ex_State row = ExecutionStateCompleted) →
  quiet d d'.
Proof.
  intros Hrow Heq Hsame Hst. split; rewrite Heq.
  - intros Hk i e. rewrite lookup_insert_Some. intros [[<- <-]|[_ He]]; [|by apply Hk].
    destruct Hsame as (-> & _). by apply Hk.
  - intros i e He. destruct (decide (i = id)) as [->|Hne].
    + rewrite lookup_insert_eq. exists row'. split; [done|]. congruence.
    + rewrite lookup_insert_ne by done. by exists e.
  - intros i e. rewrite lookup_insert_Some. intros [[<- <-]|[_ He]] Hc; eauto.
Qed.

Lemma quiet_same d d' : executions d' = executions d → quiet d d'.
Proof. intros E. split; rewrite E; [done| |by eauto]. intros id e He. by exists e. Qed.

Lemma calm_same d d' :
  executions d' = executions d → messageTables d' = messageTables d →
  agentRuns (others d') = agentRuns (others d) → calm d d'.
Proof. intros. split; [by apply quiet_same|done|by apply runsKept_same]. Qed.

Lemma calm_update e f : tame f → ensures calm (updateExecution e f).
Proof.
  intros Hf d u d' [= <- <-]. unfold setExecutions, updateRow.
  destruct (executions d !! ex_ID e) as [row|] eqn:Hrow; [|by apply calm_same].
  case_bool_decide; [|by apply calm_same]. split; [|done|by apply runsKept_same].
  destruct (Hf row). by eapply quiet_insert.
Qed.

Lemma calm_updateActivity a f : ensures calm (updateActivity a f).
Proof. intros d u d' [= <- <-]. by apply calm_same. Qed.

Lemma calm_createEvent ev : ensures calm (createEvent ev).
Proof. intros d u d'. unfold createEvent. case_bool_decide; [done|]. intros [= <- <-]. by apply calm_same. Qed.

Lemma calm_createActivity a : ensures calm (createActivity a).
Proof. intros d u d'. unfold createActivity. case_if; [done|]. intros [= <- <-]. by apply calm_same. Qed.

Lemma recoverable_unsettled run g : recoverableAgentRun run g = true → runSettled (ar_State run) = false.
Proof. unfold recoverableAgentRun. by destruct (ar_State run). Qed.

Lemma calm_claimAgentRun sid id run g :
  runSettled (ar_State run) = false → ensures calm (claimAgentRun sid id run g).
Proof.
  intros Hrun d u d'. unfold claimAgentRun.
  destruct (firstRow _ _ _ _) as [row| | |] eqn:Hf; try done. apply firstRow_Ok in Hf as [Hf _].
  destruct (_ && _) eqn:Hc; [|done]. intros [= _ <-]. split; [by apply quiet_same|done|].
  eapply runsKept_insert; [done|]. intros Hs.
  apply andb_true_iff in Hc as [[Hst%bool_decide_eq_true _]%andb_true_iff _]. congruence.
Qed.

Lemma tame_eventCount n : tame (withEventCount n).
Proof. intros e. by destruct e. Qed.
Lemma tame_state s : s ≠ ExecutionStateCompleted → tame (withState s).
Proof. intros ? e. by destruct e. Qed.
Lemma tame_paused r t : tame (paused r t).
Proof. intros e. by destruct e. Qed.
Lemma tame_resumed s : s ≠ ExecutionStateCompleted → tame (resumed s).
Proof. intros ? e. by destruct e. Qed.
Lemma tame_cancelled t : tame (cancelled t).
Proof. intros e. by destruct e. Qed.
#[export] Hint Resolve calm_update calm_updateActivity calm_createEvent calm_createActivity
  tame_eventCount tame_paused tame_cancelled : calm.
#[export] Hint Extern 1 (tame (withState _)) => apply tame_state; done : calm.

Lemma calm_append c e kind p : ensures calm (appendExecutionEvent c e kind p).
Proof. unfold appendExecutionEvent. calm_steps. Qed.
#[export] Hint Resolve calm_append : calm.
#[export] Hint Extern 1 (ensures _ (appendActivityEvent _ _ _ _)) => apply calm_append : calm.
#[export] Hint Extern 1 (ensures _ (appendExecutionPause _ _)) => apply calm_append : calm.

Lemma calm_find sid id : ensures calm (findExecution sid id).
Proof. apply ensures_reads, _. Qed.
#[export] Hint Resolve calm_find : calm.

Lemma calm_changeState c e k : ensures calm (changeExecutionState c e k).
Proof.
  unfold changeExecutionState. calm_steps. apply calm_update, tame_resumed.
  unfold resumedState. by case_bool_decide.
Qed.
#[export] Hint Resolve calm_changeState : calm.

Lemma calm_changeMembers c k p l : ensures calm (changeMembers c k p l).
Proof. induction l as [|e l IH]; simpl; calm_steps. Qed.

Lemma calm_subtree c sid id k p : ensures calm (changeExecutionSubtree c sid id k p).
Proof. unfold changeExecutionSubtree. calm_steps. apply calm_changeMembers. Qed.
#[export] Hint Resolve calm_subtree : calm.

Lemma calm_pauseEach c l : ensures calm (pauseEach c l).
Proof. induction l as [|e l IH]; simpl; calm_steps. Qed.

Lemma calm_stopEach c l : ensures calm (stopEach c l).
Proof. induction l as [|e l IH]; simpl; calm_steps. Qed.
#[export] Hint Resolve calm_pauseEach calm_stopEach : calm.

Lemma calm_cancelEach c e l : ensures calm (cancelEach c e l).
Proof. revert e. induction l as [|a l IH]; intros e; simpl; calm_steps. Qed.

Lemma calm_cancelNative c settle e : ensures calm (cancelNativeChild c settle e).
Proof.
  unfold cancelNativeChild, cancelExecutionActivities. calm_steps. apply calm_cancelEach.
Qed.
#[export] Hint Resolve calm_cancelNative : calm.

Lemma calm_cancelMembers c settle l : ensures calm (cancelMembers c settle l).
Proof. induction l as [|e l IH]; simpl; calm_steps. Qed.
#[export] Hint Resolve calm_cancelMembers : calm.

Lemma calm_cancelTree c settle sid run : ensures calm (cancelNativeChildTree c settle sid run).
Proof. unfold cancelNativeChildTree. calm_steps. Qed.

(** ** Creation *)

Lemma calm_insertExecution e d u d' :
  ex_State e ≠ ExecutionStateCompleted → insertExecution e d = Ok (u, d') → calm d d'.
Proof.
  intros Hst. unfold insertExecution. case_if; [done|]. intros [= <- <-]. split; [|done|by apply runsKept_same].
  apply orb_false_iff in Heqb as [Hnew%bool_decide_eq_false _]. apply dec_stable in Hnew.
  split; unfold setExecutions; simpl.
  - intros Hk i x. rewrite lookup_insert_Some. intros [[<- <-]|[_ Hx]]; [done|by apply Hk].
  - intros i x Hx. rewrite lookup_insert_ne by congruence. by exists x.
  - intros i x. rewrite lookup_insert_Some. intros [[<- <-]|[_ Hx]] Hc; [done|eauto].
Qed.

Lemma calm_recordCreation c e : ensures calm (recordExecutionCreation c e).
Proof. unfold recordExecutionCreation, recordInitialExecutionPause. calm_steps. Qed.
#[export] Hint Resolve calm_recordCreation : calm.

Lemma not_terminal_not_completed e :
  isExecutionTerminal (ex_State e) = false → ex_State e ≠ ExecutionStateCompleted.
Proof. intros H Hc. by rewrite Hc in H. Qed.

Lemma calm_create c sid input : ensures calm (createExecution c sid input).
Proof.
  intros d e d' H. unfold createExecution in H.
  destruct (findExecution sid (ci_ID input) d) as [[old d1]|[]| |] eqn:Hf; try done.
  { apply findExecution_Ok in Hf as (_ & _ & ->). case_if; [|done]. by injection H as <- <-. }
  apply tx_bind_Ok in H as (e1 & d1 & Hr & H).
  apply executionRecord_Ok in Hr as (-> & _ & _ & _ & Ht).
  apply tx_bind_Ok in H as (u & d1 & Hins & H).
  etrans; [eapply calm_insertExecution; [by apply not_terminal_not_completed|done]|].
  by eapply calm_recordCreation.
Qed.

(** ** Steps *)

Lemma calm_ensureActivity c e input : ensures calm (ensureExecutionActivity c e input).
Proof. unfold ensureExecutionActivity. calm_steps. Qed.

Lemma calm_claimChild c e g : ensures calm (claimExecutionChild c e g).
Proof.
  unfold claimExecutionChild, findAgentRun. destruct (ex_Kind e); [calm_steps|].
  destruct (ex_AgentRunID e) as [id|]; [|calm_steps]. apply ensures_bind; [apply _|calm_steps|intros run].
  apply ensures_bind; [apply _|calm_steps|intros _]. destruct (_ && _); [calm_steps|]. intros d u d' H.
  apply tx_bind_Ok in H as ([] & d1 & Hg & H). apply refuseIf_Ok in Hg as [Hg ->].
  eapply calm_claimAgentRun; [|done]. by apply recoverable_unsettled with g, negb_false_iff.
Qed.

Lemma calm_start c e a g : ensures calm (startActivityAttempt c e a g).
Proof. unfold startActivityAttempt. calm_steps. apply calm_claimChild. Qed.

Lemma calm_uncertain c e a : ensures calm (markActivityUncertain c e a).
Proof. unfold markActivityUncertain. calm_steps. Qed.
#[export] Hint Resolve calm_ensureActivity calm_start calm_uncertain : calm.

Lemma calm_claim c e a g : ensures calm (claimExecutionActivity c e a g).
Proof. unfold claimExecutionActivity. calm_steps. Qed.
#[export] Hint Resolve calm_claim : calm.

Lemma calm_begin c sid id g input : ensures calm (beginActivity c sid id g input).
Proof. unfold beginActivity. calm_steps. Qed.

Lemma calm_leased sid lease : ensures calm (activityForLease sid lease).
Proof. unfold activityForLease, findExecutionActivity. calm_steps. Qed.
#[export] Hint Resolve calm_leased : calm.

Lemma calm_interrupt c sid lease : ensures calm (interruptActivity c sid lease).
Proof. unfold interruptActivity. calm_steps. Qed.

Section store.
Variables maxExecutionStateBytes maxStoredMessageBytes : Z.
Variable Sum256 : bytes → bytes.
Variable marshalResolution : ResolveActivityInput → bytes.
Variable finishDecisionHash : CompleteActivityInput → bytes.

Lemma calm_saveResult c a o x : ensures calm (saveActivityResult c a o x).
Proof. unfold saveActivityResult. calm_steps. Qed.
#[local] Hint Resolve calm_saveResult : calm.

Lemma calm_resolve c sid id input origin :
  ensures calm (resolveActivity marshalResolution c sid id input origin).
Proof.
  unfold resolveActivity, findExecutionActivity, applyActivityResolution, appendActivityResolution,
    restoreReconciledExecution. calm_steps.
Qed.

Lemma calm_authorize sid id input : ensures calm (authorizeExecutionControl sid id input).
Proof. unfold authorizeExecutionControl. calm_steps. Qed.
#[local] Hint Resolve calm_resolve calm_authorize : calm.

Lemma calm_resolveFrom c sid id source input :
  ensures calm (resolveFromActivity marshalResolution c sid id source input).
Proof. unfold resolveFromActivity, findExecutionActivity. calm_steps. Qed.

Lemma calm_seal c e a : ensures calm (createExecutionCompletionSeal Sum256 c e a).
Proof. unfold createExecutionCompletionSeal, completionInboxWatermark. calm_steps. Qed.
#[local] Hint Resolve calm_seal : calm.

Lemma calm_unlessPending {A} (chk : tx unit) (m : tx A) :
  ensures calm chk → ensures calm m → ensures calm (unlessInboxPending chk m).
Proof.
  intros Hc Hm d o d' H. unfold unlessInboxPending in H.
  destruct (chk d) as [[[] d1]|[]| |] eqn:E; try done; [|by injection H as <- <-].
  etrans; [by eapply Hc|]. apply tx_bind_Ok in H as (a & d2 & H1 & H).
  injection H as <- <-. by eapply Hm.
Qed.

Lemma calm_settled e s : ensures calm (requireSettledExecutionInbox Sum256 e s).
Proof. intros d u d' H. by rewrite (settledInbox_Ok _ _ _ _ _ _ H). Qed.

Lemma calm_reserve c sid lease : ensures calm (reserveCompletion Sum256 c sid lease).
Proof.
  unfold reserveCompletion, readExecutionCompletionSeal, validateCompletionReservation,
    findExecutionTurnLease. calm_steps.
  apply calm_unlessPending; [apply calm_settled|]. unfold requireOtherCompletionActivities. calm_steps.
Qed.
#[local] Hint Resolve calm_resolveFrom calm_reserve : calm.

(** Every operation on executions but the completion of an activity. *)
Lemma calm_transaction {A} (m : tx A) d : ensures calm m → calm d (transaction m d).1.
Proof. apply ensures_transaction, _. Qed.

Lemma execution_calm c o d :
  (∀ sid lease input, o ≠ OpComplete sid lease input) →
  calm d (apply maxExecutionStateBytes maxStoredMessageBytes Sum256 marshalResolution
            finishDecisionHash c o d).
Proof.
  intros Hno. destruct o; simpl;
    unfold BeginExecutionActivity, PauseExecution; try case_if; try done;
    try (apply (ensures_guarded _ _ (transaction _)));
    try (apply calm_transaction).
  - apply calm_create.
  - apply calm_begin.
  - by destruct (Hno sid lease input).
  - apply calm_reserve.
  - apply calm_interrupt.
  - apply calm_resolve.
  - apply calm_resolveFrom.
  - calm_steps.
  - calm_steps.
  - apply ensures_bind; [apply _|apply calm_authorize|]. calm_steps.
  - calm_steps.
  - unfold pauseSessionExecutions. calm_steps.
  - apply calm_cancelTree.
Qed.

End store.

End TxRules.
