(* ===== verification/Transcripts.v ===== *)
(** Transcript and event rows of a session (transcript.go, messageimages.go,
    turnlease.go, agentruntranscript.go and the sequences of feed.go): what a
    turn that holds its lease appends, the images a message carries, and the
    messages of a child's own transcript. *)
From stdpp Require Import base gmap sets list strings.
From Stdlib Require Import ZArith Lia Ascii.
From S2P Require Import Prelude GoBytes Json ContentBlob Executions ExecutionControl.

Module Transcripts.
Import Executions ExecutionControl.

(** ** Leases

    The store keeps the active turn of a session in memory, under a mutex held
    from the check to the commit; the cancel functions are left out. *)

Record Lease := mkTurnHold { ls_ID : uuid; ls_SessionID : uuid; ls_TurnID : uuid }.
Record activeTurn := mkActive { at_leaseID : uuid; at_turnID : uuid }.
Abbreviation activeTurns := (gmap uuid activeTurn).

Definition hasLeaseLocked (active : activeTurns) (lease : Lease) : bool :=
  match active !! ls_SessionID lease with
  | Some turn => negb (bool_decide (ls_ID lease = Nil)) &&
                 bool_decide (at_turnID turn = ls_TurnID lease) &&
                 bool_decide (at_leaseID turn = ls_ID lease)
  | None => false
  end.

(** [ErrTurnLeaseInactive] is always joined with [ErrInvalidState]. *)
Definition holdLease (active : activeTurns) (lease : Lease) : outcome unit :=
  if hasLeaseLocked active lease then Ok tt else Err ErrTurnLeaseInactive.

(** A method that holds a lease for the time of one transaction. *)
Definition underLease {A} (active : activeTurns) (lease : Lease) (m : tx A) (d : db)
    : db * outcome A :=
  match holdLease active lease with
  | Ok _ => transaction m d
  | Err e => (d, Err e)
  | Panic => (d, Panic)
  | OutOfFuel => (d, OutOfFuel)
  end.

(** ** Tables *)

Definition setOthers (f : otherTables → otherTables) (d : db) : db :=
  mkDb (executions d) (activities d) (events d) (f (others d)).

Definition withSessions (s : gmap uuid Session) (o : otherTables) : otherTables :=
  mkOthers (agentRuns o) (turns o) s (inbox o) (agentRunEvents o)
    (sessionNotices o) (turnLeases o) (messages o) (feedEvents o) (runMessages o) (contentBlobs o)
    (jobs o) (workerGenerations o) (openingNotices o) (jobOutput o) (jobSignals o).
Definition withInbox (i : gmap uuid ExecutionInboxMessage) (o : otherTables) : otherTables :=
  mkOthers (agentRuns o) (turns o) (sessions o) i (agentRunEvents o)
    (sessionNotices o) (turnLeases o) (messages o) (feedEvents o) (runMessages o) (contentBlobs o)
    (jobs o) (workerGenerations o) (openingNotices o) (jobOutput o) (jobSignals o).
Definition withTurns (t : gmap uuid Turn) (o : otherTables) : otherTables :=
  mkOthers (agentRuns o) t (sessions o) (inbox o) (agentRunEvents o)
    (sessionNotices o) (turnLeases o) (messages o) (feedEvents o) (runMessages o) (contentBlobs o)
    (jobs o) (workerGenerations o) (openingNotices o) (jobOutput o) (jobSignals o).
Definition withMessages (l : list Message) (o : otherTables) : otherTables :=
  mkOthers (agentRuns o) (turns o) (sessions o) (inbox o) (agentRunEvents o)
    (sessionNotices o) (turnLeases o) l (feedEvents o) (runMessages o) (contentBlobs o)
    (jobs o) (workerGenerations o) (openingNotices o) (jobOutput o) (jobSignals o).
Definition withFeedEvents (l : list Event) (o : otherTables) : otherTables :=
  mkOthers (agentRuns o) (turns o) (sessions o) (inbox o) (agentRunEvents o)
    (sessionNotices o) (turnLeases o) (messages o) l (runMessages o) (contentBlobs o)
    (jobs o) (workerGenerations o) (openingNotices o) (jobOutput o) (jobSignals o).
Definition withRunMessages (l : list AgentRunMessage) (o : otherTables) : otherTables :=
  mkOthers (agentRuns o) (turns o) (sessions o) (inbox o) (agentRunEvents o)
    (sessionNotices o) (turnLeases o) (messages o) (feedEvents o) l (contentBlobs o)
    (jobs o) (workerGenerations o) (openingNotices o) (jobOutput o) (jobSignals o).
Definition withRunEvents (l : gmap uuid AgentRunEvent) (o : otherTables) : otherTables :=
  mkOthers (agentRuns o) (turns o) (sessions o) (inbox o) l
    (sessionNotices o) (turnLeases o) (messages o) (feedEvents o) (runMessages o) (contentBlobs o)
    (jobs o) (workerGenerations o) (openingNotices o) (jobOutput o) (jobSignals o).
Definition withNotices (l : gmap uuid SessionNotice) (o : otherTables) : otherTables :=
  mkOthers (agentRuns o) (turns o) (sessions o) (inbox o) (agentRunEvents o)
    l (turnLeases o) (messages o) (feedEvents o) (runMessages o) (contentBlobs o)
    (jobs o) (workerGenerations o) (openingNotices o) (jobOutput o) (jobSignals o).
Definition withTurnLeases (l : gmap uuid ExecutionTurnLease) (o : otherTables) : otherTables :=
  mkOthers (agentRuns o) (turns o) (sessions o) (inbox o) (agentRunEvents o)
    (sessionNotices o) l (messages o) (feedEvents o) (runMessages o) (contentBlobs o)
    (jobs o) (workerGenerations o) (openingNotices o) (jobOutput o) (jobSignals o).
Definition withContentBlobs (b : gmap bytes bytes) (o : otherTables) : otherTables :=
  mkOthers (agentRuns o) (turns o) (sessions o) (inbox o) (agentRunEvents o)
    (sessionNotices o) (turnLeases o) (messages o) (feedEvents o) (runMessages o) b
    (jobs o) (workerGenerations o) (openingNotices o) (jobOutput o) (jobSignals o).
Definition withOpeningNotices (l : list TurnOpeningNotice) (o : otherTables) : otherTables :=
  mkOthers (agentRuns o) (turns o) (sessions o) (inbox o) (agentRunEvents o)
    (sessionNotices o) (turnLeases o) (messages o) (feedEvents o) (runMessages o) (contentBlobs o)
    (jobs o) (workerGenerations o) l (jobOutput o) (jobSignals o).
Definition withJobs (l : gmap uuid Job) (o : otherTables) : otherTables :=
  mkOthers (agentRuns o) (turns o) (sessions o) (inbox o) (agentRunEvents o)
    (sessionNotices o) (turnLeases o) (messages o) (feedEvents o) (runMessages o) (contentBlobs o)
    l (workerGenerations o) (openingNotices o) (jobOutput o) (jobSignals o).
Definition withWorkers (l : gmap uuid WorkerGeneration) (o : otherTables) : otherTables :=
  mkOthers (agentRuns o) (turns o) (sessions o) (inbox o) (agentRunEvents o)
    (sessionNotices o) (turnLeases o) (messages o) (feedEvents o) (runMessages o) (contentBlobs o)
    (jobs o) l (openingNotices o) (jobOutput o) (jobSignals o).
Definition withJobOutput (l : list JobOutputLine) (o : otherTables) : otherTables :=
  mkOthers (agentRuns o) (turns o) (sessions o) (inbox o) (agentRunEvents o)
    (sessionNotices o) (turnLeases o) (messages o) (feedEvents o) (runMessages o) (contentBlobs o)
    (jobs o) (workerGenerations o) (openingNotices o) l (jobSignals o).
Definition withJobSignals (l : list JobSignalRequest) (o : otherTables) : otherTables :=
  mkOthers (agentRuns o) (turns o) (sessions o) (inbox o) (agentRunEvents o)
    (sessionNotices o) (turnLeases o) (messages o) (feedEvents o) (runMessages o) (contentBlobs o)
    (jobs o) (workerGenerations o) (openingNotices o) (jobOutput o) l.

(** [UpdateSimple] on the row of a session; a missing row is not an error. *)
Definition updateSession (sid : uuid) (f : Session → Session) : tx unit :=
  λ d, Ok (tt, setOthers (λ o, withSessions (alter f sid (sessions o)) o) d).

Definition findSessionWithQuery (sid : uuid) : tx Session :=
  reads (λ d, match sessions (others d) !! sid with
              | Some s => Ok s | None => Err ErrNotFound end).

Definition findTurn (sid id : uuid) : tx Turn :=
  reads (λ d, firstRow tu_SessionID (turns (others d)) sid id).

Definition findRunningTurn (lease : Lease) : tx Turn :=
  reads (λ d,
    match firstRow tu_SessionID (turns (others d)) (ls_SessionID lease) (ls_TurnID lease) with
    | Ok turn => if bool_decide (tu_State turn = TurnStateRunning) then Ok turn
                 else Err ErrInvalidState
    | Err ErrNotFound => Err ErrInvalidState
    | r => r
    end).

(** ** Inputs *)

Record MessageImage := mkImage { im_MediaType : bytes; im_Data : bytes }.
Record StoredImage := mkStoredImage { si_MediaType : bytes; si_SizeBytes : Z; si_Blob : bytes }.

Record MessageInput := mkMessageInput {
  mi_ID : uuid;
  mi_Workspace : bytes;
  mi_Role : MessageRole;
  mi_Content : bytes;
  mi_ModelID : bytes;
  mi_Thinking : bytes;
  mi_ProviderReasoningJSON : bytes;
  mi_ToolCallsJSON : bytes;
  mi_ToolCallID : bytes;
  mi_IsError : bool;
  mi_Incomplete : bool;
  mi_Injected : bool;
  mi_InjectedKind : bytes;
  mi_Images : list MessageImage;
  mi_StoredImagesJSON : bytes }.

Record EventInput := mkEventInput {
  ei_ID : uuid;
  ei_RequestID : uuid;
  ei_WorkerGenerationID : uuidText;
  ei_EventType : bytes;
  ei_PayloadJSON : bytes;
  ei_ParentToolCallID : bytes }.

Record AgentRunMessageInput := mkRunMessageInput {
  ri_ID : uuid;
  ri_Role : MessageRole;
  ri_Content : bytes;
  ri_ModelID : bytes;
  ri_Thinking : bytes;
  ri_ToolCallsJSON : bytes;
  ri_ToolCallID : bytes;
  ri_IsError : bool;
  ri_Incomplete : bool;
  ri_Directory : bytes;
  ri_SystemPrompt : bytes;
  ri_Images : list MessageImage;
  ri_StoredImagesJSON : bytes }.

Definition defaultToolCallsJSON : bytes := bs "[]".
Definition emptyImagesJSON : bytes := bs "[]".
Definition InjectedKindNone : bytes := [].
Definition InjectedKindSkill : bytes := bs "skill".
Definition InjectedKindImage : bytes := bs "image".

Definition isMessageRole (role : MessageRole) : bool :=
  match role with
  | MessageRoleSystem | MessageRoleUser | MessageRoleAssistant | MessageRoleTool => true
  | MessageRoleOther _ => false
  end.

(** ** [base64.StdEncoding] *)

Definition base64Alphabet : bytes :=
  bs "ABCDEFGHIJKLMNOPQRSTUVWXYZabcdefghijklmnopqrstuvwxyz0123456789+/".
Definition sextet (n : N) : ascii := nth (N.to_nat n) base64Alphabet "="%char.

Fixpoint EncodeToString (s : bytes) : bytes :=
  match s with
  | [] => []
  | [a] =>
      let n := (N_of_ascii a * 65536)%N in
      [sextet (n / 262144); sextet (n / 4096 mod 64); "="%char; "="%char]
  | [a; b] =>
      let n := (N_of_ascii a * 65536 + N_of_ascii b * 256)%N in
      [sextet (n / 262144); sextet (n / 4096 mod 64); sextet (n / 64 mod 64); "="%char]
  | a :: b :: c :: rest =>
      let n := (N_of_ascii a * 65536 + N_of_ascii b * 256 + N_of_ascii c)%N in
      sextet (n / 262144) :: sextet (n / 4096 mod 64) :: sextet (n / 64 mod 64) ::
      sextet (n mod 64) :: EncodeToString rest
  end.

Example EncodeToString_Man : EncodeToString (bs "Man, Ma") = bs "TWFuLCBNYQ==".
Proof. reflexivity. Qed.

(** [json.Marshal] and [json.Unmarshal] of a list of stored images. *)
Class ImageCodec := {
  marshalImages : list StoredImage → bytes;
  unmarshalImages : bytes → outcome (list StoredImage) }.

Section store.
Variable maxStoredMessageBytes : Z.
Variable Sum256 : bytes → bytes.
Context `{ImageCodec}.

(** ** Images *)

Definition ImageBlob (data : bytes) : bytes := Json.QUOTE :: EncodeToString data ++ [Json.QUOTE].
Definition imageHash (blob : bytes) : bytes := ContentBlob.hashOf Sum256 blob.

(** An images_json value and the blobs it names. *)
Record preparedImages := mkPrepared { pi_json : bytes; pi_blobs : list (bytes * bytes) }.

Definition prepareMessageImages (images : list MessageImage) : outcome preparedImages :=
  if bool_decide (images = []) then Ok (mkPrepared emptyImagesJSON [])
  else
    stored ← mapM (λ image,
      if bool_decide (im_MediaType image = []) || bool_decide (im_Data image = [])
      then Err ErrValidationFailed
      else
        let data := ImageBlob (im_Data image) in
        Ok (mkStoredImage (im_MediaType image) (zlen (im_Data image)) (imageHash data),
            (imageHash data, data))) images;
    Ok (mkPrepared (marshalImages stored.*1) stored.*2).

(** A blob already stored is kept. *)
Definition keepBlob (table : gmap bytes bytes) (blob : bytes * bytes) : gmap bytes bytes :=
  match table !! blob.1 with Some _ => table | None => <[blob.1 := blob.2]> table end.

Definition storeImages (p : preparedImages) : tx unit :=
  λ d, Ok (tt, setOthers (λ o, withContentBlobs (foldl keepBlob (contentBlobs o) (pi_blobs p)) o) d).

Definition encodeMessageImages (images : list MessageImage) : tx bytes :=
  prepared ← reads (λ _, prepareMessageImages images);
  _ ← storeImages prepared;
  mret (pi_json prepared).

Definition transcriptImagesJSON (images : list MessageImage) (stored : bytes) : tx bytes :=
  if bool_decide (images = []) && negb (bool_decide (stored = [])) then mret stored
  else encodeMessageImages images.

Definition DecodeStoredImages (imagesJSON : bytes) : outcome (list StoredImage) :=
  if bool_decide (imagesJSON = []) || bool_decide (imagesJSON = emptyImagesJSON) then Ok []
  else unmarshalImages imagesJSON.

Record ImageDescription := mkDescription { id_MediaType : bytes; id_SizeBytes : Z }.

Definition imageDescriptions (imagesJSON : bytes) : outcome (list ImageDescription) :=
  stored ← DecodeStoredImages imagesJSON;
  Ok (map (λ image, mkDescription (si_MediaType image) (si_SizeBytes image)) stored).

(** ** Messages *)

(** [uuid.Nil] asks the store for an id. *)
Definition chosenID (id : uuid) : option uuid := if bool_decide (id = Nil) then None else Some id.

Definition checkStoredMessageSize (input : MessageInput) : outcome unit :=
  if (zlen (mi_Content input) <=? maxStoredMessageBytes)%Z then Ok tt
  else Err ErrValidationFailed.

Definition newMessage (c : call) (lease : Lease) (sequence : Z) (defaultWorkspace : bytes)
    (input : MessageInput) : outcome (bytes → Message) :=
  if negb (isMessageRole (mi_Role input)) then Err ErrValidationFailed
  else
    let toolCalls := if bool_decide (mi_ToolCallsJSON input = []) then defaultToolCallsJSON
                     else mi_ToolCallsJSON input in
    if negb (Json.Valid toolCalls) then Err ErrValidationFailed
    else
      let workspace := if bool_decide (mi_Workspace input = []) then defaultWorkspace
                       else mi_Workspace input in
      _ ← checkStoredMessageSize input;
      Ok (λ images, mkMessage (chosenID (mi_ID input)) (ls_SessionID lease) (ls_TurnID lease)
            sequence workspace (mi_Role input) (mi_Content input) (mi_ModelID input)
            (mi_Thinking input) toolCalls (mi_ToolCallID input) (mi_IsError input)
            (mi_Incomplete input) (mi_Injected input) (mi_InjectedKind input) images
            (mi_ProviderReasoningJSON input) (now c)).

Fixpoint newMessages (c : call) (lease : Lease) (currentCount index : Z) (workspace : bytes)
    (inputs : list MessageInput) : tx (list Message) :=
  match inputs with
  | [] => mret []
  | input :: rest =>
      message ← reads (λ _, newMessage c lease (wrap64 (currentCount + index + 1)) workspace input);
      images ← transcriptImagesJSON (mi_Images input) (mi_StoredImagesJSON input);
      others ← newMessages c lease currentCount (index + 1) workspace rest;
      mret (message images :: others)
  end.

(** The primary key, the sequence of a session, and the checks of the table. *)
Definition messageClash (m old : Message) : Prop :=
  (ms_ID m ≠ None ∧ ms_ID m = ms_ID old) ∨
  (ms_SessionID m = ms_SessionID old ∧ ms_Sequence m = ms_Sequence old).
#[export] Instance messageClash_dec m old : Decision (messageClash m old).
Proof. unfold messageClash. apply _. Defined.

Definition messageRowValid (m : Message) : bool :=
  (0 <? ms_Sequence m)%Z && isMessageRole (ms_Role m) &&
  bool_decide (ms_InjectedKind m ∈ [InjectedKindNone; InjectedKindSkill; InjectedKindImage]).

Fixpoint createMessages (rows : list Message) : tx unit :=
  match rows with
  | [] => mret tt
  | m :: rest => λ d,
      if negb (messageRowValid m) then Err ErrOther
      else if bool_decide (Exists (messageClash m) (messages (others d))) then Err ErrAlreadyExists
      else createMessages rest (setOthers (λ o, withMessages (messages o ++ [m]) o) d)
  end.

Record appendResult := mkAppend { ap_messageCount : Z; ap_lastMessageSequence : Z }.

Definition appendMessages (c : call) (lease : Lease) (currentCount : Z) (workspace : bytes)
    (inputs : list MessageInput) : tx appendResult :=
  if bool_decide (inputs = []) then mret (mkAppend 0 0)
  else
    rows ← newMessages c lease currentCount 0 workspace inputs;
    _ ← createMessages rows;
    mret (mkAppend (Z.of_nat (length rows)) (from_option ms_Sequence 0%Z (last rows))).

(** ** Events *)

Definition withFeedSequence (f : Z → Z) (s : Session) : Session :=
  let 'mkSession rev count feed turns seq at_ := s in mkSession rev count (f feed) turns seq at_.

(** Always called inside a feed transaction; the signal sent after the commit
    is left out. *)
Definition allocateFeedSequences (sid : uuid) (count : Z) : tx Z :=
  if (count <=? 0)%Z then mret 0%Z
  else
    _ ← findSessionWithQuery sid;
    _ ← updateSession sid (withFeedSequence (λ n, n + count)%Z);
    session ← findSessionWithQuery sid;
    mret (wrap64 (se_FeedSequence session - count + 1)).

Fixpoint buildEventRows (c : call) (lease : Lease) (currentSequence firstFeedSequence index : Z)
    (inputs : list EventInput) : outcome (list Event) :=
  match inputs with
  | [] => Ok []
  | input :: rest =>
      if negb (Json.Valid (ei_PayloadJSON input)) then Err ErrValidationFailed
      else
        rows ← buildEventRows c lease currentSequence firstFeedSequence (index + 1) rest;
        Ok (mkFeedEvent (chosenID (ei_ID input)) (ls_SessionID lease) (ls_TurnID lease)
              (ei_WorkerGenerationID input) (wrap64 (currentSequence + index + 1))
              (wrap64 (firstFeedSequence + index)) (ei_RequestID input) (ei_EventType input)
              (ei_PayloadJSON input) (ei_ParentToolCallID input) (now c) :: rows)
  end.

Definition eventClash (e old : Event) : Prop :=
  (fe_ID e ≠ None ∧ fe_ID e = fe_ID old) ∨
  (fe_SessionID e = fe_SessionID old ∧
   (fe_Sequence e = fe_Sequence old ∨ fe_FeedSequence e = fe_FeedSequence old)).
#[export] Instance eventClash_dec e old : Decision (eventClash e old).
Proof. unfold eventClash. apply _. Defined.

Fixpoint createEvents (rows : list Event) : tx unit :=
  match rows with
  | [] => mret tt
  | e :: rest => λ d,
      if negb ((0 <? fe_Sequence e)%Z && (0 <? fe_FeedSequence e)%Z) then Err ErrOther
      else if bool_decide (Exists (eventClash e) (feedEvents (others d))) then Err ErrAlreadyExists
      else createEvents rest (setOthers (λ o, withFeedEvents (feedEvents o ++ [e]) o) d)
  end.

(** The highest sequence of a session's events, or 0: sequences are positive. *)
Definition latestEventSequence (sid : uuid) (d : db) : Z :=
  foldr Z.max 0%Z (fe_Sequence <$> filter (λ e, fe_SessionID e = sid) (feedEvents (others d))).

Definition appendEvents (c : call) (lease : Lease) (inputs : list EventInput) : tx unit :=
  if bool_decide (inputs = []) then mret tt
  else
    currentSequence ← reads (λ d, Ok (latestEventSequence (ls_SessionID lease) d));
    first ← allocateFeedSequences (ls_SessionID lease) (Z.of_nat (length inputs));
    rows ← reads (λ _, buildEventRows c lease currentSequence first 0 inputs);
    createEvents rows.

(** ** The transcript of a turn *)

Definition countMessages (n at_ : Z) (s : Session) : Session :=
  let 'mkSession rev count feed turns seq _ := s in
  mkSession rev (count + n)%Z feed turns seq (Some at_).

Definition appendTranscript (c : call) (lease : Lease) (messageInputs : list MessageInput)
    (eventInputs : list EventInput) : tx appendResult :=
  session ← findSessionWithQuery (ls_SessionID lease);
  turn ← findRunningTurn lease;
  result ← appendMessages c lease (se_MessageCount session) (tu_Workspace turn) messageInputs;
  _ ← appendEvents c lease eventInputs;
  if (ap_messageCount result =? 0)%Z then mret result
  else
    _ ← updateSession (ls_SessionID lease) (countMessages (ap_messageCount result) (now c));
    mret result.

Definition AppendCheckpoint (c : call) (active : activeTurns) (lease : Lease)
    (messageInputs : list MessageInput) (eventInputs : list EventInput) (d : db)
    : db * outcome unit :=
  underLease active lease (_ ← appendTranscript c lease messageInputs eventInputs; mret tt) d.

(** ** The transcript of a child *)

Definition withDirectory (directory prompt : bytes) (run : AgentRun) : AgentRun :=
  let 'mkAgentRun sid turn parent st cr gen fc fd ended _ _ count response name := run in
  mkAgentRun sid turn parent st cr gen fc fd ended directory prompt count response name.

Definition updateAgentRun (sid id : uuid) (f : AgentRun → AgentRun) : tx unit :=
  λ d, Ok (tt, setAgentRuns (updateRow ar_SessionID sid id f) d).

Definition newAgentRunMessage (c : call) (sid run : uuid) (sequence : Z)
    (input : AgentRunMessageInput) (images : bytes) : AgentRunMessage :=
  mkRunMessage (chosenID (ri_ID input)) sid run sequence (ri_Role input) (ri_Content input)
    (ri_ModelID input) (ri_Thinking input)
    (if bool_decide (ri_ToolCallsJSON input = []) then defaultToolCallsJSON
     else ri_ToolCallsJSON input)
    (ri_ToolCallID input) (ri_IsError input) (ri_Incomplete input) images (now c).

Definition validateAgentRunMessageInput (input : AgentRunMessageInput) : outcome unit :=
  if negb (bool_decide (ri_Directory input = [])) &&
     (negb (bool_decide (ri_Role input = MessageRoleTool)) || ri_IsError input ||
      bool_decide (ri_SystemPrompt input = []) || bool_decide (ri_ToolCallID input = []))
  then Err ErrValidationFailed
  else match ri_Role input with
  | MessageRoleUser | MessageRoleAssistant | MessageRoleTool => Ok tt
  | MessageRoleSystem | MessageRoleOther _ => Err ErrValidationFailed
  end.

(** The next number of a child's transcript: [nextSequence] on its latest row. *)
Definition nextAgentRunMessageSequence (run : uuid) (d : db) : Z :=
  wrap64 (foldr Z.max 0%Z
    (rm_Sequence <$> filter (λ m, rm_AgentRunID m = run) (runMessages (others d))) + 1).

Definition runMessageClash (m old : AgentRunMessage) : Prop :=
  (rm_ID m ≠ None ∧ rm_ID m = rm_ID old) ∨
  (rm_AgentRunID m = rm_AgentRunID old ∧ rm_Sequence m = rm_Sequence old).
#[export] Instance runMessageClash_dec m old : Decision (runMessageClash m old).
Proof. unfold runMessageClash. apply _. Defined.

Definition runMessageRowValid (m : AgentRunMessage) : bool :=
  (0 <? rm_Sequence m)%Z && Json.Valid (rm_ToolCallsJSON m) &&
  bool_decide (rm_Role m ∈ [MessageRoleUser; MessageRoleAssistant; MessageRoleTool]).

Definition createRunMessage (m : AgentRunMessage) : tx unit := λ d,
  if negb (runMessageRowValid m) then Err ErrOther
  else if bool_decide (Exists (runMessageClash m) (runMessages (others d)))
  then Err ErrAlreadyExists
  else Ok (tt, setOthers (λ o, withRunMessages (runMessages o ++ [m]) o) d).

Fixpoint createRunMessages (c : call) (sid run : uuid) (sequence : Z)
    (inputs : list AgentRunMessageInput) : tx (list AgentRunMessage) :=
  match inputs with
  | [] => mret []
  | input :: rest =>
      _ ← (if bool_decide (ri_Directory input = []) then mret tt
           else updateAgentRun sid run
                  (withDirectory (ri_Directory input) (ri_SystemPrompt input)));
      images ← transcriptImagesJSON (ri_Images input) (ri_StoredImagesJSON input);
      let message := newAgentRunMessage c sid run sequence input images in
      _ ← createRunMessage message;
      stored ← createRunMessages c sid run (wrap64 (sequence + 1)) rest;
      mret (message :: stored)
  end.

Definition createAgentRunMessages (c : call) (sid run : uuid)
    (inputs : list AgentRunMessageInput) : tx (list AgentRunMessage) :=
  _ ← findAgentRun c sid run;
  sequence ← reads (λ d, Ok (nextAgentRunMessageSequence run d));
  createRunMessages c sid run sequence inputs.

Definition AppendAgentRunMessages (c : call) (sid run : uuid)
    (inputs : list AgentRunMessageInput) (d : db) : db * outcome (list AgentRunMessage) :=
  if bool_decide (inputs = []) then (d, Ok [])
  else match mapM validateAgentRunMessageInput inputs with
  | Ok _ => transaction (createAgentRunMessages c sid run inputs) d
  | Err e => (d, Err e)
  | Panic => (d, Panic)
  | OutOfFuel => (d, OutOfFuel)
  end.

End store.

End Transcripts.
