(* ===== verification/TranscriptRules.v ===== *)
(** What appending to a transcript guarantees: the messages of a session carry
    1, 2, ... up to its message count, its events likewise, and the feed
    numbers of its events grow and stay within what the session allocated. *)
From stdpp Require Import base gmap sets list list_numbers strings sorting.
From Stdlib Require Import ZArith Lia Ascii Sorted.
From S2P Require Import Prelude GoBytes Json Executions ExecutionControl TxRules Transcripts.

Module TranscriptRules.
Import Executions ExecutionControl TxRules Transcripts.

(** ** Numbers *)

(** A row whose number, taken from a counter that did not overflow, passed the
    check of the table did not overflow either. *)
Lemma wrap_positive (n : Z) (k : nat) :
  (0 ≤ n ≤ max_int64)%Z →
  (∀ i : nat, i < k → (0 < wrap64 (n + Z.of_nat i + 1))%Z) → (n + Z.of_nat k ≤ max_int64)%Z.
Proof.
  intros Hn Hall. induction k as [|k IH]; [lia|].
  assert (n + Z.of_nat k ≤ max_int64)%Z by (apply IH; intros; apply Hall; lia).
  specialize (Hall k ltac:(lia)). destruct (Z.eq_dec (n + Z.of_nat k) max_int64) as [E|]; [|lia].
  exfalso. rewrite E in Hall. revert Hall. by vm_compute.
Qed.

Lemma seqZ_max (n : Z) : (0 ≤ n)%Z → foldr Z.max 0%Z (seqZ 1 n) = n.
Proof.
  intros Hn. rewrite <- (Z2Nat.id n) by done. generalize (Z.to_nat n). clear. intros k.
  induction k as [|k IH]; [done|]. rewrite Nat2Z.inj_succ, <- Z.add_1_r, seqZ_app, foldr_app by lia.
  rewrite (seqZ_cons _ 1), seqZ_nil by lia. simpl.
  assert (Hmono : ∀ l a, (0 ≤ a)%Z → foldr Z.max a l = Z.max a (foldr Z.max 0%Z l)).
  { clear. induction l as [|x l IH]; intros a Ha; simpl; [lia|]. rewrite IH by done. lia. }
  rewrite Hmono, IH by lia. lia.
Qed.

Lemma seqZ_next (n : Z) (l : list Z) :
  (0 ≤ n)%Z → (∀ i z, l !! i = Some z → z = n + Z.of_nat i + 1)%Z →
  seqZ 1 n ++ l = seqZ 1 (n + Z.of_nat (length l)).
Proof.
  intros Hn Hl. rewrite seqZ_app by lia. f_equal. apply list_eq. intros i.
  destruct (decide (i < length l)) as [Hi|Hi].
  - apply lookup_lt_is_Some_2 in Hi as [z Hz]. rewrite Hz, (Hl i z Hz). symmetry.
    apply lookup_seqZ. apply lookup_lt_Some in Hz. lia.
  - rewrite lookup_ge_None_2 by lia. symmetry. apply lookup_ge_None_2. rewrite length_seqZ. lia.
Qed.

(** A growing list, followed by numbers counted from its bound. *)
Lemma feed_sorted (l r : list Z) (n : Z) :
  StronglySorted Z.lt l → (∀ z, z ∈ l → (0 < z ≤ n)%Z) →
  (∀ i z, r !! i = Some z → z = n + Z.of_nat i + 1)%Z → StronglySorted Z.lt (l ++ r).
Proof.
  intros Hs Hl Hr. induction Hs as [|x l Hs IH Hx]; simpl.
  - clear Hl. revert n Hr. induction r as [|z r IH]; intros n Hr; constructor.
    + apply (IH (n + 1)%Z). intros i y Hy. rewrite (Hr (S i) y Hy). lia.
    + apply List.Forall_forall. intros y Hy. apply list_elem_of_In, list_elem_of_lookup_1 in Hy as [i Hy].
      rewrite (Hr 0 z eq_refl), (Hr (S i) y Hy). lia.
  - constructor; [apply IH; intros z Hz; apply Hl; by right|].
    apply List.Forall_forall. intros y Hy. apply in_app_or in Hy as [Hy|Hy].
    + rewrite List.Forall_forall in Hx. by apply Hx.
    + apply list_elem_of_In, list_elem_of_lookup_1 in Hy as [i Hy]. rewrite (Hr i y Hy).
      destruct (Hl x) as [_ ?]; [by left|]. lia.
Qed.

(** ** Rows *)

(** The tables of a transcript. *)
Definition sameText (d d' : db) : Prop :=
  messages (others d') = messages (others d) ∧ feedEvents (others d') = feedEvents (others d) ∧
  sessions (others d') = sessions (others d).

#[export] Instance sameText_refl : Reflexive sameText.
Proof. done. Qed.
#[export] Instance sameText_trans : Transitive sameText.
Proof. intros a b c (? & ? & ?) (? & ? & ?). split_and!; congruence. Qed.

Lemma calm_sameText d d' : calm d d' → sameText d d'.
Proof.
  intros [_ E _]. unfold messageTables in E.
  split_and!; congruence.
Qed.

Lemma sameText_storeImages p : ensures sameText (storeImages p).
Proof. by intros d u d' [= <- <-]. Qed.
#[export] Hint Resolve sameText_storeImages : calm.

(** The message of an input. *)
Definition rendered (lease : Lease) (input : MessageInput) (row : Message) : Prop :=
  ms_SessionID row = ls_SessionID lease ∧ ms_TurnID row = ls_TurnID lease ∧
  ms_Role row = mi_Role input ∧ ms_Content row = mi_Content input ∧
  (mi_Workspace input ≠ [] → ms_Workspace row = mi_Workspace input) ∧
  ms_Injected row = mi_Injected input ∧ ms_InjectedKind row = mi_InjectedKind input ∧
  (mi_Images input = [] → mi_StoredImagesJSON input ≠ [] →
     ms_ImagesJSON row = mi_StoredImagesJSON input).

Section store.
Variable maxStoredMessageBytes : Z.
Variable Sum256 : bytes → bytes.
Context `{ImageCodec}.

Lemma sameText_images images stored : ensures sameText (transcriptImagesJSON Sum256 images stored).
Proof. unfold transcriptImagesJSON, encodeMessageImages. calm_steps. Qed.
#[local] Hint Resolve sameText_images : calm.

Lemma sameText_newMessages c lease n i ws inputs :
  ensures sameText (newMessages maxStoredMessageBytes Sum256 c lease n i ws inputs).
Proof. revert i. induction inputs as [|input inputs IH]; intros i; simpl; calm_steps. Qed.

Lemma newMessage_Ok c lease n ws input make images :
  newMessage maxStoredMessageBytes c lease n ws input = Ok make →
  (mi_Images input = [] → mi_StoredImagesJSON input ≠ [] → images = mi_StoredImagesJSON input) →
  rendered lease input (make images) ∧ ms_Sequence (make images) = n.
Proof.
  intros H2 Himg. unfold newMessage in H2. case_if; [done|]. case_if; [done|].
  apply bind_Ok_inv in H2 as (u & _ & H2). injection H2 as <-. split; [|done].
  split_and!; try done. intros Hw. simpl. by rewrite bool_decide_eq_false_2.
Qed.

Lemma newMessages_Ok c lease n i ws inputs d rows d' :
  newMessages maxStoredMessageBytes Sum256 c lease n i ws inputs d = Ok (rows, d') →
  Forall2 (rendered lease) inputs rows ∧
  ∀ k row, rows !! k = Some row → ms_Sequence row = wrap64 (n + (i + Z.of_nat k) + 1).
Proof.
  revert i d rows. induction inputs as [|input inputs IH]; intros i d rows H2; simpl in H2.
  - injection H2 as <- <-. split; [constructor|done].
  - apply tx_bind_Ok in H2 as (make & d1 & Hm & H2). apply reads_Ok in Hm as [Hm ->].
    apply tx_bind_Ok in H2 as (images & d1 & Hi & H2).
    apply tx_bind_Ok in H2 as (rest & d2 & Hr & H2). injection H2 as <- <-.
    apply IH in Hr as [HF Hseq].
    destruct (newMessage_Ok c lease _ _ _ _ images Hm) as [Hren Hnum]; cycle 1.
    + split; [by constructor|]. intros [|k] row; simpl.
      * intros [= <-]. rewrite Hnum. f_equal. lia.
      * intros Hk. rewrite (Hseq k row Hk). f_equal. lia.
    + intros Hno Hst. unfold transcriptImagesJSON in Hi.
      rewrite bool_decide_eq_true_2, bool_decide_eq_false_2 in Hi by done.
      by injection Hi as <- _.
Qed.

Lemma createMessages_Ok rows d u d' :
  createMessages rows d = Ok (u, d') →
  messages (others d') = messages (others d) ++ rows ∧
  feedEvents (others d') = feedEvents (others d) ∧ sessions (others d') = sessions (others d) ∧
  ∀ row, row ∈ rows → (0 < ms_Sequence row)%Z.
Proof.
  revert d. induction rows as [|m rows IH]; intros d H2; simpl in H2.
  - injection H2 as <- <-. rewrite app_nil_r. split_and!; try done. by intros ? ?%not_elem_of_nil.
  - case_if; [done|]. case_bool_decide; [done|]. apply IH in H2 as (E1 & E2 & E3 & Hpos).
    rewrite E1, E2, E3. simpl. rewrite <- app_assoc. split_and!; [done..|].
    intros row [->|Hrow]%elem_of_cons; [|by apply Hpos].
    apply negb_false_iff in Heqb. unfold messageRowValid in Heqb.
    apply andb_prop in Heqb as [Heqb _]. apply andb_prop in Heqb as [Heqb _]. by apply Z.ltb_lt.
Qed.

Lemma createEvents_Ok rows d u d' :
  createEvents rows d = Ok (u, d') →
  feedEvents (others d') = feedEvents (others d) ++ rows ∧
  messages (others d') = messages (others d) ∧ sessions (others d') = sessions (others d) ∧
  ∀ row, row ∈ rows → (0 < fe_Sequence row)%Z ∧ (0 < fe_FeedSequence row)%Z.
Proof.
  revert d. induction rows as [|m rows IH]; intros d H2; simpl in H2.
  - injection H2 as <- <-. rewrite app_nil_r. split_and!; try done. by intros ? ?%not_elem_of_nil.
  - case_if; [done|]. case_bool_decide; [done|]. apply IH in H2 as (E1 & E2 & E3 & Hpos).
    rewrite E1, E2, E3. simpl. rewrite <- app_assoc. split_and!; [done..|].
    intros row [->|Hrow]%elem_of_cons; [|by apply Hpos].
    apply negb_false_iff, andb_prop in Heqb as [?%Z.ltb_lt ?%Z.ltb_lt]. done.
Qed.

Lemma buildEventRows_Ok c lease n f i inputs rows :
  buildEventRows c lease n f i inputs = Ok rows →
  length rows = length inputs ∧
  ∀ k row, rows !! k = Some row → fe_SessionID row = ls_SessionID lease ∧
    fe_Sequence row = wrap64 (n + (i + Z.of_nat k) + 1) ∧
    fe_FeedSequence row = wrap64 (f + (i + Z.of_nat k)).
Proof.
  revert i rows. induction inputs as [|input inputs IH]; intros i rows H2; simpl in H2.
  - injection H2 as <-. done.
  - case_if; [done|]. apply bind_Ok_inv in H2 as (rest & Hr & H2). injection H2 as <-.
    apply IH in Hr as [Hlen Hrows]. split; [simpl; lia|]. intros [|k] row; simpl.
    + intros [= <-]. simpl. split_and!; [done|f_equal; lia..].
    + intros Hk. destruct (Hrows k row Hk) as (? & -> & ->). split_and!; [done|f_equal; lia..].
Qed.

(** ** The invariant *)

Definition messageCount (sid : uuid) (d : db) : Z :=
  from_option se_MessageCount 0%Z (sessions (others d) !! sid).
Definition feedHead (sid : uuid) (d : db) : Z :=
  from_option se_FeedSequence 0%Z (sessions (others d) !! sid).
Definition messagesOf (sid : uuid) (d : db) : list Message :=
  filter (λ m, ms_SessionID m = sid) (messages (others d)).
Definition eventsOf (sid : uuid) (d : db) : list Event :=
  filter (λ e, fe_SessionID e = sid) (feedEvents (others d)).

Record message_inv (d : db) : Prop := mkMessageInv {
  ti_count sid : (0 ≤ messageCount sid d ≤ max_int64)%Z;
  ti_messages sid : ms_Sequence <$> messagesOf sid d = seqZ 1 (messageCount sid d) }.

Record event_inv (d : db) : Prop := mkEventInv {
  ti_head sid : (0 ≤ feedHead sid d ≤ max_int64)%Z;
  ti_events sid : fe_Sequence <$> eventsOf sid d = seqZ 1 (Z.of_nat (length (eventsOf sid d)));
  ti_length sid : (Z.of_nat (length (eventsOf sid d)) ≤ max_int64)%Z;
  ti_feed sid : StronglySorted Z.lt (fe_FeedSequence <$> eventsOf sid d);
  ti_feed_range sid e : e ∈ eventsOf sid d → (0 < fe_FeedSequence e ≤ feedHead sid d)%Z }.

Definition text_inv (d : db) : Prop := message_inv d ∧ event_inv d.

Lemma text_inv_same d d' : text_inv d → sameText d d' → text_inv d'.
Proof.
  intros [[] []] (E1 & E2 & E3).
  split; split; unfold messageCount, feedHead, messagesOf, eventsOf in *; rewrite ?E1, ?E2, ?E3; done.
Qed.

Lemma appendMessages_Ok c lease n ws inputs d r d' :
  appendMessages maxStoredMessageBytes Sum256 c lease n ws inputs d = Ok (r, d') →
  ∃ rows, messages (others d') = messages (others d) ++ rows ∧
    feedEvents (others d') = feedEvents (others d) ∧ sessions (others d') = sessions (others d) ∧
    Forall2 (rendered lease) inputs rows ∧ ap_messageCount r = Z.of_nat (length rows) ∧
    ∀ k row, rows !! k = Some row →
      ms_Sequence row = wrap64 (n + Z.of_nat k + 1) ∧ (0 < ms_Sequence row)%Z.
Proof.
  intros H2. unfold appendMessages in H2. case_bool_decide as Hno.
  - injection H2 as <- <-. exists []. rewrite app_nil_r. subst. split_and!; try done; constructor.
  - apply tx_bind_Ok in H2 as (rows & d1 & Hn & H2). pose proof Hn as Hs.
    apply sameText_newMessages in Hs as (E1 & E2 & E3). apply newMessages_Ok in Hn as [HF Hseq].
    apply tx_bind_Ok in H2 as (u & d2 & Hc & H2). injection H2 as <- <-.
    apply createMessages_Ok in Hc as (E4 & E5 & E6 & Hpos). exists rows.
    split_and!; [congruence..|done|done|]. intros k row Hk. split; [by rewrite (Hseq k row Hk)|].
    apply Hpos. by eapply list_elem_of_lookup_2.
Qed.

(** Messages and counter move together. *)
Lemma message_inv_append c lease ws inputs s d r d1 d' :
  message_inv d → sessions (others d) !! ls_SessionID lease = Some s →
  appendMessages maxStoredMessageBytes Sum256 c lease (se_MessageCount s) ws inputs d = Ok (r, d1) →
  messages (others d') = messages (others d1) →
  (∀ x, messageCount x d' =
     (messageCount x d + if decide (x = ls_SessionID lease) then ap_messageCount r else 0)%Z) →
  message_inv d'.
Proof.
  intros [Hic Him] Hs Ha E4 Hcnt. apply appendMessages_Ok in Ha as (rows & E1 & _ & _ & HF & Hr & Hseq).
  set (sid := ls_SessionID lease) in *. rewrite Hr in Hcnt.
  assert (Hcount : messageCount sid d = se_MessageCount s) by (unfold messageCount; by rewrite Hs).
  pose proof (Hic sid) as Hc. rewrite Hcount in Hc.
  assert (Hfits : (se_MessageCount s + Z.of_nat (length rows) ≤ max_int64)%Z).
  { apply wrap_positive; [done|]. intros i [row Hrow]%lookup_lt_is_Some_2.
    destruct (Hseq i row Hrow) as [<- ?]. done. }
  assert (Hof : ∀ x, messagesOf x d' = messagesOf x d ++ (if decide (x = sid) then rows else [])).
  { intros x. unfold messagesOf. rewrite E4, E1, filter_app. f_equal.
    assert (Hall : Forall (λ m, ms_SessionID m = sid) rows).
    { apply Forall_forall. intros m Hm. apply list_elem_of_lookup_1 in Hm as [k Hk].
      eapply Forall2_lookup_r in HF as (input & _ & Hren); [|exact Hk]. apply Hren. }
    case_decide as Hx.
    - subst x. by apply filter_every.
    - apply filter_no. eapply Forall_impl; [exact Hall|]. simpl. congruence. }
  split; intros x; rewrite ?Hcnt, ?Hof.
  - case_decide; [subst x; rewrite Hcount; lia|]. specialize (Hic x). lia.
  - rewrite fmap_app, Him. case_decide as Hx; [|by rewrite app_nil_r, Z.add_0_r].
    rewrite Hx, Hcount. rewrite (seqZ_next _ (ms_Sequence <$> rows)); [by rewrite length_fmap|lia|].
    intros i z Hz. rewrite list_lookup_fmap in Hz. destruct (rows !! i) as [row|] eqn:E; [|done].
    injection Hz as <-. destruct (Hseq i row E) as [-> _]. apply wrap64_id.
    apply lookup_lt_Some in E. unfold min_int64, max_int64 in *. lia.
Qed.

Lemma latest_of_inv sid d :
  event_inv d → latestEventSequence sid d = Z.of_nat (length (eventsOf sid d)).
Proof.
  intros Hi. unfold latestEventSequence. fold (eventsOf sid d). rewrite (ti_events _ Hi).
  apply seqZ_max. lia.
Qed.

Lemma allocate_Ok sid n d first d' :
  (0 < n)%Z → allocateFeedSequences sid n d = Ok (first, d') →
  ∃ s, sessions (others d) !! sid = Some s ∧
    d' = setOthers (λ o, withSessions (alter (withFeedSequence (λ x, x + n)%Z) sid (sessions o)) o) d ∧
    first = wrap64 (se_FeedSequence s + 1).
Proof.
  intros Hn H2. unfold allocateFeedSequences, findSessionWithQuery in H2.
  rewrite (proj2 (Z.leb_gt n 0)) in H2 by done.
  apply tx_bind_Ok in H2 as (s & d1 & Hs & H2). apply reads_Ok in Hs as [Hs ->].
  destruct (sessions (others d) !! sid) as [s0|] eqn:E; [|done]. injection Hs as ->.
  apply tx_bind_Ok in H2 as (u & d1 & Hu & H2). injection Hu as _ <-.
  apply tx_bind_Ok in H2 as (s1 & d1 & Hs & H2). apply reads_Ok in Hs as [Hs ->].
  injection H2 as <- <-. unfold setOthers in Hs. simpl in Hs. rewrite lookup_alter_eq, E in Hs.
  injection Hs as <-. exists s. split_and!; [done..|]. f_equal. destruct s; simpl. lia.
Qed.

Lemma event_inv_append c lease inputs d u d' :
  event_inv d → appendEvents c lease inputs d = Ok (u, d') →
  event_inv d' ∧ messages (others d') = messages (others d) ∧
  (∀ x, messageCount x d' = messageCount x d) ∧
  ∀ x, is_Some (sessions (others d) !! x) → is_Some (sessions (others d') !! x).
Proof.
  intros Hi H2. unfold appendEvents in H2. case_bool_decide as Hno; [by injection H2 as <- <-|].
  apply tx_bind_Ok in H2 as (n & d1 & Hn & H2). apply reads_Ok in Hn as [[= <-] ->].
  set (sid := ls_SessionID lease) in *. rewrite (latest_of_inv sid) in H2 by done.
  apply tx_bind_Ok in H2 as (first & d1 & Hf & H2).
  assert (Hlen : (0 < Z.of_nat (length inputs))%Z) by (destruct inputs; [done|simpl; lia]).
  apply allocate_Ok in Hf as (s & Hs & -> & ->); [|done].
  apply tx_bind_Ok in H2 as (rows & d1 & Hb & H2). apply reads_Ok in Hb as [Hb ->].
  apply buildEventRows_Ok in Hb as [Hlr Hrows0].
  set (first := wrap64 (se_FeedSequence s + 1)) in *.
  assert (Hrows : ∀ i row, rows !! i = Some row → fe_SessionID row = sid ∧
    fe_Sequence row = wrap64 (Z.of_nat (length (eventsOf sid d)) + Z.of_nat i + 1) ∧
    fe_FeedSequence row = wrap64 (first + Z.of_nat i)).
  { intros i row Hrow. by destruct (Hrows0 i row Hrow) as (? & ? & ?). }
  clear Hrows0. subst first. apply createEvents_Ok in H2 as (E1 & E2 & E3 & Hpos).
  set (k := length (eventsOf sid d)) in *.
  assert (Hhd : feedHead sid d = se_FeedSequence s) by (unfold feedHead; by rewrite Hs).
  pose proof (ti_head _ Hi sid) as Hh. rewrite Hhd in Hh.
  pose proof (ti_length _ Hi sid) as Hl. fold k in Hl.
  assert (Hget : ∀ i row, rows !! i = Some row → row ∈ rows) by (intros; by eapply list_elem_of_lookup_2).
  assert (Hfits : (Z.of_nat k + Z.of_nat (length rows) ≤ max_int64)%Z).
  { apply wrap_positive; [lia|]. intros i [row Hrow]%lookup_lt_is_Some_2.
    destruct (Hrows i row Hrow) as (_ & <- & _). by apply Hpos, (Hget i). }
  assert (Hfeed : (se_FeedSequence s + Z.of_nat (length rows) ≤ max_int64)%Z ∧
    ∀ i row, rows !! i = Some row → fe_FeedSequence row = (se_FeedSequence s + Z.of_nat i + 1)%Z).
  { assert (Hw : (se_FeedSequence s + Z.of_nat (length rows) ≤ max_int64)%Z).
    { destruct (Z.eq_dec (se_FeedSequence s) max_int64) as [Em|].
      - exfalso. destruct rows as [|row rows]; [simpl in Hlr; lia|].
        destruct (Hrows 0 row eq_refl) as (_ & _ & Ef). destruct (Hpos row) as [_ Hp]; [by left|].
        rewrite Ef, Em in Hp. revert Hp. by vm_compute.
      - apply wrap_positive; [done|]. intros i [row Hrow]%lookup_lt_is_Some_2.
        destruct (Hrows i row Hrow) as (_ & _ & Ef). destruct (Hpos row) as [_ Hp]; [by apply (Hget i)|].
        rewrite Ef, (wrap64_id (se_FeedSequence s + 1)) in Hp by (unfold min_int64 in *; lia).
        by replace (se_FeedSequence s + Z.of_nat i + 1)%Z
          with (se_FeedSequence s + 1 + Z.of_nat i)%Z by lia. }
    split; [done|]. intros i row Hrow. destruct (Hrows i row Hrow) as (_ & _ & ->).
    apply lookup_lt_Some in Hrow.
    rewrite (wrap64_id (se_FeedSequence s + 1)) by (unfold min_int64 in *; lia).
    rewrite wrap64_id by (unfold min_int64 in *; lia). lia. }
  destruct Hfeed as [Hffit Hfeed].
  assert (Hseq : ∀ i row, rows !! i = Some row → fe_Sequence row = (Z.of_nat k + Z.of_nat i + 1)%Z).
  { intros i row Hrow. destruct (Hrows i row Hrow) as (_ & -> & _). apply lookup_lt_Some in Hrow.
    rewrite wrap64_id by (unfold min_int64 in *; lia). lia. }
  assert (Hall : Forall (λ e, fe_SessionID e = sid) rows).
  { apply Forall_forall. intros e He. apply list_elem_of_lookup_1 in He as [i Hi2]. by apply (Hrows i). }
  assert (Hof : ∀ x, eventsOf x d' = eventsOf x d ++ (if decide (x = sid) then rows else [])).
  { intros x. unfold eventsOf. rewrite E1. simpl. rewrite filter_app. f_equal. case_decide as Hx.
    - subst x. by apply filter_every.
    - apply filter_no. eapply Forall_impl; [exact Hall|]. simpl. congruence. }
  assert (Hcnt : ∀ x, messageCount x d' = messageCount x d).
  { intros x. unfold messageCount. rewrite E3. simpl. destruct (decide (x = sid)) as [->|Hx].
    - rewrite lookup_alter_eq, Hs. simpl. by destruct s.
    - by rewrite lookup_alter_ne. }
  assert (Hhead : ∀ x, feedHead x d' =
    (feedHead x d + if decide (x = sid) then Z.of_nat (length rows) else 0)%Z).
  { intros x. unfold feedHead. rewrite E3. simpl. case_decide as Hx.
    - subst x. rewrite lookup_alter_eq, Hs. destruct s; simpl. lia.
    - rewrite lookup_alter_ne by done. lia. }
  split; [|split_and!; [done|done|]]; [|intros x; rewrite E3; simpl; by rewrite lookup_alter_is_Some].
  destruct Hi as [Hih Hie Hil Hif Hir].
  split; intros x; rewrite ?Hof, ?Hhead.
  - case_decide; [subst x; rewrite Hhd; lia|]. specialize (Hih x). lia.
  - rewrite fmap_app, Hie, length_app. case_decide as Hx; [|simpl; by rewrite app_nil_r, Nat.add_0_r].
    subst x. rewrite (seqZ_next _ (fe_Sequence <$> rows)); [f_equal; rewrite length_fmap; lia|lia|].
    intros i z Hz. rewrite list_lookup_fmap in Hz. destruct (rows !! i) as [row|] eqn:E; [|done].
    injection Hz as <-. by apply Hseq.
  - rewrite length_app. case_decide; [subst x; lia|]. specialize (Hil x). simpl. lia.
  - case_decide as Hx; [|by rewrite app_nil_r]. subst x. rewrite fmap_app.
    apply (feed_sorted _ _ (se_FeedSequence s)); [done| |].
    + intros z Hz. apply list_elem_of_fmap in Hz as (e & -> & He). rewrite <- Hhd. by apply Hir.
    + intros i z Hz. rewrite list_lookup_fmap in Hz. destruct (rows !! i) as [row|] eqn:E; [|done].
      injection Hz as <-. by apply Hfeed.
  - intros e [He|He]%elem_of_app; [destruct (Hir x e He); case_decide; lia|].
    case_decide as Hx; [|by apply not_elem_of_nil in He]. subst x. rewrite Hhd.
    apply list_elem_of_lookup_1 in He as [i Hrow]. rewrite (Hfeed i e Hrow).
    apply lookup_lt_Some in Hrow. lia.
Qed.

Lemma text_inv_appendTranscript c lease ms es d r d' :
  text_inv d → appendTranscript maxStoredMessageBytes Sum256 c lease ms es d = Ok (r, d') →
  text_inv d'.
Proof.
  intros Hi H2. unfold appendTranscript in H2.
  apply tx_bind_Ok in H2 as (s & d1 & Hs & H2). unfold findSessionWithQuery in Hs.
  apply reads_Ok in Hs as [Hs ->]. destruct (sessions (others d) !! ls_SessionID lease) as [s0|] eqn:E; [|done].
  injection Hs as ->.
  apply tx_bind_Ok in H2 as (t & d1 & Ht & H2). unfold findRunningTurn in Ht. apply reads_Ok in Ht as [_ ->].
  apply tx_bind_Ok in H2 as (res & d1 & Ha & H2).
  apply tx_bind_Ok in H2 as (u & d2 & He & H2).
  pose proof (appendMessages_Ok _ _ _ _ _ _ _ _ Ha) as (rows & _ & E2 & E3 & _ & Hr & _).
  destruct Hi as [Hm Hev]. apply event_inv_append in He as (Hev2 & E4 & Hcnt & Hsome); cycle 1.
  { destruct Hev. split; unfold feedHead, eventsOf in *; rewrite ?E2, ?E3; done. }
  assert (Hcnt0 : ∀ x, messageCount x d2 = messageCount x d).
  { intros x. rewrite Hcnt. unfold messageCount. by rewrite E3. }
  destruct (Z.eqb_spec (ap_messageCount res) 0) as [Hz|Hz].
  - injection H2 as <- <-. split; [|done]. eapply message_inv_append; [exact Hm|exact E|exact Ha|done|].
    intros x. rewrite Hcnt0, Hz. case_decide; lia.
  - apply tx_bind_Ok in H2 as (v & d3 & Hu & H2). injection Hu as _ <-. injection H2 as <- <-.
    assert (Hs2 : is_Some (sessions (others d2) !! ls_SessionID lease)).
    { apply Hsome. rewrite E3. eauto. }
    split.
    + eapply message_inv_append; [exact Hm|exact E|exact Ha|done|]. intros x.
      rewrite <- Hcnt0. unfold messageCount, setOthers. simpl. case_decide as Hx.
      * subst x. destruct Hs2 as [s2 Hs2]. rewrite lookup_alter_eq, Hs2. destruct s2; simpl. lia.
      * rewrite lookup_alter_ne by done. lia.
    + assert (Hh : ∀ x, feedHead x (setOthers (λ o, withSessions (alter
        (countMessages (ap_messageCount res) (now c)) (ls_SessionID lease) (sessions o)) o) d2) = feedHead x d2).
      { intros x. unfold feedHead, setOthers. simpl. destruct (decide (x = ls_SessionID lease)) as [->|Hx].
        - destruct Hs2 as [s2 Hs2]. rewrite lookup_alter_eq, Hs2. by destruct s2.
        - by rewrite lookup_alter_ne. }
      destruct Hev2 as [A1 A2 A3 A4 A5].
      split; intros x; rewrite ?Hh; [apply A1|apply A2|apply A3|apply A4|apply A5].
Qed.

(** The messages appended are those of the inputs. *)
Lemma appendEvents_messages c lease inputs d u d' :
  appendEvents c lease inputs d = Ok (u, d') → messages (others d') = messages (others d).
Proof.
  intros H2. unfold appendEvents in H2. case_bool_decide; [by injection H2 as <- <-|].
  apply tx_bind_Ok in H2 as (n & d1 & Hn & H2). apply reads_Ok in Hn as [_ ->].
  apply tx_bind_Ok in H2 as (first & d1 & Hf & H2).
  apply allocate_Ok in Hf as (s & _ & -> & _); [|destruct inputs; [done|simpl; lia]].
  apply tx_bind_Ok in H2 as (rows & d1 & Hb & H2). apply reads_Ok in Hb as [_ ->].
  by apply createEvents_Ok in H2 as (_ & -> & _).
Qed.

Lemma appendTranscript_Ok c lease ms es d r d' :
  appendTranscript maxStoredMessageBytes Sum256 c lease ms es d = Ok (r, d') →
  ∃ rows, messages (others d') = messages (others d) ++ rows ∧ Forall2 (rendered lease) ms rows.
Proof.
  intros H2. unfold appendTranscript in H2.
  apply tx_bind_Ok in H2 as (s & d1 & Hs & H2). unfold findSessionWithQuery in Hs.
  apply reads_Ok in Hs as [_ ->].
  apply tx_bind_Ok in H2 as (t & d1 & Ht & H2). unfold findRunningTurn in Ht. apply reads_Ok in Ht as [_ ->].
  apply tx_bind_Ok in H2 as (res & d1 & Ha & H2).
  apply appendMessages_Ok in Ha as (rows & E1 & _ & _ & HF & _).
  apply tx_bind_Ok in H2 as (u & d2 & He & H2). apply appendEvents_messages in He.
  exists rows. split; [|done]. rewrite <- E1, <- He.
  destruct (_ =? 0)%Z; [by injection H2 as <- <-|].
  apply tx_bind_Ok in H2 as (v & d3 & Hu & H2). injection Hu as _ <-. by injection H2 as <- <-.
Qed.

End store.

End TranscriptRules.
