(* ===== verification/Inbox.v ===== *)
(** The inbox of an execution (executioninbox.go, executioninboxrow.go,
    executioninboxevents.go, executioninboxdelivery.go, executiondeferred.go,
    executiondeferredresume.go, executionforwarding.go, childexecutioninbox.go,
    childexecutiondelivery.go, executionchildreport.go, noticebroadcast.go and
    stoprevision.go): messages a person or an agent sends to running work are
    accepted once, wait in order, enter the transcript with the model request
    that carries them, or are kept for the next root. *)
From stdpp Require Import base gmap sets list strings sorting.
From Stdlib Require Import ZArith Lia Ascii.
From S2P Require Import Prelude GoBytes Json Executions ExecutionControl Activities Transcripts.

Module Inbox.
Import Executions ExecutionControl Activities Transcripts.

(** ** Inputs and answers (executioninboxtypes.go) *)

Record ExecutionInboxPart := mkPart {
  pt_Content : bytes;
  pt_SkillName : bytes;
  pt_SkillIsNote : bool }.

Record AcceptExecutionMessageInput := mkAccept {
  am_ExpectedStopRevision : option Z;
  am_RequestID : uuid;
  am_SourceEventID : uuid;
  am_WorkingDirectory : bytes;
  am_Message : bytes;
  am_Parts : list ExecutionInboxPart;
  am_Images : list MessageImage;
  am_Capacity : Z;
  am_ResumeNotice : bytes }.

Record ExecutionInboxAcceptance := mkAcceptance {
  ac_Message : ExecutionInboxMessage;
  ac_Events : list EventInput;
  ac_Resumed : list uuid }.

Record ExecutionInboxDelivery := mkDelivery {
  dl_Messages : list MessageInput;
  dl_Events : list EventInput }.

Record inboxEncoding := mkEncoding { en_parts : bytes; en_images : preparedImages }.

Definition emptyChildReportPartsJSON : bytes := bs "[]".
Definition emptyInboxEncoding : inboxEncoding :=
  mkEncoding emptyChildReportPartsJSON (mkPrepared emptyImagesJSON []).

Definition EventTypeUserMessageCreated : bytes := bs "userMessage.created".
Definition EventTypeUserMessageQueued : bytes := bs "userMessage.queued".
Definition EventTypeUserMessageDelivered : bytes := bs "userMessage.delivered".
Definition EventTypeSkillInjected : bytes := bs "skill.injected".
Definition resumeNoticeIdentity : bytes := bs "resumeNotice".
Definition deferredTurnIdentity : bytes := bs "deferredRootTurnV1".

(** The JSON of the columns and event payloads ([json.Marshal] and
    [json.Unmarshal]), SQLite's [json_array_length], and [uuid.NewSHA1]. *)
Class InboxCodec := {
  marshalParts : list ExecutionInboxPart → bytes;
  unmarshalParts : bytes → outcome (list ExecutionInboxPart);
  jsonArrayLength : bytes → Z;
  marshalMessagePayload : bytes → uuidText → list ImageDescription → bytes;
  marshalSkillPayload : bytes → bytes → bytes;
  savedInboxIDs : bytes → outcome (list uuid);
  NewSHA1 : uuid → bytes → uuid;
  uuidBytes : uuid → bytes }.

(** What the codec of the standard library promises of an encoded list. *)
Class InboxCodecLaws `{InboxCodec} := {
  marshalParts_empty : marshalParts [] = emptyChildReportPartsJSON;
  jsonArrayLength_marshal ps : jsonArrayLength (marshalParts ps) = Z.of_nat (length ps) }.

(** ** Rows *)

Definition inboxDelivered (activity : uuid) (at_ : Z) (m : ExecutionInboxMessage)
    : ExecutionInboxMessage :=
  let 'mkInboxMessage id sid ex turn req src seq dir msg parts imgs _ _ ca _ fwd rev := m in
  mkInboxMessage id sid ex turn req src seq dir msg parts imgs InboxMessageStateDelivered
    (Some activity) ca (Some at_) fwd rev.

Definition inboxForwarded (target : uuid) (m : ExecutionInboxMessage) : ExecutionInboxMessage :=
  let 'mkInboxMessage id sid ex turn req src seq dir msg parts imgs _ act ca da _ rev := m in
  mkInboxMessage id sid ex turn req src seq dir msg parts imgs InboxMessageStateForwarded
    act ca da (Some target) rev.

Definition inboxRevision (revision : Z) (m : ExecutionInboxMessage) : ExecutionInboxMessage :=
  let 'mkInboxMessage id sid ex turn req src seq dir msg parts imgs st act ca da fwd _ := m in
  mkInboxMessage id sid ex turn req src seq dir msg parts imgs st act ca da fwd revision.

(** The checks of the table. *)
Definition inboxRowValid (m : ExecutionInboxMessage) : bool :=
  (0 <? in_Sequence m)%Z && (0 <=? in_StopRevision m)%Z &&
  match in_State m with
  | InboxMessageStateDelivered =>
      bool_decide (in_DeliveredActivityID m ≠ None) && bool_decide (in_DeliveredAt m ≠ None)
  | _ => bool_decide (in_DeliveredActivityID m = None) && bool_decide (in_DeliveredAt m = None)
  end &&
  bool_decide (in_State m = InboxMessageStateForwarded ↔ in_ForwardedExecutionID m ≠ None).

(** The primary key and the unique indexes. *)
Definition inboxClash (m old : ExecutionInboxMessage) : Prop :=
  in_ID m = in_ID old ∨
  (in_SessionID m = in_SessionID old ∧ in_RequestID m = in_RequestID old) ∨
  (in_ExecutionID m = in_ExecutionID old ∧ in_Sequence m = in_Sequence old).
#[export] Instance inboxClash_dec m old : Decision (inboxClash m old).
Proof. unfold inboxClash. apply _. Defined.

Definition inboxRows (d : db) : list ExecutionInboxMessage :=
  (map_to_list (inbox (others d))).*2.

Definition setInbox (f : gmap uuid ExecutionInboxMessage → gmap uuid ExecutionInboxMessage)
    (d : db) : db := setOthers (λ o, withInbox (f (inbox o)) o) d.

Definition createInboxMessage (m : ExecutionInboxMessage) : tx unit := λ d,
  if negb (inboxRowValid m) then Err ErrOther
  else if bool_decide (Exists (inboxClash m) (inboxRows d)) then Err ErrAlreadyExists
  else Ok (tt, setInbox <[in_ID m := m]> d).

(** [Save], and [UpdateSimple] on the row of a session. *)
Definition updateInbox (sid id : uuid) (f : ExecutionInboxMessage → ExecutionInboxMessage)
    : tx unit := λ d,
  match inbox (others d) !! id with
  | Some row =>
      if negb (bool_decide (in_SessionID row = sid)) then Ok (tt, d)
      else if inboxRowValid (f row) then Ok (tt, setInbox <[id := f row]> d)
      else Err ErrOther
  | None => Ok (tt, d)
  end.

Definition findInboxRequest (sid request : uuid) : tx ExecutionInboxMessage :=
  reads (λ d,
    match filter (λ m, in_SessionID m = sid ∧ in_RequestID m = request) (inboxRows d) with
    | m :: _ => Ok m
    | [] => Err ErrNotFound
    end).

(** A missing row is no error. *)
Definition orAbsent {A} (m : tx A) : tx (option A) := λ d,
  match m d with
  | Ok (a, d') => Ok (Some a, d')
  | Err ErrNotFound => Ok (None, d)
  | Err e => Err e
  | Panic => Panic
  | OutOfFuel => OutOfFuel
  end.

Definition nextInboxSequence (executionID : uuid) : tx Z :=
  latest ← reads (λ d, Ok (foldr Z.max 0%Z (in_Sequence <$>
    filter (λ m, in_ExecutionID m = executionID) (inboxRows d))));
  if (latest =? 0)%Z then mret 1%Z
  else
    _ ← refuseIf (latest =? max_int64)%Z ErrInvalidState;
    mret (latest + 1)%Z.

(** ** Stop revisions (stoprevision.go) *)

Definition ValidateStopRevision (expected : option Z) (current : Z) : outcome unit :=
  match expected with
  | None => Ok tt
  | Some revision =>
      if (revision <? 0)%Z then Err ErrValidationFailed
      else if negb (revision =? current)%Z then Err ErrConflict else Ok tt
  end.

Definition admissionStopRevision (sid : uuid) (expected : option Z) : tx Z :=
  stored ← findSessionWithQuery sid;
  _ ← check (ValidateStopRevision expected (se_StopRevision stored));
  mret (se_StopRevision stored).

Section store.
Variable maxStoredMessageBytes : Z.
Variable Sum256 : bytes → bytes.
Context `{ImageCodec, InboxCodec}.

(** The slots a queue of some state occupies: one per message and per skill. *)
Definition QueuedSlots (sid executionID : uuid) (state : InboxMessageState) (d : db) : Z :=
  foldr Z.add 0%Z ((λ m, 1 + jsonArrayLength (in_PartsJSON m))%Z <$>
    filter (λ m, in_SessionID m = sid ∧ in_ExecutionID m = executionID ∧ in_State m = state)
           (inboxRows d)).

(** ** Validation *)

Definition fitsInboxStorage (input : AcceptExecutionMessageInput) : bool :=
  (zlen (am_Message input) <=? maxStoredMessageBytes)%Z &&
  (zlen (am_ResumeNotice input) <=? maxStoredMessageBytes)%Z.

Definition validateExecutionInboxParts (parts : list ExecutionInboxPart) : outcome unit :=
  if existsb (λ part, bool_decide (trim_space (pt_SkillName part) = []) ||
                      bool_decide (pt_Content part = [])) parts
  then Err ErrValidationFailed else Ok tt.

Definition encodeInboxParts (parts : list ExecutionInboxPart) : outcome bytes :=
  _ ← validateExecutionInboxParts parts;
  let encoded := marshalParts parts in
  if (maxStoredMessageBytes <? zlen encoded)%Z then Err ErrValidationFailed else Ok encoded.

Definition validateExecutionInboxInput (input : AcceptExecutionMessageInput)
    : outcome inboxEncoding :=
  if bool_decide (am_RequestID input = Nil) || (am_Capacity input <=? 0)%Z ||
     bool_decide (trim_space (am_WorkingDirectory input) = []) ||
     bool_decide (trim_space (am_Message input) = []) || negb (fitsInboxStorage input)
  then Err ErrValidationFailed
  else
    parts ← encodeInboxParts (am_Parts input);
    images ← prepareMessageImages Sum256 (am_Images input);
    Ok (mkEncoding parts images).

Definition sameOptionalID (saved : option uuid) (requested : uuid) : bool :=
  match saved with
  | None => bool_decide (requested = Nil)
  | Some id => bool_decide (id = requested)
  end.

Definition sameInboxInput (message : ExecutionInboxMessage) (executionID : uuid)
    (input : AcceptExecutionMessageInput) (encoded : inboxEncoding) : bool :=
  bool_decide (in_ExecutionID message = executionID) &&
  bool_decide (in_Message message = am_Message input) &&
  bool_decide (in_WorkingDirectory message = am_WorkingDirectory input) &&
  bool_decide (in_PartsJSON message = en_parts encoded) &&
  bool_decide (in_ImagesJSON message = pi_json (en_images encoded)) &&
  sameOptionalID (in_SourceEventID message) (am_SourceEventID input).

Definition validateInboxReplay (existing : ExecutionInboxMessage) (executionID : uuid)
    (input : AcceptExecutionMessageInput) (encoded : inboxEncoding) (state : InboxMessageState)
    : outcome unit :=
  let isDeferred := bool_decide (in_State existing = InboxMessageStateDeferred) ||
                    bool_decide (in_State existing = InboxMessageStateForwarded) in
  if negb (Bool.eqb isDeferred (bool_decide (state = InboxMessageStateDeferred))) ||
     negb (sameInboxInput existing executionID input encoded)
  then Err ErrConflict else Ok tt.

(** A deferred message needs the reserved completion of a running root. *)
Definition validateDeferredBoundary (execution : Execution) : tx unit :=
  seal ← readExecutionCompletionSeal execution;
  match seal with
  | None => check (Err ErrConflict)
  | Some seal =>
      _ ← refuseIf (negb (bool_decide (ex_State execution = ExecutionStateRunning))) ErrConflict;
      hook ← reads (λ d, firstRow ac_SessionID (activities d) (ex_SessionID execution)
                                  (cs_ActivityID seal));
      _ ← refuseIf (negb (bool_decide (ac_ExecutionID hook = ex_ID execution))) ErrNotFound;
      _ ← refuseIf (negb (isCompletionSealActivity execution hook)) ErrConflict;
      _ ← reads (λ _, validateRepeatedCompletionSeal Sum256 seal hook);
      mret tt
  end.

Definition validateInboxAdmission (execution : Execution) (state : InboxMessageState) : tx unit :=
  _ ← refuseIf (bool_decide (ex_State execution = ExecutionStatePaused) ||
                isExecutionTerminal (ex_State execution)) ErrInvalidState;
  if bool_decide (state = InboxMessageStateDeferred) then validateDeferredBoundary execution
  else mret tt.

(** ** Events of a message (executioninboxevents.go) *)

Definition inboxProtocolEvents (message : ExecutionInboxMessage) (kinds : list bytes)
    : outcome (list EventInput) :=
  images ← imageDescriptions (in_ImagesJSON message);
  let encoded := marshalMessagePayload (in_Message message) (in_SourceEventID message) images in
  Ok (map (λ kind, mkEventInput Nil (in_RequestID message) None kind encoded []) kinds).

Definition withWorker (generation : uuidText) (e : EventInput) : EventInput :=
  mkEventInput (ei_ID e) (ei_RequestID e) generation (ei_EventType e) (ei_PayloadJSON e)
    (ei_ParentToolCallID e).

Definition inboxSkillEvents (message : ExecutionInboxMessage) (rootRequestID : uuid)
    : outcome (list EventInput) :=
  parts ← unmarshalParts (in_PartsJSON message);
  Ok (map (λ part, mkEventInput Nil rootRequestID None EventTypeSkillInjected
        (marshalSkillPayload (pt_SkillName part) (pt_Content part)) []) parts).

Definition inboxAcceptanceEvents (lease : Lease) (message : ExecutionInboxMessage)
    : tx (list EventInput) :=
  turn ← findRunningTurn lease;
  events ← reads (λ _, inboxProtocolEvents message
             [EventTypeUserMessageCreated; EventTypeUserMessageQueued]);
  mret (map (withWorker (tu_WorkerGenerationID turn)) events).

(** ** Accepting a message for a root (executioninbox.go) *)

Definition saveInboxMessage (message : ExecutionInboxMessage) (encoded : inboxEncoding) : tx unit :=
  _ ← storeImages (en_images encoded);
  createInboxMessage message.

Definition optionalID (id : uuid) : option uuid := if bool_decide (id = Nil) then None else Some id.

(** [input.Capacity - 1 - len(input.Parts)] *)
Definition freeSlots (input : AcceptExecutionMessageInput) : Z :=
  wrap64 (am_Capacity input - 1 - Z.of_nat (length (am_Parts input))).

Definition insertInboxMessage (c : call) (execution : Execution) (lease : Lease)
    (input : AcceptExecutionMessageInput) (encoded : inboxEncoding) (state : InboxMessageState)
    : tx ExecutionInboxAcceptance :=
  revision ← admissionStopRevision (ls_SessionID lease) (am_ExpectedStopRevision input);
  used ← reads (λ d, Ok (QueuedSlots (ls_SessionID lease) (ex_ID execution) state d));
  _ ← refuseIf (freeSlots input <? used)%Z ErrConflict;
  sequence ← nextInboxSequence (ex_ID execution);
  let message :=
    mkInboxMessage (newID c) (ls_SessionID lease) (ex_ID execution) (ls_TurnID lease)
      (am_RequestID input) (optionalID (am_SourceEventID input)) sequence
      (am_WorkingDirectory input) (am_Message input) (en_parts encoded)
      (pi_json (en_images encoded)) state None (now c) None None revision in
  _ ← saveInboxMessage message encoded;
  events ← inboxAcceptanceEvents lease message;
  _ ← appendTranscript maxStoredMessageBytes Sum256 c lease [] events;
  mret (mkAcceptance message events []).

Definition acceptExecutionMessage (c : call) (executionID : uuid) (lease : Lease)
    (input : AcceptExecutionMessageInput) (encoded : inboxEncoding) (state : InboxMessageState)
    : tx ExecutionInboxAcceptance :=
  execution ← findExecution (ls_SessionID lease) executionID;
  _ ← refuseIf (negb (bool_decide (ex_Kind execution = ExecutionKindRoot)) ||
                negb (bool_decide (ex_RootTurnID execution = ls_TurnID lease))) ErrConflict;
  existing ← orAbsent (findInboxRequest (ls_SessionID lease) (am_RequestID input));
  match existing with
  | Some existing =>
      _ ← check (validateInboxReplay existing executionID input encoded state);
      mret (mkAcceptance existing [] [])
  | None =>
      _ ← validateInboxAdmission execution state;
      insertInboxMessage c execution lease input encoded state
  end.

Definition acceptExecutionInbox (c : call) (active : activeTurns) (executionID : uuid)
    (lease : Lease) (input : AcceptExecutionMessageInput) (state : InboxMessageState) (d : db)
    : db * outcome ExecutionInboxAcceptance :=
  match validateExecutionInboxInput input with
  | Ok encoded =>
      underLease active lease (acceptExecutionMessage c executionID lease input encoded state) d
  | Err e => (d, Err e)
  | Panic => (d, Panic)
  | OutOfFuel => (d, OutOfFuel)
  end.

Definition AcceptExecutionMessage (c : call) (active : activeTurns) (executionID : uuid)
    (lease : Lease) (input : AcceptExecutionMessageInput) (d : db)
    : db * outcome ExecutionInboxAcceptance :=
  acceptExecutionInbox c active executionID lease input InboxMessageStateQueued d.

Definition DeferExecutionMessage (c : call) (active : activeTurns) (executionID : uuid)
    (lease : Lease) (input : AcceptExecutionMessageInput) (d : db)
    : db * outcome ExecutionInboxAcceptance :=
  acceptExecutionInbox c active executionID lease input InboxMessageStateDeferred d.

(** ** Delivering to a root (executioninboxdelivery.go, executioninboxrow.go) *)

Record DeliverExecutionMessagesInput := mkDeliver {
  di_TurnLease : Lease;
  di_ModelLease : ActivityLease;
  di_RequestIDs : list uuid }.

Definition userMessage (workspace content images kind : bytes) : MessageInput :=
  mkMessageInput Nil workspace MessageRoleUser content [] [] [] [] [] false false
    (negb (bool_decide (kind = []))) kind [] images.

Definition inboxTranscriptMessages (row : ExecutionInboxMessage) : outcome (list MessageInput) :=
  parts ← unmarshalParts (in_PartsJSON row);
  Ok (userMessage (in_WorkingDirectory row) (in_Message row) (in_ImagesJSON row) InjectedKindNone ::
      map (λ part, userMessage (in_WorkingDirectory row) (pt_Content part) [] InjectedKindSkill)
          parts).

Definition requireDeliveredBy (row : ExecutionInboxMessage) (activity : ExecutionActivity)
    : outcome unit :=
  if bool_decide (in_DeliveredActivityID row = Some (ac_ID activity)) then Ok tt
  else Err ErrConflict.

Definition deliverInboxRow (c : call) (execution : Execution) (activity : ExecutionActivity)
    (row : ExecutionInboxMessage) (rootRequestID : uuid)
    : tx (list MessageInput * list EventInput) :=
  _ ← refuseIf (negb (bool_decide (in_ExecutionID row = ex_ID execution))) ErrConflict;
  if bool_decide (in_State row = InboxMessageStateDelivered)
  then
    _ ← check (requireDeliveredBy row activity);
    mret ([], [])
  else
    messages ← reads (λ _, inboxTranscriptMessages row);
    events ← reads (λ _, inboxProtocolEvents row [EventTypeUserMessageDelivered]);
    skillEvents ← reads (λ _, inboxSkillEvents row rootRequestID);
    _ ← updateInbox (in_SessionID row) (in_ID row) (inboxDelivered (ac_ID activity) (now c));
    mret (messages, events ++ skillEvents).

Fixpoint deliverInboxRows (c : call) (sid : uuid) (execution : Execution)
    (activity : ExecutionActivity) (rootRequestID : uuid) (requestIDs : list uuid)
    : tx (list MessageInput * list EventInput) :=
  match requestIDs with
  | [] => mret ([], [])
  | requestID :: rest =>
      row ← findInboxRequest sid requestID;
      first ← deliverInboxRow c execution activity row rootRequestID;
      others ← deliverInboxRows c sid execution activity rootRequestID rest;
      mret (first.1 ++ others.1, first.2 ++ others.2)
  end.

Definition validateInboxDeliveryIDs (activity : ExecutionActivity) (requestIDs : list uuid)
    : outcome unit :=
  saved ← savedInboxIDs (ac_InputJSON activity);
  if negb (bool_decide (requestIDs = saved)) then Err ErrConflict
  else if bool_decide (NoDup requestIDs ∧ Nil ∉ requestIDs) then Ok tt
  else Err ErrValidationFailed.

Definition canDeliverExecutionInbox (activity : ExecutionActivity) (execution : Execution)
    (lease : Lease) : bool :=
  bool_decide (ac_Kind activity = ActivityKindModel) &&
  bool_decide (ac_State activity = ActivityStateRunning) &&
  bool_decide (ex_Kind execution = ExecutionKindRoot) &&
  negb (bool_decide (ex_State execution = ExecutionStatePaused)) &&
  negb (isExecutionTerminal (ex_State execution)) &&
  bool_decide (ex_RootTurnID execution = ls_TurnID lease).

Definition deliverExecutionMessages (c : call) (sid : uuid) (input : DeliverExecutionMessagesInput)
    : tx ExecutionInboxDelivery :=
  '(activity, execution) ← activityForLease sid (di_ModelLease input);
  _ ← refuseIf (negb (canDeliverExecutionInbox activity execution (di_TurnLease input)))
       ErrInvalidState;
  _ ← check (validateInboxDeliveryIDs activity (di_RequestIDs input));
  turn ← findRunningTurn (di_TurnLease input);
  delivered ← deliverInboxRows c sid execution activity (tu_RequestID turn) (di_RequestIDs input);
  let events := map (withWorker (Some (le_GenerationID (di_ModelLease input)))) delivered.2 in
  _ ← appendTranscript maxStoredMessageBytes Sum256 c (di_TurnLease input) delivered.1 events;
  mret (mkDelivery delivered.1 events).

Definition DeliverExecutionMessages (c : call) (active : activeTurns) (sid : uuid)
    (input : DeliverExecutionMessagesInput) (d : db) : db * outcome ExecutionInboxDelivery :=
  if negb (bool_decide (sid = ls_SessionID (di_TurnLease input)))
  then (d, Err ErrPermissionDenied)
  else underLease active (di_TurnLease input) (deliverExecutionMessages c sid input) d.

(** ** Messages of a child (childexecutioninbox.go, childexecutiondelivery.go) *)

Definition recordChildInboxAcceptance (c : call) (execution : Execution)
    (message : ExecutionInboxMessage) : tx Execution :=
  run ← deref (ex_AgentRunID execution);
  appendExecutionEvent c execution ExecutionEventTypeInboxQueued
    (InboxQueuedPayload (in_ID message) (in_RequestID message) run).

Definition insertChildInboxMessage (c : call) (execution : Execution)
    (input : AcceptExecutionMessageInput) (encoded : inboxEncoding)
    : tx (Execution * ExecutionInboxAcceptance) :=
  _ ← refuseIf (ex_EventCount execution =? max_int64)%Z ErrInvalidState;
  used ← reads (λ d, Ok (QueuedSlots (ex_SessionID execution) (ex_ID execution)
                           InboxMessageStateQueued d));
  _ ← refuseIf (freeSlots input <? used)%Z ErrConflict;
  sequence ← nextInboxSequence (ex_ID execution);
  let message :=
    mkInboxMessage (newID c) (ex_SessionID execution) (ex_ID execution) (ex_RootTurnID execution)
      (am_RequestID input) (optionalID (am_SourceEventID input)) sequence
      (am_WorkingDirectory input) (am_Message input) (en_parts encoded)
      (pi_json (en_images encoded)) InboxMessageStateQueued None (now c) None None 0 in
  _ ← saveInboxMessage message encoded;
  execution ← recordChildInboxAcceptance c execution message;
  mret (execution, mkAcceptance message [] []).

(** [noticeID] is the id drawn for the row of the notice. *)
Definition resumeChildWithMessage (c : call) (noticeID : uuid) (execution : Execution)
    (input : AcceptExecutionMessageInput) (encoded : inboxEncoding)
    : tx ExecutionInboxAcceptance :=
  resumed ← changeExecutionSubtree c (ex_SessionID execution) (ex_ID execution) Resume
              (MessageResumePayload (am_RequestID input));
  execution ← findExecution (ex_SessionID execution) (ex_ID execution);
  execution ←
    (if bool_decide (trim_space (am_ResumeNotice input) = []) then mret execution
     else
       let notice :=
         mkAccept None (NewSHA1 (am_RequestID input) resumeNoticeIdentity) Nil
           (am_WorkingDirectory input) (am_ResumeNotice input) [] [] (am_Capacity input) [] in
       '(execution, _) ← insertChildInboxMessage (mkCall (now c) noticeID (agentRunOwner c))
                           execution notice emptyInboxEncoding;
       mret execution);
  '(_, accepted) ← insertChildInboxMessage c execution input encoded;
  mret (mkAcceptance (ac_Message accepted) (ac_Events accepted) resumed).

Definition acceptChildInboxMessage (c : call) (noticeID sid executionID : uuid)
    (input : AcceptExecutionMessageInput) (encoded : inboxEncoding)
    : tx ExecutionInboxAcceptance :=
  execution ← findExecution sid executionID;
  _ ← refuseIf (negb (bool_decide (ex_Kind execution = ExecutionKindChild)) ||
                bool_decide (ex_AgentRunID execution = None)) ErrConflict;
  existing ← orAbsent (findInboxRequest sid (am_RequestID input));
  match existing with
  | Some existing =>
      _ ← refuseIf (negb (sameInboxInput existing executionID input encoded)) ErrConflict;
      mret (mkAcceptance existing [] [])
  | None =>
      _ ← refuseIf (isExecutionTerminal (ex_State execution)) ErrAgentRunFinished;
      if bool_decide (ex_State execution = ExecutionStatePaused)
      then resumeChildWithMessage c noticeID execution input encoded
      else
        '(_, accepted) ← insertChildInboxMessage c execution input encoded;
        mret accepted
  end.

Definition AcceptChildExecutionMessage (c : call) (noticeID sid executionID : uuid)
    (input : AcceptExecutionMessageInput) (d : db) : db * outcome ExecutionInboxAcceptance :=
  match validateExecutionInboxInput input with
  | Ok encoded => transaction (acceptChildInboxMessage c noticeID sid executionID input encoded) d
  | Err e => (d, Err e)
  | Panic => (d, Panic)
  | OutOfFuel => (d, OutOfFuel)
  end.

Definition canDeliverChildInbox (activity : ExecutionActivity) (execution : Execution) : bool :=
  bool_decide (ac_Kind activity = ActivityKindModel) &&
  bool_decide (ac_State activity = ActivityStateRunning) &&
  bool_decide (ex_Kind execution = ExecutionKindChild) &&
  negb (bool_decide (ex_AgentRunID execution = None)) &&
  negb (bool_decide (ex_State execution = ExecutionStatePaused)) &&
  negb (isExecutionTerminal (ex_State execution)).

Definition recordChildInboxDelivery (c : call) (execution : Execution)
    (activity : ExecutionActivity) (row : ExecutionInboxMessage) : tx Execution :=
  _ ← refuseIf (ex_EventCount execution =? max_int64)%Z ErrInvalidState;
  run ← deref (ex_AgentRunID execution);
  appendExecutionEvent c execution ExecutionEventTypeInboxDelivered
    (InboxDeliveredPayload (in_ID row) (in_RequestID row) (ac_ID activity) run).

Definition childInput (message : MessageInput) : AgentRunMessageInput :=
  mkRunMessageInput Nil (mi_Role message) (mi_Content message) [] [] [] [] false false [] [] []
    (mi_StoredImagesJSON message).

Definition deliverChildInboxRow (c : call) (execution : Execution) (activity : ExecutionActivity)
    (row : ExecutionInboxMessage) : tx (Execution * list MessageInput) :=
  _ ← refuseIf (negb (bool_decide (in_ExecutionID row = ex_ID execution))) ErrConflict;
  if bool_decide (in_State row = InboxMessageStateDelivered)
  then
    _ ← check (requireDeliveredBy row activity);
    mret (execution, [])
  else
    messages ← reads (λ _, inboxTranscriptMessages row);
    run ← deref (ex_AgentRunID execution);
    _ ← createAgentRunMessages Sum256 c (ex_SessionID execution) run (map childInput messages);
    _ ← updateInbox (in_SessionID row) (in_ID row) (inboxDelivered (ac_ID activity) (now c));
    execution ← recordChildInboxDelivery c execution activity row;
    mret (execution, messages).

Fixpoint deliverChildRows (c : call) (sid : uuid) (execution : Execution)
    (activity : ExecutionActivity) (requestIDs : list uuid) : tx (list MessageInput) :=
  match requestIDs with
  | [] => mret []
  | id :: rest =>
      row ← findInboxRequest sid id;
      '(execution, messages) ← deliverChildInboxRow c execution activity row;
      others ← deliverChildRows c sid execution activity rest;
      mret (messages ++ others)
  end.

Definition deliverChildInboxMessages (c : call) (sid : uuid) (lease : ActivityLease)
    (requestIDs : list uuid) : tx ExecutionInboxDelivery :=
  '(activity, execution) ← activityForLease sid lease;
  _ ← refuseIf (negb (canDeliverChildInbox activity execution)) ErrInvalidState;
  _ ← check (validateInboxDeliveryIDs activity requestIDs);
  messages ← deliverChildRows c sid execution activity requestIDs;
  mret (mkDelivery messages []).

Definition DeliverChildExecutionMessages (c : call) (sid : uuid) (lease : ActivityLease)
    (requestIDs : list uuid) (d : db) : db * outcome ExecutionInboxDelivery :=
  transaction (deliverChildInboxMessages c sid lease requestIDs) d.

(** ** Reports of a child (executionchildreport.go)

    A report reaches the inbox of the parent whatever the parent's state and
    however full its queue. *)

Definition recordChildReportEvent (c : call) (parent child : Execution)
    (message : ExecutionInboxMessage) : tx unit :=
  run ← deref (ex_AgentRunID child);
  _ ← appendExecutionEvent c parent ExecutionEventTypeInboxQueued
        (ChildReportPayload (in_ID message) (in_RequestID message) (ex_ID child) run);
  mret tt.

Definition recordExecutionChildReport (c : call) (child : Execution) (eventID : uuid) (createdAt : Z)
    (text : bytes) : tx unit :=
  if bool_decide (text = []) then mret tt
  else match ex_ParentExecutionID child with
  | None => check (Err ErrConflict)
  | Some parentID =>
      parent ← findExecution (ex_SessionID child) parentID;
      _ ← refuseIf (ex_EventCount parent =? max_int64)%Z ErrInvalidState;
      sequence ← nextInboxSequence (ex_ID parent);
      let message :=
        mkInboxMessage (newID c) (ex_SessionID parent) (ex_ID parent) (ex_RootTurnID parent)
          eventID (Some eventID) sequence (ex_WorkingDirectory parent) text
          emptyChildReportPartsJSON emptyImagesJSON InboxMessageStateQueued None createdAt None
          None 0 in
      _ ← createInboxMessage message;
      recordChildReportEvent c parent child message
  end.

End store.

End Inbox.
