(* ===== verification/Deferral.v ===== *)
(** Messages handed from one execution to another (executionforwarding.go,
    executiondeferredresume.go, noticebroadcast.go and the deferred part of
    execution.go and executionagentcontrol.go): a deferred message becomes the
    task of a new root, once; a stopped one may be resumed; a notice of a
    failure is queued for every running child. *)
From stdpp Require Import base gmap sets list strings sorting.
From Stdlib Require Import ZArith Lia Ascii.
From S2P Require Import Prelude GoBytes Executions ExecutionControl Activities Transcripts Inbox.

Module Deferral.
Import Executions ExecutionControl Activities Transcripts Inbox.

Definition findInboxRow (sid id : uuid) : tx ExecutionInboxMessage :=
  reads (λ d, firstRow in_SessionID (inbox (others d)) sid id).

(** What a resume of a deferred message selects. *)
Record DeferredSelection := mkSelection {
  ds_DeferredRequestID : option uuid;
  ds_DeferredStopRevision : option Z }.

(** [UpdateSimple] on the row of a turn. *)
Definition updateTurn (sid id : uuid) (f : Turn → Turn) : tx unit :=
  λ d, Ok (tt, setOthers (λ o, withTurns (updateRow tu_SessionID sid id f (turns o)) o) d).

(** The column that names the worker of a turn. *)
Definition turnNamed (worker : uuidText) (t : Turn) : Turn :=
  let 'mkTurn sid st cr rev req ws _ fc completed started ctx prompt := t in
  mkTurn sid st cr rev req ws worker fc completed started ctx prompt.

Definition turnReopened (revision : Z) (t : Turn) : Turn :=
  let 'mkTurn sid _ _ _ req ws gen fc _ started ctx prompt := t in
  mkTurn sid TurnStateInterrupted false revision req ws gen fc None started ctx prompt.

Section store.
Variables maxExecutionStateBytes maxStoredMessageBytes : Z.
Variable Sum256 : bytes → bytes.
Context `{InboxCodec}.

(** ** Forwarding a deferred message to a new root (executionforwarding.go) *)

Definition validateDeferredTarget (target : Execution) (message : ExecutionInboxMessage)
    : tx unit :=
  _ ← refuseIf (negb (bool_decide (ex_Kind target = ExecutionKindRoot)) ||
                bool_decide (ex_ID target = in_ExecutionID message) ||
                negb (bool_decide (ex_Task target = in_Message message)) ||
                negb (bool_decide (ex_WorkingDirectory target = in_WorkingDirectory message)))
       ErrConflict;
  turn ← findTurn (ex_SessionID target) (ex_RootTurnID target);
  refuseIf (negb (bool_decide (tu_RequestID turn = in_RequestID message))) ErrConflict.

Definition forwardExecutionMessage (c : call) (target : Execution)
    (message : ExecutionInboxMessage) : tx unit :=
  source ← findExecution (ex_SessionID target) (in_ExecutionID message);
  _ ← refuseIf (negb (bool_decide (ex_State source = ExecutionStateCompleted)) ||
                (ex_EventCount source =? max_int64)%Z) ErrConflict;
  _ ← completedHookInboxWatermark Sum256 source;
  _ ← updateInbox (ex_SessionID target) (in_ID message) (inboxForwarded (ex_ID target));
  _ ← appendExecutionEvent c source ExecutionEventTypeInboxForwarded
        (InboxForwardedPayload (in_ID message) (ex_ID target));
  mret tt.

Definition bindDeferredExecution (c : call) (target : Execution) (inboxID : option uuid)
    : tx unit :=
  match inboxID with
  | None => mret tt
  | Some id =>
      message ← findInboxRow (ex_SessionID target) id;
      if bool_decide (in_State message = InboxMessageStateForwarded)
      then refuseIf (negb (bool_decide (in_ForwardedExecutionID message = Some (ex_ID target))))
             ErrConflict
      else
        _ ← validateDeferredTarget target message;
        _ ← refuseIf (negb (bool_decide (in_State message = InboxMessageStateDeferred)) ||
                      negb (bool_decide (ex_State target = ExecutionStateQueued))) ErrConflict;
        forwardExecutionMessage c target message
  end.

(** The creation of [execution.go] with a deferred message to bind; without
    one it is [Executions.createExecution]. *)
Definition createDeferredExecution (c : call) (sid : uuid) (input : CreateExecutionInput)
    (inboxID : option uuid) : tx Execution := λ d,
  match findExecution sid (ci_ID input) d with
  | Ok (existing, d) =>
      if sameExecutionIdentity existing input
      then (_ ← bindDeferredExecution c existing inboxID; mret existing) d
      else Err ErrConflict
  | Err ErrNotFound =>
      (created ← executionRecord c sid input;
       _ ← insertExecution created;
       _ ← bindDeferredExecution c created inboxID;
       recordExecutionCreation c created) d
  | Err e => Err e
  | Panic => Panic
  | OutOfFuel => OutOfFuel
  end.

Definition CreateDeferredExecution (c : call) (sid : uuid) (input : CreateExecutionInput)
    (inboxID : option uuid) (d : db) : db * outcome Execution :=
  match validateExecutionInput maxExecutionStateBytes maxStoredMessageBytes input with
  | Ok _ => transaction (createDeferredExecution c sid input inboxID) d
  | Err e => (d, Err e)
  | Panic => (d, Panic)
  | OutOfFuel => (d, OutOfFuel)
  end.

(** ** Resuming a stopped deferred message (executiondeferredresume.go) *)

Definition validateDeferredResumeSelection (input : DeferredSelection) : outcome unit :=
  match ds_DeferredRequestID input, ds_DeferredStopRevision input with
  | None, None => Ok tt
  | Some request, Some revision =>
      if bool_decide (request = Nil) || (revision <? 0)%Z then Err ErrValidationFailed else Ok tt
  | _, _ => Err ErrValidationFailed
  end.

Definition deferredResumeSelectionChanged (message : ExecutionInboxMessage) (revision : Z) : bool :=
  negb (bool_decide (in_State message = InboxMessageStateDeferred)) ||
  negb (bool_decide (in_ForwardedExecutionID message = None)) ||
  negb (in_StopRevision message =? revision)%Z.

Definition reopenDeferredTurn (message : ExecutionInboxMessage) (revision : Z) : tx unit :=
  let id := NewSHA1 (in_ID message) deferredTurnIdentity in
  found ← orAbsent (findTurn (in_SessionID message) id);
  match found with
  | None => mret tt
  | Some turn =>
      _ ← refuseIf (negb (bool_decide (tu_RequestID turn = in_RequestID message)) ||
                    negb (bool_decide (tu_Workspace turn = in_WorkingDirectory message)) ||
                    bool_decide (tu_State turn = TurnStateCompleted)) ErrConflict;
      updateTurn (in_SessionID message) id (turnReopened revision)
  end.

Definition recordDeferredResume (c : call) (target caller : Execution)
    (message : ExecutionInboxMessage) (input : ResumeExecutionInput) (request : uuid)
    (inspected revision : Z) : tx unit :=
  _ ← appendExecutionEvent c target ExecutionEventTypeInboxResumed
        (InboxResumedPayload (ex_ID caller) (in_ID message) revision
           (leaseFields (ri_SourceLease input)) (ri_ControlRevision input) request inspected);
  mret tt.

Definition resumeDeferredInput (c : call) (sid executionID : uuid) (caller : Execution)
    (input : ResumeExecutionInput) (request : uuid) (inspected : Z) : tx unit :=
  target ← findExecution sid executionID;
  _ ← refuseIf (negb (bool_decide (ex_Kind target = ExecutionKindRoot)) ||
                negb (bool_decide (ex_State target = ExecutionStateCompleted))) ErrConflict;
  _ ← completedHookInboxWatermark Sum256 target;
  message ← reads (λ d,
    match filter (λ m, in_SessionID m = sid ∧ in_ExecutionID m = executionID ∧
                       in_RequestID m = request) (inboxRows d) with
    | m :: _ => Ok m
    | [] => Err ErrNotFound
    end);
  _ ← refuseIf (deferredResumeSelectionChanged message inspected) ErrConflict;
  stored ← findSessionWithQuery sid;
  _ ← reopenDeferredTurn message (se_StopRevision stored);
  _ ← updateInbox sid (in_ID message) (inboxRevision (se_StopRevision stored));
  recordDeferredResume c target caller message input request inspected (se_StopRevision stored).

(** A resume that selects a deferred message resumes no execution; without a
    selection it is [Activities.ResumeExecutionFromActivity]. *)
Definition ResumeSelectedFromActivity (c : call) (sid executionID : uuid)
    (input : ResumeExecutionInput) (selection : DeferredSelection) (d : db)
    : db * outcome (list uuid) :=
  match validateDeferredResumeSelection selection with
  | Ok _ =>
      match ds_DeferredRequestID selection, ds_DeferredStopRevision selection with
      | Some request, Some revision =>
          transaction
            (source ← authorizeExecutionControl sid executionID input;
             _ ← resumeDeferredInput c sid executionID source input request revision;
             mret []) d
      | _, _ => ResumeExecutionFromActivity c sid executionID input d
      end
  | Err e => (d, Err e)
  | Panic => (d, Panic)
  | OutOfFuel => (d, OutOfFuel)
  end.

(** ** Notices for running children (noticebroadcast.go) *)

Definition isChildBroadcastNotice (noticeType : bytes) : bool :=
  bool_decide (noticeType ∈ [bs "turn.failed"; bs "turn.cancelled"; bs "agent.failed"]).

Definition queueChildNotice (c : call) (child : Execution) (notice : SessionNotice) (text : bytes)
    : tx unit :=
  _ ← refuseIf (bool_decide (ex_AgentRunID child = None)) ErrConflict;
  sequence ← nextInboxSequence (ex_ID child);
  let message :=
    mkInboxMessage (newID c) (ex_SessionID child) (ex_ID child) (ex_RootTurnID child)
      (NewSHA1 (sn_ID notice) (uuidBytes (ex_ID child))) (Some (sn_ID notice)) sequence
      (ex_WorkingDirectory child) text emptyChildReportPartsJSON emptyImagesJSON
      InboxMessageStateQueued None (sn_CreatedAt notice) None None 0 in
  _ ← createInboxMessage message;
  _ ← recordChildInboxAcceptance c child message;
  mret tt.

(** [drawn] is the id the store draws for the copy of a child; [text] is what
    [events.RenderPrompt] makes of the notice. *)
Fixpoint queueChildNotices (c : call) (drawn : uuid → uuid) (notice : SessionNotice)
    (text : bytes) (children : list Execution) : tx unit :=
  match children with
  | [] => mret tt
  | child :: rest =>
      _ ← queueChildNotice (mkCall (now c) (drawn (ex_ID child)) (agentRunOwner c)) child notice text;
      queueChildNotices c drawn notice text rest
  end.

Definition broadcastNoticeToChildren (c : call) (drawn : uuid → uuid) (notice : SessionNotice)
    (text : bytes) : tx unit :=
  if negb (isChildBroadcastNotice (sn_Type notice)) then mret tt
  else
    children ← reads (λ d, Ok (filter (λ e, ex_SessionID e = sn_SessionID notice ∧
        ex_Kind e = ExecutionKindChild ∧
        (ex_State e = ExecutionStateQueued ∨ ex_State e = ExecutionStateRunning))
      (map_to_list (executions d)).*2));
    queueChildNotices c drawn notice text children.

End store.

End Deferral.
