(* ===== verification/InboxRules.v ===== *)
(** What holds of the inbox in every state: rows are numbered 1, 2, ... within
    their execution, a request is accepted once per session, and an execution
    that completed has no queued message left but the late reports of its
    children.  Each operation of Inbox and Deferral keeps this, keeps every
    row, and never changes a delivered or forwarded one. *)
From stdpp Require Import base gmap sets list strings sorting.
From Stdlib Require Import ZArith Lia Ascii.
From S2P Require Import Prelude GoBytes Executions ExecutionControl Activities ExecutionSteps TxRules Transcripts Inbox Deferral.

Module InboxRules.
Import Executions ExecutionControl Activities ExecutionSteps TxRules Transcripts Inbox Deferral.

(** ** The invariant *)

(** A report of a child, which may arrive after its parent completed. *)
Definition isReport (m : ExecutionInboxMessage) : Prop :=
  in_SourceEventID m = Some (in_RequestID m).

Definition settledInbox (E : uuid) (d : db) : Prop :=
  ∀ i m, inbox (others d) !! i = Some m → in_ExecutionID m = E →
         in_State m = InboxMessageStateQueued → isReport m.

Record inbox_inv (d : db) : Prop := mkInboxInv {
  ii_keyed : keyed (executions d);
  ii_row i m : inbox (others d) !! i = Some m →
    in_ID m = i ∧ inboxRowValid m = true ∧
    ∃ e, executions d !! in_ExecutionID m = Some e ∧ ex_SessionID e = in_SessionID m;
  ii_request i j m n : inbox (others d) !! i = Some m → inbox (others d) !! j = Some n →
    in_SessionID m = in_SessionID n → in_RequestID m = in_RequestID n → i = j;
  ii_number i j m n : inbox (others d) !! i = Some m → inbox (others d) !! j = Some n →
    in_ExecutionID m = in_ExecutionID n → in_Sequence m = in_Sequence n → i = j;
  ii_dense i m k : inbox (others d) !! i = Some m → (1 ≤ k ≤ in_Sequence m)%Z →
    ∃ j n, inbox (others d) !! j = Some n ∧ in_ExecutionID n = in_ExecutionID m ∧
           in_Sequence n = k;
  ii_settled id e : executions d !! id = Some e → ex_State e = ExecutionStateCompleted →
    settledInbox id d }.

(** What never changes of a message. *)
Definition same_message (m m' : ExecutionInboxMessage) : Prop :=
  in_ID m' = in_ID m ∧ in_SessionID m' = in_SessionID m ∧
  in_ExecutionID m' = in_ExecutionID m ∧ in_TurnID m' = in_TurnID m ∧
  in_RequestID m' = in_RequestID m ∧ in_SourceEventID m' = in_SourceEventID m ∧
  in_Sequence m' = in_Sequence m ∧ in_WorkingDirectory m' = in_WorkingDirectory m ∧
  in_Message m' = in_Message m ∧ in_PartsJSON m' = in_PartsJSON m ∧
  in_ImagesJSON m' = in_ImagesJSON m ∧ in_CreatedAt m' = in_CreatedAt m.

(** A message that reached a model or a new root stays as it is; a queued one
    is never deferred or forwarded. *)
Definition later (m m' : ExecutionInboxMessage) : Prop :=
  same_message m m' ∧
  match in_State m with
  | InboxMessageStateDelivered | InboxMessageStateForwarded => m' = m
  | InboxMessageStateQueued =>
      in_State m' = InboxMessageStateQueued ∨ in_State m' = InboxMessageStateDelivered
  | InboxMessageStateDeferred => in_State m' ≠ InboxMessageStateQueued
  end.

(** Executions and messages are kept. *)
Record evolves (d d' : db) : Prop := mkEvolves {
  ev_work id e : executions d !! id = Some e → ∃ e', executions d' !! id = Some e' ∧ same_work e e';
  ev_message i m : inbox (others d) !! i = Some m →
    ∃ m', inbox (others d') !! i = Some m' ∧ later m m' }.

#[export] Instance same_message_refl : Reflexive same_message.
Proof. intros m. by split_and!. Qed.
#[export] Instance same_message_trans : Transitive same_message.
Proof. unfold same_message. intros a b c Hab Hbc. destruct_and!. split_and!; congruence. Qed.

#[export] Instance later_refl : Reflexive later.
Proof. intros m. split; [done|]. destruct (in_State m) eqn:E; try done. by left. Qed.
#[export] Instance later_trans : Transitive later.
Proof.
  intros a b c [Sab Hab] [Sbc Hbc]. split; [by etrans|].
  destruct (in_State a) eqn:Ea; subst; rewrite ?Ea in Hbc; try done.
  - destruct Hab as [Eb|Eb]; rewrite Eb in Hbc; subst; auto.
  - destruct (in_State b) eqn:Eb; subst; try done; by rewrite Eb.
Qed.

#[export] Instance evolves_refl : Reflexive evolves.
Proof.
  intros d. split.
  - intros id e He. by exists e.
  - intros i m Hm. by exists m.
Qed.
#[export] Instance evolves_trans : Transitive evolves.
Proof.
  intros a b c [W1 M1] [W2 M2]. split.
  - intros id e He. destruct (W1 _ _ He) as (e1 & He1 & H1). destruct (W2 _ _ He1) as (e2 & ? & ?).
    exists e2. split; [done|by etrans].
  - intros i m Hm. destruct (M1 _ _ Hm) as (m1 & Hm1 & H1). destruct (M2 _ _ Hm1) as (m2 & ? & ?).
    exists m2. split; [done|by etrans].
Qed.

(** ** Steps that leave the inbox alone *)

Lemma inv_quiet d d' :
  inbox_inv d → quiet d d' → inbox (others d') = inbox (others d) → inbox_inv d'.
Proof.
  intros [K Hrow Hreq Hnum Hdense Hset] [QK QP QC] E. split; rewrite ?E; auto.
  - intros i m Hm. destruct (Hrow i m Hm) as (Hid & Hv & e & He & Hs). split_and!; [done..|].
    destruct (QP _ _ He) as (e' & He' & Hsame). exists e'. split; [done|].
    destruct Hsame as (_ & -> & _). done.
  - intros id e He Hc. destruct (QC _ _ He Hc) as (e0 & He0 & Hc0).
    unfold settledInbox. rewrite E. by apply (Hset id e0).
Qed.

Lemma evolves_quiet d d' :
  quiet d d' → inbox (others d') = inbox (others d) → evolves d d'.
Proof.
  intros [QK QP QC] E. split; [done|]. intros i m Hm. exists m. split; [by rewrite E|done].
Qed.

Lemma calm_inbox d d' : calm d d' → inbox (others d') = inbox (others d).
Proof. intros [_ E _]. unfold messageTables in E. congruence. Qed.

(** A transaction that keeps the invariant and the rows. *)
Definition keeps (d d' : db) : Prop := inbox_inv d' ∧ evolves d d' ∧ quiet d d'.

Lemma keeps_calm d d' : inbox_inv d → calm d d' → keeps d d'.
Proof.
  intros Hi Hc. pose proof (calm_inbox _ _ Hc) as E. destruct Hc as [Hq _ _].
  split_and!; [by eapply inv_quiet|by apply evolves_quiet|done].
Qed.

Lemma keeps_refl d : inbox_inv d → keeps d d.
Proof. intros Hi. by apply keeps_calm. Qed.

Lemma keeps_trans d1 d2 d3 : keeps d1 d2 → keeps d2 d3 → keeps d1 d3.
Proof. intros (_ & E1 & Q1) (I2 & E2 & Q2). split_and!; [done|by etrans|by etrans]. Qed.

(** Executions and inbox untouched. *)
Definition apart (d d' : db) : Prop :=
  executions d' = executions d ∧ inbox (others d') = inbox (others d).

#[export] Instance apart_refl : Reflexive apart.
Proof. done. Qed.
#[export] Instance apart_trans : Transitive apart.
Proof. intros a b c [? ?] [? ?]. split; congruence. Qed.

Lemma keeps_apart d d' : inbox_inv d → apart d d' → keeps d d'.
Proof.
  intros Hi [E1 E2]. pose proof (quiet_same _ _ E1).
  split_and!; [by eapply inv_quiet|by apply evolves_quiet|done].
Qed.

(** ** Creating and updating a row *)

Lemma elem_of_inboxRows d m : m ∈ inboxRows d ↔ ∃ i, inbox (others d) !! i = Some m.
Proof.
  unfold inboxRows. rewrite list_elem_of_fmap. split.
  - intros ([i x] & -> & Hx%elem_of_map_to_list). by exists i.
  - intros [i Hm]. exists (i, m). split; [done|]. by apply elem_of_map_to_list.
Qed.

Lemma max_foldr (l : list Z) :
  (∀ z, z ∈ l → (z ≤ foldr Z.max 0 l)%Z) ∧ (0 ≤ foldr Z.max 0 l)%Z ∧
  (foldr Z.max 0%Z l = 0%Z ∨ foldr Z.max 0%Z l ∈ l).
Proof.
  induction l as [|x l (IH1 & IH2 & IH3)]; simpl.
  - split_and!; [by intros ? ?%not_elem_of_nil|lia|by left].
  - split_and!; [|lia|].
    + intros z [->|Hz]%elem_of_cons; [lia|]. specialize (IH1 z Hz). lia.
    + destruct (Z.max_spec x (foldr Z.max 0%Z l)) as [[? ->]|[? ->]]; [|right; by left].
      destruct IH3 as [IH3|IH3]; [by left|right; by right].
Qed.

(** The number a row of an execution gets. *)
Definition nextNumber (E : uuid) (d : db) (n : Z) : Prop :=
  (∀ i m, inbox (others d) !! i = Some m → in_ExecutionID m = E → (in_Sequence m < n)%Z) ∧
  (1 ≤ n)%Z ∧
  (n = 1%Z ∨ ∃ i m, inbox (others d) !! i = Some m ∧ in_ExecutionID m = E ∧
                    in_Sequence m = (n - 1)%Z).

Lemma nextInboxSequence_Ok E d n d' :
  inbox_inv d → nextInboxSequence E d = Ok (n, d') →
  d' = d ∧ nextNumber E d n.
Proof.
  intros Hi H. unfold nextInboxSequence in H.
  apply tx_bind_Ok in H as (z & d1 & Hr & H). apply reads_Ok in Hr as [Hz ->].
  injection Hz as <-.
  set (l := in_Sequence <$> filter (λ m, in_ExecutionID m = E) (inboxRows d)) in *.
  destruct (max_foldr l) as (Hle & Hpos & Hat).
  assert (Hmem : ∀ i m, inbox (others d) !! i = Some m → in_ExecutionID m = E →
                        (in_Sequence m ≤ foldr Z.max 0 l)%Z).
  { intros i m Hm HE. apply Hle, list_elem_of_fmap. exists m. split; [done|].
    apply list_elem_of_filter. split; [done|]. apply elem_of_inboxRows. eauto. }
  assert (Hex : foldr Z.max 0%Z l = 0%Z ∨ ∃ i m, inbox (others d) !! i = Some m ∧
                 in_ExecutionID m = E ∧ in_Sequence m = foldr Z.max 0%Z l).
  { destruct Hat as [->|Hin]; [by left|right].
    apply list_elem_of_fmap in Hin as (m & -> & Hm). apply list_elem_of_filter in Hm as [HE Hm].
    apply elem_of_inboxRows in Hm as [i Hm]. eauto. }
  destruct (Z.eqb_spec (foldr Z.max 0%Z l) 0).
  - run_tx. split; [done|]. split_and!; [|lia|by left]. intros i m Hrow HE. specialize (Hmem i m Hrow HE). lia.
  - run_tx. split; [done|]. split_and!; [|lia|].
    + intros i m Hrow HE. specialize (Hmem i m Hrow HE). lia.
    + destruct Hex as [?|(i & m & ? & ? & Hs)]; [done|right]. exists i, m. split_and!; [done..|lia].
Qed.

(** An inserted row: its execution exists and may still receive it. *)
Lemma create_inv m d u d' :
  inbox_inv d → createInboxMessage m d = Ok (u, d') →
  nextNumber (in_ExecutionID m) d (in_Sequence m) →
  (∃ e, executions d !! in_ExecutionID m = Some e ∧ ex_SessionID e = in_SessionID m ∧
        (ex_State e = ExecutionStateCompleted → in_State m = InboxMessageStateQueued → isReport m)) →
  keeps d d' ∧ executions d' = executions d ∧
  inbox (others d') = <[in_ID m := m]> (inbox (others d)).
Proof.
  intros Hi H (Hlt & Hpos & Hprev) (e & He & Hs & Hc). unfold createInboxMessage in H.
  case_if; [done|]. apply negb_false_iff in Heqb. case_bool_decide as Hclash; [done|].
  injection H as <- <-. unfold setInbox, setOthers; simpl.
  assert (Hno : ∀ i n, inbox (others d) !! i = Some n → ¬ inboxClash m n).
  { intros i n Hn Hx. apply Hclash, Exists_exists. exists n. split; [|done].
    apply elem_of_inboxRows. eauto. }
  assert (Hfresh : inbox (others d) !! in_ID m = None).
  { destruct (inbox (others d) !! in_ID m) as [n|] eqn:E; [|done].
    exfalso. apply (Hno _ _ E). left. symmetry. by apply (ii_row _ Hi _ _ E). }
  split; [|done]. split_and!.
  - split; simpl.
    + apply Hi.
    + intros i n. rewrite lookup_insert_Some. intros [[<- <-]|[_ Hn]]; [|by apply (ii_row _ Hi)].
      split_and!; [done..|]. by exists e.
    + intros i j a b. rewrite !lookup_insert_Some. intros [[<- <-]|[Hi1 Ha]] [[<- <-]|[Hj Hb]] HS HR;
        [done| | |by apply (ii_request _ Hi _ _ _ _ Ha Hb)].
      * destruct (Hno _ _ Hb). right. by left.
      * destruct (Hno _ _ Ha). right. by left.
    + intros i j a b. rewrite !lookup_insert_Some. intros [[<- <-]|[Hi1 Ha]] [[<- <-]|[Hj Hb]] HE HN;
        [done| | |by apply (ii_number _ Hi _ _ _ _ Ha Hb)].
      * destruct (Hno _ _ Hb). right. by right.
      * destruct (Hno _ _ Ha). right. by right.
    + assert (Hold : ∀ i n k, inbox (others d) !! i = Some n → (1 ≤ k ≤ in_Sequence n)%Z →
        ∃ j o, <[in_ID m:=m]> (inbox (others d)) !! j = Some o ∧
               in_ExecutionID o = in_ExecutionID n ∧ in_Sequence o = k).
      { intros i n k Hn Hk. destruct (ii_dense _ Hi _ _ _ Hn Hk) as (j & o & Ho & HE & HN).
        exists j, o. split; [|done]. rewrite lookup_insert_ne; [done|]. congruence. }
      intros i n k. rewrite lookup_insert_Some. intros [[<- <-]|[_ Hn]] Hk; [|by eapply Hold].
      destruct (decide (k = in_Sequence m)) as [->|Hne].
      { exists (in_ID m), m. by rewrite lookup_insert_eq. }
      destruct Hprev as [?|(j & o & Ho & HE & HN)]; [lia|].
      destruct (Hold j o k Ho) as (j2 & o2 & Ho2 & HE2 & HN2); [lia|].
      exists j2, o2. split_and!; [done|congruence|done].
    + intros id x Hx Hdone i n. simpl. rewrite lookup_insert_Some.
      intros [[<- <-]|[_ Hn]] HE Hq; [|by eapply (ii_settled _ Hi)].
      subst id. rewrite Hx in He. injection He as ->. by apply Hc.
  - split; simpl; [intros id x Hx; by exists x|]. intros i n Hn. exists n. split; [|done].
    rewrite lookup_insert_ne; [done|]. congruence.
  - by apply quiet_same.
Qed.

(** An update that only moves a message forward. *)
Lemma update_inv sid i f d u d' :
  inbox_inv d → updateInbox sid i f d = Ok (u, d') →
  (∀ m, inbox (others d) !! i = Some m → inboxRowValid (f m) = true → later m (f m)) →
  keeps d d' ∧ executions d' = executions d ∧ messageTables d' =
    (inbox (others d'), messages (others d), feedEvents (others d), sessions (others d),
     turns (others d), runMessages (others d), agentRunEvents (others d),
     sessionNotices (others d), jobs (others d), jobOutput (others d)) ∧
  (∀ j, j ≠ i → inbox (others d') !! j = inbox (others d) !! j) ∧
  ∀ m, inbox (others d) !! i = Some m → in_SessionID m = sid →
       inbox (others d') !! i = Some (f m).
Proof.
  intros Hi H Hlater. unfold updateInbox in H.
  destruct (inbox (others d) !! i) as [row|] eqn:Hrow; cycle 1.
  { injection H as <- <-. split_and!; [by apply keeps_refl|done..]. }
  case_bool_decide as Hs; simpl in H; cycle 1.
  { injection H as <- <-. split_and!; [by apply keeps_refl|done..|]. intros m [= <-]. by intros ?. }
  case_if; [|done]. injection H as <- <-. specialize (Hlater row eq_refl Heqb).
  assert (Hstate : in_State (f row) = InboxMessageStateQueued → in_State row = InboxMessageStateQueued).
  { destruct Hlater as [_ Hl]. intros Hq.
    destruct (in_State row) eqn:E; [done|rewrite Hl in Hq; congruence|done|rewrite Hl in Hq; congruence]. }
  destruct (Hlater) as [(Hid & HS & HE & _ & HR & Hsrc & HN & _) Hl].
  destruct (ii_row _ Hi _ _ Hrow) as (Hk & _ & e & He & Hse).
  assert (Hsame : ∀ j m', <[i := f row]> (inbox (others d)) !! j = Some m' →
    ∃ m, inbox (others d) !! j = Some m ∧ in_SessionID m' = in_SessionID m ∧
         in_ExecutionID m' = in_ExecutionID m ∧ in_RequestID m' = in_RequestID m ∧
         in_SourceEventID m' = in_SourceEventID m ∧ in_Sequence m' = in_Sequence m ∧
         (in_State m' = InboxMessageStateQueued → in_State m = InboxMessageStateQueued)).
  { intros j m'. rewrite lookup_insert_Some. intros [[<- <-]|[_ Hm]]; [exists row|exists m']; done. }
  unfold setInbox, setOthers; simpl. split; [|split_and!; [done..| |]].
  - split_and!.
    + split; simpl.
      * apply Hi.
      * intros j m'. rewrite lookup_insert_Some. intros [[<- <-]|[_ Hm]]; [|by apply (ii_row _ Hi)].
        split_and!; [congruence|done|]. rewrite HE, HS. eauto.
      * intros j1 j2 a b (a0 & Ha & HaS & _ & HaR & _)%Hsame (b0 & Hb & HbS & _ & HbR & _)%Hsame ? ?.
        apply (ii_request _ Hi _ _ a0 b0); congruence.
      * intros j1 j2 a b (a0 & Ha & _ & HaE & _ & _ & HaN & _)%Hsame
          (b0 & Hb & _ & HbE & _ & _ & HbN & _)%Hsame ? ?.
        apply (ii_number _ Hi _ _ a0 b0); congruence.
      * intros j a k (a0 & Ha & _ & HaE & _ & _ & HaN & _)%Hsame Hkk. rewrite HaN in Hkk.
        destruct (ii_dense _ Hi _ _ _ Ha Hkk) as (j2 & n & Hn & HnE & HnN).
        destruct (decide (j2 = i)) as [->|Hne].
        -- exists i, (f row). rewrite lookup_insert_eq. assert (n = row) as -> by congruence.
           split_and!; [done|congruence..].
        -- exists j2, n. rewrite lookup_insert_ne by done. split_and!; [done|congruence..].
      * intros id x Hx Hdone j a (a0 & Ha & _ & HaE & HaR & HaS & _ & HaQ)%Hsame HE2 Hq.
        unfold isReport. rewrite HaS, HaR. apply (ii_settled _ Hi id x Hx Hdone j a0 Ha); [congruence|auto].
    + split; simpl; [intros id x Hx; by exists x|]. intros j m Hm.
      destruct (decide (j = i)) as [->|Hne].
      * exists (f row). rewrite lookup_insert_eq. split; [done|]. congruence.
      * exists m. by rewrite lookup_insert_ne.
    + by apply quiet_same.
  - intros j Hj. by rewrite lookup_insert_ne.
  - intros m [= <-] _. by rewrite lookup_insert_eq.
Qed.

End InboxRules.
