(* ===== verification/InboxSteps.v ===== *)
(** The operations of the inbox as steps between committed states, next to the
    operations on executions: each keeps the invariant of InboxRules, and what
    each does to the rows. *)
From stdpp Require Import base gmap sets list strings sorting.
From Stdlib Require Import ZArith Lia Ascii.
From S2P Require Import Prelude GoBytes Executions ExecutionControl Activities ExecutionSteps TxRules Transcripts Inbox Deferral InboxRules.

Module InboxSteps.
Import Executions ExecutionControl Activities ExecutionSteps TxRules Transcripts Inbox Deferral InboxRules.

(** ** Transcripts are apart from executions and the inbox *)

Lemma apart_others f d :
  inbox (f (others d)) = inbox (others d) → apart d (setOthers f d).
Proof. done. Qed.

Lemma apart_updateSession sid f : ensures apart (updateSession sid f).
Proof. intros d u d' [= <- <-]. by apply apart_others. Qed.

Lemma apart_storeImages p : ensures apart (storeImages p).
Proof. intros d u d' [= <- <-]. by apply apart_others. Qed.

Lemma apart_createMessages rows : ensures apart (createMessages rows).
Proof.
  induction rows as [|m rows IH]; [apply ensures_ret, _|]. intros d u d' H. simpl in H.
  case_if; [done|]. case_bool_decide; [done|]. apply IH in H as [E1 E2]. by split.
Qed.

Lemma apart_createEvents rows : ensures apart (createEvents rows).
Proof.
  induction rows as [|m rows IH]; [apply ensures_ret, _|]. intros d u d' H. simpl in H.
  case_if; [done|]. case_bool_decide; [done|]. apply IH in H as [E1 E2]. by split.
Qed.

Lemma apart_createRunMessage m : ensures apart (createRunMessage m).
Proof.
  intros d u d' H. unfold createRunMessage in H. case_if; [done|]. case_bool_decide; [done|].
  by injection H as <- <-.
Qed.

Lemma apart_updateAgentRun sid id f : ensures apart (updateAgentRun sid id f).
Proof. by intros d u d' [= <- <-]. Qed.

Lemma apart_updateTurn sid id f : ensures apart (updateTurn sid id f).
Proof. by intros d u d' [= <- <-]. Qed.
#[export] Hint Resolve apart_updateSession apart_storeImages apart_createMessages
  apart_createEvents apart_createRunMessage apart_updateAgentRun apart_updateTurn : calm.

Lemma recordCreation_id c e d e' d' :
  recordExecutionCreation c e d = Ok (e', d') → ex_ID e' = ex_ID e.
Proof.
  unfold recordExecutionCreation, recordInitialExecutionPause, appendExecutionPause,
    appendExecutionEvent. intros H2.
  apply tx_bind_Ok in H2 as (x & d1 & H1 & H2). run_tx. case_bool_decide; run_tx; by destruct e.
Qed.

Section store.
Variables maxExecutionStateBytes maxStoredMessageBytes : Z.
Variable Sum256 : bytes → bytes.
Context `{ImageCodec, InboxCodec}.

Lemma apart_images images stored : ensures apart (transcriptImagesJSON Sum256 images stored).
Proof. unfold transcriptImagesJSON, encodeMessageImages. calm_steps. Qed.
#[local] Hint Resolve apart_images : calm.

Lemma apart_newMessages c lease n i ws inputs :
  ensures apart (newMessages maxStoredMessageBytes Sum256 c lease n i ws inputs).
Proof. revert i. induction inputs as [|input inputs IH]; intros i; simpl; calm_steps. Qed.
#[local] Hint Resolve apart_newMessages : calm.

Lemma apart_appendEvents c lease inputs : ensures apart (appendEvents c lease inputs).
Proof. unfold appendEvents, allocateFeedSequences, findSessionWithQuery. calm_steps. Qed.
#[local] Hint Resolve apart_appendEvents : calm.

Lemma apart_appendTranscript c lease ms es :
  ensures apart (appendTranscript maxStoredMessageBytes Sum256 c lease ms es).
Proof.
  unfold appendTranscript, appendMessages, findSessionWithQuery, findRunningTurn. calm_steps.
Qed.

Lemma apart_createRunMessages c sid run n inputs :
  ensures apart (createRunMessages Sum256 c sid run n inputs).
Proof. revert n. induction inputs as [|input inputs IH]; intros n; simpl; calm_steps. Qed.
#[local] Hint Resolve apart_createRunMessages : calm.

Lemma apart_childMessages c sid run inputs :
  ensures apart (createAgentRunMessages Sum256 c sid run inputs).
Proof. unfold createAgentRunMessages, findAgentRun. calm_steps. Qed.

Lemma apart_acceptanceEvents lease m : ensures apart (inboxAcceptanceEvents lease m).
Proof. unfold inboxAcceptanceEvents, findRunningTurn. calm_steps. Qed.

(** ** Reading the inbox *)

Lemma findInboxRequest_Ok sid request d m d' :
  inbox_inv d → findInboxRequest sid request d = Ok (m, d') →
  d' = d ∧ inbox (others d) !! in_ID m = Some m ∧ in_SessionID m = sid ∧
  in_RequestID m = request.
Proof.
  intros Hi H2. unfold findInboxRequest in H2. apply reads_Ok in H2 as [H2 ->].
  destruct (filter _ (inboxRows d)) as [|x l] eqn:E; [done|]. injection H2 as ->.
  assert (Hm : m ∈ filter (λ x, in_SessionID x = sid ∧ in_RequestID x = request) (inboxRows d))
    by (rewrite E; left).
  apply list_elem_of_filter in Hm as [[HS HR] Hm]. apply elem_of_inboxRows in Hm as [i Hm].
  destruct (ii_row _ Hi _ _ Hm) as (-> & _). done.
Qed.

(** The row of a request is the one the query finds. *)
Lemma findInboxRequest_found sid request d i m :
  inbox_inv d → inbox (others d) !! i = Some m → in_SessionID m = sid →
  in_RequestID m = request → findInboxRequest sid request d = Ok (m, d).
Proof.
  intros Hi Hm HS HR. unfold findInboxRequest, reads.
  destruct (filter _ (inboxRows d)) as [|x l] eqn:E.
  - exfalso. assert (Hin : m ∈ filter (λ x, in_SessionID x = sid ∧ in_RequestID x = request)
                             (inboxRows d)).
    { apply list_elem_of_filter. split; [done|]. apply elem_of_inboxRows. eauto. }
    rewrite E in Hin. by apply not_elem_of_nil in Hin.
  - assert (Hx : x ∈ filter (λ x, in_SessionID x = sid ∧ in_RequestID x = request)
                   (inboxRows d)) by (rewrite E; left).
    apply list_elem_of_filter in Hx as [[HSx HRx] Hx]. apply elem_of_inboxRows in Hx as [j Hx].
    assert (i = j) as <- by (eapply (ii_request _ Hi); [done..|congruence|congruence]).
    simpl. rewrite Hx in Hm. by injection Hm as ->.
Qed.

Lemma orAbsent_Ok {A} (m : tx A) d o d' :
  orAbsent m d = Ok (o, d') →
  match o with Some a => m d = Ok (a, d') | None => d' = d ∧ m d = Err ErrNotFound end.
Proof. unfold orAbsent. destruct (m d) as [[]|[]| |]; naive_solver. Qed.

Lemma held d sid id e d' :
  inbox_inv d → findExecution sid id d = Ok (e, d') →
  d' = d ∧ ex_ID e = id ∧ executions d !! ex_ID e = Some e ∧ ex_SessionID e = sid.
Proof.
  intros Hi (He & Hs & ->)%findExecution_Ok. pose proof (ii_keyed _ Hi _ _ He) as Hid.
  split_and!; [done|done|by rewrite Hid|done].
Qed.

(** ** Accepting for a root *)

(** What an insertion does: a row with the next number joins the inbox. *)
Definition inserted (E : uuid) (slots : Z) (state : InboxMessageState)
    (input : AcceptExecutionMessageInput) (encoded : inboxEncoding) (m : ExecutionInboxMessage)
    (d d' : db) : Prop :=
  keeps d d' ∧ inbox (others d') = <[in_ID m := m]> (inbox (others d)) ∧
  inbox (others d) !! in_ID m = None ∧
  in_ExecutionID m = E ∧ in_State m = state ∧ in_RequestID m = am_RequestID input ∧
  sameInboxInput m E input encoded = true ∧ nextNumber E d (in_Sequence m) ∧
  (slots ≤ freeSlots input)%Z.

Lemma sameOptionalID_optional id : sameOptionalID (optionalID id) id = true.
Proof. unfold optionalID. case_bool_decide; simpl; by apply bool_decide_eq_true_2. Qed.

Lemma inbox_fresh d m :
  inbox_inv d → ∀ u d', createInboxMessage m d = Ok (u, d') → inbox (others d) !! in_ID m = None.
Proof.
  intros Hi u d' H2. unfold createInboxMessage in H2. case_if; [done|].
  case_bool_decide as Hc; [done|]. destruct (inbox (others d) !! in_ID m) as [n|] eqn:E; [|done].
  exfalso. apply Hc, Exists_exists. exists n. split; [apply elem_of_inboxRows; eauto|].
  left. symmetry. by apply (ii_row _ Hi _ _ E).
Qed.

Lemma save_inserted E slots state input encoded m d u d' :
  inbox_inv d → saveInboxMessage m encoded d = Ok (u, d') →
  nextNumber E d (in_Sequence m) → in_ExecutionID m = E → in_State m = state →
  in_RequestID m = am_RequestID input → sameInboxInput m E input encoded = true →
  (slots ≤ freeSlots input)%Z →
  (∃ e, executions d !! E = Some e ∧ ex_SessionID e = in_SessionID m ∧
        (ex_State e = ExecutionStateCompleted → in_State m = InboxMessageStateQueued → isReport m)) →
  inserted E slots state input encoded m d d' ∧ executions d' = executions d.
Proof.
  intros Hi H2 Hn HE HS HR Hsame Hle Hex. unfold saveInboxMessage in H2.
  apply tx_bind_Ok in H2 as (? & d1 & Hst & H2).
  assert (Ha : apart d d1) by by eapply apart_storeImages.
  pose proof (keeps_apart _ _ Hi Ha) as K1. destruct Ha as [Ee Ei].
  pose proof (inbox_fresh _ _ (proj1 K1) _ _ H2) as Hf.
  apply create_inv in H2 as (K2 & E2 & I2); [|apply K1| |].
  - split; [|by rewrite E2]. split_and!; [by eapply keeps_trans|by rewrite I2, Ei|by rewrite <- Ei|done..].
  - unfold nextNumber in *. by rewrite Ei, HE.
  - by rewrite Ee, HE.
Qed.

Lemma inserted_more E slots state input encoded m d d1 d2 :
  inserted E slots state input encoded m d d1 → keeps d1 d2 →
  inbox (others d2) = inbox (others d1) → inserted E slots state input encoded m d d2.
Proof.
  intros (K & I & Rest) K2 Ei. split; [by eapply keeps_trans|]. split; [by rewrite Ei|done].
Qed.

Lemma inserted_apart E slots state input encoded m d d1 d2 :
  inserted E slots state input encoded m d d1 → apart d1 d2 →
  inserted E slots state input encoded m d d2.
Proof.
  intros Hins Ha. eapply inserted_more; [done| |apply Ha]. apply keeps_apart; [apply Hins|done].
Qed.

Lemma insertInbox_Ok c e lease input encoded state d r d' :
  inbox_inv d → executions d !! ex_ID e = Some e → ex_SessionID e = ls_SessionID lease →
  ex_State e ≠ ExecutionStateCompleted →
  insertInboxMessage maxStoredMessageBytes Sum256 c e lease input encoded state d = Ok (r, d') →
  inserted (ex_ID e) (QueuedSlots (ls_SessionID lease) (ex_ID e) state d) state input encoded
    (ac_Message r) d d' ∧ in_SessionID (ac_Message r) = ls_SessionID lease.
Proof.
  intros Hi He Hs Hnc H2. unfold insertInboxMessage, admissionStopRevision, findSessionWithQuery in H2.
  apply tx_bind_Ok in H2 as (rev & d1 & Hrev & H2). run_tx.
  match goal with Hx : (freeSlots _ <? _)%Z = false |- _ => apply Z.ltb_ge in Hx as Hle end.
  match goal with Hx : nextInboxSequence _ _ = _ |- _ =>
    apply nextInboxSequence_Ok in Hx as [-> Hn]; [|done] end.
  cbn [ac_Message].
  match goal with Hx : saveInboxMessage _ _ _ = _ |- _ =>
    eapply (save_inserted _ _ state input encoded) in Hx as [Hins _] end;
    [|done|exact Hn|done..| |exact Hle|].
  - split; [|done]. eapply inserted_apart; [exact Hins|].
    etrans; [by eapply apart_acceptanceEvents|by eapply apart_appendTranscript].
  - unfold sameInboxInput. simpl. rewrite !bool_decide_eq_true_2 by done. apply sameOptionalID_optional.
  - exists e. by split_and!.
Qed.

(** What accepting a request does: it was accepted before, or a row joins. *)
Definition accepted (sid E : uuid) (state : InboxMessageState)
    (input : AcceptExecutionMessageInput) (encoded : inboxEncoding)
    (r : ExecutionInboxAcceptance) (d d' : db) : Prop :=
  (d' = d ∧ inbox (others d) !! in_ID (ac_Message r) = Some (ac_Message r) ∧
   in_SessionID (ac_Message r) = sid ∧ in_RequestID (ac_Message r) = am_RequestID input ∧
   sameInboxInput (ac_Message r) E input encoded = true) ∨
  (inserted E (QueuedSlots sid E state d) state input encoded (ac_Message r) d d' ∧
   in_SessionID (ac_Message r) = sid).

Lemma accept_Ok c E lease input encoded state d r d' :
  inbox_inv d →
  acceptExecutionMessage maxStoredMessageBytes Sum256 c E lease input encoded state d = Ok (r, d') →
  accepted (ls_SessionID lease) E state input encoded r d d'.
Proof.
  intros Hi H2. unfold acceptExecutionMessage in H2.
  apply tx_bind_Ok in H2 as (e & d1 & Hf & H2). apply held in Hf as (-> & HE & He & Hs); [|done].
  apply tx_bind_Ok in H2 as (u & d1 & Hk & H2). apply refuseIf_Ok in Hk as [_ ->].
  apply tx_bind_Ok in H2 as (o & d1 & Ho & H2). apply orAbsent_Ok in Ho.
  destruct o as [m|].
  - apply findInboxRequest_Ok in Ho as (-> & Hm & HS & HR); [|done].
    apply tx_bind_Ok in H2 as (v & d1 & Hv & H2). apply check_Ok in Hv as [Hv ->].
    injection H2 as <- <-. left. split_and!; [done..|].
    unfold validateInboxReplay in Hv. case_if; [done|].
    apply orb_false_iff in Heqb as [_ Hsame]. by apply negb_false_iff in Hsame.
  - destruct Ho as [-> _]. apply tx_bind_Ok in H2 as (v & d1 & Hv & H2).
    unfold validateInboxAdmission in Hv. apply tx_bind_Ok in Hv as (w & d2 & Hg & Hv).
    apply refuseIf_Ok in Hg as [Hg ->]. apply orb_false_iff in Hg as [_ Hg].
    assert (Hd : d1 = d).
    { case_bool_decide; [|by injection Hv as _ <-]. unfold validateDeferredBoundary in Hv.
      apply tx_bind_Ok in Hv as (seal & d3 & Hseal & Hv). apply readSeal_Ok in Hseal as ->.
      destruct seal; run_tx; done. }
    subst d1 E. right. apply insertInbox_Ok in H2; [done..|].
    by apply not_terminal_not_completed.
Qed.

(** ** Accepting for a child *)

Lemma calm_acceptance c e m : ensures calm (recordChildInboxAcceptance c e m).
Proof. unfold recordChildInboxAcceptance, deref. calm_steps. Qed.

Lemma insertChild_Ok c e row input encoded d e' r d' :
  inbox_inv d → executions d !! ex_ID e = Some row → ex_SessionID row = ex_SessionID e →
  ex_State row ≠ ExecutionStateCompleted →
  insertChildInboxMessage c e input encoded d = Ok ((e', r), d') →
  inserted (ex_ID e) (QueuedSlots (ex_SessionID e) (ex_ID e) InboxMessageStateQueued d)
    InboxMessageStateQueued input encoded (ac_Message r) d d' ∧
  in_SessionID (ac_Message r) = ex_SessionID e ∧
  ex_ID e' = ex_ID e ∧ ex_SessionID e' = ex_SessionID e.
Proof.
  intros Hi He Hs Hnc H2. unfold insertChildInboxMessage in H2.
  apply tx_bind_Ok in H2 as (u & d1 & Hg & H2). apply refuseIf_Ok in Hg as [_ ->].
  apply tx_bind_Ok in H2 as (used & d1 & Hu & H2). apply reads_Ok in Hu as [[= <-] ->].
  apply tx_bind_Ok in H2 as (v & d1 & Hle & H2). apply refuseIf_Ok in Hle as [Hle%Z.ltb_ge ->].
  apply tx_bind_Ok in H2 as (n & d1 & Hn & H2).
  apply nextInboxSequence_Ok in Hn as [-> Hn]; [|done].
  apply tx_bind_Ok in H2 as (w & d1 & Hsave & H2). apply tx_bind_Ok in H2 as (e1 & d2 & Hev & H2).
  injection H2 as <- <- <-. cbn [ac_Message in_SessionID].
  eapply (save_inserted _ _ InboxMessageStateQueued input encoded) in Hsave as [Hins _];
    [|done|exact Hn|done..| |exact Hle|].
  - assert (Hcalm : calm d1 d2).
    { eapply calm_acceptance, Hev. }
    split_and!; [eapply inserted_more; [done| |by apply calm_inbox]; apply keeps_calm; [apply Hins|done]|done|..];
      unfold recordChildInboxAcceptance, deref, appendExecutionEvent in Hev; run_tx; by destruct e.
  - unfold sameInboxInput. simpl. rewrite !bool_decide_eq_true_2 by done. apply sameOptionalID_optional.
  - exists row. by split_and!.
Qed.

Lemma quiet_held d d' e :
  quiet d d' → executions d !! ex_ID e = Some e → ex_State e ≠ ExecutionStateCompleted →
  ∃ row, executions d' !! ex_ID e = Some row ∧ ex_SessionID row = ex_SessionID e ∧
         ex_State row ≠ ExecutionStateCompleted.
Proof.
  intros [_ QP QC] He Hnc. destruct (QP _ _ He) as (row & Hrow & _ & Hs & _).
  exists row. split_and!; [done..|]. intros Hc. destruct (QC _ _ Hrow Hc) as (e0 & He0 & Hc0).
  rewrite He in He0. by injection He0 as <-.
Qed.

Lemma next_after E m d d' n :
  nextNumber E d (in_Sequence m) → in_ExecutionID m = E →
  inbox (others d') = <[in_ID m := m]> (inbox (others d)) → nextNumber E d' n →
  n = (in_Sequence m + 1)%Z.
Proof.
  intros (Hlt & Hpos & _) HE Ei (Hlt' & Hpos' & Hprev). rewrite Ei in Hlt', Hprev.
  assert (Hm : (in_Sequence m < n)%Z) by (apply (Hlt' (in_ID m) m); [apply lookup_insert_eq|done]).
  destruct Hprev as [->|(i & x & Hx & HxE & HxN)]; [lia|].
  apply lookup_insert_Some in Hx as [[_ <-]|[_ Hx]]; [lia|].
  specialize (Hlt i x Hx HxE). lia.
Qed.

(** The message of a resumed child follows its notice. *)
Lemma resumeChild_Ok c noticeID e input encoded d r d' :
  inbox_inv d → executions d !! ex_ID e = Some e → ex_State e ≠ ExecutionStateCompleted →
  resumeChildWithMessage c noticeID e input encoded d = Ok (r, d') →
  keeps d d' ∧ ∃ d1,
    changeExecutionSubtree c (ex_SessionID e) (ex_ID e) Resume
      (MessageResumePayload (am_RequestID input)) d = Ok (ac_Resumed r, d1) ∧
    ∃ d2, inserted (ex_ID e) (QueuedSlots (ex_SessionID e) (ex_ID e) InboxMessageStateQueued d2)
            InboxMessageStateQueued input encoded (ac_Message r) d2 d' ∧
      in_SessionID (ac_Message r) = ex_SessionID e ∧
      (if bool_decide (trim_space (am_ResumeNotice input) = []) then d2 = d1
       else ∃ notice, inbox (others d2) = <[in_ID notice := notice]> (inbox (others d)) ∧
              in_Message notice = am_ResumeNotice input ∧ in_ExecutionID notice = ex_ID e ∧
              in_State notice = InboxMessageStateQueued ∧
              in_Sequence (ac_Message r) = (in_Sequence notice + 1)%Z).
Proof.
  intros Hi He Hnc H2. unfold resumeChildWithMessage in H2.
  apply tx_bind_Ok in H2 as (ids & d1 & Hres & H2).
  assert (K1 : keeps d d1) by (eapply keeps_calm; [done|by eapply calm_subtree]).
  assert (E1 : inbox (others d1) = inbox (others d)) by (eapply calm_inbox, calm_subtree; done).
  apply tx_bind_Ok in H2 as (e1 & d2 & Hf & H2).
  apply held in Hf as (-> & Hid1 & He1 & Hs1); [|apply K1].
  destruct (quiet_held _ _ _ (proj2 (proj2 K1)) He Hnc) as (row & Hrow & _ & Hnc1).
  rewrite Hid1 in He1. assert (row = e1) as -> by congruence. clear Hrow.
  apply tx_bind_Ok in H2 as (e2 & d2 & Hnotice & H2).
  apply tx_bind_Ok in H2 as ([e3 r3] & d3 & Hmsg & H2). injection H2 as <- <-.
  cbn [ac_Message ac_Resumed].
  case_bool_decide as Hno.
  - injection Hnotice as -> ->. apply (insertChild_Ok _ _ e2) in Hmsg as (Hins & HS & _);
      [|apply K1|congruence|done|done]. rewrite Hid1, Hs1 in *.
    split; [eapply keeps_trans; [done|apply Hins]|]. exists d2. split; [done|]. by exists d2.
  - apply tx_bind_Ok in Hnotice as ([e4 rn] & d4 & Hins & Hnotice). injection Hnotice as <- <-.
    apply (insertChild_Ok _ _ e1) in Hins as (Hin & _ & HidE & HsE); [|apply K1|congruence|done|done].
    destruct (quiet_held d1 d4 e1) as (row & Hrow & Hrs & Hrn);
      [apply Hin|congruence|done|].
    apply (insertChild_Ok _ _ row) in Hmsg as (Hins & HS & _);
      [|apply Hin|congruence|congruence|done].
    rewrite HidE, HsE, Hid1, Hs1 in *.
    split; [eapply keeps_trans; [done|]; eapply keeps_trans; [apply Hin|apply Hins]|].
    exists d1. split; [done|]. exists d4. split_and!; [done..|].
    exists (ac_Message rn). destruct Hin as (_ & Ei & _ & HE & HSt & _ & Hsame & Hn & _).
    split_and!; [| |done|done|].
    + by rewrite Ei, E1.
    + unfold sameInboxInput in Hsame. rewrite !andb_true_iff, !bool_decide_eq_true in Hsame.
      by destruct Hsame as [[[[[_ Hmsg] _] _] _] _].
    + eapply next_after; [exact Hn|done|done|apply Hins].
Qed.

(** An acceptance for a child: the request was accepted before, its row joins,
    or the paused child is resumed first. *)
Lemma acceptChild_Ok c noticeID sid E input encoded d r d' :
  inbox_inv d → acceptChildInboxMessage c noticeID sid E input encoded d = Ok (r, d') →
  keeps d d' ∧
  ∃ e, executions d !! E = Some e ∧ ex_SessionID e = sid ∧ ex_Kind e = ExecutionKindChild ∧
    (accepted sid E InboxMessageStateQueued input encoded r d d' ∨
     (ex_State e = ExecutionStatePaused ∧
      resumeChildWithMessage c noticeID e input encoded d = Ok (r, d'))).
Proof.
  intros Hi H2. unfold acceptChildInboxMessage in H2.
  apply tx_bind_Ok in H2 as (e & d1 & Hf & H2). apply held in Hf as (-> & HE & He & Hs); [|done].
  apply tx_bind_Ok in H2 as (u & d1 & Hk & H2). apply refuseIf_Ok in Hk as [Hk ->].
  apply orb_false_iff in Hk as [Hk%negb_false_iff%bool_decide_eq_true _].
  apply tx_bind_Ok in H2 as (o & d1 & Ho & H2). apply orAbsent_Ok in Ho. subst E.
  destruct o as [m|].
  - apply findInboxRequest_Ok in Ho as (-> & Hm & HS & HR); [|done].
    apply tx_bind_Ok in H2 as (v & d1 & Hv & H2). apply refuseIf_Ok in Hv as [Hv%negb_false_iff ->].
    injection H2 as <- <-. split; [by apply keeps_refl|]. exists e. split_and!; [done..|].
    left. left. by split_and!.
  - destruct Ho as [-> _]. apply tx_bind_Ok in H2 as (v & d1 & Hv & H2).
    apply refuseIf_Ok in Hv as [Hnt%not_terminal_not_completed ->]. case_bool_decide as Hp.
    + pose proof H2 as H3. apply resumeChild_Ok in H3 as [K _]; [|done..].
      split; [done|]. exists e. split_and!; [done..|]. by right.
    + apply tx_bind_Ok in H2 as ([e1 r1] & d1 & Hins & H2). injection H2 as <- <-.
      apply (insertChild_Ok _ _ e) in Hins as (Hins & HS & _); [|done..].
      split; [apply Hins|]. exists e. split_and!; [done..|]. left. right. by rewrite <- Hs.
Qed.

(** ** Reports and notices *)

Lemma report_keeps c child ev at_ text d u d' :
  inbox_inv d → recordExecutionChildReport c child ev at_ text d = Ok (u, d') → keeps d d'.
Proof.
  intros Hi H2. unfold recordExecutionChildReport in H2.
  case_bool_decide; [injection H2 as <- <-; by apply keeps_refl|].
  destruct (ex_ParentExecutionID child) as [parentID|]; [|by apply check_Ok in H2 as [? _]].
  apply tx_bind_Ok in H2 as (e & d1 & Hf & H2). apply held in Hf as (-> & HE & He & Hs); [|done].
  apply tx_bind_Ok in H2 as (v & d1 & Hg & H2). apply refuseIf_Ok in Hg as [_ ->].
  apply tx_bind_Ok in H2 as (n & d1 & Hn & H2). apply nextInboxSequence_Ok in Hn as [-> Hn]; [|done].
  apply tx_bind_Ok in H2 as (w & d1 & Hc & H2). apply create_inv in Hc as (K & _); [|done|done|].
  - eapply keeps_trans; [done|]. apply keeps_calm; [apply K|].
    unfold recordChildReportEvent, deref in H2. eapply ensures_bind in H2; [done|apply _|..]; calm_steps.
  - exists e. split_and!; [done..|]. intros _ _. done.
Qed.

Lemma queueNotice_keeps c child row notice text d u d' :
  inbox_inv d → executions d !! ex_ID child = Some row → ex_SessionID row = ex_SessionID child →
  ex_State row ≠ ExecutionStateCompleted →
  queueChildNotice c child notice text d = Ok (u, d') → keeps d d'.
Proof.
  intros Hi He Hs Hnc H2. unfold queueChildNotice in H2.
  apply tx_bind_Ok in H2 as (v & d1 & Hg & H2). apply refuseIf_Ok in Hg as [_ ->].
  apply tx_bind_Ok in H2 as (n & d1 & Hn & H2). apply nextInboxSequence_Ok in Hn as [-> Hn]; [|done].
  apply tx_bind_Ok in H2 as (w & d1 & Hc & H2). apply create_inv in Hc as (K & _); [|done|done|].
  - eapply keeps_trans; [done|]. apply keeps_calm; [apply K|].
    apply tx_bind_Ok in H2 as (e1 & d2 & Hacc & H2). injection H2 as <- <-.
    by eapply calm_acceptance.
  - exists row. by split_and!.
Qed.

Lemma queueNotices_keeps c drawn notice text children d u d' :
  inbox_inv d →
  (∀ e, e ∈ children → ∃ row, executions d !! ex_ID e = Some row ∧
        ex_SessionID row = ex_SessionID e ∧ ex_State row ≠ ExecutionStateCompleted) →
  queueChildNotices c drawn notice text children d = Ok (u, d') → keeps d d'.
Proof.
  revert d. induction children as [|e l IH]; intros d Hi Hall H2; simpl in H2.
  - injection H2 as <- <-. by apply keeps_refl.
  - apply tx_bind_Ok in H2 as (v & d1 & Hq & H2).
    destruct (Hall e) as (row & He & Hs & Hnc); [by left|].
    eapply queueNotice_keeps in Hq as K; [|done..]. eapply keeps_trans; [done|].
    apply IH in H2; [done|apply K|]. intros x Hx. destruct (Hall x) as (y & Hy & Hys & Hyn); [by right|].
    assert (HidE : ex_ID y = ex_ID x) by by apply (ii_keyed _ Hi).
    destruct (quiet_held d d1 y) as (z & Hz & Hzs & Hzn); [apply K|congruence|done|].
    exists z. split_and!; congruence.
Qed.

Lemma broadcast_keeps c drawn notice text d u d' :
  inbox_inv d → broadcastNoticeToChildren c drawn notice text d = Ok (u, d') → keeps d d'.
Proof.
  intros Hi H2. unfold broadcastNoticeToChildren in H2.
  destruct (negb _); [injection H2 as <- <-; by apply keeps_refl|].
  apply tx_bind_Ok in H2 as (l & d1 & Hl & H2). apply reads_Ok in Hl as [[= <-] ->].
  eapply queueNotices_keeps; [done| |exact H2]. intros e He.
  apply list_elem_of_filter in He as [(Hs & Hk & Hst) He].
  apply list_elem_of_fmap in He as ([i x] & -> & Hx%elem_of_map_to_list). simpl in *.
  exists x. rewrite (ii_keyed _ Hi _ _ Hx). split_and!; [done..|].
  by destruct Hst as [-> | ->].
Qed.

(** ** Delivering *)

(** A message is delivered once, by one activity. *)
Lemma delivered_later row aid at_ :
  inboxRowValid row = true → in_State row ≠ InboxMessageStateDelivered →
  inboxRowValid (inboxDelivered aid at_ row) = true → later row (inboxDelivered aid at_ row).
Proof.
  intros Hv Hnd Hv'. split; [by destruct row|].
  destruct (in_State row) eqn:E; [right; by destruct row|done|by destruct row|].
  exfalso. unfold inboxRowValid in Hv, Hv'. rewrite E in Hv. destruct row; simpl in *. subst.
  rewrite !andb_true_iff, !bool_decide_eq_true in Hv, Hv'. naive_solver.
Qed.

Definition transcriptOf (row : ExecutionInboxMessage) : list MessageInput :=
  if bool_decide (in_State row = InboxMessageStateDelivered) then []
  else match inboxTranscriptMessages row with Ok ms => ms | _ => [] end.

(** What a delivery makes of a row. *)
Definition deliveredRow (aid : uuid) (at_ : Z) (row : ExecutionInboxMessage)
    : ExecutionInboxMessage :=
  if bool_decide (in_State row = InboxMessageStateDelivered) then row
  else inboxDelivered aid at_ row.

Lemma deliverUpdate_Ok aid at_ row d u d' :
  inbox_inv d → inbox (others d) !! in_ID row = Some row →
  in_State row ≠ InboxMessageStateDelivered →
  updateInbox (in_SessionID row) (in_ID row) (inboxDelivered aid at_) d = Ok (u, d') →
  keeps d d' ∧ executions d' = executions d ∧
  inbox (others d') = <[in_ID row := deliveredRow aid at_ row]> (inbox (others d)).
Proof.
  intros Hi Hrow Hnd Hu. destruct (ii_row _ Hi _ _ Hrow) as (_ & Hv & _).
  apply update_inv in Hu as (K & Ee & _ & Hne & Heq); [|done|].
  - split; [done|]. split; [done|]. apply map_eq. intros j. destruct (decide (j = in_ID row)) as [->|Hj].
    + rewrite lookup_insert_eq. rewrite (Heq row) by done. unfold deliveredRow.
      by rewrite bool_decide_eq_false_2.
    + by rewrite lookup_insert_ne, Hne.
  - intros m Hm Hv'. assert (m = row) as -> by congruence. by apply delivered_later.
Qed.

Lemma deliverRow_Ok c e a row root d out d' :
  inbox_inv d → inbox (others d) !! in_ID row = Some row →
  deliverInboxRow c e a row root d = Ok (out, d') →
  keeps d d' ∧ executions d' = executions d ∧ in_ExecutionID row = ex_ID e ∧
  out.1 = transcriptOf row ∧
  (in_State row = InboxMessageStateDelivered → out.2 = [] ∧
     in_DeliveredActivityID row = Some (ac_ID a)) ∧
  inbox (others d') = <[in_ID row := deliveredRow (ac_ID a) (now c) row]> (inbox (others d)) ∧
  messages (others d') = messages (others d).
Proof.
  intros Hi Hrow H2. unfold deliverInboxRow in H2.
  apply tx_bind_Ok in H2 as (v & d1 & Hg & H2).
  apply refuseIf_Ok in Hg as [Hg%negb_false_iff%bool_decide_eq_true ->].
  unfold transcriptOf. destruct (decide (in_State row = InboxMessageStateDelivered)) as [Hd|Hnd].
  - rewrite bool_decide_eq_true_2 in * by done.
    apply tx_bind_Ok in H2 as (w & d1 & Hb & H2). apply check_Ok in Hb as [Hb ->].
    unfold requireDeliveredBy in Hb. case_bool_decide as Hby; [|done].
    injection H2 as <- <-. split; [by apply keeps_refl|]. do 3 (split; [done|]).
    split; [by intros _|]. split; [|done]. unfold deliveredRow. rewrite bool_decide_eq_true_2 by done. by rewrite insert_id.
  - rewrite bool_decide_eq_false_2 in * by done.
    apply tx_bind_Ok in H2 as (ms & d1 & Hms & H2). apply reads_Ok in Hms as [Hms ->].
    apply tx_bind_Ok in H2 as (es & d1 & Hes & H2). apply reads_Ok in Hes as [_ ->].
    apply tx_bind_Ok in H2 as (ss & d1 & Hss & H2). apply reads_Ok in Hss as [_ ->].
    apply tx_bind_Ok in H2 as (w & d1 & Hu & H2). injection H2 as <- <-.
    pose proof Hu as Hu2. apply deliverUpdate_Ok in Hu as (K & Ee & Ei); [|done..].
    rewrite Hms. split_and!; try done.
    unfold updateInbox in Hu2. rewrite Hrow in Hu2. repeat case_match; simplify_eq; done.
Qed.

(** The rows of a list of requests. *)
Definition rowsOfRequests (sid : uuid) (e : Execution) (ids : list uuid)
    (rows : list ExecutionInboxMessage) (d : db) : Prop :=
  Forall2 (λ id row, inbox (others d) !! in_ID row = Some row ∧ in_SessionID row = sid ∧
                     in_RequestID row = id ∧ in_ExecutionID row = ex_ID e) ids rows.

Definition deliverAll (aid : uuid) (at_ : Z) (rows : list ExecutionInboxMessage)
    (table : gmap uuid ExecutionInboxMessage) : gmap uuid ExecutionInboxMessage :=
  foldl (λ t row, <[in_ID row := deliveredRow aid at_ row]> t) table rows.

(** What a delivery of some requests by an activity does to the inbox. *)
Definition deliveredAll (sid : uuid) (e : Execution) (ids : list uuid) (aid : uuid) (at_ : Z)
    (rows : list ExecutionInboxMessage) (d d' : db) : Prop :=
  keeps d d' ∧ rowsOfRequests sid e ids rows d ∧
  inbox (others d') = deliverAll aid at_ rows (inbox (others d)).

Lemma deliveredRow_id aid at_ row :
  in_ID (deliveredRow aid at_ row) = in_ID row ∧
  in_RequestID (deliveredRow aid at_ row) = in_RequestID row.
Proof. unfold deliveredRow. case_bool_decide; by destruct row. Qed.

Lemma rowsOfRequests_before sid e ids rows d d1 row row' :
  rowsOfRequests sid e ids rows d1 → in_RequestID row ∉ ids →
  in_RequestID row' = in_RequestID row →
  inbox (others d1) = <[in_ID row := row']> (inbox (others d)) →
  rowsOfRequests sid e ids rows d.
Proof.
  intros HF Hni HrE Ei. induction HF as [|id x ids rows (Hx1 & HS & HR & HE) HF IH]; [constructor|].
  apply not_elem_of_cons in Hni as [Hne Hni]. constructor; [|by apply IH].
  split_and!; [|done..]. rewrite Ei in Hx1.
  apply lookup_insert_Some in Hx1 as [[_ Hxx]|[_ Hx1]]; [|done]. subst. congruence.
Qed.

Lemma deliveredAll_nil sid e aid at_ d : inbox_inv d → deliveredAll sid e [] aid at_ [] d d.
Proof. intros Hi. split; [by apply keeps_refl|]. split; [constructor|done]. Qed.

Lemma deliveredAll_cons sid e id ids aid at_ row rows d d1 d' :
  id ∉ ids → inbox (others d) !! in_ID row = Some row → in_SessionID row = sid →
  in_RequestID row = id → in_ExecutionID row = ex_ID e → keeps d d1 →
  inbox (others d1) = <[in_ID row := deliveredRow aid at_ row]> (inbox (others d)) →
  deliveredAll sid e ids aid at_ rows d1 d' →
  deliveredAll sid e (id :: ids) aid at_ (row :: rows) d d'.
Proof.
  intros Hni Hrow HS <- HE K Ei (K2 & HF & E2). split; [by eapply keeps_trans|].
  split; [|by rewrite E2, Ei]. constructor; [done|].
  eapply rowsOfRequests_before; [done|done|apply deliveredRow_id|done].
Qed.

Lemma deliverRows_Ok c sid e a root ids d out d' :
  inbox_inv d → NoDup ids → deliverInboxRows c sid e a root ids d = Ok (out, d') →
  ∃ rows, deliveredAll sid e ids (ac_ID a) (now c) rows d d' ∧
    out.1 = rows ≫= transcriptOf ∧ messages (others d') = messages (others d) ∧
    (Forall (λ row, in_State row = InboxMessageStateDelivered) rows → out.2 = []) ∧
    Forall (λ row, in_State row = InboxMessageStateDelivered →
                   in_DeliveredActivityID row = Some (ac_ID a)) rows.
Proof.
  intros Hi Hnd. revert d out Hi. induction Hnd as [|id ids Hni Hnd IH]; intros d out Hi H2; simpl in H2.
  - injection H2 as <- <-. exists []. split; [by apply deliveredAll_nil|]. split_and!; done.
  - apply tx_bind_Ok in H2 as (row & d1 & Hf & H2).
    apply findInboxRequest_Ok in Hf as (-> & Hrow & HS & HR); [|done].
    apply tx_bind_Ok in H2 as (first & d1 & Hd & H2).
    apply deliverRow_Ok in Hd as (K & _ & HE & H1 & Hdone & Ei & Em); [|done..].
    apply tx_bind_Ok in H2 as (rest & d2 & Hr & H2). injection H2 as <- <-.
    apply IH in Hr as (rows & Hall & Hms & Em2 & Hes & Hby); [|apply K].
    exists (row :: rows). split; [by eapply deliveredAll_cons|]. cbn. rewrite H1, Hms.
    split_and!; [done|congruence| |].
    + intros [Hrd Hrs]%Forall_cons. rewrite (proj1 (Hdone Hrd)). by apply Hes.
    + constructor; [|done]. intros Hrd. by apply Hdone.
Qed.

(** ** Delivering to a child *)

Lemma calm_childDelivery c e a row : ensures calm (recordChildInboxDelivery c e a row).
Proof. unfold recordChildInboxDelivery, deref. calm_steps. Qed.

Lemma childDelivery_id c e a row d e' d' :
  recordChildInboxDelivery c e a row d = Ok (e', d') → ex_ID e' = ex_ID e.
Proof.
  unfold recordChildInboxDelivery, deref, appendExecutionEvent. intros H2. run_tx. by destruct e.
Qed.

Lemma deliverChildRow_Ok c e a row d out d' :
  inbox_inv d → inbox (others d) !! in_ID row = Some row →
  deliverChildInboxRow Sum256 c e a row d = Ok (out, d') →
  keeps d d' ∧ in_ExecutionID row = ex_ID e ∧ ex_ID out.1 = ex_ID e ∧
  out.2 = transcriptOf row ∧
  (in_State row = InboxMessageStateDelivered →
     d' = d ∧ in_DeliveredActivityID row = Some (ac_ID a)) ∧
  inbox (others d') = <[in_ID row := deliveredRow (ac_ID a) (now c) row]> (inbox (others d)).
Proof.
  intros Hi Hrow H2. unfold deliverChildInboxRow in H2.
  apply tx_bind_Ok in H2 as (v & d1 & Hg & H2).
  apply refuseIf_Ok in Hg as [Hg%negb_false_iff%bool_decide_eq_true ->].
  unfold transcriptOf. destruct (decide (in_State row = InboxMessageStateDelivered)) as [Hd|Hnd].
  - rewrite bool_decide_eq_true_2 in * by done.
    apply tx_bind_Ok in H2 as (w & d1 & Hb & H2). apply check_Ok in Hb as [Hb ->].
    unfold requireDeliveredBy in Hb. case_bool_decide as Hby; [|done].
    injection H2 as <- <-. split; [by apply keeps_refl|]. do 3 (split; [done|]).
    split; [by intros _|]. unfold deliveredRow. rewrite bool_decide_eq_true_2 by done.
    by rewrite insert_id.
  - rewrite bool_decide_eq_false_2 in * by done.
    apply tx_bind_Ok in H2 as (ms & d1 & Hms & H2). apply reads_Ok in Hms as [Hms ->].
    apply tx_bind_Ok in H2 as (run & d1 & Hr & H2). unfold deref in Hr. apply reads_Ok in Hr as [_ ->].
    apply tx_bind_Ok in H2 as (rows & d1 & Hc & H2). apply apart_childMessages in Hc.
    pose proof (keeps_apart _ _ Hi Hc) as K1. destruct Hc as [Ee1 Ei1].
    apply tx_bind_Ok in H2 as (w & d2 & Hu & H2).
    apply deliverUpdate_Ok in Hu as (K2 & Ee2 & Ei2); [|apply K1|by rewrite Ei1|done].
    apply tx_bind_Ok in H2 as (e2 & d3 & Hev & H2). injection H2 as <- <-.
    pose proof (calm_childDelivery _ _ _ _ _ _ _ Hev) as Hcalm. cbn [fst snd].
    rewrite Hms. split_and!; [|done|by eapply childDelivery_id|done|done|].
    + eapply keeps_trans; [done|]. eapply keeps_trans; [done|]. apply keeps_calm; [apply K2|done].
    + rewrite (calm_inbox _ _ Hcalm), Ei2. by rewrite Ei1.
Qed.

Lemma rowsOfRequests_rename sid e e' ids rows d :
  ex_ID e' = ex_ID e → rowsOfRequests sid e' ids rows d → rowsOfRequests sid e ids rows d.
Proof. unfold rowsOfRequests. by intros ->. Qed.

Lemma deliverChildRows_Ok c sid e a ids d out d' :
  inbox_inv d → NoDup ids → deliverChildRows Sum256 c sid e a ids d = Ok (out, d') →
  ∃ rows, deliveredAll sid e ids (ac_ID a) (now c) rows d d' ∧ out = rows ≫= transcriptOf ∧
    (Forall (λ row, in_State row = InboxMessageStateDelivered) rows → d' = d) ∧
    Forall (λ row, in_State row = InboxMessageStateDelivered →
                   in_DeliveredActivityID row = Some (ac_ID a)) rows.
Proof.
  intros Hi Hnd. revert d e out Hi. induction Hnd as [|id ids Hni Hnd IH]; intros d e out Hi H2; simpl in H2.
  - injection H2 as <- <-. exists []. split; [by apply deliveredAll_nil|]. split_and!; done.
  - apply tx_bind_Ok in H2 as (row & d1 & Hf & H2).
    apply findInboxRequest_Ok in Hf as (-> & Hrow & HS & HR); [|done].
    apply tx_bind_Ok in H2 as ([e1 first] & d1 & Hd & H2).
    apply deliverChildRow_Ok in Hd as (K & HE & Hid1 & H1 & Hdone & Ei); [|done..]. cbn [fst snd] in *.
    apply tx_bind_Ok in H2 as (rest & d2 & Hr & H2). injection H2 as <- <-.
    apply IH in Hr as (rows & (K2 & HF & E2) & Hms & Hsame & Hby); [|apply K].
    apply (rowsOfRequests_rename _ e) in HF; [|done].
    exists (row :: rows). split; [eapply deliveredAll_cons; [done..|by split]|]. cbn. rewrite H1, Hms.
    split_and!; [done| |].
    + intros [Hrd Hrs]%Forall_cons. rewrite Hsame by done. by apply Hdone.
    + constructor; [|done]. intros Hrd. by apply Hdone.
Qed.

(** ** Deferred messages *)

Lemma calm_watermark e : ensures calm (completedHookInboxWatermark Sum256 e).
Proof. unfold completedHookInboxWatermark, readExecutionCompletionSeal. calm_steps. Qed.

Lemma watermark_reads e d n d' : completedHookInboxWatermark Sum256 e d = Ok (n, d') → d' = d.
Proof.
  unfold completedHookInboxWatermark. intros H2.
  apply tx_bind_Ok in H2 as (seal & d1 & Hs & H2). apply readSeal_Ok in Hs as ->.
  destruct seal; run_tx; done.
Qed.

(** Binding a deferred message to a new root forwards it there, once. *)
Lemma bindDeferred_Ok c target id d u d' :
  inbox_inv d → bindDeferredExecution Sum256 c target (Some id) d = Ok (u, d') →
  keeps d d' ∧ ∃ m', inbox (others d') !! id = Some m' ∧
    in_SessionID m' = ex_SessionID target ∧
    in_State m' = InboxMessageStateForwarded ∧ in_ForwardedExecutionID m' = Some (ex_ID target).
Proof.
  intros Hi H2. unfold bindDeferredExecution, findInboxRow in H2.
  apply tx_bind_Ok in H2 as (m & d1 & Hf & H2). apply reads_Ok in Hf as [Hf ->].
  apply firstRow_Ok in Hf as [Hm HS]. case_bool_decide as Hfw.
  - apply refuseIf_Ok in H2 as [Hs%negb_false_iff%bool_decide_eq_true ->].
    split; [by apply keeps_refl|]. by exists m.
  - apply tx_bind_Ok in H2 as (v & d1 & Hv & H2). unfold validateDeferredTarget, findTurn in Hv.
    apply tx_bind_Ok in Hv as (? & d2 & Hv1 & Hv). apply refuseIf_Ok in Hv1 as [_ ->].
    apply tx_bind_Ok in Hv as (t & d2 & Hv1 & Hv). apply reads_Ok in Hv1 as [_ ->].
    apply refuseIf_Ok in Hv as [_ ->].
    apply tx_bind_Ok in H2 as (v2 & d1 & Hg & H2). apply refuseIf_Ok in Hg as [Hg ->].
    apply orb_false_iff in Hg as [Hdef%negb_false_iff%bool_decide_eq_true _].
    unfold forwardExecutionMessage in H2.
    apply tx_bind_Ok in H2 as (src & d1 & Hs & H2). apply findExecution_Ok in Hs as (_ & _ & ->).
    apply tx_bind_Ok in H2 as (? & d1 & Hs & H2). apply refuseIf_Ok in Hs as [_ ->].
    apply tx_bind_Ok in H2 as (? & d1 & Hs & H2). apply watermark_reads in Hs as ->.
    apply tx_bind_Ok in H2 as (? & d1 & Hu & H2).
    destruct (ii_row _ Hi _ _ Hm) as (Hid & Hv & _). rewrite Hid in Hu.
    apply update_inv in Hu as (K & Ee & _ & _ & Heq); [|done|].
    + apply tx_bind_Ok in H2 as (e2 & d2 & Hev & H2). injection H2 as <- <-.
      apply calm_append in Hev. split.
      * eapply keeps_trans; [done|]. by apply keeps_calm; [apply K|].
      * exists (inboxForwarded (ex_ID target) m). rewrite (calm_inbox _ _ Hev).
        rewrite (Heq m) by done. split_and!; by destruct m.
    + intros y Hy _. assert (y = m) as -> by congruence. split; [by destruct m|].
      rewrite Hdef. by destruct m.
Qed.

Lemma bind_keeps c target inboxID d u d' :
  inbox_inv d → bindDeferredExecution Sum256 c target inboxID d = Ok (u, d') → keeps d d'.
Proof.
  intros Hi H2. destruct inboxID as [id|]; [by apply bindDeferred_Ok in H2 as [K _]|].
  injection H2 as <- <-. by apply keeps_refl.
Qed.

Lemma createDeferred_Ok c sid input inboxID d e d' :
  inbox_inv d → createDeferredExecution Sum256 c sid input inboxID d = Ok (e, d') →
  keeps d d' ∧ ex_ID e = ci_ID input ∧
  ∀ id, inboxID = Some id → ∃ m', inbox (others d') !! id = Some m' ∧ in_SessionID m' = sid ∧
    in_State m' = InboxMessageStateForwarded ∧ in_ForwardedExecutionID m' = Some (ci_ID input).
Proof.
  intros Hi H2. unfold createDeferredExecution in H2.
  destruct (findExecution sid (ci_ID input) d) as [[old d1]|[]| |] eqn:Hf; try done.
  - apply held in Hf as (-> & HE & He & Hs); [|done]. case_if; [|done].
    apply tx_bind_Ok in H2 as (u & d1 & Hb & H2). injection H2 as <- <-.
    split; [by eapply bind_keeps|]. split; [done|]. intros id ->.
    apply bindDeferred_Ok in Hb as [_ (m' & ? & ? & ? & ?)]; [|done]. exists m'. split_and!; congruence.
  - apply tx_bind_Ok in H2 as (e1 & d1 & Hr & H2).
    apply executionRecord_Ok in Hr as (-> & HE & Hs & _ & Ht).
    apply tx_bind_Ok in H2 as (v & d1 & Hins & H2).
    apply calm_insertExecution in Hins; [|by apply not_terminal_not_completed].
    pose proof (keeps_calm _ _ Hi Hins) as K1.
    apply tx_bind_Ok in H2 as (w & d2 & Hb & H2). pose proof Hb as Hb2.
    apply bind_keeps in Hb as K2; [|apply K1]. pose proof (calm_recordCreation _ _ _ _ _ H2) as Hc.
    split_and!; [|by apply recordCreation_id in H2; congruence|].
    + eapply keeps_trans; [done|]. eapply keeps_trans; [done|]. apply keeps_calm; [apply K2|done].
    + intros id ->. apply bindDeferred_Ok in Hb2 as [_ (m' & ? & ? & ? & ?)]; [|apply K1].
      exists m'. rewrite (calm_inbox _ _ Hc). split_and!; congruence.
Qed.

End store.

End InboxSteps.
