(* ===== verification/InboxTheorems.v ===== *)
(** The life of the inbox: the operations on executions and on the inbox as
    steps between committed states, and what acceptance, delivery, deferral
    and completion promise of a message in every state they reach. *)
From stdpp Require Import base gmap sets list strings sorting.
From Stdlib Require Import ZArith Lia Ascii.
From S2P Require Import Prelude GoBytes Executions ExecutionControl Activities ExecutionSteps TxRules Transcripts Inbox Deferral InboxRules InboxSteps.

Module InboxTheorems.
Import Executions ExecutionControl Activities ExecutionSteps TxRules Transcripts Inbox Deferral InboxRules InboxSteps.

Section store.
Variables maxExecutionStateBytes maxStoredMessageBytes : Z.
Variable Sum256 : bytes → bytes.
Variable marshalResolution : ResolveActivityInput → bytes.
Variable finishDecisionHash : CompleteActivityInput → bytes.
Context `{ImageCodec, InboxCodec}.

Lemma leased_held sid lease d a e d' :
  inbox_inv d → activityForLease sid lease d = Ok ((a, e), d') →
  d' = d ∧ activities d !! le_ID lease = Some a ∧
  ac_OwnerGenerationID a = Some (le_GenerationID lease) ∧ ac_Attempt a = le_Attempt lease ∧
  ac_ExecutionID a = ex_ID e ∧ executions d !! ex_ID e = Some e ∧ ex_SessionID e = sid.
Proof.
  intros Hi Hl. unfold activityForLease, findExecutionActivity in Hl.
  apply tx_bind_Ok in Hl as (? & d0 & Hg & Hl). apply refuseIf_Ok in Hg as [_ ->].
  apply tx_bind_Ok in Hl as (b & d0 & Ha & Hl). apply reads_Ok in Ha as [[Ha _]%firstRow_Ok ->].
  apply tx_bind_Ok in Hl as (? & d0 & Ho & Hl).
  apply refuseIf_Ok in Ho as [Ho%negb_false_iff%bool_decide_eq_true ->].
  apply tx_bind_Ok in Hl as (? & d0 & Ht & Hl). apply refuseIf_Ok in Ht as [Ht%negb_false_iff%Z.eqb_eq ->].
  apply tx_bind_Ok in Hl as (e0 & d0 & Hf & Hl). injection Hl as <- <- <-.
  apply held in Hf as (-> & HE & He & Hs); [|done]. by split_and!.
Qed.

(** ** Completing an execution *)

Lemma settled_of_check e row d u d' :
  inbox_inv d → executions d !! ex_ID e = Some row → ex_SessionID row = ex_SessionID e →
  requireSettledExecutionInbox Sum256 e ExecutionStateCompleted d = Ok (u, d') →
  settledInbox (ex_ID e) d.
Proof.
  intros Hi He Hs H2 i m Hm HE Hq. unfold requireSettledExecutionInbox in H2.
  rewrite bool_decide_eq_true_2 in H2 by done. simpl in H2.
  apply tx_bind_Ok in H2 as (cutoff & d1 & Hc & H2). apply watermark_reads in Hc as ->.
  apply tx_bind_Ok in H2 as (n & d1 & Hn & H2). apply reads_Ok in Hn as [[= <-] ->].
  apply refuseIf_Ok in H2 as [Hz%negb_false_iff%Z.eqb_eq _]. unfold CompletionBlockers in Hz.
  destruct (ii_row _ Hi _ _ Hm) as (_ & _ & x & Hx & Hxs). rewrite HE, He in Hx. injection Hx as <-.
  assert (Hl : filter (λ m, blocksCompletion d (ex_SessionID e) (ex_ID e) InboxMessageStateQueued
                              cutoff m = true) (inboxRows d) = []).
  { apply length_zero_iff_nil. unfold inboxRows. lia. }
  destruct (blocksCompletion d (ex_SessionID e) (ex_ID e) InboxMessageStateQueued cutoff m) eqn:E.
  - exfalso. apply (not_elem_of_nil m). rewrite <- Hl. apply list_elem_of_filter.
    split; [done|]. apply elem_of_inboxRows. eauto.
  - unfold blocksCompletion in E. rewrite !bool_decide_eq_true_2 in E by congruence. simpl in E.
    apply negb_false_iff, andb_prop in E as [_ E]. unfold isReport.
    destruct (in_SourceEventID m) as [src|]; [|done].
    apply andb_prop in E as [E%bool_decide_eq_true _]. by subst.
Qed.

(** A transaction that may complete an execution, after its inbox was settled. *)
Definition sound (d d' : db) : Prop := inbox_inv d' ∧ evolves d d'.

Lemma keeps_sound d d' : keeps d d' → sound d d'.
Proof. by intros (? & ? & _). Qed.

Lemma sound_trans d1 d2 d3 : sound d1 d2 → sound d2 d3 → sound d1 d3.
Proof. intros [_ ?] [? ?]. split; [done|by etrans]. Qed.

Lemma sound_calm d d' : inbox_inv d → calm d d' → sound d d'.
Proof. intros. by apply keeps_sound, keeps_calm. Qed.

Lemma complete_update e f row d u d' :
  inbox_inv d → executions d !! ex_ID e = Some row → ex_SessionID row = ex_SessionID e →
  same_work row (f row) →
  (ex_State (f row) = ExecutionStateCompleted → settledInbox (ex_ID e) d) →
  updateExecution e f d = Ok (u, d') → sound d d'.
Proof.
  intros Hi He Hs Hsame Hset [= <- <-]. unfold setExecutions; simpl.
  rewrite (updateRow_found _ _ _ _ _ row) by done.
  assert (Hkept : ∀ id x, executions d !! id = Some x →
     ∃ y, <[ex_ID e := f row]> (executions d) !! id = Some y ∧ same_work x y).
  { intros id x Hx. destruct (decide (id = ex_ID e)) as [->|Hne].
    - exists (f row). rewrite lookup_insert_eq. split; [done|]. congruence.
    - exists x. by rewrite lookup_insert_ne. }
  split; [|by split; [done|intros i m Hm; exists m]]. destruct Hi as [K Hrow Hreq Hnum Hdense Hsettled].
  split; simpl; try done.
  - intros id x. rewrite lookup_insert_Some. intros [[<- <-]|[_ Hx]]; [|by apply K].
    destruct Hsame as (-> & _). by apply K.
  - intros i m Hm. destruct (Hrow i m Hm) as (HidE & Hv & x & Hx & Hxs). split_and!; [done..|].
    destruct (Hkept _ _ Hx) as (y & Hy & _ & HyS & _). exists y. split; [done|congruence].
  - intros id x. rewrite lookup_insert_Some. intros [[<- <-]|[_ Hx]] Hc; [by apply Hset|].
    by apply (Hsettled id x).
Qed.

Lemma finish_sound c e input row d u d' :
  inbox_inv d → executions d !! ex_ID e = Some row → ex_SessionID row = ex_SessionID e →
  finishExecution Sum256 c e input d = Ok (u, d') → sound d d'.
Proof.
  intros Hi He Hs H2. unfold finishExecution in H2.
  destruct (co_Finish input) as [fin|]; [|injection H2 as <- <-; by apply sound_calm].
  apply tx_bind_Ok in H2 as (? & d1 & Hr & H2).
  unfold requireSettledExecutionActivities in Hr. apply reads_Ok in Hr as [_ ->].
  apply tx_bind_Ok in H2 as (? & d1 & Hset & H2). pose proof (settledInbox_Ok _ _ _ _ _ _ Hset) as ->.
  apply tx_bind_Ok in H2 as (? & d1 & Hu & H2).
  apply tx_bind_Ok in H2 as (e1 & d2 & Hev & H2). injection H2 as <- <-.
  assert (S1 : sound d d1).
  { eapply complete_update; [done|done|done| | |exact Hu]; [by destruct row|].
    intros Hc. assert (fi_State fin = ExecutionStateCompleted) as Hf by by destruct row.
    rewrite Hf in Hset. by eapply settled_of_check. }
  eapply sound_trans; [done|]. apply sound_calm; [apply S1|]. by eapply calm_append.
Qed.

Lemma complete_sound c sid lease input d a d' :
  inbox_inv d → completeActivity Sum256 finishDecisionHash c sid lease input d = Ok (a, d') →
  sound d d'.
Proof.
  intros Hi H2. unfold completeActivity in H2.
  apply tx_bind_Ok in H2 as ([b e] & d1 & Hl & H2).
  apply leased_held in Hl as (-> & _ & _ & _ & _ & He & Hs); [|done].
  case_bool_decide as Hdone; [apply reads_Ok in H2 as [_ ->]; by apply sound_calm|].
  apply tx_bind_Ok in H2 as (? & d1 & Hg & H2). apply refuseIf_Ok in Hg as [_ ->].
  apply tx_bind_Ok in H2 as (? & d1 & Hg & H2). apply check_Ok in Hg as [_ ->].
  apply tx_bind_Ok in H2 as (? & d1 & Hg & H2). apply holder_Ok in Hg as ->.
  apply tx_bind_Ok in H2 as (a1 & d1 & Hr & H2). apply calm_saveResult in Hr.
  apply tx_bind_Ok in H2 as (e1 & d2 & Hev & H2).
  assert (Hid : ex_ID e1 = ex_ID e ∧ ex_SessionID e1 = ex_SessionID e).
  { unfold appendActivityEvent, appendExecutionEvent in Hev. run_tx. by destruct e. }
  apply calm_append in Hev. assert (C : calm d d2) by by etrans.
  pose proof (sound_calm _ _ Hi C) as S1. eapply sound_trans; [exact S1|].
  destruct C as [[_ QP _] _]. destruct (QP _ _ He) as (row & Hrow & _ & HsE & _).
  unfold finishActivityCompletion in H2.
  destruct (finishExecution Sum256 c e1 input d2) as [[[] d3]|[]| |] eqn:Hfin; try done.
  - assert (S2 : sound d2 d3).
    { eapply finish_sound; [apply S1| | |exact Hfin]; [by rewrite (proj1 Hid)|].
      rewrite (proj2 Hid). exact HsE. }
    case_bool_decide; [by injection H2 as <- <-|]. eapply sound_trans; [exact S2|].
    apply sound_calm; [apply S2|]. unfold saveFinishDecision in H2.
    eapply ensures_bind in H2; [done|apply _|..]; calm_steps.
  - case_bool_decide; [done|]. apply sound_calm; [apply S1|]. unfold savePendingFinishDecision in H2.
    apply tx_bind_Ok in H2 as (a2 & d4 & Hr2 & H2). apply calm_saveResult in Hr2.
    etrans; [exact Hr2|]. unfold saveFinishDecision in H2.
    eapply ensures_bind in H2; [done|apply _|..]; calm_steps.
Qed.

(** ** Steps *)

Lemma transaction_sound {A} (m : tx A) d :
  inbox_inv d → (∀ a d', m d = Ok (a, d') → sound d d') → sound d (transaction m d).1.
Proof.
  intros Hi Hm. destruct (transaction_failed m d) as [->|(a & d' & E & ->)]; [by apply sound_calm|].
  by eapply Hm.
Qed.

Lemma calm_sound {A} (m : tx A) d : inbox_inv d → ensures calm m → sound d (transaction m d).1.
Proof. intros Hi Hm. apply transaction_sound; [done|]. intros a d' E. apply sound_calm; eauto. Qed.

Lemma guarded_sound {A B} (o : outcome B) (m : B → db → db * outcome A) d :
  inbox_inv d → (∀ b, o = Ok b → sound d (m b d).1) →
  sound d (match o with
           | Ok b => m b d | Err e => (d, Err e) | Panic => (d, Panic) | OutOfFuel => (d, OutOfFuel)
           end).1.
Proof. intros Hi Hm. destruct o; simpl; [by apply Hm|by apply sound_calm..]. Qed.

Lemma execution_sound c o d :
  inbox_inv d →
  sound d (apply maxExecutionStateBytes maxStoredMessageBytes Sum256 marshalResolution
             finishDecisionHash c o d).
Proof.
  intros Hi. destruct o as [| |sid lease input| | | | | | | | | |]; cycle 2;
    [|apply sound_calm; [done|by apply execution_calm]..].
  apply (guarded_sound _ (λ _, transaction _)); [done|intros _ _].
  apply transaction_sound; [done|]. intros a d' E. by eapply complete_sound.
Qed.

Inductive inbox_op :=
  | OpAccept (active : activeTurns) (E : uuid) (lease : Lease) (input : AcceptExecutionMessageInput)
  | OpDefer (active : activeTurns) (E : uuid) (lease : Lease) (input : AcceptExecutionMessageInput)
  | OpAcceptChild (noticeID sid E : uuid) (input : AcceptExecutionMessageInput)
  | OpDeliver (active : activeTurns) (sid : uuid) (input : DeliverExecutionMessagesInput)
  | OpDeliverChild (sid : uuid) (lease : ActivityLease) (ids : list uuid)
  | OpCreateDeferred (sid : uuid) (input : CreateExecutionInput) (inboxID : option uuid)
  | OpResumeSelected (sid E : uuid) (input : ResumeExecutionInput) (selection : DeferredSelection)
  | OpCheckpoint (active : activeTurns) (lease : Lease) (ms : list MessageInput)
                 (es : list EventInput)
  | OpAppendChild (sid run : uuid) (inputs : list AgentRunMessageInput)
  | OpReport (sid child event : uuid) (at_ : Z) (text : bytes)
  | OpBroadcast (drawn : uuid → uuid) (notice : SessionNotice) (text : bytes).

Definition applyInbox (c : call) (o : inbox_op) (d : db) : db :=
  match o with
  | OpAccept active E lease input =>
      (AcceptExecutionMessage maxStoredMessageBytes Sum256 c active E lease input d).1
  | OpDefer active E lease input =>
      (DeferExecutionMessage maxStoredMessageBytes Sum256 c active E lease input d).1
  | OpAcceptChild noticeID sid E input =>
      (AcceptChildExecutionMessage maxStoredMessageBytes Sum256 c noticeID sid E input d).1
  | OpDeliver active sid input =>
      (DeliverExecutionMessages maxStoredMessageBytes Sum256 c active sid input d).1
  | OpDeliverChild sid lease ids => (DeliverChildExecutionMessages Sum256 c sid lease ids d).1
  | OpCreateDeferred sid input inboxID =>
      (CreateDeferredExecution maxExecutionStateBytes maxStoredMessageBytes Sum256 c sid input
         inboxID d).1
  | OpResumeSelected sid E input selection =>
      (ResumeSelectedFromActivity Sum256 c sid E input selection d).1
  | OpCheckpoint active lease ms es =>
      (AppendCheckpoint maxStoredMessageBytes Sum256 c active lease ms es d).1
  | OpAppendChild sid run inputs => (AppendAgentRunMessages Sum256 c sid run inputs d).1
  | OpReport sid child event at_ text =>
      (transaction (e ← findExecution sid child; recordExecutionChildReport c e event at_ text) d).1
  | OpBroadcast drawn notice text =>
      (transaction (broadcastNoticeToChildren c drawn notice text) d).1
  end.

(** The other components append events to executions and change the other
    tables, the inbox excepted. *)
Inductive istep : db → db → Prop :=
  | istep_execution c o d :
      istep d (apply maxExecutionStateBytes maxStoredMessageBytes Sum256 marshalResolution
                 finishDecisionHash c o d)
  | istep_inbox c o d : istep d (applyInbox c o d)
  | istep_event c sid id kind p d :
      istep d (transaction (e ← findExecution sid id; appendExecutionEvent c e kind p) d).1
  | istep_others o d : inbox o = inbox (others d) →
      istep d (mkDb (executions d) (activities d) (events d) o).

Inductive ireachable : db → Prop :=
  | ireachable_empty o : inbox o = ∅ → ireachable (mkDb ∅ ∅ [] o)
  | ireachable_step d d' : ireachable d → istep d d' → ireachable d'.

Lemma resumeDeferred_keeps c sid E caller input request inspected d u d' :
  inbox_inv d → resumeDeferredInput Sum256 c sid E caller input request inspected d = Ok (u, d') →
  keeps d d'.
Proof.
  intros Hi H2. unfold resumeDeferredInput in H2.
  apply tx_bind_Ok in H2 as (t & d1 & Hf & H2). apply findExecution_Ok in Hf as (_ & _ & ->).
  apply tx_bind_Ok in H2 as (? & d1 & Hg & H2). apply refuseIf_Ok in Hg as [_ ->].
  apply tx_bind_Ok in H2 as (? & d1 & Hg & H2). apply watermark_reads in Hg as ->.
  apply tx_bind_Ok in H2 as (m & d1 & Hm & H2). apply reads_Ok in Hm as [Hm ->].
  destruct (filter _ (inboxRows d)) as [|row l] eqn:El; [done|]. injection Hm as <-.
  assert (Hx : row ∈ inboxRows d).
  { assert (row ∈ row :: l) as Hxl by left. rewrite <- El in Hxl. by apply list_elem_of_filter in Hxl as [_ ?]. }
  apply elem_of_inboxRows in Hx as [i Hx]. destruct (ii_row _ Hi _ _ Hx) as (<- & _ & _).
  apply tx_bind_Ok in H2 as (? & d1 & Hg & H2). apply refuseIf_Ok in Hg as [Hg ->].
  apply orb_false_iff in Hg as [Hg _]. apply orb_false_iff in Hg as [Hdef%negb_false_iff%bool_decide_eq_true _].
  apply tx_bind_Ok in H2 as (s & d1 & Hs & H2). unfold findSessionWithQuery in Hs.
  apply reads_Ok in Hs as [_ ->].
  apply tx_bind_Ok in H2 as (? & d1 & Ht & H2).
  assert (Ha : apart d d1).
  { unfold reopenDeferredTurn in Ht. apply tx_bind_Ok in Ht as (o & d2 & Ho & Ht).
    apply orAbsent_Ok in Ho. unfold findTurn in Ho.
    assert (d2 = d) as -> by (destruct o; [by apply reads_Ok in Ho as [_ ->]|by destruct Ho]).
    destruct o; [|by injection Ht as _ <-]. eapply ensures_bind in Ht; [done|apply _|..]; calm_steps. }
  pose proof (keeps_apart _ _ Hi Ha) as K1.
  apply tx_bind_Ok in H2 as (? & d2 & Hu & H2).
  apply update_inv in Hu as (K2 & _); [|apply K1|].
  - eapply keeps_trans; [done|]. eapply keeps_trans; [done|]. apply keeps_calm; [apply K2|].
    unfold recordDeferredResume in H2. eapply ensures_bind in H2; [done|apply _|..]; calm_steps.
  - intros y Hy _. destruct Ha as [_ Ei]. rewrite Ei in Hy. assert (y = row) as -> by congruence.
    split; [by destruct row|]. rewrite Hdef. destruct row; simpl in *. by rewrite Hdef.
Qed.

Lemma delivery_NoDup a ids u : validateInboxDeliveryIDs a ids = Ok u → NoDup ids.
Proof.
  unfold validateInboxDeliveryIDs. intros H2. apply bind_Ok_inv in H2 as (saved & _ & H2).
  case_if; [done|]. case_bool_decide as Hn; [|done]. by destruct Hn.
Qed.

Lemma deliver_sound c sid input d r d' :
  inbox_inv d → deliverExecutionMessages maxStoredMessageBytes Sum256 c sid input d = Ok (r, d') →
  keeps d d'.
Proof.
  intros Hi H2. unfold deliverExecutionMessages in H2.
  apply tx_bind_Ok in H2 as ([a e] & d1 & Hl & H2). apply leased_held in Hl as (-> & _); [|done].
  apply tx_bind_Ok in H2 as (? & d1 & Hg & H2). apply refuseIf_Ok in Hg as [_ ->].
  apply tx_bind_Ok in H2 as (? & d1 & Hg & H2). apply check_Ok in Hg as [Hv%delivery_NoDup ->].
  apply tx_bind_Ok in H2 as (t & d1 & Hg & H2). unfold findRunningTurn in Hg. apply reads_Ok in Hg as [_ ->].
  apply tx_bind_Ok in H2 as (out & d1 & Hd & H2).
  apply deliverRows_Ok in Hd as (rows & (K & _) & _); [|done..].
  apply tx_bind_Ok in H2 as (res & d2 & Ht & H2). injection H2 as <- <-.
  eapply keeps_trans; [done|]. apply keeps_apart; [apply K|]. by eapply apart_appendTranscript.
Qed.

Lemma deliverChild_sound c sid lease ids d r d' :
  inbox_inv d → deliverChildInboxMessages Sum256 c sid lease ids d = Ok (r, d') → keeps d d'.
Proof.
  intros Hi H2. unfold deliverChildInboxMessages in H2.
  apply tx_bind_Ok in H2 as ([a e] & d1 & Hl & H2). apply leased_held in Hl as (-> & _); [|done].
  apply tx_bind_Ok in H2 as (? & d1 & Hg & H2). apply refuseIf_Ok in Hg as [_ ->].
  apply tx_bind_Ok in H2 as (? & d1 & Hg & H2). apply check_Ok in Hg as [Hv%delivery_NoDup ->].
  apply tx_bind_Ok in H2 as (out & d1 & Hd & H2). injection H2 as <- <-.
  apply deliverChildRows_Ok in Hd as (rows & (K & _) & _); done.
Qed.

Lemma lease_sound {A} active lease (m : tx A) d :
  inbox_inv d → (∀ a d', m d = Ok (a, d') → sound d d') → sound d (underLease active lease m d).1.
Proof.
  intros Hi Hm. unfold underLease. destruct (holdLease active lease); [|by apply sound_calm..].
  by apply transaction_sound.
Qed.

Lemma accept_sound c active E lease input state d :
  inbox_inv d →
  sound d (acceptExecutionInbox maxStoredMessageBytes Sum256 c active E lease input state d).1.
Proof.
  intros Hi. unfold acceptExecutionInbox.
  apply (guarded_sound _ (λ encoded, underLease _ _ _)); [done|]. intros encoded _.
  apply lease_sound; [done|]. intros r d' H2.
  apply accept_Ok in H2 as [(-> & _)|[(K & _) _]]; [by apply sound_calm|by apply keeps_sound|done].
Qed.

Lemma inbox_sound c o d : inbox_inv d → sound d (applyInbox c o d).
Proof.
  intros Hi. destruct o; simpl.
  - by apply accept_sound.
  - by apply accept_sound.
  - apply (guarded_sound _ (λ encoded, transaction _)); [done|]. intros encoded _.
    apply transaction_sound; [done|]. intros r d' H2. apply keeps_sound.
    by apply acceptChild_Ok in H2 as [K _].
  - unfold DeliverExecutionMessages. case_if; [by apply sound_calm|].
    apply lease_sound; [done|]. intros r d' H2. apply keeps_sound. by eapply deliver_sound.
  - apply transaction_sound; [done|]. intros r d' H2. apply keeps_sound. by eapply deliverChild_sound.
  - apply (guarded_sound _ (λ _, transaction _)); [done|]. intros _ _.
    apply transaction_sound; [done|]. intros r d' H2. apply keeps_sound. by apply createDeferred_Ok in H2 as [K _].
  - unfold ResumeSelectedFromActivity.
    apply (guarded_sound _ (λ _ d, match ds_DeferredRequestID selection, ds_DeferredStopRevision selection
      with Some _, Some _ => _ | _, _ => _ end)); [done|]. intros _ _.
    assert (Hplain : sound d (ResumeExecutionFromActivity c sid E input d).1).
    { apply calm_sound; [done|]. apply ensures_bind; [apply _|apply calm_authorize|]. calm_steps. }
    destruct (ds_DeferredRequestID selection) as [request|], (ds_DeferredStopRevision selection) as [rev|];
      [|done..].
    apply transaction_sound; [done|]. intros r d' H2.
    apply tx_bind_Ok in H2 as (src & d1 & Hs & H2). apply calm_authorize in Hs.
    pose proof (keeps_calm _ _ Hi Hs) as K1.
    apply tx_bind_Ok in H2 as (? & d2 & Hr & H2). injection H2 as <- <-.
    apply resumeDeferred_keeps in Hr as K2; [|apply K1]. apply keeps_sound. by eapply keeps_trans.
  - unfold AppendCheckpoint. apply lease_sound; [done|]. intros r d' H2.
    apply tx_bind_Ok in H2 as (res & d1 & Ht & H2). injection H2 as <- <-.
    apply keeps_sound, keeps_apart; [done|]. by eapply apart_appendTranscript.
  - unfold AppendAgentRunMessages. case_if; [by apply sound_calm|].
    apply (guarded_sound _ (λ _, transaction _)); [done|]. intros _ _.
    apply transaction_sound; [done|]. intros r d' H2. apply keeps_sound, keeps_apart; [done|].
    by eapply apart_childMessages.
  - apply transaction_sound; [done|]. intros r d' H2.
    apply tx_bind_Ok in H2 as (x & d1 & Hf & H2). apply findExecution_Ok in Hf as (_ & _ & ->).
    apply keeps_sound. by eapply report_keeps.
  - apply transaction_sound; [done|]. intros r d' H2. apply keeps_sound. by eapply broadcast_keeps.
Qed.

Lemma istep_sound d d' : inbox_inv d → istep d d' → sound d d'.
Proof.
  intros Hi Hs. destruct Hs as [c o d|c o d|c sid id kind p d|o d Ho].
  - by apply execution_sound.
  - by apply inbox_sound.
  - apply calm_sound; [done|]. calm_steps.
  - apply keeps_sound, keeps_apart; [done|]. by split.
Qed.

Lemma inbox_inv_empty o : inbox o = ∅ → inbox_inv (mkDb ∅ ∅ [] o).
Proof. intros E. split; unfold keyed, settledInbox; simpl; rewrite ?E; intros *; rewrite lookup_empty; done. Qed.

Lemma ireachable_inv d : ireachable d → inbox_inv d.
Proof.
  induction 1 as [o E|d d' _ IH Hs]; [by apply inbox_inv_empty|]. by destruct (istep_sound d d' IH Hs).
Qed.

Lemma isteps_evolve d d' : inbox_inv d → rtc istep d d' → sound d d'.
Proof.
  intros Hi Hs. revert Hi. induction Hs as [d|d d1 d2 Hs _ IH]; intros Hi; [by apply sound_calm|].
  pose proof (istep_sound _ _ Hi Hs) as S1. eapply sound_trans; [done|]. apply IH, S1.
Qed.

End store.

End InboxTheorems.
