(* ===== verification/StoreSteps.v ===== *)
(** What every operation of the store keeps.  A relation between the state before
    and the state after that holds of the few statements the operations are made
    of holds of every operation: the numbering of transcripts and the feed are
    two of them. *)
From stdpp Require Import base gmap sets list list_numbers strings sorting.
From Stdlib Require Import ZArith Lia Ascii Sorted.
From S2P Require Import Prelude GoBytes Json Executions ExecutionControl Activities ExecutionSteps TxRules Transcripts TranscriptRules Inbox Deferral InboxRules InboxSteps InboxTheorems.

Module StoreSteps.
Import Executions ExecutionControl Activities ExecutionSteps TxRules Transcripts Inbox Deferral InboxRules InboxSteps InboxTheorems.

(** The statements of executions, of the inbox and of transcripts. *)
Class Kept (R : relation db) := {
  kept_refl :: Reflexive R;
  kept_trans :: Transitive R;
  kept_calm d d' : calm d d' → R d d';
  kept_updateExecution e f : ensures R (updateExecution e f);
  kept_updateInbox sid i f : ensures R (updateInbox sid i f);
  kept_createInbox m : ensures R (createInboxMessage m);
  kept_storeImages p : ensures R (storeImages p);
  kept_changeAgentRun sid id f d :
    (∀ r, agentRuns (others d) !! id = Some r → ar_SessionID r = sid → runKept r (f r)) →
    R d (setAgentRuns (updateRow ar_SessionID sid id f) d);
  kept_updateTurn sid id f d :
    (∀ t, turns (others d) !! id = Some t → tu_SessionID t = sid →
       tu_State t ≠ TurnStateCompleted ∨ columnsOf (f t) = columnsOf t) →
    R d (setOthers (λ o, withTurns (updateRow tu_SessionID sid id f (turns o)) o) d);
  kept_createRunMessage m : ensures R (createRunMessage m);
  kept_append `{ImageCodec} maxStoredMessageBytes Sum256 c lease ms es :
    ensures R (appendTranscript maxStoredMessageBytes Sum256 c lease ms es) }.

Section kept.
Context `{ImageCodec, InboxCodec} (R : relation db) {HR : Kept R}.
Variables maxExecutionStateBytes maxStoredMessageBytes : Z.
Variable Sum256 : bytes → bytes.
Variable marshalResolution : ResolveActivityInput → bytes.
Variable finishDecisionHash : CompleteActivityInput → bytes.

Lemma kept_quietly {A} (m : tx A) : ensures calm m → ensures R m.
Proof. apply ensures_weaken. intros d d'. apply kept_calm. Qed.

(** A change of a run that leaves its outcome alone. *)
Lemma kept_updateAgentRun sid id f :
  (∀ r, runKept r (f r)) → ensures R (updateAgentRun sid id f).
Proof. intros Hf d u d' [= _ <-]. by apply kept_changeAgentRun. Qed.

(** A row that is known to be there. *)
Lemma kept_setRun id row row' d :
  agentRuns (others d) !! id = Some row → runKept row row' → R d (setAgentRuns <[id := row']> d).
Proof.
  intros Hrow Hk. pose proof (kept_changeAgentRun (ar_SessionID row) id (λ _, row') d) as H1.
  unfold setAgentRuns, updateRow in *. rewrite Hrow, bool_decide_eq_true_2 in H1 by done.
  apply H1. intros r Hr _. by simplify_eq.
Qed.

Lemma runKept_unsettled r r' : runSettled (ar_State r) = false → runKept r r'.
Proof. unfold runKept. congruence. Qed.

Lemma runKept_directory dir prompt r : runKept r (withDirectory dir prompt r).
Proof. by destruct r. Qed.

Lemma kept_orAbsent {A} (m : tx A) : ensures R m → ensures R (orAbsent m).
Proof.
  intros Hm d o d' E. apply orAbsent_Ok in E.
  destruct o; [by eapply Hm|destruct E as [-> _]; reflexivity].
Qed.
#[local] Hint Resolve runKept_directory kept_updateInbox kept_createInbox kept_storeImages kept_updateAgentRun
  kept_createRunMessage kept_append kept_orAbsent : calm.
#[local] Hint Extern 2 (ensures R (appendExecutionEvent _ _ _ _)) =>
  apply kept_quietly, calm_append : calm.
#[local] Hint Extern 2 (ensures R (findExecution _ _)) => apply kept_quietly, calm_find : calm.
#[local] Hint Extern 2 (ensures R (changeExecutionSubtree _ _ _ _ _)) =>
  apply kept_quietly, calm_subtree : calm.
#[local] Hint Extern 2 (ensures R (activityForLease _ _)) => apply kept_quietly, calm_leased : calm.
#[local] Hint Extern 2 (ensures R (completedHookInboxWatermark _ _)) =>
  apply kept_quietly, calm_watermark : calm.
#[local] Hint Extern 2 (ensures R (findInboxRequest _ _)) => apply ensures_reads, _ : calm.

Lemma kept_images images stored : ensures R (transcriptImagesJSON Sum256 images stored).
Proof. unfold transcriptImagesJSON, encodeMessageImages. calm_steps. Qed.
#[local] Hint Resolve kept_images : calm.

Lemma kept_childMessages c sid run inputs :
  ensures R (createAgentRunMessages Sum256 c sid run inputs).
Proof.
  unfold createAgentRunMessages, findAgentRun. calm_steps.
  match goal with |- ensures _ (createRunMessages _ _ _ _ ?n _) => generalize n end.
  induction inputs as [|input inputs IH]; intros n; simpl; calm_steps.
Qed.

Lemma kept_insertChild c e input encoded :
  ensures R (insertChildInboxMessage c e input encoded).
Proof.
  unfold insertChildInboxMessage, nextInboxSequence, saveInboxMessage, recordChildInboxAcceptance,
    deref. calm_steps.
Qed.
#[local] Hint Resolve kept_childMessages kept_insertChild : calm.

Lemma kept_deliverRow c e a row root : ensures R (deliverInboxRow c e a row root).
Proof. unfold deliverInboxRow. calm_steps. Qed.
#[local] Hint Resolve kept_deliverRow : calm.

Lemma kept_deliverRows c sid e a root ids :
  ensures R (deliverInboxRows c sid e a root ids).
Proof. induction ids as [|id ids IH]; simpl; calm_steps. Qed.
#[local] Hint Resolve kept_deliverRows : calm.

Lemma kept_deliverChildRows c sid e a ids :
  ensures R (deliverChildRows Sum256 c sid e a ids).
Proof.
  revert e. induction ids as [|id ids IH]; intros e; simpl; [calm_steps|].
  unfold deliverChildInboxRow, recordChildInboxDelivery. calm_steps.
Qed.
#[local] Hint Resolve kept_deliverChildRows : calm.

Lemma kept_accept c E lease input encoded state :
  ensures R (acceptExecutionMessage maxStoredMessageBytes Sum256 c E lease input encoded state).
Proof.
  unfold acceptExecutionMessage, validateInboxAdmission, validateDeferredBoundary,
    readExecutionCompletionSeal, insertInboxMessage, admissionStopRevision, findSessionWithQuery,
    nextInboxSequence, saveInboxMessage, inboxAcceptanceEvents, findRunningTurn.
  calm_steps.
Qed.

Lemma kept_acceptChild c noticeID sid E input encoded :
  ensures R (acceptChildInboxMessage c noticeID sid E input encoded).
Proof. unfold acceptChildInboxMessage, resumeChildWithMessage. calm_steps. Qed.

Lemma kept_report c child ev at_ text :
  ensures R (recordExecutionChildReport c child ev at_ text).
Proof.
  unfold recordExecutionChildReport, nextInboxSequence, recordChildReportEvent, deref. calm_steps.
Qed.

Lemma kept_broadcast c drawn notice text :
  ensures R (broadcastNoticeToChildren c drawn notice text).
Proof.
  unfold broadcastNoticeToChildren. calm_steps.
  match goal with |- ensures _ (queueChildNotices _ _ _ _ ?l) => induction l as [|e l IH] end;
    simpl; [calm_steps|].
  unfold queueChildNotice, nextInboxSequence, recordChildInboxAcceptance, deref. calm_steps.
Qed.

Lemma kept_bind c target inboxID : ensures R (bindDeferredExecution Sum256 c target inboxID).
Proof.
  unfold bindDeferredExecution, findInboxRow, validateDeferredTarget, findTurn,
    forwardExecutionMessage. calm_steps.
Qed.
#[local] Hint Resolve kept_accept kept_acceptChild kept_report kept_broadcast
  kept_bind : calm.

Lemma kept_createDeferred c sid input inboxID :
  ensures R (createDeferredExecution Sum256 c sid input inboxID).
Proof.
  intros d e d' H2. unfold createDeferredExecution in H2.
  destruct (findExecution sid (ci_ID input) d) as [[old d1]|[]| |] eqn:Hf; try done.
  - apply findExecution_Ok in Hf as (_ & _ & ->). case_if; [|done].
    eapply ensures_bind in H2; [done|apply _|..]; calm_steps.
  - apply tx_bind_Ok in H2 as (e1 & d1 & Hr & H2).
    apply executionRecord_Ok in Hr as (-> & _ & _ & _ & Ht).
    apply tx_bind_Ok in H2 as (v & d1 & Hins & H2).
    apply calm_insertExecution in Hins; [|by apply not_terminal_not_completed].
    etrans; [by apply kept_calm|].
    eapply ensures_bind in H2; [done|apply _|calm_steps|].
    intros _. apply kept_quietly, calm_recordCreation.
Qed.

(** A turn that completed is not reopened. *)
Lemma kept_reopen message revision : ensures R (reopenDeferredTurn message revision).
Proof.
  intros d u d' E. unfold reopenDeferredTurn in E. apply tx_bind_Ok in E as (found & d1 & Hf & E).
  apply orAbsent_Ok in Hf. unfold findTurn in Hf.
  assert (d1 = d) as -> by (destruct found; [by apply reads_Ok in Hf as [_ ->]|by destruct Hf]).
  destruct found as [turn|]; [|injection E as _ <-; reflexivity].
  apply reads_Ok in Hf as [Hf _]. apply firstRow_Ok in Hf as [Ht _].
  apply tx_bind_Ok in E as (v & d1 & Hg & E). apply refuseIf_Ok in Hg as [Hg ->].
  injection E as _ <-. apply kept_updateTurn. intros t Ht' _. left.
  rewrite Ht in Ht'. injection Ht' as <-.
  apply orb_false_iff in Hg as [_ Hg]. by apply bool_decide_eq_false in Hg.
Qed.
#[local] Hint Resolve kept_reopen : calm.

Lemma kept_resume c sid E caller input request inspected :
  ensures R (resumeDeferredInput Sum256 c sid E caller input request inspected).
Proof.
  unfold resumeDeferredInput, findSessionWithQuery, recordDeferredResume.
  calm_steps.
Qed.

(** ** Steps *)

Lemma kept_transaction {A} (m : tx A) d : ensures R m → R d (transaction m d).1.
Proof. apply ensures_transaction. apply _. Qed.

Lemma kept_lease {A} active lease (m : tx A) d :
  ensures R m → R d (underLease active lease m d).1.
Proof.
  intros Hm. unfold underLease. destruct (holdLease active lease); [|done..].
  by apply kept_transaction.
Qed.

Lemma kept_guarded {A B} (o : outcome B) (m : B → db → db * outcome A) d :
  (∀ b, R d (m b d).1) →
  R d (match o with
              | Ok b => m b d | Err e => (d, Err e) | Panic => (d, Panic)
              | OutOfFuel => (d, OutOfFuel)
              end).1.
Proof. intros Hm. destruct o; simpl; [by apply Hm|done..]. Qed.

(** Completing an activity writes executions, activities and events only. *)
Lemma kept_finish c e input : ensures R (finishExecution Sum256 c e input).
Proof.
  unfold finishExecution, requireSettledExecutionActivities.
  destruct (co_Finish input); [|apply ensures_ret, _].
  apply ensures_bind; [apply _|apply ensures_reads, _|intros _].
  apply ensures_bind; [apply _| |intros _].
  { intros d u d' E. by rewrite (settledInbox_Ok _ _ _ _ _ _ E). }
  apply ensures_bind; [apply _|apply kept_updateExecution|intros _].
  apply ensures_bind; [apply _|apply kept_quietly, calm_append|].
  intros _. apply ensures_ret, _.
Qed.

Lemma kept_complete c sid lease input :
  ensures R (completeActivity Sum256 finishDecisionHash c sid lease input).
Proof.
  unfold completeActivity. apply ensures_bind; [apply _|apply kept_quietly, calm_leased|intros [b e]].
  case_bool_decide; [apply ensures_reads, _|].
  do 3 (apply ensures_bind; [apply _|apply ensures_reads, _ || apply kept_quietly|intros _]).
  { intros d u d' ->%holder_Ok. done. }
  apply ensures_bind; [apply _|apply kept_quietly, calm_saveResult|intros a].
  apply ensures_bind; [apply _|apply kept_quietly, calm_append|intros e1 d x d' E].
  unfold finishActivityCompletion in E.
  destruct (finishExecution Sum256 c e1 input d) as [[[] d3]|[]| |] eqn:Hfin; try done.
  - apply kept_finish in Hfin. case_bool_decide; [by injection E as <- <-|].
    etrans; [exact Hfin|]. revert E. apply kept_quietly. unfold saveFinishDecision. calm_steps.
  - case_bool_decide; [done|]. revert E. apply kept_quietly. unfold savePendingFinishDecision, saveFinishDecision.
    apply ensures_bind; [apply _|apply calm_saveResult|]. calm_steps.
Qed.

Lemma execution_kept c o d :
  R d (apply maxExecutionStateBytes maxStoredMessageBytes Sum256 marshalResolution
                finishDecisionHash c o d).
Proof.
  destruct o as [| |sid lease input| | | | | | | | | |]; cycle 2;
    [|apply kept_calm; by apply execution_calm..].
  apply (kept_guarded _ (λ _, transaction _)). intros _. apply kept_transaction.
  apply kept_complete.
Qed.

Lemma inbox_kept c o d :
  R d (applyInbox maxExecutionStateBytes maxStoredMessageBytes Sum256 c o d).
Proof.
  destruct o; simpl.
  - apply (kept_guarded _ (λ encoded, underLease _ _ _)). intros encoded. apply kept_lease, kept_accept.
  - apply (kept_guarded _ (λ encoded, underLease _ _ _)). intros encoded. apply kept_lease, kept_accept.
  - apply (kept_guarded _ (λ encoded, transaction _)). intros encoded.
    apply kept_transaction, kept_acceptChild.
  - unfold DeliverExecutionMessages. case_if; [done|]. apply kept_lease.
    unfold deliverExecutionMessages, findRunningTurn. calm_steps.
  - apply kept_transaction. unfold deliverChildInboxMessages. calm_steps.
  - apply (kept_guarded _ (λ _, transaction _)). intros _. apply kept_transaction, kept_createDeferred.
  - unfold ResumeSelectedFromActivity.
    apply (kept_guarded _ (λ _ d, match ds_DeferredRequestID selection, ds_DeferredStopRevision selection
      with Some _, Some _ => _ | _, _ => _ end)). intros _.
    assert (Hplain : R d (ResumeExecutionFromActivity c sid E input d).1).
    { apply kept_transaction, kept_quietly, ensures_bind; [apply _|apply calm_authorize|]. calm_steps. }
    destruct (ds_DeferredRequestID selection) as [request|], (ds_DeferredStopRevision selection) as [rev|];
      [|done..].
    apply kept_transaction, ensures_bind; [apply _|apply kept_quietly, calm_authorize|intros e].
    apply ensures_bind; [apply _|apply kept_resume|]. calm_steps.
  - apply kept_lease. calm_steps.
  - unfold AppendAgentRunMessages. case_if; [done|].
    apply (kept_guarded _ (λ _, transaction _)). intros _. apply kept_transaction, kept_childMessages.
  - apply kept_transaction. apply ensures_bind; [apply _|calm_steps|]. intros e. apply kept_report.
  - apply kept_transaction, kept_broadcast.
Qed.

End kept.

End StoreSteps.
