(* ===== verification/TextSteps.v ===== *)
(** Transcripts under every operation: executions and inbox operations never
    touch the numbering of messages and feed events but by appending. *)
From stdpp Require Import base gmap sets list list_numbers strings sorting.
From Stdlib Require Import ZArith Lia Ascii Sorted.
From S2P Require Import Prelude GoBytes Json Executions ExecutionControl Activities ExecutionSteps TxRules Transcripts TranscriptRules Inbox Deferral InboxRules InboxSteps InboxTheorems StoreSteps.

Module TextSteps.
Import Executions ExecutionControl Activities ExecutionSteps TxRules Transcripts TranscriptRules Inbox Deferral InboxRules InboxSteps InboxTheorems StoreSteps.

(** Whatever holds of the numbering before holds after. *)
Definition textKept (d d' : db) : Prop := text_inv d → text_inv d'.

#[export] Instance textKept_refl : Reflexive textKept.
Proof. intros d Hi. exact Hi. Qed.
#[export] Instance textKept_trans : Transitive textKept.
Proof. intros a b c Hab Hbc Hi. apply Hbc, Hab, Hi. Qed.

Lemma textKept_same d d' : sameText d d' → textKept d d'.
Proof. intros E Hi. by eapply text_inv_same. Qed.

Lemma textKept_updateInbox sid i f : ensures textKept (updateInbox sid i f).
Proof.
  intros d u d' H. apply textKept_same. unfold updateInbox in H. repeat case_match; simplify_eq; done.
Qed.

Lemma textKept_createInbox m : ensures textKept (createInboxMessage m).
Proof.
  intros d u d' H. apply textKept_same. unfold createInboxMessage in H.
  case_if; [done|]. case_bool_decide; [done|]. by injection H as <- <-.
Qed.

Lemma textKept_storeImages p : ensures textKept (storeImages p).
Proof. intros d u d' [= <- <-]. by apply textKept_same. Qed.

Lemma textKept_createRunMessage m : ensures textKept (createRunMessage m).
Proof.
  intros d u d' H. apply textKept_same. unfold createRunMessage in H.
  case_if; [done|]. case_bool_decide; [done|]. by injection H as <- <-.
Qed.

Lemma textKept_append `{ImageCodec} maxStoredMessageBytes Sum256 c lease ms es :
  ensures textKept (appendTranscript maxStoredMessageBytes Sum256 c lease ms es).
Proof. intros d r d' E Hi. by eapply text_inv_appendTranscript. Qed.

#[export] Instance textKept_kept : Kept textKept.
Proof.
  split; try apply _.
  - intros d d' Hc. by apply textKept_same, calm_sameText.
  - intros e f d u d' [= <- <-]. by apply textKept_same.
  - apply textKept_updateInbox.
  - apply textKept_createInbox.
  - apply textKept_storeImages.
  - intros. by apply textKept_same.
  - intros. by apply textKept_same.
  - apply textKept_createRunMessage.
  - apply @textKept_append.
Qed.

Section store.
Variables maxExecutionStateBytes maxStoredMessageBytes : Z.
Variable Sum256 : bytes → bytes.
Variable marshalResolution : ResolveActivityInput → bytes.
Variable finishDecisionHash : CompleteActivityInput → bytes.
Context `{ImageCodec, InboxCodec}.

(** ** Reachable transcripts *)

(** What the rest of the program does to the transcript of a session: it may
    edit rows and take feed numbers for the rows of other tables, or delete
    the session with all its rows. *)
Definition renumbered (d d' : db) (sid : uuid) : Prop :=
  (ms_Sequence <$> messagesOf sid d' = ms_Sequence <$> messagesOf sid d ∧
   messageCount sid d' = messageCount sid d ∧
   fe_Sequence <$> eventsOf sid d' = fe_Sequence <$> eventsOf sid d ∧
   fe_FeedSequence <$> eventsOf sid d' = fe_FeedSequence <$> eventsOf sid d ∧
   (feedHead sid d ≤ feedHead sid d' ≤ max_int64)%Z) ∨
  (messagesOf sid d' = [] ∧ eventsOf sid d' = [] ∧ sessions (others d') !! sid = None).

Inductive tstep : db → db → Prop :=
  | tstep_execution c o d :
      tstep d (apply maxExecutionStateBytes maxStoredMessageBytes Sum256 marshalResolution
                 finishDecisionHash c o d)
  | tstep_inbox c o d :
      tstep d (applyInbox maxExecutionStateBytes maxStoredMessageBytes Sum256 c o d)
  | tstep_event c sid id kind p d :
      tstep d (transaction (e ← findExecution sid id; appendExecutionEvent c e kind p) d).1
  | tstep_transcript c lease ms es d :
      tstep d (transaction (appendTranscript maxStoredMessageBytes Sum256 c lease ms es) d).1
  | tstep_others o d :
      (∀ sid, renumbered d (mkDb (executions d) (activities d) (events d) o) sid) →
      tstep d (mkDb (executions d) (activities d) (events d) o).

(** A new store has no sessions. *)
Inductive treachable : db → Prop :=
  | treachable_empty : treachable (mkDb ∅ ∅ [] noOthers)
  | treachable_step d d' : treachable d → tstep d d' → treachable d'.

Lemma text_renumbered d d' : (∀ sid, renumbered d d' sid) → textKept d d'.
Proof.
  intros Hall [[Hc Hm] [Hh He Hl Hs Hr]].
  assert (Hlen : ∀ sid, fe_Sequence <$> eventsOf sid d' = fe_Sequence <$> eventsOf sid d →
    length (eventsOf sid d') = length (eventsOf sid d)).
  { intros sid E. apply (f_equal length) in E. by rewrite !length_fmap in E. }
  split; split; intros sid; destruct (Hall sid) as [(E1 & E2 & E3 & E4 & E5)|(E1 & E2 & E3)].
  - by rewrite E2.
  - unfold messageCount. rewrite E3. done.
  - by rewrite E1, E2.
  - rewrite E1. unfold messageCount. by rewrite E3.
  - specialize (Hh sid). lia.
  - unfold feedHead. by rewrite E3.
  - by rewrite E3, (Hlen sid E3).
  - by rewrite E2.
  - by rewrite (Hlen sid E3).
  - by rewrite E2.
  - by rewrite E4.
  - rewrite E2. constructor.
  - intros e Hin. assert (Hf : fe_FeedSequence e ∈ fe_FeedSequence <$> eventsOf sid d).
    { rewrite <- E4. apply list_elem_of_fmap. eauto. }
    apply list_elem_of_fmap in Hf as (e0 & -> & Hin0). specialize (Hr sid e0 Hin0). lia.
  - rewrite E2. intros e ?%not_elem_of_nil. done.
Qed.

Lemma tstep_text d d' : tstep d d' → textKept d d'.
Proof.
  intros Hs. destruct Hs as [c o d|c o d|c sid id kind p d|c lease ms es d|o d Ho].
  - by apply execution_kept, _.
  - by apply inbox_kept, _.
  - apply ensures_transaction; [apply _|]. apply kept_quietly; [apply _|]. calm_steps.
  - apply ensures_transaction, textKept_append; apply _.
  - by apply text_renumbered.
Qed.

Lemma treachable_inv d : treachable d → text_inv d.
Proof.
  induction 1 as [|d d' _ IH Hs]; [|by eapply tstep_text].
  split; split; intros sid; unfold messageCount, feedHead, messagesOf, eventsOf; simpl;
    rewrite ?lookup_empty; try done; [constructor|by intros e ?%not_elem_of_nil].
Qed.

End store.

End TextSteps.
