(* ===== verification/DeliverySteps.v ===== *)
(** A delivery and its repetition: the tables a delivery leaves alone, the rows
    it leaves delivered, and what the same request finds in a later state. *)
From stdpp Require Import base gmap sets list strings sorting.
From Stdlib Require Import ZArith Lia Ascii.
From S2P Require Import Prelude GoBytes Executions ExecutionControl Activities ExecutionSteps TxRules Transcripts TranscriptRules Inbox Deferral InboxRules InboxSteps InboxTheorems.

Module DeliverySteps.
Import Executions ExecutionControl Activities ExecutionSteps TxRules Transcripts TranscriptRules Inbox Deferral InboxRules InboxSteps InboxTheorems.

Lemma underLease_Ok {A} active lease (m : tx A) d a d' :
  underLease active lease m d = (d', Ok a) →
  hasLeaseLocked active lease = true ∧ m d = Ok (a, d').
Proof.
  unfold underLease, holdLease, transaction. destruct (hasLeaseLocked active lease); [|done].
  destruct (m d) as [[]| | |]; naive_solver congruence.
Qed.

(** What a delivery reads and does not write. *)
Definition samePlace (d d' : db) : Prop :=
  executions d' = executions d ∧ activities d' = activities d ∧
  turns (others d') = turns (others d) ∧
  ∀ sid, is_Some (sessions (others d) !! sid) → is_Some (sessions (others d') !! sid).

#[export] Instance samePlace_refl : Reflexive samePlace.
Proof. done. Qed.
#[export] Instance samePlace_trans : Transitive samePlace.
Proof. intros a b c (? & ? & ? & ?) (? & ? & ? & ?). split_and!; try congruence. auto. Qed.

Lemma samePlace_updateInbox sid i f : ensures samePlace (updateInbox sid i f).
Proof. intros d u d' E. unfold updateInbox in E. repeat case_match; simplify_eq; done. Qed.

Lemma samePlace_updateSession sid f : ensures samePlace (updateSession sid f).
Proof.
  intros d u d' [= <- <-]. split_and!; try done. intros x Hx. simpl.
  destruct (decide (x = sid)) as [->|Hne]; [|by rewrite lookup_alter_ne].
  rewrite lookup_alter_eq. by apply fmap_is_Some.
Qed.

Lemma samePlace_storeImages p : ensures samePlace (storeImages p).
Proof. by intros d u d' [= <- <-]. Qed.

Lemma samePlace_createMessages rows : ensures samePlace (createMessages rows).
Proof.
  induction rows as [|m rows IH]; [apply ensures_ret, _|]. intros d u d' E. simpl in E.
  case_if; [done|]. case_bool_decide; [done|]. exact (IH _ _ _ E).
Qed.

Lemma samePlace_createEvents rows : ensures samePlace (createEvents rows).
Proof.
  induction rows as [|m rows IH]; [apply ensures_ret, _|]. intros d u d' E. simpl in E.
  case_if; [done|]. case_bool_decide; [done|]. exact (IH _ _ _ E).
Qed.
#[export] Hint Resolve samePlace_updateInbox samePlace_updateSession samePlace_storeImages
  samePlace_createMessages samePlace_createEvents : calm.

(** Reads of the tables that are the same. *)
Lemma leased_same sid lease d x d' d1 :
  samePlace d d1 → activityForLease sid lease d = Ok (x, d') →
  activityForLease sid lease d1 = Ok (x, d1).
Proof.
  intros (E1 & E2 & _). unfold activityForLease, findExecutionActivity, findExecution, refuseIf, check,
    reads, firstRow, mbind, tx_bind.
  destruct (_ || _); simpl; [done|]. rewrite E2.
  destruct (activities d !! _) as [a|]; simpl; [|done]. case_bool_decide; simpl; [|done].
  destruct (negb _); simpl; [done|]. destruct (negb _); simpl; [done|].
  rewrite E1. destruct (executions d !! _) as [e|]; simpl; [|done]. case_bool_decide; simpl; [|done].
  by intros [= <- <-].
Qed.

Lemma runningTurn_same lease d t d' d1 :
  samePlace d d1 → findRunningTurn lease d = Ok (t, d') → findRunningTurn lease d1 = Ok (t, d1).
Proof.
  unfold findRunningTurn. intros (_ & _ & E & _) [Ht ->]%reads_Ok. unfold reads. rewrite E.
  by rewrite Ht.
Qed.

(** Rows that were delivered by an activity. *)
Definition deliveredBy (sid E aid id : uuid) (d : db) : Prop :=
  ∃ i row, inbox (others d) !! i = Some row ∧ in_SessionID row = sid ∧ in_RequestID row = id ∧
    in_ExecutionID row = E ∧ in_State row = InboxMessageStateDelivered ∧
    in_DeliveredActivityID row = Some aid.

Lemma deliveredBy_later sid E aid id d d' :
  evolves d d' → deliveredBy sid E aid id d → deliveredBy sid E aid id d'.
Proof.
  intros [_ Hmsg] (i & row & Hrow & HS & HR & HE & Hd & Hby).
  destruct (Hmsg _ _ Hrow) as (row' & Hrow' & _ & Hl). rewrite Hd in Hl. subst row'.
  exists i, row. by split_and!.
Qed.

Lemma deliverAll_lookup aid at_ rows table row :
  NoDup (in_ID <$> rows) → row ∈ rows →
  deliverAll aid at_ rows table !! in_ID row = Some (deliveredRow aid at_ row).
Proof.
  revert table. induction rows as [|x rows IH]; intros table; cbn;
    [by intros _ ?%not_elem_of_nil|]. intros [Hx Hnd]%NoDup_cons [->|Hin]%elem_of_cons.
  - clear IH Hnd. set (t := <[in_ID x := _]> table).
    assert (Ht : t !! in_ID x = Some (deliveredRow aid at_ x)) by apply lookup_insert_eq.
    clearbody t. revert t Ht. induction rows as [|y rows IH]; intros t Ht; [done|]. cbn in *.
    apply not_elem_of_cons in Hx as [Hne Hx]. apply IH; [done|].
    rewrite lookup_insert_ne; [done|congruence].
  - by apply IH.
Qed.

Section store.
Variable maxStoredMessageBytes : Z.
Variable Sum256 : bytes → bytes.
Context `{ImageCodec, InboxCodec}.

Lemma samePlace_deliverRows c sid e a root ids : ensures samePlace (deliverInboxRows c sid e a root ids).
Proof.
  induction ids as [|id ids IH]; simpl; unfold deliverInboxRow, findInboxRequest; calm_steps.
Qed.

Lemma samePlace_appendTranscript c lease ms es :
  ensures samePlace (appendTranscript maxStoredMessageBytes Sum256 c lease ms es).
Proof.
  assert (Hnew : ∀ n i ws ms, ensures samePlace (newMessages maxStoredMessageBytes Sum256 c lease n i ws ms)).
  { intros n i ws l. revert i. induction l as [|m l IH]; intros i; simpl;
      unfold transcriptImagesJSON, encodeMessageImages; calm_steps. }
  unfold appendTranscript, appendMessages, appendEvents, allocateFeedSequences, findSessionWithQuery,
    findRunningTurn. calm_steps.
Qed.

(** Nothing appended is nothing changed. *)
Lemma appendTranscript_nothing c lease d :
  is_Some (sessions (others d) !! ls_SessionID lease) →
  (∃ t d', findRunningTurn lease d = Ok (t, d')) →
  ∃ r, appendTranscript maxStoredMessageBytes Sum256 c lease [] [] d = Ok (r, d).
Proof.
  intros [s Hs] (t & d' & Ht). assert (d' = d) as -> by (by unfold findRunningTurn in Ht; apply reads_Ok in Ht as [_ ->]).
  exists (mkAppend 0 0). unfold appendTranscript, findSessionWithQuery, reads, mbind, tx_bind.
  rewrite Hs. simpl. by rewrite Ht.
Qed.

Lemma appendTranscript_session c lease ms es d r d' :
  appendTranscript maxStoredMessageBytes Sum256 c lease ms es d = Ok (r, d') →
  is_Some (sessions (others d) !! ls_SessionID lease).
Proof.
  unfold appendTranscript, findSessionWithQuery. intros E2.
  apply tx_bind_Ok in E2 as (s & d1 & Hs & _). apply reads_Ok in Hs as [Hs _].
  by destruct (sessions (others d) !! ls_SessionID lease).
Qed.

(** Rows already delivered are passed over. *)
Lemma deliverRows_again c sid e a root ids d :
  inbox_inv d → Forall (λ id, deliveredBy sid (ex_ID e) (ac_ID a) id d) ids →
  deliverInboxRows c sid e a root ids d = Ok (([], []), d).
Proof.
  intros Hi Hall. induction Hall as [|id ids (i & row & Hrow & HS & HR & HE & Hd & Hby) _ IH]; [done|].
  simpl. unfold mbind at 1, tx_bind at 1. rewrite (findInboxRequest_found _ _ _ i row) by done.
  unfold mbind at 1, tx_bind at 1, deliverInboxRow, refuseIf, check, reads.
  rewrite HE, Hd, !bool_decide_eq_true_2 by done. unfold mbind at 1, tx_bind at 1. simpl.
  unfold requireDeliveredBy. rewrite bool_decide_eq_true_2 by done. simpl.
  unfold mbind, tx_bind. by rewrite IH.
Qed.

(** The rows a delivery leaves behind. *)
Lemma deliveredAll_left sid e ids aid at_ rows d d' :
  NoDup ids → rowsOfRequests sid e ids rows d →
  inbox (others d') = deliverAll aid at_ rows (inbox (others d)) →
  Forall (λ row, in_State row = InboxMessageStateDelivered → in_DeliveredActivityID row = Some aid) rows →
  Forall (λ id, deliveredBy sid (ex_ID e) aid id d') ids ∧
  Forall (λ row, ∃ row', inbox (others d') !! in_ID row = Some row' ∧
    in_State row' = InboxMessageStateDelivered ∧ in_DeliveredActivityID row' = Some aid) rows.
Proof.
  intros Hnd HF E2 Hby.
  assert (Hids : NoDup (in_ID <$> rows)).
  { clear E2 Hby. revert rows HF. induction Hnd as [|id ids Hni Hnd IH]; intros rows HF;
      inversion HF as [|? row ? rows' (Hrow & HS & HR & _) HF']; subst; [constructor|]. cbn.
    constructor; [|by apply IH]. intros (x & Hx & Hin)%list_elem_of_fmap. apply Hni.
    apply list_elem_of_lookup_1 in Hin as [k Hk].
    apply (Forall2_lookup_r _ _ _ _ _ HF') in Hk as (id' & Hid' & Hrow' & _ & HR' & _).
    rewrite Hx in Hrow. rewrite Hrow in Hrow'. injection Hrow' as ->. rewrite HR'.
    by eapply list_elem_of_lookup_2. }
  assert (Hleft : ∀ row, row ∈ rows → inbox (others d') !! in_ID row = Some (deliveredRow aid at_ row)).
  { intros row Hin. rewrite E2. by apply deliverAll_lookup. }
  assert (Hst : ∀ row, row ∈ rows → in_State (deliveredRow aid at_ row) = InboxMessageStateDelivered ∧
    in_DeliveredActivityID (deliveredRow aid at_ row) = Some aid).
  { intros row Hin. rewrite Forall_forall in Hby. unfold deliveredRow. case_bool_decide as Hd.
    - split; [done|]. by apply Hby.
    - by destruct row. }
  split; apply Forall_forall.
  - intros id Hin. apply list_elem_of_lookup_1 in Hin as [k Hk].
    destruct (Forall2_lookup_l _ _ _ _ _ HF Hk) as (row & Hrow & _ & HS & HR & HE).
    apply list_elem_of_lookup_2 in Hrow. destruct (Hst _ Hrow). exists (in_ID row).
    exists (deliveredRow aid at_ row). split; [by apply Hleft|].
    unfold deliveredRow in *. case_bool_decide; [done|]. by destruct row.
  - intros row Hin. destruct (Hst _ Hin). eauto.
Qed.

(** What a successful delivery of root messages did. *)
Lemma deliverRoot_Ok c sid input d r d' :
  inbox_inv d → deliverExecutionMessages maxStoredMessageBytes Sum256 c sid input d = Ok (r, d') →
  ∃ a e rows added,
    activities d !! le_ID (di_ModelLease input) = Some a ∧
    rowsOfRequests sid e (di_RequestIDs input) rows d ∧ dl_Messages r = rows ≫= transcriptOf ∧
    messages (others d') = messages (others d) ++ added ∧
    Forall2 (rendered (di_TurnLease input)) (dl_Messages r) added ∧
    Forall (λ row, in_State row = InboxMessageStateDelivered →
                   in_DeliveredActivityID row = Some (ac_ID a)) rows ∧
    Forall (λ row, ∃ row', inbox (others d') !! in_ID row = Some row' ∧
      in_State row' = InboxMessageStateDelivered ∧
      in_DeliveredActivityID row' = Some (ac_ID a)) rows ∧
    Forall (λ id, deliveredBy sid (ex_ID e) (ac_ID a) id d') (di_RequestIDs input) ∧
    ∀ c', deliverExecutionMessages maxStoredMessageBytes Sum256 c' sid input d' =
          Ok (mkDelivery [] [], d').
Proof.
  intros Hi E2. pose proof E2 as Hk. apply deliver_sound in Hk as [Hi' _]; [|done].
  unfold deliverExecutionMessages in E2.
  apply tx_bind_Ok in E2 as ([a e] & d1 & Hl & E2). pose proof Hl as Hlease.
  apply leased_held in Hl as (-> & Ha & _ & _ & HaE & _); [|done].
  apply tx_bind_Ok in E2 as (? & d1 & Hcan & E2). apply refuseIf_Ok in Hcan as [Hcan ->].
  apply tx_bind_Ok in E2 as (? & d1 & Hids & E2). apply check_Ok in Hids as [Hids ->].
  pose proof (delivery_NoDup _ _ _ Hids) as Hnd.
  apply tx_bind_Ok in E2 as (t & d1 & Ht & E2). pose proof Ht as Hturn.
  unfold findRunningTurn in Ht. apply reads_Ok in Ht as [_ ->].
  apply tx_bind_Ok in E2 as (out & d1 & Hd & E2). pose proof Hd as P1. apply samePlace_deliverRows in P1.
  apply deliverRows_Ok in Hd as (rows & Hall & Hms & Em & _ & Hby); [|done..].
  apply tx_bind_Ok in E2 as (res & d2 & Hap & E2). injection E2 as <- <-.
  pose proof (appendTranscript_session _ _ _ _ _ _ _ Hap) as Hsess.
  pose proof Hap as P2. apply samePlace_appendTranscript in P2.
  pose proof Hap as Htabs. apply apart_appendTranscript in Htabs as [_ Ei].
  apply appendTranscript_Ok in Hap as (added & Eadd & HF). rewrite Em in Eadd.
  destruct Hall as (_ & Hrows & Einbox). rewrite <- Ei in Einbox.
  destruct (deliveredAll_left sid e _ _ _ rows d d2 Hnd Hrows Einbox Hby) as [Hleft1 Hleft2].
  exists a, e, rows, added. split_and!; try done.
  intros c'. assert (P : samePlace d d2) by by etrans.
  destruct (appendTranscript_nothing c' (di_TurnLease input) d2) as [res2 Hagain].
  { by apply P2. }
  { exists t, d2. by eapply runningTurn_same. }
  unfold deliverExecutionMessages. eapply tx_then; [by eapply leased_same|]. cbn beta iota.
  eapply tx_then; [unfold refuseIf; rewrite Hcan; reflexivity|].
  eapply tx_then; [unfold check, reads; rewrite Hids; reflexivity|].
  eapply tx_then; [by eapply runningTurn_same|].
  eapply tx_then; [by apply deliverRows_again|]. cbn [fst snd map].
  eapply tx_then; [exact Hagain|]. reflexivity.
Qed.

End store.

End DeliverySteps.
