(* ===== verification/InboxPromises.v ===== *)
(** What the inbox promises to those who use it, in every state the store
    reaches: an accepted message is kept and numbered, accepted once and
    delivered once, forwarded to one root, and never left behind by a root
    that completed; and a life of a root that shows each promise at work. *)
From stdpp Require Import base gmap sets list list_numbers strings sorting.
From Stdlib Require Import ZArith Lia Ascii Sorted.
From S2P Require Import Prelude GoBytes Json Executions ExecutionControl Activities ExecutionSteps TxRules Transcripts TranscriptRules Inbox Deferral InboxRules InboxSteps InboxTheorems TextSteps DeliverySteps.

Module InboxPromises.
Import Executions ExecutionControl Activities ExecutionSteps TxRules Transcripts TranscriptRules Inbox Deferral InboxRules InboxSteps InboxTheorems TextSteps DeliverySteps.

(** Distinct positive numbers with no gap below any of them. *)
Lemma dense_seqZ (l : list Z) :
  NoDup l → (∀ n, n ∈ l → (1 ≤ n)%Z) → (∀ n k, n ∈ l → (1 ≤ k ≤ n)%Z → k ∈ l) →
  l ≡ₚ seqZ 1 (Z.of_nat (length l)).
Proof.
  intros Hnd Hpos Hdense. destruct (max_foldr l) as (Hle & H0 & Hat).
  assert (Hp : l ≡ₚ seqZ 1 (foldr Z.max 0%Z l)).
  { apply NoDup_Permutation; [done|apply NoDup_seqZ|]. intros k. rewrite elem_of_seqZ. split.
    - intros Hk. specialize (Hpos k Hk). specialize (Hle k Hk). lia.
    - intros Hk. destruct Hat as [E|Hin]; [lia|]. apply (Hdense _ _ Hin). lia. }
  pose proof (Permutation_length Hp) as Hlen. rewrite length_seqZ in Hlen.
  by rewrite Hlen, Z2Nat.id.
Qed.

Lemma NoDup_fmap_inj {A B} (f : A → B) (l : list A) :
  NoDup l → (∀ x y, x ∈ l → y ∈ l → f x = f y → x = y) → NoDup (f <$> l).
Proof.
  intros Hnd. induction Hnd as [|x l Hx Hnd IH]; intros Hf; [constructor|]. cbn. constructor.
  - intros (y & Hxy & Hy)%list_elem_of_fmap. apply Hx.
    rewrite (Hf x y); [done|by left|by right|done].
  - apply IH. intros a b Ha Hb. apply Hf; by right.
Qed.

(** ** The inbox at rest *)

Section store.
Variables maxExecutionStateBytes maxStoredMessageBytes : Z.
Variable Sum256 : bytes → bytes.
Variable marshalResolution : ResolveActivityInput → bytes.
Variable finishDecisionHash : CompleteActivityInput → bytes.
Context `{ImageCodec, InboxCodec}.

Abbreviation reached := (ireachable maxExecutionStateBytes maxStoredMessageBytes Sum256
  marshalResolution finishDecisionHash).
Abbreviation goesOn := (rtc (istep maxExecutionStateBytes maxStoredMessageBytes Sum256
  marshalResolution finishDecisionHash)).
Abbreviation accept := (AcceptExecutionMessage maxStoredMessageBytes Sum256).
Abbreviation defer := (DeferExecutionMessage maxStoredMessageBytes Sum256).
Abbreviation deliver := (DeliverExecutionMessages maxStoredMessageBytes Sum256).

Lemma NoDup_inboxRows d : inbox_inv d → NoDup (inboxRows d).
Proof.
  intros Hi. unfold inboxRows. apply NoDup_fmap_inj; [apply NoDup_map_to_list|].
  intros [i m] [j n] Hm%elem_of_map_to_list Hn%elem_of_map_to_list. simpl. intros ->.
  destruct (ii_row _ Hi _ _ Hm) as (<- & _). by destruct (ii_row _ Hi _ _ Hn) as (<- & _).
Qed.

(** In every state the store reaches, the messages of an execution are
    numbered 1, 2, ... without gap or repetition, and no request of a session
    was accepted twice. *)
Theorem inbox_numbered d :
  reached d →
  (∀ E, let rows := filter (λ m, in_ExecutionID m = E) (inboxRows d) in
        in_Sequence <$> rows ≡ₚ seqZ 1 (Z.of_nat (length rows))) ∧
  NoDup ((λ m, (in_SessionID m, in_RequestID m)) <$> inboxRows d).
Proof.
  intros Hr%ireachable_inv. pose proof (NoDup_inboxRows d Hr) as Hnd. split.
  - intros E rows. rewrite <- (length_fmap in_Sequence). apply dense_seqZ.
    + apply NoDup_fmap_inj; [by apply NoDup_filter|]. unfold rows. intros m n.
      rewrite !list_elem_of_filter, !elem_of_inboxRows. intros [HE (i & Hm)] [HE2 (j & Hn)] HN.
      assert (i = j) as <- by (eapply (ii_number _ Hr); [done..|congruence|done]). congruence.
    + unfold rows. intros n (m & -> & Hm)%list_elem_of_fmap.
      apply list_elem_of_filter in Hm as [_ (i & Hm)%elem_of_inboxRows].
      destruct (ii_row _ Hr _ _ Hm) as (_ & Hv & _). unfold inboxRowValid in Hv.
      rewrite !andb_true_iff, Z.ltb_lt in Hv. lia.
    + unfold rows. intros n k (m & -> & Hm)%list_elem_of_fmap Hk.
      apply list_elem_of_filter in Hm as [HE (i & Hm)%elem_of_inboxRows].
      destruct (ii_dense _ Hr _ _ _ Hm Hk) as (j & x & Hx & HxE & <-).
      apply list_elem_of_fmap. exists x. split; [done|]. apply list_elem_of_filter.
      split; [congruence|]. apply elem_of_inboxRows. eauto.
  - apply NoDup_fmap_inj; [done|]. intros m n (i & Hm)%elem_of_inboxRows (j & Hn)%elem_of_inboxRows.
    intros [= HS HR]. assert (i = j) as <- by (by eapply (ii_request _ Hr)). congruence.
Qed.

(** C20: a message of the inbox is never lost: whatever the store does, it keeps
    its text, place and request; once delivered to a model or forwarded to a
    root it does not change at all, and a queued message is only ever
    delivered. *)
Theorem message_never_lost d d' i m :
  reached d → goesOn d d' → inbox (others d) !! i = Some m →
  ∃ m', inbox (others d') !! i = Some m' ∧ same_message m m' ∧
    match in_State m with
    | InboxMessageStateDelivered | InboxMessageStateForwarded => m' = m
    | InboxMessageStateQueued =>
        in_State m' = InboxMessageStateQueued ∨ in_State m' = InboxMessageStateDelivered
    | InboxMessageStateDeferred => in_State m' ≠ InboxMessageStateQueued
    end.
Proof.
  intros Hr%ireachable_inv Hs Hm. destruct (isteps_evolve _ _ _ _ _ _ _ Hr Hs) as [_ [_ Hmsg]].
  exact (Hmsg i m Hm).
Qed.

(** An execution that completed left no message waiting: what is still
    queued in its inbox is the report of a child that came after its
    decision. *)
Theorem completed_inbox_settled d E e i m :
  reached d → executions d !! E = Some e → ex_State e = ExecutionStateCompleted →
  inbox (others d) !! i = Some m → in_ExecutionID m = E → in_State m = InboxMessageStateQueued →
  in_SourceEventID m = Some (in_RequestID m).
Proof. intros Hr%ireachable_inv He Hc Hm HE Hq. by eapply (ii_settled _ Hr). Qed.

(** ** Transcripts *)

(** In every state the store reaches, whatever the interleaving of
    executions, inbox operations, turns and other components, the messages of a
    session are numbered 1 up to its message count and its events 1, 2, ...,
    and the feed numbers of its events grow, within what the session
    allocated. *)
Theorem transcript_numbered d sid :
  treachable maxExecutionStateBytes maxStoredMessageBytes Sum256 marshalResolution finishDecisionHash d →
  ms_Sequence <$> messagesOf sid d = seqZ 1 (messageCount sid d) ∧
  fe_Sequence <$> eventsOf sid d = seqZ 1 (Z.of_nat (length (eventsOf sid d))) ∧
  StronglySorted Z.lt (fe_FeedSequence <$> eventsOf sid d) ∧
  ∀ e, e ∈ eventsOf sid d → (0 < fe_FeedSequence e ≤ feedHead sid d)%Z.
Proof. intros [Hm He]%treachable_inv. split_and!; [apply Hm|apply He..]. Qed.

(** ** Accepting once *)

Definition isDeferred (m : ExecutionInboxMessage) : bool :=
  bool_decide (in_State m = InboxMessageStateDeferred) ||
  bool_decide (in_State m = InboxMessageStateForwarded).

(** A request accepted before is compared with what is asked again. *)
Lemma accept_replay c lease input encoded state d e m :
  inbox_inv d → executions d !! ex_ID e = Some e → ex_SessionID e = ls_SessionID lease →
  ex_Kind e = ExecutionKindRoot → ex_RootTurnID e = ls_TurnID lease →
  inbox (others d) !! in_ID m = Some m → in_SessionID m = ls_SessionID lease →
  in_RequestID m = am_RequestID input →
  acceptExecutionMessage maxStoredMessageBytes Sum256 c (ex_ID e) lease input encoded state d =
  (_ ← check (validateInboxReplay m (ex_ID e) input encoded state); mret (mkAcceptance m [] [])) d.
Proof.
  intros Hi He Hs Hk Ht Hm HS HR. unfold acceptExecutionMessage.
  assert (Hf : findExecution (ls_SessionID lease) (ex_ID e) d = Ok (e, d)).
  { unfold findExecution, reads, firstRow. rewrite He. by rewrite bool_decide_eq_true_2. }
  unfold mbind at 1, tx_bind at 1. rewrite Hf, Hk, Ht, !bool_decide_eq_true_2 by done. simpl.
  unfold mbind at 1, tx_bind at 1. unfold refuseIf, check, reads at 1. simpl.
  unfold mbind at 1, tx_bind at 1, orAbsent.
  by rewrite (findInboxRequest_found _ _ _ (in_ID m) m) by done.
Qed.

(** What an acceptance leaves for the same request. *)
Lemma accept_leaves c E lease input encoded state d r d' :
  inbox_inv d → state = InboxMessageStateQueued ∨ state = InboxMessageStateDeferred →
  acceptExecutionMessage maxStoredMessageBytes Sum256 c E lease input encoded state d = Ok (r, d') →
  inbox_inv d' ∧ inbox (others d') !! in_ID (ac_Message r) = Some (ac_Message r) ∧
  in_SessionID (ac_Message r) = ls_SessionID lease ∧
  in_RequestID (ac_Message r) = am_RequestID input ∧
  sameInboxInput (ac_Message r) E input encoded = true ∧
  isDeferred (ac_Message r) = bool_decide (state = InboxMessageStateDeferred) ∧
  ∃ e, executions d' !! E = Some e ∧ ex_ID e = E ∧ ex_SessionID e = ls_SessionID lease ∧
       ex_Kind e = ExecutionKindRoot ∧ ex_RootTurnID e = ls_TurnID lease.
Proof.
  intros Hi Hstate H2. pose proof H2 as Ha. apply accept_Ok in Ha; [|done].
  assert (K : keeps d d') by (destruct Ha as [[-> _]|[[K _] _]]; [by apply keeps_refl|done]).
  unfold acceptExecutionMessage in H2.
  apply tx_bind_Ok in H2 as (e & d1 & Hf & H2). apply held in Hf as (-> & HE & He & Hs); [|done].
  apply tx_bind_Ok in H2 as (u & d1 & Hk & H2). apply refuseIf_Ok in Hk as [Hk ->].
  apply orb_false_iff in Hk as [Hk%negb_false_iff%bool_decide_eq_true
                                Ht%negb_false_iff%bool_decide_eq_true].
  assert (Hex : ∃ e', executions d' !! E = Some e' ∧ ex_ID e' = E ∧
    ex_SessionID e' = ls_SessionID lease ∧ ex_Kind e' = ExecutionKindRoot ∧
    ex_RootTurnID e' = ls_TurnID lease).
  { destruct K as (_ & [Hw _] & _). destruct (Hw _ _ He) as (e' & He' & Hid & HS & HK & HT & _).
    rewrite HE in He'. exists e'. split_and!; congruence. }
  split; [apply K|].
  apply tx_bind_Ok in H2 as (o & d1 & Ho & H2). apply orAbsent_Ok in Ho. destruct o as [m|].
  - apply findInboxRequest_Ok in Ho as (-> & Hm & HS & HR); [|done].
    apply tx_bind_Ok in H2 as (v & d1 & Hv & H2). apply check_Ok in Hv as [Hv ->].
    injection H2 as <- <-. simpl. split_and!; [done..| | |done].
    + unfold validateInboxReplay in Hv. case_if; [done|].
      by apply orb_false_iff in Heqb as [_ Hsame%negb_false_iff].
    + unfold validateInboxReplay in Hv. case_if; [done|].
      apply orb_false_iff in Heqb as [Hd%negb_false_iff%eqb_prop _]. exact Hd.
  - destruct Ho as [-> Hno].
    destruct Ha as [(_ & Hm & HS & HR & _)|[(_ & Ei & _ & HE2 & HSt & HR & Hsame & _) HS]].
    + exfalso. rewrite (findInboxRequest_found _ _ _ _ _ Hi Hm HS HR) in Hno. done.
    + split_and!; try done; [by rewrite Ei, lookup_insert_eq|].
      unfold isDeferred. rewrite HSt. by destruct Hstate as [-> | ->].
Qed.

Lemma later_input m m' E input encoded :
  later m m' → sameInboxInput m' E input encoded = sameInboxInput m E input encoded.
Proof.
  intros [(_ & _ & E1 & _ & _ & E2 & _ & E3 & E4 & E5 & E6 & _) _].
  unfold sameInboxInput. by rewrite E1, E2, E3, E4, E5, E6.
Qed.

Lemma later_not_deferred m m' : later m m' → isDeferred m = false → isDeferred m' = false.
Proof.
  unfold isDeferred. intros [_ Hl] Hdef. destruct (in_State m) eqn:Est; try done.
  - by destruct Hl as [-> | ->].
  - by rewrite Hl, Est.
Qed.

(** The content of two inputs: the text, the directory, the parts and the images as
    they are stored, and the event they come from. *)
Definition same_content (input : AcceptExecutionMessageInput) (encoded : inboxEncoding)
    (input' : AcceptExecutionMessageInput) (encoded' : inboxEncoding) : Prop :=
  am_Message input' = am_Message input ∧ am_WorkingDirectory input' = am_WorkingDirectory input ∧
  en_parts encoded' = en_parts encoded ∧
  pi_json (en_images encoded') = pi_json (en_images encoded) ∧
  am_SourceEventID input' = am_SourceEventID input.
#[export] Instance same_content_dec input encoded input' encoded' :
  Decision (same_content input encoded input' encoded').
Proof. unfold same_content. apply _. Defined.

(** What a row was accepted with is what it is compared with. *)
Lemma sameInboxInput_content m E input encoded input' encoded' :
  sameInboxInput m E input encoded = true →
  sameInboxInput m E input' encoded' = bool_decide (same_content input encoded input' encoded').
Proof.
  unfold sameInboxInput. rewrite !andb_true_iff, !bool_decide_eq_true.
  intros [[[[[-> ->] ->] ->] ->] Hid]. apply eq_true_iff_eq.
  rewrite !andb_true_iff, !bool_decide_eq_true. unfold same_content.
  assert (sameOptionalID (in_SourceEventID m) (am_SourceEventID input') = true ↔
    am_SourceEventID input' = am_SourceEventID input) as ->; [|naive_solver].
  unfold sameOptionalID in *.
  destruct (in_SourceEventID m); apply bool_decide_eq_true in Hid; rewrite bool_decide_eq_true;
    split; congruence.
Qed.

(** C8: accepting a message is done once: in every later state, the same
    request under any live lease of its turn is answered with the message as it
    is now and changes nothing; asking for it to be deferred is a conflict, and so is
    the same request with any other content: another text, directory, source event, or
    parts or images that are stored differently.  A conflict changes nothing. *)
Theorem AcceptExecutionMessage_once c active E lease input d r d1 d2 :
  reached d → accept c active E lease input d = (d1, Ok r) → goesOn d1 d2 →
  ∃ m encoded, validateExecutionInboxInput maxStoredMessageBytes Sum256 input = Ok encoded ∧
    inbox (others d2) !! in_ID (ac_Message r) = Some m ∧
    in_ExecutionID m = E ∧ in_RequestID m = am_RequestID input ∧ in_Message m = am_Message input ∧
    in_State m ≠ InboxMessageStateDeferred ∧ in_State m ≠ InboxMessageStateForwarded ∧
    ∀ c' active' lease', hasLeaseLocked active' lease' = true →
      ls_SessionID lease' = ls_SessionID lease → ls_TurnID lease' = ls_TurnID lease →
      accept c' active' E lease' input d2 = (d2, Ok (mkAcceptance m [] [])) ∧
      defer c' active' E lease' input d2 = (d2, Err ErrConflict) ∧
      ∀ input' encoded', validateExecutionInboxInput maxStoredMessageBytes Sum256 input' = Ok encoded' →
        am_RequestID input' = am_RequestID input →
        accept c' active' E lease' input' d2 =
          (d2, if decide (same_content input encoded input' encoded')
               then Ok (mkAcceptance m [] []) else Err ErrConflict).
Proof.
  intros Hr%ireachable_inv H2 Hs. unfold AcceptExecutionMessage, acceptExecutionInbox in H2.
  destruct (validateExecutionInboxInput _ _ input) as [encoded| | |] eqn:Henc; try done.
  apply underLease_Ok in H2 as [_ H2].
  apply accept_leaves in H2 as (Hi1 & Hm & HS & HR & Hsame & Hdef & e & He & HeE & HeS & HeK & HeT);
    [|done|by left].
  destruct (isteps_evolve _ _ _ _ _ _ _ Hi1 Hs) as [Hi2 [Hw Hmsg]].
  destruct (Hmsg _ _ Hm) as (m & Hm2 & Hl). destruct (Hw _ _ He) as (e2 & He2 & Hsw).
  pose proof (later_not_deferred _ _ Hl Hdef) as Hdef2.
  pose proof Hl as [(E0 & ES & EE & _ & ER & _ & _ & EW & EM & _) _].
  destruct Hsw as (HE2 & HS2 & HK2 & HT2 & _).
  exists m, encoded. pose proof Hsame as Hsame0. unfold sameInboxInput in Hsame0.
  rewrite !andb_true_iff, !bool_decide_eq_true in Hsame0.
  destruct Hsame0 as [[[[[HEm HMm] HWm] _] _] _].
  pose proof Hdef2 as Hnot. unfold isDeferred in Hnot.
  apply orb_false_iff in Hnot as [Hn1%bool_decide_eq_false Hn2%bool_decide_eq_false].
  split_and!; [congruence..|]. intros c' active' lease' Hlease HlS HlT.
  assert (Hrep : ∀ input' encoded' state, am_RequestID input' = am_RequestID input →
    underLease active' lease' (acceptExecutionMessage maxStoredMessageBytes Sum256 c' E lease' input'
      encoded' state) d2 =
    transaction (_ ← check (validateInboxReplay m E input' encoded' state); mret (mkAcceptance m [] [])) d2).
  { intros input' encoded' state HRq. unfold underLease, holdLease. rewrite Hlease.
    assert (HidE : ex_ID e2 = E) by congruence.
    pose proof (accept_replay c' lease' input' encoded' state d2 e2 m) as Hx. rewrite HidE in Hx.
    unfold transaction. rewrite Hx by congruence. done. }
  unfold AcceptExecutionMessage, DeferExecutionMessage, acceptExecutionInbox. rewrite Henc.
  rewrite !Hrep by done. unfold validateInboxReplay. fold (isDeferred m).
  rewrite Hdef2, !(later_input _ _ _ _ _ Hl), Hsame. split; [done|]. split; [done|].
  intros input' encoded' -> HRq. rewrite Hrep by done. unfold validateInboxReplay.
  rewrite (later_input _ _ _ _ _ Hl), (sameInboxInput_content _ _ _ _ input' encoded' Hsame).
  fold (isDeferred m). rewrite Hdef2. destruct (decide (same_content _ _ _ _)) as [Hsc|Hsc].
  - by rewrite (bool_decide_eq_true_2 _ Hsc).
  - by rewrite (bool_decide_eq_false_2 _ Hsc).
Qed.

(** ** Delivering once *)

Lemma delivered_transcript rows :
  Forall (λ row, in_State row = InboxMessageStateDelivered) rows → rows ≫= transcriptOf = [].
Proof.
  induction 1 as [|row rows Hd _ IH]; [done|]. cbn. rewrite IH. unfold transcriptOf.
  by rewrite bool_decide_eq_true_2.
Qed.

(** C9: a delivery appends to the transcript exactly the messages and skills of
    the requested rows that were not delivered yet, in the order asked, and
    leaves every row delivered by the activity of the model request; repeating
    it at once succeeds and changes nothing; in any later state a repetition
    that succeeds appends nothing, and no other activity delivers any of the
    rows. *)
Theorem DeliverExecutionMessages_once c active sid input d r d1 :
  reached d → deliver c active sid input d = (d1, Ok r) →
  ∃ a, activities d !! le_ID (di_ModelLease input) = Some a ∧
  (∃ rows added,
    Forall2 (λ id row, inbox (others d) !! in_ID row = Some row ∧ in_SessionID row = sid ∧
                       in_RequestID row = id) (di_RequestIDs input) rows ∧
    dl_Messages r = rows ≫= transcriptOf ∧
    messages (others d1) = messages (others d) ++ added ∧
    Forall2 (rendered (di_TurnLease input)) (dl_Messages r) added ∧
    Forall (λ row, ∃ row', inbox (others d1) !! in_ID row = Some row' ∧
      in_State row' = InboxMessageStateDelivered ∧
      in_DeliveredActivityID row' = Some (ac_ID a)) rows) ∧
  (∀ c' active', hasLeaseLocked active' (di_TurnLease input) = true →
     deliver c' active' sid input d1 = (d1, Ok (mkDelivery [] []))) ∧
  ∀ d2 c' active' input' r' d3 a', goesOn d1 d2 →
    deliver c' active' sid input' d2 = (d3, Ok r') →
    activities d2 !! le_ID (di_ModelLease input') = Some a' →
    (di_RequestIDs input' = di_RequestIDs input →
       dl_Messages r' = [] ∧ messages (others d3) = messages (others d2)) ∧
    (∀ id, id ∈ di_RequestIDs input → id ∈ di_RequestIDs input' → ac_ID a' = ac_ID a).
Proof.
  intros Hr%ireachable_inv H2. unfold DeliverExecutionMessages in *. case_if; [done|].
  apply underLease_Ok in H2 as [Hlease H2]. pose proof H2 as Hs. apply deliver_sound in Hs as [Hi1 _]; [|done].
  apply deliverRoot_Ok in H2 as (a & e & rows & added & Ha & HF & Hms & Hadd & Hren & _ & Hleft & Hby & Hagain);
    [|done].
  exists a. split; [done|]. split_and!.
  - exists rows, added. split_and!; try done. eapply Forall2_impl; [exact HF|]. naive_solver.
  - intros c' active' Hlease'. unfold underLease, holdLease. rewrite Hlease'. unfold transaction.
    by rewrite Hagain.
  - intros d2 c' active' input' r' d3 a' Hsteps H3 Ha'. case_if; [done|].
    destruct (isteps_evolve _ _ _ _ _ _ _ Hi1 Hsteps) as [Hi2 Hev].
    apply underLease_Ok in H3 as [_ H3].
    apply deliverRoot_Ok in H3 as (a2 & e2 & rows2 & added2 & Ha2 & HF2 & Hms2 & Hadd2 & Hren2 & Hby2 & _);
      [|done]. rewrite Ha' in Ha2. injection Ha2 as <-.
    assert (Hrow : ∀ id row, id ∈ di_RequestIDs input → inbox (others d2) !! in_ID row = Some row →
      in_SessionID row = sid → in_RequestID row = id →
      in_State row = InboxMessageStateDelivered ∧ in_DeliveredActivityID row = Some (ac_ID a)).
    { intros id row Hin Hrow HS HR. rewrite Forall_forall in Hby.
      destruct (deliveredBy_later _ _ _ _ _ _ Hev (Hby id Hin)) as (i & x & Hx & HxS & HxR & _ & Hxd & Hxa).
      assert (i = in_ID row) as -> by (eapply (ii_request _ Hi2); [done..|congruence|congruence]).
      rewrite Hrow in Hx. by injection Hx as <-. }
    split.
    + intros Hids. rewrite Hids in HF2. rewrite delivered_transcript in Hms2.
      * split; [done|]. rewrite Hms2 in Hren2. inversion Hren2; subst. by rewrite Hadd2, app_nil_r.
      * apply Forall_forall. intros row Hin. apply list_elem_of_lookup_1 in Hin as [k Hk].
        destruct (Forall2_lookup_r _ _ _ _ _ HF2 Hk) as (id & Hid & Hx & HS & HR & _).
        apply (Hrow id row); [by eapply list_elem_of_lookup_2|done..].
    + intros id Hin Hin2. apply list_elem_of_lookup_1 in Hin2 as [k Hk].
      destruct (Forall2_lookup_l _ _ _ _ _ HF2 Hk) as (row & Hkr & Hx & HS & HR & _).
      destruct (Hrow id row) as [Hd Hda]; [done..|]. rewrite Forall_forall in Hby2.
      specialize (Hby2 row (list_elem_of_lookup_2 _ _ _ Hkr) Hd). congruence.
Qed.

(** ** Deferring *)

(** A deferred message becomes the task of one root only: once a creation
    bound it, it stays forwarded to that root, and no creation of another root
    binds it again. *)
Theorem deferred_forwarded_once c sid input id d e d1 d2 :
  reached d →
  CreateDeferredExecution maxExecutionStateBytes maxStoredMessageBytes Sum256 c sid input (Some id) d =
    (d1, Ok e) →
  goesOn d1 d2 →
  (∃ m, inbox (others d2) !! id = Some m ∧ in_SessionID m = sid ∧
        in_State m = InboxMessageStateForwarded ∧
        in_ForwardedExecutionID m = Some (ci_ID input)) ∧
  ∀ c' sid' input' e' d3,
    CreateDeferredExecution maxExecutionStateBytes maxStoredMessageBytes Sum256 c' sid' input' (Some id)
      d2 = (d3, Ok e') →
    ci_ID input' = ci_ID input.
Proof.
  intros Hr%ireachable_inv H2 Hs.
  assert (Hone : ∀ c sid input d e d1, inbox_inv d →
    CreateDeferredExecution maxExecutionStateBytes maxStoredMessageBytes Sum256 c sid input (Some id) d =
      (d1, Ok e) →
    inbox_inv d1 ∧ evolves d d1 ∧ ∃ m, inbox (others d1) !! id = Some m ∧ in_SessionID m = sid ∧
      in_State m = InboxMessageStateForwarded ∧ in_ForwardedExecutionID m = Some (ci_ID input)).
  { clear. intros c sid input d e d1 Hi H2. unfold CreateDeferredExecution in H2.
    destruct (validateExecutionInput _ _ input); try done. unfold transaction in H2.
    destruct (createDeferredExecution _ _ _ _ _ d) as [[e1 d2]| | |] eqn:E; simplify_eq.
    apply createDeferred_Ok in E as ((Hi2 & Hev & _) & _ & Hm); [|done].
    split_and!; [done..|]. by apply Hm. }
  apply Hone in H2 as (Hi1 & _ & m & Hm & HS & Hst & Hfw); [|done].
  destruct (isteps_evolve _ _ _ _ _ _ _ Hi1 Hs) as [Hi2 Hev2].
  assert (Hkeep : ∀ d d', evolves d d' → inbox (others d) !! id = Some m → inbox (others d') !! id = Some m).
  { intros x y [_ Hmsg] Hx. destruct (Hmsg _ _ Hx) as (m' & Hm' & _ & Hl). rewrite Hst in Hl. congruence. }
  pose proof (Hkeep _ _ Hev2 Hm) as Hm2. split; [by exists m|].
  intros c' sid' input' e' d3 H3. apply Hone in H3 as (_ & Hev3 & m3 & Hm3 & _ & _ & Hfw3); [|done].
  pose proof (Hkeep _ _ Hev3 Hm2) as Hm4. congruence.
Qed.

(** ** Capacity *)

Lemma sum_permutation (l k : list Z) : l ≡ₚ k → foldr Z.add 0%Z l = foldr Z.add 0%Z k.
Proof. induction 1; simpl; lia. Qed.

(** The slots a new row takes. *)
Lemma QueuedSlots_insert sid E state m d d' :
  inbox (others d) !! in_ID m = None → inbox (others d') = <[in_ID m := m]> (inbox (others d)) →
  in_SessionID m = sid → in_ExecutionID m = E → in_State m = state →
  QueuedSlots sid E state d' = (QueuedSlots sid E state d + 1 + jsonArrayLength (in_PartsJSON m))%Z.
Proof.
  intros Hf Ei HS HE Hst. unfold QueuedSlots.
  assert (Hp : inboxRows d' ≡ₚ m :: inboxRows d).
  { unfold inboxRows. rewrite Ei, map_to_list_insert by done. done. }
  rewrite (sum_permutation _ ((λ x, 1 + jsonArrayLength (in_PartsJSON x))%Z <$>
    filter (λ x, in_SessionID x = sid ∧ in_ExecutionID x = E ∧ in_State x = state)
           (m :: inboxRows d))) by by rewrite Hp.
  rewrite filter_cons_True by done. cbn. lia.
Qed.

(** C26: a message accepted for a root takes one slot and one per skill, and the
    queue with it is within the capacity it was accepted for. *)
Theorem acceptance_within_capacity `{!InboxCodecLaws} c active E lease input d d1 r :
  reached d → accept c active E lease input d = (d1, Ok r) →
  inbox (others d) !! in_ID (ac_Message r) = None →
  (am_Capacity input ≤ max_int64)%Z → (Z.of_nat (length (am_Parts input)) ≤ max_int64)%Z →
  let slots := QueuedSlots (ls_SessionID lease) E InboxMessageStateQueued in
  slots d1 = (slots d + 1 + Z.of_nat (length (am_Parts input)))%Z ∧
  (slots d1 ≤ am_Capacity input)%Z.
Proof.
  intros Hr%ireachable_inv H2 Hnew Hcap Hlen slots.
  unfold AcceptExecutionMessage, acceptExecutionInbox in H2.
  destruct (validateExecutionInboxInput _ _ input) as [encoded| | |] eqn:Henc; try done.
  apply underLease_Ok in H2 as [_ H2].
  apply accept_Ok in H2 as [(_ & Hm & _)|[(_ & Ei & Hf & HE & Hst & _ & Hsame & _ & Hle) HS]];
    [congruence| |done].
  unfold validateExecutionInboxInput in Henc. case_if; [done|].
  apply bind_Ok_inv in Henc as (parts & Hparts & Henc).
  apply bind_Ok_inv in Henc as (images & _ & [= <-]).
  unfold encodeInboxParts in Hparts. apply bind_Ok_inv in Hparts as (u & _ & Hparts).
  case_if; [done|]. injection Hparts as <-.
  unfold sameInboxInput in Hsame. rewrite !andb_true_iff, !bool_decide_eq_true in Hsame.
  destruct Hsame as [[[[[_ _] _] Hp] _] _]. cbn in Hp.
  assert (Hpos : (0 < am_Capacity input)%Z).
  { destruct (Z.leb_spec (am_Capacity input) 0); [|done].
    rewrite !orb_false_iff in Heqb. destruct_and!. lia. }
  subst slots. rewrite (QueuedSlots_insert _ _ _ (ac_Message r) d d1) by done.
  rewrite Hp, jsonArrayLength_marshal. unfold freeSlots in Hle.
  rewrite wrap64_id in Hle by (unfold min_int64, max_int64 in *; lia). lia.
Qed.

(** ** Resuming a paused child *)

(** A message for a paused child resumes the child and its descendants
    first; its notice, when it brings one, takes the place right before it in
    the queue, so the child reads the notice first; the answer names the
    executions that were resumed. *)
Theorem AcceptChild_resume_order c noticeID sid E input d d1 r e :
  reached d → executions d !! E = Some e → ex_State e = ExecutionStatePaused →
  inbox (others d) !! in_ID (ac_Message r) = None →
  AcceptChildExecutionMessage maxStoredMessageBytes Sum256 c noticeID sid E input d = (d1, Ok r) →
  in_ExecutionID (ac_Message r) = E ∧ in_State (ac_Message r) = InboxMessageStateQueued ∧
  in_Message (ac_Message r) = am_Message input ∧
  inbox (others d1) !! in_ID (ac_Message r) = Some (ac_Message r) ∧
  (∃ dr, changeExecutionSubtree c sid E Resume (MessageResumePayload (am_RequestID input)) d =
           Ok (ac_Resumed r, dr)) ∧
  (trim_space (am_ResumeNotice input) ≠ [] →
   ∃ notice, inbox (others d1) !! in_ID notice = Some notice ∧
     in_Message notice = am_ResumeNotice input ∧ in_ExecutionID notice = E ∧
     in_State notice = InboxMessageStateQueued ∧
     in_Sequence (ac_Message r) = (in_Sequence notice + 1)%Z).
Proof.
  intros Hr%ireachable_inv He Hp Hnew H2. unfold AcceptChildExecutionMessage in H2.
  destruct (validateExecutionInboxInput _ _ input) as [encoded| | |] eqn:Henc; try done.
  unfold transaction in H2. destruct (acceptChildInboxMessage _ _ _ _ _ _ d) as [[r1 d2]| | |] eqn:E2;
    simplify_eq.
  unfold acceptChildInboxMessage in E2.
  apply tx_bind_Ok in E2 as (e1 & d2 & Hf & E2). apply held in Hf as (-> & HE & He1 & Hs); [|done].
  rewrite HE, He in He1. injection He1 as <-.
  apply tx_bind_Ok in E2 as (u & d2 & Hk & E2). apply refuseIf_Ok in Hk as [_ ->].
  apply tx_bind_Ok in E2 as (o & d2 & Ho & E2). apply orAbsent_Ok in Ho. destruct o as [m|].
  { apply findInboxRequest_Ok in Ho as (-> & Hm & _); [|done].
    apply tx_bind_Ok in E2 as (v & d2 & Hv & E2). apply refuseIf_Ok in Hv as [_ ->].
    injection E2 as <- <-. simpl in Hnew. congruence. }
  destruct Ho as [-> _]. apply tx_bind_Ok in E2 as (v & d2 & Hv & E2). apply refuseIf_Ok in Hv as [_ ->].
  rewrite bool_decide_eq_true_2 in E2 by done.
  apply resumeChild_Ok in E2 as (_ & dr & Hres & d2 & (_ & Ei & Hf & HmE & HSt & _ & Hsame & _) & _ & Hnotice);
    [|done|congruence|by rewrite Hp].
  rewrite HE, Hs in *. split_and!; [done|done| |by rewrite Ei, lookup_insert_eq|by exists dr|].
  - unfold sameInboxInput in Hsame. rewrite !andb_true_iff, !bool_decide_eq_true in Hsame.
    by destruct Hsame as [[[[[_ Hmsg] _] _] _] _].
  - intros Hsome. rewrite bool_decide_eq_false_2 in Hnotice by done.
    destruct Hnotice as (notice & En & Hmsg & HnE & HnS & Hseq). exists notice. split_and!; try done.
    rewrite Ei, lookup_insert_ne; [by rewrite En, lookup_insert_eq|]. intros Heq. rewrite Heq in Hf.
    by rewrite En, lookup_insert_eq in Hf.
Qed.

End store.

(** ** A life of a root

    A root accepts a message with a skill, delivers it with a model request,
    and finishes; its terminal hooks reserve the completion, so a late message
    is deferred and becomes the task of the next root. *)

#[local] Instance sample_images : ImageCodec :=
  {| marshalImages := λ _, bs "[]"; unmarshalImages := λ _, Ok [] |}.

(** A list of parts, as a count and the texts, each closed by a zero byte. *)
Definition sample_zero : ascii := "000"%char.
Definition sample_texts (ps : list ExecutionInboxPart) : bytes :=
  ps ≫= λ p, pt_Content p ++ sample_zero :: pt_SkillName p ++ [sample_zero].

Fixpoint sample_count (b : bytes) : nat :=
  match b with "."%char :: b => S (sample_count b) | _ => 0 end.
Fixpoint sample_split (acc b : bytes) : list bytes :=
  match b with
  | [] => []
  | x :: b => if ascii_dec x sample_zero then rev acc :: sample_split [] b
              else sample_split (x :: acc) b
  end.
Fixpoint sample_pairs (l : list bytes) : list ExecutionInboxPart :=
  match l with content :: skill :: l => mkPart content skill false :: sample_pairs l | _ => [] end.

Definition sample_marshalParts (ps : list ExecutionInboxPart) : bytes :=
  "["%char :: repeat "."%char (length ps) ++ "]"%char :: sample_texts ps.
Definition sample_length (b : bytes) : Z := Z.of_nat (sample_count (tail b)).
Definition sample_unmarshalParts (b : bytes) : outcome (list ExecutionInboxPart) :=
  Ok (sample_pairs (sample_split [] (drop (2 + sample_count (tail b)) b))).

(** The digits of the input of an activity, as ids. *)
Definition sample_ids (b : bytes) : outcome (list uuid) :=
  Ok (b ≫= λ x, let n := N_of_ascii x in
                if (48 <? n)%N && (n <? 58)%N then [(n - 48)%N] else []).

#[local] Instance sample_inbox : InboxCodec :=
  {| marshalParts := sample_marshalParts; unmarshalParts := sample_unmarshalParts;
     jsonArrayLength := sample_length; marshalMessagePayload := λ _ _ _, bs "{}";
     marshalSkillPayload := λ _ _, bs "{}"; savedInboxIDs := sample_ids;
     NewSHA1 := λ id name, (id * 256 + N.of_nat (length name))%N; uuidBytes := λ _, [] |}.

#[local] Instance sample_laws : InboxCodecLaws.
Proof.
  split; [done|]. intros ps. unfold jsonArrayLength, marshalParts; simpl. unfold sample_length.
  f_equal. simpl. generalize (sample_texts ps). induction ps as [|p ps IH]; intros t; [done|].
  simpl. by rewrite IH.
Qed.

Definition sample_run (ops : list (call * (op + inbox_op))) (d : db) : db :=
  foldl (λ d co, match co.2 with
                 | inl o => apply 1000 1000 id sample_marshal sample_hash co.1 o d
                 | inr o => applyInbox 1000 1000 id co.1 o d
                 end) d ops.

Definition sample_reached : db → Prop := ireachable 1000 1000 id sample_marshal sample_hash.
Definition sample_step : relation db := istep 1000 1000 id sample_marshal sample_hash.

Lemma sample_run_steps ops d : rtc sample_step d (sample_run ops d).
Proof.
  revert d. induction ops as [|[c [o|o]] ops IH]; intros d; [done| |]; simpl;
    (eapply rtc_l; [|apply IH]); [apply istep_execution|apply istep_inbox].
Qed.

Lemma sample_run_reached ops d : sample_reached d → sample_reached (sample_run ops d).
Proof.
  revert d. induction ops as [|[c [o|o]] ops IH]; intros d Hd; [done| |]; simpl; apply IH;
    (eapply ireachable_step; [exact Hd|]); [apply istep_execution|apply istep_inbox].
Qed.

Definition sample_holder : gmap uuid ExecutionTurnLease := {[ 10%N := mkTurnLease 1%N 3%N 7%N 0 2%N None ]}.
Definition sample_turns : gmap uuid Turn :=
  {[ 2%N := mkTurn 1%N TurnStateRunning false 0 9%N (bs "/w") None [] None 0 None None;
     4%N := mkTurn 1%N TurnStateRunning false 0 6%N (bs "/w") None [] None 0 None None ]}.
Definition sample_store : db :=
  mkDb ∅ ∅ [] (mkOthers ∅ sample_turns sample_sessions ∅ ∅ ∅ sample_holder [] [] [] ∅ ∅ ∅ [] [] []).
Definition sample_active : activeTurns := {[ 1%N := mkActive 3%N 2%N ]}.
Definition sample_turnLease : Lease := mkTurnHold 3%N 1%N 2%N.

Definition sample_message (request : uuid) (text : bytes) (parts : list ExecutionInboxPart)
    : AcceptExecutionMessageInput :=
  mkAccept (Some 0%Z) request Nil (bs "/w") text parts [] 4 [].
Definition sample_first : AcceptExecutionMessageInput :=
  sample_message 5%N (bs "also check the tests") [mkPart (bs "how to test") (bs "testing") false].
Definition sample_late : AcceptExecutionMessageInput := sample_message 6%N (bs "one more thing") [].

Definition sample_json (field : bytes) (digits : bytes) : bytes :=
  "{"%char :: Json.QUOTE :: field ++ Json.QUOTE :: ":"%char :: digits ++ [ "}"%char ].
Definition sample_model : ScheduleActivityInput :=
  mkSchedule (bs "model:a") ActivityKindModel ActivityReplayPolicyRetry (bs "model")
    (sample_json (bs "inbox") (bs "5")).
Definition sample_hooks : ScheduleActivityInput :=
  mkSchedule (bs "hooks") ActivityKindTool ActivityReplayPolicyReconcile
    ExecutionTerminalHooksActivityName (bs "{}").
Definition sample_finish : ScheduleActivityInput :=
  mkSchedule ExecutionFinishStepID ActivityKindPreparation ActivityReplayPolicyRetry
    ExecutionFinishActivityName (bs "{}").
Definition sample_delivery : DeliverExecutionMessagesInput :=
  mkDeliver sample_turnLease (mkLease 30%N 7%N 1) [5%N].

(** The root runs. *)
Definition sample_running : db :=
  sample_run [(sample_call 0%N, inl sample_create);
              (sample_call 30%N, inl (OpBegin 1%N 10%N 7%N sample_model))] sample_store.
Definition sample_accepted : db * outcome ExecutionInboxAcceptance :=
  AcceptExecutionMessage 1000 id (sample_call 40%N) sample_active 10%N sample_turnLease sample_first
    sample_running.
Definition sample_delivered : db * outcome ExecutionInboxDelivery :=
  DeliverExecutionMessages 1000 id (sample_call 0%N) sample_active 1%N sample_delivery
    sample_accepted.1.

Example sample_trace :
  (∃ a, sample_accepted.2 = Ok a ∧ in_Sequence (ac_Message a) = 1%Z) ∧
  (∃ r, sample_delivered.2 = Ok r ∧
        mi_Content <$> dl_Messages r = [bs "also check the tests"; bs "how to test"]) ∧
  ms_Content <$> messages (others sample_delivered.1) = [bs "also check the tests"; bs "how to test"].
Proof.
  split; [|split].
  - eexists. split; [vm_compute; reflexivity|reflexivity].
  - eexists. split; [vm_compute; reflexivity|reflexivity].
  - vm_compute. reflexivity.
Qed.

(** The root finishes, with a message deferred behind its hooks. *)
Definition sample_done : db :=
  sample_run [(sample_call 0%N, inl (OpComplete 1%N (mkLease 30%N 7%N 1) sample_result));
              (sample_call 31%N, inl (OpBegin 1%N 10%N 7%N sample_hooks));
              (sample_call 0%N, inl (OpReserve 1%N (mkLease 31%N 7%N 1)));
              (sample_call 41%N, inr (OpDefer sample_active 10%N sample_turnLease sample_late));
              (sample_call 0%N, inl (OpComplete 1%N (mkLease 31%N 7%N 1) sample_result));
              (sample_call 32%N, inl (OpBegin 1%N 10%N 7%N sample_finish));
              (sample_call 0%N, inl (OpComplete 1%N (mkLease 32%N 7%N 1) sample_final))]
    sample_delivered.1.
Definition sample_next (root : uuid) : CreateExecutionInput :=
  mkCreate root 4%N None None (bs "v1") [] (bs "one more thing") (bs "/w") (bs "{}").
Definition sample_forwarded : db * outcome Execution :=
  CreateDeferredExecution 1000 1000 id (sample_call 0%N) 1%N (sample_next 20%N) (Some 41%N) sample_done.

Example sample_end :
  (ex_State <$> executions sample_done !! 10%N) = Some ExecutionStateCompleted ∧
  (in_State <$> inbox (others sample_done) !! 41%N) = Some InboxMessageStateDeferred ∧
  (∃ e, sample_forwarded.2 = Ok e ∧ ex_ID e = 20%N) ∧
  (in_ForwardedExecutionID <$> inbox (others sample_forwarded.1) !! 41%N) = Some (Some 20%N) ∧
  (CreateDeferredExecution 1000 1000 id (sample_call 0%N) 1%N (sample_next 21%N) (Some 41%N)
     sample_forwarded.1).2 = Err ErrAlreadyExists.
Proof.
  split_and!; try (vm_compute; reflexivity).
  eexists. split; [vm_compute; reflexivity|reflexivity].
Qed.

(** Behind the hooks a model request may still name the deferred message, and
    delivers it to the old root. *)
Definition sample_behind : db :=
  sample_run [(sample_call 0%N, inl (OpComplete 1%N (mkLease 30%N 7%N 1) sample_result));
              (sample_call 31%N, inl (OpBegin 1%N 10%N 7%N sample_hooks));
              (sample_call 0%N, inl (OpReserve 1%N (mkLease 31%N 7%N 1)));
              (sample_call 41%N, inr (OpDefer sample_active 10%N sample_turnLease sample_late));
              (sample_call 33%N, inl (OpBegin 1%N 10%N 7%N
                 (mkSchedule (bs "model:b") ActivityKindModel ActivityReplayPolicyRetry (bs "model")
                    (sample_json (bs "inbox") (bs "6")))));
              (sample_call 0%N, inr (OpDeliver sample_active 1%N
                 (mkDeliver sample_turnLease (mkLease 33%N 7%N 1) [6%N])))]
    sample_delivered.1.

Example deferred_message_delivered :
  (in_State <$> inbox (others sample_behind) !! 41%N) = Some InboxMessageStateDelivered ∧
  last (ms_Content <$> messages (others sample_behind)) = Some (bs "one more thing").
Proof. split; vm_compute; reflexivity. Qed.

(** A store from nothing: the session and its turn appear, and a checkpoint is
    appended. *)
Definition sample_checkpoint : list MessageInput :=
  [userMessage (bs "/w") (bs "hello") [] InjectedKindNone;
   userMessage (bs "/w") (bs "world") [] InjectedKindNone].
Definition sample_run_text (ms : list MessageInput) : db :=
  (transaction (appendTranscript 1000 id (sample_call 0%N) sample_turnLease ms []) sample_store).1.

Lemma sample_text_reached :
  treachable 1000 1000 id sample_marshal sample_hash (sample_run_text sample_checkpoint).
Proof.
  eapply treachable_step; [|apply tstep_transcript].
  eapply treachable_step; [apply treachable_empty|]. apply (tstep_others _ _ _ _ _ (others sample_store) (mkDb ∅ ∅ [] noOthers)).
  intros sid. left. unfold messageCount, feedHead. simpl. unfold sample_sessions.
  destruct (decide (sid = 1%N)) as [->|Hne].
  - rewrite lookup_singleton_eq. by vm_compute.
  - rewrite lookup_singleton_ne by done. by vm_compute.
Qed.

(** ** Witnesses *)

Lemma sample_store_reached : sample_reached sample_store.
Proof. by apply ireachable_empty. Qed.

Lemma sample_running_reached : sample_reached sample_running.
Proof. apply sample_run_reached, sample_store_reached. Qed.

Lemma sample_accepted_reached : sample_reached sample_accepted.1.
Proof.
  exact (sample_run_reached [(sample_call 40%N, inr (OpAccept sample_active 10%N sample_turnLease
    sample_first))] sample_running sample_running_reached).
Qed.

Lemma sample_delivered_reached : sample_reached sample_delivered.1.
Proof.
  exact (sample_run_reached [(sample_call 0%N, inr (OpDeliver sample_active 1%N sample_delivery))]
    sample_accepted.1 sample_accepted_reached).
Qed.

Lemma sample_done_reached : sample_reached sample_done.
Proof. apply sample_run_reached, sample_delivered_reached. Qed.

Definition sample_late_row : option ExecutionInboxMessage := inbox (others sample_done) !! 41%N.

Lemma inbox_numbered_witness :
  in_Sequence <$> filter (λ m, in_ExecutionID m = 10%N) (inboxRows sample_done) ≡ₚ [1; 2]%Z.
Proof.
  destruct (inbox_numbered _ _ _ _ _ sample_done sample_done_reached) as [H _].
  specialize (H 10%N). cbv zeta in H. etrans; [exact H|].
  vm_compute. reflexivity.
Defined.

Lemma message_never_lost_witness :
  ∃ m', inbox (others sample_done) !! 40%N = Some m' ∧ in_Message m' = bs "also check the tests".
Proof.
  destruct (inbox (others sample_accepted.1) !! 40%N) as [m|] eqn:Hm;
    [|exfalso; vm_compute in Hm; discriminate Hm].
  assert (Hs : rtc sample_step sample_accepted.1 sample_done).
  { etrans; [|apply (sample_run_steps _ sample_delivered.1)].
    exact (sample_run_steps [(sample_call 0%N, inr (OpDeliver sample_active 1%N sample_delivery))]
             sample_accepted.1). }
  destruct (message_never_lost _ _ _ _ _ _ _ _ m sample_accepted_reached Hs Hm)
    as (m' & Hm' & (_ & _ & _ & _ & _ & _ & _ & _ & E & _) & _).
  exists m'. split; [exact Hm'|]. rewrite E. vm_compute in Hm. injection Hm as <-. reflexivity.
Defined.

Lemma transcript_numbered_witness :
  ms_Sequence <$> messagesOf 1%N (sample_run_text sample_checkpoint) = [1; 2]%Z.
Proof.
  destruct (transcript_numbered 1000 1000 id sample_marshal sample_hash
              (sample_run_text sample_checkpoint) 1%N sample_text_reached) as [H _].
  rewrite H. vm_compute. reflexivity.
Defined.

Lemma AcceptExecutionMessage_once_witness :
  ∃ r m, sample_accepted = (sample_accepted.1, Ok r) ∧
    AcceptExecutionMessage 1000 id (sample_call 77%N) sample_active 10%N sample_turnLease sample_first
      sample_delivered.1 = (sample_delivered.1, Ok (mkAcceptance m [] [])) ∧
    in_State m = InboxMessageStateDelivered.
Proof.
  destruct sample_accepted.2 as [r| | |] eqn:Hr; [|exfalso; vm_compute in Hr; discriminate Hr..].
  assert (Hrun : sample_accepted = (sample_accepted.1, Ok r)) by (rewrite <- Hr; apply surjective_pairing).
  assert (Hs : rtc sample_step sample_accepted.1 sample_delivered.1)
    by exact (sample_run_steps [(sample_call 0%N, inr (OpDeliver sample_active 1%N sample_delivery))]
                sample_accepted.1).
  destruct (AcceptExecutionMessage_once _ _ _ _ _ _ _ _ _ _ _ _ _ _ sample_running_reached Hrun Hs)
    as (m & encoded & _ & Hm & _ & _ & _ & _ & _ & Hagain).
  exists r, m. split; [exact Hrun|].
  destruct (Hagain (sample_call 77%N) sample_active sample_turnLease eq_refl eq_refl eq_refl) as [H _].
  split; [exact H|]. vm_compute in Hr. injection Hr as <-. vm_compute in Hm. by injection Hm as <-.
Defined.

Lemma DeliverExecutionMessages_once_witness :
  ∃ r, sample_delivered = (sample_delivered.1, Ok r) ∧ length (dl_Messages r) = 2 ∧
    DeliverExecutionMessages 1000 id (sample_call 78%N) sample_active 1%N sample_delivery
      sample_delivered.1 = (sample_delivered.1, Ok (mkDelivery [] [])).
Proof.
  destruct sample_delivered.2 as [r| | |] eqn:Hr; [|exfalso; vm_compute in Hr; discriminate Hr..].
  assert (Hrun : sample_delivered = (sample_delivered.1, Ok r))
    by (rewrite <- Hr; apply surjective_pairing).
  exists r. split; [exact Hrun|].
  destruct (DeliverExecutionMessages_once _ _ _ _ _ _ _ _ _ _ _ _ sample_accepted_reached Hrun)
    as (a & _ & _ & Hagain & _).
  split; [|by apply Hagain]. vm_compute in Hr. by injection Hr as <-.
Defined.

Lemma completed_inbox_settled_witness :
  (ex_State <$> executions sample_done !! 10%N) = Some ExecutionStateCompleted ∧
  ∀ i m, inbox (others sample_done) !! i = Some m → in_ExecutionID m = 10%N →
    in_SourceEventID m = None → in_State m ≠ InboxMessageStateQueued.
Proof.
  assert (Hc : (ex_State <$> executions sample_done !! 10%N) = Some ExecutionStateCompleted)
    by (vm_compute; reflexivity).
  split; [exact Hc|]. intros i m Hm HE Hsrc Hq.
  destruct (executions sample_done !! 10%N) as [e|] eqn:He; [|discriminate Hc]. injection Hc as Hc.
  pose proof (completed_inbox_settled _ _ _ _ _ sample_done 10%N e i m sample_done_reached He Hc Hm HE Hq)
    as H. congruence.
Defined.

Lemma deferred_forwarded_once_witness :
  ∃ e m, sample_forwarded = (sample_forwarded.1, Ok e) ∧
    inbox (others sample_forwarded.1) !! 41%N = Some m ∧ in_ForwardedExecutionID m = Some 20%N.
Proof.
  destruct sample_forwarded.2 as [e| | |] eqn:He; [|exfalso; vm_compute in He; discriminate He..].
  assert (Hrun : sample_forwarded = (sample_forwarded.1, Ok e))
    by (rewrite <- He; apply surjective_pairing).
  destruct (deferred_forwarded_once _ _ _ sample_marshal sample_hash _ _ _ _ _ _ _ _ sample_done_reached Hrun
              (rtc_refl _ _)) as [(m & Hm & _ & _ & Hf) _].
  exists e, m. split; [exact Hrun|]. split; [exact Hm|exact Hf].
Defined.

Lemma acceptance_within_capacity_witness :
  QueuedSlots 1%N 10%N InboxMessageStateQueued sample_accepted.1 = 2%Z ∧
  (QueuedSlots 1%N 10%N InboxMessageStateQueued sample_accepted.1 ≤ 4)%Z.
Proof.
  destruct sample_accepted.2 as [r| | |] eqn:Hr; [|exfalso; vm_compute in Hr; discriminate Hr..].
  assert (Hrun : sample_accepted = (sample_accepted.1, Ok r)) by (rewrite <- Hr; apply surjective_pairing).
  destruct (acceptance_within_capacity _ _ _ _ _ _ _ _ _ _ _ _ _ sample_running_reached Hrun)
    as [H1 H2].
  - vm_compute in Hr. injection Hr as <-. vm_compute. reflexivity.
  - by vm_compute.
  - by vm_compute.
  - split; [|exact H2]. etrans; [exact H1|]. vm_compute. reflexivity.
Defined.

(** A paused root with a child, which a message resumes. *)
Definition sample_child : op :=
  OpCreate 1%N (mkCreate 11%N 2%N (Some 10%N) (Some 50%N) (bs "v1") [] (bs "subtask") (bs "/w") (bs "{}")).
Definition sample_agents : gmap uuid AgentRun :=
  {[ 50%N := mkAgentRun 1%N 2%N None AgentRunStateRunning false None [] [] None (bs "/w") [] 0 noResponse [] ]}.
Definition sample_family : db :=
  mkDb ∅ ∅ [] (mkOthers sample_agents sample_turns sample_sessions ∅ ∅ ∅ sample_holder [] [] [] ∅ ∅ ∅ [] [] []).
Definition sample_paused : db :=
  sample_run [(sample_call 0%N, inl sample_create); (sample_call 0%N, inl sample_child);
              (sample_call 0%N, inl (OpPause 1%N 10%N (bs "stop")))] sample_family.
Definition sample_hint : AcceptExecutionMessageInput :=
  mkAccept None 7%N Nil (bs "/w") (bs "go on") [] [] 4 (bs "you were paused").
Definition sample_resumed : db * outcome ExecutionInboxAcceptance :=
  AcceptChildExecutionMessage 1000 id (sample_call 61%N) 60%N 1%N 11%N sample_hint sample_paused.

Lemma AcceptChild_resume_order_witness :
  ∃ r notice, sample_resumed = (sample_resumed.1, Ok r) ∧ ac_Resumed r = [11%N] ∧
    inbox (others sample_resumed.1) !! in_ID notice = Some notice ∧
    in_Message notice = bs "you were paused" ∧ in_Sequence (ac_Message r) = (in_Sequence notice + 1)%Z.
Proof.
  destruct sample_resumed.2 as [r| | |] eqn:Hr; [|exfalso; vm_compute in Hr; discriminate Hr..].
  assert (Hrun : sample_resumed = (sample_resumed.1, Ok r)) by (rewrite <- Hr; apply surjective_pairing).
  assert (Hreach : sample_reached sample_paused)
    by (apply sample_run_reached, ireachable_empty; reflexivity).
  destruct (executions sample_paused !! 11%N) as [e|] eqn:He; [|exfalso; vm_compute in He; discriminate He].
  assert (Hp : ex_State e = ExecutionStatePaused)
    by (vm_compute in He; injection He as <-; reflexivity).
  assert (Hnew : inbox (others sample_paused) !! in_ID (ac_Message r) = None)
    by (vm_compute in Hr; injection Hr as <-; vm_compute; reflexivity).
  destruct (AcceptChild_resume_order _ _ _ _ _ _ _ _ _ _ _ _ _ e Hreach He Hp Hnew Hrun)
    as (_ & _ & _ & _ & _ & Hnotice).
  destruct Hnotice as (notice & Hn & Hm & _ & _ & Hseq); [by vm_compute|].
  exists r, notice. split; [exact Hrun|]. split; [|by split_and!].
  vm_compute in Hr. by injection Hr as <-.
Defined.

End InboxPromises.
