(* ===== verification/Feed.v ===== *)
(** The feed of a session (feed.go): its pages, merged from the events, the
    events of children and the notices of the session.  A page is read with
    one query after the other, so the state may change in between; [ListFeed]
    is the case in which it does not. *)
From stdpp Require Import base gmap sets list strings sorting.
From Stdlib Require Import ZArith Lia Ascii.
From S2P Require Import Prelude GoBytes Executions Transcripts.

Module Feed.
Import Executions Transcripts.

Definition MaximumFeedLimit : Z := 200.
Definition FeedEventTypeNoticeCreated : bytes := bs "notice.created".

Inductive FeedKind := FeedKindEvent | FeedKindAgentRunEvent | FeedKindNotice.
#[export] Instance FeedKind_eq_dec : EqDecision FeedKind.
Proof. solve_decision. Defined.

(** Fields that a kind does not set are [Nil] or [None]. *)
Record FeedItem := mkItem {
  it_SessionID : uuid;
  it_Sequence : Z;
  it_ID : option uuid;
  it_Kind : FeedKind;
  it_EventType : bytes;
  it_RequestID : uuid;
  it_TurnID : uuid;
  it_AgentRunID : uuid;
  it_ParentTurnID : uuid;
  it_ParentAgentRunID : option uuid;
  it_PayloadJSON : bytes;
  it_Notice : option SessionNotice;
  it_CreatedAt : Z }.

Record FeedPage := mkPage {
  pg_Items : list FeedItem;
  pg_NextCursor : Z;
  pg_HasMore : bool;
  pg_Head : Z }.

(** ** The rows of one table *)

Definition byNumber {R} (number : R → Z) : relation R := λ a b, (number a ≤ number b)%Z.
#[export] Instance byNumber_dec {R} (number : R → Z) : RelDecision (byNumber number).
Proof. intros a b. unfold byNumber. apply _. Defined.

(** The query of every kind: [WHERE session_id = ? AND feed_sequence > ? ORDER
    BY feed_sequence LIMIT limit + 1]. *)
Definition rowsAfter {R} (session : R → uuid) (number : R → Z) (rows : list R)
    (sid : uuid) (cursor limit : Z) : list R :=
  take (Z.to_nat (limit + 1)) (merge_sort (byNumber number)
    (filter (λ r, session r = sid ∧ (cursor < number r)%Z) rows)).

Definition eventItem (sid : uuid) (row : Event) : FeedItem :=
  mkItem sid (fe_FeedSequence row) (fe_ID row) FeedKindEvent (fe_EventType row)
    (fe_RequestID row) (fe_TurnID row) Nil Nil None (fe_PayloadJSON row) None (fe_CreatedAt row).

Definition agentRunEventItem (sid : uuid) (row : uuid * AgentRunEvent) : FeedItem :=
  mkItem sid (re_FeedSequence row.2) (Some row.1) FeedKindAgentRunEvent (re_EventType row.2)
    Nil Nil (re_AgentRunID row.2) Nil None (re_PayloadJSON row.2) None (re_CreatedAt row.2).

Definition noticeItem (sid : uuid) (row : SessionNotice) : FeedItem :=
  mkItem sid (sn_FeedSequence row) (Some (sn_ID row)) FeedKindNotice FeedEventTypeNoticeCreated
    Nil Nil Nil Nil None [] (Some row) (sn_CreatedAt row).

Definition listFeedEventItems (d : db) (sid : uuid) (cursor limit : Z) : list FeedItem :=
  eventItem sid <$>
    rowsAfter fe_SessionID fe_FeedSequence (feedEvents (others d)) sid cursor limit.

Definition listFeedAgentRunEventItems (d : db) (sid : uuid) (cursor limit : Z) : list FeedItem :=
  agentRunEventItem sid <$>
    rowsAfter (λ row, re_SessionID row.2) (λ row, re_FeedSequence row.2)
      (map_to_list (agentRunEvents (others d))) sid cursor limit.

Definition listFeedNoticeItems (d : db) (sid : uuid) (cursor limit : Z) : list FeedItem :=
  noticeItem sid <$>
    rowsAfter sn_SessionID sn_FeedSequence (map_to_list (sessionNotices (others d))).*2
      sid cursor limit.

(** ** Merging

    [slices.SortFunc] leaves the order of equal numbers open; the numbers of a
    session are distinct. *)

Definition mergeFeedCandidates (events agentRunEvents notices : list FeedItem) (limit : Z)
    : list FeedItem * bool :=
  let merged := merge_sort (byNumber it_Sequence) (events ++ agentRunEvents ++ notices) in
  if (Z.of_nat (length merged) <=? limit)%Z then (merged, false)
  else (take (Z.to_nat limit) merged, true).

(** The parents come from one query; a run that it does not find leaves its
    items as they are. *)
Definition attachParent (d : db) (sid : uuid) (item : FeedItem) : FeedItem :=
  if bool_decide (it_Kind item = FeedKindAgentRunEvent) then
    match firstRow ar_SessionID (agentRuns (others d)) sid (it_AgentRunID item) with
    | Ok run =>
        mkItem (it_SessionID item) (it_Sequence item) (it_ID item) (it_Kind item)
          (it_EventType item) (it_RequestID item) (it_TurnID item) (it_AgentRunID item)
          (ar_ParentTurnID run) (ar_ParentAgentRunID run) (it_PayloadJSON item)
          (it_Notice item) (it_CreatedAt item)
    | _ => item
    end
  else item.

Definition attachFeedAgentRunParents (d : db) (sid : uuid) (items : list FeedItem)
    : list FeedItem := attachParent d sid <$> items.

(** ** Pages *)

Definition normalizeFeedPage (cursor limit : Z) : outcome (Z * Z) :=
  if (cursor <? 0)%Z then Err ErrValidationFailed
  else if (limit <? 1)%Z || (MaximumFeedLimit <? limit)%Z then Err ErrValidationFailed
  else Ok (cursor, limit).

Definition findSession (d : db) (sid : uuid) : outcome Session :=
  match sessions (others d) !! sid with Some s => Ok s | None => Err ErrNotFound end.

(** The state that each query of a page sees. *)
Record pageReads := mkReads {
  rd_session : db; rd_events : db; rd_runEvents : db; rd_notices : db; rd_runs : db }.

Definition readFeedPage (r : pageReads) (sid : uuid) (cursor limit : Z) : outcome FeedPage :=
  '(cursor, limit) ← normalizeFeedPage cursor limit;
  session ← findSession (rd_session r) sid;
  let '(items, hasMore) :=
    mergeFeedCandidates (listFeedEventItems (rd_events r) sid cursor limit)
      (listFeedAgentRunEventItems (rd_runEvents r) sid cursor limit)
      (listFeedNoticeItems (rd_notices r) sid cursor limit) limit in
  let items := attachFeedAgentRunParents (rd_runs r) sid items in
  Ok (mkPage items (from_option it_Sequence cursor (last items)) hasMore
        (se_FeedSequence session)).

Definition ListFeed (d : db) (sid : uuid) (cursor limit : Z) : outcome FeedPage :=
  readFeedPage (mkReads d d d d d) sid cursor limit.

Definition FeedHead (d : db) (sid : uuid) : outcome Z :=
  session ← findSession d sid; Ok (se_FeedSequence session).

Definition TurnFeedStart (d : db) (sid turnID : uuid) : outcome (Z * bool) :=
  _ ← findSession d sid;
  match merge_sort (byNumber fe_FeedSequence)
          (filter (λ e, fe_SessionID e = sid ∧ fe_TurnID e = turnID) (feedEvents (others d))) with
  | [] => Ok (0%Z, false)
  | first :: _ => Ok (fe_FeedSequence first, true)
  end.

End Feed.
