(* ===== verification/FeedRules.v ===== *)
(** Merging sorted prefixes, and what a page of the feed read from one state
    holds: the first rows after the cursor. *)
From stdpp Require Import base gmap sets list strings sorting.
From Stdlib Require Import ZArith Lia Ascii.
From S2P Require Import Prelude GoBytes Executions Transcripts Feed.

Module FeedRules.
Import Executions Transcripts Feed.

(** ** Lists sorted by a number *)

Section by_number.
Context {A : Type} (number : A → Z).
Local Abbreviation sorted := (StronglySorted (byNumber number)).
Local Abbreviation sort := (merge_sort (byNumber number)).

#[export] Instance byNumber_trans : Transitive (byNumber number).
Proof. intros a b c. unfold byNumber. lia. Qed.
#[export] Instance byNumber_total : Total (byNumber number).
Proof. intros a b. unfold byNumber. lia. Qed.

Lemma sort_sorted l : sorted (sort l).
Proof. apply StronglySorted_merge_sort; apply _. Qed.
Lemma sort_Permutation l : sort l ≡ₚ l.
Proof. apply merge_sort_Permutation. Qed.

Lemma number_inj l x y :
  NoDup (number <$> l) → x ∈ l → y ∈ l → number x = number y → x = y.
Proof.
  induction l as [|z l IH]; intros Hnd Hx Hy He; [set_solver|].
  apply NoDup_cons in Hnd as [Hz Hnd]. setoid_rewrite list_elem_of_fmap in Hz.
  apply elem_of_cons in Hx, Hy. destruct Hx as [->|Hx], Hy as [->|Hy]; [done| | |by auto].
  - destruct Hz. by exists y.
  - destruct Hz. by exists x.
Qed.

Lemma sorted_unique l1 l2 :
  NoDup (number <$> l1) → sorted l1 → sorted l2 → l1 ≡ₚ l2 → l1 = l2.
Proof.
  intros Hnd H1 H2 Hp. eapply StronglySorted_unique_strong; [|done..].
  intros x y Hx Hy ??. rewrite <-Hp in Hy. eapply number_inj; [done..|].
  unfold byNumber in *. lia.
Qed.

Lemma sort_unique l k : NoDup (number <$> l) → sorted l → l ≡ₚ k → sort k = l.
Proof.
  intros Hnd Hl Hp. symmetry. apply sorted_unique; [done..|apply sort_sorted|].
  by rewrite sort_Permutation.
Qed.

Lemma sorted_take n l : sorted l → sorted (take n l).
Proof. intros H. rewrite <-(take_drop n l) in H. by eapply StronglySorted_app_1_l. Qed.

Lemma NoDup_numbers_sub l k : l ⊆+ k → NoDup (number <$> k) → NoDup (number <$> l).
Proof.
  intros Hs Hnd. assert (number <$> l ⊆+ number <$> k) as Hn by by apply fmap_submseteq.
  apply submseteq_Permutation in Hn as [r Hr]. rewrite Hr in Hnd.
  by apply NoDup_app in Hnd as [? _].
Qed.

(** An element among the first [n] of a sorted list is among the first [n] of
    every sorted part of the list. *)
Lemma first_of_part n part rest all x :
  NoDup (number <$> all) → sorted part → sorted all → part ++ rest ≡ₚ all →
  x ∈ take n all → x ∈ part → x ∈ take n part.
Proof.
  intros Hnd Hpart Hall Hp Hx Hin.
  rewrite <-(take_drop n part) in Hin. apply elem_of_app in Hin as [|Hin]; [done|exfalso].
  apply list_elem_of_lookup_1 in Hx as [i Hi]. apply lookup_take_Some in Hi as [Hi Hlt].
  assert (take n part ⊆+ take i all) as Hsub.
  { apply NoDup_submseteq.
    - eapply NoDup_fmap_1, NoDup_numbers_sub; [|exact Hnd]. rewrite <-Hp.
      etrans; [apply submseteq_take|]. by apply submseteq_inserts_r.
    - intros y Hy. assert (y ∈ all) as Hya.
      { rewrite <-Hp. apply elem_of_app. left. by eapply subseteq_take. }
      rewrite <-(take_drop i all) in Hya. apply elem_of_app in Hya as [|Hya]; [done|exfalso].
      rewrite <-(take_drop n part) in Hpart.
      pose proof (StronglySorted_app_1_elem_of _ _ _ _ _ Hpart Hy Hin) as Hyx.
      rewrite (drop_S _ _ _ Hi) in Hya.
      assert (number x ≤ number y)%Z as Hxy.
      { apply elem_of_cons in Hya as [->|Hya]; [done|].
        rewrite <-(take_drop i all), (drop_S _ _ _ Hi) in Hall.
        apply StronglySorted_app_1_r, StronglySorted_cons in Hall as [Hf _].
        rewrite Forall_forall in Hf. by apply Hf. }
      assert (y = x) as ->.
      { eapply number_inj; [exact Hnd| | |unfold byNumber in Hyx; lia];
          rewrite <-Hp; apply elem_of_app; left;
          [by eapply subseteq_take|by eapply subseteq_drop]. }
      assert (NoDup part) as Hndp.
      { eapply NoDup_fmap_1, NoDup_numbers_sub; [|exact Hnd]. rewrite <-Hp.
        by apply submseteq_inserts_r. }
      rewrite <-(take_drop n part) in Hndp. apply NoDup_app in Hndp as (_ & Hd & _).
      by apply (Hd x). }
  apply submseteq_length in Hsub. rewrite !length_take in Hsub.
  assert (n < length part).
  { apply list_elem_of_lookup_1 in Hin as [j Hj]. apply lookup_lt_Some in Hj.
    rewrite length_drop in Hj. lia. }
  apply lookup_lt_Some in Hi. lia.
Qed.

(** The claim of [mergeFeedCandidates]: the first [n] of each part are enough. *)
Lemma merge_prefixes n la lb lc all :
  NoDup (number <$> all) → sorted la → sorted lb → sorted lc → sorted all →
  la ++ lb ++ lc ≡ₚ all →
  take n (sort (take n la ++ take n lb ++ take n lc)) = take n all.
Proof.
  intros Hnd Ha Hb Hc Hall Hp. set (parts := take n la ++ take n lb ++ take n lc).
  assert (parts ⊆+ all) as Hparts.
  { rewrite <-Hp. unfold parts. repeat apply submseteq_app; apply submseteq_take. }
  assert (take n all ⊆+ parts) as Hsub.
  { apply NoDup_submseteq.
    - eapply NoDup_fmap_1, NoDup_numbers_sub; [apply submseteq_take|done].
    - intros x Hx. pose proof (subseteq_take _ _ _ Hx) as Hxa. rewrite <-Hp in Hxa.
      unfold parts. rewrite !elem_of_app in Hxa |- *. destruct Hxa as [H|[H|H]].
      + left. eapply (first_of_part n la); [done..|exact Hp|done|done].
      + right; left. eapply (first_of_part n lb (la ++ lc)); [done..| |done|done].
        rewrite <-Hp. solve_Permutation.
      + right; right. eapply (first_of_part n lc (la ++ lb)); [done..| |done|done].
        rewrite <-Hp. solve_Permutation. }
  apply submseteq_Permutation in Hsub as [rest Hrest].
  assert (sort parts = take n all ++ sort rest) as ->.
  { apply sort_unique.
    - eapply NoDup_numbers_sub; [|exact Hnd].
      rewrite (sort_Permutation rest), <-Hrest. done.
    - apply StronglySorted_app_2; [|by apply sorted_take|apply sort_sorted].
      intros x y Hx Hy. rewrite sort_Permutation in Hy.
      assert (y ∈ drop n all) as Hyd.
      { assert (y ∈ all) as Hya.
        { eapply elem_of_submseteq; [|exact Hparts]. rewrite Hrest. set_solver. }
        rewrite <-(take_drop n all) in Hya. apply elem_of_app in Hya as [Hya|]; [|done].
        exfalso. assert (NoDup (take n all ++ rest)) as Hnd2.
        { eapply NoDup_fmap_1, NoDup_numbers_sub; [|exact Hnd]. by rewrite <-Hrest. }
        apply NoDup_app in Hnd2 as (_ & Hd & _). by apply (Hd y). }
      rewrite <-(take_drop n all) in Hall.
      by eapply StronglySorted_app_1_elem_of.
    - by rewrite (sort_Permutation rest), <-Hrest. }
  destruct (decide (n ≤ length all)) as [Hle|Hgt].
  - rewrite take_app_le by (rewrite length_take; lia). by rewrite take_take, Nat.min_id.
  - rewrite (take_ge all) in Hrest |- * by lia.
    apply submseteq_length in Hparts. apply Permutation_length in Hrest.
    rewrite length_app in Hrest. destruct rest; simpl in *; [|lia].
    rewrite app_nil_r. by apply take_ge; lia.
Qed.

End by_number.

Lemma sorted_fmap {A B} (f : A → Z) (g : B → Z) (h : A → B) l :
  (∀ x, g (h x) = f x) → StronglySorted (byNumber f) l → StronglySorted (byNumber g) (h <$> l).
Proof.
  intros Hh. induction 1 as [|x l _ IH Hx]; simpl; constructor; [done|].
  apply Forall_fmap. eapply Forall_impl; [exact Hx|].
  intros y. unfold byNumber. simpl. by rewrite !Hh.
Qed.

Lemma filter_fmap {A B} (f : A → B) (P : B → Prop) `{∀ x, Decision (P x)} (l : list A) :
  filter P (f <$> l) = f <$> filter (λ x, P (f x)) l.
Proof.
  induction l as [|x l IH]; [done|]. rewrite fmap_cons, !filter_cons.
  case_decide; [by rewrite fmap_cons, IH|done].
Qed.

(** ** The feed of a session as one list *)

Definition eventRows (d : db) (sid : uuid) : list FeedItem :=
  eventItem sid <$> filter (λ r, fe_SessionID r = sid) (feedEvents (others d)).
Definition runEventRows (d : db) (sid : uuid) : list FeedItem :=
  agentRunEventItem sid <$>
    filter (λ r, re_SessionID r.2 = sid) (map_to_list (agentRunEvents (others d))).
Definition noticeRows (d : db) (sid : uuid) : list FeedItem :=
  noticeItem sid <$>
    filter (λ r, sn_SessionID r = sid) (map_to_list (sessionNotices (others d))).*2.

(** The rows that the queries of a page see, and those after a cursor. *)
Definition pageRows (r : pageReads) (sid : uuid) : list FeedItem :=
  eventRows (rd_events r) sid ++ runEventRows (rd_runEvents r) sid ++
  noticeRows (rd_notices r) sid.
Definition after (cursor : Z) (rows : list FeedItem) : list FeedItem :=
  merge_sort (byNumber it_Sequence) (filter (λ i, (cursor < it_Sequence i)%Z) rows).

Definition allAt (d : db) : pageReads := mkReads d d d d d.
Definition feedRows (d : db) (sid : uuid) : list FeedItem := pageRows (allAt d) sid.
Definition numbers (rows : list FeedItem) : list Z := it_Sequence <$> rows.

Lemma rowsAfter_spec {R} session (number : R → Z) rows sid cursor limit (item : R → FeedItem) :
  (∀ r, it_Sequence (item r) = number r) →
  item <$> rowsAfter session number rows sid cursor limit =
    take (Z.to_nat (limit + 1)) (item <$> merge_sort (byNumber number)
      (filter (λ r, session r = sid ∧ (cursor < number r)%Z) rows)) ∧
  StronglySorted (byNumber it_Sequence) (item <$> merge_sort (byNumber number)
      (filter (λ r, session r = sid ∧ (cursor < number r)%Z) rows)) ∧
  item <$> merge_sort (byNumber number)
      (filter (λ r, session r = sid ∧ (cursor < number r)%Z) rows) ≡ₚ
    filter (λ i, (cursor < it_Sequence i)%Z) (item <$> filter (λ r, session r = sid) rows).
Proof.
  intros Hitem. unfold rowsAfter. split_and!.
  - by rewrite fmap_take.
  - eapply sorted_fmap; [exact Hitem|apply sort_sorted].
  - rewrite sort_Permutation, filter_fmap, list_filter_filter.
    apply fmap_Permutation, reflexive_eq, list_filter_iff.
    intros r. simpl. rewrite Hitem. tauto.
Qed.

Definition pageItems (r : pageReads) (sid : uuid) (cursor limit : Z) : list FeedItem :=
  take (Z.to_nat limit) (after cursor (pageRows r sid)).

Lemma numbers_filter cursor rows :
  NoDup (numbers rows) → NoDup (numbers (filter (λ i, (cursor < it_Sequence i)%Z) rows)).
Proof. intros. eapply NoDup_numbers_sub; [|done]. apply sublist_submseteq, sublist_filter. Qed.

(** The candidates of the three queries merge to the first rows after the
    cursor. *)
Lemma merge_candidates r sid cursor limit :
  (1 ≤ limit)%Z → NoDup (numbers (pageRows r sid)) →
  mergeFeedCandidates (listFeedEventItems (rd_events r) sid cursor limit)
    (listFeedAgentRunEventItems (rd_runEvents r) sid cursor limit)
    (listFeedNoticeItems (rd_notices r) sid cursor limit) limit =
  (pageItems r sid cursor limit,
   bool_decide (limit < Z.of_nat (length (after cursor (pageRows r sid))))%Z).
Proof.
  intros Hl Hnd. unfold mergeFeedCandidates, listFeedEventItems, listFeedAgentRunEventItems,
    listFeedNoticeItems, pageItems.
  destruct (rowsAfter_spec fe_SessionID fe_FeedSequence (feedEvents (others (rd_events r))) sid
    cursor limit (eventItem sid)) as (-> & Sa & Pa); [done|].
  destruct (rowsAfter_spec (λ row, re_SessionID row.2) (λ row, re_FeedSequence row.2)
    (map_to_list (agentRunEvents (others (rd_runEvents r)))) sid cursor limit
    (agentRunEventItem sid)) as (-> & Sb & Pb); [done|].
  destruct (rowsAfter_spec sn_SessionID sn_FeedSequence
    (map_to_list (sessionNotices (others (rd_notices r)))).*2 sid cursor limit
    (noticeItem sid)) as (-> & Sc & Pc); [done|].
  set (n := Z.to_nat (limit + 1)) in *.
  set (la := eventItem sid <$> _) in *. set (lb := agentRunEventItem sid <$> _) in *.
  set (lc := noticeItem sid <$> _) in *.
  set (all := after cursor (pageRows r sid)).
  assert (la ++ lb ++ lc ≡ₚ all) as Hp.
  { unfold all, after, pageRows. rewrite sort_Permutation, !filter_app.
    by rewrite <-Pa, <-Pb, <-Pc. }
  assert (NoDup (it_Sequence <$> all)) as Hnda.
  { unfold all, after. rewrite sort_Permutation. by apply numbers_filter. }
  assert (StronglySorted (byNumber it_Sequence) all) as Hsa by apply sort_sorted.
  pose proof (merge_prefixes it_Sequence n la lb lc all Hnda Sa Sb Sc Hsa Hp) as Hm.
  clearbody la lb lc. set (m := merge_sort _ _) in *.
  assert (length m ≤ length all) as Hlen.
  { unfold m. rewrite sort_Permutation, <-Hp, !length_app, !length_take. lia. }
  assert (take (Z.to_nat limit) m = take (Z.to_nat limit) all) as Ht.
  { transitivity (take (Z.to_nat limit) (take n m)); [by rewrite take_take, Nat.min_l by lia|].
    rewrite Hm, take_take. f_equal. lia. }
  pose proof (f_equal length Hm) as Hml. rewrite !length_take in Hml.
  case_if.
  - apply Z.leb_le in Heqb. assert (length all = length m) as Ela by lia.
    rewrite bool_decide_eq_false_2 by lia. f_equal.
    rewrite (take_ge all) by lia. rewrite (take_ge all), (take_ge m) in Hm by lia. done.
  - apply Z.leb_gt in Heqb. rewrite bool_decide_eq_true_2 by lia. by rewrite Ht.
Qed.

(** Attaching parents changes no number and no kind. *)
Lemma attachParent_Sequence d sid i : it_Sequence (attachParent d sid i) = it_Sequence i.
Proof. unfold attachParent. case_bool_decide; [|done]. by destruct firstRow. Qed.
Lemma attach_numbers d sid items :
  numbers (attachFeedAgentRunParents d sid items) = numbers items.
Proof.
  unfold numbers, attachFeedAgentRunParents. rewrite <-list_fmap_compose.
  apply list_fmap_ext. intros ? i ?. apply attachParent_Sequence.
Qed.

Definition pageOf (r : pageReads) (sid : uuid) (cursor limit head : Z) : FeedPage :=
  let items := pageItems r sid cursor limit in
  mkPage (attachFeedAgentRunParents (rd_runs r) sid items)
    (from_option it_Sequence cursor (last items))
    (bool_decide (limit < Z.of_nat (length (after cursor (pageRows r sid))))%Z) head.

Lemma readFeedPage_spec r sid cursor limit session :
  (0 ≤ cursor)%Z → (1 ≤ limit ≤ MaximumFeedLimit)%Z →
  sessions (others (rd_session r)) !! sid = Some session → NoDup (numbers (pageRows r sid)) →
  readFeedPage r sid cursor limit = Ok (pageOf r sid cursor limit (se_FeedSequence session)).
Proof.
  intros Hc Hl Hs Hnd. unfold readFeedPage, normalizeFeedPage.
  rewrite (proj2 (Z.ltb_ge _ _)), (proj2 (Z.ltb_ge limit 1)), (proj2 (Z.ltb_ge _ limit)) by lia.
  simpl. unfold findSession. rewrite Hs. simpl. rewrite merge_candidates by (done || lia).
  unfold pageOf. f_equal. f_equal.
  unfold attachFeedAgentRunParents. rewrite fmap_last.
  destruct (last _); simpl; [apply attachParent_Sequence|done].
Qed.

End FeedRules.
