(* ===== verification/FeedPump.v ===== *)
(** The feed pump (control/feedpump.go): one goroutine for each session that
    carries the committed rows of its feed to the live sink.  The functions of
    the pump are the code between two points where it gives up its mutexes; the
    step relation interleaves them with the commits of the store, whose signals
    arrive in any order. *)
From stdpp Require Import base gmap sets list strings sorting.
From Stdlib Require Import ZArith Lia Ascii.
From S2P Require Import Prelude GoBytes Executions Transcripts Inbox Feed.

Module FeedPump.
Import Executions Transcripts Inbox Feed.

Definition feedPumpPageLimit : Z := MaximumFeedLimit.

(** ** The pump *)

Record feedPumpSession := mkPumpSession {
  lastPublished : Z;
  initialized : bool;
  running : bool;
  dirty : bool }.

(** A watch is the callback that [WatchAdmission] was given, by its address. *)
Record FeedPump := mkPump {
  pu_sessions : gmap uuid feedPumpSession;
  pu_sink : bool;
  pu_watches : gmap (uuid * uuid) positive }.

Definition NewFeedPump : FeedPump := mkPump ∅ false ∅.

Definition setSession (sid : uuid) (s : feedPumpSession) (p : FeedPump) : FeedPump :=
  mkPump (<[sid := s]> (pu_sessions p)) (pu_sink p) (pu_watches p).

Definition SetSink (present : bool) (p : FeedPump) : FeedPump :=
  mkPump (pu_sessions p) present (pu_watches p).

Definition WatchAdmission (sid request : uuid) (watch : positive) (p : FeedPump) : FeedPump :=
  mkPump (pu_sessions p) (pu_sink p) (<[(sid, request) := watch]> (pu_watches p)).

(** The stop that [WatchAdmission] returns. *)
Definition stopWatch (sid request : uuid) (watch : positive) (p : FeedPump) : FeedPump :=
  if bool_decide (pu_watches p !! (sid, request) = Some watch)
  then mkPump (pu_sessions p) (pu_sink p) (delete (sid, request) (pu_watches p))
  else p.

Definition newPumpSession : feedPumpSession := mkPumpSession 0 false false false.

(** The answer says whether a goroutine is started. *)
Definition Signal (sid : uuid) (first : Z) (p : FeedPump) : FeedPump * bool :=
  let state := default newPumpSession (pu_sessions p !! sid) in
  let state := if initialized state then state
               else mkPumpSession (first - 1) true (running state) (dirty state) in
  if running state
  then (setSession sid (mkPumpSession (lastPublished state) (initialized state) true true) p, false)
  else (setSession sid (mkPumpSession (lastPublished state) (initialized state) true (dirty state)) p,
        true).

Definition readCursor (sid : uuid) (p : FeedPump) : Z :=
  lastPublished (default newPumpSession (pu_sessions p !! sid)).

Definition markStopped (sid : uuid) (p : FeedPump) : FeedPump :=
  match pu_sessions p !! sid with
  | Some s => setSession sid (mkPumpSession (lastPublished s) (initialized s) false (dirty s)) p
  | None => p
  end.

(** The end of [runOnce]; the answer says whether to keep looping. *)
Definition finishPage (sid : uuid) (page : FeedPage) (p : FeedPump) : FeedPump * bool :=
  let s := default newPumpSession (pu_sessions p !! sid) in
  let published := pg_NextCursor page in
  if pg_HasMore page
  then (setSession sid (mkPumpSession published (initialized s) (running s) (dirty s)) p, true)
  else if dirty s
  then (setSession sid (mkPumpSession published (initialized s) (running s) false) p, true)
  else (setSession sid (mkPumpSession published (initialized s) false false) p, false).

(** One turn of the loop of [reportAdmissions]: the watch that is called. *)
Definition reportAdmission (sid : uuid) (item : FeedItem) (p : FeedPump)
    : FeedPump * option positive :=
  if negb (bool_decide (it_Kind item = FeedKindEvent)) ||
     negb (bool_decide (it_EventType item = EventTypeUserMessageCreated))
  then (p, None)
  else
    let key := (sid, it_RequestID item) in
    (mkPump (pu_sessions p) (pu_sink p) (delete key (pu_watches p)), pu_watches p !! key).

(** ** The pump at work *)

(** Where the goroutine of a session is: at the top of [run]; between the
    queries of a page, with the states they saw; in [deliver], with the items
    whose admissions are left to report; before the end of [runOnce]. *)
Inductive phase :=
  | Loop
  | Reading (cursor : Z) (seen : list db)
  | Delivering (page : FeedPage) (rest : list FeedItem)
  | Finishing (page : FeedPage).

(** The store, the pump, its goroutines, and the signals of commits that have
    not arrived; then what happened: the pages delivered, with whether a sink
    took them, and the watches called.  [w_starts] is where the pump began a session,
    [w_stalled] the sessions whose last goroutine was stopped by a failed read, a
    panic or the end of the service. *)
Record world := mkWorld {
  w_db : db;
  w_pump : FeedPump;
  w_runs : gmap uuid phase;
  w_signals : list (uuid * Z);
  w_pages : list (uuid * list FeedItem * bool);
  w_admitted : list positive;
  w_starts : gmap uuid Z;
  w_stalled : gset uuid }.

Definition startWorld (d : db) : world := mkWorld d NewFeedPump ∅ [] [] [] ∅ ∅.

Definition withPump (p : FeedPump) (runs : gmap uuid phase) (w : world) : world :=
  mkWorld (w_db w) p runs (w_signals w) (w_pages w) (w_admitted w) (w_starts w) (w_stalled w).

Definition afterCommit (d : db) (signals : list (uuid * Z)) (w : world) : world :=
  mkWorld d (w_pump w) (w_runs w) (w_signals w ++ signals) (w_pages w) (w_admitted w)
    (w_starts w) (w_stalled w).

Definition afterSignal (sid : uuid) (first : Z) (left : list (uuid * Z)) (w : world) : world :=
  let '(p, spawn) := Signal sid first (w_pump w) in
  mkWorld (w_db w) p (if spawn then <[sid := Loop]> (w_runs w) else w_runs w) left
    (w_pages w) (w_admitted w)
    (match pu_sessions (w_pump w) !! sid with
     | None => <[sid := (first - 1)%Z]> (w_starts w) | Some _ => w_starts w end)
    (if spawn then w_stalled w ∖ {[sid]} else w_stalled w).

Definition afterStop (sid : uuid) (w : world) : world :=
  mkWorld (w_db w) (markStopped sid (w_pump w)) (delete sid (w_runs w)) (w_signals w)
    (w_pages w) (w_admitted w) (w_starts w) (w_stalled w ∪ {[sid]}).

Definition afterAdmission (sid : uuid) (page : FeedPage) (item : FeedItem)
    (rest : list FeedItem) (w : world) : world :=
  let '(p, called) := reportAdmission sid item (w_pump w) in
  mkWorld (w_db w) p (<[sid := Delivering page rest]> (w_runs w)) (w_signals w) (w_pages w)
    (w_admitted w ++ option_list called) (w_starts w) (w_stalled w).

Definition afterSink (sid : uuid) (page : FeedPage) (w : world) : world :=
  mkWorld (w_db w) (w_pump w) (<[sid := Finishing page]> (w_runs w)) (w_signals w)
    (if bool_decide (pg_Items page = []) then w_pages w
     else w_pages w ++ [(sid, pg_Items page, pu_sink (w_pump w))])
    (w_admitted w) (w_starts w) (w_stalled w).

Definition afterFinish (sid : uuid) (page : FeedPage) (w : world) : world :=
  let '(p, loop) := finishPage sid page (w_pump w) in
  withPump p (if loop then <[sid := Loop]> (w_runs w) else delete sid (w_runs w)) w.

(** The goroutine of a session is between two queries of one page. *)
Definition betweenQueries (p : phase) : bool :=
  match p with
  | Reading _ seen => bool_decide (seen ≠ []) && (length seen <? 5)
  | _ => false
  end.

(** A page that the sink took is also recorded: nothing fails in between. *)
Definition mayStop (p : phase) : bool := match p with Finishing _ => false | _ => true end.

Section steps.
(** A transaction of the store that committed, with the signals it sends. *)
Variable commit : db → db → list (uuid * Z) → Prop.
(** Whether a commit may fall between the queries of a page, as the code allows. *)
Variable torn : bool.

Inductive step (w : world) : world → Prop :=
  | StepCommit d signals :
      commit (w_db w) d signals →
      (torn = false → map_Forall (λ _ p, betweenQueries p = false) (w_runs w)) →
      step w (afterCommit d signals w)
  | StepSignal sid first l1 l2 :
      w_signals w = l1 ++ (sid, first) :: l2 →
      step w (afterSignal sid first (l1 ++ l2) w)
  | StepBegin sid :
      w_runs w !! sid = Some Loop →
      step w (withPump (w_pump w) (<[sid := Reading (readCursor sid (w_pump w)) []]> (w_runs w)) w)
  | StepQuery sid cursor seen :
      w_runs w !! sid = Some (Reading cursor seen) → length seen < 5 →
      step w (withPump (w_pump w) (<[sid := Reading cursor (seen ++ [w_db w])]> (w_runs w)) w)
  | StepPage sid cursor a b c d e page :
      w_runs w !! sid = Some (Reading cursor [a; b; c; d; e]) →
      readFeedPage (mkReads a b c d e) sid cursor feedPumpPageLimit = Ok page →
      step w (withPump (w_pump w) (<[sid := Delivering page (pg_Items page)]> (w_runs w)) w)
  | StepStop sid p :
      w_runs w !! sid = Some p → mayStop p = true → step w (afterStop sid w)
  | StepAdmission sid page item rest :
      w_runs w !! sid = Some (Delivering page (item :: rest)) →
      step w (afterAdmission sid page item rest w)
  | StepSink sid page :
      w_runs w !! sid = Some (Delivering page []) → step w (afterSink sid page w)
  | StepFinish sid page :
      w_runs w !! sid = Some (Finishing page) → step w (afterFinish sid page w)
  | StepSetSink present :
      step w (withPump (SetSink present (w_pump w)) (w_runs w) w)
  | StepWatch sid request watch :
      step w (withPump (WatchAdmission sid request watch (w_pump w)) (w_runs w) w)
  | StepUnwatch sid request watch :
      step w (withPump (stopWatch sid request watch (w_pump w)) (w_runs w) w).

Definition reachable (d : db) (w : world) : Prop := rtc step (startWorld d) w.

End steps.

(** What the pump delivered of a session, in order. *)
Definition published (w : world) (sid : uuid) : list FeedItem :=
  concat (filter (λ e, e.1.1 = sid) (w_pages w)).*1.*2.

(** Nothing is left to do for a session. *)
Definition quiet (w : world) (sid : uuid) : Prop :=
  w_runs w !! sid = None ∧ sid ∉ (w_signals w).*1.

End FeedPump.
