(* ===== verification/FeedGrowth.v ===== *)
(** What the pump needs of the store: the feed of a session is numbered 1, 2,
    ... up to its head, and a commit only adds rows.  From this, what a page
    holds that is read while commits may happen. *)
From stdpp Require Import base gmap sets list list_numbers strings sorting.
From Stdlib Require Import ZArith Lia Ascii.
From S2P Require Import Prelude GoBytes Executions Transcripts Feed FeedRules.

Module FeedGrowth.
Import Executions Transcripts Feed FeedRules.

(** ** Increasing lists of numbers *)

Lemma seqZ_strict m n : StronglySorted Z.lt (seqZ m n).
Proof.
  destruct (Z_le_gt_dec n 0); [rewrite seqZ_nil by lia; constructor|].
  rewrite <-(Z2Nat.id n) by lia. revert m. induction (Z.to_nat n) as [|k IH]; intros m.
  - rewrite seqZ_nil by lia. constructor.
  - rewrite seqZ_cons by lia. constructor; [replace (Z.pred _) with (Z.of_nat k) by lia; apply IH|].
    apply Forall_seqZ. lia.
Qed.

Lemma strict_unique (l k : list Z) :
  StronglySorted Z.lt l → StronglySorted Z.lt k → l ≡ₚ k → l = k.
Proof. apply StronglySorted_unique_strong. intros ?????. lia. Qed.

Lemma strict_of_sorted rows :
  NoDup (numbers rows) → StronglySorted (byNumber it_Sequence) rows →
  StronglySorted Z.lt (numbers rows).
Proof.
  unfold numbers. intros Hnd. induction 1 as [|x l _ IH Hx]; simpl; constructor.
  - apply IH. by apply NoDup_cons in Hnd as [_ ?].
  - apply NoDup_cons in Hnd as [Hn _]. apply Forall_forall. intros n Hin.
    assert (n ≠ it_Sequence x) by (by intros ->).
    apply list_elem_of_fmap in Hin as (y & -> & Hy).
    rewrite Forall_forall in Hx. specialize (Hx _ Hy). unfold byNumber in Hx. lia.
Qed.

(** [covered torn a b l]: the numbers [l] lie after [a], up to [b], in
    order; they are all of them when no read was torn. *)
Definition covered (torn : bool) (a b : Z) (l : list Z) : Prop :=
  (a ≤ b)%Z ∧ StronglySorted Z.lt l ∧ Forall (λ x, (a < x ≤ b)%Z) l ∧
  (torn = false → l = seqZ (a + 1) (b - a)).

Lemma covered_nil torn a : covered torn a a [].
Proof. split_and!; [lia|constructor..|]. intros _. by rewrite seqZ_nil by lia. Qed.

Lemma covered_app torn a b c l k :
  covered torn a b l → covered torn b c k → covered torn a c (l ++ k).
Proof.
  intros (Hab & Sl & Fl & El) (Hbc & Sk & Fk & Ek). split_and!.
  - lia.
  - apply StronglySorted_app_2; [|done..]. intros x y Hx Hy.
    rewrite Forall_forall in Fl, Fk. specialize (Fl _ Hx). specialize (Fk _ Hy). lia.
  - apply Forall_app. split; (eapply Forall_impl; [done|]); simpl; lia.
  - intros Ht. rewrite El, Ek by done.
    replace (c - a)%Z with (b - a + (c - b))%Z by lia. rewrite seqZ_app by lia.
    do 2 f_equal. lia.
Qed.

(** ** Growth *)

Definition feedHead (d : db) (sid : uuid) : Z :=
  from_option se_FeedSequence 0%Z (sessions (others d) !! sid).

(** The rows of a session are numbered 1, 2, ... up to its head. *)
Definition contiguousAt (d : db) (sid : uuid) : Prop :=
  (0 ≤ feedHead d sid)%Z ∧ numbers (feedRows d sid) ≡ₚ seqZ 1 (feedHead d sid).

(** A feed that the store built: contiguous, with heads in range, and every
    notice stored under its id. *)
Record feedContiguous (d : db) : Prop := {
  fc_at sid : contiguousAt d sid;
  fc_max sid : (feedHead d sid ≤ max_int64)%Z;
  fc_notices id n : sessionNotices (others d) !! id = Some n → sn_ID n = id }.

Record feedGrows (d d' : db) : Prop := {
  grows_events sid : numbers (eventRows d sid) ⊆+ numbers (eventRows d' sid);
  grows_runEvents sid : numbers (runEventRows d sid) ⊆+ numbers (runEventRows d' sid);
  grows_notices sid : numbers (noticeRows d sid) ⊆+ numbers (noticeRows d' sid);
  grows_head sid : (feedHead d sid ≤ feedHead d' sid)%Z }.

#[export] Instance feedGrows_preorder : PreOrder feedGrows.
Proof.
  split; [by split|]. intros a b c [] []. split; intros sid.
  - by transitivity (numbers (eventRows b sid)).
  - by transitivity (numbers (runEventRows b sid)).
  - by transitivity (numbers (noticeRows b sid)).
  - by transitivity (feedHead b sid).
Qed.

(** The promise of the store to the pump: a commit keeps the feed contiguous,
    only adds to it, and signals every session whose feed gained rows, with the
    first number it gained. *)
Class FeedCommits (commit : db → db → list (uuid * Z) → Prop) := {
  commit_contiguous d d' signals :
    commit d d' signals → feedContiguous d → feedContiguous d';
  commit_grows d d' signals : commit d d' signals → feedContiguous d → feedGrows d d';
  commit_signals d d' signals sid first :
    commit d d' signals → feedContiguous d →
    (sid, first) ∈ signals ↔
      first = (feedHead d sid + 1)%Z ∧ (feedHead d sid < feedHead d' sid)%Z }.

(** ** Pages *)

Lemma contiguous_NoDup d sid : contiguousAt d sid → NoDup (numbers (feedRows d sid)).
Proof. intros [_ ->]. apply NoDup_seqZ. Qed.

Lemma numbers_pageRows r sid :
  numbers (pageRows r sid) = numbers (eventRows (rd_events r) sid) ++
    numbers (runEventRows (rd_runEvents r) sid) ++ numbers (noticeRows (rd_notices r) sid).
Proof. unfold pageRows, numbers. by rewrite !fmap_app. Qed.

(** The rows that a page sees exist when its last table is read. *)
Lemma pageRows_sub r sid :
  feedGrows (rd_events r) (rd_runEvents r) → feedGrows (rd_runEvents r) (rd_notices r) →
  numbers (pageRows r sid) ⊆+ numbers (feedRows (rd_notices r) sid).
Proof.
  intros H1 H2. pose proof (transitivity H1 H2) as H12.
  unfold feedRows. rewrite !numbers_pageRows. simpl.
  repeat apply submseteq_app; [apply H12|apply H2|done].
Qed.

Lemma pageRows_NoDup r sid :
  feedGrows (rd_events r) (rd_runEvents r) → feedGrows (rd_runEvents r) (rd_notices r) →
  contiguousAt (rd_notices r) sid → NoDup (numbers (pageRows r sid)).
Proof.
  intros H1 H2 Hc. pose proof (pageRows_sub r sid H1 H2) as Hs.
  apply submseteq_Permutation in Hs as [k Hk].
  pose proof (contiguous_NoDup _ _ Hc) as Hnd. rewrite Hk in Hnd.
  by apply NoDup_app in Hnd as [? _].
Qed.

Lemma numbers_after cursor rows :
  numbers (after cursor rows) ≡ₚ filter (λ n, (cursor < n)%Z) (numbers rows).
Proof.
  unfold numbers, after. rewrite sort_Permutation. by rewrite filter_fmap.
Qed.

Lemma after_strict cursor rows :
  NoDup (numbers rows) → StronglySorted Z.lt (numbers (after cursor rows)).
Proof.
  intros Hnd. apply strict_of_sorted; [|apply sort_sorted].
  rewrite numbers_after. by apply NoDup_filter.
Qed.

(** In a contiguous feed the rows after a cursor are the numbers up to the head. *)
Lemma after_contiguous d sid cursor :
  contiguousAt d sid → (0 ≤ cursor ≤ feedHead d sid)%Z →
  numbers (after cursor (feedRows d sid)) = seqZ (cursor + 1) (feedHead d sid - cursor).
Proof.
  intros Hc Hcur. apply strict_unique; [|apply seqZ_strict|].
  - by apply after_strict, contiguous_NoDup.
  - rewrite numbers_after. apply NoDup_Permutation.
    + by apply NoDup_filter, contiguous_NoDup.
    + apply NoDup_seqZ.
    + intros n. rewrite list_elem_of_filter. destruct Hc as [_ Hp].
      rewrite Hp, !elem_of_seqZ. lia.
Qed.

Lemma take_seqZ k m n :
  (0 ≤ k)%Z → take (Z.to_nat k) (seqZ m n) = seqZ m (Z.min k n).
Proof.
  intros Hk. destruct (Z_le_gt_dec n k).
  - rewrite take_ge by (rewrite length_seqZ; lia). f_equal. lia.
  - replace n with (k + (n - k))%Z at 1 by lia. rewrite seqZ_app by lia.
    rewrite take_app_length' by (rewrite length_seqZ; lia). f_equal. lia.
Qed.

Lemma last_number cursor items :
  from_option it_Sequence cursor (last items) = default cursor (last (numbers items)).
Proof. unfold numbers. rewrite fmap_last. by destruct (last items). Qed.

Lemma last_strict cursor (l : list Z) x :
  StronglySorted Z.lt l → Forall (Z.lt cursor) l →
  (cursor ≤ default cursor (last l))%Z ∧ (x ∈ l → x ≤ default cursor (last l))%Z.
Proof.
  intros Hs Hf. destruct l as [|y k _] using rev_ind; [split; [done|set_solver]|].
  rewrite last_snoc. simpl. split.
  - rewrite Forall_app, Forall_singleton in Hf. lia.
  - intros [Hin| ->%list_elem_of_singleton]%elem_of_app; [|done].
    apply Z.lt_le_incl. eapply StronglySorted_app_1_elem_of; [exact Hs|done|]. set_solver.
Qed.

Lemma last_seqZ cursor n :
  (0 ≤ n)%Z → default cursor (last (seqZ (cursor + 1) n)) = (cursor + n)%Z.
Proof.
  intros Hn. destruct (decide (n = 0%Z)) as [->|]; [rewrite seqZ_nil by lia; simpl; lia|].
  replace n with (Z.of_nat (S (Z.to_nat (n - 1)))) at 1 by lia.
  rewrite seqZ_S, last_snoc. simpl. lia.
Qed.

Lemma numbers_take k rows : numbers (take k rows) = take k (numbers rows).
Proof. unfold numbers. apply fmap_take. Qed.

Lemma page_items torn r sid cursor limit head :
  (0 ≤ cursor)%Z → (1 ≤ limit)%Z →
  feedGrows (rd_events r) (rd_runEvents r) → feedGrows (rd_runEvents r) (rd_notices r) →
  contiguousAt (rd_notices r) sid → (cursor ≤ feedHead (rd_notices r) sid)%Z →
  (torn = false → rd_events r = rd_notices r ∧ rd_runEvents r = rd_notices r) →
  let page := pageOf r sid cursor limit head in
  covered torn cursor (pg_NextCursor page) (numbers (pg_Items page)) ∧
  (pg_NextCursor page ≤ feedHead (rd_notices r) sid)%Z ∧
  (torn = false → pg_HasMore page = true ∨ pg_NextCursor page = feedHead (rd_notices r) sid).
Proof.
  intros Hcur Hl H1 H2 Hc Hhead Hsame page. unfold page, pageOf. simpl.
  rewrite attach_numbers, last_number. unfold pageItems. rewrite numbers_take.
  pose proof (pageRows_NoDup r sid H1 H2 Hc) as Hnd.
  pose proof (after_strict cursor _ Hnd) as Hs.
  set (l := numbers (after cursor (pageRows r sid))) in *.
  assert (Forall (λ n, (cursor < n ≤ feedHead (rd_notices r) sid)%Z) l) as Hf.
  { apply Forall_forall. intros n Hn. unfold l in Hn.
    rewrite numbers_after, list_elem_of_filter in Hn. destruct Hn as [Hlt Hn].
    eapply elem_of_submseteq in Hn; [|by apply pageRows_sub].
    destruct Hc as [_ Hp]. rewrite Hp, elem_of_seqZ in Hn. lia. }
  set (k := take (Z.to_nat limit) l).
  assert (StronglySorted Z.lt k) as Hsk.
  { rewrite <-(take_drop (Z.to_nat limit) l) in Hs. by eapply StronglySorted_app_1_l. }
  assert (Forall (λ n, (cursor < n ≤ feedHead (rd_notices r) sid)%Z) k) as Hfk by by apply Forall_take.
  assert (Forall (Z.lt cursor) k) as Hck by (eapply Forall_impl; [exact Hfk|simpl; lia]).
  assert (torn = false → l = seqZ (cursor + 1) (feedHead (rd_notices r) sid - cursor)) as Hall.
  { intros Ht. destruct (Hsame Ht) as [E1 E2]. unfold l.
    rewrite <-(after_contiguous _ _ _ Hc) by lia. unfold feedRows, pageRows.
    simpl. by rewrite E1, E2. }
  split_and!.
  - split_and!; [by apply (last_strict _ _ 0%Z)|done| |].
    + apply Forall_forall. intros n Hn. split; [by rewrite Forall_forall in Hck; apply Hck|].
      by apply last_strict.
    + intros Ht. unfold k. rewrite (Hall Ht), take_seqZ, last_seqZ by lia. f_equal. lia.
  - destruct (last k) as [n|] eqn:En; simpl; [|lia].
    apply last_Some_elem_of in En. rewrite Forall_forall in Hfk. by apply Hfk.
  - intros Ht. case_bool_decide as Hm; [by left|right].
    unfold k. assert (length (after cursor (pageRows r sid)) = length l) as Elen
      by (unfold l, numbers; by rewrite length_fmap).
    rewrite (Hall Ht) in Elen |- *. rewrite length_seqZ in Elen.
    rewrite take_seqZ, last_seqZ by lia. lia.
Qed.

End FeedGrowth.
