(* ===== verification/FeedPumpRules.v ===== *)
(** The invariant of the feed pump: every step keeps it. *)
From stdpp Require Import base gmap sets list list_numbers strings sorting.
From Stdlib Require Import ZArith Lia Ascii.
From S2P Require Import Prelude GoBytes Executions Transcripts Inbox Feed FeedRules FeedGrowth FeedPump.

Module FeedPumpRules.
Import Executions Transcripts Inbox Feed FeedRules FeedGrowth FeedPump.

Definition publishedNumbers (w : world) (sid : uuid) : list Z := numbers (published w sid).

Definition waiting (w : world) (sid : uuid) : Prop := sid ∈ (w_signals w).*1.

Section invariant.
Context (commit : db → db → list (uuid * Z) → Prop) `{!FeedCommits commit}.
Variable torn : bool.

(** The states that the queries of a page saw so far. *)
Record snapshots (w : world) (seen : list db) : Prop := {
  seen_sorted : StronglySorted feedGrows (seen ++ [w_db w]);
  seen_contiguous : Forall feedContiguous seen;
  seen_length : length seen ≤ 5;
  seen_same : torn = false → ∀ x y, x ∈ seen → y ∈ seen → x = y;
  seen_now : torn = false → length seen < 5 → ∀ x, x ∈ seen → x = w_db w }.

(** Rows that committed after a read will be read: the goroutine loops again
    or a signal is on its way. *)
Definition revisits (w : world) (sid : uuid) (s : feedPumpSession) : Prop :=
  dirty s = true ∨ waiting w sid.

Definition phaseOK (w : world) (sid : uuid) (a : Z) (s : feedPumpSession) : Prop :=
  let l := publishedNumbers w sid in
  match w_runs w !! sid with
  | None | Some Loop => covered torn a (lastPublished s) l
  | Some (Reading cursor seen) =>
      cursor = lastPublished s ∧ covered torn a (lastPublished s) l ∧ snapshots w seen ∧
      Forall (λ d, (lastPublished s ≤ feedHead d sid)%Z) seen
  | Some (Delivering page rest) =>
      covered torn a (lastPublished s) l ∧
      covered torn (lastPublished s) (pg_NextCursor page) (numbers (pg_Items page)) ∧
      (pg_NextCursor page ≤ feedHead (w_db w) sid)%Z
  | Some (Finishing page) =>
      covered torn a (pg_NextCursor page) l ∧ (pg_NextCursor page ≤ feedHead (w_db w) sid)%Z
  end.

Definition wakes (w : world) (sid : uuid) (s : feedPumpSession) : Prop :=
  match w_runs w !! sid with
  | None => (feedHead (w_db w) sid ≤ lastPublished s)%Z ∨ waiting w sid ∨ sid ∈ w_stalled w
  | Some Loop => True
  | Some (Reading _ seen) =>
      ∀ d, d ∈ seen → (feedHead d sid < feedHead (w_db w) sid)%Z → revisits w sid s
  | Some (Delivering page _) | Some (Finishing page) =>
      pg_HasMore page = true ∨ (feedHead (w_db w) sid ≤ pg_NextCursor page)%Z ∨ revisits w sid s
  end.

Definition sessionOK (w : world) (sid : uuid) : Prop :=
  match pu_sessions (w_pump w) !! sid with
  | None => w_runs w !! sid = None ∧ published w sid = [] ∧ w_starts w !! sid = None
  | Some s =>
      initialized s = true ∧ (running s = true ↔ is_Some (w_runs w !! sid)) ∧
      (∃ a, w_starts w !! sid = Some a ∧ (0 ≤ a)%Z ∧ phaseOK w sid a s) ∧
      (0 ≤ lastPublished s ≤ feedHead (w_db w) sid)%Z ∧ (torn = false → wakes w sid s)
  end.

Definition signalsOK (w : world) : Prop :=
  Forall (λ e, (1 ≤ e.2 ≤ feedHead (w_db w) e.1)%Z) (w_signals w).

Definition pumpOK (w : world) : Prop :=
  feedContiguous (w_db w) ∧ signalsOK w ∧ ∀ sid, sessionOK w sid.

(** ** The start *)

Lemma start_OK d : feedContiguous d → pumpOK (startWorld d).
Proof. intros Hd. split_and!; [done|constructor|]. intros sid. done. Qed.

(** ** Commits *)

Lemma snapshots_commit w d signals seen :
  snapshots w seen → feedContiguous (w_db w) → commit (w_db w) d signals →
  (torn = false → bool_decide (seen ≠ []) && (length seen <? 5) = false) →
  snapshots (afterCommit d signals w) seen.
Proof.
  intros [Hs Hc Hl Hsame Hnow] Hw Hcm Ht. split; simpl; try done.
  - pose proof (commit_grows _ _ _ Hcm Hw) as Hg.
    apply StronglySorted_app in Hs as (Hcross & Hseen & _).
    apply StronglySorted_app_2; [|done|by repeat constructor].
    intros x y Hx ->%list_elem_of_singleton. etrans; [|exact Hg].
    apply Hcross; [done|set_solver].
  - intros Htf Hlt x Hx. specialize (Ht Htf).
    destruct seen as [|y seen]; [set_solver|].
    rewrite bool_decide_eq_true_2 in Ht by done. simpl in Ht.
    rewrite (proj2 (Nat.ltb_lt (S (length seen)) 5)) in Ht by (simpl in Hlt; lia). done.
Qed.

Lemma waiting_commit w d signals sid :
  waiting w sid → waiting (afterCommit d signals w) sid.
Proof. unfold waiting. simpl. rewrite fmap_app. set_solver. Qed.

Lemma commit_wakes w d signals sid :
  feedContiguous (w_db w) → commit (w_db w) d signals →
  (feedHead (w_db w) sid < feedHead d sid)%Z → waiting (afterCommit d signals w) sid.
Proof.
  intros Hw Hc Hlt. unfold waiting. simpl. rewrite fmap_app, elem_of_app. right.
  apply list_elem_of_fmap. exists (sid, feedHead (w_db w) sid + 1)%Z.
  split; [done|]. by apply (commit_signals _ _ _ _ _ Hc Hw).
Qed.

Lemma commit_OK w d signals :
  pumpOK w → commit (w_db w) d signals →
  (torn = false → map_Forall (λ _ p, betweenQueries p = false) (w_runs w)) →
  pumpOK (afterCommit d signals w).
Proof.
  intros (Hw & Hsig & Hall) Hc Ht. pose proof (commit_grows _ _ _ Hc Hw) as Hg.
  split_and!; [by eapply commit_contiguous| |].
  - unfold signalsOK. simpl. apply Forall_app. split.
    + eapply Forall_impl; [exact Hsig|]. intros [sid f]. simpl.
      pose proof (grows_head _ _ Hg sid). lia.
    + apply Forall_forall. intros [sid f] Hin. simpl.
      apply (commit_signals _ _ _ _ _ Hc Hw) in Hin as [-> Hlt].
      destruct (fc_at _ Hw sid) as [Hz _]. lia.
  - intros sid. specialize (Hall sid). unfold sessionOK in *. simpl.
    destruct (pu_sessions (w_pump w) !! sid) as [s|]; [|done].
    destruct Hall as (Hi & Hr & (a & Ha & Ha0 & Hph) & Hlp & Hwk).
    pose proof (grows_head _ _ Hg sid) as Hgh.
    assert (torn = false → ∀ p, w_runs w !! sid = Some p → betweenQueries p = false) as Hb
      by (intros Htf p Hp; by apply (Ht Htf sid p)).
    split_and!; [done|done| |lia|lia|].
    + exists a. split_and!; [done..|]. unfold phaseOK in *. simpl.
      destruct (w_runs w !! sid) as [[|cursor seen|page rest|page]|]; try done.
      * destruct Hph as (? & ? & Hsn & ?). split_and!; [done..| |done].
        eapply snapshots_commit; [done..|]. intros Htf. by apply (Hb Htf (Reading cursor seen)).
      * destruct Hph as (? & ? & ?). split_and!; [done..|lia].
      * destruct Hph as (? & ?). split; [done|lia].
    + intros Htf. specialize (Hwk Htf). unfold wakes in *. simpl.
      assert ((feedHead d sid ≤ feedHead (w_db w) sid)%Z ∨ waiting (afterCommit d signals w) sid)
        as Hcase.
      { destruct (Z_le_gt_dec (feedHead d sid) (feedHead (w_db w) sid)); [by left|right].
        eapply commit_wakes; [done..|lia]. }
      assert (revisits w sid s → revisits (afterCommit d signals w) sid s) as Hrev
        by (intros [?|?]; [by left|right; by apply waiting_commit]).
      destruct (w_runs w !! sid) as [[|cursor seen|page rest|page]|]; [done| | | |].
      * intros x Hx Hlt. destruct Hcase as [Hle|]; [|by right].
        apply Hrev, (Hwk x Hx). lia.
      * destruct Hwk as [?|[?|?]]; [by left| |right; right; by apply Hrev].
        destruct Hcase; [right; left; lia|right; right; by right].
      * destruct Hwk as [?|[?|?]]; [by left| |right; right; by apply Hrev].
        destruct Hcase; [right; left; lia|right; right; by right].
      * destruct Hwk as [?|[?|?]]; [|right; left; by apply waiting_commit|by right; right].
        destruct Hcase; [left; lia|right; by left].
Qed.

(** ** The steps of the pump

    A step changes one session; what the others see is the same. *)

Lemma session_frame w w' sid :
  w_db w' = w_db w → pu_sessions (w_pump w') !! sid = pu_sessions (w_pump w) !! sid →
  w_runs w' !! sid = w_runs w !! sid → published w' sid = published w sid →
  w_starts w' !! sid = w_starts w !! sid → (waiting w sid → waiting w' sid) →
  (sid ∈ w_stalled w → sid ∈ w_stalled w') → sessionOK w sid → sessionOK w' sid.
Proof.
  intros Ed Ep Er El Es Hw Hst. unfold sessionOK. rewrite Ep, Er, El, Es.
  destruct (pu_sessions (w_pump w) !! sid) as [s|]; [|done].
  intros (Hi & Hr & (a & Ha & Ha0 & Hph) & Hlp & Hwk). rewrite Ed.
  split_and!; [done|done| |lia|lia|].
  - exists a. split_and!; [done..|]. unfold phaseOK, publishedNumbers in *. rewrite Er, El, Ed.
    destruct (w_runs w !! sid) as [[|cursor seen|page rest|page]|]; try done.
    destruct Hph as (? & ? & [] & ?). split_and!; try done. split; rewrite ?Ed; try done.
  - intros Ht. specialize (Hwk Ht). unfold wakes, revisits in *. rewrite Er, Ed.
    destruct (w_runs w !! sid) as [[|cursor seen|page rest|page]|]; naive_solver.
Qed.

Lemma signal_first w sid first l1 l2 :
  signalsOK w → w_signals w = l1 ++ (sid, first) :: l2 →
  (1 ≤ first ≤ feedHead (w_db w) sid)%Z ∧
  Forall (λ e, (1 ≤ e.2 ≤ feedHead (w_db w) e.1)%Z) (l1 ++ l2) ∧
  ∀ sid', sid' ≠ sid → waiting w sid' → sid' ∈ (l1 ++ l2).*1.
Proof.
  unfold signalsOK, waiting. intros Hs E. rewrite E in Hs |- *.
  apply Forall_app in Hs as [H1 H2]. apply Forall_cons in H2 as [H H2]. simpl in H.
  split_and!; [lia|lia|by apply Forall_app|].
  intros sid' Hne. rewrite !fmap_app, fmap_cons. simpl. set_solver.
Qed.

Lemma signal_OK w sid first l1 l2 :
  pumpOK w → w_signals w = l1 ++ (sid, first) :: l2 → pumpOK (afterSignal sid first (l1 ++ l2) w).
Proof.
  intros (Hw & Hsig & Hall) E.
  pose proof (signal_first w sid first l1 l2 Hsig E) as (Hfirst & Hleft & Hothers).
  unfold afterSignal, Signal. pose proof (Hall sid) as Hsid. unfold sessionOK in Hsid.
  destruct (pu_sessions (w_pump w) !! sid) as [s|] eqn:Es; simpl.
  - destruct Hsid as (Hi & Hr & (a & Ha & Ha0 & Hph) & Hlp & Hwk). rewrite Hi.
    destruct (running s) eqn:Erun; split_and!; try done.
    + intros sid'. destruct (decide (sid' = sid)) as [->|Hne].
      2: { eapply (session_frame w); try done; simpl; [|by apply Hothers].
           by rewrite lookup_insert_ne. }
      unfold sessionOK. simpl. rewrite lookup_insert_eq. simpl.
      split_and!; [done|by rewrite <-Hr| |lia|lia|].
      * exists a. split_and!; [done..|]. unfold phaseOK, publishedNumbers, published in *. simpl.
        destruct (w_runs w !! sid) as [[|cursor seen|page rest|page]|]; try done.
        destruct Hph as (? & ? & [] & ?). split_and!; try done.
      * intros _. destruct (proj1 Hr eq_refl) as [p Hp]. unfold wakes, revisits. simpl. rewrite Hp.
        destruct p; simpl; auto.
    + intros sid'. destruct (decide (sid' = sid)) as [->|Hne].
      2: { eapply (session_frame w); try done; simpl.
           - by rewrite lookup_insert_ne.
           - by rewrite lookup_insert_ne.
           - by apply Hothers.
           - set_solver. }
      assert (w_runs w !! sid = None) as Hnone.
      { destruct (w_runs w !! sid) eqn:Er; [|done]. destruct Hr as [_ Hr].
        discriminate Hr. by eexists. }
      unfold sessionOK. simpl. rewrite !lookup_insert_eq. simpl.
      split_and!; [done|done| |lia|lia|].
      * exists a. split_and!; [done..|]. unfold phaseOK, publishedNumbers, published in *.
        simpl. rewrite lookup_insert_eq. by rewrite Hnone in Hph.
      * intros _. unfold wakes. simpl. by rewrite lookup_insert_eq.
  - destruct Hsid as (Hr & Hpub & Hst). split_and!; [done|done|].
    intros sid'. destruct (decide (sid' = sid)) as [->|Hne].
    2: { eapply (session_frame w); try done; simpl.
         - by rewrite lookup_insert_ne.
         - by rewrite lookup_insert_ne.
         - by rewrite lookup_insert_ne.
         - by apply Hothers.
         - set_solver. }
    unfold sessionOK. simpl. rewrite !lookup_insert_eq. simpl.
    split_and!; [done|done| |lia|lia|].
    + exists (first - 1)%Z. split_and!; [done|lia|]. unfold phaseOK, publishedNumbers. simpl.
      rewrite lookup_insert_eq. unfold published in *. simpl. rewrite Hpub. apply covered_nil.
    + intros _. unfold wakes. simpl. by rewrite lookup_insert_eq.
Qed.

(** A step that moves the goroutine of one session and leaves its cursor. *)
Lemma move_OK w w' sid p' :
  pumpOK w → is_Some (w_runs w !! sid) → w_db w' = w_db w → w_signals w' = w_signals w →
  pu_sessions (w_pump w') = pu_sessions (w_pump w) → w_runs w' = <[sid := p']> (w_runs w) →
  (∀ sid', sid' ≠ sid → published w' sid' = published w sid') →
  w_starts w' = w_starts w → w_stalled w' = w_stalled w →
  (∀ a s, pu_sessions (w_pump w) !! sid = Some s → w_starts w !! sid = Some a → (0 ≤ a)%Z →
     (0 ≤ lastPublished s ≤ feedHead (w_db w) sid)%Z → phaseOK w sid a s →
     (torn = false → wakes w sid s) → phaseOK w' sid a s ∧ (torn = false → wakes w' sid s)) →
  pumpOK w'.
Proof.
  intros (Hw & Hsig & Hall) [p Hp] Ed Eg Es Er Epub Est Esl Hmain. split_and!.
  - by rewrite Ed.
  - unfold signalsOK in *. by rewrite Eg, Ed.
  - intros sid'. destruct (decide (sid' = sid)) as [->|Hne].
    + specialize (Hall sid). unfold sessionOK in *. rewrite Es, Er, lookup_insert_eq.
      destruct (pu_sessions (w_pump w) !! sid) as [s|] eqn:Hs; [|by rewrite Hp in Hall; naive_solver].
      destruct Hall as (Hi & Hr & (a & Ha & Ha0 & Hph) & Hlp & Hwk).
      destruct (Hmain a s) as [Hph' Hwk']; [done..|]. rewrite Ed.
      split_and!; [done| | |lia|lia|done].
      * rewrite Hr, Hp. split; by eexists.
      * exists a. rewrite Est. by split_and!.
    + eapply (session_frame w); try done.
      * by rewrite Es.
      * by rewrite Er, lookup_insert_ne.
      * by apply Epub.
      * by rewrite Est.
      * unfold waiting. by rewrite Eg.
      * by rewrite Esl.
Qed.

Ltac move_step sid := eapply (move_OK _ _ sid); try done.

Lemma begin_OK w sid :
  pumpOK w → w_runs w !! sid = Some Loop →
  pumpOK (withPump (w_pump w) (<[sid := Reading (readCursor sid (w_pump w)) []]> (w_runs w)) w).
Proof.
  intros Hok Hp. move_step sid.
  intros a s Hs Ha Ha0 Hlp Hph _. unfold phaseOK, wakes in *. rewrite Hp in Hph. simpl.
  rewrite lookup_insert_eq. unfold readCursor. rewrite Hs. simpl.
  split; [|intros _ d Hd; set_solver]. split_and!; [done|done| |constructor].
  split; simpl; [repeat constructor|constructor|lia|set_solver..].
Qed.

Lemma snapshots_query w w' seen :
  w_db w' = w_db w → feedContiguous (w_db w) → length seen < 5 → snapshots w seen →
  snapshots w' (seen ++ [w_db w]).
Proof.
  intros Ed Hw Hl [Hs Hc _ Hsame Hnow]. split; rewrite ?Ed.
  - apply StronglySorted_app_2; [|done|by repeat constructor].
    intros x y Hx ->%list_elem_of_singleton. apply elem_of_app in Hx as [Hx|Hx].
    + apply StronglySorted_app in Hs as (Hcr & _ & _). apply Hcr; [done|set_solver].
    + by apply list_elem_of_singleton in Hx as ->.
  - apply Forall_app. split; [done|by apply Forall_singleton].
  - rewrite length_app. simpl. lia.
  - intros Ht x y Hx Hy. assert (∀ z, z ∈ seen ++ [w_db w] → z = w_db w) as Hz.
    { intros z [Hz| ->%list_elem_of_singleton]%elem_of_app; [by apply Hnow|done]. }
    by rewrite (Hz x Hx), (Hz y Hy).
  - intros Ht _ x [Hx| ->%list_elem_of_singleton]%elem_of_app; [by apply Hnow|done].
Qed.

Lemma query_OK w sid cursor seen :
  pumpOK w → w_runs w !! sid = Some (Reading cursor seen) → length seen < 5 →
  pumpOK (withPump (w_pump w) (<[sid := Reading cursor (seen ++ [w_db w])]> (w_runs w)) w).
Proof.
  intros Hok Hp Hl. pose proof Hok as (Hw & _). move_step sid.
  intros a s Hs Ha Ha0 Hlp Hph Hwk. unfold phaseOK, wakes in *. rewrite Hp in Hph, Hwk. simpl.
  rewrite lookup_insert_eq. destruct Hph as (Hc & Hcov & Hsn & Hseen). split.
  - split_and!; [done|done|by eapply snapshots_query|].
    apply Forall_app. split; [done|]. apply Forall_singleton. lia.
  - intros Ht x [Hx| ->%list_elem_of_singleton]%elem_of_app Hlt; [by apply (Hwk Ht x)|lia].
Qed.

Lemma chain_grows (l1 l2 : list db) x y :
  StronglySorted feedGrows (l1 ++ x :: y :: l2) → feedGrows x y.
Proof.
  intros H%StronglySorted_app_1_r. apply StronglySorted_cons in H as [H _].
  by apply Forall_cons in H as [? _].
Qed.

Lemma page_read w sid cursor a b c d e page :
  snapshots w [a; b; c; d; e] → (0 ≤ cursor)%Z →
  Forall (λ x, (cursor ≤ feedHead x sid)%Z) [a; b; c; d; e] →
  readFeedPage (mkReads a b c d e) sid cursor feedPumpPageLimit = Ok page →
  covered torn cursor (pg_NextCursor page) (numbers (pg_Items page)) ∧
  (pg_NextCursor page ≤ feedHead d sid)%Z ∧ feedGrows d (w_db w) ∧
  (torn = false → pg_HasMore page = true ∨ pg_NextCursor page = feedHead d sid).
Proof.
  intros [Hs Hc _ Hsame _] Hcur Hheads Hread. simpl in Hs.
  pose proof (chain_grows [a] _ _ _ Hs) as Hbc. pose proof (chain_grows [a; b] _ _ _ Hs) as Hcd.
  pose proof (chain_grows [a; b; c] _ _ _ Hs) as Hde.
  pose proof (chain_grows [a; b; c; d] _ _ _ Hs) as Hew.
  assert (feedContiguous d) as Hd by (rewrite Forall_forall in Hc; apply Hc; set_solver).
  assert (cursor ≤ feedHead d sid)%Z as Hle
    by (rewrite Forall_forall in Hheads; apply Hheads; set_solver).
  destruct (sessions (others a) !! sid) as [session|] eqn:Es.
  - rewrite (readFeedPage_spec _ _ _ _ session) in Hread; [|done|done|done|].
    2: { apply pageRows_NoDup; [done..|apply Hd]. }
    injection Hread as <-.
    destruct (page_items torn (mkReads a b c d e) sid cursor feedPumpPageLimit
      (se_FeedSequence session)) as (H1 & H2 & H3); try done; [by apply fc_at|..|].
    { intros Ht. simpl. split; apply (Hsame Ht); set_solver. }
    split_and!; [done|done|by etrans|done].
  - exfalso. revert Hread. unfold readFeedPage, normalizeFeedPage.
    rewrite (proj2 (Z.ltb_ge _ _)) by lia. simpl. unfold findSession. simpl. by rewrite Es.
Qed.

Lemma page_OK w sid cursor a b c d e page :
  pumpOK w → w_runs w !! sid = Some (Reading cursor [a; b; c; d; e]) →
  readFeedPage (mkReads a b c d e) sid cursor feedPumpPageLimit = Ok page →
  pumpOK (withPump (w_pump w) (<[sid := Delivering page (pg_Items page)]> (w_runs w)) w).
Proof.
  intros Hok Hp Hread. move_step sid.
  intros start s Hs Ha Ha0 Hlp Hph Hwk. unfold phaseOK, wakes in *. rewrite Hp in Hph, Hwk. simpl.
  rewrite lookup_insert_eq. destruct Hph as (-> & Hcov & Hsn & Hheads).
  destruct (page_read w sid _ _ _ _ _ _ _ Hsn (proj1 Hlp) Hheads Hread) as (H1 & H2 & H3 & H4).
  pose proof (grows_head _ _ H3 sid). split; [split_and!; [done|done|lia]|].
  intros Ht. destruct (H4 Ht) as [?|E]; [by left|right].
  destruct (Z_le_gt_dec (feedHead (w_db w) sid) (pg_NextCursor page)); [by left|right].
  apply (Hwk Ht d); [set_solver|lia].
Qed.

Lemma admission_sessions sid item p : pu_sessions (reportAdmission sid item p).1 = pu_sessions p.
Proof. unfold reportAdmission. by case_if. Qed.

Lemma admission_OK w sid page item rest :
  pumpOK w → w_runs w !! sid = Some (Delivering page (item :: rest)) →
  pumpOK (afterAdmission sid page item rest w).
Proof.
  intros Hok Hp. unfold afterAdmission.
  pose proof (admission_sessions sid item (w_pump w)) as Es.
  destruct (reportAdmission sid item (w_pump w)) as [p called]. simpl in Es.
  move_step sid.
  intros a s Hs Ha Ha0 Hlp Hph Hwk. unfold phaseOK, wakes in *. rewrite Hp in Hph, Hwk. simpl.
  by rewrite lookup_insert_eq.
Qed.

Lemma published_sink w sid page sid' :
  published (afterSink sid page w) sid' =
    published w sid' ++ (if bool_decide (sid' = sid) then pg_Items page else []).
Proof.
  unfold published. simpl. case_bool_decide as He.
  - rewrite He. case_bool_decide; by rewrite app_nil_r.
  - rewrite filter_app, !fmap_app, concat_app. f_equal. rewrite filter_cons. simpl.
    case_decide as Hd; case_bool_decide; simpl; rewrite ?app_nil_r; try done; congruence.
Qed.

Lemma sink_OK w sid page :
  pumpOK w → w_runs w !! sid = Some (Delivering page []) → pumpOK (afterSink sid page w).
Proof.
  intros Hok Hp. move_step sid.
  - intros sid' Hne. rewrite published_sink, bool_decide_eq_false_2 by done. apply app_nil_r.
  - intros a s Hs Ha Ha0 Hlp Hph Hwk. unfold phaseOK, wakes, publishedNumbers in *.
    rewrite Hp in Hph, Hwk. rewrite published_sink, bool_decide_eq_true_2 by done. simpl.
    rewrite lookup_insert_eq. destruct Hph as (H1 & H2 & H3). split; [|done].
    split; [|done]. unfold numbers in *. rewrite fmap_app. by eapply covered_app.
Qed.

Lemma finish_OK w sid page :
  pumpOK w → w_runs w !! sid = Some (Finishing page) → pumpOK (afterFinish sid page w).
Proof.
  intros (Hw & Hsig & Hall) Hp. unfold afterFinish, finishPage.
  pose proof (Hall sid) as Hsid. unfold sessionOK in Hsid.
  destruct (pu_sessions (w_pump w) !! sid) as [s|] eqn:Es; [|naive_solver]. simpl.
  destruct Hsid as (Hi & Hr & (a & Ha & Ha0 & Hph) & Hlp & Hwk).
  unfold phaseOK, wakes in Hph, Hwk. rewrite Hp in Hph, Hwk. destruct Hph as [Hcov Hnext].
  assert (running s = true) as Hrun by (apply Hr; by eexists).
  assert (0 ≤ pg_NextCursor page)%Z as Hnn by (destruct Hcov; lia).
  assert (∀ st runs', (∀ sid', sid' ≠ sid → runs' !! sid' = w_runs w !! sid') →
    sessionOK (withPump (setSession sid st (w_pump w)) runs' w) sid →
    pumpOK (withPump (setSession sid st (w_pump w)) runs' w)) as Hfr.
  { intros st runs' Hne Hs. split_and!; [done|done|]. intros sid'.
    destruct (decide (sid' = sid)) as [->|Hd]; [done|].
    eapply (session_frame w); try done; simpl; [by rewrite lookup_insert_ne|by apply Hne]. }
  rewrite Hi, Hrun. destruct (pg_HasMore page) eqn:Em; [|destruct (dirty s) eqn:Ed]; apply Hfr.
  1, 3: intros ??; by rewrite lookup_insert_ne.
  3: intros ??; by rewrite lookup_delete_ne.
  1, 2: unfold sessionOK; simpl; rewrite !lookup_insert_eq; split_and!; try done;
    [exists a; split_and!; [done..|]; unfold phaseOK; simpl; by rewrite lookup_insert_eq
    |intros _; unfold wakes; simpl; by rewrite lookup_insert_eq].
  unfold sessionOK. simpl. rewrite lookup_insert_eq, lookup_delete_eq. split_and!; try done.
  - exists a. split_and!; [done..|]. unfold phaseOK. simpl. by rewrite lookup_delete_eq.
  - intros Ht. unfold wakes. simpl. rewrite lookup_delete_eq.
    destruct (Hwk Ht) as [?|[?|[?|?]]]; [congruence|by left|congruence|by right; left].
Qed.

Lemma stop_OK w sid p :
  pumpOK w → w_runs w !! sid = Some p → mayStop p = true → pumpOK (afterStop sid w).
Proof.
  intros (Hw & Hsig & Hall) Hp Hmay. unfold afterStop, markStopped.
  pose proof (Hall sid) as Hsid. unfold sessionOK in Hsid.
  destruct (pu_sessions (w_pump w) !! sid) as [s|] eqn:Es; [|naive_solver].
  destruct Hsid as (Hi & Hr & (a & Ha & Ha0 & Hph) & Hlp & Hwk).
  split_and!; [done|done|]. intros sid'. destruct (decide (sid' = sid)) as [->|Hd].
  - unfold sessionOK. simpl. rewrite lookup_insert_eq, lookup_delete_eq. split_and!; try done.
    + exists a. split_and!; [done..|]. unfold phaseOK in *. simpl. rewrite lookup_delete_eq.
      rewrite Hp in Hph. destruct p; naive_solver.
    + simpl. lia.
    + simpl. lia.
    + intros _. unfold wakes. simpl. rewrite lookup_delete_eq. set_solver.
  - eapply (session_frame w); try done; simpl.
    + by rewrite lookup_insert_ne.
    + by rewrite lookup_delete_ne.
    + set_solver.
Qed.

Lemma pump_frame w p :
  pu_sessions p = pu_sessions (w_pump w) → pumpOK w → pumpOK (withPump p (w_runs w) w).
Proof.
  intros Ep (Hw & Hsig & Hall). split_and!; [done|done|]. intros sid.
  eapply (session_frame w); try done. simpl. by rewrite Ep.
Qed.

Theorem step_OK w w' : step commit torn w w' → pumpOK w → pumpOK w'.
Proof.
  destruct 1; intros Hok.
  - by apply commit_OK.
  - by apply signal_OK.
  - by apply begin_OK.
  - by apply query_OK.
  - by eapply page_OK.
  - by eapply stop_OK.
  - by apply admission_OK.
  - by apply sink_OK.
  - by apply finish_OK.
  - by apply pump_frame.
  - by apply pump_frame.
  - apply pump_frame; [|done]. unfold stopWatch. by case_bool_decide.
Qed.

Lemma reachable_OK d w : feedContiguous d → reachable commit torn d w → pumpOK w.
Proof.
  intros Hd Hr. apply (start_OK d) in Hd. revert Hd. unfold reachable in Hr.
  induction Hr as [|x y z Hxy _ IH]; [done|]. intros Hx. apply IH. by eapply step_OK.
Qed.

End invariant.
End FeedPumpRules.
