(* ===== verification/ChildRuns.v ===== *)
(** The rows of a child run (agentruns.go, executionchildterminal.go,
    executionchildprojection.go, executionfinishchild.go, and the settling half of
    executioncancel.go, agentrunrecovery.go): its launch, its events, which take numbers of the session's
    feed, the outcome that ends it once, what the finish of its execution records,
    its cancellation with all of its children, and its recovery and claim when its
    worker is lost. *)
From stdpp Require Import base gmap sets list strings sorting.
From Stdlib Require Import ZArith Lia Ascii.
From S2P Require Import Prelude GoBytes Json Executions ExecutionControl Activities Transcripts Inbox.

Module ChildRuns.
Import Executions ExecutionControl Activities Transcripts Inbox.

Record AgentRunEventInput := mkRunEventInput {
  ae_ID : uuid;
  ae_EventType : bytes;
  ae_PayloadJSON : bytes;
  ae_CreatedAt : option Z }.

Record FinalizeAgentRunInput := mkFinalizeRun {
  fr_State : AgentRunState;
  fr_Response : AgentRunResponse;
  fr_FailureClassification : bytes;
  fr_FailureDetail : bytes }.

Definition EventTypeAgentRunCancelled : bytes := bs "agent.run.cancelled".
Definition defaultAgentRunResponseMessagesJSON : bytes := bs "[]".

(** [json.Marshal] of the terminal payload of a run, and [xml.Marshal] of the
    report of a cancelled one, from its name and its id. *)
Class ChildCodec := {
  marshalChildTerminal : uuid → AgentRunState → bytes → bytes → bytes;
  cancelledChildReport : bytes → uuid → bytes }.
Class ChildCodecLaws `{ChildCodec} := {
  marshalChildTerminal_valid id st class detail :
    Json.Valid (marshalChildTerminal id st class detail) = true }.

(** ** Launching a run *)

Inductive AgentRunDefinition :=
  | AgentRunDefinitionStored | AgentRunDefinitionAdHoc | AgentRunDefinitionOther (text : bytes).

Record StartAgentRunInput := mkStartRun {
  sr_ID : uuid;
  sr_ParentTurnID : uuid;
  sr_WorkerGenerationID : uuidText;
  sr_ParentAgentRunID : option uuid;
  sr_RequestID : uuid;
  sr_Name : bytes;
  sr_Definition : AgentRunDefinition;
  sr_Depth : Z;
  sr_Workspace : bytes;
  sr_ModelReference : bytes;
  sr_ModelID : bytes;
  sr_Task : bytes;
  sr_Instructions : bytes;
  sr_AllowedToolsJSON : bytes;
  sr_SystemPrompt : bytes }.

Definition hasBlank (values : list bytes) : bool :=
  existsb (λ v, bool_decide (trim_space v = [])) values.

Definition knownDefinition (definition : AgentRunDefinition) : bool :=
  match definition with
  | AgentRunDefinitionStored | AgentRunDefinitionAdHoc => true
  | AgentRunDefinitionOther _ => false
  end.

Definition validateAgentRunStart (sid : uuid) (input : StartAgentRunInput) : outcome unit :=
  if bool_decide (sid = Nil) || bool_decide (sr_ParentTurnID input = Nil) ||
     bool_decide (sr_RequestID input = Nil) || (sr_Depth input <? 1)%Z
  then Err ErrRequiredFieldNotSet
  else if hasBlank [sr_Name input; sr_Workspace input; sr_ModelReference input; sr_ModelID input;
                    sr_Task input; sr_Instructions input; sr_SystemPrompt input]
  then Err ErrRequiredFieldNotSet
  else if negb (knownDefinition (sr_Definition input)) then Err ErrValidationFailed
  else if negb (Json.Valid (sr_AllowedToolsJSON input)) then Err ErrValidationFailed
  else Ok tt.

(** The columns that no other operation reads are left out of the row. *)
Definition newAgentRun (sid : uuid) (input : StartAgentRunInput) : AgentRun :=
  mkAgentRun sid (sr_ParentTurnID input) (sr_ParentAgentRunID input) AgentRunStateRunning false
    (sr_WorkerGenerationID input) [] [] None (sr_Workspace input) (sr_SystemPrompt input) 0
    noResponse (sr_Name input).

Definition validateRunParents (c : call) (sid turnID : uuid) (parent : option uuid) : tx unit :=
  _ ← findSessionWithQuery sid;
  _ ← findTurn sid turnID;
  match parent with
  | None => mret tt
  | Some parent => _ ← findAgentRun c sid parent; mret tt
  end.

Definition createAgentRunRow (id : uuid) (run : AgentRun) : tx unit := λ d,
  match agentRuns (others d) !! id with
  | Some _ => Err ErrAlreadyExists
  | None => Ok (tt, setAgentRuns <[id := run]> d)
  end.

(** [drawn] is the id the store draws when the input brings none. *)
Definition CreateAgentRun (c : call) (drawn sid : uuid) (input : StartAgentRunInput) (d : db)
    : db * outcome (uuid * AgentRun) :=
  match validateAgentRunStart sid input with
  | Ok _ =>
      let id := if bool_decide (sr_ID input = Nil) then drawn else sr_ID input in
      transaction (
        _ ← validateRunParents c sid (sr_ParentTurnID input) (sr_ParentAgentRunID input);
        _ ← createAgentRunRow id (newAgentRun sid input);
        mret (id, newAgentRun sid input)) d
  | Err e => (d, Err e)
  | Panic => (d, Panic)
  | OutOfFuel => (d, OutOfFuel)
  end.

(** ** Events of a run *)

Definition runEventClash (id : uuid) (e : AgentRunEvent) (old : uuid * AgentRunEvent) : Prop :=
  id = old.1 ∨
  (re_AgentRunID e = re_AgentRunID old.2 ∧ re_Sequence e = re_Sequence old.2) ∨
  (re_SessionID e = re_SessionID old.2 ∧ re_FeedSequence e = re_FeedSequence old.2).
#[export] Instance runEventClash_dec id e old : Decision (runEventClash id e old).
Proof. unfold runEventClash. apply _. Defined.

Definition runEventRowValid (e : AgentRunEvent) : bool :=
  (0 <? re_Sequence e)%Z && (0 <? re_FeedSequence e)%Z && Json.Valid (re_PayloadJSON e).

Definition setRunEvents (f : gmap uuid AgentRunEvent → gmap uuid AgentRunEvent) (d : db) : db :=
  setOthers (λ o, withRunEvents (f (agentRunEvents o)) o) d.

Definition createRunEvent (id : uuid) (e : AgentRunEvent) : tx unit := λ d,
  if negb (runEventRowValid e) then Err ErrOther
  else if bool_decide (Exists (runEventClash id e) (map_to_list (agentRunEvents (others d))))
  then Err ErrAlreadyExists
  else Ok (tt, setRunEvents <[id := e]> d).

Definition nextAgentRunEventSequence (run : uuid) (d : db) : Z :=
  wrap64 (foldr Z.max 0%Z (re_Sequence <$> filter (λ e, re_AgentRunID e = run)
    (map_to_list (agentRunEvents (others d))).*2) + 1).

Definition countEvents (n : Z) (run : AgentRun) : AgentRun :=
  let 'mkAgentRun sid turn parent st cr gen fc fd ended dir prompt count response name := run in
  mkAgentRun sid turn parent st cr gen fc fd ended dir prompt (count + n)%Z response name.

Definition normalizeAgentRunEventInput (c : call) (eventID : uuid) (input : AgentRunEventInput)
    : outcome AgentRunEventInput :=
  if bool_decide (trim_space (ae_EventType input) = []) then Err ErrValidationFailed
  else if negb (Json.Valid (ae_PayloadJSON input)) then Err ErrValidationFailed
  else Ok (mkRunEventInput (if bool_decide (ae_ID input = Nil) then eventID else ae_ID input)
             (ae_EventType input) (ae_PayloadJSON input)
             (Some (default (now c) (ae_CreatedAt input)))).

Definition IsAgentRunTerminalEventType (eventType : bytes) : bool :=
  bool_decide (eventType = EventTypeAgentRunCompleted) ||
  bool_decide (eventType = EventTypeAgentRunFailed) ||
  bool_decide (eventType = EventTypeAgentRunCancelled).

(** [ErrAgentRunFinished] is joined with [ErrConflict]. *)
Definition findAgentRunAcceptingEvent (c : call) (sid run : uuid) (eventType : bytes)
    : tx AgentRun :=
  row ← findAgentRun c sid run;
  _ ← refuseIf (bool_decide (ar_EndedAt row ≠ None) &&
                negb (IsAgentRunTerminalEventType eventType)) ErrAgentRunFinished;
  mret row.

Definition appendAgentRunEvent (c : call) (sid run : uuid) (input : AgentRunEventInput)
    : tx AgentRunEvent :=
  _ ← findAgentRunAcceptingEvent c sid run (ae_EventType input);
  sequence ← reads (λ d, Ok (nextAgentRunEventSequence run d));
  feedSequence ← allocateFeedSequences sid 1;
  let result := mkRunEvent sid run sequence feedSequence (ae_EventType input)
                  (ae_PayloadJSON input) (default 0%Z (ae_CreatedAt input)) in
  _ ← createRunEvent (ae_ID input) result;
  _ ← updateAgentRun sid run (countEvents 1);
  mret result.

Definition AppendAgentRunEvent (c : call) (eventID sid run : uuid) (input : AgentRunEventInput)
    (d : db) : db * outcome AgentRunEvent :=
  match normalizeAgentRunEventInput c eventID input with
  | Ok input => transaction (appendAgentRunEvent c sid run input) d
  | Err e => (d, Err e)
  | Panic => (d, Panic)
  | OutOfFuel => (d, OutOfFuel)
  end.

(** ** The outcome of a run *)

Definition isAgentRunTerminalState (s : AgentRunState) : bool :=
  match s with
  | AgentRunStateCompleted | AgentRunStateFailed | AgentRunStateCancelled
  | AgentRunStateInterrupted => true
  | AgentRunStateRunning => false
  end.

Definition normalizeAgentRunFinalization (input : FinalizeAgentRunInput)
    : outcome FinalizeAgentRunInput :=
  let 'mkResponse text thinking messagesJSON reason prompt completion := fr_Response input in
  if negb (isAgentRunTerminalState (fr_State input)) then Err ErrValidationFailed
  else
    let messagesJSON := if bool_decide (messagesJSON = [])
                        then defaultAgentRunResponseMessagesJSON else messagesJSON in
    if negb (Json.Valid messagesJSON) then Err ErrValidationFailed
    else if (prompt <? 0)%Z || (completion <? 0)%Z then Err ErrValidationFailed
    else Ok (mkFinalizeRun (fr_State input)
               (mkResponse text thinking messagesJSON reason prompt completion)
               (fr_FailureClassification input) (fr_FailureDetail input)).

Definition applyAgentRunFinalization (input : FinalizeAgentRunInput) (endedAt : Z)
    (run : AgentRun) : AgentRun :=
  let 'mkAgentRun sid turn parent _ cr gen _ _ _ dir prompt count _ name := run in
  mkAgentRun sid turn parent (fr_State input) cr gen (fr_FailureClassification input)
    (fr_FailureDetail input) (Some endedAt) dir prompt count (fr_Response input) name.

Definition finalizeAgentRunInTransaction (c : call) (sid run : uuid)
    (input : FinalizeAgentRunInput) : tx AgentRun :=
  row ← findAgentRun c sid run;
  _ ← refuseIf (negb (bool_decide (ar_State row = AgentRunStateRunning))) ErrInvalidState;
  _ ← updateAgentRun sid run (applyAgentRunFinalization input (now c));
  mret (applyAgentRunFinalization input (now c) row).

Definition FinalizeAgentRun (c : call) (sid run : uuid) (input : FinalizeAgentRunInput) (d : db)
    : db * outcome AgentRun :=
  match normalizeAgentRunFinalization input with
  | Ok input => transaction (finalizeAgentRunInTransaction c sid run input) d
  | Err e => (d, Err e)
  | Panic => (d, Panic)
  | OutOfFuel => (d, OutOfFuel)
  end.

Definition runCancelRequested (run : AgentRun) : AgentRun :=
  let 'mkAgentRun sid turn parent st _ gen fc fd ended dir prompt count response name := run in
  mkAgentRun sid turn parent st true gen fc fd ended dir prompt count response name.

Section terminal.
Context `{ImageCodec, InboxCodec, ChildCodec}.

Definition terminalEventType (s : AgentRunState) : bytes :=
  match s with
  | AgentRunStateFailed => EventTypeAgentRunFailed
  | AgentRunStateCancelled => EventTypeAgentRunCancelled
  | _ => EventTypeAgentRunCompleted
  end.

(** [run] is the id of the row [row]; [eventID] the id drawn for the event. *)
Definition recordExecutionChildTerminal (c : call) (eventID run : uuid) (row : AgentRun)
    : tx AgentRunEvent :=
  _ ← refuseIf (ar_EventCount row =? max_int64)%Z ErrInvalidState;
  sequence ← reads (λ d, Ok (nextAgentRunEventSequence run d));
  feedSequence ← allocateFeedSequences (ar_SessionID row) 1;
  let event :=
    mkRunEvent (ar_SessionID row) run sequence feedSequence (terminalEventType (ar_State row))
      (marshalChildTerminal run (ar_State row) (ar_FailureClassification row)
         (ar_FailureDetail row)) (now c) in
  _ ← createRunEvent eventID event;
  _ ← updateAgentRun (ar_SessionID row) run (countEvents 1);
  mret event.

Definition matchingChildFinishState (execution : ExecutionState) (child : AgentRunState) : bool :=
  (bool_decide (execution = ExecutionStateCompleted) &&
   bool_decide (child = AgentRunStateCompleted)) ||
  (bool_decide (execution = ExecutionStateFailed) && bool_decide (child = AgentRunStateFailed)).

(** The report for the parent follows the terminal event. *)
Definition finishExecutionChild (c : call) (eventID : uuid) (execution : Execution)
    (child : option FinalizeAgentRunInput) (report : bytes) : tx unit :=
  match child with
  | None => mret tt
  | Some child =>
      child ← reads (λ _, normalizeAgentRunFinalization child);
      run ← deref (ex_AgentRunID execution);
      row ← finalizeAgentRunInTransaction c (ex_SessionID execution) run child;
      event ← recordExecutionChildTerminal c eventID run row;
      recordExecutionChildReport c execution eventID (re_CreatedAt event) report
  end.

(** ** What an activity of a child projects *)

Definition childProjectionOwner (c : call) (a : ExecutionActivity) (execution : Execution)
    (revision : Z) : tx (uuid * AgentRun) :=
  match ex_AgentRunID execution with
  | Some run =>
      _ ← refuseIf (negb (bool_decide (ex_Kind execution = ExecutionKindChild)) ||
                    negb (bool_decide (ex_State execution = ExecutionStateRunning)) ||
                    negb (ex_ControlRevision execution =? revision)%Z) ErrConflict;
      row ← findAgentRun c (ex_SessionID execution) run;
      _ ← refuseIf (negb (bool_decide (ar_State row = AgentRunStateRunning)) ||
                    ar_CancelRequested row ||
                    negb (bool_decide (ar_WorkerGenerationID row = ac_OwnerGenerationID a)) ||
                    negb (bool_decide (ar_ParentTurnID row = ex_RootTurnID execution)))
            ErrConflict;
      mret (run, row)
  | None => check (Err ErrConflict) ≫= λ _, reads (λ _, Err ErrConflict)
  end.

(** [drawn] is the id drawn for the event at an index. *)
Fixpoint createChildProjectionEvents (c : call) (drawn : Z → uuid) (sid run : uuid)
    (firstSequence firstFeedSequence index : Z) (inputs : list AgentRunEventInput) : tx unit :=
  match inputs with
  | [] => mret tt
  | input :: rest =>
      normalized ← reads (λ _, normalizeAgentRunEventInput c (drawn index) input);
      _ ← createRunEvent (ae_ID normalized)
            (mkRunEvent sid run (wrap64 (firstSequence + index))
               (wrap64 (firstFeedSequence + index)) (ae_EventType normalized)
               (ae_PayloadJSON normalized) (default 0%Z (ae_CreatedAt normalized)));
      createChildProjectionEvents c drawn sid run firstSequence firstFeedSequence (index + 1) rest
  end.

Definition saveChildProjectionEvents (c : call) (drawn : Z → uuid) (run : uuid) (row : AgentRun)
    (inputs : list AgentRunEventInput) : tx unit :=
  if bool_decide (inputs = []) then mret tt
  else
    let count := Z.of_nat (length inputs) in
    _ ← refuseIf (max_int64 - ar_EventCount row <? count)%Z ErrInvalidState;
    sequence ← reads (λ d, Ok (nextAgentRunEventSequence run d));
    _ ← refuseIf ((sequence <? 1)%Z || (max_int64 - count + 1 <? sequence)%Z) ErrInvalidState;
    first ← allocateFeedSequences (ar_SessionID row) count;
    _ ← createChildProjectionEvents c drawn (ar_SessionID row) run sequence first 0 inputs;
    updateAgentRun (ar_SessionID row) run (countEvents count).

(** ** Cancellation *)

Definition runCancelled (at_ : Z) (run : AgentRun) : AgentRun :=
  let 'mkAgentRun sid turn parent _ _ gen fc fd _ dir prompt count response name := run in
  mkAgentRun sid turn parent AgentRunStateCancelled true gen fc fd (Some at_) dir prompt count
    response name.

(** [eventID] is the id drawn for the terminal event. *)
Definition cancelExecutionAgentRun (c : call) (eventID : uuid) (execution : Execution) : tx unit :=
  id ← deref (ex_AgentRunID execution);
  run ← findAgentRun c (ex_SessionID execution) id;
  _ ← refuseIf (negb (bool_decide (ar_State run = AgentRunStateRunning)) &&
                negb (bool_decide (ar_State run = AgentRunStateInterrupted))) ErrConflict;
  _ ← updateAgentRun (ar_SessionID run) id (runCancelled (now c));
  event ← recordExecutionChildTerminal c eventID id (runCancelled (now c) run);
  recordExecutionChildReport c execution eventID (re_CreatedAt event)
    (cancelledChildReport (ar_Name run) id).

(** The members of a cancelled subtree; [drawn] are the ids drawn for the event
    and the report of a member.  The execution itself is cancelled as in
    executioncancel.go's first half. *)
Fixpoint cancelRunMembers (c : call) (drawn : uuid → uuid * uuid) (members : list Execution)
    : tx unit :=
  match members with
  | [] => mret tt
  | member :: rest =>
      execution ← findExecution (ex_SessionID member) (ex_ID member);
      _ ← (if isExecutionTerminal (ex_State execution) then mret tt
           else
             _ ← cancelNativeChild c (Ok tt) execution;
             let '(eventID, reportID) := drawn (ex_ID execution) in
             cancelExecutionAgentRun (mkCall (now c) reportID (agentRunOwner c)) eventID execution);
      cancelRunMembers c drawn rest
  end.

Definition requestRunCancel (sid id : uuid) (state : AgentRunState) : tx bool := λ d,
  match firstRow ar_SessionID (agentRuns (others d)) sid id with
  | Ok row =>
      if bool_decide (ar_State row = state) && negb (ar_CancelRequested row)
      then Ok (true, setAgentRuns <[id := runCancelRequested row]> d)
      else Ok (false, d)
  | _ => Ok (false, d)
  end.

Definition requestAgentRunCancellation (c : call) (drawn : uuid → uuid * uuid) (sid id : uuid)
    : tx (AgentRun * bool) :=
  run ← findAgentRun c sid id;
  if (negb (bool_decide (ar_State run = AgentRunStateRunning)) &&
      negb (bool_decide (ar_State run = AgentRunStateInterrupted))) || ar_CancelRequested run
  then mret (run, false)
  else
    updated ← requestRunCancel sid id (ar_State run);
    if negb updated then mret (run, false)
    else
      target ← reads (λ d, Ok (executionOfRun sid id d));
      match target with
      | None => mret (runCancelRequested run, true)
      | Some target =>
          members ← reads (λ d, Ok (Subtree sid (ex_ID target) (executions d)));
          _ ← cancelRunMembers c drawn members;
          stored ← findAgentRun c sid id;
          mret (stored, true)
      end.

Definition RequestAgentRunCancellation (c : call) (drawn : uuid → uuid * uuid) (sid id : uuid)
    (d : db) : db * outcome (AgentRun * bool) :=
  transaction (requestAgentRunCancellation c drawn sid id) d.

End terminal.

(** ** Recovery at startup *)

Definition interruptedClassification : bytes := bs "interrupted".
Definition interruptedDetail : bytes := bs "process stopped before child agent completed".

Definition runInterrupted (at_ : Z) (run : AgentRun) : AgentRun :=
  let 'mkAgentRun sid turn parent _ cr gen _ _ _ dir prompt count response name := run in
  mkAgentRun sid turn parent AgentRunStateInterrupted cr gen interruptedClassification
    interruptedDetail (Some at_) dir prompt count response name.

Definition incompleteRunMessage (m : AgentRunMessage) : AgentRunMessage :=
  let 'mkRunMessage id sid run seq role content model thinking calls call err _ imgs at_ := m in
  mkRunMessage id sid run seq role content model thinking calls call err true imgs at_.

Definition updateRunningRun (id : uuid) (f : AgentRun → AgentRun) : tx unit := λ d,
  match agentRuns (others d) !! id with
  | Some run =>
      if bool_decide (ar_State run = AgentRunStateRunning)
      then Ok (tt, setAgentRuns <[id := f run]> d) else Ok (tt, d)
  | None => Ok (tt, d)
  end.

Definition updateRunMessages (f : AgentRunMessage → AgentRunMessage) : tx unit :=
  λ d, Ok (tt, setOthers (λ o, withRunMessages (f <$> runMessages o) o) d).

Definition interruptAgentRun (c : call) (id : uuid) : tx unit :=
  _ ← updateRunningRun id (runInterrupted (now c));
  updateRunMessages (λ m, if bool_decide (rm_AgentRunID m = id) then incompleteRunMessage m else m).

Fixpoint interruptRuns (c : call) (running : list uuid) : tx unit :=
  match running with
  | [] => mret tt
  | id :: rest => _ ← interruptAgentRun c id; interruptRuns c rest
  end.

Definition runningRuns (d : db) : list uuid :=
  (filter (λ r, ar_State r.2 = AgentRunStateRunning) (map_to_list (agentRuns (others d)))).*1.

Definition RecoverInterruptedAgentRuns (c : call) (d : db) : db * outcome Z :=
  transaction (
    running ← reads (λ d, Ok (runningRuns d));
    _ ← interruptRuns c running;
    mret (Z.of_nat (length running))) d.

(** ** Recovery under a worker *)

(** The running children of a session that another worker owns. *)
Definition staleRuns (sid generation : uuid) (d : db) : list uuid :=
  (filter (λ r, ar_SessionID r.2 = sid ∧ ar_State r.2 = AgentRunStateRunning ∧
                ar_WorkerGenerationID r.2 ≠ Some generation)
     (map_to_list (agentRuns (others d)))).*1.

Definition PrepareAgentRunRecovery (c : call) (sid generation : uuid) (d : db) : db * outcome Z :=
  if bool_decide (generation = Nil) then (d, Ok 0%Z)
  else transaction (
    _ ← findSessionWithQuery sid;
    stale ← reads (λ d, Ok (staleRuns sid generation d));
    _ ← interruptRuns c stale;
    mret (Z.of_nat (length stale))) d.

Record ClaimAgentRunInput := mkClaimRun {
  cl_GenerationID : uuid; cl_PreviousGenerationID : uuidText; cl_PreviousState : AgentRunState }.

(** The row that [claimAgentRun] writes, as the caller gets it. *)
Definition runClaimed (generation : uuid) (run : AgentRun) : AgentRun :=
  let 'mkAgentRun sid turn parent _ cr _ _ _ _ dir prompt count response name := run in
  mkAgentRun sid turn parent AgentRunStateRunning cr (Some generation) [] [] None dir prompt count
    response name.

Definition claimRecoveredRun (c : call) (sid id : uuid) (input : ClaimAgentRunInput) : tx AgentRun :=
  run ← findAgentRun c sid id;
  _ ← refuseIf (ar_CancelRequested run ||
        negb (bool_decide (ar_State run = cl_PreviousState input)) ||
        negb (bool_decide (ar_WorkerGenerationID run = cl_PreviousGenerationID input)) ||
        negb (recoverableAgentRun run (cl_GenerationID input))) ErrConflict;
  _ ← claimAgentRun sid id run (cl_GenerationID input);
  mret (runClaimed (cl_GenerationID input) run).

Definition ClaimAgentRun (c : call) (sid id : uuid) (input : ClaimAgentRunInput) (d : db)
    : db * outcome AgentRun :=
  transaction (claimRecoveredRun c sid id input) d.

End ChildRuns.
