(* ===== verification/Jobs.v ===== *)
(** The rows of the background jobs and of the workers of a session (jobs.go,
    jobowner.go, workers.go): a job, the lines of its output in one order for both
    streams, its one outcome and the requests to signal it; the life of a worker
    as its controller records it. *)
From stdpp Require Import base gmap sets list strings sorting.
From Stdlib Require Import ZArith Lia Ascii.
From S2P Require Import Prelude GoBytes Executions ExecutionControl Activities Transcripts Feed.

Module Jobs.
Import Executions ExecutionControl Activities Transcripts Feed.

Record CreateJobInput := mkCreateJob {
  cj_ID : uuid;
  cj_TurnID : uuid;
  cj_AgentRunID : option uuid;
  cj_WorkerGenerationID : uuidText;
  cj_ToolCallID : bytes;
  cj_PID : Z;
  cj_Purpose : bytes;
  cj_Command : bytes;
  cj_Directory : bytes;
  cj_StartedAt : option Z }.

Record AppendJobOutputInput := mkOutputInput {
  ao_ID : uuid;
  ao_Stream : JobOutputStream;
  ao_Content : bytes;
  ao_CreatedAt : option Z }.

Record FinalizeJobInput := mkFinalizeJob {
  fj_State : JobState;
  fj_ExitCode : Z;
  fj_FailureDetail : bytes }.

Record RecordJobSignalInput := mkSignalInput {
  rs_ID : uuid;
  rs_Signal : JobSignal;
  rs_Accepted : bool;
  rs_RequestedAt : option Z }.

Record ListJobOutputOptions := mkOutputOptions {
  lo_Cursor : Z;
  lo_Limit : Z;
  lo_Stream : option JobOutputStream }.

Record JobOutputPage := mkOutputPage {
  jp_Job : Job;
  jp_Items : list JobOutputLine;
  jp_NextCursor : Z;
  jp_HasMore : bool }.

Definition interruptedJobFailureDetail : bytes := bs "process stopped before job completed".
Definition DefaultPageLimit : Z := 50.
Definition MaximumPageLimit : Z := 200.

(** ** Creating a job *)

Definition validateCreateJobInput (sid : uuid) (input : CreateJobInput) : outcome unit :=
  if bool_decide (sid = Nil) || bool_decide (cj_TurnID input = Nil) || (cj_PID input <=? 0)%Z ||
     bool_decide (trim_space (cj_Purpose input) = []) ||
     bool_decide (trim_space (cj_Command input) = []) ||
     bool_decide (trim_space (cj_Directory input) = [])
  then Err ErrRequiredFieldNotSet else Ok tt.

Definition newJob (c : call) (sid : uuid) (input : CreateJobInput) : Job :=
  mkJob sid (cj_TurnID input) (cj_AgentRunID input) (cj_WorkerGenerationID input)
    (cj_ToolCallID input) (cj_PID input) (cj_Purpose input) (cj_Command input)
    (cj_Directory input) JobStateRunning (-1) [] (default (now c) (cj_StartedAt input)) None.

Definition validateJobParents (c : call) (job : Job) : tx unit :=
  _ ← findSessionWithQuery (jb_SessionID job);
  _ ← findTurn (jb_SessionID job) (jb_TurnID job);
  match jb_AgentRunID job with
  | None => mret tt
  | Some id =>
      _ ← refuseIf (bool_decide (id = Nil)) ErrValidationFailed;
      run ← findAgentRun c (jb_SessionID job) id;
      refuseIf (negb (bool_decide (ar_ParentTurnID run = jb_TurnID job))) ErrConflict
  end.

Definition setJobs (f : gmap uuid Job → gmap uuid Job) (d : db) : db :=
  setOthers (λ o, withJobs (f (jobs o)) o) d.

Definition createJobRow (id : uuid) (job : Job) : tx unit := λ d,
  match jobs (others d) !! id with
  | Some _ => Err ErrAlreadyExists
  | None => Ok (tt, setJobs <[id := job]> d)
  end.

(** [drawn] is the id the store draws when the input brings none. *)
Definition CreateJob (c : call) (drawn sid : uuid) (input : CreateJobInput) (d : db)
    : db * outcome (uuid * Job) :=
  match validateCreateJobInput sid input with
  | Ok _ =>
      let id := if bool_decide (cj_ID input = Nil) then drawn else cj_ID input in
      let job := newJob c sid input in
      transaction (_ ← validateJobParents c job; _ ← createJobRow id job; mret (id, job)) d
  | Err e => (d, Err e)
  | Panic => (d, Panic)
  | OutOfFuel => (d, OutOfFuel)
  end.

(** ** Output *)

Definition findJobWithQuery (sid id : uuid) : tx Job :=
  reads (λ d, firstRow jb_SessionID (jobs (others d)) sid id).

Definition linesOf (job : uuid) (d : db) : list JobOutputLine :=
  filter (λ l, jo_JobID l = job) (jobOutput (others d)).

Definition nextJobOutputSequence (job : uuid) (d : db) : Z :=
  wrap64 (foldr Z.max 0%Z (jo_Sequence <$> linesOf job d) + 1).

Definition knownStream (stream : JobOutputStream) : bool :=
  match stream with
  | JobOutputStreamStdout | JobOutputStreamStderr => true
  | JobOutputStreamOther _ => false
  end.

Definition validateJobOutputInput (sid job : uuid) (input : AppendJobOutputInput) : outcome unit :=
  if bool_decide (sid = Nil) || bool_decide (job = Nil) then Err ErrRequiredFieldNotSet
  else if negb (knownStream (ao_Stream input)) then Err ErrValidationFailed else Ok tt.

Definition normalizeJobOutputInput (c : call) (drawn : uuid) (input : AppendJobOutputInput)
    : AppendJobOutputInput :=
  mkOutputInput (if bool_decide (ao_ID input = Nil) then drawn else ao_ID input)
    (ao_Stream input) (ao_Content input) (Some (default (now c) (ao_CreatedAt input))).

(** [drawn] is the id drawn for the line at an index. *)
Fixpoint normalizeLines (c : call) (drawn : nat → uuid) (sid job : uuid) (index : nat)
    (inputs : list AppendJobOutputInput) : outcome (list AppendJobOutputInput) :=
  match inputs with
  | [] => Ok []
  | input :: rest =>
      _ ← validateJobOutputInput sid job input;
      normalized ← normalizeLines c drawn sid job (S index) rest;
      Ok (normalizeJobOutputInput c (drawn index) input :: normalized)
  end.

Definition normalizeJobOutputInputs (c : call) (drawn : nat → uuid) (sid job : uuid)
    (inputs : list AppendJobOutputInput) : outcome (list AppendJobOutputInput) :=
  if bool_decide (inputs = []) then Err ErrRequiredFieldNotSet
  else normalizeLines c drawn sid job 0 inputs.

Definition lineClash (l old : JobOutputLine) : Prop :=
  jo_ID l = jo_ID old ∨ (jo_JobID l = jo_JobID old ∧ jo_Sequence l = jo_Sequence old).
#[export] Instance lineClash_dec l old : Decision (lineClash l old).
Proof. unfold lineClash. apply _. Defined.

Definition createOutputLine (l : JobOutputLine) : tx unit := λ d,
  if negb (0 <? jo_Sequence l)%Z then Err ErrOther
  else if bool_decide (Exists (lineClash l) (jobOutput (others d))) then Err ErrAlreadyExists
  else Ok (tt, setOthers (λ o, withJobOutput (jobOutput o ++ [l]) o) d).

(** [CreateInBatches]: batches only bound the size of a statement. *)
Fixpoint createOutputLines (sid job : uuid) (sequence : Z) (inputs : list AppendJobOutputInput)
    : tx (list JobOutputLine) :=
  match inputs with
  | [] => mret []
  | input :: rest =>
      let line := mkOutputLine (ao_ID input) sid job (wrap64 sequence) (ao_Stream input)
                    (ao_Content input) (default 0%Z (ao_CreatedAt input)) in
      _ ← createOutputLine line;
      lines ← createOutputLines sid job (sequence + 1) rest;
      mret (line :: lines)
  end.

Definition appendJobOutput (sid id : uuid) (inputs : list AppendJobOutputInput)
    : tx (list JobOutputLine) :=
  job ← findJobWithQuery sid id;
  _ ← refuseIf (negb (bool_decide (jb_State job = JobStateRunning))) ErrInvalidState;
  sequence ← reads (λ d, Ok (nextJobOutputSequence id d));
  createOutputLines sid id sequence inputs.

Definition AppendJobOutput (c : call) (drawn : nat → uuid) (sid id : uuid)
    (inputs : list AppendJobOutputInput) (d : db) : db * outcome (list JobOutputLine) :=
  match normalizeJobOutputInputs c drawn sid id inputs with
  | Ok inputs => transaction (appendJobOutput sid id inputs) d
  | Err e => (d, Err e)
  | Panic => (d, Panic)
  | OutOfFuel => (d, OutOfFuel)
  end.

(** ** The outcome *)

Definition isJobTerminalState (s : JobState) : bool :=
  match s with
  | JobStateExited | JobStateSignalled | JobStateFailed | JobStateInterrupted => true
  | JobStateRunning => false
  end.

Definition jobFinalized (input : FinalizeJobInput) (at_ : Z) (job : Job) : Job :=
  let 'mkJob sid turn run gen tool pid purpose command dir _ _ _ started _ := job in
  mkJob sid turn run gen tool pid purpose command dir (fj_State input) (fj_ExitCode input)
    (fj_FailureDetail input) started (Some at_).

(** [UPDATE ... WHERE id = ? AND session_id = ? AND state = 'running'] *)
Definition updateRunningJob (P : Job → bool) (id : uuid) (f : Job → Job) : tx bool := λ d,
  match jobs (others d) !! id with
  | Some job =>
      if P job && bool_decide (jb_State job = JobStateRunning)
      then Ok (true, setJobs <[id := f job]> d) else Ok (false, d)
  | None => Ok (false, d)
  end.

Definition finalizeJobInTransaction (c : call) (sid id : uuid) (input : FinalizeJobInput)
    : tx Job :=
  job ← findJobWithQuery sid id;
  _ ← refuseIf (negb (bool_decide (jb_State job = JobStateRunning))) ErrInvalidState;
  updated ← updateRunningJob (λ j, bool_decide (jb_SessionID j = sid)) id
              (jobFinalized input (now c));
  _ ← refuseIf (negb updated) ErrInvalidState;
  mret (jobFinalized input (now c) job).

Definition FinalizeJob (c : call) (sid id : uuid) (input : FinalizeJobInput) (d : db)
    : db * outcome Job :=
  if negb (isJobTerminalState (fj_State input)) then (d, Err ErrValidationFailed)
  else transaction (finalizeJobInTransaction c sid id input) d.

Definition jobInterrupted (at_ : Z) (job : Job) : Job :=
  jobFinalized (mkFinalizeJob JobStateInterrupted (jb_ExitCode job) interruptedJobFailureDetail)
    at_ job.

Fixpoint interruptJobs (c : call) (running : list uuid) : tx Z :=
  match running with
  | [] => mret 0%Z
  | id :: rest =>
      updated ← updateRunningJob (λ _, true) id (jobInterrupted (now c));
      recovered ← interruptJobs c rest;
      mret (if updated : bool then recovered + 1 else recovered)%Z
  end.

Definition runningJobs (d : db) : list uuid :=
  (filter (λ j, jb_State j.2 = JobStateRunning) (map_to_list (jobs (others d)))).*1.

Definition RecoverInterruptedJobs (c : call) (d : db) : db * outcome Z :=
  transaction (running ← reads (λ d, Ok (runningJobs d)); interruptJobs c running) d.

(** ** Signals *)

Definition knownSignal (signal : JobSignal) : bool :=
  match signal with JobSignalStop | JobSignalKill => true | JobSignalOther _ => false end.

Definition validateJobSignalInput (sid job : uuid) (input : RecordJobSignalInput) : outcome unit :=
  if bool_decide (sid = Nil) || bool_decide (job = Nil) then Err ErrRequiredFieldNotSet
  else if negb (knownSignal (rs_Signal input)) then Err ErrValidationFailed else Ok tt.

Definition createSignalRequest (r : JobSignalRequest) : tx unit := λ d,
  if bool_decide (Exists (λ old, js_ID old = js_ID r) (jobSignals (others d)))
  then Err ErrAlreadyExists
  else Ok (tt, setOthers (λ o, withJobSignals (jobSignals o ++ [r]) o) d).

Definition RecordJobSignal (c : call) (drawn sid id : uuid) (input : RecordJobSignalInput) (d : db)
    : db * outcome JobSignalRequest :=
  match validateJobSignalInput sid id input with
  | Ok _ =>
      transaction (
        job ← findJobWithQuery sid id;
        let request :=
          mkSignalRequest (if bool_decide (rs_ID input = Nil) then drawn else rs_ID input) sid id
            (rs_Signal input) (rs_Accepted input) (jb_State job)
            (default (now c) (rs_RequestedAt input)) in
        _ ← createSignalRequest request;
        mret request) d
  | Err e => (d, Err e)
  | Panic => (d, Panic)
  | OutOfFuel => (d, OutOfFuel)
  end.

(** ** Replaying the output *)

Definition normalizeJobOutputOptions (options : ListJobOutputOptions)
    : outcome ListJobOutputOptions :=
  let limit := if (lo_Limit options =? 0)%Z then DefaultPageLimit else lo_Limit options in
  if (limit <? 1)%Z || (MaximumPageLimit <? limit)%Z || (lo_Cursor options <? 0)%Z
  then Err ErrInvalidPage
  else if negb (from_option knownStream true (lo_Stream options)) then Err ErrInvalidPage
  else Ok (mkOutputOptions (lo_Cursor options) limit (lo_Stream options)).

(** The lines of a page and of the probe behind it, in one state; the sequences of
    a job are distinct. *)
Definition outputAfter (sid job : uuid) (options : ListJobOutputOptions) (d : db)
    : list JobOutputLine :=
  merge_sort (byNumber jo_Sequence)
    (filter (λ l, jo_SessionID l = sid ∧ (wrap64 (lo_Cursor options + 1) ≤ jo_Sequence l)%Z ∧
                  (lo_Stream options = None ∨ lo_Stream options = Some (jo_Stream l))) (linesOf job d)).

Definition ListJobOutput (sid id : uuid) (options : ListJobOutputOptions) (d : db)
    : outcome JobOutputPage :=
  options ← normalizeJobOutputOptions options;
  job ← firstRow jb_SessionID (jobs (others d)) sid id;
  let items := take (Z.to_nat (lo_Limit options)) (outputAfter sid id options d) in
  let probe := take 1 (drop (length items) (outputAfter sid id options d)) in
  Ok (mkOutputPage job items (from_option jo_Sequence (lo_Cursor options) (last items))
        (negb (bool_decide (probe = [])))).

(** ** Workers *)

Record CreateWorkerGenerationInput := mkCreateWorker {
  cw_ID : uuid;
  cw_State : WorkerState;
  cw_CredentialHash : bytes }.

Definition newWorker (c : call) (sid : uuid) (input : CreateWorkerGenerationInput)
    : WorkerGeneration :=
  mkWorker sid (cw_State input) (cw_CredentialHash input) 0 [] [] [] 0 (now c) None None.

Definition setWorkers (f : gmap uuid WorkerGeneration → gmap uuid WorkerGeneration) (d : db) : db :=
  setOthers (λ o, withWorkers (f (workerGenerations o)) o) d.

Definition CreateWorkerGeneration (c : call) (sid : uuid) (input : CreateWorkerGenerationInput)
    (d : db) : db * outcome WorkerGeneration :=
  match findSession d sid with
  | Ok _ =>
      if bool_decide (cw_ID input = Nil) then (d, Err ErrValidationFailed)
      else if bool_decide (trim_space (cw_CredentialHash input) = [])
      then (d, Err ErrValidationFailed)
      else match workerGenerations (others d) !! cw_ID input with
      | Some _ => (d, Err ErrAlreadyExists)
      | None => (setWorkers <[cw_ID input := newWorker c sid input]> d, Ok (newWorker c sid input))
      end
  | Err e => (d, Err e)
  | Panic => (d, Panic)
  | OutOfFuel => (d, OutOfFuel)
  end.

(** [UpdateSimple] on the row of a worker; a missing row is an error. *)
Definition updateWorker (id : uuid) (f : WorkerGeneration → WorkerGeneration) (d : db)
    : db * outcome unit :=
  match workerGenerations (others d) !! id with
  | Some g => (setWorkers <[id := f g]> d, Ok tt)
  | None => (d, Err ErrNotFound)
  end.

Definition workerAdvanced (state : WorkerState) (detail : bytes) (at_ : Z) (g : WorkerGeneration)
    : WorkerGeneration :=
  let 'mkWorker sid _ hash pid cid image _ exit created started ended := g in
  mkWorker sid state hash pid cid image detail exit created
    (match state with WorkerReady => Some at_ | _ => started end)
    (match state with WorkerStopped | WorkerFailed => Some at_ | _ => ended end).

Definition UpdateWorkerGenerationState (c : call) (id : uuid) (state : WorkerState)
    (detail : bytes) (d : db) : db * outcome unit :=
  updateWorker id (workerAdvanced state detail (now c)) d.

Definition RecordWorkerProcess (id : uuid) (pid : Z) (d : db) : db * outcome unit :=
  updateWorker id (λ '(mkWorker sid st hash _ cid image detail exit created started ended),
    mkWorker sid st hash pid cid image detail exit created started ended) d.

Definition RecordWorkerContainer (id : uuid) (container image : bytes) (d : db)
    : db * outcome unit :=
  updateWorker id (λ '(mkWorker sid st hash pid _ _ detail exit created started ended),
    mkWorker sid st hash pid container image detail exit created started ended) d.

Definition RecordWorkerExit (id : uuid) (code : Z) (d : db) : db * outcome unit :=
  updateWorker id (λ '(mkWorker sid st hash pid cid image detail _ created started ended),
    mkWorker sid st hash pid cid image detail code created started ended) d.

End Jobs.
