(* ===== verification/TurnEnd.v ===== *)
(** The end of a turn without its lease, or short of completion (turnend.go,
    turnendmessage.go): the stored terminal frame, the notice that tells the
    session why, and the system message that the next turn reads. *)
From stdpp Require Import base gmap sets list strings sorting.
From Stdlib Require Import ZArith Lia Ascii.
From S2P Require Import Prelude GoBytes Json Executions ExecutionControl Activities Transcripts Inbox Deferral Feed Notices.

Module TurnEnd.
Import Executions ExecutionControl Activities Transcripts Inbox Deferral Feed Notices.

(** ** events.TruncateToRuneBoundary *)

(** [utf8.RuneStart]: the byte is not a continuation byte. *)
Definition RuneStart (c : ascii) : bool := negb (N_of_ascii c / 64 =? 2)%N.

Fixpoint runeCut (text : bytes) (cut : nat) : nat :=
  match cut with
  | O => O
  | S k => match text !! cut with
           | Some c => if RuneStart c then cut else runeCut text k
           | None => cut
           end
  end.

Definition TruncateToRuneBoundary (text : bytes) (maxBytes : nat) : bytes :=
  if length text <=? maxBytes then text else take (runeCut text maxBytes) text.

(** ** Ends *)

Definition EventTypeTurnFailed : bytes := bs "turn.failed".
Definition EventTypeTurnCancelled : bytes := bs "turn.cancelled".
Definition TurnFailureAgentRun : bytes := bs "agentRun".
Definition TurnFailureCancelled : bytes := bs "cancelled".
Definition TurnEndNoticeSource : bytes := bs "session.turn".
Definition turnFailedNoticeSummary : bytes := bs "A turn failed before it finished.".
Definition turnInterruptedNoticeSummary : bytes := bs "A turn was interrupted before it finished.".
Definition turnCancelledNoticeSummary : bytes := bs "A turn was stopped before it finished.".
Definition turnInterruptedDetail : bytes := bs "the worker or controller stopped mid-turn".
Definition turnEndDetailBytes : nat := 2048.
Definition turnEndMessageBytes : nat := 1000.
Definition turnEndUndeliveredLimit : nat := 10.
Definition turnEndToolCallLimit : nat := 20.
Definition turnEndToolArgumentBytes : nat := 300.

Record TurnEnd := mkTurnEnd {
  te_State : TurnState;
  te_Classification : bytes;
  te_EventType : bytes;
  te_Detail : bytes }.

Definition CancelledTurnEnd : TurnEnd :=
  mkTurnEnd TurnStateCancelled TurnFailureCancelled EventTypeTurnCancelled [].
Definition FailedTurnEnd (detail : bytes) : TurnEnd :=
  mkTurnEnd TurnStateFailed TurnFailureAgentRun EventTypeTurnFailed detail.
Definition interruptedTurnEnd : TurnEnd :=
  mkTurnEnd TurnStateInterrupted TurnFailureAgentRun EventTypeTurnFailed turnInterruptedDetail.

Inductive turnEndToolOutcome := turnEndToolSucceeded | turnEndToolFailed | turnEndToolNoResult.
#[export] Instance turnEndToolOutcome_eq_dec : EqDecision turnEndToolOutcome.
Proof. solve_decision. Defined.

Record TurnEndToolCall := mkEndCall {
  tc_Name : bytes;
  tc_Arguments : bytes;
  tc_Outcome : turnEndToolOutcome }.

Record storedToolCall := mkStoredCall {
  st_ID : bytes;
  st_Name : bytes;
  st_Arguments : bytes }.

Record TurnEndNotice := mkEndNotice {
  tn_TurnID : uuid;
  tn_State : TurnState;
  tn_Reason : bytes;
  tn_Error : bytes;
  tn_Message : bytes;
  tn_UndeliveredMessages : list bytes;
  tn_ToolCalls : list TurnEndToolCall;
  tn_ToolCallsOmitted : nat }.

(** [json.Marshal] of the frame and the notice, and [json.Unmarshal] of the
    stored tool calls of a message; an encoded struct is a JSON object. *)
Class TurnCodec := {
  marshalTurnEndPayload : bytes → bytes → bytes;
  marshalTurnEndNotice : TurnEndNotice → bytes;
  unmarshalToolCalls : bytes → outcome (list storedToolCall) }.
Class TurnCodecLaws `{TurnCodec} := {
  marshalTurnEndPayload_valid reason error :
    Json.Valid (marshalTurnEndPayload reason error) = true;
  marshalTurnEndNotice_object data : isJSONObject (marshalTurnEndNotice data) = true }.

Definition boundTurnEndDetail (detail : bytes) : bytes :=
  TruncateToRuneBoundary detail turnEndDetailBytes.

(** ** Messages of a turn *)

Definition incompleteMessage (m : Message) : Message :=
  let 'mkMessage id sid turn seq ws role content model thinking calls call err _ inj kind imgs
        reasoning created := m in
  mkMessage id sid turn seq ws role content model thinking calls call err true inj kind imgs
    reasoning created.

Definition updateMessages (f : Message → Message) : tx unit :=
  λ d, Ok (tt, setOthers (λ o, withMessages (f <$> messages o) o) d).

Definition messagesWhere (P : Message → Prop) `{∀ m, Decision (P m)} (d : db) : list Message :=
  merge_sort (byNumber ms_Sequence) (filter P (messages (others d))).

(** ** What the notice says *)

Definition withEndedMessages (message : bytes) (undelivered : list bytes) (data : TurnEndNotice)
    : TurnEndNotice :=
  mkEndNotice (tn_TurnID data) (tn_State data) (tn_Reason data) (tn_Error data) message
    (tn_UndeliveredMessages data ++ undelivered) (tn_ToolCalls data) (tn_ToolCallsOmitted data).

Definition queuedOfRoots (sid turnID : uuid) (d : db) : list ExecutionInboxMessage :=
  let roots := ex_ID <$> executionsWhere (λ e, ex_SessionID e = sid ∧ ex_RootTurnID e = turnID ∧
                                               ex_Kind e = ExecutionKindRoot) d in
  take turnEndUndeliveredLimit (merge_sort (byNumber in_Sequence)
    (filter (λ m, in_SessionID m = sid ∧ in_ExecutionID m ∈ roots ∧
                  in_State m = InboxMessageStateQueued) (inboxRows d))).

Definition readEndedTurnMessages (sid : uuid) (data : TurnEndNotice) (d : db) : TurnEndNotice :=
  let opening := messagesWhere (λ m, ms_SessionID m = sid ∧ ms_TurnID m = tn_TurnID data ∧
                                     ms_Role m = MessageRoleUser) d in
  withEndedMessages
    (match opening with
     | m :: _ => TruncateToRuneBoundary (ms_Content m) turnEndMessageBytes
     | [] => tn_Message data end)
    ((λ m, TruncateToRuneBoundary (in_Message m) turnEndMessageBytes) <$>
       queuedOfRoots sid (tn_TurnID data) d) data.

(** Whether the calls of each id failed; the last result of an id counts. *)
Definition toolResults (rows : list Message) : gmap bytes bool :=
  foldl (λ failed m, if bool_decide (ms_Role m = MessageRoleTool)
                     then <[ms_ToolCallID m := ms_IsError m]> failed else failed) ∅ rows.

Definition endedTurnToolCall (failed : gmap bytes bool) (call : storedToolCall)
    : TurnEndToolCall :=
  mkEndCall (st_Name call) (TruncateToRuneBoundary (st_Arguments call) turnEndToolArgumentBytes)
    (match failed !! st_ID call with
     | Some true => turnEndToolFailed
     | Some false => turnEndToolSucceeded
     | None => turnEndToolNoResult
     end).

Section store.
Variable maxStoredMessageBytes : Z.
Variable Sum256 : bytes → bytes.
Context `{ImageCodec, InboxCodec, NoticeCodec, TurnCodec}.

Fixpoint assistantCalls (failed : gmap bytes bool) (rows : list Message)
    : outcome (list TurnEndToolCall) :=
  match rows with
  | [] => Ok []
  | m :: rest =>
      if negb (bool_decide (ms_Role m = MessageRoleAssistant)) ||
         bool_decide (ms_ToolCallsJSON m = [])
      then assistantCalls failed rest
      else
        stored ← unmarshalToolCalls (ms_ToolCallsJSON m);
        calls ← assistantCalls failed rest;
        Ok ((endedTurnToolCall failed <$> stored) ++ calls)
  end.

Definition readEndedTurnToolCalls (sid : uuid) (data : TurnEndNotice) (d : db)
    : outcome TurnEndNotice :=
  let rows := messagesWhere (λ m, ms_SessionID m = sid ∧ ms_TurnID m = tn_TurnID data ∧
                (ms_Role m = MessageRoleAssistant ∨ ms_Role m = MessageRoleTool)) d in
  calls ← assistantCalls (toolResults rows) rows;
  let omitted := length calls - turnEndToolCallLimit in
  Ok (mkEndNotice (tn_TurnID data) (tn_State data) (tn_Reason data) (tn_Error data)
        (tn_Message data) (tn_UndeliveredMessages data) (drop omitted calls)
        (if turnEndToolCallLimit <? length calls then omitted else tn_ToolCallsOmitted data)).

(** [noticeID] is the id drawn for the notice. *)
Definition saveTurnEndNotice (c : call) (noticeID : uuid) (drawn : uuid → uuid) (sid : uuid)
    (data : TurnEndNotice) : tx unit :=
  let noticeType := match tn_State data with
                    | TurnStateCancelled => EventTypeTurnCancelled
                    | _ => EventTypeTurnFailed end in
  let summary := match tn_State data with
                 | TurnStateCancelled => turnCancelledNoticeSummary
                 | TurnStateInterrupted => turnInterruptedNoticeSummary
                 | _ => turnFailedNoticeSummary end in
  input ← reads (λ _, normalizeSessionNoticeInput c noticeID sid
            (mkNoticeInput Nil noticeType TurnEndNoticeSource summary (marshalTurnEndNotice data)
               NoticeDeliveryQueue None));
  _ ← createSessionNoticeWithQuery c drawn sid input;
  mret tt.

(** ** The system message (the template of turnendmessage.go) *)

Definition turnEndUnfinishedGuidance : bytes :=
  bs "Its work may be half done. Check the workspace before you repeat any of it. The user still wants what this turn's message asked for, together with any later message, unless a later message says otherwise.".
Definition turnEndCancelledGuidance : bytes :=
  bs "Its work may be half done. Check the workspace before you repeat any of it. Do not continue this turn's work unless a later message asks for it.".
Definition turnEndFailedOutcome : bytes := bs "It failed.".
Definition turnEndInterruptedOutcome : bytes :=
  bs "It was interrupted when Peen stopped before the turn ended.".
Definition turnEndCancelledOutcome : bytes := bs "The user stopped it.".
Definition turnEndResumedLead : bytes :=
  bs "Peen later resumed this turn, and its work continued after this message. What was true when it stopped:"
    ++ [NL; NL].

Definition renderUndelivered (m : bytes) : bytes :=
  [NL; NL] ++ bs "A message the user sent during this turn that never reached you:" ++ [NL] ++
  bs "<message>" ++ [NL] ++ m ++ [NL] ++ bs "</message>".

Definition renderTurnEndMessage (ended : TurnEndNotice) : bytes :=
  let outcome := match tn_State ended with
                 | TurnStateCancelled => turnEndCancelledOutcome
                 | TurnStateInterrupted => turnEndInterruptedOutcome
                 | _ => turnEndFailedOutcome end in
  let guidance := match tn_State ended with
                  | TurnStateCancelled => turnEndCancelledGuidance
                  | _ => turnEndUnfinishedGuidance end in
  let unanswered := filter (λ t, tc_Outcome t = turnEndToolNoResult) (tn_ToolCalls ended) in
  bs "This turn did not finish. " ++ outcome ++
  (if bool_decide (tn_Error ended = []) then []
   else [NL; NL] ++ bs "Error: " ++ tn_Error ended) ++
  (if bool_decide (unanswered = []) then []
   else [NL; NL] ++ bs "These tool calls never returned a result, so their effect is unknown:" ++
        concat ((λ t, [NL] ++ bs "- " ++ tc_Name t ++ bs " " ++ tc_Arguments t) <$> unanswered)) ++
  concat (renderUndelivered <$> tn_UndeliveredMessages ended) ++ [NL; NL] ++ guidance.

Definition turnEndMessageInput (text : bytes) : MessageInput :=
  mkMessageInput Nil [] MessageRoleSystem text [] [] [] [] [] false false true [] [] [].

Definition appendTurnEndMessage (c : call) (ended : TurnEndNotice) : tx unit :=
  turn ← reads (λ d, match turns (others d) !! tn_TurnID ended with
                     | Some t => Ok t | None => Err ErrNotFound end);
  session ← findSessionWithQuery (tu_SessionID turn);
  result ← appendMessages maxStoredMessageBytes Sum256 c
             (mkTurnHold Nil (tu_SessionID turn) (tn_TurnID ended)) (se_MessageCount session)
             (tu_Workspace turn) [turnEndMessageInput (renderTurnEndMessage ended)];
  updateSession (tu_SessionID turn) (countMessages (ap_messageCount result) (now c)).

Definition recordTurnEndNotice (c : call) (noticeID : uuid) (drawn : uuid → uuid) (sid : uuid)
    (data : TurnEndNotice) : tx unit :=
  let data := mkEndNotice (tn_TurnID data) (tn_State data) (tn_Reason data)
                (boundTurnEndDetail (tn_Error data)) (tn_Message data)
                (tn_UndeliveredMessages data) (tn_ToolCalls data) (tn_ToolCallsOmitted data) in
  data ← reads (λ d, Ok (readEndedTurnMessages sid data d));
  data ← reads (readEndedTurnToolCalls sid data);
  if bool_decide (tn_State data = TurnStateCompleted) then mret tt
  else
    _ ← saveTurnEndNotice c noticeID drawn sid data;
    appendTurnEndMessage c data.

Definition endNotice (turnID : uuid) (state : TurnState) (reason error : bytes) : TurnEndNotice :=
  mkEndNotice turnID state reason error [] [] [] 0.

(** ** Ending a running turn *)

Definition turnEnded (end_ : TurnEnd) (at_ : Z) (t : Turn) : Turn :=
  let 'mkTurn sid _ cancel revision req ws gen _ _ started context prompt := t in
  mkTurn sid (te_State end_) cancel revision req ws gen (te_Classification end_) (Some at_)
    started context prompt.

(** [UPDATE ... WHERE id = ? AND state = 'running']: whether it hit a row. *)
Definition updateRunningTurn (id : uuid) (P : Turn → bool) (f : Turn → Turn) : tx bool := λ d,
  match turns (others d) !! id with
  | Some t =>
      if P t && bool_decide (tu_State t = TurnStateRunning)
      then Ok (true, setOthers (λ o, withTurns (<[id := f t]> (turns o)) o) d)
      else Ok (false, d)
  | None => Ok (false, d)
  end.

Definition endRunningTurn (c : call) (noticeID : uuid) (drawn : uuid → uuid) (turnID : uuid)
    (turn : Turn) (end_ : TurnEnd) : tx bool :=
  ended ← updateRunningTurn turnID (λ _, true) (turnEnded end_ (now c));
  if negb ended then mret false
  else
    _ ← updateMessages (λ m, if bool_decide (ms_TurnID m = turnID) then incompleteMessage m else m);
    let detail := boundTurnEndDetail (te_Detail end_) in
    _ ← appendEvents c (mkTurnHold Nil (tu_SessionID turn) turnID)
          [mkEventInput Nil (tu_RequestID turn) (tu_WorkerGenerationID turn) (te_EventType end_)
             (marshalTurnEndPayload (te_Classification end_) detail) []];
    _ ← recordTurnEndNotice c noticeID drawn (tu_SessionID turn)
          (endNotice turnID (te_State end_) (te_Classification end_) detail);
    mret true.

Definition EndRunningTurn (c : call) (noticeID : uuid) (drawn : uuid → uuid)
    (sid turnID : uuid) (end_ : TurnEnd) (d : db) : db * outcome bool :=
  transaction (
    turn ← reads (λ d, firstRow tu_SessionID (turns (others d)) sid turnID);
    endRunningTurn c noticeID drawn turnID turn end_) d.

End store.

(** [markTurnEndMessagesResumed]: the end messages of a turn that Peen resumes. *)
Definition markResumed (sid turnID : uuid) (m : Message) : Message :=
  if bool_decide (ms_SessionID m = sid ∧ ms_TurnID m = turnID ∧ ms_Role m = MessageRoleSystem) &&
     negb (bool_decide (turnEndResumedLead `prefix_of` ms_Content m))
  then
    let 'mkMessage id sid turn seq ws role content model thinking calls call err inc inj kind imgs
          reasoning created := m in
    mkMessage id sid turn seq ws role (turnEndResumedLead ++ content) model thinking calls call
      err inc inj kind imgs reasoning created
  else m.

Definition markTurnEndMessagesResumed (sid turnID : uuid) : tx unit :=
  updateMessages (markResumed sid turnID).

End TurnEnd.
