(* ===== verification/Turns.v ===== *)
(** Beginning, ending and resuming the turns of a session (store.go,
    transcript.go, executionturn.go, executionturnlease.go, executionfinishturn.go,
    deferredturn.go, stoprevision.go, workerrecovery.go, and the worker recorded on a
    turn in workers.go): a session has at most one active turn in
    memory; the database says how each turn ended. *)
From stdpp Require Import base gmap sets list strings sorting.
From Stdlib Require Import ZArith Lia Ascii.
From S2P Require Import Prelude GoBytes Json Executions ExecutionControl Activities Transcripts Inbox Deferral Feed Notices TurnEnd.

Module Turns.
Import Executions ExecutionControl Activities Transcripts Inbox Deferral Feed Notices TurnEnd.

(** The store: its tables and the active turns in memory. *)
Record store := mkStore { st_db : db; st_active : activeTurns }.

Record StartTurnInput := mkStartTurn {
  si_RequestID : uuid;
  si_Workspace : bytes;
  si_Messages : list MessageInput;
  si_Events : list EventInput;
  si_NoticeIDs : list uuid;
  si_ExpectedStopRevision : option Z;
  si_WakeNoticeID : option uuid;
  si_WorkerGenerationID : uuidText }.

Record FinalizeTurnInput := mkFinalizeTurn {
  ft_State : TurnState;
  ft_FailureClassification : bytes;
  ft_FailureDetail : bytes;
  ft_ContextSnapshotHash : option bytes;
  ft_PromptSnapshotHash : option bytes;
  ft_Messages : list MessageInput;
  ft_Events : list EventInput }.

Record RestoreExecutionTurnInput := mkRestore {
  rt_ControlRevision : Z;
  rt_OwnerGenerationID : uuid;
  rt_WorkerGenerationID : uuid;
  rt_PreviousLeaseID : uuid }.

(** The ids that one call draws: a turn, a lease, a notice, and the copies of the
    notice for running children. *)
Record draws := mkDraws {
  dw_turn : uuid; dw_lease : uuid; dw_notice : uuid; dw_copies : uuid → uuid }.

(** ** Sessions

    A session with no workspace; [drawn] is the id the store draws. *)

Definition newSession : Session := mkSession 0 0 0 0 0 None.

Definition CreateOrResume (drawn : uuid) (requested : option uuid) (d : db)
    : db * outcome (uuid * bool) :=
  let id := default drawn requested in
  match sessions (others d) !! id with
  | Some _ => (d, if bool_decide (requested = None) then Err ErrAlreadyExists else Ok (id, false))
  | None => (setOthers (λ o, withSessions (<[id := newSession]> (sessions o)) o) d, Ok (id, true))
  end.

(** ** Leases in memory *)

Definition reserveLease (active : activeTurns) (lease : Lease) : outcome activeTurns :=
  match active !! ls_SessionID lease with
  | Some _ => Err ErrSessionBusy
  | None => Ok (<[ls_SessionID lease := mkActive (ls_ID lease) (ls_TurnID lease)]> active)
  end.

Definition ReleaseTurn (lease : Lease) (active : activeTurns) : activeTurns :=
  match active !! ls_SessionID lease with
  | Some turn =>
      if bool_decide (at_turnID turn = ls_TurnID lease) && bool_decide (at_leaseID turn = ls_ID lease)
      then delete (ls_SessionID lease) active else active
  | None => active
  end.

Definition isTerminalState (s : TurnState) : bool :=
  match s with
  | TurnStateCompleted | TurnStateFailed | TurnStateCancelled | TurnStateInterrupted => true
  | TurnStateRunning => false
  end.

Definition setTurns (f : gmap uuid Turn → gmap uuid Turn) (d : db) : db :=
  setOthers (λ o, withTurns (f (turns o)) o) d.

Definition createTurn (id : uuid) (t : Turn) : tx unit := λ d,
  if (tu_StopRevision t <? 0)%Z then Err ErrOther
  else match turns (others d) !! id with
  | Some _ => Err ErrAlreadyExists
  | None => Ok (tt, setTurns <[id := t]> d)
  end.

Section store.
Variable maxStoredMessageBytes : Z.
Variable Sum256 : bytes → bytes.
Context `{ImageCodec, InboxCodec, NoticeCodec, TurnCodec}.
Local Abbreviation appendTranscript := (appendTranscript maxStoredMessageBytes Sum256).
Local Abbreviation recordTurnEndNotice := (recordTurnEndNotice maxStoredMessageBytes Sum256).
Local Abbreviation endRunningTurn := (endRunningTurn maxStoredMessageBytes Sum256).

(** ** Starting *)

Definition newTurn (c : call) (sid : uuid) (revision : Z) (input : StartTurnInput) : Turn :=
  mkTurn sid TurnStateRunning false revision (si_RequestID input) (si_Workspace input)
    (si_WorkerGenerationID input) [] None (now c) None None.

Definition admitTurn (c : call) (sid : uuid) (lease : Lease) (input : StartTurnInput)
    : tx (list SessionNotice) :=
  revision ← admissionStopRevision sid (si_ExpectedStopRevision input);
  _ ← createTurn (ls_TurnID lease) (newTurn c sid revision input);
  _ ← appendTranscript c lease (si_Messages input) (si_Events input);
  deliverOpeningNotices c lease (si_NoticeIDs input) (si_WakeNoticeID input).

(** The lease is reserved before the transaction, so that a session with an active
    turn refuses without writing; a transaction that fails releases it. *)
Definition AcquireTurn (c : call) (w : draws) (sid : uuid) (input : StartTurnInput) (s : store)
    : store * outcome Lease :=
  match findSession (st_db s) sid with
  | Ok _ =>
      let lease := mkTurnHold (dw_lease w) sid (dw_turn w) in
      match reserveLease (st_active s) lease with
      | Ok active =>
          match transaction (admitTurn c sid lease input) (st_db s) with
          | (d, Ok _) => (mkStore d active, Ok lease)
          | (d, Err e) => (mkStore d (ReleaseTurn lease active), Err e)
          | (d, Panic) => (mkStore d active, Panic)
          | (d, OutOfFuel) => (mkStore d active, OutOfFuel)
          end
      | Err e => (s, Err e)
      | Panic => (s, Panic)
      | OutOfFuel => (s, OutOfFuel)
      end
  | Err e => (s, Err e)
  | Panic => (s, Panic)
  | OutOfFuel => (s, OutOfFuel)
  end.

(** ** Ending with the lease *)

Definition orElse {A} (new old : option A) : option A :=
  match new with Some _ => new | None => old end.

Definition turnFinished (input : FinalizeTurnInput) (at_ : Z) (t : Turn) : Turn :=
  let 'mkTurn sid _ cancel revision req ws gen _ _ started context prompt := t in
  mkTurn sid (ft_State input) cancel revision req ws gen (ft_FailureClassification input)
    (Some at_) started (orElse (ft_ContextSnapshotHash input) context)
    (orElse (ft_PromptSnapshotHash input) prompt).

Definition finishTurn (c : call) (w : draws) (lease : Lease) (input : FinalizeTurnInput) : tx unit :=
  finished ← updateRunningTurn (ls_TurnID lease)
               (λ t, bool_decide (tu_SessionID t = ls_SessionID lease)) (turnFinished input (now c));
  _ ← refuseIf (negb finished) ErrInvalidState;
  recordTurnEndNotice c (dw_notice w) (dw_copies w) (ls_SessionID lease)
    (endNotice (ls_TurnID lease) (ft_State input) (ft_FailureClassification input)
       (ft_FailureDetail input)).

Definition markUnfinishedMessages (lease : Lease) (input : FinalizeTurnInput) : tx unit :=
  if bool_decide (ft_State input = TurnStateCompleted) then mret tt
  else updateMessages (λ m,
    if bool_decide (ms_TurnID m = ls_TurnID lease) &&
       negb (bool_decide (ms_Role m = MessageRoleUser)) &&
       negb (bool_decide (ms_Role m = MessageRoleSystem))
    then incompleteMessage m else m).

Definition sessionCompleted (sequence : Z) (s : Session) : Session :=
  let 'mkSession rev count feed done last at_ := s in
  mkSession rev count feed (done + 1)%Z (if (0 <? sequence)%Z then sequence else last) at_.

Definition updateSessionForCompletion (sid : uuid) (state : TurnState) (result : appendResult)
    : tx unit :=
  if bool_decide (state = TurnStateCompleted)
  then updateSession sid (sessionCompleted (ap_lastMessageSequence result))
  else mret tt.

Definition runFinalizeTurnTransaction (c : call) (w : draws) (lease : Lease)
    (input : FinalizeTurnInput) : tx unit :=
  result ← appendTranscript c lease (ft_Messages input) (ft_Events input);
  _ ← finishTurn c w lease input;
  _ ← markUnfinishedMessages lease input;
  updateSessionForCompletion (ls_SessionID lease) (ft_State input) result.

(** The lease is released whether or not the transaction commits. *)
Definition FinalizeTurn (c : call) (w : draws) (lease : Lease) (input : FinalizeTurnInput)
    (s : store) : store * outcome unit :=
  if negb (isTerminalState (ft_State input)) then (s, Err ErrValidationFailed)
  else match holdLease (st_active s) lease with
  | Ok _ =>
      let '(d, r) := transaction (runFinalizeTurnTransaction c w lease input) (st_db s) in
      (mkStore d (ReleaseTurn lease (st_active s)), r)
  | Err e => (s, Err e)
  | Panic => (s, Panic)
  | OutOfFuel => (s, OutOfFuel)
  end.

(** The part of a finished execution that ends its root turn; the caller holds
    the mutex of the leases until the commit. *)
Definition finishExecutionTurn (c : call) (w : draws) (active : activeTurns)
    (execution : Execution) (holder : uuid) (turn : FinalizeTurnInput) : tx unit :=
  let lease := mkTurnHold holder (ex_SessionID execution) (ex_RootTurnID execution) in
  _ ← refuseIf (negb (hasLeaseLocked active lease)) ErrConflict;
  result ← appendTranscript c lease (ft_Messages turn) (ft_Events turn);
  _ ← finishTurn c w lease turn;
  _ ← markUnfinishedMessages lease turn;
  latest ← reads (λ d, Ok (last (messagesWhere (λ m, ms_SessionID m = ls_SessionID lease ∧
                                                     ms_TurnID m = ls_TurnID lease) d)));
  updateSessionForCompletion (ls_SessionID lease) (ft_State turn)
    (mkAppend (ap_messageCount result)
       (from_option ms_Sequence (ap_lastMessageSequence result) latest)).

(** ** Ending without the lease *)

Fixpoint interruptTurns (c : call) (w : uuid → draws) (running : list (uuid * Turn)) : tx unit :=
  match running with
  | [] => mret tt
  | (id, turn) :: rest =>
      _ ← endRunningTurn c (dw_notice (w id)) (dw_copies (w id)) id turn interruptedTurnEnd;
      interruptTurns c w rest
  end.

Definition runningTurns (d : db) : list (uuid * Turn) :=
  filter (λ t, tu_State t.2 = TurnStateRunning) (map_to_list (turns (others d))).

(** The leases of the turns that were running, as the memory holds them. *)
Definition dropLease (active : activeTurns) (t : uuid * Turn) : activeTurns :=
  let held := from_option at_leaseID Nil (active !! tu_SessionID t.2) in
  if hasLeaseLocked active (mkTurnHold held (tu_SessionID t.2) t.1)
  then delete (tu_SessionID t.2) active else active.

Definition RecoverInterrupted (c : call) (w : uuid → draws) (s : store) : store * outcome Z :=
  let running := runningTurns (st_db s) in
  match transaction (interruptTurns c w running) (st_db s) with
  | (d, Ok _) =>
      (mkStore d (foldl dropLease (st_active s) running), Ok (Z.of_nat (length running)))
  | (d, Err e) => (mkStore d (st_active s), Err e)
  | (d, Panic) => (mkStore d (st_active s), Panic)
  | (d, OutOfFuel) => (mkStore d (st_active s), OutOfFuel)
  end.

(** The turns of one worker that ended; their model runs are not in the tables here. *)
Definition workerTurns (sid generation : uuid) (d : db) : list (uuid * Turn) :=
  filter (λ t, tu_SessionID t.2 = sid ∧ tu_WorkerGenerationID t.2 = Some generation ∧
               tu_State t.2 = TurnStateRunning) (map_to_list (turns (others d))).

Definition RecoverWorkerTurns (c : call) (w : uuid → draws) (sid generation : uuid) (s : store)
    : store * outcome Z :=
  if bool_decide (sid = Nil) || bool_decide (generation = Nil) then (s, Err ErrRequiredFieldNotSet)
  else
    let running := workerTurns sid generation (st_db s) in
    match transaction (interruptTurns c w running) (st_db s) with
    | (d, Ok _) =>
        (mkStore d (foldl dropLease (st_active s) running), Ok (Z.of_nat (length running)))
    | (d, Err e) => (mkStore d (st_active s), Err e)
    | (d, Panic) => (mkStore d (st_active s), Panic)
    | (d, OutOfFuel) => (mkStore d (st_active s), OutOfFuel)
    end.

(** One statement: the state of the turn is not asked. *)
Definition RecordTurnWorkerGeneration (active : activeTurns) (lease : Lease) (generation : uuid)
    (d : db) : db * outcome unit :=
  underLease active lease (
    _ ← reads (λ d, firstRow tu_SessionID (turns (others d)) (ls_SessionID lease) (ls_TurnID lease));
    updateTurn (ls_SessionID lease) (ls_TurnID lease) (turnNamed (Some generation))) d.

(** ** Resuming the turn of an execution *)

Definition validateExecutionTurnRestore (execution : Execution) : outcome unit :=
  if negb (bool_decide (ex_Kind execution = ExecutionKindRoot)) then Err ErrConflict
  else if bool_decide (ex_State execution = ExecutionStatePaused) ||
          isExecutionTerminal (ex_State execution) then Err ErrInvalidState
  else Ok tt.

(** [ORDER BY created_at DESC, id DESC LIMIT 1] over the workers of a session. *)
Definition laterWorker (a b : uuid * WorkerGeneration) : Prop :=
  (wg_CreatedAt b.2 < wg_CreatedAt a.2)%Z ∨
  (wg_CreatedAt b.2 = wg_CreatedAt a.2 ∧ (b.1 ≤ a.1)%N).
#[export] Instance laterWorker_dec : RelDecision laterWorker.
Proof. intros a b. unfold laterWorker. apply _. Defined.

Definition currentWorker (sid : uuid) (d : db) : outcome (uuid * WorkerGeneration) :=
  match merge_sort laterWorker (filter (λ g, wg_SessionID g.2 = sid)
          (map_to_list (workerGenerations (others d)))) with
  | g :: _ => Ok g
  | [] => Err ErrNotFound
  end.

Definition validateExecutionTurnWorker (sid generation : uuid) : tx unit :=
  if bool_decide (generation = Nil) then mret tt
  else
    current ← reads (currentWorker sid);
    refuseIf (negb (bool_decide (current.1 = generation)) ||
              (negb (bool_decide (wg_State current.2 = WorkerStarting)) &&
               negb (bool_decide (wg_State current.2 = WorkerReady)))) ErrPermissionDenied.

Definition findExecutionRootTurn (execution : Execution) : tx Turn :=
  turn ← findTurn (ex_SessionID execution) (ex_RootTurnID execution);
  _ ← refuseIf (bool_decide (tu_State turn = TurnStateCompleted) ||
                bool_decide (tu_State turn = TurnStateFailed)) ErrInvalidState;
  mret turn.

Definition mayReuseExecutionTurnHolder (turn : Turn) (stored : ExecutionTurnLease)
    (input : RestoreExecutionTurnInput) : bool :=
  bool_decide (tl_OwnerGenerationID stored = rt_OwnerGenerationID input) &&
  (tl_ControlRevision stored =? rt_ControlRevision input)%Z &&
  bool_decide (default Nil (tl_WorkerGenerationID stored) = rt_WorkerGenerationID input) &&
  negb (tu_CancelRequested turn) && negb (bool_decide (tu_State turn = TurnStateCancelled)).

Definition workerLeaseReference (generation : uuid) : uuidText :=
  if bool_decide (generation = Nil) then None else Some generation.

Definition mayAdoptInitialTurnHolder (turnID : uuid) (turn : Turn) (active : activeTurn)
    (input : RestoreExecutionTurnInput) : bool :=
  bool_decide (at_turnID active = turnID) && negb (tu_CancelRequested turn) &&
  bool_decide (tu_WorkerGenerationID turn = workerLeaseReference (rt_WorkerGenerationID input)).

Definition chooseExecutionTurnLease (w : draws) (active : activeTurns) (turnID : uuid)
    (turn : Turn) (stored : option ExecutionTurnLease) (input : RestoreExecutionTurnInput)
    : outcome Lease :=
  let hold id := mkTurnHold id (tu_SessionID turn) turnID in
  match stored with
  | Some stored =>
      if bool_decide (tl_LeaseID stored = Nil) || bool_decide (tl_OwnerGenerationID stored = Nil)
      then Err ErrInvalidState
      else if mayReuseExecutionTurnHolder turn stored input then Ok (hold (tl_LeaseID stored))
      else if negb (bool_decide (rt_PreviousLeaseID input = tl_LeaseID stored)) then Err ErrConflict
      else Ok (hold (dw_lease w))
  | None =>
      match active !! tu_SessionID turn with
      | Some active =>
          if mayAdoptInitialTurnHolder turnID turn active input
          then Ok (hold (at_leaseID active)) else Ok (hold (dw_lease w))
      | None => Ok (hold (dw_lease w))
      end
  end.

Definition executionTurnLeaseMatches (stored : option ExecutionTurnLease) (turn : Turn)
    (lease : Lease) : bool :=
  match stored with
  | Some stored => bool_decide (tl_LeaseID stored = ls_ID lease) &&
                   bool_decide (tu_State turn = TurnStateRunning)
  | None => false
  end.

(** [Save]; the lease ids are unique, and the revision is not negative. *)
Definition saveExecutionTurnLease (c : call) (execution : Execution) (lease : Lease)
    (input : RestoreExecutionTurnInput) : tx unit :=
  let worker := optionalID (rt_WorkerGenerationID input) in
  let row := mkTurnLease (ex_SessionID execution) (ls_ID lease) (rt_OwnerGenerationID input)
               (rt_ControlRevision input) (ex_RootTurnID execution) worker in
  _ ← (λ d : db,
        if bool_decide (Exists (λ e, e.1 ≠ ex_ID execution ∧ tl_LeaseID e.2 = ls_ID lease)
                               (map_to_list (turnLeases (others d))))
        then Err ErrAlreadyExists
        else Ok (tt, setOthers (λ o, withTurnLeases (<[ex_ID execution := row]> (turnLeases o)) o) d));
  _ ← appendExecutionEvent c execution ExecutionEventTypeTurnRestored
        (TurnRestoredPayload (ls_ID lease) (rt_OwnerGenerationID input) worker);
  mret tt.

Definition turnRestored (revision : Z) (worker : uuidText) (t : Turn) : Turn :=
  let 'mkTurn sid _ _ _ req ws _ _ _ started context prompt := t in
  mkTurn sid TurnStateRunning false revision req ws worker [] None started context prompt.

Definition restoreRootTurnRow (turnID : uuid) (turn : Turn) (generation : uuid) : tx unit :=
  stored ← findSessionWithQuery (tu_SessionID turn);
  _ ← (if bool_decide (tu_State turn = TurnStateRunning) then mret tt
       else markTurnEndMessagesResumed (tu_SessionID turn) turnID);
  updateTurn (tu_SessionID turn) turnID
    (turnRestored (se_StopRevision stored) (workerLeaseReference generation)).

Definition restoreExecutionTurnRow (c : call) (w : draws) (active : activeTurns)
    (execution : Execution) (turn : Turn) (input : RestoreExecutionTurnInput) : tx Lease :=
  let turnID := ex_RootTurnID execution in
  _ ← refuseIf (match active !! ex_SessionID execution with
                | Some held => negb (bool_decide (at_turnID held = turnID))
                | None => false end) ErrSessionBusy;
  stored ← orAbsent (findExecutionTurnLease execution);
  lease ← reads (λ _, chooseExecutionTurnLease w active turnID turn stored input);
  if executionTurnLeaseMatches stored turn lease && hasLeaseLocked active lease then mret lease
  else
    _ ← saveExecutionTurnLease c execution lease input;
    _ ← restoreRootTurnRow turnID turn (rt_WorkerGenerationID input);
    mret lease.

Definition restoreExecutionTurn (c : call) (w : draws) (active : activeTurns)
    (sid executionID : uuid) (input : RestoreExecutionTurnInput) : tx Lease :=
  execution ← findExecution sid executionID;
  _ ← check (validateExecutionTurnRestore execution);
  _ ← refuseIf (negb (ex_ControlRevision execution =? rt_ControlRevision input)%Z) ErrConflict;
  _ ← validateExecutionTurnWorker sid (rt_WorkerGenerationID input);
  turn ← findExecutionRootTurn execution;
  restoreExecutionTurnRow c w active execution turn input.

(** A lease of the session that is replaced has its context cancelled. *)
Definition RestoreExecutionTurn (c : call) (w : draws) (sid executionID : uuid)
    (input : RestoreExecutionTurnInput) (s : store) : store * outcome Lease :=
  if (rt_ControlRevision input <? 0)%Z || bool_decide (rt_OwnerGenerationID input = Nil) ||
     bool_decide (sid = Nil) || bool_decide (executionID = Nil) ||
     (negb (bool_decide (rt_WorkerGenerationID input = Nil)) &&
      negb (bool_decide (rt_WorkerGenerationID input = rt_OwnerGenerationID input)))
  then (s, Err ErrValidationFailed)
  else
    match transaction (restoreExecutionTurn c w (st_active s) sid executionID input) (st_db s) with
    | (d, Ok lease) =>
        (mkStore d (if hasLeaseLocked (st_active s) lease then st_active s
                    else <[sid := mkActive (ls_ID lease) (ls_TurnID lease)]> (st_active s)), Ok lease)
    | (d, Err e) => (mkStore d (st_active s), Err e)
    | (d, Panic) => (mkStore d (st_active s), Panic)
    | (d, OutOfFuel) => (mkStore d (st_active s), OutOfFuel)
    end.

(** ** The turn of a deferred message *)

Definition validateDeferredStopRevision (sid : uuid) (expected : option Z)
    (message : ExecutionInboxMessage) : tx unit :=
  revision ← admissionStopRevision sid expected;
  refuseIf (negb (in_StopRevision message =? revision)%Z) ErrInvalidState.

(** The worker id was parsed by the caller: a text that is no UUID is refused
    like the nil UUID. *)
Definition validateDeferredTurnWorker (sid : uuid) (worker : uuidText) : tx unit :=
  match worker with
  | None => mret tt
  | Some generation =>
      _ ← refuseIf (bool_decide (generation = Nil)) ErrValidationFailed;
      validateExecutionTurnWorker sid generation
  end.

Definition validateDeferredTurnInput (sid inboxID : uuid) (input : StartTurnInput) : tx unit :=
  message ← findInboxRow sid inboxID;
  _ ← validateDeferredStopRevision sid (si_ExpectedStopRevision input) message;
  _ ← refuseIf (negb (bool_decide (in_State message = InboxMessageStateDeferred)) ||
                negb (bool_decide (in_RequestID message = si_RequestID input)) ||
                negb (bool_decide (in_WorkingDirectory message = si_Workspace input))) ErrConflict;
  source ← findExecution sid (in_ExecutionID message);
  _ ← refuseIf (negb (bool_decide (ex_Kind source = ExecutionKindRoot)) ||
                negb (bool_decide (ex_State source = ExecutionStateCompleted))) ErrConflict;
  _ ← completedHookInboxWatermark Sum256 source;
  validateDeferredTurnWorker sid (si_WorkerGenerationID input).

Definition deferredTurnRestored (worker : uuidText) (t : Turn) : Turn :=
  let 'mkTurn sid _ cancel revision req ws _ class _ started context prompt := t in
  mkTurn sid TurnStateRunning cancel revision req ws worker class None started context prompt.

Definition restoreDeferredTurn (active : activeTurns) (turnID : uuid) (turn : Turn)
    (input : StartTurnInput) : tx unit :=
  _ ← refuseIf (negb (bool_decide (tu_RequestID turn = si_RequestID input)) ||
                negb (bool_decide (tu_Workspace turn = si_Workspace input))) ErrConflict;
  _ ← refuseIf (tu_CancelRequested turn ||
                (negb (bool_decide (tu_State turn = TurnStateRunning)) &&
                 negb (bool_decide (tu_State turn = TurnStateInterrupted)))) ErrInvalidState;
  _ ← refuseIf (match active !! tu_SessionID turn with
                | Some held => negb (bool_decide (at_turnID held = turnID)) ||
                    negb (bool_decide (tu_WorkerGenerationID turn = si_WorkerGenerationID input))
                | None => false end) ErrSessionBusy;
  updateTurn (tu_SessionID turn) turnID (deferredTurnRestored (si_WorkerGenerationID input)).

Record DeferredTurnAdmission := mkDeferredTurn {
  da_Lease : Lease;
  da_Events : list EventInput;
  da_Created : bool;
  da_Notices : list SessionNotice }.

Definition createDeferredTurn (c : call) (lease : Lease) (input : StartTurnInput)
    : tx DeferredTurnAdmission :=
  revision ← admissionStopRevision (ls_SessionID lease) (si_ExpectedStopRevision input);
  _ ← createTurn (ls_TurnID lease) (newTurn c (ls_SessionID lease) revision input);
  _ ← appendTranscript c lease (si_Messages input) (si_Events input);
  notices ← deliverOpeningNotices c lease (si_NoticeIDs input) (si_WakeNoticeID input);
  mret (mkDeferredTurn lease (si_Events input) true notices).

Definition admitDeferredTurn (c : call) (active : activeTurns) (lease : Lease) (inboxID : uuid)
    (input : StartTurnInput) : tx DeferredTurnAdmission :=
  _ ← validateDeferredTurnInput (ls_SessionID lease) inboxID input;
  retained ← orAbsent (findTurn (ls_SessionID lease) (ls_TurnID lease));
  match retained with
  | Some turn =>
      _ ← restoreDeferredTurn active (ls_TurnID lease) turn input;
      notices ← readTurnOpeningNotices lease;
      _ ← validateWakeAdmission c (ls_SessionID lease) (si_WakeNoticeID input) notices;
      mret (mkDeferredTurn lease [] false notices)
  | None => createDeferredTurn c lease input
  end.

Definition AcquireDeferredExecutionTurn (c : call) (w : draws) (sid inboxID : uuid)
    (input : StartTurnInput) (s : store) : store * outcome DeferredTurnAdmission :=
  if bool_decide (sid = Nil) || bool_decide (inboxID = Nil) then (s, Err ErrValidationFailed)
  else
    let turnID := NewSHA1 inboxID deferredTurnIdentity in
    let held := st_active s !! sid in
    if match held with Some a => negb (bool_decide (at_turnID a = turnID)) | None => false end
    then (s, Err ErrSessionBusy)
    else
      let lease := mkTurnHold (from_option at_leaseID (dw_lease w) held) sid turnID in
      match transaction (admitDeferredTurn c (st_active s) lease inboxID input) (st_db s) with
      | (d, Ok result) =>
          (mkStore d (match held with
                      | Some _ => st_active s
                      | None => <[sid := mkActive (ls_ID lease) turnID]> (st_active s) end),
           Ok result)
      | (d, Err e) => (mkStore d (st_active s), Err e)
      | (d, Panic) => (mkStore d (st_active s), Panic)
      | (d, OutOfFuel) => (mkStore d (st_active s), OutOfFuel)
      end.

(** ** Stop *)

Definition withStopRevision (revision : Z) (s : Session) : Session :=
  let 'mkSession _ count feed done last at_ := s in mkSession revision count feed done last at_.

Definition advanceStopRevision (sid : uuid) : tx Z :=
  stored ← findSessionWithQuery sid;
  _ ← refuseIf (se_StopRevision stored =? max_int64)%Z ErrInvalidState;
  _ ← updateSession sid (withStopRevision (se_StopRevision stored + 1));
  mret (se_StopRevision stored + 1)%Z.

Definition cancelRequested (t : Turn) : Turn :=
  let 'mkTurn sid state _ revision req ws gen class done started context prompt := t in
  mkTurn sid state true revision req ws gen class done started context prompt.

Definition cancelSession (c : call) (held : option activeTurn) (sid : uuid) : tx bool :=
  _ ← advanceStopRevision sid;
  paused ← pauseSessionExecutions c sid;
  match held with
  | None => mret paused
  | Some active =>
      requested ← updateRunningTurn (at_turnID active)
                    (λ t, bool_decide (tu_SessionID t = sid)) cancelRequested;
      mret (requested || paused)
  end.

(** Cancelling the context of the turn is left out. *)
Definition Cancel (c : call) (sid : uuid) (s : store) : store * outcome bool :=
  let '(d, r) := transaction (cancelSession c (st_active s !! sid) sid) (st_db s) in
  (mkStore d (st_active s), r).

End store.

End Turns.
