(* ===== verification/TurnSteps.v ===== *)
(** What every operation on turns, notices, child runs, jobs and workers keeps:
    the rest of the interface of StoreSteps, and the operations of the store as
    one step relation. *)
From stdpp Require Import base gmap sets list list_numbers strings sorting.
From Stdlib Require Import ZArith Lia Ascii.
From S2P Require Import Prelude GoBytes Json Executions ExecutionControl Activities ExecutionSteps TxRules Transcripts TranscriptRules Inbox Deferral InboxRules InboxSteps InboxTheorems StoreSteps Feed Notices ChildRuns Jobs TurnEnd Turns.

Module TurnSteps.
Import Executions ExecutionControl Activities ExecutionSteps TxRules Transcripts Inbox Deferral InboxRules InboxSteps InboxTheorems StoreSteps Feed Notices ChildRuns Jobs TurnEnd Turns.

(** ** The interface *)

(** A change of a message or of a session that keeps its numbers. *)
Definition samePlace (f : Message → Message) : Prop :=
  ∀ m, ms_SessionID (f m) = ms_SessionID m ∧ ms_Sequence (f m) = ms_Sequence m.
Definition sessionGrows (s s' : Session) : Prop :=
  (se_MessageCount s ≤ se_MessageCount s')%Z ∧ (se_FeedSequence s ≤ se_FeedSequence s')%Z ∧
  (se_StopRevision s ≤ se_StopRevision s')%Z ∧
  (se_CompletedTurnCount s ≤ se_CompletedTurnCount s')%Z.
Definition sameCounters (f : Session → Session) : Prop :=
  ∀ s, se_MessageCount (f s) = se_MessageCount s ∧ se_FeedSequence (f s) = se_FeedSequence s ∧
       sessionGrows s (f s).

(** The statements of notices, of the events of children and of turns. *)
Class KeptTurns (R : relation db) := {
  kt_kept :: Kept R;
  kept_createTurn id t : ensures R (createTurn id t);
  kept_updateRunningTurn id P f : ensures R (updateRunningTurn id P f);
  kept_updateMessages f : samePlace f → ensures R (updateMessages f);
  kept_updateSession sid f : sameCounters f → ensures R (updateSession sid f);
  kept_newSession sid d : sessions (others d) !! sid = None →
    R d (setOthers (λ o, withSessions (<[sid := newSession]> (sessions o)) o) d);
  kept_turnLeases f d : R d (setOthers (λ o, withTurnLeases (f (turnLeases o)) o) d);
  kept_openings lease l : ensures R (recordTurnOpeningNotices lease l);
  kept_events c lease inputs : ensures R (appendEvents c lease inputs);
  kept_notice sid make :
    (∀ n, sn_SessionID (make n) = sid ∧ sn_FeedSequence (make n) = n) →
    ensures R (n ← allocateFeedSequences sid 1; createNoticeRow (make n));
  kept_deliver c sid l : ensures R (deliverPendingNotices c sid l);
  kept_runEvent sid id make :
    (∀ n, re_SessionID (make n) = sid ∧ re_FeedSequence (make n) = n) →
    ensures R (n ← allocateFeedSequences sid 1; createRunEvent id (make n));
  kept_projection c drawn sid run sequence inputs : inputs ≠ [] →
    ensures R (first ← allocateFeedSequences sid (Z.of_nat (length inputs));
               createChildProjectionEvents c drawn sid run sequence first 0 inputs);
  kept_endMessage `{ImageCodec} maxStoredMessageBytes Sum256 c ended :
    ensures R (appendTurnEndMessage maxStoredMessageBytes Sum256 c ended) }.

(** The columns of a job that its outcome does not write. *)
Definition jobIdentity (j : Job) :=
  (jb_SessionID j, jb_TurnID j, jb_AgentRunID j, jb_WorkerGenerationID j, jb_ToolCallID j,
   jb_PID j, jb_Purpose j, jb_Command j, jb_Directory j, jb_StartedAt j).

(** The statements of the records of runs, jobs and workers. *)
Class KeptRecords (R : relation db) := {
  kr_turns :: KeptTurns R;
  kept_newRun id run : ensures R (createAgentRunRow id run);
  kept_runMessages f : ensures R (updateRunMessages f);
  kept_newJob id job : ensures R (createJobRow id job);
  kept_updateJob P id f : (∀ j, jobIdentity (f j) = jobIdentity j) →
    ensures R (updateRunningJob P id f);
  kept_output sid id inputs : ensures R (appendJobOutput sid id inputs);
  kept_signal r : ensures R (createSignalRequest r);
  kept_workers f d : R d (setWorkers f d) }.

(** The tables of no record. *)
Definition storyTables (d : db) :=
  (executions d, inbox (others d), messages (others d), feedEvents (others d), sessions (others d),
   turns (others d), agentRunEvents (others d), sessionNotices (others d)).

(** The lines that an append adds. *)
Lemma createOutputLines_Ok sid job sequence inputs d lines d' :
  createOutputLines sid job sequence inputs d = Ok (lines, d') →
  d' = setOthers (λ o, withJobOutput (jobOutput o ++ lines) o) d ∧
  length lines = length inputs ∧
  ∀ k l, lines !! k = Some l → jo_SessionID l = sid ∧ jo_JobID l = job ∧
    jo_Sequence l = wrap64 (sequence + Z.of_nat k) ∧ (0 < jo_Sequence l)%Z.
Proof.
  revert sequence d lines. induction inputs as [|input inputs IH]; intros sequence d lines E; simpl in E.
  - injection E as <- <-. split_and!; [|done|done]. destruct d as [e a v []]. unfold setOthers. simpl.
    by rewrite app_nil_r.
  - apply tx_bind_Ok in E as (u & d1 & Hl & E). apply tx_bind_Ok in E as (l & d2 & Hr & E).
    injection E as <- <-. unfold createOutputLine in Hl. destruct (negb _) eqn:Hpos; [done|].
    case_bool_decide; [done|]. injection Hl as _ <-. apply IH in Hr as (-> & Hlen & Hr).
    split_and!; [|simpl; lia|].
    + unfold setOthers. simpl. by rewrite <-app_assoc.
    + intros [|k] x; simpl.
      * intros [= <-]. rewrite Z.add_0_r. simpl in *. split_and!; [done..|]. lia.
      * intros Hx. apply Hr in Hx as (? & ? & -> & ?). split_and!; [done..| |done]. f_equal. lia.
Qed.

Lemma appendJobOutput_Ok sid id inputs d lines d' :
  appendJobOutput sid id inputs d = Ok (lines, d') →
  d' = setOthers (λ o, withJobOutput (jobOutput o ++ lines) o) d ∧ length lines = length inputs ∧
  (∃ job, jobs (others d) !! id = Some job ∧ jb_SessionID job = sid ∧ jb_State job = JobStateRunning) ∧
  ∀ k l, lines !! k = Some l → jo_SessionID l = sid ∧ jo_JobID l = id ∧
    jo_Sequence l = wrap64 (nextJobOutputSequence id d + Z.of_nat k) ∧ (0 < jo_Sequence l)%Z.
Proof.
  unfold appendJobOutput, findJobWithQuery. intros E.
  apply tx_bind_Ok in E as (job & d1 & Hj & E). apply reads_Ok in Hj as [Hj ->].
  apply firstRow_Ok in Hj as [Hj Hs].
  apply tx_bind_Ok in E as (u & d1 & Hg & E).
  apply refuseIf_Ok in Hg as [Hg%negb_false_iff%bool_decide_eq_true ->].
  apply tx_bind_Ok in E as (n & d1 & Hn & E). apply reads_Ok in Hn as [[= <-] ->].
  apply createOutputLines_Ok in E as (-> & Hlen & Hl). split_and!; eauto.
Qed.

(** A relation that does not speak of the records. *)
Lemma records_apart (R : relation db) {HR : KeptTurns R} :
  (∀ d d', storyTables d' = storyTables d → R d d') → KeptRecords R.
Proof.
  intros HS. split; [done|..].
  - intros id run d u d' E. apply HS. revert E. unfold createAgentRunRow. by_cases.
  - intros f d u d' [= _ <-]. by apply HS.
  - intros id job d u d' E. apply HS. revert E. unfold createJobRow. by_cases.
  - intros P id f _ d u d' E. apply HS. revert E. unfold updateRunningJob. by_cases.
  - intros sid id inputs d r d' (-> & _)%appendJobOutput_Ok. by apply HS.
  - intros r d u d' E. apply HS. revert E. unfold createSignalRequest. by_cases.
  - intros f d. by apply HS.
Qed.

(** ** Reading *)

Local Abbreviation reading m := (ensures eq m).

Lemma reading_validateLineage fuel seen e : reading (validateWakeExecutionLineage fuel seen e).
Proof.
  revert seen e. induction fuel as [|fuel IH]; intros seen e; simpl; [apply ensures_reads, _|].
  unfold findExecution. calm_steps.
Qed.
#[local] Hint Resolve reading_validateLineage : calm.

Lemma reading_wakeExecutions l : reading (validateWakeExecutions l).
Proof.
  induction l as [|e l IH]; simpl; calm_steps.
Qed.
#[local] Hint Resolve reading_wakeExecutions : calm.

Lemma reading_wakeTurn sid id : reading (validateWakeTurn sid id).
Proof.
  unfold validateWakeTurn, findWakeTurn. calm_steps.
Qed.
#[local] Hint Resolve reading_wakeTurn : calm.

Lemma reading_agentLineage fuel c seen sid id : reading (validateAgentWakeLineage fuel c seen sid id).
Proof.
  revert seen id. induction fuel as [|fuel IH]; intros seen id; simpl; [apply ensures_reads, _|].
  unfold findAgentRun, validateAgentWakeExecutions. calm_steps.
Qed.
#[local] Hint Resolve reading_agentLineage : calm.

Section reading.
Context `{NoticeCodec}.

Lemma reading_wake c sid wake l : reading (validateWakeAdmission c sid wake l).
Proof.
  unfold validateWakeAdmission, validateWakeSource, validateJobWake, agentWakeLineage.
  calm_steps.
Qed.

Lemma reading_openings sid selected ids : reading (pendingOpeningNotices sid selected ids).
Proof.
  revert selected. induction ids as [|id ids IH]; intros selected; simpl; calm_steps.
Qed.
End reading.

(** ** The operations of the store

    The end of a root turn, the outcome of a child and what its activity
    projects commit together with the activity that completes; here each is a
    transaction of its own. *)

Inductive job_op :=
  | JCreate (drawn sid : uuid) (input : CreateJobInput)
  | JOutput (drawn : nat → uuid) (sid id : uuid) (inputs : list AppendJobOutputInput)
  | JFinalize (sid id : uuid) (input : FinalizeJobInput)
  | JSignal (drawn sid id : uuid) (input : RecordJobSignalInput)
  | JRecover.

Definition applyJob (c : call) (o : job_op) (d : db) : db :=
  match o with
  | JCreate drawn sid input => (CreateJob c drawn sid input d).1
  | JOutput drawn sid id inputs => (AppendJobOutput c drawn sid id inputs d).1
  | JFinalize sid id input => (FinalizeJob c sid id input d).1
  | JSignal drawn sid id input => (RecordJobSignal c drawn sid id input d).1
  | JRecover => (RecoverInterruptedJobs c d).1
  end.

Inductive worker_op :=
  | WCreate (sid : uuid) (input : CreateWorkerGenerationInput)
  | WState (id : uuid) (state : WorkerState) (detail : bytes)
  | WProcess (id : uuid) (pid : Z)
  | WContainer (id : uuid) (container image : bytes)
  | WExit (id : uuid) (code : Z).

Definition applyWorker (c : call) (o : worker_op) (d : db) : db :=
  match o with
  | WCreate sid input => (CreateWorkerGeneration c sid input d).1
  | WState id state detail => (UpdateWorkerGenerationState c id state detail d).1
  | WProcess id pid => (RecordWorkerProcess id pid d).1
  | WContainer id container image => (RecordWorkerContainer id container image d).1
  | WExit id code => (RecordWorkerExit id code d).1
  end.

Inductive store_op :=
  | SCreate (drawn : uuid) (requested : option uuid)
  | SExecution (o : op)
  | SInbox (o : inbox_op)
  | SAcquire (w : draws) (sid : uuid) (input : StartTurnInput)
  | SFinalize (w : draws) (lease : Lease) (input : FinalizeTurnInput)
  | SFinish (w : draws) (execution : Execution) (holder : uuid) (turn : FinalizeTurnInput)
  | SEnd (notice : uuid) (drawn : uuid → uuid) (sid turn : uuid) (end_ : TurnEnd)
  | SRecover (w : uuid → draws)
  | SRestore (w : draws) (sid execution : uuid) (input : RestoreExecutionTurnInput)
  | SDeferred (w : draws) (sid inbox : uuid) (input : StartTurnInput)
  | SCancel (sid : uuid)
  | SNameWorker (lease : Lease) (generation : uuid)
  | SRecoverWorker (w : uuid → draws) (sid generation : uuid)
  | SRelease (lease : Lease)
  | SNotice (notice : uuid) (drawn : uuid → uuid) (sid : uuid) (input : CreateSessionNoticeInput)
  | SDrain (sid : uuid)
  | SRunEvent (event sid run : uuid) (input : AgentRunEventInput)
  | SFinalizeRun (sid run : uuid) (input : FinalizeAgentRunInput)
  | SFinishChild (event : uuid) (execution : Execution) (child : option FinalizeAgentRunInput)
                 (report : bytes)
  | SProject (drawn : Z → uuid) (run : uuid) (row : AgentRun) (inputs : list AgentRunEventInput)
  | SStartRun (drawn sid : uuid) (input : StartAgentRunInput)
  | SCancelRun (drawn : uuid → uuid * uuid) (sid run : uuid)
  | SRecoverRuns
  | SPrepareRuns (sid generation : uuid)
  | SClaimRun (sid run : uuid) (input : ClaimAgentRunInput)
  | SJob (o : job_op)
  | SWorker (o : worker_op).

Section ops.
Variables maxExecutionStateBytes maxStoredMessageBytes : Z.
Variable Sum256 : bytes → bytes.
Variable marshalResolution : ResolveActivityInput → bytes.
Variable finishDecisionHash : CompleteActivityInput → bytes.
Context `{ImageCodec, InboxCodec, NoticeCodec, ChildCodec, TurnCodec}.

Definition onDb (f : db → db) (s : store) : store := mkStore (f (st_db s)) (st_active s).

Definition applyStore (c : call) (o : store_op) (s : store) : store :=
  match o with
  | SCreate drawn requested => onDb (λ d, (CreateOrResume drawn requested d).1) s
  | SExecution o =>
      onDb (apply maxExecutionStateBytes maxStoredMessageBytes Sum256 marshalResolution
              finishDecisionHash c o) s
  | SInbox o => onDb (applyInbox maxExecutionStateBytes maxStoredMessageBytes Sum256 c o) s
  | SAcquire w sid input => (AcquireTurn maxStoredMessageBytes Sum256 c w sid input s).1
  | SFinalize w lease input => (FinalizeTurn maxStoredMessageBytes Sum256 c w lease input s).1
  | SFinish w execution holder turn =>
      onDb (λ d, (transaction (finishExecutionTurn maxStoredMessageBytes Sum256 c w (st_active s)
                                 execution holder turn) d).1) s
  | SEnd notice drawn sid turn end_ =>
      onDb (λ d, (EndRunningTurn maxStoredMessageBytes Sum256 c notice drawn sid turn end_ d).1) s
  | SRecover w => (RecoverInterrupted maxStoredMessageBytes Sum256 c w s).1
  | SRestore w sid execution input => (RestoreExecutionTurn c w sid execution input s).1
  | SDeferred w sid inbox input =>
      (AcquireDeferredExecutionTurn maxStoredMessageBytes Sum256 c w sid inbox input s).1
  | SCancel sid => (Cancel c sid s).1
  | SNameWorker lease generation =>
      onDb (λ d, (RecordTurnWorkerGeneration (st_active s) lease generation d).1) s
  | SRecoverWorker w sid generation =>
      (RecoverWorkerTurns maxStoredMessageBytes Sum256 c w sid generation s).1
  | SRelease lease => mkStore (st_db s) (ReleaseTurn lease (st_active s))
  | SNotice notice drawn sid input =>
      onDb (λ d, (CreateSessionNotice c notice drawn sid input d).1) s
  | SDrain sid => onDb (λ d, (DrainSessionNotices c sid d).1) s
  | SRunEvent event sid run input =>
      onDb (λ d, (AppendAgentRunEvent c event sid run input d).1) s
  | SFinalizeRun sid run input => onDb (λ d, (FinalizeAgentRun c sid run input d).1) s
  | SFinishChild event execution child report =>
      onDb (λ d, (transaction (finishExecutionChild c event execution child report) d).1) s
  | SProject drawn run row inputs =>
      onDb (λ d, (transaction (saveChildProjectionEvents c drawn run row inputs) d).1) s
  | SStartRun drawn sid input => onDb (λ d, (CreateAgentRun c drawn sid input d).1) s
  | SCancelRun drawn sid run => onDb (λ d, (RequestAgentRunCancellation c drawn sid run d).1) s
  | SRecoverRuns => onDb (λ d, (RecoverInterruptedAgentRuns c d).1) s
  | SPrepareRuns sid generation => onDb (λ d, (PrepareAgentRunRecovery c sid generation d).1) s
  | SClaimRun sid run input => onDb (λ d, (ClaimAgentRun c sid run input d).1) s
  | SJob o => onDb (applyJob c o) s
  | SWorker o => onDb (applyWorker c o) s
  end.

(** A store is empty, and changes by its operations; the rest of the program
    appends events to executions. *)
Inductive store_step (s : store) : store → Prop :=
  | store_op_step c o : store_step s (applyStore c o s)
  | store_event_step c sid id kind p :
      store_step s (onDb (λ d, (transaction
        (e ← findExecution sid id; appendExecutionEvent c e kind p) d).1) s).

Definition emptyStore : store := mkStore (mkDb ∅ ∅ [] noOthers) ∅.
Definition store_reachable (s : store) : Prop := rtc store_step emptyStore s.

End ops.

(** ** Every operation *)

Section kept.
Context (R : relation db) {HR : KeptRecords R}.

Lemma kept_reading {A} (m : tx A) : reading m → ensures R m.
Proof. intros Hm d a d' E. by rewrite (Hm _ _ _ E). Qed.

Lemma ensures_assoc {A B C} (m : tx A) (f : A → tx B) (g : A → B → tx C) :
  ensures R (a ← m; f a) → (∀ a b, ensures R (g a b)) → ensures R (a ← m; b ← f a; g a b).
Proof.
  intros Hf Hg d r d' E. apply tx_bind_Ok in E as (a & d1 & Ha & E).
  apply tx_bind_Ok in E as (b & d2 & Hb & E). etrans; [eapply (Hf d b d2)|by eapply Hg].
  by eapply tx_then.
Qed.
Variables maxExecutionStateBytes maxStoredMessageBytes : Z.
Variable Sum256 : bytes → bytes.
Variable marshalResolution : ResolveActivityInput → bytes.
Variable finishDecisionHash : CompleteActivityInput → bytes.
Context `{ImageCodec, InboxCodec, NoticeCodec, ChildCodec, TurnCodec}.

#[local] Hint Resolve kept_createTurn kept_updateRunningTurn kept_openings kept_events kept_deliver
  kept_endMessage kept_updateAgentRun kept_append kept_createRunMessage : calm.
#[local] Hint Extern 2 (ensures R (appendExecutionEvent _ _ _ _)) =>
  apply kept_quietly, calm_append; apply _ : calm.
#[local] Hint Extern 2 (ensures R (findExecution _ _)) => apply ensures_reads, _ : calm.
#[local] Hint Extern 2 (ensures R (findTurn _ _)) => apply ensures_reads, _ : calm.
#[local] Hint Extern 2 (ensures R (findSessionWithQuery _)) => apply ensures_reads, _ : calm.
#[local] Hint Extern 2 (ensures R (findAgentRun _ _ _)) => apply ensures_reads, _ : calm.
#[local] Hint Extern 2 (ensures R (findInboxRow _ _)) => apply ensures_reads, _ : calm.
#[local] Hint Extern 2 (ensures R (validateWakeAdmission _ _ _ _)) =>
  apply kept_reading, reading_wake : calm.
#[local] Hint Extern 2 (ensures R (pendingOpeningNotices _ _ _)) =>
  apply kept_reading, reading_openings : calm.
#[local] Hint Extern 2 (ensures R (broadcastNoticeToChildren _ _ _ _)) =>
  apply kept_broadcast; apply _ : calm.
#[local] Hint Extern 2 (ensures R (completedHookInboxWatermark _ _)) =>
  apply kept_quietly, calm_watermark; apply _ : calm.
#[local] Hint Extern 2 (ensures R (orAbsent _)) => apply kept_orAbsent : calm.

(** *** Notices *)

Lemma kept_createNotice c drawn sid input :
  ensures R (createSessionNoticeWithQuery c drawn sid input).
Proof.
  unfold createSessionNoticeWithQuery. apply ensures_bind; [apply _|calm_steps|intros _].
  apply ensures_bind; [apply _|calm_steps|intros sequence]. cbv zeta.
  eapply (ensures_assoc _ (λ n, createNoticeRow _) (λ n _, _)).
  - apply kept_notice. done.
  - intros n _. calm_steps.
Qed.
#[local] Hint Resolve kept_createNotice : calm.

Lemma kept_deliverOpening c lease ids wake : ensures R (deliverOpeningNotices c lease ids wake).
Proof. unfold deliverOpeningNotices. calm_steps. Qed.
#[local] Hint Resolve kept_deliverOpening : calm.

(** *** The end of a turn *)

Lemma kept_recordEnd c id drawn sid data :
  ensures R (recordTurnEndNotice maxStoredMessageBytes Sum256 c id drawn sid data).
Proof. unfold recordTurnEndNotice, saveTurnEndNotice. calm_steps. Qed.
#[local] Hint Resolve kept_recordEnd : calm.

Lemma samePlace_incomplete (P : Message → bool) :
  samePlace (λ m, if P m then incompleteMessage m else m).
Proof. intros m. destruct (P m); [|done]. by destruct m. Qed.
Lemma samePlace_resumed sid id : samePlace (markResumed sid id).
Proof. intros m. unfold markResumed. case_match; [|done]. by destruct m. Qed.

Lemma kept_end c id drawn turnID turn end_ :
  ensures R (endRunningTurn maxStoredMessageBytes Sum256 c id drawn turnID turn end_).
Proof.
  unfold endRunningTurn. calm_steps. apply kept_updateMessages.
  apply (samePlace_incomplete (λ m, bool_decide (ms_TurnID m = turnID))).
Qed.
#[local] Hint Resolve kept_end : calm.

Lemma kept_interrupt c w l : ensures R (interruptTurns maxStoredMessageBytes Sum256 c w l).
Proof. induction l as [|[id t] l IH]; simpl; calm_steps. Qed.

Lemma kept_finishTurn c w lease input :
  ensures R (finishTurn maxStoredMessageBytes Sum256 c w lease input).
Proof. unfold finishTurn. calm_steps. Qed.

Lemma kept_markUnfinished lease input : ensures R (markUnfinishedMessages lease input).
Proof.
  unfold markUnfinishedMessages. case_bool_decide; [calm_steps|]. apply kept_updateMessages.
  apply (samePlace_incomplete (λ m, bool_decide (ms_TurnID m = ls_TurnID lease) &&
    negb (bool_decide (ms_Role m = MessageRoleUser)) &&
    negb (bool_decide (ms_Role m = MessageRoleSystem)))).
Qed.

Lemma kept_completion sid state result : ensures R (updateSessionForCompletion sid state result).
Proof.
  unfold updateSessionForCompletion. case_bool_decide; [|calm_steps]. apply kept_updateSession.
  intros s. unfold sessionGrows. destruct s; simpl. lia.
Qed.
#[local] Hint Resolve kept_finishTurn kept_markUnfinished kept_completion : calm.

Lemma kept_finalize c w lease input :
  ensures R (runFinalizeTurnTransaction maxStoredMessageBytes Sum256 c w lease input).
Proof. unfold runFinalizeTurnTransaction. calm_steps. Qed.

Lemma kept_finishExecutionTurn c w active e holder input :
  ensures R (finishExecutionTurn maxStoredMessageBytes Sum256 c w active e holder input).
Proof. unfold finishExecutionTurn. calm_steps. Qed.

(** *** The start of a turn *)

Lemma kept_startTurn c sid lease input :
  ensures R (admitTurn maxStoredMessageBytes Sum256 c sid lease input).
Proof. unfold admitTurn, admissionStopRevision. calm_steps. Qed.

Lemma kept_saveLease c e lease input : ensures R (saveExecutionTurnLease c e lease input).
Proof.
  unfold saveExecutionTurnLease. apply ensures_bind; [apply _| |intros _; calm_steps].
  intros d u d'. case_bool_decide; [done|]. intros [= <- <-]. apply kept_turnLeases.
Qed.
#[local] Hint Resolve kept_saveLease : calm.

(** The turn is still as it was found when its row is written. *)
Definition sameTurns (d d' : db) : Prop := turns (others d') = turns (others d).
#[local] Instance sameTurns_refl : Reflexive sameTurns.
Proof. done. Qed.
#[local] Instance sameTurns_trans : Transitive sameTurns.
Proof. intros a b c. unfold sameTurns. congruence. Qed.

Lemma calm_sameTurns {A} (m : tx A) : ensures calm m → ensures sameTurns m.
Proof. apply ensures_weaken. intros d d' [_ E _]. unfold messageTables in E. by injection E. Qed.

Lemma sameTurns_saveLease c e lease input : ensures sameTurns (saveExecutionTurnLease c e lease input).
Proof.
  unfold saveExecutionTurnLease. apply ensures_bind; [apply _| |intros _].
  - intros d u d'. case_bool_decide; [done|]. by intros [= <- <-].
  - apply calm_sameTurns. calm_steps.
Qed.

Lemma kept_rootRow turnID turn generation d u d' :
  turns (others d) !! turnID = Some turn → tu_State turn ≠ TurnStateCompleted →
  restoreRootTurnRow turnID turn generation d = Ok (u, d') → R d d'.
Proof.
  intros Ht Hst E. unfold restoreRootTurnRow in E.
  apply tx_bind_Ok in E as (s & d1 & Hs & E). unfold findSessionWithQuery in Hs.
  apply reads_Ok in Hs as [_ ->]. apply tx_bind_Ok in E as (v & d1 & Hm & E).
  injection E as _ <-. etrans; [|apply kept_updateTurn].
  - case_bool_decide; [injection Hm as _ <-; reflexivity|].
    by eapply kept_updateMessages; [apply samePlace_resumed|].
  - assert (turns (others d1) = turns (others d)) as ->
      by (case_bool_decide; by injection Hm as _ <-).
    rewrite Ht. intros ? [= <-] _. by left.
Qed.

Lemma kept_restore c w active sid id input : ensures R (restoreExecutionTurn c w active sid id input).
Proof.
  unfold restoreExecutionTurn, validateExecutionTurnWorker, findExecutionRootTurn,
    restoreExecutionTurnRow, findExecutionTurnLease.
  apply ensures_bind; [apply _|calm_steps|intros e].
  do 2 (apply ensures_bind; [apply _|calm_steps|intros _]).
  apply ensures_bind; [apply _|calm_steps|intros _].
  intros d r d' E. apply tx_bind_Ok in E as (turn & d1 & Ht & E).
  apply tx_bind_Ok in Ht as (turn' & d2 & Hf & Ht). unfold findTurn in Hf.
  apply reads_Ok in Hf as [Hf ->]. apply tx_bind_Ok in Ht as (v & d2 & Hg & Ht).
  apply refuseIf_Ok in Hg as [Hg ->]. injection Ht as <- <-.
  apply firstRow_Ok in Hf as [Hf _]. apply orb_false_iff in Hg as [Hg%bool_decide_eq_false _].
  apply tx_bind_Ok in E as (v' & d1 & Hb & E). apply refuseIf_Ok in Hb as [_ ->].
  apply tx_bind_Ok in E as (stored & d1 & Hl & E). apply orAbsent_Ok in Hl.
  assert (d1 = d) as -> by (destruct stored; [by apply reads_Ok in Hl as [_ ->]|by destruct Hl]).
  apply tx_bind_Ok in E as (lease & d1 & Hc & E). apply reads_Ok in Hc as [_ ->].
  case_if; [injection E as _ <-; reflexivity|].
  apply tx_bind_Ok in E as (v2 & d1 & Hsave & E). apply tx_bind_Ok in E as (v3 & d2 & Hrow & E).
  injection E as _ <-. etrans; [by eapply kept_saveLease|].
  apply sameTurns_saveLease in Hsave. unfold sameTurns in Hsave.
  eapply kept_rootRow; [rewrite Hsave; exact Hf|done|exact Hrow].
Qed.

Lemma kept_restoreDeferred active id turn input d u d' :
  turns (others d) !! id = Some turn →
  restoreDeferredTurn active id turn input d = Ok (u, d') → R d d'.
Proof.
  intros Ht E. unfold restoreDeferredTurn in E.
  apply tx_bind_Ok in E as (v1 & d1 & Hg & E). apply refuseIf_Ok in Hg as [_ ->].
  apply tx_bind_Ok in E as (v2 & d1 & Hg & E). apply refuseIf_Ok in Hg as [Hst ->].
  apply tx_bind_Ok in E as (v3 & d1 & Hg & E). apply refuseIf_Ok in Hg as [_ ->].
  injection E as _ <-. apply kept_updateTurn. rewrite Ht. intros ? [= <-] _. left. intros Hc.
  rewrite Hc in Hst. by rewrite orb_true_r in Hst.
Qed.

Lemma kept_deferredTurn c active lease id input :
  ensures R (admitDeferredTurn maxStoredMessageBytes Sum256 c active lease id input).
Proof.
  unfold admitDeferredTurn. apply ensures_bind; [apply _| |intros _].
  { unfold validateDeferredTurnInput, validateDeferredStopRevision, validateDeferredTurnWorker,
      validateExecutionTurnWorker, admissionStopRevision. calm_steps. }
  intros d r d' E. apply tx_bind_Ok in E as (retained & d1 & Hf & E). apply orAbsent_Ok in Hf.
  unfold findTurn in Hf.
  assert (d1 = d) as -> by (destruct retained; [by apply reads_Ok in Hf as [_ ->]|by destruct Hf]).
  destruct retained as [turn|].
  - apply reads_Ok in Hf as [Hf _]. apply firstRow_Ok in Hf as [Hf _].
    apply tx_bind_Ok in E as (v & d1 & Hr & E). etrans; [by eapply kept_restoreDeferred|].
    revert E. match goal with |- ?m d1 = _ → _ => enough (ensures R m) as Hm by (by apply Hm) end.
    unfold readTurnOpeningNotices. calm_steps.
  - revert E. match goal with |- ?m d = _ → _ => enough (ensures R m) as Hm by (by apply Hm) end.
    unfold createDeferredTurn, admissionStopRevision. calm_steps.
Qed.

Lemma kept_cancelSession c held sid : ensures R (cancelSession c held sid).
Proof.
  unfold cancelSession. apply ensures_bind; [apply _| |intros _].
  - unfold advanceStopRevision, findSessionWithQuery.
    intros d r d' E. apply tx_bind_Ok in E as (s & d1 & Hs & E). apply reads_Ok in Hs as [Hs ->].
    apply tx_bind_Ok in E as (u & d1 & Hu & E). apply refuseIf_Ok in Hu as [_ ->].
    destruct (sessions (others d) !! sid) as [row|] eqn:Erow; [|done]. injection Hs as ->.
    apply tx_bind_Ok in E as (u' & d1 & Hu & E). injection E as _ <-. revert Hu.
    assert (∀ d d', d' = setOthers (λ o, withSessions
      (alter (λ x, withStopRevision (Z.max (se_StopRevision x) (se_StopRevision s + 1)) x) sid
             (sessions o)) o) d → R d d') as Hmax.
    { intros ?? ->. apply (kept_updateSession sid (λ x, withStopRevision
        (Z.max (se_StopRevision x) (se_StopRevision s + 1)) x)) with (a := tt); [|done].
      intros x. unfold sessionGrows. destruct x; simpl. lia. }
    intros [= _ <-]. apply Hmax. unfold setOthers. f_equal. unfold withSessions. f_equal.
    apply map_eq. intros k. destruct (decide (k = sid)) as [->|Hk].
    + rewrite !lookup_alter_eq, Erow. simpl. do 2 f_equal. lia.
    + by rewrite !lookup_alter_ne.
  - apply ensures_bind; [apply _|apply kept_quietly; [apply _|]|intros paused; calm_steps].
    unfold pauseSessionExecutions. calm_steps.
Qed.

(** *** The runs of children *)

Lemma runKept_count n r : runKept r (countEvents n r).
Proof. by destruct r. Qed.
#[local] Hint Resolve runKept_count : calm.

Lemma kept_appendRunEvent c sid run input : ensures R (appendAgentRunEvent c sid run input).
Proof.
  unfold appendAgentRunEvent, findAgentRunAcceptingEvent.
  apply ensures_bind; [apply _|calm_steps|intros _].
  apply ensures_bind; [apply _|calm_steps|intros sequence]. cbv zeta.
  eapply (ensures_assoc _ (λ n, createRunEvent _ _) (λ n _, _)).
  - by apply kept_runEvent.
  - intros n _. calm_steps.
Qed.

Lemma kept_finalizeRun c sid run input : ensures R (finalizeAgentRunInTransaction c sid run input).
Proof.
  intros d r d' E. unfold finalizeAgentRunInTransaction, findAgentRun in E.
  apply tx_bind_Ok in E as (row & d1 & Hf & E). apply findAgentRun_Ok in Hf as (-> & Hf & _).
  apply tx_bind_Ok in E as (u & d1 & Hg & E).
  apply refuseIf_Ok in Hg as [Hg%negb_false_iff%bool_decide_eq_true ->].
  injection E as _ <-. apply kept_changeAgentRun. intros r' Hr' Hs.
  apply runKept_unsettled. simplify_eq. by rewrite Hg.
Qed.
#[local] Hint Resolve kept_finalizeRun : calm.

Lemma kept_childTerminal c id run row : ensures R (recordExecutionChildTerminal c id run row).
Proof.
  unfold recordExecutionChildTerminal. apply ensures_bind; [apply _|calm_steps|intros _].
  apply ensures_bind; [apply _|calm_steps|intros sequence]. cbv zeta.
  eapply (ensures_assoc _ (λ n, createRunEvent _ _) (λ n _, _)).
  - by apply kept_runEvent.
  - intros n _. calm_steps.
Qed.
#[local] Hint Resolve kept_childTerminal : calm.

Lemma kept_finishChild c id e child report : ensures R (finishExecutionChild c id e child report).
Proof.
  unfold finishExecutionChild. destruct child as [child|]; [|apply ensures_ret, _].
  calm_steps. apply kept_report; apply _.
Qed.

Lemma kept_saveProjection c drawn run row inputs :
  ensures R (saveChildProjectionEvents c drawn run row inputs).
Proof.
  unfold saveChildProjectionEvents. case_bool_decide; [calm_steps|]. cbv zeta.
  apply ensures_bind; [apply _|calm_steps|intros _].
  apply ensures_bind; [apply _|calm_steps|intros sequence].
  apply ensures_bind; [apply _|calm_steps|intros _].
  eapply (ensures_assoc _ (λ n, createChildProjectionEvents c drawn _ run sequence n 0 inputs)
            (λ n _, _)).
  - by apply kept_projection.
  - intros n _. calm_steps.
Qed.

(** *** Steps *)

Lemma runKept_cancelRequested r : runKept r (runCancelRequested r).
Proof. by destruct r. Qed.

Lemma kept_requestRunCancel sid id state : ensures R (requestRunCancel sid id state).
Proof.
  intros d u d'. unfold requestRunCancel.
  destruct (firstRow _ _ _ _) as [row| | |] eqn:Hf; try by intros [= _ <-].
  apply firstRow_Ok in Hf as [Hf _]. case_if; intros [= _ <-]; [|done].
  eapply kept_setRun; [apply _|done|apply runKept_cancelRequested].
Qed.
#[local] Hint Resolve kept_requestRunCancel : calm.

Lemma kept_cancelAgentRun c id e : ensures R (cancelExecutionAgentRun c id e).
Proof.
  intros d u d' E. unfold cancelExecutionAgentRun in E.
  apply tx_bind_Ok in E as (run & d1 & Hr & E). unfold deref in Hr. apply reads_Ok in Hr as [_ ->].
  apply tx_bind_Ok in E as (row & d1 & Hf & E). apply findAgentRun_Ok in Hf as (-> & Hf & Hs).
  apply tx_bind_Ok in E as ([] & d1 & Hg & E). apply refuseIf_Ok in Hg as [Hg ->].
  apply tx_bind_Ok in E as ([] & d1 & Hu & E). injection Hu as <-.
  etrans; [apply (kept_changeAgentRun (ar_SessionID row) run (runCancelled (now c)))|].
  - intros r Hr _. simplify_eq. apply runKept_unsettled.
    by destruct (ar_State row).
  - revert E. assert (ensures R (
      event ← recordExecutionChildTerminal c id run (runCancelled (now c) row);
      recordExecutionChildReport c e id (re_CreatedAt event)
        (cancelledChildReport (ar_Name row) run))) as He; [|by apply He].
    apply ensures_bind; [apply _|apply kept_childTerminal|intros event]. apply kept_report; apply _.
Qed.

Lemma kept_cancelRuns c drawn l : ensures R (cancelRunMembers c drawn l).
Proof.
  induction l as [|e l IH]; simpl; [apply ensures_ret, _|].
  apply ensures_bind; [apply _|apply kept_quietly, calm_find; apply _|intros x].
  apply ensures_bind; [apply _| |done]. destruct (isExecutionTerminal _); [apply ensures_ret, _|].
  apply ensures_bind; [apply _|apply kept_quietly, calm_cancelNative; apply _|intros _].
  destruct (drawn _) as [ev rep]. apply kept_cancelAgentRun.
Qed.

Lemma kept_cancelRun c drawn sid run : ensures R (requestAgentRunCancellation c drawn sid run).
Proof.
  unfold requestAgentRunCancellation, findAgentRun. calm_steps. apply kept_cancelRuns.
Qed.

Lemma kept_createRun c drawn sid input d : R d (CreateAgentRun c drawn sid input d).1.
Proof.
  unfold CreateAgentRun. destruct validateAgentRunStart; [|reflexivity..]. cbv zeta.
  apply (kept_transaction R). unfold validateRunParents, findAgentRun, findSessionWithQuery, findTurn.
  calm_steps. apply kept_newRun.
Qed.

Lemma kept_interruptRuns c running : ensures R (interruptRuns c running).
Proof.
  induction running as [|id l IH]; simpl; [calm_steps|].
  apply ensures_bind; [apply _| |done]. apply ensures_bind; [apply _| |intros _; apply kept_runMessages].
  intros d u d'. unfold updateRunningRun. destruct (agentRuns _ !! id) as [r|] eqn:Hr; [|by intros [= _ <-]].
  case_bool_decide as Hs; intros [= _ <-]; [|done]. eapply kept_setRun; [apply _|done|].
  apply runKept_unsettled. by rewrite Hs.
Qed.

Lemma kept_recoverRuns (c : call) pick :
  ensures R (running ← reads (λ d, Ok (pick d)); _ ← interruptRuns c running;
             mret (Z.of_nat (length (running : list uuid)))).
Proof.
  apply ensures_bind; [apply _|calm_steps|intros running].
  apply ensures_bind; [apply _|apply kept_interruptRuns|calm_steps].
Qed.

(** Only a run that is running or interrupted is claimed. *)
Lemma kept_claimRun c sid id input : ensures R (claimRecoveredRun c sid id input).
Proof.
  intros d r d' E. unfold claimRecoveredRun, findAgentRun in E.
  apply tx_bind_Ok in E as (row & d1 & Hf & E). apply findAgentRun_Ok in Hf as (-> & Hf & _).
  apply tx_bind_Ok in E as (u & d1 & Hg & E). apply refuseIf_Ok in Hg as [Hg ->].
  apply tx_bind_Ok in E as (v & d1 & Hc & E). injection E as _ <-. unfold claimAgentRun, firstRow in Hc.
  rewrite Hf in Hc. case_bool_decide; [|done]. case_if; [|done]. injection Hc as _ <-.
  eapply kept_setRun; [apply _|done|]. apply runKept_unsettled.
  apply orb_false_iff in Hg as [_ Hg%negb_false_iff]. unfold recoverableAgentRun in Hg.
  apply orb_true_iff in Hg as [Hg%bool_decide_eq_true|Hg].
  - by rewrite Hg.
  - apply andb_prop in Hg as [[Hg _]%andb_prop _]. apply bool_decide_eq_true in Hg. by rewrite Hg.
Qed.

(** *** Jobs and workers *)

Lemma identity_finalized input at_ j : jobIdentity (jobFinalized input at_ j) = jobIdentity j.
Proof. by destruct j. Qed.

Lemma kept_interruptJobs c l : ensures R (interruptJobs c l).
Proof.
  induction l as [|id l IH]; simpl; [calm_steps|].
  apply ensures_bind; [apply _|apply kept_updateJob; intros j; apply identity_finalized|calm_steps].
Qed.

Lemma kept_job c o d : R d (applyJob c o d).
Proof.
  destruct o; simpl.
  - unfold CreateJob. destruct validateCreateJobInput; [|reflexivity..]. cbv zeta.
    apply (kept_transaction R).
    unfold validateJobParents, findAgentRun, findSessionWithQuery, findTurn. calm_steps.
    apply kept_newJob.
  - unfold AppendJobOutput. apply (kept_guarded R _ (λ i, transaction _)). intros i.
    apply (kept_transaction R), kept_output.
  - unfold FinalizeJob. case_if; [reflexivity|]. apply (kept_transaction R).
    unfold finalizeJobInTransaction, findJobWithQuery.
    apply ensures_bind; [apply _|calm_steps|intros job]. apply ensures_bind; [apply _|calm_steps|intros _].
    apply ensures_bind; [apply _|apply kept_updateJob; intros j; apply identity_finalized|calm_steps].
  - unfold RecordJobSignal. destruct validateJobSignalInput; [|reflexivity..].
    apply (kept_transaction R). unfold findJobWithQuery. calm_steps. apply kept_signal.
  - unfold RecoverInterruptedJobs. apply (kept_transaction R).
    apply ensures_bind; [apply _|calm_steps|intros running; apply kept_interruptJobs].
Qed.

Lemma kept_updateWorker id f d : R d (updateWorker id f d).1.
Proof. unfold updateWorker. destruct (_ !! id); [apply kept_workers|reflexivity]. Qed.

Lemma kept_worker c o d : R d (applyWorker c o d).
Proof.
  destruct o; simpl; try apply kept_updateWorker.
  unfold CreateWorkerGeneration. destruct findSession; [|reflexivity..].
  case_bool_decide; [reflexivity|]. case_bool_decide; [reflexivity|].
  destruct (_ !! cw_ID input); [reflexivity|apply kept_workers].
Qed.

Lemma kept_store c o s :
  R (st_db s) (st_db (applyStore maxExecutionStateBytes maxStoredMessageBytes Sum256
                        marshalResolution finishDecisionHash c o s)).
Proof.
  destruct o; simpl.
  - unfold CreateOrResume. cbv zeta. destruct (sessions _ !! _) eqn:E; [reflexivity|].
    by apply kept_newSession.
  - apply execution_kept, _.
  - apply inbox_kept, _.
  - unfold AcquireTurn. destruct findSession; [|reflexivity..]. cbv zeta.
    destruct reserveLease; [|reflexivity..].
    pose proof (kept_transaction R _ (st_db s) (kept_startTurn c sid
      (mkTurnHold (dw_lease w) sid (dw_turn w)) input)) as Ht.
    destruct (transaction _ _) as [d []]; exact Ht.
  - unfold FinalizeTurn. case_if; [reflexivity|]. destruct holdLease; [|reflexivity..].
    pose proof (kept_transaction R _ (st_db s) (kept_finalize c w lease input)) as Ht.
    by destruct (transaction _ _) as [d r].
  - apply (kept_transaction R). apply kept_finishExecutionTurn.
  - unfold EndRunningTurn. apply (kept_transaction R). calm_steps.
  - unfold RecoverInterrupted. cbv zeta.
    pose proof (kept_transaction R _ (st_db s) (kept_interrupt c w (runningTurns (st_db s)))) as Ht.
    destruct (transaction _ _) as [d []]; exact Ht.
  - unfold RestoreExecutionTurn. case_if; [reflexivity|].
    pose proof (kept_transaction R _ (st_db s)
      (kept_restore c w (st_active s) sid execution input)) as Ht.
    destruct (transaction _ _) as [d []]; exact Ht.
  - unfold AcquireDeferredExecutionTurn. case_if; [reflexivity|]. cbv zeta. case_if; [reflexivity|].
    match goal with |- context [admitDeferredTurn _ _ c ?a ?l ?i ?input] =>
      pose proof (kept_transaction R _ (st_db s) (kept_deferredTurn c a l i input)) as Ht end.
    destruct (transaction _ _) as [d []]; exact Ht.
  - unfold Cancel.
    pose proof (kept_transaction R _ (st_db s)
      (kept_cancelSession c (st_active s !! sid) sid)) as Ht.
    by destruct (transaction _ _) as [d r].
  - unfold RecordTurnWorkerGeneration. apply kept_lease; [apply _|].
    apply ensures_bind; [apply _|calm_steps|intros turn]. intros d u d' [= _ <-].
    apply kept_updateTurn. intros t _ _. right. by destruct t.
  - unfold RecoverWorkerTurns. case_if; [reflexivity|]. cbv zeta.
    match goal with |- context [interruptTurns _ _ c w ?l] =>
      pose proof (kept_transaction R _ (st_db s) (kept_interrupt c w l)) as Ht end.
    destruct (transaction _ _) as [d []]; exact Ht.
  - reflexivity.
  - unfold CreateSessionNotice. apply (kept_guarded R _ (λ i, transaction _)). intros i.
    apply (kept_transaction R). apply kept_createNotice.
  - unfold DrainSessionNotices. apply (kept_transaction R). calm_steps.
  - unfold AppendAgentRunEvent. apply (kept_guarded R _ (λ i, transaction _)). intros i.
    apply (kept_transaction R). apply kept_appendRunEvent.
  - unfold FinalizeAgentRun. apply (kept_guarded R _ (λ i, transaction _)). intros i.
    apply (kept_transaction R). apply kept_finalizeRun.
  - apply (kept_transaction R). apply kept_finishChild.
  - apply (kept_transaction R). apply kept_saveProjection.
  - apply kept_createRun.
  - apply (kept_transaction R). apply kept_cancelRun.
  - apply (kept_transaction R). apply kept_recoverRuns.
  - unfold PrepareAgentRunRecovery. case_if; [reflexivity|]. apply (kept_transaction R).
    apply ensures_bind; [apply _|calm_steps|intros _]. apply kept_recoverRuns.
  - apply (kept_transaction R). apply kept_claimRun.
  - apply kept_job.
  - apply kept_worker.
Qed.

Lemma kept_store_step s s' :
  store_step maxExecutionStateBytes maxStoredMessageBytes Sum256 marshalResolution
    finishDecisionHash s s' → R (st_db s) (st_db s').
Proof.
  destruct 1 as [c o|c sid id kind p]; [apply kept_store|]. simpl.
  apply (kept_transaction R). calm_steps.
Qed.

End kept.

End TurnSteps.
