(* ===== verification/FeedSteps.v ===== *)
(** Every transaction of the store keeps the feed contiguous: the rows it adds
    to the events, the events of children and the notices of a session take the
    numbers right after the head of its feed. *)
From stdpp Require Import base gmap sets list list_numbers strings sorting.
From Stdlib Require Import ZArith Lia Ascii.
From S2P Require Import Prelude GoBytes Json Executions ExecutionControl Activities ExecutionSteps TxRules Transcripts TranscriptRules Inbox Deferral InboxRules InboxSteps InboxTheorems StoreSteps Feed FeedRules FeedGrowth Notices ChildRuns TurnEnd Turns TurnSteps.

Module FeedSteps.
Import Executions ExecutionControl Activities ExecutionSteps TxRules Transcripts TranscriptRules Inbox Deferral InboxRules InboxSteps InboxTheorems StoreSteps Feed FeedRules FeedGrowth Notices ChildRuns TurnEnd Turns TurnSteps.

(** ** Extending the feed *)

Definition noticesKeyed (d : db) : Prop :=
  ∀ id n, sessionNotices (others d) !! id = Some n → sn_ID n = id.

(** The heads are in range, and a notice is stored under its id. *)
Definition feedBounded (d : db) : Prop :=
  (∀ sid, (0 ≤ feedHead d sid ≤ max_int64)%Z) ∧
  noticesKeyed d.

(** The rows of a session in each table, and the head, before and after. *)
Definition extendsAt (d d' : db) (sid : uuid) : Prop :=
  ∃ nE nR nN,
    numbers (eventRows d' sid) ≡ₚ numbers (eventRows d sid) ++ nE ∧
    numbers (runEventRows d' sid) ≡ₚ numbers (runEventRows d sid) ++ nR ∧
    numbers (noticeRows d' sid) ≡ₚ numbers (noticeRows d sid) ++ nN ∧
    nE ++ nR ++ nN ≡ₚ seqZ (feedHead d sid + 1) (feedHead d' sid - feedHead d sid) ∧
    (feedHead d sid ≤ feedHead d' sid)%Z.

Definition feedExtends (d d' : db) : Prop :=
  feedBounded d → feedBounded d' ∧ ∀ sid, extendsAt d d' sid.

Lemma extendsAt_refl d sid : extendsAt d d sid.
Proof.
  exists [], [], []. rewrite !app_nil_r, Z.sub_diag, seqZ_nil by lia. by split_and!.
Qed.

Lemma extendsAt_trans a b c sid : extendsAt a b sid → extendsAt b c sid → extendsAt a c sid.
Proof.
  intros (e1 & r1 & n1 & E1 & R1 & N1 & S1 & H1) (e2 & r2 & n2 & E2 & R2 & N2 & S2 & H2).
  exists (e1 ++ e2), (r1 ++ r2), (n1 ++ n2). split_and!.
  - by rewrite E2, E1, app_assoc.
  - by rewrite R2, R1, app_assoc.
  - by rewrite N2, N1, app_assoc.
  - replace (feedHead c sid - feedHead a sid)%Z
      with (feedHead b sid - feedHead a sid + (feedHead c sid - feedHead b sid))%Z by lia.
    rewrite seqZ_app by lia. rewrite <-S1.
    replace (feedHead a sid + 1 + (feedHead b sid - feedHead a sid))%Z
      with (feedHead b sid + 1)%Z by lia.
    rewrite <-S2. solve_Permutation.
  - lia.
Qed.

#[export] Instance feedExtends_refl : Reflexive feedExtends.
Proof. intros d Hd. split; [done|]. intros sid. apply extendsAt_refl. Qed.
#[export] Instance feedExtends_trans : Transitive feedExtends.
Proof.
  intros a b c Hab Hbc Ha. destruct (Hab Ha) as [Hb Eab]. destruct (Hbc Hb) as [Hc Ebc].
  split; [done|]. intros sid. by eapply extendsAt_trans.
Qed.

(** What extends the feed keeps it contiguous. *)
Lemma extends_contiguous d d' sid : extendsAt d d' sid → contiguousAt d sid → contiguousAt d' sid.
Proof.
  intros (e & r & n & E & R & N & S & H) [H0 Hp]. split; [lia|].
  unfold feedRows in *. rewrite numbers_pageRows in *. simpl in *. rewrite E, R, N.
  replace (feedHead d' sid) with (feedHead d sid + (feedHead d' sid - feedHead d sid))%Z by lia.
  rewrite seqZ_app, <-Hp by lia. rewrite (Z.add_comm 1), <-S. solve_Permutation.
Qed.

Lemma extends_grows d d' : (∀ sid, extendsAt d d' sid) → feedGrows d d'.
Proof.
  intros H. split; intros sid; destruct (H sid) as (e & r & n & E & R & N & _ & Hh); try done.
  - rewrite E. by apply submseteq_inserts_r.
  - rewrite R. by apply submseteq_inserts_r.
  - rewrite N. by apply submseteq_inserts_r.
Qed.

(** ** Tables and heads that stay as they are *)

Definition sameFeed (d d' : db) : Prop :=
  feedEvents (others d') = feedEvents (others d) ∧
  agentRunEvents (others d') = agentRunEvents (others d) ∧
  sessionNotices (others d') = sessionNotices (others d) ∧ ∀ sid, feedHead d' sid = feedHead d sid.

Lemma extends_same d d' : sameFeed d d' → feedExtends d d'.
Proof.
  intros (E1 & E2 & E3 & Eh) [Hd Hk]. split; [split|].
  - intros sid. rewrite Eh. apply Hd.
  - unfold noticesKeyed. by rewrite E3.
  - intros sid. exists [], [], []. unfold eventRows, runEventRows, noticeRows.
    rewrite E1, E2, E3, Eh, !app_nil_r, Z.sub_diag, seqZ_nil by lia. by split_and!.
Qed.

Lemma calm_sameFeed d d' : calm d d' → sameFeed d d'.
Proof.
  intros [_ E _]. unfold messageTables in E. unfold sameFeed, feedHead. injection E as ?? E3 E4 ?? E7 E8 _ _.
  split_and!; [congruence..|]. intros sid. by rewrite E4.
Qed.

(** A change of the row of a session that keeps its feed number. *)
Lemma sameFeed_session d sid f :
  (∀ s, se_FeedSequence (f s) = se_FeedSequence s) →
  sameFeed d (setOthers (λ o, withSessions (alter f sid (sessions o)) o) d).
Proof.
  intros Hf. split_and!; [done..|]. intros x. unfold feedHead. simpl.
  destruct (decide (x = sid)) as [->|Hne].
  - rewrite lookup_alter_eq. destruct (sessions (others d) !! sid); simpl; [apply Hf|done].
  - by rewrite lookup_alter_ne.
Qed.

(** ** Rows of a table that is a map *)

Section table.
Context {R : Type} (session : R → uuid) (number : R → Z).

Definition numbersIn (table : gmap uuid R) (sid : uuid) : list Z :=
  number <$> filter (λ r, session r = sid) (map_to_list table).*2.

Lemma numbersIn_insert table id r sid :
  table !! id = None →
  numbersIn (<[id := r]> table) sid ≡ₚ
    numbersIn table sid ++ (if decide (sid = session r) then [number r] else []).
Proof.
  intros Hid. unfold numbersIn. rewrite map_to_list_insert by done. simpl. rewrite filter_cons.
  destruct (decide (session r = sid)) as [<-|]; [rewrite decide_True by done; simpl|].
  - apply Permutation_cons_append.
  - rewrite decide_False by congruence. by rewrite app_nil_r.
Qed.

Lemma numbersIn_replace table id old r sid :
  table !! id = Some old → session r = session old → number r = number old →
  numbersIn (<[id := r]> table) sid ≡ₚ numbersIn table sid.
Proof.
  intros Hid Es En. unfold numbersIn. rewrite <-(map_to_list_delete table id old Hid).
  rewrite <-insert_delete_eq, map_to_list_insert by apply lookup_delete_eq. simpl.
  rewrite !filter_cons, Es. case_decide; simpl; by rewrite ?En.
Qed.
End table.

Lemma numbers_runEventRows d sid :
  numbers (runEventRows d sid) = numbersIn re_SessionID re_FeedSequence (agentRunEvents (others d)) sid.
Proof.
  unfold numbers, runEventRows, numbersIn. rewrite filter_fmap, <-!list_fmap_compose.
  by apply list_fmap_ext.
Qed.
Lemma numbers_noticeRows d sid :
  numbers (noticeRows d sid) = numbersIn sn_SessionID sn_FeedSequence (sessionNotices (others d)) sid.
Proof. unfold numbers, noticeRows, numbersIn. by rewrite <-list_fmap_compose. Qed.

(** ** Numbers of a new group of rows *)

(** Numbers counted from a head that did not overflow, all positive, did not
    overflow either. *)
Lemma allocated_numbers (h : Z) (l : list Z) :
  (0 ≤ h ≤ max_int64)%Z → l ≠ [] →
  (∀ i z, l !! i = Some z → z = wrap64 (wrap64 (h + 1) + Z.of_nat i) ∧ (0 < z)%Z) →
  (h + Z.of_nat (length l) ≤ max_int64)%Z ∧ l = seqZ (h + 1) (Z.of_nat (length l)).
Proof.
  intros Hh Hne Hl.
  assert (h ≠ max_int64) as Hm.
  { intros ->. destruct l as [|z l]; [done|]. destruct (Hl 0 z eq_refl) as [-> Hz].
    revert Hz. by vm_compute. }
  rewrite (wrap64_id (h + 1)) in Hl by (unfold min_int64 in *; lia).
  assert (h + Z.of_nat (length l) ≤ max_int64)%Z as Hfit.
  { apply wrap_positive; [done|]. intros i [z Hz]%lookup_lt_is_Some_2.
    destruct (Hl i z Hz) as [-> ?]. by replace (h + Z.of_nat i + 1)%Z with (h + 1 + Z.of_nat i)%Z by lia. }
  split; [done|]. apply list_eq. intros i. destruct (l !! i) as [z|] eqn:Hz.
  - destruct (Hl i z Hz) as [-> _]. apply lookup_lt_Some in Hz. symmetry.
    apply lookup_seqZ. rewrite wrap64_id by (unfold min_int64 in *; lia). lia.
  - apply lookup_ge_None_1 in Hz. symmetry. apply lookup_ge_None_2. rewrite length_seqZ. lia.
Qed.

Definition only {A} (sid x : uuid) (l : list A) : list A := if decide (x = sid) then l else [].

Lemma only_nil {A} sid x : only (A:=A) sid x [] = [].
Proof. unfold only. by case_decide. Qed.

Lemma extends_group d d' sid (nE nR nN : list Z) :
  feedBounded d →
  noticesKeyed d' →
  (∀ x, feedHead d' x = feedHead d x + Z.of_nat (length (only sid x (nE ++ nR ++ nN))))%Z →
  (∀ x, numbers (eventRows d' x) ≡ₚ numbers (eventRows d x) ++ only sid x nE) →
  (∀ x, numbers (runEventRows d' x) ≡ₚ numbers (runEventRows d x) ++ only sid x nR) →
  (∀ x, numbers (noticeRows d' x) ≡ₚ numbers (noticeRows d x) ++ only sid x nN) →
  nE ++ nR ++ nN = seqZ (feedHead d sid + 1) (Z.of_nat (length (nE ++ nR ++ nN))) →
  (feedHead d sid + Z.of_nat (length (nE ++ nR ++ nN)) ≤ max_int64)%Z →
  feedBounded d' ∧ ∀ x, extendsAt d d' x.
Proof.
  unfold only. intros [Hb Hk] Hk' Hh HE HR HN Hs Hfit. split; [split; [|done]|].
  - intros x. rewrite Hh. specialize (Hb x). case_decide; [subst x|]; simpl; lia.
  - intros x. exists (only sid x nE), (only sid x nR), (only sid x nN). unfold only.
    rewrite Hh. specialize (HE x). specialize (HR x). specialize (HN x).
    case_decide as Hx; [subst x|]; split_and!; try done; try (simpl; lia).
    + rewrite Hs at 1. by replace (_ + _ - _)%Z with (Z.of_nat (length (nE ++ nR ++ nN))) by lia.
    + simpl. rewrite seqZ_nil by lia. done.
Qed.

(** Counters of a session whose row changes. *)
Lemma counter_same (g : Session → Z) (m : gmap uuid Session) sid f x :
  (∀ s, g (f s) = g s) → from_option g 0%Z (alter f sid m !! x) = from_option g 0%Z (m !! x).
Proof.
  intros Hg. destruct (decide (x = sid)) as [->|]; [|by rewrite lookup_alter_ne].
  rewrite lookup_alter_eq. by destruct (m !! sid); simpl.
Qed.

Lemma counter_alter (g : Session → Z) (m : gmap uuid Session) sid s f k x :
  m !! sid = Some s → g (f s) = (g s + k)%Z →
  from_option g 0%Z (alter f sid m !! x) =
    (from_option g 0%Z (m !! x) + if decide (x = sid) then k else 0)%Z.
Proof.
  intros Hs Hg. case_decide as Hx; [subst x|].
  - by rewrite lookup_alter_eq, Hs.
  - rewrite lookup_alter_ne by done. lia.
Qed.

Lemma head_allocated d sid s k :
  sessions (others d) !! sid = Some s → ∀ x,
  feedHead (setOthers (λ o, withSessions (alter (withFeedSequence (λ n, n + k)%Z) sid (sessions o)) o) d) x =
  (feedHead d x + if decide (x = sid) then k else 0)%Z.
Proof.
  intros Hs x. by apply (counter_alter se_FeedSequence _ _ s); [|destruct s].
Qed.

(** ** The events of a turn *)

Lemma createEvents_set rows d u d' :
  createEvents rows d = Ok (u, d') →
  d' = setOthers (λ o, withFeedEvents (feedEvents o ++ rows) o) d.
Proof.
  revert d. induction rows as [|e rows IH]; intros d E; simpl in E.
  - injection E as _ <-. destruct d as [x a l []]. unfold setOthers, withFeedEvents. simpl.
    by rewrite app_nil_r.
  - case_if; [done|]. case_bool_decide; [done|]. apply IH in E as ->.
    unfold setOthers, withFeedEvents. simpl. by rewrite <-app_assoc.
Qed.

Lemma extends_events c lease inputs : ensures feedExtends (appendEvents c lease inputs).
Proof.
  intros d u d' E. unfold appendEvents in E. case_bool_decide; [injection E as _ <-; reflexivity|].
  apply tx_bind_Ok in E as (n & d1 & Hn & E). apply reads_Ok in Hn as [_ ->].
  apply tx_bind_Ok in E as (first & d1 & Hf & E).
  assert (0 < Z.of_nat (length inputs))%Z as Hlen by (destruct inputs; [done|simpl; lia]).
  apply allocate_Ok in Hf as (s & Hs & -> & ->); [|done].
  apply tx_bind_Ok in E as (rows & d1 & Hb & E). apply reads_Ok in Hb as [Hb ->].
  apply buildEventRows_Ok in Hb as [Hlr Hrows].
  pose proof E as Eset. apply createEvents_set in Eset as ->.
  apply createEvents_Ok in E as (_ & _ & _ & Hpos).
  set (sid := ls_SessionID lease) in *.
  intros Hd. pose proof Hd as [Hb Hk].
  assert (feedHead d sid = se_FeedSequence s) as Hh by (unfold feedHead; by rewrite Hs).
  destruct (allocated_numbers (feedHead d sid) (fe_FeedSequence <$> rows)) as [Hfit Hseq].
  { apply Hb. }
  { intros ->%fmap_nil_inv. simpl in Hlr. lia. }
  { intros i z Hz. rewrite list_lookup_fmap in Hz. destruct (rows !! i) as [row|] eqn:Hi; [|done].
    injection Hz as <-. destruct (Hrows i row Hi) as (_ & _ & Er). rewrite Hh. split.
    - by rewrite Z.add_0_l in Er.
    - apply Hpos. by eapply list_elem_of_lookup_2. }
  apply (extends_group _ _ sid (fe_FeedSequence <$> rows) [] []); rewrite ?app_nil_r; try done.
  - intros x. etrans; [exact (head_allocated d sid s (Z.of_nat (length inputs)) Hs x)|].
    unfold only. case_decide; [|done].
    rewrite length_fmap. lia.
  - intros x. unfold only, eventRows, numbers. simpl. rewrite filter_app, !fmap_app.
    apply Permutation_app_head. case_decide as Hx.
    + subst x. rewrite filter_every; [by rewrite <-list_fmap_compose|].
      apply Forall_forall. intros e (i & Hi)%list_elem_of_lookup_1. by apply (Hrows i).
    + rewrite filter_no; [done|]. apply Forall_forall. intros e (i & Hi)%list_elem_of_lookup_1.
      destruct (Hrows i e Hi) as [-> _]. congruence.
  - intros x. by rewrite only_nil, app_nil_r.
  - intros x. by rewrite only_nil, app_nil_r.
Qed.

(** ** A notice, and an event of a child *)

(** A row that takes one number. *)
Lemma allocated_one d sid s n :
  feedBounded d → sessions (others d) !! sid = Some s →
  n = wrap64 (se_FeedSequence s + 1) → (0 < n)%Z →
  n = (feedHead d sid + 1)%Z ∧ (feedHead d sid + 1 ≤ max_int64)%Z.
Proof.
  intros [Hb _] Hs -> Hn.
  destruct (allocated_numbers (feedHead d sid) [wrap64 (se_FeedSequence s + 1)]) as [Hfit Hseq].
  - apply Hb.
  - done.
  - intros [|i] z; [|by destruct i]. intros [= <-]. split; [|done]. unfold feedHead. rewrite Hs. simpl.
    rewrite Z.add_0_r, (wrap64_id (wrap64 _)); [done|apply wrap64_range].
  - injection Hseq as ->. split; [|done]. simpl in Hfit. lia.
Qed.

(** A new notice is fresh under its id. *)
Lemma createNoticeRow_Ok n d u d' :
  createNoticeRow n d = Ok (u, d') →
  (0 < sn_FeedSequence n)%Z ∧ d' = setNotices <[sn_ID n := n]> d ∧
  (noticesKeyed d → sessionNotices (others d) !! sn_ID n = None).
Proof.
  unfold createNoticeRow. destruct (negb (noticeRowValid n)) eqn:Ev; [done|].
  case_bool_decide as Hc; [done|]. intros [= _ <-].
  split_and!; [unfold noticeRowValid in Ev; lia|done|]. intros Hk.
  apply eq_None_not_Some. intros [old Ho]. apply Hc, Exists_exists. exists old. split.
  - unfold noticeRowsOf. apply list_elem_of_fmap. exists (sn_ID n, old). split; [done|].
    by apply elem_of_map_to_list.
  - left. symmetry. by apply Hk.
Qed.

(** One notice delivered: the row was pending. *)
Lemma deliver_cons c sid notice l d r d' :
  deliverPendingNotices c sid (notice :: l) d = Ok (r, d') →
  ∃ row rest, sessionNotices (others d) !! sn_ID notice = Some row ∧
    sn_SessionID row = sid ∧ sn_State row = NoticeStatePending ∧
    r = noticeDelivered (now c) notice :: rest ∧
    deliverPendingNotices c sid l (setNotices <[sn_ID notice := noticeDelivered (now c) row]> d) =
      Ok (rest, d').
Proof.
  simpl. intros E. apply tx_bind_Ok in E as (row & d1 & Hr & E). apply reads_Ok in Hr as [[= Hr] ->].
  destruct row as [row|]; [|by apply tx_bind_Ok in E as (? & ? & E & _)].
  apply tx_bind_Ok in E as (u & d1 & Hg & E). apply refuseIf_Ok in Hg as [Hg ->].
  apply tx_bind_Ok in E as (v & d1 & Hu & E). injection Hu as _ <-.
  apply tx_bind_Ok in E as (delivered & d2 & Hd & E). injection E as <- <-.
  apply orb_false_iff in Hg as [Hs%negb_false_iff Hp%negb_false_iff].
  apply bool_decide_eq_true in Hs, Hp. by exists row, delivered.
Qed.

Lemma extends_notice sid make :
  (∀ n, sn_SessionID (make n) = sid ∧ sn_FeedSequence (make n) = n) →
  ensures feedExtends (n ← allocateFeedSequences sid 1; createNoticeRow (make n)).
Proof.
  intros Hmake d u d' E Hd. apply tx_bind_Ok in E as (n & d1 & Hf & E).
  apply allocate_Ok in Hf as (s & Hs & -> & En); [|done].
  destruct (Hmake n) as [Esid Efeed]. set (row := make n) in *.
  pose proof Hd as [_ Hk]. apply createNoticeRow_Ok in E as (Hpos & -> & Hfresh).
  specialize (Hfresh Hk).
  rewrite Efeed in Hpos. destruct (allocated_one d sid s n) as [-> Hfit]; [done..|].
  apply (extends_group _ _ sid [] [] [sn_FeedSequence row]); simpl; try done.
  - intros id x. simpl. rewrite lookup_insert_Some. intros [[<- <-]|[_ Hx]]; [done|by apply Hk].
  - intros x. etrans; [exact (head_allocated d sid s 1 Hs x)|]. unfold only. by case_decide.
  - intros x. by rewrite only_nil, app_nil_r.
  - intros x. by rewrite only_nil, app_nil_r.
  - intros x. rewrite !numbers_noticeRows. unfold only. rewrite <-Esid. by apply numbersIn_insert.
  - rewrite Efeed. rewrite seqZ_cons, seqZ_nil by lia. done.
Qed.

(** A row of a child, fresh under its id. *)
Lemma createRunEvent_Ok id e d u d' :
  createRunEvent id e d = Ok (u, d') →
  agentRunEvents (others d) !! id = None ∧ (0 < re_FeedSequence e)%Z ∧
  d' = setRunEvents <[id := e]> d.
Proof.
  unfold createRunEvent. destruct (negb (runEventRowValid e)) eqn:Ev; [done|].
  case_bool_decide as Hc; [done|]. intros [= _ <-].
  split_and!; [|unfold runEventRowValid in Ev; lia|done].
  apply eq_None_not_Some. intros [old Ho]. apply Hc, Exists_exists. exists (id, old). split.
  - by apply elem_of_map_to_list.
  - by left.
Qed.

Lemma runEvents_insert d id e x :
  agentRunEvents (others d) !! id = None →
  numbers (runEventRows (setRunEvents <[id := e]> d) x) ≡ₚ
    numbers (runEventRows d x) ++ only (re_SessionID e) x [re_FeedSequence e].
Proof. intros. rewrite !numbers_runEventRows. by apply numbersIn_insert. Qed.

Lemma extends_runEvent sid id make :
  (∀ n, re_SessionID (make n) = sid ∧ re_FeedSequence (make n) = n) →
  ensures feedExtends (n ← allocateFeedSequences sid 1; createRunEvent id (make n)).
Proof.
  intros Hmake d u d' E Hd. apply tx_bind_Ok in E as (n & d1 & Hf & E).
  apply allocate_Ok in Hf as (s & Hs & -> & En); [|done].
  destruct (Hmake n) as [Esid Efeed]. set (row := make n) in *.
  apply createRunEvent_Ok in E as (Hfresh & Hpos & ->). rewrite Efeed in Hpos.
  destruct (allocated_one d sid s n) as [-> Hfit]; [done..|].
  pose proof Hd as [_ Hk].
  apply (extends_group _ _ sid [] [re_FeedSequence row] []); simpl; try done.
  - intros x. etrans; [exact (head_allocated d sid s 1 Hs x)|]. unfold only. by case_decide.
  - intros x. by rewrite only_nil, app_nil_r.
  - intros x. etrans; [by apply runEvents_insert|]. by rewrite Esid.
  - intros x. by rewrite only_nil, app_nil_r.
  - rewrite Efeed. rewrite seqZ_cons, seqZ_nil by lia. done.
Qed.

Lemma projection_Ok c drawn sid run sequence first i inputs d u d' :
  createChildProjectionEvents c drawn sid run sequence first i inputs d = Ok (u, d') →
  ∃ l, length l = length inputs ∧
    (∀ k z, l !! k = Some z → z = wrap64 (first + (i + Z.of_nat k)) ∧ (0 < z)%Z) ∧
    (∀ x, numbers (runEventRows d' x) ≡ₚ numbers (runEventRows d x) ++ only sid x l) ∧
    ∃ t, d' = setRunEvents (λ _, t) d.
Proof.
  revert i d. induction inputs as [|input inputs IH]; intros i d E; simpl in E.
  - injection E as _ <-. exists []. split_and!; [done|done| |].
    + intros x. by rewrite only_nil, app_nil_r.
    + exists (agentRunEvents (others d)). by destruct d as [? ? ? []].
  - apply tx_bind_Ok in E as (n & d1 & Hn & E). apply reads_Ok in Hn as [_ ->].
    apply tx_bind_Ok in E as (v & d1 & He & E).
    apply createRunEvent_Ok in He as (Hfresh & Hpos & ->).
    apply IH in E as (l & Hlen & Hl & Hrows & t & ->).
    exists (wrap64 (first + i) :: l). split_and!; [simpl; lia| | |].
    + intros [|k] z; simpl.
      * intros [= <-]. rewrite Z.add_0_r. done.
      * intros Hk. destruct (Hl k z Hk) as [-> ?]. split; [f_equal; lia|done].
    + intros x. etrans; [exact (Hrows x)|]. rewrite runEvents_insert by done.
      rewrite <-app_assoc. apply Permutation_app_head. unfold only. simpl. by case_decide.
    + by exists t.
Qed.

Lemma extends_projection c drawn sid run sequence inputs :
  inputs ≠ [] →
  ensures feedExtends (first ← allocateFeedSequences sid (Z.of_nat (length inputs));
    createChildProjectionEvents c drawn sid run sequence first 0 inputs).
Proof.
  intros Hne d u d' E Hd. apply tx_bind_Ok in E as (n & d1 & Hf & E).
  assert (0 < Z.of_nat (length inputs))%Z as Hlen by (destruct inputs; [done|simpl; lia]).
  apply allocate_Ok in Hf as (s & Hs & -> & ->); [|done].
  apply projection_Ok in E as (l & Hll & Hl & Hrows & t & ->).
  pose proof Hd as [Hb Hk].
  assert (feedHead d sid = se_FeedSequence s) as Hh by (unfold feedHead; by rewrite Hs).
  destruct (allocated_numbers (feedHead d sid) l) as [Hfit Hseq].
  { apply Hb. }
  { intros ->. simpl in Hll. lia. }
  { intros i z Hz. rewrite Hh. by apply Hl. }
  apply (extends_group _ _ sid [] l []); rewrite ?app_nil_r; simpl; try done.
  - intros x. etrans; [exact (head_allocated d sid s (Z.of_nat (length inputs)) Hs x)|].
    unfold only. case_decide; [lia|done].
  - intros x. by rewrite only_nil, app_nil_r.
  - intros x. by rewrite only_nil, app_nil_r.
Qed.

(** ** Statements that leave the feed as it is *)

#[export] Instance sameFeed_refl : Reflexive sameFeed.
Proof. done. Qed.
#[export] Instance sameFeed_trans : Transitive sameFeed.
Proof.
  intros a b c (E1 & E2 & E3 & Eh) (F1 & F2 & F3 & Fh).
  split_and!; [congruence..|]. intros sid. by rewrite Fh, Eh.
Qed.

Lemma extends_unfed {A} (m : tx A) : ensures sameFeed m → ensures feedExtends m.
Proof. apply ensures_weaken. intros d d'. apply extends_same. Qed.

Lemma unfed_createMessages rows : ensures sameFeed (createMessages rows).
Proof.
  induction rows as [|m rows IH]; simpl; [apply ensures_ret, _|].
  intros d u d' H. case_if; [done|]. case_bool_decide; [done|]. apply IH in H.
  etrans; [|exact H]. done.
Qed.
Lemma unfed_storeImages p : ensures sameFeed (storeImages p).
Proof. by intros d u d' [= <- <-]. Qed.
Lemma unfed_updateMessages f : ensures sameFeed (updateMessages f).
Proof. by intros d u d' [= <- <-]. Qed.
Lemma unfed_updateSession sid f :
  (∀ s, se_FeedSequence (f s) = se_FeedSequence s) → ensures sameFeed (updateSession sid f).
Proof. intros Hf d u d' [= <- <-]. by apply sameFeed_session. Qed.
Lemma unfed_count sid n at_ : ensures sameFeed (updateSession sid (countMessages n at_)).
Proof. apply unfed_updateSession. by intros []. Qed.
Lemma openings_set lease l d u d' :
  recordTurnOpeningNotices lease l d = Ok (u, d') →
  ∃ all, d' = setOthers (withOpeningNotices all) d.
Proof.
  revert d. induction l as [|notice l IH]; intros d; simpl.
  - intros [= _ <-]. exists (openingNotices (others d)). by destruct d as [? ? ? []].
  - case_if; [done|]. case_bool_decide; [done|]. intros [all ->]%IH. by exists all.
Qed.
Lemma unfed_openings lease l : ensures sameFeed (recordTurnOpeningNotices lease l).
Proof. by intros d u d' [all ->]%openings_set. Qed.
#[export] Hint Resolve unfed_createMessages unfed_storeImages unfed_updateMessages unfed_count
  unfed_openings : calm.

Section store.
Variable maxStoredMessageBytes : Z.
Variable Sum256 : bytes → bytes.
Context `{ImageCodec}.

Lemma unfed_newMessages c lease n i ws inputs :
  ensures sameFeed (newMessages maxStoredMessageBytes Sum256 c lease n i ws inputs).
Proof.
  revert i. induction inputs as [|input inputs IH]; intros i; simpl;
    unfold transcriptImagesJSON, encodeMessageImages; calm_steps.
Qed.
#[local] Hint Resolve unfed_newMessages : calm.

Lemma unfed_appendMessages c lease n ws inputs :
  ensures sameFeed (appendMessages maxStoredMessageBytes Sum256 c lease n ws inputs).
Proof. unfold appendMessages. calm_steps. Qed.
#[local] Hint Resolve unfed_appendMessages : calm.

#[local] Hint Resolve extends_events : calm.
#[local] Hint Extern 3 (ensures feedExtends (updateSession _ (countMessages _ _))) =>
  apply extends_unfed, unfed_count : calm.
#[local] Hint Extern 3 (ensures feedExtends (appendMessages _ _ _ _ _ _ _)) =>
  apply extends_unfed, unfed_appendMessages : calm.

Lemma extends_append c lease ms es :
  ensures feedExtends (appendTranscript maxStoredMessageBytes Sum256 c lease ms es).
Proof. unfold appendTranscript, findSessionWithQuery, findRunningTurn. calm_steps. Qed.

Lemma extends_endMessage c ended :
  ensures feedExtends (appendTurnEndMessage maxStoredMessageBytes Sum256 c ended).
Proof. unfold appendTurnEndMessage, findSessionWithQuery. calm_steps. Qed.
End store.

(** Delivering a notice changes neither its session nor its number. *)
Lemma extends_deliver c sid l : ensures feedExtends (deliverPendingNotices c sid l).
Proof.
  induction l as [|notice l IH]; simpl; [apply ensures_ret, _|].
  intros d r d' (row & rest & Hr & _ & _ & _ & E)%deliver_cons.
  etrans; [|by eapply IH]. intros [Hb Hk].
  assert (sn_ID row = sn_ID notice) as Eid by (by eapply Hk).
  apply (extends_group _ _ Nil [] [] []); simpl; try done.
  - intros id n. simpl. rewrite lookup_insert_Some. intros [[<- <-]|[_ Hn]]; [by destruct row|by apply Hk].
  - intros x. rewrite only_nil. simpl. unfold feedHead. simpl. lia.
  - intros x. by rewrite only_nil, app_nil_r.
  - intros x. by rewrite only_nil, app_nil_r.
  - intros x. rewrite only_nil, app_nil_r, !numbers_noticeRows. simpl.
    eapply numbersIn_replace; [done|by destruct row..].
  - specialize (Hb Nil). simpl. lia.
Qed.

#[export] Instance feedExtends_kept : Kept feedExtends.
Proof.
  split; try apply _.
  - intros d d' Hc. by apply extends_same, calm_sameFeed.
  - intros e f d u d' [= <- <-]. by apply extends_same.
  - intros sid i f. apply extends_unfed. intros d u d'. unfold updateInbox. by_cases.
  - intros m. apply extends_unfed. intros d u d'. unfold createInboxMessage. by_cases.
  - intros p. apply extends_unfed, unfed_storeImages.
  - intros sid id f d _. by apply extends_same.
  - intros. by apply extends_same.
  - intros m. apply extends_unfed. intros d u d'. unfold createRunMessage. by_cases.
  - intros ? max sum. apply extends_append.
Qed.

#[export] Instance feedExtends_turns : KeptTurns feedExtends.
Proof.
  split; try apply _.
  - intros id t. apply extends_unfed. intros d u d'. unfold createTurn. by_cases.
  - intros id P f. apply extends_unfed. intros d u d'. unfold updateRunningTurn. by_cases.
  - intros f _. apply extends_unfed, unfed_updateMessages.
  - intros sid f Hf. apply extends_unfed, unfed_updateSession. intros s. apply Hf.
  - intros sid d Hn. apply extends_same. split_and!; [done..|]. intros x. unfold feedHead. simpl.
    destruct (decide (x = sid)) as [->|]; [by rewrite lookup_insert_eq, Hn|by rewrite lookup_insert_ne].
  - intros f d. by apply extends_same.
  - intros lease l. apply extends_unfed, unfed_openings.
  - apply extends_events.
  - apply extends_notice.
  - apply extends_deliver.
  - apply extends_runEvent.
  - apply extends_projection.
  - intros ? max sum. apply extends_endMessage.
Qed.

#[export] Instance feedExtends_records : KeptRecords feedExtends.
Proof.
  apply records_apart; [apply _|]. intros d d' E. unfold storyTables in E. injection E. intros.
  apply extends_same. unfold sameFeed, feedHead. split_and!; congruence.
Qed.

(** ** What the store promises to the pump *)

Lemma contiguous_bounded d : feedContiguous d → feedBounded d.
Proof. intros [Hc Hm Hk]. split; [|done]. intros sid. specialize (Hm sid). by destruct (Hc sid). Qed.

Lemma extends_feed d d' : feedExtends d d' → feedContiguous d → feedContiguous d' ∧ feedGrows d d'.
Proof.
  intros He Hc. destruct (He (contiguous_bounded d Hc)) as [[Hb Hk] Hx]. split; [|by apply extends_grows].
  split; [|apply Hb|done]. intros sid. eapply extends_contiguous; [apply Hx|by apply fc_at].
Qed.

Lemma empty_contiguous : feedContiguous (st_db emptyStore).
Proof. split; [by split|done|done]. Qed.

(** The collector of a feed transaction: for every session that took numbers,
    the first of them. *)
Definition snapshot (d d' : db) : list (uuid * Z) :=
  omap (λ s, if bool_decide (feedHead d s.1 < se_FeedSequence s.2)%Z
             then Some (s.1, feedHead d s.1 + 1)%Z else None)
       (map_to_list (sessions (others d'))).

Lemma elem_of_snapshot d d' sid first :
  (∀ x, 0 ≤ feedHead d x)%Z →
  (sid, first) ∈ snapshot d d' ↔
    first = (feedHead d sid + 1)%Z ∧ (feedHead d sid < feedHead d' sid)%Z.
Proof.
  intros Hd. unfold snapshot. rewrite list_elem_of_omap. split.
  - intros ([x s] & Hx & Hs). apply elem_of_map_to_list in Hx. simpl in Hs.
    case_bool_decide; [|done]. injection Hs as <- <-. split; [done|].
    unfold feedHead at 2. by rewrite Hx.
  - intros [-> Hlt]. specialize (Hd sid). unfold feedHead at 2 in Hlt.
    destruct (sessions (others d') !! sid) as [s|] eqn:Es; simpl in Hlt; [|lia].
    exists (sid, s). split; [by apply elem_of_map_to_list|]. simpl.
    by rewrite bool_decide_eq_true_2.
Qed.

Section store.
Variables maxExecutionStateBytes maxStoredMessageBytes : Z.
Variable Sum256 : bytes → bytes.
Variable marshalResolution : ResolveActivityInput → bytes.
Variable finishDecisionHash : CompleteActivityInput → bytes.
Context `{ImageCodec, InboxCodec, NoticeCodec, ChildCodec, TurnCodec}.
Local Abbreviation store_step := (store_step maxExecutionStateBytes maxStoredMessageBytes Sum256
  marshalResolution finishDecisionHash).
Local Abbreviation store_reachable := (store_reachable maxExecutionStateBytes maxStoredMessageBytes
  Sum256 marshalResolution finishDecisionHash).

(** A commit of the store, with the signals sent after it. *)
Definition commits (d d' : db) (signals : list (uuid * Z)) : Prop :=
  ∃ s s', st_db s = d ∧ st_db s' = d' ∧ store_step s s' ∧ signals = snapshot d d'.

Lemma store_extends s s' : store_step s s' → feedExtends (st_db s) (st_db s').
Proof. intros Hs. by eapply kept_store_step; [apply _|]. Qed.

#[export] Instance store_FeedCommits : FeedCommits commits.
Proof.
  split.
  - intros d d' l (s & s' & <- & <- & Hs & _) Hc. by apply (extends_feed (st_db s)); [apply store_extends|].
  - intros d d' l (s & s' & <- & <- & Hs & _) Hc. by apply extends_feed; [apply store_extends|].
  - intros d d' l sid first (s & s' & <- & <- & Hs & ->) Hc. apply elem_of_snapshot.
    intros x. by destruct (fc_at _ Hc x).
Qed.

Lemma reachable_contiguous s : store_reachable s → feedContiguous (st_db s).
Proof.
  unfold TurnSteps.store_reachable. intros Hr. pose proof empty_contiguous as He. revert He.
  induction Hr as [|x y z Hxy _ IH]; [done|]. intros Hc. apply IH.
  by apply (extends_feed (st_db x)); [apply store_extends|].
Qed.

End store.

End FeedSteps.
