(* ===== verification/TurnRules.v ===== *)
(** What stays true of the rows of a session whatever the store does: the
    numbers of its messages, its counters, its notices, of which none is lost,
    changed or delivered twice, the outcomes of its turns and child runs, and the
    output of its jobs. *)
From stdpp Require Import base gmap sets list list_numbers strings sorting.
From Stdlib Require Import ZArith Lia Ascii Sorted.
From S2P Require Import Prelude GoBytes Json Executions ExecutionControl Activities ExecutionSteps TxRules Transcripts TranscriptRules Inbox Deferral InboxRules InboxSteps InboxTheorems StoreSteps TextSteps Feed FeedRules FeedGrowth Notices ChildRuns Jobs TurnEnd Turns TurnSteps FeedSteps.

Module TurnRules.
Import Executions ExecutionControl Activities ExecutionSteps TxRules Transcripts TranscriptRules Inbox Deferral InboxRules InboxSteps InboxTheorems StoreSteps TextSteps Feed FeedRules Notices ChildRuns Jobs TurnEnd Turns TurnSteps FeedSteps.

(** ** Relations on sessions, turns, notices, child runs and jobs *)

(** What need only be known of the statements on these tables. *)
Class RowsKept (R : relation db) := {
  rk_refl :: Reflexive R;
  rk_trans :: Transitive R;
  rk_same d d' : sessions (others d') = sessions (others d) →
    sessionNotices (others d') = sessionNotices (others d) →
    turns (others d') = turns (others d) → jobs (others d') = jobs (others d) →
    jobOutput (others d') = jobOutput (others d) → runsKept d d' → R d d';
  rk_session sid f : (∀ s, sessionGrows s (f s)) → ensures R (updateSession sid f);
  rk_newSession sid d : sessions (others d) !! sid = None →
    R d (setOthers (λ o, withSessions (<[sid := newSession]> (sessions o)) o) d);
  rk_createTurn id t : ensures R (createTurn id t);
  rk_updateRunning id P f : ensures R (updateRunningTurn id P f);
  rk_updateTurn sid id f d :
    (∀ t, turns (others d) !! id = Some t → tu_SessionID t = sid →
       tu_State t ≠ TurnStateCompleted ∨ columnsOf (f t) = columnsOf t) →
    R d (setOthers (λ o, withTurns (updateRow tu_SessionID sid id f (turns o)) o) d);
  rk_notice n : ensures R (createNoticeRow n);
  rk_deliver c sid l : ensures R (deliverPendingNotices c sid l);
  rk_newJob id job : ensures R (createJobRow id job);
  rk_updateJob P id f : (∀ j, jobIdentity (f j) = jobIdentity j) →
    ensures R (updateRunningJob P id f);
  rk_output sid id inputs : ensures R (appendJobOutput sid id inputs) }.

Section rows.
Context (R : relation db) {HR : RowsKept R}.

Lemma rows_writes {A} (m : tx A) :
  ensures (λ d d', sessions (others d') = sessions (others d) ∧
                   sessionNotices (others d') = sessionNotices (others d) ∧
                   turns (others d') = turns (others d) ∧ jobs (others d') = jobs (others d) ∧
                   jobOutput (others d') = jobOutput (others d) ∧
                   agentRuns (others d') = agentRuns (others d)) m → ensures R m.
Proof.
  apply ensures_weaken. intros d d' (? & ? & ? & ? & ? & ?).
  apply rk_same; [done..|by apply runsKept_same].
Qed.

Lemma rows_createMessages rows : ensures R (createMessages rows).
Proof.
  apply rows_writes. induction rows as [|m rows IH]; simpl; [by intros d u d' [= _ <-]|].
  intros d u d' E. case_if; [done|]. case_bool_decide; [done|]. by apply IH in E.
Qed.
Lemma rows_createEvents rows : ensures R (createEvents rows).
Proof.
  apply rows_writes. induction rows as [|m rows IH]; simpl; [by intros d u d' [= _ <-]|].
  intros d u d' E. case_if; [done|]. case_bool_decide; [done|]. by apply IH in E.
Qed.
Lemma rows_openings lease l : ensures R (recordTurnOpeningNotices lease l).
Proof. apply rows_writes. by intros d u d' [all ->]%openings_set. Qed.
Lemma rows_storeImages p : ensures R (storeImages p).
Proof. apply rows_writes. by intros d u d' [= _ <-]. Qed.
Lemma rows_runEvent id e : ensures R (createRunEvent id e).
Proof. apply rows_writes. intros d u d' (_ & _ & ->)%createRunEvent_Ok. done. Qed.
#[local] Hint Resolve rows_createMessages rows_createEvents rows_storeImages rows_runEvent : calm.

Lemma rows_count sid n at_ : (0 ≤ n)%Z → ensures R (updateSession sid (countMessages n at_)).
Proof. intros Hn. apply rk_session. intros s. unfold sessionGrows. destruct s; simpl. lia. Qed.

Lemma rows_allocate sid n : ensures R (allocateFeedSequences sid n).
Proof.
  unfold allocateFeedSequences, findSessionWithQuery. case_if; [apply ensures_ret, _|].
  calm_steps. apply rk_session. intros s. unfold sessionGrows. destruct s; simpl. lia.
Qed.
#[local] Hint Resolve rows_allocate : calm.

Lemma rows_events c lease inputs : ensures R (appendEvents c lease inputs).
Proof. unfold appendEvents. calm_steps. Qed.
#[local] Hint Resolve rows_events : calm.

Section append.
Variable maxStoredMessageBytes : Z.
Variable Sum256 : bytes → bytes.
Context `{ImageCodec}.

Lemma rows_newMessages c lease n i ws inputs :
  ensures R (newMessages maxStoredMessageBytes Sum256 c lease n i ws inputs).
Proof.
  revert i. induction inputs as [|input inputs IH]; intros i; simpl;
    unfold transcriptImagesJSON, encodeMessageImages; calm_steps.
Qed.
#[local] Hint Resolve rows_newMessages : calm.

Lemma rows_appendMessages c lease n ws inputs :
  ensures R (appendMessages maxStoredMessageBytes Sum256 c lease n ws inputs).
Proof. unfold appendMessages. calm_steps. Qed.

(** Appended messages are counted. *)
Lemma rows_counted {A} c lease n ws inputs (f : appendResult → tx A) :
  (∀ r, (0 ≤ ap_messageCount r)%Z → ensures R (f r)) →
  ensures R (r ← appendMessages maxStoredMessageBytes Sum256 c lease n ws inputs; f r).
Proof.
  intros Hf d a d' E. apply tx_bind_Ok in E as (r & d1 & Hr & E).
  etrans; [by eapply rows_appendMessages|]. eapply Hf; [|exact E].
  apply appendMessages_Ok in Hr as (rows & _ & _ & _ & _ & -> & _). lia.
Qed.

Lemma rows_append c lease ms es :
  ensures R (appendTranscript maxStoredMessageBytes Sum256 c lease ms es).
Proof.
  unfold appendTranscript, findSessionWithQuery, findRunningTurn.
  apply ensures_bind; [apply _|calm_steps|intros s].
  apply ensures_bind; [apply _|calm_steps|intros t].
  apply rows_counted. intros r Hr. calm_steps. by apply rows_count.
Qed.

Lemma rows_endMessage c ended :
  ensures R (appendTurnEndMessage maxStoredMessageBytes Sum256 c ended).
Proof.
  unfold appendTurnEndMessage, findSessionWithQuery.
  apply ensures_bind; [apply _|calm_steps|intros t].
  apply ensures_bind; [apply _|calm_steps|intros s].
  apply rows_counted. intros r Hr. by apply rows_count.
Qed.
End append.

Lemma rows_kept : Kept R.
Proof.
  split; try apply _.
  - intros d d' [_ E Hr]. unfold messageTables in E. injection E. intros. by apply rk_same.
  - intros e f. apply rows_writes. by intros d u d' [= <- <-].
  - intros sid i f. apply rows_writes. intros d u d'. unfold updateInbox. by_cases.
  - intros m. apply rows_writes. intros d u d'. unfold createInboxMessage. by_cases.
  - apply rows_storeImages.
  - intros sid id f d Hf. apply rk_same; [done..|by apply runsKept_update].
  - apply rk_updateTurn.
  - intros m. apply rows_writes. intros d u d'. unfold createRunMessage. by_cases.
  - intros ? max sum. apply rows_append.
Qed.

Lemma rows_turns : KeptTurns R.
Proof.
  pose proof rows_kept. split; try apply _.
  - apply rk_createTurn.
  - apply rk_updateRunning.
  - intros f _. apply rows_writes. by intros d u d' [= _ <-].
  - intros sid f Hf. apply rk_session. intros s. apply Hf.
  - apply rk_newSession.
  - intros f d. apply rk_same; [done..|by apply runsKept_same].
  - apply rows_openings.
  - apply rows_events.
  - intros sid make _. apply ensures_bind; [apply _|calm_steps|]. intros n. apply rk_notice.
  - apply rk_deliver.
  - intros sid id make _. calm_steps.
  - intros c drawn sid run sequence inputs _.
    apply ensures_bind; [apply _|calm_steps|intros first]. generalize 0%Z.
    induction inputs as [|input inputs IH]; intros i; simpl; calm_steps.
  - intros ? max sum. apply rows_endMessage.
Qed.

Lemma rows_records : KeptRecords R.
Proof.
  split.
  - apply rows_turns.
  - intros id run d u d'. unfold createAgentRunRow.
    destruct (agentRuns _ !! id) eqn:Hn; [done|]. intros [= _ <-]. apply rk_same; [done..|].
    intros i r Hi. exists r. simpl. by rewrite lookup_insert_ne by congruence.
  - intros f. apply rows_writes. by intros d u d' [= _ <-].
  - apply rk_newJob.
  - apply rk_updateJob.
  - apply rk_output.
  - intros r. apply rows_writes. intros d u d'. unfold createSignalRequest. by_cases.
  - intros f d. apply rk_same; [done..|by apply runsKept_same].
Qed.
End rows.

(** Relations on the rows of turns, sessions and notices alone. *)
Lemma rows_jobs (R : relation db) :
  (∀ d d', sessions (others d') = sessions (others d) →
     sessionNotices (others d') = sessionNotices (others d) →
     turns (others d') = turns (others d) → R d d') →
  (∀ id job, ensures R (createJobRow id job)) ∧
  (∀ P id f, ensures R (updateRunningJob P id f)) ∧
  (∀ sid id inputs, ensures R (appendJobOutput sid id inputs)).
Proof.
  intros HS. split_and!.
  - intros id job d u d' E. apply HS; revert E; unfold createJobRow; by_cases.
  - intros P id f d u d' E. apply HS; revert E; unfold updateRunningJob; by_cases.
  - intros sid id inputs d r d' (-> & _)%appendJobOutput_Ok. by apply HS.
Qed.

(** ** Counters of a session *)

Definition countersGrow (d d' : db) : Prop :=
  ∀ sid s, sessions (others d) !! sid = Some s →
    ∃ s', sessions (others d') !! sid = Some s' ∧ sessionGrows s s'.

#[export] Instance sessionGrows_refl : Reflexive sessionGrows.
Proof. intros s. unfold sessionGrows. lia. Qed.
#[export] Instance sessionGrows_trans : Transitive sessionGrows.
Proof. intros a b c. unfold sessionGrows. lia. Qed.

#[export] Instance countersGrow_trans : Transitive countersGrow.
Proof.
  intros a b c Hab Hbc sid s Hs. destruct (Hab sid s Hs) as (s1 & H1 & G1).
  destruct (Hbc sid s1 H1) as (s2 & H2 & G2). exists s2. split; [done|by etrans].
Qed.

#[export] Instance countersGrow_rows : RowsKept countersGrow.
Proof.
  assert (∀ d d', sessions (others d') = sessions (others d) → countersGrow d d') as Hsame.
  { intros d d' E sid s Hs. exists s. by rewrite E. }
  destruct (rows_jobs countersGrow) as (J1 & J2 & J3); [by intros; apply Hsame|].
  split; try apply _; auto.
  - intros x f Hf d u d' [= _ <-] sid s Hs. simpl. destruct (decide (sid = x)) as [->|Hne].
    + rewrite lookup_alter_eq, Hs. by exists (f s).
    + rewrite lookup_alter_ne by done. by exists s.
  - intros x d Hx sid s Hs. simpl. rewrite lookup_insert_ne by congruence. by exists s.
  - intros id t d u d' E. apply Hsame. revert E. unfold createTurn. by_cases.
  - intros id P f d u d' E. apply Hsame. revert E. unfold updateRunningTurn. by_cases.
  - intros n d u d' (_ & -> & _)%createNoticeRow_Ok. by apply Hsame.
  - intros c x l. induction l as [|notice l IH]; simpl.
    + intros d u d' [= _ <-] sid s Hs. by exists s.
    + intros d r d' (row & rest & _ & _ & _ & _ & Hd)%deliver_cons.
      intros sid s Hs. by apply (IH _ _ _ Hd).
Qed.

(** ** Notices *)

(** A notice stays as it is but for one delivery. *)
Definition noticeFate (d d' : db) (id : uuid) (n : SessionNotice) : Prop :=
  sessionNotices (others d') !! id = Some n ∨
  (sn_State n = NoticeStatePending ∧
   ∃ at_, sessionNotices (others d') !! id = Some (noticeDelivered at_ n)).

Definition noticesKept (d d' : db) : Prop :=
  noticesKeyed d → noticesKeyed d' ∧
  ∀ id n, sessionNotices (others d) !! id = Some n → noticeFate d d' id n.

Lemma delivered_state at_ n : sn_State (noticeDelivered at_ n) = NoticeStateDelivered.
Proof. by destruct n. Qed.

#[export] Instance noticesKept_trans : Transitive noticesKept.
Proof.
  intros a b c Hab Hbc Ha. destruct (Hab Ha) as [Hb Fb]. destruct (Hbc Hb) as [Hc Fc].
  split; [done|]. intros id n Hn. destruct (Fb id n Hn) as [Hn1|(Hp & at_ & Hn1)].
  - destruct (Fc id n Hn1) as [?|(? & at_ & ?)]; [by left|right; eauto].
  - destruct (Fc id _ Hn1) as [?|(Hd & _)]; [right; eauto|]. by rewrite delivered_state in Hd.
Qed.

Lemma noticesKept_deliver c sid l : ensures noticesKept (deliverPendingNotices c sid l).
Proof.
  induction l as [|notice l IH]; simpl.
  - intros d u d' [= _ <-] Hk. split; [done|]. intros. by left.
  - intros d r d' (row & rest & Hr & _ & Hp & _ & E)%deliver_cons.
    etrans; [|by eapply IH]. intros Hk. split.
    + intros id n. simpl. rewrite lookup_insert_Some. intros [[<- <-]|[_ Hn]]; [|by apply Hk].
      specialize (Hk _ _ Hr). by destruct row.
    + intros id n Hn. unfold noticeFate. simpl. destruct (decide (id = sn_ID notice)) as [->|].
      * rewrite lookup_insert_eq. assert (row = n) as -> by congruence. right. split; [done|by eexists].
      * rewrite lookup_insert_ne by done. by left.
Qed.

#[export] Instance noticesKept_rows : RowsKept noticesKept.
Proof.
  assert (∀ d d', sessionNotices (others d') = sessionNotices (others d) → noticesKept d d') as Hsame.
  { intros d d' E Hk. split; [unfold noticesKeyed; by rewrite E|]. intros. left. by rewrite E. }
  destruct (rows_jobs noticesKept) as (J1 & J2 & J3); [by intros; apply Hsame|].
  split; try apply _; auto; try (by intros; apply Hsame).
  - intros sid f _ d u d' [= _ <-]. by apply Hsame.
  - intros id t d u d' E. apply Hsame. revert E. unfold createTurn. by_cases.
  - intros id P f d u d' E. apply Hsame. revert E. unfold updateRunningTurn. by_cases.
  - intros n d u d' E Hk. apply createNoticeRow_Ok in E as (_ & -> & Hfresh).
    specialize (Hfresh Hk).
    split.
    + intros id x. simpl. rewrite lookup_insert_Some. intros [[<- <-]|[_ Hx]]; [done|by apply Hk].
    + intros id x Hx. left. simpl. by rewrite lookup_insert_ne by congruence.
  - apply noticesKept_deliver.
Qed.

(** ** Completed turns *)

(** Every column but the name of the worker. *)
Definition turnsFinal (d d' : db) : Prop :=
  ∀ id t, turns (others d) !! id = Some t → tu_State t = TurnStateCompleted →
    ∃ t', turns (others d') !! id = Some t' ∧ columnsOf t' = columnsOf t.

Lemma columns_state t t' : columnsOf t' = columnsOf t → tu_State t' = tu_State t.
Proof. destruct t, t'. by intros [= _ -> _]. Qed.

#[export] Instance turnsFinal_refl : Reflexive turnsFinal.
Proof. intros d id t Ht _. by exists t. Qed.

#[export] Instance turnsFinal_trans : Transitive turnsFinal.
Proof.
  intros a b c Hab Hbc id t Ht Hs. destruct (Hab id t Ht Hs) as (t1 & H1 & E1).
  destruct (Hbc id t1 H1) as (t2 & H2 & E2); [by rewrite (columns_state _ _ E1)|].
  exists t2. split; [done|congruence].
Qed.

#[export] Instance turnsFinal_rows : RowsKept turnsFinal.
Proof.
  assert (∀ d d', turns (others d') = turns (others d) → turnsFinal d d') as Hsame.
  { intros d d' E id t Ht _. exists t. by rewrite E. }
  assert (∀ d d', (∀ id t, turns (others d) !! id = Some t → tu_State t = TurnStateCompleted →
    turns (others d') !! id = Some t) → turnsFinal d d') as Hkeep by (intros d d' Hk id t ? ?; eauto).
  destruct (rows_jobs turnsFinal) as (J1 & J2 & J3); [by intros; apply Hsame|].
  split; try apply _; auto; try (by intros; apply Hsame).
  - intros sid f _ d u d' [= _ <-]. by apply Hsame.
  - intros id t d u d'. unfold createTurn. case_if; [done|]. destruct (turns _ !! id) eqn:E; [done|].
    intros [= _ <-]. apply Hkeep. intros x y Hy _. simpl. by rewrite lookup_insert_ne by congruence.
  - intros id P f d u d'. unfold updateRunningTurn. destruct (turns _ !! id) as [t|] eqn:E;
      [|intros [= _ <-]; by apply Hsame].
    case_if; intros [= _ <-]; [|by apply Hsame]. apply Hkeep. intros x y Hy Hs. simpl.
    destruct (decide (x = id)) as [->|]; [|by rewrite lookup_insert_ne].
    apply andb_prop in Heqb as [_ Hr]. apply bool_decide_eq_true in Hr. congruence.
  - intros sid id f d Hd x y Hy Hs. simpl. unfold updateRow.
    destruct (turns (others d) !! id) as [t|] eqn:E; [|by exists y].
    case_bool_decide as Hsid; [|by exists y].
    destruct (decide (x = id)) as [->|]; [|by exists y; rewrite lookup_insert_ne].
    assert (t = y) as -> by congruence. exists (f y). rewrite lookup_insert_eq. split; [done|].
    by destruct (Hd y eq_refl Hsid).
  - intros n d u d' (_ & -> & _)%createNoticeRow_Ok. by apply Hsame.
  - intros c sid l. induction l as [|notice l IH]; [intros d u d' [= _ <-]; by apply Hsame|].
    intros d r d' (row & rest & _ & _ & _ & _ & E)%deliver_cons. apply IH in E.
    exact E.
Qed.

(** ** Outcomes of child runs *)

#[export] Instance runsKept_rows : RowsKept runsKept.
Proof.
  assert (∀ d d', agentRuns (others d') = agentRuns (others d) → runsKept d d') as Hsame
    by apply runsKept_same.
  split; try apply _; try (by intros; apply Hsame).
  - done.
  - intros sid f _ d u d' [= _ <-]. by apply Hsame.
  - intros id t d u d' E. apply Hsame. revert E. unfold createTurn. by_cases.
  - intros id P f d u d' E. apply Hsame. revert E. unfold updateRunningTurn. by_cases.
  - intros n d u d' (_ & -> & _)%createNoticeRow_Ok. by apply Hsame.
  - intros c sid l. induction l as [|notice l IH]; [intros d u d' [= _ <-]; by apply Hsame|].
    intros d r d' (row & rest & _ & _ & _ & _ & E)%deliver_cons. apply IH in E. exact E.
  - intros id job d u d' E. apply Hsame. revert E. unfold createJobRow. by_cases.
  - intros P id f _ d u d' E. apply Hsame. revert E. unfold updateRunningJob. by_cases.
  - intros sid id inputs d r d' (-> & _)%appendJobOutput_Ok. by apply Hsame.
Qed.

(** ** Transcripts *)

Lemma textKept_sessions d sid f :
  (∀ s, se_MessageCount (f s) = se_MessageCount s ∧ se_FeedSequence (f s) = se_FeedSequence s) →
  textKept d (setOthers (λ o, withSessions (alter f sid (sessions o)) o) d).
Proof.
  intros Hf Hi. eapply text_renumbered; [|exact Hi]. intros x. left.
  destruct Hi as [_ Hev]. pose proof (ti_head _ Hev x) as Hh.
  unfold messageCount, TranscriptRules.feedHead in *. simpl.
  rewrite !counter_same by (intros; apply Hf). split_and!; done || lia.
Qed.

Lemma textKept_messages f : samePlace f → ensures textKept (updateMessages f).
Proof.
  intros Hf d u d' [= _ <-] Hi. eapply text_renumbered; [|exact Hi]. intros x. left.
  destruct Hi as [_ Hev]. pose proof (ti_head _ Hev x) as Hh. split_and!; try done; try apply Hh.
  unfold messagesOf. simpl. rewrite filter_fmap, <-list_fmap_compose.
  rewrite (list_filter_iff _ (λ m, ms_SessionID m = x)); [|intros m; by destruct (Hf m) as [-> _]].
  apply list_fmap_ext. intros ? m _. by destruct (Hf m).
Qed.

(** Numbers of the feed that go to other tables. *)
Lemma textKept_allocated d d' sid s k :
  sessions (others d) !! sid = Some s → (0 ≤ k)%Z →
  ((0 ≤ se_FeedSequence s ≤ max_int64)%Z → (se_FeedSequence s + k ≤ max_int64)%Z) →
  messages (others d') = messages (others d) → feedEvents (others d') = feedEvents (others d) →
  sessions (others d') = alter (withFeedSequence (λ n, n + k)%Z) sid (sessions (others d)) →
  textKept d d'.
Proof.
  intros Hs Hk Hfit E1 E2 E3 Hi. eapply text_renumbered; [|exact Hi]. intros x. left.
  destruct Hi as [_ Hev]. pose proof (ti_head _ Hev x) as Hh. pose proof (ti_head _ Hev sid) as Hh2.
  unfold messagesOf, eventsOf, messageCount, TranscriptRules.feedHead in *. rewrite E1, E2, E3.
  rewrite Hs in Hh2. simpl in Hh2. specialize (Hfit Hh2).
  rewrite (counter_same se_MessageCount) by (by intros []).
  rewrite (counter_alter se_FeedSequence _ _ s _ k) by (done || by destruct s).
  split_and!; try done; case_decide; try lia. subst x. rewrite Hs. simpl. lia.
Qed.

(** The end message is counted. *)
Lemma textKept_endMessage `{ImageCodec} maxStoredMessageBytes Sum256 c ended :
  ensures textKept (appendTurnEndMessage maxStoredMessageBytes Sum256 c ended).
Proof.
  intros d u d' E [Hm Hev]. unfold appendTurnEndMessage in E.
  apply tx_bind_Ok in E as (turn & d1 & Ht & E). apply reads_Ok in Ht as [_ ->].
  apply tx_bind_Ok in E as (s & d1 & Hs & E). unfold findSessionWithQuery in Hs.
  apply reads_Ok in Hs as [Hs ->].
  destruct (sessions (others d) !! tu_SessionID turn) as [s0|] eqn:Es; [|done]. injection Hs as ->.
  apply tx_bind_Ok in E as (r & d1 & Hr & E). injection E as _ <-.
  pose proof Hr as Hrows. apply appendMessages_Ok in Hrows as (rows & E1 & E2 & E3 & _).
  assert (∀ x, messageCount x (setOthers (λ o, withSessions (alter
     (countMessages (ap_messageCount r) (now c)) (tu_SessionID turn) (sessions o)) o) d1) =
     (messageCount x d + if decide (x = tu_SessionID turn) then ap_messageCount r else 0)%Z) as Hcnt.
  { intros x. unfold messageCount. simpl. rewrite E3. by apply (counter_alter _ _ _ s); [|destruct s]. }
  split; [by eapply (message_inv_append _ _ _ (mkTurnHold Nil (tu_SessionID turn) _)); [..|exact Hr|done|]|].
  destruct Hev. split; intros x; unfold TranscriptRules.feedHead, eventsOf in *; simpl; rewrite ?E2, ?E3;
    rewrite ?(counter_same se_FeedSequence) by (by intros []); auto.
Qed.

Lemma wrap_allocated s :
  (0 < wrap64 (se_FeedSequence s + 1))%Z → (0 ≤ se_FeedSequence s ≤ max_int64)%Z →
  (se_FeedSequence s + 1 ≤ max_int64)%Z.
Proof.
  intros Hw Hh. destruct (Z.eq_dec (se_FeedSequence s) max_int64) as [E|]; [|lia].
  exfalso. rewrite E in Hw. revert Hw. by vm_compute.
Qed.

#[export] Instance textKept_turns : KeptTurns textKept.
Proof.
  split; try apply _.
  - intros id t d u d' E. apply textKept_same. revert E. unfold createTurn. by_cases.
  - intros id P f d u d' E. apply textKept_same. revert E. unfold updateRunningTurn. by_cases.
  - intros f Hf. by apply textKept_messages.
  - intros sid f Hf d u d' [= _ <-]. apply textKept_sessions. intros s. by destruct (Hf s) as (? & ? & _).
  - intros sid d Hn Hi. eapply text_renumbered; [|exact Hi]. intros x. left.
    destruct Hi as [_ Hev]. pose proof (ti_head _ Hev x) as Hh.
    unfold messageCount, TranscriptRules.feedHead in *. simpl.
    destruct (decide (x = sid)) as [->|]; rewrite ?lookup_insert_eq, ?lookup_insert_ne by done;
      rewrite ?Hn in *; simpl in *; split_and!; done || lia.
  - intros f d. by apply textKept_same.
  - intros lease l d u d' E. apply openings_set in E as [all ->].
    by apply textKept_same.
  - intros c lease inputs d u d' E [Hm Hev]. eapply event_inv_append in E as (Hev' & E & Hcnt & _); [|done].
    split; [|done]. destruct Hm as [Hc Hms]. unfold messagesOf in *.
    split; intros x; rewrite Hcnt; [apply Hc|]. unfold messagesOf. by rewrite E.
  - intros sid make Hmake d u d' E. apply tx_bind_Ok in E as (n & d1 & Hf & E).
    apply allocate_Ok in Hf as (s & Hs & -> & ->); [|done].
    apply createNoticeRow_Ok in E as (Hpos & -> & _). rewrite (proj2 (Hmake _)) in Hpos.
    apply (textKept_allocated _ _ sid s 1); [done|lia|by apply wrap_allocated|done..].
  - intros c sid l. induction l as [|notice l IH]; [by intros d u d' [= _ <-]|].
    intros d r d' (row & rest & _ & _ & _ & _ & E)%deliver_cons. apply IH in E.
    etrans; [|exact E]. by apply textKept_same.
  - intros sid id make Hmake d u d' E. apply tx_bind_Ok in E as (n & d1 & Hf & E).
    apply allocate_Ok in Hf as (s & Hs & -> & ->); [|done].
    apply createRunEvent_Ok in E as (_ & Hpos & ->). rewrite (proj2 (Hmake _)) in Hpos.
    apply (textKept_allocated _ _ sid s 1); [done|lia|by apply wrap_allocated|done..].
  - intros c drawn sid run sequence inputs Hne d u d' E. apply tx_bind_Ok in E as (n & d1 & Hf & E).
    assert (0 < Z.of_nat (length inputs))%Z as Hlen by (destruct inputs; [done|simpl; lia]).
    apply allocate_Ok in Hf as (s & Hs & -> & ->); [|done].
    apply projection_Ok in E as (l & Hll & Hl & _ & t & ->). rewrite <-Hll in *.
    apply (textKept_allocated _ _ sid s (Z.of_nat (length l))); [done|lia| |done..].
    intros Hh. apply allocated_numbers; [done|by intros ->|done].
  - intros ? max sum. apply textKept_endMessage.
Qed.

#[export] Instance textKept_records : KeptRecords textKept.
Proof.
  apply records_apart; [apply _|]. intros d d' E. unfold storyTables in E. injection E. intros.
  by apply textKept_same.
Qed.

End TurnRules.
