(* ===== verification/JobRules.v ===== *)
(** What stays true of the jobs of a session whatever the store does: the lines
    of a job are numbered from 1 in the order they were stored, and a job that
    ended gains no line and no other outcome. *)
From stdpp Require Import base gmap sets list list_numbers strings sorting.
From Stdlib Require Import ZArith Lia Ascii Sorted.
From S2P Require Import Prelude GoBytes Executions ExecutionControl TxRules TranscriptRules InboxRules Transcripts Feed FeedRules FeedGrowth Notices ChildRuns Jobs TurnEnd Turns StoreSteps TurnSteps FeedSteps TurnRules.

Module JobRules.
Import Executions ExecutionControl TxRules TranscriptRules InboxRules Transcripts Feed FeedRules FeedGrowth Notices Jobs TurnEnd Turns StoreSteps TurnSteps FeedSteps TurnRules.

(** ** Lines *)

Definition jobNumbered (d : db) (id : uuid) : Prop :=
  jo_Sequence <$> linesOf id d = seqZ 1 (Z.of_nat (length (linesOf id d))) ∧
  (Z.of_nat (length (linesOf id d)) ≤ max_int64)%Z ∧
  Forall (λ l, ∃ job, jobs (others d) !! id = Some job ∧ jo_SessionID l = jb_SessionID job)
         (linesOf id d).

(** What an operation makes of one job and its lines. *)
Definition jobFate (d d' : db) (id : uuid) (job : Job) : Prop :=
  ∃ job', jobs (others d') !! id = Some job' ∧ jobIdentity job' = jobIdentity job ∧
    (isJobTerminalState (jb_State job) = true → job' = job ∧ linesOf id d' = linesOf id d).

Definition outputKept (d d' : db) : Prop :=
  (∀ id, jobNumbered d id) →
  (∀ id, jobNumbered d' id) ∧ (∀ id, linesOf id d `prefix_of` linesOf id d') ∧
  ∀ id job, jobs (others d) !! id = Some job → jobFate d d' id job.

Lemma outputKept_same d d' :
  jobs (others d') = jobs (others d) → jobOutput (others d') = jobOutput (others d) →
  outputKept d d'.
Proof.
  intros E1 E2 Hd.
  assert (∀ id, linesOf id d' = linesOf id d) as E by (intros id; unfold linesOf; by rewrite E2).
  split_and!.
  - intros id. unfold jobNumbered. rewrite E, E1. apply Hd.
  - intros id. by rewrite E.
  - intros id job Hj. exists job. by rewrite E1, E.
Qed.

#[export] Instance outputKept_trans : Transitive outputKept.
Proof.
  intros a b c Hab Hbc Ha. destruct (Hab Ha) as (Hb & Pb & Fb). destruct (Hbc Hb) as (Hc & Pc & Fc).
  split_and!; [done|intros id; by transitivity (linesOf id b)|]. intros id job Hj.
  destruct (Fb id job Hj) as (j1 & H1 & I1 & T1). destruct (Fc id j1 H1) as (j2 & H2 & I2 & T2).
  exists j2. split_and!; [done|congruence|]. intros Ht. destruct (T1 Ht) as [-> L1].
  destruct (T2 Ht) as [-> L2]. split; congruence.
Qed.

Lemma foldr_max_seqZ n : (0 ≤ n)%Z → foldr Z.max 0%Z (seqZ 1 n) = n.
Proof.
  intros Hn. destruct (max_foldr (seqZ 1 n)) as (Hle & H0 & [Hz|Hin]).
  - rewrite Hz. destruct (decide (n = 0)%Z); [done|].
    assert (n ∈ seqZ 1 n) as Hi by (apply elem_of_seqZ; lia). apply Hle in Hi. lia.
  - apply elem_of_seqZ in Hin. destruct (decide (n = 0)%Z); [lia|].
    assert (n ∈ seqZ 1 n) as Hi by (apply elem_of_seqZ; lia). apply Hle in Hi. lia.
Qed.

Lemma nextOutput d id :
  jobNumbered d id → nextJobOutputSequence id d = wrap64 (Z.of_nat (length (linesOf id d)) + 1).
Proof. intros [E _]. unfold nextJobOutputSequence. by rewrite E, foldr_max_seqZ by lia. Qed.

(** The lines of a job after an append. *)
Lemma linesOf_append d id lines x :
  (∀ k l, lines !! k = Some l → jo_JobID l = id) →
  linesOf x (setOthers (λ o, withJobOutput (jobOutput o ++ lines) o) d) =
    linesOf x d ++ (if decide (x = id) then lines else []).
Proof.
  intros Hl. unfold linesOf. simpl. rewrite filter_app. f_equal. case_decide as Hx.
  - subst x. apply filter_every, Forall_forall. intros l [k Hk]%list_elem_of_lookup. eauto.
  - apply filter_no, Forall_forall. intros l [k Hk]%list_elem_of_lookup. rewrite (Hl _ _ Hk). congruence.
Qed.

Lemma outputKept_append sid id inputs : ensures outputKept (appendJobOutput sid id inputs).
Proof.
  intros d lines d' (-> & _ & (job & Hj & Hs & Hrun) & Hl)%appendJobOutput_Ok Hd.
  assert (∀ x, linesOf x (setOthers (λ o, withJobOutput (jobOutput o ++ lines) o) d) =
    linesOf x d ++ (if decide (x = id) then lines else [])) as Hlines.
  { intros x. apply linesOf_append. intros k l Hk. by apply Hl in Hk as (_ & ? & _). }
  split_and!.
  - intros x. unfold jobNumbered. rewrite Hlines. simpl. case_decide as Hx; [|rewrite app_nil_r; apply Hd].
    subst x. destruct (Hd id) as (Hn & Hm & Hall). destruct lines as [|l0 rest]; [rewrite app_nil_r; apply Hd|].
    rewrite nextOutput in Hl by done. set (n := length (linesOf id d)) in *. set (l := l0 :: rest) in *.
    destruct (allocated_numbers (Z.of_nat n) (jo_Sequence <$> l)) as [Hfit Hseq]; [lia|done| |].
    { intros i z Hz. apply list_lookup_fmap_Some_1 in Hz as (y & -> & Hy).
      apply Hl in Hy as (_ & _ & -> & ?). done. }
    rewrite length_fmap in Hfit, Hseq. rewrite fmap_app, length_app, Nat2Z.inj_add.
    split_and!; [|lia|].
    + rewrite Hn, Hseq, seqZ_app by lia. do 2 f_equal. lia.
    + apply Forall_app. split; [done|]. apply Forall_forall. intros y [k Hy]%list_elem_of_lookup.
      apply Hl in Hy as (-> & _). by exists job.
  - intros x. rewrite Hlines. by eexists.
  - intros x j Hx. exists j. split_and!; [done|done|]. intros Ht. split; [done|]. rewrite Hlines.
    case_decide; [|apply app_nil_r]. subst x. simplify_eq. by rewrite Hrun in Ht.
Qed.

#[export] Instance outputKept_rows : RowsKept outputKept.
Proof.
  split; try apply _; try (by intros; apply outputKept_same).
  - intros d. by apply outputKept_same.
  - intros sid f _ d u d' [= _ <-]. by apply outputKept_same.
  - intros id t d u d' E. apply outputKept_same; revert E; unfold createTurn; by_cases.
  - intros id P f d u d' E. apply outputKept_same; revert E; unfold updateRunningTurn; by_cases.
  - intros n d u d' (_ & -> & _)%createNoticeRow_Ok. by apply outputKept_same.
  - intros c sid l. induction l as [|notice l IH]; [intros d u d' [= _ <-]; by apply outputKept_same|].
    intros d r d' (row & rest & _ & _ & _ & _ & E)%deliver_cons. apply IH in E. exact E.
  - intros id job d u d'. unfold createJobRow. destruct (jobs _ !! id) eqn:Hn; [done|].
    intros [= _ <-] Hd. split_and!; [|done|].
    + intros x. destruct (Hd x) as (? & ? & Hall). split_and!; [done..|].
      eapply Forall_impl; [exact Hall|]. intros l (j & Hj & ?). exists j. simpl.
      by rewrite lookup_insert_ne by congruence.
    + intros x j Hx. exists j. simpl. by rewrite lookup_insert_ne by congruence.
  - intros P id f Hf d u d'. unfold updateRunningJob. destruct (jobs _ !! id) as [job|] eqn:Hj;
      [|intros [= _ <-]; by apply outputKept_same].
    destruct (P job && _) eqn:Hc; intros [= _ <-]; [|by apply outputKept_same].
    apply andb_true_iff in Hc as [_ Hrun%bool_decide_eq_true]. intros Hd. split_and!; [|done|].
    + intros x. destruct (Hd x) as (? & ? & Hall). split_and!; [done..|].
      eapply Forall_impl; [exact Hall|]. intros l (j & Hx & Hs). simpl.
      destruct (decide (x = id)) as [->|]; [|exists j; by rewrite lookup_insert_ne].
      exists (f job). rewrite lookup_insert_eq. split; [done|]. simplify_eq.
      injection (Hf job). congruence.
    + intros x j Hx. unfold jobFate. simpl. destruct (decide (x = id)) as [->|].
      * exists (f job). rewrite lookup_insert_eq. simplify_eq. split_and!; [done|apply Hf|].
        by rewrite Hrun.
      * exists j. by rewrite lookup_insert_ne.
  - apply outputKept_append.
Qed.

(** ** Pages *)

(** The rows from a number on, when rows are numbered in order. *)
Lemma filter_from {A} (f : A → Z) l a b :
  f <$> l = seqZ a (Z.of_nat (length l)) → (a ≤ b)%Z →
  filter (λ x, (b ≤ f x)%Z) l = drop (Z.to_nat (b - a)) l.
Proof.
  revert a. induction l as [|x l IH]; intros a Hl Hab; [by rewrite drop_nil|].
  change (f <$> x :: l) with (f x :: (f <$> l)) in Hl. change (length (x :: l)) with (S (length l)) in Hl.
  rewrite Nat2Z.inj_succ, seqZ_cons, Z.pred_succ in Hl by lia.
  injection Hl as Hx Hl. destruct (decide (b ≤ f x)%Z).
  - replace (Z.to_nat (b - a)) with 0 by lia. apply filter_every.
    apply Forall_forall. intros y [Hy|Hy]%elem_of_cons; [by subst|].
    assert (f y ∈ f <$> l) as Hin by by apply list_elem_of_fmap_2.
    rewrite Hl in Hin. apply elem_of_seqZ in Hin. lia.
  - rewrite filter_cons_False by done. rewrite (IH (Z.succ a)) by (done || lia).
    replace (Z.to_nat (b - a)) with (S (Z.to_nat (b - Z.succ a))) by lia. done.
Qed.

Lemma sorted_by {A} (f : A → Z) l : StronglySorted Z.lt (f <$> l) → StronglySorted (byNumber f) l.
Proof.
  induction l as [|x l IH]; [constructor|]. rewrite fmap_cons. intros [Hs Hx]%StronglySorted_inv.
  constructor; [by apply IH|]. rewrite Forall_fmap in Hx. eapply Forall_impl; [exact Hx|].
  intros y. unfold byNumber. simpl. lia.
Qed.

Lemma sorted_filter {A} (R : relation A) (P : A → Prop) `{!∀ x, Decision (P x)} l :
  StronglySorted R l → StronglySorted R (filter P l).
Proof.
  induction 1 as [|x l Hs IH Hx]; [constructor|]. rewrite filter_cons. case_decide; [|done].
  constructor; [done|]. rewrite Forall_forall in *. intros y [_ Hy]%list_elem_of_filter. auto.
Qed.

Lemma numbered_sorted d id :
  jobNumbered d id → StronglySorted (byNumber jo_Sequence) (linesOf id d) ∧
    NoDup (jo_Sequence <$> linesOf id d).
Proof.
  intros (Hn & _). split; [|rewrite Hn; apply NoDup_seqZ].
  apply sorted_by. rewrite Hn. apply seqZ_strict.
Qed.

(** A cursor at the top of its range wraps around to the first line. *)
Definition replayFrom (cursor : Z) : nat :=
  if (cursor =? max_int64)%Z then 0 else Z.to_nat cursor.

Definition streamLines (stream : option JobOutputStream) (l : list JobOutputLine)
    : list JobOutputLine := filter (λ x, stream = None ∨ stream = Some (jo_Stream x)) l.

Lemma outputAfter_lines d sid id options job :
  jobNumbered d id → jobs (others d) !! id = Some job → jb_SessionID job = sid →
  (0 ≤ lo_Cursor options ≤ max_int64)%Z →
  outputAfter sid id options d =
    streamLines (lo_Stream options) (drop (replayFrom (lo_Cursor options)) (linesOf id d)).
Proof.
  intros Hd Hj Hs Hc. destruct (numbered_sorted d id Hd) as [Hsort Hnd].
  destruct Hd as (Hn & Hm & Hall).
  assert (filter (λ l, (wrap64 (lo_Cursor options + 1) ≤ jo_Sequence l)%Z) (linesOf id d) =
            drop (replayFrom (lo_Cursor options)) (linesOf id d)) as Hdrop.
  { unfold replayFrom. destruct (Z.eqb_spec (lo_Cursor options) max_int64) as [->|Hne].
    - change (wrap64 (max_int64 + 1)) with min_int64. apply filter_every, Forall_forall.
      intros l Hl. assert (jo_Sequence l ∈ jo_Sequence <$> linesOf id d) as Hin by by apply list_elem_of_fmap_2.
      rewrite Hn in Hin. apply elem_of_seqZ in Hin. unfold min_int64. lia.
    - rewrite wrap64_id by (unfold min_int64; lia). rewrite (filter_from _ _ 1) by (done || lia).
      f_equal. lia. }
  rewrite <-Hdrop. unfold streamLines. rewrite list_filter_filter. unfold outputAfter.
  apply sort_unique.
  - eapply NoDup_numbers_sub; [|exact Hnd]. apply sublist_submseteq, sublist_filter.
  - by apply sorted_filter.
  - rewrite (filter_ext_in _ (λ l, jo_SessionID l = sid ∧
      (wrap64 (lo_Cursor options + 1) ≤ jo_Sequence l)%Z ∧
      (lo_Stream options = None ∨ lo_Stream options = Some (jo_Stream l)))); [done|]. intros l Hl. rewrite Forall_forall in Hall.
    destruct (Hall l Hl) as (j & Hj' & El). simplify_eq. rewrite El. naive_solver.
Qed.

End JobRules.
