(* ===== verification/RunRules.v ===== *)
(** What the cancellation of a child run does: the run and everything below its
    execution ends, rows are kept, and asking again changes nothing. *)
From stdpp Require Import base gmap sets list strings sorting.
From Stdlib Require Import ZArith Lia Ascii.
From S2P Require Import Prelude GoBytes Json Executions ExecutionControl Activities ExecutionSteps TxRules Transcripts Inbox InboxRules ChildRuns Notices FeedSteps.

Module RunRules.
Import Executions ExecutionControl Activities ExecutionSteps TxRules Transcripts Inbox InboxRules ChildRuns FeedSteps.

(** ** Rows that only settle *)

Definition executionSettles (e e' : Execution) : Prop :=
  ex_SessionID e' = ex_SessionID e ∧
  (isExecutionTerminal (ex_State e) = true → isExecutionTerminal (ex_State e') = true).
Definition runSettles (r r' : AgentRun) : Prop :=
  ar_SessionID r' = ar_SessionID r ∧ ar_WorkerGenerationID r' = ar_WorkerGenerationID r ∧
  (ar_CancelRequested r = true → ar_CancelRequested r' = true).

Record settles (d d' : db) : Prop := mkSettles {
  settles_keyed : keyed (executions d) → keyed (executions d');
  settles_executions id e : executions d !! id = Some e →
    ∃ e', executions d' !! id = Some e' ∧ executionSettles e e';
  settles_runs id r : agentRuns (others d) !! id = Some r →
    ∃ r', agentRuns (others d') !! id = Some r' ∧ runSettles r r' }.

#[export] Instance settles_refl : Reflexive settles.
Proof. intros d. split; [done|intros id e He; by exists e|intros id r Hr; by exists r]. Qed.
#[export] Instance settles_trans : Transitive settles.
Proof.
  intros a b c [K1 E1 R1] [K2 E2 R2]. split; [auto|..].
  - intros id e He. destruct (E1 _ _ He) as (e1 & H1 & S1 & T1).
    destruct (E2 _ _ H1) as (e2 & H2 & S2 & T2). exists e2. split; [done|].
    split; [congruence|auto].
  - intros id r Hr. destruct (R1 _ _ Hr) as (r1 & H1 & S1 & G1 & C1).
    destruct (R2 _ _ H1) as (r2 & H2 & S2 & G2 & C2). exists r2. split; [done|].
    split_and!; [congruence..|auto].
Qed.

Lemma settles_same d d' :
  executions d' = executions d → agentRuns (others d') = agentRuns (others d) → settles d d'.
Proof.
  intros E1 E2. split; rewrite ?E1, ?E2; [done|intros id e He; by exists e|intros id r Hr; by exists r].
Qed.

Lemma settles_execution e f :
  (∀ row, ex_ID (f row) = ex_ID row ∧ executionSettles row (f row)) →
  ensures settles (updateExecution e f).
Proof.
  intros Hf d u d' [= _ <-]. unfold setExecutions, updateRow.
  destruct (executions d !! ex_ID e) as [row|] eqn:Hrow; [|by apply settles_same].
  case_bool_decide; [|by apply settles_same]. destruct (Hf row) as [Hid Hst]. split; simpl.
  - intros Hk i x. rewrite lookup_insert_Some. intros [[<- <-]|[_ Hx]]; [|by apply Hk].
    rewrite Hid. by apply Hk.
  - intros i x Hx. destruct (decide (i = ex_ID e)) as [->|].
    + exists (f row). rewrite lookup_insert_eq. split; [done|]. by simplify_eq.
    + exists x. by rewrite lookup_insert_ne.
  - intros i r Hr. by exists r.
Qed.

Lemma settles_setRun sid id f d :
  (∀ r, runSettles r (f r)) → settles d (setAgentRuns (updateRow ar_SessionID sid id f) d).
Proof.
  intros Hf. split; [done|intros i e He; by exists e|]. intros i r Hr. simpl. unfold updateRow.
  destruct (agentRuns (others d) !! id) as [row|] eqn:Hrow; [|by exists r].
  case_bool_decide; [|by exists r]. destruct (decide (i = id)) as [->|].
  - exists (f row). rewrite lookup_insert_eq. split; [done|]. by simplify_eq.
  - exists r. by rewrite lookup_insert_ne.
Qed.

Lemma settles_run sid id f : (∀ r, runSettles r (f r)) → ensures settles (updateAgentRun sid id f).
Proof. intros Hf d u d' [= _ <-]. by apply settles_setRun. Qed.

Lemma settles_writes {A} (m : tx A) :
  ensures (λ d d', executions d' = executions d ∧ agentRuns (others d') = agentRuns (others d)) m →
  ensures settles m.
Proof. apply ensures_weaken. intros d d' []. by apply settles_same. Qed.

Lemma settles_count n e : ensures settles (updateExecution e (withEventCount n)).
Proof. apply settles_execution. by intros []. Qed.
Lemma settles_cancelled t e : ensures settles (updateExecution e (cancelled t)).
Proof. apply settles_execution. by intros []. Qed.
Lemma settles_event ev : ensures settles (createEvent ev).
Proof. apply settles_writes. intros d u d'. unfold createEvent. by_cases. Qed.
Lemma settles_activity a f : ensures settles (updateActivity a f).
Proof. apply settles_writes. by intros d u d' [= _ <-]. Qed.
Lemma settles_runEvent id e : ensures settles (createRunEvent id e).
Proof. apply settles_writes. by intros d u d' (_ & _ & ->)%createRunEvent_Ok. Qed.
Lemma settles_session sid f : ensures settles (updateSession sid f).
Proof. apply settles_writes. by intros d u d' [= _ <-]. Qed.
Lemma settles_inbox m : ensures settles (createInboxMessage m).
Proof. apply settles_writes. intros d u d'. unfold createInboxMessage. by_cases. Qed.
Lemma settles_counted sid id n : ensures settles (updateAgentRun sid id (countEvents n)).
Proof. apply settles_run. by intros []. Qed.
Lemma settles_ended sid id t : ensures settles (updateAgentRun sid id (runCancelled t)).
Proof. apply settles_run. by intros []. Qed.
#[local] Hint Resolve settles_count settles_cancelled settles_event settles_activity
  settles_runEvent settles_session settles_inbox settles_counted settles_ended : calm.

Lemma settles_append c e kind p : ensures settles (appendExecutionEvent c e kind p).
Proof. unfold appendExecutionEvent. calm_steps. Qed.
Lemma settles_find sid id : ensures settles (findExecution sid id).
Proof. apply ensures_reads, _. Qed.
#[local] Hint Resolve settles_append settles_find : calm.

Lemma settles_cancelEach c e l : ensures settles (cancelEach c e l).
Proof. revert e. induction l as [|a l IH]; intros e; simpl; unfold appendActivityEvent; calm_steps. Qed.
#[local] Hint Resolve settles_cancelEach : calm.

Section terminal.
Context `{ImageCodec, InboxCodec, ChildCodec}.

Lemma settles_endRun c id e : ensures settles (cancelExecutionAgentRun c id e).
Proof.
  unfold cancelExecutionAgentRun, deref, findAgentRun, recordExecutionChildTerminal,
    allocateFeedSequences, findSessionWithQuery, recordExecutionChildReport, nextInboxSequence,
    recordChildReportEvent, deref. calm_steps.
Qed.

(** Cancelling an execution ends it. *)
Lemma cancelNative_ends c e d u d' row :
  executions d !! ex_ID e = Some row → ex_SessionID row = ex_SessionID e →
  cancelNativeChild c (Ok tt) e d = Ok (u, d') →
  settles d d' ∧ ∃ e', executions d' !! ex_ID e = Some e' ∧ isExecutionTerminal (ex_State e') = true.
Proof.
  intros Hrow Hs E. unfold cancelNativeChild in E.
  apply tx_bind_Ok in E as (v & d1 & Hr & E). apply refuseIf_Ok in Hr as [_ ->].
  apply tx_bind_Ok in E as (w & d1 & Hc & E).
  pose proof (settles_cancelled _ _ _ _ _ Hc) as S1.
  assert (executions d1 !! ex_ID e = Some (cancelled (now c) row)) as Hrow1.
  { injection Hc as _ <-. simpl. unfold updateRow. rewrite Hrow, bool_decide_eq_true_2 by done.
    apply lookup_insert_eq. }
  assert (settles d1 d') as S2.
  { revert E. generalize d1 u d'. change (ensures settles (e ← cancelExecutionActivities c e;
      _ ← appendExecutionEvent c e ExecutionEventTypeCancelled (ReasonPayload ExecutionUserCancelReason);
      check (Ok tt))). unfold cancelExecutionActivities. calm_steps. }
  split; [by etrans|]. destruct (settles_executions _ _ S2 _ _ Hrow1) as (e' & He' & _ & Ht).
  exists e'. split; [done|]. apply Ht. by destruct row.
Qed.

(** Every member of the list ends. *)
Lemma cancelMembers_end c drawn members d u d' :
  keyed (executions d) → cancelRunMembers c drawn members d = Ok (u, d') →
  settles d d' ∧ ∀ m, m ∈ members →
    ∃ e', executions d' !! ex_ID m = Some e' ∧ isExecutionTerminal (ex_State e') = true.
Proof.
  revert d u. induction members as [|m members IH]; intros d u Hk E; simpl in E.
  { injection E as _ <-. split; [reflexivity|]. intros m Hm. by apply elem_of_nil in Hm. }
  apply tx_bind_Ok in E as (e & d1 & Hf & E). apply findExecution_Ok in Hf as (Hrow & Hs & ->).
  apply tx_bind_Ok in E as (v & d1 & Hm & E). pose proof (Hk _ _ Hrow) as Hid.
  assert (settles d d1 ∧ ∃ e', executions d1 !! ex_ID m = Some e' ∧
            isExecutionTerminal (ex_State e') = true) as [S1 (e1 & He1 & Ht1)].
  { destruct (isExecutionTerminal (ex_State e)) eqn:Ht; [injection Hm as _ <-; split; [reflexivity|by eauto]|].
    apply tx_bind_Ok in Hm as (w & d2 & Hn & Hm). rewrite <-Hid in Hrow |- *.
    destruct (cancelNative_ends _ _ _ _ _ _ Hrow eq_refl Hn) as [S1 (e1 & He1 & Ht1)].
    destruct (drawn (ex_ID e)) as [eventID reportID]. apply settles_endRun in Hm as S2.
    split; [by etrans|]. destruct (settles_executions _ _ S2 _ _ He1) as (e2 & He2 & _ & Ht2).
    eauto. }
  destruct (IH d1 u) as [S2 Hall]; [by apply (settles_keyed _ _ S1)|done|].
  split; [by etrans|]. intros x [->|Hx]%elem_of_cons; [|by apply Hall].
  destruct (settles_executions _ _ S2 _ _ He1) as (e2 & He2 & _ & Ht2). eauto.
Qed.

End terminal.

End RunRules.
