(* ===== verification/FeedDrain.v ===== *)
(** Left alone, the pump finishes: from every world it can reach, the signals
    that are on their way and the goroutine of a session lead, with no further
    commit, to a world in which nothing is left to do for the session. *)
From stdpp Require Import base gmap sets list list_numbers strings sorting.
From Stdlib Require Import ZArith Lia Ascii.
From S2P Require Import Prelude GoBytes Executions Transcripts Inbox Feed FeedRules FeedGrowth FeedPump FeedPumpRules.

Module FeedDrain.
Import Executions Transcripts Inbox Feed FeedRules FeedGrowth FeedPump FeedPumpRules.

Section drain.
Context (commit : db → db → list (uuid * Z) → Prop) `{!FeedCommits commit}.
Variable torn : bool.
Local Abbreviation step := (step commit torn).
Local Abbreviation pumpOK := (pumpOK torn).

(** ** Sessions of the pump exist *)

(** The pump knows a session only once its feed has a row. *)
Definition alive (w : world) : Prop :=
  ∀ sid s, pu_sessions (w_pump w) !! sid = Some s →
    (1 ≤ feedHead (w_db w) sid)%Z ∧
    match w_runs w !! sid with
    | Some (Reading _ seen) => Forall (λ d, (1 ≤ feedHead d sid)%Z) seen
    | _ => True
    end.

Lemma known_session d sid : (1 ≤ feedHead d sid)%Z → is_Some (sessions (others d) !! sid).
Proof. unfold feedHead. destruct (sessions (others d) !! sid); simpl; [eauto|lia]. Qed.

Definition readingAlive (p : option phase) (sid : uuid) : Prop :=
  match p with
  | Some (Reading _ seen) => Forall (λ d, (1 ≤ feedHead d sid)%Z) seen
  | _ => True
  end.

(** A step that leaves the sessions of the pump, and moves one goroutine. *)
Lemma alive_move w w' sid p' :
  alive w → w_db w' = w_db w → is_Some (w_runs w !! sid) →
  (∀ x s', pu_sessions (w_pump w') !! x = Some s' → ∃ s, pu_sessions (w_pump w) !! x = Some s) →
  (∀ x, x ≠ sid → w_runs w' !! x = w_runs w !! x) → w_runs w' !! sid = p' →
  ((1 ≤ feedHead (w_db w) sid)%Z → readingAlive (w_runs w !! sid) sid → readingAlive p' sid) →
  alive w'.
Proof.
  intros Ha Ed _ Hs Hne Hp Hr x s' Hx. destruct (Hs x s' Hx) as [s Hx']. destruct (Ha x s Hx') as [H1 H2].
  rewrite Ed. split; [done|]. destruct (decide (x = sid)) as [->|]; [|by rewrite Hne].
  rewrite Hp. by apply Hr.
Qed.

Lemma alive_signal w sid first l1 l2 :
  pumpOK w → alive w → w_signals w = l1 ++ (sid, first) :: l2 →
  alive (afterSignal sid first (l1 ++ l2) w).
Proof.
  intros (_ & Hsig & _) Ha E x s. unfold signalsOK in Hsig. rewrite E in Hsig.
  apply Forall_app in Hsig as [_ Hsig]. apply Forall_cons in Hsig as [Hfirst _]. simpl in Hfirst.
  unfold afterSignal, Signal. destruct (pu_sessions (w_pump w) !! sid) as [st|] eqn:Es; simpl.
  - pose proof (Ha sid st Es) as [Hh Hr]. destruct (initialized st), (running st); simpl;
      (destruct (decide (x = sid)) as [->|];
        [rewrite lookup_insert_eq; intros [= <-]; rewrite ?lookup_insert_eq; by split
        |rewrite !lookup_insert_ne by done; apply Ha]).
  - destruct (decide (x = sid)) as [->|]; [|rewrite !lookup_insert_ne by done; apply Ha].
    rewrite !lookup_insert_eq. intros [= <-]. split; [lia|done].
Qed.

Lemma alive_step w w' : step w w' → pumpOK w → alive w → alive w'.
Proof.
  intros Hstep Hok Ha. pose proof Hok as (Hw & Hsig & Hall). destruct Hstep as
    [d signals Hc _|sid first l1 l2 E|sid Er|sid cursor seen Er Hl|sid cursor a b c d e page Er Hp
    |sid p Er Hm|sid page item rest Er|sid page Er|sid page Er|present|sid request watch
    |sid request watch].
  - intros x s Hs. destruct (Ha x s Hs) as [Hx Hr]. split; [|done].
    pose proof (grows_head _ _ (commit_grows _ _ _ Hc Hw) x). simpl. lia.
  - by apply alive_signal.
  - apply (alive_move w _ sid (Some (Reading (readCursor sid (w_pump w)) []))); simpl; try done; eauto.
    + intros. by rewrite lookup_insert_ne.
    + apply lookup_insert_eq.
  - apply (alive_move w _ sid (Some (Reading cursor (seen ++ [w_db w])))); simpl; try done; eauto.
    + intros. by rewrite lookup_insert_ne.
    + apply lookup_insert_eq.
    + rewrite Er. intros. apply Forall_app. by split; [|apply Forall_singleton].
  - apply (alive_move w _ sid (Some (Delivering page (pg_Items page)))); simpl; try done; eauto.
    + intros. by rewrite lookup_insert_ne.
    + apply lookup_insert_eq.
  - apply (alive_move w _ sid None); simpl; try done; eauto.
    + intros x s'. unfold markStopped. destruct (pu_sessions (w_pump w) !! sid) eqn:Es; [|eauto]. simpl.
      destruct (decide (x = sid)) as [->|]; [eauto|rewrite lookup_insert_ne by done; eauto].
    + intros. by rewrite lookup_delete_ne.
    + apply lookup_delete_eq.
  - unfold afterAdmission. destruct (reportAdmission sid item (w_pump w)) as [q called] eqn:Eq.
    apply (alive_move w _ sid (Some (Delivering page rest))); simpl; try done; eauto.
    + assert (pu_sessions q = pu_sessions (w_pump w)) as -> by
        (unfold reportAdmission in Eq; case_match; by injection Eq as <- _). eauto.
    + intros. by rewrite lookup_insert_ne.
    + apply lookup_insert_eq.
  - apply (alive_move w _ sid (Some (Finishing page))); simpl; try done; eauto.
    + intros. by rewrite lookup_insert_ne.
    + apply lookup_insert_eq.
  - unfold afterFinish. destruct (finishPage sid page (w_pump w)) as [q loop] eqn:Eq.
    apply (alive_move w _ sid (if loop then Some Loop else None)); simpl; try done; eauto.
    + intros x s'. specialize (Hall sid). unfold sessionOK in Hall.
      destruct (pu_sessions (w_pump w) !! sid) as [st|] eqn:Es; [|destruct Hall; congruence].
      unfold finishPage in Eq. destruct (decide (x = sid)) as [->|Hne]; [eauto|].
      repeat case_match; injection Eq as <- _; simpl; rewrite lookup_insert_ne by done; eauto.
    + intros. destruct loop; [by rewrite lookup_insert_ne|by rewrite lookup_delete_ne].
    + destruct loop; [apply lookup_insert_eq|apply lookup_delete_eq].
    + by destruct loop.
  - exact Ha.
  - exact Ha.
  - intros x s. unfold stopWatch. simpl. case_bool_decide; apply Ha.
Qed.

Lemma reachable_alive d w : feedContiguous d → reachable commit torn d w → pumpOK w ∧ alive w.
Proof.
  intros Hd Hr. assert (pumpOK (startWorld d) ∧ alive (startWorld d)) as H0.
  { split; [by apply start_OK|]. intros sid s. by simpl. }
  revert H0. unfold reachable in Hr. induction Hr as [|x y z Hxy _ IH]; [done|].
  intros [Hok Ha]. apply IH. split; [by eapply step_OK|by eapply alive_step].
Qed.

(** ** The goroutine of a session alone *)

(** Steps of the goroutine change neither the store nor the signals. *)
Record runsTo (w w' : world) : Prop := {
  run_steps : rtc step w w';
  run_db : w_db w' = w_db w;
  run_signals : w_signals w' = w_signals w;
  run_stalled : w_stalled w' = w_stalled w }.

#[local] Instance runsTo_trans : Transitive runsTo.
Proof. intros a b c [] []. split; [by etrans|congruence..]. Qed.
#[local] Instance runsTo_refl : Reflexive runsTo.
Proof. intros w. by split. Qed.

Lemma runsTo_once w w' :
  step w w' → w_db w' = w_db w → w_signals w' = w_signals w → w_stalled w' = w_stalled w → runsTo w w'.
Proof. intros. split; [by apply rtc_once|done..]. Qed.

Lemma delivers w sid page rest :
  w_runs w !! sid = Some (Delivering page rest) →
  ∃ w', runsTo w w' ∧ w_runs w' !! sid = Some (Finishing page) ∧
    pu_sessions (w_pump w') = pu_sessions (w_pump w).
Proof.
  revert w. induction rest as [|item rest IH]; intros w Er.
  - exists (afterSink sid page w). split_and!; [|simpl; apply lookup_insert_eq|done].
    by apply runsTo_once; [apply StepSink|..].
  - assert (step w (afterAdmission sid page item rest w)) as Hs by by apply StepAdmission.
    revert Hs. unfold afterAdmission.
    destruct (reportAdmission sid item (w_pump w)) as [q called] eqn:Eq. intros Hs.
    assert (pu_sessions q = pu_sessions (w_pump w)) as Eq' by
      (unfold reportAdmission in Eq; case_match; by injection Eq as <- _).
    match type of Hs with step _ ?v => destruct (IH v) as (w' & Hr & Ef & Ep) end.
    + simpl. apply lookup_insert_eq.
    + exists w'. split_and!; [|done|by rewrite Ep].
      etrans; [|exact Hr]. by apply runsTo_once; [exact Hs|..].
Qed.

Lemma finishes w sid page st :
  w_runs w !! sid = Some (Finishing page) → pu_sessions (w_pump w) !! sid = Some st →
  ∃ w', runsTo w w' ∧
    w_runs w' !! sid = (if pg_HasMore page || dirty st then Some Loop else None) ∧
    ∃ st', pu_sessions (w_pump w') !! sid = Some st' ∧ lastPublished st' = pg_NextCursor page ∧
      dirty st' = pg_HasMore page && dirty st.
Proof.
  intros Er Es. assert (step w (afterFinish sid page w)) as Hs by by apply StepFinish.
  revert Hs. unfold afterFinish, finishPage. rewrite Es. simpl.
  destruct (pg_HasMore page), (dirty st) eqn:Ed; simpl; intros Hs; eexists;
    (split; [by apply runsTo_once; [exact Hs|..]|]); simpl;
    rewrite ?lookup_insert_eq, ?lookup_delete_eq; split; try done; eexists; (split_and!; [reflexivity|reflexivity|simpl; congruence]).
Qed.

(** The queries of a page that was begun, up to the fifth. *)
Lemma queries w sid cursor seen :
  w_runs w !! sid = Some (Reading cursor seen) → length seen ≤ 5 →
  ∃ w' seen', runsTo w w' ∧ w_runs w' !! sid = Some (Reading cursor seen') ∧ length seen' = 5 ∧
    seen' = seen ++ repeat (w_db w) (5 - length seen) ∧
    pu_sessions (w_pump w') = pu_sessions (w_pump w).
Proof.
  intros Er Hl. remember (5 - length seen) as n eqn:En. revert w seen Er Hl En.
  induction n as [|n IH]; intros w seen Er Hl En.
  - exists w, seen. rewrite app_nil_r. split_and!; try done. lia.
  - assert (step w (withPump (w_pump w) (<[sid := Reading cursor (seen ++ [w_db w])]> (w_runs w)) w)) as Hs
      by (apply StepQuery; [done|lia]).
    match type of Hs with step _ ?v =>
      destruct (IH v (seen ++ [w_db w])) as (w' & seen' & Hr & Er' & Hl' & -> & Ep) end.
    + simpl. apply lookup_insert_eq.
    + rewrite length_app. simpl. lia.
    + rewrite length_app. simpl. lia.
    + exists w', (seen ++ w_db w :: repeat (w_db w) n). split_and!; try done.
      * etrans; [|exact Hr]. by apply runsTo_once; [exact Hs|..].
      * by rewrite Er', <-app_assoc.
      * rewrite <-Hl', <-app_assoc. done.
Qed.

(** A page that was read is delivered and recorded. *)
Lemma reads_page w sid cursor a b c d e page st :
  w_runs w !! sid = Some (Reading cursor [a; b; c; d; e]) →
  readFeedPage (mkReads a b c d e) sid cursor feedPumpPageLimit = Ok page →
  pu_sessions (w_pump w) !! sid = Some st →
  ∃ w', runsTo w w' ∧
    w_runs w' !! sid = (if pg_HasMore page || dirty st then Some Loop else None) ∧
    ∃ st', pu_sessions (w_pump w') !! sid = Some st' ∧ lastPublished st' = pg_NextCursor page ∧
      dirty st' = pg_HasMore page && dirty st.
Proof.
  intros Er Hp Es.
  assert (step w (withPump (w_pump w) (<[sid := Delivering page (pg_Items page)]> (w_runs w)) w)) as Hs
    by by eapply StepPage.
  match type of Hs with step _ ?v => destruct (delivers v sid page (pg_Items page)) as (w1 & R1 & E1 & P1) end.
  { simpl. apply lookup_insert_eq. }
  destruct (finishes w1 sid page st) as (w2 & R2 & E2 & P2); [done|by rewrite P1|].
  exists w2. split_and!; [|done|done]. etrans; [|exact R2]. etrans; [|exact R1].
  by apply runsTo_once; [exact Hs|..].
Qed.

(** The pages of a quiet store move the cursor up to the head. *)
Lemma page_of_head d sid cursor :
  feedContiguous d → (1 ≤ feedHead d sid)%Z → (0 ≤ cursor ≤ feedHead d sid)%Z →
  ∃ page, readFeedPage (mkReads d d d d d) sid cursor feedPumpPageLimit = Ok page ∧
    (cursor ≤ pg_NextCursor page ≤ feedHead d sid)%Z ∧
    (pg_HasMore page = true → cursor < pg_NextCursor page)%Z.
Proof.
  intros Hc Hh Hcur. destruct (known_session d sid Hh) as [session Hs].
  exists (pageOf (mkReads d d d d d) sid cursor feedPumpPageLimit (se_FeedSequence session)).
  split; [apply readFeedPage_spec; [lia|done|done|by apply (contiguous_NoDup d), fc_at]|].
  simpl. rewrite last_number. unfold pageItems. rewrite numbers_take.
  change (pageRows (mkReads d d d d d) sid) with (feedRows d sid).
  pose proof (after_contiguous d sid cursor (fc_at _ Hc sid) Hcur) as Ha. rewrite Ha.
  assert (Z.of_nat (length (after cursor (feedRows d sid))) = feedHead d sid - cursor)%Z as Hlen.
  { apply (f_equal length) in Ha. rewrite length_seqZ in Ha. unfold numbers in Ha.
    rewrite length_fmap in Ha. lia. }
  rewrite take_seqZ, last_seqZ, bool_decide_eq_true, Hlen by (unfold feedPumpPageLimit, MaximumFeedLimit; lia).
  unfold feedPumpPageLimit, MaximumFeedLimit. lia.
Qed.

(** ** Draining *)

Definition left (w : world) (sid : uuid) (st : feedPumpSession) : Z :=
  (2 * (feedHead (w_db w) sid - lastPublished st) + if dirty st then 1 else 0)%Z.

Lemma runsTo_OK w w' : runsTo w w' → pumpOK w → alive w → pumpOK w' ∧ alive w'.
Proof.
  intros [Hr _ _ _]. induction Hr as [|x y z Hxy _ IH]; [done|]. intros Hok Ha.
  apply IH; [by eapply step_OK|by eapply alive_step].
Qed.

Lemma session_known w sid p :
  pumpOK w → w_runs w !! sid = Some p →
  ∃ st, pu_sessions (w_pump w) !! sid = Some st ∧
    (0 ≤ lastPublished st ≤ feedHead (w_db w) sid)%Z ∧
    match p with
    | Reading cursor seen => cursor = lastPublished st ∧ snapshots torn w seen ∧
        Forall (λ d, (lastPublished st ≤ feedHead d sid)%Z) seen
    | _ => True
    end.
Proof.
  intros (_ & _ & Hall) Er. specialize (Hall sid). unfold sessionOK in Hall.
  destruct (pu_sessions (w_pump w) !! sid) as [st|] eqn:Es; [|destruct Hall; congruence].
  destruct Hall as (_ & _ & (a & _ & _ & Hph) & Hl & _). exists st. split_and!; try done; try apply Hl.
  unfold phaseOK in Hph. rewrite Er in Hph. destruct p; naive_solver.
Qed.

Lemma loop_ends n w sid st :
  pumpOK w → alive w → w_runs w !! sid = Some Loop → pu_sessions (w_pump w) !! sid = Some st →
  (left w sid st ≤ Z.of_nat n)%Z →
  ∃ w', runsTo w w' ∧ w_runs w' !! sid = None.
Proof.
  revert w st. induction n as [n IH] using lt_wf_ind. intros w st Hok Ha Er Es Hn.
  pose proof Hok as (Hw & _). destruct (Ha sid st Es) as [Hh _].
  destruct (session_known w sid Loop Hok Er) as (st0 & Es0 & Hl & _).
  rewrite Es in Es0. injection Es0 as <-.
  assert (step w (withPump (w_pump w) (<[sid := Reading (readCursor sid (w_pump w)) []]> (w_runs w)) w))
    as Hs by by apply StepBegin.
  match type of Hs with step _ ?v => destruct (queries v sid (readCursor sid (w_pump w)) [])
    as (w1 & seen & R1 & E1 & _ & -> & P1) end; [simpl; apply lookup_insert_eq|simpl; lia|].
  simpl in E1, P1. unfold readCursor in E1. rewrite Es in E1. simpl in E1.
  destruct (page_of_head (w_db w) sid (lastPublished st)) as (page & Hp & Hnext & Hmore); [done|done|done|].
  destruct (reads_page w1 sid _ _ _ _ _ _ page st E1 Hp) as (w2 & R2 & E2 & st2 & P2 & L2 & D2);
    [by rewrite P1|].
  assert (runsTo w w2) as R.
  { etrans; [|exact R2]. etrans; [|exact R1]. by apply runsTo_once; [exact Hs|..]. }
  destruct (pg_HasMore page || dirty st) eqn:Em; [|by exists w2].
  destruct (runsTo_OK w w2 R Hok Ha) as [Hok2 Ha2].
  assert (left w2 sid st2 < left w sid st)%Z as Hlt.
  { unfold left. rewrite (run_db _ _ R), L2, D2. destruct (pg_HasMore page) eqn:Eh, (dirty st); simpl in *;
      try done; try lia. }
  assert (0 ≤ left w2 sid st2)%Z as Hz.
  { unfold left. rewrite (run_db _ _ R), L2. destruct (dirty st2); lia. }
  destruct (IH (Z.to_nat (left w2 sid st2))) with (w := w2) (st := st2) as (w3 & R3 & E3); try done; try lia.
  exists w3. split; [by etrans|done].
Qed.

Lemma after_page w w' sid st page :
  pumpOK w → alive w → runsTo w w' →
  w_runs w' !! sid = (if pg_HasMore page || dirty st then Some Loop else None) →
  is_Some (pu_sessions (w_pump w') !! sid) →
  ∃ w'', runsTo w w'' ∧ w_runs w'' !! sid = None.
Proof.
  intros Hok Ha Hr Er [st' Es]. destruct (pg_HasMore page || dirty st); [|by exists w'].
  destruct (runsTo_OK w w' Hr Hok Ha) as [Hok' Ha'].
  destruct (loop_ends (Z.to_nat (left w' sid st')) w' sid st') as (w'' & Hr' & En); try done; [lia|].
  exists w''. split; [by etrans|done].
Qed.

Lemma goroutine_ends w sid p :
  pumpOK w → alive w → w_runs w !! sid = Some p → ∃ w', runsTo w w' ∧ w_runs w' !! sid = None.
Proof.
  intros Hok Ha Er. destruct (session_known w sid p Hok Er) as (st & Es & Hl & Hp).
  destruct p as [|cursor seen|page rest|page].
  - apply (loop_ends (Z.to_nat (left w sid st)) w sid st); try done. lia.
  - destruct Hp as (-> & Hsn & _).
    destruct (queries w sid (lastPublished st) seen Er) as (w1 & seen' & R1 & E1 & Hl1 & _ & P1);
      [apply Hsn|].
    destruct (runsTo_OK w w1 R1 Hok Ha) as [Hok1 Ha1].
    destruct seen' as [|a [|b [|c [|d [|e []]]]]]; try done.
    rewrite <-P1 in Es. destruct (Ha1 sid st Es) as [_ Halive]. rewrite E1 in Halive.
    apply Forall_cons in Halive as [[session Hs]%known_session _].
    destruct (session_known w1 sid _ Hok1 E1) as (st1 & Es1 & _ & _ & Hsn1 & _).
    destruct Hsn1 as [Hsort Hcont _ _ _]. simpl in Hsort.
    pose proof (chain_grows [a] _ _ _ Hsort) as Hbc. pose proof (chain_grows [a; b] _ _ _ Hsort) as Hcd.
    assert (feedContiguous d) as Hd by (rewrite Forall_forall in Hcont; apply Hcont; set_solver).
    assert (readFeedPage (mkReads a b c d e) sid (lastPublished st) feedPumpPageLimit =
      Ok (pageOf (mkReads a b c d e) sid (lastPublished st) feedPumpPageLimit (se_FeedSequence session)))
      as Hpage.
    { apply readFeedPage_spec; [lia|done|done|]. apply pageRows_NoDup; [done|done|by apply fc_at]. }
    destruct (reads_page w1 sid _ _ _ _ _ _ _ st E1 Hpage Es) as (w2 & R2 & E2 & st2 & P2 & _).
    eapply (after_page w w2); [done|done|by etrans|exact E2|eauto].
  - destruct (delivers w sid page rest Er) as (w1 & R1 & E1 & P1).
    destruct (finishes w1 sid page st E1) as (w2 & R2 & E2 & st2 & P2 & _); [by rewrite P1|].
    eapply (after_page w w2); [done|done|by etrans|exact E2|eauto].
  - destruct (finishes w sid page st Er Es) as (w2 & R2 & E2 & st2 & P2 & _).
    eapply (after_page w w2); [done|done|done|exact E2|eauto].
Qed.

Lemma signals_arrive w sid :
  ∃ w', rtc step w w' ∧ w_db w' = w_db w ∧ (sid ∉ (w_signals w').*1) ∧ w_stalled w' ⊆ w_stalled w.
Proof.
  remember (length (w_signals w)) as n eqn:En. revert w En.
  induction n as [n IH] using lt_wf_ind. intros w En.
  destruct (decide (sid ∈ (w_signals w).*1)) as [Hin|Hin]; [|by exists w].
  apply list_elem_of_fmap in Hin as ([x first] & -> & (l1 & l2 & E)%list_elem_of_split). simpl.
  pose proof (StepSignal commit torn w x first l1 l2 E) as Hs.
  destruct (IH (length (l1 ++ l2))) with (w := afterSignal x first (l1 ++ l2) w)
    as (w' & Hr & Hd & Hno & Hst).
  - rewrite En, E, !length_app. simpl. lia.
  - unfold afterSignal. by destruct (Signal _ _ _).
  - exists w'. split_and!; [by eapply rtc_l| |done|].
    + rewrite Hd. unfold afterSignal. by destruct (Signal _ _ _).
    + etrans; [exact Hst|]. unfold afterSignal. destruct (Signal _ _ _) as [? []]; simpl; set_solver.
Qed.

(** Where the pump began a session does not change. *)
Lemma starts_step w w' sid start :
  step w w' → pumpOK w → w_starts w !! sid = Some start → w_starts w' !! sid = Some start.
Proof.
  intros Hs (_ & _ & Hall) Hst. destruct Hs; simpl; try done.
  - unfold afterSignal. destruct (Signal _ _ _) as [p spawn]. simpl.
    specialize (Hall sid0). unfold sessionOK in Hall.
    destruct (pu_sessions (w_pump w) !! sid0); [done|]. destruct Hall as (_ & _ & Hn).
    by rewrite lookup_insert_ne by congruence.
  - unfold afterAdmission. by destruct (reportAdmission _ _ _).
  - unfold afterFinish. by destruct (finishPage _ _ _).
Qed.

Lemma starts_kept w w' sid start :
  rtc step w w' → pumpOK w → w_starts w !! sid = Some start → w_starts w' !! sid = Some start.
Proof.
  induction 1 as [|x y z Hxy _ IH]; [done|]. intros Hok Hs.
  apply IH; [by eapply step_OK|by eapply starts_step].
Qed.

(** Nothing is left to do, in the end. *)
Lemma pump_quiets d w sid :
  feedContiguous d → reachable commit torn d w →
  ∃ w', rtc step w w' ∧ w_db w' = w_db w ∧ quiet w' sid ∧ w_stalled w' ⊆ w_stalled w.
Proof.
  intros Hd Hr. destruct (signals_arrive w sid) as (w1 & R1 & D1 & Hno & Hst).
  assert (reachable commit torn d w1) as Hr1 by (unfold reachable in *; by etrans).
  destruct (reachable_alive d w1 Hd Hr1) as [Hok Ha].
  destruct (w_runs w1 !! sid) as [p|] eqn:Er.
  - destruct (goroutine_ends w1 sid p Hok Ha Er) as (w2 & [R2 D2 S2 St2] & E2).
    exists w2. split_and!; [by etrans|congruence|split; [done|by rewrite S2]|by rewrite St2].
  - exists w1. by split_and!.
Qed.

End drain.
End FeedDrain.
