(* ===== verification/WakeRules.v ===== *)
(** The notices of a session and the wakes they cause: draining delivers every
    pending notice once, in order; the walk from the source of a wake to the
    turn that began it ends, and admits no wake whose source was stopped. *)
From stdpp Require Import base gmap sets list list_numbers strings sorting.
From Stdlib Require Import ZArith Lia Ascii Sorted.
From S2P Require Import Prelude GoBytes Json Executions ExecutionControl Activities ExecutionSteps TxRules Transcripts TranscriptRules Inbox Deferral InboxRules Feed FeedRules Notices ChildRuns TurnEnd Turns TurnSteps FeedSteps.

Module WakeRules.
Import Executions ExecutionControl Activities TxRules Transcripts Inbox Feed FeedRules Notices TurnSteps FeedSteps.

(** ** Delivering *)

(** Pending notices with distinct ids are all delivered, and only they. *)
Lemma deliver_all c sid l d :
  (∀ n, n ∈ l → sessionNotices (others d) !! sn_ID n = Some n ∧ sn_SessionID n = sid ∧
                sn_State n = NoticeStatePending) → NoDup (sn_ID <$> l) →
  ∃ d', deliverPendingNotices c sid l d = Ok (noticeDelivered (now c) <$> l, d') ∧
    (∀ n, n ∈ l → sessionNotices (others d') !! sn_ID n = Some (noticeDelivered (now c) n)) ∧
    (∀ id, id ∉ sn_ID <$> l → sessionNotices (others d') !! id = sessionNotices (others d) !! id) ∧
    sessions (others d') = sessions (others d).
Proof.
  revert d. induction l as [|n l IH]; intros d Hl Hnd; simpl.
  - exists d. split_and!; try done. by intros n ?%not_elem_of_nil.
  - apply NoDup_cons in Hnd as [Hn Hnd]. destruct (Hl n) as (Hrow & Hs & Hp); [by left|].
    destruct (IH (setNotices <[sn_ID n := noticeDelivered (now c) n]> d)) as (d' & E & H1 & H2 & H3).
    + intros m Hm. destruct (Hl m) as (Hm1 & ? & ?); [by right|]. split; [|done]. simpl.
      rewrite lookup_insert_ne; [done|]. intros Heq. apply Hn. rewrite Heq.
      apply list_elem_of_fmap. eauto.
    + done.
    + exists d'. split_and!.
      * eapply tx_then; [reflexivity|]. rewrite Hrow. eapply tx_then.
        { unfold refuseIf, reads. rewrite !bool_decide_eq_true_2 by done. reflexivity. }
        eapply tx_then; [reflexivity|]. eapply tx_then; [exact E|]. reflexivity.
      * intros m [->|Hm]%elem_of_cons; [|by apply H1].
        rewrite H2 by done. simpl. by rewrite lookup_insert_eq.
      * intros id Hid. rewrite not_elem_of_cons in Hid. destruct Hid. rewrite H2 by done.
        simpl. by rewrite lookup_insert_ne.
      * done.
Qed.

Lemma elem_of_pending sid d n :
  noticesKeyed d →
  n ∈ pendingNotices sid d ↔
    sessionNotices (others d) !! sn_ID n = Some n ∧ sn_SessionID n = sid ∧
    sn_State n = NoticeStatePending.
Proof.
  intros Hk. unfold pendingNotices, noticeRowsOf. rewrite sort_Permutation, list_elem_of_filter.
  split.
  - intros [[Hs Hp] Hn]. apply list_elem_of_fmap in Hn as ([id m] & -> & Hm).
    apply elem_of_map_to_list in Hm. simpl in *. by rewrite (Hk _ _ Hm).
  - intros (Hrow & Hs & Hp). split; [done|]. apply list_elem_of_fmap. exists (sn_ID n, n).
    split; [done|]. by apply elem_of_map_to_list.
Qed.

Lemma pending_NoDup sid d : noticesKeyed d → NoDup (sn_ID <$> pendingNotices sid d).
Proof.
  intros Hk. unfold pendingNotices, noticeRowsOf. rewrite sort_Permutation.
  assert (NoDup (sn_ID <$> (map_to_list (sessionNotices (others d))).*2)) as Hnd.
  { assert (sn_ID <$> (map_to_list (sessionNotices (others d))).*2 =
            (map_to_list (sessionNotices (others d))).*1) as ->; [|apply NoDup_fst_map_to_list].
    rewrite <-list_fmap_compose. apply list_fmap_ext. intros i [id n] Hi.
    apply list_elem_of_lookup_2, elem_of_map_to_list in Hi. simpl. by apply Hk. }
  revert Hnd. generalize (map_to_list (sessionNotices (others d))).*2. intros l.
  induction l as [|n l IH]; [done|]. rewrite filter_cons. simpl. intros [Hn Hnd]%NoDup_cons.
  case_decide; [|by apply IH]. simpl. apply NoDup_cons. split; [|by apply IH].
  intros (m & E & Hm)%list_elem_of_fmap. apply list_elem_of_filter in Hm as [_ Hm].
  apply Hn, list_elem_of_fmap. eauto.
Qed.

(** What a drain does: every pending notice, once. *)
Lemma drain_spec c sid d :
  noticesKeyed d → is_Some (sessions (others d) !! sid) →
  ∃ d', DrainSessionNotices c sid d = (d', Ok (noticeDelivered (now c) <$> pendingNotices sid d)) ∧
    (∀ n, n ∈ pendingNotices sid d →
       sessionNotices (others d') !! sn_ID n = Some (noticeDelivered (now c) n)) ∧
    (∀ id, id ∉ sn_ID <$> pendingNotices sid d →
       sessionNotices (others d') !! id = sessionNotices (others d) !! id) ∧
    sessions (others d') = sessions (others d) ∧ noticesKeyed d'.
Proof.
  intros Hk [s Hs].
  destruct (deliver_all c sid (pendingNotices sid d) d) as (d' & E & H1 & H2 & H3).
  - intros n. by rewrite elem_of_pending.
  - by apply pending_NoDup.
  - exists d'. split_and!; try done.
    + unfold DrainSessionNotices, transaction.
      match goal with |- context [match ?m d with _ => _ end] =>
        assert (m d = Ok (noticeDelivered (now c) <$> pendingNotices sid d, d')) as -> end; [|done].
      eapply tx_then; [unfold findSessionWithQuery, reads; by rewrite Hs|].
      eapply tx_then; [reflexivity|]. exact E.
    + intros id n Hn. destruct (decide (id ∈ sn_ID <$> pendingNotices sid d)) as [Hin|Hin].
      * apply list_elem_of_fmap in Hin as (m & -> & Hm). rewrite H1 in Hn by done.
        injection Hn as <-. by destruct m.
      * rewrite H2 in Hn by done. by apply Hk.
Qed.

(** ** The lineage of a wake *)

Definition parentOf (d : db) (e e' : Execution) : Prop :=
  ∃ id, ex_ParentExecutionID e = Some id ∧
    firstRow ex_SessionID (executions d) (ex_SessionID e) id = Ok e'.

(** The execution is stored, and so are the ones seen, each once. *)
Definition storedIDs (d : db) : list uuid := ex_ID <$> (map_to_list (executions d)).*2.

Lemma storedIDs_length d : length (storedIDs d) = size (executions d).
Proof. unfold storedIDs. by rewrite !length_fmap, length_map_to_list. Qed.

Lemma stored_id d id e : executions d !! id = Some e → ex_ID e ∈ storedIDs d.
Proof.
  intros He. unfold storedIDs. apply list_elem_of_fmap. exists e. split; [done|].
  apply list_elem_of_fmap. exists (id, e). split; [done|]. by apply elem_of_map_to_list.
Qed.

Lemma reads_eq {A} (f : db → outcome A) d r :
  f d = r → reads f d = match r with Ok a => Ok (a, d) | Err e => Err e | Panic => Panic
                        | OutOfFuel => OutOfFuel end.
Proof. intros <-. unfold reads. by destruct (f d). Qed.

Lemma tx_bind_fuel {A B} (m : tx A) (f : A → tx B) d :
  (m ≫= f) d = OutOfFuel → m d = OutOfFuel ∨ ∃ a d', m d = Ok (a, d') ∧ f a d' = OutOfFuel.
Proof. unfold mbind, tx_bind. destruct (m d) as [[a d']| | |]; intros; eauto; done. Qed.

Lemma refuseIf_fuel b e d : refuseIf b e d ≠ OutOfFuel.
Proof. unfold refuseIf, reads. by destruct b. Qed.

Lemma lineage_fuel d fuel seen e :
  NoDup seen → seen ⊆ storedIDs d → ex_ID e ∈ storedIDs d →
  size (executions d) < length seen + fuel →
  validateWakeExecutionLineage fuel seen e d ≠ OutOfFuel.
Proof.
  revert seen e. induction fuel as [|fuel IH]; intros seen e Hnd Hsub He Hlt E; simpl in E.
  - apply NoDup_submseteq in Hsub; [|done]. apply submseteq_length in Hsub.
    rewrite storedIDs_length in Hsub. lia.
  - apply tx_bind_fuel in E as [E|(u & d1 & Hg & E)]; [by apply refuseIf_fuel in E|].
    apply refuseIf_Ok in Hg as [Hg%bool_decide_eq_false ->].
    apply tx_bind_fuel in E as [E|(u' & d1 & Hp & E)]; [by apply refuseIf_fuel in E|].
    apply refuseIf_Ok in Hp as [_ ->].
    destruct (ex_ParentExecutionID e) as [id|]; [|done].
    apply tx_bind_fuel in E as [E|(p & d1 & Hf & E)].
    + unfold findExecution, reads, firstRow in E. repeat case_match; done.
    + apply findExecution_Ok in Hf as (Hrow & _ & ->). revert E. apply IH.
      * by constructor.
      * intros x [->|Hx]%elem_of_cons; [done|by apply Hsub].
      * by eapply stored_id.
      * simpl. lia.
Qed.

Lemma lineage_running d fuel seen e :
  validateWakeExecutionLineage fuel seen e d = Ok (tt, d) →
  ∀ e', rtc (parentOf d) e e' → ex_State e' ≠ ExecutionStatePaused.
Proof.
  revert seen e. induction fuel as [|fuel IH]; intros seen e E e' Hr; simpl in E; [done|].
  apply tx_bind_Ok in E as (u & d1 & Hg & E). apply refuseIf_Ok in Hg as [_ ->].
  apply tx_bind_Ok in E as (u' & d1 & Hp & E).
  apply refuseIf_Ok in Hp as [Hp%bool_decide_eq_false ->].
  destruct Hr as [e|e p e' (id & Hid & Hf) Hr]; [done|]. rewrite Hid in E.
  apply tx_bind_Ok in E as (p' & d1 & Hf' & E). unfold findExecution in Hf'.
  apply reads_Ok in Hf' as [Hf' ->]. rewrite Hf in Hf'. injection Hf' as <-. by eapply IH.
Qed.

Lemma wakeExecutions_fuel d l :
  (∀ e, e ∈ l → ex_ID e ∈ storedIDs d) → validateWakeExecutions l d ≠ OutOfFuel.
Proof.
  induction l as [|e l IH]; intros Hl E; simpl in E; [done|].
  apply tx_bind_fuel in E as [E|(fuel & d1 & Hf & E)]; [done|]. injection Hf as <- <-.
  apply tx_bind_fuel in E as [E|(u & d1 & Hv & E)].
  - revert E. apply lineage_fuel; [constructor|set_solver|apply Hl; by left|]. unfold lineageFuel. simpl. lia.
  - apply reading_validateLineage in Hv as <-. revert E. apply IH. set_solver.
Qed.

Lemma wakeExecutions_running d l :
  validateWakeExecutions l d = Ok (tt, d) →
  ∀ e, e ∈ l → ∀ e', rtc (parentOf d) e e' → ex_State e' ≠ ExecutionStatePaused.
Proof.
  induction l as [|e l IH]; intros E x Hx; simpl in E; [by apply not_elem_of_nil in Hx|].
  apply tx_bind_Ok in E as (fuel & d1 & Hf & E). injection Hf as _ <-.
  apply tx_bind_Ok in E as (u & d1 & Hv & E). pose proof Hv as Hr.
  apply reading_validateLineage in Hr as <-. destruct u.
  apply elem_of_cons in Hx as [->|Hx]; [by eapply lineage_running|by apply IH].
Qed.

Lemma elem_of_executionsWhere (P : Execution → Prop) `{∀ e, Decision (P e)} d e :
  e ∈ executionsWhere P d ↔ P e ∧ ∃ id, executions d !! id = Some e.
Proof.
  unfold executionsWhere. rewrite list_elem_of_filter. split; intros [Hp He]; split; try done.
  - apply list_elem_of_fmap in He as ([id x] & -> & Hx). exists id. by apply elem_of_map_to_list.
  - destruct He as [id He]. apply list_elem_of_fmap. exists (id, e). split; [done|].
    by apply elem_of_map_to_list.
Qed.

(** ** What an admitted wake promises *)

(** No execution selected by [P], nor any of its ancestors, is paused. *)
Definition unpaused (d : db) (P : Execution → Prop) : Prop :=
  ∀ id e e', executions d !! id = Some e → P e → rtc (parentOf d) e e' →
    ex_State e' ≠ ExecutionStatePaused.

(** The turn was not stopped, and neither were the roots of its work. *)
Definition turnLive (d : db) (sid turnID : uuid) : Prop :=
  ∃ t, turns (others d) !! turnID = Some t ∧ tu_SessionID t = sid ∧
    tu_CancelRequested t = false ∧ tu_State t ≠ TurnStateCancelled ∧
    unpaused d (λ e, ex_SessionID e = sid ∧ ex_RootTurnID e = turnID ∧ ex_Kind e = ExecutionKindRoot).

(** The run was not stopped, and neither were its turn and its executions. *)
Definition runLive (d : db) (sid run : uuid) : Prop :=
  ∃ row, agentRuns (others d) !! run = Some row ∧ ar_SessionID row = sid ∧
    ar_CancelRequested row = false ∧ ar_State row ≠ AgentRunStateCancelled ∧
    turnLive d sid (ar_ParentTurnID row) ∧
    unpaused d (λ e, ex_SessionID e = sid ∧ ex_AgentRunID e = Some run).

Definition launchedBy (d : db) (sid run parent : uuid) : Prop :=
  ∃ row, agentRuns (others d) !! run = Some row ∧ ar_SessionID row = sid ∧
    ar_ParentAgentRunID row = Some parent.

Lemma wakeTurn_live d sid turnID :
  validateWakeTurn sid turnID d = Ok (tt, d) → turnLive d sid turnID.
Proof.
  unfold validateWakeTurn, findWakeTurn. intros E.
  apply tx_bind_Ok in E as (t & d1 & Ht & E). apply reads_Ok in Ht as [Ht ->].
  apply firstRow_Ok in Ht as [Ht Hs]. apply tx_bind_Ok in E as (u & d1 & Hg & E).
  apply refuseIf_Ok in Hg as [[Hc Hst%bool_decide_eq_false]%orb_false_iff ->].
  apply tx_bind_Ok in E as (roots & d1 & Hr & E). apply reads_Ok in Hr as [[= <-] ->].
  exists t. split_and!; try done. intros id e e' He Hp. eapply wakeExecutions_running; [exact E|].
  apply elem_of_executionsWhere. eauto.
Qed.

Lemma wakeTurn_fuel d sid turnID : validateWakeTurn sid turnID d ≠ OutOfFuel.
Proof.
  unfold validateWakeTurn, findWakeTurn. intros E.
  apply tx_bind_fuel in E as [E|(t & d1 & Ht & E)].
  { unfold reads, firstRow in E. repeat case_match; done. }
  apply reads_Ok in Ht as [_ ->].
  apply tx_bind_fuel in E as [E|(u & d1 & Hg & E)]; [by apply refuseIf_fuel in E|].
  apply refuseIf_Ok in Hg as [_ ->].
  apply tx_bind_fuel in E as [E|(roots & d1 & Hr & E)]; [done|]. injection Hr as <- <-.
  revert E. apply wakeExecutions_fuel. intros e He. apply elem_of_executionsWhere in He as [_ [id He]].
  by eapply stored_id.
Qed.

Lemma agentLineage_live fuel c seen sid run d :
  validateAgentWakeLineage fuel c seen sid run d = Ok (tt, d) →
  ∀ run', rtc (launchedBy d sid) run run' → runLive d sid run'.
Proof.
  revert seen run. induction fuel as [|fuel IH]; intros seen run E run' Hr; simpl in E; [done|].
  apply tx_bind_Ok in E as (u & d1 & Hg & E). apply refuseIf_Ok in Hg as [_ ->].
  apply tx_bind_Ok in E as (row & d1 & Hrow & E). apply findAgentRun_Ok in Hrow as (-> & Hrow & Hs).
  apply tx_bind_Ok in E as (u' & d1 & Hg & E).
  apply refuseIf_Ok in Hg as [[Hc Hst%bool_decide_eq_false]%orb_false_iff ->].
  apply tx_bind_Ok in E as ([] & d1 & Ht & E). pose proof Ht as Hq. apply reading_wakeTurn in Hq as <-.
  apply wakeTurn_live in Ht.
  apply tx_bind_Ok in E as ([] & d1 & He & E). unfold validateAgentWakeExecutions in He.
  apply tx_bind_Ok in He as (l & d2 & Hl & He). apply reads_Ok in Hl as [[= <-] ->].
  pose proof He as Hq. apply reading_wakeExecutions in Hq as <-.
  destruct Hr as [run|run parent run' (row' & Hrow' & _ & Hpar) Hr].
  - exists row. split_and!; try done. intros id e e' Hid Hp.
    eapply wakeExecutions_running; [exact He|]. apply elem_of_executionsWhere. rewrite Hs. eauto.
  - rewrite Hrow in Hrow'. injection Hrow' as <-. rewrite Hpar in E. by eapply IH.
Qed.

Lemma agentLineage_fuel fuel c seen sid run d :
  NoDup seen → seen ⊆ (map_to_list (agentRuns (others d))).*1 →
  size (agentRuns (others d)) < length seen + fuel →
  validateAgentWakeLineage fuel c seen sid run d ≠ OutOfFuel.
Proof.
  revert seen run. induction fuel as [|fuel IH]; intros seen run Hnd Hsub Hlt E; simpl in E.
  - apply NoDup_submseteq in Hsub; [|done]. apply submseteq_length in Hsub.
    rewrite length_fmap, length_map_to_list in Hsub. lia.
  - apply tx_bind_fuel in E as [E|(u & d1 & Hg & E)]; [by apply refuseIf_fuel in E|].
    apply refuseIf_Ok in Hg as [Hg%bool_decide_eq_false ->].
    apply tx_bind_fuel in E as [E|(row & d1 & Hrow & E)].
    { unfold findAgentRun in E. apply tx_bind_fuel in E as [E|(r & d1 & Hr & E)].
      - unfold reads, firstRow in E. repeat case_match; done.
      - apply tx_bind_fuel in E as [E|(? & ? & _ & E)]; [|done].
        unfold check, reads, requireAgentRunOwner in E. repeat case_match; done. }
    apply findAgentRun_Ok in Hrow as (-> & Hrow & Hs).
    apply tx_bind_fuel in E as [E|(u' & d1 & Hg' & E)]; [by apply refuseIf_fuel in E|].
    apply refuseIf_Ok in Hg' as [_ ->].
    apply tx_bind_fuel in E as [E|([] & d1 & Ht & E)]; [by apply wakeTurn_fuel in E|].
    apply reading_wakeTurn in Ht as <-.
    apply tx_bind_fuel in E as [E|([] & d1 & He & E)].
    { unfold validateAgentWakeExecutions in E. apply tx_bind_fuel in E as [E|(l & d2 & Hl & E)]; [done|].
      injection Hl as <- <-. revert E. apply wakeExecutions_fuel. intros e He.
      apply elem_of_executionsWhere in He as [_ [id He]]. by eapply stored_id. }
    unfold validateAgentWakeExecutions in He. apply tx_bind_Ok in He as (l & d2 & Hl & He).
    apply reads_Ok in Hl as [_ ->]. apply reading_wakeExecutions in He as <-.
    destruct (ar_ParentAgentRunID row) as [parent|]; [|done]. revert E. apply IH.
    + by constructor.
    + intros x [->|Hx]%elem_of_cons; [|by apply Hsub].
      apply list_elem_of_fmap. exists (run, row). split; [done|]. by apply elem_of_map_to_list.
    + simpl. lia.
Qed.

End WakeRules.
