(* ===== verification/EndRules.v ===== *)
(** The end of a turn, statement by statement: the frame, the notice and the
    system message, each with its number; and which of them touch the turns. *)
From stdpp Require Import base gmap sets list list_numbers strings sorting.
From Stdlib Require Import ZArith Lia Ascii Sorted.
From S2P Require Import Prelude GoBytes Json Executions ExecutionControl Activities ExecutionSteps TxRules Transcripts TranscriptRules Inbox Deferral InboxRules Feed FeedRules FeedGrowth Notices ChildRuns TurnEnd Turns TurnSteps FeedSteps.

Module EndRules.
Import Executions ExecutionControl Activities TxRules Transcripts TranscriptRules Inbox Deferral Feed FeedRules FeedGrowth Notices TurnEnd Turns TurnSteps FeedSteps.

(** ** Tables that a broadcast leaves alone *)

Definition sameRows (d d' : db) : Prop :=
  messages (others d') = messages (others d) ∧ feedEvents (others d') = feedEvents (others d) ∧
  sessions (others d') = sessions (others d) ∧
  sessionNotices (others d') = sessionNotices (others d) ∧ turns (others d') = turns (others d).

#[export] Instance sameRows_refl : Reflexive sameRows.
Proof. done. Qed.
#[export] Instance sameRows_trans : Transitive sameRows.
Proof. intros a b c (? & ? & ? & ? & ?) (? & ? & ? & ? & ?). split_and!; congruence. Qed.

Lemma sameRows_calm {A} (m : tx A) : ensures calm m → ensures sameRows m.
Proof.
  apply ensures_weaken. intros d d' [_ E _]. unfold messageTables in E. injection E. intros.
  by split_and!.
Qed.

Lemma sameRows_createInbox m : ensures sameRows (createInboxMessage m).
Proof. intros d u d'. unfold createInboxMessage. by_cases. Qed.
Lemma sameRows_storeImages p : ensures sameRows (storeImages p).
Proof. by intros d u d' [= _ <-]. Qed.
#[export] Hint Resolve sameRows_createInbox sameRows_storeImages : calm.
#[export] Hint Extern 2 (ensures sameRows (appendExecutionEvent _ _ _ _)) =>
  apply sameRows_calm, calm_append : calm.

Section store.
Variable maxStoredMessageBytes : Z.
Variable Sum256 : bytes → bytes.
Context `{ImageCodec, InboxCodec, NoticeCodec, TurnCodec}.

Lemma sameRows_broadcast c drawn notice text :
  ensures sameRows (broadcastNoticeToChildren c drawn notice text).
Proof.
  unfold broadcastNoticeToChildren. calm_steps.
  match goal with |- ensures _ (queueChildNotices _ _ _ _ ?l) => induction l as [|e l IH] end;
    simpl; [calm_steps|].
  unfold queueChildNotice, nextInboxSequence, recordChildInboxAcceptance, deref. calm_steps.
Qed.

(** ** One row each *)

Lemma appendEvents_one c lease input d u d' :
  feedBounded d → appendEvents c lease [input] d = Ok (u, d') →
  let sid := ls_SessionID lease in
  ∃ e, feedEvents (others d') = feedEvents (others d) ++ [e] ∧
    fe_SessionID e = sid ∧ fe_TurnID e = ls_TurnID lease ∧ fe_EventType e = ei_EventType input ∧
    fe_PayloadJSON e = ei_PayloadJSON input ∧ fe_RequestID e = ei_RequestID input ∧
    fe_FeedSequence e = (feedHead d sid + 1)%Z ∧ feedHead d' sid = (feedHead d sid + 1)%Z ∧
    messages (others d') = messages (others d) ∧ turns (others d') = turns (others d) ∧
    sessionNotices (others d') = sessionNotices (others d) ∧
    ∀ x, messageCount x d' = messageCount x d.
Proof.
  intros Hd E sid. unfold appendEvents in E. rewrite bool_decide_eq_false_2 in E by done.
  apply tx_bind_Ok in E as (n & d1 & Hn & E). apply reads_Ok in Hn as [_ ->].
  apply tx_bind_Ok in E as (first & d1 & Hf & E).
  apply allocate_Ok in Hf as (s & Hs & -> & Hfirst); [|done]. fold sid in Hs.
  apply tx_bind_Ok in E as (rows & d1 & Hb & E). apply reads_Ok in Hb as [Hb ->].
  simpl in Hb. case_if; [done|]. injection Hb as <-.
  pose proof E as Hpos. apply createEvents_Ok in Hpos as (_ & _ & _ & Hpos).
  apply createEvents_set in E as ->. eexists. split; [done|].
  destruct (Hpos _ (list_elem_of_here _ _)) as [_ Hpf]. simpl in Hpf |- *.
  rewrite Z.add_0_r in *. assert (wrap64 first = first) as Ewr by (rewrite Hfirst; apply wrap64_id, wrap64_range).
  rewrite Ewr in *. destruct (allocated_one d sid s first) as [-> _]; [done..|].
  split_and!; try done.
  - etrans; [exact (head_allocated d sid s 1 Hs sid)|]. by rewrite decide_True.
  - intros x. apply counter_same. by intros [].
Qed.

(** A notice takes the next number of the feed; copies for children touch no
    row of the session. *)
Lemma createNotice_Ok c drawn sid input d n d' :
  feedBounded d → createSessionNoticeWithQuery c drawn sid input d = Ok (n, d') →
  sessionNotices (others d) !! ni_ID input = None ∧
  sessionNotices (others d') = <[ni_ID input := n]> (sessionNotices (others d)) ∧
  sn_ID n = ni_ID input ∧ sn_SessionID n = sid ∧ sn_State n = NoticeStatePending ∧
  sn_Type n = ni_Type input ∧ sn_DataJSON n = ni_DataJSON input ∧ sn_Delivery n = ni_Delivery input ∧
  sn_FeedSequence n = (feedHead d sid + 1)%Z ∧ feedHead d' sid = (feedHead d sid + 1)%Z ∧
  messages (others d') = messages (others d) ∧ feedEvents (others d') = feedEvents (others d) ∧
  turns (others d') = turns (others d) ∧
  ∀ x, messageCount x d' = messageCount x d.
Proof.
  intros Hd E. unfold createSessionNoticeWithQuery in E.
  apply tx_bind_Ok in E as (s0 & d1 & Hs0 & E). unfold findSessionWithQuery in Hs0.
  apply reads_Ok in Hs0 as [_ ->].
  apply tx_bind_Ok in E as (sequence & d1 & Hq & E). apply reads_Ok in Hq as [_ ->].
  apply tx_bind_Ok in E as (first & d1 & Hf & E).
  apply allocate_Ok in Hf as (s & Hs & -> & Hfirst); [|done].
  apply tx_bind_Ok in E as (u & d1 & Hc & E). apply createNoticeRow_Ok in Hc as (Hpos & -> & Hfresh).
  apply tx_bind_Ok in E as (u' & d2 & Hb & E). injection E as <- <-.
  apply sameRows_broadcast in Hb as (E1 & E2 & E3 & E4 & E5). simpl in *.
  destruct (allocated_one d sid s first) as [-> _]; [done..|].
  split_and!; try done.
  - apply Hfresh. by destruct Hd as [_ Hk].
  - etrans; [|etrans; [exact (head_allocated d sid s 1 Hs sid)|by rewrite decide_True]].
    unfold feedHead. by rewrite E3.
  - intros x. unfold messageCount. rewrite E3. simpl.
    destruct (decide (x = sid)) as [->|]; [|by rewrite lookup_alter_ne].
    rewrite lookup_alter_eq, Hs. by destruct s.
Qed.

(** Appending messages writes messages only. *)
Lemma createMessages_set rows d u d' :
  createMessages rows d = Ok (u, d') →
  d' = setOthers (λ o, withMessages (messages o ++ rows) o) d.
Proof.
  revert d. induction rows as [|m rows IH]; intros d E; simpl in E.
  - injection E as _ <-. destruct d as [x a l []]. unfold setOthers, withMessages. simpl.
    by rewrite app_nil_r.
  - case_if; [done|]. case_bool_decide; [done|]. apply IH in E as ->.
    unfold setOthers, withMessages. simpl. by rewrite <-app_assoc.
Qed.

Definition onlyMessages (d d' : db) : Prop :=
  feedEvents (others d') = feedEvents (others d) ∧ sessions (others d') = sessions (others d) ∧
  sessionNotices (others d') = sessionNotices (others d) ∧ turns (others d') = turns (others d).
#[local] Instance onlyMessages_refl : Reflexive onlyMessages.
Proof. done. Qed.
#[local] Instance onlyMessages_trans : Transitive onlyMessages.
Proof. intros a b c (? & ? & ? & ?) (? & ? & ? & ?). split_and!; congruence. Qed.

Lemma appendMessages_only c lease n ws inputs :
  ensures onlyMessages (appendMessages maxStoredMessageBytes Sum256 c lease n ws inputs).
Proof.
  assert (∀ rows, ensures onlyMessages (createMessages rows)) as Hcreate.
  { by intros rows d u d' ->%createMessages_set. }
  assert (∀ p, ensures onlyMessages (storeImages p)) as Himages by (by intros p d u d' [= _ <-]).
  assert (∀ i, ensures onlyMessages
    (newMessages maxStoredMessageBytes Sum256 c lease n i ws inputs)) as Hnew.
  { induction inputs as [|input inputs IH]; intros i; simpl;
      unfold transcriptImagesJSON, encodeMessageImages; calm_steps. }
  unfold appendMessages. calm_steps.
Qed.

(** The system message is the next message of the session. *)
Lemma endMessage_Ok c ended d u d' turn :
  text_inv d → turns (others d) !! tn_TurnID ended = Some turn →
  appendTurnEndMessage maxStoredMessageBytes Sum256 c ended d = Ok (u, d') →
  ∃ m, messages (others d') = messages (others d) ++ [m] ∧
    ms_SessionID m = tu_SessionID turn ∧ ms_TurnID m = tn_TurnID ended ∧
    ms_Role m = MessageRoleSystem ∧ ms_Content m = renderTurnEndMessage ended ∧
    ms_Sequence m = (messageCount (tu_SessionID turn) d + 1)%Z ∧
    turns (others d') = turns (others d) ∧ feedEvents (others d') = feedEvents (others d) ∧
    sessionNotices (others d') = sessionNotices (others d) ∧
    ∀ x, feedHead d' x = feedHead d x.
Proof.
  intros [Hi _] Ht E. unfold appendTurnEndMessage in E.
  apply tx_bind_Ok in E as (t & d1 & Hf & E). apply reads_Ok in Hf as [Hf ->].
  rewrite Ht in Hf. injection Hf as <-.
  apply tx_bind_Ok in E as (s & d1 & Hs & E). unfold findSessionWithQuery in Hs.
  apply reads_Ok in Hs as [Hs ->].
  destruct (sessions (others d) !! tu_SessionID turn) as [s0|] eqn:Es; [|done]. injection Hs as ->.
  apply tx_bind_Ok in E as (r & d1 & Hr & E). injection E as _ <-.
  pose proof Hr as Honly. apply appendMessages_only in Honly as (E1 & E2 & E3 & E4).
  apply appendMessages_Ok in Hr as (rows & E0 & _ & _ & HF & Hcnt & Hseq).
  apply Forall2_cons_inv_l in HF as (m & rest & (Hsid & Hturn & Hrole & Hcontent & _) & HF & ->).
  apply Forall2_nil_inv_l in HF as ->. destruct (Hseq 0 m eq_refl) as [Hm Hpos].
  pose proof (ti_count _ Hi (tu_SessionID turn)) as Hbound.
  assert (messageCount (tu_SessionID turn) d = se_MessageCount s) as Hmc
    by (unfold messageCount; by rewrite Es).
  rewrite Hmc in Hbound |- *.
  assert (se_MessageCount s + 1 ≤ max_int64)%Z as Hfit.
  { apply (wrap_positive _ 1); [done|]. intros i Hlt. assert (i = 0) as -> by lia. by rewrite <-Hm. }
  rewrite Z.add_0_r, wrap64_id in Hm by (unfold min_int64; lia).
  exists m. split_and!; try done.
  intros x. unfold feedHead. simpl. rewrite E2.
  destruct (decide (x = tu_SessionID turn)) as [->|]; [|by rewrite lookup_alter_ne].
  rewrite lookup_alter_eq, Es. by destruct s.
Qed.

(** ** Statements that leave the turns, and the count of completed ones *)

Definition completedCount (d : db) (sid : uuid) : Z :=
  from_option se_CompletedTurnCount 0%Z (sessions (others d) !! sid).

Definition sameEnds (d d' : db) : Prop :=
  turns (others d') = turns (others d) ∧ ∀ sid, completedCount d' sid = completedCount d sid.

#[local] Instance sameEnds_refl : Reflexive sameEnds.
Proof. done. Qed.
#[local] Instance sameEnds_trans : Transitive sameEnds.
Proof. intros a b c [E1 F1] [E2 F2]. split; [congruence|]. intros sid. by rewrite F2, F1. Qed.

Lemma ends_same d d' :
  turns (others d') = turns (others d) → sessions (others d') = sessions (others d) → sameEnds d d'.
Proof. intros E1 E2. split; [done|]. intros sid. unfold completedCount. by rewrite E2. Qed.

Lemma ends_session sid f :
  (∀ s, se_CompletedTurnCount (f s) = se_CompletedTurnCount s) → ensures sameEnds (updateSession sid f).
Proof.
  intros Hf d u d' [= _ <-]. split; [done|]. intros x. unfold completedCount. simpl.
  by apply counter_same.
Qed.
Lemma ends_count sid n at_ : ensures sameEnds (updateSession sid (countMessages n at_)).
Proof. apply ends_session. by intros []. Qed.
Lemma ends_messages c lease n ws inputs :
  ensures sameEnds (appendMessages maxStoredMessageBytes Sum256 c lease n ws inputs).
Proof. intros d r d' (_ & ? & _ & ?)%appendMessages_only. by apply ends_same. Qed.
Lemma ends_createEvents rows : ensures sameEnds (createEvents rows).
Proof. by intros d u d' ->%createEvents_set. Qed.
Lemma ends_createNotice n : ensures sameEnds (createNoticeRow n).
Proof. by intros d u d' (_ & -> & _)%createNoticeRow_Ok. Qed.
Lemma ends_broadcast c drawn n text : ensures sameEnds (broadcastNoticeToChildren c drawn n text).
Proof. intros d u d' (_ & _ & ? & _ & ?)%sameRows_broadcast. by apply ends_same. Qed.
Lemma ends_updateMessages f : ensures sameEnds (updateMessages f).
Proof. by intros d u d' [= _ <-]. Qed.
Lemma ends_openings lease l : ensures sameEnds (recordTurnOpeningNotices lease l).
Proof. by intros d u d' [all ->]%openings_set. Qed.
Lemma ends_reading {A} (m : tx A) : ensures eq m → ensures sameEnds m.
Proof. intros Hm d a d' E. by rewrite (Hm _ _ _ E). Qed.
Lemma ends_deliver c sid l : ensures sameEnds (deliverPendingNotices c sid l).
Proof.
  induction l as [|n l IH]; [apply ensures_ret, _|].
  intros d r d' (row & rest & _ & _ & _ & _ & E)%deliver_cons. by apply IH in E.
Qed.
#[local] Hint Resolve ends_count ends_messages ends_createEvents ends_createNotice ends_broadcast
  ends_updateMessages ends_openings ends_deliver : calm.

Lemma ends_allocate sid n : ensures sameEnds (allocateFeedSequences sid n).
Proof.
  unfold allocateFeedSequences, findSessionWithQuery. case_if; [apply ensures_ret, _|].
  calm_steps. apply ends_session. by intros [].
Qed.
#[local] Hint Resolve ends_allocate : calm.

Lemma ends_events c lease inputs : ensures sameEnds (appendEvents c lease inputs).
Proof. unfold appendEvents. calm_steps. Qed.
#[local] Hint Resolve ends_events : calm.

Lemma ends_append c lease ms es :
  ensures sameEnds (appendTranscript maxStoredMessageBytes Sum256 c lease ms es).
Proof. unfold appendTranscript, findSessionWithQuery, findRunningTurn. calm_steps. Qed.

Lemma ends_record c nid drawn sid data :
  ensures sameEnds (recordTurnEndNotice maxStoredMessageBytes Sum256 c nid drawn sid data).
Proof.
  unfold recordTurnEndNotice, saveTurnEndNotice, createSessionNoticeWithQuery, appendTurnEndMessage,
    findSessionWithQuery. calm_steps.
Qed.

Lemma ends_deliverOpening c lease ids wake :
  ensures sameEnds (deliverOpeningNotices c lease ids wake).
Proof.
  unfold deliverOpeningNotices. case_if; [apply ensures_ret, _|].
  apply ensures_bind; [apply _|apply ends_reading, reading_openings|intros notices].
  apply ensures_bind; [apply _|apply ends_reading, reading_wake|intros _]. calm_steps.
Qed.

End store.
End EndRules.
