(* ===== verification/FeedPromises.v ===== *)
(** What the feed of a session promises: its numbers, its pages, and the pump
    that carries them to live clients, with the two schedules in which the pump
    skips a row. *)
From stdpp Require Import base gmap sets list list_numbers strings sorting.
From Stdlib Require Import ZArith Lia Ascii.
From S2P Require Import Prelude GoBytes Json Executions ExecutionControl Activities ExecutionSteps TxRules Transcripts TranscriptRules Inbox Deferral InboxRules InboxSteps InboxTheorems StoreSteps TextSteps Feed FeedRules FeedPump FeedGrowth FeedPumpRules FeedDrain Notices ChildRuns TurnEnd Turns TurnSteps FeedSteps TurnRules.

Module FeedPromises.
Import Executions ExecutionControl Activities ExecutionSteps TxRules Transcripts TranscriptRules Inbox Deferral InboxTheorems StoreSteps TextSteps Feed FeedRules FeedPump FeedGrowth FeedPumpRules FeedDrain Notices ChildRuns TurnEnd Turns TurnSteps FeedSteps TurnRules.

Section store.
Variables maxExecutionStateBytes maxStoredMessageBytes : Z.
Variable Sum256 : bytes → bytes.
Variable marshalResolution : ResolveActivityInput → bytes.
Variable finishDecisionHash : CompleteActivityInput → bytes.
Context `{ImageCodec, InboxCodec, NoticeCodec, ChildCodec, TurnCodec}.
Local Abbreviation store_reachable := (store_reachable maxExecutionStateBytes maxStoredMessageBytes
  Sum256 marshalResolution finishDecisionHash).
Local Abbreviation store_step := (store_step maxExecutionStateBytes maxStoredMessageBytes
  Sum256 marshalResolution finishDecisionHash).
Local Abbreviation commits := (commits maxExecutionStateBytes maxStoredMessageBytes
  Sum256 marshalResolution finishDecisionHash).

(** What one step keeps, every reachable store has. *)
Lemma reachable_kept (R : relation db) `{!KeptRecords R} s : store_reachable s → R (st_db emptyStore) (st_db s).
Proof.
  unfold TurnSteps.store_reachable. generalize emptyStore.
  induction 1 as [s|x y z Hxy _ IH]; [reflexivity|]. etrans; [|exact IH].
  by eapply kept_store_step; [apply _|].
Qed.

Lemma empty_text : text_inv (st_db emptyStore).
Proof.
  split; split; intros sid; unfold messageCount, TranscriptRules.feedHead, messagesOf, eventsOf; simpl;
    rewrite ?lookup_empty; try done; [constructor|by intros e ?%not_elem_of_nil].
Qed.

(** ** Numbers *)

(** C4: In every state that the operations of the store reach, the messages and the events
    of a session are numbered 1, 2, ... without gap and the message count is their number;
    the events, the events of children and the notices of the session share the numbers 1,
    2, ..., head of its feed, each used once. *)
Theorem store_numbered s sid :
  store_reachable s →
  let d := st_db s in
  ms_Sequence <$> messagesOf sid d = seqZ 1 (messageCount sid d) ∧
  fe_Sequence <$> eventsOf sid d = seqZ 1 (Z.of_nat (length (eventsOf sid d))) ∧
  numbers (feedRows d sid) ≡ₚ seqZ 1 (feedHead d sid) ∧
  (0 ≤ feedHead d sid ≤ max_int64)%Z.
Proof.
  intros Hr. pose proof (reachable_kept textKept s Hr empty_text) as [[_ Hm] [_ He _ _ _]].
  pose proof (reachable_contiguous _ _ _ _ _ _ Hr) as [Hc Hmax _]. destruct (Hc sid) as [Hz Hp].
  by split_and!.
Qed.

(** ** Pages *)

Lemma after_numbers d sid cursor :
  feedContiguous d → (0 ≤ cursor)%Z →
  numbers (after cursor (pageRows (allAt d) sid)) =
    seqZ (cursor + 1) (Z.max 0 (feedHead d sid - cursor)).
Proof.
  intros Hc Hcur. change (pageRows (allAt d) sid) with (feedRows d sid).
  destruct (Z_le_gt_dec cursor (feedHead d sid)) as [Hle|Hgt].
  - rewrite after_contiguous by (done || by apply fc_at). f_equal. lia.
  - rewrite seqZ_nil by lia. apply Permutation_nil. symmetry. rewrite numbers_after.
    destruct (fc_at _ Hc sid) as [_ Hp]. rewrite Hp, filter_no; [done|].
    apply Forall_forall. intros n Hn%elem_of_seqZ. lia.
Qed.

(** C18: A page of the feed of a reachable store holds exactly the next [limit] numbers after
    the cursor, in order, each with the row of that number; its cursor, its flag for more
    and its head agree with the numbers left. A cursor or limit out of range and an unknown
    session are refused. *)
Theorem ListFeed_page s sid cursor limit :
  store_reachable s →
  let d := st_db s in
  if (cursor <? 0)%Z || (limit <? 1)%Z || (MaximumFeedLimit <? limit)%Z
  then ListFeed d sid cursor limit = Err ErrValidationFailed
  else match sessions (others d) !! sid with
  | None => ListFeed d sid cursor limit = Err ErrNotFound
  | Some session =>
      let left := Z.max 0 (feedHead d sid - cursor) in
      ∃ page, ListFeed d sid cursor limit = Ok page ∧
        numbers (pg_Items page) = seqZ (cursor + 1) (Z.min limit left) ∧
        Forall (λ i, ∃ row, row ∈ feedRows d sid ∧ i = attachParent d sid row) (pg_Items page) ∧
        pg_NextCursor page = (cursor + Z.min limit left)%Z ∧
        pg_HasMore page = bool_decide (limit < left)%Z ∧ pg_Head page = feedHead d sid
  end.
Proof.
  intros Hr d. pose proof (reachable_contiguous _ _ _ _ _ _ Hr) as Hc. fold d in Hc.
  destruct ((cursor <? 0)%Z || (limit <? 1)%Z || (MaximumFeedLimit <? limit)%Z) eqn:Hbad.
  { unfold ListFeed, readFeedPage, normalizeFeedPage.
    destruct (cursor <? 0)%Z; [done|]. simpl in Hbad. by rewrite Hbad. }
  apply orb_false_iff in Hbad as [[Hcur%Z.ltb_ge Hl%Z.ltb_ge]%orb_false_iff Hmax%Z.ltb_ge].
  destruct (sessions (others d) !! sid) as [session|] eqn:Es.
  2: { unfold ListFeed, readFeedPage, normalizeFeedPage, findSession. simpl.
       rewrite (proj2 (Z.ltb_ge _ _) Hcur), (proj2 (Z.ltb_ge _ _) Hl), (proj2 (Z.ltb_ge _ _) Hmax).
       simpl. by rewrite Es. }
  intros left. exists (pageOf (allAt d) sid cursor limit (se_FeedSequence session)).
  pose proof (after_numbers d sid cursor Hc Hcur) as Ha. fold left in Ha.
  assert (numbers (pageItems (allAt d) sid cursor limit) = seqZ (cursor + 1) (Z.min limit left)) as Hn.
  { unfold pageItems. rewrite numbers_take, Ha, take_seqZ by lia. done. }
  split_and!.
  - unfold ListFeed. apply readFeedPage_spec; [done..|].
    by apply (contiguous_NoDup d), fc_at.
  - simpl. by rewrite attach_numbers.
  - simpl. unfold attachFeedAgentRunParents. apply Forall_fmap, Forall_forall. intros row Hrow.
    exists row. split; [|done]. unfold pageItems in Hrow. apply subseteq_take in Hrow.
    unfold after in Hrow. rewrite sort_Permutation in Hrow. by apply list_elem_of_filter in Hrow as [_ ?].
  - simpl. rewrite last_number, Hn, last_seqZ by lia. done.
  - simpl. apply bool_decide_ext.
    apply (f_equal length) in Ha. rewrite length_seqZ in Ha. unfold numbers in Ha.
    rewrite length_fmap in Ha. lia.
  - simpl. unfold feedHead. by rewrite Es.
Qed.

(** ** The pump *)

(** Whatever the phase, what was published is covered. *)
Lemma published_covered torn d w sid :
  feedContiguous d → reachable commits torn d w →
  match w_starts w !! sid with
  | None => published w sid = []
  | Some start => ∃ upto, (upto ≤ feedHead (w_db w) sid)%Z ∧
      covered torn start upto (numbers (published w sid))
  end.
Proof.
  intros Hd Hr. pose proof (reachable_OK _ _ _ _ Hd Hr) as (_ & _ & Hall).
  specialize (Hall sid). unfold sessionOK in Hall.
  destruct (pu_sessions (w_pump w) !! sid) as [s|]; [|by destruct Hall as (_ & -> & ->)].
  destruct Hall as (_ & _ & (a & -> & _ & Hph) & Hlast & _). unfold phaseOK, publishedNumbers in Hph.
  destruct (w_runs w !! sid) as [[]|].
  - exists (lastPublished s). by split; [lia|].
  - destruct Hph as (_ & ? & _). exists (lastPublished s). by split; [lia|].
  - destruct Hph as (? & _). exists (lastPublished s). by split; [lia|].
  - destruct Hph as [? ?]. by eexists.
  - exists (lastPublished s). by split; [lia|].
Qed.

(** C17: Whatever the interleaving of commits, signals, reads, failures and restarts, the
    pump delivers the rows of a session in growing order and none twice, all of them
    committed; when no commit falls between the queries of one page, it delivers them
    without a gap from where it began. *)
Theorem pump_in_order torn s w sid :
  store_reachable s → reachable commits torn (st_db s) w →
  let start := default 0%Z (w_starts w !! sid) in
  let l := numbers (published w sid) in
  StronglySorted Z.lt l ∧ Forall (λ n, start < n ≤ feedHead (w_db w) sid)%Z l ∧
  (torn = false → l = seqZ (start + 1) (Z.of_nat (length l))).
Proof.
  intros Hs Hr. pose proof (reachable_contiguous _ _ _ _ _ _ Hs) as Hd.
  pose proof (published_covered _ _ _ sid Hd Hr) as Hc.
  destruct (w_starts w !! sid) as [start|]; simpl; [|rewrite Hc; by repeat constructor].
  destruct Hc as (upto & Hup & Hle & Hsort & Hf & Hgap). split_and!; [done| |].
  - eapply Forall_impl; [exact Hf|]. simpl. lia.
  - intros Ht. rewrite (Hgap Ht) at 1. rewrite (Hgap Ht), length_seqZ. f_equal. lia.
Qed.

(** What is quiet is complete, unless a page was torn. *)
Lemma quiet_complete d w sid start :
  feedContiguous d → reachable commits false d w →
  FeedPump.quiet w sid → sid ∉ w_stalled w → w_starts w !! sid = Some start →
  numbers (published w sid) = seqZ (start + 1) (feedHead (w_db w) sid - start).
Proof.
  intros Hd Hr [Hrun Hsig] Hstall Hstart.
  pose proof (reachable_OK _ _ _ _ Hd Hr) as (_ & _ & Hall). specialize (Hall sid).
  unfold sessionOK in Hall. destruct (pu_sessions (w_pump w) !! sid) as [st|]; [|naive_solver].
  destruct Hall as (_ & _ & (a & Ha & _ & Hph) & Hlast & Hwk). specialize (Hwk eq_refl).
  assert (a = start) as -> by congruence. unfold phaseOK in Hph. unfold wakes, waiting in Hwk.
  rewrite Hrun in Hph, Hwk. destruct Hph as (_ & _ & _ & Hgap). unfold publishedNumbers in Hgap.
  rewrite (Hgap eq_refl). destruct Hwk as [?|[?|?]]; [f_equal; lia|done..].
Qed.

(** C16: When nothing is left to do for a session, no signal of it is on the way and its last
    goroutine was not stopped by a failure, the pump has delivered every row from where it
    began to the head of the feed, if no commit fell between the queries of one page. *)
Theorem pump_complete s w sid start :
  store_reachable s → reachable commits false (st_db s) w →
  FeedPump.quiet w sid → sid ∉ w_stalled w → w_starts w !! sid = Some start →
  numbers (published w sid) = seqZ (start + 1) (feedHead (w_db w) sid - start).
Proof. intros Hs. by apply quiet_complete, (reachable_contiguous _ _ _ _ _ _ Hs). Qed.

(** C19: From every reachable state the pump alone, with no further commit, comes to rest for
    a session; if no page was torn and the goroutine was not stopped by a failure,
    everything up to the head has then been delivered. *)
Theorem pump_drains torn s w sid :
  store_reachable s → reachable commits torn (st_db s) w →
  ∃ w', rtc (FeedPump.step commits torn) w w' ∧ w_db w' = w_db w ∧ FeedPump.quiet w' sid ∧
    w_stalled w' ⊆ w_stalled w ∧
    (torn = false → ∀ start, w_starts w !! sid = Some start → sid ∉ w_stalled w →
       numbers (published w' sid) = seqZ (start + 1) (feedHead (w_db w) sid - start)).
Proof.
  intros Hs Hr. pose proof (reachable_contiguous _ _ _ _ _ _ Hs) as Hd.
  destruct (pump_quiets _ torn _ w sid Hd Hr) as (w' & R & Ed & Hq & Hst). exists w'.
  split_and!; try done. intros -> start Hstart Hno.
  pose proof (starts_kept _ _ _ _ _ _ R (reachable_OK _ _ _ _ Hd Hr) Hstart) as Hstart'.
  rewrite <-Ed. apply (quiet_complete (st_db s)); try done; [|set_solver].
  unfold reachable in *. by etrans.
Qed.

(** ** Running a schedule *)

(** Who acts next: an operation of the store, a signal that arrives, or the
    goroutine of a session. *)
Inductive turn_of :=
  | Commits (active : activeTurns) (c : call) (o : store_op)
  | Arrives (i : nat)
  | Runs (sid : uuid).

Definition runNext (sid : uuid) (w : world) : option world :=
  match w_runs w !! sid with
  | None => None
  | Some Loop =>
      Some (withPump (w_pump w) (<[sid := Reading (readCursor sid (w_pump w)) []]> (w_runs w)) w)
  | Some (Reading cursor seen) =>
      if length seen <? 5
      then Some (withPump (w_pump w) (<[sid := Reading cursor (seen ++ [w_db w])]> (w_runs w)) w)
      else match seen with
      | [a; b; c; d; e] =>
          match readFeedPage (mkReads a b c d e) sid cursor feedPumpPageLimit with
          | Ok page =>
              Some (withPump (w_pump w) (<[sid := Delivering page (pg_Items page)]> (w_runs w)) w)
          | _ => Some (afterStop sid w)
          end
      | _ => None
      end
  | Some (Delivering page (item :: rest)) => Some (afterAdmission sid page item rest w)
  | Some (Delivering page []) => Some (afterSink sid page w)
  | Some (Finishing page) => Some (afterFinish sid page w)
  end.

Definition actNext (torn : bool) (t : turn_of) (w : world) : option world :=
  match t with
  | Commits active c o =>
      let d := st_db (applyStore maxExecutionStateBytes maxStoredMessageBytes Sum256 marshalResolution
                        finishDecisionHash c o (mkStore (w_db w) active)) in
      if torn || bool_decide (map_Forall (λ _ p, betweenQueries p = false) (w_runs w))
      then Some (afterCommit d (snapshot (w_db w) d) w) else None
  | Arrives i =>
      match w_signals w !! i with
      | Some (sid, first) =>
          Some (afterSignal sid first (take i (w_signals w) ++ drop (S i) (w_signals w)) w)
      | None => None
      end
  | Runs sid => runNext sid w
  end.

Lemma runNext_step torn sid w w' : runNext sid w = Some w' → step commits torn w w'.
Proof.
  unfold runNext. destruct (w_runs w !! sid) as [[|cursor seen|page [|item rest]|page]|] eqn:Er; [..|done].
  - intros [= <-]. by apply StepBegin.
  - destruct (length seen <? 5) eqn:El.
    + intros [= <-]. apply StepQuery; [done|]. by apply Nat.ltb_lt.
    + destruct seen as [|a [|b [|c [|d [|e []]]]]]; try done.
      destruct (readFeedPage _ _ _ _) as [page| | |] eqn:Ep; intros [= <-];
        [by eapply StepPage|by eapply StepStop..].
  - intros [= <-]. by apply StepSink.
  - intros [= <-]. by apply StepAdmission.
  - intros [= <-]. by apply StepFinish.
Qed.

Lemma actNext_step torn t w w' : actNext torn t w = Some w' → step commits torn w w'.
Proof.
  destruct t as [active c o|i|sid]; simpl.
  - destruct (torn || _) eqn:Et; [|done]. intros [= <-]. apply StepCommit.
    + exists (mkStore (w_db w) active), (applyStore maxExecutionStateBytes maxStoredMessageBytes
        Sum256 marshalResolution finishDecisionHash c o (mkStore (w_db w) active)).
      split_and!; [done|done|by constructor|done].
    + intros ->. by apply bool_decide_eq_true in Et.
  - destruct (w_signals w !! i) as [[sid first]|] eqn:Ei; [|done]. intros [= <-].
    eapply StepSignal. by rewrite (take_drop_middle _ i (sid, first)).
  - apply runNext_step.
Qed.

Definition runSchedule (torn : bool) (l : list turn_of) (w : world) : option world :=
  foldl (λ o t, w ← o; actNext torn t w) (Some w) l.

Lemma runSchedule_reachable torn d l w :
  runSchedule torn l (startWorld d) = Some w → reachable commits torn d w.
Proof.
  unfold runSchedule. revert w. induction l as [|t l IH] using rev_ind; intros w.
  - intros [= <-]. apply rtc_refl.
  - rewrite foldl_snoc. intros (w0 & Hw0 & Ht)%bind_Some. eapply rtc_r; [by apply IH|].
    by eapply actNext_step.
Qed.

End store.

(** ** A sample store *)

#[export] Instance sample_images : ImageCodec :=
  {| marshalImages := λ _, bs "[]"; unmarshalImages := λ _, Ok [] |}.
#[export] Instance sample_inbox : InboxCodec :=
  {| marshalParts := λ _, bs "[]"; unmarshalParts := λ _, Ok []; jsonArrayLength := λ _, 0%Z;
     marshalMessagePayload := λ _ _ _, bs "{}"; marshalSkillPayload := λ _ _, bs "{}";
     savedInboxIDs := λ _, Ok [];
     NewSHA1 := λ id name, (id * 256 + N.of_nat (length name))%N; uuidBytes := λ _, [] |}.
#[export] Instance sample_notices : NoticeCodec :=
  {| marshalPromptEvent := λ n, Some (sn_DataJSON n);
     noticeJobID := λ data, Ok (N.of_nat (length data));
     noticeRunID := λ data, Ok (N.of_nat (length data)) |}.
#[export] Instance sample_children : ChildCodec :=
  {| marshalChildTerminal := λ _ _ _ _, bs "{}"; cancelledChildReport := λ name _, bs "cancelled " ++ name |}.
#[export] Instance sample_ends : TurnCodec :=
  {| marshalTurnEndPayload := λ _ _, bs "{}"; marshalTurnEndNotice := λ _, bs "{}";
     unmarshalToolCalls := λ _, Ok [] |}.

Definition sample_reached : store → Prop := store_reachable 1000 1000 id sample_marshal sample_hash.
Definition sample_commits := commits 1000 1000 id sample_marshal sample_hash.
Definition sample_apply := applyStore 1000 1000 id sample_marshal sample_hash.
Definition sample_schedule := runSchedule 1000 1000 id sample_marshal sample_hash.

Definition sample_store (ops : list (call * store_op)) : store :=
  foldl (λ s co, sample_apply co.1 co.2 s) emptyStore ops.

Lemma sample_ops_reached ops : sample_reached (sample_store ops).
Proof.
  unfold sample_store. induction ops as [|[c o] ops IH] using rev_ind; [apply rtc_refl|].
  rewrite foldl_snoc. eapply rtc_r; [exact IH|]. by constructor.
Qed.

(** Session 1 with the running turn 2, held by lease 3. *)
Definition sample_call (id : uuid) : call := mkCall 5 id None.
Definition sample_start : StartTurnInput :=
  mkStartTurn 4%N (bs "/w")
    [mkMessageInput Nil [] MessageRoleUser (bs "hello") [] [] [] [] [] false false false [] [] []]
    [] [] None None None.
Definition sample_draws : draws := mkDraws 2%N 3%N 8%N (λ _, 9%N).
Definition sample_lease : Lease := mkTurnHold 3%N 1%N 2%N.
Definition sample_begun : store :=
  sample_store [(sample_call 0%N, SCreate 1%N None); (sample_call 0%N, SAcquire sample_draws 1%N sample_start)].

Definition sample_event (text : bytes) : store_op :=
  SInbox (OpCheckpoint (st_active sample_begun) sample_lease []
    [mkEventInput Nil 4%N None text (bs "{}") []]).
Definition sample_notice (id : uuid) : store_op :=
  SNotice id (λ _, 9%N) 1%N
    (mkNoticeInput Nil (bs "job.exited") (bs "host") (bs "a job ended") [] NoticeDeliveryQueue None).
Definition sample_commit (o : store_op) : turn_of := Commits (st_active sample_begun) (sample_call 0%N) o.

(** The goroutine reads one page and returns. *)
Definition sample_reads (n : nat) : list turn_of := repeat (Runs 1%N) n.

Definition sample_calm_schedule : list turn_of :=
  [sample_commit (sample_event (bs "a")); Arrives 0] ++ sample_reads 1 ++
  [sample_commit (sample_notice 20%N); Arrives 0] ++ sample_reads 19.

(** An event is committed after the events of a page were read, and a notice
    before its notices are. *)
Definition sample_torn_schedule : list turn_of :=
  [sample_commit (sample_event (bs "a")); Arrives 0] ++ sample_reads 3 ++
  [sample_commit (sample_event (bs "b")); sample_commit (sample_notice 20%N)] ++ sample_reads 8 ++
  [Arrives 0] ++ sample_reads 9 ++ [Arrives 0] ++ sample_reads 9.

(** Two events commit, and the signal of the second arrives first. *)
Definition sample_late_schedule : list turn_of :=
  [sample_commit (sample_event (bs "a")); sample_commit (sample_event (bs "b")); Arrives 1] ++
  sample_reads 10 ++ [Arrives 0] ++ sample_reads 9.

(** *** Schedules that skip a row *)

Lemma sample_world torn l w :
  sample_schedule torn l (startWorld (st_db sample_begun)) = Some w →
  reachable sample_commits torn (st_db sample_begun) w.
Proof. apply runSchedule_reachable. Qed.

(** What a schedule led to: whether all is quiet, where the pump began, the
    head, the numbers of the feed and of what was published. *)
Definition sample_result (w : world) : bool * option Z * Z * list Z * list Z :=
  (match w_runs w !! 1%N with
   | None => bool_decide (1%N ∉ (w_signals w).*1) && bool_decide (1%N ∉ w_stalled w)
   | Some _ => false end,
   w_starts w !! 1%N, feedHead (w_db w) 1%N, numbers (feedRows (w_db w) 1%N),
   numbers (published w 1%N)).

Lemma sample_outcome torn l start head rows shown :
  sample_result <$> sample_schedule torn l (startWorld (st_db sample_begun)) =
    Some (true, Some start, head, rows, shown) →
  ∃ w, reachable sample_commits torn (st_db sample_begun) w ∧
    FeedPump.quiet w 1%N ∧ (1%N ∉ w_stalled w) ∧ w_starts w !! 1%N = Some start ∧
    feedHead (w_db w) 1%N = head ∧ numbers (feedRows (w_db w) 1%N) = rows ∧
    numbers (published w 1%N) = shown.
Proof.
  intros (w & E & Hw)%fmap_Some. injection Hw as Hq Hs Hh Hf Hp. exists w.
  destruct (w_runs w !! 1%N) eqn:Er; [done|].
  symmetry in Hq. apply andb_prop in Hq as [Hq1%bool_decide_eq_true Hq2%bool_decide_eq_true].
  split_and!; try done. by eapply sample_world.
Qed.

(** A commit between the queries of one page makes the pump skip a row: from an empty
    store, three rows are committed, the pump comes to rest without a failure, and row 2 was
    never delivered. *)
Theorem torn_page_skips_row :
  ∃ w, reachable sample_commits true (st_db sample_begun) w ∧
    FeedPump.quiet w 1%N ∧ (1%N ∉ w_stalled w) ∧ w_starts w !! 1%N = Some 0%Z ∧
    feedHead (w_db w) 1%N = 3%Z ∧ numbers (feedRows (w_db w) 1%N) = [1; 2; 3]%Z ∧
    numbers (published w 1%N) = [1; 3]%Z.
Proof. apply (sample_outcome true sample_torn_schedule). vm_compute. reflexivity. Qed.

(** Signals of two commits that arrive in the opposite order make the pump begin after
    the first row: it comes to rest without a failure, no page torn, and row 1 was never
    delivered. *)
Theorem late_signal_skips_row :
  ∃ w, reachable sample_commits false (st_db sample_begun) w ∧
    FeedPump.quiet w 1%N ∧ (1%N ∉ w_stalled w) ∧ w_starts w !! 1%N = Some 1%Z ∧
    feedHead (w_db w) 1%N = 2%Z ∧ numbers (feedRows (w_db w) 1%N) = [1; 2]%Z ∧
    numbers (published w 1%N) = [2]%Z.
Proof. apply (sample_outcome false sample_late_schedule). vm_compute. reflexivity. Qed.

(** *** Witnesses *)

Lemma sample_store_steps ops more :
  rtc (store_step 1000 1000 id sample_marshal sample_hash) (sample_store ops) (sample_store (ops ++ more)).
Proof.
  unfold sample_store. rewrite foldl_app. generalize (foldl (λ s co, sample_apply co.1 co.2 s) emptyStore ops).
  induction more as [|[c o] more IH]; intros s; [done|]. simpl. eapply rtc_l; [by constructor|apply IH].
Qed.

Definition sample_fed : store :=
  sample_store [(sample_call 0%N, SCreate 1%N None); (sample_call 0%N, SAcquire sample_draws 1%N sample_start);
    (sample_call 0%N, sample_event (bs "a")); (sample_call 0%N, sample_notice 20%N);
    (sample_call 0%N, sample_event (bs "b"))].

Lemma sample_fed_reached : sample_reached sample_fed.
Proof. apply sample_ops_reached. Qed.
Lemma sample_fed_session :
  sessions (others (st_db sample_fed)) !! 1%N = Some (mkSession 0 1 3 0 0 (Some 5%Z)).
Proof. vm_compute. reflexivity. Qed.
Lemma sample_fed_head : feedHead (st_db sample_fed) 1%N = 3%Z.
Proof. unfold feedHead. by rewrite sample_fed_session. Qed.

Lemma store_numbered_witness :
  sample_reached sample_fed ∧
  numbers (feedRows (st_db sample_fed) 1%N) ≡ₚ seqZ 1 (feedHead (st_db sample_fed) 1%N) ∧
  feedHead (st_db sample_fed) 1%N = 3%Z.
Proof.
  pose proof (store_numbered _ _ _ _ _ sample_fed 1%N sample_fed_reached) as (_ & _ & Hf & _).
  split_and!; [exact sample_fed_reached|exact Hf|exact sample_fed_head].
Defined.

Lemma ListFeed_page_witness :
  sample_reached sample_fed ∧
  ∃ page, ListFeed (st_db sample_fed) 1%N 0 2 = Ok page ∧ numbers (pg_Items page) = [1; 2]%Z ∧
    pg_NextCursor page = 2%Z ∧ pg_HasMore page = true.
Proof.
  split; [exact sample_fed_reached|].
  pose proof (ListFeed_page _ _ _ _ _ sample_fed 1%N 0%Z 2%Z sample_fed_reached) as Hp.
  cbv zeta in Hp. rewrite sample_fed_session, sample_fed_head in Hp.
  change ((0 <? 0)%Z || (2 <? 1)%Z || (MaximumFeedLimit <? 2)%Z) with false in Hp.
  destruct Hp as (page & E & Hn & _ & Hc & Hm & _).
  exists page. split_and!; [exact E|exact Hn|exact Hc|exact Hm].
Defined.

Lemma sample_begun_reached : sample_reached sample_begun.
Proof. apply sample_ops_reached. Qed.

(** The calm schedule delivers two rows; its world. *)
Lemma sample_calm_world :
  ∃ w, reachable sample_commits false (st_db sample_begun) w ∧
    FeedPump.quiet w 1%N ∧ (1%N ∉ w_stalled w) ∧ w_starts w !! 1%N = Some 0%Z ∧
    feedHead (w_db w) 1%N = 2%Z ∧ numbers (feedRows (w_db w) 1%N) = [1; 2]%Z ∧
    numbers (published w 1%N) = [1; 2]%Z.
Proof. apply (sample_outcome false sample_calm_schedule). vm_compute. reflexivity. Qed.

Lemma pump_in_order_witness :
  ∃ w, reachable sample_commits false (st_db sample_begun) w ∧
    StronglySorted Z.lt (numbers (published w 1%N)) ∧ numbers (published w 1%N) = [1; 2]%Z.
Proof.
  destruct sample_calm_world as (w & Hr & _ & _ & _ & _ & _ & Hp). exists w.
  split_and!; [exact Hr| |exact Hp].
  apply (pump_in_order _ _ _ _ _ false sample_begun w 1%N sample_begun_reached Hr).
Defined.

Lemma pump_complete_witness :
  ∃ w, reachable sample_commits false (st_db sample_begun) w ∧
    numbers (published w 1%N) = seqZ (0 + 1) (feedHead (w_db w) 1%N - 0) ∧
    feedHead (w_db w) 1%N = 2%Z.
Proof.
  destruct sample_calm_world as (w & Hr & Hq & Hst & Hs & Hh & _). exists w.
  split_and!; [exact Hr| |exact Hh].
  apply (pump_complete _ _ _ _ _ sample_begun w 1%N 0%Z sample_begun_reached Hr Hq Hst Hs).
Defined.

(** The goroutine has begun to read the first row. *)
Lemma sample_midway :
  ∃ w, reachable sample_commits false (st_db sample_begun) w ∧ w_starts w !! 1%N = Some 0%Z ∧
    (1%N ∉ w_stalled w) ∧ feedHead (w_db w) 1%N = 1%Z ∧ numbers (published w 1%N) = [].
Proof.
  assert ((λ w, (w_starts w !! 1%N, bool_decide (1%N ∉ w_stalled w), feedHead (w_db w) 1%N,
                 numbers (published w 1%N))) <$>
    sample_schedule false (take 3 sample_calm_schedule) (startWorld (st_db sample_begun)) =
    Some (Some 0%Z, true, 1%Z, [])) as (w & E & Hw)%fmap_Some by (vm_compute; reflexivity).
  injection Hw as Hs Hst Hh Hp. exists w. symmetry in Hst. apply bool_decide_eq_true in Hst.
  split_and!; try done. by eapply sample_world.
Qed.

Lemma pump_drains_witness :
  ∃ w w', rtc (FeedPump.step sample_commits false) w w' ∧ feedHead (w_db w) 1%N = 1%Z ∧
    numbers (published w 1%N) = [] ∧
    numbers (published w' 1%N) = seqZ (0 + 1) (feedHead (w_db w) 1%N - 0).
Proof.
  destruct sample_midway as (w & Hr & Hs & Hst & Hh & Hp).
  destruct (pump_drains 1000 1000 id sample_marshal sample_hash false sample_begun w 1%N
    sample_begun_reached Hr) as (w' & R & _ & _ & _ & Hall).
  exists w, w'. split_and!; [exact R|exact Hh|exact Hp|exact (Hall eq_refl 0%Z Hs Hst)].
Defined.

End FeedPromises.
