(* ===== verification/TurnPromises.v ===== *)
(** What the store promises of turns, notices and wakes. *)
From stdpp Require Import base gmap sets list list_numbers strings sorting.
From Stdlib Require Import ZArith Lia Ascii.
From S2P Require Import Prelude GoBytes Json Executions ExecutionControl Activities ExecutionSteps TxRules Transcripts TranscriptRules Inbox Deferral InboxRules InboxTheorems StoreSteps TextSteps Feed FeedRules FeedGrowth Notices ChildRuns TurnEnd Turns TurnSteps FeedSteps TurnRules WakeRules EndRules FeedPromises.

Module TurnPromises.
Import Executions ExecutionControl Activities ExecutionSteps TxRules Transcripts TranscriptRules Inbox Deferral InboxTheorems StoreSteps TextSteps Feed FeedRules FeedGrowth Notices ChildRuns TurnEnd Turns TurnSteps FeedSteps TurnRules WakeRules EndRules FeedPromises.

Section store.
Variables maxExecutionStateBytes maxStoredMessageBytes : Z.
Variable Sum256 : bytes → bytes.
Variable marshalResolution : ResolveActivityInput → bytes.
Variable finishDecisionHash : CompleteActivityInput → bytes.
Context `{ImageCodec, InboxCodec, NoticeCodec, ChildCodec, TurnCodec}.
Local Abbreviation store_reachable := (store_reachable maxExecutionStateBytes maxStoredMessageBytes
  Sum256 marshalResolution finishDecisionHash).
Local Abbreviation store_step := (store_step maxExecutionStateBytes maxStoredMessageBytes
  Sum256 marshalResolution finishDecisionHash).

Lemma steps_kept (R : relation db) `{!KeptRecords R} s s' :
  rtc store_step s s' → R (st_db s) (st_db s').
Proof.
  induction 1 as [s|x y z Hxy _ IH]; [reflexivity|]. etrans; [|exact IH].
  by eapply kept_store_step; [apply _|].
Qed.

Lemma reachable_noticesKeyed s : store_reachable s → noticesKeyed (st_db s).
Proof. intros Hr. apply reachable_contiguous in Hr as [_ _ Hk]. done. Qed.

(** C12: A completed turn is final: whatever operations follow, its row stays and is
    neither restored, ended again, cancelled nor reopened; every column is as it was
    but the name of the worker, which [RecordTurnWorkerGeneration] writes for the
    holder of the lease without asking for the state of the turn. *)
Theorem completed_turn_final s s' id t :
  rtc store_step s s' → turns (others (st_db s)) !! id = Some t → tu_State t = TurnStateCompleted →
  ∃ t', turns (others (st_db s')) !! id = Some t' ∧ columnsOf t' = columnsOf t.
Proof.
  intros Hs. pose proof (rows_records turnsFinal) as Hk.
  by apply (steps_kept turnsFinal s s' Hs).
Qed.

(** A notice is delivered once: in every later state its row is as it was, or it was
    pending and carries one delivery; a delivered notice never becomes pending again and no
    other column changes. *)
Theorem notice_delivered_once s s' id n :
  store_reachable s → rtc store_step s s' → sessionNotices (others (st_db s)) !! id = Some n →
  noticeFate (st_db s) (st_db s') id n.
Proof.
  intros Hr Hs Hn. pose proof (rows_records noticesKept) as Hk.
  destruct (steps_kept noticesKept s s' Hs) as [_ Hf]; [by apply reachable_noticesKeyed|]. by apply Hf.
Qed.

(** The counters of a session only grow, whatever operations run: its stop revision, its
    message count, the head of its feed and its completed turns, so a caller that read one
    can tell that it is stale. *)
Theorem session_counters_grow s s' sid x :
  rtc store_step s s' → sessions (others (st_db s)) !! sid = Some x →
  ∃ y, sessions (others (st_db s')) !! sid = Some y ∧ sessionGrows x y.
Proof.
  intros Hs Hx. pose proof (rows_records countersGrow) as Hk.
  by apply (steps_kept countersGrow s s' Hs).
Qed.

(** Draining a session delivers exactly its pending notices, in the order of their
    numbers, marks each row with the time of the call and leaves the others; draining it
    again delivers none. An unknown session is refused with nothing changed. *)
Theorem DrainSessionNotices_once c c' sid s :
  store_reachable s →
  let d := st_db s in
  match sessions (others d) !! sid with
  | None => DrainSessionNotices c sid d = (d, Err ErrNotFound)
  | Some _ => ∃ d',
      DrainSessionNotices c sid d = (d', Ok (noticeDelivered (now c) <$> pendingNotices sid d)) ∧
      StronglySorted (byNumber sn_Sequence) (pendingNotices sid d) ∧
      (∀ id n, sessionNotices (others d) !! id = Some n → sessionNotices (others d') !! id =
         Some (if bool_decide (sn_SessionID n = sid ∧ sn_State n = NoticeStatePending)
               then noticeDelivered (now c) n else n)) ∧
      DrainSessionNotices c' sid d' = (d', Ok [])
  end.
Proof.
  intros Hr d. pose proof (reachable_noticesKeyed s Hr) as Hk. fold d in Hk.
  destruct (sessions (others d) !! sid) as [x|] eqn:Es.
  - destruct (drain_spec c sid d Hk ltac:(eauto)) as (d' & E & H5 & H6 & H7 & Hk').
    exists d'. assert (pendingNotices sid d' = []) as Hnone.
    { apply elem_of_nil_inv. intros n Hn. pose proof Hn as (Hrow & Hs & Hp)%elem_of_pending; [|done].
      destruct (decide (sn_ID n ∈ sn_ID <$> pendingNotices sid d)) as [Hin|Hin].
      - apply list_elem_of_fmap in Hin as (m & Em & Hm). rewrite Em, H5 in Hrow by done.
        injection Hrow as <-. by rewrite delivered_state in Hp.
      - rewrite H6 in Hrow by done. apply Hin, list_elem_of_fmap. exists n. split; [done|].
        by apply elem_of_pending. }
    split_and!; [done|apply sort_sorted| |].
    + intros id n Hn. pose proof (Hk _ _ Hn) as <-. case_bool_decide as Hp.
      * apply H5, elem_of_pending; [done|]. by destruct Hp.
      * rewrite H6; [done|]. intros (m & Em & Hm)%list_elem_of_fmap.
        apply elem_of_pending in Hm as (Hrow & ? & ?); [|done]. apply Hp.
        rewrite <-Em, Hn in Hrow. by injection Hrow as ->.
    + unfold DrainSessionNotices, transaction, findSessionWithQuery, mbind, tx_bind, reads.
      rewrite H7, Es. simpl. by rewrite Hnone.
  - unfold DrainSessionNotices, transaction. unfold findSessionWithQuery.
    unfold mbind, tx_bind, reads. by rewrite Es.
Qed.

(** ** The end of a turn *)

(** What the end of a turn writes: the turn, its frame and its notice with the
    next two numbers of the feed, and its system message with the next number of
    the transcript; the messages of the turn are marked incomplete. *)
Definition turnEnding (c : call) (nid sid tid : uuid) (end_ : TurnEnd) (turn : Turn) (d d' : db)
    : Prop :=
  ∃ e n m ended,
    turns (others d') = <[tid := turnEnded end_ (now c) turn]> (turns (others d)) ∧
    (feedEvents (others d') = feedEvents (others d) ++ [e] ∧ fe_SessionID e = sid ∧ fe_TurnID e = tid ∧
     fe_EventType e = te_EventType end_ ∧ fe_FeedSequence e = (feedHead d sid + 1)%Z) ∧
    (sessionNotices (others d') = <[nid := n]> (sessionNotices (others d)) ∧
     sessionNotices (others d) !! nid = None ∧ sn_SessionID n = sid ∧ sn_State n = NoticeStatePending ∧
     sn_FeedSequence n = (feedHead d sid + 2)%Z) ∧
    (messages (others d') =
       ((λ m, if bool_decide (ms_TurnID m = tid) then incompleteMessage m else m) <$>
          messages (others d)) ++ [m] ∧
     ms_SessionID m = sid ∧ ms_TurnID m = tid ∧ ms_Role m = MessageRoleSystem ∧
     ms_Sequence m = (messageCount sid d + 1)%Z ∧ ms_Content m = renderTurnEndMessage ended) ∧
    tn_TurnID ended = tid ∧ tn_State ended = te_State end_ ∧
    feedHead d' sid = (feedHead d sid + 2)%Z.

Lemma endedMessages_same sid data d :
  tn_TurnID (readEndedTurnMessages sid data d) = tn_TurnID data ∧
  tn_State (readEndedTurnMessages sid data d) = tn_State data.
Proof. done. Qed.

Lemma endedCalls_same sid data d data' :
  readEndedTurnToolCalls sid data d = Ok data' →
  tn_TurnID data' = tn_TurnID data ∧ tn_State data' = tn_State data.
Proof. intros E. apply bind_Ok_inv in E as (calls & _ & E). by injection E as <-. Qed.

(** The notice and the message of an end. *)
Lemma recordEnd_Ok c nid drawn sid data d u d' turn :
  feedBounded d → text_inv d → turns (others d) !! tn_TurnID data = Some turn →
  tu_SessionID turn = sid → tn_State data ≠ TurnStateCompleted →
  recordTurnEndNotice maxStoredMessageBytes Sum256 c nid drawn sid data d = Ok (u, d') →
  ∃ n m ended,
    turns (others d') = turns (others d) ∧ feedEvents (others d') = feedEvents (others d) ∧
    (sessionNotices (others d') = <[nid := n]> (sessionNotices (others d)) ∧
     sessionNotices (others d) !! nid = None ∧ sn_SessionID n = sid ∧ sn_State n = NoticeStatePending ∧
     sn_FeedSequence n = (feedHead d sid + 1)%Z) ∧
    (messages (others d') = messages (others d) ++ [m] ∧
     ms_SessionID m = sid ∧ ms_TurnID m = tn_TurnID data ∧ ms_Role m = MessageRoleSystem ∧
     ms_Sequence m = (messageCount sid d + 1)%Z ∧ ms_Content m = renderTurnEndMessage ended) ∧
    tn_TurnID ended = tn_TurnID data ∧ tn_State ended = tn_State data ∧
    feedHead d' sid = (feedHead d sid + 1)%Z.
Proof.
  intros Hb Htext Ht Hs Hst E. unfold recordTurnEndNotice in E.
  apply tx_bind_Ok in E as (data1 & d1 & Hr & E). injection Hr as <- <-.
  apply tx_bind_Ok in E as (ended & d1 & Hr & E). apply reads_Ok in Hr as [Hr ->].
  apply endedCalls_same in Hr as [Eid Est]. simpl in Eid, Est.
  rewrite bool_decide_eq_false_2 in E by congruence.
  apply tx_bind_Ok in E as (v & d2 & Hn & E). unfold saveTurnEndNotice in Hn.
  apply tx_bind_Ok in Hn as (input & d1 & Hi & Hn). apply reads_Ok in Hi as [Hi ->].
  apply tx_bind_Ok in Hn as (n & d3 & Hn & Hv). injection Hv as _ <-.
  assert (ni_ID input = nid) as Hid.
  { unfold normalizeSessionNoticeInput in Hi. apply bind_Ok_inv in Hi as (? & _ & Hi).
    by injection Hi as <-. }
  pose proof (kept_createNotice textKept c drawn sid input _ _ _ Hn Htext) as Htext3.
  apply createNotice_Ok in Hn as (Hfresh & En & _ & Hsid & Hpend & _ & _ & _ & Hseq & Hhead &
    Emsg & Eev & Eturn & Ecount); [|done].
  rewrite Hid in Hfresh, En.
  assert (turns (others d3) !! tn_TurnID ended = Some turn) as Ht3 by congruence.
  destruct (endMessage_Ok _ _ _ _ _ _ _ turn Htext3 Ht3 E)
    as (m & Em & Hms & Hmt & Hrole & Hcontent & Hmseq & Et & Ee & Esn & Eh).
  exists n, m, ended. rewrite Hs, Ecount in *. split_and!; congruence.
Qed.

Lemma endRunning_Ok c nid drawn sid tid turn end_ d ended d' :
  feedBounded d → text_inv d → turns (others d) !! tid = Some turn → tu_SessionID turn = sid →
  te_State end_ ∉ [TurnStateRunning; TurnStateCompleted] →
  endRunningTurn maxStoredMessageBytes Sum256 c nid drawn tid turn end_ d = Ok (ended, d') →
  ended = bool_decide (tu_State turn = TurnStateRunning) ∧
  if ended then turnEnding c nid sid tid end_ turn d d' else d' = d.
Proof.
  intros Hb Htext Ht Hs Hst E. unfold endRunningTurn in E.
  apply tx_bind_Ok in E as (hit & d1 & Hu & E). unfold updateRunningTurn in Hu. rewrite Ht in Hu.
  simpl in Hu. case_bool_decide as Hrun; injection Hu as <- <-; simpl in E; [|by injection E as <- <-].
  apply tx_bind_Ok in E as (u & d2 & Hm & E).
  assert (feedExtends d d2 ∧ textKept d d2) as [Hext Hkept].
  { split; (etrans; [|eapply kept_updateMessages; [|exact Hm]];
      [by apply extends_same + by apply textKept_same|apply
        (samePlace_incomplete (λ m, bool_decide (ms_TurnID m = tid)))]). }
  injection Hm as _ Hd2. destruct (Hext Hb) as [Hb2 _]. specialize (Hkept Htext).
  apply tx_bind_Ok in E as (v & d3 & He & E).
  pose proof (extends_events _ _ _ _ _ _ He Hb2) as [Hb3 _].
  pose proof (kept_events (R := textKept) _ _ _ _ _ _ He Hkept) as Htext3.
  destruct (appendEvents_one _ _ _ _ _ _ Hb2 He)
    as (e & Eev & Hes & Het & Hety & _ & _ & Hef & Hhead & Emsg & Eturn & Enote & Ecount).
  simpl in Hes, Het, Hety, Hef, Hhead. subst d2. rewrite Hs in *.
  apply tx_bind_Ok in E as (w & d4 & Hn & E). injection E as <- <-.
  split; [done|].
  assert (turns (others d3) !! tid = Some (turnEnded end_ (now c) turn)) as Ht3.
  { rewrite Eturn. simpl. by rewrite lookup_insert_eq. }
  apply (recordEnd_Ok _ _ _ _ _ _ _ _ (turnEnded end_ (now c) turn)) in Hn as
    (n & m & data & Et4 & Ee4 & (En4 & Hfresh & Hns & Hnp & Hnf) &
     (Em4 & Hms & Hmt & Hmr & Hmq & Hmc) & Hid & Hst4 & Hhead4); try done.
  - exists e, n, m, data. rewrite Ecount in Hmq.
    rewrite Et4, Eturn, Ee4, Eev, En4, Enote, Em4, Emsg. rewrite Enote in Hfresh.
    rewrite Hhead in Hnf, Hhead4.
    split_and!; try done; rewrite ?Hnf, ?Hhead4, ?Hef; unfold feedHead; simpl; lia.
  - by destruct turn.
  - simpl. set_solver.
Qed.

(** Ending a running turn without its lease writes its row, one terminal frame and one
    pending notice with the next two numbers of the feed, and one system message with the
    next number of the transcript, together; a turn that has ended is left as it is, also
    when the call is repeated; a call that fails changes nothing. *)
Theorem EndRunningTurn_effect c nid drawn sid tid end_ s :
  store_reachable s → te_State end_ ∉ [TurnStateRunning; TurnStateCompleted] →
  let d := st_db s in
  let '(d', r) := EndRunningTurn maxStoredMessageBytes Sum256 c nid drawn sid tid end_ d in
  match r with
  | Ok ended =>
      ∃ turn, turns (others d) !! tid = Some turn ∧ tu_SessionID turn = sid ∧
        ended = bool_decide (tu_State turn = TurnStateRunning) ∧
        (if ended then turnEnding c nid sid tid end_ turn d d' else d' = d) ∧
        ∀ c' nid' drawn' end',
          EndRunningTurn maxStoredMessageBytes Sum256 c' nid' drawn' sid tid end' d' = (d', Ok false)
  | _ => d' = d
  end.
Proof.
  intros Hr Hst d. pose proof (reachable_kept _ _ _ _ _ textKept s Hr empty_text) as Htext.
  pose proof (reachable_contiguous _ _ _ _ _ _ Hr) as Hb%contiguous_bounded. fold d in Htext, Hb.
  destruct (EndRunningTurn _ _ c nid drawn sid tid end_ d) as [d' r] eqn:E.
  destruct r as [ended|e| |]; try (by eapply transaction_other).
  apply transaction_Ok in E. apply tx_bind_Ok in E as (turn & d1 & Ht & E).
  apply reads_Ok in Ht as [Ht ->]. apply firstRow_Ok in Ht as [Ht Hs]. exists turn.
  apply (endRunning_Ok _ _ _ sid) in E as [-> Hend]; try done.
  split_and!; try done. intros c' nid' drawn' end'.
  assert (∃ t, turns (others d') !! tid = Some t ∧ tu_SessionID t = sid ∧ tu_State t ≠ TurnStateRunning)
    as (t & Ht' & Hs' & Hnr).
  { case_bool_decide as Hrun.
    - destruct Hend as (e & n & m & data & Et & _). rewrite Et. eexists.
      split; [apply lookup_insert_eq|]. destruct turn, end_; simpl in *. set_solver.
    - subst d'. by exists turn. }
  unfold EndRunningTurn, transaction, endRunningTurn, updateRunningTurn, mbind, tx_bind, reads, firstRow.
  rewrite Ht', Hs', bool_decide_eq_true_2 by done. simpl. rewrite Ht'.
  by rewrite bool_decide_eq_false_2.
Qed.

(** ** Turns and their leases *)

(** C11: A turn starts only in a session without an active turn, under the stop revision that
    the caller expects, as one new running row and one lease; a call that is refused changes
    neither the rows nor the leases, and an active session is refused as busy. *)
Theorem AcquireTurn_exclusive c w sid input s :
  let d := st_db s in
  let '(s', r) := AcquireTurn maxStoredMessageBytes Sum256 c w sid input s in
  match r with
  | Ok lease =>
      lease = mkTurnHold (dw_lease w) sid (dw_turn w) ∧ st_active s !! sid = None ∧
      st_active s' = <[sid := mkActive (dw_lease w) (dw_turn w)]> (st_active s) ∧
      turns (others d) !! dw_turn w = None ∧
      ∃ x, sessions (others d) !! sid = Some x ∧
        ValidateStopRevision (si_ExpectedStopRevision input) (se_StopRevision x) = Ok tt ∧
        turns (others (st_db s')) =
          <[dw_turn w := newTurn c sid (se_StopRevision x) input]> (turns (others d))
  | Err e =>
      s' = s ∧
      (is_Some (sessions (others d) !! sid) → is_Some (st_active s !! sid) → e = ErrSessionBusy)
  | _ => st_db s' = d
  end.
Proof.
  intros d. unfold AcquireTurn, findSession. fold d.
  destruct (sessions (others d) !! sid) as [x|] eqn:Es; [|split; [done|by intros []]].
  cbv zeta. unfold reserveLease. simpl.
  destruct (st_active s !! sid) as [held|] eqn:Eh; [by split|].
  destruct (transaction _ d) as [d' r] eqn:E. destruct r as [notices|e| |];
    [|apply transaction_other in E as ->; [|done]..].
  - apply transaction_Ok in E. unfold admitTurn, admissionStopRevision in E.
    apply tx_bind_Ok in E as (rev & d1 & Hrev & E). apply tx_bind_Ok in Hrev as (y & d2 & Hy & Hrev).
    unfold findSessionWithQuery in Hy. apply reads_Ok in Hy as [Hy ->]. rewrite Es in Hy.
    injection Hy as <-. apply tx_bind_Ok in Hrev as ([] & d2 & Hv & Hrev). unfold check in Hv.
    apply reads_Ok in Hv as [Hv ->]. injection Hrev as <- <-.
    apply tx_bind_Ok in E as ([] & d1 & Hc & E). unfold createTurn in Hc. simpl in Hc. case_if; [done|].
    destruct (turns (others d) !! dw_turn w) eqn:Et; [done|]. injection Hc as <-.
    apply tx_bind_Ok in E as (res & d2 & Ha & E). apply ends_append in Ha as [Ha _].
    apply ends_deliverOpening in E as [E _]. simpl in *.
    split_and!; try done. exists x. split_and!; [done|done|]. by rewrite E, Ha.
  - split; [|by intros _ []]. unfold ReleaseTurn. simpl. rewrite lookup_insert_eq. simpl.
    rewrite !bool_decide_eq_true_2 by done. simpl. rewrite delete_insert_eq, delete_id by done. by destruct s.
  - done.
  - done.
Qed.

(** The turn ends in the state that was asked for. *)
Lemma finishTurn_Ok c w lease input d u d' :
  finishTurn maxStoredMessageBytes Sum256 c w lease input d = Ok (u, d') →
  ∃ t, turns (others d) !! ls_TurnID lease = Some t ∧ tu_SessionID t = ls_SessionID lease ∧
    tu_State t = TurnStateRunning ∧
    turns (others d') = <[ls_TurnID lease := turnFinished input (now c) t]> (turns (others d)) ∧
    ∀ sid, completedCount d' sid = completedCount d sid.
Proof.
  unfold finishTurn. intros E. apply tx_bind_Ok in E as (hit & d1 & Hu & E).
  apply tx_bind_Ok in E as (v & d2 & Hg & E). apply refuseIf_Ok in Hg as [->%negb_false_iff ->].
  apply ends_record in E as [E Hcount]. unfold updateRunningTurn in Hu.
  destruct (turns (others d) !! ls_TurnID lease) as [t|]; [|done]. case_if; [|done].
  apply andb_prop in Heqb as [Hs%bool_decide_eq_true Hr%bool_decide_eq_true].
  injection Hu as <-. exists t. split_and!; try done.
Qed.

Lemma completion_Ok sid x (state : TurnState) result d u d' :
  sessions (others d) !! sid = Some x →
  updateSessionForCompletion sid state result d = Ok (u, d') →
  turns (others d') = turns (others d) ∧
  ∀ y, completedCount d' y =
    (completedCount d y + if decide (y = sid ∧ state = TurnStateCompleted) then 1 else 0)%Z.
Proof.
  intros Hx. unfold updateSessionForCompletion. case_bool_decide as Hc; intros [= _ <-].
  - split; [done|]. intros y. unfold completedCount. simpl.
    rewrite (counter_alter se_CompletedTurnCount _ _ x _ 1) by (done || by destruct x).
    f_equal. by repeat case_decide; naive_solver.
  - split; [done|]. intros y. rewrite decide_False by naive_solver. lia.
Qed.

(** C10: A turn is finalized once, by the holder of its lease: the row gets its end, the
    lease is released, the completed turns of the session grow by one exactly if the turn
    completed, and the same lease cannot finalize again. A failure leaves the rows. *)
Theorem FinalizeTurn_once c w lease input s :
  let d := st_db s in
  let sid := ls_SessionID lease in
  let '(s', r) := FinalizeTurn maxStoredMessageBytes Sum256 c w lease input s in
  match r with
  | Ok _ =>
      isTerminalState (ft_State input) = true ∧ hasLeaseLocked (st_active s) lease = true ∧
      st_active s' = delete sid (st_active s) ∧
      (∃ t, turns (others d) !! ls_TurnID lease = Some t ∧ tu_SessionID t = sid ∧
         tu_State t = TurnStateRunning ∧
         turns (others (st_db s')) = <[ls_TurnID lease := turnFinished input (now c) t]> (turns (others d))) ∧
      (∀ x, completedCount (st_db s') x = (completedCount d x +
         if decide (x = sid ∧ ft_State input = TurnStateCompleted) then 1 else 0)%Z) ∧
      ∀ c' w' input', ∃ e, FinalizeTurn maxStoredMessageBytes Sum256 c' w' lease input' s' = (s', Err e)
  | _ => st_db s' = d
  end.
Proof.
  intros d sid. unfold FinalizeTurn at 1. fold d.
  destruct (isTerminalState (ft_State input)) eqn:Est; [|done]. simpl. unfold holdLease.
  destruct (hasLeaseLocked (st_active s) lease) eqn:Eh; [|done].
  destruct (transaction _ d) as [d' r] eqn:E.
  destruct r as [u|e| |]; try (by eapply transaction_other).
  apply transaction_Ok in E. unfold runFinalizeTurnTransaction in E.
  apply tx_bind_Ok in E as (result & d1 & Ha & E).
  pose proof (rows_records countersGrow) as Hgrow.
  pose proof (kept_append (R := countersGrow) _ _ _ _ _ _ _ _ _ Ha) as G1.
  pose proof Ha as [Et1 Ec1]%ends_append.
  assert (is_Some (sessions (others d) !! sid)) as [x0 Hx0].
  { unfold appendTranscript in Ha. apply tx_bind_Ok in Ha as (x & d2 & Hx & _).
    unfold findSessionWithQuery in Hx. apply reads_Ok in Hx as [Hx _].
    destruct (sessions (others d) !! sid) eqn:Es; [eauto|]. subst sid. by rewrite Es in Hx. }
  apply tx_bind_Ok in E as ([] & d2 & Hf & E).
  pose proof (kept_finishTurn countersGrow _ _ _ _ _ _ _ _ _ Hf) as G2.
  apply finishTurn_Ok in Hf as (t & Ht & Hs & Hrun & Et2 & Ec2).
  apply tx_bind_Ok in E as ([] & d3 & Hm & E).
  pose proof (kept_markUnfinished countersGrow _ _ _ _ _ Hm) as G3.
  assert (turns (others d3) = turns (others d2) ∧ sessions (others d3) = sessions (others d2)) as [Et3 Es3].
  { unfold markUnfinishedMessages in Hm. case_bool_decide; by injection Hm as <-. }
  destruct (G1 sid x0 Hx0) as (x1 & Hx1 & _). destruct (G2 sid x1 Hx1) as (x2 & Hx2 & _).
  apply (completion_Ok sid x2) in E as [Et4 Ec4]; [|by rewrite Es3].
  unfold ReleaseTurn. unfold hasLeaseLocked in Eh. fold sid in Eh |- *.
  destruct (st_active s !! sid) as [held|] eqn:Eheld; [|done].
  apply andb_prop in Eh as [[_ ->]%andb_prop ->]. simpl.
  split_and!; try done.
  - exists t. rewrite Et1 in Ht. rewrite Et4, Et3, Et2, Et1. by split_and!.
  - intros y. rewrite Ec4. unfold completedCount in *. rewrite Es3. by rewrite Ec2, Ec1.
  - intros c' w' input'. unfold FinalizeTurn. destruct (isTerminalState (ft_State input')); simpl; [|by eexists].
    assert (holdLease (delete sid (st_active s)) lease = Err ErrTurnLeaseInactive) as ->; [|by eexists].
    unfold holdLease, hasLeaseLocked. by rewrite lookup_delete_eq.
Qed.

(** ** Wakes *)

(** The job or the run that a notice reports was not stopped. *)
Definition wakeLive (d : db) (sid : uuid) (n : SessionNotice) : Prop :=
  (sn_Source n = JobSource → ∃ id job,
     noticeJobID (sn_DataJSON n) = Ok id ∧ jobs (others d) !! id = Some job ∧ jb_SessionID job = sid ∧
     turnLive d sid (jb_TurnID job) ∧
     ∀ run run', jb_AgentRunID job = Some run → rtc (launchedBy d sid) run run' → runLive d sid run') ∧
  (sn_Source n = AgentSource → ∃ run,
     noticeRunID (sn_DataJSON n) = Ok run ∧
     ∀ run', rtc (launchedBy d sid) run run' → runLive d sid run').

Lemma agentWake_live c sid run d d' :
  agentWakeLineage c sid run d = Ok (tt, d') →
  d' = d ∧ ∀ run', rtc (launchedBy d sid) run run' → runLive d sid run'.
Proof.
  unfold agentWakeLineage. intros E. apply tx_bind_Ok in E as (fuel & d1 & Hf & E).
  apply reads_Ok in Hf as [_ ->]. pose proof E as Hd. apply reading_agentLineage in Hd as <-.
  split; [done|]. by eapply agentLineage_live.
Qed.

Lemma agentWake_fuel c sid run d : agentWakeLineage c sid run d ≠ OutOfFuel.
Proof.
  unfold agentWakeLineage. intros E. apply tx_bind_fuel in E as [E|(fuel & d1 & Hf & E)]; [done|].
  injection Hf as <- <-. revert E. apply agentLineage_fuel; [constructor|set_solver|simpl; lia].
Qed.

Lemma jobWake_live c sid n d d' :
  validateJobWake c sid n d = Ok (tt, d') →
  d' = d ∧ ∃ id job,
    noticeJobID (sn_DataJSON n) = Ok id ∧ jobs (others d) !! id = Some job ∧ jb_SessionID job = sid ∧
    turnLive d sid (jb_TurnID job) ∧
    ∀ run run', jb_AgentRunID job = Some run → rtc (launchedBy d sid) run run' → runLive d sid run'.
Proof.
  unfold validateJobWake. intros E. apply tx_bind_Ok in E as (id & d1 & Hid & E).
  apply reads_Ok in Hid as [Hid ->]. apply tx_bind_Ok in E as ([] & d1 & Hg & E).
  apply refuseIf_Ok in Hg as [_ ->]. apply tx_bind_Ok in E as (job & d1 & Hj & E).
  apply reads_Ok in Hj as [Hj ->]. apply firstRow_Ok in Hj as [Hj Hs].
  apply tx_bind_Ok in E as ([] & d1 & Ht & E). pose proof Ht as Hd. apply reading_wakeTurn in Hd as <-.
  apply wakeTurn_live in Ht.
  assert (noticeJobID (sn_DataJSON n) = Ok id) as Hid' by (by destruct (noticeJobID _)).
  destruct (jb_AgentRunID job) as [run|] eqn:Erun.
  - apply agentWake_live in E as [-> Hl]. split; [done|]. exists id, job. split_and!; try done.
    intros run0 run' Heq. rewrite Erun in Heq. injection Heq as <-. apply Hl.
  - injection E as <-. split; [done|]. exists id, job. split_and!; congruence || done.
Qed.

(** A turn that a wake opens is let in only if the notice is one of its own, of its
    session, and its source was not stopped: the turn of the job or run is neither cancelled
    nor asked to be, no execution above its roots is paused, and so for each run that
    launched it. *)
Theorem wake_admitted_live c sid wake l d d' :
  validateWakeAdmission c sid (Some wake) l d = Ok (tt, d') →
  d' = d ∧ ∃ n, n ∈ l ∧ sn_ID n = wake ∧ sn_SessionID n = sid ∧ wakeLive d sid n.
Proof.
  unfold validateWakeAdmission. intros E. apply tx_bind_Ok in E as ([] & d1 & Hg & E).
  apply refuseIf_Ok in Hg as [_ ->].
  destruct (filter (λ n, sn_ID n = wake) l) as [|n rest] eqn:Ef; [done|].
  assert (n ∈ filter (λ n, sn_ID n = wake) l) as [Hid Hn]%list_elem_of_filter
    by (rewrite Ef; by left).
  apply tx_bind_Ok in E as ([] & d1 & Hg & E).
  apply refuseIf_Ok in Hg as [Hs%negb_false_iff%bool_decide_eq_true ->].
  unfold validateWakeSource in E. case_bool_decide as Hj; [|case_bool_decide as Ha].
  - apply jobWake_live in E as [-> Hl]. split; [done|]. exists n. split_and!; try done.
    split; [done|]. rewrite Hj. intros Heq. by vm_compute in Heq.
  - apply tx_bind_Ok in E as (run & d1 & Hr & E). apply reads_Ok in Hr as [Hr ->].
    apply tx_bind_Ok in E as ([] & d1 & Hg & E). apply refuseIf_Ok in Hg as [_ ->].
    apply agentWake_live in E as [-> Hl]. split; [done|]. exists n. split_and!; try done.
    split; [done|]. intros _. exists run. split; [|done]. by destruct (noticeRunID _).
  - injection E as <-. split; [done|]. exists n. by split_and!.
Qed.

(** The check of a wake ends in every state, also when the parents of executions or of
    runs form a cycle: the fuel of the model is enough. *)
Theorem wake_admission_terminates c sid wake l d :
  validateWakeAdmission c sid wake l d ≠ OutOfFuel.
Proof.
  unfold validateWakeAdmission. destruct wake as [wake|]; [|done]. intros E.
  apply tx_bind_fuel in E as [E|([] & d1 & Hg & E)]; [by apply refuseIf_fuel in E|].
  apply refuseIf_Ok in Hg as [_ ->]. destruct (filter _ l) as [|n rest]; [done|].
  apply tx_bind_fuel in E as [E|([] & d1 & Hg & E)]; [by apply refuseIf_fuel in E|].
  apply refuseIf_Ok in Hg as [_ ->]. unfold validateWakeSource in E.
  case_bool_decide; [|case_bool_decide; [|done]].
  - unfold validateJobWake in E. apply tx_bind_fuel in E as [E|(id & d1 & Hid & E)].
    { unfold reads in E. by destruct (noticeJobID _). }
    apply reads_Ok in Hid as [_ ->].
    apply tx_bind_fuel in E as [E|([] & d1 & Hg & E)]; [by apply refuseIf_fuel in E|].
    apply refuseIf_Ok in Hg as [_ ->]. apply tx_bind_fuel in E as [E|(job & d1 & Hj & E)].
    { unfold reads, firstRow in E. repeat case_match; done. }
    apply reads_Ok in Hj as [_ ->].
    apply tx_bind_fuel in E as [E|([] & d1 & Ht & E)]; [by apply wakeTurn_fuel in E|].
    destruct (jb_AgentRunID job); [by apply agentWake_fuel in E|done].
  - apply tx_bind_fuel in E as [E|(run & d1 & Hr & E)].
    { unfold reads in E. by destruct (noticeRunID _). }
    apply reads_Ok in Hr as [_ ->].
    apply tx_bind_fuel in E as [E|([] & d1 & Hg & E)]; [by apply refuseIf_fuel in E|].
    by apply agentWake_fuel in E.
Qed.

End store.
(** ** Witnesses *)

Definition sample_begin_ops : list (call * store_op) :=
  [(sample_call 0%N, SCreate 1%N None); (sample_call 0%N, SAcquire sample_draws 1%N sample_start)].
Definition sample_work_ops : list (call * store_op) :=
  [(sample_call 0%N, sample_event (bs "a")); (sample_call 0%N, sample_notice 20%N)].
Definition sample_complete : FinalizeTurnInput := mkFinalizeTurn TurnStateCompleted [] [] None None [] [].
Definition sample_finish_ops : list (call * store_op) :=
  [(sample_call 0%N, SFinalize sample_draws sample_lease sample_complete)].
Definition sample_later_ops : list (call * store_op) :=
  [(sample_call 0%N, SEnd 21%N (λ _, 9%N) 1%N 2%N interruptedTurnEnd); (sample_call 0%N, SDrain 1%N);
   (sample_call 0%N, SRecover (λ _, sample_draws)); (sample_call 0%N, SCancel 1%N)].

Definition sample_worked : store := sample_store (sample_begin_ops ++ sample_work_ops).
Definition sample_finished : store :=
  sample_store ((sample_begin_ops ++ sample_work_ops) ++ sample_finish_ops).
Definition sample_later : store :=
  sample_store (((sample_begin_ops ++ sample_work_ops) ++ sample_finish_ops) ++ sample_later_ops).

Lemma sample_worked_reached : sample_reached sample_worked.
Proof. apply sample_ops_reached. Qed.
Lemma sample_worked_session :
  sessions (others (st_db sample_worked)) !! 1%N = Some (mkSession 0 1 2 0 0 (Some 5%Z)).
Proof. vm_compute. reflexivity. Qed.
Definition sample_pending : SessionNotice :=
  mkNotice 20%N 1%N 1 2 (bs "job.exited") (bs "host") (bs "a job ended") (bs "{}")
    NoticeDeliveryQueue NoticeStatePending 5 None.
Lemma sample_worked_notice : sessionNotices (others (st_db sample_worked)) !! 20%N = Some sample_pending.
Proof. vm_compute. reflexivity. Qed.
Definition sample_completed_turn : Turn :=
  mkTurn 1%N TurnStateCompleted false 0 4%N (bs "/w") None [] (Some 5%Z) 5 None None.
Lemma sample_finished_turn :
  turns (others (st_db sample_finished)) !! 2%N = Some sample_completed_turn.
Proof. vm_compute. reflexivity. Qed.

Lemma completed_turn_final_witness :
  tu_State sample_completed_turn = TurnStateCompleted ∧
  ∃ t', turns (others (st_db sample_later)) !! 2%N = Some t' ∧
    columnsOf t' = columnsOf sample_completed_turn.
Proof.
  split; [reflexivity|].
  apply (completed_turn_final 1000 1000 id sample_marshal sample_hash sample_finished sample_later 2%N sample_completed_turn).
  - apply sample_store_steps.
  - exact sample_finished_turn.
  - reflexivity.
Defined.

Lemma notice_delivered_once_witness :
  sessionNotices (others (st_db sample_worked)) !! 20%N = Some sample_pending ∧
  noticeFate (st_db sample_worked) (st_db sample_finished) 20%N sample_pending.
Proof.
  split; [exact sample_worked_notice|].
  apply (notice_delivered_once 1000 1000 id sample_marshal sample_hash sample_worked sample_finished 20%N sample_pending).
  - exact sample_worked_reached.
  - apply sample_store_steps.
  - exact sample_worked_notice.
Defined.

Lemma session_counters_grow_witness :
  ∃ y, sessions (others (st_db sample_later)) !! 1%N = Some y ∧
    sessionGrows (mkSession 0 1 2 0 0 (Some 5%Z)) y.
Proof.
  apply (session_counters_grow 1000 1000 id sample_marshal sample_hash sample_worked sample_later 1%N).
  - etrans; [apply sample_store_steps|apply sample_store_steps].
  - exact sample_worked_session.
Defined.

Lemma DrainSessionNotices_once_witness :
  sample_reached sample_worked ∧
  ∃ d', DrainSessionNotices (sample_call 0%N) 1%N (st_db sample_worked) =
      (d', Ok (noticeDelivered 5 <$> pendingNotices 1%N (st_db sample_worked))) ∧
    DrainSessionNotices (sample_call 0%N) 1%N d' = (d', Ok []).
Proof.
  split; [exact sample_worked_reached|].
  pose proof (DrainSessionNotices_once 1000 1000 id sample_marshal sample_hash (sample_call 0%N) (sample_call 0%N) 1%N sample_worked
    sample_worked_reached) as Hd.
  cbv zeta in Hd. rewrite sample_worked_session in Hd. destruct Hd as (d' & E & _ & _ & E').
  exists d'. split; [exact E|exact E'].
Defined.

Definition sample_ended : db * outcome bool :=
  EndRunningTurn 1000 id (sample_call 0%N) 22%N (λ _, 9%N) 1%N 2%N interruptedTurnEnd (st_db sample_worked).
Lemma sample_ended_Ok : sample_ended = (sample_ended.1, Ok true).
Proof. vm_compute. reflexivity. Qed.

Lemma EndRunningTurn_effect_witness :
  sample_reached sample_worked ∧
  ∃ turn, turnEnding (sample_call 0%N) 22%N 1%N 2%N interruptedTurnEnd turn (st_db sample_worked)
            sample_ended.1.
Proof.
  split; [exact sample_worked_reached|].
  assert (te_State interruptedTurnEnd ∉ [TurnStateRunning; TurnStateCompleted]) as Hst.
  { simpl. intros Hin. repeat (apply elem_of_cons in Hin as [Heq|Hin]; [discriminate Heq|]).
    by apply not_elem_of_nil in Hin. }
  pose proof (EndRunningTurn_effect 1000 1000 id sample_marshal sample_hash (sample_call 0%N) 22%N (λ _, 9%N) 1%N 2%N interruptedTurnEnd
    sample_worked sample_worked_reached Hst) as He.
  cbv zeta in He. pose proof sample_ended_Ok as Ho. unfold sample_ended at 1 in Ho. rewrite Ho in He. destruct He as (turn & _ & _ & _ & He & _). exists turn. exact He.
Defined.

(** A run of an agent, launched by the running turn, whose notice wakes the
    session. *)
Definition sample_run : AgentRun :=
  mkAgentRun 1%N 2%N None AgentRunStateRunning false None [] [] None [] [] 0 noResponse [].
Definition sample_launched : db := setAgentRuns (<[2%N := sample_run]>) (st_db sample_worked).
Definition sample_report : SessionNotice :=
  mkNotice 23%N 1%N 2 3 (bs "agent.completed") AgentSource (bs "an agent ended") (bs "{}")
    NoticeDeliveryWake NoticeStatePending 5 None.
Lemma sample_wake :
  validateWakeAdmission (sample_call 0%N) 1%N (Some 23%N) [sample_report] sample_launched =
    Ok (tt, sample_launched).
Proof. vm_compute. reflexivity. Qed.

Lemma wake_admitted_live_witness :
  sample_launched = sample_launched ∧ ∃ n, n ∈ [sample_report] ∧ sn_ID n = 23%N ∧ sn_SessionID n = 1%N ∧
    wakeLive sample_launched 1%N n.
Proof.
  apply (wake_admitted_live (sample_call 0%N) 1%N 23%N [sample_report] sample_launched sample_launched).
  exact sample_wake.
Defined.

End TurnPromises.
