(* ===== verification/RecordPromises.v ===== *)
(** What the store promises of child runs and of background jobs. *)
From stdpp Require Import base gmap sets list list_numbers strings sorting.
From Stdlib Require Import ZArith Lia Ascii.
From S2P Require Import Prelude GoBytes Json Executions ExecutionControl Activities ExecutionSteps TxRules Transcripts TranscriptRules Inbox Deferral InboxRules StoreSteps TextSteps Feed FeedRules FeedGrowth Notices ChildRuns Jobs TurnEnd Turns TurnSteps FeedSteps TurnRules JobRules RunRules FeedPromises TurnPromises.

Module RecordPromises.
Import Executions ExecutionControl Activities ExecutionSteps TxRules Transcripts TranscriptRules Inbox Deferral StoreSteps TextSteps Feed FeedRules FeedGrowth Notices ChildRuns Jobs TurnEnd Turns TurnSteps FeedSteps TurnRules JobRules RunRules FeedPromises TurnPromises.

Section store.
Variables maxExecutionStateBytes maxStoredMessageBytes : Z.
Variable Sum256 : bytes → bytes.
Variable marshalResolution : ResolveActivityInput → bytes.
Variable finishDecisionHash : CompleteActivityInput → bytes.
Context `{ImageCodec, InboxCodec, NoticeCodec, ChildCodec, TurnCodec}.
Local Abbreviation store_reachable := (store_reachable maxExecutionStateBytes maxStoredMessageBytes
  Sum256 marshalResolution finishDecisionHash).
Local Abbreviation store_step := (store_step maxExecutionStateBytes maxStoredMessageBytes
  Sum256 marshalResolution finishDecisionHash).

(** C14: A child run that completed, failed or was cancelled keeps its outcome: no later
    operation, the claims of another worker and the recovery for one included, changes
    its state, its failure, its response or the time it ended. *)
Theorem run_outcome_final s s' id r :
  rtc store_step s s' → agentRuns (others (st_db s)) !! id = Some r →
  runSettled (ar_State r) = true →
  ∃ r', agentRuns (others (st_db s')) !! id = Some r' ∧ outcomeOf r' = outcomeOf r.
Proof.
  intros Hs Hr Hst. pose proof (rows_records runsKept) as Hk.
  destruct (steps_kept _ _ _ _ _ runsKept s s' Hs id r Hr) as (r' & Hr' & Ho). eauto.
Qed.

Lemma reachable_jobs s : store_reachable s → ∀ id, jobNumbered (st_db s) id.
Proof.
  intros Hr. pose proof (rows_records outputKept) as Hk.
  apply (steps_kept _ _ _ _ _ outputKept) in Hr as [Hn _]; [|apply Hn].
  intros id. repeat split; done || constructor.
Qed.

(** C13: The output of a job is kept as one ordered log: its lines, of both streams, are
    numbered 1, 2, 3, ... in the order they were stored and belong to the job's session;
    later operations only append to it, never change what the job is, and leave a job that
    ended as it is, with its output. *)
Theorem job_output_kept s s' id job :
  store_reachable s → rtc store_step s s' → jobs (others (st_db s)) !! id = Some job →
  jobNumbered (st_db s') id ∧ linesOf id (st_db s) `prefix_of` linesOf id (st_db s') ∧
  jobFate (st_db s) (st_db s') id job.
Proof.
  intros Hr Hs Hj. pose proof (rows_records outputKept) as Hk.
  apply (steps_kept _ _ _ _ _ outputKept) in Hs as (Hn & Hp & Hf); [by apply reachable_jobs|].
  split_and!; [apply Hn|apply Hp|by apply Hf].
Qed.

(** A page of a job's output holds, in order, the first lines after the cursor, of the
    stream that was asked for; it says that there are more exactly when lines are left, and
    its next cursor is the number of its last line. A limit, a cursor or a stream out of
    range and an unknown job are refused. *)
Theorem ListJobOutput_page s sid id options :
  store_reachable s → (lo_Cursor options ≤ max_int64)%Z →
  let d := st_db s in
  let limit := if (lo_Limit options =? 0)%Z then DefaultPageLimit else lo_Limit options in
  let rows := streamLines (lo_Stream options)
                (drop (replayFrom (lo_Cursor options)) (linesOf id d)) in
  ListJobOutput sid id options d =
    if negb ((1 <=? limit)%Z && (limit <=? MaximumPageLimit)%Z && (0 <=? lo_Cursor options)%Z &&
             from_option knownStream true (lo_Stream options))
    then Err ErrInvalidPage
    else match jobs (others d) !! id with
    | Some job =>
        if bool_decide (jb_SessionID job = sid)
        then Ok (mkOutputPage job (take (Z.to_nat limit) rows)
                   (from_option jo_Sequence (lo_Cursor options) (last (take (Z.to_nat limit) rows)))
                   (Z.to_nat limit <? length rows))
        else Err ErrNotFound
    | None => Err ErrNotFound
    end.
Proof.
  intros Hr Hc d limit rows. unfold ListJobOutput, normalizeJobOutputOptions. fold limit.
  destruct (Z.ltb_spec limit 1), (Z.leb_spec 1 limit), (Z.ltb_spec MaximumPageLimit limit),
    (Z.leb_spec limit MaximumPageLimit), (Z.ltb_spec (lo_Cursor options) 0),
    (Z.leb_spec 0 (lo_Cursor options)); try lia; try done.
  simpl. destruct (from_option knownStream true (lo_Stream options)); [|done]. simpl.
  unfold firstRow. destruct (jobs (others d) !! id) as [job|] eqn:Ej; [|done]. simpl.
  destruct (bool_decide (jb_SessionID job = sid)) eqn:Hs; [|done].
  apply bool_decide_eq_true in Hs. simpl.
  rewrite (outputAfter_lines d sid id _ job) by (done || by apply reachable_jobs). simpl. fold rows.
  do 2 f_equal. case_bool_decide as Hn; destruct (Nat.ltb_spec (Z.to_nat limit) (length rows)) as [Hl|Hl];
    try done; exfalso.
  - apply (f_equal length) in Hn. rewrite length_take, length_drop, length_take in Hn.
    change (length []) with 0 in Hn. lia.
  - apply Hn, length_zero_iff_nil. rewrite length_take, length_drop, length_take. lia.
Qed.

(** ** Cancelling a run *)

(** The request finds the run as the guard of the first read left it. *)
Lemma requestRunCancel_Ok sid id run d :
  agentRuns (others d) !! id = Some run → ar_SessionID run = sid → ar_CancelRequested run = false →
  requestRunCancel sid id (ar_State run) d =
    Ok (true, setAgentRuns <[id := runCancelRequested run]> d).
Proof.
  intros Hr Hs Hc. unfold requestRunCancel, firstRow.
  by rewrite Hr, bool_decide_eq_true_2, Hc, bool_decide_eq_true_2 by done.
Qed.

Definition cancellable (run : AgentRun) : bool :=
  negb (runSettled (ar_State run)) && negb (ar_CancelRequested run).

Lemma cancellable_guard run :
  (negb (bool_decide (ar_State run = AgentRunStateRunning)) &&
   negb (bool_decide (ar_State run = AgentRunStateInterrupted))) || ar_CancelRequested run =
  negb (cancellable run).
Proof. unfold cancellable. by destruct (ar_State run), (ar_CancelRequested run). Qed.

Lemma findAgentRun_run c sid id run d :
  agentRuns (others d) !! id = Some run → ar_SessionID run = sid →
  requireAgentRunOwner c run = Ok tt → findAgentRun c sid id d = Ok (run, d).
Proof.
  intros Hr Hs Ho. unfold findAgentRun, mbind, tx_bind, reads, check, firstRow.
  rewrite Hr, bool_decide_eq_true_2 by done. simpl. by rewrite Ho.
Qed.

Lemma owner_settles c c' run run' :
  agentRunOwner c' = agentRunOwner c → runSettles run run' →
  requireAgentRunOwner c run = Ok tt → requireAgentRunOwner c' run' = Ok tt.
Proof. unfold requireAgentRunOwner. intros -> (_ & -> & _). done. Qed.

Lemma findAgentRun_owner c sid id d row d' :
  findAgentRun c sid id d = Ok (row, d') → requireAgentRunOwner c row = Ok tt.
Proof.
  unfold findAgentRun. intros (r & d1 & _ & E)%tx_bind_Ok.
  apply tx_bind_Ok in E as (u & d2 & Hc & E). unfold check in Hc. apply reads_Ok in Hc as [Hc _].
  injection E as <- _. by destruct u.
Qed.

(** What a granted request leaves behind. *)
Lemma requestCancel_granted c drawn sid id run before d d' :
  keyed (executions d) → agentRuns (others d) !! id = Some before → ar_SessionID before = sid →
  cancellable before = true → requireAgentRunOwner c before = Ok tt →
  requestAgentRunCancellation c drawn sid id d = Ok ((run, true), d') →
  (agentRuns (others d') !! id = Some run ∧ runSettles before run ∧ ar_CancelRequested run = true) ∧
  ∀ target x, executionOfRun sid id d = Some target → below (executions d) sid (ex_ID target) x →
    ∃ e', executions d' !! x = Some e' ∧ isExecutionTerminal (ex_State e') = true.
Proof.
  intros Hk Hr Hs Hc Ho E. unfold requestAgentRunCancellation in E.
  apply tx_bind_Ok in E as (r & d1 & Hf & E).
  rewrite (findAgentRun_run _ _ _ before) in Hf by done. injection Hf as <- <-.
  rewrite cancellable_guard, Hc in E. simpl in E.
  apply tx_bind_Ok in E as (hit & d2 & Hq & E).
  apply andb_true_iff in Hc as [_ Hc%negb_true_iff].
  rewrite requestRunCancel_Ok in Hq by done. injection Hq as <- <-. simpl in E.
  set (d2 := setAgentRuns <[id := runCancelRequested before]> d) in *.
  assert (agentRuns (others d2) !! id = Some (runCancelRequested before)) as Hr2
    by apply lookup_insert_eq.
  assert (runSettles before (runCancelRequested before)) as S0 by by destruct before.
  apply tx_bind_Ok in E as (target & d3 & Ht & E). apply reads_Ok in Ht as [[= <-] ->].
  change (executionOfRun sid id d2) with (executionOfRun sid id d) in E.
  destruct (executionOfRun sid id d) as [target|]; [|injection E as <- <-; split; [|done]]; cycle 1.
  { split_and!; [done|apply S0..|by destruct before]. }
  apply tx_bind_Ok in E as (members & d4 & Hm & E). apply reads_Ok in Hm as [[= <-] ->].
  apply tx_bind_Ok in E as (u & d5 & Hc5 & E). apply tx_bind_Ok in E as (stored & d6 & Hst & E).
  injection E as <- <-. apply findAgentRun_Ok in Hst as (-> & Hst & _).
  apply cancelMembers_end in Hc5 as [S Hall]; [|done].
  destruct (settles_runs _ _ S _ _ Hr2) as (r' & Hr' & G1 & G2 & G3). simplify_eq. split.
  - unfold runSettles. destruct before; simpl in *. split_and!; auto.
  - intros target' x [= <-] Hb.
    assert (∃ m, executions d !! x = Some m) as [m Hx].
    { by inversion Hb; eauto. }
    pose proof (Hk _ _ Hx) as <-. apply Hall. rewrite elem_of_Subtree by done. done.
Qed.

(** C15: The cancellation of a child run is asked for once. A run that can still be cancelled
    is marked as asked to stop and every execution below its own ends in the same call; a run
    that has settled, or was asked to stop before, and everything else stay as they are, also
    when the call is repeated; a call that fails changes nothing. *)
Theorem RequestAgentRunCancellation_once c drawn sid id d :
  keyed (executions d) →
  let '(d', r) := RequestAgentRunCancellation c drawn sid id d in
  match r with
  | Ok (run, requested) =>
      ∃ before, agentRuns (others d) !! id = Some before ∧ ar_SessionID before = sid ∧
        requested = cancellable before ∧ agentRuns (others d') !! id = Some run ∧
        (if requested then
           ar_CancelRequested run = true ∧
           ∀ target x, executionOfRun sid id d = Some target →
             below (executions d) sid (ex_ID target) x →
             ∃ e', executions d' !! x = Some e' ∧ isExecutionTerminal (ex_State e') = true
         else d' = d) ∧
        ∀ c' drawn', agentRunOwner c' = agentRunOwner c →
          RequestAgentRunCancellation c' drawn' sid id d' = (d', Ok (run, false))
  | _ => d' = d
  end.
Proof.
  intros Hk. destruct (RequestAgentRunCancellation c drawn sid id d) as [d' r] eqn:E.
  destruct r as [[run requested]|e| |]; try (by eapply transaction_other).
  apply transaction_Ok in E. pose proof E as E0.
  apply tx_bind_Ok in E0 as (before & d1 & Hf & E0).
  pose proof (findAgentRun_owner _ _ _ _ _ _ Hf) as Ho.
  apply findAgentRun_Ok in Hf as (-> & Hr & Hs).
  exists before. split; [done|]. split; [done|].
  assert (∀ c' run', agentRunOwner c' = agentRunOwner c → runSettles before run' →
    agentRuns (others d') !! id = Some run' → cancellable run' = false →
    ∀ drawn', RequestAgentRunCancellation c' drawn' sid id d' = (d', Ok (run', false))) as Hagain.
  { intros c' run' Hc' Hset Hr' Hno drawn'. unfold RequestAgentRunCancellation, transaction, requestAgentRunCancellation.
    rewrite (tx_then _ _ _ run' d' (Ok ((run', false), d'))); [done| |].
    - apply findAgentRun_run; [done|by destruct Hset as [-> _]|by eapply owner_settles].
    - by rewrite cancellable_guard, Hno. }
  rewrite cancellable_guard in E0. destruct (cancellable before) eqn:Hc; simpl in E0.
  - assert (requested = true) as ->.
    { apply andb_true_iff in Hc as [_ Hnc%negb_true_iff].
      apply tx_bind_Ok in E0 as (hit & d2 & Hq & E0). rewrite requestRunCancel_Ok in Hq by done.
      injection Hq as <- <-. simpl in E0. apply tx_bind_Ok in E0 as (target & d3 & _ & E0).
      destruct target; [|by injection E0].
      repeat (apply tx_bind_Ok in E0 as (? & ? & _ & E0)). by injection E0. }
    destruct (requestCancel_granted _ _ _ _ _ _ _ _ Hk Hr Hs Hc Ho E) as [(Hr' & Hset & Hq) Hall].
    split_and!; [done..|]. intros. apply Hagain; [done..|].
    unfold cancellable. by rewrite Hq, andb_false_r.
  - injection E0 as <- <- <-. split_and!; [done..|]. intros.
    apply Hagain; [done|by split_and!|done..].
Qed.

End store.

(** ** A sample session: a root, a child run of it and a job *)

Definition sample_launch : StartAgentRunInput :=
  mkStartRun 30%N 2%N None None 31%N (bs "scout") AgentRunDefinitionAdHoc 1 (bs "/w") (bs "m") (bs "m")
    (bs "look") (bs "look") (bs "[]") (bs "you look").
Definition sample_job_input : CreateJobInput :=
  mkCreateJob 40%N 2%N None None [] 7 (bs "build") (bs "make") (bs "/w") None.
Definition sample_line (stream : JobOutputStream) (text : bytes) : AppendJobOutputInput :=
  mkOutputInput Nil stream text None.
Definition sample_records : list (call * store_op) :=
  (λ o, (sample_call 0%N, o)) <$>
  [SCreate 1%N None; SAcquire sample_draws 1%N sample_start;
   SExecution (OpCreate 1%N (mkCreate 10%N 2%N None None (bs "v") (bs "w") (bs "t") (bs "/w") (bs "{}")));
   SStartRun 30%N 1%N sample_launch;
   SExecution (OpCreate 1%N (mkCreate 12%N 2%N (Some 10%N) (Some 30%N) (bs "v") (bs "w") (bs "t") (bs "/w") (bs "{}")));
   SJob (JCreate 40%N 1%N sample_job_input);
   SJob (JOutput (λ i, N.of_nat (41 + i)) 1%N 40%N
     [sample_line JobOutputStreamStdout (bs "a"); sample_line JobOutputStreamStderr (bs "b")]);
   SJob (JOutput (λ i, N.of_nat (51 + i)) 1%N 40%N [sample_line JobOutputStreamStdout (bs "c")])].
Definition sample_ending : list (call * store_op) :=
  (λ o, (sample_call 70%N, o)) <$>
  [SFinalizeRun 1%N 30%N (mkFinalizeRun AgentRunStateCompleted noResponse [] [])].
Definition sample_restart : list (call * store_op) :=
  (λ o, (sample_call 71%N, o)) <$>
  [SRecoverRuns; SCancelRun (λ _, (61%N, 62%N)) 1%N 30%N; SPrepareRuns 1%N 9%N;
   SClaimRun 1%N 30%N (mkClaimRun 9%N None AgentRunStateCompleted); SJob JRecover].
Definition sample_recorded : store := sample_store sample_records.
Definition sample_run_ended : store := sample_store (sample_records ++ sample_ending).
Definition sample_restarted : store := sample_store ((sample_records ++ sample_ending) ++ sample_restart).

Definition sample_ended_run : AgentRun :=
  mkAgentRun 1%N 2%N None AgentRunStateCompleted false None [] [] (Some 5%Z) (bs "/w")
    (bs "you look") 0 noResponse (bs "scout").
Lemma sample_ended_run_row :
  agentRuns (others (st_db sample_run_ended)) !! 30%N = Some sample_ended_run.
Proof. vm_compute. reflexivity. Qed.

Lemma run_outcome_final_witness :
  runSettled (ar_State sample_ended_run) = true ∧
  ∃ r', agentRuns (others (st_db sample_restarted)) !! 30%N = Some r' ∧
    outcomeOf r' = outcomeOf sample_ended_run.
Proof.
  split; [reflexivity|].
  apply (run_outcome_final 1000 1000 id sample_marshal sample_hash sample_run_ended sample_restarted 30%N sample_ended_run).
  - apply sample_store_steps.
  - exact sample_ended_run_row.
  - reflexivity.
Defined.

Definition sample_job : Job :=
  mkJob 1%N 2%N None None [] 7 (bs "build") (bs "make") (bs "/w") JobStateRunning (-1) [] 5 None.
Lemma sample_recorded_reached : sample_reached sample_recorded.
Proof. apply sample_ops_reached. Qed.
Lemma sample_recorded_job : jobs (others (st_db sample_recorded)) !! 40%N = Some sample_job.
Proof. vm_compute. reflexivity. Qed.

Lemma job_output_kept_witness :
  jo_Sequence <$> linesOf 40%N (st_db sample_recorded) = [1; 2; 3]%Z ∧
  jobNumbered (st_db sample_run_ended) 40%N ∧
  linesOf 40%N (st_db sample_recorded) `prefix_of` linesOf 40%N (st_db sample_run_ended).
Proof.
  split; [vm_compute; reflexivity|].
  destruct (job_output_kept 1000 1000 id sample_marshal sample_hash sample_recorded sample_run_ended 40%N sample_job)
    as (Hn & Hp & _).
  - exact sample_recorded_reached.
  - apply sample_store_steps.
  - exact sample_recorded_job.
  - split; [exact Hn|exact Hp].
Defined.

Lemma ListJobOutput_page_witness :
  sample_reached sample_recorded ∧
  ∃ page, ListJobOutput 1%N 40%N (mkOutputOptions 0 1 (Some JobOutputStreamStdout))
            (st_db sample_recorded) = Ok page ∧
    jo_Content <$> jp_Items page = [bs "a"] ∧ jp_NextCursor page = 1%Z ∧ jp_HasMore page = true.
Proof.
  split; [exact sample_recorded_reached|].
  assert (lo_Cursor (mkOutputOptions 0 1 (Some JobOutputStreamStdout)) ≤ max_int64)%Z as Hc by (vm_compute; discriminate).
  pose proof (ListJobOutput_page 1000 1000 id sample_marshal sample_hash sample_recorded 1%N 40%N
    (mkOutputOptions 0 1 (Some JobOutputStreamStdout)) sample_recorded_reached Hc) as Hp.
  cbv zeta in Hp. rewrite sample_recorded_job in Hp. eexists. split; [exact Hp|].
  split_and!; vm_compute; reflexivity.
Defined.

Definition sample_cancelled : db * outcome (AgentRun * bool) :=
  RequestAgentRunCancellation (sample_call 60%N) (λ _, (61%N, 62%N)) 1%N 30%N (st_db sample_recorded).
Definition sample_cancelled_run : AgentRun :=
  mkAgentRun 1%N 2%N None AgentRunStateCancelled true None [] [] (Some 5%Z) (bs "/w")
    (bs "you look") 1 noResponse (bs "scout").
Lemma sample_cancelled_Ok : sample_cancelled = (sample_cancelled.1, Ok (sample_cancelled_run, true)).
Proof. vm_compute. reflexivity. Qed.

Lemma RequestAgentRunCancellation_once_witness :
  keyed (executions (st_db sample_recorded)) ∧
  agentRuns (others sample_cancelled.1) !! 30%N = Some sample_cancelled_run ∧
  RequestAgentRunCancellation (sample_call 63%N) (λ _, (64%N, 65%N)) 1%N 30%N sample_cancelled.1 =
    (sample_cancelled.1, Ok (sample_cancelled_run, false)).
Proof.
  assert (keyed (executions (st_db sample_recorded))) as Hk.
  { assert (map_Forall (λ id e, ex_ID e = id) (executions (st_db sample_recorded))) as Hall
      by (apply (bool_decide_unpack _); vm_compute; exact I).
    intros id e He. exact (Hall id e He). }
  split; [exact Hk|].
  pose proof (RequestAgentRunCancellation_once (sample_call 60%N) (λ _, (61%N, 62%N)) 1%N 30%N
    (st_db sample_recorded) Hk) as Hc.
  pose proof sample_cancelled_Ok as Ho. unfold sample_cancelled at 1 in Ho. rewrite Ho in Hc.
  destruct Hc as (before & _ & _ & _ & Hrun & _ & Hagain).
  split; [exact Hrun|]. exact (Hagain (sample_call 63%N) (λ _, (64%N, 65%N)) eq_refl).
Defined.

End RecordPromises.
