(* ===== verification/Program.v ===== *)
(** Programs that ask a service for one action after another: the shape of the code
    that answers a worker.  A program is run against any service; a policy says
    which actions it may ask for after what it has been answered. *)
From stdpp Require Import base list.
From S2P Require Import Prelude.

Module Program.
Section program.
Context {action : Type} {result : action → Type}.

(** An answer is an [outcome], which the program may inspect. *)
Inductive program (R : Type) : Type :=
  | Done (o : outcome R)
  | Act (a : action) (k : outcome (result a) → program R).
#[global] Arguments Done {R} _.
#[global] Arguments Act {R} _ _.

(** The answer of one action; a failure ends the program. *)
Definition perform (a : action) : program (result a) := Act a Done.
Definition fail {R} (e : sentinel) : program R := Done (Err e).

Fixpoint bind {R T} (f : R → program T) (p : program R) : program T :=
  match p with
  | Done (Ok r) => f r
  | Done (Err e) => Done (Err e)
  | Done Panic => Done Panic
  | Done OutOfFuel => Done OutOfFuel
  | Act a k => Act a (λ o, bind f (k o))
  end.

#[export] Instance program_ret : MRet program := λ R r, Done (Ok r).
#[export] Instance program_bind : MBind program := λ R T f p, bind f p.

(** The same program with its errors mapped. *)
Fixpoint mapError {R} (f : sentinel → sentinel) (p : program R) : program R :=
  match p with
  | Done (Err e) => Done (Err (f e))
  | Done o => Done o
  | Act a k => Act a (λ o, mapError f (k o))
  end.

(** ** Running *)

Record event := Answered { ev_action : action; ev_answer : outcome (result ev_action) }.

(** The world afterwards, what was asked and answered, and the result. *)
Fixpoint run {W} (serve : ∀ a, W → W * outcome (result a)) {R} (p : program R) (w : W)
    : W * list event * outcome R :=
  match p with
  | Done o => (w, [], o)
  | Act a k =>
      let '(w, o) := serve a w in
      let '(w, events, r) := run serve (k o) w in (w, Answered a o :: events, r)
  end.

(** ** Policies *)

Section policy.
Variable allowed : list event → action → Prop.

(** Every action that the program may reach is allowed after the answers before it,
    and a result satisfies [Q] after all of them. *)
Fixpoint keeps {R} (past : list event) (p : program R) (Q : list event → R → Prop) : Prop :=
  match p with
  | Done (Ok r) => Q past r
  | Done _ => True
  | Act a k => allowed past a ∧ ∀ o, keeps (past ++ [Answered a o]) (k o) Q
  end.

(** The same of what a run asked. *)
Fixpoint kept (past events : list event) : Prop :=
  match events with
  | [] => True
  | e :: events => allowed past (ev_action e) ∧ kept (past ++ [e]) events
  end.

Lemma keeps_mono {R} (Q Q' : list event → R → Prop) past p :
  keeps past p Q → (∀ more r, Q (past ++ more) r → Q' (past ++ more) r) → keeps past p Q'.
Proof.
  revert past. induction p as [[r|e| |]|a k IH]; intros past Hp HQ; cbn in *; try done.
  - specialize (HQ []). rewrite app_nil_r in HQ. by apply HQ.
  - destruct Hp as [Ha Hk]. split; [done|]. intros o. apply IH; [done|].
    intros more r. rewrite <- app_assoc. apply HQ.
Qed.

Lemma keeps_bind {R T} (f : R → program T) (Q : list event → R → Prop) Q' past p :
  keeps past p Q → (∀ more r, Q (past ++ more) r → keeps (past ++ more) (f r) Q') →
  keeps past (p ≫= f) Q'.
Proof.
  revert past. induction p as [[r|e| |]|a k IH]; intros past Hp Hf; cbn in *; try done.
  - specialize (Hf []). rewrite app_nil_r in Hf. by apply Hf.
  - destruct Hp as [Ha Hk]. split; [done|]. intros o. apply IH; [done|].
    intros more r. rewrite <- app_assoc. apply Hf.
Qed.

Lemma keeps_perform a past (Q : list event → result a → Prop) :
  allowed past a → (∀ r, Q (past ++ [Answered a (Ok r)]) r) → keeps past (perform a) Q.
Proof. intros Ha HQ. split; [done|]. by intros [r|e| |]; cbn. Qed.

Lemma keeps_then {R} a (f : result a → program R) past Q :
  allowed past a → (∀ r, keeps (past ++ [Answered a (Ok r)]) (f r) Q) →
  keeps past (perform a ≫= f) Q.
Proof. intros Ha Hf. split; [done|]. by intros [r|e| |]; cbn. Qed.

Lemma keeps_guard {R T} (o : outcome R) (f : R → program T) past Q :
  (∀ r, o = Ok r → keeps past (f r) Q) → keeps past (Done o ≫= f) Q.
Proof. destruct o; cbn; auto. Qed.

Lemma keeps_mapError {R} f past (p : program R) Q : keeps past p Q → keeps past (mapError f p) Q.
Proof.
  revert past. induction p as [[r|e| |]|a k IH]; intros past Hp; cbn in *; try done.
  destruct Hp as [Ha Hk]. split; [done|]. intros o. by apply IH.
Qed.

Lemma keeps_run {W} (serve : ∀ a, W → W * outcome (result a)) {R} (p : program R) past Q w :
  keeps past p Q → kept past (run serve p w).1.2.
Proof.
  revert past w. induction p as [o|a k IH]; intros past w Hp; cbn in *; [done|].
  destruct Hp as [Ha Hk], (serve a w) as [w' o]. specialize (IH o _ w' (Hk o)).
  destruct (run serve (k o) w') as [[w'' events] r]. by split.
Qed.

Lemma kept_at past events i e :
  kept past events → events !! i = Some e → allowed (past ++ take i events) (ev_action e).
Proof.
  revert past i. induction events as [|e' events IH]; intros past i Hp Hi; [done|]. destruct Hp as [Ha Hk].
  destruct i as [|i]; cbn in *.
  - injection Hi as ->. by rewrite app_nil_r.
  - specialize (IH _ i Hk Hi). by rewrite <- app_assoc in IH.
Qed.
End policy.

Lemma keeps_policy (P P' : list event → action → Prop) {R} (p : program R) past Q :
  keeps P past p Q → (∀ more a, P (past ++ more) a → P' (past ++ more) a) → keeps P' past p Q.
Proof.
  revert past. induction p as [o|a k IH]; intros past Hp HP; cbn in *; [done|].
  destruct Hp as [Ha Hk]. split.
  - specialize (HP [] a). rewrite app_nil_r in HP. by apply HP.
  - intros o. apply IH; [done|]. intros more a'. rewrite <- app_assoc. apply HP.
Qed.
End program.

Arguments program {action} result R.
Arguments event {action} result.
Arguments fail {action result R} _.
End Program.
