(* ===== verification/Gateway.v ===== *)
(** What a worker's connection may ask of the controller's side: the requests of the
    worker protocol (src/internal/pkg/worker/protocol/methods.go, executiontypes.go,
    workflowtypes.go), the operations of the store and of the workflow backend they
    lead to, and the guards every handler shares (controller.go, executioncontroller.go). *)
From stdpp Require Import base gmap sets list strings.
From Stdlib Require Import ZArith Lia Ascii.
From S2P Require Import Prelude GoBytes Executions Activities Transcripts Inbox TurnEnd Turns ChildRuns Program.

Module Gateway.
Import Executions Activities Transcripts Inbox TurnEnd Turns ChildRuns Program.

(** ** Inputs

    The types that the handlers pass on unread. *)

Inductive inputType :=
  | OpenSessionOptions | ListMessagesOptions | ListEventsOptions | ListTurnsOptions
  | ListSessionNoticesOptions | CreateSessionNoticeInput | FinalizeTurnInput
  | CreateModelRunInput | FinalizeModelRunInput | ListModelRunsOptions
  | CreateModelCallInput | FinalizeModelCallInput | RecordModelCallRetriesInput
  | ListModelCallsOptions | CreateJobInput | FinalizeJobInput | ListJobsOptions
  | AppendJobOutputInputs | ListJobOutputOptions | RecordJobSignalInput
  | ListJobSignalRequestsOptions | FinalizeAgentRunInput | ListAgentRunsOptions
  | AgentRunEventInput | ListAgentRunEventsOptions | AgentRunMessageInputs
  | ListAgentRunMessagesOptions | AgentRunCompactionInput | ListAgentRunCompactionsOptions
  | CompactionInput | ListCompactionsOptions | ContextSnapshot | PromptSnapshot
  | ContentBlobs | WorkerReport | SummaryQuery | CreateExecutionInput
  | SearchExecutionsOptions | ScheduleActivityInput | CompleteActivityInput
  | ResolveActivityInput | ResumeControlRest | ListExecutionInboxOptions
  | AcceptExecutionMessageInput | CheckpointMessages | CheckpointEvents | WorkflowMetadata
  | EventRest.

(** The JSON of a type: its zero value and its decoder. *)
Class Wire (A : Type) := { zeroValue : A; unmarshal : bytes → option A }.

Definition decode {A} `{!Wire A} (payload : bytes) : outcome A :=
  match payload with
  | [] => Ok zeroValue
  | _ => match unmarshal payload with Some decoded => Ok decoded | None => Err ErrParseFailed end
  end.

Section gateway.
(** The values of those types, and the records that the store answers with. *)
Context {Input : inputType → Type} {Answer : Type}.

Record ClaimAgentRunInput := mkClaimInput {
  ci_GenerationID : uuid; ci_PreviousGenerationID : uuidText; ci_PreviousState : AgentRunState
}.

(** The control of an execution from a running activity; [rest] is what the handlers do
    not read. *)
Record controlInput := mkControlInput { ct_SourceLease : ActivityLease; ct_rest : Input ResumeControlRest }.

(** ** Workflow instances and events

    The types of the workflow library, as far as the handlers read them. *)

Inductive Instance := mkInstance {
  wi_InstanceID : bytes; wi_ExecutionID : bytes; wi_ParentEventID : Z; wi_Parent : option Instance
}.

Inductive EventType :=
  | EventType_WorkflowExecutionStarted | EventType_WorkflowExecutionCanceled
  | EventType_SignalReceived | EventType_ActivityScheduled | EventType_ActivityCompleted
  | EventType_ActivityFailed | EventType_Other (code : Z).

#[global] Instance EventType_eq_dec : EqDecision EventType.
Proof. solve_decision. Defined.

(** A nil pointer of an attribute type is [None]. *)
Inductive attributes :=
  | ExecutionStartedAttributes (fields : option (bytes * bytes))
  | ActivityScheduledAttributes (fields : option (bytes * bytes))
  | OtherAttributes.

(** The embedded event of a [workflowEvent] is a pointer, which may be nil. *)
Record historyEvent := mkHistoryEvent {
  he_ID : bytes; he_SequenceID : Z; he_Type : EventType; he_ScheduleEventID : Z;
  he_Attributes : attributes; he_rest : Input EventRest
}.
Definition workflowEvent : Type := option historyEvent.

Inductive WorkflowInstanceState :=
  | WorkflowInstanceStateActive | WorkflowInstanceStateContinuedAsNew
  | WorkflowInstanceStateFinished | WorkflowInstanceStateOther (code : Z).

Record workflowTask := mkTask {
  wt_ID : bytes; wt_Queue : bytes; wt_Instance : option Instance; wt_State : WorkflowInstanceState;
  wt_Metadata : option (Input WorkflowMetadata); wt_LastSequenceID : Z;
  wt_NewEvents : list (option workflowEvent)
}.
Record workflowActivity := mkWorkflowActivity {
  wa_ID : bytes; wa_ActivityID : bytes; wa_Queue : bytes; wa_Instance : option Instance;
  wa_Event : option workflowEvent
}.
Record workflowTargetEvent := mkTarget {
  tg_Instance : option Instance; tg_Event : option workflowEvent
}.

(** The library's tasks and stored instances. *)
Record WorkflowTask := mkNativeTask {
  nt_ID : bytes; nt_Queue : bytes; nt_WorkflowInstance : option Instance;
  nt_WorkflowInstanceState : WorkflowInstanceState; nt_Metadata : option (Input WorkflowMetadata);
  nt_LastSequenceID : Z; nt_NewEvents : list (option historyEvent)
}.
Record ActivityTask := mkNativeActivity {
  na_ID : bytes; na_ActivityID : bytes; na_Queue : bytes; na_WorkflowInstance : option Instance;
  na_Event : option historyEvent
}.
Record storedInstance := mkStoredInstance { st_Queue : bytes; st_State : WorkflowInstanceState }.

(** ** Operations *)

(** The store's, under their Go names. *)
Inductive operation :=
  | Get (s : uuid) | GetDirectoryState (s : uuid) | CompletedHistory (s : uuid)
  | DrainSessionNotices (s : uuid) | LatestCompaction (s : uuid) | OpenAgentRunQuestions (s : uuid)
  | CreateOrResume (requested : option uuid) (options : Input OpenSessionOptions)
  | ListMessages (s : uuid) (options : Input ListMessagesOptions)
  | ListEvents (s : uuid) (options : Input ListEventsOptions)
  | ListTurns (s : uuid) (options : Input ListTurnsOptions)
  | ListSessionNotices (s : uuid) (options : Input ListSessionNoticesOptions)
  | CreateSessionNotice (s : uuid) (input : Input CreateSessionNoticeInput)
  | AcquireTurn (s : uuid) (input : StartTurnInput)
  | AppendCheckpoint (lease : Lease) (messages : Input CheckpointMessages) (events : Input CheckpointEvents)
  | FinalizeTurn (lease : Lease) (input : Input FinalizeTurnInput)
  | ReleaseTurn (lease : Lease)
  | EndRunningTurn (s turn : uuid) (ending : TurnEnd)
  | RecordTurnWorkerGeneration (lease : Lease) (generation : uuid)
  | Cancel (s : uuid)
  | CreateModelRun (s : uuid) (input : Input CreateModelRunInput)
  | FinalizeModelRun (s run : uuid) (input : Input FinalizeModelRunInput)
  | GetModelRun (s run : uuid)
  | ListModelRuns (s : uuid) (options : Input ListModelRunsOptions)
  | CreateModelCall (s run : uuid) (input : Input CreateModelCallInput)
  | FinalizeModelCall (s run call : uuid) (input : Input FinalizeModelCallInput)
  | RecordModelCallRetries (s run call : uuid) (input : Input RecordModelCallRetriesInput)
  | ListModelCalls (s run : uuid) (options : Input ListModelCallsOptions)
  | CreateJob (s : uuid) (input : Input CreateJobInput)
  | FinalizeJob (s job : uuid) (input : Input FinalizeJobInput)
  | GetJob (s job : uuid)
  | ListJobs (s : uuid) (options : Input ListJobsOptions)
  | AppendJobOutput (s job : uuid) (inputs : Input AppendJobOutputInputs)
  | ListJobOutput (s job : uuid) (options : Input ListJobOutputOptions)
  | RecordJobSignal (s job : uuid) (input : Input RecordJobSignalInput)
  | ListJobSignalRequests (s job : uuid) (options : Input ListJobSignalRequestsOptions)
  | CreateAgentRun (s : uuid) (input : StartAgentRunInput)
  | ClaimAgentRun (s run : uuid) (input : ClaimAgentRunInput)
  | PrepareAgentRunRecovery (s generation : uuid)
  | FinalizeAgentRun (s run : uuid) (input : Input FinalizeAgentRunInput)
  | GetAgentRun (s run : uuid)
  | ListAgentRuns (s : uuid) (options : Input ListAgentRunsOptions)
  | AppendAgentRunEvent (s run : uuid) (input : Input AgentRunEventInput)
  | ListAgentRunEvents (s run : uuid) (options : Input ListAgentRunEventsOptions)
  | RequestAgentRunCancellation (s run : uuid)
  | AppendAgentRunMessages (s run : uuid) (inputs : Input AgentRunMessageInputs)
  | ListAgentRunMessages (s run : uuid) (options : Input ListAgentRunMessagesOptions)
  | AgentRunHistory (s run : uuid)
  | CreateAgentRunCompaction (s run : uuid) (input : Input AgentRunCompactionInput)
  | LatestAgentRunCompaction (s run : uuid)
  | ListAgentRunCompactions (s run : uuid) (options : Input ListAgentRunCompactionsOptions)
  | GetAgentRunCompaction (s run compaction : uuid)
  | CreateCompaction (s : uuid) (input : Input CompactionInput)
  | GetCompaction (s compaction : uuid)
  | ListCompactions (s : uuid) (options : Input ListCompactionsOptions)
  | SaveContextSnapshot (snapshot : Input ContextSnapshot)
  | SavePromptSnapshot (snapshot : Input PromptSnapshot)
  | GetContextSnapshot (s : uuid) (hash : bytes)
  | GetPromptSnapshot (s : uuid) (hash : bytes)
  | PutContentBlobs (blobs : Input ContentBlobs)
  | GetContentBlobs (hashes : list bytes)
  | GetWorkerGeneration (s generation : uuid) | CurrentWorkerGeneration (s : uuid)
  | CreateExecution (s : uuid) (input : Input CreateExecutionInput)
  | GetExecution (s execution : uuid)
  | SearchExecutions (s : uuid) (options : Input SearchExecutionsOptions)
  | PauseExecution (s execution : uuid) (reason : bytes)
  | ResumeExecution (s execution : uuid)
  | ResumeExecutionFromActivity (s execution : uuid) (input : controlInput)
  | ResolveExecutionActivityFromActivity (s activity : uuid) (input : controlInput)
  | ListExecutionEvents (s execution : uuid) (page : Input ListEventsOptions)
  | BeginExecutionActivity (s execution generation : uuid) (input : Input ScheduleActivityInput)
  | CompleteExecutionActivityReceipt (s : uuid) (lease : ActivityLease) (input : Input CompleteActivityInput)
  | InterruptExecutionActivity (s : uuid) (lease : ActivityLease)
  | ResolveExecutionActivity (s activity : uuid) (input : Input ResolveActivityInput)
  | GetExecutionActivity (s activity : uuid)
  | ListExecutionActivities (s execution : uuid) (page : Input ListEventsOptions)
  | ReserveExecutionCompletion (s : uuid) (lease : ActivityLease)
  | GetExecutionRootTurn (s execution : uuid) | GetExecutionTurnLease (s execution : uuid)
  | RestoreExecutionTurn (s execution : uuid) (input : RestoreExecutionTurnInput)
  | DeferExecutionMessage (execution : uuid) (lease : Lease) (input : Input AcceptExecutionMessageInput)
  | AcquireDeferredExecutionTurn (s inbox : uuid) (input : StartTurnInput)
  | ListDeferredExecutionMessages (s : uuid) (page : Input ListEventsOptions)
  | GetExecutionMessageByRequest (s execution request : uuid)
  | ListExecutionMessages (s execution : uuid) (page : Input ListExecutionInboxOptions)
  | AcceptExecutionMessage (execution : uuid) (lease : Lease) (input : Input AcceptExecutionMessageInput)
  | AcceptChildExecutionMessage (s execution : uuid) (input : Input AcceptExecutionMessageInput)
  | DeliverExecutionMessages (s : uuid) (input : DeliverExecutionMessagesInput)
  | DeliverChildExecutionMessages (s : uuid) (lease : ActivityLease) (requests : list uuid).

(** The workflow backend's. *)
Inductive backendCall :=
  | GetWorkflowInstance (i : Instance)
  | GetWorkflowInstanceState (i : Instance)
  | GetWorkflowInstanceHistory (i : Instance) (after : option Z)
  | CreateWorkflowInstance (i : Instance) (e : historyEvent)
  | CancelWorkflowInstance (i : Instance) (e : historyEvent)
  | SignalWorkflow (id : bytes) (e : historyEvent)
  | GetWorkflowTask (queues : list bytes)
  | ExtendWorkflowTask (t : WorkflowTask)
  | CompleteWorkflowTask (t : WorkflowTask) (state : WorkflowInstanceState)
      (executed activities timers : list (option historyEvent))
      (targets : list (option Instance * historyEvent))
  | GetActivityTask (queues : list bytes)
  | ExtendActivityTask (t : ActivityTask)
  | CompleteActivityTask (t : ActivityTask) (e : historyEvent).

(** [owner] is the fence that the context carries for writes to child runs;
    [Ingest] and [Summarize] are the metrics of the connection. *)
Inductive action :=
  | StoreCall (owner : option uuid) (op : operation)
  | BackendCall (call : backendCall)
  | ReleaseClaim
  | Released
  | Ingest (report : Input WorkerReport)
  | Summarize (query : Input SummaryQuery).

(** What is answered; an answer that no handler reads is an [Answer]. *)
Definition result (a : action) : Type :=
  match a with
  | StoreCall _ (GetWorkerGeneration _ _) => WorkerState
  | StoreCall _ (CurrentWorkerGeneration _) => uuid
  | StoreCall _ (Cancel _) | StoreCall _ (EndRunningTurn _ _ _) => bool
  | StoreCall _ (RequestAgentRunCancellation _ _) => Answer * bool
  | BackendCall (GetWorkflowInstance _) => option storedInstance
  | BackendCall (GetWorkflowInstanceHistory _ _) => list (option historyEvent)
  | BackendCall (GetWorkflowTask _) => option WorkflowTask
  | BackendCall (GetActivityTask _) => option ActivityTask
  | Released => bool
  | _ => Answer
  end.

Record workflowHistoryPage := mkHistoryPage { hp_Events : list (option workflowEvent); hp_More : bool }.

(** What a handler returns. *)
Inductive response :=
  | Passed (answer : Answer)
  | NoResponse
  | Ack
  | EmptyObject
  | BoolResult (value : bool)
  | AgentRunCancellationResult (run : Answer) (requested : bool)
  | HistoryPage (page : workflowHistoryPage)
  | TaskResponse (task : option workflowTask)
  | ActivityResponse (task : option workflowActivity).

Abbreviation handler := (program result).

(** ** The guards *)

(** [co_historyPageBytes] is there once workflow storage is attached. *)
Record Controller := mkController {
  co_sessionID : uuid; co_generationID : uuid; co_historyPageBytes : option Z
}.

Section guards.
Variable c : Controller.

Definition assertSession (s : uuid) : outcome unit :=
  if bool_decide (s = co_sessionID c) then Ok tt else Err ErrPermissionDenied.

Definition assertLease (lease : Lease) : outcome unit := assertSession (ls_SessionID lease).

Definition requireRecoveryWorker (s : uuid) : handler unit :=
  state ← perform (StoreCall None (GetWorkerGeneration s (co_generationID c)));
  Done (if bool_decide (state ≠ WorkerStarting) && bool_decide (state ≠ WorkerReady)
        then Err ErrPermissionDenied else Ok tt).

Definition requireCurrentWorkflowWorker : handler unit :=
  requireRecoveryWorker (co_sessionID c);;
  current ← perform (StoreCall None (CurrentWorkerGeneration (co_sessionID c)));
  Done (if bool_decide (current = co_generationID c) then Ok tt else Err ErrPermissionDenied).
End guards.
End gateway.

Arguments controlInput Input : clear implicits.
Arguments historyEvent Input : clear implicits.
Arguments workflowEvent Input : clear implicits.
Arguments workflowTask Input : clear implicits.
Arguments workflowActivity Input : clear implicits.
Arguments workflowTargetEvent Input : clear implicits.
Arguments WorkflowTask Input : clear implicits.
Arguments ActivityTask Input : clear implicits.
Arguments operation Input : clear implicits.
Arguments backendCall Input : clear implicits.
Arguments action Input : clear implicits.
Arguments result Input Answer a : clear implicits.
Arguments workflowHistoryPage Input : clear implicits.
Arguments response Input Answer : clear implicits.
End Gateway.
