(* ===== verification/WorkflowGate.v ===== *)
(** The workflow requests of a worker
    (src/internal/pkg/worker/protocol/workflowcontroller.go, workflowtypes.go): which
    calls of the workflow backend they lead to, and the pages a history is read in. *)
From stdpp Require Import base gmap sets list strings.
From Stdlib Require Import ZArith Lia Ascii Sorted.
From S2P Require Import Prelude GoBytes Executions Program Gateway.

Module WorkflowGate.
Import Executions Program Gateway.

Definition workflowInstanceSeparator : ascii := "/"%char.
Definition maximumWorkflowParentDepth : nat := 128.
Definition workflowHistoryPageBytes : Z := 8 * 2 ^ 20.

Inductive workflowOperation :=
  | workflowCreateInstance | workflowCancelInstance | workflowGetState | workflowGetHistory
  | workflowSignal | workflowPrepareQueues | workflowGetTask | workflowExtendTask
  | workflowCompleteTask | workflowGetActivity | workflowExtendActivity
  | workflowCompleteActivity | workflowReleaseClaims | workflowOtherOperation (text : bytes).

Section gate.
Context {Input : inputType → Type} {Answer : Type}.
Local Abbreviation handler := (program (result Input Answer)).
Local Abbreviation Event := (historyEvent Input).
Local Abbreviation wrapped := (option (workflowEvent Input)).

Record workflowRequest := mkWorkflowRequest {
  wr_Operation : workflowOperation; wr_Instance : option Instance; wr_InstanceID : bytes;
  wr_Event : wrapped; wr_Queues : list bytes; wr_LastSequenceID : option Z;
  wr_State : WorkflowInstanceState; wr_Task : option (workflowTask Input);
  wr_Activity : option (workflowActivity Input); wr_ExecutedEvents : list wrapped;
  wr_ActivityEvents : list wrapped; wr_TimerEvents : list wrapped;
  wr_WorkflowEvents : list (option (workflowTargetEvent Input))
}.

Definition ask (a : action Input) : handler (result Input Answer a) := perform a.

(** ** Conversions *)

(** A pointer to a [workflowEvent] whose embedded event is not nil. *)
Definition present (event : wrapped) : option Event :=
  match event with Some e => e | None => None end.

Definition encodeWorkflowEvents (events : list (option Event)) : list wrapped :=
  (λ event : option Event, fmap (M:=option) Some event) <$> events.
Definition decodeWorkflowEvents (events : list wrapped) : list (option Event) := present <$> events.

Definition encodeWorkflowTask (task : option (WorkflowTask Input)) : option (workflowTask Input) :=
  (λ t, mkTask (nt_ID t) (nt_Queue t) (nt_WorkflowInstance t) (nt_WorkflowInstanceState t)
          (nt_Metadata t) (nt_LastSequenceID t) (encodeWorkflowEvents (nt_NewEvents t))) <$> task.
Definition nativeTask (t : workflowTask Input) : WorkflowTask Input :=
  mkNativeTask (wt_ID t) (wt_Queue t) (wt_Instance t) (wt_State t) (wt_Metadata t)
    (wt_LastSequenceID t) (decodeWorkflowEvents (wt_NewEvents t)).

Definition encodeWorkflowActivity (task : option (ActivityTask Input)) : option (workflowActivity Input) :=
  (λ t, mkWorkflowActivity (na_ID t) (na_ActivityID t) (na_Queue t) (na_WorkflowInstance t)
          (Some (na_Event t))) <$> task.
Definition nativeActivity (t : workflowActivity Input) : ActivityTask Input :=
  mkNativeActivity (wa_ID t) (wa_ActivityID t) (wa_Queue t) (wa_Instance t) (present (wa_Event t)).

(** ** Ownership

    The text of a UUID, its parser, the library's system queue, and the length of an
    event's JSON, which may fail. *)
Variables (uuidString : uuid → bytes) (uuidParse : bytes → option uuid) (QueueSystem : bytes)
  (jsonLength : wrapped → option Z).
Variable sessionID : uuid.

Definition WorkflowInstanceID (session execution : uuid) : bytes :=
  uuidString session ++ workflowInstanceSeparator :: uuidString execution.

Definition queue : bytes := uuidString sessionID.

Definition allowedQueue (q : bytes) : bool := bool_decide (q = queue) || bool_decide (q = QueueSystem).

(** Each queue is the session's or the system's, and one is the session's. *)
Definition queues (qs : list bytes) : outcome unit :=
  if forallb allowedQueue qs && existsb (λ q, bool_decide (q = queue)) qs then Ok tt
  else Err ErrPermissionDenied.

(** [strings.Cut] at one byte. *)
Fixpoint cut (c : ascii) (s : bytes) : option (bytes * bytes) :=
  match s with
  | [] => None
  | a :: s =>
      if bool_decide (a = c) then Some ([], s)
      else '(before, after) ← cut c s; Some (a :: before, after)
  end.

Definition parsed (text : bytes) : bool :=
  match uuidParse text with Some id => bool_decide (id ≠ Nil) | None => false end.

Definition instanceID (value : bytes) : outcome unit :=
  match cut workflowInstanceSeparator value with
  | Some (session, execution) =>
      if negb (bool_decide (session = uuidString sessionID)) then Err ErrPermissionDenied
      else if parsed execution then Ok tt else Err ErrValidationFailed
  | None => Err ErrPermissionDenied
  end.

Fixpoint instanceAt (depth : nat) (i : Instance) : outcome unit :=
  if (maximumWorkflowParentDepth <=? depth)%nat then Err ErrValidationFailed
  else
    instanceID (wi_InstanceID i);;
    if negb (parsed (wi_ExecutionID i)) || (wi_ParentEventID i <? 0)%Z then Err ErrValidationFailed
    else match wi_Parent i with Some parent => instanceAt (S depth) parent | None => Ok tt end.
Definition instance (i : Instance) : outcome unit := instanceAt 0 i.

Definition ownedInstance (i : option Instance) : handler Instance :=
  match i with
  | None => fail ErrValidationFailed
  | Some i =>
      Done (instance i);;
      stored ← ask (BackendCall (GetWorkflowInstance i));
      Done (match stored with
            | None => Err ErrInstanceNotFound
            | Some stored => if bool_decide (st_Queue stored = queue) then Ok i else Err ErrPermissionDenied
            end)
  end.

(** ** Instances *)

Definition startedOnQueue (e : Event) : outcome unit :=
  match he_Attributes e with
  | ExecutionStartedAttributes (Some (name, q)) =>
      if bool_decide (name = []) || negb (bool_decide (he_Type e = EventType_WorkflowExecutionStarted))
      then Err ErrValidationFailed else queues [q]
  | _ => Err ErrValidationFailed
  end.

Definition create (r : workflowRequest) : handler (response Input Answer) :=
  match wr_Instance r, present (wr_Event r) with
  | Some i, Some e =>
      Done (instance i);;
      Done (startedOnQueue e);;
      match wi_Parent i with Some parent => ownedInstance (Some parent);; mret tt | None => mret tt end;;
      ask (BackendCall (CreateWorkflowInstance i e));;
      mret EmptyObject
  | _, _ => fail ErrValidationFailed
  end.

Definition cancel (r : workflowRequest) : handler (response Input Answer) :=
  i ← ownedInstance (wr_Instance r);
  match present (wr_Event r) with
  | Some e =>
      if bool_decide (he_Type e = EventType_WorkflowExecutionCanceled) then
        ask (BackendCall (CancelWorkflowInstance i e));; mret EmptyObject
      else fail ErrValidationFailed
  | None => fail ErrValidationFailed
  end.

Definition getState (r : workflowRequest) : handler (response Input Answer) :=
  i ← ownedInstance (wr_Instance r);
  state ← ask (BackendCall (GetWorkflowInstanceState i)); mret (Passed state).

(** The events that fit the budget, and at least one. *)
Fixpoint pageOf (budget size : Z) (first : bool) (events : list wrapped)
    : outcome (workflowHistoryPage Input) :=
  match events with
  | [] => Ok (mkHistoryPage [] false)
  | event :: events =>
      match jsonLength event with
      | None => Err ErrOther
      | Some encoded =>
          if negb first && (budget <? size + encoded)%Z then Ok (mkHistoryPage [] true)
          else
            page ← pageOf budget (size + encoded) false events;
            Ok (mkHistoryPage (event :: hp_Events page) (hp_More page))
      end
  end.
Definition workflowHistoryPageOf (events : list wrapped) (budget : Z)
    : outcome (workflowHistoryPage Input) := pageOf budget 0 true events.

Definition getHistory (historyPageBytes : Z) (r : workflowRequest) : handler (response Input Answer) :=
  i ← ownedInstance (wr_Instance r);
  if from_option (λ last, (last <? 0)%Z) false (wr_LastSequenceID r) then fail ErrValidationFailed
  else
    events ← ask (BackendCall (GetWorkflowInstanceHistory i (wr_LastSequenceID r)));
    page ← Done (workflowHistoryPageOf (encodeWorkflowEvents events) historyPageBytes);
    mret (HistoryPage page).

Definition signal (r : workflowRequest) : handler (response Input Answer) :=
  Done (instanceID (wr_InstanceID r));;
  match present (wr_Event r) with
  | Some e =>
      if bool_decide (he_Type e = EventType_SignalReceived) then
        ask (BackendCall (SignalWorkflow (wr_InstanceID r) e));; mret EmptyObject
      else fail ErrValidationFailed
  | None => fail ErrValidationFailed
  end.

(** ** Tasks *)

Definition getTask (r : workflowRequest) : handler (response Input Answer) :=
  Done (queues (wr_Queues r));;
  released ← ask Released;
  if released : bool then mret (TaskResponse None)
  else
    task ← ask (BackendCall (GetWorkflowTask [queue]));
    mret (TaskResponse (encodeWorkflowTask task)).

Definition getActivity (qs : list bytes) : handler (response Input Answer) :=
  Done (queues qs);;
  released ← ask Released;
  if released : bool then mret (ActivityResponse None)
  else
    task ← ask (BackendCall (GetActivityTask [queue]));
    mret (ActivityResponse (encodeWorkflowActivity
      ((λ t, mkNativeActivity (na_ID t) (na_ActivityID t) queue (na_WorkflowInstance t) (na_Event t))
         <$> task))).

Definition workflowTaskGuard (task : option (workflowTask Input)) : handler (workflowTask Input) :=
  match task with
  | None => fail ErrValidationFailed
  | Some t =>
      if bool_decide (wt_ID t = []) || (wt_LastSequenceID t <? 0)%Z then fail ErrValidationFailed
      else
        Done (queues [wt_Queue t]);;
        ownedInstance (wt_Instance t);; mret t
  end.

Definition activityTask (task : option (workflowActivity Input))
    : handler (workflowActivity Input * Event) :=
  match task with
  | None => fail ErrValidationFailed
  | Some t =>
      if bool_decide (wa_ID t = []) || negb (bool_decide (wa_ActivityID t = wa_ID t))
      then fail ErrValidationFailed
      else
        match present (wa_Event t) with
        | None => fail ErrValidationFailed
        | Some e =>
            if negb (bool_decide (he_ID e = wa_ID t)) ||
               negb (bool_decide (he_Type e = EventType_ActivityScheduled))
            then fail ErrValidationFailed
            else
              Done (queues [wa_Queue t]);;
              ownedInstance (wa_Instance t);; mret (t, e)
        end
  end.

Definition extendTask (r : workflowRequest) : handler (response Input Answer) :=
  t ← workflowTaskGuard (wr_Task r);
  ask (BackendCall (ExtendWorkflowTask (nativeTask t)));; mret EmptyObject.

Definition extendActivity (r : workflowRequest) : handler (response Input Answer) :=
  '(t, _) ← activityTask (wr_Activity r);
  ask (BackendCall (ExtendActivityTask (nativeActivity t)));; mret EmptyObject.

Definition completeActivity (r : workflowRequest) : handler (response Input Answer) :=
  '(t, scheduled) ← activityTask (wr_Activity r);
  match present (wr_Event r) with
  | None => fail ErrValidationFailed
  | Some e =>
      if negb (he_ScheduleEventID e =? he_ScheduleEventID scheduled)%Z ||
         (bool_decide (he_Type e ≠ EventType_ActivityCompleted) &&
          bool_decide (he_Type e ≠ EventType_ActivityFailed))
      then fail ErrValidationFailed
      else ask (BackendCall (CompleteActivityTask (nativeActivity t) e));; mret NoResponse
  end.

(** ** Checkpoints *)

Definition ownQueue (q : bytes) : outcome unit :=
  if bool_decide (q = []) || bool_decide (q = queue) then Ok tt else Err ErrPermissionDenied.

Definition validateActivityEvent (event : wrapped) : outcome unit :=
  match fmap (M:=option) he_Attributes (present event) with
  | Some (ActivityScheduledAttributes (Some (name, q))) =>
      if bool_decide (name = []) then Err ErrValidationFailed else ownQueue q
  | _ => Err ErrValidationFailed
  end.

Definition validateWorkflowStart (e : Event) : outcome unit :=
  match he_Attributes e with
  | ExecutionStartedAttributes (Some (name, q)) =>
      if bool_decide (name = []) then Err ErrValidationFailed else ownQueue q
  | _ => Err ErrValidationFailed
  end.

(** The instance and the event of a target that may be delivered. *)
Definition validateWorkflowTarget (target : option (workflowTargetEvent Input))
    : handler (Instance * Event) :=
  match target with
  | None => fail ErrValidationFailed
  | Some target =>
      match tg_Instance target, present (tg_Event target) with
      | Some i, Some e =>
          Done (instance i);;
          (if bool_decide (he_Type e = EventType_WorkflowExecutionStarted)
           then Done (validateWorkflowStart e)
           else ownedInstance (Some i);; mret tt);;
          mret (i, e)
      | _, _ => fail ErrValidationFailed
      end
  end.

Fixpoint validateWorkflowTargets (targets : list (option (workflowTargetEvent Input)))
    : handler (list (Instance * Event)) :=
  match targets with
  | [] => mret []
  | target :: targets =>
      first ← validateWorkflowTarget target;
      rest ← validateWorkflowTargets targets;
      mret (first :: rest)
  end.

Fixpoint forEach {A} (f : A → outcome unit) (l : list A) : outcome unit :=
  match l with [] => Ok tt | x :: l => f x;; forEach f l end.

Definition requirePresent (event : wrapped) : outcome unit :=
  match present event with Some _ => Ok tt | None => Err ErrValidationFailed end.

Definition validateWorkflowEvents (r : workflowRequest) : handler (list (Instance * Event)) :=
  Done (forEach requirePresent (wr_ExecutedEvents r ++ wr_ActivityEvents r ++ wr_TimerEvents r));;
  Done (forEach validateActivityEvent (wr_ActivityEvents r));;
  validateWorkflowTargets (wr_WorkflowEvents r).

Definition knownState (state : WorkflowInstanceState) : bool :=
  match state with WorkflowInstanceStateOther _ => false | _ => true end.

Definition completeWorkflow (r : workflowRequest) : handler (response Input Answer) :=
  t ← workflowTaskGuard (wr_Task r);
  if negb (knownState (wr_State r)) then fail ErrValidationFailed
  else
    targets ← validateWorkflowEvents r;
    ask (BackendCall (CompleteWorkflowTask (nativeTask t) (wr_State r)
      (decodeWorkflowEvents (wr_ExecutedEvents r)) (decodeWorkflowEvents (wr_ActivityEvents r))
      (decodeWorkflowEvents (wr_TimerEvents r))
      ((λ '(i, e), (Some i, e)) <$> targets)));;
    mret NoResponse.

(** ** Dispatch *)

Definition callTask (r : workflowRequest) : handler (response Input Answer) :=
  match wr_Operation r with
  | workflowGetTask => getTask r
  | workflowExtendTask => extendTask r
  | workflowCompleteTask => completeWorkflow r
  | workflowGetActivity => getActivity (wr_Queues r)
  | workflowExtendActivity => extendActivity r
  | workflowCompleteActivity => completeActivity r
  | _ => fail ErrNotImplemented
  end.

Definition call (historyPageBytes : Z) (r : workflowRequest) : handler (response Input Answer) :=
  match wr_Operation r with
  | workflowCreateInstance => create r
  | workflowCancelInstance => cancel r
  | workflowGetState => getState r
  | workflowGetHistory => getHistory historyPageBytes r
  | workflowSignal => signal r
  | workflowPrepareQueues => Done (queues (wr_Queues r));; mret NoResponse
  | workflowReleaseClaims => ask ReleaseClaim;; mret EmptyObject
  | _ => callTask r
  end.

Definition workflowTransportError (e : sentinel) : sentinel :=
  match e with
  | ErrInstanceNotFound => ErrNotFound
  | ErrInstanceAlreadyExists => ErrAlreadyExists
  | e => e
  end.

(** ** What a worker may reach *)

Definition identifier (text : bytes) : Prop := ∃ id, uuidParse text = Some id ∧ id ≠ Nil.

(** The id of an instance in the session's name space. *)
Definition ownID (value : bytes) : Prop :=
  ∃ execution, value = uuidString sessionID ++ workflowInstanceSeparator :: execution ∧
    identifier execution.

(** An instance in the name space, with all its parents. *)
Inductive ownInstance : Instance → Prop :=
  | own_instance i :
      ownID (wi_InstanceID i) → identifier (wi_ExecutionID i) → (0 ≤ wi_ParentEventID i)%Z →
      (∀ parent, wi_Parent i = Some parent → ownInstance parent) → ownInstance i.

(** An instance that the backend has answered to hold on the session's queue. *)
Definition owned (past : list (event (result Input Answer))) (i : Instance) : Prop :=
  ownInstance i ∧ ∃ stored, st_Queue stored = queue ∧
    Answered (result := result Input Answer) (BackendCall (GetWorkflowInstance i)) (Ok (Some stored)) ∈ past.

Definition ownedTask (past : list (event (result Input Answer))) (q : bytes) (i : option Instance) : Prop :=
  q = queue ∧ ∃ i', i = Some i' ∧ owned past i'.

Definition ownOrNone (q : bytes) : Prop := q = [] ∨ q = queue.

(** The activities and the messages that a checkpoint schedules. *)
Definition scheduled (e : option Event) : Prop :=
  ∃ e' name q, e = Some e' ∧ he_Attributes e' = ActivityScheduledAttributes (Some (name, q)) ∧
    ownOrNone q.
Definition targeted (past : list (event (result Input Answer))) (target : option Instance * Event) : Prop :=
  ∃ i, target.1 = Some i ∧ ownInstance i ∧
    (owned past i ∨
     he_Type target.2 = EventType_WorkflowExecutionStarted ∧
     ∃ name q, he_Attributes target.2 = ExecutionStartedAttributes (Some (name, q)) ∧ ownOrNone q).

Definition allowedBackend (past : list (event (result Input Answer))) (b : backendCall Input) : Prop :=
  match b with
  | GetWorkflowInstance i => ownInstance i
  | GetWorkflowInstanceState i | GetWorkflowInstanceHistory i _ => owned past i
  | CreateWorkflowInstance i e =>
      ownInstance i ∧ (∀ parent, wi_Parent i = Some parent → owned past parent) ∧
      he_Type e = EventType_WorkflowExecutionStarted ∧
      ∃ name, he_Attributes e = ExecutionStartedAttributes (Some (name, queue)) ∧ name ≠ []
  | CancelWorkflowInstance i e => owned past i ∧ he_Type e = EventType_WorkflowExecutionCanceled
  | SignalWorkflow id e => ownID id ∧ he_Type e = EventType_SignalReceived
  | GetWorkflowTask qs | GetActivityTask qs => qs = [queue]
  | ExtendWorkflowTask t => ownedTask past (nt_Queue t) (nt_WorkflowInstance t)
  | CompleteWorkflowTask t _ _ activities _ targets =>
      ownedTask past (nt_Queue t) (nt_WorkflowInstance t) ∧
      Forall scheduled activities ∧ Forall (targeted past) targets
  | ExtendActivityTask t | CompleteActivityTask t _ =>
      ownedTask past (na_Queue t) (na_WorkflowInstance t)
  end.

Definition gatePolicy (past : list (event (result Input Answer))) (a : action Input) : Prop :=
  match a with
  | BackendCall b => allowedBackend past b
  | ReleaseClaim | Released => True
  | _ => False
  end.

Lemma owned_more past more i : owned past i → owned (past ++ more) i.
Proof. intros (Hi & stored & Hq & Hin). split; [done|]. exists stored. set_solver. Qed.

Lemma ownedTask_more past more q i : ownedTask past q i → ownedTask (past ++ more) q i.
Proof. intros (Hq & i' & Hi & Ho). split; [done|]. exists i'. by split; [|apply owned_more]. Qed.

Lemma targeted_more past more target : targeted past target → targeted (past ++ more) target.
Proof.
  intros (i & Ht & Hi & [Ho|Hs]); exists i; (split; [done|]; split; [done|]); [left|by right].
  by apply owned_more.
Qed.

(** ** The guards *)

Lemma cut_Some c s before after : cut c s = Some (before, after) → s = before ++ c :: after.
Proof.
  revert before after. induction s as [|a s IH]; intros before after; cbn; [done|].
  case_bool_decide as Ha; [intros [= <- <-]; by subst|].
  destruct (cut c s) as [[b k]|]; [|done]. cbn. intros [= <- <-]. by rewrite (IH b k).
Qed.

Lemma parsed_identifier text : parsed text = true → identifier text.
Proof.
  unfold parsed, identifier. destruct (uuidParse text) as [id|]; [|done].
  rewrite bool_decide_eq_true. eauto.
Qed.

Lemma instanceID_ok value : instanceID value = Ok tt → ownID value.
Proof.
  unfold instanceID. destruct (cut _ value) as [[session execution]|] eqn:E; [|done].
  case_bool_decide as Hs; cbn; [|done]. destruct (parsed execution) eqn:Hp; [|done]. intros _.
  exists execution. rewrite (cut_Some _ _ _ _ E), Hs. split; [done|by apply parsed_identifier].
Qed.

Lemma outcome_bind_ok {A B} (o : outcome A) (f : A → outcome B) b :
  (o ≫= f) = Ok b → ∃ a, o = Ok a ∧ f a = Ok b.
Proof. destruct o; try done. eauto. Qed.

Fixpoint parents (i : Instance) : nat :=
  match wi_Parent i with Some parent => S (parents parent) | None => 0 end.

Lemma instanceAt_ok depth i : instanceAt depth i = Ok tt → ownInstance i.
Proof.
  remember (parents i) as n eqn:En. revert depth i En.
  induction n as [n IH] using lt_wf_ind; intros depth i ->. destruct i as [id execution number parent].
  cbn [instanceAt]. destruct (_ <=? _)%nat; [done|]. cbn [wi_InstanceID wi_ExecutionID wi_ParentEventID wi_Parent].
  intros ([] & Hid & H)%outcome_bind_ok. destruct (_ || _) eqn:E; [done|].
  apply orb_false_iff in E as [Hp%negb_false_iff Hn%Z.ltb_ge].
  constructor; cbn; [by apply instanceID_ok|by apply parsed_identifier|lia|].
  intros p Hp'. rewrite Hp' in H. eapply (IH (parents p)); [|done|exact H]. rewrite Hp'. cbn. lia.
Qed.

Lemma queues_single q : queues [q] = Ok tt → q = queue.
Proof. unfold queues. cbn. destruct (allowedQueue q); [|done]. cbn. by case_bool_decide. Qed.

Lemma ownQueue_ok q : ownQueue q = Ok tt → ownOrNone q.
Proof. unfold ownQueue, ownOrNone. do 2 case_bool_decide; cbn; try done; auto. Qed.

Local Abbreviation keeping := (keeps gatePolicy).

Local Ltac asks :=
  match goal with
  | |- keeps ?P ?past (mbind ?f (ask ?a)) ?Q => refine (keeps_then P a f past Q _ _); cbn [result]
  end.

Lemma ownedInstance_keeps past i :
  keeping past (ownedInstance i) (λ past' i', i = Some i' ∧ owned past' i').
Proof.
  destruct i as [i|]; [|done]. unfold ownedInstance.
  apply keeps_guard. intros [] Hi%instanceAt_ok. asks; [exact Hi|].
  intros [stored|]; cbn; [|done]. case_bool_decide as Hq; [|done].
  split; [done|]. split; [done|]. exists stored. set_solver.
Qed.

Lemma workflowTaskGuard_keeps past task :
  keeping past (workflowTaskGuard task)
    (λ past' t, task = Some t ∧ ownedTask past' (wt_Queue t) (wt_Instance t)).
Proof.
  destruct task as [t|]; [|done]. unfold workflowTaskGuard. destruct (_ || _); [done|].
  apply keeps_guard. intros [] Hq%queues_single.
  eapply keeps_bind; [apply ownedInstance_keeps|]. intros more i [Hi Ho]. cbn.
  split; [done|]. split; [done|]. by exists i.
Qed.

Lemma activityTask_keeps past task :
  keeping past (activityTask task)
    (λ past' p, task = Some p.1 ∧ ownedTask past' (wa_Queue p.1) (wa_Instance p.1)).
Proof.
  destruct task as [t|]; [|done]. unfold activityTask. destruct (_ || _); [done|].
  destruct (present _) as [e|]; [|done]. destruct (_ || _); [done|].
  apply keeps_guard. intros [] Hq%queues_single.
  eapply keeps_bind; [apply ownedInstance_keeps|]. intros more i [Hi Ho]. cbn.
  split; [done|]. split; [done|]. by exists i.
Qed.

Lemma startedOnQueue_ok e :
  startedOnQueue e = Ok tt →
  he_Type e = EventType_WorkflowExecutionStarted ∧
  ∃ name, he_Attributes e = ExecutionStartedAttributes (Some (name, queue)) ∧ name ≠ [].
Proof.
  unfold startedOnQueue. destruct (he_Attributes e) as [[[name q]|]|?|]; try done.
  case_bool_decide as Hn; [done|]. case_bool_decide as Ht; [|done].
  cbn [orb negb]. intros ->%queues_single. eauto.
Qed.

Lemma validateWorkflowStart_ok e :
  validateWorkflowStart e = Ok tt →
  ∃ name q, he_Attributes e = ExecutionStartedAttributes (Some (name, q)) ∧ ownOrNone q.
Proof.
  unfold validateWorkflowStart. destruct (he_Attributes e) as [[[name q]|]|?|]; try done.
  case_bool_decide; [done|]. intros ?%ownQueue_ok. eauto.
Qed.

Lemma forEach_ok {A} (f : A → outcome unit) l : forEach f l = Ok tt → Forall (λ x, f x = Ok tt) l.
Proof.
  induction l as [|x l IH]; cbn; [done|]. intros ([] & Hx & Hl)%outcome_bind_ok. auto.
Qed.

Lemma validateActivityEvents_ok events :
  forEach validateActivityEvent events = Ok tt → Forall scheduled (decodeWorkflowEvents events).
Proof.
  intros H%forEach_ok. unfold decodeWorkflowEvents. apply Forall_fmap. eapply Forall_impl; [exact H|].
  intros event He. unfold validateActivityEvent in He. cbn. destruct (present event) as [e|]; [|done].
  cbn in He. destruct (he_Attributes e) as [?|[[name q]|]|] eqn:E; try done.
  case_bool_decide; [done|]. apply ownQueue_ok in He. by exists e, name, q.
Qed.

Definition deliverable (past : list (event (result Input Answer))) (target : Instance * Event) : Prop :=
  targeted past (Some target.1, target.2).

Lemma validateWorkflowTarget_keeps past target :
  keeping past (validateWorkflowTarget target) deliverable.
Proof.
  destruct target as [[i e]|]; [|done]. unfold validateWorkflowTarget.
  cbn [tg_Instance tg_Event]. destruct i as [i|], (present e) as [e'|]; try done.
  apply keeps_guard. intros [] Hi%instanceAt_ok.
  eapply keeps_bind with (Q := λ past' _, deliverable past' (i, e')); [|by intros].
  case_bool_decide as Ht.
  - destruct (validateWorkflowStart e') as [[]|?| |] eqn:E; try done.
    apply validateWorkflowStart_ok in E. exists i. cbn. eauto.
  - eapply keeps_bind; [apply ownedInstance_keeps|]. intros more i' [[= ->] Ho]. exists i'. cbn. eauto.
Qed.

Lemma validateWorkflowTargets_keeps past targets :
  keeping past (validateWorkflowTargets targets) (λ past' l, Forall (deliverable past') l).
Proof.
  revert past. induction targets as [|target targets IH]; intros past; cbn; [constructor|].
  eapply keeps_bind; [apply validateWorkflowTarget_keeps|]. intros more first Hfirst.
  eapply keeps_bind; [apply IH|]. intros more' rest Hrest. constructor; [|done].
  by apply targeted_more.
Qed.

Local Abbreviation answers := (λ (_ : list (event (result Input Answer))) (_ : response Input Answer), True).

Lemma completeWorkflow_keeps past r : keeping past (completeWorkflow r) answers.
Proof.
  unfold completeWorkflow. eapply keeps_bind; [apply workflowTaskGuard_keeps|].
  intros more t [_ Ht]. destruct (knownState _); [|done]. cbn [negb].
  unfold validateWorkflowEvents.
  eapply keeps_bind with
    (Q := λ past' targets, Forall scheduled (decodeWorkflowEvents (wr_ActivityEvents r)) ∧
                           Forall (deliverable past') targets).
  - apply keeps_guard. intros [] _. apply keeps_guard. intros [] Ha%validateActivityEvents_ok.
    eapply keeps_mono; [apply validateWorkflowTargets_keeps|]. by intros.
  - intros more' targets [Ha Htargets]. asks; [|by intros].
    split; [by apply ownedTask_more|]. split; [done|]. apply Forall_fmap.
    eapply Forall_impl; [exact Htargets|]. by intros [i e].
Qed.

Lemma completeActivity_keeps past r : keeping past (completeActivity r) answers.
Proof.
  unfold completeActivity. eapply keeps_bind; [apply activityTask_keeps|].
  intros more [t e] [_ Ht]. destruct (present _) as [e'|]; [|done]. destruct (_ || _); [done|].
  asks; [exact Ht|by intros].
Qed.

Lemma create_keeps past r : keeping past (create r) answers.
Proof.
  unfold create. destruct (wr_Instance r) as [i|]; [|done]. destruct (present _) as [e|]; [|done].
  apply keeps_guard. intros [] Hi%instanceAt_ok. apply keeps_guard. intros [] He%startedOnQueue_ok.
  eapply keeps_bind with (Q := λ past' _, ∀ parent, wi_Parent i = Some parent → owned past' parent).
  - destruct (wi_Parent i) as [parent|]; [|done].
    eapply keeps_bind; [apply ownedInstance_keeps|]. intros more p [[= ->] Hp]. by intros ? [= <-].
  - intros more [] Hp. destruct He as [Ht Ha]. asks; [|by intros]. split; [done|]. split; [exact Hp|]. by split.
Qed.

(** Whatever a worker asks of the workflow backend, each call that follows is on
    its own session's instances and queue. *)
Lemma call_keeps pageBytes past r : keeping past (call pageBytes r) answers.
Proof.
  unfold call, callTask, cancel, getState, getHistory, signal, getTask, getActivity, extendTask,
    extendActivity.
  destruct (wr_Operation r); try done.
  - apply create_keeps.
  - eapply keeps_bind; [apply ownedInstance_keeps|]. intros more i [_ Hi].
    destruct (present _) as [e|]; [|done]. case_bool_decide; [|done].
    asks; [by split|by intros].
  - eapply keeps_bind; [apply ownedInstance_keeps|]. intros more i [_ Hi].
    asks; [done|by intros].
  - eapply keeps_bind; [apply ownedInstance_keeps|]. intros more i [_ Hi].
    destruct (from_option _ _ _); [done|]. asks; [done|]. intros events.
    apply keeps_guard. by intros.
  - apply keeps_guard. intros [] Hid%instanceID_ok. destruct (present _) as [e|]; [|done].
    case_bool_decide; [|done]. asks; [by split|by intros].
  - apply keeps_guard. by intros.
  - apply keeps_guard. intros [] _. asks; [done|]. intros []; [done|].
    asks; [done|by intros].
  - eapply keeps_bind; [apply workflowTaskGuard_keeps|]. intros more t [_ Ht].
    asks; [exact Ht|by intros].
  - apply completeWorkflow_keeps.
  - apply keeps_guard. intros [] _. asks; [done|]. intros []; [done|].
    asks; [done|by intros].
  - eapply keeps_bind; [apply activityTask_keeps|]. intros more [t e] [_ Ht].
    asks; [exact Ht|by intros].
  - apply completeActivity_keeps.
  - asks; [done|by intros].
Qed.

(** ** Reading a history page by page

    The worker's side, [GetWorkflowInstanceHistory] of workflowbackend.go. *)

Fixpoint readHistory (fuel : nat) (read : option Z → outcome (workflowHistoryPage Input))
    (after : option Z) : outcome (list wrapped) :=
  match fuel with
  | O => OutOfFuel
  | S fuel =>
      page ← read after;
      if negb (hp_More page) then Ok (hp_Events page)
      else
        match last (hp_Events page) with
        | None => Ok (hp_Events page)
        | Some None | Some (Some None) => Panic
        | Some (Some (Some e)) =>
            rest ← readHistory fuel read (Some (he_SequenceID e)); Ok (hp_Events page ++ rest)
        end
  end.

Lemma pageOf_spec budget size first events page :
  pageOf budget size first events = Ok page →
  ∃ n, hp_Events page = take n events ∧ hp_More page = (n <? length events)%nat ∧
    n ≤ length events ∧ (first = true → events ≠ [] → 0 < n).
Proof.
  revert size first page. induction events as [|event events IH]; intros size first page; cbn [pageOf].
  { intros [= <-]. exists 0. split_and!; cbn; try done; lia. }
  destruct (jsonLength event) as [encoded|]; [|done]. destruct (negb first && _) eqn:E.
  { intros [= <-]. exists 0. split_and!; cbn; try done; [lia|]. intros ->. done. }
  intros (page' & Hp & [= <-])%outcome_bind_ok.
  destruct (IH _ _ _ Hp) as (n & He & Hm & Hn & _). exists (S n). cbn. rewrite He, Hm.
  split_and!; try done; lia.
Qed.

Definition pageLength (events : list wrapped) : Z := foldr (λ event total, default 0 (jsonLength event) + total)%Z 0%Z events.

(** A page of more than one event is within the budget. *)
Lemma pageOf_within budget size first events page :
  pageOf budget size first events = Ok page →
  hp_Events page = [] ∨ (first = true ∧ length (hp_Events page) = 1) ∨
  (size + pageLength (hp_Events page) ≤ budget)%Z.
Proof.
  revert size first page. induction events as [|event events IH]; intros size first page; cbn [pageOf].
  { intros [= <-]. by left. }
  destruct (jsonLength event) as [encoded|] eqn:Ej; [|done]. destruct (negb first && _) eqn:E.
  { intros [= <-]. by left. }
  intros (page' & Hp & [= <-])%outcome_bind_ok. right. cbn [hp_Events].
  unfold pageLength. cbn [foldr]. rewrite Ej. cbn [from_option id]. fold (pageLength (hp_Events page')). 
  assert (first = true ∨ (size + encoded ≤ budget)%Z) as Hfirst.
  { destruct first; [by left|right]. cbn in E. by apply Z.ltb_ge in E. }
  destruct (IH _ _ _ Hp) as [Hnil | [[? _] | Hle]]; [|done|right; lia].
  rewrite Hnil. destruct Hfirst as [-> | Hle]; [by left|]. right. cbn. lia.
Qed.

Lemma pageOf_returns budget size first events :
  Forall (λ event, is_Some (jsonLength event)) events →
  ∃ page, pageOf budget size first events = Ok page.
Proof.
  intros H. revert size first. induction H as [|event events [encoded He] _ IH]; intros size first;
    cbn [pageOf]; [by eexists|]. rewrite He. destruct (_ && _); [by eexists|].
  destruct (IH (size + encoded)%Z false) as [page ->]. cbn. by eexists.
Qed.

Section history.
Variables (history : list Event) (budget : Z).

Definition later (after : option Z) (e : Event) : bool :=
  match after with Some last => (last <? he_SequenceID e)%Z | None => true end.

(** What the backend documents: the events after a sequence number, in order. *)
Definition historyAfter (after : option Z) : list Event := filter (later after) history.

(** The controller's side of a read by the owner of the instance. *)
Definition readPage (after : option Z) : outcome (workflowHistoryPage Input) :=
  if from_option (λ last, (last <? 0)%Z) false after then Err ErrValidationFailed
  else workflowHistoryPageOf (encodeWorkflowEvents (Some <$> historyAfter after)) budget.

Definition sequenced : Prop :=
  StronglySorted (λ a b, (he_SequenceID a < he_SequenceID b)%Z) history ∧
  Forall (λ e, (0 ≤ he_SequenceID e)%Z) history.

Lemma filter_after_take {A} (key : A → Z) l n (x : A) :
  StronglySorted (λ a b, (key a < key b)%Z) l → last (take n l) = Some x →
  filter (λ y, (key x <? key y)%Z) l = drop n l.
Proof.
  intros Hs. revert n. induction Hs as [|a l Hs IH Ha]; intros [|n]; cbn [take drop]; try done.
  intros Hlast. rewrite filter_cons.
  assert (¬ (key x <? key a)%Z) as Hno.
  { rewrite Is_true_true, Z.ltb_lt. apply last_Some in Hlast as [front Hf].
    destruct front as [|b front]; injection Hf as -> Hf; [lia|].
    assert (x ∈ l) as Hx.
    { pose proof (take_drop n l) as Htd. rewrite Hf in Htd. rewrite <- Htd. set_solver. }
    pose proof (proj1 (Forall_forall _ _) Ha x Hx) as Hlt. cbn in Hlt. lia. }
  rewrite decide_False by done. destruct (take n l) as [|b rest] eqn:Et.
  - injection Hlast as ->. destruct n; [|by destruct l]. cbn [drop].
    rewrite filter_every; [done|]. eapply Forall_impl; [exact Ha|]. intros y Hy. cbn in Hy.
    by rewrite Is_true_true, Z.ltb_lt.
  - apply IH. by rewrite Et.
Qed.

Hypothesis history_sequenced : sequenced.

Lemma historyAfter_last n after e :
  last (take n (historyAfter after)) = Some e →
  historyAfter (Some (he_SequenceID e)) = drop n (historyAfter after).
Proof.
  intros Hlast. destruct history_sequenced as [Hs _]. unfold historyAfter in *.
  rewrite <- (filter_after_take he_SequenceID _ n e);
    [|by apply StronglySorted_filter|exact Hlast].
  rewrite list_filter_filter. apply list_filter_iff. intros y. cbn.
  assert (later after e) as He.
  { assert (e ∈ filter (later after) history) as [? _]%list_elem_of_filter; [|done].
    apply last_Some in Hlast as [front Hf].
    rewrite <- (take_drop n (filter (later after) history)), Hf. set_solver. }
  rewrite !Is_true_true in *. unfold later in *. destruct after as [after|]; [|tauto].
  rewrite !Z.ltb_lt in *. lia.
Qed.

Lemma last_wrapped (l : list Event) :
  last (encodeWorkflowEvents (Some <$> l)) = (λ e, Some (Some e)) <$> last l.
Proof. unfold encodeWorkflowEvents. rewrite !fmap_last. by destruct (last l). Qed.

Lemma readPage_within after :
  from_option (λ last, (0 ≤ last)%Z) True after →
  readPage after = workflowHistoryPageOf (encodeWorkflowEvents (Some <$> historyAfter after)) budget.
Proof. unfold readPage. destruct after as [after|]; cbn; [|done]. by intros ->%Z.ltb_ge. Qed.

Lemma readHistory_after fuel after :
  Forall (λ e, is_Some (jsonLength (Some (Some e)))) history →
  from_option (λ last, (0 ≤ last)%Z) True after → length (historyAfter after) < fuel →
  readHistory fuel readPage after = Ok (encodeWorkflowEvents (Some <$> historyAfter after)).
Proof.
  intros Hjson. revert after. induction fuel as [|fuel IH]; intros after Hafter Hfuel; [lia|].
  cbn [readHistory]. rewrite (readPage_within after Hafter).
  set (events := encodeWorkflowEvents (Some <$> historyAfter after)) in *.
  assert (length events = length (historyAfter after)) as Hlen.
  { unfold events, encodeWorkflowEvents. by rewrite !length_fmap. }
  destruct (pageOf_returns budget 0 true events) as [page Hpage].
  { unfold events, encodeWorkflowEvents. apply Forall_fmap, Forall_fmap, Forall_forall.
    intros e [_ He]%list_elem_of_filter. by eapply (proj1 (Forall_forall _ _) Hjson). }
  unfold workflowHistoryPageOf. rewrite Hpage. cbn [mbind outcome_bind].
  destruct (pageOf_spec _ _ _ _ _ Hpage) as (n & He & Hm & Hn & Hfirst). rewrite Hm, He.
  destruct (Nat.ltb_spec n (length events)) as [Hlt|]; cbn [negb]; [|by rewrite take_ge by lia].
  assert (0 < n) as Hpos by (apply Hfirst; [done|]; intros Hnil; rewrite Hnil in Hlt; cbn in Hlt; lia).
  assert (take n events = encodeWorkflowEvents (Some <$> take n (historyAfter after))) as Htake.
  { unfold events, encodeWorkflowEvents. by rewrite <- !fmap_take. }
  rewrite Htake, last_wrapped. destruct (last (take n (historyAfter after))) as [e|] eqn:Hlast.
  2:{ apply last_None in Hlast. apply (f_equal length) in Hlast. rewrite length_take in Hlast. cbn in *. lia. }
  cbn [fmap option_fmap option_map]. rewrite IH.
  - cbn. rewrite (historyAfter_last n after e Hlast), <- Htake. f_equal.
    unfold events, encodeWorkflowEvents. by rewrite !fmap_drop, take_drop.
  - cbn. destruct history_sequenced as [_ Hpos']. apply (proj1 (Forall_forall _ _) Hpos').
    apply last_Some in Hlast as [front Hf].
    assert (e ∈ historyAfter after) as [_ He']%list_elem_of_filter; [|done].
    rewrite <- (take_drop n (historyAfter after)), Hf. set_solver.
  - rewrite (historyAfter_last n after e Hlast), length_drop. lia.
Qed.
End history.

Definition historyRequest (i : Instance) (after : option Z) : workflowRequest :=
  mkWorkflowRequest workflowGetHistory (Some i) [] None [] after WorkflowInstanceStateActive
    None None [] [] [] [].

(** What a worker reads: the controller's answer to the request, against a backend. *)
Definition readRemote (serve : ∀ a, unit → unit * outcome (result Input Answer a)) (pageBytes : Z)
    (i : Instance) (after : option Z) : outcome (workflowHistoryPage Input) :=
  match (run serve (call pageBytes (historyRequest i after)) tt).2 with
  | Ok (HistoryPage page) => Ok page
  | Err e => Err e
  | Ok _ | Panic => Panic
  | OutOfFuel => OutOfFuel
  end.

(** A backend that holds [history] for [i] on the session's queue and answers a read
    after a sequence number with what follows it. *)
Definition holdsHistory (serve : ∀ a, unit → unit * outcome (result Input Answer a))
    (i : Instance) (history : list Event) : Prop :=
  (∃ stored, st_Queue stored = queue ∧
    serve (BackendCall (GetWorkflowInstance i)) tt = (tt, Ok (Some stored))) ∧
  ∀ after, serve (BackendCall (GetWorkflowInstanceHistory i after)) tt =
    (tt, Ok (Some <$> historyAfter history after)).

Lemma readRemote_page serve pageBytes i history after :
  instance i = Ok tt → holdsHistory serve i history →
  readRemote serve pageBytes i after = readPage history pageBytes after.
Proof.
  intros Hi [(stored & Hq & Hget) Hread]. unfold readRemote, call, historyRequest, getHistory.
  cbn [wr_Operation wr_Instance wr_LastSequenceID]. unfold ownedInstance. rewrite Hi. cbn.
  rewrite Hget. cbn. rewrite bool_decide_eq_true_2 by done. cbn. unfold readPage.
  destruct (from_option _ false after); [done|]. cbn. rewrite Hread. cbn.
  by destruct (workflowHistoryPageOf _ _).
Qed.

Lemma readHistory_ext fuel read read' after :
  (∀ after, read after = read' after) → readHistory fuel read after = readHistory fuel read' after.
Proof.
  intros Hread. revert after. induction fuel as [|fuel IH]; intros after; [done|]. cbn.
  rewrite Hread. destruct (read' after) as [page|?| |]; try done. cbn.
  destruct (hp_More page); [|done]. cbn. destruct (last _) as [[[e|]|]|]; try done. by rewrite IH.
Qed.

Lemma decode_encode (l : list (option Event)) : decodeWorkflowEvents (encodeWorkflowEvents l) = l.
Proof.
  unfold decodeWorkflowEvents, encodeWorkflowEvents. rewrite <- list_fmap_compose.
  rewrite <- (list_fmap_id l) at 2. apply list_fmap_ext. by intros ? [e|].
Qed.

(** C33: Reading page by page gives the whole history, whatever the size of a page: the
    loop ends, and no event is lost, repeated or moved.  A page of more than one event
    is within the size. *)
Theorem history_read_whole serve pageBytes i (history : list Event) :
  instance i = Ok tt → holdsHistory serve i history → sequenced history →
  Forall (λ e, is_Some (jsonLength (Some (Some e)))) history →
  decodeWorkflowEvents <$> readHistory (S (length history)) (readRemote serve pageBytes i) None =
    Ok (Some <$> history) ∧
  ∀ after page, readRemote serve pageBytes i after = Ok page →
    length (hp_Events page) ≤ 1 ∨ (pageLength (hp_Events page) ≤ pageBytes)%Z.
Proof.
  intros Hi Hserve Hs Hjson. split; cycle 1.
  { intros after page. rewrite (readRemote_page serve pageBytes i history after Hi Hserve).
    unfold readPage, workflowHistoryPageOf. destruct (from_option _ false after); [done|].
    intros [-> | [[_ ->] | Hle]]%pageOf_within; cbn; [by left; lia|by left|by right]. }
  rewrite (readHistory_ext _ _ (readPage history pageBytes)); [|by intros; apply readRemote_page].
  assert (historyAfter history None = history) as Hall.
  { unfold historyAfter. by apply filter_every, Forall_true. }
  rewrite (readHistory_after history pageBytes Hs), Hall; [|done|done|rewrite Hall; lia].
  cbn. by rewrite decode_encode.
Qed.
End gate.

(** ** A history of three events, read in pages of 12 bytes *)

Section sample.
Local Abbreviation Input := (λ _ : inputType, unit).

Definition sample_event (sequence : Z) : historyEvent Input :=
  mkHistoryEvent [] sequence (EventType_Other 0) 0 OtherAttributes tt.
Definition sample_history : list (historyEvent Input) := sample_event <$> [1; 2; 5]%Z.
Definition sample_instance : Instance := mkInstance (bs "s/e") (bs "e") 0 None.

Definition sample_backend (a : action Input) (w : unit) : unit * outcome (result Input unit a) :=
  (w, match a return outcome (result Input unit a) with
      | BackendCall (GetWorkflowInstance _) =>
          Ok (Some (mkStoredInstance (bs "s") WorkflowInstanceStateActive))
      | BackendCall (GetWorkflowInstanceHistory _ after) => Ok (Some <$> historyAfter sample_history after)
      | _ => Panic
      end).

Definition sample_string (_ : uuid) : bytes := bs "s".
Definition sample_parse (text : bytes) : option uuid := if bool_decide (text = bs "e") then Some 1%N else None.
Definition sample_length (_ : option (workflowEvent Input)) : option Z := Some 5%Z.

(** Two pages, of two events and of one. *)
Example sample_pages :
  hp_Events <$> readRemote (Answer := unit) sample_string sample_parse (bs "system") sample_length 1
    sample_backend 12 sample_instance None =
  Ok [Some (Some (sample_event 1)); Some (Some (sample_event 2))].
Proof. by vm_compute. Qed.

Lemma history_read_whole_witness :
  sequenced sample_history ∧
  decodeWorkflowEvents <$> readHistory 4
    (readRemote (Answer := unit) sample_string sample_parse (bs "system") sample_length 1
       sample_backend 12 sample_instance) None = Ok (Some <$> sample_history).
Proof.
  assert (sequenced sample_history) as Hs.
  { split; repeat constructor; cbn; lia. }
  split; [exact Hs|].
  refine (proj1 (history_read_whole (Answer := unit) sample_string sample_parse (bs "system")
    sample_length 1 sample_backend 12 sample_instance sample_history _ _ Hs _)).
  - by vm_compute.
  - split; [by exists (mkStoredInstance (bs "s") WorkflowInstanceStateActive)|done].
  - by repeat constructor.
Defined.
End sample.
End WorkflowGate.
