(* ===== verification/Controller.v ===== *)
(** The controller's side of a worker connection
    (src/internal/pkg/worker/protocol/controller.go and the execution*.go files beside
    it): which operations of the store each request of a worker leads to. *)
From stdpp Require Import base gmap sets list strings.
From Stdlib Require Import ZArith Lia Ascii.
From S2P Require Import Prelude GoBytes Executions Activities Transcripts Inbox TurnEnd Turns ChildRuns Program Gateway WorkflowGate.

Module Controller.
Import Executions Activities Transcripts Inbox TurnEnd Turns ChildRuns Program Gateway WorkflowGate.

(** ** The methods (methods.go) *)

Inductive Method :=
  | MethodGetSession | MethodGetDirectoryState | MethodCreateOrResume | MethodCompletedHistory
  | MethodAcquireTurn | MethodAppendCheckpoint | MethodFinalizeTurn | MethodReleaseTurn
  | MethodEndRunningTurn | MethodRecordTurnWorker | MethodCancelSession | MethodListTurns
  | MethodReportMetrics | MethodQueryMetrics | MethodListMessages | MethodListEvents
  | MethodCreateModelRun | MethodFinalizeModelRun | MethodGetModelRun | MethodListModelRuns
  | MethodCreateModelCall | MethodFinalizeModelCall | MethodRecordModelCallRetries
  | MethodListModelCalls | MethodCreateJob | MethodFinalizeJob | MethodGetJob | MethodListJobs
  | MethodAppendJobOutput | MethodListJobOutput | MethodRecordJobSignal
  | MethodListJobSignalRequests | MethodCreateAgentRun | MethodClaimAgentRun
  | MethodPrepareAgentRunRecovery | MethodFinalizeAgentRun | MethodGetAgentRun
  | MethodListAgentRuns | MethodAppendAgentRunEvent | MethodListAgentRunEvents
  | MethodCancelAgentRun | MethodOpenAgentRunQuestions | MethodAppendAgentRunMessages
  | MethodListAgentRunMessages | MethodAgentRunHistory | MethodCreateAgentRunCompaction
  | MethodLatestAgentRunCompaction | MethodListAgentRunCompactions | MethodGetAgentRunCompaction
  | MethodCreateCompaction | MethodGetCompaction | MethodListCompactions | MethodLatestCompaction
  | MethodSaveContextSnapshot | MethodGetContextSnapshot | MethodSavePromptSnapshot
  | MethodGetPromptSnapshot | MethodCreateSessionNotice | MethodListSessionNotices
  | MethodDrainSessionNotices | MethodPutContentBlobs | MethodGetContentBlobs 
  | methodExecutionStore | methodWorkflowBackend.

Definition methodName (m : Method) : bytes :=
  match m with
  | MethodGetSession => bs "session.get"
  | MethodGetDirectoryState => bs "session.directoryState"
  | MethodCreateOrResume => bs "session.createOrResume"
  | MethodCompletedHistory => bs "session.completedHistory"
  | MethodAcquireTurn => bs "turn.acquire"
  | MethodAppendCheckpoint => bs "turn.appendCheckpoint"
  | MethodFinalizeTurn => bs "turn.finalize"
  | MethodReleaseTurn => bs "turn.release"
  | MethodEndRunningTurn => bs "turn.endRunning"
  | MethodRecordTurnWorker => bs "turn.recordWorkerGeneration"
  | MethodCancelSession => bs "turn.cancel"
  | MethodListTurns => bs "turn.list"
  | MethodReportMetrics => bs "metrics.report"
  | MethodQueryMetrics => bs "metrics.query"
  | MethodListMessages => bs "message.list"
  | MethodListEvents => bs "event.list"
  | MethodCreateModelRun => bs "modelRun.create"
  | MethodFinalizeModelRun => bs "modelRun.finalize"
  | MethodGetModelRun => bs "modelRun.get"
  | MethodListModelRuns => bs "modelRun.list"
  | MethodCreateModelCall => bs "modelCall.create"
  | MethodFinalizeModelCall => bs "modelCall.finalize"
  | MethodRecordModelCallRetries => bs "modelCall.recordRetries"
  | MethodListModelCalls => bs "modelCall.list"
  | MethodCreateJob => bs "job.create"
  | MethodFinalizeJob => bs "job.finalize"
  | MethodGetJob => bs "job.get"
  | MethodListJobs => bs "job.list"
  | MethodAppendJobOutput => bs "job.appendOutputLines"
  | MethodListJobOutput => bs "job.listOutput"
  | MethodRecordJobSignal => bs "job.recordSignal"
  | MethodListJobSignalRequests => bs "job.listSignalRequests"
  | MethodCreateAgentRun => bs "agentRun.create"
  | MethodClaimAgentRun => bs "agentRun.claim"
  | MethodPrepareAgentRunRecovery => bs "agentRun.prepareRecovery"
  | MethodFinalizeAgentRun => bs "agentRun.finalize"
  | MethodGetAgentRun => bs "agentRun.get"
  | MethodListAgentRuns => bs "agentRun.list"
  | MethodAppendAgentRunEvent => bs "agentRun.appendEvent"
  | MethodListAgentRunEvents => bs "agentRun.listEvents"
  | MethodCancelAgentRun => bs "agentRun.requestCancellation"
  | MethodOpenAgentRunQuestions => bs "agentRun.openQuestions"
  | MethodAppendAgentRunMessages => bs "agentRun.appendMessages"
  | MethodListAgentRunMessages => bs "agentRun.listMessages"
  | MethodAgentRunHistory => bs "agentRun.history"
  | MethodCreateAgentRunCompaction => bs "agentRun.createCompaction"
  | MethodLatestAgentRunCompaction => bs "agentRun.latestCompaction"
  | MethodListAgentRunCompactions => bs "agentRun.listCompactions"
  | MethodGetAgentRunCompaction => bs "agentRun.getCompaction"
  | MethodCreateCompaction => bs "compaction.create"
  | MethodGetCompaction => bs "compaction.get"
  | MethodListCompactions => bs "compaction.list"
  | MethodLatestCompaction => bs "compaction.latest"
  | MethodSaveContextSnapshot => bs "snapshot.saveContext"
  | MethodGetContextSnapshot => bs "snapshot.getContext"
  | MethodSavePromptSnapshot => bs "snapshot.savePrompt"
  | MethodGetPromptSnapshot => bs "snapshot.getPrompt"
  | MethodCreateSessionNotice => bs "notice.create"
  | MethodListSessionNotices => bs "notice.list"
  | MethodDrainSessionNotices => bs "notice.drain"
  | MethodPutContentBlobs => bs "contentBlob.put"
  | MethodGetContentBlobs => bs "contentBlob.get"
  | methodExecutionStore => bs "execution.store"
  | methodWorkflowBackend => bs "workflow.backend"
  end.

Definition methods : list Method :=
  [MethodGetSession; MethodGetDirectoryState; MethodCreateOrResume; MethodCompletedHistory;
   MethodAcquireTurn; MethodAppendCheckpoint; MethodFinalizeTurn; MethodReleaseTurn;
   MethodEndRunningTurn; MethodRecordTurnWorker; MethodCancelSession; MethodListTurns;
   MethodReportMetrics; MethodQueryMetrics; MethodListMessages; MethodListEvents;
   MethodCreateModelRun; MethodFinalizeModelRun; MethodGetModelRun; MethodListModelRuns;
   MethodCreateModelCall; MethodFinalizeModelCall; MethodRecordModelCallRetries;
   MethodListModelCalls; MethodCreateJob; MethodFinalizeJob; MethodGetJob; MethodListJobs;
   MethodAppendJobOutput; MethodListJobOutput; MethodRecordJobSignal;
   MethodListJobSignalRequests; MethodCreateAgentRun; MethodClaimAgentRun;
   MethodPrepareAgentRunRecovery; MethodFinalizeAgentRun; MethodGetAgentRun;
   MethodListAgentRuns; MethodAppendAgentRunEvent; MethodListAgentRunEvents;
   MethodCancelAgentRun; MethodOpenAgentRunQuestions; MethodAppendAgentRunMessages;
   MethodListAgentRunMessages; MethodAgentRunHistory; MethodCreateAgentRunCompaction;
   MethodLatestAgentRunCompaction; MethodListAgentRunCompactions; MethodGetAgentRunCompaction;
   MethodCreateCompaction; MethodGetCompaction; MethodListCompactions; MethodLatestCompaction;
   MethodSaveContextSnapshot; MethodGetContextSnapshot; MethodSavePromptSnapshot;
   MethodGetPromptSnapshot; MethodCreateSessionNotice; MethodListSessionNotices;
   MethodDrainSessionNotices; MethodPutContentBlobs; MethodGetContentBlobs;
   methodExecutionStore; methodWorkflowBackend].

#[export] Instance Method_eq_dec : EqDecision Method.
Proof. solve_decision. Defined.

(** The method that a text names. *)
Definition methodOf (text : bytes) : option Method :=
  find (λ m, bool_decide (methodName m = text)) methods.

(** ** The requests (methods.go, executiontypes.go) *)

Record SessionRequest := mkSessionRequest { sq_SessionID : uuid }.
Record ChildRequest := mkChildRequest { cq_SessionID : uuid; cq_ChildID : uuid }.
Record NestedChildRequest := mkNestedRequest {
  nq_SessionID : uuid; nq_ChildID : uuid; nq_NestedID : uuid
}.
Record HashRequest := mkHashRequest { hq_SessionID : uuid; hq_Hash : bytes }.
Record ContentBlobHashesRequest := mkHashesRequest { bq_SessionID : uuid; bq_Hashes : list bytes }.
Record LeaseRequest := mkLeaseRequest { lq_Lease : Lease }.
Record EndTurnRequest := mkEndTurnRequest { eq_SessionID : uuid; eq_TurnID : uuid; eq_End : TurnEnd }.
Record RecordTurnWorkerRequest := mkRecordWorker { rq_Lease : Lease; rq_GenerationID : uuid }.

(** Options, an input or a snapshot beside a session, a child, a nested record or a
    lease. *)
Record OptionsRequest (A : Type) := mkOptionsRequest { oq_SessionID : uuid; oq_Options : A }.
Record ChildOptionsRequest (A : Type) := mkChildOptionsRequest {
  coq_SessionID : uuid; coq_ChildID : uuid; coq_Options : A
}.
Record InputRequest (A : Type) := mkInputRequest { iq_SessionID : uuid; iq_Input : A }.
Record ChildInputRequest (A : Type) := mkChildInputRequest {
  ciq_SessionID : uuid; ciq_ChildID : uuid; ciq_Input : A
}.
Record NestedChildInputRequest (A : Type) := mkNestedInputRequest {
  niq_SessionID : uuid; niq_ChildID : uuid; niq_NestedID : uuid; niq_Input : A
}.
Record LeaseInputRequest (A : Type) := mkLeaseInputRequest { liq_Lease : Lease; liq_Input : A }.
Record SnapshotRequest (A : Type) := mkSnapshotRequest { snq_SessionID : uuid; snq_Snapshot : option A }.
Record CheckpointRequest (M E : Type) := mkCheckpointRequest {
  kq_Lease : Lease; kq_Messages : M; kq_Events : E
}.
Record ContentBlobsRequest (A : Type) := mkBlobsRequest { pq_SessionID : uuid; pq_Blobs : A }.
Record CreateOrResumeRequest (A : Type) := mkOpenRequest { crq_SessionID : uuid; crq_Options : A }.
Arguments pq_SessionID {A}. Arguments pq_Blobs {A}. Arguments crq_SessionID {A}. Arguments crq_Options {A}.
Arguments oq_SessionID {A}. Arguments oq_Options {A}.
Arguments coq_SessionID {A}. Arguments coq_ChildID {A}. Arguments coq_Options {A}.
Arguments iq_SessionID {A}. Arguments iq_Input {A}. Arguments mkInputRequest {A}.
Arguments ciq_SessionID {A}. Arguments ciq_ChildID {A}. Arguments ciq_Input {A}.
Arguments niq_SessionID {A}. Arguments niq_ChildID {A}. Arguments niq_NestedID {A}. Arguments niq_Input {A}.
Arguments liq_Lease {A}. Arguments liq_Input {A}.
Arguments snq_SessionID {A}. Arguments snq_Snapshot {A}.
Arguments kq_Lease {M E}. Arguments kq_Messages {M E}. Arguments kq_Events {M E}.

Inductive executionOperation :=
  | executionCreate | executionGet | executionSearch | executionPause | executionResume
  | executionResumeFromActivity | executionResolveFromActivity | executionEvents
  | executionReserveCompletion | executionBeginActivity | executionCompleteActivity
  | executionInterruptActivity | executionResolveActivity | executionGetActivity
  | executionListActivities | executionRestoreTurn | executionGetTurnLease
  | executionGetRootTurn | executionAcceptMessage | executionDeferMessage
  | executionAcquireDeferredTurn | executionListDeferredMessages
  | executionAcceptChildMessage | executionListMessages | executionGetMessageByRequest
  | executionDeliverMessages | executionDeliverChildMessages
  | executionOtherOperation (text : bytes).

Section controller.
Context {Input : inputType → Type} {Answer : Type}.
Local Abbreviation handler := (program (result Input Answer)).
Local Abbreviation response := (response Input Answer).

Record executionRequest := mkExecutionRequest {
  er_InboxID : uuid; er_StartTurn : StartTurnInput; er_Operation : executionOperation;
  er_ExecutionID : uuid; er_ActivityID : uuid; er_RequestID : uuid; er_GenerationID : uuid;
  er_Create : Input CreateExecutionInput; er_Search : Input SearchExecutionsOptions;
  er_Reason : bytes; er_Page : Input ListEventsOptions; er_Begin : Input ScheduleActivityInput;
  er_Lease : ActivityLease; er_Complete : Input CompleteActivityInput;
  er_Resolve : Input ResolveActivityInput; er_ResumeControl : controlInput Input;
  er_ResolveControl : controlInput Input; er_RestoreTurn : RestoreExecutionTurnInput;
  er_TurnLease : Lease; er_AcceptMessage : Input AcceptExecutionMessageInput;
  er_InboxPage : Input ListExecutionInboxOptions; er_DeliverMessages : DeliverExecutionMessagesInput
}.

(** The JSON of each request. *)
Context `{!Wire SessionRequest, !Wire ChildRequest, !Wire NestedChildRequest, !Wire HashRequest,
  !Wire ContentBlobHashesRequest, !Wire LeaseRequest, !Wire EndTurnRequest,
  !Wire RecordTurnWorkerRequest, !Wire (Input SummaryQuery), !Wire (Input WorkerReport),
  !Wire (InputRequest StartTurnInput), !Wire (InputRequest StartAgentRunInput),
  !Wire (InputRequest uuid), !Wire (ChildInputRequest ClaimAgentRunInput),
  !Wire (LeaseInputRequest (Input FinalizeTurnInput)),
  !Wire (CheckpointRequest (Input CheckpointMessages) (Input CheckpointEvents)),
  !Wire (ContentBlobsRequest (Input ContentBlobs)),
  !Wire (CreateOrResumeRequest (Input OpenSessionOptions)), !Wire (InputRequest executionRequest), !Wire (InputRequest (workflowRequest (Input := Input)))}.
Context `{!∀ t, Wire (OptionsRequest (Input t)), !∀ t, Wire (ChildOptionsRequest (Input t)),
  !∀ t, Wire (InputRequest (Input t)), !∀ t, Wire (ChildInputRequest (Input t)),
  !∀ t, Wire (NestedChildInputRequest (Input t)), !∀ t, Wire (SnapshotRequest (Input t))}.
Variables (uuidString : uuid → bytes) (uuidParse : bytes → option uuid) (QueueSystem : bytes)
  (jsonLength : option (workflowEvent Input) → option Z).
Variable c : Controller.

(** ** The fence of child writes *)

Definition agentRunMutationContext (m : Method) : option uuid :=
  match m with
  | MethodCreateAgentRun | MethodFinalizeAgentRun | MethodAppendAgentRunEvent
  | MethodAppendAgentRunMessages | MethodCreateAgentRunCompaction => Some (co_generationID c)
  | _ => None
  end.

Section calls.
Variable owner : option uuid.

Definition store (op : operation Input) : handler (result Input Answer (StoreCall owner op)) :=
  perform (StoreCall owner op).

Definition passed (h : handler Answer) : handler response := answer ← h; mret (Passed answer).
Definition acknowledged (h : handler Answer) : handler response := h;; mret Ack.

(** ** The shapes of a call *)

Definition callSession (payload : bytes) (operation : uuid → handler Answer) : handler response :=
  request ← Done (decode (A := SessionRequest) payload);
  Done (assertSession c (sq_SessionID request));;
  passed (operation (sq_SessionID request)).

Definition callChild (payload : bytes) (operation : uuid → uuid → handler Answer) : handler response :=
  request ← Done (decode (A := ChildRequest) payload);
  Done (assertSession c (cq_SessionID request));;
  passed (operation (cq_SessionID request) (cq_ChildID request)).

Definition callOptions {t} (payload : bytes) (operation : uuid → Input t → handler Answer)
    : handler response :=
  request ← Done (decode (A := OptionsRequest (Input t)) payload);
  Done (assertSession c (oq_SessionID request));;
  passed (operation (oq_SessionID request) (oq_Options request)).

Definition callChildOptions {t} (payload : bytes) (operation : uuid → uuid → Input t → handler Answer)
    : handler response :=
  request ← Done (decode (A := ChildOptionsRequest (Input t)) payload);
  Done (assertSession c (coq_SessionID request));;
  passed (operation (coq_SessionID request) (coq_ChildID request) (coq_Options request)).

Definition callInput {A} `{!Wire (InputRequest A)} (payload : bytes)
    (operation : uuid → A → handler Answer) : handler response :=
  request ← Done (decode (A := InputRequest A) payload);
  Done (assertSession c (iq_SessionID request));;
  passed (operation (iq_SessionID request) (iq_Input request)).

Definition callChildInput {A} `{!Wire (ChildInputRequest A)} (payload : bytes)
    (operation : uuid → uuid → A → handler Answer) : handler response :=
  request ← Done (decode (A := ChildInputRequest A) payload);
  Done (assertSession c (ciq_SessionID request));;
  passed (operation (ciq_SessionID request) (ciq_ChildID request) (ciq_Input request)).

Definition callNestedInput {t} (payload : bytes)
    (operation : uuid → uuid → uuid → Input t → handler Answer) : handler response :=
  request ← Done (decode (A := NestedChildInputRequest (Input t)) payload);
  Done (assertSession c (niq_SessionID request));;
  passed (operation (niq_SessionID request) (niq_ChildID request) (niq_NestedID request)
            (niq_Input request)).

Definition callNestedWrite {t} (payload : bytes)
    (operation : uuid → uuid → uuid → Input t → handler Answer) : handler response :=
  request ← Done (decode (A := NestedChildInputRequest (Input t)) payload);
  Done (assertSession c (niq_SessionID request));;
  operation (niq_SessionID request) (niq_ChildID request) (niq_NestedID request) (niq_Input request);;
  mret NoResponse.

Definition callNestedRead (payload : bytes) (operation : uuid → uuid → uuid → handler Answer)
    : handler response :=
  request ← Done (decode (A := NestedChildRequest) payload);
  Done (assertSession c (nq_SessionID request));;
  passed (operation (nq_SessionID request) (nq_ChildID request) (nq_NestedID request)).

Definition callHash (payload : bytes) (operation : uuid → bytes → handler Answer) : handler response :=
  request ← Done (decode (A := HashRequest) payload);
  Done (assertSession c (hq_SessionID request));;
  passed (operation (hq_SessionID request) (hq_Hash request)).

(** ** Sessions and turns *)

Definition createOrResume (payload : bytes) : handler response :=
  request ← Done (decode (A := CreateOrResumeRequest (Input OpenSessionOptions)) payload);
  Done (assertSession c (crq_SessionID request));;
  passed (store (CreateOrResume (Some (co_sessionID c)) (crq_Options request))).

(** A served call, or [None] when the method is another handler's. *)
Definition handleSessionCall (m : Method) (payload : bytes) : option (handler response) :=
  match m with
  | MethodGetSession => Some (callSession payload (λ s, store (Get s)))
  | MethodGetDirectoryState => Some (callSession payload (λ s, store (GetDirectoryState s)))
  | MethodCompletedHistory => Some (callSession payload (λ s, store (CompletedHistory s)))
  | MethodDrainSessionNotices => Some (callSession payload (λ s, store (DrainSessionNotices s)))
  | MethodCreateOrResume => Some (createOrResume payload)
  | MethodListMessages => Some (callOptions payload (λ s o, store (ListMessages s o)))
  | MethodListEvents => Some (callOptions payload (λ s o, store (ListEvents s o)))
  | MethodListTurns => Some (callOptions payload (λ s o, store (ListTurns s o)))
  | MethodListSessionNotices => Some (callOptions payload (λ s o, store (ListSessionNotices s o)))
  | MethodCreateSessionNotice => Some (callInput payload (λ s i, store (CreateSessionNotice s i)))
  | _ => None
  end.

Definition stampTurn (input : StartTurnInput) : StartTurnInput :=
  mkStartTurn (si_RequestID input) (si_Workspace input) (Turns.si_Messages input) (Turns.si_Events input)
    (si_NoticeIDs input) (si_ExpectedStopRevision input) (si_WakeNoticeID input)
    (Some (co_generationID c)).

Definition acquireTurn (payload : bytes) : handler response :=
  request ← Done (decode (A := InputRequest StartTurnInput) payload);
  Done (assertSession c (iq_SessionID request));;
  passed (store (AcquireTurn (iq_SessionID request) (stampTurn (iq_Input request)))).

Definition appendCheckpoint (payload : bytes) : handler response :=
  request ← Done (decode (A := CheckpointRequest (Input CheckpointMessages) (Input CheckpointEvents)) payload);
  Done (assertLease c (kq_Lease request));;
  acknowledged (store (AppendCheckpoint (kq_Lease request) (kq_Messages request) (kq_Events request))).

Definition finalizeTurn (payload : bytes) : handler response :=
  request ← Done (decode (A := LeaseInputRequest (Input FinalizeTurnInput)) payload);
  Done (assertLease c (liq_Lease request));;
  acknowledged (store (FinalizeTurn (liq_Lease request) (liq_Input request))).

Definition releaseTurn (payload : bytes) : handler response :=
  request ← Done (decode (A := LeaseRequest) payload);
  Done (assertLease c (lq_Lease request));;
  acknowledged (store (ReleaseTurn (lq_Lease request))).

Definition recordTurnWorker (payload : bytes) : handler response :=
  request ← Done (decode (A := RecordTurnWorkerRequest) payload);
  Done (assertLease c (rq_Lease request));;
  if negb (bool_decide (rq_GenerationID request = co_generationID c)) then fail ErrPermissionDenied
  else acknowledged (store (RecordTurnWorkerGeneration (rq_Lease request) (rq_GenerationID request))).

(** [Kind]: an end without its detail. *)
Definition endKind (e : TurnEnd) : TurnState * bytes * bytes :=
  (te_State e, te_Classification e, te_EventType e).

Definition endRunningTurn (payload : bytes) : handler response :=
  request ← Done (decode (A := EndTurnRequest) payload);
  Done (assertSession c (eq_SessionID request));;
  if negb (bool_decide (endKind (eq_End request) = endKind CancelledTurnEnd)) &&
     negb (bool_decide (endKind (eq_End request) = endKind (FailedTurnEnd [])))
  then fail ErrValidationFailed
  else
    ended ← store (EndRunningTurn (eq_SessionID request) (eq_TurnID request) (eq_End request));
    mret (BoolResult ended).

Definition cancelSession (payload : bytes) : handler response :=
  request ← Done (decode (A := SessionRequest) payload);
  Done (assertSession c (sq_SessionID request));;
  requested ← store (Cancel (sq_SessionID request));
  mret (BoolResult requested).

Definition handleTurnCall (m : Method) (payload : bytes) : option (handler response) :=
  match m with
  | MethodAcquireTurn => Some (acquireTurn payload)
  | MethodAppendCheckpoint => Some (appendCheckpoint payload)
  | MethodFinalizeTurn => Some (finalizeTurn payload)
  | MethodReleaseTurn => Some (releaseTurn payload)
  | MethodEndRunningTurn => Some (endRunningTurn payload)
  | MethodRecordTurnWorker => Some (recordTurnWorker payload)
  | MethodCancelSession => Some (cancelSession payload)
  | _ => None
  end.

(** ** Model runs and jobs *)

Definition handleModelCall (m : Method) (payload : bytes) : option (handler response) :=
  match m with
  | MethodCreateModelRun => Some (callInput payload (λ s i, store (CreateModelRun s i)))
  | MethodFinalizeModelRun => Some (callChildInput payload (λ s r i, store (FinalizeModelRun s r i)))
  | MethodGetModelRun => Some (callChild payload (λ s r, store (GetModelRun s r)))
  | MethodListModelRuns => Some (callOptions payload (λ s o, store (ListModelRuns s o)))
  | MethodCreateModelCall => Some (callChildInput payload (λ s r i, store (CreateModelCall s r i)))
  | MethodFinalizeModelCall =>
      Some (callNestedInput payload (λ s r n i, store (FinalizeModelCall s r n i)))
  | MethodRecordModelCallRetries =>
      Some (callNestedWrite payload (λ s r n i, store (RecordModelCallRetries s r n i)))
  | MethodListModelCalls => Some (callChildOptions payload (λ s r o, store (ListModelCalls s r o)))
  | _ => None
  end.

Definition handleJobCall (m : Method) (payload : bytes) : option (handler response) :=
  match m with
  | MethodCreateJob => Some (callInput payload (λ s i, store (CreateJob s i)))
  | MethodFinalizeJob => Some (callChildInput payload (λ s j i, store (FinalizeJob s j i)))
  | MethodGetJob => Some (callChild payload (λ s j, store (GetJob s j)))
  | MethodListJobs => Some (callOptions payload (λ s o, store (ListJobs s o)))
  | MethodAppendJobOutput => Some (callChildInput payload (λ s j i, store (AppendJobOutput s j i)))
  | MethodListJobOutput => Some (callChildOptions payload (λ s j o, store (ListJobOutput s j o)))
  | MethodRecordJobSignal => Some (callChildInput payload (λ s j i, store (RecordJobSignal s j i)))
  | MethodListJobSignalRequests =>
      Some (callChildOptions payload (λ s j o, store (ListJobSignalRequests s j o)))
  | _ => None
  end.

(** ** Child runs *)

Definition stampRun (input : StartAgentRunInput) : StartAgentRunInput :=
  mkStartRun (sr_ID input) (sr_ParentTurnID input) (Some (co_generationID c))
    (sr_ParentAgentRunID input) (sr_RequestID input) (sr_Name input) (sr_Definition input)
    (sr_Depth input) (sr_Workspace input) (sr_ModelReference input) (sr_ModelID input)
    (sr_Task input) (sr_Instructions input) (sr_AllowedToolsJSON input) (sr_SystemPrompt input).

Definition createAgentRun (s : uuid) (input : StartAgentRunInput) : handler Answer :=
  if negb (bool_decide (sr_WorkerGenerationID input = None)) &&
     negb (bool_decide (sr_WorkerGenerationID input = Some (co_generationID c)))
  then fail ErrPermissionDenied
  else store (CreateAgentRun s (stampRun input)).

Definition claimAgentRun (s run : uuid) (input : ClaimAgentRunInput) : handler Answer :=
  if negb (bool_decide (ci_GenerationID input = co_generationID c)) then fail ErrPermissionDenied
  else requireRecoveryWorker c s;; store (ClaimAgentRun s run input).

Definition prepareAgentRunRecovery (s generation : uuid) : handler Answer :=
  if negb (bool_decide (generation = co_generationID c)) then fail ErrPermissionDenied
  else requireRecoveryWorker c s;; store (PrepareAgentRunRecovery s generation).

Definition cancelAgentRun (payload : bytes) : handler response :=
  request ← Done (decode (A := ChildRequest) payload);
  Done (assertSession c (cq_SessionID request));;
  '(run, requested) ← (store (RequestAgentRunCancellation (cq_SessionID request) (cq_ChildID request))
                       : handler (Answer * bool));
  mret (AgentRunCancellationResult run requested).

Definition handleAgentRunTranscriptCall (m : Method) (payload : bytes) : option (handler response) :=
  match m with
  | MethodAppendAgentRunMessages =>
      Some (callChildInput payload (λ s r i, store (AppendAgentRunMessages s r i)))
  | MethodListAgentRunMessages =>
      Some (callChildOptions payload (λ s r o, store (ListAgentRunMessages s r o)))
  | MethodAgentRunHistory => Some (callChild payload (λ s r, store (AgentRunHistory s r)))
  | MethodCreateAgentRunCompaction =>
      Some (callChildInput payload (λ s r i, store (CreateAgentRunCompaction s r i)))
  | MethodLatestAgentRunCompaction => Some (callChild payload (λ s r, store (LatestAgentRunCompaction s r)))
  | MethodListAgentRunCompactions =>
      Some (callChildOptions payload (λ s r o, store (ListAgentRunCompactions s r o)))
  | MethodGetAgentRunCompaction =>
      Some (callNestedRead payload (λ s r n, store (GetAgentRunCompaction s r n)))
  | _ => None
  end.

Definition handleAgentRunCall (m : Method) (payload : bytes) : option (handler response) :=
  match m with
  | MethodCreateAgentRun => Some (callInput payload createAgentRun)
  | MethodFinalizeAgentRun => Some (callChildInput payload (λ s r i, store (FinalizeAgentRun s r i)))
  | MethodGetAgentRun => Some (callChild payload (λ s r, store (GetAgentRun s r)))
  | MethodListAgentRuns => Some (callOptions payload (λ s o, store (ListAgentRuns s o)))
  | MethodAppendAgentRunEvent =>
      Some (callChildInput payload (λ s r i, store (AppendAgentRunEvent s r i)))
  | MethodListAgentRunEvents =>
      Some (callChildOptions payload (λ s r o, store (ListAgentRunEvents s r o)))
  | MethodCancelAgentRun => Some (cancelAgentRun payload)
  | MethodOpenAgentRunQuestions => Some (callSession payload (λ s, store (OpenAgentRunQuestions s)))
  | m => handleAgentRunTranscriptCall m payload
  end.

Definition handleAgentRunRecoveryCall (m : Method) (payload : bytes) : option (handler response) :=
  match m with
  | MethodClaimAgentRun => Some (callChildInput payload claimAgentRun)
  | MethodPrepareAgentRunRecovery => Some (callInput payload prepareAgentRunRecovery)
  | _ => None
  end.

(** ** Records *)

Definition saveContextSnapshot (payload : bytes) : handler response :=
  request ← Done (decode (A := SnapshotRequest (Input ContextSnapshot)) payload);
  Done (assertSession c (snq_SessionID request));;
  match snq_Snapshot request with
  | None => fail ErrValidationFailed
  | Some snapshot => acknowledged (store (SaveContextSnapshot snapshot))
  end.

Definition savePromptSnapshot (payload : bytes) : handler response :=
  request ← Done (decode (A := SnapshotRequest (Input PromptSnapshot)) payload);
  Done (assertSession c (snq_SessionID request));;
  match snq_Snapshot request with
  | None => fail ErrValidationFailed
  | Some snapshot => acknowledged (store (SavePromptSnapshot snapshot))
  end.

Definition handleRecordCall (m : Method) (payload : bytes) : option (handler response) :=
  match m with
  | MethodCreateCompaction => Some (callInput payload (λ s i, store (CreateCompaction s i)))
  | MethodGetCompaction => Some (callChild payload (λ s n, store (GetCompaction s n)))
  | MethodListCompactions => Some (callOptions payload (λ s o, store (ListCompactions s o)))
  | MethodLatestCompaction => Some (callSession payload (λ s, store (LatestCompaction s)))
  | MethodSaveContextSnapshot => Some (saveContextSnapshot payload)
  | MethodSavePromptSnapshot => Some (savePromptSnapshot payload)
  | MethodGetContextSnapshot => Some (callHash payload (λ s h, store (GetContextSnapshot s h)))
  | MethodGetPromptSnapshot => Some (callHash payload (λ s h, store (GetPromptSnapshot s h)))
  | _ => None
  end.

Definition putContentBlobs (payload : bytes) : handler response :=
  request ← Done (decode (A := ContentBlobsRequest (Input ContentBlobs)) payload);
  Done (assertSession c (pq_SessionID request));;
  acknowledged (store (PutContentBlobs (pq_Blobs request))).

Definition getContentBlobs (payload : bytes) : handler response :=
  request ← Done (decode (A := ContentBlobHashesRequest) payload);
  Done (assertSession c (bq_SessionID request));;
  passed (store (GetContentBlobs (bq_Hashes request))).

Definition reportMetrics (payload : bytes) : handler response :=
  report ← Done (decode (A := Input WorkerReport) payload);
  (perform (Ingest report) : handler Answer);; mret EmptyObject.

Definition queryMetrics (payload : bytes) : handler response :=
  query ← Done (decode (A := Input SummaryQuery) payload);
  passed (perform (Summarize query)).

Definition handleContentBlobCall (m : Method) (payload : bytes) : option (handler response) :=
  match m with
  | MethodPutContentBlobs => Some (putContentBlobs payload)
  | MethodGetContentBlobs => Some (getContentBlobs payload)
  | MethodReportMetrics => Some (reportMetrics payload)
  | MethodQueryMetrics => Some (queryMetrics payload)
  | _ => None
  end.

Fixpoint firstServed (handlers : list (Method → bytes → option (handler response))) (m : Method)
    (payload : bytes) : handler response :=
  match handlers with
  | [] => fail ErrNotImplemented
  | handle :: handlers =>
      match handle m payload with Some served => served | None => firstServed handlers m payload end
  end.

Definition handlers : list (Method → bytes → option (handler response)) :=
  [handleSessionCall; handleTurnCall; handleModelCall; handleJobCall; handleAgentRunCall;
   handleAgentRunRecoveryCall; handleRecordCall; handleContentBlobCall].
End calls.

(** ** Executions (executioncontroller.go, executionagentcontrol.go,
    executionagentresolution.go, executionturn.go, executiondeferred.go, deferredturn.go,
    executioninbox.go) *)

Section executions.
Variable r : executionRequest.
Local Abbreviation sid := (co_sessionID c).
Local Abbreviation stored := (store None).

Definition sameGeneration (generation : uuid) : outcome unit :=
  if bool_decide (generation = co_generationID c) then Ok tt else Err ErrPermissionDenied.

Definition acceptExecutionMessage : handler response :=
  Done (assertLease c (er_TurnLease r));;
  passed (stored (AcceptExecutionMessage (er_ExecutionID r) (er_TurnLease r) (er_AcceptMessage r))).

Definition acceptChildExecutionMessage : handler response :=
  passed (stored (AcceptChildExecutionMessage sid (er_ExecutionID r) (er_AcceptMessage r))).

Definition deliverExecutionMessages (input : DeliverExecutionMessagesInput) : handler response :=
  Done (assertLease c (di_TurnLease input));;
  Done (sameGeneration (le_GenerationID (di_ModelLease input)));;
  passed (stored (DeliverExecutionMessages sid input)).

Definition deliverChildExecutionMessages (input : DeliverExecutionMessagesInput) : handler response :=
  Done (sameGeneration (le_GenerationID (di_ModelLease input)));;
  passed (stored (DeliverChildExecutionMessages sid (di_ModelLease input) (di_RequestIDs input))).

Definition callExecutionInbox : handler response :=
  match er_Operation r with
  | executionGetMessageByRequest =>
      passed (stored (GetExecutionMessageByRequest sid (er_ExecutionID r) (er_RequestID r)))
  | executionListMessages =>
      passed (stored (ListExecutionMessages sid (er_ExecutionID r) (er_InboxPage r)))
  | executionAcceptMessage => acceptExecutionMessage
  | executionAcceptChildMessage => acceptChildExecutionMessage
  | executionDeliverMessages => deliverExecutionMessages (er_DeliverMessages r)
  | executionDeliverChildMessages => deliverChildExecutionMessages (er_DeliverMessages r)
  | _ => fail ErrNotImplemented
  end.

Definition deferExecutionMessage : handler response :=
  Done (assertLease c (er_TurnLease r));;
  passed (stored (DeferExecutionMessage (er_ExecutionID r) (er_TurnLease r) (er_AcceptMessage r))).

Definition acquireDeferredTurn : handler response :=
  passed (stored (AcquireDeferredExecutionTurn sid (er_InboxID r) (stampTurn (er_StartTurn r)))).

Definition callExecutionDeferred : handler response :=
  match er_Operation r with
  | executionDeferMessage => deferExecutionMessage
  | executionAcquireDeferredTurn => acquireDeferredTurn
  | executionListDeferredMessages => passed (stored (ListDeferredExecutionMessages sid (er_Page r)))
  | _ => callExecutionInbox
  end.

Definition restoreTurn : handler response :=
  if negb (bool_decide (rt_OwnerGenerationID (er_RestoreTurn r) = co_generationID c)) ||
     negb (bool_decide (rt_WorkerGenerationID (er_RestoreTurn r) = co_generationID c))
  then fail ErrPermissionDenied
  else passed (stored (RestoreExecutionTurn sid (er_ExecutionID r) (er_RestoreTurn r))).

Definition callExecutionTurn : handler response :=
  match er_Operation r with
  | executionReserveCompletion => passed (stored (ReserveExecutionCompletion sid (er_Lease r)))
  | executionGetRootTurn => passed (stored (GetExecutionRootTurn sid (er_ExecutionID r)))
  | executionGetTurnLease => passed (stored (GetExecutionTurnLease sid (er_ExecutionID r)))
  | executionRestoreTurn => restoreTurn
  | _ => callExecutionDeferred
  end.

Definition authorizeActivityGeneration : outcome unit :=
  sameGeneration
    match er_Operation r with
    | executionBeginActivity => er_GenerationID r
    | executionCompleteActivity | executionInterruptActivity | executionReserveCompletion =>
        le_GenerationID (er_Lease r)
    | _ => co_generationID c
    end.

Definition completeExecutionActivity : handler response :=
  passed (stored (CompleteExecutionActivityReceipt sid (er_Lease r) (er_Complete r))).

Definition callExecutionActivities : handler response :=
  Done authorizeActivityGeneration;;
  match er_Operation r with
  | executionBeginActivity =>
      passed (stored (BeginExecutionActivity sid (er_ExecutionID r) (er_GenerationID r) (er_Begin r)))
  | executionCompleteActivity => completeExecutionActivity
  | executionInterruptActivity =>
      (stored (InterruptExecutionActivity sid (er_Lease r)) : handler Answer);; mret EmptyObject
  | executionResolveActivity =>
      passed (stored (ResolveExecutionActivity sid (er_ActivityID r) (er_Resolve r)))
  | executionGetActivity => passed (stored (GetExecutionActivity sid (er_ActivityID r)))
  | executionListActivities =>
      passed (stored (ListExecutionActivities sid (er_ExecutionID r) (er_Page r)))
  | _ => callExecutionTurn
  end.

Definition resumeExecutionFromActivity : handler response :=
  Done (sameGeneration (le_GenerationID (ct_SourceLease (er_ResumeControl r))));;
  passed (stored (ResumeExecutionFromActivity sid (er_ExecutionID r) (er_ResumeControl r))).

Definition callAgentExecutionControl : handler response :=
  match er_Operation r with
  | executionResumeFromActivity => resumeExecutionFromActivity
  | _ =>
      Done (sameGeneration (le_GenerationID (ct_SourceLease (er_ResolveControl r))));;
      passed (stored (ResolveExecutionActivityFromActivity sid (er_ActivityID r) (er_ResolveControl r)))
  end.

Definition callExecutionStore : handler response :=
  match er_Operation r with
  | executionCreate => passed (stored (CreateExecution sid (er_Create r)))
  | executionGet => passed (stored (GetExecution sid (er_ExecutionID r)))
  | executionSearch => passed (stored (SearchExecutions sid (er_Search r)))
  | executionPause => passed (stored (PauseExecution sid (er_ExecutionID r) (er_Reason r)))
  | executionResume => passed (stored (ResumeExecution sid (er_ExecutionID r)))
  | executionResumeFromActivity | executionResolveFromActivity => callAgentExecutionControl
  | executionEvents => passed (stored (ListExecutionEvents sid (er_ExecutionID r) (er_Page r)))
  | _ => callExecutionActivities
  end.
End executions.

Definition handleExecutionCall (payload : bytes) : handler response :=
  request ← Done (decode (A := InputRequest executionRequest) payload);
  Done (assertSession c (iq_SessionID request));;
  requireCurrentWorkflowWorker c;;
  callExecutionStore (iq_Input request).

(** ** Workflows (workflowcontroller.go) *)

Definition handleWorkflowCall (payload : bytes) : handler response :=
  match co_historyPageBytes c with
  | None => fail ErrNotImplemented
  | Some pageBytes =>
      request ← Done (decode (A := InputRequest workflowRequest) payload);
      Done (assertSession c (iq_SessionID request));;
      requireCurrentWorkflowWorker c;;
      mapError workflowTransportError
        (call uuidString uuidParse QueueSystem jsonLength (co_sessionID c) pageBytes (iq_Input request))
  end.

(** ** The dispatch *)

Definition HandleCall (method payload : bytes) : handler response :=
  match methodOf method with
  | Some methodWorkflowBackend => handleWorkflowCall payload
  | Some methodExecutionStore => handleExecutionCall payload
  | Some m => firstServed (handlers (agentRunMutationContext m)) m payload
  | None => fail ErrNotImplemented
  end.

(** A worker sends no commands. *)
Definition HandleCommand (command payload : bytes) : handler response := fail ErrPermissionDenied.

(** ** What a worker may reach *)

(** The sessions that an operation addresses; the content-addressed ones address none. *)
Definition sessionsOf (op : operation Input) : list uuid :=
  match op with
  | Get s | GetDirectoryState s | CompletedHistory s | DrainSessionNotices s
  | LatestCompaction s | OpenAgentRunQuestions s | ListMessages s _ | ListEvents s _
  | ListTurns s _ | ListSessionNotices s _ | CreateSessionNotice s _ | AcquireTurn s _
  | EndRunningTurn s _ _ | Cancel s | CreateModelRun s _ | FinalizeModelRun s _ _
  | GetModelRun s _ | ListModelRuns s _ | CreateModelCall s _ _ | FinalizeModelCall s _ _ _
  | RecordModelCallRetries s _ _ _ | ListModelCalls s _ _ | CreateJob s _ | FinalizeJob s _ _
  | GetJob s _ | ListJobs s _ | AppendJobOutput s _ _ | ListJobOutput s _ _
  | RecordJobSignal s _ _ | ListJobSignalRequests s _ _ | CreateAgentRun s _
  | ClaimAgentRun s _ _ | PrepareAgentRunRecovery s _ | FinalizeAgentRun s _ _
  | GetAgentRun s _ | ListAgentRuns s _ | AppendAgentRunEvent s _ _ | ListAgentRunEvents s _ _
  | RequestAgentRunCancellation s _ | AppendAgentRunMessages s _ _
  | ListAgentRunMessages s _ _ | AgentRunHistory s _ | CreateAgentRunCompaction s _ _
  | LatestAgentRunCompaction s _ | ListAgentRunCompactions s _ _ | GetAgentRunCompaction s _ _
  | CreateCompaction s _ | GetCompaction s _ | ListCompactions s _ | GetContextSnapshot s _
  | GetPromptSnapshot s _ | GetWorkerGeneration s _ | CurrentWorkerGeneration s
  | CreateExecution s _ | GetExecution s _ | SearchExecutions s _ | PauseExecution s _ _
  | ResumeExecution s _ | ResumeExecutionFromActivity s _ _
  | ResolveExecutionActivityFromActivity s _ _ | ListExecutionEvents s _ _
  | BeginExecutionActivity s _ _ _ | CompleteExecutionActivityReceipt s _ _
  | InterruptExecutionActivity s _ | ResolveExecutionActivity s _ _ | GetExecutionActivity s _
  | ListExecutionActivities s _ _ | ReserveExecutionCompletion s _ | GetExecutionRootTurn s _
  | GetExecutionTurnLease s _ | RestoreExecutionTurn s _ _ | AcquireDeferredExecutionTurn s _ _
  | ListDeferredExecutionMessages s _ | GetExecutionMessageByRequest s _ _
  | ListExecutionMessages s _ _ | AcceptChildExecutionMessage s _ _
  | DeliverChildExecutionMessages s _ _ => [s]
  | AppendCheckpoint lease _ _ | FinalizeTurn lease _ | ReleaseTurn lease
  | RecordTurnWorkerGeneration lease _ | DeferExecutionMessage _ lease _
  | AcceptExecutionMessage _ lease _ => [ls_SessionID lease]
  | DeliverExecutionMessages s input => [s; ls_SessionID (di_TurnLease input)]
  | CreateOrResume requested _ => [default Nil requested]
  | SaveContextSnapshot _ | SavePromptSnapshot _ | PutContentBlobs _ | GetContentBlobs _ => []
  end.

(** The worker generations that an operation acts for. *)
Definition generationsOf (op : operation Input) : list uuidText :=
  match op with
  | AcquireTurn _ input | AcquireDeferredExecutionTurn _ _ input => [si_WorkerGenerationID input]
  | RecordTurnWorkerGeneration _ generation | PrepareAgentRunRecovery _ generation
  | GetWorkerGeneration _ generation | BeginExecutionActivity _ _ generation _ => [Some generation]
  | CreateAgentRun _ input => [sr_WorkerGenerationID input]
  | ClaimAgentRun _ _ input => [Some (ci_GenerationID input)]
  | ResumeExecutionFromActivity _ _ input | ResolveExecutionActivityFromActivity _ _ input =>
      [Some (le_GenerationID (ct_SourceLease input))]
  | CompleteExecutionActivityReceipt _ lease _ | InterruptExecutionActivity _ lease
  | ReserveExecutionCompletion _ lease | DeliverChildExecutionMessages _ lease _ =>
      [Some (le_GenerationID lease)]
  | RestoreExecutionTurn _ _ input =>
      [Some (rt_OwnerGenerationID input); Some (rt_WorkerGenerationID input)]
  | DeliverExecutionMessages _ input => [Some (le_GenerationID (di_ModelLease input))]
  | _ => []
  end.

(** The writes that need the fence, and those that need the current worker. *)
Definition writesChild (op : operation Input) : bool :=
  match op with
  | CreateAgentRun _ _ | FinalizeAgentRun _ _ _ | AppendAgentRunEvent _ _ _
  | AppendAgentRunMessages _ _ _ | CreateAgentRunCompaction _ _ _ => true
  | _ => false
  end.
Definition recoversChild (op : operation Input) : bool :=
  match op with ClaimAgentRun _ _ _ | PrepareAgentRunRecovery _ _ => true | _ => false end.
Definition ofExecutions (op : operation Input) : bool :=
  match op with
  | CreateExecution _ _ | GetExecution _ _ | SearchExecutions _ _ | PauseExecution _ _ _
  | ResumeExecution _ _ | ResumeExecutionFromActivity _ _ _
  | ResolveExecutionActivityFromActivity _ _ _ | ListExecutionEvents _ _ _
  | BeginExecutionActivity _ _ _ _ | CompleteExecutionActivityReceipt _ _ _
  | InterruptExecutionActivity _ _ | ResolveExecutionActivity _ _ _ | GetExecutionActivity _ _
  | ListExecutionActivities _ _ _ | ReserveExecutionCompletion _ _ | GetExecutionRootTurn _ _
  | GetExecutionTurnLease _ _ | RestoreExecutionTurn _ _ _ | DeferExecutionMessage _ _ _
  | AcquireDeferredExecutionTurn _ _ _ | ListDeferredExecutionMessages _ _
  | GetExecutionMessageByRequest _ _ _ | ListExecutionMessages _ _ _
  | AcceptExecutionMessage _ _ _ | AcceptChildExecutionMessage _ _ _
  | DeliverExecutionMessages _ _ | DeliverChildExecutionMessages _ _ _ => true
  | _ => false
  end.

Local Abbreviation events := (list (event (result Input Answer))).

Definition activeWorker (past : events) : Prop :=
  ∃ state, (state = WorkerStarting ∨ state = WorkerReady) ∧
    Answered (result := result Input Answer)
      (StoreCall None (GetWorkerGeneration (co_sessionID c) (co_generationID c))) (Ok state) ∈ past.
Definition currentWorker (past : events) : Prop :=
  activeWorker past ∧
  Answered (result := result Input Answer)
    (StoreCall None (CurrentWorkerGeneration (co_sessionID c))) (Ok (co_generationID c)) ∈ past.

Definition allowedStore (past : events) (owner : option uuid) (op : operation Input) : Prop :=
  foldr (λ s rest, s = co_sessionID c ∧ rest) True (sessionsOf op) ∧
  foldr (λ generation rest, generation = Some (co_generationID c) ∧ rest) True (generationsOf op) ∧
  (if writesChild op then owner = Some (co_generationID c) else True) ∧
  (if recoversChild op then activeWorker past else True) ∧
  (if ofExecutions op then currentWorker past else True).

Definition confined (past : events) (a : action Input) : Prop :=
  match a with
  | StoreCall owner op => allowedStore past owner op
  | BackendCall b =>
      currentWorker past ∧ allowedBackend uuidString uuidParse (co_sessionID c) past b
  | ReleaseClaim | Released => currentWorker past
  | Ingest _ | Summarize _ => True
  end.

Lemma activeWorker_more past more : activeWorker past → activeWorker (past ++ more).
Proof. intros (state & Hs & Hin). exists state. set_solver. Qed.
Lemma currentWorker_more past more : currentWorker past → currentWorker (past ++ more).
Proof. intros [Ha Hin]. split; [by apply activeWorker_more|set_solver]. Qed.

(** ** The handlers keep to it *)

Local Abbreviation answers := (λ (_ : events) _, True).
Local Abbreviation keeping past p := (keeps confined past p answers).

Lemma requireRecoveryWorker_keeps past s :
  s = co_sessionID c → keeps confined past (requireRecoveryWorker c s) (λ past' _, activeWorker past').
Proof.
  intros ->. unfold requireRecoveryWorker.
  refine (keeps_then confined (StoreCall None (GetWorkerGeneration _ _)) _ _ _ _ _); [by repeat split|].
  cbn [result]. intros state. destruct (decide (state = WorkerStarting ∨ state = WorkerReady)) as [Hs|Hs].
  - assert (activeWorker (past ++ [Answered (result := result Input Answer)
      (StoreCall None (GetWorkerGeneration (co_sessionID c) (co_generationID c))) (Ok state)])).
    { exists state. set_solver. }
    by destruct (_ && _).
  - rewrite !bool_decide_eq_true_2 by (by intros ->; apply Hs; auto). done.
Qed.

Lemma requireCurrentWorkflowWorker_keeps past :
  keeps confined past (requireCurrentWorkflowWorker c) (λ past' _, currentWorker past').
Proof.
  unfold requireCurrentWorkflowWorker.
  eapply keeps_bind; [by apply requireRecoveryWorker_keeps|]. intros more [] Ha.
  refine (keeps_then confined (StoreCall None (CurrentWorkerGeneration _)) _ _ _ _ _); [by repeat split|].
  cbn [result]. intros current. case_bool_decide as Hc; [|done]. subst current.
  split; [by apply activeWorker_more|set_solver].
Qed.
Lemma store_keeps past owner op : allowedStore past owner op → keeping past (store owner op).
Proof. intros Hop. split; [exact Hop|]. by intros [a|e| |]. Qed.

Lemma passed_keeps past (h : handler Answer) : keeping past h → keeping past (passed h).
Proof. intros Hh. eapply keeps_bind; [exact Hh|]. by intros. Qed.

Lemma acknowledged_keeps past (h : handler Answer) : keeping past h → keeping past (acknowledged h).
Proof. intros Hh. eapply keeps_bind; [exact Hh|]. by intros. Qed.

(** A request of another session is refused before anything is asked. *)
Lemma asserted_keeps past s (h : handler response) :
  (s = co_sessionID c → keeping past h) → keeping past (Done (assertSession c s);; h).
Proof.
  intros Hh. apply keeps_guard. intros [] Hs. unfold assertSession in Hs.
  case_bool_decide; [auto|done].
Qed.

Lemma generation_keeps past generation (h : handler response) :
  (generation = co_generationID c → keeping past h) →
  keeping past (Done (sameGeneration generation);; h).
Proof.
  intros Hh. apply keeps_guard. intros [] Hs. unfold sameGeneration in Hs.
  case_bool_decide; [auto|done].
Qed.

(** Every branch of the handlers: decoding, the guards, and one operation. *)
Ltac stores :=
  apply store_keeps;
  cbv beta iota delta [allowedStore sessionsOf generationsOf writesChild recoversChild ofExecutions foldr];
  split_and!; first [done|cbn; congruence].
Ltac asserted :=
  lazymatch goal with
  | |- keeps _ _ (mbind (M := program _) _ (Done (decode _))) _ =>
      apply keeps_guard; intros ? _; cbv beta; asserted
  | |- keeps _ _ (mbind (M := program _) _ (Done (assertLease _ _))) _ =>
      unfold assertLease; apply asserted_keeps; intros ?; asserted
  | |- keeps _ _ (mbind (M := program _) _ (Done (assertSession _ _))) _ =>
      apply asserted_keeps; intros ?; asserted
  | |- keeps _ _ (mbind (M := program _) _ (Done (sameGeneration _))) _ =>
      apply generation_keeps; intros ?; asserted
  | |- keeps _ _ (passed _) _ => apply passed_keeps; asserted
  | |- keeps _ _ (acknowledged _) _ => apply acknowledged_keeps; asserted
  | |- keeps _ _ (store _ _) _ => stores
  | |- keeps _ _ (mbind (M := program _) _ (store _ _)) _ =>
      eapply keeps_bind; [stores|first [by intros|by intros ? []]]
  | |- keeps _ _ (fail _) _ => done
  | |- keeps _ _ (mret _) _ => done
  | |- keeps _ _ (if negb (bool_decide ?P) then _ else _) _ =>
      destruct (decide P); [rewrite bool_decide_eq_true_2 by done|rewrite bool_decide_eq_false_2 by done];
      cbn [negb]; cbv iota; asserted
  | |- keeps _ _ (if ?b then _ else _) _ => destruct b eqn:?; asserted
  | |- _ => idtac
  end.

Local Abbreviation serves handle :=
  (∀ past m payload h, handle (agentRunMutationContext m) m payload = Some h → keeping past h).

Lemma session_served : serves handleSessionCall.
Proof.
  intros past m payload h. destruct m; intros [= <-];
    unfold callSession, callOptions, callInput, createOrResume; asserted.
Qed.

Lemma turn_served : serves handleTurnCall.
Proof.
  intros past m payload h. destruct m; intros [= <-];
    unfold acquireTurn, appendCheckpoint, finalizeTurn, releaseTurn, endRunningTurn,
      recordTurnWorker, cancelSession; asserted.
Qed.

Lemma model_served : serves handleModelCall.
Proof.
  intros past m payload h. destruct m; intros [= <-];
    unfold callInput, callChildInput, callChild, callOptions, callNestedInput, callNestedWrite,
      callChildOptions; asserted.
Qed.

Lemma job_served : serves handleJobCall.
Proof.
  intros past m payload h. destruct m; intros [= <-];
    unfold callInput, callChildInput, callChild, callOptions, callChildOptions; asserted.
Qed.

Lemma run_served : serves handleAgentRunCall.
Proof.
  intros past m payload h. destruct m; intros [= <-];
    unfold callInput, callChildInput, callChild, callOptions, callChildOptions, callSession,
      callNestedRead, cancelAgentRun, createAgentRun; asserted.
Qed.

Lemma recovery_served : serves handleAgentRunRecoveryCall.
Proof.
  intros past m payload h. destruct m; intros [= <-];
    unfold callInput, callChildInput, claimAgentRun, prepareAgentRunRecovery; asserted.
  all: eapply keeps_bind; [by apply requireRecoveryWorker_keeps|]; intros more [] Ha.
  all: stores.
Qed.

Lemma record_served : serves handleRecordCall.
Proof.
  intros past m payload h. destruct m; intros [= <-];
    unfold callInput, callChild, callOptions, callSession, callHash, saveContextSnapshot,
      savePromptSnapshot; asserted.
  all: destruct (snq_Snapshot _); asserted.
Qed.

Lemma blob_served : serves handleContentBlobCall.
Proof.
  intros past m payload h. destruct m; intros [= <-];
    unfold putContentBlobs, getContentBlobs, reportMetrics, queryMetrics; asserted.
  - eapply keeps_bind with (Q := λ _ _, True); [by split; [|intros []]|by intros].
  - by split; [|intros []].
Qed.

Lemma firstServed_keeps past m payload :
  keeping past (firstServed (handlers (agentRunMutationContext m)) m payload).
Proof.
  assert (Forall (λ handle : Method → bytes → option (handler response),
    ∀ h, handle m payload = Some h → keeping past h) (handlers (agentRunMutationContext m))) as Hall.
  { repeat constructor; intros h.
    - apply session_served. - apply turn_served. - apply model_served. - apply job_served.
    - apply run_served. - apply recovery_served. - apply record_served. - apply blob_served. }
  induction Hall as [|handle rest Hhandle _ IH]; cbn; [done|].
  destruct (handle m payload) as [h|]; [by apply Hhandle|done].
Qed.

Lemma inbox_keeps past r : currentWorker past → keeping past (callExecutionInbox r).
Proof.
  intros Hcurrent. unfold callExecutionInbox, acceptExecutionMessage, acceptChildExecutionMessage,
    deliverExecutionMessages, deliverChildExecutionMessages.
  destruct (er_Operation r); asserted.
Qed.

Lemma deferred_keeps past r : currentWorker past → keeping past (callExecutionDeferred r).
Proof.
  intros Hcurrent. pose proof (inbox_keeps past r Hcurrent).
  unfold callExecutionDeferred, deferExecutionMessage, acquireDeferredTurn.
  destruct (er_Operation r); asserted; done.
Qed.

Lemma turns_keeps past r :
  currentWorker past →
  (er_Operation r = executionReserveCompletion → le_GenerationID (er_Lease r) = co_generationID c) →
  keeping past (callExecutionTurn r).
Proof.
  intros Hcurrent Hlease. pose proof (deferred_keeps past r Hcurrent).
  unfold callExecutionTurn, restoreTurn. destruct (er_Operation r); try done.
  - specialize (Hlease eq_refl). asserted.
  - destruct (_ || _) eqn:E; [done|]. apply orb_false_iff in E as [Ho Hw].
    apply negb_false_iff, bool_decide_eq_true in Ho, Hw. asserted.
  - asserted.
  - asserted.
Qed.

Lemma activities_keeps past r : currentWorker past → keeping past (callExecutionActivities r).
Proof.
  intros Hcurrent. unfold callExecutionActivities, authorizeActivityGeneration.
  apply generation_keeps. intros Hgeneration. pose proof (turns_keeps past r Hcurrent) as Hturns.
  unfold completeExecutionActivity. destruct (er_Operation r); asserted; by apply Hturns.
Qed.

Lemma executions_keeps past r : currentWorker past → keeping past (callExecutionStore r).
Proof.
  intros Hcurrent. pose proof (activities_keeps past r Hcurrent).
  unfold callExecutionStore, callAgentExecutionControl, resumeExecutionFromActivity.
  destruct (er_Operation r); asserted; done.
Qed.

Lemma workflows_keeps past pageBytes r :
  currentWorker past →
  keeping past (call uuidString uuidParse QueueSystem jsonLength (co_sessionID c) pageBytes r).
Proof.
  intros Hcurrent. eapply keeps_policy; [apply call_keeps|].
  intros more a Ha. pose proof (currentWorker_more past more Hcurrent). by destruct a.
Qed.

Lemma HandleCall_keeps method payload : keeping [] (HandleCall method payload).
Proof.
  unfold HandleCall. destruct (methodOf method) as [m|]; [|done].
  assert (keeping [] (handleExecutionCall payload)) as Hexecutions.
  { unfold handleExecutionCall. asserted.
    eapply keeps_bind; [apply requireCurrentWorkflowWorker_keeps|]. intros more [] Hcurrent.
    by apply executions_keeps. }
  assert (keeping [] (handleWorkflowCall payload)) as Hworkflows.
  { unfold handleWorkflowCall. destruct (co_historyPageBytes c) as [pageBytes|]; [|done]. asserted.
    eapply keeps_bind; [apply requireCurrentWorkflowWorker_keeps|]. intros more [] Hcurrent.
    by apply keeps_mapError, workflows_keeps. }
  destruct m; first [done|apply firstServed_keeps].
Qed.

(** C27: Whatever a worker calls, with whatever payload, and whatever the store and the
    workflow backend answer: every operation it leads to is on the worker's own session
    and acts for its own generation; writes to child runs carry its fence; executions and
    workflows are reached only by the session's current, active worker; and the workflow
    backend is asked only for instances in the session's name space that it has said
    lie on the session's queue.  [kept] says so of each operation with those before it. *)
Theorem worker_confined {W} (serve : ∀ a, W → W * outcome (result Input Answer a)) (w : W)
    (method payload : bytes) :
  kept confined [] (run serve (HandleCall method payload) w).1.2.
Proof. by apply (keeps_run confined serve _ [] answers), HandleCall_keeps. Qed.
End controller.

(** ** A worker of session 0 and generation 7 *)

Section sample.
Local Abbreviation Input := (λ _ : inputType, unit).

#[local] Instance lease_inhabited : Inhabited Lease := populate (mkTurnHold 0 0 0).
#[local] Instance activity_lease_inhabited : Inhabited ActivityLease := populate noLease.
#[local] Instance end_inhabited : Inhabited TurnEnd := populate CancelledTurnEnd.
#[local] Instance turn_inhabited : Inhabited StartTurnInput :=
  populate (mkStartTurn 0 [] [] [] [] None None None).
#[local] Instance run_inhabited : Inhabited StartAgentRunInput :=
  populate (mkStartRun 0 0 None None 0 [] AgentRunDefinitionStored 0 [] [] [] [] [] [] []).
#[local] Instance claim_inhabited : Inhabited ClaimAgentRunInput :=
  populate (mkClaimInput 0 None AgentRunStateRunning).
#[local] Instance control_inhabited : Inhabited (controlInput Input) := populate (mkControlInput noLease tt).
#[local] Instance restore_inhabited : Inhabited RestoreExecutionTurnInput := populate (mkRestore 0 0 0 0).
#[local] Instance deliver_inhabited : Inhabited DeliverExecutionMessagesInput :=
  populate (mkDeliver inhabitant noLease []).
#[local] Instance execution_inhabited : Inhabited (executionRequest (Input := Input)) :=
  populate (mkExecutionRequest 0 inhabitant executionCreate 0 0 0 0 tt tt [] tt tt noLease tt tt
    inhabitant inhabitant inhabitant inhabitant tt tt inhabitant).
#[local] Instance workflow_inhabited : Inhabited (workflowRequest (Input := Input)) :=
  populate (mkWorkflowRequest workflowGetTask None [] None [] None WorkflowInstanceStateActive
    None None [] [] [] []).

(** A codec that reads only empty payloads, as zero values. *)
#[local] Instance sampleWire {A} `{!Inhabited A} : Wire A :=
  {| zeroValue := inhabitant; unmarshal _ := None |}.
#[local] Instance session_inhabited : Inhabited SessionRequest := populate (mkSessionRequest 0).
#[local] Instance child_inhabited : Inhabited ChildRequest := populate (mkChildRequest 0 0).
#[local] Instance nested_inhabited : Inhabited NestedChildRequest := populate (mkNestedRequest 0 0 0).
#[local] Instance hash_inhabited : Inhabited HashRequest := populate (mkHashRequest 0 []).
#[local] Instance hashes_inhabited : Inhabited ContentBlobHashesRequest := populate (mkHashesRequest 0 []).
#[local] Instance lease_request_inhabited : Inhabited LeaseRequest := populate (mkLeaseRequest inhabitant).
#[local] Instance end_request_inhabited : Inhabited EndTurnRequest :=
  populate (mkEndTurnRequest 0 0 inhabitant).
#[local] Instance record_inhabited : Inhabited RecordTurnWorkerRequest := populate (mkRecordWorker inhabitant 0).

Section requests.
Context {A : Type} `{!Inhabited A}.
#[local] Instance options_inhabited : Inhabited (OptionsRequest A) := populate (mkOptionsRequest _ 0 inhabitant).
#[local] Instance child_options_inhabited : Inhabited (ChildOptionsRequest A) :=
  populate (mkChildOptionsRequest _ 0 0 inhabitant).
#[local] Instance input_inhabited : Inhabited (InputRequest A) := populate (mkInputRequest 0 inhabitant).
#[local] Instance child_input_inhabited : Inhabited (ChildInputRequest A) :=
  populate (mkChildInputRequest _ 0 0 inhabitant).
#[local] Instance nested_input_inhabited : Inhabited (NestedChildInputRequest A) :=
  populate (mkNestedInputRequest _ 0 0 0 inhabitant).
#[local] Instance lease_input_inhabited : Inhabited (LeaseInputRequest A) :=
  populate (mkLeaseInputRequest _ inhabitant inhabitant).
#[local] Instance snapshot_inhabited : Inhabited (SnapshotRequest A) := populate (mkSnapshotRequest _ 0 None).
#[local] Instance blobs_inhabited : Inhabited (ContentBlobsRequest A) := populate (mkBlobsRequest _ 0 inhabitant).
#[local] Instance open_inhabited : Inhabited (CreateOrResumeRequest A) := populate (mkOpenRequest _ 0 inhabitant).
End requests.
#[local] Existing Instances options_inhabited child_options_inhabited input_inhabited
  child_input_inhabited nested_input_inhabited lease_input_inhabited snapshot_inhabited
  blobs_inhabited open_inhabited.
#[local] Instance checkpoint_inhabited : Inhabited (CheckpointRequest unit unit) :=
  populate (mkCheckpointRequest _ _ inhabitant tt tt).

(** A store that answers nothing but refusals. *)
Definition refusing (a : action Input) (w : unit) : unit * outcome (result Input unit a) :=
  (w, Err ErrConflict).

Definition sampleCall (c : Controller) (method : bytes) : list (action Input) * outcome (response Input unit) :=
  let '(_, asked, answer) :=
    run refusing (HandleCall (Input := Input) (Answer := unit) (λ _, bs "s") (λ _, None) (bs "system")
                    (λ _, Some 0%Z) c method []) tt in
  (ev_action <$> asked, answer).

(** A turn is acquired for the worker's own generation. *)
Example acquire_stamped :
  sampleCall (mkController 0 7 None) (bs "turn.acquire") =
    ([StoreCall None (AcquireTurn 0 (mkStartTurn 0 [] [] [] [] None None (Some 7%N)))], Err ErrConflict).
Proof. by vm_compute. Qed.

(** A request for another session, an unknown method and an unattached workflow
    storage are refused without a call. *)
Example other_session_refused :
  sampleCall (mkController 5 7 None) (bs "session.createOrResume") = ([], Err ErrPermissionDenied).
Proof. by vm_compute. Qed.
Example unpublished_refused :
  sampleCall (mkController 0 7 None) (bs "session.delete") = ([], Err ErrNotImplemented) ∧
  sampleCall (mkController 0 7 None) (bs "workflow.backend") = ([], Err ErrNotImplemented).
Proof. by vm_compute. Qed.

(** An execution is reached after the worker's generation has been read. *)
Example execution_asks_first :
  sampleCall (mkController 0 7 None) (bs "execution.store") =
    ([StoreCall None (GetWorkerGeneration 0 7)], Err ErrConflict).
Proof. by vm_compute. Qed.
End sample.
End Controller.
